(* ===== verification/_CoqProject ===== *)
-Q . S2P
Prelude.v
Bytes.v
Codec.v
Table.v
LockState.v
LockProofs.v
Command.v
StreamTier.v
StreamProofs.v
Version.v
VersionProofs.v
Records.v
RecordProofs.v
RecordOps.v
Rename.v
RenameProofs.v
StateMachine.v
MachineProofs.v
KeysUtf8.v
Eventual.v
Replica.v
Recovery.v
Replication.v
ReplicationProofs.v
Anomalies.v
RaftStorage.v
RaftStorageProofs.v
Rebac.v
RebacProofs.v
RebacExpand.v
RebacInterned.v
RebacStore.v
RebacEnforce.v
IoLocks.v
IoLockProofs.v
Router.v
Agents.v
AgentProofs.v
RouterProofs.v
Pipe.v
PipeProofs.v
PipeManager.v
PipeManagerProofs.v
StreamBuf.v
StreamBufProofs.v
StreamManager.v
StreamManagerProofs.v
Cas.v
CasProofs.v
CasRange.v
CasLimits.v
CasFetch.v
MetaStore.v
LocalStore.v
LocalStoreProofs.v
LocalRefine.v
LocalOpen.v
LocalCache.v
KernelTypes.v
Dispatch.v
Kernel.v
KernelFiles.v
KernelNames.v
KernelList.v
KernelLockProofs.v
KernelReleases.v
KernelWorld.v
KernelRename.v
KernelProofs.v
KernelPages.v
KernelRoundtrip.v
HostFs.v
HostFsProofs.v
LocalBackends.v
BackendProofs.v
Confined.v
KernelLocal.v
KernelFrame.v
A2a.v
A2aProofs.v
