(* ===== verification/Prelude.v ===== *)
(** * nexus-vfs: a verification development

    nexus-vfs is a distributed virtual file system in Rust.  Each zone of the
    file system is a raft group: its metadata, record streams, advisory locks
    and control records live in a replicated state machine over a redb store
    (src/rust/raft).  Beside the log, a zone has an eventually consistent plane
    in which nodes write locally and ship their writes to each other.  Access is
    decided by relationship tuples kept in the control zone (src/rust/lib,
    src/rust/rebac).  Each node runs a kernel (src/rust/kernel) that routes paths
    through a mount table to zones and backends, serializes file accesses with
    in-process locks, carries pipes and streams between processes, and keeps file
    content under its hash.

    ** Conventions

    Rust strings and byte vectors are stdpp [string]s, read as bytes.  Unsigned
    integers are [N] and signed ones [Z], with [wrap32], [wrap64], [wrap_i64]
    written out where the code can wrap; the subtraction of [N] is the
    [saturating_sub] of the source.  Redb tables, [BTreeMap]s and hash maps are
    stdpp [gmap]s; ordered iteration is the sorted list of entries (Table.v),
    unordered iteration is some list of the entries.  [Result] is the monad
    [result]; the body of a redb write transaction is the monad [txn] (Command.v),
    whose failures leave the trees as they were.  Applying a log entry gives
    [Applied], [Panicked] (the node stops, as the source does when the state
    machine fails) or [Hung] (a loop that never ends).

    Third-party and generated code enters as parameters with stated laws: the
    protobuf codec of metadata records ([MetadataCodec], Rename.v), the codec of
    raft-rs messages ([RaftCodec], RaftStorage.v), bincode of log commands and
    replication entries ([ReplicationCodec], Replication.v), the parsing of RFC 3339
    time stamps (Eventual.v), and BLAKE3, FastCDC and the JSON of manifests
    ([CasEnv], [CasLaws], CasProofs.v; the hash is taken to have no collisions), and
    bincode of metadata rows ([RowCodec], LocalStore.v); for messages between agents,
    serde_json ([Json], [JsonLaws], [SessionLaws]), base32 ([Base32], [Base32Laws]) and
    the record of a space ([SpaceCodec], all A2a.v and A2aProofs.v, which also gives
    instances that satisfy the laws).
    Redb itself is taken not to fail and to commit atomically.

    ** Files

    - Prelude.v, Bytes.v, Codec.v, Table.v: results, machine integers, strings
      and their Rust operations, integer and text encodings with a codec of small
      records (which shows that the laws asked of the third-party codecs can hold),
      ordered tables (src/rust/raft/src/storage/redb_store.rs).
    - LockState.v, LockProofs.v: the advisory lock table,
      src/rust/contracts/src/lock_state.rs.  One definition per transition and
      read; the theorems give the invariant of every run, the exact condition of
      a grant, its effect, and the listing.
    - Command.v: [Command], [CommandResult] and the errors of
      src/rust/raft/src/raft/state_machine.rs and error.rs, and the transaction
      monad over the three trees of a zone.
    - StreamTier.v, StreamProofs.v: the record streams of state_machine.rs, with
      hot rows, cursors and sealed segments; they refine an append-only log with
      a cold index, and every retained offset is readable.
    - Version.v, VersionProofs.v: [extract_version], the hand-written protobuf
      scan behind compare-and-set, at byte level with wrapping indices; correct
      on protobuf messages, and able to hang on others.
    - Records.v, RecordProofs.v, RecordOps.v: conditional,
      protected and guarded records (src/rust/raft/src/raft/state_machine/
      conditional_metadata.rs, protected_metadata.rs, record_guard.rs,
      record_guard/io.rs).  Total correctness triples per operation.
    - Rename.v, RenameProofs.v: the subtree rename, metadata_rename.rs.
    - StateMachine.v, MachineProofs.v, KeysUtf8.v: [FullStateMachine]: dispatch
      of every command, [apply] with its applied marker and observers, local and
      peer application, snapshot and restore, reads; the invariants of every
      transaction.
    - Replica.v: runs of [apply] over a log: the replica stays healthy, no lost
      update, protected records are fenced, retirement is permanent, renames
      move exactly the subtree.
    - Recovery.v: restart, snapshot catch-up and the boot sequence of
      src/rust/raft/src/raft/zone_registry.rs give back the running replica.
    - Eventual.v: the last-writer-wins merge converges; anti-entropy transfers
      what the sender can vouch for; records are out of its reach.
    - Replication.v, ReplicationProofs.v: the write-ahead log of local writes
      (replication_log.rs), the passes of transport_loop.rs, the handlers of
      transport/server.rs.  The log refines a map that survives restarts, an
      acknowledgement means delivery, the watermark is the quorum's, compaction
      keeps what a known peer needs.
    - RaftStorage.v, RaftStorageProofs.v: the log storage behind raft-rs
      (src/rust/raft/src/raft/storage.rs) refines a raft log.
    - Anomalies.v: executions in which the code departs from what it promises.
    - Rebac.v, RebacProofs.v, RebacExpand.v, RebacInterned.v: the relationship
      graph, the memoised check, the expansion and the interned check
      (src/rust/lib/src/rebac, src/rust/lib/src/types.rs), against an inductive
      reference semantics ([granted]).
    - RebacStore.v, RebacEnforce.v: tuple keys, tuple stores, graph cache,
      permission provider and zone listing (src/rust/rebac/src).  The class
      [TupleStoreLaws] is what a store promises; the in-memory store and the
      replicated store satisfy it, and the enforcement theorems are proved
      against it.
    - IoLocks.v, IoLockProofs.v: the in-process locks of
      src/rust/kernel/src/core/lock/mod.rs and the [Locks] interface of its
      advisory half.  The steps of waiting and releasing threads keep readers and
      writers of a path, its ancestors and its descendants apart.
    - Router.v, RouterProofs.v: the mount table of
      src/rust/kernel/src/core/vfs_router.rs and [Kernel::add_mount]: routing
      finds the deepest mount, slots are independent, zone paths and global paths
      correspond, subtrees of a zone keep apart.
    - Pipe.v, PipeProofs.v: the byte ring of src/rust/kernel/src/core/pipe/mod.rs.
      Every load and store of a shared field the other side could tell apart is a
      step; in every interleaving the ring is a bounded queue.
    - PipeManager.v, PipeManagerProofs.v: the registry of pipes (pipe/manager.rs).
      The class [PipeLaws] is what a backend promises; the registry refines a map
      of queues, and no blocked reader misses its wake-up.
    - StreamBuf.v, StreamBufProofs.v: the append-only buffer of
      src/rust/kernel/src/core/stream/mod.rs, read at byte offsets while it is
      written.
    - StreamManager.v, StreamManagerProofs.v: the registry of streams
      (stream/manager.rs): copying, whole reads, and blocked readers.
    - Agents.v, AgentProofs.v: the registry of agents
      (src/rust/kernel/src/core/agents/registry.rs) and the text of a pid
      (src/rust/contracts/src/agent_pid.rs).  The methods are composed of the pieces
      they run under a map guard; the same pieces, as tasks of threads, interleave in
      [agent_step].  Over every interleaving the callbacks of an agent that ends are
      called once, before its pid is free, and a handle never reaches a later holder
      of the pid; [methods_are_steps] says that the methods are such runs.
    - Cas.v, CasProofs.v, CasRange.v, CasLimits.v: content addressed
      storage (src/rust/kernel/src/core/cas: transport.rs, chunking.rs,
      engine.rs).  Files are a map from paths to bytes.  [stored] says what
      content an id stands for; writes produce it, whole, range and partial
      operations act on it, and an id determines its content on any files.
    - CasFetch.v: the peer fetcher of cas/remote.rs as a race of one thread per origin.
    - MetaStore.v, LocalStore.v: the metadata store trait of
      src/rust/kernel/src/abc/meta_store.rs with its default methods, and the
      node's own store over redb, src/rust/kernel/src/core/meta_store/mod.rs.
      It also states what a store promises (a map of rows, a map of auxiliary
      values and a commit count); LocalStoreProofs.v and LocalRefine.v
      show that every run of the store with its cache gives the answers of that
      specification.  LocalOpen.v is the start on a database of any earlier
      layout, LocalCache.v the concurrent threads of reads and writes behind the
      cache.
    - KernelTypes.v, Dispatch.v: the data of the system calls
      (src/rust/kernel/src/kernel/mod.rs, abc/object_store.rs), the trie of virtual
      paths and the registries of hooks and observers (core/dispatch/mod.rs).
    - Kernel.v: the state of the kernel, the monad of its calls ([K]: a state, an
      error that keeps the state reached, and [None] for a panic), and what the calls
      share: permission gate and hooks (kernel/dispatch.rs), choice of the metadata
      store, links, events, open descriptors (core/fdt.rs), locks, peers.
    - KernelFiles.v, KernelNames.v, KernelList.v: the
      system calls of kernel/syscall_impl.rs and kernel/locks.rs, whole: read, write
      and mode of one path; mkdir, rmdir, unlink, rename, copy and unmount; advisory
      locks by path; stat and directory listings; writing several files.  They are
      composed of the router, the locks, the metadata store interface, the pipes and
      the streams of the files above; object stores ([ObjectStores]) and peers are
      parameters.
    - KernelLockProofs.v, KernelReleases.v: a small logic of held locks, and with it
      that every call on a path gives its locks back on every outcome, errors
      included.  KernelRename.v: a rename that fails leaves rows and bytes in place,
      unless it replaced a file.  KernelProofs.v: a denied call changes nothing.
      KernelRoundtrip.v: what a write stored, a read returns, through both calls.
      KernelPages.v: following the cursors of a listing visits every entry once.
      KernelWorld.v is a small node on which the calls are evaluated.
    - HostFs.v, HostFsProofs.v: what the local backends use of [std::fs]: a tree of
      files, directories and symbolic links, inodes, and the walk of a path as the
      host does it.  LocalBackends.v: the backends that keep a file at
      its path below a root (src/rust/backends/src/storage: path_local.rs,
      local_connector.rs) and the path of the remote backend (mount_path.rs).
      BackendProofs.v: they keep the laws the system calls ask of an object store, and
      their chunked access.
      Confined.v: they change nothing outside their root where no link leads out of
      it, and how a link leads out of it.
    - KernelLocal.v: the system calls on a node's own stores, the local metadata store
      and the local backends: a write is read back, a failed rename leaves everything
      in place.  KernelFrame.v: files do not interfere, so what was written last to a
      path is read back after any calls but renames on other files.
    - A2a.v, A2aProofs.v: messages between agents (src/rust/a2a/src), the composite
      permission provider of a cluster node (src/rust/profiles/cluster/src/authorization.rs),
      zone grants (src/rust/permission/src/zone_perms.rs), zone ids
      (src/rust/contracts/src/zone_id.rs) and the replicated store of space policies
      (src/rust/raft/src/collaboration_store.rs).  In the kernel of KernelFiles.v with
      the hook and the provider of the cluster, bytes that reach a conversation name
      their real sender, and an agent of another organisation reaches nothing outside
      its scope, whatever links it uses.  A session delivers each message once and in
      order.  A space admits members to their own conversations only, its policy never
      changes, and its revocation is final, over all interleavings of callers.  The last
      part shows by evaluation what these gates still let through.

    ** Bounds and fuel

    [scan_loop] (Version.v) runs on the number of indices left in the message:
    [scan_loop_diverges] shows it runs out only where the loop of the source
    never ends, and the result is then [Hung].  The walks of Rebac.v recurse on
    the levels left below [MAX_DEPTH], as the source does; they need no other
    fuel.  [entries_loop] (RaftStorage.v) recurses on the width of the index
    range.  [ancestors_loop] (LockState.v) has the length of the
    path as fuel, which [elem_of_ancestors_loop] shows to be enough, and so have
    [ancestors_collect] (IoLocks.v) and [route_loop] (Router.v), whose rounds
    shorten the path.  [pop_loop] (Pipe.v) has the bytes of the ring: each skip
    moves the head on ([pop_loop_spec]).  The whole reads of StreamManager.v take
    their fuel as an argument, and [forward_appends] shows that one more than the
    number of messages is enough.  The trims of
    Bytes.v have the length of the string ([trim_clean]).  [missing_parents]
    (KernelNames.v) has the length of the path, and each round drops its last
    component; the calls that follow links recurse on the hops left, as the source
    does.  [binary_search] (A2a.v) has the length of the list, and each round
    shortens the range ([binary_search_spec]).  [namei] (HostFs.v) recurses on the links left to follow, 40 as on Linux, and
    then fails as the host does.  All other loops are structural.

    The byte counters of pipes and the generation of a stream's notification are
    64 bits wide; the theorems on them assume runs that stay below that width.
    Lengths of messages are below 2^32, the width of their prefix, because the
    capacity of a buffer is assumed to be.

    A system call is run from its start to its end while other threads stand still;
    what they hold when it starts is part of the state, so a lock may be refused, but
    interleavings of two calls are not covered.  The theorems on calls that store
    something are proved against laws of the metadata store and of the object store (a
    store gives back what it accepted), and KernelLocal.v discharges them for the
    stores of a node.  Of the host it is assumed that nobody else changes the files
    below a root during a call, that new files and directories get the usual modes,
    and that an operation fails only for what it finds in the tree.  The release of
    the locks is proved for the calls on one path or a pair of paths, not for the
    batch write.

    ** Not modelled

    Networking (gRPC, TLS, certificates), remote object stores, temporary files and
    syncing to disk, process
    management and the async runtimes; raft-rs, whose calls into the storage and
    the state machine are the interface verified here; of the kernel, the batch
    read (its items run in parallel on a thread pool), [sys_setattr], the
    registry of services, the file watchers, and the pipe and stream backends other than the
    in-memory ones; search, plugins and clients.
    Time is an argument of the operations that read a clock. *)

From stdpp Require Export base tactics list gmap strings pretty sorting fin_maps.
From stdpp Require Import options.

(** ** Results

    [Result<T, E>] of the source.  [result E] is a monad: a function body that
    uses [?] is written with stdpp's [x ← c; k]. *)

Inductive result (E A : Type) : Type :=
  | Ok (a : A)
  | Err (e : E).
Arguments Ok {E A} a.
Arguments Err {E A} e.

#[global] Instance result_ret E : MRet (result E) := λ A a, Ok a.
#[global] Instance result_bind E : MBind (result E) := λ A B f r,
  match r with Ok a => f a | Err e => Err e end.

Definition is_ok {E A} (r : result E A) : bool :=
  match r with Ok _ => true | Err _ => false end.

Lemma result_bind_Ok {E A B} (r : result E A) (f : A → result E B) b :
  (r ≫= f) = Ok b ↔ ∃ a, r = Ok a ∧ f a = Ok b.
Proof. destruct r as [a|e]; simpl; naive_solver. Qed.

(** ** Machine integers

    Unsigned machine integers are [N]; a place of the source where the
    addition can overflow writes the reduction out ([wrap64], the release
    profile's behaviour) or the saturation ([sat_add64]). *)

Definition U32_MOD : N := 4294967296.
Definition U64_MOD : N := 18446744073709551616.
Definition U64_MAX : N := 18446744073709551615.
Definition I64_MAX : Z := 9223372036854775807.

Definition wrap32 (n : N) : N := (n mod U32_MOD)%N.
Definition wrap64 (n : N) : N := (n mod U64_MOD)%N.
Definition sat_add32 (a b : N) : N := (N.min (a + b) (U32_MOD - 1))%N.
Definition sat_add64 (a b : N) : N := (N.min (a + b) U64_MAX)%N.

(** [a + b] on [i64] in the release profile: two's complement wrap-around. *)
Definition wrap_i64 (z : Z) : Z :=
  let r := (z mod 18446744073709551616)%Z in
  if (r <=? I64_MAX)%Z then r else (r - 18446744073709551616)%Z.

Lemma wrap_i64_small z :
  (-9223372036854775808 ≤ z ≤ I64_MAX)%Z → wrap_i64 z = z.
Proof.
  unfold wrap_i64, I64_MAX. intros Hz.
  destruct (decide (0 ≤ z)%Z).
  - rewrite Z.mod_small by lia. destruct (Z.leb_spec z 9223372036854775807); lia.
  - replace (z mod 18446744073709551616)%Z with (z + 18446744073709551616)%Z.
    + destruct (Z.leb_spec (z + 18446744073709551616) 9223372036854775807); lia.
    + apply Z.mod_unique with (q := (-1)%Z); lia.
Qed.

Lemma U64_MOD_MAX : U64_MOD = (U64_MAX + 1)%N.
Proof. reflexivity. Qed.

Lemma wrap64_small n : (n < U64_MOD)%N → wrap64 n = n.
Proof. apply N.mod_small. Qed.

(** ** Proof automation *)

(** Split a hypothesis that says a computation in [result] succeeded. *)
Ltac result_inv :=
  repeat match goal with
  | H : Ok _ = Ok _ |- _ => injection H as H; subst
  | H : Err _ = Ok _ |- _ => discriminate H
  | H : Ok _ = Err _ |- _ => discriminate H
  | H : (_ ≫= _) = Ok _ |- _ =>
      apply result_bind_Ok in H; destruct H as (? & ? & H)
  | H : mret _ = Ok _ |- _ => unfold mret, result_ret in H
  | H : (match ?x with _ => _ end) = Ok _ |- _ => destruct x eqn:?; simpl in H
  end.

(** Boolean guards of the source, as propositions. *)
Ltac bool_simpl :=
  repeat match goal with
  | H : (_ && _) = true |- _ => apply andb_true_iff in H as [? ?]
  | H : (_ || _) = false |- _ => apply orb_false_iff in H as [? ?]
  | H : negb _ = true |- _ => apply negb_true_iff in H
  | H : negb _ = false |- _ => apply negb_false_iff in H
  | H : bool_decide _ = true |- _ => apply bool_decide_eq_true_1 in H
  | H : bool_decide _ = false |- _ => apply bool_decide_eq_false_1 in H
  | H : (_ <=? _)%N = true |- _ => apply N.leb_le in H
  | H : (_ <=? _)%N = false |- _ => apply N.leb_gt in H
  | H : (_ <? _)%N = true |- _ => apply N.ltb_lt in H
  | H : (_ <? _)%N = false |- _ => apply N.ltb_ge in H
  | H : (_ =? _)%N = true |- _ => apply N.eqb_eq in H
  | H : (_ =? _)%N = false |- _ => apply N.eqb_neq in H
  end.

Create HintDb nexus.

(** ** Filters *)

Lemma filter_all {A} (P : A → Prop) `{∀ x, Decision (P x)} l : Forall P l → filter P l = l.
Proof. induction 1 as [|x l Hx _ IH]; [done|]. rewrite filter_cons_True by done. by rewrite IH. Qed.

Lemma filter_nothing {A} (P Q : A → Prop) `{∀ x, Decision (P x)} l :
  Forall Q l → (∀ x, Q x → ¬ P x) → filter P l = [].
Proof. intros HQ HPQ. induction HQ as [|x l Hx _ IH]; [done|]. rewrite filter_cons_False by auto. done. Qed.
