(* ===== verification/Bytes.v ===== *)
(** * Byte strings

    The source's [String], [&str], [Vec<u8>] and [&[u8]] are all stdpp
    [string]s, read as sequences of bytes (an [ascii] is eight bits).  This
    file models the parts of the Rust standard library the modelled code calls
    on them: prefixes, suffixes, splits and searches, UTF-8 validity,
    big-endian integer encodings, decimal formatting and parsing, and the
    byte-wise order of keys. *)

From Stdlib Require Export Ascii.
From Stdlib Require String.
From S2P Require Import Prelude.

(** ** Concatenation *)

Lemma sapp_nil_l s : "" +:+ s = s.
Proof. done. Qed.

Lemma sapp_cons a s t : String a s +:+ t = String a (s +:+ t).
Proof. done. Qed.

Lemma sapp_nil_r s : s +:+ "" = s.
Proof. induction s as [|a s IH]; [done|]. by rewrite sapp_cons, IH. Qed.

Lemma sapp_assoc s t u : s +:+ (t +:+ u) = (s +:+ t) +:+ u.
Proof. induction s as [|a s IH]; [done|]. by rewrite !sapp_cons, IH. Qed.

Lemma slen_app s t :
  String.length (s +:+ t) = String.length s + String.length t.
Proof. induction s as [|a s IH]; [done|]. rewrite sapp_cons. simpl. by rewrite IH. Qed.

Lemma sapp_inj_len s1 s2 t1 t2 :
  String.length s1 = String.length s2 →
  s1 +:+ t1 = s2 +:+ t2 → s1 = s2 ∧ t1 = t2.
Proof.
  revert s2. induction s1 as [|a s1 IH]; intros [|b s2] Hl He; try done.
  rewrite !sapp_cons in He. injection He as -> He. simpl in Hl.
  destruct (IH s2) as [-> ->]; auto with lia.
Qed.

Lemma sapp_inj_r s1 s2 t : s1 +:+ t = s2 +:+ t → s1 = s2.
Proof.
  intros He. pose proof (f_equal String.length He) as Hl.
  rewrite !slen_app in Hl. by apply (sapp_inj_len s1 s2 t t); [lia|].
Qed.

Lemma sapp_eq_nil s t : s +:+ t = "" → s = "" ∧ t = "".
Proof. by destruct s. Qed.

(** ** Prefixes and suffixes *)

(** [s.starts_with(p)] *)
Fixpoint starts_with (p s : string) : bool :=
  match p, s with
  | "", _ => true
  | String a p', String b s' => bool_decide (a = b) && starts_with p' s'
  | String _ _, "" => false
  end.

(** [s.strip_prefix(p)] *)
Fixpoint strip_prefix (p s : string) : option string :=
  match p, s with
  | "", _ => Some s
  | String a p', String b s' =>
      if decide (a = b) then strip_prefix p' s' else None
  | String _ _, "" => None
  end.

(** [&s[n..]] and [&s[..n]] for [n <= s.len()] *)
Fixpoint sdrop (n : nat) (s : string) : string :=
  match n, s with
  | O, _ => s
  | S n', String _ s' => sdrop n' s'
  | S _, "" => ""
  end.

Fixpoint stake (n : nat) (s : string) : string :=
  match n, s with
  | O, _ => ""
  | S n', String a s' => String a (stake n' s')
  | S _, "" => ""
  end.

(** [s.ends_with(t)] *)
Definition ends_with (t s : string) : bool :=
  (String.length t <=? String.length s) &&
  bool_decide (sdrop (String.length s - String.length t) s = t).

Lemma strip_prefix_Some p s r : strip_prefix p s = Some r ↔ s = p +:+ r.
Proof.
  revert s. induction p as [|a p IH]; intros s; simpl.
  - rewrite sapp_nil_l. naive_solver.
  - destruct s as [|b s]; [by rewrite sapp_cons|].
    rewrite sapp_cons. case_decide; [|naive_solver].
    rewrite IH. naive_solver.
Qed.

Lemma strip_prefix_app p r : strip_prefix p (p +:+ r) = Some r.
Proof. by apply strip_prefix_Some. Qed.

Lemma starts_with_true p s : starts_with p s = true ↔ ∃ r, s = p +:+ r.
Proof.
  revert s. induction p as [|a p IH]; intros s; simpl.
  - split; [intros _; by exists s|done].
  - destruct s as [|b s].
    + split; [done|]. intros [r Hr]. by rewrite sapp_cons in Hr.
    + rewrite andb_true_iff, bool_decide_eq_true, IH. split.
      * intros [-> [r ->]]. by exists r.
      * intros [r Hr]. rewrite sapp_cons in Hr. injection Hr as -> ->. eauto.
Qed.

Lemma starts_with_app p r : starts_with p (p +:+ r) = true.
Proof. apply starts_with_true. eauto. Qed.

Lemma starts_with_strip p s :
  starts_with p s = bool_decide (is_Some (strip_prefix p s)).
Proof.
  destruct (starts_with p s) eqn:E; symmetry.
  - apply bool_decide_eq_true_2. apply starts_with_true in E as [r ->].
    rewrite strip_prefix_app. eauto.
  - apply bool_decide_eq_false_2. intros [r Hr%strip_prefix_Some].
    rewrite Hr, starts_with_app in E. done.
Qed.

(** Two prefixes of one string are comparable. *)
Lemma starts_with_total p q k :
  starts_with p k = true → starts_with q k = true →
  starts_with p q = true ∨ starts_with q p = true.
Proof.
  rewrite !starts_with_true. intros [x ->]. revert q.
  induction p as [|a p IH]; intros q [y Hy]; [by eauto|].
  destruct q as [|b q]; [right; by exists (String a p)|].
  rewrite !sapp_cons in Hy. injection Hy as -> Hy.
  destruct (IH q) as [[r ->]|[r ->]]; [by exists y|left|right]; by exists r.
Qed.

Lemma sdrop_app s t : sdrop (String.length s) (s +:+ t) = t.
Proof. induction s as [|a s IH]; [done|]. rewrite sapp_cons. done. Qed.

Lemma stake_app s t : stake (String.length s) (s +:+ t) = s.
Proof. induction s as [|a s IH]; [done|]. rewrite sapp_cons. simpl. by rewrite IH. Qed.

Lemma stake_sdrop n s : stake n s +:+ sdrop n s = s.
Proof.
  revert s. induction n as [|n IH]; intros [|a s]; simpl; try done.
  rewrite sapp_cons. by rewrite IH.
Qed.

Lemma slen_stake n s :
  String.length (stake n s) = n `min` String.length s.
Proof. revert s. induction n as [|n IH]; intros [|a s]; simpl; auto with lia. Qed.

Lemma slen_sdrop n s :
  String.length (sdrop n s) = String.length s - n.
Proof. revert s. induction n as [|n IH]; intros [|a s]; simpl; auto with lia. Qed.

Lemma ends_with_true t s : ends_with t s = true ↔ ∃ r, s = r +:+ t.
Proof.
  unfold ends_with. rewrite andb_true_iff, Nat.leb_le, bool_decide_eq_true. split.
  - intros [Hl Hd]. exists (stake (String.length s - String.length t) s).
    rewrite <-(stake_sdrop (String.length s - String.length t) s) at 1.
    by rewrite Hd.
  - intros [r ->]. rewrite slen_app. split; [lia|].
    replace (String.length r + String.length t - String.length t)
      with (String.length r) by lia.
    apply sdrop_app.
Qed.

Lemma ends_with_slash_cons a b s : ends_with "/" (String a (String b s)) = ends_with "/" (String b s).
Proof. unfold ends_with. cbn. by destruct (String.length s). Qed.

Lemma ends_with_slash_app s t : t ≠ "" → ends_with "/" (s +:+ t) = ends_with "/" t.
Proof.
  intros Ht. induction s as [|a s IH]; [done|]. rewrite sapp_cons, <-IH.
  destruct (s +:+ t) as [|b u] eqn:E; [by apply sapp_eq_nil in E as [_ ?]|]. apply ends_with_slash_cons.
Qed.

(** ** Characters *)

(** [s.contains(c)] *)
Fixpoint scontains (c : ascii) (s : string) : bool :=
  match s with
  | "" => false
  | String a s' => bool_decide (a = c) || scontains c s'
  end.

(** [s.split(c)] *)
Fixpoint ssplit (c : ascii) (s : string) : list string :=
  match s with
  | "" => [""]
  | String a s' =>
      if decide (a = c) then "" :: ssplit c s'
      else match ssplit c s' with
           | w :: ws => String a w :: ws
           | [] => [String a ""]
           end
  end.

(** [s.rsplit_once(c)] *)
Fixpoint rsplit_once (c : ascii) (s : string) : option (string * string) :=
  match s with
  | "" => None
  | String a s' =>
      match rsplit_once c s' with
      | Some (l, r) => Some (String a l, r)
      | None => if decide (a = c) then Some ("", s') else None
      end
  end.

(** [s.trim_end_matches(c)] *)
Fixpoint trim_end (c : ascii) (s : string) : string :=
  match s with
  | "" => ""
  | String a s' =>
      match trim_end c s' with
      | "" => if decide (a = c) then "" else String a ""
      | t => String a t
      end
  end.

Lemma trim_end_split c s :
  ∃ r, s = trim_end c s +:+ r ∧ (r = "" ∨ ∃ r', r = String c r').
Proof.
  induction s as [|a s (r & Hs & Hr)]; [exists ""; auto|]. cbn [trim_end].
  destruct (trim_end c s) as [|b t] eqn:Ht.
  - case_decide as Ha.
    + exists (String a s). split; [done|]. right. exists s. by subst.
    + exists r. rewrite sapp_cons, sapp_nil_l. split; [|done].
      by rewrite Hs at 1.
  - exists r. rewrite sapp_cons. split; [|done]. by rewrite Hs at 1.
Qed.

Lemma scontains_app c s t :
  scontains c (s +:+ t) = scontains c s || scontains c t.
Proof.
  induction s as [|a s IH]; [done|]. rewrite sapp_cons. simpl.
  by rewrite IH, orb_assoc.
Qed.

Lemma ssplit_no_sep c s : scontains c s = false → ssplit c s = [s].
Proof.
  induction s as [|a s IH]; [done|]. cbn [scontains ssplit]. intros [Ha Hs]%orb_false_iff.
  rewrite decide_False by (by apply bool_decide_eq_false_1 in Ha). by rewrite IH.
Qed.

Lemma ssplit_cons c s t : scontains c s = false → ssplit c (s +:+ String c t) = s :: ssplit c t.
Proof.
  induction s as [|a s IH]; intros Hs.
  - rewrite sapp_nil_l. cbn [ssplit]. by rewrite decide_True.
  - rewrite sapp_cons. cbn [scontains ssplit] in *. apply orb_false_iff in Hs as [Ha Hs].
    rewrite decide_False by (by apply bool_decide_eq_false_1 in Ha). by rewrite IH.
Qed.

Lemma rsplit_once_None c s : rsplit_once c s = None ↔ scontains c s = false.
Proof.
  induction s as [|a s IH]; simpl; [done|].
  destruct (rsplit_once c s) as [[l r]|].
  - split; [done|]. rewrite orb_false_iff, <-IH. naive_solver.
  - rewrite orb_false_iff, <-IH. case_decide; rewrite bool_decide_eq_false; naive_solver.
Qed.

Lemma rsplit_once_Some c s l r :
  rsplit_once c s = Some (l, r) ↔
  s = l +:+ String c r ∧ scontains c r = false.
Proof.
  revert l. induction s as [|a s IH]; intros l; simpl.
  - split; [done|]. intros [H _]. by destruct l.
  - destruct (rsplit_once c s) as [[l' r']|] eqn:E.
    + split.
      * intros [= <- <-]. destruct (proj1 (IH l') eq_refl) as [-> ?]. done.
      * intros [He Hc]. destruct l as [|b l].
        -- injection He as -> ->. apply rsplit_once_None in Hc. congruence.
        -- rewrite sapp_cons in He. injection He as -> He.
           assert (Some (l', r') = Some (l, r)) as [= -> ->] by (by apply IH). done.
    + case_decide as Hac.
      * subst a. apply rsplit_once_None in E. split.
        -- by intros [= <- <-].
        -- intros [He Hc]. destruct l as [|b l]; [by injection He as ->|].
           rewrite sapp_cons in He. injection He as -> He.
           rewrite He, scontains_app in E. simpl in E.
           rewrite bool_decide_eq_true_2 in E by done.
           by rewrite orb_true_r in E.
      * split; [done|]. intros [He Hc]. destruct l as [|b l].
        -- injection He as Ha Hs. done.
        -- rewrite sapp_cons in He. injection He as -> He.
           assert (None = Some (l, r)) as Hn by (by apply IH). done.
Qed.

(** ** Trimming

    [str::trim] on the bytes of a UTF-8 string: the code points with the
    Unicode property White_Space are dropped from both ends. *)

(** The bytes [l], as a string. *)
Definition of_bytes (l : list N) : string := foldr (λ n s, String (ascii_of_N n) s) "" l.

(** U+0009 to U+000D, U+0020, U+0085, U+00A0, U+1680, U+2000 to U+200A, U+2028,
    U+2029, U+202F, U+205F, U+3000. *)
Definition WHITE_SPACE : list string := of_bytes <$>
  [[9]; [10]; [11]; [12]; [13]; [32]; [194; 133]; [194; 160]; [225; 154; 128];
   [226; 128; 128]; [226; 128; 129]; [226; 128; 130]; [226; 128; 131]; [226; 128; 132]; [226; 128; 133];
   [226; 128; 134]; [226; 128; 135]; [226; 128; 136]; [226; 128; 137]; [226; 128; 138];
   [226; 128; 168]; [226; 128; 169]; [226; 128; 175]; [226; 129; 159]; [227; 128; 128]]%N.

(** Each round drops one code point, so the length bounds the rounds. *)
Fixpoint trim_start_go (fuel : nat) (s : string) : string :=
  match fuel with
  | O => s
  | S fuel =>
      match List.find (λ w, starts_with w s) WHITE_SPACE with
      | Some w => trim_start_go fuel (sdrop (String.length w) s)
      | None => s
      end
  end.
Fixpoint trim_end_go (fuel : nat) (s : string) : string :=
  match fuel with
  | O => s
  | S fuel =>
      match List.find (λ w, ends_with w s) WHITE_SPACE with
      | Some w => trim_end_go fuel (stake (String.length s - String.length w) s)
      | None => s
      end
  end.
Definition trim (s : string) : string :=
  let s := trim_start_go (String.length s) s in trim_end_go (String.length s) s.

(** Neither end of the result is white space. *)
Definition no_ws_start (s : string) : Prop := Forall (λ w, starts_with w s = false) WHITE_SPACE.
Definition no_ws_end (s : string) : Prop := Forall (λ w, ends_with w s = false) WHITE_SPACE.

Lemma find_None_Forall {A} (f : A → bool) l : List.find f l = None → Forall (λ x, f x = false) l.
Proof. intros H. apply Forall_forall. intros x Hx. eapply List.find_none; [done|]. by apply list_elem_of_In. Qed.

Lemma white_space_length w : w ∈ WHITE_SPACE → (0 < String.length w)%nat.
Proof.
  assert (Forall (λ w, 0 < String.length w)%nat WHITE_SPACE) as H by (unfold WHITE_SPACE; repeat constructor).
  intros Hw. exact (proj1 (Forall_forall _ _) H w Hw).
Qed.

Lemma find_Some_elem {A} (f : A → bool) l x : List.find f l = Some x → x ∈ l ∧ f x = true.
Proof. intros [H1 H2]%List.find_some. split; [by apply list_elem_of_In|done]. Qed.

Lemma empty_no_ws : no_ws_start "" ∧ no_ws_end "".
Proof. split; unfold no_ws_start, no_ws_end, WHITE_SPACE; repeat constructor. Qed.

Lemma trim_start_clean fuel s : (String.length s ≤ fuel)%nat → no_ws_start (trim_start_go fuel s).
Proof.
  revert s. induction fuel as [|fuel IH]; intros s Hs; cbn [trim_start_go].
  { destruct s; [apply empty_no_ws|cbn in Hs; lia]. }
  destruct (List.find _ _) as [w|] eqn:E; [|by apply find_None_Forall]. apply find_Some_elem in E as [Hw%white_space_length Hp].
  apply IH. rewrite slen_sdrop. lia.
Qed.

Lemma trim_end_clean fuel s : (String.length s ≤ fuel)%nat → no_ws_end (trim_end_go fuel s).
Proof.
  revert s. induction fuel as [|fuel IH]; intros s Hs; cbn [trim_end_go].
  { destruct s; [apply empty_no_ws|cbn in Hs; lia]. }
  destruct (List.find _ _) as [w|] eqn:E; [|by apply find_None_Forall]. apply find_Some_elem in E as [Hw%white_space_length Hp].
  apply IH. rewrite slen_stake. lia.
Qed.

Lemma starts_with_stake w n s : starts_with w (stake n s) = true → starts_with w s = true.
Proof.
  revert n s. induction w as [|a w IH]; intros n s; [done|]. destruct n, s as [|b s]; try done. cbn.
  case_decide; [|done]. cbn. apply IH.
Qed.

Lemma trim_end_keeps_start fuel s : no_ws_start s → no_ws_start (trim_end_go fuel s).
Proof.
  revert s. induction fuel as [|fuel IH]; intros s Hs; cbn [trim_end_go]; [done|].
  destruct (List.find _ _) as [w|]; [|done]. apply IH. eapply Forall_impl; [exact Hs|]. intros v Hv. cbn beta.
  destruct (starts_with v (stake _ s)) eqn:E; [|done]. apply starts_with_stake in E. congruence.
Qed.

Lemma trim_clean s : no_ws_start (trim s) ∧ no_ws_end (trim s).
Proof. split; [by apply trim_end_keeps_start, trim_start_clean|by apply trim_end_clean]. Qed.

Lemma trim_id s : no_ws_start s → no_ws_end s → trim s = s.
Proof.
  intros Hs He. assert (∀ fuel, trim_start_go fuel s = s) as E1.
  { intros [|fuel]; [done|]. cbn [trim_start_go]. destruct (List.find _ _) as [w|] eqn:E; [|done]. apply find_Some_elem in E as [Hw Hp].
    pose proof (proj1 (Forall_forall _ _) Hs w Hw). congruence. }
  assert (∀ fuel, trim_end_go fuel s = s) as E2.
  { intros [|fuel]; [done|]. cbn [trim_end_go]. destruct (List.find _ _) as [w|] eqn:E; [|done]. apply find_Some_elem in E as [Hw Hp].
    pose proof (proj1 (Forall_forall _ _) He w Hw). congruence. }
  unfold trim. by rewrite E1, E2.
Qed.

Lemma trim_idemp s : trim (trim s) = trim s.
Proof. apply trim_id; apply trim_clean. Qed.
