(* ===== verification/Codec.v ===== *)
(** * Encodings of text and integers

    The standard-library encodings the stored records use: UTF-8 validity
    ([String::from_utf8]), big-endian integers ([to_be_bytes],
    [from_be_bytes]), decimal formatting ([{n}], [{n:020}]) and
    [str::parse::<u64>], with their round trips; slices of byte buffers and a small
    codec of records. *)

From S2P Require Import Prelude Bytes.

Local Open Scope N_scope.

(** ** UTF-8 *)

Definition byte_in (lo hi : N) (a : ascii) : bool :=
  (lo <=? N_of_ascii a) && (N_of_ascii a <=? hi).

Definition utf8_cont (a : ascii) : bool := byte_in 128 191 a.

(** The second byte of a three-byte sequence led by [a]. *)
Definition utf8_second3 (a b : ascii) : bool :=
  if N_of_ascii a =? 224 then byte_in 160 191 b
  else if N_of_ascii a =? 237 then byte_in 128 159 b
  else utf8_cont b.

(** The second byte of a four-byte sequence led by [a]. *)
Definition utf8_second4 (a b : ascii) : bool :=
  if N_of_ascii a =? 240 then byte_in 144 191 b
  else if N_of_ascii a =? 244 then byte_in 128 143 b
  else utf8_cont b.

Fixpoint is_utf8 (s : string) : bool :=
  match s with
  | "" => true
  | String a s1 =>
      if byte_in 0 127 a then is_utf8 s1 else
      match s1 with
      | "" => false
      | String b s2 =>
          if byte_in 194 223 a then utf8_cont b && is_utf8 s2 else
          match s2 with
          | "" => false
          | String c s3 =>
              if byte_in 224 239 a
              then utf8_second3 a b && utf8_cont c && is_utf8 s3 else
              match s3 with
              | "" => false
              | String d s4 =>
                  byte_in 240 244 a && utf8_second4 a b && utf8_cont c &&
                  utf8_cont d && is_utf8 s4
              end
          end
      end
  end.

(** [String::from_utf8] *)
Definition from_utf8 (s : string) : option string :=
  if is_utf8 s then Some s else None.

Lemma is_utf8_app s t : is_utf8 s = true → is_utf8 (s +:+ t) = is_utf8 t.
Proof.
  remember (String.length s) as n eqn:Hn.
  revert s Hn. induction (lt_wf n) as [n _ IH]; intros s Hn Hs.
  destruct s as [|a s]; [done|]. rewrite sapp_cons. simpl in Hn, Hs |- *.
  destruct (byte_in 0 127 a); [apply (IH (String.length s)); lia || done|].
  destruct s as [|b s]; [done|]. rewrite sapp_cons. simpl in Hn.
  destruct (byte_in 194 223 a).
  { apply andb_true_iff in Hs as [-> Hs]. simpl.
    apply (IH (String.length s)); lia || done. }
  destruct s as [|c s]; [done|]. rewrite sapp_cons. simpl in Hn.
  destruct (byte_in 224 239 a).
  { apply andb_true_iff in Hs as [-> Hs]. simpl.
    apply (IH (String.length s)); lia || done. }
  destruct s as [|d s]; [done|]. rewrite sapp_cons. simpl in Hn.
  apply andb_true_iff in Hs as [-> Hs]. simpl.
  apply (IH (String.length s)); lia || done.
Qed.

Lemma is_utf8_app_true s t :
  is_utf8 s = true → is_utf8 t = true → is_utf8 (s +:+ t) = true.
Proof. intros Hs Ht. by rewrite is_utf8_app. Qed.

(** An ASCII byte is never inside a multi-byte sequence. *)
Lemma ascii_not_cont x a :
  byte_in 0 127 a = true →
  utf8_cont a = false ∧ utf8_second3 x a = false ∧ utf8_second4 x a = false.
Proof.
  unfold utf8_second3, utf8_second4, utf8_cont, byte_in.
  rewrite !andb_true_iff, !N.leb_le. intros [_ Ha].
  assert ((128 <=? N_of_ascii a) = false) as E1 by (apply N.leb_gt; lia).
  assert ((160 <=? N_of_ascii a) = false) as E2 by (apply N.leb_gt; lia).
  assert ((144 <=? N_of_ascii a) = false) as E3 by (apply N.leb_gt; lia).
  rewrite ?E1, ?E2, ?E3. by repeat case_match.
Qed.

Lemma is_utf8_before_ascii s a t :
  byte_in 0 127 a = true → is_utf8 (s +:+ String a t) = true → is_utf8 s = true.
Proof.
  intros Ha. remember (String.length s) as n eqn:Hn.
  revert s Hn. induction (lt_wf n) as [n _ IH]; intros s Hn Hs.
  destruct s as [|b s]; [done|]. rewrite sapp_cons in Hs. simpl in Hn, Hs |- *.
  destruct (byte_in 0 127 b); [apply (IH (String.length s)); lia || done|].
  pose proof (ascii_not_cont b a Ha) as (Hc & H3 & H4).
  destruct s as [|c s]; simpl in Hn, Hs |- *.
  { rewrite Hc, H3, H4 in Hs. simpl in Hs. destruct (byte_in 194 223 b); [done|].
    destruct t as [|? t]; [done|]. destruct (byte_in 224 239 b); [done|].
    destruct t; [done|]. by rewrite andb_false_r in Hs. }
  rewrite ?sapp_cons in Hs. destruct (byte_in 194 223 b).
  { apply andb_true_iff in Hs as [-> Hs]. simpl. apply (IH (String.length s)); lia || done. }
  destruct s as [|d s]; simpl in Hn, Hs |- *.
  { rewrite Hc, ?andb_false_r in Hs. simpl in Hs. destruct (byte_in 224 239 b); [done|].
    destruct t; [done|]. rewrite ?andb_false_r in Hs. done. }
  rewrite ?sapp_cons in Hs. destruct (byte_in 224 239 b).
  { apply andb_true_iff in Hs as [-> Hs]. simpl. apply (IH (String.length s)); lia || done. }
  destruct s as [|e s]; simpl in Hn, Hs |- *.
  { rewrite Hc, ?andb_false_r in Hs. done. }
  apply andb_true_iff in Hs as [-> Hs]. simpl. apply (IH (String.length s)); lia || done.
Qed.

Lemma is_utf8_trim_end s : is_utf8 s = true → is_utf8 (trim_end "/" s) = true.
Proof.
  destruct (trim_end_split "/" s) as (r & Hs & Hr). intros Hu. rewrite Hs in Hu.
  destruct Hr as [->|[r' ->]]; [by rewrite sapp_nil_r in Hu|].
  by apply (is_utf8_before_ascii _ "/" r').
Qed.

Lemma from_utf8_true s : is_utf8 s = true → from_utf8 s = Some s.
Proof. unfold from_utf8. by intros ->. Qed.

(** ** Big-endian integers *)

(** The [k] low bytes of [v], most significant first. *)
Fixpoint be_bytes (k : nat) (v : N) : string :=
  match k with
  | O => ""
  | S k' => String (ascii_of_N (v / 256 ^ N.of_nat k' mod 256)) (be_bytes k' v)
  end.

Fixpoint be_val_go (acc : N) (s : string) : N :=
  match s with
  | "" => acc
  | String a s' => be_val_go (acc * 256 + N_of_ascii a) s'
  end.

Definition be_val (s : string) : N := be_val_go 0 s.

Definition u64_to_be (v : N) : string := be_bytes 8 v.
Definition u32_to_be (v : N) : string := be_bytes 4 v.

(** [<[u8; 8]>::try_from(s).ok().map(u64::from_be_bytes)] *)
Definition u64_from_be (s : string) : option N :=
  if (String.length s =? 8)%nat then Some (be_val s) else None.

Definition i64_to_be (z : Z) : string :=
  be_bytes 8 (Z.to_N (z mod 18446744073709551616)).

(** [<[u8; 8]>::try_from(s).ok().map(i64::from_be_bytes)] *)
Definition i64_from_be (s : string) : option Z :=
  if (String.length s =? 8)%nat then Some (wrap_i64 (Z.of_N (be_val s))) else None.

Lemma slen_be_bytes k v : String.length (be_bytes k v) = k.
Proof. induction k as [|k IH]; simpl; [done|by rewrite IH]. Qed.

Lemma be_val_go_be_bytes acc k v :
  be_val_go acc (be_bytes k v) = acc * 256 ^ N.of_nat k + v mod 256 ^ N.of_nat k.
Proof.
  revert acc. induction k as [|k IH]; intros acc.
  - simpl. rewrite N.mod_1_r. lia.
  - cbn [be_bytes be_val_go].
    rewrite N_ascii_embedding by (by apply N.mod_lt). rewrite IH.
    rewrite Nat2N.inj_succ, N.pow_succ_r', (N.mul_comm 256 (256 ^ _)).
    rewrite N.Div0.mod_mul_r. lia.
Qed.

Lemma be_val_be_bytes k v : be_val (be_bytes k v) = v mod 256 ^ N.of_nat k.
Proof. unfold be_val. by rewrite be_val_go_be_bytes. Qed.

#[global] Arguments be_bytes : simpl never.
#[global] Arguments be_val : simpl never.

Lemma u64_from_to_be v : v < U64_MOD → u64_from_be (u64_to_be v) = Some v.
Proof.
  intros Hv. unfold u64_from_be, u64_to_be. rewrite slen_be_bytes. simpl.
  rewrite be_val_be_bytes. f_equal. apply N.mod_small. done.
Qed.

Lemma be_val_u64 v : v < U64_MOD → be_val (u64_to_be v) = v.
Proof.
  intros Hv. unfold u64_to_be. rewrite be_val_be_bytes. by apply N.mod_small.
Qed.

Lemma u32_from_to_be v : v < U32_MOD → be_val (u32_to_be v) = v.
Proof.
  intros Hv. unfold u32_to_be. rewrite be_val_be_bytes. by apply N.mod_small.
Qed.

Lemma be_val_go_bound acc s n :
  acc < 256 ^ N.of_nat n →
  be_val_go acc s < 256 ^ N.of_nat (n + String.length s).
Proof.
  revert acc n. induction s as [|a s IH]; intros acc n Hacc.
  - simpl. by rewrite Nat.add_0_r.
  - cbn [be_val_go String.length]. rewrite Nat.add_succ_r, <-Nat.add_succ_l.
    apply IH. rewrite Nat2N.inj_succ, N.pow_succ_r'.
    pose proof (N_ascii_bounded a). lia.
Qed.

Lemma u64_from_be_bound s v : u64_from_be s = Some v → v < U64_MOD.
Proof.
  unfold u64_from_be. destruct (Nat.eqb_spec (String.length s) 8) as [E|]; [|done].
  intros [= <-]. pose proof (be_val_go_bound 0 s 0) as H.
  rewrite E in H. apply H. reflexivity.
Qed.

Lemma i64_from_to_be z :
  (-9223372036854775808 ≤ z ≤ I64_MAX)%Z → i64_from_be (i64_to_be z) = Some z.
Proof.
  intros Hz. unfold i64_from_be, i64_to_be.
  rewrite slen_be_bytes, be_val_be_bytes. cbn [Nat.eqb]. f_equal.
  pose proof (Z.mod_pos_bound z 18446744073709551616 ltac:(lia)) as Hm.
  rewrite N.mod_small by (change (256 ^ N.of_nat 8) with 18446744073709551616; lia).
  rewrite Z2N.id by lia. rewrite <-(wrap_i64_small z) at 2 by done.
  unfold wrap_i64. by rewrite Zmod_mod.
Qed.

(** ** Decimal text *)

(** [format!("{n:020}")]: a [u64] has at most twenty digits, so the text is
    exactly its twenty low decimal digits. *)
Fixpoint dec_fixed (k : nat) (n : N) : string :=
  match k with
  | O => ""
  | S k' => String (pretty_N_char (n / 10 ^ N.of_nat k' mod 10)) (dec_fixed k' n)
  end.

Definition fmt_020 (n : N) : string := dec_fixed 20 n.

(** [str::parse::<u64>] *)
Fixpoint parse_digits (acc : N) (s : string) : option N :=
  match s with
  | "" => Some acc
  | String a s' =>
      match Ascii.is_nat a with
      | Some d =>
          let v := acc * 10 + N.of_nat d in
          if v <=? U64_MAX then parse_digits v s' else None
      | None => None
      end
  end.

Definition parse_u64 (s : string) : option N :=
  match s with
  | "" => None
  | String a s' =>
      if decide (a = "+"%char)
      then match s' with "" => None | _ => parse_digits 0 s' end
      else parse_digits 0 s
  end.

(** [str::parse::<u32>] *)
Definition parse_u32 (s : string) : option N :=
  v ← parse_u64 s; if v <? U32_MOD then Some v else None.

Lemma dec_fixed_S k n :
  dec_fixed (S k) n = String (pretty_N_char (n / 10 ^ N.of_nat k mod 10)) (dec_fixed k n).
Proof. done. Qed.

Lemma slen_dec_fixed k n : String.length (dec_fixed k n) = k.
Proof. induction k as [|k IH]; simpl; [done|by rewrite IH]. Qed.

Lemma is_nat_pretty_N_char d :
  d < 10 → Ascii.is_nat (pretty_N_char d) = Some (N.to_nat d).
Proof.
  intros Hd.
  assert (d = 0 ∨ d = 1 ∨ d = 2 ∨ d = 3 ∨ d = 4 ∨ d = 5 ∨ d = 6 ∨ d = 7 ∨ d = 8 ∨ d = 9)
    as Hc by lia.
  by destruct_or? Hc; subst d.
Qed.

Lemma pretty_N_char_byte d : d < 10 → N_of_ascii (pretty_N_char d) < 255.
Proof.
  intros Hd.
  assert (d = 0 ∨ d = 1 ∨ d = 2 ∨ d = 3 ∨ d = 4 ∨ d = 5 ∨ d = 6 ∨ d = 7 ∨ d = 8 ∨ d = 9)
    as Hc by lia.
  by destruct_or? Hc; subst d.
Qed.

Lemma parse_digits_dec_fixed acc k n :
  acc * 10 ^ N.of_nat k + n mod 10 ^ N.of_nat k ≤ U64_MAX →
  parse_digits acc (dec_fixed k n) =
    Some (acc * 10 ^ N.of_nat k + n mod 10 ^ N.of_nat k).
Proof.
  revert acc. induction k as [|k IH]; intros acc Hb.
  - simpl. rewrite N.mod_1_r. f_equal. lia.
  - cbn [dec_fixed parse_digits].
    rewrite is_nat_pretty_N_char by (by apply N.mod_lt). rewrite N2Nat.id.
    rewrite Nat2N.inj_succ, N.pow_succ_r', (N.mul_comm 10 (10 ^ _)),
      N.Div0.mod_mul_r in Hb |- *.
    set (d := n / 10 ^ N.of_nat k mod 10) in *.
    set (p := 10 ^ N.of_nat k) in *.
    assert (p ≠ 0) by (by apply N.pow_nonzero).
    clearbody d p. revert IH Hb. generalize (n mod p). intros r IH Hb.
    assert ((acc * 10 + d) * 1 ≤ (acc * 10 + d) * p) by (apply N.mul_le_mono_l; lia).
    destruct (N.leb_spec (acc * 10 + d) U64_MAX) as [Hle|Hgt]; [|lia].
    rewrite IH; f_equal; lia.
Qed.

Lemma parse_fmt_020 n : n < U64_MOD → parse_u64 (fmt_020 n) = Some n.
Proof.
  intros Hn. unfold fmt_020.
  assert (parse_digits 0 (dec_fixed 20 n) = Some n) as Hp.
  { assert (n mod 10 ^ N.of_nat 20 = n) as Hm.
    { apply N.mod_small. unfold U64_MOD in Hn.
      change (10 ^ N.of_nat 20) with 100000000000000000000. lia. }
    rewrite parse_digits_dec_fixed; rewrite Hm; [done|].
    unfold U64_MAX, U64_MOD in *. lia. }
  revert Hp. cbn [dec_fixed parse_u64].
  set (d := n / 10 ^ N.of_nat 19 mod 10).
  assert (d < 10) as Hd by (by apply N.mod_lt).
  destruct (decide (pretty_N_char d = "+"%char)) as [E|_]; [|done].
  apply is_nat_pretty_N_char in Hd. rewrite E in Hd. discriminate Hd.
Qed.

(** The decimal text of a number consists of digits. *)
Lemma pretty_N_go_digits c x s :
  Ascii.is_nat c = None → scontains c s = false →
  scontains c (pretty_N_go x s) = false.
Proof.
  intros Hc. revert s. induction (N.lt_wf_0 x) as [x _ IH]; intros s Hs.
  destruct (decide (x = 0)) as [->|Hx]; [by rewrite pretty_N_go_0|].
  rewrite pretty_N_go_step by lia. apply IH; [apply N.div_lt; lia|].
  simpl. rewrite Hs, orb_false_r. apply bool_decide_eq_false_2. intros <-.
  rewrite is_nat_pretty_N_char in Hc by (by apply N.mod_lt). done.
Qed.

Lemma pretty_N_digits c (n : N) :
  Ascii.is_nat c = None → scontains c (pretty n) = false.
Proof.
  intros Hc. unfold pretty, pretty_N. case_decide.
  - simpl. rewrite orb_false_r. apply bool_decide_eq_false_2. by intros <-.
  - by apply pretty_N_go_digits.
Qed.

Lemma dec_fixed_digits c k n :
  Ascii.is_nat c = None → scontains c (dec_fixed k n) = false.
Proof.
  intros Hc. induction k as [|k IH]; [done|]. cbn [dec_fixed scontains].
  rewrite IH, orb_false_r. apply bool_decide_eq_false_2. intros <-.
  rewrite is_nat_pretty_N_char in Hc by (by apply N.mod_lt). done.
Qed.

Lemma digit_ascii d : d < 10 → byte_in 0 127 (pretty_N_char d) = true.
Proof.
  intros Hd.
  assert (d = 0 ∨ d = 1 ∨ d = 2 ∨ d = 3 ∨ d = 4 ∨ d = 5 ∨ d = 6 ∨ d = 7 ∨ d = 8 ∨ d = 9)
    as Hc by lia.
  by destruct_or? Hc; subst d.
Qed.

Lemma is_utf8_dec_fixed k n : is_utf8 (dec_fixed k n) = true.
Proof.
  induction k as [|k IH]; [done|]. cbn [dec_fixed is_utf8].
  by rewrite digit_ascii by (by apply N.mod_lt).
Qed.

Lemma is_utf8_pretty (n : N) : is_utf8 (pretty n) = true.
Proof.
  assert (∀ s, is_utf8 s = true → is_utf8 (pretty_N_go n s) = true) as Hgo.
  { induction (N.lt_wf_0 n) as [n _ IH]. intros s Hs.
    destruct (decide (n = 0)) as [->|Hn]; [by rewrite pretty_N_go_0|].
    rewrite pretty_N_go_step by lia. apply IH; [apply N.div_lt; lia|].
    cbn [is_utf8]. by rewrite digit_ascii by (by apply N.mod_lt). }
  unfold pretty, pretty_N. case_decide; [done|by apply Hgo].
Qed.

#[global] Arguments fmt_020 : simpl never.
#[global] Arguments parse_u64 : simpl never.
#[global] Arguments is_utf8 : simpl never.

(** ** Slices of byte buffers

    Indexing and writing ranges of a [Vec<u8>] and the little-endian length
    prefixes of the in-memory pipe and stream, with the lemmas on reads after
    writes. *)

(** ** Slices and little-endian lengths *)

(** [u32::to_le_bytes], [u32::from_le_bytes] *)
Fixpoint le_bytes (k : nat) (v : N) : string :=
  match k with
  | O => ""
  | S k => String (ascii_of_N (v mod 256)) (le_bytes k (v / 256))
  end.

Fixpoint le_val (s : string) : N :=
  match s with
  | "" => 0
  | String a s => (N_of_ascii a + 256 * le_val s)%N
  end.

Definition u32_to_le (v : N) : string := le_bytes 4 v.

(** [buf[i..i + n]]; [None] is an index panic. *)
Definition slice_at (i n : N) (buf : string) : option string :=
  if (i + n <=? N.of_nat (String.length buf))%N
  then Some (stake (N.to_nat n) (sdrop (N.to_nat i) buf)) else None.

(** [buf[i..i + w.len()].copy_from_slice(w)] *)
Definition overwrite (i : N) (w buf : string) : option string :=
  if (i + N.of_nat (String.length w) <=? N.of_nat (String.length buf))%N
  then Some (stake (N.to_nat i) buf +:+ w +:+ sdrop (N.to_nat i + String.length w) buf) else None.

(** [vec![0u8; n]] *)
Fixpoint zeros (n : nat) : string :=
  match n with O => "" | S n => String "000" (zeros n) end.

Definition slen (s : string) : N := N.of_nat (String.length s).

(** ** Reads after writes *)

Lemma sdrop_app_le n s t : (n ≤ String.length s)%nat → sdrop n (s +:+ t) = sdrop n s +:+ t.
Proof.
  revert s. induction n as [|n IH]; intros s Hn; [by destruct s|]. destruct s as [|a s]; [cbn in Hn; lia|].
  rewrite sapp_cons. cbn in *. apply IH. lia.
Qed.

Lemma sdrop_app_ge n s t : (String.length s ≤ n)%nat → sdrop n (s +:+ t) = sdrop (n - String.length s) t.
Proof.
  revert s. induction n as [|n IH]; intros s Hn; destruct s as [|a s]; try done; [cbn in Hn; lia|].
  rewrite sapp_cons. cbn in *. apply IH. lia.
Qed.

Lemma stake_app_le n s t : (n ≤ String.length s)%nat → stake n (s +:+ t) = stake n s.
Proof.
  revert s. induction n as [|n IH]; intros s Hn; [done|]. destruct s as [|a s]; [cbn in Hn; lia|].
  rewrite sapp_cons. cbn in *. rewrite IH; [done|lia].
Qed.

Lemma slen_app_N s t : slen (s +:+ t) = (slen s + slen t)%N.
Proof. unfold slen. rewrite slen_app. lia. Qed.

(** An overwritten buffer, split at the written range. *)
Lemma overwrite_split i w buf buf' :
  overwrite i w buf = Some buf' →
  ∃ x y z, buf = x +:+ y +:+ z ∧ buf' = x +:+ w +:+ z ∧ slen x = i ∧ slen y = slen w.
Proof.
  unfold overwrite. destruct (N.leb_spec (i + N.of_nat (String.length w)) (N.of_nat (String.length buf)))
    as [Hle|]; [|done]. intros [= <-].
  exists (stake (N.to_nat i) buf), (stake (String.length w) (sdrop (N.to_nat i) buf)),
    (sdrop (String.length w) (sdrop (N.to_nat i) buf)).
  assert (sdrop (N.to_nat i + String.length w) buf = sdrop (String.length w) (sdrop (N.to_nat i) buf)) as ->.
  { generalize (N.to_nat i). intros n. clear. revert buf.
    induction n as [|n IH]; intros buf; [done|]. destruct buf; [by destruct (String.length w)|]. apply IH. }
  split_and!.
  - by rewrite !stake_sdrop.
  - done.
  - unfold slen. rewrite slen_stake. lia.
  - unfold slen. rewrite slen_stake, slen_sdrop. lia.
Qed.

Lemma overwrite_Some i w buf :
  (i + slen w ≤ slen buf)%N → is_Some (overwrite i w buf).
Proof. unfold overwrite, slen. intros H. rewrite (proj2 (N.leb_le _ _)) by done. eauto. Qed.

Lemma overwrite_slen i w buf buf' : overwrite i w buf = Some buf' → slen buf' = slen buf.
Proof. intros (x & y & z & -> & -> & _ & Hy)%overwrite_split. rewrite !slen_app_N. lia. Qed.

Lemma slice_at_Some i n buf : (i + n ≤ slen buf)%N → is_Some (slice_at i n buf).
Proof. unfold slice_at, slen. intros H. rewrite (proj2 (N.leb_le _ _)) by done. eauto. Qed.

Lemma slice_at_app x y z : slice_at (slen x) (slen y) (x +:+ y +:+ z) = Some y.
Proof.
  unfold slice_at. rewrite (proj2 (N.leb_le _ _)) by (fold (slen (x +:+ y +:+ z)); rewrite !slen_app_N; lia).
  unfold slen. rewrite !Nat2N.id, sdrop_app. by rewrite stake_app.
Qed.

Lemma slice_overwrite_same i w buf buf' : overwrite i w buf = Some buf' → slice_at i (slen w) buf' = Some w.
Proof. intros (x & y & z & -> & -> & <- & _)%overwrite_split. apply slice_at_app. Qed.

Lemma slice_overwrite_other i w buf buf' j n :
  overwrite i w buf = Some buf' → (j + n ≤ i ∨ i + slen w ≤ j)%N → slice_at j n buf' = slice_at j n buf.
Proof.
  intros Ho Hd. pose proof (overwrite_slen _ _ _ _ Ho) as Hl.
  apply overwrite_split in Ho as (x & y & z & -> & -> & Hx & Hy).
  unfold slice_at. fold (slen (x +:+ w +:+ z)). fold (slen (x +:+ y +:+ z)). rewrite Hl.
  destruct (j + n <=? _)%N; [|done]. f_equal. unfold slen in *. destruct Hd as [Hd|Hd].
  - rewrite !(sdrop_app_le _ x) by lia. rewrite !stake_app_le by (rewrite slen_sdrop; lia). done.
  - rewrite !(sdrop_app_ge _ x) by lia. f_equal. rewrite !sdrop_app_ge by lia. f_equal. lia.
Qed.

(** ** Lengths, read back *)

Lemma le_val_le_bytes k v : le_val (le_bytes k v) = (v mod 256 ^ N.of_nat k)%N.
Proof.
  revert v. induction k as [|k IH]; intros v; [by rewrite N.mod_1_r|]. cbn [le_bytes le_val].
  rewrite IH, N_ascii_embedding by (apply N.mod_lt; done).
  rewrite Nat2N.inj_succ, N.pow_succ_r by lia. rewrite N.Div0.mod_mul_r. done.
Qed.

Lemma u32_le_val v : (v < U32_MOD)%N → le_val (u32_to_le v) = v.
Proof. intros H. unfold u32_to_le. rewrite le_val_le_bytes. by apply N.mod_small. Qed.

Lemma slen_u32 v : slen (u32_to_le v) = 4%N.
Proof. done. Qed.

Lemma slen_zeros n : slen (zeros n) = N.of_nat n.
Proof. unfold slen. f_equal. induction n as [|n IH]; [done|]. cbn. by rewrite IH. Qed.

(** ** A small codec

    A text for any countable type, with which the interfaces to encoders of
    third parties are satisfied in examples. *)

Fixpoint bits (p : positive) : string :=
  match p with xH => "" | xO p => String "0" (bits p) | xI p => String "1" (bits p) end.
Fixpoint of_bits (s : string) : positive :=
  match s with "" => xH | String a s => if decide (a = "0"%char) then xO (of_bits s) else xI (of_bits s) end.

Definition small_to_vec {A} `{Countable A} (a : A) : string := String "{" (bits (encode a)).
Definition small_from_slice {A} `{Countable A} (s : string) : option A :=
  match s with String a s => if decide (a = "{"%char) then decode (of_bits s) else None | "" => None end.

Lemma of_bits_bits p : of_bits (bits p) = p.
Proof. induction p as [p IH|p IH|]; cbn; by rewrite ?IH. Qed.

Lemma small_codec {A} `{Countable A} (a : A) : small_from_slice (small_to_vec a) = Some a.
Proof. cbn. by rewrite of_bits_bits, decode_encode. Qed.
