(* ===== verification/Table.v ===== *)
(** * Ordered tables

    A redb table ([RedbTree], src/rust/raft/src/storage/redb_store.rs) and a
    [BTreeMap] are stdpp [gmap]s from byte strings; iteration is in byte order
    of the keys.  This file defines that order, the sorted list of entries,
    range and prefix scans, and proves that the scan the store performs (a
    half-open range to a computed successor of the prefix) is the prefix
    filter.  Moves of the keys of a map are at the end. *)

From S2P Require Import Prelude Bytes Codec.

(** ** The order of keys *)

Lemma ascii_compare_byte a b :
  Ascii.compare a b = N.compare (N_of_ascii a) (N_of_ascii b).
Proof. done. Qed.

Lemma ascii_eq_byte a b : a = b ↔ N_of_ascii a = N_of_ascii b.
Proof.
  split; [by intros ->|]. intros H.
  by rewrite <-(ascii_N_embedding a), <-(ascii_N_embedding b), H.
Qed.

Lemma leb_nil s : String.leb "" s = true.
Proof. by destruct s. Qed.

Lemma leb_cons a b s t :
  String.leb (String a s) (String b t) =
    (N_of_ascii a <? N_of_ascii b)%N || (bool_decide (a = b) && String.leb s t).
Proof.
  unfold String.leb. cbn [String.compare]. rewrite ascii_compare_byte.
  destruct (N.compare_spec (N_of_ascii a) (N_of_ascii b)) as [E|E|E].
  - apply ascii_eq_byte in E as ->. rewrite N.ltb_irrefl.
    by rewrite bool_decide_eq_true_2.
  - by rewrite (proj2 (N.ltb_lt _ _) E).
  - rewrite (proj2 (N.ltb_ge _ _)) by lia. rewrite bool_decide_eq_false_2; [done|].
    intros ->. lia.
Qed.

Lemma ltb_cons a b s t :
  String.ltb (String a s) (String b t) =
    (N_of_ascii a <? N_of_ascii b)%N || (bool_decide (a = b) && String.ltb s t).
Proof.
  unfold String.ltb. cbn [String.compare]. rewrite ascii_compare_byte.
  destruct (N.compare_spec (N_of_ascii a) (N_of_ascii b)) as [E|E|E].
  - apply ascii_eq_byte in E as ->. rewrite N.ltb_irrefl.
    by rewrite bool_decide_eq_true_2.
  - by rewrite (proj2 (N.ltb_lt _ _) E).
  - rewrite (proj2 (N.ltb_ge _ _)) by lia. rewrite bool_decide_eq_false_2; [done|].
    intros ->. lia.
Qed.

Lemma leb_app p s t : String.leb (p +:+ s) (p +:+ t) = String.leb s t.
Proof.
  induction p as [|a p IH]; [done|]. rewrite !sapp_cons, leb_cons, IH.
  by rewrite N.ltb_irrefl, bool_decide_eq_true_2.
Qed.

Lemma ltb_leb s t : String.ltb s t = negb (String.leb t s).
Proof.
  unfold String.ltb, String.leb. rewrite String.compare_antisym.
  by destruct (String.compare t s).
Qed.

Lemma leb_refl s : String.leb s s = true.
Proof. by induction s as [|a s IH]; [|rewrite leb_cons, IH,
  bool_decide_eq_true_2, orb_true_r]. Qed.

Lemma leb_trans s t u :
  String.leb s t = true → String.leb t u = true → String.leb s u = true.
Proof.
  rewrite <-!Is_true_true. intros H1 H2. by apply (transitivity (R := String.le) H1 H2).
Qed.

Lemma leb_antisym s t :
  String.leb s t = true → String.leb t s = true → s = t.
Proof. apply String.leb_antisym. Qed.

(** A key below the successor of [s] in its first divergent byte. *)
Lemma leb_app_l p s : String.leb p (p +:+ s) = true.
Proof. rewrite <-(sapp_nil_r p) at 1. rewrite leb_app. apply leb_nil. Qed.

(** Equal-length texts of decimal digits compare as the numbers they denote. *)
(** A key between a prefix and an extension of it has that prefix. *)
Lemma between_prefix p k x :
  String.leb p k = true → String.leb k (p +:+ x) = true → starts_with p k = true.
Proof.
  revert k. induction p as [|a p IH]; intros k Hlo Hhi; [by destruct k|].
  destruct k as [|b k]; [done|]. rewrite sapp_cons in Hhi.
  rewrite leb_cons, orb_true_iff, N.ltb_lt, andb_true_iff, bool_decide_eq_true in Hlo, Hhi.
  destruct Hlo as [Hlo|[-> Hlo]]; [|destruct Hhi as [Hhi|[_ Hhi]]; [lia|]].
  - destruct Hhi as [Hhi|[-> _]]; lia.
  - simpl. rewrite bool_decide_eq_true_2 by done. by apply IH.
Qed.

Lemma leb_dec_fixed k a b :
  (a < 10 ^ N.of_nat k)%N → (b < 10 ^ N.of_nat k)%N →
  String.leb (dec_fixed k a) (dec_fixed k b) = (a <=? b)%N.
Proof.
  cut (String.leb (dec_fixed k a) (dec_fixed k b) =
       (a mod 10 ^ N.of_nat k <=? b mod 10 ^ N.of_nat k)%N).
  { intros H Ha Hb. rewrite H. by rewrite !N.mod_small. }
  induction k as [|k IH].
  - change (10 ^ N.of_nat 0)%N with 1%N. by rewrite !N.mod_1_r.
  - cbn [dec_fixed]. rewrite leb_cons, IH, Nat2N.inj_succ, N.pow_succ_r'.
    rewrite (N.mul_comm 10), !N.Div0.mod_mul_r.
    assert (10 ^ N.of_nat k ≠ 0)%N as Hp by (by apply N.pow_nonzero).
    pose proof (N.mod_lt a _ Hp) as Ha. pose proof (N.mod_lt b _ Hp) as Hb.
    assert (∀ x, (x / 10 ^ N.of_nat k mod 10 < 10)%N) as Hd
      by (intros x; by apply N.mod_lt).
    pose proof (Hd a) as Hda. pose proof (Hd b) as Hdb. clear Hd IH.
    revert Ha Hb Hda Hdb. generalize (a / 10 ^ N.of_nat k mod 10)%N as da.
    generalize (b / 10 ^ N.of_nat k mod 10)%N as db.
    generalize (a mod 10 ^ N.of_nat k)%N as ra.
    generalize (b mod 10 ^ N.of_nat k)%N as rb.
    revert Hp. generalize (10 ^ N.of_nat k)%N as p. intros p Hp rb ra db da Ha Hb Hda Hdb.
    assert (∀ d, (d < 10)%N → N_of_ascii (pretty_N_char d) = (48 + d)%N) as Hc.
    { intros d Hd.
      assert (d = 0 ∨ d = 1 ∨ d = 2 ∨ d = 3 ∨ d = 4 ∨ d = 5 ∨ d = 6 ∨ d = 7
        ∨ d = 8 ∨ d = 9)%N as Hor by lia. by destruct_or? Hor; subst d. }
    rewrite (Hc da), (Hc db) by done.
    destruct (N.ltb_spec (48 + da) (48 + db)) as [Hlt|Hge]; simpl.
    + symmetry. apply N.leb_le. nia.
    + case_bool_decide as E.
      * apply pretty_N_char_inj in E as ->; [|done..]. simpl.
        destruct (N.leb_spec ra rb), (N.leb_spec (ra + p * db) (rb + p * db)); lia.
      * simpl. symmetry. apply N.leb_gt.
        assert (da ≠ db) by congruence. nia.
Qed.

(** So do big-endian integers. *)
Lemma lex_digits (p da db ra rb : N) :
  (ra < p)%N → (rb < p)%N →
  ((da <? db) || (bool_decide (da = db) && (ra <=? rb)))%N = (ra + p * da <=? rb + p * db)%N.
Proof.
  intros Ha Hb. destruct (N.ltb_spec da db) as [Hlt|Hge]; simpl.
  - symmetry. apply N.leb_le. nia.
  - case_bool_decide as E; simpl.
    + subst. destruct (N.leb_spec ra rb), (N.leb_spec (ra + p * db) (rb + p * db)); lia.
    + symmetry. apply N.leb_gt. nia.
Qed.

Lemma leb_be_bytes k a b :
  String.leb (be_bytes k a) (be_bytes k b) =
    (a mod 256 ^ N.of_nat k <=? b mod 256 ^ N.of_nat k)%N.
Proof.
  induction k as [|k IH].
  - change (256 ^ N.of_nat 0)%N with 1%N. by rewrite !N.mod_1_r.
  - change (be_bytes (S k) a)
      with (String (ascii_of_N (a / 256 ^ N.of_nat k mod 256)) (be_bytes k a)).
    change (be_bytes (S k) b)
      with (String (ascii_of_N (b / 256 ^ N.of_nat k mod 256)) (be_bytes k b)).
    rewrite leb_cons, IH, Nat2N.inj_succ, N.pow_succ_r', (N.mul_comm 256), !N.Div0.mod_mul_r.
    assert (256 ^ N.of_nat k ≠ 0)%N as Hp by (by apply N.pow_nonzero).
    rewrite <-lex_digits by (by apply N.mod_lt).
    rewrite !N_ascii_embedding by (by apply N.mod_lt). do 2 f_equal.
    apply bool_decide_ext. rewrite ascii_eq_byte, !N_ascii_embedding by (by apply N.mod_lt). done.
Qed.

Lemma leb_u64 a b :
  (a < U64_MOD)%N → (b < U64_MOD)%N → String.leb (u64_to_be a) (u64_to_be b) = (a <=? b)%N.
Proof. intros Ha Hb. unfold u64_to_be. rewrite leb_be_bytes. by rewrite !N.mod_small. Qed.

Lemma u64_to_be_inj a b :
  (a < U64_MOD)%N → (b < U64_MOD)%N → u64_to_be a = u64_to_be b → a = b.
Proof. intros Ha Hb He. apply (f_equal be_val) in He. by rewrite !be_val_u64 in He. Qed.

(** ** Entries in key order *)

Section entries.
Context {V : Type}.
Implicit Types m : gmap string V.

Definition key_le (x y : string * V) : Prop := String.le x.1 y.1.

#[global] Instance key_le_dec : RelDecision key_le.
Proof. intros x y. unfold key_le. apply _. Defined.

#[global] Instance key_le_total : Total key_le.
Proof. intros x y. unfold key_le. apply (total String.le). Qed.

#[global] Instance key_le_trans : Transitive key_le.
Proof. intros x y z. unfold key_le. apply transitivity. Qed.

(** [table.iter()] *)
Definition entries m : list (string * V) := merge_sort key_le (map_to_list m).

Lemma elem_of_entries m k v : (k, v) ∈ entries m ↔ m !! k = Some v.
Proof. unfold entries. by rewrite merge_sort_Permutation, elem_of_map_to_list. Qed.

Lemma entries_NoDup m : NoDup (entries m).*1.
Proof. unfold entries. rewrite merge_sort_Permutation. apply NoDup_fst_map_to_list. Qed.

Lemma entries_sorted m : StronglySorted key_le (entries m).
Proof. apply StronglySorted_merge_sort; apply _. Qed.

Lemma entries_length m : length (entries m) = size m.
Proof. unfold entries. rewrite merge_sort_Permutation. apply length_map_to_list. Qed.

Lemma list_to_map_entries m : list_to_map (entries m) = m.
Proof.
  rewrite <-(list_to_map_to_list m) at 2. apply list_to_map_proper.
  - apply entries_NoDup.
  - unfold entries. apply merge_sort_Permutation.
Qed.

(** [table.range(lo..hi)], [table.range(lo..=hi)] and [table.range(lo..)] *)
Inductive bound := Excluded (s : string) | Included (s : string) | Unbounded.

Definition below (hi : bound) (k : string) : bool :=
  match hi with
  | Excluded h => String.ltb k h
  | Included h => String.leb k h
  | Unbounded => true
  end.

Definition range (lo : string) (hi : bound) m : list (string * V) :=
  filter (λ kv, String.leb lo kv.1 && below hi kv.1 = true) (entries m).

Lemma elem_of_range lo hi m k v :
  (k, v) ∈ range lo hi m ↔
  String.leb lo k = true ∧ below hi k = true ∧ m !! k = Some v.
Proof.
  unfold range. rewrite list_elem_of_filter, elem_of_entries, andb_true_iff. naive_solver.
Qed.

Lemma range_sorted lo hi m : StronglySorted key_le (range lo hi m).
Proof.
  unfold range. pose proof (entries_sorted m) as H.
  induction H as [|x l Hs IH Hx]; [constructor|].
  rewrite filter_cons. case_decide; [|done]. constructor; [done|].
  apply Forall_forall. intros y [_ Hy]%list_elem_of_filter.
  by apply (proj1 (Forall_forall _ _) Hx).
Qed.

(** [range.next_back()] is the greatest key of the range. *)
Lemma last_sorted (l : list (string * V)) x y :
  StronglySorted key_le l → last l = Some x → y ∈ l → key_le y x.
Proof.
  intros Hs. revert x y. induction Hs as [|z l Hs IH Hz]; intros x y Hl Hy; [done|].
  rewrite last_cons in Hl. destruct (last l) as [x'|] eqn:E.
  - injection Hl as <-. apply elem_of_cons in Hy as [->|Hy]; [|by apply IH].
    apply (proj1 (Forall_forall _ _) Hz).
    apply list_elem_of_lookup. rewrite last_lookup in E. eauto.
  - injection Hl as <-. apply last_None in E as ->.
    apply list_elem_of_singleton in Hy as ->. unfold key_le. reflexivity.
Qed.

Lemma last_elem_of (l : list (string * V)) x : last l = Some x → x ∈ l.
Proof. rewrite last_lookup. intros H. apply list_elem_of_lookup. eauto. Qed.

Lemma next_back_Some lo hi m k v :
  last (range lo hi m) = Some (k, v) ↔
  String.leb lo k = true ∧ below hi k = true ∧ m !! k = Some v ∧
  ∀ k' v', m !! k' = Some v' → String.leb lo k' = true → below hi k' = true →
           String.leb k' k = true.
Proof.
  split.
  - intros Hl. pose proof (last_elem_of _ _ Hl) as (?&?&?)%elem_of_range.
    repeat (split; [done|]). intros k' v' Hk' Hlo' Hhi'. apply Is_true_true.
    apply (last_sorted _ (k, v) (k', v') (range_sorted lo hi m) Hl).
    by apply elem_of_range.
  - intros (H1&H2&H3&Hmax).
    assert ((k, v) ∈ range lo hi m) as Hin by (by apply elem_of_range).
    destruct (last (range lo hi m)) as [[k' v']|] eqn:Hl.
    + pose proof (last_elem_of _ _ Hl) as (A&B&C)%elem_of_range.
      assert (k' = k) as ->.
      { apply leb_antisym; [by eapply Hmax|]. apply Is_true_true.
        apply (last_sorted _ (k', v') (k, v) (range_sorted lo hi m) Hl Hin). }
      congruence.
    + apply last_None in Hl. rewrite Hl in Hin. by apply not_elem_of_nil in Hin.
Qed.

Lemma next_back_None lo hi m :
  last (range lo hi m) = None ↔
  ∀ k v, m !! k = Some v → String.leb lo k = true → below hi k = false.
Proof.
  rewrite last_None. split.
  - intros Hn k v Hk Hlo. destruct (below hi k) eqn:E; [|done].
    assert ((k, v) ∈ range lo hi m) as Hin by (by apply elem_of_range).
    rewrite Hn in Hin. by apply not_elem_of_nil in Hin.
  - intros H. destruct (range lo hi m) as [|[k v] l] eqn:E; [done|].
    assert ((k, v) ∈ range lo hi m) as (A&B&C)%elem_of_range by (rewrite E; left).
    by rewrite (H k v) in B.
Qed.

End entries.

Arguments bound : clear implicits.

(** ** Prefix scans *)

(** The loop of [prefix_upper_bound], on the bytes from the last one. *)
Fixpoint upper_bound_loop (rbytes : list ascii) : option (list ascii) :=
  match rbytes with
  | [] => None
  | last :: rest =>
      if (N_of_ascii last =? 255)%N then upper_bound_loop rest
      else Some (ascii_of_N (N_of_ascii last + 1) :: rest)
  end.

Definition prefix_upper_bound (prefix : string) : option string :=
  (λ l, String.string_of_list_ascii (rev l)) <$>
    upper_bound_loop (rev (String.list_ascii_of_string prefix)).

(** [RedbTree::scan_prefix] / [collect_prefix] *)
Definition scan_prefix {V} (prefix : string) (m : gmap string V) :
    list (string * V) :=
  match prefix_upper_bound prefix with
  | Some upper => range prefix (Excluded upper) m
  | None => range prefix Unbounded m
  end.

Lemma upper_bound_loop_snoc l a :
  upper_bound_loop (l ++ [a]) =
    match upper_bound_loop l with
    | Some u => Some (u ++ [a])
    | None => if (N_of_ascii a =? 255)%N then None
              else Some [ascii_of_N (N_of_ascii a + 1)]
    end.
Proof.
  induction l as [|b l IH]; simpl; [done|].
  by destruct (N_of_ascii b =? 255)%N.
Qed.

Lemma prefix_upper_bound_cons a p :
  prefix_upper_bound (String a p) =
    match prefix_upper_bound p with
    | Some u => Some (String a u)
    | None => if (N_of_ascii a =? 255)%N then None
              else Some (String (ascii_of_N (N_of_ascii a + 1)) "")
    end.
Proof.
  unfold prefix_upper_bound. cbn [String.list_ascii_of_string rev].
  rewrite upper_bound_loop_snoc.
  destruct (upper_bound_loop _) as [u|]; simpl.
  - by rewrite rev_app_distr.
  - by destruct (N_of_ascii a =? 255)%N.
Qed.

Definition prefix_bound (p : string) : bound :=
  match prefix_upper_bound p with Some u => Excluded u | None => Unbounded end.

Lemma prefix_range p k :
  String.leb p k && below (prefix_bound p) k = starts_with p k.
Proof.
  unfold prefix_bound. revert k. induction p as [|a p IH]; intros k.
  - by rewrite leb_nil.
  - destruct k as [|b k]; [done|]. cbn [starts_with]. rewrite leb_cons, <-IH.
    rewrite prefix_upper_bound_cons.
    pose proof (N_ascii_bounded a) as Ha. pose proof (N_ascii_bounded b) as Hb.
    destruct (prefix_upper_bound p) as [u|]; cbn [below].
    + rewrite ltb_cons.
      destruct (decide (a = b)) as [<-|Hne].
      * by rewrite N.ltb_irrefl, bool_decide_eq_true_2.
      * rewrite !bool_decide_eq_false_2 by congruence. simpl. rewrite !orb_false_r.
        destruct (N.ltb_spec (N_of_ascii a) (N_of_ascii b)),
          (N.ltb_spec (N_of_ascii b) (N_of_ascii a)); lia || done.
    + destruct (N.eqb_spec (N_of_ascii a) 255) as [E|E]; cbn [below].
      * rewrite !andb_true_r. rewrite (proj2 (N.ltb_ge _ _)) by lia. done.
      * rewrite ltb_cons. rewrite N_ascii_embedding by lia.
        assert (String.ltb k "" = false) as -> by (by destruct k).
        rewrite andb_false_r, orb_false_r, andb_true_r.
        destruct (decide (a = b)) as [<-|Hne].
        -- rewrite N.ltb_irrefl, bool_decide_eq_true_2 by done. simpl.
           rewrite (proj2 (N.ltb_lt _ _)) by lia. by rewrite andb_true_r.
        -- rewrite bool_decide_eq_false_2 by done. simpl. rewrite orb_false_r.
           assert (N_of_ascii a ≠ N_of_ascii b) by (by rewrite <-ascii_eq_byte).
           destruct (N.ltb_spec (N_of_ascii a) (N_of_ascii b)),
             (N.ltb_spec (N_of_ascii b) (N_of_ascii a + 1)); lia || done.
Qed.

Lemma scan_prefix_filter {V} p (m : gmap string V) :
  scan_prefix p m = filter (λ kv, starts_with p kv.1 = true) (entries m).
Proof.
  transitivity (range p (prefix_bound p) m).
  - unfold scan_prefix, prefix_bound. by destruct (prefix_upper_bound p).
  - unfold range. apply list_filter_iff. intros [k v]. by rewrite prefix_range.
Qed.

Lemma elem_of_scan_prefix {V} p (m : gmap string V) k v :
  (k, v) ∈ scan_prefix p m ↔ starts_with p k = true ∧ m !! k = Some v.
Proof. rewrite scan_prefix_filter, list_elem_of_filter, elem_of_entries. done. Qed.

(** Rows removed one by one. *)
Lemma foldr_delete_lookup (m : gmap string string) ks k :
  foldr delete m ks !! k = if decide (k ∈ ks) then None else m !! k.
Proof.
  induction ks as [|k' ks IH]; cbn [foldr].
  { rewrite decide_False; [done|]. by intros ?%not_elem_of_nil. }
  destruct (decide (k' = k)) as [->|Hne].
  - rewrite lookup_delete_eq, decide_True; [done|by left].
  - rewrite lookup_delete_ne, IH by done. apply decide_ext. set_solver.
Qed.

#[export] Hint Resolve leb_refl leb_nil leb_app_l starts_with_app : nexus.

#[global] Arguments starts_with : simpl never.
#[global] Arguments ends_with : simpl never.
#[global] Arguments dec_fixed : simpl never.

(** ** Moving rows of a table

    Rows of a map moved to other keys: the map with the moved rows at their new
    keys, and the loop that removes and inserts them one by one. *)

Section moves.
Context {K V : Type} `{Countable K}.
Implicit Types (m : gmap K V) (f : K → option K) (g : K → K → V → V).

(** [f k] is the new key of the rows that move, [g] what becomes of them; rows
    that are in the way give way. *)
Definition move_map f g m : gmap K V :=
  list_to_map (omap (λ kv, (λ t, (t, g kv.1 t kv.2)) <$> f kv.1) (map_to_list m)) ∪ filter (λ kv, f kv.1 = None) m.

(** [f] is one to one on the keys of [m], and does not move a row twice. *)
Record moves_apart f m : Prop := {
  ma_inj k k' t : is_Some (m !! k) → is_Some (m !! k') → f k = Some t → f k' = Some t → k = k';
  ma_once k t : is_Some (m !! k) → f k = Some t → f t = None }.

Lemma move_map_target f g m k t v :
  moves_apart f m → m !! k = Some v → f k = Some t → move_map f g m !! t = Some (g k t v).
Proof.
  intros [Hinj _] Hm Hf. unfold move_map. apply lookup_union_Some_l. apply elem_of_list_to_map.
  - assert (∀ l, NoDup l.*1 → (∀ kv, kv ∈ l → m !! kv.1 = Some kv.2) →
      NoDup (omap (λ kv, (λ t, (t, g kv.1 t kv.2)) <$> f kv.1) l).*1) as Hnd.
    { induction l as [|[k1 v1] l IH]; intros Hn Hl; [constructor|]. inversion Hn as [|? ? Hk Hn']; subst.
      assert (∀ kv, kv ∈ l → m !! kv.1 = Some kv.2) as Hl' by (intros kv Hkv; apply Hl; by right).
      cbn [omap list_omap fst snd]. destruct (f k1) as [t1|] eqn:E1; cbn [fmap option_fmap option_map]; [|by apply IH]. cbn [fmap list_fmap fst].
      apply NoDup_cons. split; [|by apply IH]. intros ([t2 v2] & Ht & Hin)%list_elem_of_fmap. cbn in Ht. subst t2.
      apply list_elem_of_omap in Hin as ([k2 w] & Hin & Hk2). cbn in Hk2. destruct (f k2) as [t2|] eqn:E2; [|done].
      injection Hk2 as -> _. assert (k1 = k2) as ->.
      { apply (Hinj k1 k2 t1); [exists v1; apply (Hl (k1, v1)); by left|exists w; by apply (Hl' (k2, w))|done|done]. }
      apply Hk. apply list_elem_of_fmap. by exists (k2, w). }
    apply Hnd; [apply NoDup_fst_map_to_list|]. intros [k1 v1]. apply elem_of_map_to_list.
  - apply list_elem_of_omap. exists (k, v). split; [by apply elem_of_map_to_list|]. cbn. by rewrite Hf.
Qed.

Lemma move_map_other f g m t :
  (∀ k, is_Some (m !! k) → f k ≠ Some t) →
  move_map f g m !! t = if decide (f t = None) then m !! t else None.
Proof.
  intros Hno. unfold move_map. rewrite lookup_union_r.
  - rewrite map_lookup_filter. destruct (m !! t) as [v|]; cbn; [|by case_decide].
    case_decide as E; [by rewrite option_guard_True|by rewrite option_guard_False].
  - apply not_elem_of_list_to_map. intros ([t' v'] & Ht & Hin)%list_elem_of_fmap. cbn in Ht. subst t'.
    apply list_elem_of_omap in Hin as ([k w] & Hin%elem_of_map_to_list & Hk). cbn in Hk.
    destruct (f k) as [t'|] eqn:E; [|done]. injection Hk as -> _. by apply (Hno k).
Qed.

(** One row after the other. *)
Definition move_one (m : gmap K V) (x : K * K * V) : gmap K V := <[x.1.2 := x.2]> (delete x.1.1 m).

Lemma foldl_move_other l m t :
  (∀ x, x ∈ l → x.1.2 ≠ t) →
  foldl move_one m l !! t = if decide (t ∈ l.*1.*1) then None else m !! t.
Proof.
  revert m. induction l as [|x l IH]; intros m Hno; cbn [foldl].
  { rewrite decide_False; [done|]. apply not_elem_of_nil. }
  rewrite IH by (intros y Hy; apply Hno; by right). unfold move_one. rewrite lookup_insert_ne by (apply Hno; by left).
  cbn [fmap list_fmap]. destruct (decide (x.1.1 = t)) as [->|Hne].
  - rewrite lookup_delete_eq. rewrite (decide_True (P := t ∈ t :: l.*1.*1)) by (by left). by case_decide.
  - rewrite lookup_delete_ne by done. apply decide_ext. set_solver.
Qed.

Lemma foldl_move_target l m x :
  x ∈ l → NoDup l.*1.*2 → (∀ y, y ∈ l → x.1.2 ≠ y.1.1) → foldl move_one m l !! x.1.2 = Some x.2.
Proof.
  revert m. induction l as [|y l IH]; intros m Hx Hn Hs; [by apply elem_of_nil in Hx|]. cbn [foldl].
  cbn [fmap list_fmap] in Hn. apply NoDup_cons in Hn as [Hy Hn]. apply elem_of_cons in Hx as [->|Hx].
  - rewrite foldl_move_other.
    + rewrite decide_False; [unfold move_one; apply lookup_insert_eq|].
      intros (p & Hp & (z & -> & Hz)%list_elem_of_fmap)%list_elem_of_fmap. apply (Hs z); [by right|done].
    + intros z Hz E. apply Hy. rewrite <-E. apply list_elem_of_fmap. exists z.1. split; [done|]. apply list_elem_of_fmap. by exists z.
  - apply IH; [done|done|]. intros z Hz. apply Hs. by right.
Qed.

(** The loop computes [move_map], when it is given exactly the rows that move. *)
Lemma foldl_move f g m l :
  moves_apart f m → NoDup l.*1.*1 →
  (∀ k t v, (k, t, v) ∈ l ↔ f k = Some t ∧ ∃ w, m !! k = Some w ∧ v = g k t w) →
  foldl move_one m l = move_map f g m.
Proof.
  intros Hap Hn Hl. destruct Hap as [Hinj Honce].
  assert (NoDup l.*1.*2) as Hn2.
  { clear -Hn Hl Hinj. assert (∀ l', (∀ x, x ∈ l' → x ∈ l) → NoDup l'.*1.*1 → NoDup l'.*1.*2) as H1; [|by apply H1].
    induction l' as [|[[k t] v] l' IH]; intros Hsub Hn'; [constructor|]. cbn [fmap list_fmap fst snd] in *.
    apply NoDup_cons in Hn' as [Hk Hn']. apply NoDup_cons. split; [|apply IH; [|done]; intros x Hx; apply Hsub; by right].
    intros ([k2 t2] & Ht & ([[k3 t3] v3] & E & Hin)%list_elem_of_fmap)%list_elem_of_fmap. cbn in *. subst t2. injection E as -> ->.
    destruct (proj1 (Hl k t3 v) (Hsub _ ltac:(by left))) as (Hf1 & w1 & Hw1 & _).
    destruct (proj1 (Hl k3 t3 v3) (Hsub _ ltac:(by right))) as (Hf2 & w2 & Hw2 & _).
    assert (k = k3) as -> by (eapply Hinj; eauto). apply Hk. apply list_elem_of_fmap. exists (k3, t3). split; [done|].
    apply list_elem_of_fmap. by exists (k3, t3, v3). }
  apply map_eq. intros t. assert (t ∈ l.*1.*2 ↔ ∃ x, x ∈ l ∧ x.1.2 = t) as Hmem by (rewrite <-list_fmap_compose, list_elem_of_fmap; naive_solver).
  destruct (decide (t ∈ l.*1.*2)) as [([[k t'] v] & Hin & Ht)%Hmem|Hno]; [|rewrite Hmem in Hno; clear Hmem].
  - cbn in Ht. subst t'. destruct (proj1 (Hl k t v) Hin) as (Hf & w & Hw & ->).
    rewrite (move_map_target f g m k t w) by done. apply (foldl_move_target l m (k, t, g k t w)); [done|done|].
    intros [[k2 t2] v2] Hin2. cbn. intros ->. destruct (proj1 (Hl _ _ _) Hin2) as (Hf2 & _).
    pose proof (Honce k k2 ltac:(eauto) Hf). congruence.
  - rewrite foldl_move_other by (intros x Hx E; apply Hno; by exists x). rewrite move_map_other.
    + destruct (decide (f t = None)) as [Hf|Hf].
      * rewrite decide_False; [done|]. intros ([k2 t2] & Hk & ([[k3 t3] v3] & E & Hin)%list_elem_of_fmap)%list_elem_of_fmap.
        cbn in *. subst t. injection E as -> ->. apply (Hl k3 t3 v3) in Hin as [Hf3 _]. congruence.
      * case_decide as Hd; [done|]. destruct (f t) as [t'|] eqn:E; [|done]. destruct (m !! t) as [w|] eqn:Ew; [|done].
        exfalso. apply Hd. apply list_elem_of_fmap. exists (t, t'). split; [done|]. apply list_elem_of_fmap.
        exists (t, t', g t t' w). split; [done|]. apply Hl. eauto.
    + intros k [w Hw] Hf. apply Hno. exists (k, t, g k t w). split; [|done]. apply Hl. eauto.
Qed.
End moves.
