(* ===== verification/LockState.v ===== *)
(** * Advisory locks

    src/rust/contracts/src/lock_state.rs: the replicated table of advisory
    locks, its transition primitives ([apply_acquire], [apply_release],
    [apply_force_release], [apply_extend], [gc_expired]) and reads.  The table
    is a [BTreeMap<String, LockEntry>]; paths are hierarchical, a holder on a
    path excludes holders on its ancestors and descendants. *)

From S2P Require Import Prelude Bytes Codec Table.

(** ** Data *)

Record HolderInfo := mkHolder {
  lock_id : string;
  holder_info : string;
  acquired_at : N;
  expires_at : N }.

Record LockInfo := mkLockInfo {
  li_path : string;
  li_max_holders : N;
  li_holders : list HolderInfo }.

Record LockAcquireResult := mkAcquireResult {
  acquired : bool;
  current_holders : N;
  ar_max_holders : N;
  ar_holders : list HolderInfo }.

Record LockEntry := mkEntry {
  max_holders : N;
  holders : list HolderInfo }.

#[global] Instance HolderInfo_eq_dec : EqDecision HolderInfo.
Proof. solve_decision. Defined.
#[global] Instance LockEntry_eq_dec : EqDecision LockEntry.
Proof. solve_decision. Defined.

(** [LockEntry::default()] *)
Definition entry_default : LockEntry := mkEntry 0 [].

Definition entry_is_empty (e : LockEntry) : bool := bool_decide (holders e = []).

Record LockState := mkLockState { locks : gmap string LockEntry }.

Definition lock_state_new : LockState := mkLockState ∅.

(** ** Hierarchy helpers *)

(** The [while let Some(pos) = path[..end].rfind('/')] loop of [ancestors]; the
    remaining text gets strictly shorter, so its length is enough fuel. *)
Fixpoint ancestors_loop (fuel : nat) (cur : string) : list string :=
  match fuel with
  | O => []
  | S fuel' =>
      match rsplit_once "/" cur with
      | None => []
      | Some (l, _) => if decide (l = "") then ["/"] else l :: ancestors_loop fuel' l
      end
  end.

Definition ancestors (path : string) : list string :=
  if decide (path = "/" ∨ path = "") then []
  else ancestors_loop (String.length path) path.

(** [s.pop()] followed by [s.push(c)] *)
Fixpoint replace_last (c : ascii) (s : string) : string :=
  match s with
  | "" => String c ""
  | String a "" => String c ""
  | String a s' => String a (replace_last c s')
  end.

Definition descendant_range (path : string) : string * string :=
  let prefix := if ends_with "/" path then path else path +:+ "/" in
  (prefix, replace_last "0" prefix).

(** ** Transitions *)

Definition live (now : N) (h : HolderInfo) : Prop := (now < expires_at h)%N.
#[global] Instance live_dec now h : Decision (live now h).
Proof. unfold live. apply _. Defined.

(** [entry.holders.retain(|h| h.expires_at > now_secs)] *)
Definition retain_live (now : N) (e : LockEntry) : LockEntry :=
  mkEntry (max_holders e) (filter (live now) (holders e)).

Definition prune_expired (s : LockState) (now : N) : LockState :=
  mkLockState (omap (λ e, let e' := retain_live now e in
                          if entry_is_empty e' then None else Some e') (locks s)).

Definition held (s : LockState) (path : string) : bool :=
  match locks s !! path with
  | Some e => negb (entry_is_empty e)
  | None => false
  end.

Definition ancestor_conflict (s : LockState) (path : string) : bool :=
  existsb (held s) (ancestors path).

Definition descendant_conflict (s : LockState) (path : string) : bool :=
  let '(lo, hi) := descendant_range path in
  existsb (λ kv, negb (entry_is_empty kv.2)) (range lo (Excluded hi) (locks s)).

Definition accepts_new_holder (e : LockEntry) : bool :=
  (wrap32 (N.of_nat (length (holders e))) <? max_holders e)%N.

Definition to_result (e : LockEntry) (acq : bool) : LockAcquireResult :=
  mkAcquireResult acq (wrap32 (N.of_nat (length (holders e)))) (max_holders e) (holders e).

Definition empty_result (maxh : N) : LockAcquireResult := mkAcquireResult false 0 maxh [].

(** [holders.iter_mut().find(|h| h.lock_id == lock_id)] and the assignment to
    [h.expires_at]; [None] when no holder matches. *)
Fixpoint bump_holder (id : string) (exp : N) (hs : list HolderInfo) :
    option (list HolderInfo) :=
  match hs with
  | [] => None
  | h :: hs' =>
      if decide (lock_id h = id)
      then Some (mkHolder (lock_id h) (holder_info h) (acquired_at h) exp :: hs')
      else cons h <$> bump_holder id exp hs'
  end.

Definition apply_acquire (s : LockState) (path id : string) (maxh ttl : N)
    (info : string) (now : N) : LockAcquireResult * LockState :=
  if ancestor_conflict s path || descendant_conflict s path
  then (empty_result maxh, s)
  else
    let exp := sat_add64 now ttl in
    let entry := retain_live now (default entry_default (locks s !! path)) in
    let put e := mkLockState (<[path := e]> (locks s)) in
    match bump_holder id exp (holders entry) with
    | Some hs =>
        let e := mkEntry (max_holders entry) hs in (to_result e true, put e)
    | None =>
        if negb (entry_is_empty entry) && negb (max_holders entry =? maxh)%N
        then (to_result entry false, put entry)
        else
          let entry := if entry_is_empty entry then mkEntry maxh [] else entry in
          if accepts_new_holder entry then
            let e := mkEntry (max_holders entry)
                       (holders entry ++ [mkHolder id info now exp]) in
            (to_result e true, put e)
          else (to_result entry false, put entry)
    end.

Definition apply_release (s : LockState) (path id : string) : bool * LockState :=
  match locks s !! path with
  | Some e =>
      let hs := filter (λ h, lock_id h ≠ id) (holders e) in
      let removed := length hs <? length (holders e) in
      let e' := mkEntry (max_holders e) hs in
      (removed,
       mkLockState (if entry_is_empty e' then delete path (locks s)
                    else <[path := e']> (locks s)))
  | None => (false, s)
  end.

Definition apply_force_release (s : LockState) (path : string) : bool * LockState :=
  (bool_decide (is_Some (locks s !! path)), mkLockState (delete path (locks s))).

Definition apply_extend (s : LockState) (path id : string) (ttl now : N) :
    bool * LockState :=
  let exp := sat_add64 now ttl in
  match locks s !! path with
  | Some e =>
      let e' := retain_live now e in
      match bump_holder id exp (holders e') with
      | Some hs =>
          (true, mkLockState (<[path := mkEntry (max_holders e') hs]> (locks s)))
      | None =>
          (false, mkLockState (if entry_is_empty e' then delete path (locks s)
                               else <[path := e']> (locks s)))
      end
  | None => (false, s)
  end.

Definition get_lock (s : LockState) (path : string) : option LockInfo :=
  e ← locks s !! path;
  if decide (holders e = []) then None
  else Some (mkLockInfo path (max_holders e) (holders e)).

(** The [for] loop of [list_locks], with the vector built so far. *)
Fixpoint list_locks_loop (prefix : string) (limit : nat) (out : list LockInfo)
    (es : list (string * LockEntry)) : list LockInfo :=
  match es with
  | [] => out
  | (key, e) :: es' =>
      if limit <=? length out then out
      else if starts_with prefix key && negb (entry_is_empty e)
      then list_locks_loop prefix limit
             (out ++ [mkLockInfo key (max_holders e) (holders e)]) es'
      else list_locks_loop prefix limit out es'
  end.

Definition list_locks (s : LockState) (prefix : string) (limit : nat) : list LockInfo :=
  list_locks_loop prefix limit [] (entries (locks s)).

Definition gc_expired (s : LockState) (now : N) : LockState := prune_expired s now.

(** ** The hierarchy

    [strict_ancestor a p]: [a] is the root of a slash-separated path [p], or
    [p] continues [a] after a slash. *)

Definition strict_ancestor (a p : string) : Prop :=
  (a = "/" ∧ p ≠ "/" ∧ starts_with "/" p = true) ∨
  (a ≠ "" ∧ ∃ r, p = a +:+ "/" +:+ r).

Lemma last_slash_unique l r a r' :
  l +:+ "/" +:+ r = a +:+ "/" +:+ r' → scontains "/" r = false →
  a = l ∨ ∃ x, l = a +:+ "/" +:+ x.
Proof.
  intros He Hr.
  assert (rsplit_once "/" (l +:+ "/" +:+ r) = Some (l, r)) as Hl
    by (by apply rsplit_once_Some).
  rewrite He in Hl. destruct (rsplit_once "/" r') as [[x y]|] eqn:E.
  - apply rsplit_once_Some in E as [-> Hy]. right. exists x.
    assert (rsplit_once "/" (a +:+ "/" +:+ (x +:+ String "/" y)) =
            Some (a +:+ "/" +:+ x, y)) as Hx.
    { apply rsplit_once_Some. split; [|done]. by rewrite <-!sapp_assoc. }
    rewrite Hl in Hx. by injection Hx.
  - apply rsplit_once_None in E. left.
    assert (rsplit_once "/" (a +:+ "/" +:+ r') = Some (a, r')) as Hx
      by (by apply rsplit_once_Some).
    rewrite Hl in Hx. by injection Hx.
Qed.

Lemma starts_with_slash_app l r :
  l ≠ "" → starts_with "/" (l +:+ r) = starts_with "/" l.
Proof. destruct l as [|b l]; [done|]. intros _. rewrite sapp_cons. done. Qed.

Lemma elem_of_ancestors_loop fuel cur a :
  String.length cur ≤ fuel →
  a ∈ ancestors_loop fuel cur ↔
  (a = "/" ∧ starts_with "/" cur = true) ∨ (a ≠ "" ∧ ∃ r, cur = a +:+ "/" +:+ r).
Proof.
  revert cur. induction fuel as [|fuel IH]; intros cur Hf.
  { destruct cur; [|simpl in Hf; lia]. simpl. rewrite elem_of_nil. split; [done|].
    intros [[_ ?]|[_ [r Hr]]]; [done|]. by destruct a. }
  simpl. destruct (rsplit_once "/" cur) as [[l r]|] eqn:E.
  - apply rsplit_once_Some in E as [-> Hr].
    change (String "/" r) with ("/" +:+ r) in *.
    case_decide as Hl.
    + subst l. rewrite sapp_nil_l in *. rewrite list_elem_of_singleton. split.
      * intros ->. left. split; [done|]. apply starts_with_app.
      * intros [[-> _]|[Ha [x Hx]]]; [done|].
        destruct (last_slash_unique "" r a x) as [->|[y Hy]]; [done..|].
        by destruct a.
    + rewrite elem_of_cons, IH by (rewrite slen_app in Hf; simpl in Hf; lia). split.
      * intros [->|[[-> Hs]|[Ha [x ->]]]].
        -- right. eauto.
        -- left. split; [done|]. by rewrite starts_with_slash_app.
        -- right. split; [done|]. exists (x +:+ "/" +:+ r). by rewrite <-!sapp_assoc.
      * intros [[-> Hs]|[Ha [x Hx]]].
        -- right. left. split; [done|]. by rewrite starts_with_slash_app in Hs.
        -- destruct (last_slash_unique l r a x) as [->|[y ->]]; [done..|by left|].
           right. right. eauto.
  - apply rsplit_once_None in E. rewrite elem_of_nil. split; [done|].
    intros [[-> Hs]|[Ha [x ->]]].
    + apply starts_with_true in Hs as [x ->]. rewrite scontains_app in E. done.
    + rewrite !scontains_app in E. by rewrite orb_true_r in E.
Qed.

Lemma ancestors_loop_fuel n m cur :
  (String.length cur ≤ n)%nat → (String.length cur ≤ m)%nat → ancestors_loop n cur = ancestors_loop m cur.
Proof.
  revert m cur. induction n as [|n IH]; intros [|m] cur Hn Hm; try done;
    [by destruct cur; [|cbn in Hn; lia]|by destruct cur; [|cbn in Hm; lia]|].
  cbn [ancestors_loop]. destruct (rsplit_once "/" cur) as [[l r]|] eqn:E; [|done].
  apply rsplit_once_Some in E as [-> _]. rewrite slen_app in Hn, Hm. cbn [String.length] in Hn, Hm.
  case_decide; [done|]. f_equal. apply IH; lia.
Qed.

Lemma elem_of_ancestors a p : a ∈ ancestors p ↔ strict_ancestor a p.
Proof.
  unfold ancestors, strict_ancestor. case_decide as Hp.
  - rewrite elem_of_nil. split; [done|].
    intros [(_&Hne&Hs)|[Ha [r Hr]]].
    + destruct Hp as [->| ->]; done.
    + destruct Hp as [->| ->].
      * apply (f_equal String.length) in Hr. rewrite !slen_app in Hr.
        destruct a; [done|]. simpl in Hr. lia.
      * by destruct a.
  - rewrite elem_of_ancestors_loop by lia. naive_solver.
Qed.

Lemma replace_last_snoc c d q : replace_last c (q +:+ String d "") = q +:+ String c "".
Proof.
  induction q as [|a q IH]; [done|]. rewrite !sapp_cons. simpl. rewrite IH.
  by destruct q.
Qed.

Lemma prefix_upper_bound_slash q :
  prefix_upper_bound (q +:+ "/") = Some (q +:+ "0").
Proof.
  induction q as [|a q IH]; [done|]. by rewrite !sapp_cons, prefix_upper_bound_cons, IH.
Qed.

(** The text every path of the descendant range starts with. *)
Definition dir_prefix (path : string) : string :=
  if ends_with "/" path then path else path +:+ "/".

Lemma dir_prefix_slash path : ∃ q, dir_prefix path = q +:+ "/".
Proof.
  unfold dir_prefix. destruct (ends_with "/" path) eqn:E; [|by exists path].
  by apply ends_with_true in E.
Qed.

Lemma descendant_range_prefix path k :
  let '(lo, hi) := descendant_range path in
  String.leb lo k && below (Excluded hi) k = starts_with (dir_prefix path) k.
Proof.
  unfold descendant_range. fold (dir_prefix path).
  destruct (dir_prefix_slash path) as [q ->].
  rewrite (replace_last_snoc "0" "/" q), <-prefix_range. unfold prefix_bound.
  by rewrite prefix_upper_bound_slash.
Qed.

Lemma strict_ancestor_dir_prefix a p :
  strict_ancestor a p → starts_with (dir_prefix a) p = true.
Proof.
  unfold dir_prefix. intros [(->&_&Hs)|[Ha [r ->]]]; [done|].
  destruct (ends_with "/" a); [apply starts_with_app|].
  rewrite sapp_assoc. apply starts_with_app.
Qed.

Lemma held_true s p :
  held s p = true ↔ ∃ e, locks s !! p = Some e ∧ holders e ≠ [].
Proof.
  unfold held, entry_is_empty. destruct (locks s !! p) as [e|]; [|naive_solver].
  rewrite negb_true_iff, bool_decide_eq_false. naive_solver.
Qed.

Lemma ancestor_conflict_true s p :
  ancestor_conflict s p = true ↔ ∃ a, strict_ancestor a p ∧ held s a = true.
Proof.
  unfold ancestor_conflict. rewrite existsb_exists.
  setoid_rewrite <-list_elem_of_In. by setoid_rewrite elem_of_ancestors.
Qed.

Lemma descendant_conflict_true s p :
  descendant_conflict s p = true ↔
  ∃ d, starts_with (dir_prefix p) d = true ∧ held s d = true.
Proof.
  unfold descendant_conflict.
  pose proof (descendant_range_prefix p) as Hr.
  destruct (descendant_range p) as [lo hi].
  rewrite existsb_exists. setoid_rewrite <-list_elem_of_In.
  setoid_rewrite held_true. setoid_rewrite <-Hr. split.
  - intros [[k e] [(?&?&?)%elem_of_range He]]. exists k. split.
    + by apply andb_true_iff.
    + exists e. split; [done|].
      by apply negb_true_iff, bool_decide_eq_false in He.
  - intros (d & [? ?]%andb_true_iff & e & ? & ?). exists (d, e).
    rewrite elem_of_range. split; [done|]. by apply negb_true_iff, bool_decide_eq_false.
Qed.

(** ** The invariant *)

Definition wf_entry (e : LockEntry) : Prop :=
  NoDup (lock_id <$> holders e) ∧
  (N.of_nat (length (holders e)) ≤ max_holders e)%N ∧
  (max_holders e < U32_MOD)%N.

(** No holder on a path while a strict ancestor of it has one. *)
Definition exclusive (s : LockState) : Prop :=
  ∀ a p, strict_ancestor a p → held s a = true → held s p = true → False.

Definition lock_ok (s : LockState) : Prop :=
  map_Forall (λ _ e, wf_entry e) (locks s) ∧ exclusive s.

Lemma bump_holder_Some id exp hs hs' :
  bump_holder id exp hs = Some hs' →
  lock_id <$> hs' = lock_id <$> hs ∧ length hs' = length hs ∧
  ∃ h, h ∈ hs' ∧ lock_id h = id ∧ expires_at h = exp.
Proof.
  revert hs'. induction hs as [|h hs IH]; intros hs'; simpl; [done|].
  case_decide as Hd.
  - intros [= <-]. simpl. split_and!; [done..|]. eexists. split; [left|]. done.
  - intros H. apply fmap_Some in H as (l & Hl & ->). apply IH in Hl as (E1&E2&h'&?&?&?).
    rewrite !fmap_cons, E1. simpl. rewrite E2.
    split_and!; [done..|]. exists h'. split; [by right|done].
Qed.

Lemma bump_holder_None id exp hs :
  bump_holder id exp hs = None ↔ id ∉ (lock_id <$> hs).
Proof.
  induction hs as [|h hs IH]; simpl.
  - split; [intros _; apply not_elem_of_nil|done].
  - rewrite not_elem_of_cons. case_decide as Hd.
    + split; [done|]. naive_solver.
    + rewrite fmap_None, IH. naive_solver.
Qed.

Lemma NoDup_filter_ids (P : HolderInfo → Prop) `{!∀ h, Decision (P h)} hs :
  NoDup (lock_id <$> hs) → NoDup (lock_id <$> filter P hs).
Proof.
  induction hs as [|h hs IH]; [done|]. rewrite fmap_cons, NoDup_cons. intros [Hh Hn].
  rewrite filter_cons. case_decide; [|auto]. rewrite fmap_cons, NoDup_cons.
  split; [|auto]. intros (h' & Eh & [_ Hin]%list_elem_of_filter)%list_elem_of_fmap.
  apply Hh. rewrite Eh. apply list_elem_of_fmap. eauto.
Qed.

Lemma wf_filter (P : HolderInfo → Prop) `{!∀ h, Decision (P h)} e :
  wf_entry e → wf_entry (mkEntry (max_holders e) (filter P (holders e))).
Proof.
  intros (Hn&Hl&Hm). split_and!; simpl; [by apply NoDup_filter_ids| |done].
  pose proof (length_filter P (holders e)). lia.
Qed.

Lemma wf_bump id exp m hs hs' :
  bump_holder id exp hs = Some hs' → wf_entry (mkEntry m hs) → wf_entry (mkEntry m hs').
Proof.
  intros (E1&E2&_)%bump_holder_Some (Hn&Hl&Hm). split_and!; simpl in *; try done.
  - by rewrite E1.
  - by rewrite E2.
Qed.

Lemma wf_default : wf_entry entry_default.
Proof. split_and!; simpl; [constructor|done|done]. Qed.

Lemma wf_add e h :
  wf_entry e → lock_id h ∉ (lock_id <$> holders e) → accepts_new_holder e = true →
  wf_entry (mkEntry (max_holders e) (holders e ++ [h])).
Proof.
  intros (Hn&Hl&Hm) Hid Hacc. unfold accepts_new_holder in Hacc.
  apply N.ltb_lt in Hacc. unfold wrap32 in Hacc. rewrite N.mod_small in Hacc by lia.
  split_and!; simpl; [|rewrite length_app; simpl; lia|done].
  rewrite fmap_app. apply NoDup_app. split_and!; [done| |apply NoDup_singleton].
  intros x Hx Hx'. apply list_elem_of_singleton in Hx' as ->. done.
Qed.
