(* ===== verification/LockProofs.v ===== *)
(** * Properties of the advisory lock table

    The invariant every sequence of transitions keeps, the exact condition
    under which an acquire is granted, the effect of each transition and two
    behaviours that differ from what the source documents. *)

From S2P Require Import Prelude Bytes Codec Table LockState.

(** ** Transitions as steps *)

Inductive lock_op :=
  | OpAcquire (path id : string) (maxh ttl : N) (info : string) (now : N)
  | OpRelease (path id : string)
  | OpForceRelease (path : string)
  | OpExtend (path id : string) (ttl now : N)
  | OpGc (now : N).

Definition run_lock_op (s : LockState) (op : lock_op) : LockState :=
  match op with
  | OpAcquire path id maxh ttl info now => (apply_acquire s path id maxh ttl info now).2
  | OpRelease path id => (apply_release s path id).2
  | OpForceRelease path => (apply_force_release s path).2
  | OpExtend path id ttl now => (apply_extend s path id ttl now).2
  | OpGc now => gc_expired s now
  end.

(** [max_holders] is a [u32]. *)
Definition lock_op_typed (op : lock_op) : Prop :=
  match op with OpAcquire _ _ maxh _ _ _ => (maxh < U32_MOD)%N | _ => True end.

(** ** Preservation *)

Lemma strict_ancestor_irrefl a : ¬ strict_ancestor a a.
Proof.
  intros [(->&?&_)|[_ [r Hr]]]; [done|]. apply (f_equal String.length) in Hr.
  rewrite !slen_app in Hr. simpl in Hr. lia.
Qed.

Lemma held_insert s path e p :
  held (mkLockState (<[path := e]> (locks s))) p =
    if decide (path = p) then negb (entry_is_empty e) else held s p.
Proof. unfold held. simpl. rewrite lookup_insert. by case_decide. Qed.

Lemma held_delete s path p :
  held (mkLockState (delete path (locks s))) p =
    if decide (path = p) then false else held s p.
Proof. unfold held. simpl. rewrite lookup_delete. by case_decide. Qed.

Lemma exclusive_mono s s' :
  exclusive s → (∀ p, held s' p = true → held s p = true) → exclusive s'.
Proof. unfold exclusive. naive_solver. Qed.

Lemma exclusive_put s path e :
  exclusive s → ancestor_conflict s path = false → descendant_conflict s path = false →
  exclusive (mkLockState (<[path := e]> (locks s))).
Proof.
  intros Hs Ha Hd a p Hap. rewrite !held_insert.
  case_decide as E1; [subst a|]; case_decide as E2; try subst p.
  - by apply strict_ancestor_irrefl in Hap.
  - intros _ Hp. rewrite (proj2 (descendant_conflict_true s path)) in Hd; [done|].
    exists p. split; [by apply strict_ancestor_dir_prefix|done].
  - intros Hh _. rewrite (proj2 (ancestor_conflict_true s path)) in Ha; [done|]. eauto.
  - by apply Hs.
Qed.

Lemma wf_put s path e :
  map_Forall (λ _ e, wf_entry e) (locks s) → wf_entry e →
  map_Forall (λ _ e, wf_entry e) (<[path := e]> (locks s)).
Proof. intros. by apply map_Forall_insert_2. Qed.

Lemma wf_lookup_default s path :
  map_Forall (λ _ e, wf_entry e) (locks s) →
  wf_entry (default entry_default (locks s !! path)).
Proof.
  intros Hs. destruct (locks s !! path) as [e|] eqn:E; simpl; [by eapply Hs|apply wf_default].
Qed.

(** The three ways [apply_acquire] ends once the hierarchy admits it. *)
Lemma apply_acquire_admitted s path id maxh ttl info now :
  ancestor_conflict s path = false → descendant_conflict s path = false →
  let old := retain_live now (default entry_default (locks s !! path)) in
  let r := apply_acquire s path id maxh ttl info now in
  ∃ e, r.2 = mkLockState (<[path := e]> (locks s)) ∧ r.1 = to_result e (acquired r.1) ∧
    ((acquired r.1 = true ∧ max_holders e = max_holders old ∧
        bump_holder id (sat_add64 now ttl) (holders old) = Some (holders e)) ∨
     (acquired r.1 = true ∧ (id ∉ lock_id <$> holders old) ∧
        (holders old = [] ∨ max_holders old = maxh) ∧
        accepts_new_holder (mkEntry maxh (holders old)) = true ∧
        e = mkEntry maxh (holders old ++ [mkHolder id info now (sat_add64 now ttl)])) ∨
     (acquired r.1 = false ∧ (id ∉ lock_id <$> holders old) ∧
        holders e = holders old ∧
        ((e = old ∧ holders old ≠ [] ∧ max_holders old ≠ maxh) ∨
         max_holders e = maxh ∧ (holders old = [] ∨ max_holders old = maxh) ∧
         accepts_new_holder e = false))).
Proof.
  intros Ha Hd old r. subst r. unfold apply_acquire. rewrite Ha, Hd. cbn [orb].
  fold old. destruct (bump_holder id (sat_add64 now ttl) (holders old)) as [hs|] eqn:Eb.
  { eexists. split_and!; [done..|]. left. done. }
  apply bump_holder_None in Eb. unfold entry_is_empty.
  case_bool_decide as He; cbn [negb andb].
  - destruct (accepts_new_holder (mkEntry maxh [])) eqn:Eacc; cbn [holders max_holders].
    + eexists. split_and!; [done..|]. right. left. rewrite He. cbn [app]. split_and!; auto.
      intros Hin. by apply not_elem_of_nil in Hin.
    + eexists. split_and!; [done..|]. right. right. cbn [holders max_holders].
      rewrite He. split_and!; auto. intros Hin. by apply not_elem_of_nil in Hin.
  - destruct (N.eqb_spec (max_holders old) maxh) as [E|E]; cbn [negb].
    + destruct old as [m hs]. cbn [holders max_holders] in *. subst m.
      destruct (accepts_new_holder (mkEntry maxh hs)) eqn:Eacc.
      * eexists. split_and!; [done..|]. right. left. auto.
      * eexists. split_and!; [done..|]. right. right. cbn [holders max_holders].
        split_and!; [done..|]. right. auto.
    + eexists. split_and!; [done..|]. right. right. split_and!; [done..|]. by left.
Qed.

Lemma apply_acquire_conflict s path id maxh ttl info now :
  ancestor_conflict s path || descendant_conflict s path = true →
  apply_acquire s path id maxh ttl info now = (empty_result maxh, s).
Proof. unfold apply_acquire. by intros ->. Qed.

Lemma acquire_ok s path id maxh ttl info now :
  (maxh < U32_MOD)%N → lock_ok s →
  lock_ok (apply_acquire s path id maxh ttl info now).2.
Proof.
  intros Hm [Hw Hx].
  destruct (ancestor_conflict s path || descendant_conflict s path) eqn:Ec.
  { by rewrite apply_acquire_conflict. }
  apply orb_false_iff in Ec as [Ha Hd].
  destruct (apply_acquire_admitted s path id maxh ttl info now Ha Hd)
    as (e & -> & _ & Hcase). split; [|by apply exclusive_put].
  apply wf_put; [done|]. pose proof (wf_lookup_default s path Hw) as Hold.
  apply (wf_filter (live now)) in Hold. fold (retain_live now
    (default entry_default (locks s !! path))) in Hold.
  set (old := retain_live now _) in *. destruct e as [m hs]. cbn [max_holders holders] in *.
  destruct Hold as (Hn&Hl&Hmm).
  destruct Hcase as [(_&->&Hb)|[(_&Hid&Hsame&Hacc&[= -> ->])|(_&_&->&Hc)]].
  - apply (wf_bump _ _ _ _ _ Hb). by destruct old.
  - apply (wf_add (mkEntry maxh (holders old))); [|done..].
    split_and!; cbn [holders max_holders]; [done| |done].
    destruct Hsame as [-> | <-]; [simpl; lia|done].
  - assert (m = max_holders old ∨ m = maxh ∧ (holders old = [] ∨ max_holders old = maxh))
      as Hcm.
    { destruct Hc as [[He _]|[-> [Hsame _]]]; [|by right].
      left. by apply (f_equal max_holders) in He. }
    clear Hc. split_and!; cbn [holders max_holders]; [done| |naive_solver].
    destruct Hcm as [->|[-> [-> | <-]]]; [done|simpl; lia|done].
Qed.

Lemma release_ok s path id : lock_ok s → lock_ok (apply_release s path id).2.
Proof.
  intros [Hw Hx]. unfold apply_release. destruct (locks s !! path) as [e|] eqn:E; [|done].
  cbn [snd]. unfold entry_is_empty. case_bool_decide as He; cbn [holders] in He.
  - split; simpl; [by apply map_Forall_delete|]. apply (exclusive_mono s); [done|].
    intros p. rewrite held_delete. by case_decide.
  - split; simpl; [apply wf_put; [done|]; apply wf_filter; by eapply Hw|].
    apply (exclusive_mono s); [done|]. intros p. rewrite held_insert.
    case_decide; [subst p|done]. intros _. apply held_true. exists e. split; [done|].
    intros Hnil. rewrite Hnil in He. done.
Qed.

Lemma force_release_ok s path : lock_ok s → lock_ok (apply_force_release s path).2.
Proof.
  intros [Hw Hx]. split; simpl; [by apply map_Forall_delete|].
  apply (exclusive_mono s); [done|]. intros p. rewrite held_delete. by case_decide.
Qed.

Lemma filter_nonempty {A} (P : A → Prop) `{!∀ x, Decision (P x)} (l : list A) :
  filter P l ≠ [] → l ≠ [].
Proof. by intros Hf ->. Qed.

Lemma extend_ok s path id ttl now : lock_ok s → lock_ok (apply_extend s path id ttl now).2.
Proof.
  intros [Hw Hx]. unfold apply_extend. destruct (locks s !! path) as [e|] eqn:E; [|done].
  assert (wf_entry (retain_live now e)) as Hwe by (apply wf_filter; by eapply Hw).
  assert (∀ e', (holders e' ≠ [] → holders e ≠ []) →
    exclusive (mkLockState (<[path := e']> (locks s)))) as Hput.
  { intros e' He'. apply (exclusive_mono s); [done|]. intros p. rewrite held_insert.
    case_decide; [subst p|done]. unfold entry_is_empty. intros Hb%negb_true_iff.
    apply bool_decide_eq_false in Hb. apply held_true. eauto. }
  destruct (bump_holder id (sat_add64 now ttl) (holders (retain_live now e)))
    as [hs|] eqn:Eb; cbn [snd].
  - split; [apply wf_put; [done|]; apply (wf_bump _ _ _ _ _ Eb); by destruct (retain_live now e)|].
    apply Hput. cbn [holders]. intros Hne. apply bump_holder_Some in Eb as (_&Hl&_).
    intros Hnil. unfold retain_live in Hl. cbn [holders] in Hl. rewrite Hnil in Hl.
    by destruct hs.
  - unfold entry_is_empty. case_bool_decide as He.
    + split; simpl; [by apply map_Forall_delete|]. apply (exclusive_mono s); [done|].
      intros p. rewrite held_delete. by case_decide.
    + split; [by apply wf_put|]. apply Hput. intros _. by apply (filter_nonempty (live now)).
Qed.

Lemma gc_ok s now : lock_ok s → lock_ok (gc_expired s now).
Proof.
  intros [Hw Hx]. unfold gc_expired, prune_expired, entry_is_empty. split; simpl.
  - intros p e'. rewrite lookup_omap. intros (e & He & Hf)%bind_Some.
    case_bool_decide; [done|]. injection Hf as <-. apply wf_filter. by eapply Hw.
  - apply (exclusive_mono s); [done|]. intros p. rewrite !held_true. cbn [locks].
    intros (e' & Hl & Hne). rewrite lookup_omap in Hl.
    apply bind_Some in Hl as (e & He & Hf). exists e. split; [done|].
    case_bool_decide; [done|]. injection Hf as <-. by apply (filter_nonempty (live now)).
Qed.

Lemma run_lock_op_ok s op : lock_op_typed op → lock_ok s → lock_ok (run_lock_op s op).
Proof.
  destruct op; cbn [run_lock_op lock_op_typed]; intros Ht Hs;
    auto using acquire_ok, release_ok, force_release_ok, extend_ok, gc_ok.
Qed.

(** ** Claims *)

(** after any sequence of acquires, releases, forced releases, extensions
    and garbage collections, from the empty table: no path has more recorded
    holders than its [max_holders], holder ids are unique on a path, and no
    path has a holder while one of its strict ancestors has one. *)
Theorem locks_invariant (ops : list lock_op) (Hops : Forall lock_op_typed ops) :
  lock_ok (foldl run_lock_op lock_state_new ops).
Proof.
  assert (lock_ok lock_state_new) as H0.
  { split; [apply map_Forall_empty|]. intros a p _ Ha. by apply held_true in Ha as (?&?&?). }
  revert H0. generalize lock_state_new. induction Hops as [|op ops Hop _ IH]; intros s Hs;
    [done|]. simpl. by apply IH, run_lock_op_ok.
Qed.

Lemma locks_invariant_witness :
  let ops := [OpAcquire "/a/b" "h1" 2 60 "x" 1000; OpAcquire "/a" "h2" 1 60 "x" 1001;
              OpAcquire "/a/b" "h3" 2 60 "x" 1002; OpRelease "/a/b" "h1"; OpGc 9999] in
  lock_ok (foldl run_lock_op lock_state_new ops).
Proof. apply locks_invariant. repeat constructor. Defined.

(** The live holders an acquire on [path] at time [now] sees. *)
Definition live_holders (s : LockState) (path : string) (now : N) : list HolderInfo :=
  filter (live now) (holders (default entry_default (locks s !! path))).

Lemma ancestor_conflict_false s path :
  ancestor_conflict s path = false ↔ ∀ a, strict_ancestor a path → held s a = false.
Proof.
  rewrite <-not_true_iff_false, ancestor_conflict_true.
  setoid_rewrite <-not_true_iff_false. naive_solver.
Qed.

Lemma descendant_conflict_false s path :
  descendant_conflict s path = false ↔
  ∀ d, starts_with (dir_prefix path) d = true → held s d = false.
Proof.
  rewrite <-not_true_iff_false, descendant_conflict_true.
  setoid_rewrite <-not_true_iff_false. naive_solver.
Qed.

Lemma live_holders_capacity s path now :
  map_Forall (λ _ e, wf_entry e) (locks s) →
  (N.of_nat (length (live_holders s path now)) ≤
     max_holders (default entry_default (locks s !! path)))%N ∧
  (max_holders (default entry_default (locks s !! path)) < U32_MOD)%N.
Proof.
  intros Hw. destruct (wf_lookup_default s path Hw) as (_ & Hcap & HmU).
  split; [|done]. unfold live_holders.
  pose proof (length_filter (live now)
    (holders (default entry_default (locks s !! path)))). lia.
Qed.

Lemma accepts_new_holder_small e :
  (N.of_nat (length (holders e)) < U32_MOD)%N →
  accepts_new_holder e = (N.of_nat (length (holders e)) <? max_holders e)%N.
Proof. intros H. unfold accepts_new_holder, wrap32. by rewrite N.mod_small. Qed.



Lemma bump_holder_others id exp hs hs' :
  bump_holder id exp hs = Some hs' → NoDup (lock_id <$> hs) →
  filter (λ h, lock_id h ≠ id) hs' = filter (λ h, lock_id h ≠ id) hs.
Proof.
  revert hs'. induction hs as [|h hs IH]; intros hs' Hb Hn; simpl in Hb; [done|].
  rewrite fmap_cons, NoDup_cons in Hn. destruct Hn as [Hh Hn]. case_decide as Hd.
  - injection Hb as <-. rewrite !filter_cons. cbn [lock_id].
    rewrite !decide_False by naive_solver. done.
  - apply fmap_Some in Hb as (l & Hl & ->). rewrite !filter_cons.
    rewrite !decide_True by done. by rewrite (IH l).
Qed.

Lemma filter_swap {A} (P Q : A → Prop) `{!∀ x, Decision (P x), !∀ x, Decision (Q x)} (l : list A) :
  filter P (filter Q l) = filter Q (filter P l).
Proof. rewrite !list_filter_filter. apply list_filter_iff. naive_solver. Qed.

Lemma filter_idemp {A} (P : A → Prop) `{!∀ x, Decision (P x)} (l : list A) :
  filter P (filter P l) = filter P l.
Proof. rewrite list_filter_filter. apply list_filter_iff. naive_solver. Qed.

Lemma Forall_list_filter_nil {A} (P : A → Prop) `{!∀ x, Decision (P x)} (l : list A) :
  Forall (λ x, ¬ P x) l → filter P l = [].
Proof. induction 1; [done|]. rewrite filter_cons, decide_False by done. done. Qed.

(** a granted acquire leaves the caller on [path] with the requested
    deadline, keeps exactly the live holders other than the caller there, and
    touches no other path; a refused one changes no holder that is still
    live. *)
Theorem acquire_effect s path id maxh ttl info now (Hok : lock_ok s) :
  let r := apply_acquire s path id maxh ttl info now in
  (∀ p, p ≠ path → locks r.2 !! p = locks s !! p) ∧
  filter (λ h, lock_id h ≠ id) (live_holders r.2 path now) =
    filter (λ h, lock_id h ≠ id) (live_holders s path now) ∧
  (acquired r.1 = true →
     ∃ e h, locks r.2 !! path = Some e ∧ h ∈ holders e ∧ lock_id h = id ∧
            expires_at h = sat_add64 now ttl) ∧
  (acquired r.1 = false → live_holders r.2 path now = live_holders s path now).
Proof.
  intros r. subst r.
  destruct (ancestor_conflict s path || descendant_conflict s path) eqn:Ec.
  { by rewrite apply_acquire_conflict. }
  apply orb_false_iff in Ec as [Ha Hd].
  destruct (apply_acquire_admitted s path id maxh ttl info now Ha Hd)
    as (e & Hs & _ & Hc). rewrite Hs. cbn [locks].
  assert (NoDup (lock_id <$> live_holders s path now)) as Hn.
  { apply NoDup_filter_ids. apply (wf_lookup_default s path (proj1 Hok)). }
  unfold retain_live in Hc. cbn [holders max_holders] in Hc.
  fold (live_holders s path now) in Hc.
  split; [by intros p Hp; rewrite lookup_insert_ne|].
  assert (live_holders (mkLockState (<[path:=e]> (locks s))) path now =
          filter (live now) (holders e)) as ->.
  { unfold live_holders at 1. cbn [locks]. by rewrite lookup_insert_eq. }
  rewrite lookup_insert_eq.
  assert (filter (live now) (live_holders s path now) = live_holders s path now) as Hl
    by apply filter_idemp.
  destruct Hc as [(->&_&Hb)|[(->&Hid&_&_&->)|(->&_&->&_)]]; cbn [holders].
  - split_and!; [|intros _|done].
    + rewrite filter_swap, (bump_holder_others _ _ _ _ Hb Hn), filter_swap. by rewrite Hl.
    + apply bump_holder_Some in Hb as (_&_&h&?&?&?). by exists e, h.
  - split_and!; [|intros _|done].
    + rewrite filter_swap, filter_app, filter_cons, decide_False by naive_solver.
      rewrite filter_nil, app_nil_r, filter_swap. by rewrite Hl.
    + eexists _, _. split; [done|]. split; [apply elem_of_app; right; by left|done].
  - rewrite Hl. done.
Qed.

Lemma acquire_effect_witness :
  let s := foldl run_lock_op lock_state_new [OpAcquire "/a" "h1" 2 60 "x" 1000] in
  let r := apply_acquire s "/a" "h2" 2 30 "y" 1001 in
  acquired r.1 = true ∧
  ∃ e h, locks r.2 !! "/a" = Some e ∧ h ∈ holders e ∧ lock_id h = "h2" ∧
         expires_at h = sat_add64 1001 30.
Proof.
  assert (lock_ok (foldl run_lock_op lock_state_new
    [OpAcquire "/a" "h1" 2 60 "x" 1000])) as Hok.
  { cbn [foldl]. apply run_lock_op_ok; [reflexivity|]. split; [apply map_Forall_empty|].
    intros a p _ Ha. by apply held_true in Ha as (?&?&?). }
  split; [vm_compute; reflexivity|].
  apply (acquire_effect _ "/a" "h2" 2 30 "y" 1001 Hok). vm_compute. reflexivity.
Defined.

(** on a path with no entry, releasing what was just acquired restores the
    lock table exactly. *)
Theorem acquire_release_roundtrip s path id maxh ttl info now
    (Hfree : locks s !! path = None)
    (Hgot : acquired (apply_acquire s path id maxh ttl info now).1 = true) :
  apply_release (apply_acquire s path id maxh ttl info now).2 path id = (true, s).
Proof.
  destruct (ancestor_conflict s path || descendant_conflict s path) eqn:Ec.
  { by rewrite apply_acquire_conflict in Hgot. }
  apply orb_false_iff in Ec as [Ha Hd].
  destruct (apply_acquire_admitted s path id maxh ttl info now Ha Hd)
    as (e & -> & _ & Hc). rewrite Hfree in Hc. cbn in Hc.
  destruct Hc as [(_&_&?)|[(_&_&_&_&->)|(Hf&_)]]; [done| |congruence].
  unfold apply_release. cbn [locks]. rewrite lookup_insert_eq. cbn [holders].
  rewrite filter_cons, decide_False by naive_solver. cbn.
  unfold entry_is_empty. cbn. rewrite delete_insert_id by done. by destruct s.
Qed.

Lemma acquire_release_roundtrip_witness :
  let s := foldl run_lock_op lock_state_new [OpAcquire "/b" "h1" 1 60 "x" 1000] in
  apply_release (apply_acquire s "/a" "h2" 1 60 "y" 1001).2 "/a" "h2" = (true, s).
Proof. apply acquire_release_roundtrip; vm_compute; reflexivity. Defined.

Lemma list_locks_loop_take prefix limit out es :
  length out ≤ limit →
  list_locks_loop prefix limit out es =
    take limit (out ++ ((λ kv, mkLockInfo kv.1 (max_holders kv.2) (holders kv.2)) <$>
      filter (λ kv, starts_with prefix kv.1 = true ∧ holders kv.2 ≠ []) es)).
Proof.
  revert out. induction es as [|[k e] es IH]; intros out Hl; cbn [list_locks_loop].
  - cbn. rewrite app_nil_r. by rewrite take_ge.
  - destruct (Nat.leb_spec limit (length out)) as [Hge|Hlt].
    { rewrite take_app_le, take_ge by lia. done. }
    rewrite filter_cons. cbn [fst snd]. unfold entry_is_empty.
    destruct (starts_with prefix k && _) eqn:E.
    + rewrite IH by (rewrite length_app; simpl; lia).
      apply andb_true_iff in E as [E1 E2%negb_true_iff%bool_decide_eq_false].
      rewrite decide_True by done. by rewrite fmap_cons, <-app_assoc.
    + rewrite IH by lia. rewrite decide_False; [done|]. intros [E1 E2].
      by rewrite E1, bool_decide_eq_false_2 in E.
Qed.

(** [list_locks] returns, in path order, the first [limit] entries that
    have a holder and whose path starts with [prefix]. *)
Theorem list_locks_spec s prefix limit :
  list_locks s prefix limit =
    take limit ((λ kv, mkLockInfo kv.1 (max_holders kv.2) (holders kv.2)) <$>
      filter (λ kv, starts_with prefix kv.1 = true ∧ holders kv.2 ≠ [])
        (entries (locks s))).
Proof. unfold list_locks. rewrite list_locks_loop_take by (simpl; lia). done. Qed.

(** a holder of the root path cannot re-acquire it.  [apply_acquire]
    documents an idempotent re-acquire and "strict" descendants, but the range
    it scans for ["/"] contains ["/"] itself, so a recorded holder of the root
    always conflicts with the next acquire of the root, its own included. *)
Theorem root_reacquire_refused s id maxh ttl info now
    (Hheld : held s "/" = true) :
  apply_acquire s "/" id maxh ttl info now = (empty_result maxh, s).
Proof.
  apply apply_acquire_conflict. apply orb_true_iff. right.
  apply descendant_conflict_true. exists "/". by split.
Qed.

Lemma root_reacquire_refused_witness :
  let s := (apply_acquire lock_state_new "/" "h1" 1 60 "agent" 1000).2 in
  apply_acquire s "/" "h1" 1 60 "agent" 1000 = (empty_result 1, s).
Proof. apply root_reacquire_refused. vm_compute. reflexivity. Defined.

(** a holder whose deadline has passed still blocks every acquire below
    its path: acquires prune only the entry they touch.  The reads' comments
    call such a row cold and one that never blocks a live decision. *)
Theorem expired_ancestor_blocks s anc path e id maxh ttl info now
    (Hanc : strict_ancestor anc path)
    (Hrow : locks s !! anc = Some e) (Hrec : holders e ≠ [])
    (Hold : Forall (λ h, (expires_at h ≤ now)%N) (holders e)) :
  live_holders s anc now = [] ∧
  apply_acquire s path id maxh ttl info now = (empty_result maxh, s).
Proof.
  split.
  - unfold live_holders. rewrite Hrow. cbn [default].
    apply Forall_list_filter_nil. eapply Forall_impl; [done|]. unfold live. lia.
  - apply apply_acquire_conflict. apply orb_true_iff. left.
    apply ancestor_conflict_true. exists anc. split; [done|]. apply held_true. eauto.
Qed.

Lemma expired_ancestor_blocks_witness :
  let s := (apply_acquire lock_state_new "/a" "h1" 1 1 "agent" 1000).2 in
  live_holders s "/a" 5000 = [] ∧
  apply_acquire s "/a/b" "h2" 1 60 "agent" 5000 = (empty_result 1, s).
Proof.
  eapply expired_ancestor_blocks.
  - right. split; [discriminate|]. exists "b". reflexivity.
  - vm_compute. reflexivity.
  - discriminate.
  - repeat constructor. vm_compute. discriminate.
Defined.
