(* ===== verification/Command.v ===== *)
(** * Commands, results and the zone database

    src/rust/raft/src/raft/state_machine.rs ([Command], [CommandResult]) and
    its submodules' classification methods: the vocabulary of the replicated
    log, the errors of src/rust/raft/src/raft/error.rs, the three redb trees of
    one zone, and the transaction monad in which the apply path is written. *)

From S2P Require Import Prelude Bytes Codec Table LockState.

(** ** Errors *)

Inductive RaftError :=
  | Storage (msg : string)
  | Raft (msg : string)
  | NotLeader (leader_hint : option string)
  | ProposalDropped
  | ProposalOutcomeUnknown (msg : string)
  | Timeout (secs : N)
  | Config (msg : string)
  | Serialization (msg : string)
  | NotInitialized
  | InvalidState (msg : string)
  | UnsupportedOperation (msg : string)
  | ChannelClosed
  | ChannelFull (capacity : N)
  | Transport (msg : string)
  | DataDirLocked (path : string)
  | ZoneAlreadyExistsWithDifferentMembership (actual requested : list string).

Abbreviation Result := (result RaftError).

Definition proposal_outcome_unknown (e : RaftError) : bool :=
  match e with
  | Transport _ | Timeout _ | ProposalOutcomeUnknown _ => true
  | ProposalDropped => true
  | NotLeader _ => false
  | Storage _ | Serialization _ | Config _ => false
  | _ => false
  end.

(** ** Commands *)

Inductive GuardedRecordMutation :=
  | ReplaceMetadata (key value : string) (expected : option string) (incarnation : string)
  | Append (stream_prefix data : string)
  | Seal (stream_prefix : string) (base end_ : N) (content_id origin : string) (size : N)
  | Trim (stream_prefix : string) (up_to_seq : N) (trimmed : list (string * string)).

Inductive Command :=
  | SetMetadata (key value : string)
  | DeleteMetadata (key : string)
  | AcquireLock (path lock_id : string) (max_holders ttl_secs : N)
      (holder_info : string) (now_secs : N)
  | ReleaseLock (path lock_id : string)
  | ExtendLock (path lock_id : string) (new_ttl_secs now_secs : N)
  | CasSetMetadata (key value : string) (expected_version : N)
  | AdjustCounter (key : string) (delta : Z)
  | ForceReleaseLock (path : string)
  | AppendStreamEntry (stream_prefix data : string)
  | Noop
  | PutControlState (namespace key value : string) (if_absent : bool)
  | DeleteControlState (namespace key : string)
  | SealStreamSegment (stream_prefix : string) (base end_ : N)
      (content_id origin : string) (size : N)
  | TrimStreamSegment (stream_prefix : string) (up_to_seq : N)
      (trimmed : list (string * string))
  | WriteVersionedMetadata (key value : string) (expected : option string)
      (incarnation : string)
  | AdoptProtectedMetadata (key : string) (expected_image : option string)
      (incarnation : string)
  | RenameMetadata (old_key new_key : string) (is_pas : bool)
  | BindRecordGuard (key : string) (expected_image : option string)
      (guard_key guard_version incarnation : string)
  | GuardedRecord (guard_version : string) (mutation : GuardedRecordMutation)
  | RetireRecordGuard (key expected_version value incarnation : string)
  | AdmitRecordIoOwner (key expected_version : string).

Record VersionedMetadata := mkVersioned {
  vm_value : option string;
  vm_version : option string }.

Definition versioned_default : VersionedMetadata := mkVersioned None None.

Inductive CommandResult :=
  | Success
  | Value (v : string)
  | LockResult (r : LockAcquireResult)
  | CasResult (success : bool) (current_version : N)
  | Error (msg : string)
  | ConditionalMetadata (committed : bool) (current : VersionedMetadata)
  | ConditionalMetadataUnsupported
  | ProtectedMetadata (protected : bool).

(** ** Classification *)

Definition MANAGED_CONTENT_ROOT : string := "/__managed_content_v1__".
Definition WAL_STREAM_KEY_PREFIX : string := "/__wal_stream__/".
Definition NAMESPACE : string := "content-version-v1".

Definition is_managed_content_path (path : string) : bool :=
  bool_decide (path = MANAGED_CONTENT_ROOT) ||
  match strip_prefix MANAGED_CONTENT_ROOT path with
  | Some tail => starts_with "/" tail
  | None => false
  end.

Abbreviation is_managed_key := is_managed_content_path.

(** src/rust/kernel/src/core/stream/wal.rs *)
Definition watch_path_from_wal_stream_key (key : string) : option string :=
  rest ← strip_prefix WAL_STREAM_KEY_PREFIX key;
  '(path, _) ← rsplit_once "/" rest;
  if decide (path = "") then None else Some path.

Definition requires_fixed_local_storage (c : Command) : bool :=
  match c with
  | WriteVersionedMetadata _ _ _ _ | AdoptProtectedMetadata _ _ _
  | RenameMetadata _ _ _ | BindRecordGuard _ _ _ _ _ | GuardedRecord _ _
  | RetireRecordGuard _ _ _ _ | AdmitRecordIoOwner _ _ => true
  | _ => false
  end.

Definition ordinary_metadata_key (c : Command) : option string :=
  match c with
  | SetMetadata key _ | DeleteMetadata key | CasSetMetadata key _ _
  | AdjustCounter key _ => Some key
  | _ => None
  end.

Definition requires_conditional_sc (c : Command) : bool :=
  if requires_fixed_local_storage c then true
  else match ordinary_metadata_key c with
       | Some key => is_managed_key key
       | None =>
           match c with
           | PutControlState namespace _ _ _ | DeleteControlState namespace _ =>
               bool_decide (namespace = NAMESPACE)
           | _ => false
           end
       end.

Definition is_lock_command (c : Command) : bool :=
  match c with
  | AcquireLock _ _ _ _ _ _ | ReleaseLock _ _ | ForceReleaseLock _
  | ExtendLock _ _ _ _ => true
  | _ => false
  end.

Definition mutation_key (m : GuardedRecordMutation) : option string :=
  match m with
  | ReplaceMetadata key _ _ _ => Some key
  | Append stream_prefix _ | Seal stream_prefix _ _ _ _ _ | Trim stream_prefix _ _ =>
      if ends_with "/" stream_prefix
      then watch_path_from_wal_stream_key stream_prefix else None
  end.

Definition record_stream_prefix (c : Command) : option string :=
  match c with
  | AppendStreamEntry stream_prefix _ | SealStreamSegment stream_prefix _ _ _ _ _
  | TrimStreamSegment stream_prefix _ _ => Some stream_prefix
  | _ => None
  end.

Definition guarded_record_key (c : Command) : option string :=
  match c with
  | WriteVersionedMetadata key _ _ _ => Some key
  | _ =>
      stream_prefix ← record_stream_prefix c;
      if ends_with "/" stream_prefix
      then watch_path_from_wal_stream_key stream_prefix else None
  end.

(** [Command::from_log_data]; the bincode decoder is a dependency. *)
Definition from_log_data (bincode_deserialize : string → Result Command)
    (data : string) : Result (N * Command) :=
  if String.length data <? 8 then Err (Serialization "incomplete proposal ID")
  else
    c ← bincode_deserialize (sdrop 8 data);
    mret (be_val (stake 8 data), c).

(** ** The zone database

    One redb database holds the three trees; a write transaction sees and
    changes all of them and is committed or dropped as a whole.  The model has
    no I/O failures: the source turns every storage error of the apply path
    into a panic of the node. *)

Record Db := mkDb {
  metadata : gmap string string;
  stream_entries : gmap string string;
  control_state : gmap string string }.

Definition db_empty : Db := mkDb ∅ ∅ ∅.

Definition KEY_LAST_APPLIED : string := "__last_applied__".

(** [control_key]: [namespace \0 key] *)
Definition control_key (namespace key : string) : string :=
  namespace +:+ String "000" key.

(** What can stop a transaction: an error that propagates with [?], or a loop
    of the source that does not return (see [extract_version]). *)
Inductive Fault :=
  | Failed (e : RaftError)
  | Diverged.

(** A computation inside a write transaction: it stops with a fault, and then
    nothing is committed, or returns a value and the changed trees. *)
Definition txn (A : Type) : Type := Db → result Fault (A * Db).

#[global] Instance txn_ret : MRet txn := λ A a db, Ok (a, db).
#[global] Instance txn_bind : MBind txn := λ A B f m db,
  match m db with
  | Ok (a, db') => f a db'
  | Err e => Err e
  end.

Definition fail {A} (e : RaftError) : txn A := λ _, Err (Failed e).
Definition lift {A} (r : Result A) : txn A := λ db,
  match r with Ok a => Ok (a, db) | Err e => Err (Failed e) end.
Definition terminating {A} (r : option A) : txn A := λ db,
  match r with Some a => Ok (a, db) | None => Err Diverged end.

Definition get_meta (k : string) : txn (option string) := λ db, Ok (metadata db !! k, db).
Definition put_meta (k v : string) : txn () := λ db,
  Ok ((), mkDb (<[k := v]> (metadata db)) (stream_entries db) (control_state db)).
Definition del_meta (k : string) : txn () := λ db,
  Ok ((), mkDb (delete k (metadata db)) (stream_entries db) (control_state db)).
Definition get_stream (k : string) : txn (option string) := λ db,
  Ok (stream_entries db !! k, db).
Definition put_stream (k v : string) : txn () := λ db,
  Ok ((), mkDb (metadata db) (<[k := v]> (stream_entries db)) (control_state db)).
Definition del_stream (k : string) : txn () := λ db,
  Ok ((), mkDb (metadata db) (delete k (stream_entries db)) (control_state db)).
Definition get_ctrl (k : string) : txn (option string) := λ db,
  Ok (control_state db !! k, db).
Definition put_ctrl (k v : string) : txn () := λ db,
  Ok ((), mkDb (metadata db) (stream_entries db) (<[k := v]> (control_state db))).
Definition del_ctrl (k : string) : txn () := λ db,
  Ok ((), mkDb (metadata db) (stream_entries db) (delete k (control_state db))).
Definition range_stream (lo : string) (hi : bound) : txn (list (string * string)) :=
  λ db, Ok (range lo hi (stream_entries db), db).
Definition range_meta (lo : string) (hi : bound) : txn (list (string * string)) :=
  λ db, Ok (range lo hi (metadata db), db).

Lemma txn_bind_Ok {A B} (m : txn A) (f : A → txn B) db b db'' :
  (m ≫= f) db = Ok (b, db'') ↔
  ∃ a db', m db = Ok (a, db') ∧ f a db' = Ok (b, db'').
Proof.
  unfold mbind, txn_bind. destruct (m db) as [[a db']|e]; naive_solver.
Qed.

Lemma lift_Ok {A} (r : Result A) db a db' :
  lift r db = Ok (a, db') ↔ r = Ok a ∧ db' = db.
Proof. unfold lift. destruct r; naive_solver. Qed.

Lemma terminating_Ok {A} (r : option A) db a db' :
  terminating r db = Ok (a, db') ↔ r = Some a ∧ db' = db.
Proof. unfold terminating. destruct r; naive_solver. Qed.

(** Step through a successful transaction: binds and primitives.  Guards
    ([if], [match]) are left to the caller. *)
Ltac txn_prim H :=
  lazymatch type of H with
  | lift _ _ = Ok _ => apply lift_Ok in H as [H ?]; simplify_eq
  | terminating _ _ = Ok _ => apply terminating_Ok in H as [H ?]; simplify_eq
  | _ =>
    unfold get_meta, put_meta, del_meta, get_stream, put_stream, del_stream,
      get_ctrl, put_ctrl, del_ctrl, range_stream, range_meta, fail, mret, txn_ret in H;
    first [discriminate H | injection H as; simplify_eq]
  end.

Ltac txn_inv H :=
  repeat lazymatch type of H with
  | (_ ≫= _) _ = Ok _ =>
      let Hm := fresh "Hm" in
      apply txn_bind_Ok in H; destruct H as (? & ? & Hm & H); try txn_prim Hm
  end; try txn_prim H.
