(* ===== verification/StreamTier.v ===== *)
(** * The tiered record stream of a zone

    src/rust/raft/src/raft/state_machine.rs: the stream key space of
    [sm_stream_entries], the segment record codec, the three stream arms of
    [execute_metadata_in_txn] and the stream reads of [FullStateMachine].

    A stream keeps its recent entries as hot rows [{prefix}{seq}], three
    big-endian cursors ([tail], [floor], [earliest]) and one index record per
    sealed (cold) segment, all in one tree. *)

From S2P Require Import Prelude Bytes Codec Table LockState Command.

(** ** Keys *)

Definition stream_tail_key (stream_prefix : string) : string :=
  "__stream_tail__" +:+ stream_prefix.
Definition stream_floor_key (stream_prefix : string) : string :=
  "__stream_floor__" +:+ stream_prefix.
Definition stream_earliest_key (stream_prefix : string) : string :=
  "__stream_earliest__" +:+ stream_prefix.
Definition stream_segment_key_prefix (stream_prefix : string) : string :=
  "__stream_seg__" +:+ stream_prefix.
Definition stream_segment_key (stream_prefix : string) (base : N) : string :=
  stream_segment_key_prefix stream_prefix +:+ fmt_020 base.

(** [format!("{stream_prefix}{seq}")] *)
Definition entry_key (stream_prefix : string) (seq : N) : string :=
  stream_prefix +:+ pretty seq.

(** ** Segment records *)

Record SegmentRecord := mkSegment {
  seg_end : N;
  seg_size : N;
  seg_origin : string;
  seg_content_id : string }.

Definition encode_segment_record (end_ size : N) (origin content_id : string) : string :=
  u64_to_be end_ +:+ u64_to_be size +:+
  u32_to_be (N.of_nat (String.length origin)) +:+ origin +:+ content_id.

(** [usize] is 64 bits wide, so [20 + origin_len] cannot overflow. *)
Definition decode_segment_record (bytes : string) : option SegmentRecord :=
  if String.length bytes <? 20 then None
  else
    let end_ := be_val (stake 8 bytes) in
    let size := be_val (stake 8 (sdrop 8 bytes)) in
    let origin_len := N.to_nat (be_val (stake 4 (sdrop 16 bytes))) in
    let origin_end := 20 + origin_len in
    if String.length bytes <? origin_end then None
    else
      origin ← from_utf8 (stake origin_len (sdrop 20 bytes));
      content_id ← from_utf8 (sdrop origin_end bytes);
      Some (mkSegment end_ size origin content_id).

(** ** Cursors *)

(** [.and_then(|v| <[u8; 8]>::try_from(v).ok()).map(u64::from_be_bytes).unwrap_or(0)] *)
Definition cursor (v : option string) : N :=
  default 0%N (v ≫= u64_from_be).

Definition get_cursor (key : string) : txn N :=
  v ← get_stream key; mret (cursor v).

(** ** The stream arms of [execute_metadata_in_txn] *)

Definition append_stream_entry (stream_prefix data : string) : txn CommandResult :=
  let tail_key := stream_tail_key stream_prefix in
  seq ← get_cursor tail_key;
  put_stream (entry_key stream_prefix seq) data;;
  put_stream tail_key (u64_to_be (wrap64 (seq + 1)));;
  mret (Value (u64_to_be seq)).

(** [for seq in base..end { table.remove("{stream_prefix}{seq}") }] *)
Definition seq_range (base end_ : N) : list N :=
  (λ i, (base + N.of_nat i)%N) <$> seq 0 (N.to_nat (end_ - base)).

Fixpoint remove_keys (ks : list string) : txn () :=
  match ks with
  | [] => mret ()
  | k :: ks => del_stream k;; remove_keys ks
  end.

Definition seal_error (stream_prefix : string) (base end_ floor tail : N) : string :=
  "stale/invalid seal " +:+ stream_prefix +:+ " [" +:+ pretty base +:+ "," +:+
  pretty end_ +:+ ") (floor=" +:+ pretty floor +:+ ", tail=" +:+ pretty tail +:+ ")".

Definition seal_stream_segment (stream_prefix : string) (base end_ : N)
    (content_id origin : string) (size : N) : txn CommandResult :=
  let floor_key := stream_floor_key stream_prefix in
  floor ← get_cursor floor_key;
  tail ← get_cursor (stream_tail_key stream_prefix);
  if negb (base =? floor)%N || (end_ <=? base)%N || (tail <? end_)%N
  then mret (Error (seal_error stream_prefix base end_ floor tail))
  else
    put_stream (stream_segment_key stream_prefix base)
      (encode_segment_record end_ size origin content_id);;
    remove_keys (entry_key stream_prefix <$> seq_range base end_);;
    put_stream floor_key (u64_to_be end_);;
    mret Success.

Definition trim_error (stream_prefix : string) (up_to_seq earliest floor : N) : string :=
  "stale/invalid trim " +:+ stream_prefix +:+ " up_to=" +:+ pretty up_to_seq +:+
  " (earliest=" +:+ pretty earliest +:+ ", floor=" +:+ pretty floor +:+ ")".

(** The rows the trim drops: [decode_segment_record(v)] with [rec.end <= up_to]. *)
Definition trim_selects (up_to_seq : N) (row : string * string) : bool :=
  match decode_segment_record row.2 with
  | Some rec => (seg_end rec <=? up_to_seq)%N
  | None => false
  end.

Definition segment_upper (seg_prefix : string) : bound :=
  Included (seg_prefix +:+ String "255" "").

Definition trim_stream_segment (stream_prefix : string) (up_to_seq : N) : txn CommandResult :=
  let earliest_key := stream_earliest_key stream_prefix in
  earliest ← get_cursor earliest_key;
  floor ← get_cursor (stream_floor_key stream_prefix);
  if (up_to_seq <=? earliest)%N || (floor <? up_to_seq)%N
  then mret (Error (trim_error stream_prefix up_to_seq earliest floor))
  else
    let seg_prefix := stream_segment_key_prefix stream_prefix in
    rows ← range_stream seg_prefix (segment_upper seg_prefix);
    remove_keys (fst <$> filter (λ row, trim_selects up_to_seq row = true) rows);;
    put_stream earliest_key (u64_to_be up_to_seq);;
    mret Success.

(** ** Reads *)

Section reads.
Variable db : Db.

Definition get_stream_entry (key : string) : option string := stream_entries db !! key.
Definition stream_tail (stream_prefix : string) : N :=
  cursor (stream_entries db !! stream_tail_key stream_prefix).
Definition stream_floor (stream_prefix : string) : N :=
  cursor (stream_entries db !! stream_floor_key stream_prefix).
Definition stream_earliest (stream_prefix : string) : N :=
  cursor (stream_entries db !! stream_earliest_key stream_prefix).

(** base of the key suffix: [from_utf8(k).strip_prefix(seg_prefix).parse::<u64>()] *)
Definition segment_base (seg_prefix key : string) : option N :=
  ks ← from_utf8 key;
  b ← strip_prefix seg_prefix ks;
  parse_u64 b.

Definition find_segment (stream_prefix : string) (seq : N) : option (N * SegmentRecord) :=
  let seg_prefix := stream_segment_key_prefix stream_prefix in
  let upper := stream_segment_key stream_prefix seq in
  '(k, v) ← last (range seg_prefix (Included upper) (stream_entries db));
  match segment_base seg_prefix k, decode_segment_record v with
  | Some base, Some rec =>
      if (base <=? seq)%N && (seq <? seg_end rec)%N then Some (base, rec) else None
  | _, _ => None
  end.

Definition segment_row (seg_prefix : string) (row : string * string) :
    option (N * SegmentRecord) :=
  base ← segment_base seg_prefix row.1;
  rec ← decode_segment_record row.2;
  Some (base, rec).

Definition list_segments (stream_prefix : string) : list (N * SegmentRecord) :=
  let seg_prefix := stream_segment_key_prefix stream_prefix in
  omap (segment_row seg_prefix)
    (range seg_prefix (segment_upper seg_prefix) (stream_entries db)).
End reads.
