(* ===== verification/StreamProofs.v ===== *)
(** * The tiered stream refines an append-only log with a cold index

    The specification of a stream is a log of appended payloads, two offsets
    and the ordered list of sealed segments.  The rows of [sm_stream_entries]
    that belong to one stream represent such a state, the stream commands on
    them compute what the specification says, and commands on other streams do
    not disturb it.  From this follow the read guarantees: every offset between
    [earliest] and [tail] is found, in the hot rows or in exactly one segment. *)

From S2P Require Import Prelude Bytes Codec Table LockState Command StreamTier.

(** ** Segment records round trip *)

Definition segment_typed (r : SegmentRecord) : Prop :=
  (seg_end r < U64_MOD)%N ∧ (seg_size r < U64_MOD)%N ∧
  (N.of_nat (String.length (seg_origin r)) < U32_MOD)%N ∧
  is_utf8 (seg_origin r) = true ∧ is_utf8 (seg_content_id r) = true.

Definition encode_segment (r : SegmentRecord) : string :=
  encode_segment_record (seg_end r) (seg_size r) (seg_origin r) (seg_content_id r).

Lemma stake_app_len n s t : n = String.length s → stake n (s +:+ t) = s.
Proof. intros ->. apply stake_app. Qed.
Lemma sdrop_app_len n s t : n = String.length s → sdrop n (s +:+ t) = t.
Proof. intros ->. apply sdrop_app. Qed.
Lemma sdrop_sdrop n m s : sdrop (n + m) s = sdrop m (sdrop n s).
Proof.
  revert s. induction n as [|n IH]; intros [|a s]; simpl; try done.
  by destruct m.
Qed.

Lemma decode_encode_segment r :
  segment_typed r → decode_segment_record (encode_segment r) = Some r.
Proof.
  destruct r as [e sz o c]. intros (He & Hs & Ho & Huo & Huc).
  unfold encode_segment, encode_segment_record, decode_segment_record in *.
  cbn [seg_end seg_size seg_origin seg_content_id] in *.
  set (E := u64_to_be e). set (Z := u64_to_be sz).
  set (L := u32_to_be (N.of_nat (String.length o))).
  assert (String.length E = 8) as HE by apply slen_be_bytes.
  assert (String.length Z = 8) as HZ by apply slen_be_bytes.
  assert (String.length L = 4) as HL by apply slen_be_bytes.
  assert (be_val E = e) as HvE by (by apply be_val_u64).
  assert (be_val Z = sz) as HvZ by (by apply be_val_u64).
  assert (be_val L = N.of_nat (String.length o)) as HvL by (by apply u32_from_to_be).
  clearbody E Z L.
  replace (String.length _ <? 20) with false
    by (symmetry; apply Nat.ltb_ge; rewrite !slen_app; lia).
  rewrite (stake_app_len 8) by done.
  rewrite (sdrop_app_len 8), (stake_app_len 8) by done.
  rewrite (sdrop_sdrop 8 8), (sdrop_app_len 8), (sdrop_app_len 8), (stake_app_len 4) by done.
  rewrite HvL, Nat2N.id.
  replace (String.length _ <? _) with false
    by (symmetry; apply Nat.ltb_ge; rewrite !slen_app; lia).
  rewrite (sdrop_sdrop 20 (String.length o)), (sdrop_sdrop 16 4), (sdrop_sdrop 8 8).
  rewrite (sdrop_app_len 8), (sdrop_app_len 8), (sdrop_app_len 4) by done.
  rewrite stake_app, sdrop_app, !from_utf8_true by done. simpl. by rewrite HvE, HvZ.
Qed.

(** ** Keys of different streams and roles do not collide *)

Definition stream_prefix_ok (p : string) : bool :=
  starts_with "/" p && ends_with "/" p && is_utf8 p.

Lemma stream_prefix_ok_inv p :
  stream_prefix_ok p = true →
  (∃ r, p = String "/" r) ∧ (∃ q, p = q +:+ "/") ∧ is_utf8 p = true.
Proof.
  unfold stream_prefix_ok. rewrite !andb_true_iff, starts_with_true, ends_with_true.
  naive_solver.
Qed.

Lemma digits_no_slash_suffix p q d d' :
  scontains "/" d = false → scontains "/" d' = false →
  (p +:+ "/") +:+ d = (q +:+ "/") +:+ d' → p = q ∧ d = d'.
Proof.
  intros Hd Hd' He. rewrite <-!sapp_assoc in He.
  assert (rsplit_once "/" (p +:+ "/" +:+ d) = Some (p, d)) as E1 by (by apply rsplit_once_Some).
  assert (rsplit_once "/" (q +:+ "/" +:+ d') = Some (q, d')) as E2 by (by apply rsplit_once_Some).
  rewrite He in E1. rewrite E1 in E2. by simplify_eq.
Qed.

Lemma entry_key_inj p q m n :
  stream_prefix_ok p = true → stream_prefix_ok q = true →
  entry_key p m = entry_key q n → p = q ∧ m = n.
Proof.
  intros (_ & [p' ->] & _)%stream_prefix_ok_inv (_ & [q' ->] & _)%stream_prefix_ok_inv.
  intros [-> Hd]%digits_no_slash_suffix; [|by apply pretty_N_digits..].
  split; [done|]. by apply (inj pretty).
Qed.

Lemma fmt_020_inj m n :
  (m < U64_MOD)%N → (n < U64_MOD)%N → fmt_020 m = fmt_020 n → m = n.
Proof.
  intros Hm Hn He. apply parse_fmt_020 in Hm, Hn. rewrite He in Hm. congruence.
Qed.

Lemma segment_key_inj p q m n :
  (m < U64_MOD)%N → (n < U64_MOD)%N →
  stream_segment_key p m = stream_segment_key q n → p = q ∧ m = n.
Proof.
  intros Hm Hn He. unfold stream_segment_key, stream_segment_key_prefix in He.
  assert (fmt_020 m = fmt_020 n) as Hd.
  { assert (String.length ("__stream_seg__" +:+ p) = String.length ("__stream_seg__" +:+ q)) as Hl.
    { apply (f_equal String.length) in He. rewrite !slen_app in He.
      rewrite !slen_app. unfold fmt_020 in He. rewrite !slen_dec_fixed in He. lia. }
    by apply sapp_inj_len in He as [_ ?]. }
  rewrite Hd in He. apply sapp_inj_r in He. split; [|by apply fmt_020_inj].
  apply (f_equal (sdrop 14)) in He. exact He.
Qed.

(** Rows of one stream by role. *)
Inductive row := RTail (p : string) | RFloor (p : string) | REarliest (p : string)
  | REntry (p : string) (seq : N) | RSeg (p : string) (base : N).

Definition row_key (r : row) : string :=
  match r with
  | RTail p => stream_tail_key p
  | RFloor p => stream_floor_key p
  | REarliest p => stream_earliest_key p
  | REntry p n => entry_key p n
  | RSeg p n => stream_segment_key p n
  end.

Definition row_ok (r : row) : Prop :=
  match r with
  | REntry p _ => stream_prefix_ok p = true
  | RSeg _ n => (n < U64_MOD)%N
  | _ => True
  end.

Lemma row_key_inj r r' : row_ok r → row_ok r' → row_key r = row_key r' → r = r'.
Proof.
  destruct r as [p|p|p|p m|p m], r' as [q|q|q|q n|q n]; cbn [row_ok row_key];
    intros Hr Hr' He;
    try (unfold stream_tail_key, stream_floor_key, stream_earliest_key,
           stream_segment_key, stream_segment_key_prefix in He;
         rewrite <-?sapp_assoc in He; simpl in He; by simplify_eq);
    try (apply stream_prefix_ok_inv in Hr as ([x ->] & _ & _); discriminate He);
    try (apply stream_prefix_ok_inv in Hr' as ([x ->] & _ & _); discriminate He).
  - by apply entry_key_inj in He as [-> ->].
  - by apply segment_key_inj in He as [-> ->].
Qed.

Lemma row_key_ne r r' : row_ok r → row_ok r' → r ≠ r' → row_key r ≠ row_key r'.
Proof. intros Hr Hr' Hne He. by apply Hne, row_key_inj. Qed.

Lemma slash_prefix_split s d p x :
  scontains "/" d = false → s +:+ d = p +:+ String "/" x →
  starts_with (p +:+ "/") s = true.
Proof.
  intros Hd. revert p. induction s as [|a s IH]; intros p He.
  - rewrite sapp_nil_l in He. rewrite He, scontains_app in Hd. simpl in Hd.
    by rewrite orb_true_r in Hd.
  - destruct p as [|b p]; rewrite ?sapp_cons in He; injection He as -> He.
    + done.
    + apply IH in He. apply starts_with_true in He as [r ->].
      rewrite <-sapp_cons, <-sapp_cons. apply starts_with_app.
Qed.

(** A key below the segment prefix of [p] is a segment row of a stream at or
    below [p]. *)
Lemma starts_with_segment_prefix p r :
  stream_prefix_ok p = true → row_ok r →
  starts_with (stream_segment_key_prefix p) (row_key r) = true →
  ∃ q n, r = RSeg q n ∧ starts_with p q = true.
Proof.
  intros (_ & [p' ->] & _)%stream_prefix_ok_inv Hr [x Hx]%starts_with_true.
  destruct r as [q|q|q|q m|q m]; cbn [row_ok row_key] in *;
    unfold stream_tail_key, stream_floor_key, stream_earliest_key,
      stream_segment_key, stream_segment_key_prefix in Hx;
    rewrite <-?sapp_assoc in Hx;
    try (simpl in Hx; discriminate Hx);
    try (apply stream_prefix_ok_inv in Hr as ([y ->] & _ & _); discriminate Hx).
  exists q, m. split; [done|]. apply (f_equal (sdrop 14)) in Hx.
  apply (slash_prefix_split _ (fmt_020 m) _ x); [by apply dec_fixed_digits|exact Hx].
Qed.

(** ** Specification *)

Record tier := mkTier {
  t_log : list string;
  t_segs : list (N * SegmentRecord);
  t_floor : N;
  t_earliest : N }.

Definition tier_empty : tier := mkTier [] [] 0 0.
Definition t_tail (t : tier) : N := N.of_nat (length (t_log t)).

Inductive stream_op :=
  | OpAppend (data : string)
  | OpSeal (base end_ : N) (content_id origin : string) (size : N)
  | OpTrim (up_to_seq : N).

Definition run_stream_op (p : string) (o : stream_op) : txn CommandResult :=
  match o with
  | OpAppend d => append_stream_entry p d
  | OpSeal base end_ cid org size => seal_stream_segment p base end_ cid org size
  | OpTrim u => trim_stream_segment p u
  end.

Definition spec_stream_op (p : string) (o : stream_op) (t : tier) : CommandResult * tier :=
  match o with
  | OpAppend d =>
      (Value (u64_to_be (t_tail t)), mkTier (t_log t ++ [d]) (t_segs t) (t_floor t) (t_earliest t))
  | OpSeal base end_ cid org size =>
      if (base =? t_floor t)%N && (base <? end_)%N && (end_ <=? t_tail t)%N
      then (Success, mkTier (t_log t) (t_segs t ++ [(base, mkSegment end_ size org cid)])
                       end_ (t_earliest t))
      else (Error (seal_error p base end_ (t_floor t) (t_tail t)), t)
  | OpTrim u =>
      if (t_earliest t <? u)%N && (u <=? t_floor t)%N
      then (Success, mkTier (t_log t) (filter (λ s, (u < seg_end s.2)%N) (t_segs t))
                       (t_floor t) u)
      else (Error (trim_error p u (t_earliest t) (t_floor t)), t)
  end.

Definition stream_op_typed (o : stream_op) : Prop :=
  match o with
  | OpSeal _ _ cid org size =>
      (size < U64_MOD)%N ∧ (N.of_nat (String.length org) < U32_MOD)%N ∧
      is_utf8 org = true ∧ is_utf8 cid = true
  | _ => True
  end.

(** [s .. e) is covered by the segments, in order and without gap. *)
Fixpoint tiles (s : N) (segs : list (N * SegmentRecord)) (e : N) : Prop :=
  match segs with
  | [] => s = e
  | (b, r) :: segs => b = s ∧ (b < seg_end r)%N ∧ tiles (seg_end r) segs e
  end.

Record tier_wf (t : tier) : Prop := {
  wf_tiles : ∃ s, (s ≤ t_earliest t)%N ∧ tiles s (t_segs t) (t_floor t);
  wf_order : (t_earliest t ≤ t_floor t)%N ∧ (t_floor t ≤ t_tail t)%N ∧ (t_tail t < U64_MOD)%N;
  wf_typed : ∀ b r, (b, r) ∈ t_segs t → segment_typed r }.

Lemma tiles_le s segs e : tiles s segs e → (s ≤ e)%N.
Proof.
  revert s. induction segs as [|[b r] segs IH]; simpl; intros s; [lia|].
  intros (-> & Hlt & H). apply IH in H. lia.
Qed.

Lemma tiles_elem s segs e b r :
  tiles s segs e → (b, r) ∈ segs → (s ≤ b)%N ∧ (b < seg_end r)%N ∧ (seg_end r ≤ e)%N.
Proof.
  revert s. induction segs as [|[b' r'] segs IH]; intros s Ht Hin.
  - by apply not_elem_of_nil in Hin.
  - destruct Ht as (-> & Hlt & Ht). apply elem_of_cons in Hin as [[= -> ->]|Hin].
    + apply tiles_le in Ht. lia.
    + destruct (IH _ Ht Hin) as (?&?&?). lia.
Qed.

Lemma tiles_app s segs e b r :
  tiles s segs e → b = e → (b < seg_end r)%N → tiles s (segs ++ [(b, r)]) (seg_end r).
Proof.
  revert s. induction segs as [|[b' r'] segs IH]; simpl; intros s Ht -> Hlt.
  - by subst s.
  - destruct Ht as (-> & ? & Ht). eauto.
Qed.

Lemma tiles_filter_id s segs e u :
  tiles s segs e → (u < s)%N → filter (λ x, (u < seg_end x.2)%N) segs = segs.
Proof.
  revert s. induction segs as [|[b r] segs IH]; intros s Ht Hu; [done|].
  destruct Ht as (-> & Hlt & Ht). rewrite filter_cons_True by (simpl; lia).
  f_equal. apply (IH (seg_end r)); [done|lia].
Qed.

Lemma tiles_trim s segs e u :
  tiles s segs e → (s ≤ u)%N → (u ≤ e)%N →
  ∃ s', (s' ≤ u)%N ∧ tiles s' (filter (λ x, (u < seg_end x.2)%N) segs) e.
Proof.
  revert s. induction segs as [|[b r] segs IH]; intros s Ht Hs Hu.
  - by exists s.
  - destruct Ht as (-> & Hlt & Ht). rewrite filter_cons. cbn [snd].
    case_decide as Hd.
    + exists s. simpl. split_and!; [done..|].
      by rewrite (tiles_filter_id (seg_end r) _ e).
    + apply IH with (seg_end r); [done|lia|done].
Qed.

(** At most one segment covers an offset, and one does below the floor. *)
Lemma tiles_cover s segs e n :
  tiles s segs e → (s ≤ n)%N → (n < e)%N →
  ∃ b r, (b, r) ∈ segs ∧ (b ≤ n)%N ∧ (n < seg_end r)%N.
Proof.
  revert s. induction segs as [|[b r] segs IH]; simpl; intros s Ht Hs Hn; [lia|].
  destruct Ht as (-> & Hlt & Ht). destruct (decide (n < seg_end r)%N).
  - exists s, r. split; [left|lia].
  - destruct (IH _ Ht) as (b & r' & ? & ?); [lia..|]. exists b, r'. split; [by right|done].
Qed.

Lemma tiles_unique s segs e n b r b' r' :
  tiles s segs e → (b, r) ∈ segs → (b', r') ∈ segs →
  (b ≤ n < seg_end r)%N → (b' ≤ n < seg_end r')%N → b = b' ∧ r = r'.
Proof.
  revert s. induction segs as [|[c q] segs IH]; intros s Ht H1 H2 Hn Hn'.
  - by apply not_elem_of_nil in H1.
  - destruct Ht as (-> & Hlt & Ht).
    apply elem_of_cons in H1 as [[= -> ->]|H1], H2 as [[= -> ->]|H2]; [done|..|eauto].
    + destruct (tiles_elem _ _ _ _ _ Ht H2); lia.
    + destruct (tiles_elem _ _ _ _ _ Ht H1); lia.
Qed.

Lemma tiles_order s segs e b r b' r' :
  tiles s segs e → (b, r) ∈ segs → (b', r') ∈ segs → (b < b')%N → (seg_end r ≤ b')%N.
Proof.
  revert s. induction segs as [|[c q] segs IH]; intros s Ht H1 H2 Hlt.
  - by apply not_elem_of_nil in H1.
  - destruct Ht as (-> & Hc & Ht).
    apply elem_of_cons in H1 as [[= -> ->]|H1], H2 as [[= -> ->]|H2]; [lia|..|eauto].
    + destruct (tiles_elem _ _ _ _ _ Ht H2); lia.
    + destruct (tiles_elem _ _ _ _ _ Ht H1); lia.
Qed.

Lemma spec_stream_op_wf p o t r t' :
  tier_wf t → stream_op_typed o → (t_tail t + 1 < U64_MOD)%N →
  spec_stream_op p o t = (r, t') → tier_wf t'.
Proof.
  intros [(s & Hs & Ht) (Hef & Hft & Htu) Hty] Ho Hroom Hspec.
  destruct o as [d|base end_ cid org size|u]; simpl in Hspec.
  - simplify_eq. split; unfold t_tail in *; cbn [t_log t_segs t_floor t_earliest] in *.
    + by exists s.
    + rewrite length_app, Nat2N.inj_add. change (N.of_nat (length [d])) with 1%N. lia.
    + done.
  - destruct (_ && _) eqn:Hc; simplify_eq; [|by split; eauto].
    rewrite !andb_true_iff, N.eqb_eq, N.ltb_lt, N.leb_le in Hc. destruct Hc as [[-> Hlt] Hle].
    split; unfold t_tail in *; cbn [t_log t_segs t_floor t_earliest] in *.
    + exists s. split; [done|].
      apply (tiles_app s _ (t_floor t) (t_floor t) (mkSegment end_ size org cid)); done.
    + lia.
    + intros b r [Hin|[= -> ->]%list_elem_of_singleton]%elem_of_app; [by eapply Hty|].
      destruct Ho as (?&?&?&?). split_and!; simpl; try done. lia.
  - destruct (_ && _) eqn:Hc; simplify_eq; [|by split; eauto].
    rewrite !andb_true_iff, N.ltb_lt, N.leb_le in Hc. destruct Hc as [Hlt Hle].
    split; unfold t_tail in *; cbn [t_log t_segs t_floor t_earliest] in *.
    + apply (tiles_trim s _ _ u Ht); lia.
    + lia.
    + intros b r [_ Hin]%list_elem_of_filter. by eapply Hty.
Qed.

(** ** Representation *)

#[global] Instance row_eq_dec : EqDecision row.
Proof. solve_decision. Defined.

Record tier_repr (m : gmap string string) (p : string) (t : tier) : Prop := {
  repr_tail : cursor (m !! row_key (RTail p)) = t_tail t;
  repr_floor : cursor (m !! row_key (RFloor p)) = t_floor t;
  repr_earliest : cursor (m !! row_key (REarliest p)) = t_earliest t;
  repr_hot : ∀ n, m !! row_key (REntry p n) =
    if (t_floor t <=? n)%N then t_log t !! N.to_nat n else None;
  repr_seg : ∀ k v, starts_with (stream_segment_key_prefix p) k = true →
    m !! k = Some v ↔
    ∃ b r, (b, r) ∈ t_segs t ∧ k = row_key (RSeg p b) ∧ v = encode_segment r }.

Lemma tier_repr_empty p : tier_repr ∅ p tier_empty.
Proof.
  split; [by rewrite lookup_empty..| |].
  { intros n. rewrite lookup_empty. by destruct (_ <=? _)%N. }
  intros k v _. rewrite lookup_empty. split; [done|].
  intros (b & r & Hin & _). by apply not_elem_of_nil in Hin.
Qed.

Lemma row_lookup_insert (m : gmap string string) r r' v :
  row_ok r → row_ok r' →
  <[row_key r := v]> m !! row_key r' = if decide (r = r') then Some v else m !! row_key r'.
Proof.
  intros Hr Hr'. case_decide as Hd.
  - subst. by rewrite lookup_insert_eq.
  - apply lookup_insert_ne. by apply row_key_ne.
Qed.

Definition remove_all (ks : list string) (m : gmap string string) : gmap string string :=
  foldl (λ m k, delete k m) m ks.

Lemma remove_keys_eq ks db :
  remove_keys ks db =
  Ok ((), mkDb (metadata db) (remove_all ks (stream_entries db)) (control_state db)).
Proof.
  revert db. induction ks as [|k ks IH]; intros db; [by destruct db|]. simpl.
  unfold mbind, txn_bind, del_stream. by rewrite IH.
Qed.

Lemma lookup_remove_all ks m k :
  remove_all ks m !! k = if decide (k ∈ ks) then None else m !! k.
Proof.
  revert m. induction ks as [|k' ks IH]; intros m; [done|].
  unfold remove_all in *. simpl. rewrite IH.
  destruct (decide (k ∈ ks)) as [Hin|Hn].
  - by rewrite decide_True by (by right).
  - destruct (decide (k = k')) as [->|Hne].
    + by rewrite lookup_delete_eq, decide_True by left.
    + rewrite lookup_delete_ne by done. by rewrite decide_False by (set_solver).
Qed.

Lemma elem_of_seq_range base end_ n :
  n ∈ seq_range base end_ ↔ (base ≤ n < end_)%N.
Proof.
  unfold seq_range. rewrite list_elem_of_fmap. split.
  - intros (i & -> & Hi%elem_of_seq). lia.
  - intros Hn. exists (N.to_nat (n - base)). rewrite elem_of_seq. lia.
Qed.

(** The rows an operation on [q] may change. *)
Definition touches (q k : string) : Prop :=
  (∃ r, row_ok r ∧ k = row_key r ∧
        (r = RTail q ∨ r = RFloor q ∨ r = REarliest q ∨
         (∃ n, r = REntry q n) ∨ ∃ n, r = RSeg q n)) ∨
  starts_with (stream_segment_key_prefix q) k = true.

(** The new stream tree of an operation; the other trees are unchanged. *)
Definition stream_effect (p : string) (o : stream_op) (m : gmap string string) :
    CommandResult * gmap string string :=
  match run_stream_op p o (mkDb ∅ m ∅) with
  | Ok (r, db) => (r, stream_entries db)
  | Err _ => (Success, m)
  end.

Lemma run_stream_op_eq p o db :
  run_stream_op p o db =
  Ok ((stream_effect p o (stream_entries db)).1,
      mkDb (metadata db) (stream_effect p o (stream_entries db)).2 (control_state db)).
Proof.
  destruct db as [md m ct]. unfold stream_effect. destruct o as [d|base end_ cid org size|u].
  - done.
  - unfold run_stream_op, seal_stream_segment, get_cursor, get_stream, put_stream, mbind,
      txn_bind, mret, txn_ret. cbn [stream_entries metadata control_state].
    destruct (_ || _); [done|]. rewrite !remove_keys_eq. done.
  - unfold run_stream_op, trim_stream_segment, get_cursor, get_stream, put_stream,
      range_stream, mbind, txn_bind, mret, txn_ret. cbn [stream_entries metadata control_state].
    destruct (_ || _); [done|]. rewrite !remove_keys_eq. done.
Qed.

(** Closed forms of the three operations on the stream tree. *)
Lemma append_effect p d m :
  let n := cursor (m !! row_key (RTail p)) in
  stream_effect p (OpAppend d) m =
  (Value (u64_to_be n),
   <[row_key (RTail p) := u64_to_be (wrap64 (n + 1))]> (<[row_key (REntry p n) := d]> m)).
Proof. done. Qed.

Lemma seal_effect p base end_ cid org size m :
  let floor := cursor (m !! row_key (RFloor p)) in
  let tail := cursor (m !! row_key (RTail p)) in
  stream_effect p (OpSeal base end_ cid org size) m =
  if (base =? floor)%N && (base <? end_)%N && (end_ <=? tail)%N
  then (Success,
        <[row_key (RFloor p) := u64_to_be end_]>
          (remove_all (entry_key p <$> seq_range base end_)
             (<[row_key (RSeg p base) := encode_segment (mkSegment end_ size org cid)]> m)))
  else (Error (seal_error p base end_ floor tail), m).
Proof.
  intros floor tail. unfold stream_effect, run_stream_op, seal_stream_segment, get_cursor,
    get_stream, put_stream, mbind, txn_bind, mret, txn_ret.
  cbn [stream_entries metadata control_state].
  change (m !! stream_floor_key p) with (m !! row_key (RFloor p)).
  change (m !! stream_tail_key p) with (m !! row_key (RTail p)).
  change (cursor (m !! row_key (RFloor p))) with floor.
  change (cursor (m !! row_key (RTail p))) with tail.
  rewrite (N.ltb_antisym end_ tail), (N.leb_antisym base end_).
  destruct (base =? floor)%N, (base <? end_)%N, (end_ <=? tail)%N; simpl; try done.
  by rewrite remove_keys_eq.
Qed.

Lemma trim_effect p u m :
  let earliest := cursor (m !! row_key (REarliest p)) in
  let floor := cursor (m !! row_key (RFloor p)) in
  let pre := stream_segment_key_prefix p in
  stream_effect p (OpTrim u) m =
  if (earliest <? u)%N && (u <=? floor)%N
  then (Success,
        <[row_key (REarliest p) := u64_to_be u]>
          (remove_all (fst <$> filter (λ row, trim_selects u row = true)
                         (range pre (segment_upper pre) m)) m))
  else (Error (trim_error p u earliest floor), m).
Proof.
  intros earliest floor pre. unfold stream_effect, run_stream_op, trim_stream_segment,
    get_cursor, get_stream, range_stream, put_stream, mbind, txn_bind, mret, txn_ret.
  cbn [stream_entries metadata control_state].
  change (m !! stream_floor_key p) with (m !! row_key (RFloor p)).
  change (m !! stream_earliest_key p) with (m !! row_key (REarliest p)).
  change (cursor (m !! row_key (RFloor p))) with floor.
  change (cursor (m !! row_key (REarliest p))) with earliest.
  rewrite (N.ltb_antisym u floor), (N.leb_antisym earliest u).
  destruct (earliest <? u)%N, (u <=? floor)%N; simpl; try done.
  by rewrite remove_keys_eq.
Qed.

(** ** Frame: operations on one stream leave independent streams alone *)

Definition independent (p q : string) : Prop :=
  starts_with p q = false ∧ starts_with q p = false.

Lemma starts_with_refl p : starts_with p p = true.
Proof. apply starts_with_true. exists "". by rewrite sapp_nil_r. Qed.

Lemma segment_prefix_starts p q :
  starts_with (stream_segment_key_prefix p) (stream_segment_key_prefix q) = true →
  starts_with p q = true.
Proof.
  intros [x Hx]%starts_with_true. apply (f_equal (sdrop 14)) in Hx.
  apply starts_with_true. exists x. exact Hx.
Qed.

Lemma segment_range_prefix p k v (m : gmap string string) :
  (k, v) ∈ range (stream_segment_key_prefix p) (segment_upper (stream_segment_key_prefix p)) m →
  starts_with (stream_segment_key_prefix p) k = true ∧ m !! k = Some v.
Proof.
  intros (Hlo & Hhi & Hk)%elem_of_range. split; [|done].
  exact (between_prefix _ _ _ Hlo Hhi).
Qed.

Lemma stream_effect_touches p o m k :
  stream_prefix_ok p = true → stream_op_typed o →
  (cursor (m !! row_key (RFloor p)) < U64_MOD)%N →
  (stream_effect p o m).2 !! k ≠ m !! k → touches p k.
Proof.
  intros Hp Ho Hfl. destruct o as [d|base end_ cid org size|u].
  - rewrite append_effect. cbn [snd]. intros Hk. left.
    destruct (decide (k = row_key (RTail p))) as [->|H1]; [exists (RTail p); naive_solver|].
    rewrite lookup_insert_ne in Hk by done.
    destruct (decide (k = row_key (REntry p (cursor (m !! row_key (RTail p)))))) as [->|H2].
    + eexists (REntry p _). split; [exact Hp|]. naive_solver.
    + by rewrite lookup_insert_ne in Hk.
  - rewrite seal_effect. destruct (_ && _) eqn:Hc; [|done]. cbn [snd]. intros Hk. left.
    rewrite !andb_true_iff, N.eqb_eq in Hc. destruct Hc as [[-> _] _].
    destruct (decide (k = row_key (RFloor p))) as [->|H1]; [exists (RFloor p); naive_solver|].
    rewrite lookup_insert_ne, lookup_remove_all in Hk by done.
    case_decide as Hin.
    { apply list_elem_of_fmap in Hin as (n & -> & _). exists (REntry p n). naive_solver. }
    destruct (decide (k = row_key (RSeg p (cursor (m !! row_key (RFloor p)))))) as [->|H2].
    + eexists (RSeg p _). split; [exact Hfl|]. naive_solver.
    + by rewrite lookup_insert_ne in Hk.
  - rewrite trim_effect. destruct (_ && _) eqn:Hc; [|done]. cbn [snd]. intros Hk.
    destruct (decide (k = row_key (REarliest p))) as [->|H1];
      [left; exists (REarliest p); naive_solver|].
    rewrite lookup_insert_ne, lookup_remove_all in Hk by done.
    case_decide as Hin; [|done]. right.
    apply list_elem_of_fmap in Hin as ([k' v] & -> & [_ Hr]%list_elem_of_filter).
    by apply segment_range_prefix in Hr as [? _].
Qed.

Lemma independent_not_touched p q r :
  stream_prefix_ok p = true → stream_prefix_ok q = true → independent p q →
  row_ok r → r = RTail p ∨ r = RFloor p ∨ r = REarliest p ∨ (∃ n, r = REntry p n) →
  ¬ touches q (row_key r).
Proof.
  intros Hp Hq [Hpq Hqp] Hr Hcase [(r' & Hr' & He & Hcase')|Hs].
  - apply row_key_inj in He; [|done..]. pose proof (starts_with_refl p). naive_solver congruence.
  - apply starts_with_segment_prefix in Hs as (x & n & -> & _); [|done..]. naive_solver.
Qed.

Lemma independent_not_touched_seg p q k :
  stream_prefix_ok p = true → independent p q →
  starts_with (stream_segment_key_prefix p) k = true → ¬ touches q k.
Proof.
  intros Hp [Hpq Hqp] Hk [(r' & Hr' & -> & Hcase')|Hs].
  - apply starts_with_segment_prefix in Hk as (x & n & -> & Hx); [|done..]. naive_solver congruence.
  - destruct (starts_with_total _ _ _ Hk Hs) as [H|H]; apply segment_prefix_starts in H; congruence.
Qed.

Lemma cursor_bound v : (cursor v < U64_MOD)%N.
Proof.
  unfold cursor. destruct v as [v|]; [|done]. simpl.
  destruct (u64_from_be v) as [n|] eqn:E; [|done]. by apply u64_from_be_bound in E.
Qed.

Lemma stream_effect_frame p q o m t :
  stream_prefix_ok p = true → stream_prefix_ok q = true → independent p q →
  stream_op_typed o → tier_repr m p t → tier_repr (stream_effect q o m).2 p t.
Proof.
  intros Hp Hq Hind Ho [H1 H2 H3 H4 H5].
  assert (∀ k, ¬ touches q k → (stream_effect q o m).2 !! k = m !! k) as Hsame.
  { intros k Hk. destruct (decide ((stream_effect q o m).2 !! k = m !! k)) as [|Hne]; [done|].
    exfalso. apply Hk. apply (stream_effect_touches q o m k); try done. apply cursor_bound. }
  assert (∀ r, row_ok r → r = RTail p ∨ r = RFloor p ∨ r = REarliest p ∨ (∃ n, r = REntry p n) →
            (stream_effect q o m).2 !! row_key r = m !! row_key r) as Hrow.
  { intros r Hr Hc. apply Hsame. by apply (independent_not_touched p q). }
  split.
  - rewrite Hrow; [done..|]. eauto.
  - rewrite Hrow; [done..|]. eauto.
  - rewrite Hrow; [done..|]. eauto.
  - intros n. rewrite Hrow; [done..|]. eauto 6.
  - intros k v Hk. rewrite Hsame; [by apply H5|]. by apply (independent_not_touched_seg p q).
Qed.

(** ** Simulation *)

Lemma cursor_u64 n : (n < U64_MOD)%N → cursor (Some (u64_to_be n)) = n.
Proof. intros Hn. unfold cursor. cbn [mbind option_bind]. by rewrite u64_from_to_be. Qed.

(** Rows that are not segment rows do not show in the segment range. *)
Lemma insert_not_segment p r v (m : gmap string string) k :
  stream_prefix_ok p = true → row_ok r → (∀ q n, r ≠ RSeg q n) →
  starts_with (stream_segment_key_prefix p) k = true →
  <[row_key r := v]> m !! k = m !! k.
Proof.
  intros Hp Hr Hn Hk. apply lookup_insert_ne. intros <-.
  apply starts_with_segment_prefix in Hk as (q & n & -> & _); [|done..]. by eapply Hn.
Qed.

Lemma append_simulates p d m t :
  stream_prefix_ok p = true → tier_wf t → tier_repr m p t → (t_tail t + 1 < U64_MOD)%N →
  (stream_effect p (OpAppend d) m).1 = (spec_stream_op p (OpAppend d) t).1 ∧
  tier_repr (stream_effect p (OpAppend d) m).2 p (spec_stream_op p (OpAppend d) t).2.
Proof.
  intros Hp [_ (Hef & Hft & Htu) _] [H1 H2 H3 H4 H5] Hroom.
  rewrite append_effect. cbn [fst snd spec_stream_op]. rewrite H1. split; [done|].
  rewrite wrap64_small by done.
  split; unfold t_tail; cbn [t_log t_segs t_floor t_earliest];
    intros; rewrite ?row_lookup_insert by done; repeat case_decide; simplify_eq; try done.
  - rewrite length_app, Nat2N.inj_add. by apply cursor_u64.
  - unfold t_tail in *. replace (t_floor t <=? _)%N with true by (symmetry; apply N.leb_le; lia).
    rewrite Nat2N.id. by rewrite lookup_app_r, Nat.sub_diag by lia.
  - rewrite H4. destruct (t_floor t <=? n)%N; [|done].
    destruct (decide (n < t_tail t)%N); unfold t_tail in *.
    + by rewrite lookup_app_l by lia.
    + rewrite !lookup_ge_None_2; [done|rewrite ?length_app; simpl..]; try lia.
      destruct (decide (n = N.of_nat (length (t_log t)))); [by subst|lia].
  - rewrite !(insert_not_segment p) by done. by apply H5.
Qed.

Lemma entry_keys_elem p n base end_ :
  stream_prefix_ok p = true →
  row_key (REntry p n) ∈ entry_key p <$> seq_range base end_ ↔ (base ≤ n < end_)%N.
Proof.
  intros Hp. rewrite list_elem_of_fmap, <-elem_of_seq_range. split.
  - intros (n' & He & Hin). by apply entry_key_inj in He as [_ ->].
  - eauto.
Qed.

Lemma not_entry_key r p base end_ :
  stream_prefix_ok p = true → row_ok r → (∀ n, r ≠ REntry p n) →
  row_key r ∉ entry_key p <$> seq_range base end_.
Proof.
  intros Hp Hr Hn (n & He & _)%list_elem_of_fmap. apply (Hn n).
  by apply (row_key_inj r (REntry p n)).
Qed.

Lemma seal_simulates p base end_ cid org size m t :
  let o := OpSeal base end_ cid org size in
  stream_prefix_ok p = true → stream_op_typed o → tier_wf t → tier_repr m p t →
  (stream_effect p o m).1 = (spec_stream_op p o t).1 ∧
  tier_repr (stream_effect p o m).2 p (spec_stream_op p o t).2.
Proof.
  intros o Hp Ho [(s & Hs & Ht) (Hef & Hft & Htu) Hty] Hrepr. pose proof Hrepr as [H1 H2 H3 H4 H5].
  unfold o. rewrite seal_effect. cbn [spec_stream_op]. rewrite H1, H2.
  destruct (_ && _) eqn:Hc; [|done]. cbn [fst snd]. split; [done|].
  rewrite !andb_true_iff, N.eqb_eq, N.ltb_lt, N.leb_le in Hc. destruct Hc as [[-> Hlt] Hle].
  assert (t_floor t < U64_MOD)%N as Hfu by lia.
  split; unfold t_tail; cbn [t_log t_segs t_floor t_earliest].
  - rewrite row_lookup_insert, lookup_remove_all by done.
    rewrite 2!decide_False by (done || by apply not_entry_key).
    by rewrite row_lookup_insert, decide_False by done.
  - rewrite row_lookup_insert, decide_True by done. apply cursor_u64. lia.
  - rewrite row_lookup_insert, lookup_remove_all by done.
    rewrite 2!decide_False by (done || by apply not_entry_key).
    by rewrite row_lookup_insert, decide_False by done.
  - intros n. rewrite row_lookup_insert, decide_False, lookup_remove_all by done.
    destruct (decide (row_key (REntry p n) ∈ _)) as [Hin%entry_keys_elem|Hn]; [|done|].
    + by replace (end_ <=? n)%N with false by (symmetry; apply N.leb_gt; lia).
    + rewrite entry_keys_elem in Hn by done.
      rewrite row_lookup_insert, decide_False, H4 by done.
      destruct (N.leb_spec (t_floor t) n), (N.leb_spec end_ n); try done; lia.
  - intros k v Hk. rewrite (insert_not_segment p (RFloor p)), lookup_remove_all by done.
    rewrite decide_False.
    2:{ intros (n & -> & _)%list_elem_of_fmap. change (entry_key p n) with (row_key (REntry p n)) in Hk.
        apply starts_with_segment_prefix in Hk as (q & x & ? & _); done. }
    rewrite lookup_insert_Some, H5 by done.
    assert (∀ b r, (b, r) ∈ t_segs t → (b < t_floor t)%N) as Hb.
    { intros b r Hin. destruct (tiles_elem _ _ _ _ _ Ht Hin) as (?&?&?). lia. }
    setoid_rewrite elem_of_app. setoid_rewrite list_elem_of_singleton. split.
    + intros [[<- <-]|[Hne (b & r & Hin & -> & ->)]]; [|by eauto 8].
      eexists _, _. by split; [right|].
    + intros (b & r & [Hin|[= -> ->]] & -> & ->); [right|by left].
      split; [|by eauto]. intros He%row_key_inj; [|done|].
      * simplify_eq. apply Hb in Hin. lia.
      * simpl. apply Hb in Hin. lia.
Qed.

Lemma segment_key_below_upper p b :
  below (segment_upper (stream_segment_key_prefix p)) (stream_segment_key p b) = true.
Proof.
  unfold segment_upper, stream_segment_key, below. rewrite leb_app.
  unfold fmt_020. rewrite dec_fixed_S, leb_cons.
  apply orb_true_iff. left. apply N.ltb_lt. apply pretty_N_char_byte. by apply N.mod_lt.
Qed.

Lemma segment_range_elem p m t k v :
  tier_repr m p t →
  (k, v) ∈ range (stream_segment_key_prefix p) (segment_upper (stream_segment_key_prefix p)) m ↔
  ∃ b r, (b, r) ∈ t_segs t ∧ k = row_key (RSeg p b) ∧ v = encode_segment r.
Proof.
  intros Hrepr. split.
  - intros [Hk Hm]%segment_range_prefix. by apply (repr_seg _ _ _ Hrepr).
  - intros Hs. assert (∃ b, k = stream_segment_key p b) as [b ->] by naive_solver.
    apply elem_of_range. split_and!.
    + apply leb_app_l.
    + apply segment_key_below_upper.
    + apply (repr_seg _ _ _ Hrepr); [apply starts_with_app|done].
Qed.

Lemma trim_simulates p u m t :
  let o := OpTrim u in
  stream_prefix_ok p = true → tier_wf t → tier_repr m p t →
  (stream_effect p o m).1 = (spec_stream_op p o t).1 ∧
  tier_repr (stream_effect p o m).2 p (spec_stream_op p o t).2.
Proof.
  intros o Hp [(s & Hs & Ht) (Hef & Hft & Htu) Hty] Hrepr. pose proof Hrepr as [H1 H2 H3 H4 H5].
  unfold o. rewrite trim_effect. cbn [spec_stream_op]. rewrite H2, H3.
  destruct (_ && _) eqn:Hc; [|done]. cbn [fst snd]. split; [done|].
  rewrite !andb_true_iff, N.ltb_lt, N.leb_le in Hc. destruct Hc as [Hlt Hle].
  set (rows := filter _ _).
  assert (∀ r, row_ok r → (∀ n, r ≠ RSeg p n) → row_key r ∉ rows.*1) as Hrows.
  { intros r Hr Hn ([k v] & He & [_ Hin]%list_elem_of_filter)%list_elem_of_fmap.
    apply segment_range_elem with (t := t) in Hin as (b & r' & Hin & -> & _); [|done].
    apply (Hn b). apply row_key_inj; [done| |done].
    simpl. destruct (tiles_elem _ _ _ _ _ Ht Hin). lia. }
  assert (∀ r, row_ok r → (∀ n, r ≠ RSeg p n) → r ≠ REarliest p →
    <[row_key (REarliest p) := u64_to_be u]> (remove_all rows.*1 m) !! row_key r
      = m !! row_key r) as Hother.
  { intros r Hr Hn Hne. rewrite row_lookup_insert, decide_False by done.
    rewrite lookup_remove_all, decide_False; [done|]. by apply Hrows. }
  split; unfold t_tail; cbn [t_log t_segs t_floor t_earliest].
  - by rewrite Hother.
  - by rewrite Hother.
  - rewrite row_lookup_insert, decide_True by done. apply cursor_u64. lia.
  - intros n. by rewrite Hother.
  - intros k v Hk. rewrite (insert_not_segment p (REarliest p)), lookup_remove_all by done.
    setoid_rewrite list_elem_of_filter. cbn [snd]. case_decide as Hin.
    + split; [done|]. intros (b & r & [Hend Hr] & -> & ->). exfalso.
      apply list_elem_of_fmap in Hin as ([k' v'] & He & [Hsel Hin]%list_elem_of_filter).
      apply segment_range_elem with (t := t) in Hin as (b' & r' & Hin & -> & ->); [|done].
      cbn [fst] in He. apply row_key_inj in He; [simplify_eq| |].
      * unfold trim_selects in Hsel. cbn [snd] in Hsel.
        rewrite decode_encode_segment, N.leb_le in Hsel by (by eapply Hty).
        destruct (tiles_elem _ _ _ _ _ Ht Hr) as (?&?&?), (tiles_elem _ _ _ _ _ Ht Hin) as (?&?&?).
        destruct (tiles_unique _ _ _ b' _ _ _ _ Ht Hr Hin) as [_ ->]; lia.
      * simpl. destruct (tiles_elem _ _ _ _ _ Ht Hr). lia.
      * simpl. destruct (tiles_elem _ _ _ _ _ Ht Hin). lia.
    + rewrite H5 by done. split; [|naive_solver].
      intros (b & r & Hr & -> & ->). exists b, r. split_and!; [|done..].
      destruct (decide (u < seg_end r)%N) as [|Hge]; [done|]. exfalso. apply Hin.
      apply list_elem_of_fmap. exists (row_key (RSeg p b), encode_segment r).
      split; [done|]. apply list_elem_of_filter. split.
      * unfold trim_selects. cbn [snd]. rewrite decode_encode_segment by (by eapply Hty).
        apply N.leb_le. lia.
      * apply segment_range_elem with (t := t); [done|]. eauto.
Qed.

Lemma stream_op_simulates p o m t :
  stream_prefix_ok p = true → stream_op_typed o → tier_wf t → tier_repr m p t →
  (t_tail t + 1 < U64_MOD)%N →
  (stream_effect p o m).1 = (spec_stream_op p o t).1 ∧
  tier_repr (stream_effect p o m).2 p (spec_stream_op p o t).2.
Proof.
  destruct o; eauto using append_simulates, seal_simulates, trim_simulates.
Qed.

(** ** Runs *)

Fixpoint run_streams (ops : list (string * stream_op)) : txn (list (string * CommandResult)) :=
  match ops with
  | [] => mret []
  | (q, o) :: ops =>
      r ← run_stream_op q o;
      rs ← run_streams ops;
      mret ((q, r) :: rs)
  end.

Fixpoint spec_run (p : string) (ops : list (string * stream_op)) (t : tier) :
    list CommandResult * tier :=
  match ops with
  | [] => ([], t)
  | (q, o) :: ops =>
      if decide (q = p)
      then
        let '(r, t1) := spec_stream_op p o t in
        let '(rs, t2) := spec_run p ops t1 in (r :: rs, t2)
      else spec_run p ops t
  end.

Definition results_for (p : string) (rs : list (string * CommandResult)) : list CommandResult :=
  snd <$> filter (λ x, x.1 = p) rs.

Definition op_admissible (p : string) (x : string * stream_op) : Prop :=
  stream_prefix_ok x.1 = true ∧ stream_op_typed x.2 ∧ (x.1 = p ∨ independent p x.1).

Lemma spec_stream_op_tail p o t :
  (t_tail (spec_stream_op p o t).2 ≤ t_tail t + 1)%N.
Proof.
  destruct o; simpl; repeat case_match; unfold t_tail; simpl; rewrite ?length_app; simpl; lia.
Qed.

Lemma run_streams_refines p ops db t :
  stream_prefix_ok p = true → Forall (op_admissible p) ops →
  tier_wf t → tier_repr (stream_entries db) p t →
  (t_tail t + N.of_nat (length ops) + 1 < U64_MOD)%N →
  ∃ rs db', run_streams ops db = Ok (rs, db') ∧
    results_for p rs = (spec_run p ops t).1 ∧
    tier_repr (stream_entries db') p (spec_run p ops t).2 ∧
    tier_wf (spec_run p ops t).2.
Proof.
  intros Hp Hops. revert db t. induction Hops as [|[q o] ops (Hq & Ho & Hc) Hops IH];
    intros db t Hwf Hrepr Hroom; [by exists [], db|].
  cbn [run_streams spec_run fst snd length] in *.
  set (e := stream_effect q o (stream_entries db)).
  assert (∀ t', tier_wf t' → tier_repr e.2 p t' → (t_tail t' ≤ t_tail t + 1)%N →
    ∃ rs db', (r ← run_stream_op q o; rs ← run_streams ops; mret ((q, r) :: rs)) db
                = Ok ((q, e.1) :: rs, db') ∧
      results_for p rs = (spec_run p ops t').1 ∧
      tier_repr (stream_entries db') p (spec_run p ops t').2 ∧
      tier_wf (spec_run p ops t').2) as Hstep.
  { intros t' Hwf' Hr' Ht'.
    destruct (IH (mkDb (metadata db) e.2 (control_state db)) t') as (rs & db' & Hrun & ?);
      [done..|lia|].
    exists rs, db'. split; [|done]. unfold mbind, txn_bind.
    rewrite run_stream_op_eq. fold e. by rewrite Hrun. }
  case_decide as Hd.
  - subst q. destruct (stream_op_simulates p o (stream_entries db) t) as [Hres Hr']; [done..|lia|].
    destruct (spec_stream_op p o t) as [r t1] eqn:Hspec. cbn [fst snd] in *.
    destruct (Hstep t1) as (rs & db' & Hrun & H1 & H2 & H3).
    { eapply spec_stream_op_wf; [done..| |done]. lia. }
    { done. }
    { change t1 with (r, t1).2. rewrite <-Hspec. apply spec_stream_op_tail. }
    exists ((p, e.1) :: rs), db'. rewrite Hrun.
    destruct (spec_run p ops t1) as [srs t2]. cbn [fst snd] in *. split_and!; try done.
    unfold results_for in *. rewrite filter_cons_True by done. cbn [fmap list_fmap snd].
    rewrite H1. unfold e. by rewrite Hres.
  - destruct Hc as [->|Hind]; [done|].
    destruct (Hstep t) as (rs & db' & Hrun & H1 & H2 & H3); [done| |lia|].
    { by apply stream_effect_frame. }
    exists ((q, e.1) :: rs), db'. rewrite Hrun. split_and!; try done.
    unfold results_for in *. by rewrite filter_cons_False by done.
Qed.

(** ** Reads *)

Lemma segment_base_key p b :
  stream_prefix_ok p = true → (b < U64_MOD)%N →
  segment_base (stream_segment_key_prefix p) (row_key (RSeg p b)) = Some b.
Proof.
  intros (_ & _ & Hu)%stream_prefix_ok_inv Hb. unfold segment_base. cbn [row_key].
  unfold stream_segment_key, stream_segment_key_prefix. rewrite from_utf8_true.
  - cbn [mbind option_bind]. rewrite strip_prefix_app. by apply parse_fmt_020.
  - apply is_utf8_app_true; [by apply is_utf8_app_true|]. apply is_utf8_dec_fixed.
Qed.

Lemma segment_key_leb p a b :
  (a < U64_MOD)%N → (b < U64_MOD)%N →
  String.leb (row_key (RSeg p a)) (row_key (RSeg p b)) = (a <=? b)%N.
Proof.
  intros Ha Hb. cbn [row_key]. unfold stream_segment_key, fmt_020. rewrite leb_app.
  apply leb_dec_fixed; (eapply N.lt_trans; [eassumption|]); done.
Qed.

Lemma repr_seg_bound t b r :
  tier_wf t → (b, r) ∈ t_segs t → (b < U64_MOD)%N.
Proof.
  intros [(s & Hs & Ht) (Hef & Hft & Htu) _] Hin.
  destruct (tiles_elem _ _ _ _ _ Ht Hin) as (?&?&?). lia.
Qed.

Definition segment_row_of (p : string) (s : N * SegmentRecord) : string * string :=
  (row_key (RSeg p s.1), encode_segment s.2).

Lemma tiles_rows_sorted p s segs e :
  (e < U64_MOD)%N → tiles s segs e → StronglySorted key_le (segment_row_of p <$> segs).
Proof.
  intros He. revert s. induction segs as [|[b r] segs IH]; intros s Ht; [constructor|].
  pose proof Ht as (-> & Hlt & Ht'). rewrite fmap_cons. constructor; [by eapply IH|].
  apply Forall_fmap, Forall_forall. intros [b' r'] Hin.
  destruct (tiles_elem _ _ _ _ _ Ht' Hin) as (?&?&?).
  unfold key_le. cbn [compose segment_row_of fst snd]. apply Is_true_true.
  rewrite segment_key_leb by lia. apply N.leb_le. lia.
Qed.

Lemma range_NoDup {V} lo hi (m : gmap string V) : NoDup (range lo hi m).
Proof.
  unfold range. apply NoDup_filter. eapply NoDup_fmap_1. apply entries_NoDup.
Qed.

Lemma tiles_rows_NoDup p s segs e :
  (e < U64_MOD)%N → tiles s segs e → NoDup (segment_row_of p <$> segs).
Proof.
  intros He. revert s. induction segs as [|[b r] segs IH]; intros s Ht; [constructor|].
  pose proof Ht as (-> & Hlt & Ht'). rewrite fmap_cons. constructor; [|by eapply IH].
  intros ([b' r'] & Heq & Hin)%list_elem_of_fmap.
  destruct (tiles_elem _ _ _ _ _ Ht' Hin) as (?&?&?). apply tiles_le in Ht'.
  apply (f_equal fst) in Heq. unfold segment_row_of in Heq. cbn [fst snd] in Heq.
  apply row_key_inj in Heq; [|simpl; lia..]. simplify_eq. lia.
Qed.

(** The segment range is the list of index rows, in order. *)
Lemma segment_range_eq p m t :
  tier_wf t → tier_repr m p t →
  range (stream_segment_key_prefix p) (segment_upper (stream_segment_key_prefix p)) m
    = segment_row_of p <$> t_segs t.
Proof.
  intros [(s & Hs & Ht) (Hef & Hft & Htu) _] Hrepr.
  assert (t_floor t < U64_MOD)%N as Hfl by lia.
  apply (StronglySorted_unique_strong key_le).
  - intros [k v] [k' v'] H1 H2 Hle Hle'.
    apply segment_range_elem with (t := t) in H1 as (b & r & Hin & -> & ->); [|done].
    apply list_elem_of_fmap in H2 as ([b' r'] & Heq & Hin').
    unfold segment_row_of in Heq. apply pair_eq in Heq as [-> ->].
    unfold key_le in *. cbn [fst snd] in *.
    assert (row_key (RSeg p b) = row_key (RSeg p b')) as Hk
      by (apply leb_antisym; by apply Is_true_true).
    destruct (tiles_elem _ _ _ _ _ Ht Hin) as (?&?&?), (tiles_elem _ _ _ _ _ Ht Hin') as (?&?&?).
    apply row_key_inj in Hk; [simplify_eq|simpl; lia..].
    by destruct (tiles_unique _ _ _ b' _ _ _ _ Ht Hin Hin') as [_ ->]; [lia..|].
  - apply range_sorted.
  - by eapply tiles_rows_sorted.
  - apply NoDup_Permutation; [apply range_NoDup|by eapply tiles_rows_NoDup|].
    intros [k v]. rewrite segment_range_elem by done. rewrite list_elem_of_fmap.
    unfold segment_row_of. split; [|intros ([b r] & [-> ->]%pair_eq & ?); eauto].
    intros (b & r & Hin & -> & ->). by exists (b, r).
Qed.

Lemma segment_row_decode p b r :
  stream_prefix_ok p = true → (b < U64_MOD)%N → segment_typed r →
  segment_row (stream_segment_key_prefix p) (segment_row_of p (b, r)) = Some (b, r).
Proof.
  intros Hp Hb Hr. unfold segment_row, segment_row_of. cbn [fst snd].
  rewrite segment_base_key by done. cbn [mbind option_bind].
  by rewrite decode_encode_segment.
Qed.

Lemma omap_segment_rows p (segs : list (N * SegmentRecord)) :
  stream_prefix_ok p = true →
  (∀ b r, (b, r) ∈ segs → (b < U64_MOD)%N ∧ segment_typed r) →
  omap (segment_row (stream_segment_key_prefix p)) (segment_row_of p <$> segs) = segs.
Proof.
  intros Hp. induction segs as [|[b r] segs IH]; intros Hs; [done|].
  rewrite fmap_cons. cbn [omap list_omap].
  rewrite segment_row_decode; [|done|apply (Hs b r); left..].
  f_equal. apply IH. intros b' r' Hin. apply Hs. by right.
Qed.

Lemma list_segments_repr p db t :
  stream_prefix_ok p = true → tier_wf t → tier_repr (stream_entries db) p t →
  list_segments db p = t_segs t.
Proof.
  intros Hp Hwf Hrepr. unfold list_segments. rewrite (segment_range_eq p _ t) by done.
  apply omap_segment_rows; [done|]. intros b r Hin.
  split; [by eapply repr_seg_bound|by eapply (wf_typed t Hwf)].
Qed.

(** [find_segment] returns the segment covering the offset. *)
Lemma find_segment_repr p db t n b r :
  stream_prefix_ok p = true → tier_wf t → tier_repr (stream_entries db) p t →
  (b, r) ∈ t_segs t → (b ≤ n < seg_end r)%N →
  find_segment db p n = Some (b, r).
Proof.
  intros Hp Hwf Hrepr Hin Hn. pose proof Hwf as [(s & Hs & Ht) (Hef & Hft & Htu) Hty].
  destruct (tiles_elem _ _ _ _ _ Ht Hin) as (?&?&?).
  assert (last (range (stream_segment_key_prefix p) (Included (stream_segment_key p n))
            (stream_entries db)) = Some (row_key (RSeg p b), encode_segment r)) as Hlast.
  { change (stream_segment_key p n) with (row_key (RSeg p n)).
    apply next_back_Some. split_and!.
    - apply leb_app_l.
    - cbn [below]. rewrite segment_key_leb by lia. apply N.leb_le. lia.
    - apply (repr_seg _ _ _ Hrepr); [apply starts_with_app|]. eauto.
    - intros k v Hk Hlo Hhi. cbn [below] in Hhi.
      assert (starts_with (stream_segment_key_prefix p) k = true) as Hpre
        by exact (between_prefix _ _ (fmt_020 n) Hlo Hhi).
      apply (repr_seg _ _ _ Hrepr) in Hk as (b' & r' & Hin' & -> & ->); [|done].
      destruct (tiles_elem _ _ _ _ _ Ht Hin') as (?&?&?).
      rewrite segment_key_leb, N.leb_le in Hhi by lia.
      rewrite segment_key_leb, N.leb_le by lia.
      destruct (N.le_gt_cases b' b) as [|Hgt]; [done|exfalso].
      pose proof (tiles_order _ _ _ _ _ _ _ Ht Hin Hin' Hgt). lia. }
  unfold find_segment. rewrite Hlast. cbn [mbind option_bind].
  rewrite segment_base_key by (done || lia).
  rewrite decode_encode_segment by (by eapply Hty).
  rewrite (proj2 (N.leb_le _ _)), (proj2 (N.ltb_lt _ _)) by lia. done.
Qed.

(** ** Properties *)

Definition run_ok (p : string) (ops : list (string * stream_op)) : Prop :=
  stream_prefix_ok p = true ∧ Forall (op_admissible p) ops ∧
  (N.of_nat (length ops) + 1 < U64_MOD)%N.

Lemma tier_wf_empty : tier_wf tier_empty.
Proof.
  split; [by exists 0%N|done|]. intros b r Hin. by apply not_elem_of_nil in Hin.
Qed.

(** C16: Any sequence of append, seal and trim commands, on any number of
    streams none of which lies below another, always applies; the results
    returned to a stream and its rows in the tree are those of the
    specification: an append-only log with a cold index. *)
Theorem streams_refine_logs (p : string) (ops : list (string * stream_op))
    (Hrun : run_ok p ops) :
  ∃ rs db, run_streams ops db_empty = Ok (rs, db) ∧
    results_for p rs = (spec_run p ops tier_empty).1 ∧
    tier_repr (stream_entries db) p (spec_run p ops tier_empty).2 ∧
    tier_wf (spec_run p ops tier_empty).2.
Proof.
  destruct Hrun as (Hp & Hops & Hlen). apply run_streams_refines; try done.
  - apply tier_wf_empty.
  - apply tier_repr_empty.
Qed.

Definition demo_ops : list (string * stream_op) :=
  [("/__wal_stream__/a/", OpAppend "x"); ("/__wal_stream__/b/", OpAppend "y");
   ("/__wal_stream__/a/", OpAppend "z"); ("/__wal_stream__/a/", OpAppend "w");
   ("/__wal_stream__/a/", OpSeal 0 2 "cid" "node-1" 7);
   ("/__wal_stream__/a/", OpTrim 1)].

Lemma demo_ops_ok : run_ok "/__wal_stream__/a/" demo_ops.
Proof.
  split; [done|]. split; [|by vm_compute].
  repeat constructor; try (by left); right; by vm_compute.
Qed.

Lemma streams_refine_logs_witness :
  ∃ rs db, run_streams demo_ops db_empty = Ok (rs, db) ∧
    results_for "/__wal_stream__/a/" rs = (spec_run "/__wal_stream__/a/" demo_ops tier_empty).1.
Proof.
  destruct (streams_refine_logs "/__wal_stream__/a/" demo_ops demo_ops_ok)
    as (rs & db & H1 & H2 & _).
  exists rs, db. split; [exact H1|exact H2].
Defined.

(** After any such run every offset of a stream from [earliest] to [tail] is
    readable, and only those: offsets at or above the floor are in the hot rows
    with the payload that was appended there, offsets below the floor are
    located by [find_segment] in the one listed segment covering them, and
    nothing is stored at or beyond the tail. *)
Theorem stream_reads_complete (p : string) (ops : list (string * stream_op)) rs db
    (Hrun : run_ok p ops) (Hdb : run_streams ops db_empty = Ok (rs, db)) :
  let log := t_log (spec_run p ops tier_empty).2 in
  stream_tail db p = N.of_nat (length log) ∧
  (stream_earliest db p ≤ stream_floor db p ≤ stream_tail db p)%N ∧
  ∀ n,
    ((stream_floor db p ≤ n)%N →
       get_stream_entry db (entry_key p n) = log !! N.to_nat n) ∧
    ((stream_earliest db p ≤ n < stream_floor db p)%N →
       get_stream_entry db (entry_key p n) = None ∧
       ∃ b r, find_segment db p n = Some (b, r) ∧ (b ≤ n < seg_end r)%N ∧
         ∀ b' r', (b', r') ∈ list_segments db p → (b' ≤ n < seg_end r')%N → (b', r') = (b, r)).
Proof.
  intros log. destruct Hrun as (Hp & Hops & Hlen).
  destruct (run_streams_refines p ops db_empty tier_empty) as (rs' & db' & Hdb' & _ & Hrepr & Hwf);
    [done|done|apply tier_wf_empty|apply tier_repr_empty|done|].
  rewrite Hdb in Hdb'. injection Hdb' as <- <-. subst log.
  set (t := (spec_run p ops tier_empty).2) in *. clearbody t.
  pose proof Hrepr as [H1 H2 H3 H4 H5]. pose proof Hwf as [(s & Hs & Ht) (Hef & Hft & Htu) Hty].
  unfold stream_tail, stream_floor, stream_earliest, get_stream_entry.
  cbn [row_key] in H1, H2, H3. rewrite H1, H2, H3. split; [done|]. split; [done|].
  intros n. specialize (H4 n). cbn [row_key] in H4. rewrite H4. split.
  - intros Hn. by rewrite (proj2 (N.leb_le _ _) Hn).
  - intros [Hn1 Hn2]. rewrite (proj2 (N.leb_gt _ _) Hn2). split; [done|].
    destruct (tiles_cover _ _ _ n Ht) as (b & r & Hin & Hb); [lia|done|].
    exists b, r. split_and!; [by eapply find_segment_repr|lia|lia|].
    intros b' r' Hin' Hn'. rewrite (list_segments_repr p db t) in Hin' by done.
    by destruct (tiles_unique _ _ _ n _ _ _ _ Ht Hin' Hin Hn') as [-> ->].
Qed.

Definition demo_rs : list (string * CommandResult) :=
  match run_streams demo_ops db_empty with Ok (rs, _) => rs | Err _ => [] end.
Definition demo_db : Db :=
  match run_streams demo_ops db_empty with Ok (_, db) => db | Err _ => db_empty end.

Lemma demo_run : run_streams demo_ops db_empty = Ok (demo_rs, demo_db).
Proof. vm_compute. reflexivity. Qed.

Lemma demo_cursors :
  stream_floor demo_db "/__wal_stream__/a/" = 2%N ∧
  stream_earliest demo_db "/__wal_stream__/a/" = 1%N.
Proof. vm_compute. split; reflexivity. Qed.

Lemma stream_reads_complete_witness :
  stream_tail demo_db "/__wal_stream__/a/" = 3%N ∧
  get_stream_entry demo_db (entry_key "/__wal_stream__/a/" 2) = Some "w" ∧
  ∃ b r, find_segment demo_db "/__wal_stream__/a/" 1 = Some (b, r).
Proof.
  destruct demo_cursors as [Hf He].
  destruct (stream_reads_complete _ _ _ _ demo_ops_ok demo_run) as (Ht & _ & Hr).
  split; [exact Ht|]. split.
  - apply (proj1 (Hr 2%N)). rewrite Hf. apply N.le_refl.
  - destruct (proj2 (Hr 1%N)) as (_ & b & r & Hs & _); [rewrite Hf, He; lia|].
    exists b, r. exact Hs.
Defined.

(** The segment index record survives its byte encoding: what the seal
    wrote is what a reader on any replica decodes. *)
Theorem segment_record_roundtrip (r : SegmentRecord) (Hr : segment_typed r) :
  decode_segment_record
    (encode_segment_record (seg_end r) (seg_size r) (seg_origin r) (seg_content_id r)) = Some r.
Proof. by apply decode_encode_segment. Qed.

Lemma segment_record_roundtrip_witness :
  decode_segment_record (encode_segment_record 300 70000 "node-1" "sha256:ab")
    = Some (mkSegment 300 70000 "node-1" "sha256:ab").
Proof.
  apply (segment_record_roundtrip (mkSegment 300 70000 "node-1" "sha256:ab")).
  by vm_compute.
Defined.

(** A trim of a stream also drops the index records of streams whose path
    lies below it: here trimming [/a] to 5 removes the segment of [/a/b], whose
    offsets 0..4 were readable before and are not found afterwards. *)
Theorem trim_drops_nested_segments :
  let a := "/__wal_stream__/a/" in
  let b := "/__wal_stream__/a/b/" in
  let fill p := (p, OpSeal 0 5 "cid" "node-1" 7) in
  let ops := repeat (a, OpAppend "x") 5 ++ repeat (b, OpAppend "y") 6 ++ [fill a; fill b] in
  match run_streams ops db_empty with
  | Ok (_, db) =>
      find_segment db b 3 = Some (0%N, mkSegment 5 7 "node-1" "cid") ∧
      match trim_stream_segment a 5 db with
      | Ok (r, db') =>
          r = Success ∧ stream_earliest db' b = 0%N ∧ stream_floor db' b = 5%N ∧
          find_segment db' b 3 = None ∧ list_segments db' b = []
      | Err _ => False
      end
  | Err _ => False
  end.
Proof. by vm_compute. Qed.
