(* ===== verification/Version.v ===== *)
(** * Reading the version out of a serialized metadata value

    src/rust/raft/src/raft/state_machine.rs, [extract_version],
    [decode_varint] and [decode_varint_with_len]: the hand-written protobuf
    scan, with the JSON fallback, on which the version compare-and-swap of
    [CasSetMetadata] rests.  Arithmetic is that of the release profile: shifts
    are taken modulo the width and [usize] (64 bits) additions wrap.

    The scan can fail to return: [scan_loop] runs on fuel, and
    [scan_loop_diverges] shows that the fuel [extract_version] gives it runs
    out only for inputs on which the loop of the source never ends. *)

From S2P Require Import Prelude Bytes Codec Table.

Local Open Scope N_scope.

(** ** Varints *)

Definition byte_low7 (a : ascii) : N := N.land (N_of_ascii a) 127.
Definition byte_msb (a : ascii) : bool := negb (N.land (N_of_ascii a) 128 =? 0).

(** [result |= ((byte & 0x7F) as u64) << shift] *)
Definition varint_or (result : N) (shift : N) (a : ascii) : N :=
  N.lor result (wrap64 (N.shiftl (byte_low7 a) (shift mod 64))).

Fixpoint decode_varint_loop (result shift : N) (bytes : string) : N :=
  match bytes with
  | "" => result
  | String a rest =>
      let result := varint_or result shift a in
      if byte_msb a then decode_varint_loop result (shift + 7) rest else result
  end.

Definition decode_varint (bytes : string) : N := decode_varint_loop 0 0 bytes.

Fixpoint varint_len_loop (result shift : N) (i : N) (bytes : string) : N * N :=
  match bytes with
  | "" => (result, i)
  | String a rest =>
      let result := varint_or result shift a in
      if byte_msb a then varint_len_loop result (shift + 7) (i + 1) rest else (result, i + 1)
  end.

Definition decode_varint_with_len (bytes : string) : N * N := varint_len_loop 0 0 0 bytes.

(** ** The field scan *)

Definition slen (s : string) : N := N.of_nat (String.length s).
Definition sdropN (i : N) (s : string) : string := sdrop (N.to_nat i) s.

(** [while i < len && bytes[i] & 0x80 != 0 { i += 1 }] *)
Fixpoint skip_msb (bytes : string) : N :=
  match bytes with
  | "" => 0
  | String a rest => if byte_msb a then 1 + skip_msb rest else 0
  end.

Inductive scan := Found (version : N) | Break | Next (i : N).

(** One iteration of the scan at index [i], with [i < bytes.len()]. *)
Definition scan_field (bytes : string) (i : N) : scan :=
  match sdropN i bytes with
  | "" => Break
  | String tag_byte _ =>
      let field_number := N.shiftr (N_of_ascii tag_byte) 3 in
      let wire_type := N.land (N_of_ascii tag_byte) 7 in
      let version_field := (field_number =? 9) && (wire_type =? 0) in
      if version_field && (i + 1 <? slen bytes)
      then Found (wrap32 (decode_varint (sdropN (i + 1) bytes)))
      else
        let i := (if version_field then i + 2 else i + 1) in
        if wire_type =? 0 then Next (i + skip_msb (sdropN i bytes) + 1)
        else if wire_type =? 1 then Next (i + 8)
        else if wire_type =? 2 then
          let '(len, consumed) := decode_varint_with_len (sdropN i bytes) in
          Next (wrap64 (i + wrap64 (consumed + len)))
        else if wire_type =? 5 then Next (i + 4)
        else Break
  end.

(** [None]: still running after [fuel] iterations. *)
Fixpoint scan_loop (fuel : nat) (bytes : string) (i : N) : option (option N) :=
  if i <? slen bytes then
    match fuel with
    | O => None
    | S fuel =>
        match scan_field bytes i with
        | Found v => Some (Some v)
        | Break => Some None
        | Next i => scan_loop fuel bytes i
        end
    end
  else Some None.

(** ** The JSON fallback *)

(** The rest of the text after the first occurrence of [pat]. *)
Fixpoint find_after (pat s : string) : option string :=
  match strip_prefix pat s with
  | Some rest => Some rest
  | None => match s with "" => None | String _ s => find_after pat s end
  end.

Definition byte_is (n : N) (a : ascii) : bool := N_of_ascii a =? n.

(** [str::trim_start]: the Unicode [White_Space] characters in UTF-8. *)
Fixpoint trim_start (s : string) : string :=
  match s with
  | "" => ""
  | String a s1 =>
      if byte_in 9 13 a || byte_is 32 a then trim_start s1 else
      match s1 with
      | "" => s
      | String b s2 =>
          if byte_is 194 a && (byte_is 133 b || byte_is 160 b) then trim_start s2 else
          match s2 with
          | "" => s
          | String c s3 =>
              if (byte_is 225 a && byte_is 154 b && byte_is 128 c)
                || (byte_is 226 a && byte_is 128 b &&
                    (byte_in 128 138 c || byte_is 168 c || byte_is 169 c || byte_is 175 c))
                || (byte_is 226 a && byte_is 129 b && byte_is 159 c)
                || (byte_is 227 a && byte_is 128 b && byte_is 128 c)
              then trim_start s3 else s
          end
      end
  end.

Fixpoint take_digits (s : string) : string :=
  match s with
  | "" => ""
  | String a s => if byte_in 48 57 a then String a (take_digits s) else ""
  end.

Definition quoted (s : string) : string := String "034" (s +:+ String "034" "").

Definition json_version (bytes : string) : option N :=
  text ← from_utf8 bytes;
  after ← find_after (quoted "version") text;
  num_str ← find_after ":" after;
  parse_u32 (take_digits (trim_start num_str)).

(** [None]: the call does not return. *)
Definition extract_version (bytes : string) : option N :=
  match scan_loop (S (String.length bytes)) bytes 0 with
  | None => None
  | Some (Some v) => Some v
  | Some None => Some (default 0 (json_version bytes))
  end.
