(* ===== verification/VersionProofs.v ===== *)
(** * The version scan: correctness on protobuf messages, and where it hangs

    On a protobuf message whose fields up to the version use one-byte tags (as
    the generated encoder of [FileMetadata] writes them) the scan returns the
    version.  A value with a length prefix near [2^64] makes the index wrap to
    where it was, and the scan never returns. *)

From S2P Require Import Prelude Bytes Codec Table Version.

Local Open Scope N_scope.

(** ** Protobuf encoding *)

Fixpoint varint_bytes (fuel : nat) (v : N) : string :=
  match fuel with
  | O => ""
  | S fuel =>
      if v <? 128 then String (ascii_of_N v) ""
      else String (ascii_of_N (v mod 128 + 128)) (varint_bytes fuel (v / 128))
  end.

(** Base-128, least significant group first; ten groups hold 64 bits. *)
Definition encode_varint (v : N) : string := varint_bytes 10 v.

Inductive wire :=
  | WVarint (v : N)
  | WFixed64 (b : string)
  | WBytes (b : string)
  | WFixed32 (b : string).

Definition wire_type_of (w : wire) : N :=
  match w with WVarint _ => 0 | WFixed64 _ => 1 | WBytes _ => 2 | WFixed32 _ => 5 end.

Definition wire_payload (w : wire) : string :=
  match w with
  | WVarint v => encode_varint v
  | WFixed64 b | WFixed32 b => b
  | WBytes b => encode_varint (slen b) +:+ b
  end.

Definition encode_field (f : N * wire) : string :=
  String (ascii_of_N (8 * f.1 + wire_type_of f.2)) (wire_payload f.2).

Definition encode_fields (fs : list (N * wire)) : string :=
  foldr (λ f s, encode_field f +:+ s) "" fs.

(** A field the scan passes over: one-byte tag, not a varint field 9. *)
Definition field_ok (f : N * wire) : bool :=
  (1 <=? f.1) && (f.1 <? 16) &&
  match f.2 with
  | WVarint v => negb (f.1 =? 9) && (v <? U64_MOD)
  | WFixed64 b => (slen b =? 8)
  | WFixed32 b => (slen b =? 4)
  | WBytes b => (slen b <? 2 ^ 62)
  end.

(** ** Bytes *)

Definition byte_facts (n : N) : bool :=
  let a := ascii_of_N n in
  (N_of_ascii a =? n) && (byte_low7 a =? n mod 128) && Bool.eqb (byte_msb a) (128 <=? n)
  && (N.shiftr n 3 =? n / 8) && (N.land n 7 =? n mod 8).

Lemma byte_facts_all n : n < 256 → byte_facts n = true.
Proof.
  intros Hn. assert (forallb byte_facts (N.of_nat <$> seq 0 256) = true) as H by (by vm_compute).
  rewrite forallb_forall in H. apply H. apply list_elem_of_In, list_elem_of_fmap.
  exists (N.to_nat n). rewrite elem_of_seq. lia.
Qed.

Lemma byte_facts_spec n :
  n < 256 →
  N_of_ascii (ascii_of_N n) = n ∧ byte_low7 (ascii_of_N n) = n mod 128 ∧
  byte_msb (ascii_of_N n) = (128 <=? n) ∧ N.shiftr n 3 = n / 8 ∧ N.land n 7 = n mod 8.
Proof.
  intros H%byte_facts_all. unfold byte_facts in H.
  rewrite !andb_true_iff, !N.eqb_eq, Bool.eqb_true_iff in H. naive_solver.
Qed.

(** ** Varints *)

Lemma varint_split v shift :
  N.lor (N.shiftl (v mod 128) shift) (N.shiftl (v / 128) (shift + 7)) = N.shiftl v shift.
Proof.
  replace (shift + 7) with (7 + shift) by lia.
  rewrite <-N.shiftl_shiftl, <-N.shiftl_lor. f_equal.
  change 128 with (2 ^ 7). rewrite <-(N.land_ones v 7), <-(N.shiftr_div_pow2 v 7), <-N.ldiff_ones_r, N.lor_comm.
  apply N.lor_ldiff_and.
Qed.

Lemma varint_step v shift :
  128 ≤ v → v * 2 ^ shift < U64_MOD → shift + 7 < 64 ∧ v / 128 * 2 ^ (shift + 7) < U64_MOD.
Proof.
  intros Hv Hb.
  pose proof (N.Div0.div_le_mono 128 v 128 Hv) as Hge. change (128 / 128) with 1 in Hge.
  assert (v / 128 * 2 ^ (shift + 7) ≤ v * 2 ^ shift) as Hle.
  { rewrite N.pow_add_r. change (2 ^ 7) with 128.
    replace (v / 128 * (2 ^ shift * 128)) with (128 * (v / 128) * 2 ^ shift) by lia.
    apply N.mul_le_mono_r, N.Div0.mul_div_le. }
  split; [|lia].
  assert (2 ^ (shift + 7) < 2 ^ 64) as Hp.
  { eapply N.le_lt_trans; [|eapply N.le_lt_trans; [exact Hle|exact Hb]].
    rewrite <-(N.mul_1_l (2 ^ _)) at 1. by apply N.mul_le_mono_r. }
  apply N.pow_lt_mono_r_iff in Hp; lia.
Qed.

Lemma varint_or_low acc shift v :
  shift < 64 → v < 256 → v mod 128 * 2 ^ shift < U64_MOD →
  varint_or acc shift (ascii_of_N v) = N.lor acc (N.shiftl (v mod 128) shift).
Proof.
  intros Hs Hv Hb. unfold varint_or. destruct (byte_facts_spec v Hv) as (_ & -> & _).
  rewrite (N.mod_small shift 64) by done. rewrite wrap64_small; [done|].
  by rewrite N.shiftl_mul_pow2.
Qed.

Lemma varint_bytes_small fuel v :
  v < 128 → varint_bytes (S fuel) v = String (ascii_of_N v) "".
Proof. intros Hv. cbn [varint_bytes]. by rewrite (proj2 (N.ltb_lt _ _) Hv). Qed.

Lemma varint_bytes_large fuel v :
  128 ≤ v →
  varint_bytes (S fuel) v =
  String (ascii_of_N (v mod 128 + 128)) (varint_bytes fuel (v / 128)).
Proof. intros Hv. cbn [varint_bytes]. by rewrite (proj2 (N.ltb_ge _ _) Hv). Qed.

#[local] Arguments varint_bytes : simpl never.

Lemma low7_lt v : v mod 128 + 128 < 256.
Proof. pose proof (N.mod_lt v 128 ltac:(done)). lia. Qed.

Lemma msb_small v : v < 128 → byte_msb (ascii_of_N v) = false.
Proof.
  intros Hv. destruct (byte_facts_spec v) as (_ & _ & -> & _); [lia|]. apply N.leb_gt. lia.
Qed.

Lemma msb_large v : byte_msb (ascii_of_N (v mod 128 + 128)) = true.
Proof.
  destruct (byte_facts_spec (v mod 128 + 128)) as (_ & _ & -> & _); [apply low7_lt|].
  apply N.leb_le, N.le_add_l.
Qed.

Lemma low7_large v : (v mod 128 + 128) mod 128 = v mod 128.
Proof.
  replace (v mod 128 + 128) with (v mod 128 + 1 * 128) by lia.
  by rewrite N.Div0.mod_add, N.Div0.mod_mod.
Qed.

(** Decoding what was encoded: value and length, from any accumulator. *)
Lemma varint_len_loop_enc fuel v shift acc i rest :
  v < 128 ^ N.of_nat (S fuel) → shift < 64 → v * 2 ^ shift < U64_MOD →
  varint_len_loop acc shift i (varint_bytes (S fuel) v +:+ rest) =
  (N.lor acc (N.shiftl v shift), i + slen (varint_bytes (S fuel) v)).
Proof.
  revert v shift acc i. induction fuel as [|fuel IH]; intros v shift acc i Hv Hs Hb;
    destruct (decide (v < 128)) as [Hlt|Hge%N.nlt_ge].
  1, 3: rewrite varint_bytes_small by done; cbn [varint_len_loop];
    rewrite sapp_cons; cbn [varint_len_loop]; rewrite msb_small by done;
    rewrite varint_or_low by (rewrite ?N.mod_small by done; lia || done);
    by rewrite N.mod_small.
  - change (128 ^ N.of_nat 1) with 128 in Hv. lia.
  - destruct (varint_step v shift Hge Hb) as [Hs' Hb'].
    rewrite varint_bytes_large, sapp_cons by done. cbn [varint_len_loop]. rewrite msb_large.
    assert (v mod 128 * 2 ^ shift < U64_MOD) as Hm.
    { eapply N.le_lt_trans; [|exact Hb]. apply N.mul_le_mono_r, N.Div0.mod_le. }
    rewrite varint_or_low; [|done|apply low7_lt|by rewrite low7_large].
    rewrite low7_large, IH; [|apply N.Div0.div_lt_upper_bound|done|done].
    + f_equal.
      * by rewrite <-N.lor_assoc, varint_split.
      * unfold slen. cbn [String.length]. lia.
    + by rewrite Nat2N.inj_succ, N.pow_succ_r' in Hv.
Qed.

Lemma decode_varint_fst acc shift i bytes :
  decode_varint_loop acc shift bytes = (varint_len_loop acc shift i bytes).1.
Proof.
  revert acc shift i. induction bytes as [|a bytes IH]; intros acc shift i; [done|].
  cbn [decode_varint_loop varint_len_loop]. destruct (byte_msb a); [apply IH|done].
Qed.

Lemma varint_room v : v < U64_MOD → v < 128 ^ N.of_nat 10 ∧ v * 2 ^ 0 < U64_MOD.
Proof.
  intros Hv. split; [eapply N.lt_trans; [exact Hv|done]|]. by rewrite N.pow_0_r, N.mul_1_r.
Qed.

Lemma decode_varint_with_len_enc v rest :
  v < U64_MOD →
  decode_varint_with_len (encode_varint v +:+ rest) = (v, slen (encode_varint v)).
Proof.
  intros [Hv Hb]%varint_room. unfold decode_varint_with_len, encode_varint.
  rewrite (varint_len_loop_enc 9) by done. by rewrite N.lor_0_l, N.shiftl_0_r, N.add_0_l.
Qed.

Lemma decode_varint_enc v rest :
  v < U64_MOD → decode_varint (encode_varint v +:+ rest) = v.
Proof.
  intros Hv. unfold decode_varint. rewrite (decode_varint_fst _ _ 0).
  fold (decode_varint_with_len (encode_varint v +:+ rest)).
  by rewrite decode_varint_with_len_enc.
Qed.

Lemma skip_msb_enc_loop fuel v rest :
  v < 128 ^ N.of_nat (S fuel) →
  skip_msb (varint_bytes (S fuel) v +:+ rest) + 1 = slen (varint_bytes (S fuel) v).
Proof.
  revert v. induction fuel as [|fuel IH]; intros v Hv;
    destruct (decide (v < 128)) as [Hlt|Hge%N.nlt_ge].
  1, 3: rewrite varint_bytes_small, sapp_cons by done; cbn [skip_msb];
    by rewrite msb_small.
  - change (128 ^ N.of_nat 1) with 128 in Hv. lia.
  - rewrite varint_bytes_large, sapp_cons by done. cbn [skip_msb]. rewrite msb_large.
    assert (v / 128 < 128 ^ N.of_nat (S fuel)) as Hd.
    { apply N.Div0.div_lt_upper_bound. by rewrite Nat2N.inj_succ, N.pow_succ_r' in Hv. }
    apply IH in Hd. unfold slen in *. cbn [String.length]. lia.
Qed.

Lemma skip_msb_enc v rest :
  v < U64_MOD → skip_msb (encode_varint v +:+ rest) + 1 = slen (encode_varint v).
Proof. intros [Hv _]%varint_room. by apply skip_msb_enc_loop. Qed.

#[local] Arguments encode_varint : simpl never.

(** ** Scanning encoded fields *)

Lemma slen_sapp s t : slen (s +:+ t) = slen s + slen t.
Proof. unfold slen. rewrite slen_app. lia. Qed.

Lemma slen_cons a s : slen (String a s) = 1 + slen s.
Proof. unfold slen. cbn [String.length]. lia. Qed.

Lemma sdropN_app s t : sdropN (slen s) (s +:+ t) = t.
Proof. unfold sdropN, slen. rewrite Nat2N.id. apply sdrop_app. Qed.

Lemma sdropN_app_cons s a t : sdropN (slen s + 1) (s +:+ String a t) = t.
Proof.
  assert (s +:+ String a t = (s +:+ String a "") +:+ t) as -> by (by rewrite <-sapp_assoc).
  rewrite <-(sdropN_app (s +:+ String a "") t) at 2. f_equal.
  rewrite slen_sapp, slen_cons. unfold slen at 3. cbn [String.length]. lia.
Qed.

Lemma tag_facts num wt :
  1 ≤ num → num < 16 → wt < 8 →
  let t := N_of_ascii (ascii_of_N (8 * num + wt)) in N.shiftr t 3 = num ∧ N.land t 7 = wt.
Proof.
  intros H1 H2 H3 t. unfold t.
  destruct (byte_facts_spec (8 * num + wt)) as (-> & _ & _ & -> & ->); [lia|].
  split.
  - symmetry. apply (N.div_unique _ 8 _ wt); lia.
  - symmetry. apply (N.mod_unique _ 8 num); lia.
Qed.

Lemma field_ok_inv f :
  field_ok f = true →
  1 ≤ f.1 ∧ f.1 < 16 ∧
  match f.2 with
  | WVarint v => f.1 ≠ 9 ∧ v < U64_MOD
  | WFixed64 b => slen b = 8
  | WFixed32 b => slen b = 4
  | WBytes b => slen b < 2 ^ 62
  end.
Proof.
  unfold field_ok. rewrite !andb_true_iff, N.leb_le, N.ltb_lt.
  intros [[H1 H2] H3]. split_and!; [done..|]. destruct f.2.
  - rewrite andb_true_iff, negb_true_iff, N.eqb_neq, N.ltb_lt in H3. done.
  - by apply N.eqb_eq.
  - by apply N.ltb_lt.
  - by apply N.eqb_eq.
Qed.

(** The scan passes over an encoded field. *)
Lemma scan_field_skip pre f rest :
  field_ok f = true → slen pre + slen (encode_field f) < 2 ^ 63 →
  scan_field (pre +:+ encode_field f +:+ rest) (slen pre) =
  Next (slen pre + slen (encode_field f)).
Proof.
  destruct f as [num w]. intros (H1 & H2 & Hw)%field_ok_inv Hlen. cbn [fst snd] in *.
  unfold scan_field. rewrite sdropN_app. unfold encode_field in *. cbn [fst snd] in *.
  rewrite sapp_cons, sdropN_app_cons.
  destruct (tag_facts num (wire_type_of w)) as [-> ->]; [done|done|by destruct w|].
  rewrite slen_cons in *. destruct w as [v|b|b|b]; cbn [wire_type_of wire_payload] in *.
  - destruct Hw as [Hn Hv]. rewrite (proj2 (N.eqb_neq num 9) Hn). cbn [andb N.eqb].
    rewrite sdropN_app_cons. f_equal. pose proof (skip_msb_enc v rest Hv). lia.
  - rewrite andb_false_r. cbn [andb N.eqb Pos.eqb]. f_equal. lia.
  - rewrite andb_false_r. cbn [andb N.eqb Pos.eqb]. rewrite sdropN_app_cons.
    rewrite <-sapp_assoc, decode_varint_with_len_enc by (eapply N.lt_trans; [exact Hw|done]).
    rewrite slen_sapp in *. change (2 ^ 63) with 9223372036854775808 in Hlen.
    assert (U64_MOD = 18446744073709551616) as Hu by done.
    rewrite (wrap64_small (slen (encode_varint _) + _)) by lia.
    rewrite wrap64_small by lia. f_equal. lia.
  - rewrite andb_false_r. cbn [andb N.eqb Pos.eqb]. f_equal. lia.
Qed.

Lemma encode_fields_cons f fs :
  encode_fields (f :: fs) = encode_field f +:+ encode_fields fs.
Proof. done. Qed.

Lemma scan_loop_fields fuel pre fs rest :
  Forall (λ f, field_ok f = true) fs → slen pre + slen (encode_fields fs) < 2 ^ 63 →
  scan_loop (length fs + fuel) (pre +:+ encode_fields fs +:+ rest) (slen pre) =
  scan_loop fuel (pre +:+ encode_fields fs +:+ rest) (slen pre + slen (encode_fields fs)).
Proof.
  intros Hfs. revert pre. induction Hfs as [|f fs Hf Hfs IH]; intros pre Hlen.
  { cbn [encode_fields foldr]. rewrite N.add_0_r. done. }
  rewrite encode_fields_cons, slen_sapp in *. cbn [length Nat.add scan_loop].
  rewrite (proj2 (N.ltb_lt _ _)).
  2:{ rewrite !slen_sapp. unfold encode_field. rewrite slen_cons. lia. }
  rewrite <-(sapp_assoc (encode_field f)), scan_field_skip by (done || lia).
  specialize (IH (pre +:+ encode_field f)). rewrite slen_sapp, <-!sapp_assoc in IH.
  rewrite IH by lia. f_equal. lia.
Qed.

Lemma scan_version_field pre v rest :
  v < U64_MOD →
  scan_field (pre +:+ encode_field (9, WVarint v) +:+ rest) (slen pre) = Found (wrap32 v).
Proof.
  intros Hv. unfold scan_field. rewrite sdropN_app. unfold encode_field. cbn [fst snd].
  rewrite sapp_cons, sdropN_app_cons.
  destruct (tag_facts 9 (wire_type_of (WVarint v))) as [-> ->]; [done..|].
  cbn [wire_type_of wire_payload]. rewrite (proj2 (N.ltb_lt (slen pre + 1) _)).
  - cbn [andb N.eqb Pos.eqb]. by rewrite decode_varint_enc.
  - rewrite slen_sapp, slen_cons, slen_sapp.
    assert (0 < slen (encode_varint v)) as Hp; [|lia].
    rewrite <-(skip_msb_enc v "") by done. lia.
Qed.

Lemma encode_fields_length fs : (length fs ≤ String.length (encode_fields fs))%nat.
Proof.
  induction fs as [|f fs IH]; [done|]. rewrite encode_fields_cons, slen_app.
  unfold encode_field. cbn [length String.length]. lia.
Qed.

(** ** Fuel *)

(** The scan from [i] ends after exactly [t] iterations. *)
Definition ends_after (bytes : string) (t : nat) (i : N) : Prop :=
  scan_loop t bytes i ≠ None ∧ ∀ k, (k < t)%nat → scan_loop k bytes i = None.

Lemma ends_after_fun bytes t t' i : ends_after bytes t i → ends_after bytes t' i → t = t'.
Proof.
  intros [H1 H2] [H1' H2']. destruct (Nat.lt_trichotomy t t') as [Hlt|[->|Hlt]]; [|done|].
  - by apply H2' in Hlt.
  - by apply H2 in Hlt.
Qed.

Lemma ends_after_S bytes t i :
  ends_after bytes (S t) i →
  i < slen bytes ∧ (t = O ∨ ∃ j, scan_field bytes i = Next j ∧ ends_after bytes t j).
Proof.
  intros [H1 H2]. pose proof (H2 O ltac:(lia)) as H0. cbn [scan_loop] in H0, H1.
  destruct (i <? slen bytes) eqn:Hi; [|done]. apply N.ltb_lt in Hi. split; [done|].
  destruct t as [|t]; [by left|]. right.
  pose proof (H2 1%nat ltac:(lia)) as H3. cbn [scan_loop] in H3.
  rewrite (proj2 (N.ltb_lt _ _) Hi) in H3.
  destruct (scan_field bytes i) as [v| |j] eqn:Hf; [done..|]. exists j. split; [done|].
  split; [done|]. intros k Hk. specialize (H2 (S k) ltac:(lia)). cbn [scan_loop] in H2.
  by rewrite (proj2 (N.ltb_lt _ _) Hi), Hf in H2.
Qed.

Lemma ends_after_path bytes t i :
  ends_after bytes t i →
  ∃ l, length l = t ∧ NoDup l ∧ Forall (λ j, j < slen bytes) l ∧
    Forall (λ j, ∃ k, (1 ≤ k ≤ t)%nat ∧ ends_after bytes k j) l.
Proof.
  revert i. induction t as [|t IH]; intros i Ht; [by exists []; split_and!; constructor|].
  destruct (ends_after_S _ _ _ Ht) as [Hi [->|(j & Hf & Hj)]].
  - exists [i]. split_and!; [done|apply NoDup_singleton|by constructor|].
    constructor; [|done]. by exists 1%nat.
  - destruct (IH j Hj) as (l & Hl & Hnd & Hlt & Hk). exists (i :: l). split_and!.
    + by rewrite <-Hl.
    + constructor; [|done]. intros Hin. rewrite Forall_forall in Hk.
      destruct (Hk i Hin) as (k & Hk1 & Hk2). pose proof (ends_after_fun _ _ _ _ Ht Hk2). lia.
    + by constructor.
    + constructor; [by exists (S t); split; [lia|]|]. eapply Forall_impl; [exact Hk|].
      intros x (k & ? & ?). exists k. split; [lia|done].
Qed.

Lemma NoDup_below (l : list N) n : NoDup l → Forall (λ j, j < N.of_nat n) l → (length l ≤ n)%nat.
Proof.
  intros Hnd Hl. rewrite <-(length_seq n 0), <-(length_fmap N.to_nat l).
  assert (Inj (=) (=) N.to_nat) as Hinj by (intros a b; lia).
  apply submseteq_length, NoDup_submseteq; [by apply NoDup_fmap_2|].
  intros x (j & -> & Hj)%list_elem_of_fmap. rewrite Forall_forall in Hl.
  specialize (Hl j Hj). apply elem_of_seq. lia.
Qed.

Lemma scan_loop_least fuel bytes i :
  scan_loop fuel bytes i ≠ None → ∃ t, (t ≤ fuel)%nat ∧ ends_after bytes t i.
Proof.
  induction fuel as [fuel IH] using lt_wf_ind. intros Hf.
  destruct (decide (Forall (λ k, scan_loop k bytes i = None) (seq 0 fuel))) as [Ha|Hn].
  - exists fuel. split; [done|]. split; [done|]. intros k Hk. rewrite Forall_forall in Ha.
    apply Ha, elem_of_seq. lia.
  - apply not_Forall_Exists in Hn; [|apply _]. apply Exists_exists in Hn as (k & Hk & Hne).
    apply elem_of_seq in Hk. destruct (IH k ltac:(lia) Hne) as (t & ? & ?). exists t. split; [lia|done].
Qed.

Lemma scan_loop_mono fuel fuel' bytes i r :
  (fuel ≤ fuel')%nat → scan_loop fuel bytes i = Some r → scan_loop fuel' bytes i = Some r.
Proof.
  revert fuel' i. induction fuel as [|fuel IH]; intros fuel' i Hle H; cbn [scan_loop] in H.
  - destruct (i <? slen bytes) eqn:Hi; [done|]. destruct fuel'; cbn [scan_loop]; by rewrite Hi.
  - destruct fuel' as [|fuel']; [lia|]. cbn [scan_loop].
    destruct (i <? slen bytes); [|done]. destruct (scan_field bytes i); [done..|].
    apply IH; [lia|done].
Qed.

(** The fuel given by [extract_version] runs out only when every fuel does. *)
Lemma scan_loop_diverges bytes i :
  scan_loop (S (String.length bytes)) bytes i = None → ∀ fuel, scan_loop fuel bytes i = None.
Proof.
  intros Hn fuel. destruct (scan_loop fuel bytes i) as [r|] eqn:Hf; [|done]. exfalso.
  destruct (scan_loop_least fuel bytes i) as (t & Ht & He); [by rewrite Hf|].
  destruct (ends_after_path _ _ _ He) as (l & <- & Hnd & Hlt & _).
  pose proof (NoDup_below l (String.length bytes) Hnd Hlt) as Hlen.
  destruct He as [He _]. destruct (scan_loop (length l) bytes i) as [r'|] eqn:Hl; [|done].
  apply (scan_loop_mono _ (S (String.length bytes))) in Hl; [congruence|lia].
Qed.

(** ** Properties *)

(** On a protobuf message the version read for the compare-and-swap is the
    value of field 9, whatever precedes it (varint, fixed and length-delimited
    fields with one-byte tags) and whatever follows. *)
Theorem extract_version_protobuf (fs : list (N * wire)) (v : N) (rest : string)
    (Hfs : Forall (λ f, field_ok f = true) fs)
    (Hlen : slen (encode_fields fs) < 2 ^ 63) (Hv : v < U64_MOD) :
  extract_version (encode_fields fs +:+ encode_field (9, WVarint v) +:+ rest)
    = Some (wrap32 v).
Proof.
  unfold extract_version. set (bytes := encode_fields fs +:+ _).
  assert (scan_loop (length fs + 1) bytes 0 = Some (Some (wrap32 v))) as Hscan.
  { pose proof (scan_loop_fields 1 "" fs (encode_field (9, WVarint v) +:+ rest) Hfs Hlen) as H.
    change (slen "") with 0 in H. rewrite !sapp_nil_l, N.add_0_l in H. fold bytes in H.
    rewrite H. cbn [scan_loop]. rewrite (proj2 (N.ltb_lt _ _)).
    2:{ unfold bytes. rewrite !slen_sapp. unfold encode_field. rewrite slen_cons. lia. }
    unfold bytes. by rewrite scan_version_field. }
  apply (scan_loop_mono _ (S (String.length bytes))) in Hscan; [by rewrite Hscan|].
  unfold bytes. rewrite slen_app. pose proof (encode_fields_length fs). lia.
Qed.

Lemma extract_version_protobuf_witness :
  extract_version
    (encode_fields [(1, WBytes "/docs/a"); (4, WVarint 300); (8, WBytes "2026-01-01")]
      +:+ encode_field (9, WVarint 1025) +:+ "tail") = Some 1025.
Proof.
  apply (extract_version_protobuf
    [(1, WBytes "/docs/a"); (4, WVarint 300); (8, WBytes "2026-01-01")] 1025 "tail").
  - repeat constructor.
  - by vm_compute.
  - by vm_compute.
Defined.

(** A length-delimited field whose ten-byte length is [2^64 - 11]. *)
Definition wrapping_value : string :=
  String "010" (String "245" (String "255" (String "255" (String "255" (String "255"
    (String "255" (String "255" (String "255" (String "255" (String "001" "")))))))))).

(** A stored value can make the version scan run forever: the length prefix
    wraps the index back to the start of the value, so no number of iterations
    ends the loop. *)
Theorem extract_version_can_hang :
  extract_version wrapping_value = None ∧ ∀ fuel, scan_loop fuel wrapping_value 0 = None.
Proof.
  split; [by vm_compute|]. apply scan_loop_diverges. by vm_compute.
Qed.
