(* ===== verification/Records.v ===== *)
(** * Versioned, protected and guarded records

    src/rust/raft/src/raft/state_machine/conditional_metadata.rs,
    protected_metadata.rs, record_guard.rs and record_guard/io.rs: content
    revisions, the conditional-only policy and the owner fence, all kept as
    rows of [sm_control_state] under the namespace [content-version-v1] and
    changed inside the transaction that changes the record. *)

From S2P Require Import Prelude Bytes Codec Table LockState Command.

(** ** Paths (src/rust/kernel/src/kernel/mod.rs) *)

(** [validate_path_fast]; the error is the text of [KernelError::InvalidPath]. *)
Definition validate_path_fast (path : string) : result string () :=
  if decide (path = "") then Err "invalid path: Path cannot be empty"
  else if negb (starts_with "/" path) then Err "invalid path: Path must start with /"
  else if scontains "000" path then Err "invalid path: Path contains null byte"
  else if bool_decide (".." ∈ ssplit "/" path)
  then Err "invalid path: Path contains parent directory reference (..)"
  else Ok ().

(** ** Keys and constants *)

Definition ALLOCATOR : string := "allocator".
Definition PATH_PREFIX : string := "path:".
Definition TOKEN_LEN : nat := 24.
Definition POLICY_PREFIX : string := "protected:".
Definition CONDITIONAL_ONLY : string := "conditional-only-v1".
Definition RECORD_OWNER : string := "record-owner-v1".
Definition RECORD_IO_OWNER : string := "record-owner-io-v1".
Definition GUARDED_RECORDS : string := "guarded-records-v1".
Definition RECORD_IO : string := "guarded-record-io-v1".
Definition REQUIREMENT : string := "requires:protected-records-v1".
Definition BINDING_PREFIX : string := "guard:".
Definition RETIRED_PREFIX : string := "retired-guard:".

Definition allocator_key : string := control_key NAMESPACE ALLOCATOR.
Definition revision_key (path : string) : string := control_key NAMESPACE (PATH_PREFIX +:+ path).
Definition policy_key (path : string) : string := control_key NAMESPACE (POLICY_PREFIX +:+ path).
Definition requirement_key : string := control_key NAMESPACE REQUIREMENT.
Definition record_control_key (prefix path : string) : string :=
  control_key NAMESPACE (prefix +:+ path).

Definition storage_error (error : string) : RaftError :=
  Storage ("conditional metadata: " +:+ error).

(** ** Conditional metadata *)

Definition versioned_image (value version : option string) : Result VersionedMetadata :=
  match value with
  | None => Ok versioned_default
  | Some _ =>
      match version with
      | None => Err (UnsupportedOperation "metadata key has no committed content revision")
      | Some v =>
          if String.length v =? TOKEN_LEN then Ok (mkVersioned value version)
          else Err (storage_error "invalid committed content revision")
      end
  end.

Definition require_managed_key (key : string) : Result () :=
  if is_managed_key key then Ok ()
  else Err (UnsupportedOperation "conditional content outside the managed metadata subtree").

Definition metadata_in_txn (key : string) : txn (option string) := get_meta key.
Definition revision_in_txn (key : string) : txn (option string) := get_ctrl (revision_key key).

Definition allocate_revision (key : string) (initial : option string) : txn string :=
  previous ← get_ctrl allocator_key;
  token ← match previous with
          | Some token =>
              if String.length token =? TOKEN_LEN then mret token
              else fail (storage_error "invalid revision allocator")
          | None =>
              match initial with
              | Some incarnation => mret (incarnation +:+ u64_to_be 0)
              | None => fail (storage_error "missing allocator")
              end
          end;
  let counter := be_val (sdrop 16 token) in
  if (counter =? U64_MAX)%N then fail (storage_error "content revision space exhausted")
  else
    let token := stake 16 token +:+ u64_to_be (counter + 1) in
    put_ctrl allocator_key token;;
    put_ctrl (revision_key key) token;;
    mret token.

Definition refresh_tracked_version (key : string) : txn bool :=
  if negb (is_managed_key key) then mret false
  else
    revision ← revision_in_txn key;
    match revision with
    | Some _ => allocate_revision key None;; mret true
    | None => mret false
    end.

(** ** Protected metadata *)

Definition decode_policy (value : option string) : Result bool :=
  match value with
  | None => Ok false
  | Some v =>
      if bool_decide (v = CONDITIONAL_ONLY ∨ v = RECORD_OWNER ∨ v = RECORD_IO_OWNER)
      then Ok true else Err (Storage "invalid protected metadata policy")
  end.

Definition decode_requirement (value : option string) : Result bool :=
  match value with
  | None => Ok false
  | Some v =>
      if bool_decide (v = CONDITIONAL_ONLY ∨ v = GUARDED_RECORDS ∨ v = RECORD_IO)
      then Ok true else Err (storage_error "unsupported protected-record storage format")
  end.

Inductive MembershipPolicy := Managed | FixedLocal.

#[global] Instance MembershipPolicy_eq_dec : EqDecision MembershipPolicy.
Proof. solve_decision. Defined.

Definition validate_policy (required : bool) (policy : MembershipPolicy) : Result () :=
  if required && bool_decide (policy ≠ FixedLocal)
  then Err (Config "protected records require qualified fixed-local storage")
  else Ok ().

Definition record_policy_in_txn (path : string) : txn (option string) := get_ctrl (policy_key path).

Definition protected_in_txn (path : string) : txn bool :=
  policy ← record_policy_in_txn path;
  lift (decode_policy policy).

Definition ordinary_metadata_refusal (path : string) : txn (option CommandResult) :=
  protected ← protected_in_txn path;
  mret (if (protected : bool)
        then Some (Error "protected metadata requires a conditional write") else None).

Definition is_record_owner_in_txn (path : string) : txn bool :=
  policy ← record_policy_in_txn path;
  mret (bool_decide (policy = Some RECORD_OWNER ∨ policy = Some RECORD_IO_OWNER)).

Definition mark_record_owner_in_txn (path : string) : txn () :=
  policy ← record_policy_in_txn path;
  put_ctrl (policy_key path)
    (if decide (policy = Some RECORD_IO_OWNER) then RECORD_IO_OWNER else RECORD_OWNER).

Definition require_record_format_in_txn (guarded : bool) : txn () :=
  current ← get_ctrl requirement_key;
  lift (decode_requirement current);;
  put_ctrl requirement_key
    (if decide (current = Some RECORD_IO) then RECORD_IO
     else if guarded || bool_decide (current = Some GUARDED_RECORDS) then GUARDED_RECORDS
     else CONDITIONAL_ONLY).

Definition mark_record_io_owner_in_txn (path : string) : txn () :=
  require_record_format_in_txn true;;
  put_ctrl (policy_key path) RECORD_IO_OWNER;;
  put_ctrl requirement_key RECORD_IO.

Definition adopt_protected_in_txn (key : string) (expected_image : option string)
    (incarnation : string) : txn CommandResult :=
  value ← metadata_in_txn key;
  protected ← protected_in_txn key;
  if (protected : bool) then mret (ProtectedMetadata true)
  else if decide (value = expected_image) then
    match value with
    | Some _ => allocate_revision key (Some incarnation);; mret ()
    | None => mret ()
    end;;
    put_ctrl (policy_key key) CONDITIONAL_ONLY;;
    require_record_format_in_txn false;;
    mret (ProtectedMetadata true)
  else mret (ProtectedMetadata false).

(** [write_versioned_in_txn] of conditional_metadata.rs. *)
Definition write_versioned_in_txn (key value : string) (expected : option string)
    (incarnation : string) : txn CommandResult :=
  admitted ← (if is_managed_key key then mret true else protected_in_txn key);
  if negb admitted then mret ConditionalMetadataUnsupported
  else
    current ← metadata_in_txn key;
    version ← revision_in_txn key;
    if bool_decide (current ≠ None) && bool_decide (version = None)
    then mret ConditionalMetadataUnsupported
    else
      current ← lift (versioned_image current version);
      if decide (vm_version current = expected) then
        version ← allocate_revision key (Some incarnation);
        put_meta key value;;
        mret (ConditionalMetadata true (mkVersioned (Some value) (Some version)))
      else mret (ConditionalMetadata false current).

(** ** Record guards *)

Definition record_control_in_txn (prefix path : string) : txn (option string) :=
  get_ctrl (record_control_key prefix path).
Definition put_record_control_in_txn (prefix path value : string) : txn () :=
  put_ctrl (record_control_key prefix path) value.

(** [&&] of the source stops at the first [false]. *)
Definition live_record_guard_in_txn (guard_key expected : string) : txn bool :=
  protected ← protected_in_txn guard_key;
  if negb protected then mret false else
  retired ← record_control_in_txn RETIRED_PREFIX guard_key;
  if bool_decide (retired ≠ None) then mret false else
  image ← metadata_in_txn guard_key;
  if bool_decide (image = None) then mret false else
  revision ← revision_in_txn guard_key;
  mret (bool_decide (revision = Some expected)).

Definition not_live : CommandResult := Error "record owner handle is not live".

Definition guarded_record_refusal (guard_version : string) (mutation : GuardedRecordMutation) :
    txn (option CommandResult) :=
  match mutation_key mutation with
  | None => mret (Some (Error "unsupported guarded record mutation"))
  | Some key =>
      binding ← record_control_in_txn BINDING_PREFIX key;
      match binding with
      | None => mret (Some (Error "record has no admitted owner"))
      | Some binding =>
          match from_utf8 binding with
          | None => fail (storage_error "invalid utf-8")
          | Some guard_key =>
              live ← live_record_guard_in_txn guard_key guard_version;
              mret (if (live : bool) then None else Some not_live)
          end
      end
  end.

Definition malformed_wal_prefix (c : Command) : bool :=
  match record_stream_prefix c with
  | Some prefix => starts_with WAL_STREAM_KEY_PREFIX prefix && negb (ends_with "/" prefix)
  | None => false
  end.

(** [record_guard_refusal] for commands that carry no owner handle. *)
Definition unguarded_refusal (c : Command) : txn (option CommandResult) :=
  if malformed_wal_prefix c then mret (Some (Error "invalid WAL stream prefix"))
  else
    match guarded_record_key c with
    | None => mret None
    | Some key =>
        retired ← record_control_in_txn RETIRED_PREFIX key;
        if bool_decide (retired ≠ None)
        then mret (Some (Error "record owner is permanently retired"))
        else
          binding ← record_control_in_txn BINDING_PREFIX key;
          mret (if bool_decide (binding ≠ None)
                then Some (Error "record mutation requires its owner handle") else None)
    end.

Definition record_guard_refusal (c : Command) : txn (option CommandResult) :=
  match c with
  | GuardedRecord guard_version mutation => guarded_record_refusal guard_version mutation
  | _ => unguarded_refusal c
  end.

Definition bind_record_guard_in_txn (key : string) (expected_image : option string)
    (guard_key guard_version incarnation : string) : txn CommandResult :=
  match validate_path_fast key, validate_path_fast guard_key with
  | Err error, _ => mret (Error error)
  | Ok _, Err error => mret (Error error)
  | Ok _, Ok _ =>
      bad ← (if decide (key = guard_key) then mret true else
             bound ← record_control_in_txn BINDING_PREFIX guard_key;
             if bool_decide (bound ≠ None) then mret true else
             live ← live_record_guard_in_txn guard_key guard_version;
             mret (negb live));
      if (bad : bool) then mret not_live
      else
        owner ← (owner ← is_record_owner_in_txn key;
                 if (owner : bool) then mret true else
                 retired ← record_control_in_txn RETIRED_PREFIX key;
                 mret (bool_decide (retired ≠ None)));
        if (owner : bool) then mret (Error "record owner cannot become a guarded record")
        else
          binding ← record_control_in_txn BINDING_PREFIX key;
          match binding with
          | Some binding =>
              mret (if decide (binding = guard_key) then Success
                    else Error "record already belongs to a different owner")
          | None =>
              image ← metadata_in_txn key;
              if decide (image = expected_image) then
                adopt_protected_in_txn key expected_image incarnation;;
                mark_record_owner_in_txn guard_key;;
                require_record_format_in_txn true;;
                put_record_control_in_txn BINDING_PREFIX key guard_key;;
                mret Success
              else mret (Error "record changed before owner admission")
          end
  end.

Definition retire_record_guard_in_txn (key expected terminal_image incarnation : string) :
    txn CommandResult :=
  bad ← (bound ← record_control_in_txn BINDING_PREFIX key;
         if bool_decide (bound ≠ None) then mret true else
         live ← live_record_guard_in_txn key expected;
         mret (negb live));
  if (bad : bool) then mret not_live
  else
    result ← write_versioned_in_txn key terminal_image (Some expected) incarnation;
    mark_record_owner_in_txn key;;
    require_record_format_in_txn true;;
    match result with
    | ConditionalMetadata true current =>
        match vm_version current with
        | Some version => put_record_control_in_txn RETIRED_PREFIX key version
        | None => fail (storage_error "retired owner has no revision")
        end
    | _ => fail (storage_error "qualified retirement did not commit")
    end;;
    mret result.

Definition admit_record_io_in_txn (owner expected : string) : txn CommandResult :=
  match validate_path_fast owner with
  | Err error => mret (Error error)
  | Ok _ =>
      bad ← (bound ← record_control_in_txn BINDING_PREFIX owner;
             if bool_decide (bound ≠ None) then mret true else
             live ← live_record_guard_in_txn owner expected;
             mret (negb live));
      if (bad : bool) then mret not_live
      else mark_record_io_owner_in_txn owner;; mret Success
  end.

(** ** Reads *)

Section reads.
Variable db : Db.

Definition is_protected_metadata (path : string) : Result bool :=
  decode_policy (control_state db !! policy_key path).

Definition versioned_metadata_in_read (key : string) : Result VersionedMetadata :=
  protected ← (if is_managed_key key then Ok true else is_protected_metadata key);
  (if (protected : bool) then Ok () else require_managed_key key);;
  versioned_image (metadata db !! key) (control_state db !! revision_key key).

Definition get_versioned_metadata (key : string) : Result VersionedMetadata :=
  versioned_metadata_in_read key.

Definition validate_protected_storage_policy (policy : MembershipPolicy) : Result () :=
  required ← decode_requirement (control_state db !! requirement_key);
  validate_policy required policy.

Definition ordinary_write_is_protected (c : Command) : Result bool :=
  match ordinary_metadata_key c with
  | None => Ok false
  | Some path => is_protected_metadata path
  end.

(** The paths under policy; the source collects them into a [HashSet]. *)
Fixpoint collect_policies (prefix : string) (rows : list (string * string)) :
    Result (list string) :=
  match rows with
  | [] => Ok []
  | (key, value) :: rows =>
      decode_policy (Some value);;
      match from_utf8 (sdrop (String.length prefix) key) with
      | None => Err (storage_error "invalid utf-8")
      | Some path => paths ← collect_policies prefix rows; mret (path :: paths)
      end
  end.

Definition protected_metadata_paths : Result (list string) :=
  let prefix := policy_key "" in
  collect_policies prefix (scan_prefix prefix (control_state db)).

Definition is_record_io_owner_in_read (path : string) : bool :=
  bool_decide (control_state db !! policy_key path = Some RECORD_IO_OWNER).

(** The returned domain is the owner; the native directory beside it is local
    storage identity. *)
Definition live_record_io_domain (record expected : string) : Result string :=
  owner ← match control_state db !! record_control_key BINDING_PREFIX record with
          | Some binding =>
              match from_utf8 binding with
              | Some owner => Ok owner
              | None => Err (storage_error "invalid utf-8")
              end
          | None =>
              if is_record_io_owner_in_read record then Ok record
              else Err (UnsupportedOperation "record has no owner binding")
          end;
  if negb (is_record_io_owner_in_read owner)
  then Err (UnsupportedOperation "record owner I/O is not enrolled")
  else
    image ← versioned_metadata_in_read owner;
    if bool_decide (vm_version image ≠ Some expected)
      || bool_decide (control_state db !! record_control_key RETIRED_PREFIX owner ≠ None)
    then Err (InvalidState "record owner handle is not live")
    else Ok owner.

Definition retired_record_io_domain (owner terminal_version : string) : Result string :=
  if negb (is_record_io_owner_in_read owner)
  then Err (UnsupportedOperation "record owner I/O is not enrolled")
  else
    image ← versioned_metadata_in_read owner;
    if bool_decide (vm_version image ≠ Some terminal_version)
      || bool_decide (control_state db !! record_control_key RETIRED_PREFIX owner
                      ≠ Some terminal_version)
    then Err (InvalidState "record owner is not retired at the expected revision")
    else Ok owner.
End reads.
