(* ===== verification/RecordProofs.v ===== *)
(** * Records: every operation is safe

    A triple [safe m db Q] says that the transaction [m] started on [db] returns
    with [Q], unless the 2^64 revision counter is exhausted; in particular it
    never takes one of the storage-error exits that would panic the node.  The
    lemmas below establish, for each record operation, that it keeps the
    control-row invariant, evolves the records and lets images change only
    together with their revision. *)

From S2P Require Import Prelude Bytes Codec Table LockState Command Records.

(** ** The reserved control rows: key space, invariant and evolution

    The rows of [sm_control_state] under [content-version-v1] carry the
    revision allocator, the revisions, the protection policies, the storage
    requirement, the owner bindings and the retirement marks.  This file gives
    them a typed view, the invariant the apply path keeps on them, the relation
    every committed command satisfies between the trees before and after it,
    and the effect of the revision allocator. *)

(** ** Typed rows *)

Inductive crow :=
  | CAlloc
  | CReq
  | CRev (path : string)
  | CPol (path : string)
  | CBind (path : string)
  | CRet (path : string)
  | CUser (namespace key : string).

#[global] Instance crow_eq_dec : EqDecision crow.
Proof. solve_decision. Defined.

Definition crow_key (r : crow) : string :=
  match r with
  | CAlloc => allocator_key
  | CReq => requirement_key
  | CRev p => revision_key p
  | CPol p => policy_key p
  | CBind p => record_control_key BINDING_PREFIX p
  | CRet p => record_control_key RETIRED_PREFIX p
  | CUser ns key => control_key ns key
  end.

(** A namespace as the callers use them: without the separator byte. *)
Definition namespace_ok (ns : string) : Prop := scontains "000" ns = false.

Definition crow_ok (r : crow) : Prop :=
  match r with CUser ns _ => namespace_ok ns ∧ ns ≠ NAMESPACE | _ => True end.

Lemma control_key_inj ns ns' k k' :
  namespace_ok ns → namespace_ok ns' → control_key ns k = control_key ns' k' → ns = ns' ∧ k = k'.
Proof.
  unfold namespace_ok, control_key. revert ns'.
  induction ns as [|a ns IH]; intros [|b ns'] H H' He;
    rewrite ?sapp_cons, ?sapp_nil_l in He; simpl in H, H'.
  - by injection He as ->.
  - by injection He as <- He.
  - by injection He as -> He.
  - injection He as -> He. apply orb_false_iff in H as [_ H], H' as [_ H'].
    by destruct (IH ns') as [-> ->].
Qed.

Lemma crow_key_inj r r' : crow_ok r → crow_ok r' → crow_key r = crow_key r' → r = r'.
Proof.
  assert (namespace_ok NAMESPACE) as Hns by done.
  destruct r, r'; cbn [crow_ok crow_key]; intros Hr Hr' He;
    unfold allocator_key, requirement_key, revision_key, policy_key, record_control_key in He;
    apply control_key_inj in He as [Hn Hk]; try done; try naive_solver;
    try discriminate Hk; try (simpl in Hk; by simplify_eq).
Qed.

Lemma crow_lookup_insert (m : gmap string string) r r' v :
  crow_ok r → crow_ok r' →
  <[crow_key r := v]> m !! crow_key r' = if decide (r = r') then Some v else m !! crow_key r'.
Proof.
  intros Hr Hr'. case_decide as Hd; [subst; by rewrite lookup_insert_eq|].
  apply lookup_insert_ne. intros He. by apply Hd, crow_key_inj.
Qed.

Lemma crow_lookup_delete (m : gmap string string) r r' :
  crow_ok r → crow_ok r' →
  delete (crow_key r) m !! crow_key r' = if decide (r = r') then None else m !! crow_key r'.
Proof.
  intros Hr Hr'. case_decide as Hd; [subst; by rewrite lookup_delete_eq|].
  apply lookup_delete_ne. intros He. by apply Hd, crow_key_inj.
Qed.

(** ** Accessors *)

Definition crow_at (db : Db) (r : crow) : option string := control_state db !! crow_key r.

Abbreviation alloc db := (crow_at db CAlloc).
Abbreviation req db := (crow_at db CReq).
Abbreviation rev db k := (crow_at db (CRev k)).
Abbreviation pol db k := (crow_at db (CPol k)).
Abbreviation bind db k := (crow_at db (CBind k)).
Abbreviation ret db k := (crow_at db (CRet k)).

(** The counter part of a token. *)
Definition cnt (token : string) : N := be_val (sdrop 16 token).
Definition counter (db : Db) : N := match alloc db with Some t => cnt t | None => 0%N end.

Definition is_owner (policy : option string) : Prop :=
  policy = Some RECORD_OWNER ∨ policy = Some RECORD_IO_OWNER.

Record ctrl_inv (db : Db) : Prop := {
  inv_alloc : ∀ t, alloc db = Some t → String.length t = TOKEN_LEN;
  inv_rev : ∀ k v, rev db k = Some v →
    String.length v = TOKEN_LEN ∧ alloc db ≠ None ∧ (cnt v ≤ counter db)%N;
  inv_uniq : ∀ k k' v, rev db k = Some v → rev db k' = Some v → k = k';
  inv_scope : ∀ k, rev db k ≠ None → is_managed_key k = true ∨ pol db k ≠ None;
  inv_pol : ∀ k p, pol db k = Some p →
    (p = CONDITIONAL_ONLY ∨ p = RECORD_OWNER ∨ p = RECORD_IO_OWNER) ∧ req db ≠ None;
  inv_req : ∀ r, req db = Some r → r = CONDITIONAL_ONLY ∨ r = GUARDED_RECORDS ∨ r = RECORD_IO;
  inv_bind : ∀ k g, bind db k = Some g →
    is_utf8 g = true ∧ pol db k = Some CONDITIONAL_ONLY ∧ is_owner (pol db g);
  inv_ret : ∀ k v, ret db k = Some v →
    is_owner (pol db k) ∧ rev db k = Some v ∧ metadata db !! k ≠ None }.

(** What a committed command may do to the records. *)
Record evolves (db db' : Db) : Prop := {
  ev_alloc : ∀ t, alloc db = Some t →
    ∃ t', alloc db' = Some t' ∧ stake 16 t' = stake 16 t ∧ (cnt t ≤ cnt t')%N;
  ev_rev : ∀ k v, rev db k = Some v →
    ∃ v', rev db' k = Some v' ∧ (v' = v ∨ (counter db < cnt v')%N);
  ev_pol : ∀ k, pol db k ≠ None → pol db' k ≠ None;
  ev_owner : ∀ k, is_owner (pol db k) → is_owner (pol db' k);
  ev_bind : ∀ k g, bind db k = Some g → bind db' k = Some g;
  ev_ret : ∀ k v, ret db k = Some v → ret db' k = Some v ∧ rev db' k = rev db k }.

(** The images of versioned records change only with their revision. *)
Definition images_follow (db db' : Db) : Prop :=
  ∀ k v, k ≠ KEY_LAST_APPLIED → rev db k = Some v → rev db' k = Some v →
    metadata db' !! k = metadata db !! k.

Lemma ctrl_inv_empty : ctrl_inv db_empty.
Proof. split; unfold crow_at; cbn; intros; rewrite ?lookup_empty in *; done. Qed.

Lemma owner_not_conditional p : is_owner p → p ≠ Some CONDITIONAL_ONLY.
Proof. by intros [->| ->]. Qed.

Lemma owner_protected p : is_owner p → p ≠ None.
Proof. by intros [->| ->]. Qed.

Lemma inv_bound_not_retired db k g v : ctrl_inv db → bind db k = Some g → ret db k = Some v → False.
Proof.
  intros Hi Hb Hr. destruct (inv_bind _ Hi _ _ Hb) as (_ & Hp & _).
  destruct (inv_ret _ Hi _ _ Hr) as (Ho & _). by apply owner_not_conditional in Ho.
Qed.

Lemma inv_unprotected_not_retired db k : ctrl_inv db → pol db k = None → ret db k = None.
Proof.
  intros Hi Hp. destruct (ret db k) as [v|] eqn:Hr; [|done].
  destruct (inv_ret _ Hi _ _ Hr) as (Ho & _). by apply owner_protected in Ho.
Qed.

(** ** Order of evolution *)

Lemma evolves_refl db : evolves db db.
Proof. split; naive_solver lia. Qed.

Lemma evolves_counter db db' : evolves db db' → (counter db ≤ counter db')%N.
Proof.
  intros He. unfold counter. destruct (alloc db) as [t|] eqn:Ht; [|lia].
  by destruct (ev_alloc _ _ He _ Ht) as (t' & -> & _ & ?).
Qed.

Lemma evolves_trans db1 db2 db3 : evolves db1 db2 → evolves db2 db3 → evolves db1 db3.
Proof.
  intros H1 H2. pose proof (evolves_counter _ _ H1) as Hc. split.
  - intros t Ht. destruct (ev_alloc _ _ H1 _ Ht) as (t' & Ht' & Hs & Hle).
    destruct (ev_alloc _ _ H2 _ Ht') as (t'' & Ht'' & Hs' & Hle').
    exists t''. split_and!; [done|congruence|lia].
  - intros k v Hv. destruct (ev_rev _ _ H1 _ _ Hv) as (v' & Hv' & Hcase).
    destruct (ev_rev _ _ H2 _ _ Hv') as (v'' & Hv'' & Hcase'). exists v''. split; [done|].
    destruct Hcase' as [->|]; [done|]. right. lia.
  - intros k Hk. by apply (ev_pol _ _ H2), (ev_pol _ _ H1).
  - intros k Hk. by apply (ev_owner _ _ H2), (ev_owner _ _ H1).
  - intros k g Hk. by apply (ev_bind _ _ H2), (ev_bind _ _ H1).
  - intros k v Hk. destruct (ev_ret _ _ H1 _ _ Hk) as [Hk' Hr].
    destruct (ev_ret _ _ H2 _ _ Hk') as [Hk'' Hr']. split; [done|congruence].
Qed.

(** A revision that came back was never replaced. *)
Lemma evolves_rev_between db1 db2 db3 k v :
  ctrl_inv db1 → evolves db1 db2 → evolves db2 db3 →
  rev db1 k = Some v → rev db3 k = Some v → rev db2 k = Some v.
Proof.
  intros Hi H1 H2 Hv Hv3. pose proof (evolves_counter _ _ H1) as Hc.
  destruct (inv_rev _ Hi _ _ Hv) as (_ & _ & Hle).
  destruct (ev_rev _ _ H1 _ _ Hv) as (v2 & Hv2 & Hcase). rewrite Hv2. f_equal.
  destruct Hcase as [|Hlt]; [done|]. exfalso.
  destruct (ev_rev _ _ H2 _ _ Hv2) as (v3 & Hv3' & [->|Hlt']); simplify_eq; lia.
Qed.

Lemma images_follow_trans db1 db2 db3 :
  ctrl_inv db1 → evolves db1 db2 → evolves db2 db3 →
  images_follow db1 db2 → images_follow db2 db3 → images_follow db1 db3.
Proof.
  intros Hi H1 H2 Hm1 Hm2 k v Hk Hv Hv3.
  pose proof (evolves_rev_between _ _ _ _ _ Hi H1 H2 Hv Hv3) as Hv2.
  rewrite (Hm2 k v), (Hm1 k v) by done. done.
Qed.

(** ** Triples *)

Definition exhausted : RaftError := storage_error "content revision space exhausted".

Definition safe {A} (m : txn A) (db : Db) (Q : A → Db → Prop) : Prop :=
  match m db with
  | Ok (a, db') => Q a db'
  | Err (Failed e) => e = exhausted
  | Err Diverged => False
  end.

Lemma safe_mono {A} (m : txn A) db (Q Q' : A → Db → Prop) :
  safe m db Q → (∀ a db', Q a db' → Q' a db') → safe m db Q'.
Proof. unfold safe. intros H HQ. destruct (m db) as [[a db']|[e|]]; auto. Qed.

Lemma safe_bind {A B} (m : txn A) (f : A → txn B) db (Q : B → Db → Prop) :
  safe m db (λ a db', safe (f a) db' Q) → safe (m ≫= f) db Q.
Proof.
  unfold safe, mbind, txn_bind. by destruct (m db) as [[a db']|[e|]].
Qed.

Lemma safe_ret {A} (a : A) db (Q : A → Db → Prop) : Q a db → safe (mret a) db Q.
Proof. done. Qed.

Lemma safe_exhausted {A} db (Q : A → Db → Prop) : safe (fail exhausted) db Q.
Proof. reflexivity. Qed.

Definition with_meta (f : gmap string string → gmap string string) (db : Db) : Db :=
  mkDb (f (metadata db)) (stream_entries db) (control_state db).
Definition with_ctrl (f : gmap string string → gmap string string) (db : Db) : Db :=
  mkDb (metadata db) (stream_entries db) (f (control_state db)).

(** Rows are set through their typed name. *)
Definition set_row (r : crow) (v : string) (db : Db) : Db := with_ctrl <[crow_key r := v]> db.

Lemma safe_get_meta k db (Q : option string → Db → Prop) :
  Q (metadata db !! k) db → safe (get_meta k) db Q.
Proof. done. Qed.
Lemma safe_put_meta k v db (Q : () → Db → Prop) :
  Q () (with_meta <[k := v]> db) → safe (put_meta k v) db Q.
Proof. done. Qed.
Lemma safe_del_meta k db (Q : () → Db → Prop) :
  Q () (with_meta (delete k) db) → safe (del_meta k) db Q.
Proof. done. Qed.
Lemma safe_get_row r db (Q : option string → Db → Prop) :
  Q (crow_at db r) db → safe (get_ctrl (crow_key r)) db Q.
Proof. done. Qed.
Lemma safe_put_row r v db (Q : () → Db → Prop) :
  Q () (set_row r v db) → safe (put_ctrl (crow_key r) v) db Q.
Proof. done. Qed.

Lemma safe_lift {A} (r : Result A) db (Q : A → Db → Prop) a :
  r = Ok a → Q a db → safe (lift r) db Q.
Proof. by intros ->. Qed.

(** ** Lookups after row updates *)

Lemma set_row_at r v db r' :
  crow_ok r → crow_ok r' →
  crow_at (set_row r v db) r' = if decide (r = r') then Some v else crow_at db r'.
Proof. apply crow_lookup_insert. Qed.

Lemma set_row_meta r v db : metadata (set_row r v db) = metadata db.
Proof. done. Qed.

Lemma with_meta_at f db r : crow_at (with_meta f db) r = crow_at db r.
Proof. done. Qed.

(** Compute lookups of rows in updated trees; the case splits on paths remain. *)
Ltac rows :=
  repeat (rewrite with_meta_at in * || rewrite set_row_meta in *
          || rewrite set_row_at in * by (exact I || assumption)).

Ltac row_cases :=
  rows; repeat (case_decide; simplify_eq).

(** A retired or bound record is protected. *)
Lemma evolves_meta f db : evolves db (with_meta f db).
Proof. destruct (evolves_refl db). by split. Qed.

(** ** The revision allocator *)

Definition alloc_put (db : Db) (k token : string) : Db :=
  set_row (CRev k) token (set_row CAlloc token db).

(** What the allocator guarantees of a new token. *)
Definition fresh_token (db : Db) (token : string) : Prop :=
  String.length token = TOKEN_LEN ∧ cnt token = (counter db + 1)%N ∧
  ∀ t, alloc db = Some t → stake 16 token = stake 16 t.

Lemma cnt_bound t : String.length t = TOKEN_LEN → (cnt t < U64_MOD)%N.
Proof.
  intros Ht. unfold cnt. apply (u64_from_be_bound (sdrop 16 t)).
  unfold u64_from_be. by rewrite slen_sdrop, Ht.
Qed.

Lemma cnt_app p n : String.length p = 16 → (n < U64_MOD)%N → cnt (p +:+ u64_to_be n) = n.
Proof.
  intros Hp Hn. unfold cnt. rewrite <-Hp, sdrop_app. by apply be_val_u64.
Qed.

Lemma safe_allocate k initial db (Q : string → Db → Prop) :
  ctrl_inv db →
  (alloc db ≠ None ∨ ∃ i, initial = Some i ∧ String.length i = 16) →
  (∀ token, fresh_token db token → Q token (alloc_put db k token)) →
  safe (allocate_revision k initial) db Q.
Proof.
  intros Hi Hinit HQ. unfold allocate_revision. apply safe_bind.
  apply (safe_get_row CAlloc).
  assert (∀ base, String.length base = TOKEN_LEN → cnt base = counter db →
    (∀ t, alloc db = Some t → stake 16 base = stake 16 t) →
    safe (let counter := be_val (sdrop 16 base) in
          if (counter =? U64_MAX)%N then fail exhausted
          else
            let token := stake 16 base +:+ u64_to_be (counter + 1) in
            put_ctrl allocator_key token;; put_ctrl (revision_key k) token;; mret token) db Q)
    as Hrest.
  { intros base Hlen Hcnt Hst. cbv zeta. fold (cnt base). rewrite Hcnt.
    destruct (counter db =? U64_MAX)%N eqn:Hne; [by apply safe_exhausted|].
    apply N.eqb_neq in Hne.
    pose proof (cnt_bound _ Hlen) as Hb. rewrite Hcnt in Hb.
    assert (String.length (stake 16 base) = 16) as Hs16 by (rewrite slen_stake, Hlen; done).
    assert (counter db + 1 < U64_MOD)%N as Hb' by (rewrite U64_MOD_MAX in *; lia).
    apply safe_bind, (safe_put_row CAlloc), safe_bind, (safe_put_row (CRev k)), safe_ret.
    apply HQ. split_and!.
    - rewrite slen_app, Hs16. unfold u64_to_be. by rewrite slen_be_bytes.
    - by rewrite cnt_app.
    - intros t Ht. rewrite <-Hs16 at 1. rewrite stake_app. by apply Hst. }
  apply safe_bind. destruct (alloc db) as [t|] eqn:Ht.
  - rewrite (inv_alloc _ Hi _ Ht). apply safe_ret. apply Hrest.
    + by apply (inv_alloc _ Hi).
    + unfold counter. by rewrite Ht.
    + naive_solver.
  - destruct Hinit as [|(i & -> & Hlen)]; [done|]. apply safe_ret. apply Hrest.
    + rewrite slen_app, Hlen. unfold u64_to_be. by rewrite slen_be_bytes.
    + rewrite cnt_app by done. unfold counter. by rewrite Ht.
    + done.
Qed.

Lemma counter_set_row r v db :
  crow_ok r → counter (set_row r v db) = if decide (r = CAlloc) then cnt v else counter db.
Proof. intros Hr. unfold counter. rows. by repeat case_decide. Qed.

Lemma counter_with_meta f db : counter (with_meta f db) = counter db.
Proof. done. Qed.

Lemma counter_alloc_put db k token : counter (alloc_put db k token) = cnt token.
Proof.
  unfold alloc_put. by rewrite counter_set_row, decide_False, counter_set_row, decide_True.
Qed.

Lemma alloc_put_at db k token r :
  crow_ok r →
  crow_at (alloc_put db k token) r =
  if decide (r = CRev k) then Some token else if decide (r = CAlloc) then Some token
  else crow_at db r.
Proof. intros Hr. unfold alloc_put. rows. repeat case_decide; by simplify_eq. Qed.

Lemma fresh_not_old db k v token :
  ctrl_inv db → fresh_token db token → rev db k = Some v → v ≠ token ∧ (cnt v ≤ cnt token)%N.
Proof.
  intros Hi (_ & Hc & _) Hv. destruct (inv_rev _ Hi _ _ Hv) as (_ & _ & Hle).
  split; [|lia]. intros ->. lia.
Qed.

(** Allocation keeps the invariant for keys in scope that are not retired. *)
Lemma alloc_put_inv db k token :
  ctrl_inv db → fresh_token db token → ret db k = None →
  is_managed_key k = true ∨ pol db k ≠ None → ctrl_inv (alloc_put db k token).
Proof.
  intros Hi Hf Hret Hscope. pose proof Hf as (Hlen & Hcnt & Hst).
  split; repeat setoid_rewrite alloc_put_at; try exact I; try done; rewrite ?counter_alloc_put.
  - intros t Ht. repeat case_decide; by simplify_eq.
  - intros k' v Hv. repeat case_decide; simplify_eq; [done|].
    destruct (inv_rev _ Hi _ _ Hv) as (? & ? & ?). split_and!; [done|done|lia].
  - intros k1 k2 v Ha Hb.
    destruct (decide (CRev k1 = CRev k)), (decide (CRev k2 = CRev k)); simplify_eq; [done|..].
    + rewrite decide_False in Hb by done. by destruct (fresh_not_old _ _ _ _ Hi Hf Hb).
    + rewrite decide_False in Ha by done. by destruct (fresh_not_old _ _ _ _ Hi Hf Ha).
    + rewrite decide_False in Ha by done. rewrite decide_False in Hb by done.
      by eapply inv_uniq.
  - intros k' Hk. repeat case_decide; simplify_eq; [done|]. by apply inv_scope.
  - intros k' p Hp. repeat case_decide; simplify_eq. by apply (inv_pol _ Hi k').
  - intros r Hr. repeat case_decide; simplify_eq. by apply (inv_req _ Hi).
  - intros k' g Hg. repeat case_decide; simplify_eq. by apply (inv_bind _ Hi).
  - intros k' v Hv. repeat case_decide; simplify_eq. by apply (inv_ret _ Hi).
Qed.

Lemma alloc_put_evolves db k token :
  ctrl_inv db → fresh_token db token → ret db k = None → evolves db (alloc_put db k token).
Proof.
  intros Hi Hf Hret. pose proof Hf as (Hlen & Hcnt & Hst).
  split; repeat setoid_rewrite alloc_put_at; try exact I; try done.
  - intros t Ht. exists token. split_and!; [done|by apply Hst|].
    unfold counter in Hcnt. rewrite Ht in Hcnt. lia.
  - intros k' v Hv. case_decide; simplify_eq.
    + exists token. split; [done|]. right. lia.
    + rewrite decide_False by done. eauto.
  - intros k' v Hk. rewrite !(decide_False (P := CRet _ = _)) by done. split; [done|].
    rewrite !decide_False; congruence.
Qed.

(** A metadata change at a key whose revision was refreshed. *)
Lemma images_follow_alloc_put db k token f :
  ctrl_inv db → fresh_token db token →
  (∀ m k', k' ≠ k → f m !! k' = m !! k' :> option string) →
  images_follow db (with_meta f (alloc_put db k token)).
Proof.
  intros Hi Hf Hm k' v _ Hv Hv'. rewrite with_meta_at, alloc_put_at in Hv' by done.
  case_decide; simplify_eq.
  - by destruct (fresh_not_old _ _ _ _ Hi Hf Hv).
  - cbn [metadata with_meta]. apply Hm. congruence.
Qed.

(** ** Setting the other rows *)

Lemma set_row_comm r r' v v' db :
  crow_ok r → crow_ok r' → r ≠ r' →
  set_row r v (set_row r' v' db) = set_row r' v' (set_row r v db).
Proof.
  intros Hr Hr' Hne. unfold set_row, with_ctrl. cbn [control_state metadata stream_entries].
  f_equal. apply insert_insert_ne. intros He. by apply Hne, crow_key_inj.
Qed.

Definition row_settable (r : crow) (v : string) (db : Db) : Prop :=
  match r with
  | CReq => v = CONDITIONAL_ONLY ∨ v = GUARDED_RECORDS ∨ v = RECORD_IO
  | CPol k =>
      req db ≠ None ∧
      ((pol db k = None ∧ v = CONDITIONAL_ONLY) ∨
       (bind db k = None ∧ (v = RECORD_OWNER ∨ v = RECORD_IO_OWNER)))
  | CBind k =>
      is_utf8 v = true ∧ bind db k = None ∧ pol db k = Some CONDITIONAL_ONLY ∧ is_owner (pol db v)
  | CRet k =>
      ret db k = None ∧ is_owner (pol db k) ∧ rev db k = Some v ∧ metadata db !! k ≠ None
  | CUser _ _ => True
  | _ => False
  end.

Ltac row_inv_setup :=
  split; rewrite ?counter_set_row by done; repeat (setoid_rewrite set_row_at; [|exact I..]);
  cbn [metadata set_row with_ctrl].

(** Close a clause about rows that the update left alone. *)
Ltac keep H := intros; repeat case_decide; simplify_eq; try done; by eapply H.

Lemma set_req_inv v db :
  ctrl_inv db → row_settable CReq v db → ctrl_inv (set_row CReq v db).
Proof.
  intros [H1 H2 H3 H4 H5 H6 H7 H8] Hs. simpl in Hs. row_inv_setup.
  - keep H1.
  - keep H2.
  - keep H3.
  - keep H4.
  - intros k p Hp. repeat case_decide; simplify_eq. by destruct (H5 k p Hp).
  - intros r Hr. repeat case_decide; by simplify_eq.
  - keep H7.
  - keep H8.
Qed.

Lemma set_pol_inv k v db :
  ctrl_inv db → row_settable (CPol k) v db → ctrl_inv (set_row (CPol k) v db).
Proof.
  intros [H1 H2 H3 H4 H5 H6 H7 H8] [Hreq Hs]. row_inv_setup.
  - keep H1.
  - keep H2.
  - keep H3.
  - intros k' Hk. repeat case_decide; simplify_eq; [by right|by apply H4].
  - intros k' p Hp. repeat case_decide; simplify_eq; [naive_solver|by apply (H5 k')].
  - keep H6.
  - intros k' g Hb. repeat case_decide; simplify_eq; destruct (H7 _ _ Hb) as (Hu & Hp & Ho);
      split_and!; try done; unfold is_owner in *; naive_solver.
  - intros k' v' Hr. repeat case_decide; simplify_eq; destruct (H8 _ _ Hr) as (Ho & Hv & Hm);
      split_and!; try done; unfold is_owner in *; naive_solver.
Qed.

Lemma set_bind_inv k v db :
  ctrl_inv db → row_settable (CBind k) v db → ctrl_inv (set_row (CBind k) v db).
Proof.
  intros [H1 H2 H3 H4 H5 H6 H7 H8] (Hu & Hb & Hp & Ho). row_inv_setup.
  - keep H1.
  - keep H2.
  - keep H3.
  - keep H4.
  - keep H5.
  - keep H6.
  - keep H7.
  - keep H8.
Qed.

Lemma set_ret_inv k v db :
  ctrl_inv db → row_settable (CRet k) v db → ctrl_inv (set_row (CRet k) v db).
Proof.
  intros [H1 H2 H3 H4 H5 H6 H7 H8] (Hn & Ho & Hv & Hm). row_inv_setup.
  - keep H1.
  - keep H2.
  - keep H3.
  - keep H4.
  - keep H5.
  - keep H6.
  - keep H7.
  - keep H8.
Qed.

(** Updates that leave the reserved rows alone. *)
Definition same_rows (db db' : Db) : Prop :=
  metadata db' = metadata db ∧
  ∀ r, crow_ok r → (∀ ns key, r ≠ CUser ns key) → crow_at db' r = crow_at db r.

Lemma same_rows_inv db db' : same_rows db db' → ctrl_inv db → ctrl_inv db'.
Proof.
  intros [Hm Hr] [H1 H2 H3 H4 H5 H6 H7 H8].
  assert (counter db' = counter db) as Hc by (unfold counter; by rewrite Hr).
  split; rewrite ?Hc, ?Hm; setoid_rewrite Hr; done.
Qed.

Lemma same_rows_evolves db db' : same_rows db db' → evolves db db'.
Proof.
  intros [Hm Hr]. pose proof (evolves_refl db) as [H1 H2 H3 H4 H5 H6].
  split; repeat setoid_rewrite Hr; done.
Qed.

Lemma same_rows_images db db' : same_rows db db' → images_follow db db'.
Proof. intros [Hm _] k v _ _ _. by rewrite Hm. Qed.

Lemma set_user_same_rows ns key v db :
  crow_ok (CUser ns key) → same_rows db (set_row (CUser ns key) v db).
Proof.
  intros Hok. split; [done|]. intros r Hr Hn. rewrite set_row_at by done.
  by rewrite decide_False by (intros <-; by eapply Hn).
Qed.

Lemma set_row_inv r v db :
  ctrl_inv db → crow_ok r → row_settable r v db → ctrl_inv (set_row r v db).
Proof.
  intros Hi Hr Hs. destruct r; try done;
    eauto using set_req_inv, set_pol_inv, set_bind_inv, set_ret_inv, same_rows_inv,
      set_user_same_rows.
Qed.

Lemma set_row_evolves r v db :
  ctrl_inv db → crow_ok r → row_settable r v db → evolves db (set_row r v db).
Proof.
  intros Hi Hr Hs. pose proof (evolves_refl db) as [E1 E2 E3 E4 E5 E6].
  destruct r as [| |k|k|k|k|ns key]; try done.
  - split; repeat (setoid_rewrite set_row_at; [|exact I..]);
      [keep E1|keep E2|keep E3|keep E4|keep E5|keep E6].
  - destruct Hs as [_ Hs].
    split; repeat (setoid_rewrite set_row_at; [|exact I..]);
      [keep E1|keep E2|keep E3| |keep E5|keep E6].
    intros k' Ho. repeat case_decide; simplify_eq; [|done]. unfold is_owner in *. naive_solver.
  - destruct Hs as (_ & Hb & _).
    split; repeat (setoid_rewrite set_row_at; [|exact I..]);
      [keep E1|keep E2|keep E3|keep E4|keep E5|keep E6].
  - destruct Hs as (Hn & _).
    split; repeat (setoid_rewrite set_row_at; [|exact I..]);
      [keep E1|keep E2|keep E3|keep E4|keep E5|keep E6].
  - by apply same_rows_evolves, set_user_same_rows.
Qed.

Lemma set_row_images r v db : images_follow db (set_row r v db).
Proof. by intros k v' _ _ _. Qed.

Lemma with_meta_inv f db :
  ctrl_inv db → (∀ k v, ret db k = Some v → f (metadata db) !! k ≠ None) → ctrl_inv (with_meta f db).
Proof. intros [H1 H2 H3 H4 H5 H6 H7 H8] Hm. split; naive_solver. Qed.

(** ** Steps *)

(** What every record operation establishes. *)
Definition steps (db db' : Db) : Prop :=
  ctrl_inv db' ∧ evolves db db' ∧ images_follow db db'.

Lemma steps_refl db : ctrl_inv db → steps db db.
Proof. intros Hi. split_and!; [done|apply evolves_refl|]. by intros k v _ _ _. Qed.

Lemma steps_trans db1 db2 db3 :
  ctrl_inv db1 → steps db1 db2 → steps db2 db3 → steps db1 db3.
Proof.
  intros Hi (Hi2 & He & Hm) (Hi3 & He' & Hm'). split_and!; [done|by eapply evolves_trans|].
  by eapply images_follow_trans.
Qed.

Lemma steps_set_row r v db :
  ctrl_inv db → crow_ok r → row_settable r v db → steps db (set_row r v db).
Proof.
  intros Hi Hr Hs. split_and!; [by apply set_row_inv|by apply set_row_evolves|apply set_row_images].
Qed.

Lemma steps_alloc_put db k token :
  ctrl_inv db → fresh_token db token → ret db k = None →
  is_managed_key k = true ∨ pol db k ≠ None → steps db (alloc_put db k token).
Proof.
  intros Hi Hf Hr Hs. split_and!; [by apply alloc_put_inv|by apply alloc_put_evolves|].
  by intros k' v _ _ _.
Qed.

(** Replacing or removing the image of a key that carries no revision. *)
Lemma steps_meta_unversioned f db k :
  ctrl_inv db → rev db k = None → (∀ m k', k' ≠ k → f m !! k' = m !! k' :> option string) →
  steps db (with_meta f db).
Proof.
  intros Hi Hk Hf. split_and!.
  - apply with_meta_inv; [done|]. intros k' v Hr. destruct (inv_ret _ Hi _ _ Hr) as (_ & Hv & Hm).
    rewrite Hf; [done|congruence].
  - apply evolves_meta.
  - intros k' v _ Hv _. cbn [metadata with_meta]. apply Hf. congruence.
Qed.

(** Replacing or removing the image of a key together with its revision. *)
Lemma steps_meta_versioned f db k token :
  ctrl_inv db → fresh_token db token → ret db k = None →
  is_managed_key k = true ∨ pol db k ≠ None →
  (∀ m k', k' ≠ k → f m !! k' = m !! k' :> option string) →
  steps db (with_meta f (alloc_put db k token)).
Proof.
  intros Hi Hfr Hr Hs Hf. destruct (steps_alloc_put _ _ _ Hi Hfr Hr Hs) as (Hi' & He & _).
  split_and!.
  - apply with_meta_inv; [done|]. intros k' v Hr'.
    rewrite alloc_put_at, !decide_False in Hr' by done.
    destruct (inv_ret _ Hi _ _ Hr') as (_ & _ & Hm). rewrite Hf; [done|congruence].
  - eapply evolves_trans; [exact He|apply evolves_meta].
  - by apply images_follow_alloc_put.
Qed.
