(* ===== verification/RecordOps.v ===== *)
(** * Record operations keep the record invariant

    For each operation of conditional_metadata.rs, protected_metadata.rs,
    record_guard.rs and record_guard/io.rs: on trees that satisfy the control
    invariant it returns (or the revision counter is exhausted), and its result
    and effect are as stated. *)

From S2P Require Import Prelude Bytes Codec Table LockState Command Records RecordProofs.

(** ** Operations *)

Lemma safe_refresh k db (Q : bool → Db → Prop) :
  ctrl_inv db →
  (is_managed_key k = false ∨ rev db k = None → Q false db) →
  (∀ token, is_managed_key k = true → rev db k ≠ None → fresh_token db token →
     Q true (alloc_put db k token)) →
  safe (refresh_tracked_version k) db Q.
Proof.
  intros Hi H1 H2. unfold refresh_tracked_version.
  destruct (is_managed_key k) eqn:Hk; simpl; [|apply safe_ret; auto].
  apply safe_bind, (safe_get_row (CRev k)).
  destruct (rev db k) as [v|] eqn:Hv; [|apply safe_ret; auto].
  apply safe_bind, safe_allocate; [done| |].
  - left. by destruct (inv_rev _ Hi _ _ Hv) as (_ & ? & _).
  - intros token Hf. apply safe_ret. by apply H2.
Qed.

Lemma safe_protected k db (Q : bool → Db → Prop) :
  ctrl_inv db → Q (bool_decide (pol db k ≠ None)) db → safe (protected_in_txn k) db Q.
Proof.
  intros Hi HQ. unfold protected_in_txn, record_policy_in_txn.
  apply safe_bind, (safe_get_row (CPol k)).
  destruct (pol db k) as [p|] eqn:Hp; (eapply safe_lift; [|exact HQ]); [|done].
  unfold decode_policy. rewrite bool_decide_eq_true_2; [done|]. by apply (inv_pol _ Hi k).
Qed.

Lemma safe_ordinary k db (Q : option CommandResult → Db → Prop) :
  ctrl_inv db → (pol db k = None → Q None db) →
  (∀ e, pol db k ≠ None → Q (Some (Error e)) db) →
  safe (ordinary_metadata_refusal k) db Q.
Proof.
  intros Hi H1 H2. apply safe_bind, safe_protected; [done|]. apply safe_ret.
  case_bool_decide as Hb; [by apply H2|].
  apply H1. by destruct (pol db k); [destruct Hb|].
Qed.

(** The handle [expected] of the owner [g] is usable. *)
Definition live_guard (db : Db) (g expected : string) : Prop :=
  pol db g ≠ None ∧ ret db g = None ∧ metadata db !! g ≠ None ∧ rev db g = Some expected.

Lemma safe_live g expected db (Q : bool → Db → Prop) :
  ctrl_inv db → (live_guard db g expected → Q true db) →
  (¬ live_guard db g expected → Q false db) →
  safe (live_record_guard_in_txn g expected) db Q.
Proof.
  intros Hi H1 H2. unfold live_guard in *.
  apply safe_bind, safe_protected; [done|]. case_bool_decide; [|apply safe_ret; naive_solver].
  apply safe_bind, (safe_get_row (CRet g)).
  case_bool_decide as Hret; [apply safe_ret; naive_solver|].
  apply safe_bind, safe_get_meta. case_bool_decide; [apply safe_ret; naive_solver|].
  apply safe_bind, (safe_get_row (CRev g)), safe_ret.
  case_bool_decide; [apply H1|apply H2; naive_solver].
  by split_and!.
Qed.

Lemma safe_require_format guarded db (Q : () → Db → Prop) :
  (∀ r, req db = Some r → r = CONDITIONAL_ONLY ∨ r = GUARDED_RECORDS ∨ r = RECORD_IO) →
  (∀ v, row_settable CReq v db → Q () (set_row CReq v db)) →
  safe (require_record_format_in_txn guarded) db Q.
Proof.
  intros Hi HQ. apply safe_bind, (safe_get_row CReq), safe_bind.
  assert (∃ b, decode_requirement (req db) = Ok b) as [b Hb].
  { destruct (req db) as [r|] eqn:Hr; [|by eexists]. unfold decode_requirement.
    rewrite bool_decide_eq_true_2; [by eexists|]. by apply Hi. }
  eapply safe_lift; [exact Hb|]. apply (safe_put_row CReq), HQ. simpl.
  case_decide; [by auto|]. destruct (_ || _); auto.
Qed.

Lemma safe_mark_owner k db (Q : () → Db → Prop) :
  (∀ v, v = RECORD_OWNER ∨ v = RECORD_IO_OWNER → Q () (set_row (CPol k) v db)) →
  safe (mark_record_owner_in_txn k) db Q.
Proof.
  intros HQ. apply safe_bind, (safe_get_row (CPol k)), (safe_put_row (CPol k)), HQ.
  case_decide; auto.
Qed.

(** The image a conditional write compares with. *)
Definition current_version (db : Db) (k : string) : option string :=
  match metadata db !! k with Some _ => rev db k | None => None end.

(** Conditional writes are offered for managed and for protected records, and
    an existing image must carry a revision. *)
Definition write_admitted (db : Db) (k : string) : Prop :=
  (is_managed_key k = true ∨ pol db k ≠ None) ∧ (metadata db !! k = None ∨ rev db k ≠ None).

Lemma safe_write_versioned k value expected inc db (Q : CommandResult → Db → Prop) :
  ctrl_inv db → String.length inc = 16 →
  (∀ r, (∀ cur, r ≠ ConditionalMetadata true cur) →
     ¬ (write_admitted db k ∧ current_version db k = expected) → Q r db) →
  (∀ token, write_admitted db k → fresh_token db token →
     current_version db k = expected →
     Q (ConditionalMetadata true (mkVersioned (Some value) (Some token)))
       (with_meta <[k := value]> (alloc_put db k token))) →
  safe (write_versioned_in_txn k value expected inc) db Q.
Proof.
  intros Hi Hinc H1 H2. unfold write_versioned_in_txn, write_admitted, current_version in *.
  apply safe_bind.
  assert (safe (if is_managed_key k then mret true else protected_in_txn k) db
    (λ b db', db' = db ∧ (b = true ↔ is_managed_key k = true ∨ pol db k ≠ None))) as Hadm.
  { destruct (is_managed_key k); [apply safe_ret; naive_solver|].
    apply safe_protected; [done|]. split; [done|]. rewrite bool_decide_eq_true. naive_solver. }
  eapply safe_mono; [exact Hadm|]. intros b db' [-> Hb].
  destruct b; simpl; [|apply safe_ret, H1; naive_solver].
  pose proof (proj1 Hb eq_refl) as Hsc. clear Hb.
  apply safe_bind, safe_get_meta, safe_bind, (safe_get_row (CRev k)).
  destruct (bool_decide (metadata db !! k ≠ None) && bool_decide (rev db k = None)) eqn:Hc.
  { rewrite andb_true_iff, !bool_decide_eq_true in Hc. apply safe_ret, H1; naive_solver. }
  rewrite andb_false_iff, !bool_decide_eq_false in Hc.
  assert (metadata db !! k = None ∨ rev db k ≠ None) as Hver
    by (destruct (metadata db !! k); naive_solver).
  apply safe_bind.
  assert (∃ im, versioned_image (metadata db !! k) (rev db k) = Ok im ∧
            vm_version im = match metadata db !! k with Some _ => rev db k | None => None end)
    as (im & Him & Hvm).
  { unfold versioned_image. destruct (metadata db !! k) as [m|]; [|by eexists].
    destruct (rev db k) as [v|] eqn:Hv; [|naive_solver].
    destruct (inv_rev _ Hi _ _ Hv) as (-> & _). by eexists. }
  eapply safe_lift; [exact Him|]. rewrite Hvm. case_decide as Hd.
  - apply safe_bind, safe_allocate; [done|by eauto|]. intros token Hf.
    by apply safe_bind, safe_put_meta, safe_ret, H2.
  - apply safe_ret, H1; naive_solver.
Qed.

Lemma fresh_token_set_row r v db token :
  crow_ok r → r ≠ CAlloc → fresh_token db token → fresh_token (set_row r v db) token.
Proof.
  intros Hr Hne (H1 & H2 & H3). split_and!; [done| |].
  - by rewrite counter_set_row, decide_False.
  - intros t. by rewrite set_row_at, decide_False; [apply H3|..].
Qed.

(** The rows an adoption of [k] may change. *)
Definition adoption_row (k : string) (r : crow) : Prop :=
  r = CAlloc ∨ r = CReq ∨ r = CRev k ∨ r = CPol k.

(** The trees after [k] was adopted: policy and requirement are set and, when
    the record exists, it has a revision. *)
Record adopted (k : string) (db db' : Db) : Prop := {
  ad_steps : steps db db';
  ad_meta : metadata db' = metadata db;
  ad_pol : pol db' k = Some CONDITIONAL_ONLY;
  ad_rev : metadata db !! k ≠ None → rev db' k ≠ None;
  ad_rows : ∀ r, crow_ok r → ¬ adoption_row k r → crow_at db' r = crow_at db r }.

Lemma adopted_policy k v db :
  ctrl_inv db → pol db k = None → row_settable CReq v db →
  let db' := set_row (CPol k) CONDITIONAL_ONLY (set_row CReq v db) in
  steps db db' ∧ ∀ r, crow_ok r → ¬ adoption_row k r → crow_at db' r = crow_at db r.
Proof.
  intros Hi Hk Hv db'. pose proof (steps_set_row CReq v db Hi I Hv) as Hs1. split.
  - eapply steps_trans; [done|exact Hs1|]. apply steps_set_row; [apply Hs1|done|].
    split; [by rewrite set_row_at|]. left. by rewrite set_row_at.
  - intros r Hr Hn. unfold db', adoption_row in *. rows.
    rewrite !decide_False by naive_solver. done.
Qed.

Lemma adopted_absent k v db :
  ctrl_inv db → pol db k = None → metadata db !! k = None → row_settable CReq v db →
  adopted k db (set_row CReq v (set_row (CPol k) CONDITIONAL_ONLY db)).
Proof.
  intros Hi Hk Hm Hv. rewrite set_row_comm by done.
  destruct (adopted_policy k v db Hi Hk Hv) as [Hs Hr]. split; try done.
  by rewrite set_row_at, decide_True.
Qed.

Lemma adopted_present k v db token :
  ctrl_inv db → pol db k = None → row_settable CReq v db → fresh_token db token →
  adopted k db
    (set_row CReq v (set_row (CPol k) CONDITIONAL_ONLY (alloc_put db k token))).
Proof.
  intros Hi Hk Hv Hf. destruct (adopted_policy k v db Hi Hk Hv) as [Hs Hr].
  assert (set_row CReq v (set_row (CPol k) CONDITIONAL_ONLY (alloc_put db k token))
    = alloc_put (set_row (CPol k) CONDITIONAL_ONLY (set_row CReq v db)) k token) as ->.
  { unfold alloc_put. rewrite (set_row_comm (CPol k) (CRev k)), (set_row_comm (CPol k) CAlloc),
      (set_row_comm CReq (CRev k)), (set_row_comm CReq CAlloc), (set_row_comm CReq (CPol k));
      done. }
  split; try done.
  - eapply steps_trans; [done|exact Hs|]. apply steps_alloc_put; [apply Hs|..].
    + by apply fresh_token_set_row, fresh_token_set_row.
    + rewrite Hr; [by apply inv_unprotected_not_retired|done|]. unfold adoption_row. naive_solver.
    + right. by rewrite set_row_at, decide_True.
  - by rewrite alloc_put_at, !decide_False, set_row_at, decide_True.
  - intros _. by rewrite alloc_put_at, decide_True.
  - intros r Hok Hn. rewrite alloc_put_at, !decide_False; [by apply Hr|..|done];
      unfold adoption_row in Hn; naive_solver.
Qed.

Lemma safe_adopt k expected inc db (Q : CommandResult → Db → Prop) :
  ctrl_inv db → String.length inc = 16 →
  (pol db k ≠ None → Q (ProtectedMetadata true) db) →
  (pol db k = None → metadata db !! k ≠ expected → Q (ProtectedMetadata false) db) →
  (∀ db', pol db k = None → metadata db !! k = expected → adopted k db db' →
     Q (ProtectedMetadata true) db') →
  safe (adopt_protected_in_txn k expected inc) db Q.
Proof.
  intros Hi Hinc H1 H2 H3. unfold adopt_protected_in_txn.
  apply safe_bind, safe_get_meta, safe_bind, safe_protected; [done|].
  case_bool_decide as Hp; [by apply safe_ret, H1|].
  assert (pol db k = None) as Hpol by (by destruct (pol db k); [destruct Hp|]).
  case_decide as Hm; [|by apply safe_ret, H2]. apply safe_bind.
  assert (∀ db1, (∀ v, row_settable CReq v db →
       adopted k db (set_row CReq v (set_row (CPol k) CONDITIONAL_ONLY db1))) →
     req db1 = req db →
     safe (put_ctrl (policy_key k) CONDITIONAL_ONLY;;
           require_record_format_in_txn false;; mret (ProtectedMetadata true)) db1 Q) as Hrest.
  { intros db1 Had Hreq. apply safe_bind, (safe_put_row (CPol k)), safe_bind, safe_require_format.
    - intros r. rewrite set_row_at, decide_False, Hreq by done. apply (inv_req _ Hi).
    - intros v Hv. apply safe_ret, H3; [done..|]. apply Had. done. }
  destruct (metadata db !! k) as [m|] eqn:Hmk.
  - apply safe_bind, safe_allocate; [done|by eauto|]. intros token Hf. apply safe_ret, Hrest.
    + intros v Hv. by apply adopted_present.
    + by rewrite alloc_put_at.
  - apply safe_ret, Hrest; [|done]. intros v Hv. by apply adopted_absent.
Qed.

Lemma safe_bind_guard k expected g gv inc db (Q : CommandResult → Db → Prop) :
  ctrl_inv db → String.length inc = 16 → is_utf8 g = true →
  (∀ r, Q r db) →
  (∀ db', live_guard db g gv → bind db k = None → steps db db' → metadata db' = metadata db →
     bind db' k = Some g → Q Success db') →
  safe (bind_record_guard_in_txn k expected g gv inc) db Q.
Proof.
  intros Hi Hinc Hu H1 H2. unfold bind_record_guard_in_txn.
  destruct (validate_path_fast k) as [_|], (validate_path_fast g) as [_|]; try by apply safe_ret.
  apply safe_bind. case_decide as Hkg; [by do 2 apply safe_ret|].
  apply safe_bind, (safe_get_row (CBind g)). case_bool_decide as Hbg; [by do 2 apply safe_ret|].
  apply safe_bind, safe_live; [done| |by intros _; do 2 apply safe_ret]. intros Hlive.
  apply safe_ret, safe_bind, safe_bind, safe_bind, (safe_get_row (CPol k)), safe_ret.
  case_bool_decide as Hown; [by do 2 apply safe_ret|].
  apply safe_bind, (safe_get_row (CRet k)), safe_ret. case_bool_decide as Hret; [by apply safe_ret|].
  apply safe_bind, (safe_get_row (CBind k)).
  destruct (bind db k) as [b|] eqn:Hbk; [by apply safe_ret|].
  apply safe_bind, safe_get_meta. case_decide as Hm; [|by apply safe_ret].
  assert (bind db g = None) as Hbg' by (by destruct (bind db g); [destruct Hbg|]).
  assert (∀ db1, steps db db1 → metadata db1 = metadata db → pol db1 k = Some CONDITIONAL_ONLY →
    bind db1 k = None → bind db1 g = None →
    safe (mark_record_owner_in_txn g;; require_record_format_in_txn true;;
          put_record_control_in_txn BINDING_PREFIX k g;; mret Success) db1 Q) as Hrest.
  { intros db1 Hs1 Hm1 Hp1 Hb1 Hbg1. destruct Hs1 as [Hi1 Hev1].
    apply safe_bind, safe_mark_owner. intros v Hv.
    assert (steps db1 (set_row (CPol g) v db1)) as Hs2.
    { apply steps_set_row; [done..|]. split; [by apply (inv_pol _ Hi1 k CONDITIONAL_ONLY)|by right]. }
    apply safe_bind, safe_require_format; [apply (inv_req _ (proj1 Hs2))|]. intros w Hw.
    assert (steps (set_row (CPol g) v db1) (set_row CReq w (set_row (CPol g) v db1))) as Hs3.
    { by apply steps_set_row; [apply Hs2|..]. }
    apply safe_bind, (safe_put_row (CBind k)), safe_ret. apply H2; try done.
    - eapply steps_trans; [done|exact (conj Hi1 Hev1)|].
      eapply steps_trans; [done|exact Hs2|]. eapply steps_trans; [apply Hs2|exact Hs3|].
      apply steps_set_row; [apply Hs3|done|]. simpl. rows.
      rewrite !(decide_False (P := CReq = _)), !(decide_False (P := CPol _ = CBind _)),
        (decide_False (P := CPol g = CPol k)), (decide_True (P := CPol g = CPol g)) by congruence.
      split_and!; try done. unfold is_owner. naive_solver.
    - by rewrite set_row_at, decide_True. }
  apply safe_bind, safe_adopt; [done|done|..].
  - intros Hp. apply Hrest; try done; [by apply steps_refl|].
    destruct (pol db k) as [p|] eqn:Hpk; [|done].
    destruct (inv_pol _ Hi _ _ Hpk) as [[->|[->| ->]] _]; [done|naive_solver..].
  - intros _ Hne. naive_solver.
  - intros db1 Hp _ [Hs Hmeta Hp1 _ Hrows]. apply Hrest; try done;
      rewrite Hrows; unfold adoption_row; naive_solver.
Qed.

Lemma safe_retire k expected image inc db (Q : CommandResult → Db → Prop) :
  ctrl_inv db → String.length inc = 16 →
  Q not_live db →
  (∀ token db', live_guard db k expected → bind db k = None → steps db db' →
     metadata db' = <[k := image]> (metadata db) → ret db' k = Some token →
     Q (ConditionalMetadata true (mkVersioned (Some image) (Some token))) db') →
  safe (retire_record_guard_in_txn k expected image inc) db Q.
Proof.
  intros Hi Hinc H1 H2. unfold retire_record_guard_in_txn.
  apply safe_bind, safe_bind, (safe_get_row (CBind k)).
  case_bool_decide as Hb; [by do 2 apply safe_ret|].
  assert (bind db k = None) as Hb' by (by destruct (bind db k); [destruct Hb|]).
  apply safe_bind, safe_live; [done| |by intros _; do 2 apply safe_ret]. intros Hlive.
  pose proof Hlive as (Hp & Hr & Hm & Hv). apply safe_ret, safe_bind, safe_write_versioned; [done..| |].
  { intros r _ []. unfold write_admitted, current_version. rewrite Hv.
    split; [split; [by right|right; congruence]|]. by destruct (metadata db !! k). }
  intros token _ Hf _.
  assert (steps db (with_meta <[k := image]> (alloc_put db k token))) as Hs1.
  { apply steps_meta_versioned; [done|done|done|by right|]. intros m k' Hne.
    by apply lookup_insert_ne. }
  set (db1 := with_meta _ _) in *.
  assert (∀ r, crow_ok r → crow_at db1 r = crow_at (alloc_put db k token) r) as Hdb1 by done.
  apply safe_bind, safe_mark_owner. intros w Hw.
  assert (steps db1 (set_row (CPol k) w db1)) as Hs2.
  { apply steps_set_row; [apply Hs1|done|]. simpl. rewrite !Hdb1, !alloc_put_at by done.
    rewrite !decide_False by done. split; [|by right].
    destruct (pol db k) as [p|] eqn:Hpk; [|done]. by apply (inv_pol _ Hi k p). }
  apply safe_bind, safe_require_format; [apply (inv_req _ (proj1 Hs2))|]. intros x Hx.
  assert (steps (set_row (CPol k) w db1) (set_row CReq x (set_row (CPol k) w db1))) as Hs3.
  { by apply steps_set_row; [apply Hs2|..]. }
  apply safe_bind. cbn [vm_version]. apply (safe_put_row (CRet k)), safe_ret. apply H2; try done.
  - eapply steps_trans; [done|exact Hs1|]. eapply steps_trans; [apply Hs1|exact Hs2|].
    eapply steps_trans; [apply Hs2|exact Hs3|].
    apply steps_set_row; [apply Hs3|done|]. simpl.
    rewrite !set_row_at, !Hdb1, !alloc_put_at by done. rewrite !decide_False by done.
    rewrite !decide_True by done. split_and!; try done.
    { unfold is_owner. naive_solver. }
    { repeat case_decide; congruence. }
    cbn. by rewrite lookup_insert_eq.
  - by rewrite set_row_at, decide_True.
Qed.

Lemma safe_admit_io k expected db (Q : CommandResult → Db → Prop) :
  ctrl_inv db →
  (∀ r, Q r db) →
  (∀ db', live_guard db k expected → steps db db' → metadata db' = metadata db → Q Success db') →
  safe (admit_record_io_in_txn k expected) db Q.
Proof.
  intros Hi H1 H2. unfold admit_record_io_in_txn.
  destruct (validate_path_fast k); [|by apply safe_ret].
  apply safe_bind, safe_bind, (safe_get_row (CBind k)).
  case_bool_decide as Hb; [by do 2 apply safe_ret|].
  assert (bind db k = None) as Hb' by (by destruct (bind db k); [destruct Hb|]).
  apply safe_bind, safe_live; [done| |by intros _; do 2 apply safe_ret]. intros Hlive.
  apply safe_ret, safe_bind, safe_bind, safe_require_format; [apply (inv_req _ Hi)|]. intros v Hv.
  pose proof (steps_set_row CReq v db Hi I Hv) as Hs1.
  assert (steps (set_row CReq v db) (set_row (CPol k) RECORD_IO_OWNER (set_row CReq v db))) as Hs2.
  { apply steps_set_row; [apply Hs1|done|]. simpl. rows.
    rewrite decide_True, !decide_False by done. split; [done|]. right. auto. }
  apply safe_bind, (safe_put_row (CPol k)), (safe_put_row CReq), safe_ret. apply H2; try done.
  eapply steps_trans; [done|exact Hs1|]. eapply steps_trans; [apply Hs1|exact Hs2|].
  apply steps_set_row; [apply Hs2|done|]. simpl. auto.
Qed.
