(* ===== verification/Rename.v ===== *)
(** * Metadata images and subtree rename

    src/proto/nexus/core/metadata.proto ([FileMetadata]) and
    src/rust/raft/src/raft/state_machine/metadata_rename.rs.  The protobuf codec
    is generated code: it is the interface [MetadataCodec]. *)

From S2P Require Import Prelude Bytes Codec Table LockState Command Records.

Record FileMetadata := mkFileMetadata {
  fm_path : string;
  fm_size : Z;
  fm_content_id : string;
  fm_mime_type : string;
  fm_created_at : string;
  fm_modified_at : string;
  fm_version : Z;
  fm_zone_id : string;
  fm_owner_id : string;
  fm_entry_type : Z;
  fm_target_zone_id : string;
  fm_ttl_seconds : N; (* the bits of the double *)
  fm_last_writer_address : string;
  fm_link_target : string;
  fm_gen : N;
  fm_target_subtree : string }.

Definition DT_REG : Z := 0.
Definition DT_DIR : Z := 1.
Definition DT_MOUNT : Z := 2.
Definition DT_LINK : Z := 6.

(** The generated codec; a decode error carries its text. *)
Class MetadataCodec := {
  decode : string → result string FileMetadata;
  encode_to_vec : FileMetadata → string }.

Definition set_path (m : FileMetadata) (path : string) : FileMetadata :=
  mkFileMetadata path (fm_size m) (fm_content_id m) (fm_mime_type m) (fm_created_at m)
    (fm_modified_at m) (fm_version m) (fm_zone_id m) (fm_owner_id m) (fm_entry_type m)
    (fm_target_zone_id m) (fm_ttl_seconds m) (fm_last_writer_address m) (fm_link_target m)
    (fm_gen m) (fm_target_subtree m).

Definition set_content_id (m : FileMetadata) (cid : string) : FileMetadata :=
  mkFileMetadata (fm_path m) (fm_size m) cid (fm_mime_type m) (fm_created_at m)
    (fm_modified_at m) (fm_version m) (fm_zone_id m) (fm_owner_id m) (fm_entry_type m)
    (fm_target_zone_id m) (fm_ttl_seconds m) (fm_last_writer_address m) (fm_link_target m)
    (fm_gen m) (fm_target_subtree m).

(** src/rust/kernel/src/abc/meta_store.rs *)
Definition renamed_pas_content_id (cid old_vfs new_vfs : string) : option string :=
  if ends_with ("/" +:+ cid) old_vfs || bool_decide (old_vfs = cid) then
    let prefix_len := String.length old_vfs - String.length cid in
    let mount_prefix := stake prefix_len old_vfs in
    if starts_with mount_prefix new_vfs then Some (sdrop prefix_len new_vfs) else None
  else None.

Section rename.
Context `{Codec : MetadataCodec}.

Definition decode_rename_entry (image path : string) : result string FileMetadata :=
  match decode image with
  | Err error => Err ("rename metadata decode(" +:+ path +:+ "): " +:+ error)
  | Ok metadata =>
      if bool_decide (fm_entry_type metadata ∈ [DT_REG; DT_DIR; DT_LINK]) then Ok metadata
      else Err ("rename metadata(" +:+ path +:+ ") requires a file, directory or link entry")
  end.

Definition rename_target_refusal (path : string) : txn (option string) :=
  image ← get_meta path;
  mret (image ≫= λ image,
    match decode_rename_entry image path with Err e => Some e | Ok _ => None end).

(** The range loop: stops at the first key without the prefix. *)
Fixpoint rename_scan (prefix : string) (rows : list (string * string)) :
    Result (list (string * string)) :=
  match rows with
  | [] => Ok []
  | (key, value) :: rows =>
      if negb (starts_with prefix key) then Ok []
      else
        match from_utf8 key with
        | None => Err (Storage "invalid utf-8")
        | Some key => rest ← rename_scan prefix rows; mret ((key, value) :: rest)
        end
  end.

Definition metadata_rename_rows (key prefix : string) : txn (list (string * string)) :=
  image ← get_meta key;
  rows ← range_meta prefix Unbounded;
  rest ← lift (rename_scan prefix rows);
  mret (match image with Some image => (key, image) :: rest | None => rest end).

Definition dir_of (key : string) : string := trim_end "/" key +:+ "/".

Definition rename_target (old_key new_key source : string) : string :=
  if decide (source = old_key) then new_key
  else dir_of new_key +:+ sdrop (String.length (dir_of old_key)) source.

Definition renamed_image (is_pas : bool) (source target : string) (m : FileMetadata) : FileMetadata :=
  let m := set_path m target in
  if is_pas then
    match renamed_pas_content_id (fm_content_id m) source target with
    | Some content_id => set_content_id m content_id
    | None => m
    end
  else m.

(** The checking loop: the first refusal, or the planned changes
    [(source, target, image)]. *)
Fixpoint rename_changes (old_key new_key : string) (is_pas : bool)
    (rows : list (string * string)) : txn (CommandResult + list (string * string * string)) :=
  match rows with
  | [] => mret (inr [])
  | (source, image) :: rows =>
      let target := rename_target old_key new_key source in
      refusal1 ← ordinary_metadata_refusal source;
      match refusal1 with Some refusal => mret (inl refusal) | None =>
      refusal2 ← ordinary_metadata_refusal target;
      match refusal2 with Some refusal => mret (inl refusal) | None =>
      match decode_rename_entry image source with
      | Err error => mret (inl (Error error))
      | Ok metadata =>
          refusal3 ← rename_target_refusal target;
          match refusal3 with Some refusal => mret (inl (Error refusal)) | None =>
          let image := encode_to_vec (renamed_image is_pas source target metadata) in
          rest ← rename_changes old_key new_key is_pas rows;
          mret (match rest with
                | inl refusal => inl refusal
                | inr changes => inr ((source, target, image) :: changes)
                end)
          end
      end
      end
      end
  end.

Fixpoint rename_revisions (changes : list (string * string * string)) : txn () :=
  match changes with
  | [] => mret ()
  | (source, target, _) :: changes =>
      tracked ← refresh_tracked_version source;
      (if tracked && is_managed_key target
       then allocate_revision target None;; mret ()
       else refresh_tracked_version target;; mret ());;
      rename_revisions changes
  end.

Fixpoint remove_sources (changes : list (string * string * string)) : txn () :=
  match changes with
  | [] => mret ()
  | (source, _, _) :: changes => del_meta source;; remove_sources changes
  end.

Fixpoint insert_targets (changes : list (string * string * string)) : txn () :=
  match changes with
  | [] => mret ()
  | (_, target, image) :: changes => put_meta target image;; insert_targets changes
  end.

Definition rename_metadata_in_txn (old_key new_key : string) (is_pas : bool) :
    txn CommandResult :=
  match validate_path_fast old_key, validate_path_fast new_key with
  | Err error, _ => mret (Error error)
  | Ok _, Err error => mret (Error error)
  | Ok _, Ok _ =>
      if decide (old_key = new_key) then mret Success
      else
        let prefix := dir_of old_key in
        if bool_decide (old_key = "/") || bool_decide (new_key = "/")
          || starts_with prefix new_key
        then mret (Error "invalid metadata rename destination")
        else
          rows ← metadata_rename_rows old_key prefix;
          refusal ← rename_target_refusal new_key;
          match refusal with
          | Some refusal => mret (Error refusal)
          | None =>
              changes ← rename_changes old_key new_key is_pas rows;
              match changes with
              | inl refusal => mret refusal
              | inr changes =>
                  rename_revisions changes;;
                  remove_sources changes;;
                  insert_targets changes;;
                  mret Success
              end
          end
  end.
End rename.
