(* ===== verification/RenameProofs.v ===== *)
(** * Subtree rename: effect and safety

    The rename either refuses and changes nothing, or moves every row of the
    subtree at once: each source row disappears, its image reappears under the
    new path with the path (and a path-addressed content id) rewritten, tracked
    revisions are refreshed, and every other row stays. *)

From S2P Require Import Prelude Bytes Codec Table LockState Command Records RecordProofs.
From S2P Require Import RecordOps Rename.

Section rename.
Context `{Codec : MetadataCodec}.

Abbreviation change := (string * string * string)%type.
Definition ch_source (c : change) : string := c.1.1.
Definition ch_target (c : change) : string := c.1.2.
Definition ch_image (c : change) : string := c.2.

Definition meta_utf8 (db : Db) : Prop := ∀ k, metadata db !! k ≠ None → is_utf8 k = true.

(** ** Reading the subtree *)

Lemma rename_scan_prefix prefix rows :
  (∀ k v, (k, v) ∈ rows → is_utf8 k = true) →
  ∃ rest, rename_scan prefix rows = Ok rest ∧
    ∀ k v, (k, v) ∈ rest → (k, v) ∈ rows ∧ starts_with prefix k = true.
Proof.
  induction rows as [|[k v] rows IH]; intros Hu.
  { exists []. split; [done|]. intros k v Hin. by apply not_elem_of_nil in Hin. }
  cbn [rename_scan]. destruct (starts_with prefix k) eqn:Hk; simpl.
  2:{ exists []. split; [done|]. intros k' v' Hin. by apply not_elem_of_nil in Hin. }
  rewrite from_utf8_true by (eapply Hu; left).
  destruct IH as (rest & -> & Hrest); [intros; eapply Hu; right; done|].
  exists ((k, v) :: rest). split; [done|]. intros k' v' [[= -> ->]|Hin]%elem_of_cons.
  - split; [left|done].
  - apply Hrest in Hin as [? ?]. split; [by right|done].
Qed.

(** The loop's early exit loses nothing: keys with the prefix are contiguous
    from the start of the range. *)
Lemma rename_scan_complete prefix rows rest :
  StronglySorted key_le rows → (∀ k v, (k, v) ∈ rows → String.leb prefix k = true) →
  rename_scan prefix rows = Ok rest →
  ∀ k v, (k, v) ∈ rows → starts_with prefix k = true → (k, v) ∈ rest.
Proof.
  revert rest. induction rows as [|[k v] rows IH]; intros rest Hs Hlo Hr k' v' Hin Hk'.
  { by apply not_elem_of_nil in Hin. }
  apply StronglySorted_inv in Hs as [Hs Hall]. cbn [rename_scan] in Hr.
  destruct (starts_with prefix k) eqn:Hk; simpl in Hr.
  - destruct (from_utf8 k) as [k0|] eqn:Hu; [|done].
    unfold from_utf8 in Hu. destruct (is_utf8 k); [|done]. injection Hu as <-.
    destruct (rename_scan prefix rows) as [rest'|] eqn:Hr'; [|done].
    injection Hr as <-. apply elem_of_cons in Hin as [[= -> ->]|Hin]; [left|right].
    apply (IH rest'); try done. intros; eapply Hlo; by right.
  - exfalso. apply elem_of_cons in Hin as [[= -> ->]|Hin]; [congruence|].
    apply starts_with_true in Hk' as [x ->]. rewrite Forall_forall in Hall.
    specialize (Hall _ Hin). unfold key_le in Hall. cbn [fst] in Hall.
    assert (starts_with prefix k = true); [|congruence].
    apply (between_prefix _ _ x); [eapply Hlo; left|by apply Is_true_true].
Qed.

Lemma safe_rename_rows old prefix db (Q : list (string * string) → Db → Prop) :
  meta_utf8 db →
  (∀ rows, (∀ k v, (k, v) ∈ rows ↔
       metadata db !! k = Some v ∧ (k = old ∨ starts_with prefix k = true)) → Q rows db) →
  safe (metadata_rename_rows old prefix) db Q.
Proof.
  intros Hu HQ. unfold metadata_rename_rows. apply safe_bind, safe_get_meta, safe_bind.
  set (rows := range prefix Unbounded (metadata db)).
  assert (∀ k v, (k, v) ∈ rows ↔ String.leb prefix k = true ∧ metadata db !! k = Some v) as Hrows.
  { intros k v. unfold rows. rewrite elem_of_range. simpl. naive_solver. }
  destruct (rename_scan_prefix prefix rows) as (rest & Hrest & Hin).
  { intros k v [_ Hk]%Hrows. apply Hu. by rewrite Hk. }
  assert (∀ k v, (k, v) ∈ rest ↔ metadata db !! k = Some v ∧ starts_with prefix k = true) as Hiff.
  { intros k v. split.
    - intros [Hr Hs]%Hin. apply Hrows in Hr as [_ Hr]. done.
    - intros [Hm Hs]. eapply rename_scan_complete; [apply range_sorted| |exact Hrest| |done].
      + intros k' v' Hk'. by apply Hrows in Hk' as [? _].
      + apply Hrows. split; [|done]. apply starts_with_true in Hs as [x ->]. apply leb_app_l. }
  change (safe (rest ← lift (rename_scan prefix rows);
    mret match metadata db !! old with Some image => (old, image) :: rest | None => rest end) db Q).
  apply safe_bind. eapply safe_lift; [exact Hrest|]. apply safe_ret, HQ. intros k v.
  destruct (metadata db !! old) as [image|] eqn:Hold; rewrite ?elem_of_cons, Hiff; naive_solver.
Qed.

(** ** Planning the changes *)

(** What the checking loop establishes for a row and its change. *)
Definition change_ok (old new : string) (is_pas : bool) (db : Db)
    (row : string * string) (c : change) : Prop :=
  ch_source c = row.1 ∧ ch_target c = rename_target old new row.1 ∧
  pol db (ch_source c) = None ∧ pol db (ch_target c) = None ∧
  ∃ m, decode_rename_entry row.2 row.1 = Ok m ∧
    ch_image c = encode_to_vec (renamed_image is_pas (ch_source c) (ch_target c) m).

Lemma safe_target_refusal path db (Q : option string → Db → Prop) :
  (∀ o, Q o db) → safe (rename_target_refusal path) db Q.
Proof. intros HQ. apply safe_bind, safe_get_meta, safe_ret, HQ. Qed.

Lemma safe_rename_changes old new is_pas rows db
    (Q : CommandResult + list change → Db → Prop) :
  ctrl_inv db →
  (∀ e, Q (inl (Error e)) db) →
  (∀ changes, Forall2 (change_ok old new is_pas db) rows changes → Q (inr changes) db) →
  safe (rename_changes old new is_pas rows) db Q.
Proof.
  intros Hi. revert Q. induction rows as [|[s image] rows IH]; intros Q H1 H2.
  { apply safe_ret, H2. constructor. }
  cbn [rename_changes]. apply safe_bind, safe_ordinary; [done| |by intros e _; apply safe_ret].
  intros Hs. apply safe_bind, safe_ordinary; [done| |by intros e _; apply safe_ret]. intros Ht.
  destruct (decode_rename_entry image s) as [m|e] eqn:Hd; [|by apply safe_ret].
  apply safe_bind, safe_target_refusal. intros [e|]; [by apply safe_ret|].
  apply safe_bind, IH.
  - intros e. by apply safe_ret.
  - intros changes Hc. apply safe_ret, H2. constructor; [|done].
    split_and!; try done. by exists m.
Qed.

(** ** Refreshing the revisions *)

(** The trees after revisions of unprotected keys were refreshed: rows other
    than revisions stay, and no listed key keeps the revision it had. *)
Record refreshed (ks : list string) (db db' : Db) : Prop := {
  rf_steps : steps db db';
  rf_meta : metadata db' = metadata db;
  rf_rows : ∀ r, crow_ok r → r ≠ CAlloc → (∀ k, r ≠ CRev k) → crow_at db' r = crow_at db r;
  rf_revs : ∀ k v, k ∈ ks → rev db k = Some v → rev db' k ≠ Some v }.

Lemma refreshed_nil db : ctrl_inv db → refreshed [] db db.
Proof. intros Hi. split; try done; [by apply steps_refl|]. by intros k v ?%not_elem_of_nil. Qed.

Lemma refreshed_app ks ks' db1 db2 db3 :
  ctrl_inv db1 → refreshed ks db1 db2 → refreshed ks' db2 db3 → refreshed (ks ++ ks') db1 db3.
Proof.
  intros Hi [Hs Hm Hr Hv] [Hs' Hm' Hr' Hv']. split.
  - by eapply steps_trans.
  - congruence.
  - intros r Hok Hn1 Hn2. by rewrite Hr', Hr.
  - intros k v Hin Hk Hk'.
    assert (rev db2 k = Some v) as Hk2.
    { destruct Hs as (_ & He & _), Hs' as (_ & He' & _). by eapply (evolves_rev_between db1 db2 db3). }
    apply elem_of_app in Hin as [Hin|Hin]; [by eapply Hv|by eapply Hv'].
Qed.

Lemma refreshed_alloc k db token :
  ctrl_inv db → fresh_token db token → pol db k = None → is_managed_key k = true →
  refreshed [k] db (alloc_put db k token).
Proof.
  intros Hi Hf Hp Hk. split.
  - apply steps_alloc_put; [done|done|by apply inv_unprotected_not_retired|by left].
  - done.
  - intros r Hok Hn1 Hn2. rewrite alloc_put_at, !decide_False; [done|done|apply Hn2|done].
  - intros k' v ->%list_elem_of_singleton Hv. rewrite alloc_put_at, decide_True by done.
    intros [= ->]. by destruct (fresh_not_old _ _ _ _ Hi Hf Hv).
Qed.

Lemma refreshed_untracked k db :
  ctrl_inv db → rev db k = None → refreshed [k] db db.
Proof.
  intros Hi Hk. split; try done; [by apply steps_refl|].
  intros k' v ->%list_elem_of_singleton Hv. congruence.
Qed.

Lemma unmanaged_untracked db k :
  ctrl_inv db → pol db k = None → is_managed_key k = false → rev db k = None.
Proof.
  intros Hi Hp Hk. destruct (rev db k) as [v|] eqn:Hv; [|done].
  destruct (inv_scope _ Hi k) as [?|?]; congruence.
Qed.

Lemma safe_refresh_unprotected k db (Q : bool → Db → Prop) :
  ctrl_inv db → pol db k = None →
  (∀ b db', refreshed [k] db db' → (b = true → alloc db' ≠ None) → Q b db') →
  safe (refresh_tracked_version k) db Q.
Proof.
  intros Hi Hp HQ. apply safe_refresh; [done|..].
  - intros Hk. apply HQ; [|done]. apply refreshed_untracked; [done|].
    destruct Hk; [by apply unmanaged_untracked|done].
  - intros token Hk Hv Hf. apply HQ; [by apply refreshed_alloc|].
    intros _. by rewrite alloc_put_at.
Qed.

Definition change_keys (c : change) : list string := [ch_source c; ch_target c].

Lemma safe_rename_revisions changes db (Q : () → Db → Prop) :
  ctrl_inv db →
  Forall (λ c, pol db (ch_source c) = None ∧ pol db (ch_target c) = None) changes →
  (∀ db', refreshed (concat (change_keys <$> changes)) db db' → Q () db') →
  safe (rename_revisions changes) db Q.
Proof.
  revert db Q. induction changes as [|[[s t] image] changes IH]; intros db Q Hi Hall HQ.
  { apply safe_ret, HQ. by apply refreshed_nil. }
  apply Forall_cons in Hall as [[Hs Ht] Hall]. cbn [ch_source ch_target fst snd] in Hs, Ht.
  cbn [rename_revisions]. apply safe_bind, safe_refresh_unprotected; [done..|].
  intros b db1 Hr1 Hb. apply safe_bind.
  assert (ctrl_inv db1) as Hi1 by apply Hr1.
  assert (pol db1 t = None) as Ht1 by (by rewrite (rf_rows _ _ _ Hr1)).
  assert (∀ db2, refreshed [t] db1 db2 → safe (rename_revisions changes) db2 Q) as Hrest.
  { intros db2 Hr2. apply IH; [apply Hr2| |].
    - eapply Forall_impl; [exact Hall|]. intros c [? ?].
      by rewrite !(rf_rows _ _ _ Hr2), !(rf_rows _ _ _ Hr1).
    - intros db3 Hr3. apply HQ. cbn [fmap list_fmap concat].
      apply (refreshed_app [s; t] _ db db2 db3); [done| |done].
      by apply (refreshed_app [s] [t] db db1 db2). }
  destruct (b && is_managed_key t) eqn:Hc.
  - apply andb_true_iff in Hc as [-> Hk]. apply safe_bind, safe_allocate; [done|by left; apply Hb|].
    intros token Hf. apply safe_ret, Hrest. by apply refreshed_alloc.
  - apply safe_bind, safe_refresh_unprotected; [done..|]. intros b' db2 Hr2 _.
    by apply safe_ret, Hrest.
Qed.

(** ** Moving the rows *)

Definition without_sources (changes : list change) (m : gmap string string) : gmap string string :=
  foldl (λ m c, delete (ch_source c) m) m changes.
Definition with_targets (changes : list change) (m : gmap string string) : gmap string string :=
  foldl (λ m c, <[ch_target c := ch_image c]> m) m changes.

Lemma safe_remove_sources changes db (Q : () → Db → Prop) :
  Q () (with_meta (without_sources changes) db) → safe (remove_sources changes) db Q.
Proof.
  revert db. induction changes as [|[[s t] i] changes IH]; intros db HQ.
  - apply safe_ret. by destruct db.
  - cbn [remove_sources]. by apply safe_bind, safe_del_meta, IH.
Qed.

Lemma safe_insert_targets changes db (Q : () → Db → Prop) :
  Q () (with_meta (with_targets changes) db) → safe (insert_targets changes) db Q.
Proof.
  revert db. induction changes as [|[[s t] i] changes IH]; intros db HQ.
  - apply safe_ret. by destruct db.
  - cbn [insert_targets]. by apply safe_bind, safe_put_meta, IH.
Qed.

Lemma without_sources_lookup changes m k :
  without_sources changes m !! k = if decide (k ∈ ch_source <$> changes) then None else m !! k.
Proof.
  revert m. induction changes as [|c changes IH]; intros m; [done|].
  unfold without_sources in *. cbn [foldl]. rewrite IH, fmap_cons.
  destruct (decide (k ∈ ch_source <$> changes)); [by rewrite decide_True by (by right)|].
  destruct (decide (k = ch_source c)) as [->|Hne].
  - by rewrite lookup_delete_eq, decide_True by left.
  - rewrite lookup_delete_ne by done. by rewrite decide_False by (rewrite elem_of_cons; naive_solver).
Qed.

Lemma with_targets_other changes m k :
  k ∉ ch_target <$> changes → with_targets changes m !! k = m !! k.
Proof.
  revert m. induction changes as [|c changes IH]; intros m Hk; [done|].
  unfold with_targets in *. cbn [foldl]. rewrite fmap_cons, not_elem_of_cons in Hk.
  rewrite IH by apply Hk. apply lookup_insert_ne. intros He. by apply (proj1 Hk).
Qed.

Lemma with_targets_in changes m k image :
  k ∈ ch_target <$> changes → (∀ c, c ∈ changes → ch_target c = k → ch_image c = image) →
  with_targets changes m !! k = Some image.
Proof.
  revert m. induction changes as [|c changes IH]; intros m Hk Hall.
  { by apply not_elem_of_nil in Hk. }
  unfold with_targets in *. cbn [foldl].
  destruct (decide (k ∈ ch_target <$> changes)) as [Hin|Hn].
  - apply IH; [done|]. intros c' Hc'. apply Hall. by right.
  - rewrite fmap_cons, elem_of_cons in Hk. destruct Hk as [->|?]; [|done].
    fold (with_targets changes (<[ch_target c := ch_image c]> m)).
    rewrite with_targets_other by done. rewrite lookup_insert_eq. f_equal. apply Hall; [left|done].
Qed.

(** ** The whole rename *)

(** The metadata tree after a committed rename. *)
Definition moved (changes : list change) (m : gmap string string) : gmap string string :=
  with_targets changes (without_sources changes m).

Lemma moved_other changes m k :
  k ∉ ch_source <$> changes → k ∉ ch_target <$> changes → moved changes m !! k = m !! k.
Proof.
  intros Hs Ht. unfold moved. rewrite with_targets_other by done.
  by rewrite without_sources_lookup, decide_False.
Qed.

Lemma steps_moved changes db db1 :
  ctrl_inv db →
  Forall (λ c, pol db (ch_source c) = None ∧ pol db (ch_target c) = None) changes →
  refreshed (concat (change_keys <$> changes)) db db1 →
  steps db (with_meta (moved changes) db1).
Proof.
  intros Hi Hall [Hs Hm Hr Hv]. pose proof Hs as (Hi1 & He & Hf).
  assert (∀ k, k ∈ ch_source <$> changes ∨ k ∈ ch_target <$> changes →
    pol db1 k = None ∧ k ∈ concat (change_keys <$> changes)) as Hkeys.
  { intros k Hk. rewrite Forall_forall in Hall.
    assert (∃ c, c ∈ changes ∧ k ∈ change_keys c) as (c & Hc & Hkc).
    { unfold change_keys. destruct Hk as [Hk|Hk]; apply list_elem_of_fmap in Hk as (c & -> & Hc);
        exists c; (split; [done|]); set_solver. }
    split.
    - rewrite Hr by done. destruct (Hall c Hc) as [? ?]. unfold change_keys in Hkc. set_solver.
    - apply list_elem_of_In, in_concat. exists (change_keys c).
      split; apply list_elem_of_In; [|done]. by apply list_elem_of_fmap_2. }
  assert (∀ k, pol db1 k ≠ None ∨ k ∉ concat (change_keys <$> changes) →
    moved changes (metadata db1) !! k = metadata db1 !! k) as Hother.
  { intros k Hk. apply moved_other; intros Hin; destruct (Hkeys k); naive_solver. }
  split_and!.
  - apply with_meta_inv; [done|]. intros k v Hret.
    destruct (inv_ret _ Hi1 _ _ Hret) as (Ho & _ & Hmk).
    rewrite Hother; [done|]. left. by apply owner_protected.
  - eapply evolves_trans; [exact He|apply evolves_meta].
  - intros k v Hk Hrv Hrv'. rewrite with_meta_at in Hrv'. cbn [metadata with_meta].
    rewrite Hother, Hm; [done|]. right. intros Hin. by eapply Hv.
Qed.

Lemma safe_rename old new is_pas db (Q : CommandResult → Db → Prop) :
  ctrl_inv db → meta_utf8 db →
  (∀ r, (r = Success → old = new) → Q r db) →
  (∀ rows changes db',
     (∀ k v, (k, v) ∈ rows ↔
        metadata db !! k = Some v ∧ (k = old ∨ starts_with (dir_of old) k = true)) →
     Forall2 (change_ok old new is_pas db) rows changes →
     validate_path_fast new = Ok () → old ≠ new → starts_with (dir_of old) new = false →
     steps db db' → metadata db' = moved changes (metadata db) → Q Success db') →
  safe (rename_metadata_in_txn old new is_pas) db Q.
Proof.
  intros Hi Hu H1 H2. unfold rename_metadata_in_txn.
  destruct (validate_path_fast old) as [[]|], (validate_path_fast new) as [[]|] eqn:Hnew;
    try by apply safe_ret, H1.
  case_decide as Hne; [by apply safe_ret, H1|].
  destruct (_ || _) eqn:Hdest; [by apply safe_ret, H1|].
  apply orb_false_iff in Hdest as [_ Hdest].
  apply safe_bind, safe_rename_rows; [done|]. intros rows Hrows.
  apply safe_bind, safe_target_refusal. intros [e|]; [by apply safe_ret, H1|].
  apply safe_bind, safe_rename_changes; [done|by intros e; apply safe_ret, H1|].
  intros changes Hc.
  assert (Forall (λ c, pol db (ch_source c) = None ∧ pol db (ch_target c) = None) changes) as Hall.
  { clear -Hc. induction Hc as [|row c rows changes (_ & _ & ? & ? & _) _ IH]; by constructor. }
  apply safe_bind, safe_rename_revisions; [done..|]. intros db1 Hr.
  apply safe_bind, safe_remove_sources, safe_bind, safe_insert_targets, safe_ret.
  change (Q Success (with_meta (moved changes) db1)).
  apply (H2 rows changes); try done; [by apply steps_moved|].
  cbn [metadata with_meta]. unfold moved. by rewrite (rf_meta _ _ _ Hr).
Qed.
End rename.
