(* ===== verification/StateMachine.v ===== *)
(** * The replicated state machine of a zone

    src/rust/raft/src/raft/state_machine.rs, [FullStateMachine]: construction,
    the transactional command dispatch of the Raft path, the dispatch of the
    eventually consistent path, [apply], the observers, the reads, and
    [snapshot]/[restore_snapshot]. *)

From S2P Require Import Prelude Bytes Codec Table LockState Command StreamTier Version Records.
From S2P Require Import Rename.

(** ** Observers and mount events *)

Record AppliedEntry := mkAppliedEntry {
  ae_index : N;
  ae_command : Command;
  ae_result : CommandResult;
  ae_removed_mount_key : option string }.

(** A registered observer: its dedup key and its identity. *)
Definition ApplyObserver : Type := option string * nat.

Inductive MountApplyEvent :=
  | MountSet (key target_zone_id target_subtree : string)
  | MountDelete (key : string).

Record MountDecl := mkMountDecl { md_zone : string; md_subtree : string }.

Definition VFS_ROOT : string := "/".
Definition whole_zone (zone : string) : MountDecl := mkMountDecl zone VFS_ROOT.
Definition subtree_of (zone subtree : string) : MountDecl := mkMountDecl zone subtree.

Definition subtree_or_whole_zone (raw : string) : string :=
  if decide (raw = "") then VFS_ROOT else raw.

(** ** State *)

Record FullStateMachine := mkSM {
  sm_db : Db;
  sm_advisory : LockState;
  sm_last_applied : N;
  sm_apply_observers : list ApplyObserver }.

Definition set_db (sm : FullStateMachine) (db : Db) : FullStateMachine :=
  mkSM db (sm_advisory sm) (sm_last_applied sm) (sm_apply_observers sm).
Definition set_advisory (sm : FullStateMachine) (a : LockState) : FullStateMachine :=
  mkSM (sm_db sm) a (sm_last_applied sm) (sm_apply_observers sm).

Definition with_advisory (store : Db) (advisory : LockState) : Result FullStateMachine :=
  last_applied ← match metadata store !! KEY_LAST_APPLIED with
                 | Some bytes =>
                     match u64_from_be bytes with
                     | Some index => Ok index
                     | None => Err (Storage "invalid last_applied")
                     end
                 | None => Ok 0%N
                 end;
  mret (mkSM store advisory last_applied []).

Definition new (store : Db) : Result FullStateMachine :=
  with_advisory store lock_state_new.

(** ** Lock commands *)

Definition lock_refusal (locks : LockState) (path : string) : CommandResult :=
  match get_lock locks path with
  | None => Error "Lock not found"
  | Some _ => Error "Lock holder not found"
  end.

Definition apply_acquire_lock (path lock_id : string) (max_holders ttl_secs : N)
    (holder_info : string) (now : N) (locks : LockState) : CommandResult * LockState :=
  let '(result, locks) := apply_acquire locks path lock_id max_holders ttl_secs holder_info now in
  (LockResult result, locks).

Definition apply_release_lock (path lock_id : string) (locks : LockState) :
    CommandResult * LockState :=
  let '(ok, locks) := apply_release locks path lock_id in
  (if (ok : bool) then Success else lock_refusal locks path, locks).

Definition apply_force_release_lock (path : string) (locks : LockState) :
    CommandResult * LockState :=
  let '(ok, locks) := apply_force_release locks path in
  (if (ok : bool) then Success else Error "Lock not found", locks).

Definition apply_extend_lock (path lock_id : string) (new_ttl_secs now : N)
    (locks : LockState) : CommandResult * LockState :=
  let '(ok, locks) := apply_extend locks path lock_id new_ttl_secs now in
  (if (ok : bool) then Success else lock_refusal locks path, locks).

(** The lock arms of [apply] and [execute]. *)
Definition lock_command (c : Command) : option (LockState → CommandResult * LockState) :=
  match c with
  | AcquireLock path lock_id max_holders ttl_secs holder_info now_secs =>
      Some (apply_acquire_lock path lock_id max_holders ttl_secs holder_info now_secs)
  | ReleaseLock path lock_id => Some (apply_release_lock path lock_id)
  | ForceReleaseLock path => Some (apply_force_release_lock path)
  | ExtendLock path lock_id new_ttl_secs now_secs =>
      Some (apply_extend_lock path lock_id new_ttl_secs now_secs)
  | _ => None
  end.

(** ** Metadata operations of the eventually consistent path *)

Definition apply_set_metadata (key value : string) : txn CommandResult :=
  put_meta key value;; mret Success.

Definition apply_delete_metadata (key : string) : txn CommandResult :=
  del_meta key;; mret Success.

Definition counter_value (v : option string) : Z := default 0%Z (v ≫= i64_from_be).

(** [(current + delta).max(0)]; the release profile wraps. *)
Definition adjusted (current delta : Z) : Z := Z.max (wrap_i64 (current + delta)) 0.

Definition apply_adjust_counter (key : string) (delta : Z) : txn CommandResult :=
  v ← get_meta key;
  let new_val := adjusted (counter_value v) delta in
  put_meta key (i64_to_be new_val);;
  mret (Value (i64_to_be new_val)).

Definition current_version_of (v : option string) : txn N :=
  match v with
  | Some bytes => terminating (extract_version bytes)
  | None => mret 0%N
  end.

Definition apply_cas_set_metadata (key value : string) (expected_version : N) :
    txn CommandResult :=
  current ← get_meta key;
  current_version ← current_version_of current;
  if (current_version =? expected_version)%N
  then put_meta key value;; mret (CasResult true (wrap32 (expected_version + 1)))
  else mret (CasResult false current_version).

Definition control_exists (namespace key : string) : CommandResult :=
  Error ("control state " +:+ namespace +:+ "/" +:+ key +:+ " already exists").

(** [execute]: each arm is its own transaction; an error leaves the state. *)
Definition execute_txn (c : Command) : txn CommandResult :=
  match c with
  | SetMetadata key value => apply_set_metadata key value
  | CasSetMetadata key value expected_version => apply_cas_set_metadata key value expected_version
  | DeleteMetadata key => apply_delete_metadata key
  | AdjustCounter key delta => apply_adjust_counter key delta
  | AppendStreamEntry _ _ => fail (InvalidState "AppendStreamEntry must apply via execute_metadata_in_txn (the offset is assigned atomically at raft apply); the non-txn path must never receive it")
  | SealStreamSegment _ _ _ _ _ _ => fail (InvalidState "SealStreamSegment must apply via execute_metadata_in_txn (index write + hot-row delete + floor advance are one atomic txn); the non-txn path must never receive it")
  | TrimStreamSegment _ _ _ => fail (InvalidState "TrimStreamSegment must apply via execute_metadata_in_txn (index delete + earliest advance are one atomic txn); the non-txn path must never receive it")
  | WriteVersionedMetadata _ _ _ _ | AdoptProtectedMetadata _ _ _ | RenameMetadata _ _ _
  | BindRecordGuard _ _ _ _ _ | GuardedRecord _ _ | RetireRecordGuard _ _ _ _
  | AdmitRecordIoOwner _ _ =>
      fail (InvalidState "versioned metadata requires a Raft-committed transaction")
  | PutControlState namespace key value if_absent =>
      let ckey := control_key namespace key in
      existing ← (if (if_absent : bool) then get_ctrl ckey else mret None);
      if bool_decide (existing ≠ None) then mret (control_exists namespace key)
      else put_ctrl ckey value;; mret Success
  | DeleteControlState namespace key =>
      del_ctrl (control_key namespace key);; mret Success
  | Noop => mret Success
  | AcquireLock _ _ _ _ _ _ | ReleaseLock _ _ | ForceReleaseLock _ | ExtendLock _ _ _ _ =>
      fail (InvalidState "lock commands act on the lock table") (* not reached from [execute] *)
  end.

Definition execute (c : Command) (sm : FullStateMachine) :
    result Fault (CommandResult * FullStateMachine) :=
  match lock_command c with
  | Some op => let '(r, locks) := op (sm_advisory sm) in Ok (r, set_advisory sm locks)
  | None =>
      match execute_txn c (sm_db sm) with
      | Ok (r, db) => Ok (r, set_db sm db)
      | Err e => Err e
      end
  end.

(** ** The Raft path *)

Definition owned_namespace : CommandResult :=
  Error "conditional revision control state is owned by its apply primitive".

Section codec.
Context `{Codec : MetadataCodec}.

(** The dispatch of [execute_metadata_in_txn] after its two refusal checks. *)
Definition dispatch_in_txn (c : Command) : txn CommandResult :=
  match c with
  | AdmitRecordIoOwner key expected_version => admit_record_io_in_txn key expected_version
  | BindRecordGuard key expected_image guard_key guard_version incarnation =>
      bind_record_guard_in_txn key expected_image guard_key guard_version incarnation
  | RetireRecordGuard key expected_version value incarnation =>
      retire_record_guard_in_txn key expected_version value incarnation
  | SetMetadata key value =>
      refresh_tracked_version key;;
      put_meta key value;;
      mret Success
  | CasSetMetadata key value expected_version =>
      current ← get_meta key;
      current_version ← current_version_of current;
      if (current_version =? expected_version)%N then
        refresh_tracked_version key;;
        put_meta key value;;
        mret (CasResult true (wrap32 (expected_version + 1)))
      else mret (CasResult false current_version)
  | DeleteMetadata key =>
      refresh_tracked_version key;;
      del_meta key;;
      mret Success
  | AdjustCounter key delta =>
      if is_managed_key key
      then mret (Error "counter operations cannot replace managed content metadata")
      else
        v ← get_meta key;
        let new_val := adjusted (counter_value v) delta in
        put_meta key (i64_to_be new_val);;
        mret (Value (i64_to_be new_val))
  | AppendStreamEntry stream_prefix data
  | GuardedRecord _ (Append stream_prefix data) => append_stream_entry stream_prefix data
  | SealStreamSegment stream_prefix base end_ content_id origin size
  | GuardedRecord _ (Seal stream_prefix base end_ content_id origin size) =>
      seal_stream_segment stream_prefix base end_ content_id origin size
  | TrimStreamSegment stream_prefix up_to_seq _
  | GuardedRecord _ (Trim stream_prefix up_to_seq _) =>
      trim_stream_segment stream_prefix up_to_seq
  | PutControlState namespace key value if_absent =>
      if decide (namespace = NAMESPACE) then mret owned_namespace
      else
        let ckey := control_key namespace key in
        existing ← (if (if_absent : bool) then get_ctrl ckey else mret None);
        if bool_decide (existing ≠ None) then mret (control_exists namespace key)
        else put_ctrl ckey value;; mret Success
  | DeleteControlState namespace key =>
      if decide (namespace = NAMESPACE) then mret owned_namespace
      else del_ctrl (control_key namespace key);; mret Success
  | WriteVersionedMetadata key value expected incarnation
  | GuardedRecord _ (ReplaceMetadata key value expected incarnation) =>
      write_versioned_in_txn key value expected incarnation
  | AdoptProtectedMetadata key expected_image incarnation =>
      adopt_protected_in_txn key expected_image incarnation
  | RenameMetadata old_key new_key is_pas => rename_metadata_in_txn old_key new_key is_pas
  | Noop => mret Success
  | AcquireLock _ _ _ _ _ _ | ReleaseLock _ _ | ForceReleaseLock _ | ExtendLock _ _ _ _ =>
      fail (InvalidState "execute_metadata_in_txn called with a lock command")
  end.

Definition execute_metadata_in_txn (c : Command) : txn CommandResult :=
  refusal ← record_guard_refusal c;
  match refusal with
  | Some refusal => mret refusal
  | None =>
      refusal ← match ordinary_metadata_key c with
                | Some key => ordinary_metadata_refusal key
                | None => mret None
                end;
      match refusal with
      | Some refusal => mret refusal
      | None => dispatch_in_txn c
      end
  end.

Definition is_dt_mount (bytes : string) : bool :=
  match decode bytes with
  | Ok p => (fm_entry_type p =? DT_MOUNT)%Z
  | Err _ => false
  end.

Definition peek_is_dt_mount (db : Db) (key : string) : bool :=
  match metadata db !! key with
  | Some bytes => is_dt_mount bytes
  | None => false
  end.

(** The DT_MOUNT key this command removes or overwrites with a non-mount. *)
Definition delete_mount_key (db : Db) (c : Command) : option string :=
  match c with
  | DeleteMetadata key => if peek_is_dt_mount db key then Some key else None
  | SetMetadata key value =>
      if peek_is_dt_mount db key then if is_dt_mount value then None else Some key else None
  | _ => None
  end.

Definition mount_apply_event_from (c : Command) (removed_mount_key : option string) :
    option MountApplyEvent :=
  match c with
  | SetMetadata key value =>
      match decode value with
      | Err _ => None
      | Ok proto =>
          if (fm_entry_type proto =? DT_MOUNT)%Z && bool_decide (fm_target_zone_id proto ≠ "")
          then Some (MountSet key (fm_target_zone_id proto)
                       (subtree_or_whole_zone (fm_target_subtree proto)))
          else if decide (removed_mount_key = Some key) then Some (MountDelete key) else None
      end
  | DeleteMetadata key =>
      if decide (removed_mount_key = Some key) then Some (MountDelete key) else None
  | _ => None
  end.

Definition emit_apply_observers (observers : list ApplyObserver) (index : N) (c : Command)
    (result : CommandResult) (removed_mount_key : option string) :
    list (nat * AppliedEntry) :=
  (λ obs, (obs.2, mkAppliedEntry index c result removed_mount_key)) <$> observers.

(** What a call of [apply] does: it returns (with the observers it invoked), or
    the node panics or hangs inside the transaction, committing nothing. *)
Inductive apply_outcome :=
  | Applied (result : CommandResult) (sm : FullStateMachine) (fired : list (nat * AppliedEntry))
  | Panicked (e : RaftError)
  | Hung.

Definition apply (index : N) (c : Command) (sm : FullStateMachine) : apply_outcome :=
  match lock_command c with
  | Some op =>
      let '(result, locks) := op (sm_advisory sm) in
      let cur := sm_last_applied sm in
      Applied result
        (mkSM (sm_db sm) locks (if (cur <? index)%N then index else cur) (sm_apply_observers sm)) []
  | None =>
      if (index <=? sm_last_applied sm)%N then Applied Success sm []
      else
        let removed_mount_key := delete_mount_key (sm_db sm) c in
        match (result ← execute_metadata_in_txn c;
               put_meta KEY_LAST_APPLIED (u64_to_be index);;
               mret result) (sm_db sm) with
        | Ok (result, db) =>
            Applied result (mkSM db (sm_advisory sm) index (sm_apply_observers sm))
              (emit_apply_observers (sm_apply_observers sm) index c result removed_mount_key)
        | Err (Failed e) => Panicked e
        | Err Diverged => Hung
        end
  end.

(** ** The eventually consistent path *)

Definition requires_strong_consistency (c : Command) (sm : FullStateMachine) : Result bool :=
  if requires_conditional_sc c then Ok true
  else ordinary_write_is_protected (sm_db sm) c.

Definition fault_of {A} (r : Result A) : result Fault A :=
  match r with Ok a => Ok a | Err e => Err (Failed e) end.

Definition ec_writable (c : Command) : bool :=
  match c with
  | SetMetadata _ _ | CasSetMetadata _ _ _ | DeleteMetadata _ | PutControlState _ _ _ _
  | DeleteControlState _ _ => true
  | _ => false
  end.

Definition apply_local (c : Command) (sm : FullStateMachine) :
    result Fault (CommandResult * FullStateMachine) :=
  sc ← fault_of (requires_strong_consistency c sm);
  if (sc : bool)
  then Err (Failed (InvalidState "EC write to SC-managed content is unsupported"))
  else if ec_writable c then execute c sm
  else Err (Failed (InvalidState "Only metadata operations (set/delete) support EC local writes")).

Definition decode_modified_at (bytes : string) : string :=
  match decode bytes with Ok fm => fm_modified_at fm | Err _ => "" end.

(** [OffsetDateTime::parse] of the [time] crate, as Unix seconds ([i64]). *)
Context (parse_rfc3339 : string → option Z).

Definition decode_modified_at_unix (bytes : string) : N :=
  match decode bytes with
  | Ok fm =>
      match parse_rfc3339 (fm_modified_at fm) with
      | Some secs => Z.to_N (secs mod Z.of_N U64_MOD)
      | None => 0%N
      end
  | Err _ => 0%N
  end.

(** The merge decision: [None] for commands the path does not take,
    otherwise whether the entry is applied. *)
Definition lww_accepts (c : Command) (entry_timestamp : N) (db : Db) : option bool :=
  match c with
  | SetMetadata key value =>
      Some match metadata db !! key with
           | Some existing =>
               negb (String.ltb (decode_modified_at value) (decode_modified_at existing))
           | None => true
           end
  | DeleteMetadata key =>
      Some match metadata db !! key with
           | Some existing => negb (entry_timestamp <? decode_modified_at_unix existing)%N
           | None => true
           end
  | _ => None
  end.

Definition apply_ec_with_lww (c : Command) (entry_timestamp : N) (sm : FullStateMachine) :
    result Fault (CommandResult * FullStateMachine * list (nat * AppliedEntry)) :=
  sc ← fault_of (requires_strong_consistency c sm);
  if (sc : bool) then Ok (Success, sm, [])
  else
    match lww_accepts c entry_timestamp (sm_db sm) with
    | None => Err (Failed (InvalidState "Only metadata operations support EC writes"))
    | Some false => Ok (Success, sm, [])
    | Some true =>
        '(result, sm) ← execute c sm;
        mret (result, sm, emit_apply_observers (sm_apply_observers sm) 0 c result None)
    end.

(** ** Reads *)

Section reads.
Variable sm : FullStateMachine.

Definition get_metadata (path : string) : option string := metadata (sm_db sm) !! path.

Definition get_metadata_multi (paths : list string) : list (string * option string) :=
  (λ path, (path, get_metadata path)) <$> paths.

Definition visible_row (row : string * string) : option (string * string) :=
  path ← from_utf8 row.1;
  if starts_with "__" path then None else Some (path, row.2).

Definition list_metadata (prefix : string) : list (string * string) :=
  omap visible_row (scan_prefix prefix (metadata (sm_db sm))).

Definition mount_entry (row : string * string) : option (string * MountDecl) :=
  match decode row.2 with
  | Err _ => None
  | Ok proto =>
      if (fm_entry_type proto =? DT_MOUNT)%Z && bool_decide (fm_target_zone_id proto ≠ "")
      then Some (row.1, mkMountDecl (fm_target_zone_id proto)
                          (subtree_or_whole_zone (fm_target_subtree proto)))
      else None
  end.

Definition iter_dt_mount_entries : list (string * MountDecl) :=
  omap mount_entry (list_metadata "/").

Definition get_control_state (namespace key : string) : option string :=
  control_state (sm_db sm) !! control_key namespace key.

Definition control_row (prefix : string) (row : string * string) : option (string * string) :=
  if (String.length prefix <? String.length row.1) && starts_with prefix row.1
  then key ← from_utf8 (sdrop (String.length prefix) row.1); Some (key, row.2)
  else None.

Definition list_control_state (namespace : string) : list (string * string) :=
  omap (control_row (namespace +:+ String "000" "")) (entries (control_state (sm_db sm))).

Definition CONTROL_NS_AUTH : string := "auth".
Definition get_auth_key (key_hash : string) : option string :=
  get_control_state CONTROL_NS_AUTH key_hash.
Definition list_auth_keys : list (string * string) := list_control_state CONTROL_NS_AUTH.

Definition sm_get_lock (path : string) : option LockInfo := get_lock (sm_advisory sm) path.
Definition sm_list_locks (prefix : string) (limit : nat) : list LockInfo :=
  list_locks (sm_advisory sm) prefix limit.

(** The anti-entropy image of the eventually consistent plane. *)
Definition ec_state_snapshot : Result (list Command) :=
  protected ← protected_metadata_paths (sm_db sm);
  mret ((λ row, SetMetadata row.1 row.2) <$>
    filter (λ row, is_managed_key row.1 = false ∧ row.1 ∉ protected) (list_metadata "")).
End reads.
End codec.

(** ** Snapshots *)

Record Snapshot := mkSnapshot {
  snap_metadata : gmap string string;
  snap_stream_entries : gmap string string;
  snap_control_state : gmap string string;
  snap_advisory : LockState;
  snap_last_applied : N }.

(** Rows whose key decodes as UTF-8, collected into the snapshot's [HashMap]. *)
Definition utf8_rows (m : gmap string string) : gmap string string :=
  filter (λ kv, is_utf8 kv.1 = true) m.

Definition snapshot (sm : FullStateMachine) : Snapshot :=
  mkSnapshot
    (filter (λ kv, is_utf8 kv.1 = true ∧ starts_with "__" kv.1 = false) (metadata (sm_db sm)))
    (utf8_rows (stream_entries (sm_db sm)))
    (utf8_rows (control_state (sm_db sm)))
    (sm_advisory sm)
    (sm_last_applied sm).

Definition restore_snapshot (s : Snapshot) (sm : FullStateMachine) : FullStateMachine :=
  mkSM
    (mkDb (<[KEY_LAST_APPLIED := u64_to_be (snap_last_applied s)]> (snap_metadata s))
       (snap_stream_entries s) (snap_control_state s))
    (snap_advisory s) (snap_last_applied s) (sm_apply_observers sm).

Definition validate_protected_snapshot_policy (s : Snapshot) (policy : MembershipPolicy) :
    Result () :=
  required ← decode_requirement (snap_control_state s !! requirement_key);
  validate_policy required policy.

(** The wire form: bincode is a dependency. *)
Section bincode.
Variable serialize : Snapshot → string.
Variable deserialize : string → Result Snapshot.

Definition snapshot_bytes (sm : FullStateMachine) : string := serialize (snapshot sm).

Definition restore_snapshot_bytes (data : string) (sm : FullStateMachine) :
    Result FullStateMachine :=
  s ← deserialize data; mret (restore_snapshot s sm).

Definition validate_snapshot_membership (data : string) (policy : MembershipPolicy) : Result () :=
  s ← deserialize data; validate_protected_snapshot_policy s policy.
End bincode.
