(* ===== verification/MachineProofs.v ===== *)
(** * Every committed command keeps the record invariant

    The dispatch of the Raft path, command by command: the transaction returns,
    the control-row invariant and the UTF-8 key invariant are kept, records
    evolve as allowed, and the image of a protected record changes only through
    a conditional write, a write under a live owner handle, or retirement. *)

From S2P Require Import Prelude Bytes Codec Table LockState Command StreamTier StreamProofs Version.
From S2P Require Import Records RecordProofs RecordOps Rename RenameProofs StateMachine.

(** ** Typed commands *)

(** What the Rust types guarantee of a command ([String] is UTF-8, [[u8; 16]]
    has sixteen bytes), and the separator-free namespaces of the callers. *)
Definition mutation_typed (m : GuardedRecordMutation) : Prop :=
  match m with
  | ReplaceMetadata key _ _ incarnation => is_utf8 key = true ∧ String.length incarnation = 16
  | Append p _ | Seal p _ _ _ _ _ | Trim p _ _ => is_utf8 p = true
  end.

Definition command_typed (c : Command) : Prop :=
  match c with
  | SetMetadata key _ | DeleteMetadata key | CasSetMetadata key _ _ | AdjustCounter key _ =>
      is_utf8 key = true
  | PutControlState ns key _ _ | DeleteControlState ns key =>
      namespace_ok ns ∧ is_utf8 ns = true ∧ is_utf8 key = true
  | WriteVersionedMetadata key _ _ incarnation | AdoptProtectedMetadata key _ incarnation
  | RetireRecordGuard key _ _ incarnation =>
      is_utf8 key = true ∧ String.length incarnation = 16
  | RenameMetadata old_key new_key _ => is_utf8 old_key = true ∧ is_utf8 new_key = true
  | BindRecordGuard key _ guard_key _ incarnation =>
      is_utf8 key = true ∧ is_utf8 guard_key = true ∧ String.length incarnation = 16
  | GuardedRecord _ m => mutation_typed m
  | AdmitRecordIoOwner key _ => is_utf8 key = true
  | AppendStreamEntry p _ | SealStreamSegment p _ _ _ _ _ | TrimStreamSegment p _ _ =>
      is_utf8 p = true
  | AcquireLock _ _ _ _ _ _ | ReleaseLock _ _ | ExtendLock _ _ _ _ | ForceReleaseLock _
  | Noop => True
  end.

(** The version scan of the stored value returns, where the command runs it. *)
Definition scan_returns (c : Command) (db : Db) : Prop :=
  match c with
  | CasSetMetadata key _ _ =>
      ∀ bytes, metadata db !! key = Some bytes → extract_version bytes ≠ None
  | _ => True
  end.

(** Who may change the image of a protected record. *)
Definition authorised (db : Db) (c : Command) (k : string) : Prop :=
  match c with
  | WriteVersionedMetadata key _ expected _ =>
      key = k ∧ expected = current_version db k ∧ bind db k = None ∧ ret db k = None
  | GuardedRecord guard_version (ReplaceMetadata key _ expected _) =>
      key = k ∧ expected = current_version db k ∧
      ∃ g, bind db k = Some g ∧ live_guard db g guard_version
  | RetireRecordGuard key expected _ _ =>
      key = k ∧ bind db k = None ∧ live_guard db k expected
  | _ => False
  end.

Definition guarded_change (db : Db) (c : Command) (db' : Db) : Prop :=
  ∀ k, pol db k ≠ None → metadata db' !! k ≠ metadata db !! k → authorised db c k.

Definition machine_inv (db : Db) : Prop := ctrl_inv db ∧ meta_utf8 db.

Definition command_post (db : Db) (c : Command) (db' : Db) : Prop :=
  steps db db' ∧ meta_utf8 db' ∧ guarded_change db c db'.

Lemma post_refl db c : machine_inv db → command_post db c db.
Proof. intros [Hi Hu]. split_and!; [by apply steps_refl|done|]. by intros k _ Hk. Qed.

(** Commands that change no image. *)
Lemma post_same_meta db c db' :
  machine_inv db → steps db db' → metadata db' = metadata db → command_post db c db'.
Proof.
  intros [_ Hu] Hs Hm. split_and!; [done| |].
  - intros k. rewrite Hm. apply Hu.
  - intros k _ Hk. by rewrite Hm in Hk.
Qed.

Lemma steps_same_rows db db' : ctrl_inv db → same_rows db db' → steps db db'.
Proof.
  intros Hi Hs. split_and!; eauto using same_rows_inv, same_rows_evolves, same_rows_images.
Qed.

(** Commands that change the image of one unprotected key. *)
Lemma post_one_key db c db' k :
  machine_inv db → steps db db' → is_utf8 k = true → pol db k = None →
  (∀ k', k' ≠ k → metadata db' !! k' = metadata db !! k') → command_post db c db'.
Proof.
  intros [_ Hu] Hs Hk Hp Hm. split_and!; [done| |].
  - intros k' Hk'. destruct (decide (k' = k)) as [->|Hne]; [done|].
    apply Hu. by rewrite <-Hm.
  - intros k' Hp' Hk'. destruct (decide (k' = k)) as [->|Hne]; [done|]. by rewrite Hm in Hk'.
Qed.

Lemma safe_refresh_meta {A} k (f : gmap string string → gmap string string) (m : txn A) (a : A) db
    (Q : A → Db → Prop) :
  ctrl_inv db → pol db k = None →
  (∀ mp k', k' ≠ k → f mp !! k' = mp !! k' :> option string) →
  (∀ db, m db = Ok (a, with_meta f db)) →
  (∀ db', steps db db' → (∀ k', k' ≠ k → metadata db' !! k' = metadata db !! k') → Q a db') →
  safe (refresh_tracked_version k;; m) db Q.
Proof.
  intros Hi Hp Hf Hm HQ. apply safe_bind, safe_refresh; [done|..].
  - intros Hk. unfold safe. rewrite Hm. apply HQ.
    + apply (steps_meta_unversioned f db k); [done| |done].
      destruct Hk; [by apply unmanaged_untracked|done].
    + intros k' Hne. by apply Hf.
  - intros token Hk _ Hfr. unfold safe. rewrite Hm. apply HQ.
    + apply steps_meta_versioned; [done|done|by apply inv_unprotected_not_retired|by left|done].
    + intros k' Hne. by apply Hf.
Qed.

Lemma insert_other k v (m : gmap string string) k' : k' ≠ k → <[k := v]> m !! k' = m !! k'.
Proof. intros Hne. by apply lookup_insert_ne. Qed.
Lemma delete_other k (m : gmap string string) k' : k' ≠ k → delete k m !! k' = m !! k'.
Proof. intros Hne. by apply lookup_delete_ne. Qed.

#[export] Hint Resolve post_refl insert_other delete_other : nexus.

(** ** Stream commands *)

Lemma safe_stream p o db c (Q : CommandResult → Db → Prop) :
  machine_inv db → (∀ r db', command_post db c db' → Q r db') → safe (run_stream_op p o) db Q.
Proof.
  intros Hi HQ. unfold safe. rewrite run_stream_op_eq. apply HQ.
  apply post_same_meta; [done| |done]. apply steps_same_rows; [apply Hi|]. by split.
Qed.

(** ** Metadata commands on unprotected keys *)

Lemma safe_set_metadata key value db c (Q : CommandResult → Db → Prop) :
  machine_inv db → is_utf8 key = true → pol db key = None →
  (∀ r db', command_post db c db' → Q r db') →
  safe (refresh_tracked_version key;; put_meta key value;; mret Success) db Q.
Proof.
  intros Hi Hk Hp HQ.
  apply (safe_refresh_meta key <[key := value]> _ Success); [apply Hi|done|..|done|].
  - intros. by apply insert_other.
  - intros db' Hs Hm. by apply HQ, (post_one_key db c db' key).
Qed.

Lemma safe_delete_metadata key db c (Q : CommandResult → Db → Prop) :
  machine_inv db → is_utf8 key = true → pol db key = None →
  (∀ r db', command_post db c db' → Q r db') →
  safe (refresh_tracked_version key;; del_meta key;; mret Success) db Q.
Proof.
  intros Hi Hk Hp HQ.
  apply (safe_refresh_meta key (delete key) _ Success); [apply Hi|done|..|done|].
  - intros. by apply delete_other.
  - intros db' Hs Hm. by apply HQ, (post_one_key db c db' key).
Qed.

Section machine.
Context `{Codec : MetadataCodec}.

Lemma safe_cas key value expected db c (Q : CommandResult → Db → Prop) :
  machine_inv db → is_utf8 key = true → pol db key = None →
  (∀ bytes, metadata db !! key = Some bytes → extract_version bytes ≠ None) →
  (∀ r db', command_post db c db' → Q r db') →
  safe (dispatch_in_txn (CasSetMetadata key value expected)) db Q.
Proof.
  intros Hi Hk Hp Hv HQ. cbn [dispatch_in_txn]. apply safe_bind, safe_get_meta, safe_bind.
  assert (∃ v, ∀ Q', Q' v db → safe (current_version_of (metadata db !! key)) db Q') as [v Hsafe].
  { destruct (metadata db !! key) as [bytes|]; [|by exists 0%N].
    destruct (extract_version bytes) as [v|] eqn:He; [|by destruct (Hv bytes)].
    exists v. intros Q' HQ'. unfold current_version_of, terminating. by rewrite He. }
  apply Hsafe. destruct (v =? expected)%N; [|by apply safe_ret, HQ, post_refl].
  apply (safe_refresh_meta key <[key := value]> _ (CasResult true (wrap32 (expected + 1))));
    [apply Hi|done|..|done|].
  - intros. by apply insert_other.
  - intros db' Hs Hm. by apply HQ, (post_one_key db c db' key).
Qed.

Lemma safe_adjust key delta db c (Q : CommandResult → Db → Prop) :
  machine_inv db → is_utf8 key = true → pol db key = None →
  (∀ r db', command_post db c db' → Q r db') →
  safe (dispatch_in_txn (AdjustCounter key delta)) db Q.
Proof.
  intros Hi Hk Hp HQ. cbn [dispatch_in_txn].
  destruct (is_managed_key key) eqn:Hm; [by apply safe_ret, HQ, post_refl|].
  apply safe_bind, safe_get_meta, safe_bind, safe_put_meta, safe_ret, HQ.
  apply (post_one_key _ _ _ key); [done| |done|done|].
  - apply (steps_meta_unversioned _ db key); [apply Hi| |intros; by apply insert_other].
    apply unmanaged_untracked; [apply Hi|done|done].
  - intros k' Hne. by apply insert_other.
Qed.

Lemma delete_user_same_rows ns key db :
  crow_ok (CUser ns key) → same_rows db (with_ctrl (delete (crow_key (CUser ns key))) db).
Proof.
  intros Hok. split; [done|]. intros r Hr Hn. unfold crow_at.
  cbn [control_state with_ctrl]. rewrite crow_lookup_delete by done.
  by rewrite decide_False by (intros <-; by eapply Hn).
Qed.

Lemma safe_put_control ns key value if_absent db c (Q : CommandResult → Db → Prop) :
  machine_inv db → namespace_ok ns → (∀ r db', command_post db c db' → Q r db') →
  safe (dispatch_in_txn (PutControlState ns key value if_absent)) db Q.
Proof.
  intros Hi Hns HQ. cbn [dispatch_in_txn]. case_decide as Hn; [by apply safe_ret, HQ, post_refl|].
  apply safe_bind.
  assert (∃ o, ∀ Q' : option string → Db → Prop, Q' o db →
    safe (if if_absent then get_ctrl (control_key ns key) else mret None) db Q') as [o Ho].
  { destruct if_absent; [by exists (control_state db !! control_key ns key)|by exists None]. }
  apply Ho. case_bool_decide; [by apply safe_ret, HQ, post_refl|].
  apply safe_bind, (safe_put_row (CUser ns key)), safe_ret, HQ.
  apply post_same_meta; [done| |done]. apply steps_same_rows; [apply Hi|].
  by apply set_user_same_rows.
Qed.

Lemma safe_delete_control ns key db c (Q : CommandResult → Db → Prop) :
  machine_inv db → namespace_ok ns → (∀ r db', command_post db c db' → Q r db') →
  safe (dispatch_in_txn (DeleteControlState ns key)) db Q.
Proof.
  intros Hi Hns HQ. cbn [dispatch_in_txn]. case_decide as Hn; [by apply safe_ret, HQ, post_refl|].
  apply safe_bind.
  change (safe (mret Success) (with_ctrl (delete (crow_key (CUser ns key))) db) Q).
  apply safe_ret, HQ, post_same_meta; [done| |done]. apply steps_same_rows; [apply Hi|].
  by apply delete_user_same_rows.
Qed.

(** A conditional write, given what makes it authorised if it commits. *)
Lemma safe_conditional k value expected inc db c (Q : CommandResult → Db → Prop) :
  machine_inv db → is_utf8 k = true → String.length inc = 16 → ret db k = None →
  (current_version db k = expected → authorised db c k) →
  (∀ r db', command_post db c db' → Q r db') →
  safe (write_versioned_in_txn k value expected inc) db Q.
Proof.
  intros [Hi Hu] Hk Hinc Hr Hauth HQ. apply safe_write_versioned; [done|done|..].
  - intros r _ _. by apply HQ, post_refl.
  - intros token [Hsc _] Hf Hcur. apply HQ. split_and!.
    + apply steps_meta_versioned; [done|done|done|done|]. intros. by apply insert_other.
    + intros k' Hk'. destruct (decide (k' = k)) as [->|Hne]; [done|].
      cbn [metadata with_meta] in Hk'. rewrite insert_other in Hk' by done. by apply Hu.
    + intros k' Hp Hk'. destruct (decide (k' = k)) as [->|Hne]; [by apply Hauth|].
      cbn [metadata with_meta] in Hk'. by rewrite insert_other in Hk'.
Qed.


(** ** Rename *)

Lemma dir_of_utf8 k : is_utf8 k = true → is_utf8 (dir_of k) = true.
Proof. intros Hk. apply is_utf8_app_true; [by apply is_utf8_trim_end|done]. Qed.

Lemma rename_target_utf8 old new s :
  is_utf8 old = true → is_utf8 new = true → is_utf8 s = true →
  s = old ∨ starts_with (dir_of old) s = true → is_utf8 (rename_target old new s) = true.
Proof.
  intros Ho Hn Hs Hc. unfold rename_target. case_decide; [done|].
  destruct Hc as [|[x ->]%starts_with_true]; [done|]. rewrite sdrop_app.
  apply is_utf8_app_true; [by apply dir_of_utf8|].
  by rewrite is_utf8_app in Hs by (by apply dir_of_utf8).
Qed.

Lemma post_rename old new is_pas rows changes db db' c :
  machine_inv db → is_utf8 old = true → is_utf8 new = true →
  (∀ k v, (k, v) ∈ rows ↔
     metadata db !! k = Some v ∧ (k = old ∨ starts_with (dir_of old) k = true)) →
  Forall2 (change_ok old new is_pas db) rows changes →
  steps db db' → metadata db' = moved changes (metadata db) → command_post db c db'.
Proof.
  intros [Hi Hu] Ho Hn Hrows Hc Hs Hm.
  assert (∀ ch, ch ∈ changes → pol db (ch_source ch) = None ∧ pol db (ch_target ch) = None ∧
            is_utf8 (ch_target ch) = true) as Hch.
  { intros ch Hin. apply list_elem_of_lookup in Hin as [i Hl].
    destruct (Forall2_lookup_r _ _ _ _ _ Hc Hl) as ([k v] & Hr & (Hsrc & Ht & Hp1 & Hp2 & _)).
    split_and!; [done..|]. apply list_elem_of_lookup_2, Hrows in Hr as [Hk Hsub].
    cbn [fst snd] in *. rewrite Ht. apply rename_target_utf8; try done. apply Hu. by rewrite Hk. }
  assert (∀ k, metadata db' !! k ≠ metadata db !! k →
    ∃ ch, ch ∈ changes ∧ (k = ch_source ch ∨ k = ch_target ch)) as Hdiff.
  { intros k Hk. rewrite Hm in Hk.
    destruct (decide (k ∈ ch_source <$> changes)) as [(ch & -> & ?)%list_elem_of_fmap|H1]; [by eauto|].
    destruct (decide (k ∈ ch_target <$> changes)) as [(ch & -> & ?)%list_elem_of_fmap|H2]; [by eauto|].
    by rewrite moved_other in Hk. }
  split_and!; [done| |].
  - intros k Hk. rewrite Hm in Hk. unfold moved in Hk.
    destruct (decide (k ∈ ch_target <$> changes)) as [(ch & -> & Hin)%list_elem_of_fmap|Hnt].
    + by apply Hch.
    + rewrite with_targets_other, without_sources_lookup in Hk by done.
      case_decide; [done|]. by apply Hu.
  - intros k Hp Hk. destruct (Hdiff k Hk) as (ch & Hin & Hkc). destruct (Hch ch Hin) as (?&?&_).
    destruct Hkc; subst; congruence.
Qed.

(** ** The dispatch *)

(** The owner fence in front of a command. *)
Lemma safe_guard_refusal c db (Q : option CommandResult → Db → Prop) :
  ctrl_inv db →
  (∀ e, Q (Some (Error e)) db) →
  ((∀ gv m, c = GuardedRecord gv m →
      ∃ k g, mutation_key m = Some k ∧ bind db k = Some g ∧ live_guard db g gv) →
   (∀ k, (∀ gv m, c ≠ GuardedRecord gv m) → guarded_record_key c = Some k →
      ret db k = None ∧ bind db k = None) → Q None db) →
  safe (record_guard_refusal c) db Q.
Proof.
  intros Hi H1 H2.
  assert (safe (unguarded_refusal c) db
      (λ o db', db' = db ∧ ((∃ e, o = Some (Error e)) ∨
         o = None ∧ ∀ k, guarded_record_key c = Some k → ret db k = None ∧ bind db k = None)))
    as Hord.
  { unfold unguarded_refusal. destruct (malformed_wal_prefix c); [apply safe_ret; eauto|].
    destruct (guarded_record_key c) as [k|]; [|apply safe_ret; naive_solver].
    apply safe_bind, (safe_get_row (CRet k)). case_bool_decide as Hr; [apply safe_ret; eauto|].
    apply safe_bind, (safe_get_row (CBind k)), safe_ret. split; [done|].
    case_bool_decide as Hb; [by eauto|]. right. split; [done|]. intros k' [= <-].
    split; [by destruct (ret db k); [destruct Hr|]|by destruct (bind db k); [destruct Hb|]]. }
  assert ((∀ gv m, c ≠ GuardedRecord gv m) → safe (unguarded_refusal c) db Q) as Hcase.
  { intros Hc. eapply safe_mono; [exact Hord|]. intros o db' [-> [[e ->]|[-> Hk]]]; [apply H1|].
    apply H2; [intros gv m ->; by destruct (Hc gv m)|]. intros k _. apply Hk. }
  clear Hord. destruct c; try (apply Hcase; intros gv m; discriminate).
  cbn [record_guard_refusal].
  unfold guarded_record_refusal. destruct (mutation_key mutation) as [k|] eqn:Hmk; [|by apply safe_ret].
  apply safe_bind, (safe_get_row (CBind k)). destruct (bind db k) as [g|] eqn:Hb; [|by apply safe_ret].
  destruct (inv_bind _ Hi _ _ Hb) as (Hu & _ & _). rewrite from_utf8_true by done.
  apply safe_bind, safe_live; [done|..]; intros Hl; apply safe_ret; [|apply H1].
  apply H2; [|naive_solver]. intros gv m [= <- <-]. eauto.
Qed.

Lemma safe_dispatch c db (Q : CommandResult → Db → Prop) :
  machine_inv db → command_typed c → lock_command c = None → scan_returns c db →
  (∀ k, ordinary_metadata_key c = Some k → pol db k = None) →
  (∀ gv m, c = GuardedRecord gv m →
     ∃ k g, mutation_key m = Some k ∧ bind db k = Some g ∧ live_guard db g gv) →
  (∀ k, (∀ gv m, c ≠ GuardedRecord gv m) → guarded_record_key c = Some k →
     ret db k = None ∧ bind db k = None) →
  (∀ r db', command_post db c db' → Q r db') →
  safe (dispatch_in_txn c) db Q.
Proof.
  intros Hi Hty Hlock Hscan Hord Hguard Hrec HQ. pose proof Hi as [Hc Hu].
  destruct c; try discriminate Hlock.
  - (* SetMetadata *) eapply safe_set_metadata; [exact Hi|exact Hty|by apply Hord|exact HQ].
  - (* DeleteMetadata *) eapply safe_delete_metadata; [exact Hi|exact Hty|by apply Hord|exact HQ].
  - (* CasSetMetadata *) eapply safe_cas; [exact Hi|exact Hty|by apply Hord|exact Hscan|exact HQ].
  - (* AdjustCounter *) eapply safe_adjust; [exact Hi|exact Hty|by apply Hord|exact HQ].
  - (* AppendStreamEntry *) eapply (safe_stream stream_prefix (OpAppend data)); [exact Hi|exact HQ].
  - (* Noop *) by apply safe_ret, HQ, post_refl.
  - (* PutControlState *) eapply safe_put_control; [exact Hi|apply Hty|exact HQ].
  - (* DeleteControlState *) eapply safe_delete_control; [exact Hi|apply Hty|exact HQ].
  - (* SealStreamSegment *)
    eapply (safe_stream stream_prefix (OpSeal base end_ content_id origin size)); [exact Hi|exact HQ].
  - (* TrimStreamSegment *) eapply (safe_stream stream_prefix (OpTrim up_to_seq)); [exact Hi|exact HQ].
  - (* WriteVersionedMetadata *)
    destruct Hty as [Hk Hinc]. destruct (Hrec key) as [Hr Hb]; [done|done|].
    eapply safe_conditional; [exact Hi|done..| |exact HQ]. by intros <-.
  - (* AdoptProtectedMetadata *)
    destruct Hty as [Hk Hinc]. apply safe_adopt; [done|done|..].
    + intros _. by apply HQ, post_refl.
    + intros _ _. by apply HQ, post_refl.
    + intros db' _ _ [Hs Hm _ _ _]. by apply HQ, post_same_meta.
  - (* RenameMetadata *)
    destruct Hty as [Ho Hn]. apply safe_rename; [done|done|..].
    + intros r _. by apply HQ, post_refl.
    + intros rows changes db' Hrows Hch _ _ _ Hs Hm. by apply HQ, (post_rename old_key new_key is_pas rows changes).
  - (* BindRecordGuard *)
    destruct Hty as (Hk & Hg & Hinc). apply safe_bind_guard; [done|done|done|..].
    + intros r. by apply HQ, post_refl.
    + intros db' _ _ Hs Hm _. by apply HQ, post_same_meta.
  - (* GuardedRecord *)
    destruct (Hguard _ _ eq_refl) as (k & g & Hmk & Hb & Hl). destruct mutation; simpl in Hmk.
    + injection Hmk as ->. destruct Hty as [Hk Hinc].
      eapply safe_conditional; [exact Hi|done|done|..|exact HQ].
      * destruct (ret db k) as [v|] eqn:Hr; [|done]. by destruct (inv_bound_not_retired _ _ _ _ Hc Hb Hr).
      * intros <-. split_and!; [done|done|]. by exists g.
    + eapply (safe_stream stream_prefix (OpAppend data)); [exact Hi|exact HQ].
    + eapply (safe_stream stream_prefix (OpSeal base end_ content_id origin size)); [exact Hi|exact HQ].
    + eapply (safe_stream stream_prefix (OpTrim up_to_seq)); [exact Hi|exact HQ].
  - (* RetireRecordGuard *)
    destruct Hty as [Hk Hinc]. apply safe_retire; [done|done|..].
    + by apply HQ, post_refl.
    + intros token db' Hl Hb Hs Hm _. apply HQ. split_and!; [done| |].
      * intros k' Hk'. rewrite Hm in Hk'. destruct (decide (k' = key)) as [->|Hne]; [done|].
        rewrite insert_other in Hk' by done. by apply Hu.
      * intros k' Hp Hk'. rewrite Hm in Hk'. destruct (decide (k' = key)) as [->|Hne]; [done|].
        by rewrite insert_other in Hk'.
  - (* AdmitRecordIoOwner *)
    apply safe_admit_io; [done|..].
    + intros r. by apply HQ, post_refl.
    + intros db' _ Hs Hm. by apply HQ, post_same_meta.
Qed.

Lemma safe_execute c db :
  machine_inv db → command_typed c → lock_command c = None → scan_returns c db →
  safe (execute_metadata_in_txn c) db (λ _ db', command_post db c db').
Proof.
  intros Hi Hty Hlock Hscan. unfold execute_metadata_in_txn.
  apply safe_bind, safe_guard_refusal; [apply Hi|intros e; by apply safe_ret, post_refl|].
  intros Hguard Hrec. apply safe_bind.
  destruct (ordinary_metadata_key c) as [k|] eqn:Hk.
  - apply safe_ordinary; [apply Hi| |intros e _; by apply safe_ret, post_refl]. intros Hp.
    apply safe_dispatch; try done. intros k' Hk'. congruence.
  - apply safe_ret. apply safe_dispatch; try done. intros k' Hk'. congruence.
Qed.
End machine.
