(* ===== verification/KeysUtf8.v ===== *)
(** * Every key is UTF-8

    The keys of the three trees come from the [String] fields of commands, so
    a snapshot, which drops rows whose key does not decode, loses none of them.
    The file has the weak triple [keeps] for it: whenever a transaction commits,
    the keys are still UTF-8. *)

From S2P Require Import Prelude Bytes Codec Table LockState Command StreamTier Version Records.
From S2P Require Import RecordProofs Rename RenameProofs StateMachine MachineProofs.

(** ** Keys *)

Definition keys_utf8 (m : gmap string string) : Prop := ∀ k v, m !! k = Some v → is_utf8 k = true.

Record db_utf8 (db : Db) : Prop := {
  utf8_metadata : keys_utf8 (metadata db);
  utf8_streams : keys_utf8 (stream_entries db);
  utf8_control : keys_utf8 (control_state db) }.

Lemma keys_utf8_insert k v m : is_utf8 k = true → keys_utf8 m → keys_utf8 (<[k := v]> m).
Proof. intros Hk Hm k' v' [[<- _]|[_ Hl]]%lookup_insert_Some; [done|by eapply Hm]. Qed.

Lemma keys_utf8_delete k m : keys_utf8 m → keys_utf8 (delete k m).
Proof. intros Hm k' v' [_ Hl]%lookup_delete_Some. by eapply Hm. Qed.

Lemma db_utf8_empty : db_utf8 db_empty.
Proof. split; intros k v Hk; discriminate Hk. Qed.

(** ** The triple *)

Definition keeps {A} (P : A → Prop) (m : txn A) : Prop :=
  ∀ db a db', db_utf8 db → m db = Ok (a, db') → db_utf8 db' ∧ P a.

Abbreviation always := (λ _, True).

Lemma keeps_ret {A} (P : A → Prop) a : P a → keeps P (mret a).
Proof. intros Ha db a' db' Hdb H. txn_prim H. done. Qed.

Lemma keeps_bind {A B} (P : A → Prop) (Q : B → Prop) (m : txn A) (f : A → txn B) :
  keeps P m → (∀ a, P a → keeps Q (f a)) → keeps Q (m ≫= f).
Proof.
  intros Hm Hf db b db'' Hdb (a & db' & H1 & H2)%txn_bind_Ok.
  destruct (Hm _ _ _ Hdb H1) as [Hdb' Ha]. by eapply Hf.
Qed.

Lemma keeps_weaken {A} (P Q : A → Prop) (m : txn A) : keeps P m → (∀ a, P a → Q a) → keeps Q m.
Proof. intros Hm HPQ db a db' Hdb H. destruct (Hm _ _ _ Hdb H) as [? ?]. eauto. Qed.

Lemma keeps_then {A B} (Q : B → Prop) (m : txn A) (f : A → txn B) :
  keeps always m → (∀ a, keeps Q (f a)) → keeps Q (m ≫= f).
Proof. intros Hm Hf. eapply keeps_bind; [exact Hm|]. intros a _. apply Hf. Qed.

Lemma keeps_fail {A} (P : A → Prop) e : keeps P (fail e).
Proof. intros db a db' _ H. discriminate H. Qed.

Lemma keeps_lift {A} (P : A → Prop) (r : Result A) : (∀ a, r = Ok a → P a) → keeps P (lift r).
Proof. intros HP db a db' Hdb H. apply lift_Ok in H as [H ->]. eauto. Qed.

Lemma keeps_terminating {A} (r : option A) : keeps always (terminating r).
Proof. intros db a db' Hdb H. apply terminating_Ok in H as [H ->]. done. Qed.

Lemma keeps_get_meta k : keeps always (get_meta k).
Proof. intros db a db' Hdb H. txn_prim H. done. Qed.
Lemma keeps_get_ctrl k : keeps always (get_ctrl k).
Proof. intros db a db' Hdb H. txn_prim H. done. Qed.
Lemma keeps_get_stream k : keeps always (get_stream k).
Proof. intros db a db' Hdb H. txn_prim H. done. Qed.
Lemma keeps_range_stream lo hi : keeps always (range_stream lo hi).
Proof. intros db a db' Hdb H. txn_prim H. done. Qed.
Lemma keeps_range_meta lo hi : keeps always (range_meta lo hi).
Proof. intros db a db' Hdb H. txn_prim H. done. Qed.

Lemma keeps_put_meta k v : is_utf8 k = true → keeps always (put_meta k v).
Proof.
  intros Hk db a db' [H1 H2 H3] H. txn_prim H. split; [|done]. split; [|done|done].
  by apply keys_utf8_insert.
Qed.
Lemma keeps_put_ctrl k v : is_utf8 k = true → keeps always (put_ctrl k v).
Proof.
  intros Hk db a db' [H1 H2 H3] H. txn_prim H. split; [|done]. split; [done|done|].
  by apply keys_utf8_insert.
Qed.
Lemma keeps_put_stream k v : is_utf8 k = true → keeps always (put_stream k v).
Proof.
  intros Hk db a db' [H1 H2 H3] H. txn_prim H. split; [|done]. split; [done| |done].
  by apply keys_utf8_insert.
Qed.
Lemma keeps_del_meta k : keeps always (del_meta k).
Proof.
  intros db a db' [H1 H2 H3] H. txn_prim H. split; [|done]. split; [|done|done].
  by apply keys_utf8_delete.
Qed.
Lemma keeps_del_ctrl k : keeps always (del_ctrl k).
Proof.
  intros db a db' [H1 H2 H3] H. txn_prim H. split; [|done]. split; [done|done|].
  by apply keys_utf8_delete.
Qed.
Lemma keeps_del_stream k : keeps always (del_stream k).
Proof.
  intros db a db' [H1 H2 H3] H. txn_prim H. split; [|done]. split; [done| |done].
  by apply keys_utf8_delete.
Qed.

Create HintDb keeps.
#[export] Hint Resolve keeps_fail keeps_terminating keeps_get_meta keeps_get_ctrl keeps_get_stream
  keeps_range_stream keeps_range_meta keeps_put_meta keeps_put_ctrl keeps_put_stream keeps_del_meta
  keeps_del_ctrl keeps_del_stream : keeps.

(** Walk through a transaction: binds, guards and primitives. *)
Ltac keeps_step :=
  lazymatch goal with
  | |- keeps _ (mret _) => apply keeps_ret; try done
  | |- keeps _ (_ ≫= _) => apply keeps_then; [|intros ?]
  | |- keeps _ (lift _) => apply keeps_lift; try done
  | |- keeps _ (if ?b then _ else _) => destruct b
  | |- keeps _ (match ?x with _ => _ end) => destruct x
  | |- keeps _ _ => progress eauto with keeps
  end.
Ltac keeps_tac := repeat keeps_step.

(** ** Keys of the control rows and of the streams *)

Lemma utf8_control_key ns k : is_utf8 ns = true → is_utf8 k = true → is_utf8 (control_key ns k) = true.
Proof. intros Hn Hk. apply is_utf8_app_true; [done|]. by cbn [is_utf8]. Qed.

Lemma utf8_reserved prefix k :
  is_utf8 prefix = true → is_utf8 k = true → is_utf8 (control_key NAMESPACE (prefix +:+ k)) = true.
Proof. intros Hp Hk. apply utf8_control_key; [done|]. by apply is_utf8_app_true. Qed.

Lemma utf8_stream_key name p : is_utf8 name = true → is_utf8 p = true → is_utf8 (name +:+ p) = true.
Proof. apply is_utf8_app_true. Qed.

Lemma utf8_revision_key k : is_utf8 k = true → is_utf8 (revision_key k) = true.
Proof. by apply utf8_reserved. Qed.
Lemma utf8_policy_key k : is_utf8 k = true → is_utf8 (policy_key k) = true.
Proof. by apply utf8_reserved. Qed.
Lemma utf8_binding_key k : is_utf8 k = true → is_utf8 (record_control_key BINDING_PREFIX k) = true.
Proof. by apply utf8_reserved. Qed.
Lemma utf8_retired_key k : is_utf8 k = true → is_utf8 (record_control_key RETIRED_PREFIX k) = true.
Proof. by apply utf8_reserved. Qed.
Lemma utf8_tail_key p : is_utf8 p = true → is_utf8 (stream_tail_key p) = true.
Proof. by apply is_utf8_app_true. Qed.
Lemma utf8_floor_key p : is_utf8 p = true → is_utf8 (stream_floor_key p) = true.
Proof. by apply is_utf8_app_true. Qed.
Lemma utf8_earliest_key p : is_utf8 p = true → is_utf8 (stream_earliest_key p) = true.
Proof. by apply is_utf8_app_true. Qed.
Lemma utf8_segment_key p base : is_utf8 p = true → is_utf8 (stream_segment_key p base) = true.
Proof. intros Hp. apply is_utf8_app_true; [by apply is_utf8_app_true|apply is_utf8_dec_fixed]. Qed.
Lemma utf8_entry_key p seq : is_utf8 p = true → is_utf8 (entry_key p seq) = true.
Proof. intros Hp. apply is_utf8_app_true; [done|apply is_utf8_pretty]. Qed.

#[export] Hint Resolve utf8_control_key utf8_revision_key utf8_policy_key utf8_binding_key
  utf8_retired_key utf8_tail_key utf8_floor_key utf8_earliest_key utf8_segment_key
  utf8_entry_key : keeps.

(** ** Operations *)

Lemma keeps_allocate k initial : is_utf8 k = true → keeps always (allocate_revision k initial).
Proof. intros Hk. unfold allocate_revision. keeps_tac. Qed.

Lemma keeps_refresh k : is_utf8 k = true → keeps always (refresh_tracked_version k).
Proof. intros Hk. unfold refresh_tracked_version, revision_in_txn. pose proof (keeps_allocate k None Hk). keeps_tac. Qed.

Lemma keeps_ordinary k : keeps always (ordinary_metadata_refusal k).
Proof. unfold ordinary_metadata_refusal, protected_in_txn, record_policy_in_txn. keeps_tac. Qed.

Lemma keeps_protected k : keeps always (protected_in_txn k).
Proof. unfold protected_in_txn, record_policy_in_txn. keeps_tac. Qed.

Lemma keeps_format guarded : keeps always (require_record_format_in_txn guarded).
Proof. unfold require_record_format_in_txn. keeps_tac. Qed.

Lemma keeps_mark_owner k : is_utf8 k = true → keeps always (mark_record_owner_in_txn k).
Proof. intros Hk. unfold mark_record_owner_in_txn, record_policy_in_txn. keeps_tac. Qed.

Lemma keeps_live k v : keeps always (live_record_guard_in_txn k v).
Proof.
  unfold live_record_guard_in_txn, record_control_in_txn, metadata_in_txn, revision_in_txn.
  pose proof (keeps_protected k). keeps_tac.
Qed.

#[export] Hint Resolve keeps_allocate keeps_refresh keeps_ordinary keeps_protected keeps_format
  keeps_mark_owner keeps_live : keeps.

Lemma keeps_adopt k image inc : is_utf8 k = true → keeps always (adopt_protected_in_txn k image inc).
Proof. intros Hk. unfold adopt_protected_in_txn, metadata_in_txn. keeps_tac. Qed.

Lemma keeps_write k v expected inc :
  is_utf8 k = true → keeps always (write_versioned_in_txn k v expected inc).
Proof. intros Hk. unfold write_versioned_in_txn, metadata_in_txn, revision_in_txn. keeps_tac. Qed.

#[export] Hint Resolve keeps_adopt keeps_write : keeps.

Lemma keeps_guard_refusal c : keeps always (record_guard_refusal c).
Proof.
  unfold record_guard_refusal, guarded_record_refusal, unguarded_refusal, record_control_in_txn.
  keeps_tac.
Qed.

Lemma keeps_bind_guard k image g gv inc :
  is_utf8 k = true → is_utf8 g = true → keeps always (bind_record_guard_in_txn k image g gv inc).
Proof.
  intros Hk Hg. unfold bind_record_guard_in_txn, is_record_owner_in_txn, record_policy_in_txn,
    record_control_in_txn, put_record_control_in_txn, metadata_in_txn. keeps_tac.
Qed.

Lemma keeps_retire k expected image inc :
  is_utf8 k = true → keeps always (retire_record_guard_in_txn k expected image inc).
Proof.
  intros Hk. unfold retire_record_guard_in_txn, record_control_in_txn, put_record_control_in_txn.
  keeps_tac.
Qed.

Lemma keeps_admit k expected : is_utf8 k = true → keeps always (admit_record_io_in_txn k expected).
Proof.
  intros Hk. unfold admit_record_io_in_txn, record_control_in_txn, mark_record_io_owner_in_txn.
  keeps_tac.
Qed.

(** ** Streams *)

Lemma keeps_remove_keys ks : keeps always (remove_keys ks).
Proof. induction ks; cbn [remove_keys]; keeps_tac. Qed.

#[export] Hint Resolve keeps_remove_keys keeps_guard_refusal keeps_bind_guard keeps_retire
  keeps_admit : keeps.

Lemma keeps_append p data : is_utf8 p = true → keeps always (append_stream_entry p data).
Proof. intros Hp. unfold append_stream_entry, get_cursor. keeps_tac. Qed.

Lemma keeps_seal p base end_ cid origin size :
  is_utf8 p = true → keeps always (seal_stream_segment p base end_ cid origin size).
Proof. intros Hp. unfold seal_stream_segment, get_cursor. keeps_tac. Qed.

Lemma keeps_trim p up_to : is_utf8 p = true → keeps always (trim_stream_segment p up_to).
Proof. intros Hp. unfold trim_stream_segment, get_cursor. keeps_tac. Qed.

#[export] Hint Resolve keeps_append keeps_seal keeps_trim : keeps.

(** ** Rename *)

Section rename.
Context `{Codec : MetadataCodec}.

Definition in_subtree (old : string) (row : string * string) : Prop :=
  is_utf8 row.1 = true ∧ (row.1 = old ∨ starts_with (dir_of old) row.1 = true).

Lemma rename_scan_subtree old rows rest :
  rename_scan (dir_of old) rows = Ok rest → Forall (in_subtree old) rest.
Proof.
  revert rest. induction rows as [|[k v] rows IH]; intros rest Hs; cbn [rename_scan] in Hs.
  { injection Hs as <-. constructor. }
  destruct (starts_with (dir_of old) k) eqn:Hp; cbn [negb] in Hs; [|injection Hs as <-; constructor].
  unfold from_utf8 in Hs. destruct (is_utf8 k) eqn:Hu; [|done].
  apply result_bind_Ok in Hs as (rest' & Hs & [= <-]). constructor; [|by apply IH].
  split; [done|by right].
Qed.

Lemma keeps_rename_rows old :
  is_utf8 old = true → keeps (Forall (in_subtree old)) (metadata_rename_rows old (dir_of old)).
Proof.
  intros Ho. unfold metadata_rename_rows. apply keeps_then; [eauto with keeps|intros image].
  apply keeps_then; [eauto with keeps|intros rows].
  apply (keeps_bind (Forall (in_subtree old))).
  - apply keeps_lift. intros rest. apply rename_scan_subtree.
  - intros rest Hr. apply keeps_ret. destruct image; [|done]. constructor; [|done].
    split; [done|by left].
Qed.

Definition targets_utf8 (r : CommandResult + list (string * string * string)) : Prop :=
  match r with
  | inl _ => True
  | inr changes => Forall (λ c, is_utf8 c.1.1 = true ∧ is_utf8 c.1.2 = true) changes
  end.

Lemma keeps_rename_changes old new is_pas rows :
  is_utf8 old = true → is_utf8 new = true → Forall (in_subtree old) rows →
  keeps targets_utf8 (rename_changes old new is_pas rows).
Proof.
  intros Ho Hn Hrows. induction Hrows as [|[s image] rows [Hs Hsub] Hrows IH];
    cbn [rename_changes].
  { apply keeps_ret. constructor. }
  apply keeps_then; [eauto with keeps|intros [r1|]; [by apply keeps_ret|]].
  apply keeps_then; [eauto with keeps|intros [r2|]; [by apply keeps_ret|]].
  destruct (decode_rename_entry image s) as [m|e]; [|by apply keeps_ret].
  apply keeps_then; [unfold rename_target_refusal; keeps_tac|intros [r3|]; [by apply keeps_ret|]].
  eapply keeps_bind; [exact IH|]. intros [r|changes] Hc; apply keeps_ret; [done|].
  constructor; [|done]. split; [done|]. by apply rename_target_utf8.
Qed.

Lemma keeps_rename_writes changes :
  Forall (λ c, is_utf8 c.1.1 = true ∧ is_utf8 c.1.2 = true) changes →
  keeps always (rename_revisions changes) ∧ keeps always (remove_sources changes) ∧
  keeps always (insert_targets changes).
Proof.
  induction 1 as [|[[s t] image] changes [Hs Ht] _ (IH1 & IH2 & IH3)];
    cbn [rename_revisions remove_sources insert_targets]; split_and!; keeps_tac.
Qed.

Lemma keeps_rename old new is_pas :
  is_utf8 old = true → is_utf8 new = true → keeps always (rename_metadata_in_txn old new is_pas).
Proof.
  intros Ho Hn. unfold rename_metadata_in_txn.
  destruct (validate_path_fast old) as [[]|], (validate_path_fast new) as [[]|];
    try by apply keeps_ret.
  case_decide; [by apply keeps_ret|]. destruct (_ || _); [by apply keeps_ret|].
  eapply keeps_bind; [by apply keeps_rename_rows|]. intros rows Hrows.
  apply keeps_then; [unfold rename_target_refusal; keeps_tac|intros [r|]; [by apply keeps_ret|]].
  eapply keeps_bind; [by apply keeps_rename_changes|]. intros [r|changes] Hc; [by apply keeps_ret|].
  destruct (keeps_rename_writes _ Hc) as (H1 & H2 & H3). keeps_tac.
Qed.

(** ** The command dispatch *)

Lemma keeps_current_version o : keeps always (current_version_of o).
Proof. destruct o; cbn [current_version_of]; keeps_tac. Qed.

Lemma keeps_dispatch c : command_typed c → keeps always (dispatch_in_txn c).
Proof.
  pose proof keeps_current_version. pose proof keeps_rename.
  destruct c; try destruct mutation; cbn [command_typed mutation_typed]; intros Hty; destruct_and? Hty; cbn [dispatch_in_txn]; keeps_tac.
Qed.

Lemma keeps_execute c : command_typed c → keeps always (execute_metadata_in_txn c).
Proof. intros Hty. pose proof (keeps_dispatch c Hty). unfold execute_metadata_in_txn. keeps_tac. Qed.

Lemma keeps_execute_txn c : command_typed c → keeps always (execute_txn c).
Proof.
  pose proof keeps_current_version. intros Hty.
  destruct c; cbn [command_typed] in Hty; destruct_and? Hty; cbn [execute_txn];
    unfold apply_set_metadata, apply_delete_metadata, apply_adjust_counter, apply_cas_set_metadata;
    keeps_tac.
Qed.
End rename.
