(* ===== verification/Eventual.v ===== *)
(** * The eventually consistent plane

    [apply_local], [apply_ec_with_lww] and [ec_state_snapshot] of
    state_machine.rs: what they do to the trees of a replica, that they never
    touch the records of the strongly consistent plane, and that the
    last-writer-wins merge does not depend on the order of delivery. *)

From S2P Require Import Prelude Bytes Codec Table LockState Command StreamTier Version Records.
From S2P Require Import RecordProofs RecordOps Rename RenameProofs StateMachine.
From S2P Require Import MachineProofs.

(** ** What an eventually consistent write may do *)

Record ec_post (db db' : Db) : Prop := {
  ec_steps : steps db db';
  ec_utf8 : meta_utf8 db';
  ec_images : ∀ k, is_managed_key k = true ∨ pol db k ≠ None →
    metadata db' !! k = metadata db !! k;
  ec_rows : ∀ r, crow_ok r → (∀ ns key, r ≠ CUser ns key) → crow_at db' r = crow_at db r;
  ec_streams : stream_entries db' = stream_entries db }.

Lemma ec_post_refl db : machine_inv db → ec_post db db.
Proof. intros [Hi Hu]. split; [by apply steps_refl|done..]. Qed.

Lemma ec_post_trans db1 db2 db3 :
  machine_inv db1 → ec_post db1 db2 → ec_post db2 db3 → ec_post db1 db3.
Proof.
  intros [Hi _] [S1 U1 M1 R1 T1] [S2 U2 M2 R2 T2]. split.
  - by eapply steps_trans.
  - done.
  - intros k Hk. rewrite M2, M1; [done|done|]. by rewrite R1.
  - intros r Hr Hn. by rewrite R2, R1.
  - congruence.
Qed.

(** Replacing or removing the row of an ordinary key. *)
Lemma ec_post_meta f db k :
  machine_inv db → is_utf8 k = true → is_managed_key k = false → pol db k = None →
  (∀ m k', k' ≠ k → f m !! k' = m !! k' :> option string) → ec_post db (with_meta f db).
Proof.
  intros [Hi Hu] Hk Hm Hp Hf. split; [|..|done|done].
  - apply (steps_meta_unversioned f db k); [done|by apply unmanaged_untracked|done].
  - intros k' Hk'. destruct (decide (k' = k)) as [->|Hne]; [done|]. apply Hu.
    cbn [metadata with_meta] in Hk'. by rewrite Hf in Hk'.
  - intros k' Hk'. cbn [metadata with_meta]. apply Hf. intros ->.
    destruct Hk'; [congruence|done].
Qed.

Lemma ec_post_user db db' : machine_inv db → same_rows db db' →
  stream_entries db' = stream_entries db → ec_post db db'.
Proof.
  intros [Hi Hu] Hs Hst. pose proof Hs as [Hm Hr]. split; [by apply steps_same_rows| | |done|done].
  - intros k. rewrite Hm. apply Hu.
  - intros k _. by rewrite Hm.
Qed.

Section eventual.
Context `{Codec : MetadataCodec}.

(** The admission test of the plane. *)
Lemma ec_admitted c sm :
  ctrl_inv (sm_db sm) → requires_strong_consistency c sm = Ok false →
  (∀ k, ordinary_metadata_key c = Some k → is_managed_key k = false ∧ pol (sm_db sm) k = None) ∧
  match c with
  | PutControlState ns _ _ _ | DeleteControlState ns _ => ns ≠ NAMESPACE
  | _ => requires_fixed_local_storage c = false
  end.
Proof.
  intros Hi Hsc. unfold requires_strong_consistency, requires_conditional_sc in Hsc.
  destruct (requires_fixed_local_storage c) eqn:Hf; [done|].
  unfold ordinary_write_is_protected, is_protected_metadata in Hsc. split.
  - intros k Hk. rewrite Hk in Hsc. destruct (is_managed_key k); [done|]. split; [done|].
    unfold crow_at. cbn [crow_key]. unfold decode_policy in Hsc. by repeat case_match.
  - destruct c; try done; cbn in Hsc; by case_bool_decide.
Qed.

Lemma ec_execute c sm r db' :
  machine_inv (sm_db sm) → command_typed c → requires_strong_consistency c sm = Ok false →
  ec_writable c = true → execute_txn c (sm_db sm) = Ok (r, db') → ec_post (sm_db sm) db'.
Proof.
  intros Hi Hty Hsc Hw Hex. pose proof (ec_admitted _ _ (proj1 Hi) Hsc) as [Hk Hn].
  destruct c; try discriminate Hw; cbn [execute_txn] in Hex.
  - destruct (Hk key) as [Hm Hp]; [done|]. unfold apply_set_metadata in Hex. txn_inv Hex.
    by apply (ec_post_meta <[key := value]> _ key); eauto with nexus.
  - destruct (Hk key) as [Hm Hp]; [done|]. unfold apply_delete_metadata in Hex. txn_inv Hex.
    by apply (ec_post_meta (delete key) _ key); eauto with nexus.
  - destruct (Hk key) as [Hm Hp]; [done|]. unfold apply_cas_set_metadata in Hex.
    apply txn_bind_Ok in Hex as (cur & db1 & Hg & Hex). txn_prim Hg.
    apply txn_bind_Ok in Hex as (v & db1 & Hv & Hex).
    assert (db1 = sm_db sm) as ->.
    { unfold current_version_of in Hv. destruct (metadata (sm_db sm) !! key); txn_prim Hv; done. }
    case_match; txn_inv Hex; [|by apply ec_post_refl].
    by apply (ec_post_meta <[key := value]> _ key); eauto with nexus.
  - destruct Hty as [Hns _]. apply txn_bind_Ok in Hex as (ex & db1 & Hg & Hex).
    assert (db1 = sm_db sm) as -> by (destruct if_absent; txn_prim Hg; done).
    case_bool_decide; txn_inv Hex; [by apply ec_post_refl|].
    apply ec_post_user; [done| |done]. by apply (set_user_same_rows namespace key).
  - destruct Hty as [Hns _]. txn_inv Hex. apply ec_post_user; [done| |done].
    by apply (delete_user_same_rows namespace key).
Qed.

Lemma fault_of_Ok {A} (r : Result A) a : fault_of r = Ok a → r = Ok a.
Proof. destruct r; simpl; congruence. Qed.

Lemma apply_local_post c sm r sm' :
  machine_inv (sm_db sm) → command_typed c → apply_local c sm = Ok (r, sm') →
  ec_post (sm_db sm) (sm_db sm') ∧
  sm_advisory sm' = sm_advisory sm ∧ sm_last_applied sm' = sm_last_applied sm ∧
  sm_apply_observers sm' = sm_apply_observers sm.
Proof.
  intros Hi Hty Hap. unfold apply_local in Hap.
  apply result_bind_Ok in Hap as (sc & Hsc%fault_of_Ok & Hap).
  destruct sc; [done|]. destruct (ec_writable c) eqn:Hw; [|done]. unfold execute in Hap.
  assert (lock_command c = None) as Hl by by destruct c. rewrite Hl in Hap.
  destruct (execute_txn c (sm_db sm)) as [[r' db']|e] eqn:Hex; [|done].
  injection Hap as <- <-. split; [by eapply ec_execute|done].
Qed.

(** ** Last writer wins *)

Context (parse_rfc3339 : string → option Z).

Lemma ec_lww_post c ts sm r sm' fired :
  machine_inv (sm_db sm) → command_typed c →
  apply_ec_with_lww parse_rfc3339 c ts sm = Ok (r, sm', fired) →
  ec_post (sm_db sm) (sm_db sm') ∧
  sm_advisory sm' = sm_advisory sm ∧ sm_last_applied sm' = sm_last_applied sm ∧
  sm_apply_observers sm' = sm_apply_observers sm.
Proof.
  intros Hi Hty Hap. unfold apply_ec_with_lww in Hap.
  apply result_bind_Ok in Hap as (sc & Hsc%fault_of_Ok & Hap).
  destruct sc; [injection Hap as <- <- <-; split; [by apply ec_post_refl|done]|].
  destruct (lww_accepts parse_rfc3339 c ts (sm_db sm)) as [[]|] eqn:Hacc; [| |done].
  - apply result_bind_Ok in Hap as ([r' sm1] & Hex & Hap). unfold mret, result_ret in Hap.
    simplify_eq. unfold execute in Hex. assert (lock_command c = None) as Hl by by destruct c.
    rewrite Hl in Hex. destruct (execute_txn c (sm_db sm)) as [[r1 db1]|e] eqn:He; [|done].
    simplify_eq. split; [|done]. eapply ec_execute; [done..| |done]. by destruct c.
  - injection Hap as <- <- <-. split; [by apply ec_post_refl|done].
Qed.

(** The merge of one row. *)
Definition merge_row (existing : option string) (value : string) : string :=
  match existing with
  | Some e =>
      if String.leb (decode_modified_at e) (decode_modified_at value) then value else e
  | None => value
  end.

Lemma leb_total s t : String.leb s t = false → String.leb t s = true.
Proof.
  intros H. pose proof (ltb_leb t s) as Hlt. rewrite H in Hlt.
  unfold String.ltb in Hlt. unfold String.leb. by destruct (String.compare t s).
Qed.

Lemma merge_two v w :
  (decode_modified_at v = decode_modified_at w → v = w) →
  merge_row (Some v) w = merge_row (Some w) v.
Proof.
  intros Heq. unfold merge_row.
  destruct (String.leb (decode_modified_at v) (decode_modified_at w)) eqn:H1,
    (String.leb (decode_modified_at w) (decode_modified_at v)) eqn:H2; try done.
  - symmetry. by apply Heq, leb_antisym.
  - apply leb_total in H1. congruence.
Qed.

Lemma merge_row_comm e v w :
  (decode_modified_at v = decode_modified_at w → v = w) →
  merge_row (Some (merge_row e v)) w = merge_row (Some (merge_row e w)) v.
Proof.
  intros Heq. destruct e as [e|]; [|by apply merge_two]. unfold merge_row at 2 4.
  destruct (String.leb (decode_modified_at e) (decode_modified_at v)) eqn:Hv,
    (String.leb (decode_modified_at e) (decode_modified_at w)) eqn:Hw; [by apply merge_two|..].
  - unfold merge_row. rewrite Hv. case_match eqn:Hvw; [|done].
    rewrite (leb_trans _ _ _ Hv Hvw) in Hw. done.
  - unfold merge_row. rewrite Hw. case_match eqn:Hwv; [|done].
    rewrite (leb_trans _ _ _ Hw Hwv) in Hv. done.
  - unfold merge_row. by rewrite Hv, Hw.
Qed.

(** Delivery of a batch of peer entries, in order. *)
Fixpoint ec_deliver (l : list (Command * N)) (sm : FullStateMachine) :
    result Fault FullStateMachine :=
  match l with
  | [] => Ok sm
  | (c, ts) :: l =>
      '(_, sm, _) ← apply_ec_with_lww parse_rfc3339 c ts sm;
      ec_deliver l sm
  end.

(** Rows the plane does not take: managed content and protected records. *)
Definition ec_fenced (db : Db) (k : string) : bool :=
  is_managed_key k || bool_decide (pol db k ≠ None).

Definition merge_step (fenced : string → bool) (m : gmap string string) (kv : string * string) :
    gmap string string :=
  if fenced kv.1 then m else <[kv.1 := merge_row (m !! kv.1) kv.2]> m.

Lemma merge_step_comm fenced m x y :
  (x.1 = y.1 → decode_modified_at x.2 = decode_modified_at y.2 → x.2 = y.2) →
  merge_step fenced (merge_step fenced m x) y = merge_step fenced (merge_step fenced m y) x.
Proof.
  destruct x as [k v], y as [k' w]. cbn [fst snd]. intros Heq. unfold merge_step. cbn [fst snd].
  destruct (fenced k) eqn:Hk, (fenced k') eqn:Hk'; try done.
  destruct (decide (k = k')) as [->|Hne].
  - rewrite !lookup_insert_eq, !insert_insert_eq. by rewrite merge_row_comm by auto.
  - rewrite !lookup_insert_ne by done. by apply insert_insert_ne.
Qed.

(** Equal stamps for one key only on equal values. *)
Definition stamps_distinct (l : list (string * string)) : Prop :=
  ∀ x y, x ∈ l → y ∈ l → x.1 = y.1 → decode_modified_at x.2 = decode_modified_at y.2 → x.2 = y.2.

Lemma merge_permutation fenced l l' m :
  l ≡ₚ l' → stamps_distinct l →
  foldl (merge_step fenced) m l = foldl (merge_step fenced) m l'.
Proof.
  intros Hp. revert m. induction Hp as [|x l l' Hp IH|x y l|l1 l2 l3 Hp1 IH1 Hp2 IH2]; intros m Hd.
  - done.
  - cbn [foldl]. apply IH. intros a b Ha Hb. apply Hd; by right.
  - cbn [foldl]. rewrite merge_step_comm; [done|]. apply Hd; set_solver.
  - rewrite IH1 by done. apply IH2. intros a b. rewrite <-!Hp1. apply Hd.
Qed.

(** Every stored policy is one the code knows. *)
Definition policies_decode (db : Db) : Prop :=
  ∀ k p, pol db k = Some p → decode_policy (Some p) = Ok true.

Lemma ctrl_inv_policies db : ctrl_inv db → policies_decode db.
Proof.
  intros Hi k p Hp. destruct (inv_pol _ Hi k p Hp) as [Hv _]. unfold decode_policy.
  by rewrite bool_decide_eq_true_2.
Qed.

Lemma ec_set_effect k v ts sm :
  policies_decode (sm_db sm) →
  ∃ fired, apply_ec_with_lww parse_rfc3339 (SetMetadata k v) ts sm =
    Ok (Success,
        set_db sm (with_meta (λ m, merge_step (ec_fenced (sm_db sm)) m (k, v)) (sm_db sm)), fired).
Proof.
  intros Hi. destruct sm as [[m st ct] adv la obs]. unfold apply_ec_with_lww, requires_strong_consistency,
    requires_conditional_sc. cbn [requires_fixed_local_storage ordinary_metadata_key].
  unfold ec_fenced, merge_step, with_meta, set_db. cbn [fst snd sm_db sm_advisory sm_last_applied
    sm_apply_observers metadata stream_entries control_state].
  destruct (is_managed_key k); [cbn; by eauto|].
  unfold ordinary_write_is_protected, is_protected_metadata. cbn [ordinary_metadata_key].
  pose proof (Hi k) as Hpol. unfold crow_at in *. cbn [crow_key sm_db control_state] in *.
  destruct (ct !! policy_key k) as [p|] eqn:Hp.
  { rewrite (Hpol p eq_refl). cbn. by eauto. }
  cbn [decode_policy fault_of mbind result_bind lww_accepts metadata].
  destruct (m !! k) as [e|] eqn:Hm; cbn [merge_row]; [|cbn; by eauto].
  rewrite ltb_leb, negb_involutive.
  destruct (String.leb _ _) eqn:Hle; [cbn; by eauto|].
  cbn. rewrite insert_id by done. eauto.
Qed.

Definition as_entry (row : string * string * N) : Command * N :=
  (SetMetadata row.1.1 row.1.2, row.2).

Lemma with_meta_twice f g db : with_meta g (with_meta f db) = with_meta (λ m, g (f m)) db.
Proof. done. Qed.

Lemma ec_deliver_sets rows sm :
  policies_decode (sm_db sm) →
  ec_deliver (as_entry <$> rows) sm =
    Ok (set_db sm (with_meta (λ m, foldl (merge_step (ec_fenced (sm_db sm))) m rows.*1) (sm_db sm))).
Proof.
  revert sm. induction rows as [|[[k v] ts] rows IH]; intros sm Hp.
  { by destruct sm as [[] ? ? ?]. }
  cbn [fmap list_fmap ec_deliver as_entry fst snd].
  destruct (ec_set_effect k v ts sm Hp) as [fired Hs]. unfold as_entry at 1. cbn [fst snd].
  rewrite Hs. cbn [mbind result_bind]. rewrite IH.
  - destruct sm as [[] ? ? ?]. done.
  - intros k' p. cbn [sm_db set_db]. rewrite with_meta_at. apply Hp.
Qed.

(** C21: Replicas that receive the same peer writes in different orders agree:
    delivering a batch of [SetMetadata] entries never fails, and every
    permutation of the batch gives the same state, provided two writes of one
    key with equal [modified_at] carry the same value (the owner-partition
    contract of the source, weakened to ties). *)
Theorem lww_sets_converge rows rows' sm
    (Hi : machine_inv (sm_db sm)) (Hp : rows ≡ₚ rows') (Hd : stamps_distinct rows.*1) :
  ∃ sm', ec_deliver (as_entry <$> rows) sm = Ok sm' ∧ ec_deliver (as_entry <$> rows') sm = Ok sm'.
Proof.
  pose proof (ctrl_inv_policies _ (proj1 Hi)) as Hpol.
  rewrite !ec_deliver_sets by done. eexists. split; [done|]. do 2 f_equal.
  destruct (sm_db sm) as [m st ct]. unfold with_meta. cbn [metadata]. f_equal. symmetry.
  by apply merge_permutation; [apply fmap_Permutation|].
Qed.

(** ** Anti-entropy *)

Lemma collect_policies_spec prefix rows paths :
  (∀ k v, (k, v) ∈ rows → ∃ k', k = prefix +:+ k') →
  collect_policies prefix rows = Ok paths →
  ∀ k, k ∈ paths ↔ ∃ v, (prefix +:+ k, v) ∈ rows.
Proof.
  revert paths. induction rows as [|[key value] rows IH]; intros paths Hpre Hc k.
  { injection Hc as <-. setoid_rewrite elem_of_nil. naive_solver. }
  destruct (Hpre key value) as [k' ->]; [by left|].
  cbn [collect_policies] in Hc. rewrite sdrop_app in Hc. unfold from_utf8 in Hc.
  apply result_bind_Ok in Hc as (b & _ & Hc). destruct (is_utf8 k'); [|done].
  apply result_bind_Ok in Hc as (ps & Hc & [= <-]).
  rewrite elem_of_cons, (IH ps) by (done || intros; eapply Hpre; by right).
  setoid_rewrite elem_of_cons. split.
  - intros [->|[v Hv]]; eauto.
  - intros [v [Hv|Hv]]; [|by eauto]. injection Hv as Hv _. apply (inj _) in Hv. by left.
Qed.

Lemma policy_key_app k : policy_key k = policy_key "" +:+ k.
Proof. done. Qed.

Lemma protected_metadata_paths_spec db paths :
  protected_metadata_paths db = Ok paths → ∀ k, k ∈ paths ↔ pol db k ≠ None.
Proof.
  intros Hp k. unfold protected_metadata_paths in Hp. cbv zeta in Hp.
  apply collect_policies_spec with (k := k) in Hp.
  - rewrite Hp. setoid_rewrite elem_of_scan_prefix. unfold crow_at. cbn [crow_key].
    rewrite (policy_key_app k), starts_with_app.
    destruct (control_state db !! _); naive_solver.
  - intros k' v [Hk _]%elem_of_scan_prefix. by apply starts_with_true.
Qed.

(** The rows [ec_state_snapshot] sends. *)
Definition ec_sent (db : Db) (k v : string) : Prop :=
  metadata db !! k = Some v ∧ is_utf8 k = true ∧ starts_with "__" k = false ∧
  is_managed_key k = false ∧ pol db k = None.

Lemma omap_filter {A} (f : A → option A) (P : A → Prop) `{∀ x, Decision (P x)} (l : list A) :
  (∀ x, f x = if decide (P x) then Some x else None) → omap f l = filter P l.
Proof.
  intros Hf. induction l as [|x l IH]; [done|]. cbn [omap list_omap].
  rewrite filter_cons, Hf. case_decide; [by f_equal|done].
Qed.

Lemma NoDup_fst_filter {A B} (P : A * B → Prop) `{∀ x, Decision (P x)} (l : list (A * B)) :
  NoDup l.*1 → NoDup (filter P l).*1.
Proof.
  induction l as [|x l IH]; intros Hl; [constructor|]. cbn in Hl. apply NoDup_cons in Hl as [Hx Hl].
  rewrite filter_cons. case_decide; [|by apply IH]. cbn. apply NoDup_cons. split; [|by apply IH].
  rewrite !list_elem_of_fmap in *. intros (y & Hy & [_ Hin]%list_elem_of_filter). eauto.
Qed.

Lemma StronglySorted_filter {A} (R : A → A → Prop) (P : A → Prop) `{∀ x, Decision (P x)} (l : list A) :
  StronglySorted R l → StronglySorted R (filter P l).
Proof.
  induction 1 as [|x l Hs IH Hall]; [constructor|]. rewrite filter_cons. case_decide; [|done].
  constructor; [done|]. rewrite Forall_forall in *. intros y [_ Hy]%list_elem_of_filter. by apply Hall.
Qed.

Lemma list_metadata_filter sm prefix :
  list_metadata sm prefix =
  filter (λ row, is_utf8 row.1 = true ∧ starts_with "__" row.1 = false)
    (filter (λ row, starts_with prefix row.1 = true) (entries (metadata (sm_db sm)))).
Proof.
  unfold list_metadata. rewrite scan_prefix_filter. apply omap_filter. intros [k v].
  unfold visible_row, from_utf8. cbn [fst snd].
  destruct (is_utf8 k); cbn; [|by rewrite decide_False by naive_solver].
  destruct (starts_with "__" k); [by rewrite decide_False by naive_solver|by rewrite decide_True].
Qed.

Lemma elem_of_list_metadata sm prefix k v :
  (k, v) ∈ list_metadata sm prefix ↔
  get_metadata sm k = Some v ∧ starts_with prefix k = true ∧ is_utf8 k = true ∧
  starts_with "__" k = false.
Proof.
  rewrite list_metadata_filter, !list_elem_of_filter, elem_of_entries. unfold get_metadata.
  cbn [fst]. naive_solver.
Qed.

(** The rows sent, as a list. *)
Lemma ec_state_snapshot_rows sm cmds :
  ec_state_snapshot sm = Ok cmds →
  ∃ rows, cmds = (λ row, SetMetadata row.1 row.2) <$> rows ∧ NoDup rows.*1 ∧
    ∀ k v, (k, v) ∈ rows ↔ ec_sent (sm_db sm) k v.
Proof.
  intros Hs. unfold ec_state_snapshot in Hs. apply result_bind_Ok in Hs as (ps & Hps & [= <-]).
  pose proof (protected_metadata_paths_spec _ _ Hps) as Hspec. eexists. split; [done|]. split.
  - apply NoDup_fst_filter. rewrite list_metadata_filter. do 2 apply NoDup_fst_filter.
    apply entries_NoDup.
  - intros k v. rewrite list_elem_of_filter, elem_of_list_metadata, Hspec. unfold ec_sent, get_metadata.
    cbn [fst]. destruct (pol (sm_db sm) k); naive_solver.
Qed.

(** Merging rows with distinct keys. *)
Lemma merge_rows_lookup fenced rows m k :
  NoDup rows.*1 →
  foldl (merge_step fenced) m rows !! k =
    match (list_to_map rows : gmap string string) !! k with
    | Some v => if fenced k then m !! k else Some (merge_row (m !! k) v)
    | None => m !! k
    end.
Proof.
  revert m. induction rows as [|[k' v'] rows IH]; intros m Hnd; [done|].
  rewrite list_to_map_cons. cbn [foldl fmap list_fmap] in *. apply NoDup_cons in Hnd as [Hn Hnd].
  rewrite IH by done. unfold merge_step. cbn [fst snd] in *.
  destruct (decide (k = k')) as [->|Hne].
  - rewrite lookup_insert_eq, not_elem_of_list_to_map_1 by done.
    destruct (fenced k') eqn:Hf; [done|]. by rewrite lookup_insert_eq.
  - rewrite lookup_insert_ne by done. destruct (fenced k'); [done|].
    by rewrite lookup_insert_ne.
Qed.

(** Anti-entropy transfers the eventually consistent rows and nothing else:
    when a peer applies the image a replica sends, every row the sender can
    vouch for on this plane is merged by last-writer-wins, every other row of
    the receiver keeps its value, and the receiver's own fences win. *)
Theorem anti_entropy_transfers sender receiver cmds ts
    (Hi : machine_inv (sm_db receiver)) (Hsend : ec_state_snapshot sender = Ok cmds) :
  ∃ sm', ec_deliver ((λ c, (c, ts)) <$> cmds) receiver = Ok sm' ∧
    stream_entries (sm_db sm') = stream_entries (sm_db receiver) ∧
    control_state (sm_db sm') = control_state (sm_db receiver) ∧
    (∀ k v, ec_sent (sm_db sender) k v → ec_fenced (sm_db receiver) k = false →
       get_metadata sm' k = Some (merge_row (get_metadata receiver k) v)) ∧
    (∀ k, (∀ v, ¬ ec_sent (sm_db sender) k v) ∨ ec_fenced (sm_db receiver) k = true →
       get_metadata sm' k = get_metadata receiver k).
Proof.
  destruct (ec_state_snapshot_rows _ _ Hsend) as (rows & -> & Hnd & Hrows).
  assert ((λ c, (c, ts)) <$> ((λ row, SetMetadata row.1 row.2) <$> rows)
    = as_entry <$> ((λ row, (row, ts)) <$> rows)) as ->.
  { rewrite <-!list_fmap_compose. by apply list_fmap_ext. }
  rewrite ec_deliver_sets by (by apply ctrl_inv_policies, Hi).
  eexists. split; [done|]. split; [done|]. split; [done|].
  unfold get_metadata. cbn [sm_db set_db metadata with_meta].
  assert (((λ row : string * string, (row, ts)) <$> rows).*1 = rows) as ->.
  { rewrite <-list_fmap_compose. apply list_fmap_id. }
  split.
  - intros k v Hk%Hrows Hf. rewrite merge_rows_lookup by done.
    rewrite (elem_of_list_to_map_1 _ _ _ Hnd Hk). by rewrite Hf.
  - intros k Hk. rewrite merge_rows_lookup by done. case_match eqn:Hl; [|done].
    apply elem_of_list_to_map_2, Hrows in Hl. destruct Hk as [Hk|Hk]; [by destruct (Hk s)|].
    by rewrite Hk.
Qed.
End eventual.

(** ** Concrete deliveries *)

(** A codec whose images are their own time stamps. *)
#[local] Instance stamp_codec : MetadataCodec := {
  decode s := Ok (mkFileMetadata "" 0 "" "" "" s 1 "" "" DT_REG "" 0 "" "" 0 "");
  encode_to_vec m := fm_modified_at m }.

Definition stamp_sm : FullStateMachine := mkSM db_empty lock_state_new 0 [].
Definition stamp_rows : list (string * string * N) :=
  [("/a", "2026-01-02", 5%N); ("/a", "2026-01-01", 6%N); ("/b", "2026-01-01", 7%N)].

Lemma stamp_inv : machine_inv (sm_db stamp_sm).
Proof. split; [apply ctrl_inv_empty|]. intros k Hk. by destruct Hk. Qed.

Lemma lww_sets_converge_witness :
  ∃ sm', ec_deliver (λ _, None) (as_entry <$> stamp_rows) stamp_sm = Ok sm' ∧
    ec_deliver (λ _, None) (as_entry <$> reverse stamp_rows) stamp_sm = Ok sm'.
Proof.
  apply (lww_sets_converge (λ _, None) stamp_rows (reverse stamp_rows)).
  - exact stamp_inv.
  - symmetry. apply reverse_Permutation.
  - intros x y Hx Hy. cbn in Hx, Hy. rewrite !elem_of_cons, elem_of_nil in Hx, Hy.
    destruct_or? Hx; destruct_or? Hy; subst; vm_compute; congruence.
Defined.

Definition stamp_sender : FullStateMachine :=
  match ec_deliver (λ _, None) (as_entry <$> stamp_rows) stamp_sm with Ok sm => sm | Err _ => stamp_sm end.
Definition stamp_image : list Command :=
  match ec_state_snapshot stamp_sender with Ok cmds => cmds | Err _ => [] end.

Lemma anti_entropy_transfers_witness :
  ∃ sm', ec_deliver (λ _, None) ((λ c, (c, 0%N)) <$> stamp_image) stamp_sm = Ok sm' ∧
    get_metadata sm' "/a" = Some "2026-01-02".
Proof.
  destruct (anti_entropy_transfers (λ _, None) stamp_sender stamp_sm stamp_image 0)
    as (sm' & Hd & _ & _ & Hm & _).
  - exact stamp_inv.
  - vm_compute. reflexivity.
  - exists sm'. split; [exact Hd|]. rewrite (Hm "/a" "2026-01-02"); [vm_compute; reflexivity| |].
    + split_and!; vm_compute; reflexivity.
    + vm_compute. reflexivity.
Defined.
