(* ===== verification/Replica.v ===== *)
(** * Properties of a replica

    Runs of [apply] over the replicated log: the machine stays healthy, records
    are fenced by their revisions and owners, retirement is permanent, renames
    move a subtree and nothing else, and the eventually consistent plane leaves
    the records alone.  Restarts are in Recovery.v. *)

From S2P Require Import Prelude Bytes Codec Table LockState LockProofs Command StreamTier.
From S2P Require Import StreamProofs Version VersionProofs Records RecordProofs.
From S2P Require Import RecordOps Rename RenameProofs StateMachine MachineProofs Eventual.

Section replica.
Context `{Codec : MetadataCodec}.

Definition sm_inv (sm : FullStateMachine) : Prop := machine_inv (sm_db sm).

(** ** One entry *)

Lemma mark_applied index db :
  machine_inv db → steps db (with_meta <[KEY_LAST_APPLIED := u64_to_be index]> db) ∧
  meta_utf8 (with_meta <[KEY_LAST_APPLIED := u64_to_be index]> db).
Proof.
  intros [Hi Hu]. split; [split_and!|].
  - apply with_meta_inv; [done|]. intros k v Hr. destruct (inv_ret _ Hi _ _ Hr) as (_ & _ & Hm).
    destruct (decide (k = KEY_LAST_APPLIED)) as [->|Hne]; [by rewrite lookup_insert_eq|].
    by rewrite lookup_insert_ne.
  - apply evolves_meta.
  - intros k v Hk _ _. cbn [metadata with_meta]. by rewrite lookup_insert_ne.
  - intros k Hk. destruct (decide (k = KEY_LAST_APPLIED)) as [->|Hne]; [done|].
    cbn [metadata with_meta] in Hk. rewrite lookup_insert_ne in Hk by done. by apply Hu.
Qed.

(** A version scan that does not return leaves only the refusals. *)
Lemma execute_cas_stuck key value expected bytes db :
  ctrl_inv db → metadata db !! key = Some bytes → extract_version bytes = None →
  (∃ r, execute_metadata_in_txn (CasSetMetadata key value expected) db = Ok (r, db)) ∨
  execute_metadata_in_txn (CasSetMetadata key value expected) db = Err Diverged.
Proof.
  intros Hi Hb Hv.
  assert (execute_metadata_in_txn (CasSetMetadata key value expected) db =
    (refusal ← ordinary_metadata_refusal key;
     match refusal with
     | Some refusal => mret refusal
     | None => dispatch_in_txn (CasSetMetadata key value expected)
     end) db) as -> by reflexivity.
  unfold ordinary_metadata_refusal, protected_in_txn, record_policy_in_txn, get_ctrl, lift, mbind,
    txn_bind, mret, txn_ret.
  destruct (decode_policy (control_state db !! policy_key key)) as [[]|e] eqn:Hd.
  - left. eauto.
  - right. cbn [dispatch_in_txn]. unfold get_meta, mbind, txn_bind. rewrite Hb.
    unfold current_version_of, terminating. by rewrite Hv.
  - exfalso. unfold decode_policy in Hd. destruct (control_state db !! policy_key key) as [p|] eqn:Hp; [|done].
    case_bool_decide as Hc; [done|]. apply Hc. by apply (inv_pol _ Hi key p).
Qed.

Lemma safe_execute_returned c db r db' :
  machine_inv db → command_typed c → lock_command c = None →
  execute_metadata_in_txn c db = Ok (r, db') → command_post db c db'.
Proof.
  intros Hi Hty Hlock Hex.
  assert (scan_returns c db ∨ db' = db) as [Hscan| ->]; [| |by apply post_refl].
  { destruct c; try (by left). simpl.
    destruct (metadata db !! key) as [bytes|] eqn:Hb; [|by left].
    destruct (extract_version bytes) as [v|] eqn:Hv; [left; naive_solver|right].
    destruct (execute_cas_stuck key value expected_version bytes db) as [[r' Hr]|Hr];
      [apply Hi|done|done|congruence..]. }
  pose proof (safe_execute c db Hi Hty Hlock Hscan) as Hs. unfold safe in Hs. by rewrite Hex in Hs.
Qed.

(** The image changes of one log entry that the policies admit. *)
Definition guarded_entry (db : Db) (c : Command) (db' : Db) : Prop :=
  ∀ k, k ≠ KEY_LAST_APPLIED → pol db k ≠ None → metadata db' !! k ≠ metadata db !! k →
    authorised db c k.

Lemma apply_entry index c sm r sm' fired :
  sm_inv sm → command_typed c → apply index c sm = Applied r sm' fired →
  steps (sm_db sm) (sm_db sm') ∧ sm_inv sm' ∧ guarded_entry (sm_db sm) c (sm_db sm').
Proof.
  intros Hi Hty Happ. unfold apply in Happ.
  assert (sm_db sm' = sm_db sm → steps (sm_db sm) (sm_db sm') ∧ sm_inv sm' ∧
    guarded_entry (sm_db sm) c (sm_db sm')) as Hsame.
  { unfold sm_inv. intros ->. split_and!; [apply steps_refl, Hi|done|]. by intros k _ _ Hk. }
  destruct (lock_command c) as [op|] eqn:Hlock.
  { destruct (op (sm_advisory sm)) as [lr locks]. injection Happ as <- <- <-. by apply Hsame. }
  destruct (index <=? sm_last_applied sm)%N.
  { injection Happ as <- <- <-. by apply Hsame. }
  clear Hsame. unfold mbind, txn_bind in Happ.
  destruct (execute_metadata_in_txn c (sm_db sm)) as [[r1 db1]|[e|]] eqn:Hex; [|done..].
  injection Happ as <- <- <-. cbn [sm_db sm_inv]. unfold sm_inv. cbn [sm_db].
  assert (command_post (sm_db sm) c db1) as (Hs & Hu & Hg).
  { by eapply safe_execute_returned. }
  destruct (mark_applied index db1) as [Hs' Hu']; [split; [apply Hs|done]|].
  split_and!.
  - eapply steps_trans; [apply Hi|exact Hs|exact Hs'].
  - split; [apply Hs'|done].
  - intros k Hk Hp Hne. apply Hg; [done|]. cbn [metadata with_meta] in Hne.
    rewrite lookup_insert_ne in Hne by done. done.
Qed.

Lemma sm_inv_empty : sm_inv (mkSM db_empty lock_state_new 0 []).
Proof. split; [apply ctrl_inv_empty|]. intros k Hk. by destruct Hk. Qed.

(** The faults of one entry. *)
Lemma apply_faults index c sm :
  sm_inv sm → command_typed c →
  (∃ r sm' fired, apply index c sm = Applied r sm' fired) ∨
  apply index c sm = Panicked exhausted ∨
  (apply index c sm = Hung ∧ ∃ key value expected bytes, c = CasSetMetadata key value expected ∧
     get_metadata sm key = Some bytes ∧ extract_version bytes = None).
Proof.
  intros Hi Hty. unfold apply. destruct (lock_command c) as [op|] eqn:Hlock.
  { destruct (op (sm_advisory sm)). eauto. }
  destruct (index <=? sm_last_applied sm)%N; [by eauto|].
  unfold mbind, txn_bind, put_meta, mret, txn_ret.
  assert (scan_returns c (sm_db sm) ∨ ∃ key value expected bytes,
    c = CasSetMetadata key value expected ∧
    get_metadata sm key = Some bytes ∧ extract_version bytes = None) as [Hscan|Hst].
  { destruct c; try (by left). simpl. unfold get_metadata.
    destruct (metadata (sm_db sm) !! key) as [bytes|] eqn:Hb; [|by left].
    destruct (extract_version bytes) as [v|] eqn:Hv; [left; naive_solver|right; eauto 8]. }
  - pose proof (safe_execute c (sm_db sm) Hi Hty Hlock Hscan) as Hs. unfold safe in Hs.
    destruct (execute_metadata_in_txn c (sm_db sm)) as [[r db]|[e|]]; [by eauto| |done].
    right. left. by subst.
  - destruct Hst as (key & value & expected & bytes & -> & Hb & Hv).
    destruct (execute_cas_stuck key value expected bytes (sm_db sm)) as [[r Hr]|Hr];
      [apply Hi|done|done|rewrite Hr; by eauto|rewrite Hr].
    right. right. split; [done|]. eauto 8.
Qed.

(** ** Properties *)

(** C1: Applying a committed entry to a healthy replica leaves a healthy
    replica; the only ways not to return are the exhaustion of the 2^64 content
    revisions and a version scan that does not end.  In particular no stored
    policy, revision, requirement or binding ever makes [apply] panic, and a
    qualified retirement always commits. *)
Theorem apply_stays_healthy (index : N) (c : Command) (sm : FullStateMachine)
    (Hi : sm_inv sm) (Hty : command_typed c) :
  match apply index c sm with
  | Applied _ sm' _ => sm_inv sm'
  | Panicked e => e = exhausted
  | Hung => ∃ key value expected bytes, c = CasSetMetadata key value expected ∧
              get_metadata sm key = Some bytes ∧ extract_version bytes = None
  end.
Proof.
  destruct (apply index c sm) as [r sm' fired|e|] eqn:Happ.
  { by destruct (apply_entry _ _ _ _ _ _ Hi Hty Happ) as (_ & ? & _). }
  all: destruct (apply_faults index c sm Hi Hty) as [(?&?&?&Hf)|[Hf|[Hf ?]]]; rewrite Happ in Hf;
    by simplify_eq.
Qed.

(** ** Histories *)

Context (parse_rfc3339 : string → option Z).

(** What reaches the state machine of a node: committed entries, eventually
    consistent writes of the node itself, and those of its peers. *)
Inductive event :=
  | Committed (index : N) (c : Command)
  | LocalWrite (c : Command)
  | PeerWrite (c : Command) (timestamp : N).

Definition event_command (e : event) : Command :=
  match e with Committed _ c | LocalWrite c | PeerWrite c _ => c end.

(** The state after one event; [None] if the node panicked or hung.  A refused
    eventually consistent write leaves the state as it was. *)
Definition apply_event (e : event) (sm : FullStateMachine) : option FullStateMachine :=
  match e with
  | Committed index c =>
      match apply index c sm with Applied _ sm' _ => Some sm' | Panicked _ | Hung => None end
  | LocalWrite c =>
      match apply_local c sm with
      | Ok (_, sm') => Some sm'
      | Err (Failed _) => Some sm
      | Err Diverged => None
      end
  | PeerWrite c timestamp =>
      match apply_ec_with_lww parse_rfc3339 c timestamp sm with
      | Ok (_, sm', _) => Some sm'
      | Err (Failed _) => Some sm
      | Err Diverged => None
      end
  end.

Fixpoint apply_all (history : list event) (sm : FullStateMachine) : option FullStateMachine :=
  match history with
  | [] => Some sm
  | e :: history => sm ← apply_event e sm; apply_all history sm
  end.

Definition history_typed (history : list event) : Prop :=
  Forall (λ e, command_typed (event_command e)) history.

Lemma apply_event_steps e sm sm' :
  sm_inv sm → command_typed (event_command e) → apply_event e sm = Some sm' →
  steps (sm_db sm) (sm_db sm') ∧ sm_inv sm'.
Proof.
  intros Hi Hty He. destruct e as [index c|c|c ts]; cbn [apply_event event_command] in *.
  - destruct (apply index c sm) as [r sm1 fired| |] eqn:Happ; [|done..]. injection He as <-.
    by destruct (apply_entry _ _ _ _ _ _ Hi Hty Happ) as (? & ? & _).
  - destruct (apply_local c sm) as [[r sm1]|[]] eqn:Hap; [|simplify_eq|done].
    + injection He as <-. destruct (apply_local_post _ _ _ _ Hi Hty Hap) as [Hp _].
      split; [apply Hp|]. split; [apply Hp|apply Hp].
    + split; [apply steps_refl, Hi|done].
  - destruct (apply_ec_with_lww _ c ts sm) as [[[r sm1] fired]|[]] eqn:Hap; [|simplify_eq|done].
    + injection He as <-. destruct (ec_lww_post _ _ _ _ _ _ _ Hi Hty Hap) as [Hp _].
      split; [apply Hp|]. split; [apply Hp|apply Hp].
    + split; [apply steps_refl, Hi|done].
Qed.

Lemma apply_all_steps history sm sm' :
  sm_inv sm → history_typed history → apply_all history sm = Some sm' →
  steps (sm_db sm) (sm_db sm') ∧ sm_inv sm'.
Proof.
  intros Hi Hty. revert sm Hi. induction Hty as [|e history He Hty IH]; intros sm Hi Hrun.
  - injection Hrun as <-. split; [apply steps_refl, Hi|done].
  - cbn [apply_all] in Hrun. apply bind_Some in Hrun as (sm1 & Happ & Hrun).
    destruct (apply_event_steps _ _ _ Hi He Happ) as [Hs Hi1].
    destruct (IH sm1 Hi1 Hrun) as [Hs' Hi']. split; [|done].
    eapply steps_trans; [apply Hi|exact Hs|exact Hs'].
Qed.

Lemma apply_all_app l1 l2 sm : apply_all (l1 ++ l2) sm = apply_all l1 sm ≫= apply_all l2.
Proof.
  revert sm. induction l1 as [|e l1 IH]; intros sm; [done|]. cbn [app apply_all].
  destruct (apply_event e sm); [apply IH|done].
Qed.

(** ** The eventually consistent plane *)

Definition is_ec (e : event) : bool := match e with Committed _ _ => false | _ => true end.

Lemma ec_event e sm sm' :
  sm_inv sm → command_typed (event_command e) → is_ec e = true → apply_event e sm = Some sm' →
  ec_post (sm_db sm) (sm_db sm') ∧ sm_advisory sm' = sm_advisory sm ∧
  sm_last_applied sm' = sm_last_applied sm.
Proof.
  intros Hi Hty Hec He. destruct e as [index c|c|c ts]; [done|..]; cbn [apply_event event_command] in *.
  - destruct (apply_local c sm) as [[r sm1]|[]] eqn:Hap; [|simplify_eq|done].
    + injection He as <-. by destruct (apply_local_post _ _ _ _ Hi Hty Hap) as (? & ? & ? & _).
    + split; [by apply ec_post_refl|done].
  - destruct (apply_ec_with_lww _ c ts sm) as [[[r sm1] fired]|[]] eqn:Hap; [|simplify_eq|done].
    + injection He as <-. by destruct (ec_lww_post _ _ _ _ _ _ _ Hi Hty Hap) as (? & ? & ? & _).
    + split; [by apply ec_post_refl|done].
Qed.

Lemma ec_history history sm sm' :
  sm_inv sm → history_typed history → Forall (λ e, is_ec e = true) history →
  apply_all history sm = Some sm' →
  ec_post (sm_db sm) (sm_db sm') ∧ sm_advisory sm' = sm_advisory sm ∧
  sm_last_applied sm' = sm_last_applied sm.
Proof.
  intros Hi Hty. revert sm Hi. induction Hty as [|e history He Hty IH]; intros sm Hi Hec Hrun.
  - injection Hrun as <-. split; [by apply ec_post_refl|done].
  - apply Forall_cons in Hec as [Hec1 Hec]. cbn [apply_all] in Hrun.
    apply bind_Some in Hrun as (sm1 & Happ & Hrun).
    destruct (ec_event _ _ _ Hi He Hec1 Happ) as (Hp & Ha & Hl).
    destruct (apply_event_steps _ _ _ Hi He Happ) as [_ Hi1].
    destruct (IH sm1 Hi1 Hec Hrun) as (Hp' & Ha' & Hl').
    split_and!; [by eapply ec_post_trans|congruence..].
Qed.

(** The eventually consistent plane is invisible to the strongly consistent
    one: after any sequence of local and peer writes on it, every versioned read
    answers as before (image, revision and errors), every managed or protected
    image, binding, retirement and policy row is unchanged, and so are the
    streams, the locks and the applied index. *)
Theorem ec_writes_leave_records history sm sm'
    (Hi : sm_inv sm) (Hty : history_typed history) (Hec : Forall (λ e, is_ec e = true) history)
    (Hrun : apply_all history sm = Some sm') :
  sm_inv sm' ∧
  (∀ k, get_versioned_metadata (sm_db sm') k = get_versioned_metadata (sm_db sm) k) ∧
  (∀ k, is_managed_key k = true ∨ pol (sm_db sm) k ≠ None → get_metadata sm' k = get_metadata sm k) ∧
  (∀ k, pol (sm_db sm') k = pol (sm_db sm) k ∧ bind (sm_db sm') k = bind (sm_db sm) k ∧
        ret (sm_db sm') k = ret (sm_db sm) k) ∧
  stream_entries (sm_db sm') = stream_entries (sm_db sm) ∧
  sm_advisory sm' = sm_advisory sm ∧ sm_last_applied sm' = sm_last_applied sm.
Proof.
  destruct (apply_all_steps _ _ _ Hi Hty Hrun) as [_ Hi'].
  destruct (ec_history _ _ _ Hi Hty Hec Hrun) as ([_ _ Hm Hr Hst] & Ha & Hl).
  split_and!; [done| |done| |done..].
  - intros k. assert (∀ r, crow_ok r → (∀ ns key, r ≠ CUser ns key) →
      control_state (sm_db sm') !! crow_key r = control_state (sm_db sm) !! crow_key r) as Hrow
      by (intros r H1 H2; exact (Hr r H1 H2)).
    assert (control_state (sm_db sm') !! policy_key k = control_state (sm_db sm) !! policy_key k)
      as Hp by (by apply (Hrow (CPol k))).
    assert (control_state (sm_db sm') !! revision_key k = control_state (sm_db sm) !! revision_key k)
      as Hv by (by apply (Hrow (CRev k))).
    unfold get_versioned_metadata, versioned_metadata_in_read, is_protected_metadata.
    rewrite Hp, Hv. destruct (is_managed_key k) eqn:Hk; [by rewrite Hm by auto|].
    unfold decode_policy. destruct (control_state (sm_db sm) !! policy_key k) as [p|] eqn:Hpk;
      [|cbn; unfold require_managed_key; by rewrite Hk].
    case_bool_decide; [|done]. cbn. rewrite Hm; [done|]. right. unfold crow_at. cbn [crow_key]. congruence.
  - intros k. by rewrite !Hr.
Qed.

(** ** Conditional writes *)

(** The transaction of a conditional write on an admitted record. *)
Lemma execute_write_versioned k value expected inc db :
  machine_inv db → is_utf8 k = true → String.length inc = 16 →
  safe (execute_metadata_in_txn (WriteVersionedMetadata k value expected inc)) db
    (λ r db', ∀ cur, r = ConditionalMetadata true cur →
       current_version db k = expected ∧ bind db k = None ∧ ret db k = None ∧
       ∃ token, cur = mkVersioned (Some value) (Some token) ∧ fresh_token db token ∧
         db' = with_meta <[k := value]> (alloc_put db k token)).
Proof.
  intros [Hi Hu] Hk Hinc. unfold execute_metadata_in_txn.
  apply safe_bind, safe_guard_refusal; [done|intros e; by apply safe_ret|].
  intros _ Hrec. destruct (Hrec k) as [Hr Hb]; [done|done|].
  apply safe_bind, safe_ret. cbn [dispatch_in_txn]. apply safe_write_versioned; [done|done|..].
  - intros r Hn _ cur ->. by destruct (Hn cur).
  - intros token _ Hf Hcur cur [= <-]. split_and!; try done. eauto.
Qed.

(** A write that committed went through its transaction. *)
Lemma apply_committed index k value expected inc sm cur sm' fired :
  sm_inv sm → is_utf8 k = true → String.length inc = 16 →
  apply index (WriteVersionedMetadata k value expected inc) sm
    = Applied (ConditionalMetadata true cur) sm' fired →
  current_version (sm_db sm) k = expected ∧
  ∃ token, cur = mkVersioned (Some value) (Some token) ∧ fresh_token (sm_db sm) token ∧
    sm_db sm' = with_meta <[KEY_LAST_APPLIED := u64_to_be index]>
                  (with_meta <[k := value]> (alloc_put (sm_db sm) k token)).
Proof.
  intros Hi Hk Hinc Happ. unfold apply in Happ. cbn [lock_command] in Happ.
  destruct (index <=? sm_last_applied sm)%N; [done|]. unfold mbind, txn_bind in Happ.
  pose proof (execute_write_versioned k value expected inc (sm_db sm) Hi Hk Hinc) as Hs.
  unfold safe in Hs. destruct (execute_metadata_in_txn _ (sm_db sm)) as [[r db]|[e|]]; [|done..].
  cbn in Happ. simplify_eq. destruct (Hs cur eq_refl) as (Hc & _ & _ & token & -> & Hf & ->).
  split; [done|]. exists token. done.
Qed.

Lemma get_versioned_inv db k image v :
  get_versioned_metadata db k = Ok (mkVersioned (Some image) (Some v)) →
  metadata db !! k = Some image ∧ rev db k = Some v.
Proof.
  unfold get_versioned_metadata, versioned_metadata_in_read, mbind, result_bind.
  intros H. repeat case_match; simplify_eq; unfold versioned_image in *;
    repeat case_match; simplify_eq; done.
Qed.

(** C18: No lost update through the log: a conditional write that commits with a
    version observed earlier replaces exactly the image that was observed with
    it, whatever the node applied in between, committed or eventually
    consistent (no token is ever reused), and the token
    it returns is carried by no record of the zone. *)
Theorem conditional_write_replaces_observed history sm sm1 k image v index value inc cur sm2 fired
    (Hi : sm_inv sm) (Hlog : history_typed history) (Hk : k ≠ KEY_LAST_APPLIED)
    (Hobs : get_versioned_metadata (sm_db sm) k = Ok (mkVersioned (Some image) (Some v)))
    (Hrun : apply_all history sm = Some sm1)
    (Hty : command_typed (WriteVersionedMetadata k value (Some v) inc))
    (Hcommit : apply index (WriteVersionedMetadata k value (Some v) inc) sm1
                 = Applied (ConditionalMetadata true cur) sm2 fired) :
  get_metadata sm1 k = Some image ∧ get_metadata sm2 k = Some value ∧
  vm_version cur = rev (sm_db sm2) k ∧
  ∀ k', rev (sm_db sm1) k' ≠ vm_version cur.
Proof.
  destruct Hty as [Hu Hinc]. apply get_versioned_inv in Hobs as [Hm Hr].
  destruct (apply_all_steps _ _ _ Hi Hlog Hrun) as [(_ & _ & Hf) Hi1].
  destruct (apply_committed _ _ _ _ _ _ _ _ _ Hi1 Hu Hinc Hcommit)
    as (Hcur & token & -> & Hfr & Hdb).
  unfold current_version in Hcur. unfold get_metadata. rewrite Hdb. cbn [vm_version].
  destruct (metadata (sm_db sm1) !! k) as [m|] eqn:Hm1; [|done]. split_and!.
  - rewrite <-Hm1, (Hf k v); done.
  - cbn. rewrite lookup_insert_ne by done. by rewrite lookup_insert_eq.
  - by rewrite !with_meta_at, alloc_put_at, decide_True.
  - intros k' Hk'. by destruct (fresh_not_old _ _ _ _ (proj1 Hi1) Hfr Hk').
Qed.

(** C19: A protected record changes only by a conditional write naming its
    current revision, by a write under a live handle of its owner, or by its
    own retirement; every other command leaves its image as it was. *)
Theorem protected_records_are_fenced index c sm r sm' fired k
    (Hi : sm_inv sm) (Hty : command_typed c) (Hk : k ≠ KEY_LAST_APPLIED)
    (Hp : is_protected_metadata (sm_db sm) k = Ok true)
    (Happ : apply index c sm = Applied r sm' fired)
    (Hchange : get_metadata sm' k ≠ get_metadata sm k) :
  authorised (sm_db sm) c k ∧ is_protected_metadata (sm_db sm') k = Ok true.
Proof.
  destruct (apply_entry _ _ _ _ _ _ Hi Hty Happ) as ((Hi' & He & _) & _ & Hg).
  assert (pol (sm_db sm) k ≠ None) as Hpol.
  { intros Hn. unfold is_protected_metadata in Hp. unfold crow_at in Hn. cbn [crow_key] in Hn.
    by rewrite Hn in Hp. }
  split; [by apply Hg|]. apply (ev_pol _ _ He) in Hpol.
  destruct (pol (sm_db sm') k) as [p|] eqn:Hp'; [|done].
  unfold is_protected_metadata. unfold crow_at in Hp'. cbn [crow_key] in Hp'. rewrite Hp'.
  unfold decode_policy. rewrite bool_decide_eq_true_2; [done|]. by apply (inv_pol _ Hi' k p).
Qed.

(** ** Owners and retirement *)

Lemma live_returns g gv db :
  ctrl_inv db → ∃ b, live_record_guard_in_txn g gv db = Ok (b, db).
Proof.
  intros Hi. unfold live_record_guard_in_txn, protected_in_txn, record_policy_in_txn,
    record_control_in_txn, metadata_in_txn, revision_in_txn, get_ctrl, get_meta, lift, mbind,
    txn_bind, mret, txn_ret.
  assert (∃ b, decode_policy (control_state db !! policy_key g) = Ok b) as [b ->].
  { destruct (control_state db !! policy_key g) as [p|] eqn:Hp; [|by eexists].
    unfold decode_policy. rewrite bool_decide_eq_true_2; [by eexists|].
    by apply (inv_pol _ Hi g p). }
  repeat case_match; simplify_eq; eauto.
Qed.

Lemma execute_guarded_dead gv m child g db :
  machine_inv db → mutation_key m = Some child → bind db child = Some g →
  ¬ live_guard db g gv → execute_metadata_in_txn (GuardedRecord gv m) db = Ok (not_live, db).
Proof.
  intros [Hi _] Hm Hb Hl. unfold execute_metadata_in_txn. cbn [record_guard_refusal].
  unfold guarded_record_refusal. rewrite Hm.
  destruct (inv_bind _ Hi _ _ Hb) as (Hu & _).
  assert (live_record_guard_in_txn g gv db = Ok (false, db)) as Hlive.
  { pose proof (safe_live g gv db (λ b db', b = false ∧ db' = db)) as Hs. unfold safe in Hs.
    pose proof (live_returns g gv db Hi) as [b Hret]. rewrite Hret in *.
    destruct Hs as [-> _]; [done..|naive_solver|done|done]. }
  unfold record_control_in_txn, get_ctrl, mbind, txn_bind. unfold crow_at in Hb.
  cbn [crow_key] in Hb. rewrite Hb, from_utf8_true by done. by rewrite Hlive.
Qed.

(** An entry refused inside its transaction changes only the applied marker. *)
Lemma apply_refused index c sm r :
  lock_command c = None → (sm_last_applied sm < index)%N →
  execute_metadata_in_txn c (sm_db sm) = Ok (r, sm_db sm) →
  ∃ sm' fired, apply index c sm = Applied r sm' fired ∧
    sm_db sm' = with_meta <[KEY_LAST_APPLIED := u64_to_be index]> (sm_db sm).
Proof.
  intros Hlock Hidx Hex. unfold apply. rewrite Hlock, (proj2 (N.leb_gt _ _) Hidx).
  unfold mbind, txn_bind. rewrite Hex. cbn. by eexists _, _.
Qed.

(** Retirement is permanent: once an owner is retired its terminal image and
    revision never change again, and every mutation presented under one of its
    handles, old or new, is refused and changes nothing. *)
Theorem retirement_is_permanent history sm sm' g v
    (Hi : sm_inv sm) (Hlog : history_typed history) (Hg : g ≠ KEY_LAST_APPLIED)
    (Hret : ret (sm_db sm) g = Some v) (Hrun : apply_all history sm = Some sm') :
  ret (sm_db sm') g = Some v ∧ rev (sm_db sm') g = Some v ∧
  get_metadata sm' g = get_metadata sm g ∧
  ∀ index handle m child,
    bind (sm_db sm') child = Some g → mutation_key m = Some child →
    (sm_last_applied sm' < index)%N →
    ∃ sm'' fired, apply index (GuardedRecord handle m) sm' = Applied not_live sm'' fired ∧
      sm_db sm'' = with_meta <[KEY_LAST_APPLIED := u64_to_be index]> (sm_db sm').
Proof.
  destruct (apply_all_steps _ _ _ Hi Hlog Hrun) as [(_ & He & Hf) Hi'].
  destruct (inv_ret _ (proj1 Hi) _ _ Hret) as (_ & Hrev & _).
  destruct (ev_ret _ _ He _ _ Hret) as [Hret' Hrev']. rewrite Hrev in Hrev'.
  split_and!; [done|done|by apply (Hf g v)|].
  intros index handle m child Hb Hm Hidx. apply apply_refused; [done|done|].
  eapply execute_guarded_dead; [done|done|done|]. intros (_ & Hn & _). congruence.
Qed.

Lemma execute_unguarded_refused c k g db :
  guarded_record_key c = Some k → (∀ gv m, c ≠ GuardedRecord gv m) → bind db k = Some g →
  ∃ e, execute_metadata_in_txn c db = Ok (Error e, db).
Proof.
  intros Hk Hn Hb.
  assert (record_guard_refusal c = unguarded_refusal c) as Hr
    by (destruct c; try done; by destruct (Hn guard_version mutation)).
  unfold execute_metadata_in_txn. rewrite Hr. unfold unguarded_refusal. rewrite Hk.
  unfold record_control_in_txn, get_ctrl, mbind, txn_bind, mret, txn_ret.
  destruct (malformed_wal_prefix c); [by eexists|].
  case_bool_decide; [by eexists|]. unfold crow_at in Hb. cbn [crow_key] in Hb. rewrite Hb.
  rewrite bool_decide_eq_true_2 by done. by eexists.
Qed.

(** A record bound to an owner stays bound to that owner, and a conditional
    write or stream command (append, seal, trim) that names the record without
    its owner's handle is refused and changes nothing. *)
Theorem bound_records_need_their_owner history sm sm' k g
    (Hi : sm_inv sm) (Hlog : history_typed history) (Hb : bind (sm_db sm) k = Some g)
    (Hrun : apply_all history sm = Some sm') :
  bind (sm_db sm') k = Some g ∧
  ∀ index c, guarded_record_key c = Some k → (∀ gv m, c ≠ GuardedRecord gv m) →
    (sm_last_applied sm' < index)%N →
    ∃ e sm'' fired, apply index c sm' = Applied (Error e) sm'' fired ∧
      sm_db sm'' = with_meta <[KEY_LAST_APPLIED := u64_to_be index]> (sm_db sm').
Proof.
  destruct (apply_all_steps _ _ _ Hi Hlog Hrun) as [(_ & He & _) Hi'].
  apply (ev_bind _ _ He) in Hb. split; [done|]. intros index c Hk Hn Hidx.
  destruct (execute_unguarded_refused c k g (sm_db sm')) as [e He']; [done..|].
  exists e. apply apply_refused; [by destruct c|done|done].
Qed.

(** ** Rename *)

(** A key without a trailing slash, as the router passes them. *)
Definition plain_key (k : string) : Prop := dir_of k = k +:+ "/".

Definition in_subtree (old k : string) : Prop := k = old ∨ starts_with (dir_of old) k = true.

Lemma rename_target_inj old new s s' :
  plain_key new → in_subtree old s → in_subtree old s' →
  rename_target old new s = rename_target old new s' → s = s'.
Proof.
  unfold rename_target, plain_key. intros Hn Hs Hs'.
  assert (∀ x, new ≠ (new +:+ "/") +:+ x) as Hne.
  { intros x Hx. apply (f_equal String.length) in Hx. rewrite !slen_app in Hx. simpl in Hx. lia. }
  repeat case_decide; rewrite ?Hn; intros He; subst; try done; try (by destruct (Hne _ He));
    try (by destruct (Hne _ (eq_sym He))).
  destruct Hs as [|[x ->]%starts_with_true]; [done|].
  destruct Hs' as [|[y ->]%starts_with_true]; [done|].
  rewrite !sdrop_app in He. apply sapp_inj_len in He as [_ ->]; done.
Qed.

Lemma execute_rename old new is_pas db (Q : CommandResult → Db → Prop) :
  safe (rename_metadata_in_txn old new is_pas) db Q →
  safe (execute_metadata_in_txn (RenameMetadata old new is_pas)) db Q.
Proof. done. Qed.

(** The rows of a committed rename, as changes. *)
Lemma apply_rename_changes index old new is_pas sm sm' fired :
  sm_inv sm → old ≠ new → (sm_last_applied sm < index)%N →
  apply index (RenameMetadata old new is_pas) sm = Applied Success sm' fired →
  ∃ rows changes,
    (∀ k v, (k, v) ∈ rows ↔ metadata (sm_db sm) !! k = Some v ∧ in_subtree old k) ∧
    Forall2 (change_ok old new is_pas (sm_db sm)) rows changes ∧
    metadata (sm_db sm') =
      <[KEY_LAST_APPLIED := u64_to_be index]> (moved changes (metadata (sm_db sm))).
Proof.
  intros [Hi Hu] Hne Hidx Happ. unfold apply in Happ. cbn [lock_command] in Happ.
  rewrite (proj2 (N.leb_gt _ _) Hidx) in Happ. unfold mbind, txn_bind in Happ.
  assert (safe (execute_metadata_in_txn (RenameMetadata old new is_pas)) (sm_db sm)
    (λ r db', r = Success → ∃ rows changes,
       (∀ k v, (k, v) ∈ rows ↔ metadata (sm_db sm) !! k = Some v ∧ in_subtree old k) ∧
       Forall2 (change_ok old new is_pas (sm_db sm)) rows changes ∧
       metadata db' = moved changes (metadata (sm_db sm)))) as Hs.
  { apply execute_rename, safe_rename; [done|done|naive_solver|].
    intros rows changes db' Hrows Hch _ _ _ _ Hm _. by exists rows, changes. }
  unfold safe in Hs. destruct (execute_metadata_in_txn _ (sm_db sm)) as [[r db]|[e|]]; [|done..].
  cbn in Happ. simplify_eq. destruct (Hs eq_refl) as (rows & changes & ? & ? & Hm).
  exists rows, changes. split_and!; [done|done|]. cbn. by rewrite Hm.
Qed.

Lemma changes_of_rows old new is_pas db rows changes :
  (∀ k v, (k, v) ∈ rows ↔ metadata db !! k = Some v ∧ in_subtree old k) →
  Forall2 (change_ok old new is_pas db) rows changes →
  (∀ ch, ch ∈ changes → ∃ s image, metadata db !! s = Some image ∧ in_subtree old s ∧
     change_ok old new is_pas db (s, image) ch) ∧
  (∀ s image, metadata db !! s = Some image → in_subtree old s →
     ∃ ch, ch ∈ changes ∧ change_ok old new is_pas db (s, image) ch).
Proof.
  intros Hrows Hch. split.
  - intros ch [i Hl]%list_elem_of_lookup.
    destruct (Forall2_lookup_r _ _ _ _ _ Hch Hl) as ([s image] & Hr & Hok).
    apply list_elem_of_lookup_2, Hrows in Hr as [Hs Hsub]. eauto 6.
  - intros s image Hs Hsub. pose proof (proj2 (Hrows s image) (conj Hs Hsub)) as Hin.
    apply list_elem_of_lookup in Hin as [i Hl].
    destruct (Forall2_lookup_l _ _ _ _ _ Hch Hl) as (ch & Hc & Hok).
    exists ch. split; [by eapply list_elem_of_lookup_2|done].
Qed.

(** C20: A rename that commits moves the whole subtree and nothing else: each row
    at or below the old path is found under the new path with its metadata
    decoded, re-pathed and re-encoded; the old path and everything below it that
    is not itself a target is gone; every other row is untouched. *)
Theorem rename_moves_subtree index old new is_pas sm sm' fired k
    (Hi : sm_inv sm) (Hne : old ≠ new) (Hnew : plain_key new)
    (Hidx : (sm_last_applied sm < index)%N)
    (Happ : apply index (RenameMetadata old new is_pas) sm = Applied Success sm' fired)
    (Hk : k ≠ KEY_LAST_APPLIED) :
  (∀ s image, get_metadata sm s = Some image → in_subtree old s → rename_target old new s = k →
     ∃ m, decode image = Ok m ∧
       get_metadata sm' k = Some (encode_to_vec (renamed_image is_pas s k m))) ∧
  ((∀ s, get_metadata sm s ≠ None → in_subtree old s → rename_target old new s ≠ k) →
     (in_subtree old k → get_metadata sm' k = None) ∧
     (¬ in_subtree old k → get_metadata sm' k = get_metadata sm k)).
Proof.
  destruct (apply_rename_changes _ _ _ _ _ _ _ Hi Hne Hidx Happ) as (rows & changes & Hrows & Hch & Hm).
  unfold get_metadata. rewrite Hm, lookup_insert_ne by done.
  destruct (changes_of_rows _ _ _ _ _ _ Hrows Hch) as [Hback Hforth].
  split.
  - intros s image Hs Hsub Ht. destruct (Hforth s image Hs Hsub) as (ch & Hin & Hok).
    destruct Hok as (Hsrc & Htgt & _ & _ & m & Hdec & Himg). cbn [fst snd] in *.
    exists m. split.
    { unfold decode_rename_entry in Hdec. destruct (decode image); [|done].
      case_bool_decide; by simplify_eq. }
    unfold moved. apply with_targets_in.
    + apply list_elem_of_fmap. exists ch. split; [congruence|done].
    + intros ch' Hin' Ht'. destruct (Hback ch' Hin') as (s' & image' & Hs' & Hsub' & Hok').
      destruct Hok' as (Hsrc' & Htgt' & _ & _ & m' & Hdec' & Himg'). cbn [fst snd] in *.
      assert (s' = s) as -> by (eapply rename_target_inj; [done..|congruence]).
      simplify_eq. congruence.
  - intros Hnt. assert (k ∉ ch_target <$> changes) as Hkt.
    { intros (ch & -> & Hin)%list_elem_of_fmap. destruct (Hback ch Hin) as (s & image & Hs & Hsub & Hok).
      destruct Hok as (_ & Htgt & _). cbn [fst] in Htgt. apply (Hnt s); [by rewrite Hs|done|done]. }
    unfold moved. rewrite with_targets_other, without_sources_lookup by done. split.
    + intros Hsub. destruct (metadata (sm_db sm) !! k) as [image|] eqn:Hkm; [|by case_decide].
      destruct (Hforth k image Hkm Hsub) as (ch & Hin & Hsrc & _). cbn [fst] in Hsrc.
      rewrite decide_True; [done|]. apply list_elem_of_fmap. eauto.
    + intros Hsub. rewrite decide_False; [done|].
      intros (ch & -> & Hin)%list_elem_of_fmap. destruct (Hback ch Hin) as (s & image & _ & Hs & Hsrc & _).
      cbn [fst] in Hsrc. by rewrite Hsrc in Hsub.
Qed.
End replica.

(** ** Concrete runs *)

(** A small codec: images [M<path>] are regular files. *)
Definition demo_metadata (path : string) : FileMetadata :=
  mkFileMetadata path 0 "" "" "" "" 1 "" "" DT_REG "" 0 "" "" 0 "".

#[local] Instance demo_codec : MetadataCodec := {
  decode s := match strip_prefix "M" s with Some path => Ok (demo_metadata path) | None => Err "bad" end;
  encode_to_vec m := "M" +:+ fm_path m }.

Definition demo_rfc3339 (s : string) : option Z := None.

Definition demo_sm : FullStateMachine := mkSM db_empty lock_state_new 0 [].
Definition demo_after (history : list event) : FullStateMachine :=
  default demo_sm (apply_all demo_rfc3339 history demo_sm).

Definition demo_inc : string := "0123456789abcdef".
Definition demo_token (n : N) : string := demo_inc +:+ u64_to_be n.
Definition demo_key : string := "/__managed_content_v1__/a".

Definition completes (history : list event) : bool :=
  match apply_all demo_rfc3339 history demo_sm with Some _ => true | None => false end.

Lemma demo_after_some history :
  completes history = true → apply_all demo_rfc3339 history demo_sm = Some (demo_after history).
Proof. unfold completes, demo_after. by destruct (apply_all demo_rfc3339 history demo_sm). Qed.

Lemma demo_inv history : history_typed history → completes history = true → sm_inv (demo_after history).
Proof.
  intros Hlog Hrun%demo_after_some. by destruct (apply_all_steps demo_rfc3339 _ _ _ sm_inv_empty Hlog Hrun).
Qed.

Lemma demo_continue l1 l2 :
  completes l1 = true → completes (l1 ++ l2) = true →
  apply_all demo_rfc3339 l2 (demo_after l1) = Some (demo_after (l1 ++ l2)).
Proof.
  intros H1%demo_after_some H2%demo_after_some. rewrite apply_all_app, H1 in H2. exact H2.
Qed.

(** The parts of an outcome. *)
Definition outcome_result (o : apply_outcome) : option CommandResult :=
  match o with Applied r _ _ => Some r | _ => None end.
Definition outcome_sm (o : apply_outcome) : FullStateMachine :=
  match o with Applied _ sm _ => sm | _ => demo_sm end.
Definition outcome_fired (o : apply_outcome) : list (nat * AppliedEntry) :=
  match o with Applied _ _ fired => fired | _ => [] end.

Lemma outcome_eta o r :
  outcome_result o = Some r → o = Applied r (outcome_sm o) (outcome_fired o).
Proof. destruct o; by intros [= ->]. Qed.

(** One managed record, written once. *)
Definition demo_created : list event :=
  [Committed 1 (WriteVersionedMetadata demo_key "v1" None demo_inc)].
Definition demo_between : list event := 
  [Committed 2 (SetMetadata "/x" "y"); LocalWrite (SetMetadata "/l" "M/l");
   PeerWrite (SetMetadata "/p" "M/p") 7].
Definition demo_write : Command :=
  WriteVersionedMetadata demo_key "v2" (Some (demo_token 1)) demo_inc.

(** An owner [/o] with the guarded record [/c]; then the owner is retired. *)
Definition demo_owned : list event :=
  [Committed 1 (SetMetadata "/o" "Mo"); Committed 2 (AdoptProtectedMetadata "/o" (Some "Mo") demo_inc);
   Committed 3 (BindRecordGuard "/c" None "/o" (demo_token 1) demo_inc)].
Definition demo_retire : Command := RetireRecordGuard "/o" (demo_token 1) "end" demo_inc.
Definition demo_retired : list event := demo_owned ++ [Committed 4 demo_retire].
Definition demo_late : list event :=
  [Committed 5 (SetMetadata "/o" "no"); LocalWrite (DeleteMetadata "/o")].

Lemma demo_created_inv : sm_inv (demo_after demo_created).
Proof. apply demo_inv; [by repeat constructor|by vm_compute]. Qed.
Lemma demo_owned_inv : sm_inv (demo_after demo_owned).
Proof. apply demo_inv; [by repeat constructor|by vm_compute]. Qed.
Lemma demo_retired_inv : sm_inv (demo_after demo_retired).
Proof. apply demo_inv; [by repeat constructor|by vm_compute]. Qed.

Lemma apply_stays_healthy_witness :
  match apply 3 demo_write (demo_after demo_created) with
  | Applied _ sm' _ => sm_inv sm'
  | Panicked e => e = exhausted
  | Hung => ∃ key value expected bytes, demo_write = CasSetMetadata key value expected ∧
              get_metadata (demo_after demo_created) key = Some bytes ∧
              extract_version bytes = None
  end.
Proof.
  apply (apply_stays_healthy 3 demo_write (demo_after demo_created)).
  - exact demo_created_inv.
  - by split.
Defined.

Lemma conditional_write_replaces_observed_witness :
  let sm1 := demo_after (demo_created ++ demo_between) in
  get_metadata sm1 demo_key = Some "v1" ∧
  get_metadata (outcome_sm (apply 3 demo_write sm1)) demo_key = Some "v2".
Proof.
  intros sm1.
  destruct (conditional_write_replaces_observed demo_rfc3339 demo_between (demo_after demo_created) sm1
    demo_key "v1" (demo_token 1) 3 "v2" demo_inc
    (mkVersioned (Some "v2") (Some (demo_token 2)))
    (outcome_sm (apply 3 demo_write sm1)) (outcome_fired (apply 3 demo_write sm1)))
    as (H1 & H2 & _).
  - exact demo_created_inv.
  - by repeat constructor.
  - discriminate.
  - vm_compute. reflexivity.
  - apply demo_continue; vm_compute; reflexivity.
  - by split.
  - apply outcome_eta. vm_compute. reflexivity.
  - split; [exact H1|exact H2].
Defined.

Lemma protected_records_are_fenced_witness :
  authorised (sm_db (demo_after demo_owned)) demo_retire "/o".
Proof.
  destruct (outcome_result (apply 4 demo_retire (demo_after demo_owned))) as [r|] eqn:Hr;
    [|by vm_compute in Hr].
  apply (protected_records_are_fenced 4 demo_retire (demo_after demo_owned) r
    (outcome_sm (apply 4 demo_retire (demo_after demo_owned)))
    (outcome_fired (apply 4 demo_retire (demo_after demo_owned))) "/o").
  - exact demo_owned_inv.
  - by split.
  - discriminate.
  - vm_compute. reflexivity.
  - by apply outcome_eta.
  - vm_compute. discriminate.
Defined.

Lemma retirement_is_permanent_witness :
  get_metadata (demo_after (demo_retired ++ demo_late)) "/o" = Some "end" ∧
  rev (sm_db (demo_after (demo_retired ++ demo_late))) "/o" = Some (demo_token 2).
Proof.
  destruct (retirement_is_permanent demo_rfc3339 demo_late (demo_after demo_retired)
    (demo_after (demo_retired ++ demo_late)) "/o" (demo_token 2)) as (_ & Hr & Hm & _).
  - exact demo_retired_inv.
  - by repeat constructor.
  - discriminate.
  - vm_compute. reflexivity.
  - apply demo_continue; vm_compute; reflexivity.
  - split; [rewrite Hm; vm_compute; reflexivity|exact Hr].
Defined.

Lemma bound_records_need_their_owner_witness :
  let sm := demo_after (demo_owned ++ [Committed 4 Noop; LocalWrite (DeleteMetadata "/x")]) in
  bind (sm_db sm) "/c" = Some "/o" ∧
  ∃ e sm'' fired,
    apply 5 (AppendStreamEntry "/__wal_stream__//c/" "data") sm = Applied (Error e) sm'' fired.
Proof.
  intros sm. destruct (bound_records_need_their_owner demo_rfc3339 [Committed 4 Noop; LocalWrite (DeleteMetadata "/x")] (demo_after demo_owned) sm
    "/c" "/o") as [Hb Hc].
  - exact demo_owned_inv.
  - by repeat constructor.
  - vm_compute. reflexivity.
  - apply demo_continue; vm_compute; reflexivity.
  - split; [exact Hb|].
    destruct (Hc 5%N (AppendStreamEntry "/__wal_stream__//c/" "data"))
      as (e & sm'' & fired & Happ & _).
    + vm_compute. reflexivity.
    + discriminate.
    + vm_compute. reflexivity.
    + exists e, sm'', fired. exact Happ.
Defined.

Definition demo_tree : list event :=
  [Committed 1 (SetMetadata "/a" "M/a"); Committed 2 (SetMetadata "/a/x" "M/a/x")].

Lemma rename_moves_subtree_witness :
  get_metadata (outcome_sm (apply 3 (RenameMetadata "/a" "/b" false) (demo_after demo_tree))) "/b/x"
    = Some "M/b/x".
Proof.
  set (o := apply 3 (RenameMetadata "/a" "/b" false) (demo_after demo_tree)).
  destruct (rename_moves_subtree 3 "/a" "/b" false (demo_after demo_tree) (outcome_sm o)
    (outcome_fired o) "/b/x") as [Hmoved _].
  - apply demo_inv; [by repeat constructor|by vm_compute].
  - discriminate.
  - vm_compute. reflexivity.
  - vm_compute. reflexivity.
  - apply outcome_eta. vm_compute. reflexivity.
  - discriminate.
  - destruct (Hmoved "/a/x" "M/a/x") as (m & Hd & Hm).
    + vm_compute. reflexivity.
    + right. vm_compute. reflexivity.
    + vm_compute. reflexivity.
    + rewrite Hm. vm_compute in Hd. injection Hd as <-. reflexivity.
Defined.

Definition demo_ec : list event :=
  [LocalWrite (SetMetadata "/l" "M/l"); LocalWrite (SetMetadata demo_key "no");
   PeerWrite (DeleteMetadata demo_key) 9].

Lemma ec_writes_leave_records_witness :
  get_metadata (demo_after (demo_created ++ demo_ec)) "/l" = Some "M/l" ∧
  get_metadata (demo_after (demo_created ++ demo_ec)) demo_key = Some "v1".
Proof.
  split; [vm_compute; reflexivity|].
  destruct (ec_writes_leave_records demo_rfc3339 demo_ec (demo_after demo_created)
    (demo_after (demo_created ++ demo_ec))) as (_ & _ & Hm & _).
  - exact demo_created_inv.
  - by repeat constructor.
  - by repeat constructor.
  - apply demo_continue; vm_compute; reflexivity.
  - rewrite Hm; [vm_compute; reflexivity|]. left. vm_compute. reflexivity.
Defined.
