(* ===== verification/Recovery.v ===== *)
(** * Restart, snapshots and catch-up

    How a replica comes back: [FullStateMachine::new] over its store and a
    replay of the log ([apply] skips what the store already has and rebuilds the
    locks), the snapshot a leader sends, and the boot sequence of
    zone_registry.rs, which restores the stored snapshot before the replay. *)

From S2P Require Import Prelude Bytes Codec Table LockState Command StreamTier Version Records.
From S2P Require Import RecordProofs Rename RenameProofs StateMachine MachineProofs.
From S2P Require Import KeysUtf8 Eventual Replica.

(** ** Opening a zone *)

(** The state machine part of [ZoneRaftRegistry::setup_zone]: open the store,
    admit the membership policy, and rehydrate from the stored snapshot
    [(index, data)] if the raft storage has one. *)
Definition open_state_machine (deserialize : string → Result Snapshot) (store : Db)
    (stored : option (N * string)) (policy : MembershipPolicy) : Result FullStateMachine :=
  sm ← new store;
  validate_protected_storage_policy store policy;;
  match stored with
  | Some (index, data) =>
      if (0 <? index)%N && bool_decide (data ≠ "") then
        validate_snapshot_membership deserialize data policy;;
        restore_snapshot_bytes deserialize data sm
      else mret sm
  | None => mret sm
  end.

(** A replica with an empty store: [new db_empty]. *)
Definition fresh_replica : FullStateMachine := mkSM db_empty lock_state_new 0 [].

Section recovery.
Context `{Codec : MetadataCodec}.

(** ** The log *)

Abbreviation log := (list (N * Command)).

(** Entries of the raft log, in order: indices increase from [from] on. *)
Fixpoint increasing (from : N) (l : log) : Prop :=
  match l with
  | [] => True
  | (i, _) :: l => (from < i < U64_MOD)%N ∧ increasing i l
  end.

Fixpoint replay (l : log) (sm : FullStateMachine) : option FullStateMachine :=
  match l with
  | [] => Some sm
  | (index, c) :: l =>
      match apply index c sm with
      | Applied _ sm' _ => replay l sm'
      | Panicked _ | Hung => None
      end
  end.

Lemma replay_app l1 l2 sm : replay (l1 ++ l2) sm = replay l1 sm ≫= replay l2.
Proof.
  revert sm. induction l1 as [|[i c] l1 IH]; intros sm; [done|]. cbn [app replay].
  destruct (apply i c sm); [apply IH|done..].
Qed.

(** The lock table and the highest lock index of a log. *)
Fixpoint lock_run (l : log) (locks : LockState) : LockState :=
  match l with
  | [] => locks
  | (_, c) :: l =>
      lock_run l (match lock_command c with Some op => (op locks).2 | None => locks end)
  end.

Fixpoint lock_high (l : log) (high : N) : N :=
  match l with
  | [] => high
  | (i, c) :: l => lock_high l (match lock_command c with Some _ => N.max high i | None => high end)
  end.

Lemma lock_high_max l h : lock_high l h = N.max h (lock_high l 0).
Proof.
  revert h. induction l as [|[i c] l IH]; intros h; cbn [lock_high]; [lia|].
  destruct (lock_command c); [|apply IH]. rewrite IH, (IH (N.max 0 i)). lia.
Qed.

Lemma apply_lock i c sm op :
  lock_command c = Some op →
  ∃ r, apply i c sm = Applied r
    (mkSM (sm_db sm) (op (sm_advisory sm)).2 (N.max (sm_last_applied sm) i)
       (sm_apply_observers sm)) [].
Proof.
  intros Hop. unfold apply. rewrite Hop. destruct (op (sm_advisory sm)) as [r locks]. exists r.
  cbn [snd]. do 2 f_equal. destruct (N.ltb_spec (sm_last_applied sm) i); lia.
Qed.

(** The applied index the store records. *)
Definition marked (m : N) (db : Db) : Prop :=
  (m < U64_MOD)%N ∧
  match metadata db !! KEY_LAST_APPLIED with
  | Some bytes => bytes = u64_to_be m
  | None => m = 0%N
  end.

Lemma new_marked m db : marked m db → new db = Ok (mkSM db lock_state_new m []).
Proof.
  intros [Hm Hk]. unfold new, with_advisory. destruct (metadata db !! KEY_LAST_APPLIED).
  - subst. by rewrite u64_from_to_be.
  - by subst.
Qed.

Lemma apply_metadata i c sm r sm' fired :
  lock_command c = None → (sm_last_applied sm < i < U64_MOD)%N →
  apply i c sm = Applied r sm' fired →
  marked i (sm_db sm') ∧ sm_advisory sm' = sm_advisory sm ∧ sm_last_applied sm' = i ∧
  sm_apply_observers sm' = sm_apply_observers sm.
Proof.
  intros Hl Hi Happ. unfold apply in Happ. rewrite Hl in Happ.
  destruct (N.leb_spec i (sm_last_applied sm)); [lia|].
  case_match eqn:Hex; [|by case_match]. destruct a as [r' db]. injection Happ as <- <- <-.
  apply txn_bind_Ok in Hex as (r1 & db1 & _ & Hex). txn_inv Hex.
  split_and!; try done. split; [lia|]. cbn [sm_db metadata]. by rewrite lookup_insert_eq.
Qed.

(** A run of fresh entries: what it leaves in the store and in memory. *)
Lemma replay_fresh l sm sm' m :
  increasing (sm_last_applied sm) l → marked m (sm_db sm) → (m ≤ sm_last_applied sm)%N →
  replay l sm = Some sm' →
  ∃ m', marked m' (sm_db sm') ∧ (m ≤ m')%N ∧
    Forall (λ e, lock_command e.2 = None → (e.1 ≤ m')%N) l ∧
    sm_advisory sm' = lock_run l (sm_advisory sm) ∧
    sm_last_applied sm' = N.max m' (lock_high l (sm_last_applied sm)) ∧
    sm_apply_observers sm' = sm_apply_observers sm.
Proof.
  revert sm m. induction l as [|[i c] l IH]; intros sm m Hinc Hm Hle Hrun.
  { injection Hrun as <-. exists m. split_and!; [done|done|constructor|done| |done].
    cbn [lock_high]. lia. }
  destruct Hinc as [Hi Hinc]. cbn [replay lock_run lock_high] in *.
  destruct (lock_command c) as [op|] eqn:Hl.
  - destruct (apply_lock i c sm op Hl) as [r Happ]. rewrite Happ in Hrun.
    apply (IH _ m) in Hrun as (m' & Hm' & Hle' & Hall & Hadv & Hla & Hobs);
      cbn [sm_db sm_last_applied sm_advisory sm_apply_observers] in *;
      [|by replace (N.max _ i) with i by lia|done|lia].
    exists m'. split_and!; try done. constructor; [|done]. cbn. by rewrite Hl.
  - destruct (apply i c sm) as [r sm1 fired| |] eqn:Happ; [|done..].
    destruct (apply_metadata _ _ _ _ _ _ Hl Hi Happ) as (Hm1 & Ha1 & Hl1 & Ho1).
    apply (IH _ i) in Hrun as (m' & Hm' & Hle' & Hall & Hadv & Hla & Hobs);
      [|by rewrite Hl1|done|lia].
    exists m'. split_and!; [done|lia|by constructor|by rewrite Hadv, Ha1| |by rewrite Hobs].
    rewrite Hla, Hl1, lock_high_max, (lock_high_max l (sm_last_applied sm)). lia.
Qed.

(** A run of entries the store already has. *)
Lemma replay_known l db locks la obs :
  Forall (λ e, lock_command e.2 = None → (e.1 ≤ la)%N) l →
  replay l (mkSM db locks la obs) = Some (mkSM db (lock_run l locks) (lock_high l la) obs).
Proof.
  revert locks la. induction l as [|[i c] l IH]; intros locks la Hl; [done|].
  apply Forall_cons in Hl as [Hi Hl]. cbn [replay lock_run lock_high fst snd] in *.
  destruct (lock_command c) as [op|] eqn:Hop.
  - destruct (apply_lock i c (mkSM db locks la obs) op Hop) as [r ->].
    cbn [sm_db sm_advisory sm_last_applied sm_apply_observers]. apply IH.
    eapply Forall_impl; [exact Hl|]. intros e He Hn. specialize (He Hn). lia.
  - unfold apply. rewrite Hop. cbn [sm_last_applied].
    rewrite (proj2 (N.leb_le i la)) by (by apply Hi). by apply IH.
Qed.

(** C2: Crash recovery: a replica that crashed after any prefix of the log and
    reopens its store is, once the log has been delivered again from the start,
    in the very state of a replica that never crashed: no entry is applied
    twice, none is lost, and the lock table is rebuilt. *)
Theorem restart_replays_log l1 l2 crashed final
    (Hinc : increasing 0 (l1 ++ l2))
    (Hcrash : replay l1 fresh_replica = Some crashed)
    (Hfinal : replay (l1 ++ l2) fresh_replica = Some final) :
  ∃ sm, new (sm_db crashed) = Ok sm ∧ sm_advisory sm = lock_state_new ∧
    replay (l1 ++ l2) sm = Some final.
Proof.
  assert (increasing 0 l1) as Hinc1.
  { revert Hinc. generalize 0%N. clear. induction l1 as [|[i c] l1 IH]; intros from; [done|].
    cbn [app increasing]. intros [Hi Hl]. split; [done|by apply IH]. }
  destruct (replay_fresh l1 fresh_replica crashed 0 Hinc1) as (m & Hm & _ & Hall & Ha & Hla & Ho);
    [by split|done|done|].
  exists (mkSM (sm_db crashed) lock_state_new m []). split; [by apply new_marked|]. split; [done|].
  rewrite !replay_app in *. rewrite Hcrash in Hfinal. rewrite replay_known by done.
  cbn [mbind option_bind] in *. rewrite <-Hfinal. f_equal. destruct crashed as [db adv la obs].
  cbn [sm_db sm_advisory sm_last_applied sm_apply_observers] in *. subst.
  by rewrite (lock_high_max l1 m).
Qed.

(** ** Internal rows

    The metadata keys that start with two underscores (the applied index, the link
    counter) are not part of a snapshot.  Two stores are alike when they differ in such
    rows only and no record is protected under such a key; a transaction that succeeds
    on one succeeds on the other, with the same answer, and leaves them alike. *)

Definition plain (k : string) : Prop := starts_with "__" k = false.

Record alike (db1 db2 : Db) : Prop := {
  al_meta k : plain k → metadata db1 !! k = metadata db2 !! k;
  al_streams : stream_entries db1 = stream_entries db2;
  al_ctrl : control_state db1 = control_state db2;
  al_pol k : pol db1 k ≠ None → plain k }.

Definition both {A} (P : A → Prop) (m : txn A) : Prop :=
  ∀ db1 db2 a db1', alike db1 db2 → m db1 = Ok (a, db1') →
    P a ∧ ∃ db2', m db2 = Ok (a, db2') ∧ alike db1' db2'.

Lemma both_ret {A} (P : A → Prop) a : P a → both P (mret a).
Proof. intros Ha db1 db2 a' db1' Hal H. txn_prim H. split; [done|]. by exists db2. Qed.

Lemma both_bind {A B} (P : A → Prop) (Q : B → Prop) (m : txn A) (f : A → txn B) :
  both P m → (∀ a, P a → both Q (f a)) → both Q (m ≫= f).
Proof.
  intros Hm Hf db1 db2 b db1'' Hal (a & db1' & H1 & H2)%txn_bind_Ok.
  destruct (Hm _ _ _ _ Hal H1) as (Ha & db2' & E2 & Hal').
  destruct (Hf a Ha _ _ _ _ Hal' H2) as (Hb & db2'' & E3 & Hal''). split; [done|]. exists db2''.
  split; [|done]. apply txn_bind_Ok. eauto.
Qed.

Lemma both_then {A B} (Q : B → Prop) (m : txn A) (f : A → txn B) :
  both always m → (∀ a, both Q (f a)) → both Q (m ≫= f).
Proof. intros Hm Hf. eapply both_bind; [exact Hm|]. intros a _. apply Hf. Qed.

Lemma both_weaken {A} (P Q : A → Prop) (m : txn A) : both P m → (∀ a, P a → Q a) → both Q m.
Proof. intros Hm HPQ db1 db2 a db1' Hal H. destruct (Hm _ _ _ _ Hal H) as [Ha ?]. eauto. Qed.

Lemma both_fail {A} (P : A → Prop) e : both P (fail e).
Proof. intros db1 db2 a db1' _ H. discriminate H. Qed.

Lemma both_lift {A} (P : A → Prop) (r : Result A) : (∀ a, r = Ok a → P a) → both P (lift r).
Proof.
  intros HP db1 db2 a db1' Hal H. apply lift_Ok in H as [H ->]. split; [by apply HP|]. exists db2.
  split; [by apply lift_Ok|done].
Qed.

Lemma both_terminating {A} (r : option A) : both always (terminating r).
Proof.
  intros db1 db2 a db1' Hal H. apply terminating_Ok in H as [H ->]. split; [done|]. exists db2.
  split; [by apply terminating_Ok|done].
Qed.

Lemma both_get_meta k : plain k → both always (get_meta k).
Proof. intros Hk db1 db2 a db1' Hal H. txn_prim H. split; [done|]. exists db2. unfold get_meta. by rewrite (al_meta _ _ Hal k Hk). Qed.
Lemma both_get_ctrl k : both always (get_ctrl k).
Proof. intros db1 db2 a db1' Hal H. txn_prim H. split; [done|]. exists db2. unfold get_ctrl. by rewrite (al_ctrl _ _ Hal). Qed.
Lemma both_get_stream k : both always (get_stream k).
Proof. intros db1 db2 a db1' Hal H. txn_prim H. split; [done|]. exists db2. unfold get_stream. by rewrite (al_streams _ _ Hal). Qed.
Lemma both_range_stream lo hi : both always (range_stream lo hi).
Proof. intros db1 db2 a db1' Hal H. txn_prim H. split; [done|]. exists db2. unfold range_stream. by rewrite (al_streams _ _ Hal). Qed.

Lemma both_put_meta k v : both always (put_meta k v).
Proof.
  intros db1 db2 a db1' [H1 H2 H3 H4] H. txn_prim H. split; [done|]. eexists. split; [done|]. split; cbn; try done.
  intros k' Hk'. destruct (decide (k = k')) as [->|Hne]; [by rewrite !lookup_insert_eq|]. rewrite !lookup_insert_ne by done. by apply H1.
Qed.
Lemma both_del_meta k : both always (del_meta k).
Proof.
  intros db1 db2 a db1' [H1 H2 H3 H4] H. txn_prim H. split; [done|]. eexists. split; [done|]. split; cbn [metadata stream_entries control_state crow_at]; try done.
  intros k' Hk'. destruct (decide (k = k')) as [->|Hne]; [by rewrite !lookup_delete_eq|]. rewrite !lookup_delete_ne by done. by apply H1.
Qed.
Lemma both_put_stream k v : both always (put_stream k v).
Proof. intros db1 db2 a db1' [H1 H2 H3 H4] H. txn_prim H. split; [done|]. eexists. split; [done|]. split; cbn [metadata stream_entries control_state crow_at]; try done. by rewrite H2. Qed.
Lemma both_del_stream k : both always (del_stream k).
Proof. intros db1 db2 a db1' [H1 H2 H3 H4] H. txn_prim H. split; [done|]. eexists. split; [done|]. split; cbn [metadata stream_entries control_state crow_at]; try done. by rewrite H2. Qed.

Lemma both_put_row r v : crow_ok r → (∀ k, r = CPol k → plain k) → both always (put_ctrl (crow_key r) v).
Proof.
  intros Hr Hp db1 db2 a db1' [H1 H2 H3 H4] H. txn_prim H. split; [done|]. eexists. split; [done|]. split; cbn [metadata stream_entries control_state crow_at]; try done; [by rewrite H3|].
  intros k. unfold crow_at. cbn [control_state]. rewrite crow_lookup_insert by done. case_decide; [intros _; by apply Hp|apply H4].
Qed.
Lemma both_del_user ns key : crow_ok (CUser ns key) → both always (del_ctrl (control_key ns key)).
Proof.
  intros Hr db1 db2 a db1' [H1 H2 H3 H4] H. txn_prim H. split; [done|]. eexists. split; [done|]. split; cbn [metadata stream_entries control_state crow_at]; try done; [by rewrite H3|].
  intros k. unfold crow_at. cbn [control_state]. rewrite (crow_lookup_delete _ (CUser ns key)) by done. case_decide; [done|apply H4].
Qed.

Lemma both_put_alloc v : both always (put_ctrl allocator_key v).
Proof. by apply (both_put_row CAlloc). Qed.
Lemma both_put_req v : both always (put_ctrl requirement_key v).
Proof. by apply (both_put_row CReq). Qed.
Lemma both_put_rev k v : both always (put_ctrl (revision_key k) v).
Proof. by apply (both_put_row (CRev k)). Qed.
Lemma both_put_pol k v : plain k → both always (put_ctrl (policy_key k) v).
Proof. intros Hk. apply (both_put_row (CPol k)); [done|]. by intros ? [= <-]. Qed.
Lemma both_put_bind k v : both always (put_record_control_in_txn BINDING_PREFIX k v).
Proof. by apply (both_put_row (CBind k)). Qed.
Lemma both_put_ret k v : both always (put_record_control_in_txn RETIRED_PREFIX k v).
Proof. by apply (both_put_row (CRet k)). Qed.

Create HintDb both.
#[local] Hint Resolve both_fail both_terminating both_get_meta both_get_ctrl both_get_stream both_range_stream both_put_meta
  both_del_meta both_put_stream both_del_stream both_put_alloc both_put_req both_put_rev both_put_pol both_put_bind both_put_ret : both.

Ltac both_step :=
  lazymatch goal with
  | |- both _ (mret _) => apply both_ret; try done
  | |- both _ (_ ≫= _) => apply both_then; [|intros ?]
  | |- both _ (lift _) => apply both_lift; try done
  | |- both _ (if ?b then _ else _) => destruct b
  | |- both _ (match ?x with _ => _ end) => destruct x
  | |- both _ _ => progress eauto with both
  end.
Ltac both_tac := repeat both_step.

(** *** Records *)

Lemma managed_plain k : is_managed_key k = true → plain k.
Proof.
  unfold is_managed_content_path, plain. rewrite orb_true_iff, bool_decide_eq_true. intros [->|H]; [done|].
  destruct (strip_prefix MANAGED_CONTENT_ROOT k) as [t|] eqn:Ht; [|done]. apply strip_prefix_Some in Ht as ->. done.
Qed.

Lemma path_plain k : starts_with "/" k = true → plain k.
Proof. by intros [r ->]%starts_with_true. Qed.

Lemma valid_slash k u : validate_path_fast k = Ok u → starts_with "/" k = true.
Proof. unfold validate_path_fast. repeat case_match; try done. by destruct (starts_with "/" k). Qed.

Lemma valid_plain k u : validate_path_fast k = Ok u → plain k.
Proof. intros H. by eapply path_plain, valid_slash. Qed.

Lemma both_allocate k initial : both always (allocate_revision k initial).
Proof. unfold allocate_revision. both_tac. Qed.
#[local] Hint Resolve both_allocate : both.

Lemma both_refresh k : both always (refresh_tracked_version k).
Proof. unfold refresh_tracked_version, revision_in_txn. both_tac. Qed.

(** A record that is protected is not internal. *)
Lemma both_protected k : both (λ b, b = true → plain k) (protected_in_txn k).
Proof.
  intros db1 db2 b db1' Hal. unfold protected_in_txn, record_policy_in_txn. intros (v & db & H1 & H2)%txn_bind_Ok. txn_prim H1.
  apply lift_Ok in H2 as [H2 ->]. split.
  - intros ->. apply (al_pol _ _ Hal). unfold crow_at. cbn [crow_key]. intros E. by rewrite E in H2.
  - exists db2. split; [|done]. apply txn_bind_Ok. eexists _, db2. split; [reflexivity|]. apply lift_Ok. by rewrite <-(al_ctrl _ _ Hal).
Qed.

Lemma both_protected' k : both always (protected_in_txn k).
Proof. eapply both_weaken; [apply both_protected|done]. Qed.
#[local] Hint Resolve both_refresh both_protected' : both.

Lemma both_ordinary k : both always (ordinary_metadata_refusal k).
Proof. unfold ordinary_metadata_refusal. both_tac. Qed.

Lemma both_format guarded : both always (require_record_format_in_txn guarded).
Proof. unfold require_record_format_in_txn. both_tac. Qed.

Lemma both_mark_owner k : plain k → both always (mark_record_owner_in_txn k).
Proof. intros Hk. unfold mark_record_owner_in_txn, record_policy_in_txn. both_tac. Qed.

Lemma both_live k v : both (λ b, b = true → plain k) (live_record_guard_in_txn k v).
Proof.
  unfold live_record_guard_in_txn. eapply both_bind; [apply both_protected|]. intros [] Hk; [|by apply both_ret].
  specialize (Hk eq_refl). unfold record_control_in_txn, metadata_in_txn, revision_in_txn. cbn [negb]. both_tac.
Qed.

Lemma both_live' k v : both always (live_record_guard_in_txn k v).
Proof. eapply both_weaken; [apply both_live|done]. Qed.
#[local] Hint Resolve both_ordinary both_format both_mark_owner both_live' : both.

Lemma both_adopt k image inc : plain k → both always (adopt_protected_in_txn k image inc).
Proof. intros Hk. unfold adopt_protected_in_txn, metadata_in_txn. both_tac. Qed.

Lemma both_write k v expected inc : both always (write_versioned_in_txn k v expected inc).
Proof.
  unfold write_versioned_in_txn. apply (both_bind (λ b, b = true → plain k)).
  { destruct (is_managed_key k) eqn:Hm; [apply both_ret; intros _; by apply managed_plain|apply both_protected]. }
  intros [] Hk; [|by apply both_ret]. specialize (Hk eq_refl). cbn [negb]. unfold metadata_in_txn, revision_in_txn. both_tac.
Qed.
#[local] Hint Resolve both_adopt both_write : both.

Lemma both_guard_refusal c : both always (record_guard_refusal c).
Proof. unfold record_guard_refusal, guarded_record_refusal, unguarded_refusal, record_control_in_txn. both_tac. Qed.

Lemma both_bind_guard k image g gv inc : both always (bind_record_guard_in_txn k image g gv inc).
Proof.
  unfold bind_record_guard_in_txn. destruct (validate_path_fast k) as [u|] eqn:Hk; [|both_tac].
  destruct (validate_path_fast g) as [u'|] eqn:Hg; [|both_tac]. apply valid_plain in Hk, Hg.
  unfold is_record_owner_in_txn, record_policy_in_txn, record_control_in_txn, metadata_in_txn. both_tac.
Qed.

(** A retirement that gets past its first guard is of a live record. *)
Lemma both_retire k expected image inc : both always (retire_record_guard_in_txn k expected image inc).
Proof.
  unfold retire_record_guard_in_txn. apply (both_bind (λ bad, bad = false → plain k)).
  - unfold record_control_in_txn. apply both_then; [both_tac|intros bound]. case_bool_decide; [by apply both_ret|].
    eapply both_bind; [apply both_live|]. intros b Hb. apply both_ret. intros ?%negb_false_iff. auto.
  - intros [] Hk; [by apply both_ret|]. specialize (Hk eq_refl). both_tac.
Qed.

Lemma both_admit k expected : both always (admit_record_io_in_txn k expected).
Proof.
  unfold admit_record_io_in_txn. destruct (validate_path_fast k) as [u|] eqn:Hk; [|both_tac]. apply valid_plain in Hk.
  unfold record_control_in_txn, mark_record_io_owner_in_txn. both_tac.
Qed.

Lemma both_remove_keys ks : both always (remove_keys ks).
Proof. induction ks; cbn [remove_keys]; both_tac. Qed.
#[local] Hint Resolve both_remove_keys both_guard_refusal both_bind_guard both_retire both_admit : both.

Lemma both_append p data : both always (append_stream_entry p data).
Proof. unfold append_stream_entry, get_cursor. both_tac. Qed.
Lemma both_seal p base end_ cid origin size : both always (seal_stream_segment p base end_ cid origin size).
Proof. unfold seal_stream_segment, get_cursor. both_tac. Qed.
Lemma both_trim p up_to : both always (trim_stream_segment p up_to).
Proof. unfold trim_stream_segment, get_cursor. both_tac. Qed.
#[local] Hint Resolve both_append both_seal both_trim : both.

(** *** Rename *)

Lemma prefix_slash p k : starts_with "/" p = true → starts_with p k = true → starts_with "/" k = true.
Proof. intros [r ->]%starts_with_true [t ->]%starts_with_true. by rewrite <-sapp_assoc, starts_with_app. Qed.

(** The scan sees the rows with the prefix and no others. *)
Lemma scan_filter prefix (rows : list (string * string)) :
  StronglySorted key_le rows → (∀ k v, (k, v) ∈ rows → String.leb prefix k = true) →
  rename_scan prefix rows = rename_scan prefix (filter (λ row, starts_with prefix row.1 = true) rows).
Proof.
  induction rows as [|[k v] rows IH]; intros Hs Hlo; [done|]. apply StronglySorted_inv in Hs as [Hs Hall].
  rewrite filter_cons. cbn [rename_scan fst]. destruct (starts_with prefix k) eqn:Hk; cbn [negb].
  - rewrite decide_True by done. cbn [rename_scan]. rewrite Hk. cbn [negb]. rewrite IH; [done..|]. intros; eapply Hlo; by right.
  - rewrite decide_False by done. destruct (filter _ rows) as [|[k' v'] rest] eqn:Hf; [done|]. exfalso.
    assert ((k', v') ∈ filter (λ row, starts_with prefix row.1 = true) rows) as [Hk' Hin]%list_elem_of_filter by (rewrite Hf; left). cbn [fst] in Hk'. apply starts_with_true in Hk' as [x ->].
    rewrite Forall_forall in Hall. specialize (Hall _ Hin). unfold key_le in Hall. cbn [fst] in Hall.
    assert (starts_with prefix k = true); [|congruence]. apply (between_prefix _ _ x); [eapply Hlo; left|by apply Is_true_true].
Qed.

Lemma scan_alike prefix db1 db2 :
  starts_with "/" prefix = true → alike db1 db2 →
  rename_scan prefix (range prefix Unbounded (metadata db1)) = rename_scan prefix (range prefix Unbounded (metadata db2)).
Proof.
  intros Hp Hal. assert (∀ db, rename_scan prefix (range prefix Unbounded (metadata db)) =
    rename_scan prefix (filter (λ row, starts_with prefix row.1 = true) (range prefix Unbounded (metadata db)))) as Hsf.
  { intros db. apply scan_filter; [apply range_sorted|]. by intros k v (? & _)%elem_of_range. }
  rewrite (Hsf db1), (Hsf db2). f_equal. clear Hsf.
  assert (∀ db, NoDup (filter (λ row, starts_with prefix row.1 = true) (range prefix Unbounded (metadata db))).*1) as Hnd.
  { intros db. unfold range. apply NoDup_fst_filter, NoDup_fst_filter, entries_NoDup. }
  apply (StronglySorted_unique_strong key_le); try (apply StronglySorted_filter, range_sorted).
  - intros [k1 v1] [k2 v2] [_ (_ & _ & H1)%elem_of_range]%list_elem_of_filter [Hk2 (_ & _ & H2)%elem_of_range]%list_elem_of_filter L1 L2.
    unfold key_le in L1, L2. cbn [fst] in *. assert (k1 = k2) as -> by (by apply (anti_symm String.le)).
    f_equal. rewrite (al_meta _ _ Hal) in H1; [congruence|]. apply path_plain. by apply (prefix_slash prefix).
  - apply NoDup_Permutation; [by eapply NoDup_fmap_1..|]. intros [k v]. rewrite !list_elem_of_filter, !elem_of_range. cbn [fst].
    split; intros (Hk & H1 & H2 & H3); (split_and!; [done..|]); rewrite <-H3; [symmetry|]; apply (al_meta _ _ Hal), path_plain;
      by apply (prefix_slash prefix).
Qed.

Lemma dir_slash k : starts_with "/" k = true → starts_with "/" (dir_of k) = true.
Proof.
  intros [r ->]%starts_with_true. unfold dir_of. destruct (trim_end_split "/" ("/" +:+ r)) as (t & E & _).
  destruct (trim_end "/" ("/" +:+ r)) as [|a u]; [done|]. by injection E as <- _.
Qed.

Lemma both_rename_rows old :
  starts_with "/" old = true → both always (metadata_rename_rows old (dir_of old)).
Proof.
  intros Ho. pose proof (dir_slash old Ho) as Hd. unfold metadata_rename_rows.
  apply both_then; [apply both_get_meta; by apply path_plain|intros image].
  intros db1 db2 a db1' Hal (rows & db & H1 & H2)%txn_bind_Ok. txn_prim H1.
  apply txn_bind_Ok in H2 as (rest & db0 & H2 & H3). apply lift_Ok in H2 as [H2 ->]. txn_prim H3. split; [done|].
  exists db2. split; [|done]. rewrite (scan_alike _ _ _ Hd Hal) in H2. apply txn_bind_Ok. eexists _, db2. split; [reflexivity|].
  apply txn_bind_Ok. exists rest, db2. split; [by apply lift_Ok|done].
Qed.

Lemma both_rename_changes old new is_pas rows :
  starts_with "/" new = true → both always (rename_changes old new is_pas rows).
Proof.
  intros Hn. induction rows as [|[s image] rows IH]; cbn [rename_changes]; [by apply both_ret|].
  assert (plain (rename_target old new s)) as Ht.
  { apply path_plain. unfold rename_target. case_decide; [done|]. pose proof (dir_slash new Hn) as Hd.
    apply starts_with_true in Hd as [r ->]. rewrite <-sapp_assoc. apply starts_with_app. }
  unfold rename_target_refusal. both_tac.
Qed.

Lemma both_rename_writes changes :
  both always (rename_revisions changes) ∧ both always (remove_sources changes) ∧ both always (insert_targets changes).
Proof.
  induction changes as [|[[s t] image] changes (IH1 & IH2 & IH3)];
    cbn [rename_revisions remove_sources insert_targets]; split_and!; both_tac.
Qed.

Lemma both_rename old new is_pas : both always (rename_metadata_in_txn old new is_pas).
Proof.
  unfold rename_metadata_in_txn. destruct (validate_path_fast old) as [u|] eqn:Ho; [|both_tac].
  destruct (validate_path_fast new) as [u'|] eqn:Hn; [|both_tac]. apply valid_slash in Ho, Hn.
  pose proof (path_plain _ Hn). pose proof (both_rename_rows old Ho). pose proof (both_rename_changes old new is_pas).
  case_decide; [by apply both_ret|]. destruct (_ || _); [by apply both_ret|]. apply both_then; [done|intros rows].
  unfold rename_target_refusal. apply both_then; [both_tac|intros [r|]; [by apply both_ret|]].
  apply both_then; [eauto|intros [r|changes]; [by apply both_ret|]].
  destruct (both_rename_writes changes) as (Hw1 & Hw2 & Hw3). both_tac.
Qed.

(** *** Commands *)

(** Compare-and-set and the adoption of a record do not name an internal row. *)
Definition names_plain (c : Command) : Prop :=
  match c with
  | CasSetMetadata key _ _ | AdoptProtectedMetadata key _ _ => plain key
  | _ => True
  end.

Lemma both_current_version o : both always (current_version_of o).
Proof. destruct o; cbn [current_version_of]; both_tac. Qed.
#[local] Hint Resolve both_current_version both_rename : both.

(** A counter may be internal; then only its own row and the answer differ. *)
Definition runs_alike {A} (m : txn A) : Prop :=
  ∀ db1 db2 a db1', alike db1 db2 → m db1 = Ok (a, db1') → ∃ a' db2', m db2 = Ok (a', db2') ∧ alike db1' db2'.

Lemma both_runs_alike {A} (m : txn A) : both always m → runs_alike m.
Proof. intros Hm db1 db2 a db1' Hal H. destruct (Hm _ _ _ _ Hal H) as (_ & db2' & ? & ?). eauto. Qed.

Lemma alike_put db1 db2 k v1 v2 :
  alike db1 db2 → (plain k → v1 = v2) →
  alike (mkDb (<[k := v1]> (metadata db1)) (stream_entries db1) (control_state db1))
        (mkDb (<[k := v2]> (metadata db2)) (stream_entries db2) (control_state db2)).
Proof.
  intros [H1 H2 H3 H4] Hv. split; cbn; try done. intros k' Hk'. destruct (decide (k = k')) as [->|Hne].
  - rewrite !lookup_insert_eq. f_equal. by apply Hv.
  - rewrite !lookup_insert_ne by done. by apply H1.
Qed.

Lemma adjust_alike key delta : runs_alike (dispatch_in_txn (AdjustCounter key delta)).
Proof.
  intros db1 db2 a db1' Hal. cbn [dispatch_in_txn]. destruct (is_managed_key key).
  { intros H. txn_prim H. exists (Error "counter operations cannot replace managed content metadata"), db2. by split. }
  intros H. unfold mbind, txn_bind, get_meta, put_meta, mret, txn_ret in *. injection H as <- <-. eexists _, _. split; [reflexivity|].
  apply alike_put; [done|]. intros Hk. by rewrite (al_meta _ _ Hal key Hk).
Qed.

Lemma dispatch_alike c : command_typed c → names_plain c → runs_alike (dispatch_in_txn c).
Proof.
  intros Hty Hp. destruct c; try apply adjust_alike; apply both_runs_alike; try destruct mutation; cbn [command_typed names_plain] in *; cbn [dispatch_in_txn];
    destruct_and? Hty; both_tac; eauto with both.
  - by apply (both_put_row (CUser namespace key)).
  - by apply both_del_user.
Qed.

Lemma runs_then {A B} (m : txn A) (f : A → txn B) : both always m → (∀ a, runs_alike (f a)) → runs_alike (m ≫= f).
Proof.
  intros Hm Hf db1 db2 b db1'' Hal (a & db1' & H1 & H2)%txn_bind_Ok.
  destruct (Hm _ _ _ _ Hal H1) as (_ & db2' & E2 & Hal'). destruct (Hf a _ _ _ _ Hal' H2) as (b' & db2'' & E3 & Hal'').
  exists b', db2''. split; [|done]. apply txn_bind_Ok. eauto.
Qed.

Lemma execute_alike c : command_typed c → names_plain c → runs_alike (execute_metadata_in_txn c).
Proof.
  intros Hty Hp. unfold execute_metadata_in_txn. apply runs_then; [eauto with both|]. intros [r|]; [apply both_runs_alike; both_tac|].
  apply runs_then; [both_tac|]. intros [r|]; [apply both_runs_alike; both_tac|]. by apply dispatch_alike.
Qed.

(** ** The same state outside the internal rows *)

Definition alike_state (sm sm' : FullStateMachine) : Prop :=
  alike (sm_db sm) (sm_db sm') ∧ sm_advisory sm = sm_advisory sm' ∧ sm_last_applied sm = sm_last_applied sm'.

Lemma apply_alike i c sm1 sm2 r sm1' fired :
  command_typed c → names_plain c → alike_state sm1 sm2 → apply i c sm1 = Applied r sm1' fired →
  ∃ r' sm2' fired', apply i c sm2 = Applied r' sm2' fired' ∧ alike_state sm1' sm2'.
Proof.
  intros Hty Hp. destruct sm1 as [db a la o1], sm2 as [db' a' la' o2]. unfold alike_state.
  cbn [sm_db sm_advisory sm_last_applied]. intros (Hal & <- & <-) Happ. unfold apply in *.
  cbn [sm_db sm_advisory sm_last_applied sm_apply_observers] in *.
  destruct (lock_command c) as [op|].
  { destruct (op a) as [r' locks]. injection Happ as <- <- <-. eauto 10. }
  destruct (i <=? la)%N; [injection Happ as <- <- <-; eauto 10|].
  case_match eqn:Hex; [|by case_match]. destruct a0 as [r' db1]. injection Happ as <- <- <-.
  apply txn_bind_Ok in Hex as (r1 & db2 & H1 & H2). destruct (execute_alike c Hty Hp _ _ _ _ Hal H1) as (r2 & db2' & E2 & Hal2).
  unfold mbind, txn_bind, put_meta, mret, txn_ret in *. injection H2 as <- <-. rewrite E2. eexists _, _, _. split; [reflexivity|].
  cbn [sm_db sm_advisory sm_last_applied]. split_and!; [|done..]. by apply alike_put.
Qed.

Lemma replay_alike l sm1 sm2 sm1' :
  Forall (λ e, command_typed e.2 ∧ names_plain e.2) l → alike_state sm1 sm2 → replay l sm1 = Some sm1' →
  ∃ sm2', replay l sm2 = Some sm2' ∧ alike_state sm1' sm2'.
Proof.
  intros Hl. revert sm1 sm2. induction Hl as [|[i c] l [Hty Hp] Hl IH]; intros sm1 sm2 Hs Hrun.
  { injection Hrun as <-. by exists sm2. }
  cbn [replay fst snd] in *. destruct (apply i c sm1) as [r s1 fired| |] eqn:Happ; [|done..].
  destruct (apply_alike _ _ _ _ _ _ _ Hty Hp Hs Happ) as (r' & s2 & fired' & -> & Hs'). by eapply IH.
Qed.

(** ** Snapshots *)

Lemma utf8_rows_id m : keys_utf8 m → utf8_rows m = m.
Proof.
  intros Hm. apply map_eq. intros k. unfold utf8_rows. apply option_eq. intros v.
  rewrite map_lookup_filter_Some. split; [by intros []|]. intros Hk. split; [done|by eapply Hm].
Qed.

(** What restoring the snapshot of [sm] leaves, whatever was there before. *)
Lemma restore_alike sm old :
  db_utf8 (sm_db sm) → (∀ k, pol (sm_db sm) k ≠ None → plain k) → alike_state sm (restore_snapshot (snapshot sm) old).
Proof.
  intros Hu Hpol. unfold restore_snapshot, snapshot. split_and!; [|done..].
  cbn [sm_db snap_metadata snap_stream_entries snap_control_state snap_last_applied]. split; cbn [metadata stream_entries control_state]; [|..|done].
  - intros k Hk. rewrite lookup_insert_ne by (by intros <-). apply option_eq. intros v. rewrite map_lookup_filter_Some.
    split; [|by intros []]. intros Hv. split_and!; [done|by eapply (utf8_metadata _ Hu)|done].
  - symmetry. apply utf8_rows_id, Hu.
  - symmetry. apply utf8_rows_id, Hu.
Qed.

Lemma restore_internal sm old k :
  ¬ plain k → k ≠ KEY_LAST_APPLIED → metadata (sm_db (restore_snapshot (snapshot sm) old)) !! k = None.
Proof.
  intros Hk Hne. unfold restore_snapshot, snapshot. cbn [sm_db metadata snap_metadata]. rewrite lookup_insert_ne by done.
  apply map_lookup_filter_None. right. intros v _ [_ ?]. done.
Qed.

Lemma apply_utf8 i c sm r sm' fired :
  db_utf8 (sm_db sm) → command_typed c → apply i c sm = Applied r sm' fired → db_utf8 (sm_db sm').
Proof.
  intros Hu Hty Happ. unfold apply in Happ. destruct (lock_command c) as [op|].
  { destruct (op (sm_advisory sm)). by injection Happ as <- <- <-. }
  destruct (i <=? sm_last_applied sm)%N; [by injection Happ as <- <- <-|].
  case_match eqn:Hex; [|by case_match]. destruct a as [r' db]. injection Happ as <- <- <-.
  cbn [sm_db]. assert (keeps always (result ← execute_metadata_in_txn c;
    put_meta KEY_LAST_APPLIED (u64_to_be i);; mret result)) as Hk.
  { apply keeps_then; [by apply keeps_execute|]. intros result.
    apply keeps_then; [by apply keeps_put_meta|]. intros _. by apply keeps_ret. }
  by eapply Hk.
Qed.

Lemma replay_utf8 l sm sm' :
  db_utf8 (sm_db sm) → Forall (λ e, command_typed e.2) l → replay l sm = Some sm' →
  db_utf8 (sm_db sm').
Proof.
  intros Hu Hty. revert sm Hu. induction Hty as [|[i c] l Hc Hty IH]; intros sm Hu Hrun.
  { by injection Hrun as <-. }
  cbn [replay] in Hrun. destruct (apply i c sm) as [r sm1 fired| |] eqn:Happ; [|done..].
  eapply IH; [|done]. by eapply apply_utf8.
Qed.

Lemma replay_fresh_utf8 l sm :
  Forall (λ e, command_typed e.2) l → replay l fresh_replica = Some sm → db_utf8 (sm_db sm).
Proof. apply replay_utf8, db_utf8_empty. Qed.

Section bincode.
Variable serialize : Snapshot → string.
Variable deserialize : string → Result Snapshot.
(** [bincode::deserialize] inverts [bincode::serialize]. *)
Hypothesis bincode_roundtrip : ∀ s, deserialize (serialize s) = Ok s.

Lemma restored_alike l sm old :
  Forall (λ e, command_typed e.2 ∧ names_plain e.2) l → replay l fresh_replica = Some sm →
  restore_snapshot_bytes deserialize (snapshot_bytes serialize sm) old = Ok (restore_snapshot (snapshot sm) old) ∧
  alike_state sm (restore_snapshot (snapshot sm) old).
Proof.
  intros Hl Hrun. unfold restore_snapshot_bytes, snapshot_bytes. rewrite bincode_roundtrip. split; [done|].
  destruct (replay_alike l fresh_replica fresh_replica sm Hl) as (sm' & Hrun' & Hal & _); [split; [by split|done]|done|].
  apply restore_alike; [|apply Hal]. eapply replay_fresh_utf8; [|done]. eapply Forall_impl; [exact Hl|]. by intros e [].
Qed.


End bincode.
End recovery.

(** ** A serializer

    An executable stand-in for bincode that meets the round-trip law: the
    snapshot is encoded as a number, the number as its binary digits. *)

#[global] Instance LockState_eq_dec : EqDecision LockState.
Proof. solve_decision. Defined.
#[global] Instance Snapshot_eq_dec : EqDecision Snapshot.
Proof. solve_decision. Defined.

#[global] Instance HolderInfo_countable : Countable HolderInfo.
Proof.
  apply (inj_countable' (λ h, (lock_id h, holder_info h, acquired_at h, expires_at h))
    (λ t, mkHolder t.1.1.1 t.1.1.2 t.1.2 t.2)). by intros [].
Defined.
#[global] Instance LockEntry_countable : Countable LockEntry.
Proof.
  apply (inj_countable' (λ e, (max_holders e, holders e)) (λ t, mkEntry t.1 t.2)). by intros [].
Defined.
#[global] Instance LockState_countable : Countable LockState.
Proof. apply (inj_countable' locks mkLockState). by intros []. Defined.
#[global] Instance Snapshot_countable : Countable Snapshot.
Proof.
  apply (inj_countable' (λ s, (snap_metadata s, snap_stream_entries s, snap_control_state s,
      snap_advisory s, snap_last_applied s))
    (λ t, mkSnapshot t.1.1.1.1 t.1.1.1.2 t.1.1.2 t.1.2 t.2)). by intros [].
Defined.

Fixpoint digits (p : positive) : string :=
  match p with xH => "." | xO p => String "0" (digits p) | xI p => String "1" (digits p) end.

Fixpoint undigits (s : string) : option positive :=
  match s with
  | String a s =>
      if decide (a = "."%char) then match s with "" => Some xH | _ => None end
      else p ← undigits s; if decide (a = "1"%char) then Some (xI p) else Some (xO p)
  | "" => None
  end.

Definition demo_serialize (s : Snapshot) : string := digits (encode s).
Definition demo_deserialize (data : string) : Result Snapshot :=
  match undigits data ≫= countable.decode with
  | Some s => Ok s
  | None => Err (Serialization "snapshot")
  end.

Lemma undigits_digits p : undigits (digits p) = Some p.
Proof. induction p as [p IH|p IH|]; [..|done]; cbn [digits undigits]; simpl; by rewrite IH. Qed.

Lemma demo_roundtrip s : demo_deserialize (demo_serialize s) = Ok s.
Proof.
  unfold demo_deserialize, demo_serialize. rewrite undigits_digits. cbn [mbind option_bind].
  by rewrite decode_encode.
Qed.

Lemma digits_nonempty p : digits p ≠ "".
Proof. by destruct p. Qed.

(** ** Concrete runs *)

#[local] Existing Instance demo_codec.

Definition demo_replay (l : list (N * Command)) : FullStateMachine :=
  default fresh_replica (replay l fresh_replica).

Lemma demo_replay_some l :
  bool_decide (is_Some (replay l fresh_replica)) = true →
  replay l fresh_replica = Some (demo_replay l).
Proof. intros [sm Hsm]%bool_decide_eq_true_1. unfold demo_replay. by rewrite Hsm. Qed.

Lemma demo_replay_app l1 l2 :
  bool_decide (is_Some (replay l1 fresh_replica)) = true →
  bool_decide (is_Some (replay (l1 ++ l2) fresh_replica)) = true →
  replay l2 (demo_replay l1) = Some (demo_replay (l1 ++ l2)).
Proof.
  intros H1%demo_replay_some H2%demo_replay_some. rewrite replay_app, H1 in H2. exact H2.
Qed.

Definition demo_log1 : list (N * Command) :=
  [(1%N, AcquireLock "/a" "h" 1 60 "me" 5); (2%N, SetMetadata "/a" "M/a");
   (4%N, AppendStreamEntry "/s/" "x")].
Definition demo_log2 : list (N * Command) :=
  [(5%N, AdjustCounter "/n" 3); (6%N, AcquireLock "/b" "h" 1 60 "me" 6)].

(** A log that counts links, and ends with a lock. *)
Definition counted_log1 : list (N * Command) :=
  [(1%N, SetMetadata "/a" "M/a"); (2%N, AdjustCounter "__i_links_count__" 2); (3%N, AppendStreamEntry "/s/" "x");
   (4%N, AcquireLock "/a" "h" 1 60 "me" 5)].
Definition counted_log2 : list (N * Command) :=
  [(5%N, AdjustCounter "__i_links_count__" 1); (6%N, AdjustCounter "/n" 3); (7%N, AcquireLock "/b" "h" 1 60 "me" 6)].

Lemma restart_replays_log_witness :
  ∃ sm, new (sm_db (demo_replay demo_log1)) = Ok sm ∧ sm_advisory sm = lock_state_new ∧
    replay (demo_log1 ++ demo_log2) sm = Some (demo_replay (demo_log1 ++ demo_log2)).
Proof.
  apply (restart_replays_log demo_log1 demo_log2 (demo_replay demo_log1)).
  - by repeat split.
  - apply demo_replay_some. vm_compute. reflexivity.
  - apply demo_replay_some. vm_compute. reflexivity.
Defined.


