(* ===== verification/Replication.v ===== *)
(** * Replication of the eventually consistent plane

    src/rust/raft/src/raft/replication_log.rs: the write-ahead log of the local
    eventually consistent writes; src/rust/raft/src/raft/node.rs:
    [propose_ec_local] and [apply_ec_from_peer];
    src/rust/raft/src/transport/transport_loop.rs: the per-peer replication
    pass, its completions, the quorum watermark and the compaction floor;
    src/rust/raft/src/transport/server.rs: the receiving side. *)

From S2P Require Import Prelude Bytes Codec Table LockState Command StreamTier Version Records.
From S2P Require Import Rename StateMachine.

Local Open Scope N_scope.

(** ** The write-ahead log *)

Record ReplicationEntry := mkReplicationEntry {
  re_command : string;
  re_timestamp : N;
  re_node_id : N }.

(** bincode of log entries and of commands: a dependency. *)
Class ReplicationCodec := {
  serialize_entry : ReplicationEntry → string;
  deserialize_entry : string → Result ReplicationEntry;
  serialize_command : Command → string;
  deserialize_command : string → Result Command }.

Record ReplicationLog := mkReplicationLog {
  log_tree : gmap string string;
  meta_tree : gmap string string;
  next_seq : N;
  replicated_watermark : N;
  earliest_seq : N;
  rl_node_id : N }.

Definition KEY_NEXT_SEQ : string := "__next_seq__".
Definition KEY_REPLICATED_WATERMARK : string := "__replicated_watermark__".
Definition KEY_EARLIEST_SEQ : string := "__earliest_seq__".

(** [ReplicationLog::new] over the two trees of the store. *)
Definition replication_log_new (log meta : gmap string string) (node_id : N) : ReplicationLog :=
  mkReplicationLog log meta
    (default 1 (meta !! KEY_NEXT_SEQ ≫= u64_from_be))
    (default 0 (meta !! KEY_REPLICATED_WATERMARK ≫= u64_from_be))
    (default 1 (meta !! KEY_EARLIEST_SEQ ≫= u64_from_be))
    node_id.

Section log.
Context `{RC : ReplicationCodec}.

(** [append] allocates the sequence number with [fetch_add] ... *)
Definition append_alloc (l : ReplicationLog) : N * ReplicationLog :=
  (next_seq l,
   mkReplicationLog (log_tree l) (meta_tree l) (wrap64 (next_seq l + 1)) (replicated_watermark l)
     (earliest_seq l) (rl_node_id l)).

(** ... and commits the entry in a transaction of its own. *)
Definition append_commit (seq : N) (command_bytes : string) (now : N) (l : ReplicationLog) :
    ReplicationLog :=
  let entry := mkReplicationEntry command_bytes now (rl_node_id l) in
  let current_persisted :=
    match meta_tree l !! KEY_NEXT_SEQ with
    | Some bytes => default 0 (u64_from_be bytes)
    | None => 1
    end in
  let new_next_seq := N.max current_persisted (wrap64 (seq + 1)) in
  mkReplicationLog (<[u64_to_be seq := serialize_entry entry]> (log_tree l))
    (<[KEY_NEXT_SEQ := u64_to_be new_next_seq]> (meta_tree l))
    (next_seq l) (replicated_watermark l) (earliest_seq l) (rl_node_id l).

Definition append (command_bytes : string) (now : N) (l : ReplicationLog) : N * ReplicationLog :=
  let '(seq, l) := append_alloc l in (seq, append_commit seq command_bytes now l).

Definition remove_entry (seq : N) (l : ReplicationLog) : ReplicationLog :=
  mkReplicationLog (delete (u64_to_be seq) (log_tree l)) (meta_tree l) (next_seq l)
    (replicated_watermark l) (earliest_seq l) (rl_node_id l).

Inductive token_status := TokenCommitted | TokenPending.

Definition is_committed (token : N) (l : ReplicationLog) : option token_status :=
  if (token =? 0) || (next_seq l <=? token) then None
  else if token <=? replicated_watermark l then Some TokenCommitted else Some TokenPending.

Definition max_seq (l : ReplicationLog) : N := next_seq l.

Definition advance_watermark (new_watermark : N) (l : ReplicationLog) : ReplicationLog :=
  if replicated_watermark l <? new_watermark
  then mkReplicationLog (log_tree l)
         (<[KEY_REPLICATED_WATERMARK := u64_to_be new_watermark]> (meta_tree l))
         (next_seq l) new_watermark (earliest_seq l) (rl_node_id l)
  else l.

(** The rows of the scan, decoded; the first bad row fails the whole drain. *)
Fixpoint decode_rows (rows : list (string * string)) : Result (list (N * ReplicationEntry)) :=
  match rows with
  | [] => Ok []
  | (k, v) :: rows =>
      entry ← deserialize_entry v;
      rest ← decode_rows rows;
      mret ((default 0 (u64_from_be k), entry) :: rest)
  end.

Definition drain_unreplicated (l : ReplicationLog) : Result (list (N * ReplicationEntry)) :=
  let earliest := earliest_seq l in
  let max := next_seq l in
  if max <=? earliest then Ok []
  else decode_rows (range (u64_to_be earliest) (Included (u64_to_be (max - 1))) (log_tree l)).

(** [for seq in earliest..=up_to_seq { delete }] *)
Definition compact (up_to_seq : N) (l : ReplicationLog) : N * ReplicationLog :=
  let earliest := earliest_seq l in
  if up_to_seq <? earliest then (0, l)
  else
    let keys := u64_to_be <$> seq_range earliest (up_to_seq + 1) in
    let deleted := N.of_nat (length (filter (λ k, log_tree l !! k ≠ None) keys)) in
    let new_earliest := wrap64 (up_to_seq + 1) in
    (deleted,
     mkReplicationLog (foldr delete (log_tree l) keys)
       (<[KEY_EARLIEST_SEQ := u64_to_be new_earliest]> (meta_tree l))
       (next_seq l) (replicated_watermark l) new_earliest (rl_node_id l)).
End log.

(** ** Local writes and peer entries: node.rs *)

Section node.
Context `{Codec : MetadataCodec} `{RC : ReplicationCodec}.
Context (parse_rfc3339 : string → option Z).

(** [propose_ec_local] on a node with a replication log: the write-ahead entry
    first, then the local apply; a refused apply takes the entry back. *)
Definition propose_ec_local (c : Command) (now : N) (node : ReplicationLog * FullStateMachine) :
    result Fault N * (ReplicationLog * FullStateMachine) :=
  let '(l, sm) := node in
  match requires_strong_consistency c sm with
  | Err e => (Err (Failed e), node)
  | Ok true => (Err (Failed (InvalidState "EC write to SC-managed content is unsupported")), node)
  | Ok false =>
      let '(seq, l) := append (serialize_command c) now l in
      match apply_local c sm with
      | Ok (_, sm) => (Ok seq, (l, sm))
      | Err (Failed e) => (Err (Failed e), (remove_entry seq l, sm))
      | Err Diverged => (Err Diverged, (l, sm))
      end
  end.

Definition apply_ec_from_peer (c : Command) (entry_timestamp : N) (sm : FullStateMachine) :
    result Fault (CommandResult * FullStateMachine) :=
  sc ← fault_of (requires_strong_consistency c sm);
  if (sc : bool) then mret (Success, sm)
  else
    '(r, sm, _) ← apply_ec_with_lww parse_rfc3339 c entry_timestamp sm;
    mret (r, sm).

(** ** The receiving side: server.rs *)

Record EcReplicationEntry := mkEcEntry {
  ee_seq : N;
  ee_command : string;
  ee_timestamp : N;
  ee_node_id : N }.

(** Both responses; the text of their [error] is not modelled. *)
Record ReplicateResponse := mkReplicateResponse { rr_success : bool; rr_applied_up_to : N }.

(** The client calls of client.rs: an unsuccessful response is an error. *)
Definition client_result (r : ReplicateResponse) : option N :=
  if rr_success r then Some (rr_applied_up_to r) else None.

(** The loop of [replicate_entries]: undecodable entries are skipped but
    acknowledged, the first failed apply ends the batch. *)
Fixpoint replicate_loop (max_applied : N) (entries : list EcReplicationEntry)
    (sm : FullStateMachine) : ReplicateResponse * FullStateMachine :=
  match entries with
  | [] => (mkReplicateResponse true max_applied, sm)
  | entry :: entries =>
      match deserialize_command (ee_command entry) with
      | Err _ => replicate_loop (N.max max_applied (ee_seq entry)) entries sm
      | Ok c =>
          match apply_ec_from_peer c (ee_timestamp entry) sm with
          | Ok (_, sm) => replicate_loop (N.max max_applied (ee_seq entry)) entries sm
          | Err _ => (mkReplicateResponse false max_applied, sm)
          end
      end
  end.

Definition replicate_entries (entries : list EcReplicationEntry) (sm : FullStateMachine) :
    ReplicateResponse * FullStateMachine := replicate_loop 0 entries sm.

(** [snapshot_ec_state]: undecodable rows are skipped, a failed apply refuses
    the transfer. *)
Fixpoint snapshot_ec_state (entries : list EcReplicationEntry) (covering_seq : N)
    (sm : FullStateMachine) : ReplicateResponse * FullStateMachine :=
  match entries with
  | [] => (mkReplicateResponse true covering_seq, sm)
  | entry :: entries =>
      match deserialize_command (ee_command entry) with
      | Err _ => snapshot_ec_state entries covering_seq sm
      | Ok c =>
          match apply_ec_from_peer c (ee_timestamp entry) sm with
          | Ok (_, sm) => snapshot_ec_state entries covering_seq sm
          | Err _ => (mkReplicateResponse false 0, sm)
          end
      end
  end.

(** ** The sending side: transport_loop.rs *)

Definition EC_BACKOFF_BASE : N := 100.
Definition EC_BACKOFF_CAP : N := 10000.
Definition EC_MAX_ENTRIES_PER_BATCH : nat := 500.

(** Durations and instants in milliseconds. *)
Record PeerReplicationState := mkPeer {
  acked_seq : N;
  backoff : N;
  next_attempt : N;
  needs_snapshot : bool;
  in_flight : bool }.

Definition peer_new (now : N) : PeerReplicationState := mkPeer 0 EC_BACKOFF_BASE now false false.

Definition reset_backoff (now : N) (p : PeerReplicationState) : PeerReplicationState :=
  mkPeer (acked_seq p) EC_BACKOFF_BASE now (needs_snapshot p) (in_flight p).

Definition increase_backoff (now : N) (p : PeerReplicationState) : PeerReplicationState :=
  let b := N.min (backoff p * 2) EC_BACKOFF_CAP in
  mkPeer (acked_seq p) b (now + b) (needs_snapshot p) (in_flight p).

Definition set_needs_snapshot (b : bool) (p : PeerReplicationState) : PeerReplicationState :=
  mkPeer (acked_seq p) (backoff p) (next_attempt p) b (in_flight p).
Definition set_in_flight (b : bool) (p : PeerReplicationState) : PeerReplicationState :=
  mkPeer (acked_seq p) (backoff p) (next_attempt p) (needs_snapshot p) b.

Inductive EcCompletion :=
  | Acked (peer_id applied_up_to : N)
  | SendFailed (peer_id : N) (error : string).

(** The completion drain at the top of the run loop. *)
Definition handle_completion (now : N) (c : EcCompletion)
    (peers : gmap N PeerReplicationState) : gmap N PeerReplicationState :=
  match c with
  | Acked peer_id applied_up_to =>
      alter (λ p, reset_backoff now
        (mkPeer (N.max (acked_seq p) applied_up_to) (backoff p) (next_attempt p)
           (needs_snapshot p) false)) peer_id peers
  | SendFailed peer_id _ => alter (λ p, increase_backoff now (set_in_flight false p)) peer_id peers
  end.

(** What one pass decides for a peer. *)
Inductive visit :=
  | NoSend
  | SendBatch (entries : list EcReplicationEntry)
  | SendSnapshot.

Definition as_ec_entry (row : N * ReplicationEntry) : EcReplicationEntry :=
  mkEcEntry row.1 (re_command row.2) (re_timestamp row.2) (re_node_id row.2).

Definition peer_batch (acked : N) (entries : list (N * ReplicationEntry)) :
    list EcReplicationEntry :=
  as_ec_entry <$> take EC_MAX_ENTRIES_PER_BATCH (filter (λ row, acked < row.1) entries).

(** The checks after [needs_snapshot] has been settled. *)
Definition visit_incremental (earliest : N) (entries : list (N * ReplicationEntry))
    (p : PeerReplicationState) : PeerReplicationState * visit :=
  if wrap64 (acked_seq p + 1) <? earliest then (set_needs_snapshot true p, NoSend)
  else match peer_batch (acked_seq p) entries with
       | [] => (p, NoSend)
       | batch => (p, SendBatch batch)
       end.

Definition visit_peer (now earliest : N) (entries : list (N * ReplicationEntry))
    (p : PeerReplicationState) : PeerReplicationState * visit :=
  if in_flight p then (p, NoSend)
  else if now <? next_attempt p then (p, NoSend)
  else if needs_snapshot p then
    if earliest <=? acked_seq p
    then visit_incremental earliest entries (set_needs_snapshot false p)
    else (p, SendSnapshot)
  else visit_incremental earliest entries p.

(** [created id] is the instant [PeerReplicationState::new] reads for a peer it
    meets first, which may be past [now]. *)
Fixpoint visit_peers (now : N) (created : N → N) (earliest : N) (entries : list (N * ReplicationEntry)) (ids : list N)
    (peers : gmap N PeerReplicationState) :
    gmap N PeerReplicationState * list (N * visit) :=
  match ids with
  | [] => (peers, [])
  | id :: ids =>
      let '(p, v) := visit_peer now earliest entries (default (peer_new (created id)) (peers !! id)) in
      let '(peers, tasks) := visit_peers now created earliest entries ids (<[id := p]> peers) in
      (peers, match v with NoSend => tasks | _ => (id, v) :: tasks end)
  end.

(** The sends are spawned tasks that run concurrently; each marks its peer in
    flight. *)
Definition mark_in_flight (tasks : list (N * visit)) (peers : gmap N PeerReplicationState) :
    gmap N PeerReplicationState :=
  foldr (λ task, alter (set_in_flight true) task.1) peers tasks.

(** [acks.sort_unstable_by(|a, b| b.cmp(a))] *)
Definition desc (a b : N) : Prop := b ≤ a.

#[global] Instance desc_dec : RelDecision desc.
Proof. intros a b. apply N.le_dec. Defined.

Definition sort_desc (acks : list N) : list N := merge_sort desc acks.

Definition compute_ec_watermark (peers : gmap N PeerReplicationState) (voter_ids : list N)
    (self_id : N) : option N :=
  let needed_peer_acks := (length voter_ids / 2)%nat in
  match needed_peer_acks with
  | O => None
  | S k =>
      let acks := omap (λ id, acked_seq <$> peers !! id) (filter (λ id, id ≠ self_id) voter_ids) in
      wm ← sort_desc acks !! k;
      if 0 <? wm then Some wm else None
  end.

Definition min_acked (acks : list N) : N :=
  match acks with [] => 0 | a :: acks => foldr N.min a acks end.

Definition ec_compact_floor (peer_acked_seqs : list N) (max_seq retention : N) : N :=
  N.max (min_acked peer_acked_seqs) (max_seq - retention).

Definition compact_to_floor (ids : list N) (retention : N) (peers : gmap N PeerReplicationState)
    (l : ReplicationLog) : ReplicationLog :=
  let up_to := ec_compact_floor (omap (λ id, acked_seq <$> peers !! id) ids) (max_seq l) retention in
  if 0 <? up_to then (compact up_to l).2 else l.

(** A dispatched send; a snapshot is stamped with the last allocated sequence
    number before the state is read. *)
Inductive send_task :=
  | BatchTask (peer_id : N) (entries : list EcReplicationEntry)
  | SnapshotTask (peer_id covering_seq : N).

Definition task_of (l : ReplicationLog) (row : N * visit) : option send_task :=
  match row.2 with
  | NoSend => None
  | SendBatch entries => Some (BatchTask row.1 entries)
  | SendSnapshot => Some (SnapshotTask row.1 (max_seq l - 1))
  end.

(** [spawn_ec_replications]: the sends it dispatches, and the next states. *)
Definition spawn_ec_replications (now : N) (created : N → N) (peer_ids voter_ids : list N) (self_id retention : N)
    (l : ReplicationLog) (peers : gmap N PeerReplicationState) :
    ReplicationLog * gmap N PeerReplicationState * list send_task :=
  let total_voters := length voter_ids in
  let single := (total_voters <=? 1)%nat in
  let l := if single && (1 <? max_seq l) then advance_watermark (max_seq l - 1) l else l in
  if single && bool_decide (peer_ids = []) then (l, peers, [])
  else
    match drain_unreplicated l with
    | Err _ => (l, peers, [])
    | Ok entries =>
        let earliest := earliest_seq l in
        let behind id :=
          wrap64 (default 0 (acked_seq <$> peers !! id) + 1) <? earliest in
        if bool_decide (entries = []) && negb (existsb behind peer_ids) then (l, peers, [])
        else
          let '(peers, tasks) := visit_peers now created earliest entries peer_ids peers in
          let peers := mark_in_flight tasks peers in
          let l := if (2 <=? total_voters)%nat
                   then match compute_ec_watermark peers voter_ids self_id with
                        | Some wm => advance_watermark wm l
                        | None => l
                        end
                   else l in
          (compact_to_floor peer_ids retention peers l, peers, omap (task_of l) tasks)
    end.
End node.
