(* ===== verification/ReplicationProofs.v ===== *)
(** * Properties of the eventually consistent replication

    The write-ahead log refines a map from sequence numbers to entries and
    survives a restart; a replication pass sends gap-free batches, and an
    acknowledgement means delivery; the watermark is the quorum's; compaction
    keeps what a peer inside the retention window needs. *)

From S2P Require Import Prelude Bytes Codec Table LockState Command StreamTier StreamProofs Version.
From S2P Require Import Records RecordProofs RecordOps Rename RenameProofs StateMachine.
From S2P Require Import MachineProofs Eventual Replica Recovery Replication.

Local Open Scope N_scope.

(** ** The log as a map *)

Section log.
Context `{RC : ReplicationCodec}.
(** bincode reads back the entries it wrote. *)
Hypothesis entry_roundtrip : ∀ e, deserialize_entry (serialize_entry e) = Ok e.

Lemma serialize_entry_inj e e' : serialize_entry e = serialize_entry e' → e = e'.
Proof.
  intros H. apply (f_equal deserialize_entry) in H. rewrite !entry_roundtrip in H. by injection H.
Qed.

Record represents (l : ReplicationLog) (w : gmap N ReplicationEntry) : Prop := {
  rep_rows : ∀ k v, log_tree l !! k = Some v ↔
    ∃ s e, k = u64_to_be s ∧ v = serialize_entry e ∧ w !! s = Some e;
  rep_range : ∀ s e, w !! s = Some e → earliest_seq l ≤ s < next_seq l;
  rep_bounds : 1 ≤ earliest_seq l ≤ next_seq l ∧ next_seq l < U64_MOD;
  rep_reopen : replication_log_new (log_tree l) (meta_tree l) (rl_node_id l) = l }.

(** The rows alone, also while appends are between the allocation of their number and
    their transaction. *)
Record log_rows (l : ReplicationLog) (w : gmap N ReplicationEntry) : Prop := {
  lr_rows : ∀ k v, log_tree l !! k = Some v ↔
    ∃ s e, k = u64_to_be s ∧ v = serialize_entry e ∧ w !! s = Some e;
  lr_range : ∀ s e, w !! s = Some e → earliest_seq l ≤ s < next_seq l;
  lr_bounds : 1 ≤ earliest_seq l ≤ next_seq l ∧ next_seq l < U64_MOD }.

Lemma rep_log l w : represents l w → log_rows l w.
Proof. intros [H1 H2 H3 _]. by split. Qed.

Lemma alloc_log_rows l w : log_rows l w → next_seq l + 1 < U64_MOD → log_rows (append_alloc l).2 w.
Proof.
  intros [H1 H2 H3] Hmax. split; cbn [append_alloc snd log_tree earliest_seq next_seq]; [done|..]; rewrite wrap64_small by done.
  - intros s e Hs. specialize (H2 s e Hs). lia.
  - lia.
Qed.

Lemma lr_bound l w s e : log_rows l w → w !! s = Some e → s < U64_MOD.
Proof. intros Hr Hs. pose proof (lr_range _ _ Hr s e Hs). pose proof (lr_bounds _ _ Hr). lia. Qed.

Lemma rep_bound l w s e : represents l w → w !! s = Some e → s < U64_MOD.
Proof. intros ?%rep_log. by eapply lr_bound. Qed.

Lemma lr_lookup l w s :
  log_rows l w → s < U64_MOD → log_tree l !! u64_to_be s = serialize_entry <$> w !! s.
Proof.
  intros Hr Hs. apply option_eq. intros v. rewrite (lr_rows _ _ Hr), fmap_Some. split.
  - intros (s' & e & Hk & -> & Hw). apply u64_to_be_inj in Hk as ->; [by eauto|done|].
    by eapply lr_bound.
  - intros (e & Hw & ->). eauto.
Qed.

Lemma rep_lookup l w s :
  represents l w → s < U64_MOD → log_tree l !! u64_to_be s = serialize_entry <$> w !! s.
Proof. intros ?%rep_log. by apply lr_lookup. Qed.

(** Decoding the rows of a scan. *)
Definition row_of (se : N * ReplicationEntry) : string * string :=
  (u64_to_be se.1, serialize_entry se.2).

Lemma decode_rows_of es :
  Forall (λ se, se.1 < U64_MOD) es → decode_rows (row_of <$> es) = Ok es.
Proof.
  induction 1 as [|[s e] es Hs _ IH]; [done|]. cbn [fmap list_fmap row_of decode_rows fst snd] in *.
  rewrite entry_roundtrip. cbn [mbind result_bind]. rewrite IH. cbn [mbind result_bind].
  by rewrite u64_from_to_be.
Qed.

Lemma rows_decode l w rows :
  log_rows l w → (∀ k v, (k, v) ∈ rows → log_tree l !! k = Some v) →
  ∃ es, rows = row_of <$> es ∧ Forall (λ se, w !! se.1 = Some se.2) es.
Proof.
  intros Hr. induction rows as [|[k v] rows IH]; intros Hrows; [by exists []|].
  destruct IH as (es & -> & Hes); [intros k' v' Hk'; apply Hrows; by right|].
  destruct (proj1 (lr_rows _ _ Hr k v) (Hrows k v ltac:(by left))) as (s & e & -> & -> & Hw).
  exists ((s, e) :: es). split; [done|by constructor].
Qed.

Lemma fst_NoDup_lookup (m : gmap string string) (rows : list (string * string)) :
  NoDup rows → (∀ k v, (k, v) ∈ rows → m !! k = Some v) → NoDup rows.*1.
Proof.
  induction 1 as [|[k v] rows Hn Hnd IH]; intros Hm; [constructor|]. cbn. constructor.
  - intros ([k' v'] & -> & Hin)%list_elem_of_fmap. cbn in *.
    assert (m !! k' = Some v) by (apply Hm; by left). assert (m !! k' = Some v') by (apply Hm; by right).
    simplify_eq. done.
  - apply IH. intros k' v' Hin. apply Hm. by right.
Qed.

Definition by_seq (x y : N * ReplicationEntry) : Prop := x.1 < y.1.

Lemma sorted_by_seq (es : list (N * ReplicationEntry)) :
  Forall (λ se, se.1 < U64_MOD) es → NoDup (row_of <$> es).*1 →
  StronglySorted key_le (row_of <$> es) → StronglySorted by_seq es.
Proof.
  induction 1 as [|[s e] es Hs Hes IH]; intros Hnd Hso; [constructor|].
  cbn [fmap list_fmap row_of fst snd] in *. apply NoDup_cons in Hnd as [Hn Hnd].
  apply StronglySorted_inv in Hso as [Hso Hall]. constructor; [by apply IH|].
  apply Forall_forall. intros [s' e'] Hin. unfold by_seq. cbn.
  rewrite Forall_forall in Hall. pose proof (proj1 (Forall_forall _ _) Hes _ Hin) as Hs'. cbn in Hs'.
  pose proof (Hall (row_of (s', e')) (list_elem_of_fmap_2 row_of _ _ Hin)) as Hle.
  unfold key_le, String.le, row_of in Hle. cbn in Hle. apply Is_true_true in Hle.
  rewrite leb_u64 in Hle by done. apply N.leb_le in Hle.
  assert (s ≠ s'); [|lia]. intros ->. apply Hn. rewrite <-list_fmap_compose.
  apply (list_elem_of_fmap_2 (fst ∘ row_of) es (s', e') Hin).
Qed.

(** The drain returns the entries of the map, each once, in order. *)
Lemma drain_spec l w :
  log_rows l w →
  ∃ es, drain_unreplicated l = Ok es ∧ StronglySorted by_seq es ∧
    ∀ s e, (s, e) ∈ es ↔ w !! s = Some e.
Proof.
  intros Hr. pose proof (lr_bounds _ _ Hr) as [Hb1 Hb2]. unfold drain_unreplicated. cbv zeta.
  destruct (N.leb_spec (next_seq l) (earliest_seq l)) as [Hle|Hlt].
  { exists []. split; [done|]. split; [constructor|]. intros s e. split; [by intros ?%not_elem_of_nil|].
    intros Hw. pose proof (lr_range _ _ Hr _ _ Hw). lia. }
  set (rows := range _ _ _).
  assert (∀ k v, (k, v) ∈ rows → log_tree l !! k = Some v) as Hrows.
  { intros k v (_ & _ & Hk)%elem_of_range. done. }
  destruct (rows_decode l w rows Hr Hrows) as (es & Hes & Hw).
  assert (Forall (λ se, se.1 < U64_MOD) es) as Hbound.
  { eapply Forall_impl; [exact Hw|]. intros [s e] Hse. by eapply lr_bound. }
  exists es. split; [by rewrite Hes, decode_rows_of|]. split.
  - apply sorted_by_seq; [done|..]; rewrite <-Hes; [|apply range_sorted].
    unfold rows, range. apply NoDup_fst_filter, entries_NoDup.
  - intros s e. split; [intros Hin; by apply (proj1 (Forall_forall _ _) Hw (s, e))|].
    intros Hs. pose proof (lr_range _ _ Hr _ _ Hs) as Hsr.
    assert ((u64_to_be s, serialize_entry e) ∈ rows) as Hin.
    { apply elem_of_range. cbn [below]. rewrite !leb_u64, !N.leb_le by lia.
      split; [lia|]. split; [lia|]. rewrite (lr_lookup l w) by (done || lia). by rewrite Hs. }
    rewrite Hes in Hin. apply list_elem_of_fmap in Hin as ([s' e'] & Heq & Hin).
    apply pair_equal_spec in Heq as [Hk%u64_to_be_inj Hv%serialize_entry_inj]; cbn [fst snd] in *;
      [by subst|lia|]. by apply (proj1 (Forall_forall _ _) Hbound (s', e')).
Qed.

(** ** Operations *)

Lemma insert_lookup_row (m : gmap string string) k v k' v' :
  <[k := v]> m !! k' = Some v' ↔ (k = k' ∧ v = v') ∨ (k ≠ k' ∧ m !! k' = Some v').
Proof. apply lookup_insert_Some. Qed.

Lemma append_represents l w bytes now :
  represents l w → next_seq l + 1 < U64_MOD →
  (append bytes now l).1 = next_seq l ∧ next_seq (append bytes now l).2 = next_seq l + 1 ∧
  represents (append bytes now l).2
    (<[next_seq l := mkReplicationEntry bytes now (rl_node_id l)]> w).
Proof.
  intros Hr Hmax. pose proof (rep_bounds _ _ Hr) as [Hb1 Hb2].
  pose proof (wrap64_small (next_seq l + 1) Hmax) as Hw.
  unfold append, append_alloc, append_commit. cbv zeta. cbn [fst snd log_tree meta_tree next_seq
    replicated_watermark earliest_seq rl_node_id]. rewrite Hw. split; [done|]. split; [done|].
  split; cbn [log_tree meta_tree next_seq replicated_watermark earliest_seq rl_node_id].
  - intros k v. rewrite insert_lookup_row, (rep_rows _ _ Hr). split.
    + intros [[<- <-]|[Hne (s & e & -> & -> & Hs)]].
      * eexists _, _. split; [done|]. split; [done|]. by rewrite lookup_insert_eq.
      * exists s, e. split_and!; [done..|]. rewrite lookup_insert_ne; [done|]. congruence.
    + intros (s & e & -> & -> & [[<- <-]|[Hne Hs]]%lookup_insert_Some); [by left|right].
      split; [|by eauto]. intros Hk%u64_to_be_inj; [done|lia|]. by eapply rep_bound.
  - intros s e [[<- <-]|[Hne Hs]]%lookup_insert_Some; [lia|].
    pose proof (rep_range _ _ Hr _ _ Hs). lia.
  - lia.
  - pose proof (rep_reopen _ _ Hr) as Hre. unfold replication_log_new in *. destruct l as [lt mt nx wm ea id].
    cbn [log_tree meta_tree next_seq replicated_watermark earliest_seq rl_node_id] in *.
    injection Hre as Hn Hwm He. rewrite lookup_insert_eq, !lookup_insert_ne by done.
    rewrite Hwm, He. f_equal. cbn [mbind option_bind].
    assert (match mt !! KEY_NEXT_SEQ with Some bytes => default 0 (u64_from_be bytes) | None => 1 end
      <= nx) as Hle.
    { rewrite <-Hn. destruct (mt !! KEY_NEXT_SEQ) as [b|]; [|done]. cbn.
      destruct (u64_from_be b); cbn; lia. }
    rewrite N.max_r by lia. by rewrite u64_from_to_be by lia.
Qed.

Lemma remove_represents l w s :
  represents l w → s < U64_MOD → represents (remove_entry s l) (delete s w).
Proof.
  intros Hr Hs. split; cbn [remove_entry log_tree meta_tree next_seq replicated_watermark earliest_seq
    rl_node_id].
  - intros k v. rewrite lookup_delete_Some, (rep_rows _ _ Hr). split.
    + intros [Hne (s' & e & -> & -> & Hw)]. exists s', e. split_and!; [done..|].
      rewrite lookup_delete_ne; [done|congruence].
    + intros (s' & e & -> & -> & [Hne Hw]%lookup_delete_Some). split; [|by eauto].
      intros Hk%u64_to_be_inj; [done|done|]. by eapply rep_bound.
  - intros s' e [Hne Hw]%lookup_delete_Some. by apply (rep_range _ _ Hr s' e).
  - apply Hr.
  - pose proof (rep_reopen _ _ Hr) as Hre. unfold replication_log_new in *. destruct l. cbn in *.
    by injection Hre as -> -> ->.
Qed.

Lemma advance_represents l w n :
  represents l w → n < U64_MOD → represents (advance_watermark n l) w.
Proof.
  intros Hr Hn. unfold advance_watermark. case_match; [|done].
  split; [apply Hr..|]. pose proof (rep_reopen _ _ Hr) as Hre. unfold replication_log_new in *.
  destruct l as [lt mt nx wm ea id].
  cbn [log_tree meta_tree next_seq replicated_watermark earliest_seq rl_node_id] in *.
  injection Hre as Hnx Hwm He. rewrite lookup_insert_eq, !lookup_insert_ne by done.
  cbn [mbind option_bind]. by rewrite Hnx, He, u64_from_to_be.
Qed.

Lemma compact_represents l w n :
  represents l w → n < next_seq l →
  represents (compact n l).2 (filter (λ se, n < se.1) w) ∧
  earliest_seq (compact n l).2 = N.max (earliest_seq l) (n + 1).
Proof.
  intros Hr Hn. pose proof (rep_bounds _ _ Hr) as [Hb1 Hb2]. unfold compact. cbv zeta.
  destruct (N.ltb_spec n (earliest_seq l)) as [Hlt|Hge].
  { split; [|cbn [snd]; lia]. cbn [snd]. replace (filter _ w) with w; [done|].
    symmetry. apply map_filter_id. intros s e Hs. pose proof (rep_range _ _ Hr _ _ Hs). cbn. lia. }
  rewrite wrap64_small by lia. split; [|cbn; lia].
  split; cbn [snd log_tree meta_tree next_seq replicated_watermark earliest_seq rl_node_id].
  - intros k v. rewrite foldr_delete_lookup. split.
    + case_decide as Hk; [done|]. intros (s & e & -> & -> & Hs)%(rep_rows _ _ Hr). exists s, e.
      split_and!; [done..|]. apply map_lookup_filter_Some. split; [done|]. cbn.
      pose proof (rep_range _ _ Hr _ _ Hs) as Hsr.
      destruct (decide (n < s)) as [|Hns]; [done|]. destruct Hk. apply list_elem_of_fmap. exists s.
      split; [done|]. apply elem_of_seq_range. lia.
    + intros (s & e & -> & -> & [Hs Hns]%map_lookup_filter_Some). cbn in Hns.
      rewrite decide_False; [apply (rep_rows _ _ Hr); by eauto|].
      intros (s' & Hk & Hs')%list_elem_of_fmap. apply elem_of_seq_range in Hs'.
      apply u64_to_be_inj in Hk; [lia| |lia]. by eapply rep_bound.
  - intros s e [Hs Hns]%map_lookup_filter_Some. cbn in Hns. pose proof (rep_range _ _ Hr _ _ Hs). lia.
  - lia.
  - pose proof (rep_reopen _ _ Hr) as Hre. unfold replication_log_new in *. destruct l as [lt mt nx wm ea id].
    cbn [log_tree meta_tree next_seq replicated_watermark earliest_seq rl_node_id] in *.
    injection Hre as Hnx Hwm He. rewrite lookup_insert_eq, !lookup_insert_ne by done.
    cbn [mbind option_bind]. rewrite Hnx, Hwm, u64_from_to_be by lia. done.
Qed.

(** The operations on the log, and what they mean for the map. *)
Inductive wal_op :=
  | WalAppend (command_bytes : string) (now : N)
  | WalRemove (seq : N)
  | WalWatermark (n : N)
  | WalCompact (up_to_seq : N).

Definition wal_step (op : wal_op) (l : ReplicationLog) : ReplicationLog :=
  match op with
  | WalAppend bytes now => (append bytes now l).2
  | WalRemove seq => remove_entry seq l
  | WalWatermark n => advance_watermark n l
  | WalCompact n => (compact n l).2
  end.

(** What the callers pass: sequence numbers below the next one, and the space
    of sequence numbers is not exhausted. *)
Definition wal_admits (op : wal_op) (l : ReplicationLog) : bool :=
  match op with
  | WalAppend _ _ => next_seq l + 1 <? U64_MOD
  | WalRemove n | WalWatermark n | WalCompact n => n <? next_seq l
  end.

Definition map_step (op : wal_op) (l : ReplicationLog) (w : gmap N ReplicationEntry) :
    gmap N ReplicationEntry :=
  match op with
  | WalAppend bytes now => <[next_seq l := mkReplicationEntry bytes now (rl_node_id l)]> w
  | WalRemove seq => delete seq w
  | WalWatermark _ => w
  | WalCompact n => filter (λ se, n < se.1) w
  end.

Fixpoint wal_run (ops : list wal_op) (l : ReplicationLog) (w : gmap N ReplicationEntry) :
    option (ReplicationLog * gmap N ReplicationEntry) :=
  match ops with
  | [] => Some (l, w)
  | op :: ops =>
      if wal_admits op l then wal_run ops (wal_step op l) (map_step op l w) else None
  end.

Lemma wal_step_represents op l w :
  represents l w → wal_admits op l = true → represents (wal_step op l) (map_step op l w).
Proof.
  intros Hr Ha. pose proof (rep_bounds _ _ Hr) as [_ Hb]. destruct op; cbn [wal_step map_step wal_admits] in *;
    apply N.ltb_lt in Ha.
  - by apply append_represents.
  - apply remove_represents; [done|lia].
  - apply advance_represents; [done|lia].
  - by apply compact_represents.
Qed.

Lemma fresh_represents id : represents (replication_log_new ∅ ∅ id) ∅.
Proof.
  split; [|intros s e Hs; discriminate Hs|by repeat split|done].
  intros k v. split; [intros Hk; discriminate Hk|]. intros (s & e & _ & _ & Hs). discriminate Hs.
Qed.

Lemma wal_run_represents ops l w l' w' :
  represents l w → wal_run ops l w = Some (l', w') → represents l' w'.
Proof.
  revert l w. induction ops as [|op ops IH]; intros l w Hr Hrun; cbn [wal_run] in Hrun.
  { by injection Hrun as <- <-. }
  destruct (wal_admits op l) eqn:Ha; [|done]. eapply IH; [|done]. by apply wal_step_represents.
Qed.

Lemma wal_run_node_id ops l0 w0 l w :
  wal_run ops l0 w0 = Some (l, w) → rl_node_id l = rl_node_id l0.
Proof.
  revert l0 w0. induction ops as [|op ops IH]; intros l0 w0 Hrun; cbn [wal_run] in Hrun.
  { by injection Hrun as -> _. }
  destruct (wal_admits op l0); [|done]. rewrite (IH _ _ Hrun). clear.
  destruct op; cbn [wal_step]; unfold advance_watermark, compact; cbv zeta; by repeat case_match.
Qed.

(** C22: The write-ahead log is a map that survives restarts: after any
    sequence of appends, removals, watermark advances and compactions, the
    drain returns exactly the entries appended and neither removed nor
    compacted, in sequence order, and a log reopened from the store is the
    same log (same tokens, watermark and bounds). *)
Theorem wal_refines_map ops id l w
    (Hrun : wal_run ops (replication_log_new ∅ ∅ id) ∅ = Some (l, w)) :
  replication_log_new (log_tree l) (meta_tree l) id = l ∧
  ∃ es, drain_unreplicated l = Ok es ∧ StronglySorted by_seq es ∧
    ∀ s e, (s, e) ∈ es ↔ w !! s = Some e.
Proof.
  pose proof (wal_run_represents _ _ _ _ _ (fresh_represents id) Hrun) as Hr. split.
  - pose proof (rep_reopen _ _ Hr) as Hre. by rewrite (wal_run_node_id _ _ _ _ _ Hrun) in Hre.
  - by apply drain_spec, rep_log.
Qed.
End log.

(** ** The quorum watermark *)

(** Whether a voter holds everything up to [w]: this node always does. *)
Definition holds (peers : gmap N PeerReplicationState) (self_id w id : N) : bool :=
  (id =? self_id) || match peers !! id with Some p => w <=? acked_seq p | None => false end.

Definition count {A} (f : A → bool) (l : list A) : nat := length (filter (λ x, f x = true) l).

Lemma count_cons {A} (f : A → bool) x l :
  count f (x :: l) = ((if f x then 1 else 0) + count f l)%nat.
Proof. unfold count. rewrite filter_cons. by destruct (f x). Qed.

Lemma count_Permutation {A} (f : A → bool) (l l' : list A) : l ≡ₚ l' → count f l = count f l'.
Proof. intros Hl. unfold count. by rewrite Hl. Qed.

Lemma count_le {A} (f : A → bool) (l : list A) : (count f l ≤ length l)%nat.
Proof. apply length_filter. Qed.

Lemma count_app {A} (f : A → bool) (l l' : list A) : count f (l ++ l') = (count f l + count f l')%nat.
Proof. unfold count. by rewrite filter_app, length_app. Qed.

Lemma count_all {A} (f : A → bool) (l : list A) : (∀ x, x ∈ l → f x = true) → count f l = length l.
Proof.
  induction l as [|x l IH]; intros Hl; [done|]. rewrite count_cons, Hl by (by left). cbn.
  rewrite IH; [done|]. intros y Hy. apply Hl. by right.
Qed.

Lemma count_none {A} (f : A → bool) (l : list A) : (∀ x, x ∈ l → f x = false) → count f l = 0%nat.
Proof.
  induction l as [|x l IH]; intros Hl; [done|]. rewrite count_cons, Hl by (by left). cbn.
  apply IH. intros y Hy. apply Hl. by right.
Qed.

Definition at_least (w a : N) : bool := w <=? a.

#[global] Instance desc_trans : Transitive desc.
Proof. intros a b c. unfold desc. lia. Qed.
#[global] Instance desc_total : Total desc.
Proof. intros a b. unfold desc. lia. Qed.

(** The [k]-th largest ack is held by [k + 1] peers; nothing larger is. *)
Lemma kth_largest acks k wm w' :
  sort_desc acks !! k = Some wm →
  (k < count (at_least wm) acks)%nat ∧ (wm < w' → (count (at_least w') acks ≤ k)%nat).
Proof.
  intros Hk. pose proof (merge_sort_Permutation desc acks) as Hp. fold (sort_desc acks) in Hp.
  assert (StronglySorted desc (sort_desc acks)) as Hs by (apply (StronglySorted_merge_sort desc)).
  rewrite <-!(count_Permutation _ _ _ Hp). clear Hp. set (L := sort_desc acks) in *. clearbody L.
  pose proof (take_drop_middle L k wm Hk) as Heq.
  assert (length (take k L) = k) as Hlen.
  { rewrite length_take. apply lookup_lt_Some in Hk. lia. }
  rewrite <-Heq in Hs. apply StronglySorted_app in Hs as (Hcross & _ & Hs2).
  apply StronglySorted_inv in Hs2 as [_ Hs2]. rewrite Forall_forall in Hs2. rewrite <-Heq.
  split; rewrite !count_app, !count_cons.
  - unfold at_least at 2. rewrite N.leb_refl, (count_all _ (take k L)); [lia|].
    intros a Ha. apply N.leb_le. apply (Hcross a wm Ha). by left.
  - intros Hw. unfold at_least at 2. rewrite (proj2 (N.leb_gt w' wm)) by done. rewrite (count_none _ (drop (S k) L)).
    + pose proof (count_le (at_least w') (take k L)). lia.
    + intros a Ha. apply N.leb_gt. specialize (Hs2 a Ha). unfold desc in Hs2. lia.
Qed.

Definition acks_of (peers : gmap N PeerReplicationState) (ids : list N) : list N :=
  omap (λ id, acked_seq <$> peers !! id) ids.

Lemma count_acks peers self w ids :
  self ∉ ids → count (holds peers self w) ids = count (at_least w) (acks_of peers ids).
Proof.
  induction ids as [|id ids IH]; intros Hn; [done|]. apply not_elem_of_cons in Hn as [Hne Hn].
  rewrite count_cons, IH by done. unfold holds at 1. rewrite (proj2 (N.eqb_neq id self)) by done.
  unfold acks_of. cbn [omap list_omap orb]. destruct (peers !! id) as [p|]; [|done].
  cbn [fmap option_fmap option_map]. by rewrite count_cons.
Qed.

Lemma split_self (self : N) (ids : list N) :
  NoDup ids → self ∈ ids → ids ≡ₚ self :: filter (λ id, id ≠ self) ids.
Proof.
  intros Hnd Hin. apply NoDup_Permutation; [done|..].
  - apply NoDup_cons. split; [|by apply NoDup_filter]. intros [? _]%list_elem_of_filter. done.
  - intros x. rewrite elem_of_cons, list_elem_of_filter. destruct (decide (x = self)); naive_solver.
Qed.

(** The watermark a pass computes is the quorum's: the voters that hold
    every entry up to it (this node included) are a majority, and no higher
    sequence number is held by one; peers that are not voters never count. *)
Theorem watermark_is_quorum peers voter_ids self_id wm
    (Hnd : NoDup voter_ids) (Hself : self_id ∈ voter_ids)
    (Hwm : compute_ec_watermark peers voter_ids self_id = Some wm) :
  (length voter_ids < 2 * count (holds peers self_id wm) voter_ids)%nat ∧
  ∀ w, wm < w → (2 * count (holds peers self_id w) voter_ids ≤ length voter_ids)%nat.
Proof.
  unfold compute_ec_watermark in Hwm. cbv zeta in Hwm.
  destruct (length voter_ids / 2)%nat as [|k] eqn:Hneed; [done|].
  apply bind_Some in Hwm as (wm' & Hk & Hwm). case_match; [|done]. injection Hwm as ->.
  fold (acks_of peers (filter (λ id, id ≠ self_id) voter_ids)) in Hk.
  assert (∀ w, count (holds peers self_id w) voter_ids =
    S (count (at_least w) (acks_of peers (filter (λ id, id ≠ self_id) voter_ids)))) as Hcount.
  { intros w. rewrite (count_Permutation _ _ _ (split_self self_id voter_ids Hnd Hself)), count_cons.
    unfold holds at 1. rewrite N.eqb_refl. cbn [orb]. rewrite count_acks; [done|].
    by intros [? _]%list_elem_of_filter. }
  assert (length voter_ids = 2 * S k + length voter_ids mod 2)%nat as Hdiv.
  { rewrite <-Hneed. apply Nat.div_mod_eq. }
  assert (length voter_ids mod 2 < 2)%nat by (by apply Nat.mod_upper_bound).
  split.
  - rewrite Hcount. destruct (kth_largest _ _ _ wm Hk) as [Hc _]. lia.
  - intros w Hw. rewrite Hcount. destruct (kth_largest _ _ _ w Hk) as [_ Hc]. specialize (Hc Hw). lia.
Qed.

(** ** A pass *)

Section pass.
Context `{Codec : MetadataCodec} `{RC : ReplicationCodec}.
Context (parse_rfc3339 : string → option Z).
Hypothesis entry_roundtrip : ∀ e, deserialize_entry (serialize_entry e) = Ok e.

(** What the receiver gets to apply: the decodable commands of a batch. *)
Definition decoded (batch : list EcReplicationEntry) : list (Command * N) :=
  omap (λ entry, match deserialize_command (ee_command entry) with
                 | Ok c => Some (c, ee_timestamp entry)
                 | Err _ => None
                 end) batch.

Lemma apply_ec_from_peer_Ok c ts sm r sm' :
  apply_ec_from_peer parse_rfc3339 c ts sm = Ok (r, sm') →
  ∃ fired, apply_ec_with_lww parse_rfc3339 c ts sm = Ok (r, sm', fired).
Proof.
  unfold apply_ec_from_peer. intros H. apply result_bind_Ok in H as (sc & Hsc & H). destruct sc.
  - injection H as <- <-. unfold apply_ec_with_lww. rewrite Hsc. by exists [].
  - apply result_bind_Ok in H as ([[r1 sm1] fired] & Hl & [= <- <-]). by exists fired.
Qed.

Definition last_seq (m : N) (batch : list EcReplicationEntry) : N :=
  foldl (λ m entry, N.max m (ee_seq entry)) m batch.

Lemma replicate_success m batch sm n sm' :
  replicate_loop parse_rfc3339 m batch sm = (mkReplicateResponse true n, sm') →
  n = last_seq m batch ∧ ec_deliver parse_rfc3339 (decoded batch) sm = Ok sm'.
Proof.
  revert m sm. induction batch as [|entry batch IH]; intros m sm Hrep; cbn [replicate_loop] in Hrep.
  { by injection Hrep as <- <-. }
  unfold decoded. cbn [omap list_omap last_seq foldl].
  destruct (deserialize_command (ee_command entry)) as [c|e]; [|by apply IH].
  destruct (apply_ec_from_peer _ c _ sm) as [[r sm1]|e] eqn:Happ; [|done].
  destruct (apply_ec_from_peer_Ok _ _ _ _ _ Happ) as [fired Hl]. cbn [ec_deliver]. rewrite Hl.
  cbn [mbind result_bind]. by apply IH.
Qed.

Lemma last_seq_spec m (es : list (N * ReplicationEntry)) :
  StronglySorted by_seq es →
  (∀ s e, (s, e) ∈ es → s ≤ last_seq m (as_ec_entry <$> es)) ∧
  m ≤ last_seq m (as_ec_entry <$> es) ∧
  (es = [] ∨ last_seq m (as_ec_entry <$> es) = m ∨
     ∃ e, (last_seq m (as_ec_entry <$> es), e) ∈ es).
Proof.
  intros Hs. revert m. induction Hs as [|[s e] es Hs IH Hall]; intros m.
  { split; [by intros s e ?%not_elem_of_nil|]. split; [done|by left]. }
  cbn [fmap list_fmap last_seq foldl as_ec_entry ee_seq fst].
  destruct (IH (N.max m s)) as (H1 & H2 & H3). unfold last_seq in H1, H2, H3. split_and!.
  - intros s' e' [[= -> ->]|Hin]%elem_of_cons; [lia|by eapply H1].
  - lia.
  - right. destruct H3 as [->|[H3|[e' He']]].
    + cbn. destruct (N.max_spec m s) as [[? ->]|[? ->]]; [right; exists e; by left|by left].
    + rewrite H3. destruct (N.max_spec m s) as [[? ->]|[? ->]]; [right; exists e; by left|by left].
    + right. exists e'. by right.
Qed.

Lemma StronglySorted_take {A} (R : A → A → Prop) n (l : list A) :
  StronglySorted R l → StronglySorted R (take n l).
Proof.
  intros Hs. revert n. induction Hs as [|x l Hs IH Hall]; intros [|n]; [constructor..|].
  cbn. constructor; [apply IH|]. by apply Forall_take.
Qed.

(** A prefix of a sorted list holds everything up to its last element. *)
Lemma take_sorted_gap_free n (l : list (N * ReplicationEntry)) s e s' e' :
  StronglySorted by_seq l → (s, e) ∈ l → (s', e') ∈ take n l → s ≤ s' → (s, e) ∈ take n l.
Proof.
  intros Hs Hin Hin' Hle. rewrite <-(take_drop n l) in Hs, Hin.
  apply elem_of_app in Hin as [Hin|Hin]; [done|].
  apply StronglySorted_app in Hs as (Hcross & _ & _). specialize (Hcross _ _ Hin' Hin).
  unfold by_seq in Hcross. cbn in Hcross. lia.
Qed.

(** A batch comes from the state the visit settled on. *)
Lemma visit_batch now earliest es p p' batch :
  visit_peer now earliest es p = (p', SendBatch batch) →
  in_flight p = false ∧ batch = peer_batch (acked_seq p) es ∧ batch ≠ [] ∧
  acked_seq p' = acked_seq p ∧ (acked_seq p + 1 < U64_MOD → earliest ≤ acked_seq p + 1).
Proof.
  unfold visit_peer, visit_incremental. intros Hv.
  destruct (in_flight p) eqn:Hf; [done|]. destruct (now <? next_attempt p); [done|].
  destruct (needs_snapshot p).
  - destruct (earliest <=? acked_seq p); [|done]. cbn [acked_seq set_needs_snapshot] in Hv.
    destruct (N.ltb_spec (wrap64 (acked_seq p + 1)) earliest) as [|Hge]; [done|].
    destruct (peer_batch (acked_seq p) es) eqn:Hb; [done|]. injection Hv as <- <-.
    split_and!; [done..|]. intros Hs. by rewrite wrap64_small in Hge.
  - destruct (N.ltb_spec (wrap64 (acked_seq p + 1)) earliest) as [|Hge]; [done|].
    destruct (peer_batch (acked_seq p) es) eqn:Hb; [done|]. injection Hv as <- <-.
    split_and!; [done..|]. intros Hs. by rewrite wrap64_small in Hge.
Qed.

(** C23: An acknowledged sequence number means delivery.  Let a pass drain the log,
    possibly while appends are between the allocation of their number and their
    transaction (so that their rows are not there yet), send a peer a batch, and let the
    peer acknowledge [n].  Then [n] is above the peer's old acknowledgement and below the
    next sequence number, nothing the peer still needed had been compacted away, and the
    batch is exactly the entries that are in the log above the old acknowledgement and up
    to [n], in the order of their numbers.  The peer's state is the merge of the
    decodable commands of the batch, in order, and the completion records [n] for it.
    (An entry whose row arrives later with a number up to [n] is not in the batch.) *)
Theorem acked_means_delivered l w es now p p' batch sm n sm'
    (Hr : log_rows l w) (Hdrain : drain_unreplicated l = Ok es)
    (Hvisit : visit_peer now (earliest_seq l) es p = (p', SendBatch batch))
    (Hreply : replicate_entries parse_rfc3339 batch sm = (mkReplicateResponse true n, sm')) :
  earliest_seq l ≤ acked_seq p + 1 ∧ acked_seq p < n < next_seq l ∧
  (∃ rows, batch = as_ec_entry <$> rows ∧ StronglySorted by_seq rows ∧
     ∀ s e, (s, e) ∈ rows ↔ w !! s = Some e ∧ acked_seq p < s ≤ n) ∧
  ec_deliver parse_rfc3339 (decoded batch) sm = Ok sm' ∧
  ∀ now' id peers q, peers !! id = Some q → acked_seq q = acked_seq p →
    acked_seq <$> handle_completion now' (Acked id n) peers !! id = Some n.
Proof.
  pose proof (lr_bounds _ _ Hr) as [Hb1 Hb2].
  destruct (drain_spec entry_roundtrip l w Hr) as (es' & Hd & Hsort & Hes).
  rewrite Hdrain in Hd. injection Hd as <-.
  destruct (visit_batch _ _ _ _ _ _ Hvisit) as (_ & -> & Hne & _ & Hearly).
  destruct (replicate_success _ _ _ _ _ Hreply) as [Hn Hdel]. unfold peer_batch in *.
  set (f := filter (λ row, acked_seq p < row.1) es) in *.
  assert (StronglySorted by_seq f) as Hf by (by apply StronglySorted_filter).
  pose proof (StronglySorted_take _ EC_MAX_ENTRIES_PER_BATCH _ Hf) as Ht.
  destruct (last_seq_spec 0 _ Ht) as (Hall & _ & Hlast). rewrite <-Hn in Hall, Hlast.
  assert (∀ s e, (s, e) ∈ take EC_MAX_ENTRIES_PER_BATCH f → acked_seq p < s ∧ w !! s = Some e) as Hin.
  { intros s e H. assert ((s, e) ∈ f) as [? ?%Hes]%list_elem_of_filter.
    { rewrite <-(take_drop EC_MAX_ENTRIES_PER_BATCH f). apply elem_of_app. by left. }
    done. }
  assert (∃ e, (n, e) ∈ take EC_MAX_ENTRIES_PER_BATCH f) as [e0 He0].
  { destruct Hlast as [Hnil|[Hz|?]]; [by rewrite Hnil in Hne| |done].
    destruct (take EC_MAX_ENTRIES_PER_BATCH f) as [|[s e] t] eqn:Hft; [done|].
    assert ((s, e) ∈ (s, e) :: t) as Hse by (by left).
    pose proof (Hall s e Hse). destruct (Hin s e Hse) as [? _]. lia. }
  destruct (Hin n e0 He0) as [Hlt Hwn]. pose proof (lr_range _ _ Hr _ _ Hwn).
  split; [apply Hearly; lia|]. split; [lia|]. split; [|split; [done|]].
  - exists (take EC_MAX_ENTRIES_PER_BATCH f). split_and!; [done..|]. intros s e. split.
    + intros Hse. destruct (Hin s e Hse). split; [done|]. split; [done|by apply (Hall s e)].
    + intros [Hs Hsn]. eapply (take_sorted_gap_free _ f s e n e0); [done| |done|lia].
      apply list_elem_of_filter. split; [cbn; lia|by apply Hes].
  - intros now' id peers q Hq Hqa. cbn [handle_completion]. rewrite lookup_alter_eq, Hq. cbn. f_equal. rewrite Hqa. lia.
Qed.
End pass.

(** ** Compaction *)

Section compaction.
Context `{Codec : MetadataCodec} `{RC : ReplicationCodec}.

Definition acked_of (peers : gmap N PeerReplicationState) (id : N) : N :=
  default 0 (acked_seq <$> peers !! id).

Lemma visit_peer_acked now earliest es p : acked_seq (visit_peer now earliest es p).1 = acked_seq p.
Proof. unfold visit_peer, visit_incremental. by repeat case_match. Qed.

Lemma visit_peers_acked now created earliest es ids peers :
  let peers' := (visit_peers now created earliest es ids peers).1 in
  (∀ id, acked_of peers' id = acked_of peers id) ∧
  (∀ id, id ∈ ids ∨ is_Some (peers !! id) → is_Some (peers' !! id)).
Proof.
  revert peers. induction ids as [|i ids IH]; intros peers; cbn [visit_peers].
  { split; [done|]. intros id [H|H]; [by apply not_elem_of_nil in H|done]. }
  pose proof (visit_peer_acked now earliest es (default (peer_new (created i)) (peers !! i))) as Hack.
  destruct (visit_peer _ _ _ _) as [p v]. specialize (IH (<[i := p]> peers)).
  destruct (visit_peers _ _ _ _ ids _) as [peers' tasks]. cbn [fst] in *. destruct IH as [IH1 IH2].
  split.
  - intros id. rewrite IH1. unfold acked_of. destruct (decide (i = id)) as [->|Hne].
    + rewrite lookup_insert_eq. cbn. rewrite Hack. by destruct (peers !! id).
    + by rewrite lookup_insert_ne.
  - intros id Hid. apply IH2. destruct (decide (i = id)) as [->|Hne].
    + right. rewrite lookup_insert_eq. eauto.
    + rewrite lookup_insert_ne by done. set_solver.
Qed.

Lemma mark_in_flight_acked tasks peers :
  (∀ id, acked_of (mark_in_flight tasks peers) id = acked_of peers id) ∧
  (∀ id, is_Some (mark_in_flight tasks peers !! id) ↔ is_Some (peers !! id)).
Proof.
  unfold mark_in_flight. induction tasks as [|[i v] tasks [IH1 IH2]]; [done|]. cbn [foldr fst].
  split; intros id.
  - rewrite <-IH1. unfold acked_of. destruct (decide (i = id)) as [->|Hne].
    + rewrite lookup_alter_eq. by destruct (foldr _ _ tasks !! id).
    + by rewrite lookup_alter_ne.
  - rewrite <-IH2. destruct (decide (i = id)) as [->|Hne].
    + rewrite lookup_alter_eq. by rewrite fmap_is_Some.
    + by rewrite lookup_alter_ne.
Qed.

Lemma min_acked_le acks a : a ∈ acks → min_acked acks ≤ a.
Proof.
  destruct acks as [|b acks]; [by intros ?%not_elem_of_nil|]. cbn [min_acked].
  revert b. induction acks as [|c acks IH]; intros b Hin; cbn [foldr].
  - apply list_elem_of_singleton in Hin as ->. done.
  - rewrite !elem_of_cons in Hin. destruct Hin as [->|[->|Hin]].
    + specialize (IH b ltac:(by left)). lia.
    + lia.
    + specialize (IH b ltac:(by right)). lia.
Qed.

Lemma min_acked_lt acks n : 0 < n → (∀ a, a ∈ acks → a < n) → min_acked acks < n.
Proof.
  destruct acks as [|b acks]; [done|]. intros _ Hall. eapply N.le_lt_trans; [|apply (Hall b); by left].
  apply min_acked_le. by left.
Qed.

(** Acknowledgements stay below the next sequence number. *)
Definition acks_bounded (peers : gmap N PeerReplicationState) (l : ReplicationLog) : Prop :=
  ∀ id, acked_of peers id < next_seq l.

Lemma acks_of_acked peers ids a : a ∈ acks_of peers ids → ∃ id, a = acked_of peers id.
Proof.
  unfold acks_of. rewrite list_elem_of_omap. intros (id & _ & Ha). exists id. unfold acked_of.
  by rewrite Ha.
Qed.

Lemma compact_to_floor_keeps ids retention peers l w :
  represents l w → acks_bounded peers l → 0 < retention →
  ∃ w', represents (compact_to_floor ids retention peers l) w' ∧
    next_seq (compact_to_floor ids retention peers l) = next_seq l ∧
    ∀ id s e, id ∈ ids → is_Some (peers !! id) → w !! s = Some e → acked_of peers id < s →
      next_seq l - retention < s → w' !! s = Some e.
Proof.
  intros Hr Ha Hret. pose proof (rep_bounds _ _ Hr) as [Hb1 Hb2].
  unfold compact_to_floor. fold (acks_of peers ids). unfold ec_compact_floor, max_seq.
  set (floor := N.max _ _). destruct (N.ltb_spec 0 floor) as [Hpos|Hz]; [|by exists w].
  assert (floor < next_seq l) as Hlt.
  { unfold floor. assert (min_acked (acks_of peers ids) < next_seq l); [|lia].
    apply min_acked_lt; [lia|]. intros a (id & ->)%acks_of_acked. apply Ha. }
  destruct (compact_represents l w floor Hr Hlt) as [Hr' _]. eexists. split; [exact Hr'|]. split.
  { unfold compact. cbv zeta. by case_match. }
  intros id s e Hid [p Hp] Hs Hack Hwin. apply map_lookup_filter_Some. split; [done|]. cbn.
  assert (min_acked (acks_of peers ids) ≤ acked_of peers id); [|unfold floor; lia].
  apply min_acked_le, list_elem_of_omap. exists id. split; [done|]. unfold acked_of. by rewrite Hp.
Qed.

Lemma watermark_bound peers voters self wm n :
  (∀ id, acked_of peers id < n) → compute_ec_watermark peers voters self = Some wm → wm < n.
Proof.
  intros Ha Hwm. unfold compute_ec_watermark in Hwm. cbv zeta in Hwm. case_match; [done|].
  apply bind_Some in Hwm as (wm' & Hk & Hwm). case_match; [|done]. injection Hwm as ->.
  apply list_elem_of_lookup_2 in Hk. unfold sort_desc in Hk. rewrite merge_sort_Permutation in Hk.
  apply acks_of_acked in Hk as [id ->]. apply Ha.
Qed.

Lemma advance_next n l : next_seq (advance_watermark n l) = next_seq l.
Proof. unfold advance_watermark. by case_match. Qed.

(** Compaction never takes what a peer still needs: after any pass, an
    entry that some known peer has not acknowledged and that lies inside the
    retention window is still in the log, and the log, the acknowledgements and
    the sequence numbers stay well formed for the next pass. *)
Theorem pass_keeps_needed_entries now created ids voters self retention l peers w l' peers' tasks
    (Hr : represents l w) (Hacks : acks_bounded peers l) (Hret : 0 < retention)
    (Hpass : spawn_ec_replications now created ids voters self retention l peers = (l', peers', tasks)) :
  acks_bounded peers' l' ∧ next_seq l' = next_seq l ∧
  ∃ w', represents l' w' ∧
    ∀ id s e, id ∈ ids → w !! s = Some e → acked_of peers id < s → next_seq l - retention < s →
      w' !! s = Some e.
Proof.
  unfold spawn_ec_replications in Hpass. cbv zeta in Hpass.
  set (l1 := if _ && (1 <? max_seq l) then _ else l) in Hpass.
  pose proof (rep_bounds _ _ Hr) as [Hb1 Hb2].
  assert (represents l1 w ∧ next_seq l1 = next_seq l) as [Hr1 Hn1].
  { unfold l1. destruct (_ && _); [|done]. split; [|apply advance_next].
    apply advance_represents; [done|]. unfold max_seq. lia. }
  clearbody l1.
  assert (∀ l'', l'' = l1 → acks_bounded peers l'' ∧ next_seq l'' = next_seq l ∧
    ∃ w', represents l'' w' ∧ ∀ id s e, id ∈ ids → w !! s = Some e → acked_of peers id < s →
      next_seq l - retention < s → w' !! s = Some e) as Hstay.
  { intros l'' ->. split_and!; [|done|by exists w]. unfold acks_bounded. by rewrite Hn1. }
  destruct (_ && bool_decide (ids = [])). { injection Hpass as <- <- _. by apply Hstay. }
  destruct (drain_unreplicated l1) as [es|err]; [|injection Hpass as <- <- _; by apply Hstay].
  destruct (bool_decide (es = []) && _). { injection Hpass as <- <- _. by apply Hstay. }
  clear Hstay. pose proof (visit_peers_acked now created (earliest_seq l1) es ids peers) as [Hv1 Hv2].
  destruct (visit_peers now created (earliest_seq l1) es ids peers) as [peers1 tasks1]. cbn [fst] in *.
  destruct (mark_in_flight_acked tasks1 peers1) as [Hm1 Hm2].
  set (peers2 := mark_in_flight tasks1 peers1) in *. clearbody peers2.
  assert (∀ id, acked_of peers2 id = acked_of peers id) as Hsame by (intros id; congruence).
  set (l2 := if (2 <=? length voters)%nat then _ else l1) in Hpass.
  assert (represents l2 w ∧ next_seq l2 = next_seq l) as [Hr2 Hn2].
  { unfold l2. case_match; [|done]. case_match eqn:Hwm; [|done]. rewrite advance_next.
    split; [|done]. apply advance_represents; [done|].
    apply watermark_bound with (n := next_seq l) in Hwm; [lia|]. intros id. rewrite Hsame. apply Hacks. }
  clearbody l2. injection Hpass as <- <- <-.
  destruct (compact_to_floor_keeps ids retention peers2 l2 w) as (w' & Hr' & Hn' & Hkeep);
    [done|intros id; rewrite Hsame, Hn2; apply Hacks|done|].
  split_and!; [intros id; rewrite Hsame, Hn', Hn2; apply Hacks|congruence|].
  exists w'. split; [done|]. intros id s e Hid Hs Hack Hwin.
  apply (Hkeep id); [done|apply Hm2, Hv2; by left|done|by rewrite Hsame|by rewrite Hn2].
Qed.

(** ** Local writes *)

Lemma remove_appended l w bytes now :
  represents l w → next_seq l + 1 < U64_MOD →
  represents (remove_entry (next_seq l) (append bytes now l).2) w.
Proof.
  intros Hr Hmax. destruct (append_represents l w bytes now Hr Hmax) as (_ & _ & Ha).
  apply remove_represents with (s := next_seq l) in Ha; [|lia].
  rewrite delete_insert_id in Ha; [done|]. destruct (w !! next_seq l) as [e|] eqn:Hw; [|done].
  pose proof (rep_range _ _ Hr _ _ Hw). lia.
Qed.

(** A local write on the eventually consistent plane is logged and applied
    or leaves no trace: an accepted write returns a fresh pending token, its
    entry is in the write-ahead log and its effect in the state machine; a
    refused write changes neither the state machine nor what the drain will
    ever send. *)
Theorem ec_write_logged_or_refused c now l w sm
    (Hi : sm_inv sm) (Hty : command_typed c) (Hr : represents l w)
    (Hroom : next_seq l + 1 < U64_MOD) (Hwm : replicated_watermark l < next_seq l) :
  match propose_ec_local c now (l, sm) with
  | (Ok seq, (l', sm')) =>
      seq = next_seq l ∧ is_committed seq l' = Some TokenPending ∧
      represents l' (<[seq := mkReplicationEntry (serialize_command c) now (rl_node_id l)]> w) ∧
      (∃ r, apply_local c sm = Ok (r, sm')) ∧ sm_inv sm'
  | (Err (Failed _), (l', sm')) => sm' = sm ∧ represents l' w
  | (Err Diverged, (_, sm')) => sm' = sm ∧ apply_local c sm = Err Diverged
  end.
Proof.
  unfold propose_ec_local. destruct (requires_strong_consistency c sm) as [[]|e] eqn:Hsc; [done| |done].
  destruct (append_represents l w (serialize_command c) now Hr Hroom) as (Hseq & Hnext & Hrep).
  pose proof (remove_appended l w (serialize_command c) now Hr Hroom) as Hrem.
  assert (replicated_watermark (append (serialize_command c) now l).2 = replicated_watermark l) as Hw
    by done.
  destruct (append (serialize_command c) now l) as [seq l1] eqn:Happ. cbn [fst snd] in *. subst seq.
  destruct (apply_local c sm) as [[r sm']|[]] eqn:Hloc; [|done..].
  destruct (apply_local_post _ _ _ _ Hi Hty Hloc) as [Hp _].
  pose proof (rep_bounds _ _ Hr) as [Hb _]. split_and!; [done| |done|by eauto|split; apply Hp].
  unfold is_committed. rewrite Hw, (proj2 (N.eqb_neq (next_seq l) 0)) by lia. cbn [orb].
  rewrite (proj2 (N.leb_gt (next_seq l1) (next_seq l))) by lia.
  by rewrite (proj2 (N.leb_gt (next_seq l) (replicated_watermark l))) by lia.
Qed.
End compaction.

(** ** Concrete runs *)

#[local] Existing Instance demo_codec.

Definition entry_fields (e : ReplicationEntry) : string * N * N :=
  (re_command e, re_timestamp e, re_node_id e).

(** Commands of the plane, as tagged texts. *)
Definition command_fields (c : Command) : N * string * string * string :=
  match c with
  | SetMetadata key value => (1, key, value, "")
  | DeleteMetadata key => (2, key, "", "")
  | PutControlState ns key value _ => (3, ns, key, value)
  | _ => (0, "", "", "")
  end.

Definition command_of_fields (t : N * string * string * string) : Result Command :=
  match t with
  | (1, key, value, _) => Ok (SetMetadata key value)
  | (2, key, _, _) => Ok (DeleteMetadata key)
  | (3, ns, key, value) => Ok (PutControlState ns key value false)
  | _ => Err (Serialization "command")
  end.

#[local] Instance demo_replication_codec : ReplicationCodec := {
  serialize_entry e := digits (encode (entry_fields e));
  deserialize_entry data :=
    match undigits data ≫= countable.decode with
    | Some (c, t, n) => Ok (mkReplicationEntry c t n)
    | None => Err (Serialization "entry")
    end;
  serialize_command c := digits (encode (command_fields c));
  deserialize_command data :=
    match undigits data ≫= countable.decode with
    | Some t => command_of_fields t
    | None => Err (Serialization "command")
    end }.

Lemma demo_entry_roundtrip e : deserialize_entry (serialize_entry e) = Ok e.
Proof.
  destruct e. cbn [serialize_entry deserialize_entry demo_replication_codec].
  rewrite undigits_digits. cbn [mbind option_bind]. by rewrite decode_encode.
Qed.

Definition demo_ops : list wal_op :=
  [WalAppend "a" 10; WalAppend "b" 11; WalAppend "c" 12; WalRemove 2; WalWatermark 1; WalCompact 1].

Definition demo_wal (ops : list wal_op) : ReplicationLog * gmap N ReplicationEntry :=
  default (replication_log_new ∅ ∅ 7, ∅) (wal_run ops (replication_log_new ∅ ∅ 7) ∅).

Lemma demo_wal_run ops :
  bool_decide (is_Some (wal_run ops (replication_log_new ∅ ∅ 7) ∅)) = true →
  wal_run ops (replication_log_new ∅ ∅ 7) ∅ = Some ((demo_wal ops).1, (demo_wal ops).2).
Proof.
  intros [[l w] Hrun]%bool_decide_eq_true_1. unfold demo_wal. by rewrite Hrun.
Qed.

Lemma wal_refines_map_witness :
  replication_log_new (log_tree (demo_wal demo_ops).1) (meta_tree (demo_wal demo_ops).1) 7
    = (demo_wal demo_ops).1 ∧
  drain_unreplicated (demo_wal demo_ops).1 = Ok [(3, mkReplicationEntry "c" 12 7)].
Proof.
  destruct (wal_refines_map demo_entry_roundtrip demo_ops 7 (demo_wal demo_ops).1
    (demo_wal demo_ops).2) as [Hopen _].
  - apply demo_wal_run. vm_compute. reflexivity.
  - split; [exact Hopen|vm_compute; reflexivity].
Defined.

Definition demo_peers : gmap N PeerReplicationState :=
  {[ 2 := mkPeer 5 100 0 false false; 3 := mkPeer 3 100 0 false false;
     4 := mkPeer 9 100 0 false false ]}.

Lemma watermark_is_quorum_witness :
  compute_ec_watermark demo_peers [1; 2; 3] 1 = Some 5 ∧
  (3 < 2 * count (holds demo_peers 1 5) [1%N; 2%N; 3%N])%nat.
Proof.
  split; [vm_compute; reflexivity|].
  apply (watermark_is_quorum demo_peers [1; 2; 3] 1 5).
  - by apply (bool_decide_unpack _).
  - by left.
  - vm_compute. reflexivity.
Defined.

Lemma demo_represents ops :
  bool_decide (is_Some (wal_run ops (replication_log_new ∅ ∅ 7) ∅)) = true →
  represents (demo_wal ops).1 (demo_wal ops).2.
Proof. intros H%demo_wal_run. eapply wal_run_represents, H. apply fresh_represents. Qed.

Definition demo_set (k v : string) : wal_op := WalAppend (serialize_command (SetMetadata k v)) 10.
Definition demo_sets : list wal_op := [demo_set "/x" "M/x"; demo_set "/y" "M/y"].
Definition demo_batch : list EcReplicationEntry :=
  peer_batch 0 (match drain_unreplicated (demo_wal demo_sets).1 with Ok es => es | Err _ => [] end).
Definition demo_received : FullStateMachine := (replicate_entries demo_rfc3339 demo_batch demo_sm).2.

Lemma demo_received_eq :
  replicate_entries demo_rfc3339 demo_batch demo_sm = (mkReplicateResponse true 2, demo_received).
Proof.
  unfold demo_received. destruct (replicate_entries _ _ _) as [resp sm] eqn:H. cbn [snd]. f_equal.
  assert ((replicate_entries demo_rfc3339 demo_batch demo_sm).1 = mkReplicateResponse true 2) as Hr
    by (vm_compute; reflexivity). by rewrite H in Hr.
Qed.

Lemma acked_means_delivered_witness :
  length demo_batch = 2%nat ∧ ec_deliver demo_rfc3339 (decoded demo_batch) demo_sm = Ok demo_received ∧
  get_metadata demo_received "/y" = Some "M/y".
Proof.
  destruct (drain_unreplicated (demo_wal demo_sets).1) as [es|] eqn:Hes; [|by vm_compute in Hes].
  destruct (acked_means_delivered demo_rfc3339 demo_entry_roundtrip (demo_wal demo_sets).1
    (demo_wal demo_sets).2 es 0 (peer_new 0) (peer_new 0) demo_batch demo_sm 2 demo_received)
    as (_ & _ & _ & Hdel & _).
  - apply rep_log, demo_represents. vm_compute. reflexivity.
  - exact Hes.
  - unfold demo_batch. rewrite Hes. vm_compute in Hes. injection Hes as <-. vm_compute. reflexivity.
  - exact demo_received_eq.
  - split; [vm_compute; reflexivity|]. split; [exact Hdel|vm_compute; reflexivity].
Defined.

Lemma pass_keeps_needed_entries_witness :
  ∃ w', represents (spawn_ec_replications 0 (λ _, 0) [2] [1; 2] 1 10 (demo_wal demo_sets).1 ∅).1.1 w' ∧
    w' !! 1 = (demo_wal demo_sets).2 !! 1.
Proof.
  destruct (spawn_ec_replications 0 (λ _, 0) [2] [1; 2] 1 10 (demo_wal demo_sets).1 ∅) as [[l' peers'] tasks] eqn:Hp.
  destruct ((demo_wal demo_sets).2 !! 1) as [e|] eqn:He; [|by vm_compute in He].
  destruct (pass_keeps_needed_entries 0 (λ _, 0) [2] [1; 2] 1 10 (demo_wal demo_sets).1
    ∅ (demo_wal demo_sets).2 l' peers' tasks) as (_ & _ & w' & Hw' & Hkeep).
  - apply demo_represents. vm_compute. reflexivity.
  - intros id. unfold acked_of. rewrite lookup_empty. vm_compute. reflexivity.
  - reflexivity.
  - exact Hp.
  - exists w'. split; [exact Hw'|]. apply (Hkeep 2); [by left|exact He|..]; vm_compute; reflexivity.
Defined.

Lemma ec_write_logged_or_refused_witness :
  sm_inv demo_sm ∧
  (propose_ec_local (SetMetadata "/z" "M/z") 20 ((demo_wal demo_sets).1, demo_sm)).1 = Ok 3 ∧
  represents (propose_ec_local (SetMetadata "/z" "M/z") 20 ((demo_wal demo_sets).1, demo_sm)).2.1
    (<[3 := mkReplicationEntry (serialize_command (SetMetadata "/z" "M/z")) 20 7]>
       (demo_wal demo_sets).2).
Proof.
  assert (sm_inv demo_sm) as Hi by exact sm_inv_empty. split; [exact Hi|].
  assert ((propose_ec_local (SetMetadata "/z" "M/z") 20 ((demo_wal demo_sets).1, demo_sm)).1 = Ok 3)
    as Hok by (vm_compute; reflexivity). split; [exact Hok|].
  pose proof (ec_write_logged_or_refused (SetMetadata "/z" "M/z") 20 (demo_wal demo_sets).1
    (demo_wal demo_sets).2 demo_sm Hi eq_refl (demo_represents demo_sets eq_refl) eq_refl eq_refl) as H.
  destruct (propose_ec_local _ _ _) as [[seq|e] [l' sm']]; cbn [fst snd] in *; [|discriminate Hok].
  injection Hok as ->. destruct H as (_ & _ & H & _). exact H.
Defined.
