(* ===== verification/Anomalies.v ===== *)
(** * Behaviours the code does not intend

    Concrete executions in which the modelled code departs from what its
    comments or its callers promise.  Each is a closed computation over the
    definitions of the other files. *)

From S2P Require Import Prelude Bytes Codec Table LockState Command StreamTier Version.
From S2P Require Import VersionProofs Records Rename StateMachine Eventual Replica Recovery.
From S2P Require Import Replication ReplicationProofs.

Local Open Scope N_scope.

#[local] Existing Instance demo_codec.
#[local] Existing Instance demo_replication_codec.

(** ** Counters *)

(** The mount reference counter of a zone, zone_manager.rs. *)
Definition I_LINKS_COUNT_KEY : string := "__i_links_count__".

Definition linked_zone : FullStateMachine :=
  demo_replay [(1, AdjustCounter I_LINKS_COUNT_KEY 2)].
Definition linked_follower : FullStateMachine := restore_snapshot (snapshot linked_zone) demo_sm.

(** A follower installed from a snapshot loses the replicated mount
    reference counter: the counter's key is internal, [snapshot] leaves it out,
    and the next unmount entry gives one remaining reference on the leader and
    none on the follower. *)
Theorem snapshot_drops_link_count :
  outcome_result (apply 2 (AdjustCounter I_LINKS_COUNT_KEY (-1)) linked_zone)
    = Some (Value (i64_to_be 1)) ∧
  outcome_result (apply 2 (AdjustCounter I_LINKS_COUNT_KEY (-1)) linked_follower)
    = Some (Value (i64_to_be 0)).
Proof. split; vm_compute; reflexivity. Qed.

(** A counter at the top of its range is reset by the next increment: the
    sum wraps to a negative number, which the floor turns into zero. *)
Theorem counter_overflow_resets :
  outcome_result (apply 2 (AdjustCounter "/n" 1) (demo_replay [(1, AdjustCounter "/n" I64_MAX)]))
    = Some (Value (i64_to_be 0)).
Proof. vm_compute. reflexivity. Qed.

(** ** The version scan *)

(** One stored value makes every replica hang: after a committed write of a
    value whose length prefix wraps the scan index, a committed compare-and-set
    on the same path never returns from [apply], on this replica, on every
    other, and again after a restart. *)
Theorem cas_hangs_every_replica :
  apply 2 (CasSetMetadata "/x" "v" 1) (demo_replay [(1, SetMetadata "/x" wrapping_value)]) = Hung ∧
  ∀ sm, new (sm_db (demo_replay [(1, SetMetadata "/x" wrapping_value)])) = Ok sm →
    apply 2 (CasSetMetadata "/x" "v" 1) sm = Hung.
Proof. split; [vm_compute; reflexivity|]. intros sm [= <-]. vm_compute. reflexivity. Qed.

(** ** Eventually consistent writes *)

Definition ec_log : ReplicationLog := replication_log_new ∅ ∅ 1.

(** A single-voter zone with a stored snapshot takes a local write; the pass
    after it reports the write committed. *)
Definition lone_zone : FullStateMachine := demo_replay [(1, SetMetadata "/a" "M/a")].
Definition lone_written : ReplicationLog * FullStateMachine :=
  (propose_ec_local (SetMetadata "/x" "M/x") 10 (ec_log, lone_zone)).2.
Definition lone_passed : ReplicationLog :=
  (spawn_ec_replications 0 (λ _, 0) [] [1] 1 10000 lone_written.1 ∅).1.1.

(** A write the log reports as committed is gone after a restart: booting
    restores the stored raft snapshot over the whole metadata tree and nothing
    re-applies the write-ahead log, although the reopened log still answers
    "committed" for the token. *)
Theorem boot_drops_committed_ec_write :
  is_committed 1 lone_passed = Some TokenCommitted ∧
  get_metadata lone_written.2 "/x" = Some "M/x" ∧
  is_committed 1 (replication_log_new (log_tree lone_passed) (meta_tree lone_passed) 1)
    = Some TokenCommitted ∧
  match open_state_machine demo_deserialize (sm_db lone_written.2)
          (Some (1, snapshot_bytes demo_serialize lone_zone)) Managed with
  | Ok booted => get_metadata booted "/a" = Some "M/a" ∧ get_metadata booted "/x" = None
  | Err _ => False
  end.
Proof.
  split; [vm_compute; reflexivity|]. split; [vm_compute; reflexivity|].
  split; [vm_compute; reflexivity|]. vm_compute. split; reflexivity.
Qed.

(** A pass has nothing for a peer that acknowledged every entry it sees. *)
Definition drained (l : ReplicationLog) : list (N * ReplicationEntry) :=
  match drain_unreplicated l with Ok es => es | Err _ => [] end.

Lemma visit_nothing now earliest es p :
  peer_batch (acked_seq p) es = [] → earliest ≤ acked_seq p →
  (visit_peer now earliest es p).2 = NoSend.
Proof.
  intros Hb He. unfold visit_peer, visit_incremental. rewrite (proj2 (N.leb_le _ _) He).
  cbn [acked_seq set_needs_snapshot]. rewrite Hb. by repeat case_match.
Qed.

Lemma pass_idle now created peer_id voters self retention l peers p :
  (2 ≤ length voters)%nat → peers !! peer_id = Some p → is_ok (drain_unreplicated l) = true →
  peer_batch (acked_seq p) (drained l) = [] → earliest_seq l ≤ acked_seq p →
  (spawn_ec_replications now created [peer_id] voters self retention l peers).2 = [].
Proof.
  intros Hv Hp Hok Hb He. unfold spawn_ec_replications. cbv zeta.
  destruct (Nat.leb_spec (length voters) 1); [lia|]. cbn [andb].
  unfold drained in Hb. destruct (drain_unreplicated l) as [es|]; [|done].
  destruct (_ && _); [done|]. cbn [visit_peers]. rewrite Hp. simpl default.
  pose proof (visit_nothing now (earliest_seq l) es p Hb He) as Hn.
  destruct (visit_peer now (earliest_seq l) es p) as [p' v]. cbn [snd] in Hn. by subst v.
Qed.

(** Two concurrent local writes: the second commits its log entry first, and a
    pass and its acknowledgement come in between. *)
Definition race_log1 : ReplicationLog :=
  append_commit 2 (serialize_command (SetMetadata "/b" "M/b")) 10
    (append_alloc (append_alloc ec_log).2).2.
Definition race_pass1 : ReplicationLog * gmap N PeerReplicationState * list send_task :=
  spawn_ec_replications 0 (λ _, 0) [2] [1; 2] 1 10000 race_log1 ∅.
Definition race_acked : gmap N PeerReplicationState := handle_completion 1 (Acked 2 2) race_pass1.1.2.
Definition race_log2 : ReplicationLog :=
  append_commit 1 (serialize_command (SetMetadata "/a" "M/a")) 10 race_pass1.1.1.

(** An entry whose transaction commits after a later one was acknowledged
    is never sent: the sequence number is taken before the transaction, the
    pass filters by the highest acknowledgement, so the earlier entry stays in
    the log and no pass offers it to the peer. *)
Theorem late_append_never_sent :
  match race_pass1.2 with [BatchTask 2 [e]] => ee_seq e = 2 | _ => False end ∧
  match drain_unreplicated race_log2 with
  | Ok es => es.*1 = [1; 2]
  | Err _ => False
  end ∧
  ∀ now created, (spawn_ec_replications now created [2] [1; 2] 1 10000 race_log2 race_acked).2 = [].
Proof.
  split; [vm_compute; reflexivity|]. split; [vm_compute; reflexivity|].
  intros now created. destruct (race_acked !! 2) as [p|] eqn:Hp; [|vm_compute in Hp; discriminate Hp].
  apply (pass_idle now created 2 [1; 2] 1 10000 race_log2 race_acked p); [done|exact Hp|..];
    vm_compute in Hp; injection Hp as <-; vm_compute; done.
Qed.

(** A peer behind the compacted log; a local write has its log entry but not
    yet its local apply when a pass dispatches the snapshot. *)
Definition snap_sm : FullStateMachine :=
  (propose_ec_local (SetMetadata "/a" "M/a") 10 (ec_log, demo_sm)).2.2.
Definition snap_log0 : ReplicationLog :=
  (compact 1 (propose_ec_local (SetMetadata "/a" "M/a") 10 (ec_log, demo_sm)).2.1).2.
Definition snap_write : Command := SetMetadata "/x" "M/x".
Definition snap_log1 : ReplicationLog := (append (serialize_command snap_write) 11 snap_log0).2.
Definition snap_pass : ReplicationLog * gmap N PeerReplicationState * list send_task :=
  spawn_ec_replications 5 (λ _, 0) [2] [1; 2] 1 10000 snap_log1 {[2 := mkPeer 0 100 0 true false]}.
(** The dispatched task reads the state before the write is applied. *)
Definition snap_image : list EcReplicationEntry :=
  match ec_state_snapshot snap_sm with
  | Ok cmds => (λ c, mkEcEntry 2 (serialize_command c) 0 1) <$> cmds
  | Err _ => []
  end.
Definition snap_applied : FullStateMachine :=
  match apply_local snap_write snap_sm with Ok (_, sm) => sm | Err _ => snap_sm end.
Definition snap_peer : ReplicateResponse * FullStateMachine :=
  snapshot_ec_state demo_rfc3339 snap_image 2 demo_sm.
Definition snap_acked : gmap N PeerReplicationState := handle_completion 6 (Acked 2 2) snap_pass.1.2.

(** An anti-entropy snapshot can acknowledge a write it does not carry: the
    covering sequence number counts a write whose log entry precedes its local
    apply, the state is read before that apply, the peer acknowledges the
    covering number, and no later pass sends the write; the sender has the row,
    the peer never gets it. *)
Theorem snapshot_ack_skips_write :
  snap_pass.2 = [SnapshotTask 2 2] ∧
  rr_success snap_peer.1 = true ∧ rr_applied_up_to snap_peer.1 = 2 ∧
  get_metadata snap_applied "/x" = Some "M/x" ∧
  get_metadata snap_peer.2 "/a" = Some "M/a" ∧ get_metadata snap_peer.2 "/x" = None ∧
  ∀ now created, (spawn_ec_replications now created [2] [1; 2] 1 10000 snap_pass.1.1 snap_acked).2 = [].
Proof.
  split; [vm_compute; reflexivity|]. split; [vm_compute; reflexivity|].
  split; [vm_compute; reflexivity|]. split; [vm_compute; reflexivity|].
  split; [vm_compute; reflexivity|]. split; [vm_compute; reflexivity|].
  intros now created. destruct (snap_acked !! 2) as [p|] eqn:Hp; [|vm_compute in Hp; discriminate Hp].
  apply (pass_idle now created 2 [1; 2] 1 10000 snap_pass.1.1 snap_acked p); [done|exact Hp|..];
    vm_compute in Hp; injection Hp as <-; vm_compute; done.
Qed.

(** A control record and then an ordinary row, both accepted locally. *)
Definition ctl_written : ReplicationLog * FullStateMachine :=
  (propose_ec_local (SetMetadata "/y" "M/y") 11
     (propose_ec_local (PutControlState "app" "k" "v" false) 10 (ec_log, demo_sm)).2).2.
Definition ctl_batch : list EcReplicationEntry :=
  match drain_unreplicated ctl_written.1 with Ok es => peer_batch 0 es | Err _ => [] end.

(** A local write the peers cannot take stalls the whole stream:
    [apply_local] accepts a control record, [apply_ec_with_lww] refuses it on
    every peer, the refusal fails the batch, and since the failed batch is
    retried from the same place the row behind it never reaches the peer. *)
Theorem ec_control_write_stalls_peer :
  get_control_state ctl_written.2 "app" "k" = Some "v" ∧
  get_metadata ctl_written.2 "/y" = Some "M/y" ∧
  ee_seq <$> ctl_batch = [1; 2] ∧
  client_result (replicate_entries demo_rfc3339 ctl_batch demo_sm).1 = None ∧
  (replicate_entries demo_rfc3339 ctl_batch demo_sm).2 = demo_sm.
Proof.
  split; [vm_compute; reflexivity|]. split; [vm_compute; reflexivity|].
  split; [vm_compute; reflexivity|]. split; vm_compute; reflexivity.
Qed.

(** A row both replicas have, deleted on one of them. *)
Definition del_peer : FullStateMachine :=
  (propose_ec_local (SetMetadata "/x" "M/x") 10 (ec_log, demo_sm)).2.2.
Definition del_sender : FullStateMachine :=
  (propose_ec_local (DeleteMetadata "/x") 11 (ec_log, del_peer)).2.2.

(** A peer that catches up by snapshot keeps rows the sender has deleted:
    the image carries the rows that exist, no deletions, and the peer
    acknowledges it as complete. *)
Theorem anti_entropy_keeps_deleted_rows :
  get_metadata del_sender "/x" = None ∧ get_metadata del_peer "/x" = Some "M/x" ∧
  match ec_state_snapshot del_sender with
  | Ok cmds =>
      match snapshot_ec_state demo_rfc3339 ((λ c, mkEcEntry 2 (serialize_command c) 0 1) <$> cmds) 2
              del_peer with
      | (resp, peer) => client_result resp = Some 2 ∧ get_metadata peer "/x" = Some "M/x"
      end
  | Err _ => False
  end.
Proof.
  split; [vm_compute; reflexivity|]. split; [vm_compute; reflexivity|].
  vm_compute. split; reflexivity.
Qed.
