(* ===== verification/RaftStorage.v ===== *)
(** * The raft log storage

    src/rust/raft/src/raft/storage.rs: [RaftStorage], the persistent log, hard
    state, membership and snapshot behind raft-rs's [Storage] trait, and the
    snapshot-and-compact step of src/rust/raft/src/raft/node.rs. *)

From S2P Require Import Prelude Bytes Codec Table LockState Command StreamTier.

Local Open Scope N_scope.

(** ** Messages of raft-rs *)

Record Entry := mkEntryMsg {
  e_index : N;
  e_term : N;
  e_type : N;
  e_data : string }.

Record HardState := mkHardState { hs_term : N; hs_vote : N; hs_commit : N }.

Record ConfState := mkConfState { cs_voters : list N; cs_learners : list N }.

Record RaftSnapshot := mkRaftSnapshot {
  sn_index : N;
  sn_term : N;
  sn_conf_state : ConfState;
  sn_data : string }.

Definition hard_state_default : HardState := mkHardState 0 0 0.
Definition conf_state_default : ConfState := mkConfState [] [].
Definition snapshot_default : RaftSnapshot := mkRaftSnapshot 0 0 conf_state_default "".

(** The generated protobuf codec of raft-rs. *)
Class RaftCodec := {
  write_entry : Entry → string;
  parse_entry : string → Result Entry;
  entry_size : Entry → N;
  write_hard_state : HardState → string;
  parse_hard_state : string → Result HardState;
  write_conf_state : ConfState → string;
  parse_conf_state : string → Result ConfState;
  write_snapshot : RaftSnapshot → string;
  parse_snapshot : string → Result RaftSnapshot }.

(** [raft::Error] as the storage returns it. *)
Inductive StoreError :=
  | Compacted
  | Unavailable
  | SnapshotTemporarilyUnavailable
  | Other (e : RaftError).

Definition to_raft_error {A} (r : Result A) : result StoreError A :=
  match r with Ok a => Ok a | Err e => Err (Other e) end.

(** ** The storage *)

Record RaftStorage := mkRaftStorage {
  rs_entries : gmap string string;
  rs_state : gmap string string }.

Definition KEY_HARD_STATE : string := "hard_state".
Definition KEY_CONF_STATE : string := "conf_state".
Definition KEY_SNAPSHOT : string := "snapshot".
Definition KEY_FIRST_INDEX : string := "first_index".

(** [RaftStorage::new] over the two trees. *)
Definition raft_storage_new (s : RaftStorage) : RaftStorage :=
  match rs_state s !! KEY_FIRST_INDEX with
  | Some _ => s
  | None => mkRaftStorage (rs_entries s) (<[KEY_FIRST_INDEX := u64_to_be 1]> (rs_state s))
  end.

Definition first_index (s : RaftStorage) : Result N :=
  match rs_state s !! KEY_FIRST_INDEX with
  | Some bytes =>
      match u64_from_be bytes with
      | Some first => Ok first
      | None => Err (Storage "invalid first_index")
      end
  | None => Ok 1
  end.

Definition last_index (s : RaftStorage) : Result N :=
  first ← first_index s;
  match last (entries (rs_entries s)) with
  | None => mret (first - 1)
  | Some (key, _) =>
      match u64_from_be key with
      | Some index => mret index
      | None => Err (Storage "invalid entry key")
      end
  end.

Section codec.
Context `{RC : RaftCodec}.

(** [append]: one batch of inserts. *)
Definition storage_append (es : list Entry) (s : RaftStorage) : RaftStorage :=
  mkRaftStorage
    (foldl (λ m e, <[u64_to_be (e_index e) := write_entry e]> m) (rs_entries s) es) (rs_state s).

Definition set_hard_state (hs : HardState) (s : RaftStorage) : RaftStorage :=
  mkRaftStorage (rs_entries s) (<[KEY_HARD_STATE := write_hard_state hs]> (rs_state s)).

Definition set_conf_state (cs : ConfState) (s : RaftStorage) : RaftStorage :=
  mkRaftStorage (rs_entries s) (<[KEY_CONF_STATE := write_conf_state cs]> (rs_state s)).

Definition conf_state (s : RaftStorage) : Result ConfState :=
  match rs_state s !! KEY_CONF_STATE with
  | Some bytes => parse_conf_state bytes
  | None => Ok conf_state_default
  end.

Definition hard_state (s : RaftStorage) : Result HardState :=
  match rs_state s !! KEY_HARD_STATE with
  | Some bytes => parse_hard_state bytes
  | None => Ok hard_state_default
  end.

(** Commit and term advanced to at least the snapshot's; the vote is kept. *)
Definition advance_hard_state (hs : HardState) (snap : RaftSnapshot) : HardState :=
  mkHardState
    (if hs_term hs <? sn_term snap then sn_term snap else hs_term hs)
    (hs_vote hs)
    (if hs_commit hs <? sn_index snap then sn_index snap else hs_commit hs).

Definition store_snapshot (snap : RaftSnapshot) (s : RaftStorage) : Result RaftStorage :=
  hs ← hard_state s;
  mret (mkRaftStorage (rs_entries s)
    (<[KEY_HARD_STATE := write_hard_state (advance_hard_state hs snap)]>
       (<[KEY_SNAPSHOT := write_snapshot snap]> (rs_state s)))).

Definition apply_snapshot (snap : RaftSnapshot) (s : RaftStorage) : Result RaftStorage :=
  hs ← hard_state s;
  mret (mkRaftStorage ∅
    (<[KEY_HARD_STATE := write_hard_state (advance_hard_state hs snap)]>
       (<[KEY_CONF_STATE := write_conf_state (sn_conf_state snap)]>
          (<[KEY_SNAPSHOT := write_snapshot snap]>
             (<[KEY_FIRST_INDEX := u64_to_be (wrap64 (sn_index snap + 1))]> (rs_state s)))))).

(** The two transactions of [compact]: the entries, then the first index. *)
Definition compact_entries (first compact_index : N) (s : RaftStorage) : RaftStorage :=
  mkRaftStorage (foldr delete (rs_entries s) (u64_to_be <$> seq_range first compact_index))
    (rs_state s).

Definition set_first_index (index : N) (s : RaftStorage) : RaftStorage :=
  mkRaftStorage (rs_entries s) (<[KEY_FIRST_INDEX := u64_to_be index]> (rs_state s)).

Definition storage_compact (compact_index : N) (s : RaftStorage) : Result RaftStorage :=
  first ← first_index s;
  if compact_index <=? first then mret s
  else mret (set_first_index compact_index (compact_entries first compact_index s)).

Definition get_entry (index : N) (s : RaftStorage) : Result (option Entry) :=
  match rs_entries s !! u64_to_be index with
  | Some bytes => entry ← parse_entry bytes; mret (Some entry)
  | None => Ok None
  end.

(** ** The [Storage] trait *)

Definition initial_state (s : RaftStorage) : result StoreError (HardState * ConfState) :=
  hs ← to_raft_error (hard_state s);
  cs ← to_raft_error (conf_state s);
  mret (hs, cs).

(** The loop of [entries]; [acc] is empty until the first entry is taken. *)
Fixpoint entries_loop (max_size : N) (indices : list N) (size : N) (taken : bool)
    (s : RaftStorage) : result StoreError (list Entry) :=
  match indices with
  | [] => Ok []
  | idx :: indices =>
      entry ← to_raft_error (get_entry idx s);
      match entry with
      | None => Err Unavailable
      | Some entry =>
          let entry_size := entry_size entry in
          if taken && (max_size <? wrap64 (size + entry_size)) then Ok []
          else
            rest ← entries_loop max_size indices (wrap64 (size + entry_size)) true s;
            mret (entry :: rest)
      end
  end.

Definition storage_entries (low high : N) (max_size : option N) (s : RaftStorage) :
    result StoreError (list Entry) :=
  first ← to_raft_error (first_index s);
  last ← to_raft_error (last_index s);
  if low <? first then Err Compacted
  else if wrap64 (last + 1) <? high then Err Unavailable
  else entries_loop (default U64_MAX max_size) (seq_range low high) 0 false s.

Definition storage_snapshot (request_index : N) (s : RaftStorage) :
    result StoreError RaftSnapshot :=
  match rs_state s !! KEY_SNAPSHOT with
  | Some bytes =>
      snapshot ← to_raft_error (parse_snapshot bytes);
      if sn_index snapshot <? request_index then Err SnapshotTemporarilyUnavailable
      else mret snapshot
  | None =>
      if request_index =? 0 then Ok snapshot_default else Err SnapshotTemporarilyUnavailable
  end.

Definition storage_term (idx : N) (s : RaftStorage) : result StoreError N :=
  first ← to_raft_error (first_index s);
  if idx <? first then
    match storage_snapshot 0 s with
    | Ok snap => if sn_index snap =? idx then Ok (sn_term snap) else Err Compacted
    | Err _ => Err Compacted
    end
  else
    entry ← to_raft_error (get_entry idx s);
    match entry with
    | Some entry => Ok (e_term entry)
    | None => Err Unavailable
    end.

(** ** Snapshot and compact: node.rs *)

(** The decision of [maybe_snapshot_and_compact]: whether to snapshot at
    [applied], given the threshold, the growth gate and the membership flag. *)
Definition wants_snapshot (threshold last_index last_index_at_snapshot first applied : N)
    (membership_changed : bool) : bool :=
  if threshold =? 0 then false
  else if (last_index - last_index_at_snapshot <? threshold) && negb membership_changed then false
  else if membership_changed && (1 <? first) then first <=? applied
  else (first <? applied) && (threshold <=? applied - first).

(** Its effect on the storage at [applied] with the state machine image
    [data]: nothing if the term of [applied] cannot be read. *)
Definition snapshot_and_compact (applied : N) (data : string) (s : RaftStorage) :
    Result RaftStorage :=
  match storage_term applied s with
  | Err _ => mret s
  | Ok term =>
      cs ← conf_state s;
      s ← store_snapshot (mkRaftSnapshot applied term cs data) s;
      storage_compact (wrap64 (applied + 1)) s
  end.
End codec.
