(* ===== verification/RaftStorageProofs.v ===== *)
(** * Properties of the raft log storage

    The storage refines a log that is a list of entries from a first index on,
    with a hard state, a membership and a snapshot; installing or taking a
    snapshot keeps what a restart needs; and two states it can reach that a
    restart does not survive. *)

From S2P Require Import Prelude Bytes Codec Table LockState Command StreamTier StreamProofs.
From S2P Require Import Recovery Replication ReplicationProofs RaftStorage.

Local Open Scope N_scope.

Lemma entries_range {V} (m : gmap string V) : entries m = range "" Unbounded m.
Proof.
  unfold range. induction (entries m) as [|[k v] l IH]; [done|]. rewrite filter_cons, <-IH.
  rewrite decide_True; [done|]. cbn [below fst]. by rewrite leb_nil.
Qed.

(** ** The abstract log *)

Record RaftLog := mkRaftLog {
  al_first : N;
  al_entries : list Entry;
  al_hard : HardState;
  al_conf : ConfState;
  al_snapshot : RaftSnapshot }.

Definition al_last (a : RaftLog) : N := al_first a + N.of_nat (length (al_entries a)) - 1.

(** Entries with consecutive indices from [i] on. *)
Definition consecutive (i : N) (es : list Entry) : Prop :=
  ∀ j e, es !! j = Some e → e_index e = i + N.of_nat j.

Section storage.
Context `{RC : RaftCodec}.
(** The generated codec reads back what it wrote. *)
Hypothesis entry_parses : ∀ e, parse_entry (write_entry e) = Ok e.
Hypothesis hard_state_parses : ∀ hs, parse_hard_state (write_hard_state hs) = Ok hs.
Hypothesis conf_state_parses : ∀ cs, parse_conf_state (write_conf_state cs) = Ok cs.
Hypothesis snapshot_parses : ∀ sn, parse_snapshot (write_snapshot sn) = Ok sn.

Record stores (s : RaftStorage) (a : RaftLog) : Prop := {
  st_first : rs_state s !! KEY_FIRST_INDEX = Some (u64_to_be (al_first a));
  st_bounds : 1 ≤ al_first a ∧ al_first a + N.of_nat (length (al_entries a)) < U64_MOD;
  st_rows : ∀ k v, rs_entries s !! k = Some v ↔
    ∃ j e, al_entries a !! j = Some e ∧ k = u64_to_be (al_first a + N.of_nat j) ∧ v = write_entry e;
  st_index : consecutive (al_first a) (al_entries a);
  st_hard : hard_state s = Ok (al_hard a);
  st_conf : conf_state s = Ok (al_conf a);
  st_snapshot : storage_snapshot 0 s = Ok (al_snapshot a) }.

Lemma index_bound a j (e : Entry) :
  al_first a + N.of_nat (length (al_entries a)) < U64_MOD → al_entries a !! j = Some e →
  al_first a + N.of_nat j < U64_MOD.
Proof. intros Hb Hj%lookup_lt_Some. lia. Qed.

(** ** Reads *)

Lemma first_index_eq s a : stores s a → first_index s = Ok (al_first a).
Proof.
  intros Hs. unfold first_index. rewrite (st_first _ _ Hs). pose proof (st_bounds _ _ Hs) as [_ Hb].
  by rewrite u64_from_to_be by lia.
Qed.

Lemma get_entry_eq s a i :
  stores s a → i < U64_MOD → get_entry i s =
    Ok (if i <? al_first a then None else al_entries a !! N.to_nat (i - al_first a)).
Proof.
  intros Hs Hi. unfold get_entry. pose proof (st_bounds _ _ Hs) as [_ Hb].
  destruct (rs_entries s !! u64_to_be i) as [v|] eqn:Hk.
  - apply (st_rows _ _ Hs) in Hk as (j & e & Hj & Hk & ->). rewrite entry_parses. cbn [mbind result_bind].
    apply u64_to_be_inj in Hk; [|done|by eapply index_bound]. subst i.
    rewrite (proj2 (N.ltb_ge _ _)) by lia. replace (N.to_nat _) with j by lia. by rewrite Hj.
  - destruct (N.ltb_spec i (al_first a)) as [|Hge]; [done|].
    destruct (al_entries a !! N.to_nat (i - al_first a)) as [e|] eqn:He; [|done].
    assert (rs_entries s !! u64_to_be i = Some (write_entry e)) as Hk'; [|congruence].
    apply (st_rows _ _ Hs). eexists _, e. split; [exact He|]. split; [|done]. f_equal. lia.
Qed.

Lemma last_index_eq s a : stores s a → last_index s = Ok (al_last a).
Proof.
  intros Hs. unfold last_index. rewrite (first_index_eq s a Hs). cbn [mbind result_bind].
  pose proof (st_bounds _ _ Hs) as [Hb1 Hb2]. rewrite entries_range. unfold al_last.
  destruct (last (al_entries a)) as [e|] eqn:Hlast.
  - rewrite last_lookup in Hlast. set (j := pred (length (al_entries a))) in *.
    pose proof (lookup_lt_Some _ _ _ Hlast) as Hlt.
    assert (last (range "" Unbounded (rs_entries s)) =
      Some (u64_to_be (al_first a + N.of_nat j), write_entry e)) as ->.
    { apply next_back_Some. split; [apply leb_nil|]. split; [done|]. split.
      - apply (st_rows _ _ Hs). eauto.
      - intros k v (j' & e' & Hj' & -> & _)%(st_rows _ _ Hs) _ _.
        pose proof (lookup_lt_Some _ _ _ Hj'). rewrite leb_u64 by lia. apply N.leb_le.
        unfold j in *. lia. }
    rewrite u64_from_to_be by (unfold j in *; lia). unfold mret, result_ret. f_equal.
    unfold j in *. lia.
  - apply last_None in Hlast. rewrite Hlast.
    assert (last (range "" Unbounded (rs_entries s)) = None) as ->.
    { apply next_back_None. intros k v (j & e & Hj & _)%(st_rows _ _ Hs). by rewrite Hlast in Hj. }
    cbn. f_equal. lia.
Qed.

Definition slice (a : RaftLog) (low high : N) : list Entry :=
  take (N.to_nat (high - low)) (drop (N.to_nat (low - al_first a)) (al_entries a)).

Lemma entries_loop_prefix max_size n low size taken s a :
  stores s a → al_first a ≤ low → low + N.of_nat n ≤ al_first a + N.of_nat (length (al_entries a)) →
  ∃ es, entries_loop max_size ((λ i, low + N.of_nat i) <$> seq 0 n) size taken s = Ok es ∧
    es `prefix_of` slice a low (low + N.of_nat n) ∧
    (max_size = U64_MAX → es = slice a low (low + N.of_nat n)) ∧
    (taken = false → n ≠ O → es ≠ []).
Proof.
  intros Hs. revert low size taken. induction n as [|n IH]; intros low size taken Hlow Hhigh.
  { exists []. split; [done|]. unfold slice. replace (N.to_nat _) with O by lia. by rewrite take_0. }
  pose proof (st_bounds _ _ Hs) as [Hb1 Hb2].
  rewrite <-cons_seq. cbn [fmap list_fmap entries_loop]. rewrite N.add_0_r.
  rewrite (get_entry_eq s a) by (done || lia). cbn [to_raft_error mbind result_bind].
  rewrite (proj2 (N.ltb_ge _ _)) by done.
  destruct (al_entries a !! N.to_nat (low - al_first a)) as [e|] eqn:He.
  2:{ apply lookup_ge_None in He. lia. }
  assert (slice a low (low + N.of_nat (S n)) = e :: slice a (low + 1) (low + 1 + N.of_nat n)) as Hsl.
  { unfold slice. replace (N.to_nat (low + N.of_nat (S n) - low)) with (S n) by lia.
    replace (N.to_nat (low + 1 + N.of_nat n - (low + 1))) with n by lia.
    replace (N.to_nat (low + 1 - al_first a)) with (S (N.to_nat (low - al_first a))) by lia.
    by rewrite (drop_S _ _ _ He). }
  rewrite Hsl. destruct (taken && _) eqn:Hstop.
  { exists []. split; [done|]. split; [by apply prefix_nil|]. split; [|by destruct taken].
    intros ->. apply andb_true_iff in Hstop as [_ Hstop%N.ltb_lt]. exfalso.
    assert (wrap64 (size + entry_size e) < U64_MOD) by (by apply N.mod_lt).
    rewrite U64_MOD_MAX in *. lia. }
  destruct (IH (low + 1) (wrap64 (size + entry_size e)) true) as (es & Hes & Hpre & Hfull & _); [lia..|].
  assert ((λ i, low + N.of_nat i) <$> seq 1 n = (λ i, low + 1 + N.of_nat i) <$> seq 0 n) as Hseq.
  { rewrite <-fmap_S_seq, <-list_fmap_compose. apply list_fmap_ext. intros i x _. unfold compose. lia. }
  rewrite Hseq, Hes. cbn [mbind result_bind]. eexists. split; [done|].
  split; [by apply prefix_cons|]. split; [|done]. intros H. by rewrite Hfull.
Qed.

Lemma seq_range_seq low n : seq_range low (low + N.of_nat n) = (λ i, low + N.of_nat i) <$> seq 0 n.
Proof. unfold seq_range. by replace (N.to_nat (low + N.of_nat n - low)) with n by lia. Qed.

Lemma storage_entries_eq s a low high max_size :
  stores s a → al_first a ≤ low → low ≤ high → high ≤ al_last a + 1 →
  ∃ es, storage_entries low high max_size s = Ok es ∧ es `prefix_of` slice a low high ∧
    (max_size = None → es = slice a low high) ∧ (low < high → es ≠ []).
Proof.
  intros Hs Hlow Hlh Hhigh. pose proof (st_bounds _ _ Hs) as [Hb1 Hb2].
  unfold storage_entries. rewrite (first_index_eq s a Hs), (last_index_eq s a Hs).
  cbn [to_raft_error mbind result_bind]. unfold al_last in *.
  rewrite (proj2 (N.ltb_ge low _)) by done. rewrite wrap64_small by lia.
  rewrite (proj2 (N.ltb_ge _ high)) by done.
  assert (∃ n, high = low + N.of_nat n) as [n ->] by (exists (N.to_nat (high - low)); lia).
  rewrite seq_range_seq.
  destruct (entries_loop_prefix (default U64_MAX max_size) n low 0 false s a Hs Hlow)
    as (es & Hes & Hpre & Hfull & Hne); [lia|].
  exists es. split_and!; [done|done| |].
  - intros ->. by apply Hfull.
  - intros Hlt. apply Hne; [done|lia].
Qed.

Lemma storage_entries_compacted s a low high max_size :
  stores s a → low < al_first a → storage_entries low high max_size s = Err RaftStorage.Compacted.
Proof.
  intros Hs Hlow. unfold storage_entries. rewrite (first_index_eq s a Hs), (last_index_eq s a Hs).
  cbn [to_raft_error mbind result_bind]. by rewrite (proj2 (N.ltb_lt _ _)).
Qed.

Lemma storage_term_eq s a idx :
  stores s a → idx < U64_MOD → storage_term idx s =
    if idx <? al_first a then
      (if sn_index (al_snapshot a) =? idx then Ok (sn_term (al_snapshot a)) else Err RaftStorage.Compacted)
    else match al_entries a !! N.to_nat (idx - al_first a) with
         | Some e => Ok (e_term e)
         | None => Err Unavailable
         end.
Proof.
  intros Hs Hi. unfold storage_term. rewrite (first_index_eq s a Hs), (get_entry_eq s a idx Hs Hi).
  cbn [to_raft_error mbind result_bind]. rewrite (st_snapshot _ _ Hs).
  by destruct (idx <? al_first a).
Qed.

(** ** Operations *)

Lemma foldl_insert_rows i es (m : gmap string string) k v :
  consecutive i es → i + N.of_nat (length es) < U64_MOD →
  foldl (λ m e, <[u64_to_be (e_index e) := write_entry e]> m) m es !! k = Some v ↔
  (∃ j e, es !! j = Some e ∧ k = u64_to_be (i + N.of_nat j) ∧ v = write_entry e) ∨
  ((∀ j, (j < length es)%nat → k ≠ u64_to_be (i + N.of_nat j)) ∧ m !! k = Some v).
Proof.
  revert i m. induction es as [|e es IH]; intros i m Hc Hb; cbn [foldl length] in *.
  { split; [right; split; [intros; lia|done]|intros [(j & e & Hj & _)|[_ H]]; done]. }
  assert (e_index e = i) as Hi by (rewrite (Hc 0%nat e eq_refl); lia).
  rewrite (IH (i + 1)); [|intros j e' Hj; rewrite (Hc (S j) e' Hj); lia|lia].
  rewrite lookup_insert_Some, Hi. split.
  - intros [(j & e' & Hj & -> & ->)|[Hn [[<- <-]|[Hne Hk]]]].
    + left. exists (S j), e'. split; [done|]. split; [f_equal; lia|done].
    + left. exists 0%nat, e. split; [done|]. split; [f_equal; lia|done].
    + right. split; [|done]. intros [|j] Hj; [by rewrite N.add_0_r|].
      replace (i + N.of_nat (S j)) with (i + 1 + N.of_nat j) by lia. apply Hn. lia.
  - intros [([|j] & e' & Hj & -> & ->)|[Hn Hk]].
    + right. cbn in Hj. injection Hj as <-. rewrite N.add_0_r. split; [|by left].
      intros j Hj He%u64_to_be_inj; lia.
    + left. exists j, e'. split; [done|]. split; [f_equal; lia|done].
    + right. split.
      * intros j Hj. replace (i + 1 + N.of_nat j) with (i + N.of_nat (S j)) by lia. apply Hn. lia.
      * right. split; [|done]. specialize (Hn 0%nat ltac:(lia)). rewrite N.add_0_r in Hn. done.
Qed.

(** The entries from position [k] on replaced by [es]: what the batch of inserts
    does, which keeps what the log had beyond [es]. *)
Definition overwrite (k : nat) (es l : list Entry) : list Entry :=
  take k l ++ es ++ drop (k + length es) l.

Lemma overwrite_lookup k es l j :
  (k ≤ length l)%nat →
  overwrite k es l !! j =
    if decide (k ≤ j < k + length es)%nat then es !! (j - k)%nat else l !! j.
Proof.
  intros Hk. unfold overwrite. assert (length (take k l) = k) as Htk by (rewrite length_take; lia).
  destruct (decide (j < k)%nat) as [Hlt|Hge].
  { rewrite lookup_app_l, lookup_take_lt by lia. by rewrite decide_False by lia. }
  rewrite lookup_app_r, Htk by lia. case_decide.
  - by rewrite lookup_app_l by lia.
  - rewrite lookup_app_r, lookup_drop by lia. f_equal. lia.
Qed.

Lemma overwrite_length k es l :
  (k ≤ length l)%nat → length (overwrite k es l) = Nat.max (length l) (k + length es).
Proof. intros. unfold overwrite. rewrite !length_app, length_take, length_drop. lia. Qed.

Lemma overwrite_covering k es l :
  (length l ≤ k + length es)%nat → overwrite k es l = take k l ++ es.
Proof. intros. unfold overwrite. by rewrite drop_ge, app_nil_r. Qed.

Definition al_with_entries (es : list Entry) (a : RaftLog) : RaftLog :=
  mkRaftLog (al_first a) es (al_hard a) (al_conf a) (al_snapshot a).

Lemma append_stores s a k es :
  stores s a → (k ≤ length (al_entries a))%nat →
  consecutive (al_first a + N.of_nat k) es →
  al_first a + N.of_nat (k + length es) < U64_MOD →
  stores (storage_append es s) (al_with_entries (overwrite k es (al_entries a)) a).
Proof.
  intros Hs Hk Hc Hb. pose proof (st_bounds _ _ Hs) as [Hb1 Hb2].
  split; cbn [storage_append rs_entries rs_state al_with_entries al_first al_entries al_hard al_conf al_snapshot];
    try apply Hs.
  - rewrite overwrite_length by done. lia.
  - intros key v. rewrite (foldl_insert_rows (al_first a + N.of_nat k)) by (done || lia). split.
    + intros [(j & e & Hj & -> & ->)|[Hn (j & e & Hj & -> & ->)%(st_rows _ _ Hs)]].
      * pose proof (lookup_lt_Some _ _ _ Hj). exists (k + j)%nat, e.
        rewrite overwrite_lookup, decide_True by lia. replace (k + j - k)%nat with j by lia.
        split; [done|]. split; [f_equal; lia|done].
      * exists j, e. rewrite overwrite_lookup by done. split; [|done].
        rewrite decide_False; [done|]. intros Hin. apply (Hn (j - k)%nat); [lia|f_equal; lia].
    + intros (j & e & Hj & -> & ->). rewrite overwrite_lookup in Hj by done. case_decide as Hin.
      * left. exists (j - k)%nat, e. split; [done|]. split; [f_equal; lia|done].
      * right. pose proof (lookup_lt_Some _ _ _ Hj). split.
        -- intros j' Hj' He%u64_to_be_inj; lia.
        -- apply (st_rows _ _ Hs). eauto.
  - intros j e Hj. rewrite overwrite_lookup in Hj by done. case_decide as Hin.
    + rewrite (Hc _ _ Hj). lia.
    + by apply (st_index _ _ Hs).
Qed.

(** The rows of the state tree that a write leaves alone. *)
Lemma state_rows_other (m : gmap string string) k v k' :
  k' ≠ k → <[k := v]> m !! k' = m !! k'.
Proof. intros. by apply lookup_insert_ne. Qed.

Definition al_set_hard (hs : HardState) (a : RaftLog) : RaftLog :=
  mkRaftLog (al_first a) (al_entries a) hs (al_conf a) (al_snapshot a).
Definition al_set_conf (cs : ConfState) (a : RaftLog) : RaftLog :=
  mkRaftLog (al_first a) (al_entries a) (al_hard a) cs (al_snapshot a).
Definition al_store (sn : RaftSnapshot) (a : RaftLog) : RaftLog :=
  mkRaftLog (al_first a) (al_entries a) (advance_hard_state (al_hard a) sn) (al_conf a) sn.
Definition al_install (sn : RaftSnapshot) (a : RaftLog) : RaftLog :=
  mkRaftLog (sn_index sn + 1) [] (advance_hard_state (al_hard a) sn) (sn_conf_state sn) sn.
Definition al_compact (i : N) (a : RaftLog) : RaftLog :=
  mkRaftLog (N.max (al_first a) i) (drop (N.to_nat (i - al_first a)) (al_entries a)) (al_hard a)
    (al_conf a) (al_snapshot a).

Ltac state_lookups :=
  unfold hard_state, conf_state, storage_snapshot; cbn [rs_state rs_entries];
  repeat first [rewrite lookup_insert_eq | rewrite (state_rows_other _ _ _ _) by done].

Lemma set_hard_stores s a hs : stores s a → stores (set_hard_state hs s) (al_set_hard hs a).
Proof.
  intros Hs. split; try apply Hs; unfold set_hard_state, al_set_hard; cbn [al_first al_hard al_conf al_snapshot];
    state_lookups; try apply Hs. by rewrite hard_state_parses.
Qed.

Lemma set_conf_stores s a cs : stores s a → stores (set_conf_state cs s) (al_set_conf cs a).
Proof.
  intros Hs. split; try apply Hs; unfold set_conf_state, al_set_conf; cbn [al_first al_hard al_conf al_snapshot];
    state_lookups; try apply Hs. by rewrite conf_state_parses.
Qed.

Lemma store_snapshot_stores s a sn :
  stores s a → ∃ s', store_snapshot sn s = Ok s' ∧ stores s' (al_store sn a).
Proof.
  intros Hs. unfold store_snapshot. rewrite (st_hard _ _ Hs). cbn [mbind result_bind]. eexists.
  split; [done|]. split; try apply Hs; unfold al_store; cbn [al_first al_hard al_conf al_snapshot];
    state_lookups; try apply Hs; [by rewrite hard_state_parses|].
  rewrite snapshot_parses. cbn. by destruct (sn_index sn).
Qed.

Lemma apply_snapshot_stores s a sn :
  stores s a → sn_index sn + 1 < U64_MOD →
  ∃ s', apply_snapshot sn s = Ok s' ∧ stores s' (al_install sn a).
Proof.
  intros Hs Hb. unfold apply_snapshot. rewrite (st_hard _ _ Hs). cbn [mbind result_bind].
  rewrite wrap64_small by done. eexists. split; [done|].
  split; unfold al_install; cbn [al_first al_entries al_hard al_conf al_snapshot rs_entries length].
  - by state_lookups.
  - lia.
  - intros k v. split; [intros H; discriminate H|intros (j & e & Hj & _); discriminate Hj].
  - intros j e Hj. discriminate Hj.
  - state_lookups. by rewrite hard_state_parses.
  - state_lookups. by rewrite conf_state_parses.
  - state_lookups. rewrite snapshot_parses. cbn. by destruct (sn_index sn).
Qed.

Lemma compact_stores s a i :
  stores s a → i ≤ al_last a + 1 →
  ∃ s', storage_compact i s = Ok s' ∧ stores s' (al_compact i a).
Proof.
  intros Hs Hi. pose proof (st_bounds _ _ Hs) as [Hb1 Hb2]. unfold al_last in Hi.
  unfold storage_compact. rewrite (first_index_eq s a Hs). cbn [mbind result_bind].
  destruct (N.leb_spec i (al_first a)) as [Hle|Hgt].
  { exists s. split; [done|]. unfold al_compact. replace (N.to_nat (i - al_first a)) with O by lia.
    rewrite drop_0, N.max_l by done. by destruct a. }
  eexists. split; [done|]. set (d := N.to_nat (i - al_first a)).
  split; unfold al_compact, set_first_index, compact_entries;
    cbn [rs_entries rs_state al_first al_entries al_hard al_conf al_snapshot];
    rewrite ?N.max_r by lia; fold d.
  - by rewrite lookup_insert_eq.
  - rewrite length_drop. lia.
  - intros k v. rewrite foldr_delete_lookup. split.
    + case_decide as Hk; [done|]. intros (j & e & Hj & -> & ->)%(st_rows _ _ Hs).
      pose proof (lookup_lt_Some _ _ _ Hj). destruct (decide (j < d)%nat) as [Hlt|Hge].
      * destruct Hk. apply list_elem_of_fmap. eexists. split; [done|]. apply elem_of_seq_range. lia.
      * exists (j - d)%nat, e. rewrite lookup_drop. replace (d + (j - d))%nat with j by lia.
        split; [done|]. split; [f_equal; lia|done].
    + intros (j & e & Hj & -> & ->). rewrite lookup_drop in Hj. pose proof (lookup_lt_Some _ _ _ Hj).
      rewrite decide_False.
      * apply (st_rows _ _ Hs). exists (d + j)%nat, e. split; [done|]. split; [f_equal; lia|done].
      * intros (x & He & Hx)%list_elem_of_fmap. apply elem_of_seq_range in Hx.
        apply u64_to_be_inj in He; lia.
  - intros j e Hj. rewrite lookup_drop in Hj. rewrite (st_index _ _ Hs _ _ Hj). lia.
  - state_lookups. apply Hs.
  - state_lookups. apply Hs.
  - state_lookups. apply Hs.
Qed.

(** ** Refinement *)

Inductive storage_op :=
  | SAppend (es : list Entry)
  | SHardState (hs : HardState)
  | SConfState (cs : ConfState)
  | SStoreSnapshot (sn : RaftSnapshot)
  | SApplySnapshot (sn : RaftSnapshot)
  | SCompact (i : N).

Definition storage_step (op : storage_op) (s : RaftStorage) : Result RaftStorage :=
  match op with
  | SAppend es => Ok (storage_append es s)
  | SHardState hs => Ok (set_hard_state hs s)
  | SConfState cs => Ok (set_conf_state cs s)
  | SStoreSnapshot sn => store_snapshot sn s
  | SApplySnapshot sn => apply_snapshot sn s
  | SCompact i => storage_compact i s
  end.

Definition is_consecutive (i : N) (es : list Entry) : bool :=
  bool_decide (e_index <$> es = (λ j, i + N.of_nat j) <$> seq 0 (length es)).

(** The log after the operation, for the operations a driver issues: appended
    entries are consecutive, leave no gap, and reach at least as far as the
    log; compaction stays within the log. *)
Definition al_step (op : storage_op) (a : RaftLog) : option RaftLog :=
  match op with
  | SAppend [] => Some a
  | SAppend (e :: es) =>
      let k := N.to_nat (e_index e - al_first a) in
      if (al_first a <=? e_index e) && (k <=? length (al_entries a))%nat
         && (length (al_entries a) <=? k + S (length es))%nat
         && is_consecutive (e_index e) (e :: es)
         && (e_index e + N.of_nat (S (length es)) <? U64_MOD)
      then Some (al_with_entries (take k (al_entries a) ++ e :: es) a) else None
  | SHardState hs => Some (al_set_hard hs a)
  | SConfState cs => Some (al_set_conf cs a)
  | SStoreSnapshot sn => Some (al_store sn a)
  | SApplySnapshot sn => if sn_index sn + 1 <? U64_MOD then Some (al_install sn a) else None
  | SCompact i => if i <=? al_last a + 1 then Some (al_compact i a) else None
  end.

Lemma is_consecutive_spec i es : is_consecutive i es = true → consecutive i es.
Proof.
  unfold is_consecutive. intros H%bool_decide_eq_true_1 j e Hj.
  assert ((e_index <$> es) !! j = Some (e_index e)) as He by (by rewrite list_lookup_fmap, Hj).
  rewrite H, list_lookup_fmap in He. pose proof (lookup_lt_Some _ _ _ Hj) as Hlt.
  rewrite lookup_seq_lt in He by done. cbn in He. by injection He as <-.
Qed.

Lemma step_stores op s a a' :
  stores s a → al_step op a = Some a' → ∃ s', storage_step op s = Ok s' ∧ stores s' a'.
Proof.
  intros Hs Hstep. destruct op as [[|e es]|hs|cs|sn|sn|i]; cbn [al_step storage_step] in *.
  - injection Hstep as <-. exists s. by destruct s.
  - case_match eqn:Hc; [|done]. injection Hstep as <-. bool_simpl.
    eexists. split; [done|].
    match goal with
    | H1 : (_ <=? length (al_entries a))%nat = true, H2 : (length (al_entries a) <=? _)%nat = true,
      H3 : is_consecutive _ _ = true |- _ =>
        apply Nat.leb_le in H1, H2; apply is_consecutive_spec in H3;
        rewrite <-overwrite_covering by (cbn [length] in *; lia);
        apply append_stores; [done|cbn [length] in *; lia| |cbn [length] in *; lia];
        intros j e' Hj; rewrite (H3 j e' Hj); lia
    end.
  - injection Hstep as <-. eexists. split; [done|by apply set_hard_stores].
  - injection Hstep as <-. eexists. split; [done|by apply set_conf_stores].
  - injection Hstep as <-. by apply store_snapshot_stores.
  - case_match eqn:Hc; [|done]. injection Hstep as <-. apply N.ltb_lt in Hc.
    by apply apply_snapshot_stores.
  - case_match eqn:Hc; [|done]. injection Hstep as <-. apply N.leb_le in Hc. by apply compact_stores.
Qed.

Fixpoint storage_run (ops : list storage_op) (s : RaftStorage) : Result RaftStorage :=
  match ops with
  | [] => Ok s
  | op :: ops => s ← storage_step op s; storage_run ops s
  end.
Fixpoint al_run (ops : list storage_op) (a : RaftLog) : option RaftLog :=
  match ops with
  | [] => Some a
  | op :: ops => a ← al_step op a; al_run ops a
  end.

Definition storage_fresh : RaftStorage := raft_storage_new (mkRaftStorage ∅ ∅).
Definition al_fresh : RaftLog :=
  mkRaftLog 1 [] hard_state_default conf_state_default snapshot_default.

Lemma fresh_stores : stores storage_fresh al_fresh.
Proof.
  split; try done.
  intros k v. split; [intros H; discriminate H|intros (j & e & Hj & _); discriminate Hj].
Qed.

Lemma run_stores ops s a a' :
  stores s a → al_run ops a = Some a' → ∃ s', storage_run ops s = Ok s' ∧ stores s' a'.
Proof.
  revert s a. induction ops as [|op ops IH]; intros s a Hs Hrun; cbn [al_run storage_run] in *.
  { injection Hrun as <-. eauto. }
  apply bind_Some in Hrun as (a1 & Hstep & Hrun).
  destruct (step_stores op s a a1 Hs Hstep) as (s1 & -> & Hs1). by apply (IH s1 a1).
Qed.

(** C15: The storage implements a raft log: for every sequence of driver
    operations whose appends leave no gap and reach at least as far as the log
    did, none fails, and what raft-rs reads back is the abstract log:
    hard state and membership, first and last index, every range of entries
    (whole without a size limit, a non-empty prefix with one), the term of
    every stored index and of the snapshot index, and [Compacted] below. *)
Theorem storage_refines_log ops a (Hrun : al_run ops al_fresh = Some a) :
  ∃ s, storage_run ops storage_fresh = Ok s ∧
    initial_state s = Ok (al_hard a, al_conf a) ∧
    first_index s = Ok (al_first a) ∧ last_index s = Ok (al_last a) ∧
    storage_snapshot 0 s = Ok (al_snapshot a) ∧
    (∀ low high max_size, al_first a ≤ low → low ≤ high → high ≤ al_last a + 1 →
       ∃ es, storage_entries low high max_size s = Ok es ∧ es `prefix_of` slice a low high ∧
         (max_size = None → es = slice a low high) ∧ (low < high → es ≠ [])) ∧
    (∀ low high max_size, low < al_first a →
       storage_entries low high max_size s = Err RaftStorage.Compacted) ∧
    (∀ j e, al_entries a !! j = Some e → storage_term (al_first a + N.of_nat j) s = Ok (e_term e)) ∧
    (sn_index (al_snapshot a) < al_first a →
       storage_term (sn_index (al_snapshot a)) s = Ok (sn_term (al_snapshot a))).
Proof.
  destruct (run_stores ops storage_fresh al_fresh a fresh_stores Hrun) as (s & Hr & Hs).
  pose proof (st_bounds _ _ Hs) as [Hb1 Hb2].
  exists s. split_and!; [done| | | |by apply Hs|..].
  - unfold initial_state. by rewrite (st_hard _ _ Hs), (st_conf _ _ Hs).
  - by apply first_index_eq.
  - by apply last_index_eq.
  - intros low high max_size. by apply storage_entries_eq.
  - intros low high max_size. by apply storage_entries_compacted.
  - intros j e Hj. pose proof (lookup_lt_Some _ _ _ Hj). rewrite (storage_term_eq s a) by (done || lia).
    rewrite (proj2 (N.ltb_ge _ _)) by lia. replace (N.to_nat _) with j by lia. by rewrite Hj.
  - intros Hsn. rewrite (storage_term_eq s a) by (done || lia).
    rewrite (proj2 (N.ltb_lt _ _)) by done. by rewrite N.eqb_refl.
Qed.

(** ** Snapshots *)

Lemma storage_snapshot_request i s sn :
  storage_snapshot 0 s = Ok sn → i ≤ sn_index sn → storage_snapshot i s = Ok sn.
Proof.
  unfold storage_snapshot. destruct (rs_state s !! KEY_SNAPSHOT) as [b|].
  - destruct (parse_snapshot b) as [sn'|]; cbn [to_raft_error mbind result_bind]; [|done].
    rewrite (proj2 (N.ltb_ge _ _)) by lia. intros [= ->] Hi. by rewrite (proj2 (N.ltb_ge _ _)).
  - cbn. intros [= <-] Hi. cbn in Hi. by rewrite (proj2 (N.eqb_eq _ _)) by lia.
Qed.

(** Taking a snapshot and compacting keeps what a restart needs: at any
    applied index in the log the step succeeds, the log then starts right after
    it, its term is still answered, the commit index covers it, the vote is
    kept, and every later entry is still there. *)
Theorem snapshot_and_compact_keeps_log ops a s applied data
    (Hrun : al_run ops al_fresh = Some a) (Hs : storage_run ops storage_fresh = Ok s)
    (Happ : al_first a ≤ applied ≤ al_last a) :
  ∃ s' term cs, snapshot_and_compact applied data s = Ok s' ∧
    storage_term applied s = Ok term ∧ storage_term applied s' = Ok term ∧
    storage_snapshot applied s' = Ok (mkRaftSnapshot applied term cs data) ∧
    first_index s' = Ok (applied + 1) ∧ last_index s' = Ok (al_last a) ∧
    (∃ hs, hard_state s' = Ok hs ∧ applied ≤ hs_commit hs ∧ hs_vote hs = hs_vote (al_hard a)) ∧
    storage_entries (applied + 1) (al_last a + 1) None s'
      = Ok (drop (N.to_nat (applied + 1 - al_first a)) (al_entries a)).
Proof.
  destruct (run_stores ops storage_fresh al_fresh a fresh_stores Hrun) as (s0 & Hr & Hst).
  rewrite Hs in Hr. injection Hr as <-. pose proof (st_bounds _ _ Hst) as [Hb1 Hb2].
  unfold al_last in Happ. set (j := N.to_nat (applied - al_first a)).
  destruct (al_entries a !! j) as [e|] eqn:He; [|apply lookup_ge_None in He; lia].
  assert (storage_term applied s = Ok (e_term e)) as Hterm.
  { rewrite (storage_term_eq s a) by (done || lia). rewrite (proj2 (N.ltb_ge _ _)) by lia.
    fold j. by rewrite He. }
  set (sn := mkRaftSnapshot applied (e_term e) (al_conf a) data).
  destruct (store_snapshot_stores s a sn Hst) as (s1 & Hs1 & Hst1).
  destruct (compact_stores s1 (al_store sn a) (applied + 1) Hst1) as (s2 & Hs2 & Hst2).
  { unfold al_last. cbn [al_store al_first al_entries]. lia. }
  exists s2, (e_term e), (al_conf a). fold sn.
  assert (al_first (al_compact (applied + 1) (al_store sn a)) = applied + 1) as Hf'
    by (cbn [al_compact al_store al_first]; lia).
  assert (al_last (al_compact (applied + 1) (al_store sn a)) = al_last a) as Hl'.
  { unfold al_last. rewrite Hf'. cbn [al_compact al_store al_entries al_first]. rewrite length_drop. lia. }
  split_and!.
  - unfold snapshot_and_compact. rewrite Hterm, (st_conf _ _ Hst). cbn [mbind result_bind].
    fold sn. rewrite Hs1. cbn [mbind result_bind]. by rewrite wrap64_small by lia.
  - done.
  - rewrite (storage_term_eq s2 _ applied Hst2) by lia. rewrite Hf', (proj2 (N.ltb_lt _ _)) by lia.
    cbn [al_compact al_store al_snapshot]. unfold sn. cbn [sn_index sn_term]. by rewrite N.eqb_refl.
  - apply (storage_snapshot_request applied s2 sn); [apply (st_snapshot _ _ Hst2)|done].
  - rewrite <-Hf'. by apply first_index_eq.
  - rewrite <-Hl'. by apply last_index_eq.
  - exists (advance_hard_state (al_hard a) sn). split; [apply Hst2|]. split; [|done].
    cbn [advance_hard_state hs_commit sn sn_index]. destruct (N.ltb_spec (hs_commit (al_hard a)) applied); lia.
  - destruct (storage_entries_eq s2 _ (applied + 1) (al_last a + 1) None Hst2) as (es & Hes & _ & Hfull & _);
      [lia|unfold al_last; lia|lia|].
    rewrite Hes, Hfull by done. f_equal. unfold slice. rewrite Hf'.
    cbn [al_compact al_store al_entries al_first]. rewrite N.sub_diag, drop_0.
    apply take_ge. rewrite length_drop. unfold al_last. lia.
Qed.

(** ** States the storage should not reach *)

Lemma stored_term s a i :
  stores s a → al_first a ≤ i → i < U64_MOD →
  storage_term i s =
    match al_entries a !! N.to_nat (i - al_first a) with
    | Some e => Ok (e_term e)
    | None => Err Unavailable
    end.
Proof.
  intros Hs Hi Hb. rewrite (storage_term_eq s a) by done. by rewrite (proj2 (N.ltb_ge _ _)) by lia.
Qed.

(** Appending does not truncate: when a new leader's entries replace the log
    from some index on but end before it did, every later entry of the old
    leader stays, the last index is unchanged, and the stale terms are still
    answered. *)
Theorem append_keeps_stale_suffix ops a s e es
    (Hrun : al_run ops al_fresh = Some a) (Hs : storage_run ops storage_fresh = Ok s)
    (Hc : is_consecutive (e_index e) (e :: es) = true)
    (Hlow : al_first a ≤ e_index e) (Hshort : e_index e + N.of_nat (length es) < al_last a) :
  last_index (storage_append (e :: es) s) = Ok (al_last a) ∧
  storage_term (e_index e) (storage_append (e :: es) s) = Ok (e_term e) ∧
  (∀ i, e_index e + N.of_nat (length es) < i → i ≤ al_last a →
     storage_term i (storage_append (e :: es) s) = storage_term i s).
Proof.
  destruct (run_stores ops storage_fresh al_fresh a fresh_stores Hrun) as (s0 & Hr & Hst).
  rewrite Hs in Hr. injection Hr as <-. pose proof (st_bounds _ _ Hst) as [Hb1 Hb2].
  apply is_consecutive_spec in Hc. unfold al_last in *.
  set (k := N.to_nat (e_index e - al_first a)).
  assert (stores (storage_append (e :: es) s)
    (al_with_entries (overwrite k (e :: es) (al_entries a)) a)) as Hst'.
  { apply append_stores; [done|lia| |cbn [length]; lia].
    intros j e' Hj. rewrite (Hc j e' Hj). lia. }
  split_and!.
  - rewrite (last_index_eq _ _ Hst'). unfold al_last. cbn [al_with_entries al_first al_entries].
    rewrite overwrite_length by lia. cbn [length]. do 2 f_equal. lia.
  - rewrite (stored_term _ _ _ Hst') by (cbn [al_with_entries al_first]; lia).
    cbn [al_with_entries al_first al_entries]. fold k. rewrite overwrite_lookup, decide_True by (cbn [length]; lia).
    by rewrite Nat.sub_diag.
  - intros i Hi Hil. rewrite (stored_term _ _ _ Hst') by (cbn [al_with_entries al_first]; lia).
    rewrite (stored_term _ _ _ Hst) by lia. cbn [al_with_entries al_first al_entries].
    by rewrite overwrite_lookup, decide_False by (cbn [length]; lia).
Qed.

(** Compaction is two transactions. A crash between them, after a snapshot
    at the last index, leaves the old first index with no entries: the last
    index falls behind the committed index, and every committed entry from the
    first index on is unavailable. *)
Theorem compact_crash_strands_log ops a s data
    (Hrun : al_run ops al_fresh = Some a) (Hs : storage_run ops storage_fresh = Ok s)
    (Hne : al_entries a ≠ []) :
  ∃ s1 s2 term hs, storage_term (al_last a) s = Ok term ∧
    store_snapshot (mkRaftSnapshot (al_last a) term (al_conf a) data) s = Ok s1 ∧
    raft_storage_new (compact_entries (al_first a) (al_last a + 1) s1) = s2 ∧
    first_index s2 = Ok (al_first a) ∧ last_index s2 = Ok (al_first a - 1) ∧
    hard_state s2 = Ok hs ∧ al_first a - 1 < hs_commit hs ∧
    storage_term (al_first a) s2 = Err Unavailable.
Proof.
  destruct (run_stores ops storage_fresh al_fresh a fresh_stores Hrun) as (s0 & Hr & Hst).
  rewrite Hs in Hr. injection Hr as <-. pose proof (st_bounds _ _ Hst) as [Hb1 Hb2].
  assert (0 < length (al_entries a))%nat as Hlen by (destruct (al_entries a); [done|cbn; lia]).
  assert (al_last a = al_first a + N.of_nat (length (al_entries a)) - 1) as Hlast by done.
  destruct (al_entries a !! N.to_nat (al_last a - al_first a)) as [e|] eqn:He;
    [|apply lookup_ge_None in He; lia].
  set (sn := mkRaftSnapshot (al_last a) (e_term e) (al_conf a) data).
  destruct (store_snapshot_stores s a sn Hst) as (s1 & Hs1 & Hst1).
  assert (compact_entries (al_first a) (al_last a + 1) s1 = mkRaftStorage ∅ (rs_state s1)) as Hempty.
  { unfold compact_entries. f_equal. apply map_eq. intros key. rewrite lookup_empty.
    rewrite foldr_delete_lookup. case_decide as Hin; [done|].
    destruct (rs_entries s1 !! key) as [v|] eqn:Hkey; [|done]. exfalso. apply Hin.
    apply (st_rows _ _ Hst1) in Hkey as (j & e' & Hj & -> & ->). pose proof (lookup_lt_Some _ _ _ Hj) as Hlt.
    cbn [al_store al_entries al_first] in Hlt |- *. apply list_elem_of_fmap. eexists. split; [done|].
    apply elem_of_seq_range. lia. }
  exists s1, (mkRaftStorage ∅ (rs_state s1)), (e_term e), (advance_hard_state (al_hard a) sn).
  assert (rs_state s1 !! KEY_FIRST_INDEX = Some (u64_to_be (al_first a))) as Hfirst by apply Hst1.
  assert (first_index (mkRaftStorage ∅ (rs_state s1)) = Ok (al_first a)) as Hfi.
  { unfold first_index. cbn [rs_state]. rewrite Hfirst. rewrite u64_from_to_be by lia. done. }
  split_and!; [|done| |done| |apply Hst1| |].
  - rewrite (storage_term_eq s a) by (done || lia). rewrite (proj2 (N.ltb_ge _ _)) by lia. by rewrite He.
  - rewrite Hempty. unfold raft_storage_new. cbn [rs_state]. by rewrite Hfirst.
  - unfold last_index. rewrite Hfi. done.
  - cbn [advance_hard_state hs_commit sn sn_index].
    destruct (N.ltb_spec (hs_commit (al_hard a)) (al_last a)); lia.
  - unfold storage_term. rewrite Hfi. cbn [to_raft_error mbind result_bind]. rewrite N.ltb_irrefl.
    unfold get_entry. cbn [rs_entries]. by rewrite lookup_empty.
Qed.
End storage.

(** ** A concrete codec *)

Definition conf_fields (cs : ConfState) : list N * list N := (cs_voters cs, cs_learners cs).
Definition conf_of (t : list N * list N) : ConfState := mkConfState t.1 t.2.

Definition undigits_as {A} `{Countable A} {B} (f : A → B) (data : string) : Result B :=
  match undigits data ≫= countable.decode with
  | Some t => Ok (f t)
  | None => Err (Serialization "message")
  end.

#[local] Instance demo_raft_codec : RaftCodec := {
  write_entry e := digits (encode (e_index e, e_term e, e_type e, e_data e));
  parse_entry := undigits_as (λ t : N * N * N * string, mkEntryMsg t.1.1.1 t.1.1.2 t.1.2 t.2);
  entry_size e := N.of_nat (String.length (e_data e)) + 8;
  write_hard_state hs := digits (encode (hs_term hs, hs_vote hs, hs_commit hs));
  parse_hard_state := undigits_as (λ t : N * N * N, mkHardState t.1.1 t.1.2 t.2);
  write_conf_state cs := digits (encode (conf_fields cs));
  parse_conf_state := undigits_as conf_of;
  write_snapshot sn := digits (encode (sn_index sn, sn_term sn, conf_fields (sn_conf_state sn), sn_data sn));
  parse_snapshot := undigits_as
    (λ t : N * N * (list N * list N) * string, mkRaftSnapshot t.1.1.1 t.1.1.2 (conf_of t.1.2) t.2) }.

Lemma undigits_as_encode {A} `{Countable A} {B} (f : A → B) a :
  undigits_as f (digits (encode a)) = Ok (f a).
Proof. unfold undigits_as. rewrite undigits_digits. cbn [mbind option_bind]. by rewrite decode_encode. Qed.

Lemma demo_entry_parses e : parse_entry (write_entry e) = Ok e.
Proof.
  cbn [parse_entry write_entry demo_raft_codec]. rewrite undigits_as_encode. by destruct e.
Qed.
Lemma demo_hard_parses hs : parse_hard_state (write_hard_state hs) = Ok hs.
Proof.
  cbn [parse_hard_state write_hard_state demo_raft_codec]. rewrite undigits_as_encode. by destruct hs.
Qed.
Lemma demo_conf_parses cs : parse_conf_state (write_conf_state cs) = Ok cs.
Proof.
  cbn [parse_conf_state write_conf_state demo_raft_codec]. rewrite undigits_as_encode. by destruct cs.
Qed.
Lemma demo_snapshot_parses sn : parse_snapshot (write_snapshot sn) = Ok sn.
Proof.
  cbn [parse_snapshot write_snapshot demo_raft_codec]. rewrite undigits_as_encode. by destruct sn as [? ? [] ?].
Qed.

Definition demo_entry (i t : N) : Entry := mkEntryMsg i t 0 "w".

(** Five entries of term 1, the last two replaced by a leader of term 2. *)
Definition demo_storage_ops : list storage_op :=
  [SConfState (mkConfState [1; 2; 3] []);
   SAppend [demo_entry 1 1; demo_entry 2 1; demo_entry 3 1; demo_entry 4 1; demo_entry 5 1];
   SHardState (mkHardState 2 3 3);
   SAppend [demo_entry 4 2; demo_entry 5 2]].

Definition demo_compacted_ops : list storage_op :=
  demo_storage_ops ++ [SStoreSnapshot (mkRaftSnapshot 3 1 (mkConfState [1; 2; 3] []) "image"); SCompact 4].

Definition demo_log (ops : list storage_op) : RaftLog := default al_fresh (al_run ops al_fresh).
Definition demo_storage (ops : list storage_op) : RaftStorage :=
  match storage_run ops storage_fresh with Ok s => s | Err _ => storage_fresh end.

Lemma demo_log_run ops :
  bool_decide (is_Some (al_run ops al_fresh)) = true → al_run ops al_fresh = Some (demo_log ops).
Proof. intros [a Ha]%bool_decide_eq_true_1. unfold demo_log. by rewrite Ha. Qed.

Lemma demo_storage_run ops :
  match storage_run ops storage_fresh with Ok _ => true | Err _ => false end = true →
  storage_run ops storage_fresh = Ok (demo_storage ops).
Proof. unfold demo_storage. by destruct (storage_run ops storage_fresh). Qed.

Lemma storage_refines_log_witness :
  ∃ s, storage_run demo_compacted_ops storage_fresh = Ok s ∧
    first_index s = Ok 4 ∧ storage_term 3 s = Ok 1 ∧ storage_term 4 s = Ok 2.
Proof.
  destruct (storage_refines_log demo_entry_parses demo_hard_parses demo_conf_parses
    demo_snapshot_parses demo_compacted_ops (demo_log demo_compacted_ops))
    as (s & Hs & _ & Hf & _ & _ & _ & _ & Ht & Hsn).
  { apply demo_log_run. vm_compute. reflexivity. }
  exists s. split; [exact Hs|]. split; [exact Hf|]. split; [exact (Hsn eq_refl)|].
  exact (Ht 0%nat (demo_entry 4 2) eq_refl).
Defined.

Lemma snapshot_and_compact_keeps_log_witness :
  ∃ s', snapshot_and_compact 4 "image" (demo_storage demo_storage_ops) = Ok s' ∧
    first_index s' = Ok 5 ∧ last_index s' = Ok 5 ∧
    storage_entries 5 6 None s' = Ok [demo_entry 5 2].
Proof.
  destruct (snapshot_and_compact_keeps_log demo_entry_parses demo_hard_parses demo_conf_parses
    demo_snapshot_parses demo_storage_ops (demo_log demo_storage_ops)
    (demo_storage demo_storage_ops) 4 "image") as (s' & term & cs & Hs' & _ & _ & _ & Hf & Hl & _ & He).
  - apply demo_log_run. vm_compute. reflexivity.
  - apply demo_storage_run. vm_compute. reflexivity.
  - split; vm_compute; discriminate.
  - exists s'. split; [exact Hs'|]. split; [exact Hf|]. split; [exact Hl|exact He].
Defined.

(** The log then reads terms 1, 2 and again 1. *)
Lemma append_keeps_stale_suffix_witness :
  let s := storage_append [demo_entry 4 2] (demo_storage (take 2 demo_storage_ops)) in
  last_index s = Ok 5 ∧ storage_term 3 s = Ok 1 ∧ storage_term 4 s = Ok 2 ∧ storage_term 5 s = Ok 1.
Proof.
  destruct (append_keeps_stale_suffix demo_entry_parses demo_hard_parses demo_conf_parses
    demo_snapshot_parses (take 2 demo_storage_ops) (demo_log (take 2 demo_storage_ops))
    (demo_storage (take 2 demo_storage_ops)) (demo_entry 4 2) []) as (Hl & Ht & Hst).
  - apply demo_log_run. vm_compute. reflexivity.
  - apply demo_storage_run. vm_compute. reflexivity.
  - reflexivity.
  - vm_compute. discriminate.
  - reflexivity.
  - split; [exact Hl|]. split; [vm_compute; reflexivity|]. split; [exact Ht|].
    rewrite (Hst 5); [vm_compute; reflexivity|reflexivity|vm_compute; discriminate].
Defined.

Lemma compact_crash_strands_log_witness :
  ∃ s hs, first_index s = Ok 1 ∧ last_index s = Ok 0 ∧ hard_state s = Ok hs ∧ 0 < hs_commit hs ∧
    storage_term 1 s = Err Unavailable.
Proof.
  destruct (compact_crash_strands_log demo_entry_parses demo_hard_parses demo_conf_parses
    demo_snapshot_parses demo_storage_ops (demo_log demo_storage_ops)
    (demo_storage demo_storage_ops) "image") as (s1 & s2 & term & hs & _ & _ & _ & Hf & Hl & Hh & Hc & Ht).
  - apply demo_log_run. vm_compute. reflexivity.
  - apply demo_storage_run. vm_compute. reflexivity.
  - vm_compute. discriminate.
  - exists s2, hs. split; [exact Hf|]. split; [exact Hl|]. split; [exact Hh|]. split; [exact Hc|exact Ht].
Defined.
