(* ===== verification/Rebac.v ===== *)
(** * Relationship based access control

    src/rust/lib/src/types.rs and src/rust/lib/src/rebac/mod.rs: the indexed
    graph of relationship tuples, the memoised permission check and the
    expansion of a permission to its subjects. *)

From S2P Require Import Prelude.

(** ** Tuples and namespaces *)

Record Entity := mkEntity { entity_type : string; entity_id : string }.

#[global] Instance Entity_eq_dec : EqDecision Entity.
Proof. solve_decision. Defined.

Record ReBACTuple := mkTuple {
  subject_type : string;
  subject_id : string;
  subject_relation : option string;
  relation : string;
  object_type : string;
  object_id : string }.

#[global] Instance ReBACTuple_eq_dec : EqDecision ReBACTuple.
Proof. solve_decision. Defined.

Record UsersetEntry := mkUserset {
  us_subject_type : string;
  us_subject_id : string;
  us_subject_relation : string }.

Record TupleToUsersetConfig := mkTTU { tupleset : string; computed_userset : string }.

(** The payloads of [Direct] and [EmptyDict] are never read. *)
Inductive RelationConfig :=
  | Direct
  | Union (union : list string)
  | TupleToUserset (tuple_to_userset : TupleToUsersetConfig)
  | EmptyDict.

Record NamespaceConfig := mkNamespace {
  relations : gmap string RelationConfig;
  permissions : gmap string (list string) }.

Abbreviation TupleKey := (string * string * string * string * string)%type.
Abbreviation AdjacencyKey := (string * string * string)%type.

(** ** The graph *)

Record ReBACGraph := mkGraph {
  tuple_index : gset TupleKey;
  adjacency_list : gmap AdjacencyKey (list Entity);
  reverse_adjacency : gmap AdjacencyKey (list Entity);
  userset_index : gmap AdjacencyKey (list UsersetEntry);
  direct_reverse : gmap AdjacencyKey (list Entity) }.

(** [map.entry(k).or_default().push(v)] *)
Definition entry_push {K V} `{Countable K} (k : K) (v : V) (m : gmap K (list V)) :
    gmap K (list V) :=
  <[k := default [] (m !! k) ++ [v]]> m.

Definition object_key (t : ReBACTuple) : AdjacencyKey := (object_type t, object_id t, relation t).
Definition subject_key (t : ReBACTuple) : AdjacencyKey := (subject_type t, subject_id t, relation t).
Definition subject_of_tuple (t : ReBACTuple) : Entity := mkEntity (subject_type t) (subject_id t).
Definition object_of_tuple (t : ReBACTuple) : Entity := mkEntity (object_type t) (object_id t).

(** The body of the loop of [from_tuples]. *)
Definition add_tuple (g : ReBACGraph) (t : ReBACTuple) : ReBACGraph :=
  let adjacency := entry_push (subject_key t) (object_of_tuple t) (adjacency_list g) in
  let reverse := entry_push (object_key t) (subject_of_tuple t) (reverse_adjacency g) in
  match subject_relation t with
  | Some subject_relation =>
      mkGraph (tuple_index g) adjacency reverse
        (entry_push (object_key t)
           (mkUserset (subject_type t) (subject_id t) subject_relation) (userset_index g))
        (direct_reverse g)
  | None =>
      mkGraph
        ({[(object_type t, object_id t, relation t, subject_type t, subject_id t)]} ∪ tuple_index g)
        adjacency reverse (userset_index g)
        (entry_push (object_key t) (subject_of_tuple t) (direct_reverse g))
  end.

Definition graph_empty : ReBACGraph := mkGraph ∅ ∅ ∅ ∅ ∅.
Definition from_tuples (tuples : list ReBACTuple) : ReBACGraph := foldl add_tuple graph_empty tuples.

Definition check_direct_relation (g : ReBACGraph) (subject : Entity) (relation : string)
    (object : Entity) : bool :=
  bool_decide ((entity_type object, entity_id object, relation, entity_type subject,
                entity_id subject) ∈ tuple_index g)
  || bool_decide ((entity_type object, entity_id object, relation, "*", "*") ∈ tuple_index g).

Definition find_related_objects (g : ReBACGraph) (subject : Entity) (relation : string) :
    list Entity :=
  default [] (adjacency_list g !! (entity_type subject, entity_id subject, relation)).

Definition find_subjects_for_object (g : ReBACGraph) (object : Entity) (relation : string) :
    list Entity :=
  default [] (reverse_adjacency g !! (entity_type object, entity_id object, relation)).

Definition find_direct_subjects_for_object (g : ReBACGraph) (object : Entity) (relation : string) :
    list Entity :=
  default [] (direct_reverse g !! (entity_type object, entity_id object, relation)).

Definition get_usersets (g : ReBACGraph) (object : Entity) (relation : string) :
    list UsersetEntry :=
  default [] (userset_index g !! (entity_type object, entity_id object, relation)).

Definition userset_entity (u : UsersetEntry) : Entity :=
  mkEntity (us_subject_type u) (us_subject_id u).

(** ** The permission check *)

Definition MAX_DEPTH : nat := 50.

(** [for x in xs { if f(x) { allowed = true; break; } }], threading a state. *)
Fixpoint any_st {A S} (f : A → S → bool * S) (xs : list A) (s : S) : bool * S :=
  match xs with
  | [] => (false, s)
  | x :: xs =>
      let '(allowed, s) := f x s in
      if (allowed : bool) then (true, s) else any_st f xs s
  end.

(** The two mutable arguments of the check. *)
Record Walk := mkWalk { memo_cache : gmap TupleKey bool; visited : gset TupleKey }.

Definition walk_fresh : Walk := mkWalk ∅ ∅.

Section check.
Context (subject : Entity) (g : ReBACGraph) (namespaces : gmap string NamespaceConfig).

Definition memo_key (permission : string) (object : Entity) : TupleKey :=
  (entity_type subject, entity_id subject, permission, entity_type object, entity_id object).

Definition visit_mark (key : TupleKey) (w : Walk) : Walk :=
  mkWalk (memo_cache w) ({[key]} ∪ visited w).
Definition memo_insert (key : TupleKey) (r : bool) (w : Walk) : Walk :=
  mkWalk (<[key := r]> (memo_cache w)) (visited w).

(** [recur] is [compute_permission] one level deeper. *)
Definition check_relation_with_usersets (recur : string → Entity → Walk → bool * Walk)
    (relation : string) (object : Entity) (w : Walk) : bool * Walk :=
  if check_direct_relation g subject relation object then (true, w)
  else any_st (λ u, recur (us_subject_relation u) (userset_entity u))
         (get_usersets g object relation) w.

(** The evaluation between the [visited] mark and the [memo_cache] insert. *)
Definition evaluate (recur : string → Entity → Walk → bool * Walk) (permission : string)
    (object : Entity) (w : Walk) : bool * Walk :=
  match namespaces !! entity_type object with
  | None => check_relation_with_usersets recur permission object w
  | Some namespace =>
      match permissions namespace !! permission with
      | Some usersets => any_st (λ userset, recur userset object) usersets w
      | None =>
          match relations namespace !! permission with
          | Some (Union union) => any_st (λ rel, recur rel object) union w
          | Some (TupleToUserset ttu) =>
              let '(allowed, w) :=
                any_st (recur (computed_userset ttu)) (find_related_objects g object (tupleset ttu)) w in
              let '(allowed, w) :=
                if negb allowed && negb (bool_decide (tupleset ttu = "parent"))
                then any_st (recur (computed_userset ttu))
                       (find_subjects_for_object g object (tupleset ttu)) w
                else (allowed, w) in
              if (allowed : bool) then (true, w)
              else check_relation_with_usersets recur permission object w
          | Some Direct | Some EmptyDict | None =>
              check_relation_with_usersets recur permission object w
          end
      end
  end.

(** [compute_permission]; [levels] is [MAX_DEPTH + 1 - depth], so that no level
    left is [depth > MAX_DEPTH]. *)
Fixpoint compute_permission (levels : nat) (permission : string) (object : Entity) (w : Walk) :
    bool * Walk :=
  match levels with
  | O => (false, w)
  | S levels =>
      let key := memo_key permission object in
      match memo_cache w !! key with
      | Some result => (result, w)
      | None =>
          if bool_decide (key ∈ visited w) then (false, w)
          else
            let '(result, w) :=
              evaluate (compute_permission levels) permission object (visit_mark key w) in
            (result, memo_insert key result w)
      end
  end.

(** A check from depth 0 with fresh caches, as [RebacPermissionProvider::allows]
    makes it. *)
Definition permission_check (permission : string) (object : Entity) : bool :=
  (compute_permission (S MAX_DEPTH) permission object walk_fresh).1.
End check.

(** ** Expansion *)

(** The two mutable arguments of the expansion. *)
Record Expansion := mkExpansion {
  subjects : gset (string * string);
  expanded : gset (string * string * string) }.

Section expand.
Context (g : ReBACGraph) (namespaces : gmap string NamespaceConfig).

Definition userset_label (u : UsersetEntry) : string * string :=
  (us_subject_type u +:+ "#" +:+ us_subject_relation u, us_subject_id u).

Definition add_direct_subjects (relation : string) (object : Entity) (x : Expansion) : Expansion :=
  mkExpansion
    (subjects x
     ∪ list_to_set ((λ e, (entity_type e, entity_id e)) <$> find_direct_subjects_for_object g object relation)
     ∪ list_to_set (userset_label <$> get_usersets g object relation))
    (expanded x).

(** [for x in xs { f(x) }] *)
Definition each {A S} (f : A → S → S) (xs : list A) (s : S) : S := foldl (λ s x, f x s) s xs.

Definition expand_step (recur : string → Entity → Expansion → Expansion) (permission : string)
    (object : Entity) (x : Expansion) : Expansion :=
  match namespaces !! entity_type object with
  | None => add_direct_subjects permission object x
  | Some namespace =>
      match permissions namespace !! permission with
      | Some usersets => each (λ userset, recur userset object) usersets x
      | None =>
          match relations namespace !! permission with
          | Some (Union union) => each (λ rel, recur rel object) union x
          | Some (TupleToUserset ttu) =>
              let x := each (recur (computed_userset ttu))
                         (find_related_objects g object (tupleset ttu)) x in
              let x := if bool_decide (tupleset ttu = "parent") then x
                       else each (recur (computed_userset ttu))
                              (find_subjects_for_object g object (tupleset ttu)) x in
              add_direct_subjects permission object x
          | Some Direct | Some EmptyDict | None => add_direct_subjects permission object x
          end
      end
  end.

Fixpoint expand_permission (levels : nat) (permission : string) (object : Entity) (x : Expansion) :
    Expansion :=
  match levels with
  | O => x
  | S levels =>
      let visit_key := (permission, entity_type object, entity_id object) in
      if bool_decide (visit_key ∈ expanded x) then x
      else expand_step (expand_permission levels) permission object
             (mkExpansion (subjects x) ({[visit_key]} ∪ expanded x))
  end.

Definition permission_subjects (permission : string) (object : Entity) : gset (string * string) :=
  subjects (expand_permission (S MAX_DEPTH) permission object (mkExpansion ∅ ∅)).
End expand.
