(* ===== verification/RebacProofs.v ===== *)
(** * Properties of the permission check

    The memoised, depth bounded walk of [compute_permission] decides the
    reference semantics: the relationship rules read off the tuples and the
    namespace configuration. *)

From S2P Require Import Prelude Rebac.

(** ** Progress of a search *)

(** The elements of [ns] whose key has not been visited. *)
Definition unvisited {A K} `{Countable K} (k : A → K) (ns : list A) (v : gset K) : nat :=
  length (filter (λ n, k n ∉ v) ns).

Section unvisited.
Context {A K : Type} `{Countable K} (k : A → K).
Implicit Types (ns : list A) (v : gset K).

Lemma unvisited_cons n ns v :
  unvisited k (n :: ns) v = ((if decide (k n ∈ v) then 0 else 1) + unvisited k ns v)%nat.
Proof. unfold unvisited. rewrite filter_cons. repeat case_decide; done. Qed.

Lemma unvisited_mono ns v v' : v ⊆ v' → (unvisited k ns v' ≤ unvisited k ns v)%nat.
Proof.
  intros Hsub. induction ns as [|n ns IH]; [done|]. rewrite !unvisited_cons.
  repeat case_decide; lia || set_solver.
Qed.

Lemma unvisited_mark ns v n :
  n ∈ ns → k n ∉ v → (unvisited k ns ({[k n]} ∪ v) < unvisited k ns v)%nat.
Proof.
  intros Hin Hn.
  assert (∀ l, (unvisited k l ({[k n]} ∪ v) ≤ unvisited k l v)%nat) as Hle.
  { intros l. apply unvisited_mono. set_solver. }
  induction ns as [|m l IH]; [by apply not_elem_of_nil in Hin|]. rewrite !unvisited_cons.
  apply elem_of_cons in Hin as [->|Hin]; [|specialize (IH Hin)].
  - specialize (Hle l). rewrite decide_True, decide_False by set_solver. lia.
  - repeat case_decide; lia || set_solver.
Qed.

Lemma unvisited_zero ns v n : n ∈ ns → unvisited k ns v = 0%nat → k n ∈ v.
Proof.
  intros Hin Hz. destruct (decide (k n ∈ v)) as [|Hn]; [done|].
  pose proof (unvisited_mark ns v n Hin Hn). lia.
Qed.

Lemma unvisited_empty ns : (unvisited k ns ∅ ≤ length ns)%nat.
Proof. apply length_filter. Qed.
End unvisited.

(** ** The indexes of the graph *)

Lemma entry_push_lookup {K V} `{Countable K} (k : K) (v : V) (m : gmap K (list V)) k' :
  default [] (entry_push k v m !! k') =
    default [] (m !! k') ++ (if decide (k = k') then [v] else []).
Proof.
  unfold entry_push. case_decide as Hk; [subst; by rewrite lookup_insert_eq|].
  rewrite lookup_insert_ne by done. by rewrite app_nil_r.
Qed.

(** The rows of an index after [from_tuples]: one per tuple, in order. *)
Definition index_of {V} (key : ReBACTuple → AdjacencyKey) (row : ReBACTuple → option V)
    (tuples : list ReBACTuple) (k : AdjacencyKey) : list V :=
  omap (λ t, if decide (key t = k) then row t else None) tuples.

Definition direct_row (t : ReBACTuple) : option Entity :=
  match subject_relation t with Some _ => None | None => Some (subject_of_tuple t) end.
Definition userset_row (t : ReBACTuple) : option UsersetEntry :=
  mkUserset (subject_type t) (subject_id t) <$> subject_relation t.

Definition tuple_key_of (t : ReBACTuple) : TupleKey :=
  (object_type t, object_id t, relation t, subject_type t, subject_id t).

Record indexes (tuples : list ReBACTuple) (g : ReBACGraph) : Prop := {
  ix_tuple : ∀ k, k ∈ tuple_index g ↔
    ∃ t, t ∈ tuples ∧ subject_relation t = None ∧ tuple_key_of t = k;
  ix_adjacency : ∀ k, default [] (adjacency_list g !! k)
    = index_of subject_key (λ t, Some (object_of_tuple t)) tuples k;
  ix_reverse : ∀ k, default [] (reverse_adjacency g !! k)
    = index_of object_key (λ t, Some (subject_of_tuple t)) tuples k;
  ix_userset : ∀ k, default [] (userset_index g !! k) = index_of object_key userset_row tuples k;
  ix_direct : ∀ k, default [] (direct_reverse g !! k) = index_of object_key direct_row tuples k }.

Lemma index_of_snoc {V} key (row : ReBACTuple → option V) tuples t k :
  index_of key row (tuples ++ [t]) k =
    index_of key row tuples k ++
      match row t with Some v => if decide (key t = k) then [v] else [] | None => [] end.
Proof.
  unfold index_of. rewrite omap_app. f_equal. cbn.
  case_decide; destruct (row t); done.
Qed.

Lemma add_tuple_indexes tuples g t : indexes tuples g → indexes (tuples ++ [t]) (add_tuple g t).
Proof.
  intros [H1 H2 H3 H4 H5]. unfold add_tuple.
  destruct (subject_relation t) as [sr|] eqn:Hsr;
    split; intros k; cbn [tuple_index adjacency_list reverse_adjacency userset_index direct_reverse];
    rewrite ?index_of_snoc, ?entry_push_lookup; unfold direct_row, userset_row; rewrite ?Hsr; cbn [fmap option_fmap option_map].
  all: try (by rewrite ?H2, ?H3, ?H4, ?H5, ?app_nil_r).
  - rewrite H1. setoid_rewrite elem_of_app. setoid_rewrite list_elem_of_singleton. naive_solver.
  - rewrite elem_of_union, elem_of_singleton, H1. setoid_rewrite elem_of_app.
    setoid_rewrite list_elem_of_singleton. unfold tuple_key_of. naive_solver.
Qed.

Lemma from_tuples_indexes tuples : indexes tuples (from_tuples tuples).
Proof.
  unfold from_tuples. induction tuples as [|t tuples IH] using rev_ind.
  { split; intros k; cbn; [|by rewrite lookup_empty..]. set_solver. }
  rewrite foldl_app. cbn [foldl]. by apply add_tuple_indexes.
Qed.

Lemma elem_of_index {V} key (row : ReBACTuple → option V) tuples k v :
  v ∈ index_of key row tuples k ↔ ∃ t, t ∈ tuples ∧ key t = k ∧ row t = Some v.
Proof.
  unfold index_of. rewrite list_elem_of_omap. split.
  - intros (t & Ht & Hv). case_decide; [|done]. eauto.
  - intros (t & Ht & Hk & Hv). exists t. split; [done|]. by rewrite decide_True.
Qed.

(** ** Reference semantics *)

(** How the configuration reads a name on an object: a permission or union is
    rewritten to other names, a tuple-to-userset relation also looks across its
    tupleset, anything else is a plain relation. *)
Definition rewrites (namespaces : gmap string NamespaceConfig) (o : Entity) (p : string) :
    option (list string) :=
  ns ← namespaces !! entity_type o;
  match permissions ns !! p, relations ns !! p with
  | Some usersets, _ => Some usersets
  | None, Some (Union union) => Some union
  | None, _ => None
  end.

Definition traverses (namespaces : gmap string NamespaceConfig) (o : Entity) (p : string) :
    option TupleToUsersetConfig :=
  ns ← namespaces !! entity_type o;
  match permissions ns !! p, relations ns !! p with
  | None, Some (TupleToUserset ttu) => Some ttu
  | _, _ => None
  end.

Definition wildcard : Entity := mkEntity "*" "*".

(** [granted subject p o]: the tuples and the rules give [subject] the relation
    or permission [p] on [o]. *)
Inductive granted (tuples : list ReBACTuple) (namespaces : gmap string NamespaceConfig)
    (subject : Entity) : string → Entity → Prop :=
  | granted_direct t :
      rewrites namespaces (object_of_tuple t) (relation t) = None →
      t ∈ tuples → subject_relation t = None →
      subject_of_tuple t = subject ∨ subject_of_tuple t = wildcard →
      granted tuples namespaces subject (relation t) (object_of_tuple t)
  | granted_userset t sr :
      rewrites namespaces (object_of_tuple t) (relation t) = None →
      t ∈ tuples → subject_relation t = Some sr →
      granted tuples namespaces subject sr (subject_of_tuple t) →
      granted tuples namespaces subject (relation t) (object_of_tuple t)
  | granted_rewrite p o ps q :
      rewrites namespaces o p = Some ps → q ∈ ps →
      granted tuples namespaces subject q o →
      granted tuples namespaces subject p o
  | granted_forward p ttu t :
      traverses namespaces (subject_of_tuple t) p = Some ttu →
      t ∈ tuples → relation t = tupleset ttu →
      granted tuples namespaces subject (computed_userset ttu) (object_of_tuple t) →
      granted tuples namespaces subject p (subject_of_tuple t)
  | granted_reverse p ttu t :
      traverses namespaces (object_of_tuple t) p = Some ttu → tupleset ttu ≠ "parent" →
      t ∈ tuples → relation t = tupleset ttu →
      granted tuples namespaces subject (computed_userset ttu) (subject_of_tuple t) →
      granted tuples namespaces subject p (object_of_tuple t).

Lemma traverses_relation namespaces o p ttu :
  traverses namespaces o p = Some ttu → rewrites namespaces o p = None.
Proof.
  unfold traverses, rewrites. destruct (namespaces !! entity_type o) as [ns|]; [cbn|done].
  destruct (permissions ns !! p); [done|]. by destruct (relations ns !! p) as [[]|].
Qed.

(** ** The walk as a search *)

(** What the evaluation of a name on an object looks at, in order: a direct
    check, or another name on another object. *)
Abbreviation node := (string * Entity)%type.

Section walk.
Context (subject : Entity) (g : ReBACGraph) (namespaces : gmap string NamespaceConfig).

Definition items_traversed (o : Entity) (ttu : TupleToUsersetConfig) : list Entity :=
  find_related_objects g o (tupleset ttu) ++
  (if bool_decide (tupleset ttu = "parent") then [] else find_subjects_for_object g o (tupleset ttu)).

Definition items (n : node) : list (bool + node) :=
  match rewrites namespaces n.2 n.1 with
  | Some ps => (λ q, inr (q, n.2)) <$> ps
  | None =>
      match traverses namespaces n.2 n.1 with
      | Some ttu => (λ e, inr (computed_userset ttu, e)) <$> items_traversed n.2 ttu
      | None => []
      end
      ++ inl (check_direct_relation g subject n.1 n.2)
      :: ((λ u, inr (us_subject_relation u, userset_entity u)) <$> get_usersets g n.2 n.1)
  end.

Definition run_item (recur : string → Entity → Walk → bool * Walk) (i : bool + node) (w : Walk) :
    bool * Walk :=
  match i with inl b => (b, w) | inr m => recur m.1 m.2 w end.

Lemma any_st_app {A St} (f : A → St → bool * St) xs ys s :
  any_st f (xs ++ ys) s =
    let '(r, s) := any_st f xs s in if (r : bool) then (true, s) else any_st f ys s.
Proof.
  revert s. induction xs as [|x xs IH]; intros s; [done|]. cbn [app any_st].
  destruct (f x s) as [[] s']; [done|]. apply IH.
Qed.

Lemma any_st_fmap {A B St} (f : B → St → bool * St) (h : A → B) xs s :
  any_st f (h <$> xs) s = any_st (λ x, f (h x)) xs s.
Proof.
  revert s. induction xs as [|x xs IH]; intros s; [done|]. cbn.
  destruct (f (h x) s) as [[] s']; [done|]. apply IH.
Qed.

Lemma check_relation_items recur n w :
  check_relation_with_usersets subject g recur n.1 n.2 w =
    any_st (run_item recur)
      (inl (check_direct_relation g subject n.1 n.2)
       :: ((λ u, inr (us_subject_relation u, userset_entity u)) <$> get_usersets g n.2 n.1)) w.
Proof.
  unfold check_relation_with_usersets. cbn [any_st run_item].
  destruct (check_direct_relation _ _ _ _); [done|]. by rewrite any_st_fmap.
Qed.

Lemma evaluate_items recur n w :
  evaluate subject g namespaces recur n.1 n.2 w = any_st (run_item recur) (items n) w.
Proof.
  unfold evaluate, items, rewrites, traverses.
  destruct (namespaces !! entity_type n.2) as [ns|]; cbn [mbind option_bind];
    [|apply check_relation_items].
  destruct (permissions ns !! n.1) as [us|]; [by rewrite any_st_fmap|].
  destruct (relations ns !! n.1) as [[|us|ttu|]|]; try apply check_relation_items.
  { by rewrite any_st_fmap. }
  rewrite any_st_app, any_st_fmap. unfold items_traversed. rewrite any_st_app.
  cbn [run_item fst snd].
  change (λ (x : Entity) (w : Walk), recur (computed_userset ttu) x w) with (recur (computed_userset ttu)).
  destruct (any_st _ (find_related_objects _ _ _) w) as [[] w1]; [done|]. cbn [negb andb].
  case_bool_decide; cbn [negb any_st].
  - apply check_relation_items.
  - destruct (any_st _ _ w1) as [[] w2]; [done|]. apply check_relation_items.
Qed.

Definition key (n : node) : TupleKey := memo_key subject n.1 n.2.
Definition compute (levels : nat) (n : node) (w : Walk) : bool * Walk :=
  compute_permission subject g namespaces levels n.1 n.2 w.

Lemma key_inj n m : key n = key m → n = m.
Proof. destruct n as [p [ot oi]], m as [p' [ot' oi']]. unfold key, memo_key. cbn. by intros [= -> -> ->]. Qed.

(** Some chain of items ends in a direct relation. *)
Inductive reach : node → Prop :=
  | reach_here n : inl true ∈ items n → reach n
  | reach_step n m : inr m ∈ items n → reach m → reach n.

(** *** Soundness *)

Definition memo_sound (w : Walk) : Prop := ∀ n, memo_cache w !! key n = Some true → reach n.

Lemma any_sound (f : bool + node → Walk → bool * Walk) its w r w' :
  (∀ i w r w', i ∈ its → memo_sound w → f i w = (r, w') →
     memo_sound w' ∧ (r = true → i = inl true ∨ ∃ m, i = inr m ∧ reach m)) →
  memo_sound w → any_st f its w = (r, w') →
  memo_sound w' ∧ (r = true → inl true ∈ its ∨ ∃ m, inr m ∈ its ∧ reach m).
Proof.
  revert w. induction its as [|i its IH]; intros w Hf Hw Hrun; cbn [any_st] in Hrun.
  { by injection Hrun as <- <-. }
  destruct (f i w) as [b w1] eqn:Hi. destruct (Hf i w b w1) as [Hw1 Hb]; [by left|done..|].
  destruct b.
  - injection Hrun as <- <-. split; [done|]. intros _.
    destruct (Hb eq_refl) as [->|(m & -> & Hm)]; [left; by left|right; exists m; split; [by left|done]].
  - destruct (IH w1) as [Hw' Hr]; [intros; eapply Hf; [by right|done..]|done..|].
    split; [done|]. intros ->. destruct (Hr eq_refl) as [?|(m & ? & ?)]; [left; by right|].
    right. exists m. split; [by right|done].
Qed.

Lemma compute_sound levels n w r w' :
  memo_sound w → compute levels n w = (r, w') → memo_sound w' ∧ (r = true → reach n).
Proof.
  revert n w r w'. induction levels as [|levels IH]; intros n w r w' Hw; unfold compute; cbn [compute_permission].
  { by intros [= <- <-]. }
  fold (key n). destruct (memo_cache w !! key n) as [b|] eqn:Hmemo.
  { intros [= <- <-]. split; [done|]. intros ->. by apply Hw. }
  case_bool_decide. { by intros [= <- <-]. }
  rewrite evaluate_items. destruct (any_st _ _ _) as [b w1] eqn:Hrun. intros [= <- <-].
  apply any_sound in Hrun as [Hw1 Hb].
  - assert (b = true → reach n) as Hr.
    { intros Ht. destruct (Hb Ht) as [?|(m & ? & ?)]; [by apply reach_here|by apply (reach_step n m)]. }
    split; [|done]. intros m. cbn [memo_insert memo_cache]. destruct (decide (key n = key m)) as [He|Hne].
    + rewrite He, lookup_insert_eq. apply key_inj in He as ->. intros [= ->]. by apply Hr.
    + rewrite lookup_insert_ne by done. apply Hw1.
  - intros i w0 r0 w0' _ Hw0. destruct i as [c|m]; cbn [run_item].
    + intros [= <- <-]. split; [done|]. intros ->. by left.
    + intros Hm. apply (IH m) in Hm as [? ?]; [|done]. split; [done|]. intros Ht. right. eauto.
  - done.
Qed.

(** *** Completeness *)

Definition seen (w : Walk) (n : node) : Prop := key n ∈ visited w.

(** Every visited name is still being evaluated ([open]) or finished; a name
    finished with [false] has no direct relation and asks only visited names. *)
Record walk_inv (opened : list node) (w : Walk) : Prop := {
  wi_memo : ∀ n b, memo_cache w !! key n = Some b → seen w n;
  wi_seen : ∀ n, seen w n → n ∈ opened ∨ memo_cache w !! key n ≠ None;
  wi_false : ∀ n, memo_cache w !! key n = Some false →
    (inl true ∉ items n) ∧ (∀ m, inr m ∈ items n → seen w m) }.

Abbreviation unseen ns w := (unvisited key ns (visited w)).

(** What one evaluation does to the walk: it only adds; a negative answer
    leaves the name visited and adds no positive one. *)
Record walk_post (r : bool) (w w' : Walk) : Prop := {
  wp_visited : visited w ⊆ visited w';
  wp_memo : ∀ n b, memo_cache w !! key n = Some b → memo_cache w' !! key n = Some b;
  wp_true : r = false → ∀ n, memo_cache w' !! key n = Some true → memo_cache w !! key n = Some true }.

Lemma walk_post_refl r w : walk_post r w w.
Proof. done. Qed.

Lemma walk_post_trans r w1 w2 w3 : walk_post false w1 w2 → walk_post r w2 w3 → walk_post r w1 w3.
Proof.
  intros [A1 A2 A3] [B1 B2 B3]. split; [set_solver|naive_solver|].
  intros Hr n Hn. by apply A3, B3.
Qed.

Section closed.
Context (ns : list node).
Hypothesis ns_closed : ∀ n m, n ∈ ns → inr m ∈ items n → m ∈ ns.

Definition computes (levels : nat) (f : node → Walk → bool * Walk) : Prop :=
  ∀ opened n w r w', n ∈ ns → walk_inv opened w → (unseen ns w ≤ levels)%nat → f n w = (r, w') →
    walk_inv opened w' ∧ walk_post r w w' ∧ (r = false → seen w' n).

Lemma any_complete levels recur opened its w r w' :
  computes levels (λ n, recur n.1 n.2) → (∀ m, inr m ∈ its → m ∈ ns) →
  walk_inv opened w → (unseen ns w ≤ levels)%nat →
  any_st (run_item recur) its w = (r, w') →
  walk_inv opened w' ∧ walk_post r w w' ∧
  (r = false → (inl true ∉ its) ∧ (∀ m, inr m ∈ its → seen w' m)).
Proof.
  intros Hf. revert w. induction its as [|i its IH]; intros w Hns Hw Hle Hrun; cbn [any_st run_item] in Hrun.
  { injection Hrun as <- <-. split_and!; [done..|]. intros _. split; [set_solver|].
    intros m Hm. by apply not_elem_of_nil in Hm. }
  destruct i as [b|m]; cbn [run_item] in Hrun.
  - destruct b. { injection Hrun as <- <-. done. }
    destruct (IH w) as (? & ? & Hr); [set_solver|done..|]. split_and!; [done..|].
    intros Hf'. destruct (Hr Hf') as [H1 H2]. split; [|set_solver]. rewrite elem_of_cons. naive_solver.
  - destruct (recur m.1 m.2 w) as [b w1] eqn:Hm.
    destruct (Hf opened m w b w1) as (Hw1 & Hp1 & Hs1); [apply Hns; by left|done..|].
    destruct b. { injection Hrun as <- <-. done. }
    destruct (IH w1) as (Hw' & Hp' & Hr).
    + set_solver.
    + done.
    + pose proof (unvisited_mono key ns _ _ (wp_visited _ _ _ Hp1)). lia.
    + done.
    + split_and!; [done|by apply (walk_post_trans r w w1)|].
      intros Hf'. destruct (Hr Hf') as [H1 H2]. split; [rewrite elem_of_cons; naive_solver|].
      intros m' [[= ->]|Hm']%elem_of_cons; [|by apply H2].
      by apply (wp_visited _ _ _ Hp'), Hs1.
Qed.

Lemma walk_inv_mark opened n w :
  walk_inv opened w → walk_inv (n :: opened) (visit_mark (key n) w).
Proof.
  intros [H1 H2 H3]. split; unfold seen in *; cbn [visit_mark visited memo_cache].
  - intros m b Hm. specialize (H1 m b Hm). set_solver.
  - intros m [He%elem_of_singleton|Hm]%elem_of_union.
    + apply key_inj in He as ->. left. by left.
    + destruct (H2 m Hm); [left; by right|by right].
  - intros m Hm. destruct (H3 m Hm) as [? Hs]. split; [done|]. intros m' Hm'.
    specialize (Hs m' Hm'). set_solver.
Qed.

Lemma walk_inv_memo opened n r w :
  walk_inv (n :: opened) w → seen w n →
  (r = false → (inl true ∉ items n) ∧ (∀ m, inr m ∈ items n → seen w m)) →
  walk_inv opened (memo_insert (key n) r w).
Proof.
  intros [H1 H2 H3] Hn Hr. split; unfold seen in *; cbn [memo_insert visited memo_cache].
  - intros m b. destruct (decide (key n = key m)) as [He|Hne]; [by rewrite <-He|].
    rewrite lookup_insert_ne by done. apply H1.
  - intros m Hm. destruct (decide (key n = key m)) as [He|Hne].
    { right. by rewrite He, lookup_insert_eq. }
    rewrite lookup_insert_ne by done. destruct (H2 m Hm) as [[->|?]%elem_of_cons|?]; [done|by left|by right].
  - intros m. destruct (decide (key n = key m)) as [He|Hne].
    + apply key_inj in He as ->. rewrite lookup_insert_eq. intros [= ->]. by apply Hr.
    + rewrite lookup_insert_ne by done. apply H3.
Qed.

Lemma compute_complete levels : computes levels (compute levels).
Proof.
  induction levels as [|levels IH]; intros opened n w r w' Hn Hw Hle; unfold compute; cbn [compute_permission].
  { intros [= <- <-]. split_and!; [done|done|]. intros _. apply (unvisited_zero key ns); [done|lia]. }
  fold (key n). destruct (memo_cache w !! key n) as [b|] eqn:Hmemo.
  { intros [= <- <-]. split_and!; [done|done|]. intros _. by apply (wi_memo _ _ Hw n b). }
  case_bool_decide as Hseen. { by intros [= <- <-]. }
  rewrite evaluate_items. destruct (any_st _ _ _) as [b w1] eqn:Hrun. intros [= <- <-].
  apply (any_complete levels (compute_permission subject g namespaces levels) (n :: opened)) in Hrun as (Hw1 & Hp1 & Hr1).
  - assert (seen w1 n) as Hn1. { apply (wp_visited _ _ _ Hp1). cbn. set_solver. }
    split_and!; [by apply walk_inv_memo| |done].
    destruct Hp1 as [P1 P2 P3]. cbn [visit_mark visited memo_cache] in *.
    split; cbn [memo_insert visited memo_cache]; [set_solver|..].
    + intros m c Hm. rewrite lookup_insert_ne by congruence. by apply P2.
    + intros -> m. destruct (decide (key n = key m)) as [He|Hne].
      * rewrite He, lookup_insert_eq. done.
      * rewrite lookup_insert_ne by done. by apply P3.
  - exact IH.
  - intros m. by apply ns_closed.
  - by apply walk_inv_mark.
  - pose proof (unvisited_mark key ns (visited w) n Hn Hseen). cbn [visit_mark visited]. lia.
Qed.

Lemma check_complete n :
  n ∈ ns → (length ns ≤ S MAX_DEPTH)%nat → reach n → permission_check subject g namespaces n.1 n.2 = true.
Proof.
  intros Hn Hlen Hreach. unfold permission_check. fold (compute (S MAX_DEPTH) n walk_fresh).
  destruct (compute (S MAX_DEPTH) n walk_fresh) as [[] w] eqn:Hc; [done|]. exfalso.
  apply (compute_complete (S MAX_DEPTH) []) in Hc as (Hw & Hp & Hs).
  - specialize (Hs eq_refl).
    assert (∀ m, seen w m → memo_cache w !! key m = Some false) as Hfalse.
    { intros m Hm. destruct (wi_seen _ _ Hw m Hm) as [?%not_elem_of_nil|Hsome]; [done|].
      destruct (memo_cache w !! key m) as [[]|] eqn:Hmm; [|done..].
      by apply (wp_true _ _ _ Hp eq_refl) in Hmm. }
    clear Hn. induction Hreach as [m Hm|m m' Hm _ IH].
    + by apply (wi_false _ _ Hw m (Hfalse m Hs)).
    + apply IH. by apply (wi_false _ _ Hw m (Hfalse m Hs)).
  - done.
  - split; unfold seen, walk_fresh; cbn [memo_cache visited]; [..|intros m; by rewrite lookup_empty].
    + intros m b. by rewrite lookup_empty.
    + intros m ?%not_elem_of_empty. done.
  - etrans; [apply unvisited_empty|done].
Qed.
End closed.

Lemma check_sound n : permission_check subject g namespaces n.1 n.2 = true → reach n.
Proof.
  unfold permission_check. fold (compute (S MAX_DEPTH) n walk_fresh).
  destruct (compute (S MAX_DEPTH) n walk_fresh) as [r w] eqn:Hc. cbn. intros ->.
  eapply compute_sound; [|done|done]. intros m. cbn. by rewrite lookup_empty.
Qed.
End walk.

(** ** The search decides the semantics *)

Section decides.
Context (tuples : list ReBACTuple) (namespaces : gmap string NamespaceConfig) (subject : Entity).
Abbreviation g := (from_tuples tuples).
Abbreviation its := (items subject g namespaces).

Lemma check_direct_tuples p o :
  check_direct_relation g subject p o = true ↔
  ∃ t, t ∈ tuples ∧ subject_relation t = None ∧ relation t = p ∧ object_of_tuple t = o ∧
       (subject_of_tuple t = subject ∨ subject_of_tuple t = wildcard).
Proof.
  pose proof (ix_tuple _ _ (from_tuples_indexes tuples)) as Hix.
  unfold check_direct_relation. rewrite orb_true_iff, !bool_decide_eq_true, !Hix.
  unfold tuple_key_of, object_of_tuple, subject_of_tuple, wildcard.
  destruct o as [ot oi], subject as [st si]. cbn [entity_type entity_id]. split.
  - intros [(t & Ht & Hsr & [= E1 E2 E3 E4 E5])|(t & Ht & Hsr & [= E1 E2 E3 E4 E5])]; exists t;
      split_and!; try done; [by rewrite E1, E2|left|by rewrite E1, E2|right]; by rewrite E4, E5.
  - intros (t & Ht & Hsr & E3 & [= E1 E2] & [[= E4 E5]|[= E4 E5]]); [left|right]; exists t;
      split_and!; try done; by rewrite E1, E2, E3, E4, E5.
Qed.

Lemma entity_key_eq (e e' : Entity) (r r' : string) :
  (entity_type e, entity_id e, r) = (entity_type e', entity_id e', r') ↔ e = e' ∧ r = r'.
Proof. destruct e, e'. cbn. naive_solver. Qed.

Lemma elem_of_related e o r :
  e ∈ find_related_objects g o r ↔
  ∃ t, t ∈ tuples ∧ subject_of_tuple t = o ∧ relation t = r ∧ object_of_tuple t = e.
Proof.
  unfold find_related_objects. rewrite (ix_adjacency _ _ (from_tuples_indexes tuples)), elem_of_index.
  change (subject_key) with (λ t, (entity_type (subject_of_tuple t), entity_id (subject_of_tuple t), relation t)).
  setoid_rewrite entity_key_eq. naive_solver.
Qed.

Lemma elem_of_subjects e o r :
  e ∈ find_subjects_for_object g o r ↔
  ∃ t, t ∈ tuples ∧ object_of_tuple t = o ∧ relation t = r ∧ subject_of_tuple t = e.
Proof.
  unfold find_subjects_for_object. rewrite (ix_reverse _ _ (from_tuples_indexes tuples)), elem_of_index.
  change (object_key) with (λ t, (entity_type (object_of_tuple t), entity_id (object_of_tuple t), relation t)).
  setoid_rewrite entity_key_eq. naive_solver.
Qed.

Lemma elem_of_usersets u o r :
  u ∈ get_usersets g o r ↔
  ∃ t, t ∈ tuples ∧ object_of_tuple t = o ∧ relation t = r ∧
    subject_relation t = Some (us_subject_relation u) ∧ subject_of_tuple t = userset_entity u.
Proof.
  unfold get_usersets. rewrite (ix_userset _ _ (from_tuples_indexes tuples)), elem_of_index.
  change (object_key) with (λ t, (entity_type (object_of_tuple t), entity_id (object_of_tuple t), relation t)).
  setoid_rewrite entity_key_eq. unfold userset_row, subject_of_tuple, userset_entity.
  split.
  - intros (t & Ht & [Ho Hr] & (sr & Hsr & Hu)%fmap_Some). subst u. exists t. by rewrite Hsr.
  - intros (t & Ht & Ho & Hr & Hsr & [= E1 E2]). exists t. rewrite Hsr. destruct u. cbn in *. naive_solver.
Qed.

Lemma elem_of_items_inl n :
  inl true ∈ its n ↔
  rewrites namespaces n.2 n.1 = None ∧ check_direct_relation g subject n.1 n.2 = true.
Proof.
  unfold items. destruct (rewrites namespaces n.2 n.1) as [ps|].
  { split; [|naive_solver]. intros (q & [=] & _)%list_elem_of_fmap. }
  rewrite elem_of_app, elem_of_cons, list_elem_of_fmap. split.
  - intros [Ht|[[= <-]|(u & [=] & _)]]; [|done]. destruct (traverses _ _ _); [|by apply not_elem_of_nil in Ht].
    by apply list_elem_of_fmap in Ht as (e & [=] & _).
  - intros [_ <-]. by right; left.
Qed.

(** What a name on an object depends on, read off the tuples. *)
Inductive depends : node → node → Prop :=
  | depends_rewrite p o ps q :
      rewrites namespaces o p = Some ps → q ∈ ps → depends (p, o) (q, o)
  | depends_userset t sr :
      rewrites namespaces (object_of_tuple t) (relation t) = None → t ∈ tuples →
      subject_relation t = Some sr →
      depends (relation t, object_of_tuple t) (sr, subject_of_tuple t)
  | depends_forward p ttu t :
      traverses namespaces (subject_of_tuple t) p = Some ttu → t ∈ tuples →
      relation t = tupleset ttu →
      depends (p, subject_of_tuple t) (computed_userset ttu, object_of_tuple t)
  | depends_reverse p ttu t :
      traverses namespaces (object_of_tuple t) p = Some ttu → tupleset ttu ≠ "parent" →
      t ∈ tuples → relation t = tupleset ttu →
      depends (p, object_of_tuple t) (computed_userset ttu, subject_of_tuple t).

Lemma elem_of_items_inr n m : inr m ∈ its n ↔ depends n m.
Proof.
  destruct n as [p o]. unfold items. cbn [fst snd]. split.
  - destruct (rewrites namespaces o p) as [ps|] eqn:Hrw.
    { intros (q & [= ->] & Hq)%list_elem_of_fmap. by apply (depends_rewrite p o ps q). }
    rewrite elem_of_app, elem_of_cons. intros [Ht|[[=]|Hu]].
    + destruct (traverses namespaces o p) as [ttu|] eqn:Htr; [|by apply not_elem_of_nil in Ht].
      apply list_elem_of_fmap in Ht as (e & [= ->] & He). unfold items_traversed in He.
      apply elem_of_app in He as [(t & ? & <- & ? & <-)%elem_of_related|He].
      { by apply depends_forward. }
      case_bool_decide; [by apply not_elem_of_nil in He|].
      apply elem_of_subjects in He as (t & ? & <- & ? & <-). by apply depends_reverse.
    + apply list_elem_of_fmap in Hu as (u & [= ->] & (t & ? & <- & <- & ? & <-)%elem_of_usersets).
      by apply depends_userset.
  - inversion 1 as [p' o' ps q Hrw Hq|t sr Hrw Ht Hsr|p' ttu t Htr Ht Hr|p' ttu t Htr Hne Ht Hr]; subst.
    + rewrite Hrw. apply list_elem_of_fmap. eauto.
    + rewrite Hrw. apply elem_of_app. right. right. apply list_elem_of_fmap.
      exists (mkUserset (subject_type t) (subject_id t) sr). split; [done|]. apply elem_of_usersets. by exists t.
    + rewrite (traverses_relation _ _ _ _ Htr), Htr. apply elem_of_app. left. apply list_elem_of_fmap.
      exists (object_of_tuple t). split; [done|]. apply elem_of_app. left. apply elem_of_related. by exists t.
    + rewrite (traverses_relation _ _ _ _ Htr), Htr. apply elem_of_app. left. apply list_elem_of_fmap.
      exists (subject_of_tuple t). split; [done|]. apply elem_of_app. right.
      rewrite bool_decide_false by done. apply elem_of_subjects. by exists t.
Qed.

Lemma reach_granted n : reach subject g namespaces n ↔ granted tuples namespaces subject n.1 n.2.
Proof.
  split.
  - induction 1 as [[p o] Hn|n m Hm%elem_of_items_inr _ IH].
    + apply elem_of_items_inl in Hn as [Hrw (t & Ht & Hsr & Hp & Ho & Hs)%check_direct_tuples].
      cbn [fst snd] in *. subst p o. by apply granted_direct.
    + destruct Hm as [p o ps q Hrw Hq|t sr Hrw Ht Hsr|p ttu t Htr Ht Hr|p ttu t Htr Hne Ht Hr];
        cbn [fst snd] in *.
      * by apply (granted_rewrite _ _ _ p o ps q).
      * by apply (granted_userset _ _ _ t sr).
      * by apply (granted_forward _ _ _ p ttu t).
      * by apply (granted_reverse _ _ _ p ttu t).
  - destruct n as [p o]. cbn [fst snd].
    induction 1 as [t Hrw Ht Hsr Hs|t sr Hrw Ht Hsr _ IH|p o ps q Hrw Hq _ IH|p ttu t Htr Ht Hr _ IH
                   |p ttu t Htr Hne Ht Hr _ IH].
    + apply reach_here, elem_of_items_inl. split; [done|]. apply check_direct_tuples. eauto 10.
    + eapply reach_step; [|exact IH]. by apply elem_of_items_inr, depends_userset.
    + eapply reach_step; [|exact IH]. apply elem_of_items_inr. by apply (depends_rewrite p o ps q).
    + eapply reach_step; [|exact IH]. by apply elem_of_items_inr, depends_forward.
    + eapply reach_step; [|exact IH]. by apply elem_of_items_inr, depends_reverse.
Qed.
End decides.

(** C25: A permission check decides the relationship rules: whenever the names it
    can ask about number at most 51 ([MAX_DEPTH] and the first), the memoised
    walk with its cycle cut and its depth bound answers yes exactly when a
    finite derivation from the stored tuples grants the permission. *)
Theorem permission_check_exact tuples namespaces subject p o (names : list (string * Entity))
    (Hroot : (p, o) ∈ names)
    (Hclosed : ∀ n m, n ∈ names → depends tuples namespaces n m → m ∈ names)
    (Hsize : (length names ≤ S MAX_DEPTH)%nat) :
  permission_check subject (from_tuples tuples) namespaces p o = true ↔
  granted tuples namespaces subject p o.
Proof.
  rewrite <-(reach_granted tuples namespaces subject (p, o)). split.
  - apply (check_sound subject (from_tuples tuples) namespaces (p, o)).
  - apply (check_complete subject (from_tuples tuples) namespaces names); [|done..].
    intros n m Hn Hm%elem_of_items_inr. by apply (Hclosed n).
Qed.

(** The closure condition is decidable. *)
Definition closed_names (tuples : list ReBACTuple) (namespaces : gmap string NamespaceConfig)
    (names : list (string * Entity)) : bool :=
  forallb (λ n, forallb (λ i, match i with inl _ => true | inr m => bool_decide (m ∈ names) end)
    (items wildcard (from_tuples tuples) namespaces n)) names.

Lemma closed_names_spec tuples namespaces names :
  closed_names tuples namespaces names = true →
  ∀ n m, n ∈ names → depends tuples namespaces n m → m ∈ names.
Proof.
  unfold closed_names. rewrite forallb_forall. intros H n m Hn Hd.
  apply list_elem_of_In in Hn. specialize (H n Hn). rewrite forallb_forall in H.
  apply (elem_of_items_inr tuples namespaces wildcard) in Hd. apply list_elem_of_In in Hd.
  apply H in Hd. by apply bool_decide_eq_true_1 in Hd.
Qed.

(** A file in a folder shared with a group. *)
Definition demo_tuples : list ReBACTuple :=
  [mkTuple "file" "/docs/a" None "parent" "folder" "/docs";
   mkTuple "group" "eng" (Some "member") "viewer" "folder" "/docs";
   mkTuple "user" "alice" None "member" "group" "eng";
   mkTuple "group" "eng" (Some "member") "member" "group" "eng"].

Definition demo_namespaces : gmap string NamespaceConfig :=
  {["file" := mkNamespace {["viewer" := TupleToUserset (mkTTU "parent" "viewer")]}
                {["read" := ["viewer"]]}]}.

Definition demo_file : Entity := mkEntity "file" "/docs/a".
Definition demo_names : list (string * Entity) :=
  [("read", demo_file); ("viewer", demo_file); ("viewer", mkEntity "folder" "/docs");
   ("member", mkEntity "group" "eng")].

Lemma permission_check_exact_witness :
  granted demo_tuples demo_namespaces (mkEntity "user" "alice") "read" demo_file ∧
  ¬ granted demo_tuples demo_namespaces (mkEntity "user" "bob") "read" demo_file.
Proof.
  split.
  - apply (permission_check_exact demo_tuples demo_namespaces (mkEntity "user" "alice") "read"
      demo_file demo_names).
    + by left.
    + apply closed_names_spec. vm_compute. reflexivity.
    + cbn. unfold MAX_DEPTH. lia.
    + vm_compute. reflexivity.
  - intros H. apply (permission_check_exact demo_tuples demo_namespaces (mkEntity "user" "bob") "read"
      demo_file demo_names) in H.
    + vm_compute in H. discriminate H.
    + by left.
    + apply closed_names_spec. vm_compute. reflexivity.
    + cbn. unfold MAX_DEPTH. lia.
Defined.

(** ** The depth bound and the cache *)

(** Fifty nested groups, the last but one and the document they all share. *)
Definition chain_group (i : nat) : string := pretty (N.of_nat i).
Definition chain_grant : ReBACTuple :=
  mkTuple "g" (chain_group 0) (Some "m") "v" "d" "a".
Definition chain_tuples : list ReBACTuple :=
  mkTuple "g" (chain_group 49) (Some "m") "v" "d" "a"
  :: mkTuple "u" "a" None "m" "g" (chain_group 50)
  :: ((λ i, mkTuple "g" (chain_group (S i)) (Some "m") "m" "g" (chain_group i))
      <$> seq 0 50).

(** Adding a grant can take access away: a walk that first follows a chain of
    fifty nested groups reaches the depth bound, caches "no" for the group just
    before it, and the short path through that same group, which grants access
    on its own, then answers "no" as well. *)
Theorem added_grant_revokes :
  permission_check (mkEntity "u" "a") (from_tuples chain_tuples) ∅ "v" (mkEntity "d" "a")
    = true ∧
  permission_check (mkEntity "u" "a") (from_tuples (chain_grant :: chain_tuples)) ∅ "v"
    (mkEntity "d" "a") = false.
Proof. split; [vm_cast_no_check (eq_refl true)|vm_cast_no_check (eq_refl false)]. Qed.
