(* ===== verification/RebacExpand.v ===== *)
(** * Properties of the expansion

    [expand_permission] lists exactly the subjects the rules reach without
    entering a userset. *)

From S2P Require Import Prelude Rebac RebacProofs.

(** ** Expansion *)

(** What the expansion of a name on an object lists: the direct subjects of the
    plain relations it unfolds to, and their usersets as labels. *)
Inductive expands (tuples : list ReBACTuple) (namespaces : gmap string NamespaceConfig) :
    string → Entity → string * string → Prop :=
  | expands_direct t :
      rewrites namespaces (object_of_tuple t) (relation t) = None →
      t ∈ tuples → subject_relation t = None →
      expands tuples namespaces (relation t) (object_of_tuple t) (subject_type t, subject_id t)
  | expands_userset t sr :
      rewrites namespaces (object_of_tuple t) (relation t) = None →
      t ∈ tuples → subject_relation t = Some sr →
      expands tuples namespaces (relation t) (object_of_tuple t)
        (subject_type t +:+ "#" +:+ sr, subject_id t)
  | expands_rewrite p o ps q l :
      rewrites namespaces o p = Some ps → q ∈ ps →
      expands tuples namespaces q o l → expands tuples namespaces p o l
  | expands_forward p ttu t l :
      traverses namespaces (subject_of_tuple t) p = Some ttu → t ∈ tuples →
      relation t = tupleset ttu →
      expands tuples namespaces (computed_userset ttu) (object_of_tuple t) l →
      expands tuples namespaces p (subject_of_tuple t) l
  | expands_reverse p ttu t l :
      traverses namespaces (object_of_tuple t) p = Some ttu → tupleset ttu ≠ "parent" →
      t ∈ tuples → relation t = tupleset ttu →
      expands tuples namespaces (computed_userset ttu) (subject_of_tuple t) l →
      expands tuples namespaces p (object_of_tuple t) l.

Section expansion.
Context (g : ReBACGraph) (namespaces : gmap string NamespaceConfig).

(** The names an expansion visits from a name, and the labels it adds there. *)
Definition unfolds (n : node) : list node :=
  match rewrites namespaces n.2 n.1, traverses namespaces n.2 n.1 with
  | Some ps, _ => (λ q, (q, n.2)) <$> ps
  | None, Some ttu => (λ e, (computed_userset ttu, e)) <$> items_traversed g n.2 ttu
  | None, None => []
  end.

Definition labels (n : node) : gset (string * string) :=
  match rewrites namespaces n.2 n.1 with
  | Some _ => ∅
  | None =>
      list_to_set ((λ e, (entity_type e, entity_id e)) <$> find_direct_subjects_for_object g n.2 n.1)
      ∪ list_to_set (userset_label <$> get_usersets g n.2 n.1)
  end.

Definition add_labels (n : node) (x : Expansion) : Expansion :=
  mkExpansion (subjects x ∪ labels n) (expanded x).

Lemma each_app {A St} (f : A → St → St) xs ys s : each f (xs ++ ys) s = each f ys (each f xs s).
Proof. apply foldl_app. Qed.

Lemma each_fmap {A B St} (f : B → St → St) (h : A → B) xs s :
  each f (h <$> xs) s = each (λ x, f (h x)) xs s.
Proof. unfold each. revert s. induction xs as [|x xs IH]; intros s; [done|]. apply IH. Qed.

Lemma add_labels_none n x : rewrites namespaces n.2 n.1 ≠ None → add_labels n x = x.
Proof.
  intros H. unfold add_labels, labels. destruct (rewrites _ _ _); [|done].
  destruct x. cbn. by rewrite (right_id_L ∅ (∪)).
Qed.

Lemma expand_step_eq recur n x :
  expand_step g namespaces recur n.1 n.2 x =
    add_labels n (each (λ m, recur m.1 m.2) (unfolds n) x).
Proof.
  assert (rewrites namespaces n.2 n.1 = None → ∀ x,
    add_direct_subjects g n.1 n.2 x = add_labels n x) as Hadd.
  { intros Hrw y. unfold add_direct_subjects, add_labels, labels. rewrite Hrw.
    by rewrite (assoc_L (∪)). }
  pose proof (add_labels_none n) as Hnone. unfold expand_step, unfolds. unfold rewrites in *. unfold traverses.
  destruct (namespaces !! entity_type n.2) as [ns|]; cbn [mbind option_bind] in *; [|by rewrite Hadd].
  destruct (permissions ns !! n.1) as [us|]. { rewrite Hnone by done. by rewrite each_fmap. }
  destruct (relations ns !! n.1) as [[|us|ttu|]|]; try (by rewrite Hadd).
  { rewrite Hnone by done. by rewrite each_fmap. }
  rewrite Hadd by done. f_equal. rewrite each_fmap. unfold items_traversed. rewrite each_app.
  case_bool_decide; reflexivity.
Qed.

Definition expand (levels : nat) (n : node) (x : Expansion) : Expansion :=
  expand_permission g namespaces levels n.1 n.2 x.
Definition visit_key (n : node) : string * string * string := (n.1, entity_type n.2, entity_id n.2).

Lemma visit_key_inj n m : visit_key n = visit_key m → n = m.
Proof. destruct n as [p [ot oi]], m as [p' [ot' oi']]. unfold visit_key. cbn. by intros [= -> -> ->]. Qed.

Definition was_expanded (x : Expansion) (n : node) : Prop := visit_key n ∈ expanded x.

(** The labels below a name. *)
Inductive below : node → string * string → Prop :=
  | below_here n l : l ∈ labels n → below n l
  | below_step n m l : m ∈ unfolds n → below m l → below n l.

Record expand_inv (opened : list node) (x : Expansion) : Prop := {
  ei_labels : ∀ n, was_expanded x n → n ∈ opened ∨ labels n ⊆ subjects x;
  ei_next : ∀ n m, was_expanded x n → m ∈ unfolds n → n ∈ opened ∨ was_expanded x m }.

Record expand_post (bound : node → Prop) (x x' : Expansion) : Prop := {
  ep_subjects : subjects x ⊆ subjects x';
  ep_expanded : expanded x ⊆ expanded x';
  ep_sound : ∀ l, l ∈ subjects x' → l ∈ subjects x ∨ ∃ n, bound n ∧ below n l }.

Section closed.
Context (ns : list node).
Hypothesis ns_closed : ∀ n m, n ∈ ns → m ∈ unfolds n → m ∈ ns.
Abbreviation left_over x := (unvisited visit_key ns (expanded x)).

Definition expander (levels : nat) (f : node → Expansion → Expansion) : Prop :=
  ∀ opened n x, n ∈ ns → expand_inv opened x → (left_over x ≤ levels)%nat →
    expand_inv opened (f n x) ∧ expand_post (λ m, m = n) x (f n x) ∧ was_expanded (f n x) n.

Lemma expand_post_trans (P : node → Prop) x1 x2 x3 :
  expand_post P x1 x2 → expand_post P x2 x3 → expand_post P x1 x3.
Proof. intros [A1 A2 A3] [B1 B2 B3]. split; [set_solver..|]. naive_solver. Qed.

Lemma expand_post_weaken (P Q : node → Prop) x x' :
  (∀ n l, P n → below n l → ∃ m, Q m ∧ below m l) → expand_post P x x' → expand_post Q x x'.
Proof. intros HPQ [A1 A2 A3]. split; [done..|]. intros l Hl. destruct (A3 l Hl) as [?|(n & ? & ?)]; eauto. Qed.

Lemma each_expander levels f opened ms x :
  expander levels f → (∀ m, m ∈ ms → m ∈ ns) → expand_inv opened x → (left_over x ≤ levels)%nat →
  expand_inv opened (each f ms x) ∧ expand_post (λ m, m ∈ ms) x (each f ms x) ∧
  ∀ m, m ∈ ms → was_expanded (each f ms x) m.
Proof.
  intros Hf. revert x. induction ms as [|m ms IH]; intros x Hms Hx Hle.
  { split_and!; [done| |intros m Hm; by apply not_elem_of_nil in Hm]. split; [done..|]. by left. }
  destruct (Hf opened m x) as (H1 & H2 & H3); [apply Hms; by left|done..|].
  destruct (IH (f m x)) as (I1 & I2 & I3).
  - intros m' Hm'. apply Hms. by right.
  - done.
  - pose proof (unvisited_mono visit_key ns _ _ (ep_expanded _ _ _ H2)). lia.
  - cbn [each foldl]. fold (each f ms (f m x)). split_and!; [done| |].
    + apply (expand_post_trans _ x (f m x)).
      * eapply expand_post_weaken; [|exact H2]. intros n l -> Hl. exists m. split; [by left|done].
      * eapply expand_post_weaken; [|exact I2]. intros n l Hn Hl. exists n. split; [by right|done].
    + intros m' [->|Hm']%elem_of_cons; [|by apply I3]. by apply (ep_expanded _ _ _ I2).
Qed.

Lemma expand_inv_mark opened n x :
  expand_inv opened x →
  expand_inv (n :: opened) (mkExpansion (subjects x) ({[visit_key n]} ∪ expanded x)).
Proof.
  intros [H1 H2]. split; unfold was_expanded in *; cbn [subjects expanded].
  - intros m [->%elem_of_singleton%visit_key_inj|Hm]%elem_of_union; [left; by left|].
    destruct (H1 m Hm); [left; by right|by right].
  - intros m m' [->%elem_of_singleton%visit_key_inj|Hm]%elem_of_union Hm'; [left; by left|].
    destruct (H2 m m' Hm Hm'); [left; by right|right; set_solver].
Qed.

Lemma expand_inv_close opened n x :
  expand_inv (n :: opened) x → (∀ m, m ∈ unfolds n → was_expanded x m) →
  expand_inv opened (add_labels n x).
Proof.
  intros [H1 H2] Hn. split; unfold was_expanded in *; cbn [add_labels subjects expanded].
  - intros m Hm. destruct (H1 m Hm) as [[->|?]%elem_of_cons|?]; [right|by left|right]; set_solver.
  - intros m m' Hm Hm'. destruct (H2 m m' Hm Hm') as [[->|?]%elem_of_cons|?]; [right|by left|by right].
    by apply Hn.
Qed.

Lemma expand_expander levels : expander levels (expand levels).
Proof.
  induction levels as [|levels IH]; intros opened n x Hn Hx Hle; unfold expand; cbn [expand_permission].
  { split_and!; [done| |apply (unvisited_zero visit_key ns); [done|lia]]. split; [done..|]. by left. }
  fold (visit_key n). case_bool_decide as Hseen.
  { split_and!; [done| |done]. split; [done..|]. by left. }
  rewrite expand_step_eq. set (x1 := mkExpansion _ _).
  destruct (each_expander levels (expand levels) (n :: opened) (unfolds n) x1) as (H1 & H2 & H3).
  - exact IH.
  - intros m. by apply ns_closed.
  - by apply expand_inv_mark.
  - pose proof (unvisited_mark visit_key ns (expanded x) n Hn Hseen). cbn [x1 expanded]. lia.
  - change (each (λ m, expand_permission g namespaces levels m.1 m.2)) with (each (expand levels)).
    split_and!; [by apply expand_inv_close| |].
    + destruct H2 as [P1 P2 P3]. unfold x1 in *. cbn [subjects expanded] in *.
      split; cbn [add_labels subjects expanded]; [set_solver..|].
      intros l [Hl|Hl]%elem_of_union; [|right; exists n; split; [done|by apply below_here]].
      destruct (P3 l Hl) as [?|(m & Hm & Hb)]; [by left|]. right. exists n. split; [done|].
      by apply (below_step n m).
    + unfold was_expanded. cbn [add_labels expanded]. apply (ep_expanded _ _ _ H2). cbn. set_solver.
Qed.

Lemma expansion_exact n l :
  n ∈ ns → (length ns ≤ S MAX_DEPTH)%nat →
  l ∈ permission_subjects g namespaces n.1 n.2 ↔ below n l.
Proof.
  intros Hn Hlen. unfold permission_subjects. fold (expand (S MAX_DEPTH) n (mkExpansion ∅ ∅)).
  destruct (expand_expander (S MAX_DEPTH) [] n (mkExpansion ∅ ∅)) as (H1 & H2 & H3).
  - done.
  - split; unfold was_expanded; cbn; intros m; [intros ?%not_elem_of_empty|intros ? ?%not_elem_of_empty]; done.
  - etrans; [apply unvisited_empty|done].
  - split.
    + intros Hl. destruct (ep_sound _ _ _ H2 l Hl) as [?%not_elem_of_empty|(m & -> & Hb)]; done.
    + clear Hn H2. revert H1 H3. generalize (expand (S MAX_DEPTH) n (mkExpansion ∅ ∅)). intros x H1 H3 Hb.
      induction Hb as [m l Hl|m m' l Hm _ IH].
      * destruct (ei_labels _ _ H1 m H3) as [?%not_elem_of_nil|Hs]; [done|]. by apply Hs.
      * apply IH. destruct (ei_next _ _ H1 m m' H3 Hm) as [?%not_elem_of_nil|Hs]; done.
Qed.
End closed.
End expansion.

Section expands.
Context (tuples : list ReBACTuple) (namespaces : gmap string NamespaceConfig).

Lemma elem_of_direct e o r :
  e ∈ find_direct_subjects_for_object (from_tuples tuples) o r ↔
  ∃ t, t ∈ tuples ∧ object_of_tuple t = o ∧ relation t = r ∧ subject_relation t = None ∧
       subject_of_tuple t = e.
Proof.
  unfold find_direct_subjects_for_object.
  rewrite (ix_direct _ _ (from_tuples_indexes tuples)), elem_of_index.
  change (object_key) with (λ t, (entity_type (object_of_tuple t), entity_id (object_of_tuple t), relation t)).
  setoid_rewrite entity_key_eq. unfold direct_row. split.
  - intros (t & Ht & [Ho Hr] & He). exists t. destruct (subject_relation t); naive_solver.
  - intros (t & Ht & Ho & Hr & Hs & He). exists t. rewrite Hs. naive_solver.
Qed.

Lemma elem_of_labels n l :
  l ∈ labels (from_tuples tuples) namespaces n ↔
  rewrites namespaces n.2 n.1 = None ∧ ∃ t, t ∈ tuples ∧ object_of_tuple t = n.2 ∧ relation t = n.1 ∧
    l = match subject_relation t with
        | None => (subject_type t, subject_id t)
        | Some sr => (subject_type t +:+ "#" +:+ sr, subject_id t)
        end.
Proof.
  unfold labels. destruct (rewrites namespaces n.2 n.1); [set_solver|].
  rewrite elem_of_union, !elem_of_list_to_set, !list_elem_of_fmap. split.
  - intros [(e & -> & (t & ? & ? & ? & Hs & <-)%elem_of_direct)|(u & -> & (t & ? & ? & ? & Hs & He)%elem_of_usersets)].
    + split; [done|]. exists t. by rewrite Hs.
    + split; [done|]. exists t. rewrite Hs. split_and!; [done..|]. unfold userset_label.
      injection He as <- <-. done.
  - intros [_ (t & ? & ? & ? & ->)]. destruct (subject_relation t) as [sr|] eqn:Hs; [right|left].
    + exists (mkUserset (subject_type t) (subject_id t) sr). split; [done|]. apply elem_of_usersets. by exists t.
    + exists (subject_of_tuple t). split; [done|]. apply elem_of_direct. by exists t.
Qed.

(** An unfolded name is a dependency that is not a userset. *)
Lemma elem_of_unfolds n m :
  m ∈ unfolds (from_tuples tuples) namespaces n ↔
  (∃ ps, rewrites namespaces n.2 n.1 = Some ps ∧ m.1 ∈ ps ∧ m.2 = n.2) ∨
  (∃ ttu t, traverses namespaces n.2 n.1 = Some ttu ∧ t ∈ tuples ∧ relation t = tupleset ttu ∧
     m.1 = computed_userset ttu ∧
     ((subject_of_tuple t = n.2 ∧ m.2 = object_of_tuple t) ∨
      (tupleset ttu ≠ "parent" ∧ object_of_tuple t = n.2 ∧ m.2 = subject_of_tuple t))).
Proof.
  destruct m as [q o']. cbn [fst snd]. unfold unfolds.
  destruct (rewrites namespaces n.2 n.1) as [ps|] eqn:Hrw.
  { rewrite list_elem_of_fmap. split.
    - intros (q' & [= -> ->] & Hq). left. eauto.
    - intros [(ps' & [= <-] & Hq & ->)|(ttu & t & Htr & _)]; [by exists q|].
      apply traverses_relation in Htr. congruence. }
  destruct (traverses namespaces n.2 n.1) as [ttu|].
  - rewrite list_elem_of_fmap. unfold items_traversed. setoid_rewrite elem_of_app.
    setoid_rewrite elem_of_related. split.
    + intros (e & [= -> ->] & [(t & ? & ? & ? & <-)|He]); right; [exists ttu, t; naive_solver|].
      case_bool_decide; [by apply not_elem_of_nil in He|].
      apply elem_of_subjects in He as (t & ? & ? & ? & <-). exists ttu, t. naive_solver.
    + intros [(ps & [=] & _)|(ttu' & t & [= <-] & Ht & Hr & -> & [[Hs ->]|(Hp & Ho & ->)])].
      * eexists. split; [done|]. left. by exists t.
      * eexists. split; [done|]. right. rewrite bool_decide_false by done. apply elem_of_subjects. by exists t.
  - split; [by intros ?%not_elem_of_nil|]. naive_solver.
Qed.

Lemma below_expands n l :
  below (from_tuples tuples) namespaces n l ↔ expands tuples namespaces n.1 n.2 l.
Proof.
  split.
  - induction 1 as [[p o] l Hl|[p o] [q o'] l Hm _ IH]; cbn [fst snd] in *.
    + apply elem_of_labels in Hl as [Hrw (t & Ht & Ho & Hr & ->)]. cbn [fst snd] in *. subst.
      destruct (subject_relation t) eqn:Hs; [by apply expands_userset|by apply expands_direct].
    + apply elem_of_unfolds in Hm as [(ps & Hrw & Hq & Ho)|(ttu & t & Htr & Ht & Hr & Hq & [[Hs Ho]|(Hp & Ho & Hs)])];
        cbn [fst snd] in *; subst.
      * by apply (expands_rewrite _ _ p o ps q).
      * by apply (expands_forward _ _ p ttu t).
      * by apply (expands_reverse _ _ p ttu t).
  - destruct n as [p o]. cbn [fst snd].
    induction 1 as [t Hrw Ht Hs|t sr Hrw Ht Hs|p o ps q l Hrw Hq _ IH|p ttu t l Htr Ht Hr _ IH
                   |p ttu t l Htr Hp Ht Hr _ IH].
    + apply below_here, elem_of_labels. split; [done|]. exists t. by rewrite Hs.
    + apply below_here, elem_of_labels. split; [done|]. exists t. by rewrite Hs.
    + eapply below_step; [|exact IH]. apply elem_of_unfolds. left. eauto.
    + eapply below_step; [|exact IH]. apply elem_of_unfolds. right. exists ttu, t. naive_solver.
    + eapply below_step; [|exact IH]. apply elem_of_unfolds. right. exists ttu, t. naive_solver.
Qed.

Lemma unfolds_depends n m : m ∈ unfolds (from_tuples tuples) namespaces n → depends tuples namespaces n m.
Proof.
  destruct n as [p o], m as [q o']. intros Hm. apply elem_of_unfolds in Hm.
  destruct Hm as [(ps & Hrw & Hq & Ho)|(ttu & t & Htr & Ht & Hr & Hq & [[Hs Ho]|(Hp & Ho & Hs)])];
    cbn [fst snd] in *; subst.
  - by apply (depends_rewrite _ _ p o ps q).
  - by apply depends_forward.
  - by apply depends_reverse.
Qed.
End expands.

(** Expanding a permission lists exactly its subjects: under the same bound
    as a check, a pair is in the result exactly when the rules unfold the
    permission to a plain relation that a stored tuple gives it, a userset being
    listed as its label. *)
Theorem expand_permission_exact tuples namespaces p o (names : list (string * Entity)) l
    (Hroot : (p, o) ∈ names)
    (Hclosed : ∀ n m, n ∈ names → depends tuples namespaces n m → m ∈ names)
    (Hsize : (length names ≤ S MAX_DEPTH)%nat) :
  l ∈ permission_subjects (from_tuples tuples) namespaces p o ↔ expands tuples namespaces p o l.
Proof.
  rewrite <-(below_expands tuples namespaces (p, o)).
  refine (expansion_exact _ _ names _ (p, o) l Hroot Hsize).
  intros n m Hn Hm%unfolds_depends. by apply (Hclosed n).
Qed.

Lemma expand_permission_exact_witness :
  expands demo_tuples demo_namespaces "read" demo_file ("group#member", "eng").
Proof.
  apply (expand_permission_exact demo_tuples demo_namespaces "read" demo_file demo_names).
  - by left.
  - apply closed_names_spec. vm_compute. reflexivity.
  - cbn. unfold MAX_DEPTH. lia.
  - vm_compute. reflexivity.
Defined.
