(* ===== verification/RebacInterned.v ===== *)
(** * The interned graph

    src/rust/lib/src/rebac/graph.rs and the interned types of
    src/rust/lib/src/types.rs: the permission check over interned symbols, and
    its equivalence with the check over strings. *)

From S2P Require Import Prelude Rebac RebacProofs RebacExpand.

(** A symbol of the string interner. *)
Abbreviation Sym := N.

Record InternedEntity := mkIEntity { ie_type : Sym; ie_id : Sym }.

Record InternedTuple := mkITuple {
  it_subject_type : Sym;
  it_subject_id : Sym;
  it_subject_relation : option Sym;
  it_relation : Sym;
  it_object_type : Sym;
  it_object_id : Sym }.

Record InternedUsersetEntry := mkIUserset {
  iu_subject_type : Sym;
  iu_subject_id : Sym;
  iu_subject_relation : Sym }.

Inductive InternedRelationConfig :=
  | IDirect
  | IUnion (union : list Sym)
  | ITupleToUserset (tupleset computed_userset : Sym) (skip_reverse : bool).

Record InternedNamespaceConfig := mkINamespace {
  i_relations : gmap Sym InternedRelationConfig;
  i_permissions : gmap Sym (list Sym) }.

Abbreviation InternedTupleKey := (Sym * Sym * Sym * Sym * Sym)%type.
Abbreviation InternedAdjacencyKey := (Sym * Sym * Sym)%type.

Record InternedGraph := mkIGraph {
  i_tuple_index : gset InternedTupleKey;
  i_adjacency_list : gmap InternedAdjacencyKey (list InternedEntity);
  i_reverse_adjacency : gmap InternedAdjacencyKey (list InternedEntity);
  i_userset_index : gmap InternedAdjacencyKey (list InternedUsersetEntry);
  i_wildcard_subject : option InternedEntity }.

(** The body of the loop of [InternedGraph::from_tuples]. *)
Definition i_add_tuple (g : InternedGraph) (t : InternedTuple) : InternedGraph :=
  let object_key := (it_object_type t, it_object_id t, it_relation t) in
  let adjacency :=
    entry_push (it_subject_type t, it_subject_id t, it_relation t)
      (mkIEntity (it_object_type t) (it_object_id t)) (i_adjacency_list g) in
  let reverse :=
    entry_push object_key (mkIEntity (it_subject_type t) (it_subject_id t)) (i_reverse_adjacency g) in
  match it_subject_relation t with
  | Some subject_relation =>
      mkIGraph (i_tuple_index g) adjacency reverse
        (entry_push object_key
           (mkIUserset (it_subject_type t) (it_subject_id t) subject_relation) (i_userset_index g))
        (i_wildcard_subject g)
  | None =>
      mkIGraph
        ({[(it_object_type t, it_object_id t, it_relation t, it_subject_type t, it_subject_id t)]}
         ∪ i_tuple_index g)
        adjacency reverse (i_userset_index g) (i_wildcard_subject g)
  end.

(** The memo cache and the visited set. *)
Record IWalk := mkIWalk { i_memo : gmap InternedTupleKey bool; i_visited : gset InternedTupleKey }.

Section interned.
(** [get_or_intern] of the interner, once every string has its symbol. *)
Context (intern : string → Sym).

Definition i_from_tuples (tuples : list InternedTuple) : InternedGraph :=
  foldl i_add_tuple (mkIGraph ∅ ∅ ∅ ∅ (Some (mkIEntity (intern "*") (intern "*")))) tuples.

(** [InternedNamespaceConfig::from_config] *)
Definition i_relation_config (c : RelationConfig) : InternedRelationConfig :=
  match c with
  | Direct | EmptyDict => IDirect
  | Union union => IUnion (intern <$> union)
  | TupleToUserset ttu =>
      ITupleToUserset (intern (tupleset ttu)) (intern (computed_userset ttu))
        (bool_decide (tupleset ttu = "parent"))
  end.

Definition from_config (c : NamespaceConfig) : InternedNamespaceConfig :=
  mkINamespace (kmap intern (i_relation_config <$> relations c))
    (kmap intern (fmap (M := list) intern <$> permissions c)).
End interned.

Definition i_check_direct_relation (g : InternedGraph) (subject : InternedEntity) (relation : Sym)
    (object : InternedEntity) : bool :=
  bool_decide ((ie_type object, ie_id object, relation, ie_type subject, ie_id subject) ∈ i_tuple_index g)
  || match i_wildcard_subject g with
     | Some wildcard =>
         bool_decide ((ie_type object, ie_id object, relation, ie_type wildcard, ie_id wildcard)
                      ∈ i_tuple_index g)
     | None => false
     end.

Definition i_find_related_objects (g : InternedGraph) (subject : InternedEntity) (relation : Sym) :
    list InternedEntity :=
  default [] (i_adjacency_list g !! (ie_type subject, ie_id subject, relation)).
Definition i_find_subjects_for_object (g : InternedGraph) (object : InternedEntity) (relation : Sym) :
    list InternedEntity :=
  default [] (i_reverse_adjacency g !! (ie_type object, ie_id object, relation)).
Definition i_get_usersets (g : InternedGraph) (object : InternedEntity) (relation : Sym) :
    list InternedUsersetEntry :=
  default [] (i_userset_index g !! (ie_type object, ie_id object, relation)).

Section check.
Context (subject : InternedEntity) (g : InternedGraph)
  (namespaces : gmap Sym InternedNamespaceConfig).

Definition check_relation_with_usersets_interned
    (recur : Sym → InternedEntity → IWalk → bool * IWalk)
    (relation : Sym) (object : InternedEntity) (w : IWalk) : bool * IWalk :=
  if i_check_direct_relation g subject relation object then (true, w)
  else any_st (λ u, recur (iu_subject_relation u) (mkIEntity (iu_subject_type u) (iu_subject_id u)))
         (i_get_usersets g object relation) w.

Definition i_evaluate (recur : Sym → InternedEntity → IWalk → bool * IWalk) (permission : Sym)
    (object : InternedEntity) (w : IWalk) : bool * IWalk :=
  match namespaces !! ie_type object with
  | None => check_relation_with_usersets_interned recur permission object w
  | Some namespace =>
      match i_permissions namespace !! permission with
      | Some usersets => any_st (λ userset, recur userset object) usersets w
      | None =>
          match i_relations namespace !! permission with
          | Some (IUnion union) => any_st (λ rel, recur rel object) union w
          | Some (ITupleToUserset tupleset computed_userset skip_reverse) =>
              let '(allowed, w) :=
                any_st (recur computed_userset) (i_find_related_objects g object tupleset) w in
              let '(allowed, w) :=
                if negb allowed && negb skip_reverse
                then any_st (recur computed_userset) (i_find_subjects_for_object g object tupleset) w
                else (allowed, w) in
              if (allowed : bool) then (true, w)
              else check_relation_with_usersets_interned recur permission object w
          | Some IDirect | None => check_relation_with_usersets_interned recur permission object w
          end
      end
  end.

Fixpoint compute_permission_interned (levels : nat) (permission : Sym) (object : InternedEntity)
    (w : IWalk) : bool * IWalk :=
  match levels with
  | O => (false, w)
  | S levels =>
      let key := (ie_type subject, ie_id subject, permission, ie_type object, ie_id object) in
      match i_memo w !! key with
      | Some result => (result, w)
      | None =>
          if bool_decide (key ∈ i_visited w) then (false, w)
          else
            let '(result, w) :=
              i_evaluate (compute_permission_interned levels) permission object
                (mkIWalk (i_memo w) ({[key]} ∪ i_visited w)) in
            (result, mkIWalk (<[key := result]> (i_memo w)) (i_visited w))
      end
  end.
End check.

(** ** Equivalence *)

Section equivalence.
Context (intern : string → Sym) `{Hinj : !Inj (=) (=) intern}.

Definition i_entity (e : Entity) : InternedEntity := mkIEntity (intern (entity_type e)) (intern (entity_id e)).
Definition i_userset (u : UsersetEntry) : InternedUsersetEntry :=
  mkIUserset (intern (us_subject_type u)) (intern (us_subject_id u)) (intern (us_subject_relation u)).
Definition i_tuple (t : ReBACTuple) : InternedTuple :=
  mkITuple (intern (subject_type t)) (intern (subject_id t)) (intern <$> subject_relation t)
    (intern (relation t)) (intern (object_type t)) (intern (object_id t)).
Definition i_key3 (k : AdjacencyKey) : InternedAdjacencyKey := (intern k.1.1, intern k.1.2, intern k.2).
Definition i_key5 (k : TupleKey) : InternedTupleKey := (i_key3 k.1.1, intern k.1.2, intern k.2).

#[local] Instance i_key3_inj : Inj (=) (=) i_key3.
Proof. intros [[a b] c] [[a' b'] c'] [= ->%Hinj ->%Hinj ->%Hinj]. done. Qed.
#[local] Instance i_key5_inj : Inj (=) (=) i_key5.
Proof.
  intros [[[[a b] c] d] e] [[[[a' b'] c'] d'] e'] [= ->%Hinj ->%Hinj ->%Hinj ->%Hinj ->%Hinj]. done.
Qed.

Record graph_sim (g : ReBACGraph) (gi : InternedGraph) : Prop := {
  gs_tuple : ∀ k, i_key5 k ∈ i_tuple_index gi ↔ k ∈ tuple_index g;
  gs_adjacency : ∀ k, default [] (i_adjacency_list gi !! i_key3 k)
    = i_entity <$> default [] (adjacency_list g !! k);
  gs_reverse : ∀ k, default [] (i_reverse_adjacency gi !! i_key3 k)
    = i_entity <$> default [] (reverse_adjacency g !! k);
  gs_userset : ∀ k, default [] (i_userset_index gi !! i_key3 k)
    = i_userset <$> default [] (userset_index g !! k);
  gs_wildcard : i_wildcard_subject gi = Some (i_entity wildcard) }.

Lemma entry_push_sim {V W} (f : V → W) (k : AdjacencyKey) (v : V) (m : gmap AdjacencyKey (list V))
    (mi : gmap InternedAdjacencyKey (list W)) :
  (∀ k, default [] (mi !! i_key3 k) = f <$> default [] (m !! k)) →
  ∀ k', default [] (entry_push (i_key3 k) (f v) mi !! i_key3 k') = f <$> default [] (entry_push k v m !! k').
Proof.
  intros H k'. rewrite !entry_push_lookup, fmap_app, H. f_equal.
  destruct (decide (k = k')) as [->|Hne]; [by rewrite decide_True|].
  rewrite decide_False; [done|]. by intros ?%(inj i_key3).
Qed.

Lemma add_tuple_sim g gi t : graph_sim g gi → graph_sim (add_tuple g t) (i_add_tuple gi (i_tuple t)).
Proof.
  intros [H1 H2 H3 H4 H5]. unfold add_tuple, i_add_tuple. cbn [i_tuple it_subject_relation].
  destruct (subject_relation t) as [sr|]; cbn [fmap option_fmap option_map];
    split; cbn [i_tuple_index i_adjacency_list i_reverse_adjacency i_userset_index i_wildcard_subject
      tuple_index adjacency_list reverse_adjacency userset_index]; try done.
  1,5: exact (entry_push_sim i_entity (subject_key t) (object_of_tuple t) _ _ H2).
  1,4: exact (entry_push_sim i_entity (object_key t) (subject_of_tuple t) _ _ H3).
  - exact (entry_push_sim i_userset (object_key t) (mkUserset _ _ sr) _ _ H4).
  - intros k. rewrite !elem_of_union, !elem_of_singleton, H1.
    change (i_key5 k = _) with (i_key5 k = i_key5 (tuple_key_of t)). split; [|naive_solver].
    intros [->%(inj i_key5)|?]; [by left|by right].
Qed.

Lemma from_tuples_sim tuples : graph_sim (from_tuples tuples) (i_from_tuples intern (i_tuple <$> tuples)).
Proof.
  unfold from_tuples, i_from_tuples. induction tuples as [|t tuples IH] using rev_ind.
  { split; intros; done. }
  rewrite fmap_app, !foldl_app. cbn [foldl fmap list_fmap]. by apply add_tuple_sim.
Qed.

Context (namespaces : gmap string NamespaceConfig) (subject : Entity).
Abbreviation i_namespaces := (kmap intern (from_config intern <$> namespaces) : gmap Sym InternedNamespaceConfig).

Record walk_sim (w : Walk) (wi : IWalk) : Prop := {
  ws_memo : ∀ k, i_memo wi !! i_key5 k = memo_cache w !! k;
  ws_visited : ∀ k, i_key5 k ∈ i_visited wi ↔ k ∈ visited w }.

(** Related computations: the same answer and related walks. *)
Definition sim (f : Walk → bool * Walk) (fi : IWalk → bool * IWalk) : Prop :=
  ∀ w wi, walk_sim w wi → (fi wi).1 = (f w).1 ∧ walk_sim (f w).2 (fi wi).2.

Lemma any_sim {A B} (h : A → B) (f : A → Walk → bool * Walk) fi xs :
  (∀ x, sim (f x) (fi (h x))) → sim (any_st f xs) (any_st fi (h <$> xs)).
Proof.
  intros Hf. induction xs as [|x xs IH]; intros w wi Hw; [done|]. cbn [fmap list_fmap any_st].
  destruct (Hf x w wi Hw) as [Hr Hw']. destruct (f x w) as [r w'], (fi (h x) wi) as [ri wi'].
  cbn [fst snd] in *. subst ri. destruct r; [done|]. by apply IH.
Qed.

Section recursive.
Context (g : ReBACGraph) (gi : InternedGraph) (Hg : graph_sim g gi).
Context (recur : string → Entity → Walk → bool * Walk)
  (recur_i : Sym → InternedEntity → IWalk → bool * IWalk).
Hypothesis Hrec : ∀ p o, sim (recur p o) (recur_i (intern p) (i_entity o)).

Lemma direct_sim p o :
  i_check_direct_relation gi (i_entity subject) (intern p) (i_entity o) = check_direct_relation g subject p o.
Proof.
  unfold i_check_direct_relation, check_direct_relation. rewrite (gs_wildcard _ _ Hg).
  f_equal; apply bool_decide_ext; apply (gs_tuple _ _ Hg (_, _, _, _, _)).
Qed.

Lemma usersets_sim o r : i_get_usersets gi (i_entity o) (intern r) = i_userset <$> get_usersets g o r.
Proof. apply (gs_userset _ _ Hg (_, _, _)). Qed.
Lemma related_sim o r :
  i_find_related_objects gi (i_entity o) (intern r) = i_entity <$> find_related_objects g o r.
Proof. apply (gs_adjacency _ _ Hg (_, _, _)). Qed.
Lemma subjects_sim o r :
  i_find_subjects_for_object gi (i_entity o) (intern r) = i_entity <$> find_subjects_for_object g o r.
Proof. apply (gs_reverse _ _ Hg (_, _, _)). Qed.

Lemma check_relation_sim p o :
  sim (check_relation_with_usersets subject g recur p o)
    (check_relation_with_usersets_interned (i_entity subject) gi recur_i (intern p) (i_entity o)).
Proof.
  intros w wi Hw. unfold check_relation_with_usersets, check_relation_with_usersets_interned.
  rewrite direct_sim. destruct (check_direct_relation _ _ _ _); [done|].
  rewrite usersets_sim. apply any_sim; [|done]. intros u. apply (Hrec _ (userset_entity u)).
Qed.

Lemma evaluate_sim p o :
  sim (evaluate subject g namespaces recur p o)
    (i_evaluate (i_entity subject) gi i_namespaces recur_i (intern p) (i_entity o)).
Proof.
  intros w wi Hw. unfold evaluate, i_evaluate. cbn [i_entity ie_type].
  rewrite lookup_kmap, lookup_fmap by apply _.
  destruct (namespaces !! entity_type o) as [ns|]; cbn [fmap option_fmap option_map];
    [|by apply check_relation_sim].
  cbn [from_config i_permissions i_relations]. rewrite !lookup_kmap, !lookup_fmap by apply _.
  destruct (permissions ns !! p) as [us|]; cbn [fmap option_fmap option_map].
  { apply any_sim; [|done]. intros q. apply Hrec. }
  destruct (relations ns !! p) as [[|us|ttu|]|]; cbn [fmap option_fmap option_map i_relation_config];
    try by apply check_relation_sim.
  { apply any_sim; [|done]. intros q. apply Hrec. }
  rewrite related_sim, subjects_sim.
  pose proof (any_sim i_entity (recur (computed_userset ttu)) (recur_i (intern (computed_userset ttu))))
    as Hany.
  set (fwd := find_related_objects _ _ _). set (rev := find_subjects_for_object _ _ _).
  destruct (Hany fwd (Hrec _) w wi Hw) as [Hr1 Hw1].
  destruct (any_st _ fwd w) as [r1 w1], (any_st _ _ wi) as [ri1 wi1]. cbn [fst snd] in *. subst ri1.
  destruct r1; [done|]. cbn [negb andb]. destruct (bool_decide _); cbn [negb].
  { by apply check_relation_sim. }
  destruct (Hany rev (Hrec _) w1 wi1 Hw1) as [Hr2 Hw2].
  destruct (any_st _ rev w1) as [r2 w2], (any_st _ _ wi1) as [ri2 wi2]. cbn [fst snd] in *. subst ri2.
  destruct r2; [done|]. by apply check_relation_sim.
Qed.
End recursive.

Lemma compute_sim g gi levels p o :
  graph_sim g gi →
  sim (compute_permission subject g namespaces levels p o)
    (compute_permission_interned (i_entity subject) gi i_namespaces levels (intern p) (i_entity o)).
Proof.
  intros Hg. revert p o. induction levels as [|levels IH]; intros p o w wi Hw; [done|].
  cbn [compute_permission compute_permission_interned].
  change (ie_type (i_entity subject), ie_id (i_entity subject), intern p, ie_type (i_entity o),
          ie_id (i_entity o)) with (i_key5 (memo_key subject p o)).
  rewrite (ws_memo _ _ Hw). destruct (memo_cache w !! memo_key subject p o); [done|].
  rewrite (bool_decide_ext _ _ (ws_visited _ _ Hw (memo_key subject p o))).
  destruct (bool_decide _); [done|].
  assert (walk_sim (visit_mark (memo_key subject p o) w)
    (mkIWalk (i_memo wi) ({[i_key5 (memo_key subject p o)]} ∪ i_visited wi))) as Hm.
  { split; cbn [visit_mark memo_cache visited i_memo i_visited]; [apply Hw|]. intros k.
    rewrite !elem_of_union, !elem_of_singleton, (ws_visited _ _ Hw). split; [|naive_solver].
    intros [->%(inj i_key5)|?]; [by left|by right]. }
  destruct (evaluate_sim g gi Hg _ _ IH p o _ _ Hm) as [Hr Hw'].
  destruct (evaluate _ _ _ _ _ _ _) as [r w'], (i_evaluate _ _ _ _ _ _ _) as [ri wi'].
  cbn [fst snd] in *. subst ri. split; [done|].
  split; cbn [memo_insert memo_cache visited i_memo i_visited]; [|apply Hw'].
  intros k. destruct (decide (memo_key subject p o = k)) as [<-|Hne]; [by rewrite !lookup_insert_eq|].
  rewrite !lookup_insert_ne; [apply Hw'|done|]. by intros ?%(inj i_key5).
Qed.
End equivalence.

(** C26: The interned graph is only faster: for every interner that gives different
    strings different symbols, every set of tuples, every configuration and
    every query, the check over symbols answers as the check over strings. *)
Theorem interned_check_equivalent (intern : string → Sym) tuples namespaces subject p o
    (Hinj : ∀ a b, intern a = intern b → a = b) :
  (compute_permission_interned (i_entity intern subject) (i_from_tuples intern (i_tuple intern <$> tuples))
     (kmap intern (from_config intern <$> namespaces)) (S MAX_DEPTH) (intern p) (i_entity intern o)
     (mkIWalk ∅ ∅)).1
  = permission_check subject (from_tuples tuples) namespaces p o.
Proof.
  assert (Inj (=) (=) intern) as Hi by (intros a b; apply Hinj).
  apply (compute_sim intern namespaces subject); [by apply from_tuples_sim|].
  split; [done|]. intros k. cbn. set_solver.
Qed.

Lemma interned_check_equivalent_witness :
  let intern s := Npos (encode (s : string)) in
  (compute_permission_interned (i_entity intern (mkEntity "user" "alice"))
     (i_from_tuples intern (i_tuple intern <$> demo_tuples))
     (kmap intern (from_config intern <$> demo_namespaces)) (S MAX_DEPTH) (intern "read")
     (i_entity intern demo_file) (mkIWalk ∅ ∅)).1 = true.
Proof.
  intros intern.
  rewrite (interned_check_equivalent intern demo_tuples demo_namespaces (mkEntity "user" "alice") "read"
    demo_file).
  - vm_compute. reflexivity.
  - intros a b [= H]. by apply (inj encode) in H.
Defined.
