(* ===== verification/RebacStore.v ===== *)
(** * Tuple storage and enforcement

    src/rust/rebac/src: the tuple key format (tuple_key.rs), the store interface
    with its in-memory and replicated implementations (store.rs, inmem.rs,
    raft_store.rs over src/rust/raft/src/control_state_store.rs), the per-zone
    graph cache (graph_cache.rs), the permission provider of the kernel
    (permission_provider.rs) and the zone listing (list_zones.rs). *)

From S2P Require Import Prelude Bytes Codec Table Command Rename StateMachine Rebac.

(** ** Tuple keys *)

Definition SEP : ascii := "|".

(** [segments.join("|")] *)
Fixpoint sjoin (segments : list string) : string :=
  match segments with
  | [] => ""
  | [s] => s
  | s :: segments => s +:+ String SEP (sjoin segments)
  end.

(** [key.split_once('|')], first part. *)
Fixpoint split_first (s : string) : option string :=
  match s with
  | "" => None
  | String a s => if decide (a = SEP) then Some "" else String a <$> split_first s
  end.

Definition segments_of (zone : string) (t : ReBACTuple) : list string :=
  [zone; object_type t; object_id t; relation t; subject_type t; subject_id t]
  ++ match subject_relation t with Some sr => [sr] | None => [] end.

Definition reserved_char (segment : string) : bool :=
  scontains SEP segment || scontains "010" segment || scontains "013" segment.

Definition tuple_encode (zone : string) (t : ReBACTuple) : result string string :=
  let segments := segments_of zone t in
  if existsb reserved_char segments
  then Err "rebac tuple segment contains reserved delimiter or newline/carriage-return"
  else Ok (sjoin segments).

Definition tuple_zone_of (key : string) : option string := split_first key.

Definition tuple_decode (key : string) : option (string * ReBACTuple) :=
  match ssplit SEP key with
  | [z; ot; oi; r; st; si] =>
      if existsb (λ s, bool_decide (s = "")) [z; ot; oi; r; st; si] then None
      else Some (z, mkTuple st si None r ot oi)
  | [z; ot; oi; r; st; si; sr] =>
      if existsb (λ s, bool_decide (s = "")) [z; ot; oi; r; st; si] then None
      else Some (z, mkTuple st si (Some sr) r ot oi)
  | _ => None
  end.

(** ** The store interface *)

(** [ReBACTupleStore]; [Err] carries the text of [Backend]. *)
Class ReBACTupleStore (S : Type) := {
  store_put : string → string → S → result string S;
  store_delete : string → S → result string (bool * S);
  store_get : string → S → result string (option string);
  store_list : S → result string (list (string * string));
  store_revision : S → result string N }.

(** [NoopReBACTupleStore] *)
#[global] Instance noop_store : ReBACTupleStore () := {
  store_put _ _ s := Ok s;
  store_delete _ s := Ok (false, s);
  store_get _ _ := Ok None;
  store_list _ := Ok [];
  store_revision _ := Ok 0%N }.

(** [InMemoryReBACTupleStore]; [iter] of the hash map in some order. *)
Record InMemoryStore := mkInMemory { im_entries : gmap string string; im_revision : N }.

#[global] Instance inmem_store : ReBACTupleStore InMemoryStore := {
  store_put key value s :=
    Ok (mkInMemory (<[key := value]> (im_entries s)) (wrap64 (im_revision s + 1)));
  store_delete key s :=
    match im_entries s !! key with
    | Some _ => Ok (true, mkInMemory (delete key (im_entries s)) (wrap64 (im_revision s + 1)))
    | None => Ok (false, s)
    end;
  store_get key s := Ok (im_entries s !! key);
  store_list s := Ok (map_to_list (im_entries s));
  store_revision s := Ok (im_revision s) }.

(** [RaftReBACTupleStore]: the local replica of the control zone, and the log
    index at which consensus commits the next proposal of this node. *)
Definition CONTROL_NS_REBAC : string := "rebac".

Record RaftStore := mkRaftStore { rs_node : FullStateMachine; rs_next : N }.

Section raft_store.
Context `{Codec : MetadataCodec}.

(** [propose] followed by the read barrier: the entry is committed and applied
    on the local replica. *)
Definition propose_control (c : Command) (s : RaftStore) : result string RaftStore :=
  match apply (rs_next s) c (rs_node s) with
  | Applied (Error msg) _ _ => Err msg
  | Applied _ sm _ => Ok (mkRaftStore sm (rs_next s + 1)%N)
  | Panicked _ | Hung => Err "apply barrier timed out"
  end.

#[global] Instance raft_store : ReBACTupleStore RaftStore := {
  store_put key value := propose_control (PutControlState CONTROL_NS_REBAC key value false);
  store_delete key s :=
    let existed := bool_decide (get_control_state (rs_node s) CONTROL_NS_REBAC key ≠ None) in
    s ← propose_control (DeleteControlState CONTROL_NS_REBAC key) s;
    mret (existed, s);
  store_get key s := Ok (get_control_state (rs_node s) CONTROL_NS_REBAC key);
  store_list s := Ok (list_control_state (rs_node s) CONTROL_NS_REBAC);
  store_revision s := Ok (sm_last_applied (rs_node s)) }.
End raft_store.

(** ** The graph cache *)

Definition REV_ALWAYS_STALE : N := 0.

Record ZoneEntry := mkZoneEntry { ze_revision : N; ze_graph : ReBACGraph }.

Section store.
Context {S : Type} `{TS : ReBACTupleStore S}.

Definition zone_tuple (zone : string) (row : string * string) : option ReBACTuple :=
  if decide (tuple_zone_of row.1 = Some zone) then snd <$> tuple_decode row.1 else None.

Definition build_graph_for_zone (s : S) (zone : string) : result string ReBACGraph :=
  rows ← store_list s;
  mret (from_tuples (omap (zone_tuple zone) rows)).

(** [graph_for_zone].  Other threads run between its reads of the store, so each
    read has a store of its own: the first revision at [s1], the rows at [s2],
    the second revision at [s3].  The result carries the entry to insert. *)
Definition graph_for_zone (zones : gmap string ZoneEntry) (zone : string) (s1 s2 s3 : S) :
    result string (ReBACGraph * option ZoneEntry) :=
  revision ← store_revision s1;
  let hit :=
    if (revision =? REV_ALWAYS_STALE)%N then None
    else entry ← zones !! zone;
         if (ze_revision entry =? revision)%N then Some (ze_graph entry) else None in
  match hit with
  | Some graph => mret (graph, None)
  | None =>
      graph ← build_graph_for_zone s2 zone;
      if (revision =? REV_ALWAYS_STALE)%N then mret (graph, None)
      else
        again ← store_revision s3;
        mret (graph, if (again =? revision)%N then Some (mkZoneEntry revision graph) else None)
  end.

Definition cache_insert (zone : string) (e : option ZoneEntry) (zones : gmap string ZoneEntry) :
    gmap string ZoneEntry :=
  match e with Some e => <[zone := e]> zones | None => zones end.

Definition cache_invalidate (zone : string) (zones : gmap string ZoneEntry) :
    gmap string ZoneEntry := delete zone zones.

(** ** The permission provider *)

Inductive Permission := Read | Write | Traverse.

Definition candidate_relations (permission : Permission) : list string :=
  match permission with
  | Read | Traverse =>
      ["viewer"; "reader"; "writer"; "owner"; "direct_viewer"; "direct_editor"; "direct_owner"]
  | Write => ["writer"; "owner"; "direct_editor"; "direct_owner"]
  end.

(** The fields of [OperationContext] the provider reads. *)
Record OperationContext := mkContext {
  ctx_user_id : string;
  ctx_zone_id : string;
  ctx_is_admin : bool;
  ctx_is_system : bool;
  ctx_subject_type : string;
  ctx_subject_id : option string }.

Definition subject_of (ctx : OperationContext) : Entity :=
  mkEntity (ctx_subject_type ctx) (default (ctx_user_id ctx) (ctx_subject_id ctx)).

Definition object_of (path : string) : Entity := mkEntity "file" path.

(** [route] is the zone of the route, if the path has been routed. *)
Definition zone_of_call (ctx : OperationContext) (route : option string) : string :=
  default (ctx_zone_id ctx) route.

Definition allows (namespaces : gmap string NamespaceConfig) (subject : Entity)
    (permission : Permission) (object : Entity) (graph : ReBACGraph) : bool :=
  existsb (λ relation, permission_check subject graph namespaces relation object)
    (candidate_relations permission).

(** [check]: [Ok] allows, [Err] is [PermissionDenied] (its text names the call
    and is not modelled); with the entry to insert in the cache. *)
Definition check (namespaces : gmap string NamespaceConfig) (zones : gmap string ZoneEntry)
    (path : string) (route : option string) (permission : Permission) (ctx : OperationContext)
    (s1 s2 s3 : S) : result string () * option (string * ZoneEntry) :=
  if ctx_is_system ctx then (Ok (), None)
  else if ctx_is_admin ctx then (Ok (), None)
  else
    let zone := zone_of_call ctx route in
    match graph_for_zone zones zone s1 s2 s3 with
    | Err e => (Err ("rebac: cannot load graph for zone: " +:+ e), None)
    | Ok (graph, entry) =>
        (if allows namespaces (subject_of ctx) permission (object_of path) graph
         then Ok () else Err "rebac: permission denied",
         (λ e, (zone, e)) <$> entry)
    end.

(** ** Accessible zones *)

Definition READ_GRANTING_RELATIONS : list string := ["member"; "owner"; "admin"; "viewer"].

Definition zone_grant (want : Entity) (row : string * string) : option string :=
  '(_, tuple) ← tuple_decode row.1;
  if bool_decide (object_type tuple = "zone") && bool_decide (subject_type tuple = entity_type want)
     && bool_decide (subject_id tuple = entity_id want)
     && bool_decide (relation tuple ∈ READ_GRANTING_RELATIONS)
  then Some (object_id tuple) else None.

(** A [BTreeSet] read in order. *)
Definition btree_set (xs : list string) : list string :=
  (entries (list_to_map ((λ x, (x, ())) <$> xs) : gmap string ())).*1.

Definition list_accessible_zones (s : S) (subject : Entity) : result string (list string) :=
  rows ← store_list s;
  mret (btree_set (omap (zone_grant subject) rows)).

Record CachedZones := mkCachedZones { cz_zones : list string; cz_expiry : N; cz_revision : N }.

Definition cache_key (subject : Entity) : string := entity_type subject +:+ ":" +:+ entity_id subject.

(** [AccessibleZonesCache::lookup] at instant [now], with its three reads of the
    store, and the entry to insert. *)
Definition zones_lookup (entries : gmap string CachedZones) (ttl now : N) (subject : Entity)
    (s1 s2 s3 : S) : result string (list string * option CachedZones) :=
  revision ← store_revision s1;
  let hit :=
    entry ← entries !! cache_key subject;
    if negb (revision =? 0)%N && (cz_revision entry =? revision)%N && (now <? cz_expiry entry)%N
    then Some (cz_zones entry) else None in
  match hit with
  | Some zones => mret (zones, None)
  | None =>
      zones ← list_accessible_zones s2 subject;
      if (revision =? 0)%N then mret (zones, None)
      else
        again ← store_revision s3;
        mret (zones, if (again =? revision)%N
                     then Some (mkCachedZones zones (now + ttl)%N revision) else None)
  end.
End store.
