(* ===== verification/RebacEnforce.v ===== *)
(** * Properties of tuple storage and enforcement

    What a tuple store promises, as an interface with its laws; the stores keep
    it; the graph cache, the permission provider and the zone listing are proved
    against the interface. *)

From S2P Require Import Prelude Bytes Codec Table LockState Command StreamTier Records Rename.
From S2P Require Import StateMachine Rebac RebacProofs RebacStore.

(** ** Tuple keys *)

Lemma ssplit_sjoin segments :
  segments ≠ [] → Forall (λ s, scontains SEP s = false) segments → ssplit SEP (sjoin segments) = segments.
Proof.
  intros Hne Hs. induction Hs as [|s segments Hc _ IH]; [done|].
  destruct segments as [|s' segments]; [by apply ssplit_no_sep|].
  change (sjoin (s :: s' :: segments)) with (s +:+ String SEP (sjoin (s' :: segments))).
  rewrite ssplit_cons by done. by rewrite IH.
Qed.

Lemma split_first_spec key :
  split_first key = match ssplit SEP key with z :: _ :: _ => Some z | _ => None end.
Proof.
  induction key as [|a key IH]; [done|]. cbn [split_first ssplit]. case_decide.
  - destruct key as [|b key]; [done|]. cbn [ssplit]. case_decide; [done|]. by destruct (ssplit SEP key).
  - rewrite IH. destruct (ssplit SEP key) as [|w [|w' ws]]; done.
Qed.

Lemma decode_zone key z t : tuple_decode key = Some (z, t) → tuple_zone_of key = Some z.
Proof.
  unfold tuple_decode, tuple_zone_of. rewrite split_first_spec.
  destruct (ssplit SEP key) as [|z' [|? [|? [|? [|? [|? [|? [|? ?]]]]]]]]; try done;
    destruct (existsb _ _); congruence.
Qed.

Lemma encode_segments zone t key :
  tuple_encode zone t = Ok key →
  ssplit SEP key = segments_of zone t ∧ Forall (λ s, scontains SEP s = false) (segments_of zone t).
Proof.
  unfold tuple_encode. cbv zeta. destruct (existsb _ _) eqn:Hres; [done|]. intros Hk.
  assert (sjoin (segments_of zone t) = key) as <- by congruence. clear Hk.
  assert (Forall (λ s, scontains SEP s = false) (segments_of zone t)) as Hall.
  { apply Forall_forall. intros s Hs. destruct (scontains SEP s) eqn:Hc; [|done].
    rewrite <-Hres. symmetry. apply existsb_exists. exists s. split; [by apply list_elem_of_In|].
    unfold reserved_char. by rewrite Hc. }
  split; [|done]. by apply ssplit_sjoin.
Qed.

(** A tuple key is read back as the tuple it was made from, in its zone and in
    no other: encoding fails or gives a key from which both the quick zone
    lookup and the full decoding recover the zone and the tuple, so two
    different (zone, tuple) pairs never share a key. *)
Theorem tuple_key_roundtrip zone t key
    (Hkey : tuple_encode zone t = Ok key)
    (Hne : Forall (λ s, s ≠ "")
             [zone; object_type t; object_id t; relation t; subject_type t; subject_id t]) :
  tuple_decode key = Some (zone, t) ∧ tuple_zone_of key = Some zone ∧
  ∀ zone' t', tuple_encode zone' t' = Ok key → zone' = zone ∧ t' = t.
Proof.
  destruct (encode_segments zone t key Hkey) as [Hsplit Hall].
  assert (tuple_decode key = Some (zone, t)) as Hdec.
  { unfold tuple_decode. rewrite Hsplit. unfold segments_of. destruct t as [st si sr r ot oi].
    repeat (apply Forall_cons in Hne as [? Hne]). cbn in *.
    destruct sr; cbn; by rewrite !bool_decide_false by done. }
  split_and!; [done|by apply (decode_zone key zone t)|].
  intros zone' t' Hkey'. destruct (encode_segments zone' t' key Hkey') as [Hsplit' _].
  rewrite Hsplit in Hsplit'. unfold segments_of in Hsplit'. destruct t as [? ? sr ? ? ?], t' as [? ? sr' ? ? ?].
  cbn in Hsplit'. destruct sr, sr'; by injection Hsplit'; intros; subst.
Qed.

Lemma tuple_key_roundtrip_witness :
  tuple_decode "root|folder|/docs|viewer|group|eng|member"
    = Some ("root", mkTuple "group" "eng" (Some "member") "viewer" "folder" "/docs").
Proof.
  apply (tuple_key_roundtrip "root" (mkTuple "group" "eng" (Some "member") "viewer" "folder" "/docs")).
  - reflexivity.
  - repeat (apply Forall_cons; split; [done|]). by apply Forall_nil.
Defined.

(** ** The interface *)

Class TupleStoreLaws (St : Type) `{TS : ReBACTupleStore St} := {
  rows : St → gmap string string;
  (** The store at a later moment. *)
  later : St → St → Prop;
  (** A store that takes writes, and the keys it takes. *)
  writable : St → Prop;
  key_ok : string → Prop;
  later_po : PreOrder later;
  law_list : ∀ s, ∃ l, store_list s = Ok l ∧ ∀ k v, (k, v) ∈ l ↔ rows s !! k = Some v;
  law_revision_ok : ∀ s, ∃ r, store_revision s = Ok r;
  law_revision : ∀ s1 s2 s3 r, later s1 s2 → later s2 s3 → r ≠ 0%N →
    store_revision s1 = Ok r → store_revision s3 = Ok r → rows s1 = rows s2 ∧ rows s2 = rows s3;
  law_put : ∀ k v s s', writable s → key_ok k → store_put k v s = Ok s' →
    later s s' ∧ rows s' = <[k := v]> (rows s);
  law_delete : ∀ k s b s', writable s → key_ok k → store_delete k s = Ok (b, s') →
    later s s' ∧ rows s' = delete k (rows s) }.
#[global] Existing Instance later_po.

(** The in-memory store, while its counter does not wrap. *)
#[global, program] Instance inmem_laws : TupleStoreLaws InMemoryStore := {
  rows := im_entries;
  later s s' := s = s' ∨ (im_revision s < im_revision s')%N;
  writable s := (im_revision s + 1 < U64_MOD)%N;
  key_ok _ := True }.
Next Obligation.
  split; [by left|]. intros s1 s2 s3 [->|?] [->|?]; [by left|by right|by right|right; lia].
Qed.
Next Obligation.
  intros s. exists (map_to_list (im_entries s)). split; [done|]. intros k v. apply elem_of_map_to_list.
Qed.
Next Obligation. intros s. by eexists. Qed.
Next Obligation.
  cbn. intros s1 s2 s3 r H1 H2 _ E1 E2. assert (im_revision s1 = im_revision s3) by congruence.
  destruct H1 as [->|H1], H2 as [->|H2]; [done|lia..].
Qed.
Next Obligation.
  cbn. intros k v s s' Hw _ [= <-]. split; [|done]. right. cbn [im_revision]. rewrite wrap64_small; lia.
Qed.
Next Obligation.
  cbn. intros k s b s' Hw _. destruct (im_entries s !! k) eqn:Hk; intros [= <- <-].
  - split; [|done]. right. cbn [im_revision]. rewrite wrap64_small; lia.
  - split; [by left|]. by rewrite delete_id.
Qed.

(** The replicated store: a replica of the control zone. *)
Section raft_laws.
Context `{Codec : MetadataCodec}.

Lemma control_row_Some prefix row k v :
  control_row prefix row = Some (k, v) ↔ k ≠ "" ∧ is_utf8 k = true ∧ row = (prefix +:+ k, v).
Proof.
  destruct row as [key val]. unfold control_row. cbn [fst snd]. split.
  - destruct (_ && _) eqn:Hc; [|done]. apply andb_true_iff in Hc as [Hl (r & ->)%starts_with_true].
    rewrite sdrop_app. unfold from_utf8. destruct (is_utf8 r) eqn:Hu; [|done]. intros [= <- <-].
    split_and!; [|done..]. intros ->. rewrite sapp_nil_r in Hl. apply Nat.ltb_lt in Hl. lia.
  - intros (Hk & Hu & [= -> ->]). rewrite sdrop_app, starts_with_app, slen_app, from_utf8_true by done.
    assert (0 < String.length k)%nat by (destruct k; [done|cbn; lia]).
    by rewrite (proj2 (Nat.ltb_lt _ _)) by lia.
Qed.

Lemma elem_of_list_control sm ns k v :
  (k, v) ∈ list_control_state sm ns ↔
  k ≠ "" ∧ is_utf8 k = true ∧ get_control_state sm ns k = Some v.
Proof.
  unfold list_control_state, get_control_state, control_key. rewrite list_elem_of_omap. split.
  - intros (row & Hrow & (Hk & Hu & ->)%control_row_Some). split_and!; [done..|].
    apply elem_of_entries in Hrow. rewrite <-Hrow. f_equal. by rewrite <-sapp_assoc.
  - intros (Hk & Hu & Hv). eexists. rewrite control_row_Some, elem_of_entries.
    split; [|by split_and!]. rewrite <-Hv. f_equal. by rewrite <-sapp_assoc.
Qed.

Definition control_rows (ns : string) (sm : FullStateMachine) : gmap string string :=
  list_to_map (list_control_state sm ns).

Lemma control_rows_lookup ns sm k v :
  control_rows ns sm !! k = Some v ↔ (k, v) ∈ list_control_state sm ns.
Proof.
  unfold control_rows. symmetry. apply elem_of_list_to_map'. intros v'.
  rewrite !elem_of_list_control. intros (_ & _ & H1) (_ & _ & H2). congruence.
Qed.

(** A replica moves on by an entry of the log or by a newer snapshot. *)
Inductive advances (sm : FullStateMachine) : FullStateMachine → Prop :=
  | advance_apply index c r sm' fired :
      apply index c sm = Applied r sm' fired → advances sm sm'
  | advance_install s :
      (sm_last_applied sm < sm_last_applied (restore_snapshot s sm))%N →
      advances sm (restore_snapshot s sm).

Lemma advances_index sm sm' :
  advances sm sm' →
  (sm_last_applied sm < sm_last_applied sm')%N ∨
  (sm_last_applied sm = sm_last_applied sm' ∧ sm_db sm = sm_db sm').
Proof.
  destruct 1 as [index c r sm' fired Happ|s Hs]; [|by left]. unfold apply in Happ.
  destruct (lock_command c) as [op|].
  { destruct (op (sm_advisory sm)) as [r' locks]. injection Happ as <- <- <-. cbn [sm_last_applied sm_db].
    destruct (N.ltb_spec (sm_last_applied sm) index); [left; lia|by right]. }
  destruct (N.leb_spec index (sm_last_applied sm)).
  { injection Happ as <- <- <-. by right. }
  match type of Happ with match ?m with _ => _ end = _ => destruct m as [[r' db]|[e|]] end;
    [|done|done]. injection Happ as <- <- <-. by left.
Qed.

Lemma rtc_advances_index sm sm' :
  rtc advances sm sm' →
  (sm_last_applied sm ≤ sm_last_applied sm')%N ∧
  (sm_last_applied sm = sm_last_applied sm' → sm_db sm = sm_db sm').
Proof.
  induction 1 as [sm|sm1 sm2 sm3 H12 _ [IH1 IH2]]; [done|].
  destruct (advances_index _ _ H12) as [Hlt|[He Hdb]]; split; [lia|lia|lia|].
  intros He'. rewrite Hdb. apply IH2. congruence.
Qed.

Lemma control_rows_db ns sm sm' : sm_db sm = sm_db sm' → control_rows ns sm = control_rows ns sm'.
Proof. intros H. unfold control_rows, list_control_state. by rewrite H. Qed.

Lemma control_rows_update ns sm sm' (f : gmap string string → gmap string string) :
  (∀ k, k ≠ "" → is_utf8 k = true →
     f (control_rows ns sm) !! k = get_control_state sm' ns k) →
  (∀ k, k = "" ∨ is_utf8 k = false → f (control_rows ns sm) !! k = None) →
  control_rows ns sm' = f (control_rows ns sm).
Proof.
  intros H1 H2. apply map_eq. intros k. apply option_eq. intros v.
  rewrite control_rows_lookup, elem_of_list_control. destruct (decide (k = "")) as [->|Hk].
  { rewrite H2 by (by left). by split; [intros (?&?&?)|]. }
  destruct (is_utf8 k) eqn:Hu; [|rewrite H2 by (by right); by split; [intros (?&?&?)|]].
  rewrite H1 by done. by split; [intros (?&?&?)|].
Qed.

Lemma control_rows_get ns sm k :
  k ≠ "" → is_utf8 k = true → control_rows ns sm !! k = get_control_state sm ns k.
Proof.
  intros Hk Hu. apply option_eq. intros v. rewrite control_rows_lookup, elem_of_list_control. by split; [intros (?&?&?)|].
Qed.

Lemma control_rows_bad ns sm k : k = "" ∨ is_utf8 k = false → control_rows ns sm !! k = None.
Proof.
  intros Hk. destruct (control_rows ns sm !! k) as [v|] eqn:Hv; [|done].
  apply control_rows_lookup, elem_of_list_control in Hv. destruct Hv as (? & ? & ?), Hk; congruence.
Qed.

(** A committed write of the namespace, on a replica that has not applied it. *)
Lemma apply_put_rebac n k v sm :
  (sm_last_applied sm < n)%N →
  ∃ sm', apply n (PutControlState CONTROL_NS_REBAC k v false) sm
           = Applied Success sm' (emit_apply_observers (sm_apply_observers sm) n
               (PutControlState CONTROL_NS_REBAC k v false) Success None) ∧
    sm_last_applied sm' = n ∧
    control_state (sm_db sm') = <[control_key CONTROL_NS_REBAC k := v]> (control_state (sm_db sm)).
Proof.
  intros Hn. unfold apply. cbn [lock_command]. rewrite (proj2 (N.leb_gt _ _) Hn).
  eexists. split; [reflexivity|done].
Qed.

Lemma apply_delete_rebac n k sm :
  (sm_last_applied sm < n)%N →
  ∃ sm', apply n (DeleteControlState CONTROL_NS_REBAC k) sm
           = Applied Success sm' (emit_apply_observers (sm_apply_observers sm) n
               (DeleteControlState CONTROL_NS_REBAC k) Success None) ∧
    sm_last_applied sm' = n ∧
    control_state (sm_db sm') = delete (control_key CONTROL_NS_REBAC k) (control_state (sm_db sm)).
Proof.
  intros Hn. unfold apply. cbn [lock_command]. rewrite (proj2 (N.leb_gt _ _) Hn).
  eexists. split; [reflexivity|done].
Qed.

Lemma control_key_same ns k k' : control_key ns k = control_key ns k' → k = k'.
Proof. unfold control_key. intros H. apply sapp_inj_len in H as [_ [= H]]; done. Qed.

Lemma control_rows_put ns k v sm sm' :
  k ≠ "" → is_utf8 k = true →
  control_state (sm_db sm') = <[control_key ns k := v]> (control_state (sm_db sm)) →
  control_rows ns sm' = <[k := v]> (control_rows ns sm).
Proof.
  intros Hk Hu Hdb. apply (control_rows_update ns sm sm' (insert k v)).
  - intros k' Hk' Hu'. unfold get_control_state. rewrite Hdb. destruct (decide (k = k')) as [->|Hne].
    + by rewrite !lookup_insert_eq.
    + rewrite !lookup_insert_ne by (done || by intros ?%control_key_same). by apply control_rows_get.
  - intros k' Hk'. rewrite lookup_insert_ne; [by apply control_rows_bad|].
    intros <-. destruct Hk'; congruence.
Qed.

Lemma control_rows_delete ns k sm sm' :
  control_state (sm_db sm') = delete (control_key ns k) (control_state (sm_db sm)) →
  control_rows ns sm' = delete k (control_rows ns sm).
Proof.
  intros Hdb. apply (control_rows_update ns sm sm' (delete k)).
  - intros k' Hk' Hu'. unfold get_control_state. rewrite Hdb. destruct (decide (k = k')) as [->|Hne].
    + by rewrite !lookup_delete_eq.
    + rewrite !lookup_delete_ne by (done || by intros ?%control_key_same). by apply control_rows_get.
  - intros k' Hk'. apply lookup_delete_None. right. by apply control_rows_bad.
Qed.

#[global, program] Instance raft_laws : TupleStoreLaws RaftStore := {
  rows s := control_rows CONTROL_NS_REBAC (rs_node s);
  later s s' := rtc advances (rs_node s) (rs_node s');
  writable s := (sm_last_applied (rs_node s) < rs_next s)%N;
  key_ok k := k ≠ "" ∧ is_utf8 k = true }.
Next Obligation. split; [by intros s|]. intros s1 s2 s3 H1 H2. by etransitivity. Qed.
Next Obligation.
  intros s. eexists. split; [reflexivity|]. intros k v. symmetry. apply control_rows_lookup.
Qed.
Next Obligation. intros s. by eexists. Qed.
Next Obligation.
  cbn. intros s1 s2 s3 r H12 H23 _ [= E1] [= E3].
  destruct (rtc_advances_index _ _ H12) as [? H2], (rtc_advances_index _ _ H23) as [? H3].
  split; apply control_rows_db; [apply H2|apply H3]; lia.
Qed.
Next Obligation.
  cbn. intros k v s s' Hw [Hk Hu]. unfold propose_control.
  destruct (apply_put_rebac (rs_next s) k v (rs_node s) Hw) as (sm' & Happ & _ & Hdb). rewrite Happ.
  intros [= <-]. cbn [rs_node]. split; [by eapply rtc_once, advance_apply|]. by apply control_rows_put.
Qed.
Next Obligation.
  cbn. intros k s b s' Hw [Hk Hu]. unfold propose_control.
  destruct (apply_delete_rebac (rs_next s) k (rs_node s) Hw) as (sm' & Happ & _ & Hdb). rewrite Happ.
  intros [= <- <-]. cbn [rs_node]. split; [by eapply rtc_once, advance_apply|]. by apply control_rows_delete.
Qed.
End raft_laws.

(** ** Keys of stored tuples *)

Lemma sjoin_ssplit key : sjoin (ssplit SEP key) = key.
Proof.
  induction key as [|a key IH]; [done|]. cbn [ssplit].
  destruct (ssplit SEP key) as [|w ws] eqn:Hs; [by destruct key; cbn in Hs; repeat case_match|].
  case_decide as Ha.
  - subst a. change (String SEP (sjoin (w :: ws)) = String SEP key). by rewrite IH.
  - destruct ws as [|w' ws].
    + cbn in *. by rewrite IH.
    + change (String a (sjoin (w :: w' :: ws)) = String a key). by rewrite IH.
Qed.

Lemma decode_key key zone t : tuple_decode key = Some (zone, t) → key = sjoin (segments_of zone t).
Proof.
  intros Hd. rewrite <-(sjoin_ssplit key) at 1. f_equal. unfold tuple_decode in Hd.
  destruct (ssplit SEP key) as [|z [|ot [|oi [|r [|st [|si [|sr [|? ?]]]]]]]]; try done;
    destruct (existsb _ _); [done| |done|]; by injection Hd as <- <-.
Qed.

Lemma encode_key zone t key : tuple_encode zone t = Ok key → key = sjoin (segments_of zone t).
Proof. unfold tuple_encode. cbv zeta. destruct (existsb _ _); [done|]. congruence. Qed.

Lemma granted_mono tuples tuples' namespaces subject p o :
  tuples ⊆ tuples' → granted tuples namespaces subject p o → granted tuples' namespaces subject p o.
Proof.
  intros Hsub. induction 1 as [t|t sr|p o ps q|p ttu t|p ttu t];
    [eapply granted_direct|eapply granted_userset|eapply granted_rewrite|eapply granted_forward
    |eapply granted_reverse]; eauto.
Qed.

(** ** The graph cache *)

Section enforcement.
Context {St : Type} `{Laws : TupleStoreLaws St}.

(** [t] is stored for [zone]. *)
Definition stored (s : St) (zone : string) (t : ReBACTuple) : Prop :=
  ∃ key v, rows s !! key = Some v ∧ tuple_decode key = Some (zone, t).

Definition tuples_of (s : St) (zone : string) (tuples : list ReBACTuple) : Prop :=
  ∀ t, t ∈ tuples ↔ stored s zone t.

Definition graph_of (s : St) (zone : string) (graph : ReBACGraph) : Prop :=
  ∃ tuples, graph = from_tuples tuples ∧ tuples_of s zone tuples.

Lemma graph_of_rows s s' zone graph : rows s = rows s' → graph_of s zone graph → graph_of s' zone graph.
Proof.
  intros Hr (tuples & -> & Ht). exists tuples. split; [done|]. intros t. rewrite (Ht t). unfold stored.
  by rewrite Hr.
Qed.

Lemma zone_tuple_Some zone row t :
  zone_tuple zone row = Some t ↔ tuple_decode row.1 = Some (zone, t).
Proof.
  unfold zone_tuple. split.
  - case_decide as Hz; [|done]. destruct (tuple_decode row.1) as [[z t']|] eqn:Hd; [|done].
    pose proof (decode_zone _ _ _ Hd). cbn. intros [= ->]. congruence.
  - intros Hd. rewrite decide_True by (by eapply decode_zone). by rewrite Hd.
Qed.

Lemma build_graph s zone : ∃ graph, build_graph_for_zone s zone = Ok graph ∧ graph_of s zone graph.
Proof.
  destruct (law_list s) as (l & Hl & Hrows). unfold build_graph_for_zone. rewrite Hl.
  eexists. split; [reflexivity|]. eexists. split; [reflexivity|]. intros t.
  rewrite list_elem_of_omap. unfold stored. split.
  - intros ([k v] & Hin & Hz%zone_tuple_Some). exists k, v. by rewrite <-Hrows.
  - intros (k & v & Hr & Hd). exists (k, v). rewrite Hrows. by rewrite zone_tuple_Some.
Qed.

(** Each entry is the graph of its zone at an earlier moment, labelled with the
    revision of that moment. *)
Definition cache_ok (zones : gmap string ZoneEntry) (s : St) : Prop :=
  ∀ zone e, zones !! zone = Some e → ze_revision e ≠ 0%N ∧
    ∃ s0, later s0 s ∧ store_revision s0 = Ok (ze_revision e) ∧ graph_of s0 zone (ze_graph e).

Lemma cache_ok_later zones s s' : cache_ok zones s → later s s' → cache_ok zones s'.
Proof.
  intros Hc Hl zone e He. destruct (Hc zone e He) as (Hz & s0 & H0 & Hrev & Hg). split; [done|].
  exists s0. split_and!; [by etransitivity|done..].
Qed.

Lemma cache_ok_empty s : cache_ok ∅ s.
Proof. intros zone e. by rewrite lookup_empty. Qed.

Lemma cache_ok_invalidate zones zone s : cache_ok zones s → cache_ok (cache_invalidate zone zones) s.
Proof. unfold cache_invalidate. intros Hc zone' e [_ He]%lookup_delete_Some. by apply Hc. Qed.

Lemma cache_ok_insert zones zone e s :
  cache_ok zones s →
  (∀ e', e = Some e' → ze_revision e' ≠ 0%N ∧
    ∃ s0, later s0 s ∧ store_revision s0 = Ok (ze_revision e') ∧ graph_of s0 zone (ze_graph e')) →
  cache_ok (cache_insert zone e zones) s.
Proof.
  intros Hc He. destruct e as [e|]; [|done]. intros zone' e' Hl. cbn [cache_insert] in Hl.
  destruct (decide (zone = zone')) as [<-|Hne].
  - rewrite lookup_insert_eq in Hl. by apply He.
  - rewrite lookup_insert_ne in Hl by done. by apply Hc.
Qed.

Lemma hit_current zones zone s1 e :
  cache_ok zones s1 → zones !! zone = Some e → store_revision s1 = Ok (ze_revision e) →
  graph_of s1 zone (ze_graph e).
Proof.
  intros Hc He Hr. destruct (Hc zone e He) as (Hz & s0 & H0 & Hrev & Hg).
  destruct (law_revision s0 s1 s1 (ze_revision e)) as [Hrows _]; [done|reflexivity|done..|].
  by apply (graph_of_rows s0).
Qed.

(** What a call of [graph_for_zone] gives. *)
Lemma graph_for_zone_spec zones zone s1 s2 s3 :
  cache_ok zones s1 → later s1 s2 → later s2 s3 →
  ∃ s graph e, graph_for_zone zones zone s1 s2 s3 = Ok (graph, e) ∧ (s = s1 ∨ s = s2) ∧
    graph_of s zone graph ∧
    ∀ zones', cache_ok zones' s3 → cache_ok (cache_insert zone e zones') s3.
Proof.
  intros Hc H12 H23. destruct (law_revision_ok s1) as [r Hr], (law_revision_ok s3) as [r' Hr'].
  destruct (build_graph s2 zone) as (graph & Hb & Hg). unfold graph_for_zone. rewrite Hr. cbn [mbind result_bind].
  destruct (N.eqb_spec r REV_ALWAYS_STALE) as [->|Hne].
  { rewrite Hb. exists s2, graph, None. by split_and!; [|right|..]. }
  destruct (zones !! zone) as [e|] eqn:He; cbn [mbind option_bind].
  1: destruct (N.eqb_spec (ze_revision e) r) as [<-|_].
  1: { exists s1, (ze_graph e), None. split_and!; [done|by left|by apply (hit_current zones)|done]. }
  all: rewrite Hb; cbn [mbind result_bind]; rewrite Hr'; eexists s2, graph, _.
  all: split_and!; [reflexivity|by right|done|]; intros zones' Hc'; apply cache_ok_insert; [done|].
  all: destruct (N.eqb_spec r' r) as [->|]; [|done]; intros e' [= <-]; split; [done|].
  all: exists s1; split_and!; [by etransitivity|done|].
  all: apply (graph_of_rows s2); [|done]; symmetry; by apply (law_revision s1 s2 s3 r).
Qed.

(** ** The permission provider *)

Lemma check_granted tuples namespaces subject p o :
  permission_check subject (from_tuples tuples) namespaces p o = true →
  granted tuples namespaces subject p o.
Proof.
  intros H. apply (reach_granted tuples namespaces subject (p, o)).
  by apply (check_sound subject (from_tuples tuples) namespaces (p, o)).
Qed.

(** The names a check can ask about fit under the depth bound. *)
Definition shallow (tuples : list ReBACTuple) (namespaces : gmap string NamespaceConfig)
    (p : string) (o : Entity) : Prop :=
  ∃ names, (p, o) ∈ names ∧ (length names ≤ S MAX_DEPTH)%nat ∧
    ∀ n m, n ∈ names → depends tuples namespaces n m → m ∈ names.

Lemma granted_check tuples namespaces subject p o :
  shallow tuples namespaces p o → granted tuples namespaces subject p o →
  permission_check subject (from_tuples tuples) namespaces p o = true.
Proof.
  intros (names & Hin & Hlen & Hclosed) Hg.
  apply (check_complete subject (from_tuples tuples) namespaces names (λ n m Hn Hm,
    Hclosed n m Hn (proj1 (elem_of_items_inr tuples namespaces subject n m) Hm)) (p, o)); [done..|].
  by apply (reach_granted tuples namespaces subject (p, o)).
Qed.

(** The context is privileged, or the tuples grant one of the relations that give
    the permission. *)
Definition entitled (tuples : list ReBACTuple) (namespaces : gmap string NamespaceConfig)
    (path : string) (permission : Permission) (ctx : OperationContext) : Prop :=
  ctx_is_system ctx = true ∨ ctx_is_admin ctx = true ∨
  ∃ r, r ∈ candidate_relations permission ∧
    granted tuples namespaces (subject_of ctx) r (object_of path).

Lemma allows_spec namespaces subject permission o graph :
  allows namespaces subject permission o graph = true ↔
  ∃ r, r ∈ candidate_relations permission ∧ permission_check subject graph namespaces r o = true.
Proof.
  unfold allows. rewrite existsb_exists.
  split; intros (r & Hr & Hc); exists r; by rewrite list_elem_of_In in *.
Qed.

(** The decision of a check that is neither system nor admin. *)
Lemma check_plain namespaces zones path route permission ctx s1 s2 s3 :
  cache_ok zones s1 → later s1 s2 → later s2 s3 →
  ctx_is_system ctx = false → ctx_is_admin ctx = false →
  ∃ s tuples, (s = s1 ∨ s = s2) ∧ tuples_of s (zone_of_call ctx route) tuples ∧
    ((check namespaces zones path route permission ctx s1 s2 s3).1 = Ok () ↔
     allows namespaces (subject_of ctx) permission (object_of path) (from_tuples tuples) = true).
Proof.
  intros Hc H12 H23 Hs Ha. unfold check. rewrite Hs, Ha.
  destruct (graph_for_zone_spec zones (zone_of_call ctx route) s1 s2 s3 Hc H12 H23)
    as (s & graph & e & Hg & Hat & (tuples & -> & Ht) & _).
  exists s, tuples. split_and!; [done..|]. rewrite Hg. cbn [fst]. by destruct (allows _ _ _ _ _).
Qed.


(** A revocation takes effect at once, also with a warm graph cache: after a
    tuple's key has been deleted, a check that starts later, while nobody has
    written the key again, is never allowed on the strength of that tuple. *)
Theorem revocation_takes_effect namespaces zones path route permission ctx zone t key
    (s s' s1 s2 s3 : St) (b : bool)
    (Hcache : cache_ok zones s) (Hw : writable s) (Hok : key_ok key)
    (Hkey : tuple_encode zone t = Ok key) (Hdel : store_delete key s = Ok (b, s'))
    (H01 : later s' s1) (H12 : later s1 s2) (H23 : later s2 s3)
    (Habsent : ∀ u, u = s1 ∨ u = s2 → rows s' !! key = None → rows u !! key = None)
    (Hallowed : (check namespaces zones path route permission ctx s1 s2 s3).1 = Ok ()) :
  ∃ tuples u, (u = s1 ∨ u = s2) ∧ tuples_of u (zone_of_call ctx route) tuples ∧
    (zone_of_call ctx route = zone → t ∉ tuples) ∧ entitled tuples namespaces path permission ctx.
Proof.
  destruct (law_delete key s b s' Hw Hok Hdel) as [Hl Hrows].
  assert (cache_ok zones s1) as Hc1 by (eapply cache_ok_later; [exact Hcache|]; by etransitivity).
  assert (rows s' !! key = None) as Hgone by (by rewrite Hrows, lookup_delete_eq).
  assert (∀ u tuples, u = s1 ∨ u = s2 → tuples_of u (zone_of_call ctx route) tuples →
    zone_of_call ctx route = zone → t ∉ tuples) as Hnot.
  { intros u tuples Hu Ht Hz Hin. apply Ht in Hin as (key' & v & Hr & Hd%decode_key).
    rewrite Hz, <-(encode_key zone t key Hkey) in Hd. subst key'. by rewrite (Habsent u Hu Hgone) in Hr. }
  destruct (ctx_is_system ctx) eqn:Hs; [|destruct (ctx_is_admin ctx) eqn:Ha].
  3: {
    destruct (check_plain namespaces zones path route permission ctx s1 s2 s3) as (u & tuples & Hat & Ht & Hiff);
      [done..|].
    exists tuples, u. split_and!; [done|done|by apply (Hnot u)|]. right. right.
    apply Hiff, allows_spec in Hallowed as (r & Hr & Hp%check_granted). eauto. }
  all: destruct (build_graph s1 (zone_of_call ctx route)) as (graph & _ & tuples & _ & Ht).
  all: exists tuples, s1; split_and!; [by left|done|by apply (Hnot s1); [left|]|]; unfold entitled; tauto.
Qed.
End enforcement.

Lemma depends_mono tuples tuples' namespaces n m :
  tuples ⊆ tuples' → depends tuples namespaces n m → depends tuples' namespaces n m.
Proof.
  intros Hsub. destruct 1 as [p o ps q|t sr|p ttu t|p ttu t];
    [eapply depends_rewrite|eapply depends_userset|eapply depends_forward|eapply depends_reverse]; eauto.
Qed.

Lemma shallow_incl tuples tuples' namespaces p o names :
  tuples' ⊆ tuples → closed_names tuples namespaces names = true →
  (p, o) ∈ names → (length names ≤ S MAX_DEPTH)%nat → shallow tuples' namespaces p o.
Proof.
  intros Hsub Hc Hin Hlen. exists names. split_and!; [done..|]. intros n m Hn Hd.
  apply (closed_names_spec tuples namespaces names Hc n m Hn). by eapply depends_mono.
Qed.

(** A store with a grant to a group and a member of it. *)
Definition team_tuples : list ReBACTuple :=
  [ mkTuple "group" "eng" (Some "member") "viewer" "file" "/a";
    mkTuple "user" "ann" None "member" "group" "eng" ].
Definition team_store : InMemoryStore :=
  mkInMemory (<["root|file|/a|viewer|group|eng|member" := ""]>
                {["root|group|eng|member|user|ann" := ""]}) 2.
Definition ann : OperationContext := mkContext "ann" "root" false false "user" None.

Lemma team_stored zone tuples : tuples_of team_store zone tuples → tuples ⊆ team_tuples.
Proof.
  intros Ht t (key & v & Hrow & Hd)%Ht. cbn [rows inmem_laws im_entries team_store] in Hrow.
  apply lookup_insert_Some in Hrow as [[<- _]|[_ [<- _]%lookup_singleton_Some]].
  - vm_compute in Hd. injection Hd as _ <-. left.
  - vm_compute in Hd. injection Hd as _ <-. right. left.
Qed.

Lemma team_shallow permission zone tuples r :
  tuples_of team_store zone tuples → r ∈ candidate_relations permission →
  shallow tuples ∅ r (object_of "/a").
Proof.
  intros Ht%team_stored Hr.
  apply (shallow_incl team_tuples tuples ∅ r (object_of "/a")
    [(r, object_of "/a"); ("member", mkEntity "group" "eng")]); [done| |left|unfold MAX_DEPTH; cbn; lia].
  destruct permission; repeat (apply elem_of_cons in Hr as [->|Hr]; [vm_compute; reflexivity|]);
    by apply elem_of_nil in Hr.
Qed.


(** The graph of the store before the revocation, as a check leaves it in the cache. *)
Definition warm_cache : gmap string ZoneEntry :=
  match graph_for_zone ∅ "root" team_store team_store team_store with
  | Ok (_, e) => cache_insert "root" e ∅
  | Err _ => ∅
  end.

Lemma warm_cache_ok : cache_ok warm_cache team_store.
Proof.
  unfold warm_cache.
  destruct (graph_for_zone_spec (∅ : gmap string ZoneEntry) "root" team_store team_store team_store)
    as (s & graph & e & -> & _ & _ & Hc); [apply cache_ok_empty|by left..|].
  apply Hc, cache_ok_empty.
Qed.

Definition revoked_store : InMemoryStore :=
  mkInMemory {["root|group|eng|member|user|ann" := ""]} 3.

(** Before, the warm cache lets the subject read; after, a check for it is denied
    while an administrator is allowed. *)
Lemma revocation_takes_effect_witness :
  (check ∅ warm_cache "/a" None Read ann team_store team_store team_store).1 = Ok () ∧
  (check ∅ warm_cache "/a" None Read ann revoked_store revoked_store revoked_store).1 ≠ Ok () ∧
  ∃ tuples u, (u = revoked_store ∨ u = revoked_store) ∧ tuples_of u "root" tuples ∧
    ("root" = "root" → mkTuple "group" "eng" (Some "member") "viewer" "file" "/a" ∉ tuples) ∧
    entitled tuples ∅ "/a" Read (mkContext "root" "root" true false "user" None).
Proof.
  split_and!; [vm_compute; reflexivity|vm_compute; discriminate|].
  apply (revocation_takes_effect ∅ warm_cache "/a" None Read
    (mkContext "root" "root" true false "user" None) "root"
    (mkTuple "group" "eng" (Some "member") "viewer" "file" "/a") "root|file|/a|viewer|group|eng|member"
    team_store revoked_store revoked_store revoked_store revoked_store true).
  - apply warm_cache_ok.
  - vm_compute. reflexivity.
  - done.
  - reflexivity.
  - vm_compute. reflexivity.
  - by left.
  - by left.
  - by left.
  - by intros u [->| ->].
  - reflexivity.
Defined.

(** ** Accessible zones *)

Section zones.
Context {St : Type} `{Laws : TupleStoreLaws St}.

Lemma elem_of_btree_set xs x : x ∈ btree_set xs ↔ x ∈ xs.
Proof.
  unfold btree_set. rewrite list_elem_of_fmap. split.
  - intros ([k v] & -> & Hin). apply elem_of_entries, elem_of_list_to_map_2, list_elem_of_fmap in Hin
      as (y & [= -> _] & Hy). done.
  - intros Hx. exists (x, ()). split; [done|]. apply elem_of_entries.
    apply elem_of_list_to_map_1'; [by intros []|]. apply list_elem_of_fmap. by exists x.
Qed.

Lemma btree_set_ext xs ys : (∀ x, x ∈ xs ↔ x ∈ ys) → btree_set xs = btree_set ys.
Proof.
  intros H. unfold btree_set. f_equal. f_equal. apply map_eq. intros k. apply option_eq. intros [].
  rewrite <-!elem_of_list_to_map' by (by intros []). rewrite !list_elem_of_fmap.
  by setoid_rewrite H.
Qed.

(** [zone] is granted to the subject by a stored tuple. *)
Definition zone_granted (s : St) (subject : Entity) (zone : string) : Prop :=
  ∃ at_zone t, stored s at_zone t ∧ object_of_tuple t = mkEntity "zone" zone ∧
    subject_of_tuple t = subject ∧ relation t ∈ READ_GRANTING_RELATIONS.

Lemma zone_grant_Some subject row zone :
  zone_grant subject row = Some zone ↔
  ∃ at_zone t, tuple_decode row.1 = Some (at_zone, t) ∧ object_of_tuple t = mkEntity "zone" zone ∧
    subject_of_tuple t = subject ∧ relation t ∈ READ_GRANTING_RELATIONS.
Proof.
  unfold zone_grant. destruct (tuple_decode row.1) as [[z t]|]; cbn [mbind option_bind].
  2: { split; [done|]. by intros (? & ? & ? & _). }
  destruct subject as [st si]. unfold object_of_tuple, subject_of_tuple. cbn [entity_type entity_id].
  destruct (_ && _) eqn:Hc; rewrite ?andb_true_iff, ?andb_false_iff, ?bool_decide_eq_true,
    ?bool_decide_eq_false in Hc.
  - destruct Hc as [[[Ho Hst] Hsi] Hr]. split.
    + intros [= <-]. exists z, t. by rewrite Ho, Hst, Hsi.
    + intros (z' & t' & [= <- <-] & [= _ ->] & _). done.
  - split; [done|]. intros (z' & t' & [= <- <-] & [= Ho Hi] & [= Hs Hid] & Hr). tauto.
Qed.

Lemma list_zones_spec s subject :
  ∃ zones, list_accessible_zones s subject = Ok zones ∧
    ∀ zone, zone ∈ zones ↔ zone_granted s subject zone.
Proof.
  destruct (law_list s) as (l & Hl & Hrows). unfold list_accessible_zones. rewrite Hl.
  eexists. split; [reflexivity|]. intros zone. rewrite elem_of_btree_set, list_elem_of_omap.
  setoid_rewrite zone_grant_Some. unfold zone_granted, stored. split.
  - intros ([k v] & Hin & z & t & Hd & H). exists z, t. split; [|done]. exists k, v. by rewrite <-Hrows.
  - intros (z & t & (k & v & Hr & Hd) & H). exists (k, v). rewrite Hrows. eauto 6.
Qed.

Lemma list_zones_rows s s' subject :
  rows s = rows s' → list_accessible_zones s subject = list_accessible_zones s' subject.
Proof.
  intros Hr. unfold list_accessible_zones.
  destruct (law_list s) as (l & -> & Hl), (law_list s') as (l' & -> & Hl'). cbn [mbind result_bind].
  f_equal. apply btree_set_ext. intros x. rewrite !list_elem_of_omap.
  split; intros ([k v] & Hin & Hx); exists (k, v); (split; [|done]).
  - by rewrite Hl', <-Hr, <-Hl.
  - by rewrite Hl, Hr, <-Hl'.
Qed.

Lemma cache_key_inj e e' :
  scontains ":" (entity_type e) = false → scontains ":" (entity_type e') = false →
  cache_key e = cache_key e' → e = e'.
Proof.
  destruct e as [t i], e' as [t' i']. unfold cache_key. cbn [entity_type entity_id]. intros H H' Hk.
  change (t +:+ String ":" i = t' +:+ String ":" i') in Hk.
  revert t' H' Hk. induction t as [|a t IH]; intros [|b t'] H' Hk.
  - rewrite !sapp_nil_l in Hk. congruence.
  - exfalso. rewrite sapp_nil_l, sapp_cons in Hk. injection Hk as <- _. by cbn in H'.
  - exfalso. rewrite sapp_nil_l, sapp_cons in Hk. injection Hk as -> _. by cbn in H.
  - rewrite !sapp_cons in Hk. injection Hk as -> Hk. cbn [scontains] in H, H'.
    apply orb_false_iff in H as [_ H], H' as [_ H']. specialize (IH H t' H' Hk). congruence.
Qed.

(** Each entry of the listing cache is what the listing gave at an earlier moment
    of its revision. *)
Definition zones_cache_ok (cache : gmap string CachedZones) (s : St) : Prop :=
  ∀ subject e, scontains ":" (entity_type subject) = false →
    cache !! cache_key subject = Some e → cz_revision e ≠ 0%N ∧
    ∃ s0, later s0 s ∧ store_revision s0 = Ok (cz_revision e) ∧
          list_accessible_zones s0 subject = Ok (cz_zones e).

Definition zones_insert (subject : Entity) (e : option CachedZones) (cache : gmap string CachedZones) :
    gmap string CachedZones :=
  match e with Some e => <[cache_key subject := e]> cache | None => cache end.

Lemma zones_insert_ok cache subject e s :
  scontains ":" (entity_type subject) = false → zones_cache_ok cache s →
  (∀ e', e = Some e' → cz_revision e' ≠ 0%N ∧
    ∃ s0, later s0 s ∧ store_revision s0 = Ok (cz_revision e') ∧
          list_accessible_zones s0 subject = Ok (cz_zones e')) →
  zones_cache_ok (zones_insert subject e cache) s.
Proof.
  intros Hs Hc He. destruct e as [e|]; [|done]. intros subject' e' Hs' Hl. cbn [zones_insert] in Hl.
  destruct (decide (cache_key subject = cache_key subject')) as [Hk|Hne].
  - rewrite Hk, lookup_insert_eq in Hl. apply cache_key_inj in Hk as <-; [|done..]. by apply He.
  - rewrite lookup_insert_ne in Hl by done. by apply Hc.
Qed.

Lemma zones_hit cache subject s1 e :
  scontains ":" (entity_type subject) = false → zones_cache_ok cache s1 →
  cache !! cache_key subject = Some e → store_revision s1 = Ok (cz_revision e) →
  list_accessible_zones s1 subject = Ok (cz_zones e).
Proof.
  intros Hs Hc He Hr. destruct (Hc subject e Hs He) as (Hz & s0 & H0 & Hrev & Hg).
  destruct (law_revision s0 s1 s1 (cz_revision e)) as [Hrows _]; [done|reflexivity|done..|].
  by rewrite <-(list_zones_rows s0 s1).
Qed.

(** The cached zone listing is current: a lookup for a subject, with writers
    between its reads, returns, whatever the age of its entry, exactly the zones
    some stored tuple grants the subject at one moment within the call, and
    leaves the cache in order; subject types hold no colon. *)
Theorem zones_lookup_current cache ttl now subject (s1 s2 s3 : St)
    (Hsubject : scontains ":" (entity_type subject) = false)
    (Hcache : zones_cache_ok cache s1) (H12 : later s1 s2) (H23 : later s2 s3) :
  ∃ s zones e, zones_lookup cache ttl now subject s1 s2 s3 = Ok (zones, e) ∧ (s = s1 ∨ s = s2) ∧
    (∀ zone, zone ∈ zones ↔ zone_granted s subject zone) ∧
    ∀ cache', zones_cache_ok cache' s3 → zones_cache_ok (zones_insert subject e cache') s3.
Proof.
  destruct (law_revision_ok s1) as [r Hr], (law_revision_ok s3) as [r' Hr'].
  destruct (list_zones_spec s1 subject) as (z1 & Hz1 & Hg1), (list_zones_spec s2 subject) as (z2 & Hz2 & Hg2).
  unfold zones_lookup. rewrite Hr. cbn [mbind result_bind].
  match goal with |- context [match ?h with Some _ => _ | None => _ end] => destruct h as [z|] eqn:Hhit end.
  - exists s1, z, None. split_and!; [done|by left| |done].
    destruct (cache !! cache_key subject) as [e|] eqn:He; [|done]. cbn [mbind option_bind] in Hhit.
    destruct (_ && _) eqn:Hb in Hhit; [|done]. injection Hhit as <-.
    apply andb_true_iff in Hb as [[_ Hb%N.eqb_eq]%andb_true_iff _]. rewrite <-Hb in Hr.
    rewrite (zones_hit cache subject s1 e) in Hz1 by done. by injection Hz1 as <-.
  - rewrite Hz2. cbn [mbind result_bind]. destruct (N.eqb_spec r 0) as [->|Hne].
    { exists s2, z2, None. by split_and!; [|right|..]. }
    rewrite Hr'. eexists s2, z2, _. split_and!; [reflexivity|by right|done|].
    intros cache' Hc'. apply zones_insert_ok; [done..|].
    destruct (N.eqb_spec r' r) as [->|]; [|done]. intros e' [= <-]. split; [done|].
    exists s1. split_and!; [by etransitivity|done|]. cbn [cz_zones]. rewrite <-Hz2.
    apply list_zones_rows. by apply (law_revision s1 s2 s3 r).
Qed.
End zones.

(** On the replicated store: a replica that has applied one grant. *)
#[local] Instance opaque_codec : MetadataCodec := {
  decode _ := Err "opaque";
  encode_to_vec m := fm_path m }.

Definition zone_store : RaftStore :=
  let empty := mkRaftStore (mkSM db_empty lock_state_new 0 []) 1 in
  match store_put "root|zone|lab|member|user|ann" "" empty with Ok s => s | Err _ => empty end.

Lemma zones_lookup_current_witness :
  zones_lookup ∅ 300 0 (mkEntity "user" "ann") zone_store zone_store zone_store
    = Ok (["lab"], Some (mkCachedZones ["lab"] 300 1)) ∧
  ∃ s zones e, zones_lookup ∅ 300 0 (mkEntity "user" "ann") zone_store zone_store zone_store
      = Ok (zones, e) ∧ (s = zone_store ∨ s = zone_store) ∧
    (∀ zone, zone ∈ zones ↔ zone_granted s (mkEntity "user" "ann") zone) ∧
    ∀ cache', zones_cache_ok cache' zone_store →
      zones_cache_ok (zones_insert (mkEntity "user" "ann") e cache') zone_store.
Proof.
  split; [vm_compute; reflexivity|].
  apply (zones_lookup_current ∅ 300 0 (mkEntity "user" "ann") zone_store zone_store zone_store).
  - reflexivity.
  - intros subject e _ He. by rewrite lookup_empty in He.
  - reflexivity.
  - reflexivity.
Defined.
