(* ===== verification/IoLocks.v ===== *)
(** * I/O locks of the kernel

    src/rust/kernel/src/core/lock/mod.rs and locks.rs: the in-process read/write
    locks that serialise file operations on paths and their ancestors and
    descendants, path normalisation, and the advisory lock front of the lock
    manager.  Each critical section of the manager's mutex is one step; a
    blocking acquire is a thread that moves between critical sections and waits
    for the condition variable. *)

From S2P Require Import Prelude Bytes Codec Table LockState.

(** ** Data *)

Inductive LockMode := ModeRead | ModeWrite.

Record HandleInfo := mkHandleInfo { hi_path : string; hi_mode : LockMode }.

Record IOEntry := mkIOEntry { io_readers : N; io_writer : option N }.

Definition io_entry_default : IOEntry := mkIOEntry 0 None.

Definition is_idle (e : IOEntry) : bool :=
  (io_readers e =? 0)%N && bool_decide (io_writer e = None).

Record IOLockState := mkIOLockState {
  io_locks : gmap string IOEntry;
  io_handles : gmap N HandleInfo }.

#[global] Instance LockMode_eq_dec : EqDecision LockMode.
Proof. solve_decision. Defined.
#[global] Instance HandleInfo_eq_dec : EqDecision HandleInfo.
Proof. solve_decision. Defined.

(** ** Paths *)

(** [windows(2).any(|w| w == b"//")] *)
Fixpoint double_slash (s : string) : bool :=
  match s with
  | String a (String b _ as s') => bool_decide (a = "/"%char ∧ b = "/"%char) || double_slash s'
  | _ => false
  end.

(** The character loop of [normalize_path]. *)
Fixpoint collapse (prev_slash : bool) (s : string) : string :=
  match s with
  | "" => ""
  | String a s =>
      if decide (a = "/"%char)
      then if prev_slash then collapse true s else String "/" (collapse true s)
      else String a (collapse false s)
  end.

Definition trim_slash (s : string) : string :=
  if (1 <? String.length s)%nat && ends_with "/" s then stake (String.length s - 1) s else s.

Definition normalize_path (path : string) : string :=
  if decide (path = "") then "/"
  else if negb (double_slash path) then trim_slash path
  else trim_slash (collapse false path).

(** The iterator over the strict ancestors, deepest first. *)
Record Ancestors := mkAncestors { an_path : string; an_end : nat; an_done : bool }.

Definition ancestors_next (it : Ancestors) : option string * Ancestors :=
  if an_done it || (an_end it =? 0)%nat then (None, it)
  else
    match rsplit_once "/" (stake (an_end it) (an_path it)) with
    | Some ("", _) => (Some "/", mkAncestors (an_path it) (an_end it) true)
    | Some (result, _) => (Some result, mkAncestors (an_path it) (String.length result) false)
    | None => (None, mkAncestors (an_path it) (an_end it) true)
    end.

Definition ancestors_iter (path : string) : Ancestors :=
  mkAncestors path (if decide (path = "/" ∨ path = "") then 0 else String.length path) false.

(** What a [for] loop over the iterator visits; the end gets smaller with each
    item but the last, so the length of the path is enough fuel. *)
Fixpoint ancestors_collect (fuel : nat) (it : Ancestors) : list string :=
  match fuel with
  | O => []
  | S fuel =>
      match ancestors_next it with
      | (Some a, it) => a :: ancestors_collect fuel it
      | (None, _) => []
      end
  end.

Definition io_ancestors (path : string) : list string :=
  ancestors_collect (S (String.length path)) (ancestors_iter path).

(** ** Conflicts *)

Definition entry_conflict (mode : LockMode) (e : IOEntry) : bool :=
  match mode with
  | ModeRead => bool_decide (io_writer e ≠ None)
  | ModeWrite => bool_decide (io_writer e ≠ None) || (0 <? io_readers e)%N
  end.

Definition ancestor_io_conflict (ls : gmap string IOEntry) (path : string) (mode : LockMode) : bool :=
  existsb (λ a, match ls !! a with Some e => entry_conflict mode e | None => false end)
    (io_ancestors path).

Definition descendant_io_conflict (ls : gmap string IOEntry) (path : string) (mode : LockMode) : bool :=
  let prefix := if ends_with "/" path then path else path +:+ "/" in
  let upper := replace_last "0" prefix in
  existsb (λ kv, entry_conflict mode kv.2) (range prefix (Excluded upper) ls).

(** ** Critical sections *)

(** The result, the state and the handle counter. *)
Definition try_acquire_io_locked (s : IOLockState) (next_handle : N) (path : string)
    (mode : LockMode) : option N * (IOLockState * N) :=
  if ancestor_io_conflict (io_locks s) path mode then (None, (s, next_handle))
  else if descendant_io_conflict (io_locks s) path mode then (None, (s, next_handle))
  else
    let entry := default io_entry_default (io_locks s !! path) in
    if entry_conflict mode entry
    then (None, (mkIOLockState (<[path := entry]> (io_locks s)) (io_handles s), next_handle))
    else
      let handle := wrap64 (next_handle + 1) in
      let entry :=
        match mode with
        | ModeRead => mkIOEntry (wrap32 (io_readers entry + 1)) (io_writer entry)
        | ModeWrite => mkIOEntry (io_readers entry) (Some handle)
        end in
      (Some handle,
       (mkIOLockState (<[path := entry]> (io_locks s))
          (<[handle := mkHandleInfo path mode]> (io_handles s)),
        wrap64 (next_handle + 1))).

(** The critical section of [do_release]; [None] for an unknown handle. *)
Definition release_io_locked (s : IOLockState) (handle : N) : option IOLockState :=
  match io_handles s !! handle with
  | None => None
  | Some info =>
      let handles := delete handle (io_handles s) in
      Some match io_locks s !! hi_path info with
           | None => mkIOLockState (io_locks s) handles
           | Some entry =>
               let entry :=
                 match hi_mode info with
                 | ModeRead => mkIOEntry (wrap32 (io_readers entry + (U32_MOD - 1))) (io_writer entry)
                 | ModeWrite =>
                     if decide (io_writer entry = Some handle)
                     then mkIOEntry (io_readers entry) None else entry
                 end in
               mkIOLockState
                 (if is_idle entry then delete (hi_path info) (io_locks s)
                  else <[hi_path info := entry]> (io_locks s)) handles
           end
  end.

(** ** The manager *)

(** The trait [Locks]; its methods return the new state of the backend. *)
Class Locks (B : Type) := {
  lk_acquire : B → string → string → N → N → string → N → result string bool * B;
  lk_release : B → string → string → result string bool * B;
  lk_force_release : B → string → result string bool * B;
  lk_extend : B → string → string → N → N → result string bool * B;
  lk_get_lock : B → string → option LockInfo;
  lk_list_locks : B → string → nat → list LockInfo }.

(** [LocalLocks]; the clock is an argument of the methods that read it. *)
#[global] Instance local_locks : Locks LockState := {
  lk_acquire s path lock_id max_holders ttl_secs holder_info now :=
    let '(r, s) := apply_acquire s path lock_id max_holders ttl_secs holder_info now in
    (Ok (acquired r), s);
  lk_release s path lock_id := let '(r, s) := apply_release s path lock_id in (Ok r, s);
  lk_force_release s path := let '(r, s) := apply_force_release s path in (Ok r, s);
  lk_extend s path lock_id ttl_secs now :=
    let '(r, s) := apply_extend s path lock_id ttl_secs now in (Ok r, s);
  lk_get_lock := get_lock;
  lk_list_locks := list_locks }.

Record LockManager (B : Type) := mkLockManager {
  io_state : IOLockState;
  lm_locks : B;
  installed : bool;
  next_handle : N;
  acquire_count : N;
  release_count : N;
  contention_count : N;
  total_acquire_ns : N;
  timeout_count : N }.
Arguments mkLockManager {B}.
Arguments io_state {B}. Arguments lm_locks {B}. Arguments installed {B}. Arguments next_handle {B}.
Arguments acquire_count {B}. Arguments release_count {B}. Arguments contention_count {B}.
Arguments total_acquire_ns {B}. Arguments timeout_count {B}.

Section manager.
Context {B : Type} `{LB : Locks B}.

Definition lock_manager_new (default_backend : B) : LockManager B :=
  mkLockManager (mkIOLockState ∅ ∅) default_backend false 0 0 0 0 0 0.

Definition install_locks (backend : B) (m : LockManager B) : bool * LockManager B :=
  if installed m then (false, m)
  else (true, mkLockManager (io_state m) backend true (next_handle m) (acquire_count m)
                (release_count m) (contention_count m) (total_acquire_ns m) (timeout_count m)).

Definition with_io (io : IOLockState * N) (m : LockManager B) : LockManager B :=
  mkLockManager io.1 (lm_locks m) (installed m) io.2 (acquire_count m) (release_count m)
    (contention_count m) (total_acquire_ns m) (timeout_count m).

Definition count_acquire (elapsed : N) (m : LockManager B) : LockManager B :=
  mkLockManager (io_state m) (lm_locks m) (installed m) (next_handle m)
    (wrap64 (acquire_count m + 1)) (release_count m) (contention_count m)
    (wrap64 (total_acquire_ns m + elapsed)) (timeout_count m).

Definition count_contention (m : LockManager B) : LockManager B :=
  mkLockManager (io_state m) (lm_locks m) (installed m) (next_handle m) (acquire_count m)
    (release_count m) (wrap64 (contention_count m + 1)) (total_acquire_ns m) (timeout_count m).

Definition count_timeout (m : LockManager B) : LockManager B :=
  mkLockManager (io_state m) (lm_locks m) (installed m) (next_handle m) (acquire_count m)
    (release_count m) (contention_count m) (total_acquire_ns m) (wrap64 (timeout_count m + 1)).

Definition count_release (m : LockManager B) : LockManager B :=
  mkLockManager (io_state m) (lm_locks m) (installed m) (next_handle m) (acquire_count m)
    (wrap64 (release_count m + 1)) (contention_count m) (total_acquire_ns m) (timeout_count m).

(** Where a thread in [blocking_acquire] is: before the first try, before the
    next round of the wait loop, asleep on the condition variable (and woken by
    a release or not), or back with a handle (0 for a timeout). *)
Inductive AcquirePc := Entered | Waiting | Asleep (notified : bool) | Returned (handle : N).

(** The first try.  [elapsed] is the time since the call, for the metrics. *)
Definition acquire_enter (path : string) (mode : LockMode) (timeout_ms elapsed : N)
    (m : LockManager B) : AcquirePc * LockManager B :=
  let '(r, io) := try_acquire_io_locked (io_state m) (next_handle m) (normalize_path path) mode in
  let m := with_io io m in
  match r with
  | Some handle => (Returned handle, count_acquire elapsed m)
  | None =>
      if (timeout_ms =? 0)%N then (Returned 0, count_timeout (count_contention m))
      else (Waiting, m)
  end.

(** The head of the loop: the deadline has passed, or the thread goes to sleep. *)
Definition acquire_wait (expired : bool) (m : LockManager B) : AcquirePc * LockManager B :=
  let m := count_contention m in
  if expired then (Returned 0, count_timeout m) else (Asleep false, m).

(** After the wait, with the mutex held again. *)
Definition acquire_wake (path : string) (mode : LockMode) (timed_out : bool) (elapsed : N)
    (m : LockManager B) : AcquirePc * LockManager B :=
  let '(r, io) := try_acquire_io_locked (io_state m) (next_handle m) (normalize_path path) mode in
  let m := with_io io m in
  match r with
  | Some handle => (Returned handle, count_acquire elapsed m)
  | None => if timed_out then (Returned 0, count_timeout m) else (Waiting, m)
  end.

Definition do_release (handle : N) (m : LockManager B) : bool * LockManager B :=
  match release_io_locked (io_state m) handle with
  | None => (false, m)
  | Some io => (true, count_release (with_io (io, next_handle m) m))
  end.

(** ** Queries *)

Definition is_locked (m : LockManager B) (path : string) : bool :=
  match io_locks (io_state m) !! normalize_path path with
  | Some entry => negb (is_idle entry)
  | None => false
  end.

Definition io_holders (m : LockManager B) (path : string) : option (N * N) :=
  match io_locks (io_state m) !! normalize_path path with
  | Some entry => if is_idle entry then None else Some (io_readers entry, default 0%N (io_writer entry))
  | None => None
  end.

Definition io_active_locks (m : LockManager B) : nat :=
  length (filter (λ kv, is_idle kv.2 = false) (map_to_list (io_locks (io_state m)))).

Definition io_active_handles (m : LockManager B) : nat := size (io_handles (io_state m)).

(** ** Advisory locks *)

Definition with_locks (b : B) (m : LockManager B) : LockManager B :=
  mkLockManager (io_state m) b (installed m) (next_handle m) (acquire_count m)
    (release_count m) (contention_count m) (total_acquire_ns m) (timeout_count m).

(** [ttl_secs.min(u32::MAX as u64) as u32] *)
Definition clamp_ttl (ttl_secs : N) : N := N.min ttl_secs (U32_MOD - 1).

Definition acquire_lock (path lock_id : string) (max_holders ttl_secs : N) (holder_info : string)
    (now : N) (m : LockManager B) : result string bool * LockManager B :=
  let '(r, b) := lk_acquire (lm_locks m) path lock_id max_holders (clamp_ttl ttl_secs) holder_info now in
  (r, with_locks b m).

Definition release_lock (path lock_id : string) (m : LockManager B) :
    result string bool * LockManager B :=
  let '(r, b) := lk_release (lm_locks m) path lock_id in (r, with_locks b m).

Definition force_release_lock (path : string) (m : LockManager B) :
    result string bool * LockManager B :=
  let '(r, b) := lk_force_release (lm_locks m) path in (r, with_locks b m).

Definition extend_lock (path lock_id : string) (ttl_secs now : N) (m : LockManager B) :
    result string bool * LockManager B :=
  let '(r, b) := lk_extend (lm_locks m) path lock_id (clamp_ttl ttl_secs) now in (r, with_locks b m).

(** ** Threads *)

Record Thread := mkThread {
  th_path : string;
  th_mode : LockMode;
  th_timeout : N;
  th_pc : AcquirePc }.

Definition goto (pc : AcquirePc) (t : Thread) : Thread :=
  mkThread (th_path t) (th_mode t) (th_timeout t) pc.

(** [notify_all] *)
Definition notify (t : Thread) : Thread :=
  match th_pc t with Asleep _ => goto (Asleep true) t | _ => t end.

Record System := mkSystem { sys_manager : LockManager B; sys_threads : gmap N Thread }.

(** The handle counter and the readers of a path are within their widths. *)
Definition counters_in_range (m : LockManager B) : Prop :=
  (next_handle m + 1 < U64_MOD)%N ∧ (N.of_nat (size (io_handles (io_state m))) + 1 < U32_MOD)%N.

(** One critical section of some thread, or a new call. *)
Inductive lock_step : System → System → Prop :=
  | step_call m ts i path mode timeout :
      ts !! i = None →
      lock_step (mkSystem m ts) (mkSystem m (<[i := mkThread path mode timeout Entered]> ts))
  | step_enter m ts i t elapsed pc m' :
      ts !! i = Some t → th_pc t = Entered → counters_in_range m →
      acquire_enter (th_path t) (th_mode t) (th_timeout t) elapsed m = (pc, m') →
      lock_step (mkSystem m ts) (mkSystem m' (<[i := goto pc t]> ts))
  | step_wait m ts i t expired pc m' :
      ts !! i = Some t → th_pc t = Waiting → acquire_wait expired m = (pc, m') →
      lock_step (mkSystem m ts) (mkSystem m' (<[i := goto pc t]> ts))
  | step_wake m ts i t notified timed_out elapsed pc m' :
      ts !! i = Some t → th_pc t = Asleep notified → notified = true ∨ timed_out = true →
      counters_in_range m →
      acquire_wake (th_path t) (th_mode t) timed_out elapsed m = (pc, m') →
      lock_step (mkSystem m ts) (mkSystem m' (<[i := goto pc t]> ts))
  | step_release m ts handle m' :
      do_release handle m = (true, m') →
      lock_step (mkSystem m ts) (mkSystem m' (notify <$> ts))
  | step_release_unknown m ts handle m' :
      do_release handle m = (false, m') →
      lock_step (mkSystem m ts) (mkSystem m' ts).
End manager.
Arguments System : clear implicits.
