(* ===== verification/IoLockProofs.v ===== *)
(** * Properties of the kernel's I/O locks

    Normal paths; the lock table agrees with the live handles, in every
    interleaving of acquiring and releasing threads; conflicting handles never
    overlap; an acquire is granted exactly when no live handle conflicts. *)

From S2P Require Import Prelude Bytes Codec Table LockState IoLocks.

(** ** Normal paths *)

(** The non-empty components of a path. *)
Definition components (s : string) : list string := filter (λ c, c ≠ "") (ssplit "/" s).

Fixpoint slash_join (cs : list string) : string :=
  match cs with
  | [] => ""
  | [c] => c
  | c :: cs => c +:+ String "/" (slash_join cs)
  end.

(** A path in normal form: its components joined by single slashes, after a slash
    for an absolute path. *)
Definition canonical (absolute : bool) (cs : list string) : string :=
  if absolute then String "/" (slash_join cs) else slash_join cs.

Definition absolute (s : string) : bool := bool_decide (s = "") || starts_with "/" s.

(** [trim_slash] without the exception for the root. *)
Fixpoint drop_last_slash (s : string) : string :=
  match s with
  | "" => ""
  | String a "" => if decide (a = "/"%char) then "" else s
  | String a s => String a (drop_last_slash s)
  end.

Lemma drop_last_slash_cons a b s : drop_last_slash (String a (String b s)) = String a (drop_last_slash (String b s)).
Proof. done. Qed.

Lemma trim_slash_cons a b s : trim_slash (String a (String b s)) = String a (drop_last_slash (String b s)).
Proof.
  unfold trim_slash. cbn [String.length]. change (1 <? S (S (String.length s)))%nat with true. cbn [andb].
  revert a b. induction s as [|c s IH]; intros a b.
  - unfold ends_with. cbn. destruct (decide (b = "/"%char)) as [->|Hb]; [done|].
    rewrite bool_decide_false; [done|]. congruence.
  - rewrite ends_with_slash_cons, drop_last_slash_cons. cbn [String.length] in *.
    replace (S (S (S (String.length s))) - 1)%nat with (S (S (S (String.length s)) - 1)) by lia.
    rewrite <-(IH b c). cbn [stake]. by destruct (ends_with "/" (String b (String c s))).
Qed.

Lemma ssplit_ne c s : ssplit c s ≠ [].
Proof. destruct s as [|a s]; [done|]. cbn [ssplit]. case_decide; [done|]. by destruct (ssplit c s). Qed.

Lemma components_slash s : components (String "/" s) = components s.
Proof. unfold components. cbn [ssplit]. rewrite decide_True by done. by rewrite filter_cons_False by (intros Hn; by apply Hn). Qed.

Lemma components_char a s :
  a ≠ "/"%char →
  components (String a s) =
    match s with
    | "" => [String a ""]
    | String b _ =>
        if decide (b = "/"%char) then String a "" :: components s
        else match components s with c :: cs => String a c :: cs | [] => [String a ""] end
    end.
Proof.
  intros Ha. unfold components. cbn [ssplit]. rewrite decide_False by done. destruct s as [|b s]; [done|].
  cbn [ssplit]. case_decide as Hb.
  - rewrite filter_cons_True by done. by rewrite (filter_cons_False _ "") by (intros Hn; by apply Hn).
  - destruct (ssplit "/" s) as [|w ws]; by rewrite !filter_cons_True by done.
Qed.

Lemma components_nonslash b s : b ≠ "/"%char → components (String b s) ≠ [].
Proof.
  intros Hb. rewrite components_char by done. destruct s as [|c s]; [done|].
  case_decide; [done|]. by destruct (components (String c s)).
Qed.

Lemma components_nonempty s : slash_join (components s) = "" → components s = [].
Proof.
  assert (Forall (λ c, c ≠ "") (components s)) as Hall.
  { apply Forall_forall. intros c. unfold components. by intros [Hc _]%list_elem_of_filter. }
  destruct (components s) as [|c cs]; [done|]. apply Forall_cons in Hall as [Hc _]. intros Hj. exfalso.
  destruct cs; [done|]. change (c +:+ String "/" (slash_join (s0 :: cs)) = "") in Hj.
  by apply sapp_eq_nil in Hj as [? _].
Qed.

(** What the collapsing loop leaves, up to a trailing slash: after a slash, and
    elsewhere. *)
Lemma collapse_canonical s :
  drop_last_slash (collapse true s) = slash_join (components s) ∧
  (∀ a, a ≠ "/"%char →
    drop_last_slash (String a (collapse false s)) = slash_join (components (String a s))).
Proof.
  induction s as [|b s [IHt IHf]].
  { split; [done|]. intros a Ha. cbn. by rewrite !decide_False by done. }
  split.
  - cbn [collapse]. case_decide as Hb.
    + subst b. by rewrite components_slash.
    + by apply IHf.
  - intros a Ha. cbn [collapse]. rewrite components_char by done. case_decide as Hb.
    + subst b. rewrite components_slash. destruct (collapse true s) as [|c t] eqn:Hc.
      * by rewrite (components_nonempty s).
      * rewrite !drop_last_slash_cons, IHt. assert (components s ≠ []) as Hne.
        { intros Hn. rewrite Hn in IHt. cbn in IHt. destruct t; cbn in IHt; [|done].
          clear -Hc IHt. case_decide; [subst|done]. revert Hc.
          clear. induction s as [|d s IH]; [done|]. cbn. case_decide; [done|]. congruence. }
        by destruct (components s).
    + rewrite drop_last_slash_cons, IHf by done.
      pose proof (components_nonslash b s Hb). by destruct (components (String b s)) as [|c [|]].
Qed.

Lemma collapse_id s : double_slash s = false → collapse false s = s.
Proof.
  assert (∀ s b, double_slash s = false → (b = true → starts_with "/" s = false) → collapse b s = s) as H.
  { clear. induction s as [|a s IH]; intros b Hd Hb; [done|]. cbn [collapse]. case_decide as Ha.
    - subst a. destruct b; [by specialize (Hb eq_refl)|]. f_equal. destruct s as [|c s]; [done|].
      cbn [double_slash] in Hd. apply orb_false_iff in Hd as [Hc Hd]. apply IH; [done|]. intros _.
      apply bool_decide_eq_false in Hc. 
      destruct (starts_with "/" (String c s)) eqn:E; [|done]. apply starts_with_true in E as [r [= -> _]].
      by destruct Hc.
    - f_equal. apply IH; [|done]. destruct s as [|c s]; [done|]. cbn [double_slash] in Hd.
      by apply orb_false_iff in Hd as [_ Hd]. }
  intros Hd. by apply H.
Qed.

(** The fast path of [normalize_path] agrees with its slow path. *)
Lemma normalize_collapse p : p ≠ "" → normalize_path p = trim_slash (collapse false p).
Proof.
  intros Hp. unfold normalize_path. rewrite decide_False by done.
  destruct (double_slash p) eqn:Hd; [done|]. cbn [negb]. by rewrite collapse_id.
Qed.

Lemma starts_with_slash_cons a s : starts_with "/" (String a s) = bool_decide (a = "/"%char).
Proof. case_bool_decide as Ha; [by subst|]. apply not_true_iff_false. by intros [r [= ->]]%starts_with_true. Qed.

Lemma normalize_canonical p : normalize_path p = canonical (absolute p) (components p).
Proof.
  destruct p as [|a p]; [done|]. rewrite normalize_collapse by done. unfold absolute.
  rewrite bool_decide_false by done. rewrite starts_with_slash_cons. cbn [collapse orb]. case_decide as Ha.
  - subst a. rewrite bool_decide_true, components_slash by done. unfold canonical.
    rewrite <-(proj1 (collapse_canonical p)). destruct (collapse true p) as [|b t] eqn:Hc; [done|].
    apply trim_slash_cons.
  - rewrite bool_decide_false by done. unfold canonical.
    rewrite <-(proj2 (collapse_canonical p) a Ha).
    destruct (collapse false p) as [|b t]; [|by rewrite trim_slash_cons].
    cbn. by rewrite decide_False.
Qed.

Lemma components_slash_free s : Forall (λ c, c ≠ "" ∧ scontains "/" c = false) (components s).
Proof.
  apply Forall_forall. intros c. unfold components. rewrite list_elem_of_filter. intros [Hne Hin].
  split; [done|]. clear Hne. revert c Hin. induction s as [|a s IH]; intros c; cbn [ssplit].
  - by intros ->%list_elem_of_singleton.
  - case_decide as Ha.
    + intros [->|Hin]%elem_of_cons; [done|]. by apply IH.
    + pose proof (ssplit_ne "/" s). destruct (ssplit "/" s) as [|w ws]; [done|].
      intros [->|Hin]%elem_of_cons; [|apply IH; by right]. cbn [scontains].
      rewrite bool_decide_false by done. apply IH. left.
Qed.

Lemma components_join cs :
  Forall (λ c, c ≠ "" ∧ scontains "/" c = false) cs → components (slash_join cs) = cs.
Proof.
  intros Hall. unfold components. induction Hall as [|c cs [Hne Hc] Hall IH]; [done|].
  destruct cs as [|c' cs].
  - cbn [slash_join]. rewrite ssplit_no_sep by done. by rewrite filter_cons_True.
  - change (slash_join (c :: c' :: cs)) with (c +:+ String "/" (slash_join (c' :: cs))).
    rewrite ssplit_cons by done. rewrite filter_cons_True by done. by rewrite IH.
Qed.

Lemma components_normalize p : components (normalize_path p) = components p.
Proof.
  rewrite normalize_canonical. unfold canonical. destruct (absolute p);
    rewrite ?components_slash; apply components_join, components_slash_free.
Qed.

Lemma absolute_normalize p : absolute (normalize_path p) = absolute p.
Proof.
  rewrite normalize_canonical. unfold canonical. destruct (absolute p) eqn:Ha; [done|].
  unfold absolute in *. apply orb_false_iff in Ha as [Hne Ha]. destruct p as [|a p]; [done|].
  rewrite starts_with_slash_cons in Ha. apply bool_decide_eq_false in Ha.
  pose proof (components_nonslash a p Ha) as Hc. pose proof (components_slash_free (String a p)) as Hall.
  destruct (components (String a p)) as [|c cs]; [done|]. apply Forall_cons in Hall as [[Hc1 Hc2] _].
  destruct c as [|b c]; [done|]. assert (∃ t, slash_join (String b c :: cs) = String b t) as [t ->].
  { destruct cs; [by exists c|]. eexists. cbn [slash_join]. by rewrite sapp_cons. }
  rewrite bool_decide_false, starts_with_slash_cons by done. cbn [orb]. cbn [scontains] in Hc2.
  by apply orb_false_iff in Hc2 as [? _].
Qed.

(** [normalize_path] gives every spelling of a path one name: the result is the
    components joined by single slashes, with a leading slash exactly for an
    absolute (or empty) path; two paths normalise alike exactly when they agree
    in that and in their components; normalising again changes nothing. *)
Theorem normalize_path_canonical p q :
  normalize_path p = canonical (absolute p) (components p) ∧
  (normalize_path p = normalize_path q ↔ absolute p = absolute q ∧ components p = components q) ∧
  normalize_path (normalize_path p) = normalize_path p.
Proof.
  split_and!; [apply normalize_canonical| |].
  - split.
    + intros H. rewrite <-(absolute_normalize p), <-(components_normalize p), H.
      by rewrite absolute_normalize, components_normalize.
    + intros [Ha Hc]. by rewrite !normalize_canonical, Ha, Hc.
  - by rewrite (normalize_canonical (normalize_path p)), absolute_normalize, components_normalize,
      <-normalize_canonical.
Qed.

(** ** The ancestors *)

Lemma ancestors_collect_loop fuel path cur :
  (String.length cur < fuel)%nat → (∃ r, path = cur +:+ r) →
  ancestors_collect fuel (mkAncestors path (String.length cur) false) = ancestors_loop fuel cur.
Proof.
  revert cur. induction fuel as [|fuel IH]; intros cur Hf [r ->]; [done|].
  cbn [ancestors_collect ancestors_loop]. unfold ancestors_next. cbn [an_done an_end an_path orb].
  destruct cur as [|a cur]; [done|]. set (c := String a cur) in *.
  replace (String.length c =? 0)%nat with false by done. rewrite stake_app.
  destruct (rsplit_once "/" c) as [[l x]|] eqn:E; [|done].
  apply rsplit_once_Some in E as [He Hx]. destruct l as [|b l].
  - destruct fuel; done.
  - rewrite decide_False by done. f_equal. rewrite He, slen_app in Hf. cbn [String.length] in Hf.
    apply IH; [cbn [String.length]; lia|]. exists (String "/" x +:+ r). by rewrite He, <-sapp_assoc.
Qed.

(** The lazy iterator visits the ancestors of the advisory lock table. *)
Lemma io_ancestors_eq path : io_ancestors path = ancestors path.
Proof.
  unfold io_ancestors, ancestors_iter, ancestors. case_decide as Hp; [done|].
  rewrite (ancestors_collect_loop _ path path); [|lia|by exists ""; rewrite sapp_nil_r].
  apply ancestors_loop_fuel; lia.
Qed.

(** ** The table and the handles *)

Definition normal (p : string) : Prop := normalize_path p = p.

Lemma normal_ne p : normal p → p ≠ "".
Proof. by intros Hp ->. Qed.

Lemma slash_join_trailing cs :
  Forall (λ c, c ≠ "" ∧ scontains "/" c = false) cs → ends_with "/" (slash_join cs) = false.
Proof.
  induction 1 as [|c cs [Hne Hc] Hall IH]; [done|]. destruct cs as [|c' cs].
  - cbn [slash_join]. apply not_true_iff_false. intros [r ->]%ends_with_true. rewrite scontains_app in Hc.
    by rewrite orb_true_r in Hc.
  - change (slash_join (c :: c' :: cs)) with (c +:+ ("/" +:+ slash_join (c' :: cs))).
    rewrite sapp_assoc, ends_with_slash_app; [done|]. intros Hj. apply Forall_cons in Hall as [[Hc' _] _].
    destruct cs; [done|]. change (c' +:+ String "/" (slash_join (s :: cs)) = "") in Hj.
    by apply sapp_eq_nil in Hj as [? _].
Qed.

Lemma normal_trailing p : normal p → ends_with "/" p = true → p = "/".
Proof.
  unfold normal. rewrite normalize_canonical. intros <-. unfold canonical.
  pose proof (slash_join_trailing _ (components_slash_free p)) as Hj.
  destruct (absolute p); [|congruence]. destruct (slash_join (components p)) as [|b t]; [done|].
  rewrite ends_with_slash_cons. congruence.
Qed.

(** The paths on which two handles can exclude each other. *)
Definition overlap (p q : string) : Prop := p = q ∨ strict_ancestor p q ∨ strict_ancestor q p.

Lemma overlap_sym p q : overlap p q → overlap q p.
Proof. unfold overlap. naive_solver. Qed.

Lemma dir_prefix_overlap p k :
  normal p → starts_with (dir_prefix p) k = true → p = k ∨ strict_ancestor p k.
Proof.
  intros Hp. unfold dir_prefix. destruct (ends_with "/" p) eqn:E.
  - rewrite (normal_trailing p Hp E). intros Hk. destruct (decide (k = "/")) as [->|Hne]; [by left|].
    right. left. by split_and!.
  - intros [r ->]%starts_with_true. right. right. split; [by apply normal_ne|].
    exists r. by rewrite <-!sapp_assoc.
Qed.

(** Two uses of a path exclude each other unless both read. *)
Definition excludes (mode : LockMode) (info : HandleInfo) : Prop :=
  mode = ModeWrite ∨ hi_mode info = ModeWrite.

Definition readers_on (hs : gmap N HandleInfo) (p : string) : nat :=
  size (filter (λ kv, kv.2 = mkHandleInfo p ModeRead) hs).

(** The table agrees with the live handles, and those do not conflict. *)
Record io_inv (s : IOLockState) (next : N) : Prop := {
  inv_readers : ∀ p, io_readers (default io_entry_default (io_locks s !! p))
                  = N.of_nat (readers_on (io_handles s) p);
  inv_writer : ∀ p h, io_writer (default io_entry_default (io_locks s !! p)) = Some h ↔
                      io_handles s !! h = Some (mkHandleInfo p ModeWrite);
  inv_live : ∀ p e, io_locks s !! p = Some e → is_idle e = false;
  inv_handle : ∀ h info, io_handles s !! h = Some info → (0 < h ≤ next)%N ∧ normal (hi_path info);
  inv_excl : ∀ h1 h2 i1 i2, h1 ≠ h2 → io_handles s !! h1 = Some i1 → io_handles s !! h2 = Some i2 →
    overlap (hi_path i1) (hi_path i2) → ¬ excludes (hi_mode i1) i2;
  inv_size : (N.of_nat (size (io_handles s)) < U32_MOD)%N }.

Lemma readers_on_pos hs p :
  (0 < readers_on hs p)%nat ↔ ∃ h, hs !! h = Some (mkHandleInfo p ModeRead).
Proof.
  unfold readers_on. split.
  - intros Hs. destruct (map_choose (filter (λ kv, kv.2 = mkHandleInfo p ModeRead) hs)) as (h & i & Hh).
    { intros He. rewrite He, map_size_empty in Hs. lia. }
    apply map_lookup_filter_Some in Hh as [Hh Hi]. cbn in Hi. subst. by exists h.
  - intros [h Hh]. apply Nat.neq_0_lt_0. rewrite map_size_ne_0_lookup. exists h.
    eexists. apply map_lookup_filter_Some. by split.
Qed.

Lemma entry_conflict_iff s next p mode :
  io_inv s next →
  entry_conflict mode (default io_entry_default (io_locks s !! p)) = true ↔
  ∃ h info, io_handles s !! h = Some info ∧ hi_path info = p ∧ excludes mode info.
Proof.
  intros Hi. pose proof (inv_readers _ _ Hi p) as Hr. pose proof (inv_writer _ _ Hi p) as Hw.
  set (e := default io_entry_default (io_locks s !! p)) in *.
  assert (io_writer e ≠ None ↔ ∃ h, io_handles s !! h = Some (mkHandleInfo p ModeWrite)) as Hwr.
  { destruct (io_writer e) as [h|].
    - split; [|done]. intros _. exists h. by apply Hw.
    - split; [done|]. intros [h Hh]. by apply Hw in Hh. }
  assert ((0 < io_readers e)%N ↔ ∃ h, io_handles s !! h = Some (mkHandleInfo p ModeRead)) as Hrd.
  { rewrite Hr, <-readers_on_pos. lia. }
  unfold entry_conflict, excludes. destruct mode.
  - rewrite bool_decide_eq_true, Hwr. split.
    + intros [h Hh]. eauto 6.
    + intros (h & [p' m] & Hh & <- & [?|Hm]); [done|]. cbn in Hm. subst m. eauto.
  - rewrite orb_true_iff, bool_decide_eq_true, Hwr, N.ltb_lt, Hrd. split.
    + intros [[h Hh]|[h Hh]]; eauto 8.
    + intros (h & [p' []] & Hh & <- & _); eauto.
Qed.

Lemma lookup_conflict_iff s next p mode :
  io_inv s next →
  match io_locks s !! p with Some e => entry_conflict mode e | None => false end = true ↔
  ∃ h info, io_handles s !! h = Some info ∧ hi_path info = p ∧ excludes mode info.
Proof.
  intros Hi. rewrite <-(entry_conflict_iff s next p mode Hi). destruct (io_locks s !! p); [done|].
  by destruct mode.
Qed.

(** A live handle stands in the way of using [p] in [mode]. *)
Definition blocked (s : IOLockState) (p : string) (mode : LockMode) : Prop :=
  ∃ h info, io_handles s !! h = Some info ∧ overlap p (hi_path info) ∧ excludes mode info.

Lemma conflict_iff s next p mode :
  io_inv s next → normal p →
  ancestor_io_conflict (io_locks s) p mode = true ∨
  descendant_io_conflict (io_locks s) p mode = true ∨
  entry_conflict mode (default io_entry_default (io_locks s !! p)) = true ↔ blocked s p mode.
Proof.
  intros Hi Hp. unfold blocked. rewrite (entry_conflict_iff s next p mode Hi).
  assert (ancestor_io_conflict (io_locks s) p mode = true ↔
    ∃ h info, io_handles s !! h = Some info ∧ strict_ancestor (hi_path info) p ∧ excludes mode info) as ->.
  { unfold ancestor_io_conflict. rewrite existsb_exists. setoid_rewrite <-list_elem_of_In.
    setoid_rewrite (lookup_conflict_iff s next _ mode Hi). rewrite io_ancestors_eq.
    setoid_rewrite elem_of_ancestors. naive_solver. }
  assert (descendant_io_conflict (io_locks s) p mode = true ↔
    ∃ h info, io_handles s !! h = Some info ∧ starts_with (dir_prefix p) (hi_path info) = true ∧
      excludes mode info) as ->.
  { unfold descendant_io_conflict. pose proof (descendant_range_prefix p) as Hr. unfold descendant_range in Hr.
    rewrite existsb_exists. setoid_rewrite <-list_elem_of_In. split.
    - intros ([k e] & (Hlo & Hhi & Hk)%elem_of_range & He).
      pose proof (lookup_conflict_iff s next k mode Hi) as Hc. rewrite Hk in Hc.
      apply Hc in He as (h & info & Hh & <- & Hex). exists h, info. split_and!; [done| |done].
      rewrite <-Hr. by apply andb_true_iff.
    - intros (h & info & Hh & Hk & Hex). pose proof (lookup_conflict_iff s next (hi_path info) mode Hi) as Hc.
      destruct (io_locks s !! hi_path info) as [e|] eqn:Hl.
      + exists (hi_path info, e). rewrite <-Hr in Hk. apply andb_true_iff in Hk as [Hlo Hhi].
        rewrite elem_of_range. split_and!; [done..|]. apply Hc. eauto.
      + exfalso. assert (false = true) by (apply Hc; eauto). done. }
  split.
  - intros [(h & i & Hh & Ha & He)|[(h & i & Hh & Ha & He)|(h & i & Hh & Ha & He)]];
      exists h, i; (split; [done|]); (split; [|done]); unfold overlap; [auto| |by left].
    apply dir_prefix_overlap in Ha as [?|?]; auto.
  - intros (h & i & Hh & [->|[Ho|Ho]] & He); [right; right|right; left|left]; exists h, i; [done| |done].
    split_and!; [done| |done]. by apply strict_ancestor_dir_prefix.
Qed.

(** ** Acquiring and releasing *)

Lemma readers_on_insert hs h info p :
  hs !! h = None →
  readers_on (<[h := info]> hs) p
    = ((if decide (info = mkHandleInfo p ModeRead) then 1 else 0) + readers_on hs p)%nat.
Proof.
  intros Hh. unfold readers_on. case_decide as Hd.
  - rewrite map_filter_insert_True by done. apply map_size_insert_None. apply map_lookup_filter_None. by left.
  - rewrite map_filter_insert_False by done. by rewrite delete_id.
Qed.

Lemma readers_on_delete hs h info p :
  hs !! h = Some info →
  readers_on hs p
    = ((if decide (info = mkHandleInfo p ModeRead) then 1 else 0) + readers_on (delete h hs) p)%nat.
Proof.
  intros Hh. rewrite <-(readers_on_insert (delete h hs) h info p) by apply lookup_delete_eq.
  by rewrite insert_delete_id.
Qed.

Lemma readers_on_size hs p : (readers_on hs p ≤ size hs)%nat.
Proof. unfold readers_on. apply map_size_filter. Qed.

Lemma is_idle_default e : is_idle e = true ↔ e = io_entry_default.
Proof.
  destruct e as [r w]. unfold is_idle, io_entry_default. cbn. rewrite andb_true_iff, N.eqb_eq, bool_decide_eq_true.
  naive_solver.
Qed.

(** The handles determine the table. *)
Lemma io_inv_unique s s' next next' :
  io_inv s next → io_inv s' next' → io_handles s = io_handles s' → s = s'.
Proof.
  intros Hi Hi' He. destruct s as [ls hs], s' as [ls' hs']. cbn in He. subst hs'. f_equal.
  assert (∀ p, default io_entry_default (ls !! p) = default io_entry_default (ls' !! p)) as Hd.
  { intros p. pose proof (inv_readers _ _ Hi p) as R. pose proof (inv_readers _ _ Hi' p) as R'.
    pose proof (inv_writer _ _ Hi p) as W. pose proof (inv_writer _ _ Hi' p) as W'. cbn in *.
    destruct (default io_entry_default (ls !! p)) as [r w], (default io_entry_default (ls' !! p)) as [r' w'].
    cbn in *. f_equal; [congruence|]. apply option_eq. intros h. by rewrite W, W'. }
  apply map_eq. intros p. specialize (Hd p).
  pose proof (inv_live _ _ Hi p) as L. pose proof (inv_live _ _ Hi' p) as L'. cbn in *.
  destruct (ls !! p) as [e|], (ls' !! p) as [e'|]; cbn in Hd; [by subst| | |done].
  - specialize (L e eq_refl). apply not_true_iff_false in L. by rewrite is_idle_default in L.
  - specialize (L' e' eq_refl). apply not_true_iff_false in L'. by rewrite is_idle_default in L'.
Qed.

Lemma blocked_refuses s next p mode :
  io_inv s next → normal p → blocked s p mode →
  try_acquire_io_locked s next p mode = (None, (s, next)).
Proof.
  intros Hi Hp Hb. apply (conflict_iff s next p mode Hi Hp) in Hb. unfold try_acquire_io_locked.
  destruct (ancestor_io_conflict _ _ _); [done|]. destruct (descendant_io_conflict _ _ _); [done|].
  destruct Hb as [?|[?|Hb]]; [done..|]. rewrite Hb. do 2 f_equal. destruct s as [ls hs]. cbn in *. f_equal.
  destruct (ls !! p) as [e|] eqn:He; [by apply insert_id|]. by destruct mode.
Qed.

Lemma default_insert (ls : gmap string IOEntry) p e p' :
  default io_entry_default (<[p := e]> ls !! p')
    = if decide (p = p') then e else default io_entry_default (ls !! p').
Proof. case_decide as Hd; [subst; by rewrite lookup_insert_eq|by rewrite lookup_insert_ne]. Qed.

Lemma default_delete (ls : gmap string IOEntry) p p' :
  default io_entry_default (delete p ls !! p')
    = if decide (p = p') then io_entry_default else default io_entry_default (ls !! p').
Proof. case_decide as Hd; [subst; by rewrite lookup_delete_eq|by rewrite lookup_delete_ne]. Qed.

(** The state after a granted acquire. *)
Definition acquired_state (s : IOLockState) (h : N) (p : string) (mode : LockMode) : IOLockState :=
  let e := default io_entry_default (io_locks s !! p) in
  mkIOLockState
    (<[p := match mode with
            | ModeRead => mkIOEntry (io_readers e + 1) (io_writer e)
            | ModeWrite => mkIOEntry (io_readers e) (Some h)
            end]> (io_locks s))
    (<[h := mkHandleInfo p mode]> (io_handles s)).

Lemma acquired_inv s next p mode :
  io_inv s next → normal p → ¬ blocked s p mode →
  (N.of_nat (size (io_handles s)) + 1 < U32_MOD)%N →
  io_inv (acquired_state s (next + 1) p mode) (next + 1).
Proof.
  intros Hi Hp Hb Hsz. assert (io_handles s !! (next + 1)%N = None) as Hfresh.
  { apply eq_None_not_Some. intros [i Hx]. apply (inv_handle _ _ Hi) in Hx. lia. }
  assert (entry_conflict mode (default io_entry_default (io_locks s !! p)) = false) as Hc.
  { apply not_true_iff_false. intros Hc. apply Hb. apply (conflict_iff s next p mode Hi Hp). auto. }
  unfold acquired_state. split; cbn [io_locks io_handles].
  - intros p'. rewrite default_insert, readers_on_insert by done. pose proof (inv_readers _ _ Hi p') as R.
    case_decide as Hpp; [subst p'; destruct mode; cbn; rewrite R; case_decide; (congruence || lia)|].
    rewrite R. case_decide; [congruence|done].
  - intros p' h. rewrite default_insert. pose proof (inv_writer _ _ Hi p' h) as W.
    destruct (decide (next + 1 = h)%N) as [<-|Hne].
    + rewrite lookup_insert_eq. case_decide as Hpp; [subst p'; destruct mode; cbn|].
      * rewrite W, Hfresh. split; congruence.
      * done.
      * rewrite W, Hfresh. split; congruence.
    + rewrite lookup_insert_ne by done. case_decide as Hpp; [subst p'; destruct mode; cbn|]; [done| |done].
      rewrite <-W. unfold entry_conflict in Hc. apply orb_false_iff in Hc as [Hc _].
      apply bool_decide_eq_false, dec_stable in Hc. rewrite Hc. split; congruence.
  - intros p' e. rewrite lookup_insert_Some. intros [[_ <-]|[_ He]]; [|by apply (inv_live _ _ Hi p')].
    apply not_true_iff_false. rewrite is_idle_default. unfold io_entry_default. destruct mode; [|done].
    intros [= Hr _]. lia.
  - intros h i. rewrite lookup_insert_Some. intros [[<- <-]|[_ Hh]]; [split; [lia|done]|].
    destruct (inv_handle _ _ Hi h i Hh). split; [lia|done].
  - assert (∀ h i, io_handles s !! h = Some i → overlap p (hi_path i) → ¬ excludes mode i) as Hnew.
    { intros h i Hh Ho He. apply Hb. exists h, i. done. }
    intros h1 h2 i1 i2 Hne. rewrite !lookup_insert_Some.
    intros [[<- <-]|[_ H1]] [[<- <-]|[_ H2]] Ho; [done|by apply (Hnew h2)| |by eapply (inv_excl _ _ Hi h1 h2)].
    intros He. apply overlap_sym in Ho. apply (Hnew h1 i1 H1 Ho). unfold excludes in *. cbn in *. tauto.
  - rewrite map_size_insert_None by done. lia.
Qed.

Lemma free_grants s next p mode :
  io_inv s next → normal p → ¬ blocked s p mode → (next + 1 < U64_MOD)%N →
  (N.of_nat (size (io_handles s)) + 1 < U32_MOD)%N →
  try_acquire_io_locked s next p mode
    = (Some (next + 1)%N, (acquired_state s (next + 1) p mode, next + 1)%N).
Proof.
  intros Hi Hp Hb Hn Hsz. pose proof (conflict_iff s next p mode Hi Hp) as Hc. unfold try_acquire_io_locked.
  destruct (ancestor_io_conflict _ _ _); [exfalso; tauto|].
  destruct (descendant_io_conflict _ _ _); [exfalso; tauto|].
  destruct (entry_conflict _ _); [exfalso; tauto|]. rewrite (wrap64_small (next + 1)) by done.
  unfold acquired_state. do 3 f_equal. destruct mode; [|done]. do 2 f_equal.
  unfold wrap32. rewrite N.mod_small; [done|]. rewrite (inv_readers _ _ Hi p). pose proof (readers_on_size (io_handles s) p). lia.
Qed.

(** Removing one holder of a path, its entry dropped when it gets idle. *)
Definition released_entry (info : HandleInfo) (e : IOEntry) : IOEntry :=
  match hi_mode info with
  | ModeRead => mkIOEntry (io_readers e - 1) (io_writer e)
  | ModeWrite => mkIOEntry (io_readers e) None
  end.

Definition put_entry (p : string) (e : IOEntry) (ls : gmap string IOEntry) : gmap string IOEntry :=
  if is_idle e then delete p ls else <[p := e]> ls.

Lemma default_put ls p e p' :
  default io_entry_default (put_entry p e ls !! p')
    = if decide (p = p') then e else default io_entry_default (ls !! p').
Proof.
  unfold put_entry. destruct (is_idle e) eqn:Hidle; [|apply default_insert].
  apply is_idle_default in Hidle as ->. apply default_delete.
Qed.

Lemma handle_entry s next h info :
  io_inv s next → io_handles s !! h = Some info →
  ∃ e, io_locks s !! hi_path info = Some e ∧ (io_readers e < U32_MOD)%N ∧
    match hi_mode info with
    | ModeRead => (0 < io_readers e)%N
    | ModeWrite => io_writer e = Some h
    end.
Proof.
  intros Hi Hh. pose proof (inv_readers _ _ Hi (hi_path info)) as R.
  pose proof (inv_writer _ _ Hi (hi_path info) h) as W.
  destruct info as [p []]; cbn [hi_path hi_mode] in *.
  - assert (0 < readers_on (io_handles s) p)%nat as Hpos by (apply readers_on_pos; eauto).
    destruct (io_locks s !! p) as [e|]; cbn in R; [|lia]. exists e. split; [done|].
    pose proof (inv_size _ _ Hi). pose proof (readers_on_size (io_handles s) p). split; lia.
  - destruct (io_locks s !! p) as [e|]; cbn in W, R; [|by apply W in Hh]. exists e. split; [done|].
    pose proof (inv_size _ _ Hi). pose proof (readers_on_size (io_handles s) p).
    split; [lia|by apply W].
Qed.

Lemma release_known s next h info :
  io_inv s next → io_handles s !! h = Some info →
  release_io_locked s h
    = Some (mkIOLockState
        (put_entry (hi_path info)
           (released_entry info (default io_entry_default (io_locks s !! hi_path info))) (io_locks s))
        (delete h (io_handles s))).
Proof.
  intros Hi Hh. destruct (handle_entry s next h info Hi Hh) as (e & He & Hmax & Hm).
  unfold release_io_locked, released_entry, put_entry. rewrite Hh, He. cbn [default from_option].
  destruct (hi_mode info); [|by rewrite decide_True]. unfold wrap32.
  replace ((io_readers e + (U32_MOD - 1)) mod U32_MOD)%N with (io_readers e - 1)%N; [done|].
  replace (io_readers e + (U32_MOD - 1))%N with ((io_readers e - 1) + 1 * U32_MOD)%N by (unfold U32_MOD; lia).
  rewrite N.Div0.mod_add, N.mod_small; lia.
Qed.

Lemma released_inv s next h info :
  io_inv s next → io_handles s !! h = Some info →
  io_inv (mkIOLockState
    (put_entry (hi_path info)
       (released_entry info (default io_entry_default (io_locks s !! hi_path info))) (io_locks s))
    (delete h (io_handles s))) next.
Proof.
  intros Hi Hh. destruct (handle_entry s next h info Hi Hh) as (e & He & _ & Hm).
  split; cbn [io_locks io_handles].
  - intros p'. rewrite default_put. pose proof (inv_readers _ _ Hi p') as R.
    rewrite (readers_on_delete _ h info p' Hh) in R. unfold released_entry. destruct info as [p m].
    cbn [hi_path hi_mode] in *. destruct (decide (p = p')) as [<-|Hp];
      [|by rewrite (decide_False (P := mkHandleInfo p m = _)) in R by congruence].
    rewrite He in *. cbn in *. destruct m; cbn; case_decide; (congruence || lia).
  - intros p' h'. rewrite default_put. pose proof (inv_writer _ _ Hi p' h') as W. unfold released_entry.
    destruct (decide (h = h')) as [<-|Hne].
    + rewrite lookup_delete_eq, Hh in *. destruct info as [p m]. cbn [hi_path hi_mode] in *.
      case_decide as Hp; [subst p'; destruct m; cbn|]; (split; [|done]); [|done|].
      * intros Hw. apply W in Hw. congruence.
      * intros Hw. apply W in Hw. congruence.
    + rewrite lookup_delete_ne by done. case_decide as Hp; [|done]. destruct info as [p m].
      cbn [hi_path hi_mode] in *. subst p'. destruct m; cbn; [done|]. rewrite He in *. cbn in W.
      rewrite <-W, Hm. split; congruence.
  - intros p' e'. unfold put_entry. destruct (is_idle _) eqn:Hidle.
    + intros [_ Hl]%lookup_delete_Some. by apply (inv_live _ _ Hi p').
    + intros [[_ <-]|[_ Hl]]%lookup_insert_Some; [done|]. by apply (inv_live _ _ Hi p').
  - intros h' i [_ Hl]%lookup_delete_Some. by apply (inv_handle _ _ Hi).
  - intros h1 h2 i1 i2 Hne [_ H1]%lookup_delete_Some [_ H2]%lookup_delete_Some. by eapply (inv_excl _ _ Hi h1 h2).
  - rewrite map_size_delete. pose proof (inv_size _ _ Hi). rewrite Hh. lia.
Qed.

(** ** Every interleaving *)

Section system.
Context {B : Type}.
Implicit Types (m : LockManager B).

Definition manager_inv m : Prop := io_inv (io_state m) (next_handle m).

Lemma normalize_normal p : normal (normalize_path p).
Proof.
  unfold normal. by rewrite (normalize_canonical (normalize_path p)), absolute_normalize,
    components_normalize, <-normalize_canonical.
Qed.

(** Whether a live handle is in the way of using [p] in [mode]. *)
Definition in_the_way m (p : string) (mode : LockMode) : Prop :=
  ∃ h info, io_handles (io_state m) !! h = Some info ∧
    overlap (normalize_path p) (hi_path info) ∧ excludes mode info.

(** One try of a thread. *)
Lemma try_spec m p mode :
  manager_inv m → counters_in_range m →
  (in_the_way m p mode ∧
   try_acquire_io_locked (io_state m) (next_handle m) (normalize_path p) mode
     = (None, (io_state m, next_handle m))) ∨
  (¬ in_the_way m p mode ∧
   let h := (next_handle m + 1)%N in
   let s := acquired_state (io_state m) h (normalize_path p) mode in
   try_acquire_io_locked (io_state m) (next_handle m) (normalize_path p) mode = (Some h, (s, h)) ∧
   io_inv s h).
Proof.
  intros Hi [Hn Hs]. pose proof (normalize_normal p) as Hp.
  destruct (ancestor_io_conflict (io_locks (io_state m)) (normalize_path p) mode
    || (descendant_io_conflict (io_locks (io_state m)) (normalize_path p) mode
    || entry_conflict mode (default io_entry_default (io_locks (io_state m) !! normalize_path p)))) eqn:Hc.
  - left. rewrite !orb_true_iff in Hc. apply (conflict_iff _ _ _ _ Hi Hp) in Hc.
    split; [done|by apply blocked_refuses].
  - right. assert (¬ blocked (io_state m) (normalize_path p) mode) as Hb.
    { intros Hb. apply (conflict_iff _ _ _ _ Hi Hp) in Hb. rewrite !orb_false_iff in Hc.
      destruct Hc as (H1 & H2 & H3). rewrite H1, H2, H3 in Hb. by destruct Hb as [?|[?|?]]. }
    split; [done|]. split; [by apply free_grants|by apply acquired_inv].
Qed.

Lemma with_io_id m : with_io (io_state m, next_handle m) m = m.
Proof. by destruct m. Qed.

Lemma lock_step_inv (sys sys' : System B) :
  lock_step sys sys' → manager_inv (sys_manager sys) → manager_inv (sys_manager sys').
Proof.
  destruct 1 as [m ts i path mode timeout Hts|m ts i t elapsed pc m' Ht Hpc Hr Hs
    |m ts i t expired pc m' Ht Hpc Hs|m ts i t notified timed_out elapsed pc m' Ht Hpc Hn Hr Hs
    |m ts h m' Hs|m ts h m' Hs]; cbn [sys_manager]; intros Hi.
  - done.
  - unfold acquire_enter in Hs. destruct (try_spec m (th_path t) (th_mode t) Hi Hr) as [[_ E]|(_ & E & Hi')];
      rewrite E in Hs; cbn in Hs.
    + rewrite with_io_id in Hs. destruct (th_timeout t =? 0)%N; by injection Hs as <- <-.
    + by injection Hs as <- <-.
  - unfold acquire_wait in Hs. destruct expired; by injection Hs as <- <-.
  - unfold acquire_wake in Hs. destruct (try_spec m (th_path t) (th_mode t) Hi Hr) as [[_ E]|(_ & E & Hi')];
      rewrite E in Hs; cbn in Hs.
    + rewrite with_io_id in Hs. destruct timed_out; by injection Hs as <- <-.
    + by injection Hs as <- <-.
  - unfold do_release in Hs. destruct (io_handles (io_state m) !! h) as [info|] eqn:Hh.
    + rewrite (release_known _ _ h info Hi Hh) in Hs. injection Hs as <-. by apply released_inv.
    + unfold release_io_locked in Hs. by rewrite Hh in Hs.
  - unfold do_release in Hs. destruct (release_io_locked (io_state m) h); [done|]. by injection Hs as <-.
Qed.

Lemma new_inv (b : B) : manager_inv (lock_manager_new b).
Proof.
  unfold manager_inv. split; cbn [io_state lock_manager_new io_locks io_handles next_handle].
  - intros p. rewrite lookup_empty. unfold readers_on. by rewrite map_filter_empty, map_size_empty.
  - intros p h. rewrite !lookup_empty. done.
  - intros p e. by rewrite lookup_empty.
  - intros h i. by rewrite lookup_empty.
  - intros h1 h2 i1 i2 _. by rewrite lookup_empty.
  - rewrite map_size_empty. done.
Qed.

(** A system reached from a new manager, by any interleaving. *)
Definition reachable (sys : System B) : Prop :=
  ∃ b, rtc lock_step (mkSystem (lock_manager_new b) ∅) sys.

Lemma reachable_inv sys : reachable sys → manager_inv (sys_manager sys).
Proof.
  intros [b Hr]. assert (manager_inv (sys_manager (mkSystem (lock_manager_new b) ∅))) as Hi by apply new_inv.
  induction Hr as [|s1 s2 s3 H12 _ IH]; [done|]. by eapply IH, lock_step_inv.
Qed.

(** C28: Mutual exclusion of the I/O locks in every interleaving of any number of
    threads: of two live handles on the same path, or on a path and an ancestor of
    it, neither is a write handle. *)
Theorem io_locks_exclusive sys h1 h2 i1 i2
    (Hreach : reachable sys) (Hne : h1 ≠ h2)
    (H1 : io_handles (io_state (sys_manager sys)) !! h1 = Some i1)
    (H2 : io_handles (io_state (sys_manager sys)) !! h2 = Some i2)
    (Hover : overlap (hi_path i1) (hi_path i2)) :
  hi_mode i1 = ModeRead ∧ hi_mode i2 = ModeRead.
Proof.
  pose proof (inv_excl _ _ (reachable_inv sys Hreach) h1 h2 i1 i2 Hne H1 H2 Hover) as Hx.
  unfold excludes in Hx. destruct (hi_mode i1), (hi_mode i2); tauto.
Qed.

(** A try of [blocking_acquire], the first or after a wake-up, succeeds exactly
    when no live handle is in the way: none on an overlapping path that writes, or
    that reads when the caller wants to write.  It then returns a fresh non-zero
    handle, and releasing that handle gives back the lock table as it was; a
    failed try changes nothing. *)
Theorem acquire_granted_iff_free sys p mode
    (Hreach : reachable sys) (Hrange : counters_in_range (sys_manager sys)) :
  let m := sys_manager sys in
  let '(r, (s, next)) := try_acquire_io_locked (io_state m) (next_handle m) (normalize_path p) mode in
  (is_Some r ↔ ¬ in_the_way m p mode) ∧
  match r with
  | Some h => h ≠ 0%N ∧ io_handles (io_state m) !! h = None ∧
      io_handles s !! h = Some (mkHandleInfo (normalize_path p) mode) ∧
      release_io_locked s h = Some (io_state m)
  | None => s = io_state m ∧ next = next_handle m
  end.
Proof.
  intros m. pose proof (reachable_inv sys Hreach) as Hi. fold m in Hi, Hrange.
  destruct (try_spec m p mode Hi Hrange) as [[Hw ->]|(Hw & -> & Hi')].
  { split; [|done]. split; [by intros []|tauto]. }
  assert (io_handles (io_state m) !! (next_handle m + 1)%N = None) as Hfresh.
  { apply eq_None_not_Some. intros [i Hx]. apply (inv_handle _ _ Hi) in Hx. lia. }
  split; [by split; [|eauto]|]. split_and!; [lia|done|by apply lookup_insert_eq|].
  assert (io_handles (acquired_state (io_state m) (next_handle m + 1) (normalize_path p) mode)
    !! (next_handle m + 1)%N = Some (mkHandleInfo (normalize_path p) mode)) as Hh by apply lookup_insert_eq.
  rewrite (release_known _ _ _ _ Hi' Hh). f_equal.
  eapply io_inv_unique; [by apply (released_inv _ _ _ _ Hi' Hh)|exact Hi|].
  cbn [io_handles acquired_state]. by rewrite delete_insert_id.
Qed.
End system.

(** ** Executions *)

(** A new call that takes its first critical section. *)
Lemma step_call_enter {B} (m : LockManager B) ts i path mode timeout :
  ts !! i = None → counters_in_range m →
  rtc lock_step (mkSystem m ts)
    (mkSystem (acquire_enter path mode timeout 0 m).2
       (<[i := mkThread path mode timeout (acquire_enter path mode timeout 0 m).1]> ts)).
Proof.
  intros Hi Hr. eapply rtc_l; [by apply (step_call m ts i path mode timeout)|]. eapply rtc_once.
  rewrite <-(insert_insert_eq ts i (mkThread path mode timeout (acquire_enter path mode timeout 0 m).1)
    (mkThread path mode timeout Entered)).
  eapply (step_enter _ _ i (mkThread path mode timeout Entered) 0 _ _); [by rewrite lookup_insert_eq|done..|].
  cbn [th_path th_mode th_timeout]. by destruct (acquire_enter path mode timeout 0 m).
Qed.

Definition idle_manager : LockManager LockState := lock_manager_new lock_state_new.

Lemma in_range_of {B} (m : LockManager B) :
  (next_handle m + 1 <? U64_MOD)%N = true →
  (N.of_nat (size (io_handles (io_state m))) + 1 <? U32_MOD)%N = true → counters_in_range m.
Proof. rewrite !N.ltb_lt. done. Qed.

(** Two threads reading a directory and a file in it. *)
Definition read_a : LockManager LockState := (acquire_enter "/a" ModeRead 0 0 idle_manager).2.
Definition read_ab : LockManager LockState := (acquire_enter "/a//b" ModeRead 0 0 read_a).2.
Definition read_system : System LockState :=
  mkSystem read_ab
    (<[2%N := mkThread "/a//b" ModeRead 0 (acquire_enter "/a//b" ModeRead 0 0 read_a).1]>
       (<[1%N := mkThread "/a" ModeRead 0 (acquire_enter "/a" ModeRead 0 0 idle_manager).1]> ∅)).

Lemma read_system_reachable : reachable read_system.
Proof.
  exists lock_state_new. etrans; [apply (step_call_enter idle_manager ∅ 1 "/a" ModeRead 0)|].
  - done.
  - apply in_range_of; vm_compute; reflexivity.
  - apply (step_call_enter read_a); [done|]. apply in_range_of; vm_compute; reflexivity.
Qed.

Lemma io_locks_exclusive_witness : ModeRead = ModeRead ∧ ModeRead = ModeRead.
Proof.
  apply (io_locks_exclusive read_system 1 2 (mkHandleInfo "/a" ModeRead) (mkHandleInfo "/a/b" ModeRead)).
  - apply read_system_reachable.
  - done.
  - vm_compute. reflexivity.
  - vm_compute. reflexivity.
  - right. left. right. split; [done|]. by exists "b".
Defined.

Lemma acquire_granted_iff_free_witness :
  let '(r, (s, next)) := try_acquire_io_locked (io_state read_ab) (next_handle read_ab)
                           (normalize_path "/a/b/") ModeWrite in
  (is_Some r ↔ ¬ in_the_way read_ab "/a/b/" ModeWrite) ∧
  match r with
  | Some h => h ≠ 0%N ∧ io_handles (io_state read_ab) !! h = None ∧
      io_handles s !! h = Some (mkHandleInfo (normalize_path "/a/b/") ModeWrite) ∧
      release_io_locked s h = Some (io_state read_ab)
  | None => s = io_state read_ab ∧ next = next_handle read_ab
  end.
Proof.
  apply (acquire_granted_iff_free read_system "/a/b/" ModeWrite read_system_reachable).
  apply in_range_of; vm_compute; reflexivity.
Defined.

(** A wake-up can be lost: a waiter whose first try failed is not yet asleep when
    the lock is released, so the notification misses it, and it sleeps until its
    timeout although nothing holds the path any more. *)
Definition write_a : LockManager LockState := (acquire_enter "/a" ModeWrite 0 0 idle_manager).2.
Definition refused_a : LockManager LockState := (acquire_enter "/a" ModeWrite 5000 0 write_a).2.
Definition released_a : LockManager LockState := (do_release 1 refused_a).2.

Lemma wakeup_can_be_lost :
  ∃ (sys : System LockState) t, reachable sys ∧ sys_threads sys !! 2%N = Some t ∧ th_pc t = Asleep false ∧
    io_handles (io_state (sys_manager sys)) = ∅ ∧ ¬ in_the_way (sys_manager sys) (th_path t) (th_mode t).
Proof.
  exists (mkSystem (acquire_wait false released_a).2
    (<[2%N := mkThread "/a" ModeWrite 5000 (Asleep false)]>
       (notify <$> <[2%N := mkThread "/a" ModeWrite 5000 Waiting]>
          (<[1%N := mkThread "/a" ModeWrite 0 (Returned 1)]> ∅)))).
  exists (mkThread "/a" ModeWrite 5000 (Asleep false)). split_and!.
  - exists lock_state_new. etrans; [apply (step_call_enter idle_manager ∅ 1 "/a" ModeWrite 0)|].
    { done. } { apply in_range_of; vm_compute; reflexivity. }
    etrans; [apply (step_call_enter write_a _ 2 "/a" ModeWrite 5000)|].
    { done. } { apply in_range_of; vm_compute; reflexivity. }
    eapply rtc_l; [apply (step_release refused_a _ 1 released_a); vm_compute; reflexivity|].
    apply rtc_once. eapply (step_wait _ _ 2%N (mkThread "/a" ModeWrite 5000 Waiting) false); done.
  - vm_compute. reflexivity.
  - done.
  - vm_compute. reflexivity.
  - intros (h & info & Hh & _). revert Hh. cbn [sys_manager].
    replace (io_handles (io_state (acquire_wait false released_a).2)) with (∅ : gmap N HandleInfo)
      by (vm_compute; reflexivity). by rewrite lookup_empty.
Qed.

(** The rename system call takes the write locks of its two paths in byte order,
    which is meant to exclude deadlock.  Byte order does not respect the
    hierarchy: with [/b] moved into [/b-] and [/b-] into [/b] at once, each call
    takes its first lock in order and then waits for the other. *)
Definition rename_b : LockManager LockState := (acquire_enter "/b" ModeWrite 5000 0 idle_manager).2.
Definition rename_both : LockManager LockState := (acquire_enter "/b-" ModeWrite 5000 0 rename_b).2.

Lemma sorted_acquires_deadlock :
  String.leb "/b" "/b-/c" = true ∧ String.leb "/b-" "/b/x" = true ∧
  (acquire_enter "/b" ModeWrite 5000 0 idle_manager).1 = Returned 1 ∧
  (acquire_enter "/b-" ModeWrite 5000 0 rename_b).1 = Returned 2 ∧
  (acquire_enter "/b-/c" ModeWrite 5000 0 rename_both).1 = Waiting ∧
  (acquire_enter "/b/x" ModeWrite 5000 0 rename_both).1 = Waiting.
Proof. vm_compute. split_and!; reflexivity. Qed.
