(* ===== verification/Router.v ===== *)
(** * The mount router of the kernel

    src/rust/kernel/src/core/vfs_router.rs: the table of mounts keyed by
    zone-canonical paths, its write operations, longest-prefix routing with the
    fallback to the root zone and the second walk inside a federated target
    zone, and the path arithmetic between callers, zones and mounts.  Backends
    and metastores are other components: they are parameters, with the two
    methods the router calls ([as_cas], [coherence_key]). *)

From S2P Require Import Prelude Bytes Codec Table.

(** ** Path helpers *)

Definition ROOT_ZONE_ID : string := "root".

(** [s.trim_start_matches(c)] *)
Fixpoint trim_start_matches (c : ascii) (s : string) : string :=
  match s with
  | "" => ""
  | String a s' => if decide (a = c) then trim_start_matches c s' else s
  end.

(** [s.split_once(c)] *)
Fixpoint split_once (c : ascii) (s : string) : option (string * string) :=
  match s with
  | "" => None
  | String a s' =>
      if decide (a = c) then Some ("", s')
      else match split_once c s' with
           | Some (l, r) => Some (String a l, r)
           | None => None
           end
  end.

Definition canonicalize_mount_path (path zone_id : string) : string :=
  let stripped := trim_start_matches "/" path in
  if decide (stripped = "") then "/" +:+ zone_id
  else "/" +:+ zone_id +:+ "/" +:+ stripped.

(** [canonicalize_into], the buffer form used by the routing walk. *)
Definition canonicalize_into (path zone_id : string) : string :=
  let buf := String "/" "" +:+ zone_id in
  let stripped := trim_start_matches "/" path in
  if decide (stripped = "") then buf else (buf +:+ String "/" "") +:+ stripped.

Definition extract_zone_from_canonical (canonical : string) : string * string :=
  let trimmed := trim_start_matches "/" canonical in
  match split_once "/" trimmed with
  | Some (zone, rest) => (zone, "/" +:+ rest)
  | None => (trimmed, "/")
  end.

Definition zone_to_global (mount_point zone_path : string) : string :=
  if decide (mount_point = "") then zone_path
  else
    let user_mp := (extract_zone_from_canonical mount_point).2 in
    if decide (user_mp = "/") then zone_path else user_mp +:+ zone_path.

Definition under_mount (path mount_point : string) : string :=
  if decide (path = mount_point) then ""
  else if decide (mount_point = "/") then trim_start_matches "/" path
  else
    trim_start_matches "/"
      (if (String.length mount_point <=? String.length path)%nat
       then sdrop (String.length mount_point) path else path).

Definition zone_relative_path (path mount_point : string) (target_subtree : option string) : string :=
  let rest := under_mount path mount_point in
  match target_subtree with
  | Some s =>
      let subtree := trim_start_matches "/" s in
      if decide (subtree = "") then rest
      else if decide (rest = "") then subtree
      else subtree +:+ "/" +:+ rest
  | None => rest
  end.

Definition project_zone_key (mount subtree key : string) : option string :=
  relative ←
    (if decide (subtree = "" ∨ subtree = "/") then Some key
     else if decide (key = subtree) then Some "/"
     else
       suffix ← strip_prefix subtree key;
       if starts_with "/" suffix then Some suffix else None);
  Some (if decide (mount = "" ∨ mount = "/") then relative
        else if decide (relative = "/") then mount
        else mount +:+ relative).

(** ** The table *)

Section router.
Context {Backend Metastore : Type}.
Context (as_cas : Backend → bool) (coherence_key : Metastore → option N).

Record MountEntry := mkMountEntry {
  me_backend : option Backend;
  me_metastore : option Metastore;
  me_is_external : bool;
  me_target_zone_id : option string;
  me_target_subtree : option string;
  me_is_cas : bool }.

Definition mount_entry_new (backend : option Backend) : MountEntry :=
  mkMountEntry backend None false None None
    (match backend with Some b => as_cas b | None => false end).

Definition with_target_zone (target_zone_id : string) (e : MountEntry) : MountEntry :=
  mkMountEntry (me_backend e) (me_metastore e) (me_is_external e) (Some target_zone_id)
    (me_target_subtree e) (me_is_cas e).

Definition with_target_subtree (target_subtree : string) (e : MountEntry) : MountEntry :=
  mkMountEntry (me_backend e) (me_metastore e) (me_is_external e) (me_target_zone_id e)
    (if decide (target_subtree = "/" ∨ target_subtree = "") then None else Some target_subtree)
    (me_is_cas e).

Definition with_is_external (is_external : bool) (e : MountEntry) : MountEntry :=
  mkMountEntry (me_backend e) (me_metastore e) is_external (me_target_zone_id e)
    (me_target_subtree e) (me_is_cas e).

Definition with_metastore (ms : option Metastore) (e : MountEntry) : MountEntry :=
  mkMountEntry (me_backend e) ms (me_is_external e) (me_target_zone_id e)
    (me_target_subtree e) (me_is_cas e).

Record RouteResult := mkRouteResult {
  rr_mount_point : string;
  rr_backend_path : string;
  rr_zone_id : string;
  rr_is_external : bool;
  rr_is_cas : bool;
  rr_metastore : option Metastore;
  rr_backend : option Backend;
  rr_target_zone_id : option string }.

Definition resolve_metastore (r : RouteResult) (global_fallback : option Metastore) : option Metastore :=
  match rr_metastore r with Some ms => Some ms | None => global_fallback end.

Definition federation_target_zone (r : RouteResult) : option string :=
  match rr_backend r with Some _ => None | None => rr_target_zone_id r end.

Definition is_federation_peer_mount (r : RouteResult) : bool :=
  match rr_backend r, rr_target_zone_id r with None, Some _ => true | _, _ => false end.

(** [VFSRouter]: its [entries]. *)
Abbreviation VFSRouter := (gmap string MountEntry).

Definition router_add (mount_point zone_id : string) (entry : MountEntry) (t : VFSRouter) : VFSRouter :=
  let canonical := canonicalize_mount_path mount_point zone_id in
  match t !! canonical with
  | Some occ => <[canonical := with_metastore (me_metastore occ) entry]> t
  | None => <[canonical := entry]> t
  end.

Definition add_mount (mount_point zone_id : string) (backend : option Backend) (is_external : bool) :
    VFSRouter → VFSRouter :=
  router_add mount_point zone_id (with_is_external is_external (mount_entry_new backend)).

Definition add_federation_mount (mount_point zone_id : string) (backend : option Backend)
    (target_zone_id target_subtree : string) (is_external : bool) : VFSRouter → VFSRouter :=
  router_add mount_point zone_id
    (with_target_subtree target_subtree
       (with_target_zone target_zone_id (with_is_external is_external (mount_entry_new backend)))).

Definition router_remove (mount_point zone_id : string) (t : VFSRouter) : bool * VFSRouter :=
  let canonical := canonicalize_mount_path mount_point zone_id in
  (bool_decide (is_Some (t !! canonical)), delete canonical t).

Definition install_metastore (canonical_key : string) (metastore : Metastore) (t : VFSRouter) : VFSRouter :=
  match t !! canonical_key with
  | Some occ => <[canonical_key := with_metastore (Some metastore) occ]> t
  | None => <[canonical_key := with_metastore (Some metastore) (mount_entry_new None)]> t
  end.

Definition rebind_entry (new_backend : Backend) (should_rebind : MountEntry → bool) (e : MountEntry) :
    MountEntry :=
  if should_rebind e
  then mkMountEntry (Some new_backend) (me_metastore e) (me_is_external e) (me_target_zone_id e)
         (me_target_subtree e) (as_cas new_backend)
  else e.

Definition rebind_missing_backends (new_backend : Backend) (should_rebind : MountEntry → bool)
    (t : VFSRouter) : nat * VFSRouter :=
  (length (filter (λ kv, should_rebind kv.2 = true) (map_to_list t)),
   rebind_entry new_backend should_rebind <$> t).

(** The federation marker of [Kernel::add_mount]. *)
Definition stranded (e : MountEntry) : bool :=
  match me_backend e, me_metastore e with None, Some _ => true | _, _ => false end.

(** [Kernel::add_mount] of src/rust/kernel/src/kernel/mount.rs. *)
Definition kernel_add_mount (mount_point zone_id : string) (backend : option Backend)
    (metastore : option Metastore) (is_external : bool) (t : VFSRouter) : VFSRouter :=
  let t := add_mount mount_point zone_id backend is_external t in
  let t := match metastore with
           | Some ms => install_metastore (canonicalize_mount_path mount_point zone_id) ms t
           | None => t
           end in
  match backend with
  | Some root_backend =>
      if decide (mount_point = "/" ∧ zone_id = ROOT_ZONE_ID)
      then (rebind_missing_backends root_backend stranded t).2 else t
  | None => t
  end.

(** ** Reads *)

Definition router_get (t : VFSRouter) (mount_point zone_id : string) : option MountEntry :=
  t !! canonicalize_mount_path mount_point zone_id.

Definition router_has (t : VFSRouter) (mount_point zone_id : string) : bool :=
  bool_decide (is_Some (t !! canonicalize_mount_path mount_point zone_id)).

Definition canonical_keys (t : VFSRouter) : list string := (entries t).*1.

Definition project_entry (zone path : string) (kv : string * MountEntry) : option (string * string) :=
  let '(lookup_zone, mount) := extract_zone_from_canonical kv.1 in
  let target := default lookup_zone (me_target_zone_id kv.2) in
  if decide (target ≠ zone) then None
  else
    visible ←
      (match me_target_zone_id kv.2 with
       | Some _ => project_zone_key mount (default "/" (me_target_subtree kv.2)) path
       | None =>
           if bool_decide (mount = "/") || bool_decide (path = mount)
              || (match strip_prefix mount path with
                  | Some tail => starts_with "/" tail
                  | None => false
                  end)
           then Some path else None
       end);
    Some (lookup_zone, visible).

Definition project_zone_path (t : VFSRouter) (zone path : string) : list (string * string) :=
  omap (project_entry zone path) (map_to_list t).

Definition backends (t : VFSRouter) : list Backend := omap (λ kv, me_backend kv.2) (map_to_list t).

(** [Vec::sort] on strings. *)
Definition sort_strings : list string → list string := merge_sort (λ a b, String.le a b).

Definition mount_points (t : VFSRouter) : list string :=
  sort_strings ((λ kv, (extract_zone_from_canonical kv.1).2) <$> map_to_list t).

(** [Vec::dedup]: consecutive equal elements. *)
Fixpoint dedup (l : list string) : list string :=
  match l with
  | a :: ((b :: _) as l') => if decide (a = b) then dedup l' else a :: dedup l'
  | _ => l
  end.

Definition child_mount (parent needle zone_id : string) (kv : string * MountEntry) : option string :=
  let '(mz, mp) := extract_zone_from_canonical kv.1 in
  if bool_decide (mz ≠ zone_id) && bool_decide (mz ≠ ROOT_ZONE_ID) then None
  else if decide (mp = "/") then None
  else if bool_decide (parent = "") || starts_with needle mp then Some mp else None.

Definition child_mounts_under (t : VFSRouter) (parent_path zone_id : string) : list string :=
  let parent := trim_end "/" parent_path in
  let needle := if decide (parent = "") then "/" else parent +:+ "/" in
  dedup (sort_strings (omap (child_mount parent needle zone_id) (map_to_list t))).

Definition mount_points_for_coherence_key (t : VFSRouter) (key : N) : list string :=
  sort_strings
    (omap (λ kv, existing ← me_metastore kv.2;
                 if decide (coherence_key existing = Some key)
                 then Some (extract_zone_from_canonical kv.1).2 else None) (map_to_list t)).

(** ** Routing *)

Definition route_to (canonical current zone_id : string) (entry : MountEntry) : RouteResult :=
  mkRouteResult current (zone_relative_path canonical current (me_target_subtree entry))
    (default zone_id (me_target_zone_id entry)) (me_is_external entry) (me_is_cas entry)
    (me_metastore entry) (me_backend entry) (me_target_zone_id entry).

(** The walk from the path towards the root; every round but the last shortens
    [current], so its length and one more is enough fuel. *)
Fixpoint route_loop (fuel : nat) (t : VFSRouter) (canonical current zone_id : string) :
    option RouteResult :=
  match fuel with
  | O => None
  | S fuel =>
      match t !! current with
      | Some entry => Some (route_to canonical current zone_id entry)
      | None =>
          if decide (current = "/") then None
          else match rsplit_once "/" current with
               | Some ("", _) => route_loop fuel t canonical "/" zone_id
               | Some (l, _) => route_loop fuel t canonical l zone_id
               | None => None
               end
      end
  end.

Definition route_in_zone (t : VFSRouter) (path zone_id : string) : option RouteResult :=
  let canonical := canonicalize_into path zone_id in
  route_loop (S (S (String.length canonical))) t canonical canonical zone_id.

Definition route (t : VFSRouter) (path zone_id : string) : option RouteResult :=
  initial ←
    (match route_in_zone t path zone_id with
     | Some r => Some r
     | None => if decide (zone_id ≠ ROOT_ZONE_ID) then route_in_zone t path ROOT_ZONE_ID else None
     end);
  if decide (rr_zone_id initial ≠ zone_id) then
    match route_in_zone t path (rr_zone_id initial) with
    | Some deeper =>
        if decide (rr_mount_point deeper ≠ rr_mount_point initial) then Some deeper else Some initial
    | None => Some initial
    end
  else Some initial.
End router.
