(* ===== verification/Agents.v ===== *)
(** * The registry of agents

    [AgentRegistry] of src/rust/kernel/src/core/agents/registry.rs and the pid format
    of src/rust/contracts/src/agent_pid.rs: descriptors, the states of an agent and the
    transitions between them, registration, removal, signals, termination callbacks,
    and the handles that stand for one incarnation of a pid.

    A method takes the guard of an entry several times; each time is one [Definition]
    in the monad [R], and the method composes them.  The second part runs the same
    pieces as tasks of threads that interleave. *)

From S2P Require Import Prelude Bytes Codec Router.

(** ** The text of a pid *)

(** [str::parse::<i64>] *)
Definition parse_i64 (s : string) : option Z :=
  match s with
  | String a s' =>
      if decide (a = "-"%char) then
        match s' with
        | "" => None
        | _ => match parse_digits 0 s' with
               | Some n => if (Z.of_N n <=? I64_MAX + 1)%Z then Some (- Z.of_N n)%Z else None
               | None => None
               end
        end
      else match parse_u64 s with
           | Some n => if (Z.of_N n <=? I64_MAX)%Z then Some (Z.of_N n) else None
           | None => None
           end
  | "" => None
  end.

Definition encode_agent_pid (host_pid : Z) (local_id : option N) : string :=
  match local_id with
  | Some l => pretty host_pid +:+ "." +:+ pretty l
  | None => pretty host_pid
  end.

Definition decode_agent_pid (pid : string) : option Z * option N :=
  let '(host, local) := match split_once "." pid with
                        | Some (h, l) => (h, parse_u32 l)
                        | None => (pid, None)
                        end in
  (parse_i64 host, local).

(** ** Data *)

Record ExternalProcessInfo := mkExternal {
  ei_connection_id : string;
  ei_remote_addr : option string;
  ei_protocol : string;
  ei_last_heartbeat_ms : option N }.

Record RepoMount := mkRepo { rm_alias : string; rm_mount_path : string }.

Inductive AgentKind := Worker | Daemon | Unmanaged | Managed.

Inductive AgentState := Registered | WarmingUp | Ready | Busy | AwaitingInput | Terminated.

#[global] Instance AgentKind_eq_dec : EqDecision AgentKind.
Proof. solve_decision. Defined.
#[global] Instance AgentState_eq_dec : EqDecision AgentState.
Proof. solve_decision. Defined.

Definition state_as_str (s : AgentState) : string :=
  match s with
  | Registered => "REGISTERED"
  | WarmingUp => "WARMING_UP"
  | Ready => "READY"
  | Busy => "BUSY"
  | AwaitingInput => "AWAITING_INPUT"
  | Terminated => "TERMINATED"
  end.

Definition state_from_str (s : string) : option AgentState :=
  if decide (s = "REGISTERED" ∨ s = "registered") then Some Registered
  else if decide (s = "WARMING_UP" ∨ s = "warming_up") then Some WarmingUp
  else if decide (s = "READY" ∨ s = "ready") then Some Ready
  else if decide (s = "BUSY" ∨ s = "busy") then Some Busy
  else if decide (s = "AWAITING_INPUT" ∨ s = "awaiting_input") then Some AwaitingInput
  else if decide (s = "TERMINATED" ∨ s = "terminated") then Some Terminated
  else None.

Definition kind_as_str (k : AgentKind) : string :=
  match k with Worker => "WORKER" | Daemon => "DAEMON" | Unmanaged => "UNMANAGED" | Managed => "MANAGED" end.

Definition kind_from_str (s : string) : option AgentKind :=
  if decide (s = "WORKER" ∨ s = "worker") then Some Worker
  else if decide (s = "DAEMON" ∨ s = "daemon") then Some Daemon
  else if decide (s = "UNMANAGED" ∨ s = "unmanaged") then Some Unmanaged
  else if decide (s = "MANAGED" ∨ s = "managed") then Some Managed
  else None.

Definition is_terminal (s : AgentState) : bool := bool_decide (s = Terminated).

Definition can_transition_to (s next : AgentState) : bool :=
  match s, next with
  | Registered, (WarmingUp | Terminated)
  | WarmingUp, (Ready | Terminated)
  | Ready, (Busy | Terminated)
  | Busy, (Ready | AwaitingInput | Terminated)
  | AwaitingInput, (Busy | Ready | Terminated) => true
  | _, _ => false
  end.

Inductive AgentSignal := Sigterm | Sigkill | Sigusr1.

Definition signal_from_str (s : string) : option AgentSignal :=
  if decide (s = "SIGTERM") then Some Sigterm
  else if decide (s = "SIGKILL") then Some Sigkill
  else if decide (s = "SIGUSR1") then Some Sigusr1
  else None.

Inductive AgentError :=
  | AgentNotFound (pid : string)
  | AgentExists (pid : string)
  | InvalidTransition (pid : string) (from to : AgentState)
  | InvalidKind (message : string)
  | PidExhausted
  | Protocol (message : string).

Record AgentDescriptor := mkAgent {
  ad_pid : string;
  ad_name : string;
  ad_kind : AgentKind;
  ad_owner_id : string;
  ad_zone_id : string;
  ad_parent_pid : option string;
  ad_state : AgentState;
  ad_exit_code : option Z;
  ad_generation : N;
  ad_cwd : string;
  ad_root : string;
  ad_children : list string;
  ad_created_at_ms : N;
  ad_updated_at_ms : N;
  ad_last_heartbeat_ms : option N;
  ad_connection_id : option string;
  ad_external_info : option ExternalProcessInfo;
  ad_labels : gmap string string;
  ad_repos : list RepoMount;
  ad_reason : option string }.

Definition set_pid (pid : string) (d : AgentDescriptor) : AgentDescriptor :=
  mkAgent pid (ad_name d) (ad_kind d) (ad_owner_id d) (ad_zone_id d) (ad_parent_pid d) (ad_state d) (ad_exit_code d)
    (ad_generation d) (ad_cwd d) (ad_root d) (ad_children d) (ad_created_at_ms d) (ad_updated_at_ms d)
    (ad_last_heartbeat_ms d) (ad_connection_id d) (ad_external_info d) (ad_labels d) (ad_repos d) (ad_reason d).

Definition set_lifecycle (state : AgentState) (exit_code : option Z) (reason : option string) (updated : N)
    (d : AgentDescriptor) : AgentDescriptor :=
  mkAgent (ad_pid d) (ad_name d) (ad_kind d) (ad_owner_id d) (ad_zone_id d) (ad_parent_pid d) state exit_code
    (ad_generation d) (ad_cwd d) (ad_root d) (ad_children d) (ad_created_at_ms d) updated
    (ad_last_heartbeat_ms d) (ad_connection_id d) (ad_external_info d) (ad_labels d) (ad_repos d) reason.

Definition set_children (children : list string) (updated : N) (d : AgentDescriptor) : AgentDescriptor :=
  mkAgent (ad_pid d) (ad_name d) (ad_kind d) (ad_owner_id d) (ad_zone_id d) (ad_parent_pid d) (ad_state d) (ad_exit_code d)
    (ad_generation d) (ad_cwd d) (ad_root d) children (ad_created_at_ms d) updated
    (ad_last_heartbeat_ms d) (ad_connection_id d) (ad_external_info d) (ad_labels d) (ad_repos d) (ad_reason d).

Definition set_contact (heartbeat : option N) (info : option ExternalProcessInfo) (labels : gmap string string) (updated : N)
    (d : AgentDescriptor) : AgentDescriptor :=
  mkAgent (ad_pid d) (ad_name d) (ad_kind d) (ad_owner_id d) (ad_zone_id d) (ad_parent_pid d) (ad_state d) (ad_exit_code d)
    (ad_generation d) (ad_cwd d) (ad_root d) (ad_children d) (ad_created_at_ms d) updated
    heartbeat (ad_connection_id d) info labels (ad_repos d) (ad_reason d).

(** A pid with the address of its notifier, which no two records share. *)
Record AgentInstance := mkInstance { in_pid : string; in_identity : N }.

Record AgentRecord := mkRecord {
  rec_descriptor : AgentDescriptor;
  rec_identity : N;
  callbacks_running : bool;
  removing : bool;
  managed_host_bound : bool }.

(** Termination callbacks are code of other components, named by numbers here.  The
    log has what is done to the incarnations: the end of one, the callbacks that are
    then to be called, and the calls. *)
Inductive AgentEvent :=
  | Died (i : AgentInstance)
  | Firing (i : AgentInstance) (callbacks : list N)
  | Called (i : AgentInstance) (callback : N).

Record AgentRegistry := mkRegistry {
  agents : gmap string AgentRecord;
  on_terminate : list (string * N);
  next_identity : N;
  agent_log : list AgentEvent }.

Definition registry_new : AgentRegistry := mkRegistry ∅ [] 0 [].

Definition set_agents (m : gmap string AgentRecord) (g : AgentRegistry) : AgentRegistry :=
  mkRegistry m (on_terminate g) (next_identity g) (agent_log g).

Definition set_descriptor (d : AgentDescriptor) (e : AgentRecord) : AgentRecord :=
  mkRecord d (rec_identity e) (callbacks_running e) (removing e) (managed_host_bound e).

Definition set_running (b : bool) (e : AgentRecord) : AgentRecord :=
  mkRecord (rec_descriptor e) (rec_identity e) b (removing e) (managed_host_bound e).

Definition set_removing (e : AgentRecord) : AgentRecord :=
  mkRecord (rec_descriptor e) (rec_identity e) (callbacks_running e) true (managed_host_bound e).

Definition set_bound (e : AgentRecord) : AgentRecord :=
  mkRecord (rec_descriptor e) (rec_identity e) (callbacks_running e) (removing e) true.

Definition record_matches (i : AgentInstance) (e : AgentRecord) : bool := (rec_identity e =? in_identity i)%N.

Definition record_instance (e : AgentRecord) : AgentInstance := mkInstance (ad_pid (rec_descriptor e)) (rec_identity e).

(** [!expected.is_some_and(|instance| !entry.matches(instance))] *)
Definition expects (expected : option AgentInstance) (e : AgentRecord) : bool :=
  match expected with Some i => record_matches i e | None => true end.

(** ** Pieces under a guard *)

Definition R (A : Type) : Type := AgentRegistry → A * AgentRegistry.
#[global] Instance R_ret : MRet R := λ A a g, (a, g).
#[global] Instance R_bind : MBind R := λ A B f m g, let '(a, g) := m g in f a g.

Definition sees {A} (f : AgentRegistry → A) : R A := λ g, (f g, g).

(** [self.agents.get_mut(pid)] *)
Definition get_mut {A} (pid : string) (absent : A) (f : AgentRecord → A * AgentRecord) : R A := λ g,
  match agents g !! pid with
  | None => (absent, g)
  | Some e => let '(a, e) := f e in (a, set_agents (<[pid := e]> (agents g)) g)
  end.

Definition log_event (x : AgentEvent) : R () := λ g,
  ((), mkRegistry (agents g) (on_terminate g) (next_identity g) (agent_log g ++ [x])).

Fixpoint replace_callback (id : string) (callback : N) (l : list (string * N)) : list (string * N) :=
  match l with
  | [] => [(id, callback)]
  | (k, c) :: l => if decide (k = id) then (k, callback) :: l else (k, c) :: replace_callback id callback l
  end.

Definition register_on_terminate (id : string) (callback : N) : R () := λ g,
  ((), mkRegistry (agents g) (replace_callback id callback (on_terminate g)) (next_identity g) (agent_log g)).

Definition register_instance (desc : AgentDescriptor) : R (option AgentInstance) := λ g,
  match agents g !! ad_pid desc with
  | Some _ => (None, g)
  | None =>
      let record := mkRecord desc (next_identity g) false false false in
      (Some (record_instance record),
       mkRegistry (<[ad_pid desc := record]> (agents g)) (on_terminate g) (N.succ (next_identity g)) (agent_log g))
  end.

Definition register (desc : AgentDescriptor) : R bool :=
  x ← register_instance desc; mret (bool_decide (is_Some x)).

(** ** Removal *)

(** The entry is marked, and stays until the rest is done. *)
Definition claim_removal (pid : string) (expected : option AgentInstance) : R (option (AgentInstance * AgentDescriptor)) :=
  get_mut pid None (λ entry,
    if callbacks_running entry || removing entry || negb (expects expected entry) then (None, entry)
    else (Some (record_instance entry, rec_descriptor entry), set_removing entry)).

Definition unlink_parent (now : N) (pid : string) (parent : string) : R () :=
  get_mut parent () (λ e,
    ((), set_descriptor (set_children (filter (λ c, c ≠ pid) (ad_children (rec_descriptor e))) now (rec_descriptor e)) e)).

(** [remove_if] *)
Definition take_record (pid : string) (i : AgentInstance) : R () := λ g,
  match agents g !! pid with
  | Some e => if record_matches i e then ((), set_agents (delete pid (agents g)) g) else ((), g)
  | None => ((), g)
  end.

Definition remove_instance (now : N) (pid : string) (expected : option AgentInstance) (reap : bool) :
    R (option AgentDescriptor) :=
  x ← claim_removal pid expected;
  match x with
  | None => mret None
  | Some (i, desc) =>
      _ ← match reap, ad_parent_pid desc with
          | true, Some ppid => unlink_parent now pid ppid
          | _, _ => mret ()
          end;
      _ ← take_record pid i;
      mret (Some desc)
  end.

Definition unregister (pid : string) : R (option AgentDescriptor) := remove_instance 0 pid None false.

Definition unregister_instance (i : AgentInstance) : R (option AgentDescriptor) :=
  remove_instance 0 (in_pid i) (Some i) false.

Definition reap (now : N) (pid : string) : R bool :=
  x ← remove_instance now pid None true; mret (bool_decide (is_Some x)).

(** ** Changes of state *)

Fixpoint call_all (i : AgentInstance) (callbacks : list N) : R () :=
  match callbacks with
  | [] => mret ()
  | c :: callbacks => _ ← log_event (Called i c); call_all i callbacks
  end.

(** The list is copied before the first call. *)
Definition fire_snapshot (i : AgentInstance) : R (list N) :=
  snapshot ← sees (λ g, (on_terminate g).*2); _ ← log_event (Firing i snapshot); mret snapshot.

Definition fire_on_terminate (i : AgentInstance) : R () :=
  snapshot ← fire_snapshot i; call_all i snapshot.

Definition clear_running (i : AgentInstance) : R () :=
  get_mut (in_pid i) () (λ entry, ((), if record_matches i entry then set_running false entry else entry)).

Definition finish_state_change (i : AgentInstance) (terminated : bool) : R () :=
  if terminated then _ ← fire_on_terminate i; clear_running i else mret ().

(** What a change of state leaves to finish: the incarnation, and whether it ended. *)
Definition Finish := option (AgentInstance * bool).

Definition log_end (x : result AgentError (bool * Finish)) : R (result AgentError (bool * Finish)) :=
  match x with
  | Ok (_, Some (i, true)) => _ ← log_event (Died i); mret x
  | _ => mret x
  end.

Definition set_state (now : N) (pid : string) (expected : option AgentInstance) (new_state : AgentState)
    (reason : option string) : R (result AgentError (bool * Finish)) :=
  x ← get_mut pid (Ok (false, None)) (λ entry,
    let d := rec_descriptor entry in
    if removing entry || negb (expects expected entry) then (Ok (false, None), entry)
    else
      let from := ad_state d in
      let effective_reason := if decide (new_state = AwaitingInput) then reason else None in
      if decide (from = new_state)
      then (Ok (true, None), set_descriptor (set_lifecycle from (ad_exit_code d) effective_reason (ad_updated_at_ms d) d) entry)
      else if negb (can_transition_to from new_state) then (Err (InvalidTransition pid from new_state), entry)
      else
        let terminated := bool_decide (new_state = Terminated ∧ from ≠ Terminated) in
        let entry' := set_descriptor (set_lifecycle new_state (ad_exit_code d) effective_reason now d) entry in
        (Ok (true, Some (record_instance entry, terminated)), if terminated then set_running true entry' else entry'));
  log_end x.

Definition set_exit (now : N) (pid : string) (new_state : AgentState) (exit_code : Z) :
    R (result AgentError (bool * Finish)) :=
  x ← get_mut pid (Ok (false, None)) (λ entry,
    let d := rec_descriptor entry in
    if removing entry then (Ok (false, None), entry)
    else
      let from := ad_state d in
      if bool_decide (from ≠ new_state) && negb (can_transition_to from new_state)
      then (Err (InvalidTransition pid from new_state), entry)
      else
        let terminated := bool_decide (new_state = Terminated ∧ from ≠ Terminated) in
        let entry' := set_descriptor (set_lifecycle new_state (Some exit_code) None now d) entry in
        (Ok (true, Some (record_instance entry, terminated)), if terminated then set_running true entry' else entry'));
  log_end x.

Definition finish (x : result AgentError (bool * Finish)) : R (result AgentError bool) :=
  match x with
  | Err e => mret (Err e)
  | Ok (b, None) => mret (Ok b)
  | Ok (b, Some (i, terminated)) => _ ← finish_state_change i terminated; mret (Ok b)
  end.

Definition update_instance_state_with_reason (now : N) (pid : string) (expected : option AgentInstance)
    (new_state : AgentState) (reason : option string) : R (result AgentError bool) :=
  x ← set_state now pid expected new_state reason; finish x.

Definition update_state_with_reason (now : N) (pid : string) (new_state : AgentState) (reason : option string) :
    R (result AgentError bool) :=
  update_instance_state_with_reason now pid None new_state reason.

Definition update_instance_state (now : N) (i : AgentInstance) (new_state : AgentState) (reason : option string) :
    R (result AgentError bool) :=
  update_instance_state_with_reason now (in_pid i) (Some i) new_state reason.

Definition update_state (now : N) (pid : string) (new_state : AgentState) : R (result AgentError bool) :=
  update_state_with_reason now pid new_state None.

Definition update_state_with_exit (now : N) (pid : string) (new_state : AgentState) (exit_code : Z) :
    R (result AgentError bool) :=
  x ← set_exit now pid new_state exit_code; finish x.

(** ** Signals *)

Definition terminate (now : N) (pid : string) (expected : option AgentInstance) (exit_code : Z) :
    R (option (AgentInstance * bool * AgentDescriptor)) :=
  x ← get_mut pid None (λ entry,
    let d := rec_descriptor entry in
    if removing entry || negb (expects expected entry) then (None, entry)
    else if decide (ad_state d ≠ Terminated) then
      let d := set_lifecycle Terminated (Some exit_code) None now d in
      (Some (record_instance entry, true, d), set_running true (set_descriptor d entry))
    else (Some (record_instance entry, false, d), entry));
  match x with
  | Some (i, true, _) => _ ← log_event (Died i); mret x
  | _ => mret x
  end.

(** Is the record taken away after the end? *)
Definition reaps (force_reap terminated : bool) (updated : AgentDescriptor) : bool :=
  force_reap || (terminated && bool_decide (ad_parent_pid updated = None)).

Definition kill_instance_inner (now now' : N) (pid : string) (expected : option AgentInstance) (exit_code : Z)
    (force_reap : bool) : R (option AgentDescriptor) :=
  x ← terminate now pid expected exit_code;
  match x with
  | None => mret None
  | Some (i, terminated, updated) =>
      _ ← finish_state_change i terminated;
      _ ← (if reaps force_reap terminated updated
           then _ ← remove_instance now' pid (Some i) true; mret () else mret ());
      mret (Some updated)
  end.

Definition merge_labels (now : N) (pid : string) (expected : option AgentInstance) (payload : option (gmap string string)) :
    R (option AgentDescriptor) :=
  get_mut pid None (λ entry,
    let d := rec_descriptor entry in
    if removing entry || negb (expects expected entry) then (None, entry)
    else
      let d := match payload with
               | Some p => set_contact (ad_last_heartbeat_ms d) (ad_external_info d) (p ∪ ad_labels d) now d
               | None => d
               end in
      (Some d, set_descriptor d entry)).

Definition signal_inner (now now' : N) (pid : string) (expected : option AgentInstance) (sig : AgentSignal)
    (payload : option (gmap string string)) : R (option AgentDescriptor) :=
  match sig with
  | Sigterm => kill_instance_inner now now' pid expected 0 false
  | Sigkill => kill_instance_inner now now' pid expected (-9) true
  | Sigusr1 => merge_labels now pid expected payload
  end.

Definition or_agent_not_found {A} (pid : string) (x : option A) : result AgentError A :=
  match x with Some a => Ok a | None => Err (AgentNotFound pid) end.

Definition signal (now now' : N) (pid : string) (sig : AgentSignal) (payload : option (gmap string string)) :
    R (result AgentError AgentDescriptor) :=
  x ← signal_inner now now' pid None sig payload; mret (or_agent_not_found pid x).

Definition signal_instance (now now' : N) (i : AgentInstance) (sig : AgentSignal) (payload : option (gmap string string)) :
    R (option AgentDescriptor) :=
  signal_inner now now' (in_pid i) (Some i) sig payload.

Definition kill (now now' : N) (pid : string) (exit_code : Z) : R (result AgentError AgentDescriptor) :=
  x ← kill_instance_inner now now' pid None exit_code false; mret (or_agent_not_found pid x).

Definition kill_instance (now now' : N) (i : AgentInstance) (exit_code : Z) : R (option AgentDescriptor) :=
  kill_instance_inner now now' (in_pid i) (Some i) exit_code false.

(** The iteration order of the map is not specified; no entry is killed twice. *)
Fixpoint kill_each (now : N) (instances : list AgentInstance) : R () :=
  match instances with
  | [] => mret ()
  | i :: instances => _ ← kill_instance_inner now now (in_pid i) (Some i) 0 true; kill_each now instances
  end.

Definition current_instances (g : AgentRegistry) : list AgentInstance := (λ x, record_instance x.2) <$> map_to_list (agents g).

Definition close_all (now : N) : R () := instances ← sees current_instances; kill_each now instances.

(** ** Spawning *)

(** The first of the pids that is free. *)
Fixpoint register_first (desc : AgentDescriptor) (pids : list string) : R (option string) :=
  match pids with
  | [] => mret None
  | p :: pids => ok ← register (set_pid p desc); if (ok : bool) then mret (Some p) else register_first desc pids
  end.

Definition link_child (now : N) (ppid child : string) : R () :=
  get_mut ppid () (λ parent,
    ((), set_descriptor (set_children (ad_children (rec_descriptor parent) ++ [child]) now (rec_descriptor parent)) parent)).

Definition new_descriptor (now : N) (name owner_id zone_id : string) (kind : AgentKind) (parent_pid : option string)
    (cwd : string) (external_info : option ExternalProcessInfo) (labels : gmap string string) : AgentDescriptor :=
  mkAgent "" name kind owner_id zone_id parent_pid Registered None 1 cwd "/" [] now now None
    (ei_connection_id <$> external_info) external_info labels [] None.

(** Random pids, the first twelve digits of a UUID each, are an argument. *)
Definition spawn (now : N) (name owner_id zone_id : string) (kind : AgentKind) (parent_pid pid : option string)
    (cwd : string) (external_info : option ExternalProcessInfo) (labels : gmap string string) (uuid : nat → string) :
    R (result AgentError AgentDescriptor) :=
  found ← sees (λ g, match parent_pid with Some ppid => bool_decide (is_Some (agents g !! ppid)) | None => true end);
  if negb found then mret (Err (AgentNotFound ("parent not found: " +:+ default "" parent_pid)))
  else
    let desc := new_descriptor now name owner_id zone_id kind parent_pid cwd external_info labels in
    x ← register_first desc (match pid with Some p => [p] | None => uuid <$> seq 0 100 end);
    match x with
    | None => mret (Err (match pid with Some p => AgentExists p | None => PidExhausted end))
    | Some final_pid =>
        _ ← match parent_pid with Some ppid => link_child now ppid final_pid | None => mret () end;
        mret (Ok (set_pid final_pid desc))
    end.

Definition register_external (now : N) (name owner_id zone_id connection_id : string) (host_pid : option Z)
    (local_id : option N) (remote_addr : option string) (protocol : string) (parent_pid : option string)
    (labels : gmap string string) : R (result AgentError AgentDescriptor) :=
  let pid := match host_pid with Some hp => encode_agent_pid hp local_id | None => connection_id end in
  spawn now name owner_id zone_id Unmanaged parent_pid (Some pid) "/"
    (Some (mkExternal connection_id remote_addr protocol (Some now))) labels (λ _, "").

(** ** Reads, heartbeats and hosts *)

Definition get_agent (pid : string) (g : AgentRegistry) : option AgentDescriptor := rec_descriptor <$> agents g !! pid.

Definition name_of (pid : string) (g : AgentRegistry) : option string := (λ r, ad_name (rec_descriptor r)) <$> agents g !! pid.

Definition count (g : AgentRegistry) : nat := size (agents g).

Definition get_instance (pid : string) (g : AgentRegistry) : option (AgentInstance * AgentDescriptor) :=
  record ← agents g !! pid;
  if removing record then None else Some (record_instance record, rec_descriptor record).

Definition is_current_instance (i : AgentInstance) (g : AgentRegistry) : bool :=
  match agents g !! in_pid i with
  | Some record => negb (removing record) && record_matches i record
  | None => false
  end.

Definition get_instance_descriptor (i : AgentInstance) (g : AgentRegistry) : option AgentDescriptor :=
  if is_current_instance i g then get_agent (in_pid i) g else None.

Definition bind_managed_host (i : AgentInstance) : R bool :=
  get_mut (in_pid i) false (λ record,
    let d := rec_descriptor record in
    if removing record || negb (record_matches i record) || bool_decide (ad_kind d ≠ Managed) || is_terminal (ad_state d)
    then (false, record) else (true, set_bound record)).

Definition is_managed_host_bound (i : AgentInstance) (g : AgentRegistry) : bool :=
  match agents g !! in_pid i with
  | Some record =>
      negb (removing record) && record_matches i record && managed_host_bound record &&
      bool_decide (ad_kind (rec_descriptor record) = Managed) && negb (is_terminal (ad_state (rec_descriptor record)))
  | None => false
  end.

Definition heartbeat_inner (now : N) (pid : string) (expected : option AgentInstance) :
    R (result AgentError (option AgentDescriptor)) :=
  get_mut pid (Ok None) (λ entry,
    let d := rec_descriptor entry in
    if removing entry || negb (expects expected entry) then (Ok None, entry)
    else if decide (ad_kind d ≠ Unmanaged)
    then (Err (InvalidKind ("heartbeat only for unmanaged processes: " +:+ pid)), entry)
    else match ad_external_info d with
         | None => (Err (Protocol ("missing external_info: " +:+ pid)), entry)
         | Some info =>
             let d := set_contact (Some now)
                        (Some (mkExternal (ei_connection_id info) (ei_remote_addr info) (ei_protocol info) (Some now)))
                        (ad_labels d) now d in
             (Ok (Some d), set_descriptor d entry)
         end).

Definition heartbeat (now : N) (pid : string) : R (result AgentError bool) :=
  x ← heartbeat_inner now pid None;
  mret (d ← x; match d with Some _ => Ok true | None => Err (AgentNotFound pid) end).

Definition heartbeat_instance (now : N) (i : AgentInstance) : R (result AgentError (option AgentDescriptor)) :=
  heartbeat_inner now (in_pid i) (Some i).

Definition unregister_external_instance (now now' : N) (i : AgentInstance) : R (result AgentError bool) :=
  kind ← sees (λ g, match agents g !! in_pid i with
                    | Some e => if removing e || negb (record_matches i e) then None else Some (ad_kind (rec_descriptor e))
                    | None => None
                    end);
  match kind with
  | None => mret (Ok false)
  | Some Unmanaged =>
      x ← kill_instance_inner now now' (in_pid i) (Some i) 0 true; mret (Ok (bool_decide (is_Some x)))
  | Some _ => mret (Err (InvalidKind ("unregister_external only for unmanaged processes: " +:+ in_pid i)))
  end.

Definition unregister_external (now now' : N) (pid : string) : R (result AgentError ()) :=
  x ← sees (get_instance pid);
  match x with
  | None => mret (Err (AgentNotFound pid))
  | Some (i, _) => r ← unregister_external_instance now now' i; mret (_ ← r; Ok ())
  end.

Definition chosen (zone_id owner_id : option string) (kind : option AgentKind) (state : option AgentState)
    (d : AgentDescriptor) : bool :=
  bool_decide (default (ad_zone_id d) zone_id = ad_zone_id d) && bool_decide (default (ad_owner_id d) owner_id = ad_owner_id d) &&
  bool_decide (default (ad_kind d) kind = ad_kind d) && bool_decide (default (ad_state d) state = ad_state d).

Definition list_agents (zone_id owner_id : option string) (kind : option AgentKind) (state : option AgentState)
    (g : AgentRegistry) : list AgentDescriptor :=
  filter (λ d, chosen zone_id owner_id kind state d = true) ((λ x, rec_descriptor x.2) <$> map_to_list (agents g)).

Definition count_by_state (state : AgentState) (zone_id : option string) (g : AgentRegistry) : nat :=
  length (list_agents zone_id None None (Some state) g).

Definition eviction_priority (d : AgentDescriptor) : Z :=
  default 50%Z (ad_labels d !! "eviction_priority" ≫= parse_i64).

Definition evict_before (a b : AgentDescriptor) : Prop :=
  (eviction_priority a < eviction_priority b)%Z ∨
  (eviction_priority a = eviction_priority b ∧ (ad_updated_at_ms a ≤ ad_updated_at_ms b)%N).

#[global] Instance evict_before_dec a b : Decision (evict_before a b).
Proof. unfold evict_before. apply _. Defined.

Definition list_by_priority (zone_id : option string) (batch_size : nat) (g : AgentRegistry) : list AgentDescriptor :=
  take batch_size (merge_sort evict_before (list_agents zone_id None None (Some Busy) g)).

(** ** Waiting for a state *)

(** One look at the entry: an answer, or nothing yet. *)
Definition wait_check (pid : string) (i : AgentInstance) (target : AgentState) (g : AgentRegistry) :
    option (result string string) :=
  match agents g !! pid with
  | None => Some (Err "not_found")
  | Some e =>
      let state := ad_state (rec_descriptor e) in
      if removing e || negb (record_matches i e) then Some (Err "not_found")
      else if bool_decide (state = target) || is_terminal state then Some (Ok (state_as_str state))
      else None
  end.

(** The registry as the waiter finds it each time it looks, and whether the deadline
    has passed then; [None] while it waits. *)
Fixpoint wait_loop (pid : string) (i : AgentInstance) (target : AgentState) (views : list (AgentRegistry * bool)) :
    option (result string string) :=
  match views with
  | [] => None
  | (g, timed_out) :: views =>
      match wait_check pid i target g with
      | Some x => Some x
      | None => if (timed_out : bool) then Some (Err "timeout") else wait_loop pid i target views
      end
  end.

(** [g] when the incarnation is captured, [g'] at the fast path. *)
Definition wait_for_state (pid : string) (target : AgentState) (g g' : AgentRegistry) (views : list (AgentRegistry * bool)) :
    option (result string string) :=
  match agents g !! pid with
  | None => Some (Err "not_found")
  | Some entry => wait_loop pid (record_instance entry) target ((g', false) :: views)
  end.

(** ** Threads

    A thread is a list of tasks.  A task is one piece under a guard; it may put
    others in front of what the thread still has to do.  Waking the waiters changes
    nothing of the registry. *)

Inductive Task :=
  | TRegister (desc : AgentDescriptor)
  | TSpawn (desc : AgentDescriptor) (pids : list string)
  | TTry (desc : AgentDescriptor) (pids : list string)
  | TLink (ppid child : string)
  | TRemove (pid : string) (expected : option AgentInstance) (reap : bool)
  | TUnlink (pid ppid : string)
  | TTake (pid : string) (i : AgentInstance)
  | TUpdate (pid : string) (expected : option AgentInstance) (new_state : AgentState) (reason : option string)
  | TExit (pid : string) (new_state : AgentState) (exit_code : Z)
  | TKill (pid : string) (expected : option AgentInstance) (exit_code : Z) (force_reap : bool)
  | TFire (i : AgentInstance)
  | TCall (i : AgentInstance) (callback : N)
  | TClear (i : AgentInstance)
  | TMerge (pid : string) (expected : option AgentInstance) (payload : option (gmap string string))
  | THeartbeat (pid : string) (expected : option AgentInstance)
  | TBind (i : AgentInstance)
  | TObserve (id : string) (callback : N)
  | TCloseAll.

Definition finish_tasks (i : AgentInstance) (terminated : bool) : list Task :=
  if terminated then [TFire i; TClear i] else [].

Definition change_tasks (x : result AgentError (bool * Finish)) : list Task :=
  match x with Ok (_, Some (i, terminated)) => finish_tasks i terminated | _ => [] end.

Definition exec (now : N) (t : Task) : R (list Task) :=
  match t with
  | TRegister desc => _ ← register_instance desc; mret []
  | TSpawn desc pids =>
      found ← sees (λ g, match ad_parent_pid desc with Some ppid => bool_decide (is_Some (agents g !! ppid)) | None => true end);
      mret (if (found : bool) then [TTry desc pids] else [])
  | TTry desc pids =>
      match pids with
      | [] => mret []
      | p :: pids =>
          ok ← register (set_pid p desc);
          mret (if (ok : bool) then match ad_parent_pid desc with Some ppid => [TLink ppid p] | None => [] end
                else [TTry desc pids])
      end
  | TLink ppid child => _ ← link_child now ppid child; mret []
  | TRemove pid expected reap =>
      x ← claim_removal pid expected;
      mret (match x with
            | None => []
            | Some (i, desc) =>
                match reap, ad_parent_pid desc with true, Some ppid => [TUnlink pid ppid] | _, _ => [] end ++ [TTake pid i]
            end)
  | TUnlink pid ppid => _ ← unlink_parent now pid ppid; mret []
  | TTake pid i => _ ← take_record pid i; mret []
  | TUpdate pid expected new_state reason => x ← set_state now pid expected new_state reason; mret (change_tasks x)
  | TExit pid new_state exit_code => x ← set_exit now pid new_state exit_code; mret (change_tasks x)
  | TKill pid expected exit_code force_reap =>
      x ← terminate now pid expected exit_code;
      mret (match x with
            | None => []
            | Some (i, terminated, updated) =>
                finish_tasks i terminated ++ if reaps force_reap terminated updated then [TRemove pid (Some i) true] else []
            end)
  | TFire i => callbacks ← fire_snapshot i; mret (TCall i <$> callbacks)
  | TCall i callback => _ ← log_event (Called i callback); mret []
  | TClear i => _ ← clear_running i; mret []
  | TMerge pid expected payload => _ ← merge_labels now pid expected payload; mret []
  | THeartbeat pid expected => _ ← heartbeat_inner now pid expected; mret []
  | TBind i => _ ← bind_managed_host i; mret []
  | TObserve id callback => _ ← register_on_terminate id callback; mret []
  | TCloseAll => instances ← sees current_instances; mret ((λ i, TKill (in_pid i) (Some i) 0 true) <$> instances)
  end.

(** The calls a thread can make, with handles that were given out. *)
Definition handle_ok (g : AgentRegistry) (i : AgentInstance) : Prop := (in_identity i < next_identity g)%N.

Definition known (g : AgentRegistry) (expected : option AgentInstance) : Prop :=
  match expected with Some i => handle_ok g i | None => True end.

Definition entry_task (g : AgentRegistry) (t : Task) : Prop :=
  match t with
  | TRegister _ | TSpawn _ _ | TExit _ _ _ | TObserve _ _ | TCloseAll => True
  | TRemove _ expected _ | TUpdate _ expected _ _ | TKill _ expected _ _ | TMerge _ expected _ | THeartbeat _ expected =>
      known g expected
  | TBind i => handle_ok g i
  | _ => False
  end.

#[global] Instance entry_task_dec g t : Decision (entry_task g t).
Proof. destruct t as [| | | |? []| | |? []| |? []| | | |? []|? []| | |]; cbn; unfold handle_ok; apply _. Defined.

Record AgentSystem := mkAgents { as_registry : AgentRegistry; as_threads : gmap N (list Task) }.

Inductive agent_step : AgentSystem → AgentSystem → Prop :=
  | step_agent_call g ts j t :
      default [] (ts !! j) = [] → entry_task g t → agent_step (mkAgents g ts) (mkAgents g (<[j := [t]]> ts))
  | step_agent_task g ts j t rest now tasks g' :
      ts !! j = Some (t :: rest) → exec now t g = (tasks, g') →
      agent_step (mkAgents g ts) (mkAgents g' (<[j := tasks ++ rest]> ts))
  | step_agent_alloc g ts :
      (** a notifier of another registry *)
      agent_step (mkAgents g ts) (mkAgents (mkRegistry (agents g) (on_terminate g) (N.succ (next_identity g)) (agent_log g)) ts).
