(* ===== verification/AgentProofs.v ===== *)
(** * Properties of the registry of agents

    What holds of every interleaving of the calls: the states of an incarnation follow
    the transitions, a handle of an incarnation that is gone stays without effect, a
    pid is free again only when the callbacks of its last holder are done, and these
    are called once. *)

From S2P Require Import Prelude Bytes Codec Router Agents.

(** ** Growth of the registry *)

Definition lifecycle : AgentState → AgentState → Prop := rtc (λ a b, can_transition_to a b = true).

Lemma lifecycle_step a b : can_transition_to a b = true → lifecycle a b.
Proof. intros H. unfold lifecycle. by apply rtc_once. Qed.

Lemma lifecycle_end a : lifecycle a Terminated.
Proof. destruct a; (apply rtc_refl || (apply lifecycle_step; reflexivity)). Qed.

Lemma lifecycle_terminated b : lifecycle Terminated b → b = Terminated.
Proof. intros H. by apply rtc_inv in H as [<-|(c & Hc & _)]; [|destruct c]. Qed.

(** The same incarnation, later. *)
Record older (e e' : AgentRecord) : Prop := {
  ol_identity : rec_identity e' = rec_identity e;
  ol_state : lifecycle (ad_state (rec_descriptor e)) (ad_state (rec_descriptor e'));
  ol_pid : ad_pid (rec_descriptor e') = ad_pid (rec_descriptor e);
  ol_kind : ad_kind (rec_descriptor e') = ad_kind (rec_descriptor e);
  ol_parent : ad_parent_pid (rec_descriptor e') = ad_parent_pid (rec_descriptor e);
  ol_removing : removing e = true → removing e' = true }.

#[global] Instance older_preorder : PreOrder older.
Proof.
  split.
  - intros e. by split.
  - intros e1 e2 e3 [I1 S1 P1 K1 A1 R1] [I2 S2 P2 K2 A2 R2]. split; try congruence; [by etrans|auto].
Qed.

Definition evolves (g g' : AgentRegistry) : Prop :=
  (next_identity g ≤ next_identity g')%N ∧
  ∀ pid e', agents g' !! pid = Some e' →
    (next_identity g ≤ rec_identity e')%N ∨ ∃ e, agents g !! pid = Some e ∧ older e e'.

#[global] Instance evolves_preorder : PreOrder evolves.
Proof.
  split.
  - intros g. split; [done|]. intros pid e' He. right. by exists e'.
  - intros g1 g2 g3 [N1 E1] [N2 E2]. split; [lia|]. intros pid e3 He3.
    destruct (E2 pid e3 He3) as [?|(e2 & He2 & O2)]; [left; lia|].
    destruct (E1 pid e2 He2) as [?|(e1 & He1 & O1)]; [left; rewrite (ol_identity _ _ O2); lia|].
    right. exists e1. split; [done|]. by etrans.
Qed.

(** A change of one entry in place, at most. *)
Definition mild (g g' : AgentRegistry) : Prop :=
  next_identity g' = next_identity g ∧
  (agents g' = agents g ∨ ∃ pid e e', agents g !! pid = Some e ∧ agents g' = <[pid := e']> (agents g) ∧ older e e').

Lemma mild_evolves g g' : mild g g' → evolves g g'.
Proof.
  intros [Hn H]. split; [lia|]. intros q e0 Hq. right. destruct H as [Ha|(pid & e & e' & He & Ha & Ho)]; rewrite Ha in Hq.
  - by exists e0.
  - apply lookup_insert_Some in Hq as [[<- <-]|[_ ?]]; [by exists e|by exists e0].
Qed.

Lemma get_mut_mild {A} pid (a : A) f g : (∀ e, older e (f e).2) → mild g (get_mut pid a f g).2.
Proof.
  intros Hf. unfold get_mut. destruct (agents g !! pid) as [e|] eqn:He; [|by split; [|left]]. specialize (Hf e).
  destruct (f e) as [x e1]. split; [done|]. right. by exists pid, e, e1.
Qed.

Lemma logged_mild {A C} (m : R A) (h : A → R C) g :
  (∀ a g, agents (h a g).2 = agents g ∧ next_identity (h a g).2 = next_identity g) → mild g (m g).2 → mild g ((m ≫= h) g).2.
Proof.
  intros Hh Hm. unfold mbind, R_bind. destruct (m g) as [a g1]. destruct (Hh a g1) as [H1 H2]. unfold mild. by rewrite H1, H2.
Qed.

(** Entries that an update changes in place. *)
Ltac entry_cases := intros e; cbv beta zeta; repeat case_match; cbn; try done; split; cbn; try done.
Ltac just_logged := unfold log_end, log_event, mbind, R_bind, mret, R_ret; intros; by repeat case_match.

Lemma set_state_mild now pid expected st reason g : mild g (set_state now pid expected st reason g).2.
Proof.
  apply logged_mild; [just_logged|]. apply get_mut_mild. entry_cases; (apply rtc_refl || (apply lifecycle_step; bool_simpl; done)).
Qed.

Lemma set_exit_mild now pid st code g : mild g (set_exit now pid st code g).2.
Proof.
  apply logged_mild; [just_logged|]. apply get_mut_mild. intros e. cbv beta zeta.
  destruct (removing e) eqn:Hr; [done|]. destruct (bool_decide (ad_state _ ≠ st) && _) eqn:Hc; [done|].
  assert (lifecycle (ad_state (rec_descriptor e)) st) as Hl.
  { destruct (decide (ad_state (rec_descriptor e) = st)) as [->|Hne]; [apply rtc_refl|].
    rewrite bool_decide_true in Hc by done. apply lifecycle_step. by apply negb_false_iff. }
  case_match; cbn; split; cbn; try done; congruence.
Qed.

Lemma terminate_mild now pid expected code g : mild g (terminate now pid expected code g).2.
Proof. apply logged_mild; [just_logged|]. apply get_mut_mild. entry_cases. apply lifecycle_end. Qed.

(** The registry after a piece whose answer is only looked at. *)
Lemma bind_ret_snd {A C} (m : R A) (h : A → C) g : ((m ≫= λ a, mret (h a)) g).2 = (m g).2.
Proof. unfold mbind, R_bind. by destruct (m g). Qed.

(** What a task does to the records. *)
Lemma exec_cases now t g :
  mild g (exec now t g).2 ∨ (∃ desc, (exec now t g).2 = (register_instance desc g).2) ∨
  ∃ pid i, t = TTake pid i ∧ (exec now t g).2 = (take_record pid i g).2.
Proof.
  destruct t; cbn [exec]; try (destruct pids as [|p pids]; [left; by split; [|left]|unfold register]); rewrite ?bind_ret_snd;
    try (right; left; by eexists); try (right; right; by eexists _, _);
    left; try apply set_state_mild; try apply set_exit_mild; try apply terminate_mild; try (by split; [|left]);
    apply get_mut_mild; entry_cases.
Qed.

Lemma register_evolves desc g : evolves g (register_instance desc g).2.
Proof.
  unfold register_instance. destruct (agents g !! ad_pid desc); [done|]. split; cbn; [lia|].
  intros q e' [[<- <-]|[_ ?]]%lookup_insert_Some; [by left|right; by exists e'].
Qed.

Lemma take_evolves pid i g : evolves g (take_record pid i g).2.
Proof.
  unfold take_record. destruct (agents g !! pid) as [e|]; [|done]. destruct (record_matches i e); [|done].
  split; [done|]. cbn. intros q e' [_ ?]%lookup_delete_Some. right. by exists e'.
Qed.

Lemma exec_evolves now t g : evolves g (exec now t g).2.
Proof.
  destruct (exec_cases now t g) as [H|[[desc ->]|(pid & i & _ & ->)]]; [by apply mild_evolves|apply register_evolves|apply take_evolves].
Qed.

Lemma same_evolves g g' : agents g' = agents g → (next_identity g ≤ next_identity g')%N → evolves g g'.
Proof. intros Ha Hn. split; [done|]. intros pid e'. rewrite Ha. right. by exists e'. Qed.

(** Any number of steps. *)
Lemma steps_evolve s s' : rtc agent_step s s' → evolves (as_registry s) (as_registry s').
Proof.
  induction 1 as [s|s1 s2 s3 Hs _ IH]; [done|]. etrans; [|exact IH]. destruct Hs as [|g ts j t rest now tasks g' _ E|]; cbn; [done| |].
  - pose proof (exec_evolves now t g) as H. by rewrite E in H.
  - apply same_evolves; cbn; [done|lia].
Qed.

(** ** Well-formed registries *)

Record reg_wf (g : AgentRegistry) : Prop := {
  rw_pid pid e : agents g !! pid = Some e → ad_pid (rec_descriptor e) = pid;
  rw_next pid e : agents g !! pid = Some e → (rec_identity e < next_identity g)%N;
  rw_one pid pid' e e' : agents g !! pid = Some e → agents g !! pid' = Some e' → rec_identity e = rec_identity e' → pid = pid' }.

Lemma same_wf g g' : agents g' = agents g → (next_identity g ≤ next_identity g')%N → reg_wf g → reg_wf g'.
Proof. intros Ha Hn [P I O]. split; rewrite ?Ha; try done. intros pid e He. specialize (I pid e He). lia. Qed.

Lemma mild_wf g g' : mild g g' → reg_wf g → reg_wf g'.
Proof.
  intros [Hn H] Hwf. destruct H as [Ha|(pid & e & e' & He & Ha & [Hi _ Hp _ _ _])]; [eapply same_wf; [done|lia|done]|].
  destruct Hwf as [P I O].
  assert (∀ q e0, agents g' !! q = Some e0 → ∃ e1, agents g !! q = Some e1 ∧ rec_identity e0 = rec_identity e1 ∧
    ad_pid (rec_descriptor e0) = ad_pid (rec_descriptor e1)) as Hold.
  { intros q e0. rewrite Ha. intros [[<- <-]|[_ ?]]%lookup_insert_Some; [by exists e|by exists e0]. }
  split.
  - intros q e0 (e1 & H1 & _ & ->)%Hold. by apply P.
  - intros q e0 (e1 & H1 & -> & _)%Hold. rewrite Hn. by eapply I.
  - intros q q' e0 e2 (e1 & H1 & -> & _)%Hold (e3 & H3 & -> & _)%Hold. by eapply O.
Qed.

Lemma register_wf desc g : reg_wf g → reg_wf (register_instance desc g).2.
Proof.
  intros [P I O]. unfold register_instance. destruct (agents g !! ad_pid desc) eqn:Hd; [done|]. split; cbn.
  - intros q e' [[<- <-]|[_ ?]]%lookup_insert_Some; [done|by apply P].
  - intros q e' [[<- <-]|[_ H]]%lookup_insert_Some; cbn; [lia|]. specialize (I _ _ H). lia.
  - intros q q' e e' [[<- <-]|[_ H]]%lookup_insert_Some [[<- <-]|[_ H']]%lookup_insert_Some; cbn; [done| | |by eapply O].
    + specialize (I _ _ H'). lia.
    + specialize (I _ _ H). lia.
Qed.

Lemma take_wf pid i g : reg_wf g → reg_wf (take_record pid i g).2.
Proof.
  intros [P I O]. unfold take_record. destruct (agents g !! pid) as [e|]; [|done]. destruct (record_matches i e); [|done].
  split; cbn.
  - intros q e' [_ ?]%lookup_delete_Some. by apply P.
  - intros q e' [_ ?]%lookup_delete_Some. by eapply I.
  - intros q q' e0 e' [_ ?]%lookup_delete_Some [_ ?]%lookup_delete_Some. by eapply O.
Qed.

Lemma exec_wf now t g : reg_wf g → reg_wf (exec now t g).2.
Proof.
  intros Hg. destruct (exec_cases now t g) as [H|[[desc ->]|(pid & i & _ & ->)]]; [by eapply mild_wf|by apply register_wf|by apply take_wf].
Qed.

(** ** The end of an incarnation *)

Definition about (n : N) (t : Task) : Prop :=
  match t with TFire i | TCall i _ | TClear i => in_identity i = n | _ => False end.

#[global] Instance about_dec n t : Decision (about n t).
Proof. destruct t; cbn; apply _. Defined.

Definition of_incarnation (n : N) (x : AgentEvent) : Prop :=
  match x with Died i | Firing i _ | Called i _ => in_identity i = n end.

#[global] Instance of_incarnation_dec n x : Decision (of_incarnation n x).
Proof. destruct x; cbn; apply _. Defined.

(** What a thread still owes an incarnation, and what happened to it. *)
Definition todo (ts : gmap N (list Task)) (j : N) : list Task := default [] (ts !! j).
Definition duties (n : N) (l : list Task) : list Task := filter (about n) l.
Definition story (n : N) (g : AgentRegistry) : list AgentEvent := filter (of_incarnation n) (agent_log g).

(** Between the end and the last of the callbacks. *)
Definition ending (i : AgentInstance) (owed : list Task) (past : list AgentEvent) : Prop :=
  (owed = [TFire i; TClear i] ∧ past = [Died i]) ∨
  ∃ called rest, owed = (TCall i <$> rest) ++ [TClear i] ∧ past = Died i :: Firing i (called ++ rest) :: (Called i <$> called).

Inductive phase (g : AgentRegistry) (ts : gmap N (list Task)) (n : N) : Prop :=
  | ph_before :
      story n g = [] → (∀ j, duties n (todo ts j) = []) →
      (∀ pid e, agents g !! pid = Some e → rec_identity e = n → callbacks_running e = false) → phase g ts n
  | ph_during i j e :
      in_identity i = n → agents g !! in_pid i = Some e → rec_identity e = n → callbacks_running e = true → removing e = false →
      ad_state (rec_descriptor e) = Terminated → (∀ j', j' ≠ j → duties n (todo ts j') = []) →
      ending i (duties n (todo ts j)) (story n g) → phase g ts n
  | ph_after i callbacks :
      in_identity i = n → (n < next_identity g)%N → story n g = Died i :: Firing i callbacks :: (Called i <$> callbacks) →
      (∀ j, duties n (todo ts j) = []) →
      (∀ pid e, agents g !! pid = Some e → rec_identity e = n → callbacks_running e = false ∧ ad_state (rec_descriptor e) = Terminated) →
      phase g ts n.

Record agents_inv (s : AgentSystem) : Prop := {
  ai_wf : reg_wf (as_registry s);
  ai_phase n : phase (as_registry s) (as_threads s) n;
  ai_take j pid i : TTake pid i ∈ todo (as_threads s) j →
    (in_identity i < next_identity (as_registry s))%N ∧
    ∀ e, agents (as_registry s) !! pid = Some e → rec_identity e = in_identity i → removing e = true }.

Definition survives (e e' : AgentRecord) : Prop :=
  ad_state (rec_descriptor e') = Terminated → ad_state (rec_descriptor e) = Terminated.

#[global] Instance survives_refl : Reflexive survives.
Proof. intros e. unfold survives. done. Qed.

(** A change that ends no incarnation. *)
Record calm (g g' : AgentRegistry) : Prop := {
  ca_log : agent_log g' = agent_log g;
  ca_next : (next_identity g ≤ next_identity g')%N;
  ca_old pid e' : agents g' !! pid = Some e' →
    (next_identity g ≤ rec_identity e' ∧ callbacks_running e' = false)%N ∨
    ∃ e, agents g !! pid = Some e ∧ older e e' ∧ callbacks_running e' = callbacks_running e ∧ survives e e';
  ca_running pid e : agents g !! pid = Some e → callbacks_running e = true →
    ∃ e', agents g' !! pid = Some e' ∧ older e e' ∧ callbacks_running e' = true ∧ removing e' = removing e }.

Lemma calm_same g g' : agents g' = agents g → agent_log g' = agent_log g → (next_identity g ≤ next_identity g')%N → calm g g'.
Proof.
  intros Ha Hl Hn. split; try done; rewrite Ha.
  - intros pid e' He. right. by exists e'.
  - intros pid e He Hr. by exists e.
Qed.

(** An incarnation that is new has no past. *)
Lemma phase_next g ts n : reg_wf g → phase g ts n → (next_identity g ≤ n)%N → story n g = [] ∧ ∀ j, duties n (todo ts j) = [].
Proof.
  intros Hwf [?? _|i j e Hi He Hid _ _ _ _ _|i cbs Hi Hn _ _ _] Hle; [done| |lia].
  pose proof (rw_next _ Hwf _ _ He). lia.
Qed.

Lemma calm_phase g g' ts ts' n :
  reg_wf g → calm g g' → (∀ j, duties n (todo ts' j) = duties n (todo ts j)) → phase g ts n → phase g' ts' n.
Proof.
  intros Hwf [Hl Hn Hold Hrun] Hd Hph. assert (story n g' = story n g) as Hs by (unfold story; by rewrite Hl).
  pose proof (phase_next g ts n Hwf Hph) as Hnew.
  destruct Hph as [H1 H2 H3|i j e Hi He Hid Hr Hm Ht H2 H4|i cbs Hi Hlt H1 H2 H3].
  - apply ph_before; [by rewrite Hs|intros; by rewrite Hd|]. intros pid e' He' Hid.
    destruct (Hold pid e' He') as [[_ ?]|(e & He & Ho & -> & _)]; [done|]. apply (H3 pid e He). by rewrite <-(ol_identity _ _ Ho).
  - destruct (Hrun _ _ He Hr) as (e' & He' & Ho & Hr' & Hm'). eapply (ph_during _ _ _ i j e'); rewrite ?Hs, ?Hd; try done.
    + by rewrite (ol_identity _ _ Ho).
    + by rewrite Hm'.
    + pose proof (ol_state _ _ Ho) as Hst. rewrite Ht in Hst. by apply lifecycle_terminated.
    + intros j' Hj. rewrite Hd. by apply H2.
  - apply (ph_after _ _ _ i cbs); rewrite ?Hs; [done|lia|done|intros; by rewrite Hd|]. intros pid e' He' Hid.
    destruct (Hold pid e' He') as [[? _]|(e & He & Ho & -> & _)]; [lia|].
    destruct (H3 pid e He) as [Hr Ht]; [by rewrite <-(ol_identity _ _ Ho)|]. split; [done|].
    pose proof (ol_state _ _ Ho) as Hst. rewrite Ht in Hst. by apply lifecycle_terminated.
Qed.

(** A change that ends one. *)
Definition dies (g g' : AgentRegistry) (i : AgentInstance) : Prop :=
  ∃ pid e e', agents g !! pid = Some e ∧ i = record_instance e ∧ removing e = false ∧ ad_state (rec_descriptor e) ≠ Terminated ∧
    older e e' ∧ callbacks_running e' = true ∧ removing e' = false ∧ ad_state (rec_descriptor e') = Terminated ∧
    g' = mkRegistry (<[pid := e']> (agents g)) (on_terminate g) (next_identity g) (agent_log g ++ [Died i]).

Lemma entry_calm g pid e e' :
  agents g !! pid = Some e → older e e' → callbacks_running e' = callbacks_running e → survives e e' →
  (callbacks_running e = true → removing e' = removing e) → calm g (set_agents (<[pid := e']> (agents g)) g).
Proof.
  intros He Ho Hr Hs Hm. split; cbn; try done.
  - intros q e0 [[<- <-]|[_ ?]]%lookup_insert_Some; right; [by exists e|by exists e0].
  - intros q e0 Hq Hrun. destruct (decide (pid = q)) as [<-|Hne].
    + rewrite lookup_insert_eq. simplify_eq. exists e'. split_and!; [done..|by rewrite Hr|auto].
    + rewrite lookup_insert_ne by done. by exists e0.
Qed.

Lemma get_mut_calm {A} pid (a : A) f g :
  (∀ e, older e (f e).2 ∧ callbacks_running (f e).2 = callbacks_running e ∧ survives e (f e).2 ∧ (callbacks_running e = true → removing (f e).2 = removing e)) →
  calm g (get_mut pid a f g).2.
Proof.
  intros Hf. unfold get_mut. destruct (agents g !! pid) as [e|] eqn:He; [|by apply calm_same]. destruct (Hf e) as (Ho & Hr & Hs & Hm).
  destruct (f e) as [x e1]. by apply (entry_calm g pid e e1).
Qed.

(** What is answered of a change of state. *)
Definition end_of (x : result AgentError (bool * Finish)) : option AgentInstance :=
  match x with Ok (_, Some (i, true)) => Some i | _ => None end.

Definition ends (g g' : AgentRegistry) (o : option AgentInstance) : Prop :=
  match o with Some i => dies g g' i | None => calm g g' end.

Lemma set_state_ends now pid expected st reason g :
  let '(x, g') := set_state now pid expected st reason g in ends g g' (end_of x).
Proof.
  unfold set_state, get_mut, mbind, R_bind. destruct (agents g !! pid) as [e|] eqn:He; [|by apply calm_same]. cbv beta zeta.
  destruct (removing e || negb (expects expected e)) eqn:Hg; cbn; [by apply (entry_calm g pid e e)|].
  apply orb_false_iff in Hg as [Hm _].
  destruct (decide (ad_state (rec_descriptor e) = st)) as [Hst|Hst]; cbn; [apply (entry_calm g pid e); try done; by intros ?|].
  destruct (can_transition_to (ad_state (rec_descriptor e)) st) eqn:Hc; cbn; [|by apply (entry_calm g pid e e)].
  pose proof (lifecycle_step _ _ Hc) as Hl. case_bool_decide as Ht; cbn.
  - destruct Ht as [-> _]. eexists pid, e, _. split_and!; [..|reflexivity]; done.
  - apply (entry_calm g pid e); try done. intros E. cbn in E. destruct Ht. by rewrite <-E.
Qed.

Lemma set_exit_ends now pid st code g : let '(x, g') := set_exit now pid st code g in ends g g' (end_of x).
Proof.
  unfold set_exit, get_mut, mbind, R_bind. destruct (agents g !! pid) as [e|] eqn:He; [|by apply calm_same]. cbv beta zeta.
  destruct (removing e) eqn:Hm; cbn; [by apply (entry_calm g pid e e)|].
  destruct (bool_decide (ad_state _ ≠ st) && _) eqn:Hc; cbn; [by apply (entry_calm g pid e e)|].
  assert (lifecycle (ad_state (rec_descriptor e)) st) as Hl.
  { destruct (decide (ad_state (rec_descriptor e) = st)) as [->|Hne]; [apply rtc_refl|].
    rewrite bool_decide_true in Hc by done. apply lifecycle_step. by apply negb_false_iff. }
  clear Hc. case_bool_decide as Ht; cbn.
  - destruct Ht as [-> ?]. eexists pid, e, _. split_and!; [..|reflexivity]; done.
  - apply (entry_calm g pid e); try done. intros E. cbn in E. destruct (decide (ad_state (rec_descriptor e) = Terminated)); [done|].
    by destruct Ht.
Qed.

Lemma terminate_ends now pid expected code g :
  let '(x, g') := terminate now pid expected code g in
  ends g g' (match x with Some (i, true, _) => Some i | _ => None end).
Proof.
  unfold terminate, get_mut, mbind, R_bind. destruct (agents g !! pid) as [e|] eqn:He; [|by apply calm_same]. cbv beta zeta.
  destruct (removing e || negb (expects expected e)) eqn:Hg; cbn; [by apply (entry_calm g pid e e)|].
  apply orb_false_iff in Hg as [Hm _]. case_decide as Ht; cbn; [|by apply (entry_calm g pid e e)].
  eexists pid, e, _. split_and!; [..|reflexivity]; try done. split; try done. apply lifecycle_end.
Qed.

Lemma todo_insert ts j l j' : todo (<[j := l]> ts) j' = if decide (j' = j) then l else todo ts j'.
Proof. unfold todo. case_decide as E; [subst; by rewrite lookup_insert_eq|by rewrite lookup_insert_ne]. Qed.

Lemma duties_app n l l' : duties n (l ++ l') = duties n l ++ duties n l'.
Proof. apply filter_app. Qed.

Lemma story_app n g g' x : agent_log g' = agent_log g ++ [x] → story n g' = story n g ++ filter (of_incarnation n) [x].
Proof. intros E. unfold story. by rewrite E, filter_app. Qed.

(** Who has no duty for [n] and gets none. *)
Lemma same_duties n ts j t rest tasks :
  ts !! j = Some (t :: rest) → ¬ about n t → duties n tasks = [] → ∀ j', duties n (todo (<[j := tasks ++ rest]> ts) j') = duties n (todo ts j').
Proof.
  intros Hj Ht Htasks j'. rewrite todo_insert. case_decide as E; [subst|done].
  unfold todo. rewrite Hj. cbn [default from_option id]. rewrite duties_app, Htasks. unfold duties. by rewrite filter_cons_False.
Qed.

(** Other incarnations do not notice. *)
Lemma elsewhere_phase g g' ts ts' n pid e e' x :
  agents g !! pid = Some e → rec_identity e ≠ n → rec_identity e' = rec_identity e → agents g' = <[pid := e']> (agents g) →
  next_identity g' = next_identity g → agent_log g' = agent_log g ++ x → filter (of_incarnation n) x = [] →
  (∀ j, duties n (todo ts' j) = duties n (todo ts j)) → phase g ts n → phase g' ts' n.
Proof.
  intros He Hid Hid' Ha Hn Hlog Hx Hd Hph. assert (story n g' = story n g) as Hs.
  { unfold story. by rewrite Hlog, filter_app, Hx, app_nil_r. }
  assert (∀ q e0, agents g' !! q = Some e0 → rec_identity e0 = n → agents g !! q = Some e0) as Hold.
  { intros q e0. rewrite Ha. intros [[<- <-]|[_ ?]]%lookup_insert_Some ?; [congruence|done]. }
  destruct Hph as [H1 H2 H3|i j e0 Hi He0 Hi0 Hr Hm Ht H2 H4|i cbs Hi Hlt H1 H2 H3].
  - apply ph_before; [by rewrite Hs|intros; by rewrite Hd|eauto].
  - eapply (ph_during _ _ _ i j e0); rewrite ?Hs, ?Hd; try done; [|intros; rewrite Hd; auto].
    rewrite Ha, lookup_insert_ne; [done|]. intros ->. congruence.
  - apply (ph_after _ _ _ i cbs); rewrite ?Hs, ?Hn; [done..|intros; by rewrite Hd|eauto].
Qed.

Lemma dies_phase g g' i ts j t rest more n :
  reg_wf g → dies g g' i → ts !! j = Some (t :: rest) → (∀ n, ¬ about n t) → (∀ n, duties n more = []) →
  (∀ n, phase g ts n) → phase g' (<[j := ([TFire i; TClear i] ++ more) ++ rest]> ts) n.
Proof.
  intros Hwf (pid & e & e' & He & -> & Hm & Ht & Ho & Hr' & Hm' & Ht' & ->) Hj Habout Hmore Hph.
  assert (∀ j', duties n (todo (<[j := ([TFire (record_instance e); TClear (record_instance e)] ++ more) ++ rest]> ts) j') =
    (if decide (j' = j ∧ rec_identity e = n) then [TFire (record_instance e); TClear (record_instance e)] else []) ++ duties n (todo ts j')) as Hd.
  { intros j'. rewrite todo_insert. destruct (decide (j' = j)) as [->|Hne]; [|by rewrite decide_False by naive_solver].
    unfold todo. rewrite Hj. cbn [default from_option id]. rewrite !duties_app, Hmore, app_nil_r.
    assert (duties n (t :: rest) = duties n rest) as -> by (apply filter_cons_False, Habout). f_equal.
    unfold duties. destruct (decide (rec_identity e = n)) as [Hn|Hn].
    - rewrite decide_True by done. by rewrite !filter_cons_True.
    - rewrite decide_False by naive_solver. by rewrite !filter_cons_False. }
  destruct (decide (rec_identity e = n)) as [Hn|Hn].
  - assert (story n g = [] ∧ ∀ j, duties n (todo ts j) = []) as [Hs Hno].
    { destruct (Hph n) as [??|i j0 e0 Hi He0 Hi0 _ _ Ht0 _ _|i cbs _ _ _ _ H3]; [done| |].
      - assert (in_pid i = pid) as Ep by (eapply (rw_one _ Hwf); [done..|congruence]). rewrite Ep in He0. by simplify_eq.
      - by destruct (H3 _ _ He Hn). }
    match goal with |- phase ?h _ _ => assert (story n h = [Died (record_instance e)]) as Hs' end.
    { erewrite story_app by reflexivity. rewrite Hs. by rewrite filter_cons_True. }
    eapply (ph_during _ _ _ (record_instance e) j e'); try done.
    + cbn. rewrite (rw_pid _ Hwf _ _ He). apply lookup_insert_eq.
    + by rewrite (ol_identity _ _ Ho).
    + intros j' Hne. rewrite Hd, Hno, decide_False by naive_solver. done.
    + left. by rewrite Hd, Hno, decide_True by done.
  - eapply (elsewhere_phase g _ ts _ n pid e e' [Died (record_instance e)]); try done.
    + apply (ol_identity _ _ Ho).
    + by rewrite filter_cons_False.
    + intros j'. by rewrite Hd, decide_False by naive_solver.
Qed.

(** A thread with a duty for [n] is the one that ends it. *)
Lemma owed_phase g ts j t rest n :
  ts !! j = Some (t :: rest) → about n t → phase g ts n →
  ∃ i e, in_identity i = n ∧ agents g !! in_pid i = Some e ∧ rec_identity e = n ∧ callbacks_running e = true ∧ removing e = false ∧
    ad_state (rec_descriptor e) = Terminated ∧ (∀ j', j' ≠ j → duties n (todo ts j') = []) ∧ ending i (t :: duties n rest) (story n g).
Proof.
  intros Hj Ht Hph. assert (duties n (todo ts j) = t :: duties n rest) as Hd.
  { unfold todo. rewrite Hj. by apply filter_cons_True. }
  destruct Hph as [_ H2 _|i j0 e Hi He Hid Hr Hm Hst H2 H4|i cbs _ _ _ H2 _]; [by rewrite H2 in Hd| |by rewrite H2 in Hd].
  destruct (decide (j = j0)) as [<-|Hne]; [|by rewrite H2 in Hd]. exists i, e. rewrite Hd in H4. by split_and!.
Qed.

(** Only the log grows. *)
Lemma log_phase g g' ts ts' n x :
  agents g' = agents g → next_identity g' = next_identity g → agent_log g' = agent_log g ++ x → filter (of_incarnation n) x = [] →
  (∀ j, duties n (todo ts' j) = duties n (todo ts j)) → phase g ts n → phase g' ts' n.
Proof.
  intros Ha Hn Hlog Hx Hd Hph. assert (story n g' = story n g) as Hs by (unfold story; by rewrite Hlog, filter_app, Hx, app_nil_r).
  destruct Hph as [H1 H2 H3|i j e0 Hi He0 Hi0 Hr Hm Ht H2 H4|i cbs Hi Hlt H1 H2 H3].
  - apply ph_before; rewrite ?Hs, ?Ha; [done|intros; by rewrite Hd|done].
  - eapply (ph_during _ _ _ i j e0); rewrite ?Hs, ?Hd, ?Ha; try done. intros; rewrite Hd; auto.
  - apply (ph_after _ _ _ i cbs); rewrite ?Hs, ?Hn, ?Ha; [done..|intros; by rewrite Hd|done].
Qed.

Lemma duties_calls i l : duties (in_identity i) (TCall i <$> l) = TCall i <$> l.
Proof. apply filter_all. apply Forall_fmap, Forall_forall. done. Qed.

Lemma duties_other_calls n i l : in_identity i ≠ n → duties n (TCall i <$> l) = [].
Proof. intros Hn. apply (filter_nothing _ (λ t, ∃ c, t = TCall i c)); [apply Forall_fmap, Forall_forall; by eexists|]. by intros ? [c ->]. Qed.

Lemma fire_phase g ts j i rest n :
  ts !! j = Some (TFire i :: rest) → (∀ n, phase g ts n) →
  phase (log_event (Firing i (on_terminate g).*2) g).2 (<[j := (TCall i <$> (on_terminate g).*2) ++ rest]> ts) n.
Proof.
  intros Hj Hph. destruct (decide (in_identity i = n)) as [Hn|Hn].
  - destruct (owed_phase g ts j (TFire i) rest n Hj Hn (Hph n)) as (i0 & e & Hi & He & Hid & Hr & Hm & Hst & H2 & [[Ho Hs]|(c & r & Ho & _)]);
      [|by destruct r]. injection Ho as -> Ho. match goal with |- phase ?h _ _ => assert (story n h = [Died i0; Firing i0 (on_terminate g).*2]) as Hs' end.
    { erewrite story_app by reflexivity. rewrite Hs. by rewrite filter_cons_True. }
    eapply (ph_during _ _ _ i0 j e); try done.
    + intros j' Hne. rewrite todo_insert, decide_False by done. by apply H2.
    + right. exists [], ((on_terminate g).*2). rewrite Hs', todo_insert, decide_True by done. split; [|done].
      rewrite duties_app, Ho. rewrite <-Hi at 1. by rewrite duties_calls.
  - eapply (log_phase g _ ts _ n [Firing i _]); try done; [by rewrite filter_cons_False|].
    eapply same_duties; [done|done|]. by apply duties_other_calls.
Qed.

Lemma call_phase g ts j i c rest n :
  ts !! j = Some (TCall i c :: rest) → (∀ n, phase g ts n) →
  phase (log_event (Called i c) g).2 (<[j := [] ++ rest]> ts) n.
Proof.
  intros Hj Hph. destruct (decide (in_identity i = n)) as [Hn|Hn].
  - destruct (owed_phase g ts j (TCall i c) rest n Hj Hn (Hph n)) as (i0 & e & Hi & He & Hid & Hr & Hm & Hst & H2 & [[Ho _]|(called & r & Ho & Hs)]);
      [done|]. destruct r as [|c0 r]; [done|]. injection Ho as -> -> Ho.
    match goal with |- phase ?h _ _ => assert (story n h = Died i0 :: Firing i0 ((called ++ [c0]) ++ r) :: (Called i0 <$> called ++ [c0])) as Hs' end.
    { erewrite story_app by reflexivity. rewrite Hs, filter_cons_True by done. by rewrite fmap_app, <-app_assoc. }
    eapply (ph_during _ _ _ i0 j e); try done.
    + intros j' Hne. rewrite todo_insert, decide_False by done. by apply H2.
    + right. exists (called ++ [c0]), r. by rewrite Hs', todo_insert, decide_True by done.
  - eapply (log_phase g _ ts _ n [Called i c]); try done; [by rewrite filter_cons_False|]. by eapply (same_duties _ _ _ _ _ []).
Qed.

Lemma clear_phase g ts j i rest n :
  reg_wf g → ts !! j = Some (TClear i :: rest) → (∀ n, phase g ts n) →
  phase (clear_running i g).2 (<[j := [] ++ rest]> ts) n.
Proof.
  intros Hwf Hj Hph.
  destruct (owed_phase g ts j (TClear i) rest (in_identity i) Hj eq_refl (Hph _))
    as (i0 & e & Hi & He & Hid & Hr & Hm & Hst & H2 & [[Ho _]|(called & r & Ho & Hs)]); [done|].
  destruct r as [|c0 r]; [|done]. injection Ho as -> Ho. rewrite app_nil_r in Hs.
  unfold clear_running, get_mut. rewrite He. unfold record_matches. rewrite Hid, N.eqb_refl. cbn [fst snd].
  destruct (decide (in_identity i0 = n)) as [Hn|Hn].
  - subst n. apply (ph_after _ _ _ i0 called); try done.
    + cbn. rewrite <-Hid. by eapply (rw_next _ Hwf).
    + intros j'. rewrite todo_insert. case_decide; [done|]. by apply H2.
    + cbn. intros q e0 [[<- <-]|[Hne He0]]%lookup_insert_Some Hid0; [done|]. exfalso. apply Hne. eapply (rw_one _ Hwf); [done..|congruence].
  - eapply (elsewhere_phase g _ ts _ n (in_pid i0) e (set_running false e) []); try done; [congruence|by symmetry; apply app_nil_r|]. by eapply (same_duties _ _ _ _ _ []).
Qed.

(** ** Every other task *)

Lemma register_calm desc g : calm g (register_instance desc g).2.
Proof.
  unfold register_instance. destruct (agents g !! ad_pid desc) eqn:Hd; [by apply calm_same|]. split; cbn; [done|lia|..].
  - intros q e' [[<- <-]|[_ ?]]%lookup_insert_Some; [by left|right; by exists e'].
  - intros q e He Hr. exists e. split_and!; try done. rewrite lookup_insert_ne; [done|]. intros <-. congruence.
Qed.

Lemma take_calm pid i g :
  (∀ e, agents g !! pid = Some e → rec_identity e = in_identity i → callbacks_running e = false) → calm g (take_record pid i g).2.
Proof.
  intros Hrun. unfold take_record. destruct (agents g !! pid) as [e|] eqn:He; [|by apply calm_same].
  unfold record_matches. destruct (N.eqb_spec (rec_identity e) (in_identity i)) as [Hid|_]; [|by apply calm_same].
  specialize (Hrun e eq_refl Hid). split; cbn; try done.
  - intros q e' [_ ?]%lookup_delete_Some. right. by exists e'.
  - intros q e0 He0 Hr. exists e0. split_and!; try done. rewrite lookup_delete_ne; [done|]. intros <-. congruence.
Qed.

(** A task that is nobody's duty ends an incarnation and puts its callbacks first, or ends none. *)
Definition fair (g : AgentRegistry) (x : list Task * AgentRegistry) : Prop :=
  (calm g x.2 ∧ ∀ n, duties n x.1 = []) ∨
  ∃ i more, dies g x.2 i ∧ x.1 = [TFire i; TClear i] ++ more ∧ ∀ n, duties n more = [].

Lemma fair_calm {A} (m : R A) (h : A → list Task) g :
  calm g (m g).2 → (∀ a n, duties n (h a) = []) → fair g ((m ≫= λ a, mret (h a)) g).
Proof. intros Hm Hh. left. rewrite bind_ret_snd. split; [done|]. unfold mbind, R_bind. destruct (m g). apply Hh. Qed.

Lemma fair_change (m : R (result AgentError (bool * Finish))) g :
  (let '(x, g') := m g in ends g g' (end_of x)) → fair g ((m ≫= λ a, mret (change_tasks a)) g).
Proof.
  unfold fair, mbind, R_bind, mret, R_ret. destruct (m g) as [x g']. cbn [fst snd].
  destruct x as [[b [[i []]|]]|]; cbn; intros H; try (left; by split). right. by exists i, [].
Qed.

Lemma fair_kill now pid expected code force g : fair g (exec now (TKill pid expected code force) g).
Proof.
  pose proof (terminate_ends now pid expected code g) as H. unfold fair. cbn [exec]. unfold mbind, R_bind, mret, R_ret.
  destruct (terminate now pid expected code g) as [x g']. cbn [fst snd].
  destruct x as [[[i []] d]|]; cbn in H |- *; [right; exists i|left..]; [eexists|split..]; split_and?; try done; by case_match.
Qed.

Ltac calm_entry := apply get_mut_calm; intros e; cbv beta zeta; repeat case_match; cbn; split_and?; try done; try (split; done); try by intros ?.

Lemma exec_fair now t g :
  (∀ n, ¬ about n t) →
  (∀ pid i e, t = TTake pid i → agents g !! pid = Some e → rec_identity e = in_identity i → callbacks_running e = false) →
  fair g (exec now t g).
Proof.
  intros Hab Htake. destruct t; try (by destruct (Hab (in_identity i))); try apply fair_kill; cbn [exec].
  - apply fair_calm; [apply register_calm|done].
  - apply fair_calm; [by apply calm_same|by intros []].
  - destruct pids as [|p pids]; [left; by split; [apply calm_same|]|].
    apply fair_calm; [unfold register; rewrite bind_ret_snd; apply register_calm|]. intros [] n; [|done]. by case_match.
  - apply fair_calm; [|done]. calm_entry.
  - apply fair_calm; [|intros [[i d]|] n; [|done]; by repeat case_match]. apply get_mut_calm. intros e.
    destruct (callbacks_running e) eqn:Hr, (removing e) eqn:Hm; cbn; [done..|]. destruct (expects expected e); cbn; split_and!; try done; by intros ?.
  - apply fair_calm; [|done]. calm_entry.
  - apply fair_calm; [|done]. apply take_calm. eauto.
  - apply fair_change, set_state_ends.
  - apply fair_change, set_exit_ends.
  - apply fair_calm; [|done]. calm_entry.
  - apply fair_calm; [|done]. calm_entry.
  - apply fair_calm; [|done]. calm_entry.
  - apply fair_calm; [by apply calm_same|done].
  - apply fair_calm; [by apply calm_same|]. intros l n. induction l as [|i l IH]; [done|]. apply IH.
Qed.

(** ** The invariant *)

Lemma running_not_removing g ts pid e :
  reg_wf g → (∀ n, phase g ts n) → agents g !! pid = Some e → removing e = true → callbacks_running e = false.
Proof.
  intros Hwf Hph He Hm. destruct (Hph (rec_identity e)) as [_ _ H3|i j e0 Hi He0 Hi0 _ Hm0 _ _ _|i cbs _ _ _ _ H3];
    [by eapply H3| |by eapply H3].
  assert (in_pid i = pid) as Ep by (by eapply (rw_one _ Hwf)). rewrite Ep in He0. simplify_eq. congruence.
Qed.

Lemma inv_fair s now j t rest :
  agents_inv s → as_threads s !! j = Some (t :: rest) → (∀ n, ¬ about n t) → fair (as_registry s) (exec now t (as_registry s)).
Proof.
  intros [Hwf Hph Htake] Hj Hno. apply exec_fair; [done|]. intros pid i e -> He Hid. eapply running_not_removing; [done..|].
  eapply (Htake j pid i); [|done..]. unfold todo. rewrite Hj. by left.
Qed.

Lemma step_phase s s' n : agents_inv s → agent_step s s' → phase (as_registry s') (as_threads s') n.
Proof.
  intros Hinv Hs. pose proof Hinv as [Hwf Hph _].
  destruct Hs as [g ts j t Hj Ht|g ts j t rest now tasks g' Hj E|g ts]; cbn [as_registry as_threads] in *.
  - apply (calm_phase g g ts); [done|by apply calm_same| |done]. intros j'. rewrite todo_insert. case_decide as Ej; [|done]. subst j'.
    unfold todo at 1. rewrite Hj. by destruct t.
  - assert ((∀ n, ¬ about n t) → phase g' (<[j := tasks ++ rest]> ts) n) as Hfair.
    { intros Hno. pose proof (inv_fair _ now j t rest Hinv Hj Hno) as [[Hc Hd]|(i & more & Hdie & Etasks & Hd)];
        cbn [as_registry] in *; rewrite E in *; cbn [fst snd] in *.
      - eapply calm_phase; [done|exact Hc| |done]. eapply same_duties; [done|apply Hno|apply Hd].
      - rewrite Etasks. by eapply dies_phase. }
    destruct t; try (apply Hfair; by intros ? []); cbn [exec] in E.
    + injection E as <- <-. by apply fire_phase.
    + injection E as <- <-. by eapply call_phase.
    + pose proof (clear_phase g ts j i rest n Hwf Hj Hph) as H. unfold mbind, R_bind in E. destruct (clear_running i g). by injection E as <- <-.
  - apply (calm_phase g _ ts); [done| |done..]. apply calm_same; cbn; [done..|lia].
Qed.

Lemma exec_take now t g tasks g' pid i :
  exec now t g = (tasks, g') → TTake pid i ∈ tasks →
  ∃ e, agents g !! pid = Some e ∧ rec_identity e = in_identity i ∧ agents g' !! pid = Some (set_removing e).
Proof.
  destruct t; cbn [exec]; unfold mbind, R_bind, mret, R_ret.
  5: { unfold claim_removal, get_mut. destruct (agents g !! pid0) as [e|] eqn:He; [|by intros [= <- _] []%elem_of_nil].
       destruct (callbacks_running e || removing e || negb (expects expected e)); cbn; [by intros [= <- _] []%elem_of_nil|].
       intros [= <- <-] [H|[= -> ->]%list_elem_of_singleton]%elem_of_app; [exfalso; repeat case_match; set_solver|].
       exists e. cbn. by rewrite lookup_insert_eq. }
  all: unfold change_tasks, finish_tasks; repeat case_match; intros; simplify_eq; set_solver.
Qed.

Lemma agents_step_inv s s' : agents_inv s → agent_step s s' → agents_inv s'.
Proof.
  intros Hinv Hs. assert (evolves (as_registry s) (as_registry s')) as [Hn Hev] by (apply (steps_evolve s s'), rtc_once, Hs).
  pose proof (λ n, step_phase s s' n Hinv Hs) as Hph. destruct Hinv as [Hwf _ Htake].
  assert (∀ j pid i, TTake pid i ∈ todo (as_threads s) j → (in_identity i < next_identity (as_registry s'))%N ∧
    ∀ e, agents (as_registry s') !! pid = Some e → rec_identity e = in_identity i → removing e = true) as Hold.
  { intros j pid i Hin. destruct (Htake j pid i Hin) as [Hlt Hm]. split; [lia|]. intros e' He' Hid.
    destruct (Hev pid e' He') as [?|(e & He & Ho)]; [lia|]. apply (ol_removing _ _ Ho), (Hm e He). by rewrite <-(ol_identity _ _ Ho). }
  destruct Hs as [g ts j t Hj Ht|g ts j t rest now tasks g' Hj E|g ts]; cbn [as_registry as_threads] in *; (split; [..|done|]).
  - done.
  - intros j' pid i. cbn [as_threads]. rewrite todo_insert. case_decide; [|eauto]. intros <-%list_elem_of_singleton. by destruct Ht.
  - pose proof (exec_wf now t g Hwf) as H. by rewrite E in H.
  - intros j' pid i. cbn [as_threads]. rewrite todo_insert. case_decide as Ej; [|eauto]. intros [H|H]%elem_of_app.
    + destruct (exec_take now t g tasks g' pid i E H) as (e & He & Hid & He'). split.
      * rewrite <-Hid. cbn [as_registry]. pose proof (rw_next _ Hwf _ _ He). lia.
      * cbn [as_registry]. intros e0. rewrite He'. by intros [= <-].
    + apply (Hold j). unfold todo. rewrite Hj. by right.
  - eapply same_wf; [..|done]; cbn; [done|lia].
  - done.
Qed.

Lemma agents_reachable s : rtc agent_step (mkAgents registry_new ∅) s → agents_inv s.
Proof.
  intros Hs. cut (agents_inv (mkAgents registry_new ∅)).
  { induction Hs as [|s1 s2 s3 H1 _ IH]; [done|]. intros Hinv. by eapply IH, agents_step_inv. }
  split; [by split|intros n; by apply ph_before|]. intros j pid i H. by apply not_elem_of_nil in H.
Qed.

(** ** Who ends, and when *)

(** One step adds to the log the ends of entries that are there, and only these end. *)
Definition ends_logged (g g' : AgentRegistry) : Prop :=
  (∃ x, agent_log g' = agent_log g ++ x ∧ ∀ i, Died i ∈ x → ∃ q e, agents g !! q = Some e ∧ i = record_instance e) ∧
  ∀ q e', agents g' !! q = Some e' → ad_state (rec_descriptor e') = Terminated →
    (next_identity g ≤ rec_identity e')%N ∨ Died (record_instance e') ∈ agent_log g' ∨
    ∃ e, agents g !! q = Some e ∧ rec_identity e = rec_identity e' ∧ ad_state (rec_descriptor e) = Terminated.

Lemma calm_logged g g' : calm g g' → ends_logged g g'.
Proof.
  intros [Hl _ Hold _]. split.
  - exists []. rewrite Hl, app_nil_r. split; [done|]. intros i H. by apply not_elem_of_nil in H.
  - intros q e' He' Ht. destruct (Hold q e' He') as [[? _]|(e & He & Ho & _ & Hs)]; [by left|]. right; right.
    exists e. split_and!; [done|by rewrite (ol_identity _ _ Ho)|auto].
Qed.

Lemma dies_logged g g' i : dies g g' i → ends_logged g g'.
Proof.
  intros (pid & e & e' & He & -> & _ & _ & Ho & _ & _ & Ht & ->). split; cbn.
  - eexists. split; [done|]. intros i [= ->]%list_elem_of_singleton. by exists pid, e.
  - intros q e0 [[<- <-]|[_ Hq]]%lookup_insert_Some Ht0; right; [left|right; by exists e0].
    apply elem_of_app. right. apply list_elem_of_singleton. unfold record_instance. by rewrite (ol_pid _ _ Ho), (ol_identity _ _ Ho).
Qed.

Lemma logged_logged g x : (∀ i, x ≠ Died i) → ends_logged g (log_event x g).2.
Proof.
  intros Hx. split; cbn.
  - eexists. split; [done|]. intros i <-%list_elem_of_singleton. by destruct (Hx i).
  - intros q e He Ht. right; right. by exists e.
Qed.

Lemma clear_logged g i : ends_logged g (clear_running i g).2.
Proof.
  unfold clear_running, get_mut. destruct (agents g !! in_pid i) as [e|] eqn:He; [|by apply calm_logged, calm_same]. split; cbn.
  - exists []. rewrite app_nil_r. split; [done|]. intros i' H. by apply not_elem_of_nil in H.
  - intros q e0 [[<- <-]|[_ Hq]]%lookup_insert_Some Ht; right; right; [exists e|by exists e0]. by destruct (record_matches i e).
Qed.

Lemma step_logged s s' : agents_inv s → agent_step s s' → ends_logged (as_registry s) (as_registry s').
Proof.
  intros Hinv Hs. destruct Hs as [g ts j t Hj Ht|g ts j t rest now tasks g' Hj E|g ts]; cbn [as_registry as_threads] in *.
  - by apply calm_logged, calm_same.
  - assert ((∀ n, ¬ about n t) → ends_logged g g') as Hfair.
    { intros Hno. pose proof (inv_fair _ now j t rest Hinv Hj Hno) as [[Hc _]|(i & _ & Hd & _)];
        cbn [as_registry] in *; rewrite E in *; cbn [fst snd] in *.
      - by apply calm_logged.
      - by eapply dies_logged. }
    destruct t; try (apply Hfair; by intros ? []); cbn [exec] in E; [injection E as <- <-; by apply logged_logged..|].
    pose proof (clear_logged g i) as H. unfold mbind, R_bind in E. destruct (clear_running i g). by injection E as <- <-.
  - apply calm_logged, calm_same; cbn; [done..|lia].
Qed.

(** The entry of an incarnation. *)
Definition incarnation (i : AgentInstance) (g : AgentRegistry) : option AgentRecord :=
  e ← agents g !! in_pid i; if record_matches i e then Some e else None.

Lemma incarnation_spec i g :
  match incarnation i g with
  | Some e => agents g !! in_pid i = Some e ∧ rec_identity e = in_identity i
  | None => ∀ e, agents g !! in_pid i = Some e → rec_identity e ≠ in_identity i
  end.
Proof.
  unfold incarnation, record_matches. destruct (agents g !! in_pid i) as [e|]; [|done]. cbn.
  destruct (N.eqb_spec (rec_identity e) (in_identity i)) as [E|E]; [done|]. by intros e0 [= <-].
Qed.

(** Every callback was called, once, in the order of the copied list. *)
Definition fired (i : AgentInstance) (past : list AgentEvent) : Prop :=
  ∃ callbacks, past = Died i :: Firing i callbacks :: (Called i <$> callbacks).

Lemma alive_story g ts pid e :
  reg_wf g → phase g ts (rec_identity e) → agents g !! pid = Some e → ad_state (rec_descriptor e) ≠ Terminated → story (rec_identity e) g = [].
Proof.
  intros Hwf Hph He Ht. destruct Hph as [? _ _|i j e0 Hi He0 Hi0 _ _ Ht0 _ _|i cbs _ _ _ _ H3]; [done| |by destruct (H3 _ _ He)].
  assert (in_pid i = pid) as Ep by (by eapply (rw_one _ Hwf)). rewrite Ep in He0. by simplify_eq.
Qed.

Lemma died_story i g : Died i ∈ agent_log g ↔ Died i ∈ story (in_identity i) g.
Proof. unfold story. rewrite list_elem_of_filter. cbn. naive_solver. Qed.

(** Since it was alive, an incarnation ended under its own pid if it ended, and its end is in the log. *)
Lemma end_logged s s' pid e :
  agents_inv s → rtc agent_step s s' → agents (as_registry s) !! pid = Some e → ad_state (rec_descriptor e) ≠ Terminated →
  agents_inv s' ∧
  (∀ i, Died i ∈ agent_log (as_registry s') → in_identity i = rec_identity e → in_pid i = pid) ∧
  ∀ q e', agents (as_registry s') !! q = Some e' → rec_identity e' = rec_identity e →
    q = pid ∧ (ad_state (rec_descriptor e') = Terminated → Died (mkInstance pid (rec_identity e)) ∈ agent_log (as_registry s')).
Proof.
  intros Hinv Hs He Ht. pose proof (rw_next _ (ai_wf _ Hinv) _ _ He) as Hlt.
  assert (∀ s', rtc agent_step s s' → ∀ q e', agents (as_registry s') !! q = Some e' → rec_identity e' = rec_identity e → q = pid) as Hq.
  { intros s1 H1 q e' He' Hid. destruct (steps_evolve _ _ H1) as [_ Hev]. destruct (Hev q e' He') as [?|(e0 & He0 & Ho)]; [lia|].
    eapply (rw_one _ (ai_wf _ Hinv)); [done..|]. by rewrite <-(ol_identity _ _ Ho). }
  revert s' Hs. apply rtc_ind_r; [|intros s1 s2 Hs1 H12 IH].
  - pose proof (alive_story _ _ _ _ (ai_wf _ Hinv) (ai_phase _ Hinv _) He Ht) as Hst. split_and!; [done| |].
    + intros i Hi%died_story Hid. rewrite Hid, Hst in Hi. by apply not_elem_of_nil in Hi.
    + intros q e' He' Hid. assert (q = pid) as -> by (by eapply (Hq s)). simplify_eq. done.
  - destruct IH as (Hinv1 & Hd1 & Ht1). pose proof (agents_step_inv _ _ Hinv1 H12) as Hinv2.
    pose proof (ai_wf _ Hinv2) as Hwf2. destruct (step_logged _ _ Hinv1 H12) as [(x & Hx & Hxd) Hend]. split_and!; [done| |].
    + intros i. rewrite Hx. intros [Hi|Hi]%elem_of_app Hid; [by apply Hd1|]. destruct (Hxd i Hi) as (q & e1 & He1 & ->).
      cbn in *. rewrite (rw_pid _ (ai_wf _ Hinv1) _ _ He1). by eapply (Hq s1).
    + intros q e' He' Hid. assert (q = pid) as -> by (eapply (Hq s2); [by eapply rtc_r|done..]). split; [done|]. intros Ht'.
      destruct (Hend _ _ He' Ht') as [Hle|[Hdied|(e1 & He1 & Hid1 & Hterm)]].
      * destruct (steps_evolve _ _ Hs1) as [? _]. lia.
      * unfold record_instance in Hdied. by rewrite (rw_pid _ Hwf2 _ _ He'), Hid in Hdied.
      * rewrite Hx. apply elem_of_app. left. eapply Ht1; [done| |done]. congruence.
Qed.

(** C29: from any reachable system on, through any interleaving of the calls of any
    number of threads, an incarnation that is alive keeps an empty history while it
    lives; once [Terminated] with its callbacks running it has died once and called
    a part of the copied list of callbacks, in order; and when they do not run any
    more, or when the entry is gone so that the pid can be registered again, either
    it was removed alive or every callback of the list was called exactly once. *)
Theorem terminate_fires_once s s' pid e :
  rtc agent_step (mkAgents registry_new ∅) s → rtc agent_step s s' →
  agents (as_registry s) !! pid = Some e → ad_state (rec_descriptor e) ≠ Terminated →
  let i := mkInstance pid (rec_identity e) in
  let past := story (rec_identity e) (as_registry s') in
  match incarnation i (as_registry s') with
  | Some e' =>
      if decide (ad_state (rec_descriptor e') = Terminated)
      then if callbacks_running e' then ∃ owed, ending i owed past else fired i past
      else past = []
  | None => past = [] ∨ fired i past
  end.
Proof.
  intros Hr Hs He Ht. cbv zeta. destruct (end_logged s s' pid e (agents_reachable s Hr) Hs He Ht) as ([Hwf Hph _] & Hdied & Hterm).
  assert (∀ i l, in_identity i = rec_identity e → story (rec_identity e) (as_registry s') = Died i :: l → i = mkInstance pid (rec_identity e)) as Hi.
  { intros [q n] l Hn Hl. cbn in Hn. subst n. f_equal. eapply (Hdied (mkInstance q _)); [|done]. apply died_story. cbn. rewrite Hl. by left. }
  set (i := mkInstance pid (rec_identity e)) in *.
  pose proof (incarnation_spec i (as_registry s')) as Hinc. cbn [in_pid in_identity i] in Hinc.
  destruct (Hph (rec_identity e)) as [Hst _ H3|i0 j e0 Hi0 He0 Hid0 Hrun _ Ht0 _ Hend|i0 cbs Hi0 _ Hst _ H3].
  - rewrite Hst in *. destruct (incarnation i _) as [e'|]; [|by left]. destruct Hinc as [He' Hid]. case_decide as Ht'; [|done].
    destruct (Hterm _ _ He' Hid) as [_ Hd]. apply Hd, died_story in Ht'. cbn in Ht'. rewrite Hst in Ht'. by apply not_elem_of_nil in Ht'.
  - assert (i0 = i) as ->. { destruct Hend as [[_ Hp]|(called & rest & _ & Hp)]; by eapply Hi. }
    destruct (incarnation i _) as [e'|]; [|by destruct (Hinc e0 He0)]. destruct Hinc as [He' _]. cbn in He0. simplify_eq.
    rewrite decide_True, Hrun by done. by eexists.
  - assert (i0 = i) as -> by (by eapply Hi). assert (fired i (story (rec_identity e) (as_registry s'))) by (by exists cbs).
    destruct (incarnation i _) as [e'|]; [|by right]. destruct Hinc as [He' Hid]. destruct (H3 _ _ He' Hid) as [-> Ht']. by rewrite decide_True.
Qed.

(** ** Handles of incarnations that are gone *)

Lemma current_since s s' i e' :
  handle_ok (as_registry s) i → rtc agent_step s s' →
  agents (as_registry s') !! in_pid i = Some e' → removing e' = false → rec_identity e' = in_identity i →
  ∃ e, agents (as_registry s) !! in_pid i = Some e ∧ removing e = false ∧ older e e'.
Proof.
  intros Hi Hs He' Hm Hid. destruct (steps_evolve _ _ Hs) as [_ Hev]. unfold handle_ok in Hi.
  destruct (Hev _ _ He') as [?|(e & He & Ho)]; [lia|]. exists e. split_and!; try done.
  destruct (removing e) eqn:E; [|done]. by rewrite (ol_removing _ _ Ho E) in Hm.
Qed.

Lemma descriptor_spec i g d :
  get_instance_descriptor i g = Some d ↔
  ∃ e, agents g !! in_pid i = Some e ∧ removing e = false ∧ rec_identity e = in_identity i ∧ rec_descriptor e = d.
Proof.
  unfold get_instance_descriptor, is_current_instance, get_agent, record_matches.
  destruct (agents g !! in_pid i) as [e|]; cbn; [|split; [done|by intros (? & [=] & _)]].
  destruct (removing e) eqn:Hm; cbn; [split; [done|intros (? & [= <-] & ? & _); congruence]|].
  destruct (N.eqb_spec (rec_identity e) (in_identity i)) as [E|E]; [|split; [done|by intros (? & [= <-] & _ & ? & _)]].
  split; [intros [= <-]; by exists e|]. by intros (? & [= <-] & _ & _ & <-).
Qed.

Lemma retired_record i g e :
  get_instance_descriptor i g = None → agents g !! in_pid i = Some e → removing e || negb (record_matches i e) = true.
Proof.
  unfold get_instance_descriptor, is_current_instance, get_agent. intros H He. rewrite He in H.
  by destruct (removing e), (record_matches i e).
Qed.

Lemma get_mut_same {A} pid (a : A) f g : (∀ e, agents g !! pid = Some e → f e = (a, e)) → get_mut pid a f g = (a, g).
Proof.
  intros Hf. unfold get_mut. destruct (agents g !! pid) as [e|] eqn:He; [|done]. rewrite (Hf e eq_refl).
  unfold set_agents. rewrite insert_id by done. by destruct g.
Qed.

(** Every operation of the handle answers that there is nothing, and changes nothing. *)
Record inert (i : AgentInstance) (g : AgentRegistry) : Prop := {
  in_update now st reason : update_instance_state now i st reason g = (Ok false, g);
  in_unregister : unregister_instance i g = (None, g);
  in_kill now now' code : kill_instance now now' i code g = (None, g);
  in_signal now now' sig payload : signal_instance now now' i sig payload g = (None, g);
  in_heartbeat now : heartbeat_instance now i g = (Ok None, g);
  in_bind : bind_managed_host i g = (false, g);
  in_bound : is_managed_host_bound i g = false;
  in_external now now' : unregister_external_instance now now' i g = (Ok false, g) }.

Lemma retired_terminate now i code g : get_instance_descriptor i g = None → terminate now (in_pid i) (Some i) code g = (None, g).
Proof.
  intros H. unfold terminate, mbind, R_bind. rewrite get_mut_same; [done|]. intros e He. cbn [expects].
  by rewrite (retired_record i g e H He).
Qed.

Lemma retired_kill now now' i code force g :
  get_instance_descriptor i g = None → kill_instance_inner now now' (in_pid i) (Some i) code force g = (None, g).
Proof. intros H. unfold kill_instance_inner, mbind at 1, R_bind at 1. by rewrite retired_terminate. Qed.

Lemma retired_inert i g : get_instance_descriptor i g = None → inert i g.
Proof.
  intros H. pose proof (retired_record i g) as Hr. split.
  - intros now st reason. unfold update_instance_state, update_instance_state_with_reason, set_state, mbind, R_bind.
    rewrite get_mut_same; [done|]. intros e He. cbn [expects]. by rewrite (Hr e H He).
  - unfold unregister_instance, remove_instance, claim_removal, mbind, R_bind. rewrite get_mut_same; [done|].
    intros e He. cbn [expects]. by rewrite <-orb_assoc, (Hr e H He), orb_true_r.
  - intros now now' code. by apply retired_kill.
  - intros now now' [] payload; [by apply retired_kill..|]. apply get_mut_same. intros e He. cbn [expects]. by rewrite (Hr e H He).
  - intros now. apply get_mut_same. intros e He. cbn [expects]. by rewrite (Hr e H He).
  - apply get_mut_same. intros e He. by rewrite (Hr e H He).
  - unfold is_managed_host_bound. destruct (agents g !! in_pid i) as [e|] eqn:He; [|done]. specialize (Hr e H eq_refl).
    by destruct (removing e), (record_matches i e).
  - intros now now'. unfold unregister_external_instance, mbind, R_bind, sees. destruct (agents g !! in_pid i) as [e|] eqn:He; [|done].
    by rewrite (Hr e H eq_refl).
Qed.

(** C30: a handle that was given out sees one incarnation.  After any interleaving of
    calls, what it can still read is the descriptor it could read before, with the
    same pid, kind and parent, in a state the transitions lead to; and a handle whose
    incarnation is gone, or is being removed, stays so: every operation on it answers
    that there is nothing and leaves the registry as it is, also when the pid has a
    new holder. *)
Theorem handle_lifecycle s s' i :
  handle_ok (as_registry s) i → rtc agent_step s s' →
  match get_instance_descriptor i (as_registry s), get_instance_descriptor i (as_registry s') with
  | Some d, Some d' =>
      lifecycle (ad_state d) (ad_state d') ∧ ad_pid d' = ad_pid d ∧ ad_kind d' = ad_kind d ∧ ad_parent_pid d' = ad_parent_pid d
  | _, None => inert i (as_registry s')
  | None, Some _ => False
  end.
Proof.
  intros Hi Hs. destruct (get_instance_descriptor i (as_registry s')) as [d'|] eqn:Hd';
    [|by destruct (get_instance_descriptor i (as_registry s)); apply retired_inert].
  apply descriptor_spec in Hd' as (e' & He' & Hm & Hid & <-). destruct (current_since s s' i e' Hi Hs He' Hm Hid) as (e & He & Hm0 & Ho).
  assert (get_instance_descriptor i (as_registry s) = Some (rec_descriptor e)) as ->.
  { apply descriptor_spec. exists e. split_and!; try done. by rewrite <-(ol_identity _ _ Ho). }
  destruct Ho as [_ Hst Hp Hk Hpar _]. by split_and!.
Qed.

(** ** The methods as runs of tasks *)

(** What a thread has to do, done without a break. *)
Inductive alone : list Task → AgentRegistry → AgentRegistry → Prop :=
  | alone_done g : alone [] g g
  | alone_task now t l tasks g g1 g2 : exec now t g = (tasks, g1) → alone (tasks ++ l) g1 g2 → alone (t :: l) g g2.

Lemma alone_app l l' g g1 g2 : alone l g g1 → alone l' g1 g2 → alone (l ++ l') g g2.
Proof.
  intros H H'. induction H as [|now t l tasks g g0 g1 E _ IH]; [done|]. cbn. eapply alone_task; [done|]. rewrite app_assoc. by apply IH.
Qed.

Lemma alone_steps l g g' j ts :
  alone l g g' → ts !! j = Some l → rtc agent_step (mkAgents g ts) (mkAgents g' (<[j := []]> ts)).
Proof.
  intros H. revert ts. induction H as [g|now t l tasks g g1 g2 E _ IH]; intros ts Hj; [by rewrite insert_id|].
  eapply rtc_l; [by eapply step_agent_task|]. rewrite <-(insert_insert_eq ts j [] (tasks ++ l)). apply IH, lookup_insert_eq.
Qed.

(** A piece and what its answer leaves to do. *)
Lemma alone_bind {A} now t (m : R A) (h : A → list Task) g g2 :
  exec now t = (m ≫= λ a, mret (h a)) → alone (h (m g).1) (m g).2 g2 → alone [t] g g2.
Proof.
  intros E H. apply (alone_task now t [] (h (m g).1) g (m g).2); [|by rewrite app_nil_r]. rewrite E. unfold mbind, R_bind. by destruct (m g).
Qed.

(** A piece that leaves nothing. *)
Lemma alone_one {A} now t (m : R A) g : exec now t = (m ≫= λ _, mret []) → alone [t] g (m g).2.
Proof. intros E. eapply (alone_bind now t m (λ _, [])); [done|]. apply alone_done. Qed.

Lemma alone_calls i l g : alone (TCall i <$> l) g (call_all i l g).2.
Proof.
  revert g. induction l as [|c l IH]; intros g; [apply alone_done|]. cbn. eapply (alone_task 0 _ _ []); [done|]. apply IH.
Qed.

Lemma alone_finish i terminated g : alone (finish_tasks i terminated) g (finish_state_change i terminated g).2.
Proof.
  destruct terminated; [|apply alone_done]. apply (alone_app [TFire i] [TClear i] _ (fire_on_terminate i g).2).
  - eapply (alone_task 0); [done|]. rewrite app_nil_r. apply alone_calls.
  - unfold finish_state_change, mbind at 1, R_bind at 1. destruct (fire_on_terminate i g) as [u g1]. by apply (alone_one 0).
Qed.

Lemma alone_change (x : result AgentError (bool * Finish)) g : alone (change_tasks x) g (finish x g).2.
Proof.
  destruct x as [[b [[i terminated]|]]|]; cbn; [|apply alone_done..]. rewrite bind_ret_snd. apply alone_finish.
Qed.

Lemma alone_remove now pid expected reap g : alone [TRemove pid expected reap] g (remove_instance now pid expected reap g).2.
Proof.
  eapply (alone_bind now); [done|]. unfold remove_instance, mbind at 1, R_bind at 1. destruct (claim_removal pid expected g) as [[[i d]|] g1];
    [|apply alone_done]. cbn [fst snd]. set (u := match reap, ad_parent_pid d with true, Some ppid => unlink_parent now pid ppid | _, _ => mret () end).
  apply (alone_app _ [TTake pid i] _ (u g1).2).
  - subst u. destruct reap, (ad_parent_pid d); [by apply (alone_one now)|apply alone_done..].
  - unfold mbind at 1, R_bind at 1. destruct (u g1) as [v g2]. rewrite bind_ret_snd. by apply (alone_one now).
Qed.

Lemma alone_kill now now' pid expected code force g :
  alone [TKill pid expected code force] g (kill_instance_inner now now' pid expected code force g).2.
Proof.
  eapply (alone_bind now); [done|]. unfold kill_instance_inner, mbind at 1, R_bind at 1. destruct (terminate now pid expected code g) as [[[[i b] d]|] g1];
    [|apply alone_done]. cbn [fst snd]. apply (alone_app _ _ _ (finish_state_change i b g1).2); [apply alone_finish|].
  unfold mbind at 1, R_bind at 1. destruct (finish_state_change i b g1) as [v g2]. rewrite bind_ret_snd.
  destruct (reaps force b d); [|apply alone_done]. rewrite bind_ret_snd. apply alone_remove.
Qed.

Lemma alone_kills now l g : alone ((λ i, TKill (in_pid i) (Some i) 0 true) <$> l) g (kill_each now l g).2.
Proof.
  revert g. induction l as [|i l IH]; intros g; [apply alone_done|]. cbn [kill_each fmap list_fmap]. unfold mbind, R_bind.
  pose proof (alone_kill now now (in_pid i) (Some i) 0 true g) as H. destruct (kill_instance_inner _ _ _ _ _ _ g) as [v g1].
  by apply (alone_app [_] _ _ g1).
Qed.

Lemma alone_try now desc pids g :
  alone [TTry desc pids] g
    (let '(x, g1) := register_first desc pids g in
     match x, ad_parent_pid desc with Some p, Some ppid => (link_child now ppid p g1).2 | _, _ => g1 end).
Proof.
  revert g. induction pids as [|p pids IH]; intros g; [apply (alone_task now _ _ [] g g); [done|apply alone_done]|].
  eapply (alone_bind now); [done|]. cbn [register_first]. unfold mbind, R_bind.
  destruct (register (set_pid p desc) g) as [[] g1]; cbn [fst snd]; [|apply IH]. cbn.
  destruct (ad_parent_pid desc); [by apply (alone_one now)|apply alone_done].
Qed.

Lemma alone_spawn now name owner zone kind parent pid cwd ext labels uuid g :
  alone [TSpawn (new_descriptor now name owner zone kind parent cwd ext labels)
           (match pid with Some p => [p] | None => uuid <$> seq 0 100 end)] g
    (spawn now name owner zone kind parent pid cwd ext labels uuid g).2.
Proof.
  set (desc := new_descriptor now name owner zone kind parent cwd ext labels). set (pids := match pid with Some p => [p] | None => _ end).
  eapply (alone_bind now); [done|]. cbn [sees fst snd]. unfold spawn, sees, mbind, R_bind. fold desc pids.
  change (ad_parent_pid desc) with parent. destruct (match parent with Some ppid => _ | None => true end); cbn [negb]; [|apply alone_done].
  pose proof (alone_try now desc pids g) as H. change (ad_parent_pid desc) with parent in H.
  destruct (register_first desc pids g) as [[p|] g1]; [|done]. destruct parent as [ppid|]; [|done].
  by destruct (link_child now ppid p g1).
Qed.

(** A method, called by a thread with nothing else to do, is steps of the system. *)
Definition realised {A} (t : Task) (m : R A) : Prop :=
  ∀ g ts j, default [] (ts !! j) = [] → entry_task g t → rtc agent_step (mkAgents g ts) (mkAgents (m g).2 (<[j := []]> ts)).

Lemma alone_realised {A} t (m : R A) : (∀ g, alone [t] g (m g).2) → realised t m.
Proof.
  intros H g ts j Hj Ht. eapply rtc_l; [by apply (step_agent_call g ts j t)|]. rewrite <-(insert_insert_eq ts j [] [t]).
  eapply alone_steps; [apply H|apply lookup_insert_eq].
Qed.

(** Every method that changes the registry, called by a thread while the others
    stand still, is a run of the thread's tasks: what holds of every interleaving
    holds of the methods, and of any sequence of them. *)
Theorem methods_are_steps now now' :
  (∀ desc, realised (TRegister desc) (register desc)) ∧
  (∀ name owner zone kind parent pid cwd ext labels uuid,
     realised (TSpawn (new_descriptor now name owner zone kind parent cwd ext labels)
                 (match pid with Some p => [p] | None => uuid <$> seq 0 100 end))
       (spawn now name owner zone kind parent pid cwd ext labels uuid)) ∧
  (∀ pid, realised (TRemove pid None false) (unregister pid)) ∧
  (∀ i, realised (TRemove (in_pid i) (Some i) false) (unregister_instance i)) ∧
  (∀ pid, realised (TRemove pid None true) (reap now pid)) ∧
  (∀ pid st reason, realised (TUpdate pid None st reason) (update_state_with_reason now pid st reason)) ∧
  (∀ i st reason, realised (TUpdate (in_pid i) (Some i) st reason) (update_instance_state now i st reason)) ∧
  (∀ pid st code, realised (TExit pid st code) (update_state_with_exit now pid st code)) ∧
  (∀ pid code, realised (TKill pid None code false) (kill now now' pid code)) ∧
  (∀ i code, realised (TKill (in_pid i) (Some i) code false) (kill_instance now now' i code)) ∧
  (∀ pid payload, realised (TKill pid None (-9) true) (signal now now' pid Sigkill payload)) ∧
  (∀ pid payload, realised (TMerge pid None payload) (signal now now' pid Sigusr1 payload)) ∧
  (∀ pid, realised (THeartbeat pid None) (heartbeat now pid)) ∧
  (∀ i, realised (THeartbeat (in_pid i) (Some i)) (heartbeat_instance now i)) ∧
  (∀ i, realised (TBind i) (bind_managed_host i)) ∧
  (∀ id callback, realised (TObserve id callback) (register_on_terminate id callback)) ∧
  realised TCloseAll (close_all now).
Proof.
  split_and!; intros; apply alone_realised; intros g;
    try (unfold register, reap, kill, signal, heartbeat; rewrite ?bind_ret_snd);
    try apply alone_remove; try apply alone_kill; try apply alone_spawn; try (by apply (alone_one now)).
  - eapply (alone_bind now); [done|]. unfold update_state_with_reason, update_instance_state_with_reason, mbind, R_bind.
    destruct (set_state now pid None st reason g). apply alone_change.
  - eapply (alone_bind now); [done|]. unfold update_instance_state, update_instance_state_with_reason, mbind, R_bind.
    destruct (set_state now (in_pid i) (Some i) st reason g). apply alone_change.
  - eapply (alone_bind now); [done|]. unfold update_state_with_exit, mbind, R_bind. destruct (set_exit now pid st code g). apply alone_change.
  - eapply (alone_bind now); [done|]. unfold close_all, mbind, R_bind. apply alone_kills.
Qed.

(** ** Pids *)

Lemma parse_pretty_go x s : (x ≤ U64_MAX)%N → parse_digits 0 (pretty_N_go x s) = parse_digits x s.
Proof.
  revert s. induction (N.lt_wf_0 x) as [x _ IH]; intros s Hx. destruct (decide (x = 0%N)) as [->|Hne]; [by rewrite pretty_N_go_0|].
  pose proof (N.div_mod x 10 ltac:(done)) as Hdiv. pose proof (N.mod_lt x 10 ltac:(done)) as Hmod.
  rewrite pretty_N_go_step by lia. rewrite IH; [|apply N.div_lt; lia|apply (N.le_trans _ x); [apply N.Div0.div_le_upper_bound; lia|exact Hx]]. cbn [parse_digits].
  rewrite is_nat_pretty_N_char by done. rewrite N2Nat.id. replace (x `div` 10 * 10 + x `mod` 10)%N with x by lia.
  by rewrite (proj2 (N.leb_le _ _)).
Qed.

Lemma parse_digits_pretty (n : N) : (n ≤ U64_MAX)%N → parse_digits 0 (pretty n) = Some n.
Proof. intros Hn. unfold pretty, pretty_N. case_decide as E; [by subst|]. by rewrite parse_pretty_go. Qed.

(** The text of a number has digits only, and at least one. *)
Lemma pretty_head (n : N) : (n ≤ U64_MAX)%N → ∃ a s, pretty n = String a s ∧ a ≠ "+"%char ∧ a ≠ "-"%char.
Proof.
  intros Hn. pose proof (parse_digits_pretty n Hn) as Hp.
  pose proof (pretty_N_digits "+" n eq_refl) as H1. pose proof (pretty_N_digits "-" n eq_refl) as H2.
  destruct (pretty n) as [|a s] eqn:E.
  - injection Hp as <-. done.
  - exists a, s. cbn in H1, H2. apply orb_false_iff in H1 as [?%bool_decide_eq_false _], H2 as [?%bool_decide_eq_false _]. done.
Qed.

Lemma parse_u64_pretty (n : N) : (n ≤ U64_MAX)%N → parse_u64 (pretty n) = Some n.
Proof.
  intros Hn. pose proof (parse_digits_pretty n Hn) as Hp. destruct (pretty_head n Hn) as (a & s & E & Ha & _). rewrite E in *.
  unfold parse_u64. by rewrite decide_False.
Qed.

Lemma parse_i64_pretty (z : Z) : (-9223372036854775808 ≤ z ≤ I64_MAX)%Z → parse_i64 (pretty z) = Some z.
Proof.
  intros Hz. unfold I64_MAX in Hz. destruct z as [|p|p]; [done|..].
  - assert (N.pos p ≤ U64_MAX)%N as Hp by (unfold U64_MAX, U64_MOD; lia). change (pretty (Z.pos p)) with (pretty (N.pos p)).
    pose proof (parse_u64_pretty _ Hp) as Hu. destruct (pretty_head _ Hp) as (a & s & E & _ & Ha). rewrite E in *.
    unfold parse_i64. rewrite decide_False, Hu by done. by rewrite (proj2 (Z.leb_le _ _)) by (unfold I64_MAX; cbn; lia).
  - assert (N.pos p ≤ U64_MAX)%N as Hp by (unfold U64_MAX, U64_MOD; lia). change (pretty (Z.neg p)) with (String "-" (pretty (N.pos p))).
    pose proof (parse_digits_pretty _ Hp) as Hd. destruct (pretty_head _ Hp) as (a & s & E & _ & _). rewrite E in *.
    unfold parse_i64. rewrite decide_True, Hd by done. by rewrite (proj2 (Z.leb_le _ _)) by (unfold I64_MAX; cbn; lia).
Qed.

Lemma split_once_at c s t : scontains c s = false → split_once c (s +:+ String c t) = Some (s, t).
Proof.
  induction s as [|a s IH]; [intros _; change ("" +:+ String c t) with (String c t); cbn [split_once]; by rewrite decide_True|].
  rewrite sapp_cons. cbn [scontains split_once]. intros [Ha Hs]%orb_false_iff. apply bool_decide_eq_false in Ha.
  rewrite decide_False by done. by rewrite (IH Hs).
Qed.

Lemma split_once_no c s : scontains c s = false → split_once c s = None.
Proof.
  induction s as [|a s IH]; [done|]. cbn [scontains split_once]. intros [Ha Hs]%orb_false_iff. apply bool_decide_eq_false in Ha.
  rewrite decide_False by done. by rewrite (IH Hs).
Qed.

Lemma pretty_Z_no_dot (z : Z) : scontains "." (pretty z) = false.
Proof. destruct z as [|p|p]; [done|apply (pretty_N_digits "." (N.pos p)); done|]. cbn. by apply (pretty_N_digits "." (N.pos p)). Qed.

(** The pid of a process, and of an agent within one, is read back. *)
Theorem decode_encode_agent_pid host_pid local_id :
  (-9223372036854775808 ≤ host_pid ≤ I64_MAX)%Z → (∀ l, local_id = Some l → (l < U32_MOD)%N) →
  decode_agent_pid (encode_agent_pid host_pid local_id) = (Some host_pid, local_id).
Proof.
  intros Hh Hl. unfold decode_agent_pid, encode_agent_pid. destruct local_id as [l|].
  - specialize (Hl l eq_refl). change ("." +:+ pretty l) with (String "." (pretty l)). rewrite split_once_at by apply pretty_Z_no_dot. rewrite parse_i64_pretty by done. unfold parse_u32.
    rewrite parse_u64_pretty by (unfold U64_MAX, U64_MOD, U32_MOD in *; lia). cbn. by rewrite (proj2 (N.ltb_lt _ _)).
  - by rewrite split_once_no, parse_i64_pretty by (done || apply pretty_Z_no_dot).
Qed.

(** The names of states and kinds are read back. *)
Theorem agent_names_parse s k : state_from_str (state_as_str s) = Some s ∧ kind_from_str (kind_as_str k) = Some k.
Proof. by destruct s, k. Qed.

(** ** Lists and waiters *)

#[global] Instance evict_before_total : Total evict_before.
Proof. intros a b. unfold evict_before. lia. Qed.

#[global] Instance evict_before_trans : Transitive evict_before.
Proof. intros a b c. unfold evict_before. lia. Qed.

(** The first agents to evict: busy ones of the zone, in order, none of those left
    out before one that is listed. *)
Theorem list_by_priority_first zone_id batch_size g :
  let busy := list_agents zone_id None None (Some Busy) g in
  ∃ others, list_by_priority zone_id batch_size g ++ others ≡ₚ busy ∧
    length (list_by_priority zone_id batch_size g) = batch_size `min` length busy ∧
    Sorted evict_before (list_by_priority zone_id batch_size g) ∧
    ∀ a b, a ∈ list_by_priority zone_id batch_size g → b ∈ others → evict_before a b.
Proof.
  cbv zeta. set (busy := list_agents zone_id None None (Some Busy) g). unfold list_by_priority. fold busy.
  set (l := merge_sort evict_before busy). assert (StronglySorted evict_before l) as Hs by apply (StronglySorted_merge_sort _).
  assert (l ≡ₚ busy) as Hp by apply merge_sort_Permutation.
  exists (drop batch_size l). rewrite take_drop. split_and!; [done| | |].
  - by rewrite length_take, Hp.
  - apply StronglySorted_Sorted. rewrite <-(take_drop batch_size l) in Hs. by apply StronglySorted_app in Hs as (_ & ? & _).
  - intros a b Ha Hb. rewrite <-(take_drop batch_size l) in Hs. apply StronglySorted_app in Hs as (H & _ & _). by apply H.
Qed.

(** A waiter answers with a state of the incarnation it found first, never of a later
    holder of the pid. *)
Theorem waiter_same_incarnation pid target g g' views text :
  wait_for_state pid target g g' views = Some (Ok text) →
  ∃ e v e', agents g !! pid = Some e ∧ v ∈ g' :: views.*1 ∧ agents v !! pid = Some e' ∧ rec_identity e' = rec_identity e ∧
    removing e' = false ∧ text = state_as_str (ad_state (rec_descriptor e')) ∧
    (ad_state (rec_descriptor e') = target ∨ ad_state (rec_descriptor e') = Terminated).
Proof.
  unfold wait_for_state. destruct (agents g !! pid) as [e|]; [|done]. intros H. exists e.
  change (g' :: views.*1) with (((g', false) :: views).*1). induction ((g', false) :: views) as [|[v late] vs IH]; [done|].
  cbn [wait_loop] in H. destruct (wait_check pid (record_instance e) target v) as [x|] eqn:Hc.
  - injection H as ->. unfold wait_check in Hc. destruct (agents v !! pid) as [e'|] eqn:He'; [|done].
    destruct (removing e' || negb (record_matches (record_instance e) e')) eqn:Hm; [done|].
    apply orb_false_iff in Hm as [Hm Hid%negb_false_iff]. unfold record_matches in Hid. apply N.eqb_eq in Hid.
    destruct (bool_decide (ad_state (rec_descriptor e') = target) || is_terminal _) eqn:Ht; [|done]. injection Hc as <-.
    exists v, e'. split_and!; try done; [by left|]. apply orb_true_iff in Ht as [->%bool_decide_eq_true|Ht]; [by left|].
    right. by destruct (ad_state (rec_descriptor e')).
  - destruct late; [done|]. destruct (IH H) as (v' & e' & He & Hv & Hrest). exists v', e'. split; [done|]. split; [by right|done].
Qed.

(** ** Schedules *)

(** A call of a thread, or its next task. *)
Inductive Move := MCall (j : N) (t : Task) | MTask (j : N).

Fixpoint play (now : N) (moves : list Move) (s : AgentSystem) : option AgentSystem :=
  match moves with
  | [] => Some s
  | MCall j t :: moves =>
      if decide (default [] (as_threads s !! j) = [] ∧ entry_task (as_registry s) t)
      then play now moves (mkAgents (as_registry s) (<[j := [t]]> (as_threads s))) else None
  | MTask j :: moves =>
      match as_threads s !! j with
      | Some (t :: rest) =>
          let '(tasks, g) := exec now t (as_registry s) in play now moves (mkAgents g (<[j := tasks ++ rest]> (as_threads s)))
      | _ => None
      end
  end.

Lemma play_steps now moves s s' : play now moves s = Some s' → rtc agent_step s s'.
Proof.
  revert s. induction moves as [|[j t|j] moves IH]; intros [g ts]; cbn; [by intros [= ->]|..].
  - destruct (decide _) as [[Hj Ht]|]; [|done]. intros H%IH. eapply rtc_l; [by apply step_agent_call|done].
  - destruct (ts !! j) as [[|t rest]|] eqn:Hj; [done| |done]. destruct (exec now t g) as [tasks g'] eqn:E. intros H%IH.
    eapply rtc_l; [by eapply step_agent_task|done].
Qed.

(** ** Examples *)

Definition an_agent (pid : string) (parent : option string) : AgentDescriptor :=
  set_pid pid (new_descriptor 5 "worker" "alice" "root" Worker parent "/" None ∅).

(** Two observers and an agent. *)
Definition a_start : list Move :=
  [MCall 1 (TObserve "workspace" 10); MTask 1; MCall 1 (TObserve "audit" 11); MTask 1; MCall 1 (TRegister (an_agent "42" None)); MTask 1].

(** One thread kills it; a second one tries to reap it while the observers run. *)
Definition a_kill : list Move :=
  [MCall 1 (TKill "42" None 0 false); MTask 1; MTask 1; MTask 1; MCall 2 (TRemove "42" None true); MTask 2;
   MCall 2 (TRegister (an_agent "42" None)); MTask 2; MTask 1; MTask 1; MTask 1; MTask 1;
   MCall 2 (TRegister (an_agent "42" None)); MTask 2].

Definition played (moves : list Move) : AgentSystem := default (mkAgents registry_new ∅) (play 7 moves (mkAgents registry_new ∅)).

Lemma played_steps moves moves' :
  play 7 moves (mkAgents registry_new ∅) = Some (played moves) → play 7 (moves ++ moves') (mkAgents registry_new ∅) = Some (played (moves ++ moves')) →
  rtc agent_step (mkAgents registry_new ∅) (played moves) ∧ rtc agent_step (played moves) (played (moves ++ moves')).
Proof.
  intros H H'. split; [by eapply play_steps|]. apply (play_steps 7 moves'). rewrite <-H'. clear H'. revert H. generalize (mkAgents registry_new ∅).
  generalize (played moves). induction moves as [|[j t|j] moves IH]; intros s' s; cbn; [by intros [= ->]|..].
  - destruct (decide _); [|done]. apply IH.
  - destruct (as_threads s !! j) as [[|t rest]|]; [done| |done]. destruct (exec 7 t (as_registry s)). apply IH.
Qed.

Lemma terminate_fires_once_witness :
  story 0 (as_registry (played (a_start ++ a_kill))) =
    [Died (mkInstance "42" 0); Firing (mkInstance "42" 0) [10; 11]; Called (mkInstance "42" 0) 10; Called (mkInstance "42" 0) 11]%N ∧
  (story 0 (as_registry (played (a_start ++ a_kill))) = [] ∨
   fired (mkInstance "42" 0) (story 0 (as_registry (played (a_start ++ a_kill))))).
Proof.
  split; [by vm_compute|].
  destruct (played_steps a_start a_kill ltac:(by vm_compute) ltac:(by vm_compute)) as [H1 H2].
  exact (terminate_fires_once (played a_start) (played (a_start ++ a_kill)) "42" (mkRecord (an_agent "42" None) 0 false false false) H1 H2
    ltac:(by vm_compute) ltac:(by vm_compute)).
Defined.

Lemma handle_lifecycle_witness :
  is_current_instance (mkInstance "42" 1) (as_registry (played (a_start ++ a_kill))) = true ∧
  inert (mkInstance "42" 0) (as_registry (played (a_start ++ a_kill))).
Proof.
  split; [by vm_compute|].
  destruct (played_steps a_start a_kill ltac:(by vm_compute) ltac:(by vm_compute)) as [_ H].
  exact (handle_lifecycle (played a_start) (played (a_start ++ a_kill)) (mkInstance "42" 0) ltac:(by vm_compute) H).
Defined.

(** ** Where the comments say something else *)

Definition logless {A} (m : R A) : Prop := ∀ g, agent_log (m g).2 = agent_log g.

Lemma logless_get_mut {A} pid (a : A) f : logless (get_mut pid a f).
Proof. intros g. unfold get_mut. destruct (agents g !! pid) as [e|]; [|done]. by destruct (f e). Qed.

Lemma logless_bind {A C} (m : R A) (h : A → R C) : logless m → (∀ a, logless (h a)) → logless (m ≫= h).
Proof. intros Hm Hh g. unfold mbind, R_bind. specialize (Hm g). destruct (m g) as [a g1]. cbn in Hm. by rewrite <-Hm, <-(Hh a g1). Qed.

Lemma logless_ret {A} (a : A) : logless (mret a).
Proof. done. Qed.

Lemma logless_take pid i : logless (take_record pid i).
Proof. intros g. unfold take_record. destruct (agents g !! pid) as [e|]; [|done]. by destruct (record_matches i e). Qed.

(** Reaping calls no observer. *)
Theorem reap_calls_nobody now pid g : agent_log (reap now pid g).2 = agent_log g.
Proof.
  revert g. change (logless (reap now pid)). unfold reap, remove_instance.
  apply logless_bind; [|intros; apply logless_ret]. apply logless_bind; [apply logless_get_mut|]. intros [[i d]|]; [|apply logless_ret].
  apply logless_bind; [destruct (ad_parent_pid d); [apply logless_get_mut|apply logless_ret]|]. intros _.
  apply logless_bind; [apply logless_take|intros; apply logless_ret].
Qed.

(** A second thread sends SIGKILL while the observers of a SIGTERM run. *)
Definition a_sigkill : list Move :=
  a_start ++ [MCall 1 (TRegister (an_agent "7" (Some "42"))); MTask 1; MCall 1 (TKill "7" None 0 false); MTask 1; MTask 1; MTask 1;
   MCall 2 (TKill "7" None (-9) true); MTask 2; MTask 2; MTask 1; MTask 1].

(** Both are done, and the record is still there, with the exit code of the first. *)
Theorem sigkill_not_reaped :
  as_threads (played a_sigkill) = {[ 1%N := []; 2%N := [] ]} ∧
  (λ e, (ad_state (rec_descriptor e), ad_exit_code (rec_descriptor e), callbacks_running e)) <$> agents (as_registry (played a_sigkill)) !! "7" =
    Some (Terminated, Some 0%Z, false).
Proof. by vm_compute. Qed.

(** The parent is gone before the child is killed: nobody reaps the child. *)
Theorem orphan_not_reaped :
  let g := (unregister "42" (register (an_agent "7" (Some "42")) (register (an_agent "42" None) registry_new).2).2).2 in
  (λ d, ad_state d) <$> get_agent "7" (kill 6 6 "7" 0 g).2 = Some Terminated ∧ get_agent "42" g = None.
Proof. by vm_compute. Qed.

(** Awaiting input without a reason. *)
Theorem awaiting_without_reason :
  let g := (register (an_agent "42" None) registry_new).2 in
  let g := (update_state 6 "42" Busy (update_state 6 "42" Ready (update_state 6 "42" WarmingUp g).2).2).2 in
  (λ d, (ad_state d, ad_reason d)) <$> get_agent "42" (update_state 6 "42" AwaitingInput g).2 = Some (AwaitingInput, None).
Proof. by vm_compute. Qed.

(** The first half is no number, the second is given all the same. *)
Theorem decode_half_a_pid : decode_agent_pid "a1b2.5" = (None, Some 5%N).
Proof. by vm_compute. Qed.
