(* ===== verification/RouterProofs.v ===== *)
(** * Properties of the mount router

    Routing finds the deepest mount at or above a path and stays within the
    zones it may use; the path arithmetic of mounts and subtrees is invertible
    and keeps disjoint subtrees apart; the two slots of an entry are independent. *)

From S2P Require Import Prelude Bytes Codec Table LockState Router.

(** ** Canonical keys *)

Lemma trim_start_no c s : starts_with (String c "") s = false → trim_start_matches c s = s.
Proof.
  destruct s as [|a s]; [done|]. cbn [trim_start_matches]. case_decide as Ha; [|done]. subst.
  intros H. exfalso. revert H. apply eq_true_false_abs. apply (starts_with_app (String c "") s).
Qed.

Lemma trim_start_cons c s : trim_start_matches c (String c s) = trim_start_matches c s.
Proof. cbn. by rewrite decide_True. Qed.

Lemma trim_start_idem c s : trim_start_matches c (trim_start_matches c s) = trim_start_matches c s.
Proof.
  induction s as [|a s IH]; [done|]. cbn [trim_start_matches]. case_decide as Ha; [done|].
  cbn [trim_start_matches]. by rewrite decide_False.
Qed.

Lemma trim_start_starts c s : starts_with (String c "") (trim_start_matches c s) = false.
Proof.
  induction s as [|a s IH]; [done|]. cbn [trim_start_matches]. case_decide as Ha; [done|].
  apply not_true_iff_false. by intros [r [= ->]]%starts_with_true.
Qed.

Lemma canonicalize_into_eq path zone : canonicalize_into path zone = canonicalize_mount_path path zone.
Proof.
  unfold canonicalize_into, canonicalize_mount_path. case_decide; [done|]. by rewrite <-!sapp_assoc.
Qed.

Lemma split_once_Some c l r : scontains c l = false → split_once c (l +:+ String c r) = Some (l, r).
Proof.
  induction l as [|a l IH]; intros Hl.
  - rewrite sapp_nil_l. cbn. by rewrite decide_True.
  - rewrite sapp_cons. cbn [scontains split_once] in *. apply orb_false_iff in Hl as [Ha Hl].
    apply bool_decide_eq_false in Ha. by rewrite decide_False, IH.
Qed.

Lemma split_once_None c s : scontains c s = false → split_once c s = None.
Proof.
  induction s as [|a s IH]; [done|]. cbn [scontains split_once]. intros [Ha Hs]%orb_false_iff.
  apply bool_decide_eq_false in Ha. by rewrite decide_False, IH.
Qed.

(** A zone id as the registry admits it: not empty, without slashes. *)
Definition zone_ok (zone : string) : Prop := zone ≠ "" ∧ scontains "/" zone = false.

Lemma zone_no_slash zone s : zone_ok zone → starts_with "/" (zone +:+ s) = false.
Proof.
  intros [Hne Hs]. destruct zone as [|a zone]; [done|]. rewrite sapp_cons. apply not_true_iff_false.
  intros [r [= -> _]]%starts_with_true. by cbn in Hs.
Qed.

(** The zone of a key below which something follows. *)
Lemma extract_zone zone rest :
  zone_ok zone → extract_zone_from_canonical ("/" +:+ zone +:+ "/" +:+ rest) = (zone, "/" +:+ rest).
Proof.
  intros Hz. unfold extract_zone_from_canonical.
  change ("/" +:+ zone +:+ "/" +:+ rest) with (String "/" (zone +:+ String "/" rest)).
  rewrite trim_start_cons, trim_start_no by (by apply zone_no_slash). by rewrite split_once_Some by apply Hz.
Qed.

Lemma extract_zone_root zone : zone_ok zone → extract_zone_from_canonical ("/" +:+ zone) = (zone, "/").
Proof.
  intros Hz. unfold extract_zone_from_canonical. change ("/" +:+ zone) with (String "/" zone).
  rewrite trim_start_cons, trim_start_no.
  - by rewrite split_once_None by apply Hz.
  - pose proof (zone_no_slash zone "" Hz) as H. by rewrite sapp_nil_r in H.
Qed.

(** A zone-canonical mount key is read back: the zone and the mount point, with
    its leading slashes reduced to one, are recovered from the key, so mounts of
    different zones or at different paths never share an entry. *)
Theorem canonical_key_roundtrip path zone path' zone'
    (Hzone : zone_ok zone) (Hzone' : zone_ok zone') :
  extract_zone_from_canonical (canonicalize_mount_path path zone)
    = (zone, "/" +:+ trim_start_matches "/" path) ∧
  (canonicalize_mount_path path zone = canonicalize_mount_path path' zone' →
   zone = zone' ∧ trim_start_matches "/" path = trim_start_matches "/" path').
Proof.
  assert (∀ p z, zone_ok z → extract_zone_from_canonical (canonicalize_mount_path p z)
    = (z, "/" +:+ trim_start_matches "/" p)) as H.
  { intros p z Hz. unfold canonicalize_mount_path. case_decide as Ht.
    - rewrite extract_zone_root by done. by rewrite Ht.
    - by apply extract_zone. }
  split; [by apply H|]. intros He. pose proof (H path zone Hzone) as H1. rewrite He, H in H1 by done.
  injection H1 as H1 H2. done.
Qed.

Lemma canonical_key_roundtrip_witness :
  extract_zone_from_canonical (canonicalize_mount_path "//docs/a" "lab") = ("lab", "/docs/a").
Proof. by apply (canonical_key_roundtrip "//docs/a" "lab" "/" "root"). Defined.

(** ** Longest prefix *)

(** [k] is [p] or a strict ancestor of it. *)
Definition at_or_above (k p : string) : Prop := k = p ∨ strict_ancestor k p.

Section routing.
Context {Backend Metastore : Type}.
Context (as_cas : Backend → bool) (coherence_key : Metastore → option N).
Abbreviation MountEntry := (@MountEntry Backend Metastore).
Abbreviation VFSRouter := (gmap string MountEntry).
Implicit Types (t : VFSRouter) (e : MountEntry).

Fixpoint first_hit t (ks : list string) : option (string * MountEntry) :=
  match ks with
  | [] => None
  | k :: ks => match t !! k with Some e => Some (k, e) | None => first_hit t ks end
  end.

Lemma route_loop_first fuel t canonical current zone :
  starts_with "/" current = true → (String.length current < fuel)%nat →
  route_loop (S fuel) t canonical current zone
    = (λ ke, route_to canonical ke.1 zone ke.2) <$>
        first_hit t (current :: if decide (current = "/") then [] else ancestors_loop fuel current).
Proof.
  revert current. induction fuel as [|fuel IH]; intros cur Hs Hf; [lia|].
  remember (S fuel) as n eqn:Hn. cbn [route_loop first_hit]. subst n. destruct (t !! cur) as [e|]; [done|].
  case_decide as Hroot; [done|]. cbn [ancestors_loop].
  destruct (rsplit_once "/" cur) as [[l r]|] eqn:E.
  2: { apply rsplit_once_None in E. apply starts_with_true in Hs as [r ->]. by rewrite scontains_app in E. }
  apply rsplit_once_Some in E as [He Hr]. destruct l as [|a l].
  - rewrite decide_True by done. rewrite IH; [done|done|].
    rewrite sapp_nil_l in He. subst cur. destruct r as [|b r]; [done|]. cbn [String.length] in *. lia.
  - rewrite decide_False by done. rewrite IH.
    + cbn [first_hit]. case_decide as Hl; [|done]. destruct (t !! String a l) as [e|] eqn:El; [done|].
      rewrite Hl in *. destruct fuel as [|fuel]; [done|].
      change (ancestors_loop (S fuel) "/") with ["/"]. cbn [first_hit]. by rewrite El.
    + rewrite He in Hs. change (String "/" r) with ("/" +:+ r) in Hs. by rewrite starts_with_slash_app in Hs.
    + rewrite He, slen_app in Hf. cbn [String.length] in *. lia.
Qed.

Lemma ancestors_loop_shorter fuel cur a :
  cur ≠ "" → a ∈ ancestors_loop fuel cur → (String.length a ≤ String.length cur)%nat.
Proof.
  revert cur. induction fuel as [|fuel IH]; intros cur Hc; [by intros ?%elem_of_nil|]. cbn [ancestors_loop].
  destruct (rsplit_once "/" cur) as [[l r]|] eqn:E; [|by intros ?%elem_of_nil].
  apply rsplit_once_Some in E as [-> _]. rewrite slen_app. cbn [String.length]. case_decide as Hl.
  - intros ->%list_elem_of_singleton. cbn. lia.
  - intros [->|Ha]%elem_of_cons; [lia|]. apply IH in Ha; [lia|done].
Qed.

Lemma first_hit_longest t fuel cur k e k' :
  cur ≠ "" → first_hit t (cur :: ancestors_loop fuel cur) = Some (k, e) →
  k' ∈ cur :: ancestors_loop fuel cur → is_Some (t !! k') → (String.length k' ≤ String.length k)%nat.
Proof.
  revert cur. induction fuel as [|fuel IH]; intros cur Hc; cbn [first_hit ancestors_loop];
    destruct (t !! cur) as [e'|] eqn:El.
  - intros [= <- <-] ->%list_elem_of_singleton _. done.
  - done.
  - intros [= <- _] Hk _. apply elem_of_cons in Hk as [->|Hk]; [done|].
    by apply (ancestors_loop_shorter (S fuel)).
  - destruct (rsplit_once "/" cur) as [[l r]|] eqn:E; [|done]. case_decide as Hl.
    + cbn [first_hit]. destruct (t !! "/") eqn:Er; [|done]. intros [= <- <-] Hk [e'' Hk'].
      apply elem_of_cons in Hk as [->|Hk%list_elem_of_singleton]; [congruence|by subst].
    + intros Hh Hk Hs. apply elem_of_cons in Hk as [->|Hk]; [by rewrite El in Hs; destruct Hs|].
      by apply (IH l).
Qed.

Lemma first_hit_Some t ks k e : first_hit t ks = Some (k, e) → k ∈ ks ∧ t !! k = Some e.
Proof.
  induction ks as [|k' ks IH]; [done|]. cbn [first_hit]. destruct (t !! k') eqn:El.
  - intros [= <- <-]. split; [left|done].
  - intros [Hk He]%IH. split; [by right|done].
Qed.

Lemma first_hit_None t ks : first_hit t ks = None → ∀ k, k ∈ ks → t !! k = None.
Proof.
  induction ks as [|k' ks IH]; intros H k Hk; [by apply elem_of_nil in Hk|]. cbn [first_hit] in H.
  destruct (t !! k') eqn:El; [done|]. apply elem_of_cons in Hk as [->|Hk]; [done|]. by apply IH.
Qed.

Lemma canonical_slash path zone : starts_with "/" (canonicalize_mount_path path zone) = true.
Proof. unfold canonicalize_mount_path. case_decide; apply (starts_with_app "/"). Qed.

(** The deepest mount at or above a canonical path. *)
Definition deepest t (canonical k : string) e : Prop :=
  t !! k = Some e ∧ at_or_above k canonical ∧
  ∀ k', is_Some (t !! k') → at_or_above k' canonical → (String.length k' ≤ String.length k)%nat.

Lemma route_in_zone_spec t path zone :
  let canonical := canonicalize_mount_path path zone in
  match route_in_zone t path zone with
  | Some r => ∃ e, deepest t canonical (rr_mount_point r) e ∧
      r = route_to canonical (rr_mount_point r) zone e
  | None => ∀ k, at_or_above k canonical → t !! k = None
  end.
Proof.
  intros canonical. unfold route_in_zone. rewrite canonicalize_into_eq. fold canonical.
  pose proof (canonical_slash path zone) as Hs. fold canonical in Hs.
  assert (canonical ≠ "") as Hne by (intros Hc; by rewrite Hc in Hs).
  rewrite route_loop_first by (done || lia).
  assert (∀ k, at_or_above k canonical ↔
    k ∈ canonical :: (if decide (canonical = "/") then [] else ancestors_loop (S (String.length canonical)) canonical))
    as Helem.
  { intros k. unfold at_or_above. rewrite <-elem_of_ancestors, elem_of_cons. unfold ancestors.
    destruct (decide (canonical = "/")) as [->|Hr]; [by rewrite decide_True by auto|].
    rewrite decide_False by tauto. by rewrite (ancestors_loop_fuel (S _) (String.length canonical)) by lia. }
  destruct (first_hit _ _) as [[k e]|] eqn:Hf; cbn.
  - destruct (first_hit_Some _ _ _ _ Hf) as [Hk He]. exists e. split; [|done]. split_and!; [done|by apply Helem|].
    intros k' Hk' Ha%Helem. case_decide as Hr.
    + apply list_elem_of_singleton in Ha as ->. apply list_elem_of_singleton in Hk as ->. done.
    + by eapply first_hit_longest.
  - intros k Ha%Helem. by eapply first_hit_None.
Qed.

(** ** Zones do not leak *)

(** Every key of the table is the canonical key of some zone's mount. *)
Definition keys_ok t : Prop :=
  ∀ k, is_Some (t !! k) → ∃ path zone, zone_ok zone ∧ k = canonicalize_mount_path path zone.

Lemma canonical_shape path zone :
  canonicalize_mount_path path zone = "/" +:+ zone ∨
  ∃ rest, canonicalize_mount_path path zone = "/" +:+ zone +:+ "/" +:+ rest.
Proof. unfold canonicalize_mount_path. case_decide; eauto. Qed.

Lemma above_same_zone path zone path' zone' :
  zone_ok zone → zone_ok zone' →
  at_or_above (canonicalize_mount_path path' zone') (canonicalize_mount_path path zone) → zone' = zone.
Proof.
  intros Hz Hz'. assert (∀ p z, zone_ok z → (extract_zone_from_canonical (canonicalize_mount_path p z)).1 = z) as Hx.
  { intros p z Hok. destruct (canonical_shape p z) as [->|[rest ->]];
      [by rewrite extract_zone_root|by rewrite extract_zone]. }
  intros [He|[(Hr & _)|(Hne & r & Hr)]].
  - rewrite <-(Hx path' zone'), <-(Hx path zone) by done. by rewrite He.
  - exfalso. destruct Hz' as [Hne _]. destruct (canonical_shape path' zone') as [E|[rest E]]; rewrite E in Hr;
      (destruct zone' as [|a zone']; [done|]); by rewrite sapp_cons in Hr.
  - rewrite <-(Hx path zone) by done. rewrite Hr. destruct (canonical_shape path' zone') as [->|[rest ->]].
    + rewrite <-sapp_assoc. by rewrite extract_zone.
    + replace (("/" +:+ zone' +:+ "/" +:+ rest) +:+ "/" +:+ r)
        with ("/" +:+ zone' +:+ "/" +:+ (rest +:+ "/" +:+ r)) by (by rewrite <-!sapp_assoc).
      by rewrite extract_zone.
Qed.

Lemma deepest_zone t path zone k e :
  zone_ok zone → keys_ok t → deepest t (canonicalize_mount_path path zone) k e →
  ∃ mount_point, k = canonicalize_mount_path mount_point zone.
Proof.
  intros Hz Hk (He & Ha & _). destruct (Hk k) as (path' & zone' & Hz' & ->); [eauto|].
  apply above_same_zone in Ha as ->; [by exists path'|done..].
Qed.

(** The zones whose mounts a call from [zone] may use: its own, the root zone when
    it has no mount for the path, and the target of the mount found there. *)
Inductive may_route t (path zone : string) : string → Prop :=
  | own_zone : may_route t path zone zone
  | root_zone : (∀ k, at_or_above k (canonicalize_mount_path path zone) → t !! k = None) →
      may_route t path zone ROOT_ZONE_ID
  | target_zone z k e target : may_route t path zone z →
      deepest t (canonicalize_mount_path path z) k e → me_target_zone_id e = Some target →
      may_route t path zone target.

Definition targets_ok t : Prop := ∀ k e z, t !! k = Some e → me_target_zone_id e = Some z → zone_ok z.

Lemma may_route_zone_ok t path zone z : zone_ok zone → targets_ok t → may_route t path zone z → zone_ok z.
Proof. intros Hz Ht. induction 1 as [| |z k e target _ _ (He & _) Htg]; [done|done|by eapply Ht]. Qed.

(** Routes as [route] returns them. *)
Definition good_route t path zone (r : RouteResult) : Prop :=
  ∃ z e, may_route t path zone z ∧ deepest t (canonicalize_mount_path path z) (rr_mount_point r) e ∧
    r = route_to (canonicalize_mount_path path z) (rr_mount_point r) z e.

Lemma route_in_zone_good t path zone z r :
  may_route t path zone z → route_in_zone t path z = Some r → good_route t path zone r.
Proof.
  intros Hm Hr. pose proof (route_in_zone_spec t path z) as H. cbv zeta in H. rewrite Hr in H.
  destruct H as (e & Hd & He). by exists z, e.
Qed.

Lemma initial_good t path zone r :
  match route_in_zone t path zone with
  | Some r => Some r
  | None => if decide (zone ≠ ROOT_ZONE_ID) then route_in_zone t path ROOT_ZONE_ID else None
  end = Some r → good_route t path zone r.
Proof.
  pose proof (route_in_zone_spec t path zone) as H. cbv zeta in H.
  destruct (route_in_zone t path zone) as [r0|] eqn:E0.
  - intros [= <-]. by apply (route_in_zone_good t path zone zone); [apply own_zone|].
  - case_decide; [|done]. by apply route_in_zone_good, root_zone.
Qed.

Lemma route_good t path zone r : route t path zone = Some r → good_route t path zone r.
Proof.
  unfold route. destruct (match route_in_zone t path zone with Some _ => _ | None => _ end) as [r0|] eqn:E;
    [|done]. apply initial_good in E as Hg. clear E. cbn [mbind option_bind].
  case_decide as Hz; [|by intros [= <-]].
  destruct (route_in_zone t path (rr_zone_id r0)) as [d|] eqn:Ed; [|by intros [= <-]].
  case_decide; [|by intros [= <-]]. intros [= <-].
  apply (route_in_zone_good t path zone (rr_zone_id r0)); [|done].
  destruct Hg as (z & e & Hm & Hd & Hr). rewrite Hr. cbn [rr_zone_id route_to].
  destruct (me_target_zone_id e) as [target|] eqn:Ht; [|done]. by eapply target_zone.
Qed.

(** C27: Routing is longest-prefix matching over whole path components, confined to
    the zones the caller may use: a route is the deepest mount at or above the
    path in the caller's own zone, in the root zone if its own has none for the
    path, or in a zone one of these mounts points into, is keyed in that zone and
    carries that entry's slots; a path has no route exactly when neither the
    caller's zone nor the root zone has a mount at or above it. *)
Theorem route_deepest_mount t path zone
    (Hkeys : keys_ok t) (Htargets : targets_ok t) (Hzone : zone_ok zone) :
  match route t path zone with
  | Some r => ∃ z e mount_point, may_route t path zone z ∧
      rr_mount_point r = canonicalize_mount_path mount_point z ∧
      deepest t (canonicalize_mount_path path z) (rr_mount_point r) e ∧
      r = route_to (canonicalize_mount_path path z) (rr_mount_point r) z e
  | None => ∀ z k, z = zone ∨ z = ROOT_ZONE_ID →
      at_or_above k (canonicalize_mount_path path z) → t !! k = None
  end.
Proof.
  destruct (route t path zone) as [r|] eqn:Hr.
  - destruct (route_good _ _ _ _ Hr) as (z & e & Hm & Hd & He).
    destruct (deepest_zone t path z _ e (may_route_zone_ok _ _ _ _ Hzone Htargets Hm) Hkeys Hd) as [mp Hmp].
    by exists z, e, mp.
  - unfold route in Hr. pose proof (route_in_zone_spec t path zone) as H1.
    pose proof (route_in_zone_spec t path ROOT_ZONE_ID) as H2. cbv zeta in H1, H2.
    destruct (route_in_zone t path zone) as [r0|]; cbn [mbind option_bind] in Hr.
    { case_decide; [|done]. destruct (route_in_zone t path (rr_zone_id r0)); [case_decide|]; done. }
    intros z k [->| ->] Hk; [by apply H1|]. case_decide as Hne.
    + destruct (route_in_zone t path ROOT_ZONE_ID) as [r1|]; [|by apply H2].
      cbn [mbind option_bind] in Hr. case_decide; [|done].
      destruct (route_in_zone t path (rr_zone_id r1)); [case_decide|]; done.
    + subst zone. by apply H1.
Qed.

(** ** The two slots of an entry *)

(** The backend side and the metastore of a mount are independent slots:
    registering a mount and installing a metastore, on the same key or on
    different ones, give the same table in either order. *)
Theorem mount_slots_commute t mount_point zone e key ms
    (Hslot : me_metastore e = None) :
  router_add mount_point zone e (install_metastore as_cas key ms t)
    = install_metastore as_cas key ms (router_add mount_point zone e t).
Proof.
  unfold router_add, install_metastore. set (c := canonicalize_mount_path mount_point zone).
  destruct (decide (key = c)) as [->|Hne].
  - destruct (t !! c) as [occ|]; rewrite !lookup_insert_eq, !insert_insert_eq; by destruct e.
  - destruct (t !! key) as [occ|] eqn:Ek, (t !! c) as [occ'|] eqn:Ec;
      rewrite !lookup_insert_ne by done; rewrite Ek, Ec; by rewrite insert_insert_ne.
Qed.

(** ** Well-formed tables *)

Definition backend_cas (b : option Backend) : bool := match b with Some b => as_cas b | None => false end.

(** The cached content-addressing flag is that of the backend, and a subtree is
    recorded only when it is a proper part of the zone. *)
Definition entry_ok e : Prop :=
  me_is_cas e = backend_cas (me_backend e) ∧
  me_target_subtree e ≠ Some "" ∧ me_target_subtree e ≠ Some "/".

Definition router_ok t : Prop := map_Forall (λ _ e, entry_ok e) t ∧ keys_ok t ∧ targets_ok t.

(** The writes of the table. *)
Inductive RouterOp :=
  | OpMount (mount_point zone : string) (backend : option Backend) (metastore : option Metastore)
      (is_external : bool)
  | OpFederationMount (mount_point zone : string) (backend : option Backend)
      (target_zone target_subtree : string) (is_external : bool)
  | OpRemove (mount_point zone : string)
  | OpInstall (mount_point zone : string) (metastore : Metastore).

Definition router_step (op : RouterOp) t : VFSRouter :=
  match op with
  | OpMount mp z b ms x => kernel_add_mount as_cas mp z b ms x t
  | OpFederationMount mp z b tz ts x => add_federation_mount as_cas mp z b tz ts x t
  | OpRemove mp z => (router_remove mp z t).2
  | OpInstall mp z ms => install_metastore as_cas (canonicalize_mount_path mp z) ms t
  end.

Definition op_ok (op : RouterOp) : Prop :=
  match op with
  | OpMount _ z _ _ _ | OpRemove _ z | OpInstall _ z _ => zone_ok z
  | OpFederationMount _ z _ tz _ _ => zone_ok z ∧ zone_ok tz
  end.

Definition insert_ok e : Prop := entry_ok e ∧ ∀ z, me_target_zone_id e = Some z → zone_ok z.

Lemma router_ok_insert t mount_point zone e :
  router_ok t → zone_ok zone → insert_ok e →
  router_ok (<[canonicalize_mount_path mount_point zone := e]> t).
Proof.
  intros (Hm & Hk & Ht) Hz [He Htz]. split_and!.
  - by apply map_Forall_insert_2.
  - intros k [e' [[<- _]|[_ Hl]]%lookup_insert_Some]; [by eexists _, _|by apply Hk].
  - intros k e' z [[_ <-]|[_ Hl]]%lookup_insert_Some; [by apply Htz|by eapply Ht].
Qed.

Lemma router_ok_lookup t k e : router_ok t → t !! k = Some e → insert_ok e.
Proof. intros (Hm & _ & Ht) He. split; [by apply (Hm k)|]. intros z Hz. by eapply Ht. Qed.

Lemma router_ok_add t mount_point zone e :
  router_ok t → zone_ok zone → insert_ok e → router_ok (router_add mount_point zone e t).
Proof. intros Ht Hz He. unfold router_add. destruct (t !! _); by apply router_ok_insert. Qed.

Lemma router_ok_install t mount_point zone ms :
  router_ok t → zone_ok zone →
  router_ok (install_metastore as_cas (canonicalize_mount_path mount_point zone) ms t).
Proof.
  intros Ht Hz. unfold install_metastore. destruct (t !! _) as [occ|] eqn:E; apply router_ok_insert; try done.
  by apply (router_ok_lookup t _ occ) in E.
Qed.

Lemma router_ok_rebind t b should : router_ok t → router_ok (rebind_missing_backends as_cas b should t).2.
Proof.
  intros (Hm & Hk & Ht). unfold rebind_missing_backends. cbn [snd]. split_and!.
  - intros k e. rewrite lookup_fmap. intros (e' & He & ->)%fmap_Some. apply Hm in He. unfold rebind_entry.
    destruct (should e'); [|done]. split; [done|apply He].
  - intros k Hs. apply Hk. rewrite lookup_fmap in Hs. by destruct (t !! k).
  - intros k e z. rewrite lookup_fmap. intros (e' & He & ->)%fmap_Some. unfold rebind_entry.
    destruct (should e'); cbn; intros Hz; by eapply Ht.
Qed.

Lemma new_entry_ok b x : insert_ok (with_is_external x (mount_entry_new as_cas b)).
Proof. by split; [split_and!|]. Qed.

Lemma router_step_ok op t : op_ok op → router_ok t → router_ok (router_step op t).
Proof.
  intros Hop Ht. destruct op as [mp z b ms x|mp z b tz ts x|mp z|mp z ms]; cbn [router_step op_ok] in *.
  - unfold kernel_add_mount. set (t1 := add_mount as_cas mp z b x t).
    assert (router_ok t1) as H1 by (apply router_ok_add; [done|done|apply new_entry_ok]).
    assert (router_ok (match ms with
        | Some ms => install_metastore as_cas (canonicalize_mount_path mp z) ms t1 | None => t1 end)) as H2
      by (destruct ms; [by apply router_ok_install|done]).
    destruct b as [b|]; [|exact H2]. case_decide; [by apply router_ok_rebind|exact H2].
  - apply router_ok_add; [done|apply Hop|]. split; [|cbn; intros z' [= <-]; apply Hop].
    unfold entry_ok. cbn. case_decide as Hts; split_and!; naive_solver.
  - destruct Ht as (Hm & Hk & Htz). unfold router_remove. cbn [snd]. split_and!.
    + by apply map_Forall_delete.
    + intros k [e [_ He]%lookup_delete_Some]. apply Hk. eauto.
    + intros k e z' [_ He]%lookup_delete_Some. by eapply Htz.
  - by apply router_ok_install.
Qed.

Lemma router_ok_empty : router_ok (∅ : VFSRouter).
Proof.
  split_and!; [apply map_Forall_empty| |].
  - intros k [e He]. by rewrite lookup_empty in He.
  - intros k e z He. by rewrite lookup_empty in He.
Qed.

Lemma router_steps_ok ops t :
  Forall op_ok ops → router_ok t → router_ok (foldl (λ t op, router_step op t) t ops).
Proof.
  intros Hops. revert t. induction Hops as [|op ops Hop _ IH]; intros t Ht; [done|].
  cbn. by apply IH, router_step_ok.
Qed.

(** Every table the kernel can build is well formed: after any sequence of
    mounts (with the rebinding of stranded federation mounts), federation mounts,
    removals and metastore installations, each key is the canonical key of a
    zone's mount, each target is a zone, the cached content-addressing flag of an
    entry is that of its backend, and whole-zone subtrees are stored as none. *)
Theorem router_table_ok ops (Hops : Forall op_ok ops) : router_ok (foldl (λ t op, router_step op t) ∅ ops).
Proof. by apply router_steps_ok, router_ok_empty. Qed.
End routing.

(** ** Paths through mounts *)

(** The caller's path of [r] below a mount; [r] is relative and has no leading
    slash. *)
Definition below_mount (mount r : string) : string :=
  if decide (r = "") then mount else if decide (mount = "/") then "/" +:+ r else mount +:+ "/" +:+ r.

Lemma trim_start_slash r : starts_with "/" r = false → trim_start_matches "/" ("/" +:+ r) = r.
Proof. intros H. change ("/" +:+ r) with (String "/" r). rewrite trim_start_cons. by apply trim_start_no. Qed.

Lemma app_ne s t : t ≠ "" → s +:+ t ≠ s.
Proof. intros Ht He. apply (f_equal String.length) in He. rewrite slen_app in He. destruct t; [done|]. cbn in He. lia. Qed.

Lemma under_below mount r : starts_with "/" r = false → under_mount (below_mount mount r) mount = r.
Proof.
  intros Hr. unfold under_mount, below_mount. destruct (decide (r = "")) as [->|Hne]; [by rewrite decide_True|].
  destruct (decide (mount = "/")) as [->|Hm].
  - rewrite decide_False by (by apply app_ne). by apply trim_start_slash.
  - rewrite decide_False by (by apply app_ne).
    rewrite (proj2 (Nat.leb_le _ _)) by (rewrite slen_app; lia). rewrite sdrop_app. by apply trim_start_slash.
Qed.

(** A declared subtree: none for the whole zone. *)
Definition subtree_ok (subtree : option string) : Prop :=
  ∀ s, subtree = Some s → ∃ s', s = "/" +:+ s' ∧ s' ≠ "" ∧ starts_with "/" s' = false.

(** The zone-relative key of a path is read back through the mount: whatever
    part of a zone a mount exposes, turning a caller's path below the mount into
    the key in the zone and projecting that key through the same mount gives the
    path again. *)
Theorem zone_path_roundtrip mount subtree r
    (Hmount : mount ≠ "") (Hsub : subtree_ok subtree) (Hr : starts_with "/" r = false) :
  project_zone_key mount (default "/" subtree)
    ("/" +:+ zone_relative_path (below_mount mount r) mount subtree) = Some (below_mount mount r).
Proof.
  unfold zone_relative_path. rewrite under_below by done. unfold project_zone_key.
  assert (∀ relative, relative = "/" +:+ r →
    Some (if decide (mount = "" ∨ mount = "/") then relative
          else if decide (relative = "/") then mount else mount +:+ relative) = Some (below_mount mount r)) as Hout.
  { intros relative ->. unfold below_mount. f_equal. destruct (decide (mount = "/")) as [->|Hm].
    - rewrite decide_True by auto. by destruct (decide (r = "")) as [->|].
    - rewrite decide_False by tauto. destruct (decide (r = "")) as [->|Hne].
      + by rewrite decide_True.
      + rewrite decide_False; [done|]. by apply app_ne. }
  destruct subtree as [s|]; cbn [default from_option].
  2: { rewrite decide_True by auto. by apply Hout. }
  destruct (Hsub s eq_refl) as (s' & -> & Hs & Hs'). rewrite trim_start_slash, (decide_False (P := s' = "")) by done.
  rewrite decide_False by (intros [?|?]; [done|by apply (app_ne "/" s')]).
  destruct (decide (r = "")) as [->|Hne].
  - rewrite decide_True by done. by apply Hout.
  - rewrite decide_False.
    + rewrite sapp_assoc, strip_prefix_app. cbn [mbind option_bind]. by apply Hout.
    + rewrite sapp_assoc. by apply app_ne.
Qed.

Lemma zone_path_roundtrip_witness :
  project_zone_key "/peer/a" "/agents"
    ("/" +:+ zone_relative_path (below_mount "/peer/a" "win/x") "/peer/a" (Some "/agents"))
    = Some "/peer/a/win/x".
Proof.
  apply (zone_path_roundtrip "/peer/a" (Some "/agents") "win/x"); [done| |done].
  intros s [= <-]. by exists "agents".
Defined.

Lemma component_prefix x x' :
  starts_with (x +:+ "/") (x' +:+ "/") = true → at_or_above ("/" +:+ x) ("/" +:+ x').
Proof.
  intros [z Hz]%starts_with_true. destruct (decide (z = "")) as [->|Hne].
  { rewrite sapp_nil_r in Hz. apply sapp_inj_r in Hz as ->. by left. }
  assert (ends_with "/" z = true) as [w ->]%ends_with_true.
  { rewrite <-(ends_with_slash_app (x +:+ "/") z), <-Hz by done. apply ends_with_true. by exists x'. }
  right. right. split; [done|]. exists w. rewrite sapp_assoc in Hz. apply sapp_inj_r in Hz as ->.
  by rewrite <-!sapp_assoc.
Qed.

(** Mounts that expose separate subtrees of one zone never meet: if two paths,
    through whatever mounts, get the same zone-relative location, then one of the
    two declared subtrees is the other or lies above it. *)
Theorem subtrees_keep_apart path1 mount1 path2 mount2 s1 s2
    (H1 : subtree_ok (Some s1)) (H2 : subtree_ok (Some s2))
    (Hsame : zone_relative_path path1 mount1 (Some s1) = zone_relative_path path2 mount2 (Some s2)) :
  at_or_above s1 s2 ∨ at_or_above s2 s1.
Proof.
  destruct (H1 s1 eq_refl) as (x1 & -> & Hx1 & Hs1), (H2 s2 eq_refl) as (x2 & -> & Hx2 & Hs2).
  assert (∀ path mount x, x ≠ "" → starts_with "/" x = false →
    ∃ y, zone_relative_path path mount (Some ("/" +:+ x)) +:+ "/" = (x +:+ "/") +:+ y) as Hshape.
  { intros path mount x Hx Hs. unfold zone_relative_path. rewrite trim_start_slash, decide_False by done.
    destruct (decide (under_mount path mount = "")).
    - exists "". by rewrite sapp_nil_r.
    - eexists. by rewrite <-!sapp_assoc. }
  destruct (Hshape path1 mount1 x1 Hx1 Hs1) as [y1 Hy1], (Hshape path2 mount2 x2 Hx2 Hs2) as [y2 Hy2].
  rewrite Hsame, Hy2 in Hy1. clear Hsame Hy2 Hshape.
  destruct (starts_with_total (x1 +:+ "/") (x2 +:+ "/") ((x2 +:+ "/") +:+ y2)); [|by rewrite starts_with_app| |].
  1: by rewrite Hy1, starts_with_app.
  1: by left; apply component_prefix.
  by right; apply component_prefix.
Qed.

Lemma subtrees_keep_apart_witness : at_or_above "/agents" "/agents/win" ∨ at_or_above "/agents/win" "/agents".
Proof.
  apply (subtrees_keep_apart "/a/win/x" "/a" "/b/x" "/b" "/agents" "/agents/win").
  - intros s [= <-]. by exists "agents".
  - intros s [= <-]. by exists "agents/win".
  - reflexivity.
Defined.

(** ** A small table

    Backends are booleans (content addressed or not), metastores are numbers. *)

Definition demo_ops : list (@RouterOp bool N) :=
  [ OpFederationMount "/shared" "root" None "team" "/docs" false;
    OpInstall "/shared" "root" 7%N;
    OpMount "/" "root" (Some true) None false;
    OpMount "/shared/fast" "team" (Some false) None false ].

Definition demo_table : gmap string (@MountEntry bool N) :=
  foldl (λ t op, router_step id op t) ∅ demo_ops.

Lemma router_demo_ok : Forall op_ok demo_ops.
Proof. by repeat (apply Forall_cons; split; [|]). Qed.

Lemma router_table_ok_witness : router_ok id demo_table.
Proof. apply (router_table_ok id demo_ops router_demo_ok). Defined.

Lemma demo_table_ok : router_ok id demo_table.
Proof. apply router_steps_ok; [apply router_demo_ok|apply router_ok_empty]. Qed.

Lemma mount_slots_commute_witness :
  router_add "/" "root" (mount_entry_new id (Some true)) (install_metastore id "/root" 7%N demo_table)
    = install_metastore id "/root" 7%N (router_add "/" "root" (mount_entry_new id (Some true)) demo_table).
Proof. apply (mount_slots_commute id demo_table "/" "root" (mount_entry_new id (Some true)) "/root" 7%N eq_refl). Defined.

(** A path below the shared mount goes on to the deeper mount of the target zone. *)
Lemma route_deepest_mount_witness :
  match route demo_table "/shared/fast/x" "root" with
  | Some r => ∃ z e mount_point, may_route demo_table "/shared/fast/x" "root" z ∧
      rr_mount_point r = canonicalize_mount_path mount_point z ∧
      deepest demo_table (canonicalize_mount_path "/shared/fast/x" z) (rr_mount_point r) e ∧
      r = route_to (canonicalize_mount_path "/shared/fast/x" z) (rr_mount_point r) z e
  | None => ∀ z k, z = "root" ∨ z = ROOT_ZONE_ID →
      at_or_above k (canonicalize_mount_path "/shared/fast/x" z) → demo_table !! k = None
  end.
Proof.
  destruct demo_table_ok as (_ & Hk & Ht).
  apply (route_deepest_mount demo_table "/shared/fast/x" "root" Hk Ht). by split.
Defined.

(** ** The mounts below a path *)

Lemma elem_of_dedup x l : x ∈ dedup l ↔ x ∈ l.
Proof.
  induction l as [|a [|b l] IH]; [done..|]. cbn [dedup]. case_decide as E.
  - subst. rewrite IH, !elem_of_cons. naive_solver.
  - rewrite elem_of_cons, IH. symmetry. by rewrite elem_of_cons.
Qed.

Lemma dedup_cons a b l : dedup (a :: b :: l) = if decide (a = b) then dedup (b :: l) else a :: dedup (b :: l).
Proof. done. Qed.

Lemma dedup_sorted l : StronglySorted String.le l → StronglySorted String.le (dedup l) ∧ NoDup (dedup l).
Proof.
  induction 1 as [|a l Hl [IH1 IH2] Ha]; [by repeat constructor|]. destruct l as [|b l]; [repeat constructor; by intros ?%elem_of_nil|].
  rewrite dedup_cons. case_decide as E; [done|]. rewrite Forall_forall in Ha. split.
  - constructor; [done|]. apply Forall_forall. intros x. rewrite elem_of_dedup. apply Ha.
  - apply NoDup_cons. split; [|done]. rewrite elem_of_dedup, elem_of_cons. intros [|Hin]; [done|]. destruct E.
    apply (anti_symm String.le); [apply Ha; left|]. apply StronglySorted_inv in Hl as [_ Hl]. rewrite Forall_forall in Hl. by apply Hl.
Qed.

(** The listing holds exactly the mount points of the zone, or of the root zone, below
    the path, each once and in order. *)
Theorem child_mounts_exact {Backend Store} (t : gmap string (@MountEntry Backend Store)) path zone :
  let parent := trim_end "/" path in
  let needle := if decide (parent = "") then "/" else parent +:+ "/" in
  StronglySorted String.le (child_mounts_under t path zone) ∧ NoDup (child_mounts_under t path zone) ∧
  ∀ mp, mp ∈ child_mounts_under t path zone ↔
    ∃ key e mz, t !! key = Some e ∧ extract_zone_from_canonical key = (mz, mp) ∧ (mz = zone ∨ mz = ROOT_ZONE_ID) ∧ mp ≠ "/" ∧
      (parent = "" ∨ starts_with needle mp = true).
Proof.
  intros parent needle. unfold child_mounts_under. fold parent. fold needle.
  set (l := omap _ _). destruct (dedup_sorted (sort_strings l)) as [Hs Hn]; [apply (StronglySorted_merge_sort String.le)|].
  split_and!; [done..|]. intros mp. rewrite elem_of_dedup. unfold sort_strings. rewrite (merge_sort_Permutation String.le l). unfold l.
  rewrite list_elem_of_omap. unfold child_mount. split.
  - intros ([key e] & Hin%elem_of_map_to_list & Hc). cbn [fst] in Hc. destruct (extract_zone_from_canonical key) as [mz m] eqn:Hx.
    exists key, e, mz. repeat case_bool_decide; cbn in Hc; try case_decide; try case_match; simplify_eq; naive_solver.
  - intros (key & e & mz & Hk & Hx & Hz & Hm & Hp). exists (key, e). split; [by apply elem_of_map_to_list|]. cbn [fst]. rewrite Hx.
    rewrite decide_False by done. destruct Hp as [->| ->]; destruct Hz as [->| ->]; repeat case_bool_decide; done.
Qed.

(** ** Two departures from the comments *)

(** [route] says it prefers the mount of the target zone only when it is strictly
    more specific.  It only asks for a different mount point: a mount at the root
    of the target zone takes over every path below the federation mount, and the
    path is then looked up at a different place of the zone. *)
Lemma route_prefers_less_specific :
  let t := add_mount id "/" "team" (Some true) false
             (add_federation_mount id "/shared" "root" (Some true) "team" "/" false
                (∅ : gmap string (@MountEntry bool N))) in
  (rr_backend_path <$> route_in_zone t "/shared/x" "root") = Some "x" ∧
  (rr_mount_point <$> route t "/shared/x" "root") = Some "/team" ∧
  (rr_backend_path <$> route t "/shared/x" "root") = Some "shared/x".
Proof. vm_compute. split_and!; reflexivity. Qed.

(** The predicate that is meant to select exactly the federation mounts stranded
    by the boot order also selects the placeholder of a mount that lives on a
    peer (no backend, a target zone, the metastore of its parent): once the root
    backend arrives, the placeholder is bound to it and no longer goes to the peer. *)
Lemma rebind_captures_peer_placeholder :
  let placeholder := install_metastore id "/team/data" 7%N
        (add_federation_mount id "/data" "team" None "team" "/" false
           (∅ : gmap string (@MountEntry bool N))) in
  (is_federation_peer_mount <$> route placeholder "/data/x" "team") = Some true ∧
  (is_federation_peer_mount <$> route (kernel_add_mount id "/" "root" (Some true) None false placeholder)
     "/data/x" "team") = Some false.
Proof. vm_compute. split; reflexivity. Qed.
