(* ===== verification/Pipe.v ===== *)
(** * In-memory pipes

    src/rust/kernel/src/core/pipe/mod.rs: the byte ring behind DT_PIPE
    ([MemoryPipeBackend]), with one producer and one consumer at a time running
    concurrently.  Each load or store of a shared field is a step of its own
    wherever the other side could tell; writes into the ring are steps before
    the store that publishes them. *)

From S2P Require Import Prelude Bytes Codec.

(** ** The ring *)

Definition HEADER_SIZE : N := 4.

Inductive PipeError :=
  | PipeClosed (what : string)
  | PipeFull (used capacity : N)
  | PipeEmpty
  | PipeClosedEmpty
  | PipeOversized (len capacity : N).

Record MemoryPipe := mkPipe {
  ring : string;
  ring_cap : N;
  user_capacity : N;
  head : N;
  tail : N;
  closed : bool;
  push_count : N;
  pop_count : N;
  msg_count : N;
  used_bytes : N }.

Definition pipe_new (capacity : N) : MemoryPipe :=
  let ring_cap := (capacity * 2)%N in
  mkPipe (zeros (N.to_nat ring_cap)) ring_cap capacity 0 0 false 0 0 0 0.

Definition pipe_close (p : MemoryPipe) : MemoryPipe :=
  mkPipe (ring p) (ring_cap p) (user_capacity p) (head p) (tail p) true (push_count p)
    (pop_count p) (msg_count p) (used_bytes p).

Definition with_ring (r : string) (p : MemoryPipe) : MemoryPipe :=
  mkPipe r (ring_cap p) (user_capacity p) (head p) (tail p) (closed p) (push_count p)
    (pop_count p) (msg_count p) (used_bytes p).

Definition with_tail (t : N) (p : MemoryPipe) : MemoryPipe :=
  mkPipe (ring p) (ring_cap p) (user_capacity p) (head p) t (closed p) (push_count p)
    (pop_count p) (msg_count p) (used_bytes p).

Definition with_head (h : N) (p : MemoryPipe) : MemoryPipe :=
  mkPipe (ring p) (ring_cap p) (user_capacity p) h (tail p) (closed p) (push_count p)
    (pop_count p) (msg_count p) (used_bytes p).

(** ** [push] *)

(** Before the writer lock: [Some r] returns. *)
Definition push_admit (data : string) (p : MemoryPipe) : option (result PipeError N) :=
  if closed p then Some (Err (PipeClosed "write to closed pipe"))
  else if (slen data =? 0)%N then Some (Ok 0%N)
  else if (user_capacity p <? slen data)%N then Some (Err (PipeOversized (slen data) (user_capacity p)))
  else None.

(** The load of [used_bytes] and its check. *)
Definition push_full (data : string) (p : MemoryPipe) : bool :=
  (user_capacity p <? used_bytes p + slen data)%N.

(** The loads of [tail] and [head] and the space check: full, write at the tail,
    or waste the rest of the ring first. *)
Inductive PushPlan := PlanFull | PlanWrite (tail_idx : N) | PlanWrap (tail_idx contiguous : N).

Definition push_plan (data : string) (p : MemoryPipe) : PushPlan :=
  let frame_len := (HEADER_SIZE + slen data)%N in
  let tail_idx := (tail p mod ring_cap p)%N in
  let contiguous := (ring_cap p - tail_idx)%N in
  if (contiguous <? frame_len)%N then
    if (contiguous <? HEADER_SIZE)%N then PlanFull
    else if (ring_cap p <? (tail p - head p) + (contiguous + frame_len))%N then PlanFull
    else PlanWrap tail_idx contiguous
  else if (ring_cap p <? (tail p - head p) + frame_len)%N then PlanFull
  else PlanWrite tail_idx.

Definition write_sentinel (tail_idx : N) (p : MemoryPipe) : option MemoryPipe :=
  r ← overwrite tail_idx (u32_to_le 0) (ring p); Some (with_ring r p).

Definition publish (n : N) (p : MemoryPipe) : MemoryPipe := with_tail (wrap64 (tail p + n)) p.

Definition write_frame (write_idx : N) (data : string) (p : MemoryPipe) : option MemoryPipe :=
  r ← overwrite write_idx (u32_to_le (wrap32 (slen data))) (ring p);
  r ← overwrite (write_idx + HEADER_SIZE) data r;
  Some (with_ring r p).

Definition count_push (data : string) (p : MemoryPipe) : MemoryPipe :=
  mkPipe (ring p) (ring_cap p) (user_capacity p) (head p) (tail p) (closed p)
    (wrap64 (push_count p + 1)) (pop_count p) (wrap64 (msg_count p + 1))
    (wrap64 (used_bytes p + slen data)).

(** [push] run without interference; [None] is a panic. *)
Definition push (data : string) (p : MemoryPipe) : option (result PipeError N * MemoryPipe) :=
  match push_admit data p with
  | Some r => Some (r, p)
  | None =>
      let full := Err (PipeFull (used_bytes p) (user_capacity p)) in
      let frame_len := (HEADER_SIZE + slen data)%N in
      if push_full data p then Some (full, p)
      else
        match push_plan data p with
        | PlanFull => Some (full, p)
        | PlanWrite tail_idx =>
            p ← write_frame tail_idx data p;
            Some (Ok (slen data), count_push data (publish frame_len p))
        | PlanWrap tail_idx contiguous =>
            p ← write_sentinel tail_idx p;
            p ← write_frame 0 data (publish contiguous p);
            Some (Ok (slen data), count_push data (publish frame_len p))
        end
  end.

(** ** [pop] *)

(** One round of [pop_position] with the loaded [head] and [tail]. *)
Inductive PopPlan := PopNone | PopSkip (new_head : N) | PopAt (start len advance : N).

Definition pop_round (head tail : N) (p : MemoryPipe) : option PopPlan :=
  if (head =? tail)%N then Some PopNone
  else
    let head_idx := (head mod ring_cap p)%N in
    hdr ← slice_at head_idx HEADER_SIZE (ring p);
    let payload_len := le_val hdr in
    Some (if (payload_len =? 0)%N then PopSkip (wrap64 (head + (ring_cap p - head_idx)))
          else PopAt (head_idx + HEADER_SIZE) payload_len (HEADER_SIZE + payload_len)).

Definition advance_head (advance : N) (p : MemoryPipe) : MemoryPipe :=
  with_head (wrap64 (head p + advance)) p.

Definition count_pop (len : N) (p : MemoryPipe) : MemoryPipe :=
  mkPipe (ring p) (ring_cap p) (user_capacity p) (head p) (tail p) (closed p) (push_count p)
    (wrap64 (pop_count p + 1)) (wrap64 (msg_count p + (U64_MOD - 1)))
    (wrap64 (used_bytes p + (U64_MOD - len))).

(** [pop] run without interference.  A skip takes the head to the start of the
    ring, so rounds are bounded by the messages; fuel as many as the ring has
    bytes and one more is enough. *)
Fixpoint pop_loop (fuel : nat) (tail : N) (p : MemoryPipe) :
    option (result PipeError string * MemoryPipe) :=
  match fuel with
  | O => None
  | S fuel =>
      plan ← pop_round (head p) tail p;
      match plan with
      | PopNone => Some (Err (if closed p then PipeClosedEmpty else PipeEmpty), p)
      | PopSkip h => pop_loop fuel tail (with_head h p)
      | PopAt start len advance =>
          data ← slice_at start len (ring p);
          Some (Ok data, count_pop len (advance_head advance p))
      end
  end.

Definition pop (p : MemoryPipe) : option (result PipeError string * MemoryPipe) :=
  pop_loop (S (N.to_nat (ring_cap p))) (tail p) p.

(** ** Producer and consumer *)

Inductive PushPc :=
  | PushIdle
  | PushLocked (data : string)
  | PushChecked (data : string)
  | PushSentinel (data : string) (tail_idx contiguous : N)
  | PushSkip (data : string) (contiguous : N)
  | PushFrame (data : string) (write_idx : N)
  | PushPublish (data : string)
  | PushCount (data : string)
  | PushPanic.

Inductive PopPc :=
  | PopIdle
  | PopLoaded (head tail : N)
  | PopFound (start len advance : N)
  | PopCopied (data : string) (len advance : N)
  | PopCount (data : string) (len : N)
  | PopPanic.

(** The two sides, with the messages published and taken so far. *)
Record PipeSystem := mkPipeSystem {
  ps_pipe : MemoryPipe;
  ps_push : PushPc;
  ps_pop : PopPc;
  ps_pushed : list string;
  ps_popped : list string }.

Definition plan_pc (data : string) (plan : PushPlan) : PushPc :=
  match plan with
  | PlanFull => PushIdle
  | PlanWrite tail_idx => PushFrame data tail_idx
  | PlanWrap tail_idx contiguous => PushSentinel data tail_idx contiguous
  end.

Definition round_pc (tail : N) (plan : PopPlan) (p : MemoryPipe) : PopPc * MemoryPipe :=
  match plan with
  | PopNone => (PopIdle, p)
  | PopSkip h => (PopLoaded h tail, with_head h p)
  | PopAt start len advance => (PopFound start len advance, p)
  end.

(** Steps.  A producer that has passed [push_admit] holds the writer lock even if
    the pipe is closed meanwhile.  The monotonic counters stay below the width of
    [usize]: the premise of [step_plan]. *)
Inductive pipe_step : PipeSystem → PipeSystem → Prop :=
  | step_admit p c xs ys data :
      (0 < slen data ≤ user_capacity p)%N →
      pipe_step (mkPipeSystem p PushIdle c xs ys) (mkPipeSystem p (PushLocked data) c xs ys)
  | step_used p c xs ys data :
      pipe_step (mkPipeSystem p (PushLocked data) c xs ys)
        (mkPipeSystem p (if push_full data p then PushIdle else PushChecked data) c xs ys)
  | step_plan p c xs ys data :
      (tail p + 2 * ring_cap p < U64_MOD)%N →
      pipe_step (mkPipeSystem p (PushChecked data) c xs ys)
        (mkPipeSystem p (plan_pc data (push_plan data p)) c xs ys)
  | step_sentinel p c xs ys data tail_idx contiguous p' :
      write_sentinel tail_idx p = Some p' →
      pipe_step (mkPipeSystem p (PushSentinel data tail_idx contiguous) c xs ys)
        (mkPipeSystem p' (PushSkip data contiguous) c xs ys)
  | step_sentinel_panic p c xs ys data tail_idx contiguous :
      write_sentinel tail_idx p = None →
      pipe_step (mkPipeSystem p (PushSentinel data tail_idx contiguous) c xs ys)
        (mkPipeSystem p PushPanic c xs ys)
  | step_skip p c xs ys data contiguous :
      pipe_step (mkPipeSystem p (PushSkip data contiguous) c xs ys)
        (mkPipeSystem (publish contiguous p) (PushFrame data 0) c xs ys)
  | step_frame p c xs ys data write_idx p' :
      write_frame write_idx data p = Some p' →
      pipe_step (mkPipeSystem p (PushFrame data write_idx) c xs ys)
        (mkPipeSystem p' (PushPublish data) c xs ys)
  | step_frame_panic p c xs ys data write_idx :
      write_frame write_idx data p = None →
      pipe_step (mkPipeSystem p (PushFrame data write_idx) c xs ys)
        (mkPipeSystem p PushPanic c xs ys)
  | step_publish p c xs ys data :
      pipe_step (mkPipeSystem p (PushPublish data) c xs ys)
        (mkPipeSystem (publish (HEADER_SIZE + slen data) p) (PushCount data) c (xs ++ [data]) ys)
  | step_push_count p c xs ys data :
      pipe_step (mkPipeSystem p (PushCount data) c xs ys)
        (mkPipeSystem (count_push data p) PushIdle c xs ys)
  | step_load p w xs ys :
      pipe_step (mkPipeSystem p w PopIdle xs ys)
        (mkPipeSystem p w (PopLoaded (head p) (tail p)) xs ys)
  | step_round p w xs ys h t plan c p' :
      pop_round h t p = Some plan → round_pc t plan p = (c, p') →
      pipe_step (mkPipeSystem p w (PopLoaded h t) xs ys) (mkPipeSystem p' w c xs ys)
  | step_round_panic p w xs ys h t :
      pop_round h t p = None →
      pipe_step (mkPipeSystem p w (PopLoaded h t) xs ys) (mkPipeSystem p w PopPanic xs ys)
  | step_copy p w xs ys start len advance data :
      slice_at start len (ring p) = Some data →
      pipe_step (mkPipeSystem p w (PopFound start len advance) xs ys)
        (mkPipeSystem p w (PopCopied data len advance) xs ys)
  | step_copy_panic p w xs ys start len advance :
      slice_at start len (ring p) = None →
      pipe_step (mkPipeSystem p w (PopFound start len advance) xs ys)
        (mkPipeSystem p w PopPanic xs ys)
  | step_advance p w xs ys data len advance :
      pipe_step (mkPipeSystem p w (PopCopied data len advance) xs ys)
        (mkPipeSystem (advance_head advance p) w (PopCount data len) xs (ys ++ [data]))
  | step_pop_count p w xs ys data len :
      pipe_step (mkPipeSystem p w (PopCount data len) xs ys)
        (mkPipeSystem (count_pop len p) w PopIdle xs ys)
  | step_close p w c xs ys :
      pipe_step (mkPipeSystem p w c xs ys) (mkPipeSystem (pipe_close p) w c xs ys).
