(* ===== verification/PipeProofs.v ===== *)
(** * Properties of the in-memory pipe

    In every interleaving of the producer and the consumer the ring is a bounded
    first-in first-out queue: nothing is lost, repeated, reordered or torn, the
    payloads never exceed the capacity, and no slice is out of range. *)

From S2P Require Import Prelude Bytes Codec Pipe.

(** ** Frames *)

Lemma slen_header v : slen (u32_to_le v) = HEADER_SIZE.
Proof. done. Qed.

(** Two ranges of positions less than a lap apart do not meet in the ring. *)
Lemma ring_disjoint (cap a m w n : N) :
  (0 < cap → a + m ≤ w → w + n ≤ a + cap → a mod cap + m ≤ cap → w mod cap + n ≤ cap →
   w mod cap + n ≤ a mod cap ∨ a mod cap + m ≤ w mod cap)%N.
Proof.
  intros Hc H1 H2 H3 H4. pose proof (N.Div0.div_mod a cap) as Ha. pose proof (N.Div0.div_mod w cap) as Hw.
  pose proof (N.mod_lt a cap ltac:(lia)). pose proof (N.mod_lt w cap ltac:(lia)).
  assert (w / cap = a / cap ∨ w / cap = a / cap + 1)%N as [E|E].
  { assert (a / cap ≤ w / cap)%N by (apply N.Div0.div_le_mono; lia).
    assert (w / cap ≤ a / cap + 1)%N; [|lia].
    replace (a / cap + 1)%N with ((a + 1 * cap) / cap)%N by (rewrite N.div_add by lia; done).
    apply N.Div0.div_le_mono. lia. }
  - rewrite E in Hw. right. lia.
  - rewrite E in Hw. left. lia.
Qed.

(** A whole message at position [h]. *)
Definition msg_at (buf : string) (cap h : N) (d : string) : Prop :=
  (0 < slen d < U32_MOD)%N ∧ (h mod cap + HEADER_SIZE + slen d ≤ cap)%N ∧
  slice_at (h mod cap) HEADER_SIZE buf = Some (u32_to_le (slen d)) ∧
  slice_at (h mod cap + HEADER_SIZE) (slen d) buf = Some d.

(** A mark that the rest of the ring after [h] is wasted. *)
Definition skip_at (buf : string) (cap h : N) : Prop :=
  (h mod cap + HEADER_SIZE ≤ cap)%N ∧ slice_at (h mod cap) HEADER_SIZE buf = Some (u32_to_le 0).

Definition lap (cap h : N) : N := (h + (cap - h mod cap))%N.

(** The positions from [h] to [t] hold the messages [q]. *)
Inductive frames (buf : string) (cap : N) : N → N → list string → Prop :=
  | frames_nil h : frames buf cap h h []
  | frames_msg h t d q :
      msg_at buf cap h d → frames buf cap (h + HEADER_SIZE + slen d) t q → frames buf cap h t (d :: q)
  | frames_skip h t q :
      skip_at buf cap h → frames buf cap (lap cap h) t q → frames buf cap h t q.

Lemma frames_le buf cap h t q : frames buf cap h t q → (h ≤ t)%N.
Proof. induction 1; unfold lap in *; lia. Qed.

Lemma frames_app buf cap h t u q1 q2 :
  frames buf cap h t q1 → frames buf cap t u q2 → frames buf cap h u (q1 ++ q2).
Proof.
  induction 1 as [|h t d q Hm _ IH|h t q Hs _ IH]; intros H2; [done| |].
  - apply frames_msg; [done|]. by apply IH.
  - apply frames_skip; [done|]. by apply IH.
Qed.

Section ring.
Context (cap : N).
Hypothesis Hcap : (0 < cap)%N.

(** A write of [n] bytes at position [w], behind everything from [h] on. *)
Definition write_ok (w n h : N) : Prop := (w + n ≤ h + cap ∧ w mod cap + n ≤ cap)%N.

Lemma slice_write buf buf' w s a m :
  overwrite (w mod cap) s buf = Some buf' → write_ok w (slen s) a →
  (a + m ≤ w → a mod cap + m ≤ cap →
   ∀ i n, a mod cap ≤ i → i + n ≤ a mod cap + m → slice_at i n buf' = slice_at i n buf)%N.
Proof.
  intros Ho [Hw1 Hw2] Ham Hc i n Hi Hn. apply (slice_overwrite_other _ _ _ _ _ _ Ho).
  destruct (ring_disjoint cap a m w (slen s)); [done..| |]; [right; lia|left; lia].
Qed.

Lemma msg_at_write buf buf' w s h d :
  overwrite (w mod cap) s buf = Some buf' → write_ok w (slen s) h →
  (h + HEADER_SIZE + slen d ≤ w)%N → msg_at buf cap h d → msg_at buf' cap h d.
Proof.
  intros Ho Hw Hle (Hd & Hc & H1 & H2). split_and!; [apply Hd..|done| |].
  - rewrite (slice_write _ _ _ _ h (HEADER_SIZE + slen d) Ho Hw); [done|lia..].
  - rewrite (slice_write _ _ _ _ h (HEADER_SIZE + slen d) Ho Hw); [done|lia..].
Qed.

Lemma skip_at_write buf buf' w s h :
  overwrite (w mod cap) s buf = Some buf' → write_ok w (slen s) h → (lap cap h ≤ w)%N →
  skip_at buf cap h → skip_at buf' cap h.
Proof.
  intros Ho Hw Hle (Hc & H1). split; [done|]. unfold lap in Hle.
  rewrite (slice_write _ _ _ _ h HEADER_SIZE Ho Hw); [done|lia..].
Qed.

Lemma frames_write buf buf' w s h t q :
  overwrite (w mod cap) s buf = Some buf' → write_ok w (slen s) h → (t ≤ w)%N →
  frames buf cap h t q → frames buf' cap h t q.
Proof.
  intros Ho Hw Ht Hf. induction Hf as [h|h t d q Hm Hf IH|h t q Hs Hf IH]; [constructor| |].
  - pose proof (frames_le _ _ _ _ _ Hf). apply frames_msg.
    + eapply msg_at_write; [done|done|lia|done].
    + apply IH; [|done]. destruct Hw as [? ?]. split; [lia|done].
  - pose proof (frames_le _ _ _ _ _ Hf). apply frames_skip.
    + eapply skip_at_write; [done|done|lia|done].
    + apply IH; [|done]. destruct Hw as [? ?]. unfold lap. split; [lia|done].
Qed.

Lemma mod_lap h : (lap cap h mod cap = 0)%N.
Proof.
  unfold lap. pose proof (N.Div0.div_mod h cap). pose proof (N.mod_lt h cap ltac:(lia)).
  replace (h + (cap - h mod cap))%N with ((h / cap + 1) * cap)%N by lia. apply N.Div0.mod_mul.
Qed.
End ring.

(** ** The invariant *)

Definition bytes_of (q : list string) : N := foldr (λ d n, (slen d + n)%N) 0%N q.

Lemma bytes_of_cons d q : bytes_of (d :: q) = (slen d + bytes_of q)%N.
Proof. done. Qed.

Lemma bytes_of_app q1 q2 : bytes_of (q1 ++ q2) = (bytes_of q1 + bytes_of q2)%N.
Proof. induction q1 as [|d q1 IH]; [done|]. change (slen d + bytes_of (q1 ++ q2) = slen d + bytes_of q1 + bytes_of q2)%N. lia. Qed.

(** What holds of the fields, and of the queue [q] the ring represents. *)
Record ring_ok (p : MemoryPipe) (q : list string) : Prop := {
  rk_cap : ring_cap p = (user_capacity p * 2)%N;
  rk_width : (0 < user_capacity p < U32_MOD)%N;
  rk_len : slen (ring p) = ring_cap p;
  rk_frames : frames (ring p) (ring_cap p) (head p) (tail p) q;
  rk_lap : (tail p ≤ head p + ring_cap p)%N;
  rk_tail : (tail p < U64_MOD)%N;
  rk_bytes : (bytes_of q ≤ user_capacity p)%N }.

(** A push that passed the capacity check. *)
Definition admitted (p : MemoryPipe) (q : list string) (data : string) : Prop :=
  (0 < slen data)%N ∧ (bytes_of q + slen data ≤ user_capacity p)%N.

(** Room for [n] more bytes from position [w] on. *)
Definition room (p : MemoryPipe) (w n : N) : Prop :=
  (w + n ≤ head p + ring_cap p)%N ∧ (w + n < U64_MOD)%N.

Definition producer_ok (p : MemoryPipe) (q : list string) (w : PushPc) : Prop :=
  let frame data := (HEADER_SIZE + slen data)%N in
  match w with
  | PushIdle => True
  | PushLocked data => (0 < slen data ≤ user_capacity p)%N
  | PushChecked data => admitted p q data
  | PushSentinel data tail_idx contiguous =>
      admitted p q data ∧ tail_idx = (tail p mod ring_cap p)%N ∧
      contiguous = (ring_cap p - tail_idx)%N ∧ (HEADER_SIZE ≤ contiguous)%N ∧
      room p (tail p) (contiguous + frame data)
  | PushSkip data contiguous =>
      admitted p q data ∧ contiguous = (ring_cap p - tail p mod ring_cap p)%N ∧
      skip_at (ring p) (ring_cap p) (tail p) ∧ room p (tail p) (contiguous + frame data)
  | PushFrame data write_idx =>
      admitted p q data ∧ write_idx = (tail p mod ring_cap p)%N ∧
      (write_idx + frame data ≤ ring_cap p)%N ∧ room p (tail p) (frame data)
  | PushPublish data =>
      admitted p q data ∧ msg_at (ring p) (ring_cap p) (tail p) data ∧ room p (tail p) (frame data)
  | PushCount data => (slen data ≤ user_capacity p)%N
  | PushPanic => False
  end.

Definition consumer_ok (p : MemoryPipe) (q : list string) (c : PopPc) : Prop :=
  let fr := frames (ring p) (ring_cap p) in
  match c with
  | PopIdle => True
  | PopLoaded h t => h = head p ∧ ∃ q1 q2, q = q1 ++ q2 ∧ fr h t q1 ∧ fr t (tail p) q2
  | PopFound start len advance => ∃ d q', q = d :: q' ∧
      msg_at (ring p) (ring_cap p) (head p) d ∧ fr (head p + HEADER_SIZE + slen d)%N (tail p) q' ∧
      start = (head p mod ring_cap p + HEADER_SIZE)%N ∧ len = slen d ∧ advance = (HEADER_SIZE + slen d)%N
  | PopCopied data len advance => ∃ q', q = data :: q' ∧
      fr (head p + HEADER_SIZE + slen data)%N (tail p) q' ∧
      len = slen data ∧ advance = (HEADER_SIZE + slen data)%N
  | PopCount data len => len = slen data ∧ (len ≤ user_capacity p)%N
  | PopPanic => False
  end.

(** Bytes published or taken that the counter does not show yet. *)
Definition pending_push (w : PushPc) : N := match w with PushCount data => slen data | _ => 0%N end.
Definition pending_pop (c : PopPc) : N := match c with PopCount _ len => len | _ => 0%N end.

Definition used_ok (p : MemoryPipe) (q : list string) (w : PushPc) (c : PopPc) : Prop :=
  (used_bytes p < U64_MOD)%N ∧
  ((used_bytes p + pending_push w) mod U64_MOD = (bytes_of q + pending_pop c) mod U64_MOD)%N.

Definition pipe_inv (s : PipeSystem) : Prop :=
  ∃ q, ps_pushed s = ps_popped s ++ q ∧ ring_ok (ps_pipe s) q ∧
    producer_ok (ps_pipe s) q (ps_push s) ∧ consumer_ok (ps_pipe s) q (ps_pop s) ∧
    used_ok (ps_pipe s) q (ps_push s) (ps_pop s).

Lemma rk_pos p q : ring_ok p q → (0 < ring_cap p)%N.
Proof. intros H. rewrite (rk_cap _ _ H). pose proof (rk_width _ _ H). lia. Qed.

(** A write behind the tail changes nothing the consumer looks at. *)
Lemma consumer_ok_write p q c i s r :
  ring_ok p q → overwrite ((tail p + i) mod ring_cap p) s (ring p) = Some r →
  write_ok (ring_cap p) (tail p + i) (slen s) (head p) →
  consumer_ok p q c → consumer_ok (with_ring r p) q c.
Proof.
  intros Hr Ho Hw Hc. pose proof (rk_pos _ _ Hr) as Hpos.
  pose proof (frames_le _ _ _ _ _ (rk_frames _ _ Hr)) as Hle.
  assert (∀ h' t' q', (head p ≤ h')%N → (t' ≤ tail p)%N →
    frames (ring p) (ring_cap p) h' t' q' → frames r (ring_cap p) h' t' q') as Hf.
  { intros h' t' q' Hh Ht'. eapply frames_write; [done|done| |lia].
    destruct Hw as [? ?]. split; [lia|done]. }
  destruct c as [|h t|start len advance|data len advance|data len|]; cbn in *; try done.
  - destruct Hc as (-> & q1 & q2 & -> & H1 & H2). split; [done|]. exists q1, q2.
    pose proof (frames_le _ _ _ _ _ H1). pose proof (frames_le _ _ _ _ _ H2). split_and!; [done|apply Hf..]; done || lia.
  - destruct Hc as (d & q' & -> & Hm & H2 & Hrest). exists d, q'. pose proof (frames_le _ _ _ _ _ H2).
    split_and!; [done| |apply Hf; [lia|lia|done]|apply Hrest..]. eapply msg_at_write; [done|done|done|lia|done].
  - destruct Hc as (q' & -> & H2 & Hrest). exists q'. split_and!; [done|apply Hf; [lia|lia|done]|apply Hrest..].
Qed.

Lemma ring_ok_write p q i s r :
  ring_ok p q → overwrite ((tail p + i) mod ring_cap p) s (ring p) = Some r →
  write_ok (ring_cap p) (tail p + i) (slen s) (head p) → ring_ok (with_ring r p) q.
Proof.
  intros Hr Ho Hw. split; cbn; try apply Hr.
  - rewrite (overwrite_slen _ _ _ _ Ho). apply Hr.
  - eapply frames_write; [by eapply rk_pos|done|done|lia|apply Hr].
Qed.

(** The tail moves over frames written behind it. *)
Lemma consumer_ok_publish p q c n x :
  consumer_ok p q c → frames (ring p) (ring_cap p) (tail p) (tail p + n) x →
  consumer_ok (with_tail (tail p + n) p) (q ++ x) c.
Proof.
  intros Hc Hx. destruct c as [|h t|start len advance|data len advance|data len|]; cbn in *; try done.
  - destruct Hc as (-> & q1 & q2 & -> & H1 & H2). split; [done|]. exists q1, (q2 ++ x).
    split_and!; [by rewrite app_assoc|done|by eapply frames_app].
  - destruct Hc as (d & q' & -> & Hm & H2 & Hrest). exists d, (q' ++ x).
    split_and!; [done|done|by eapply frames_app|apply Hrest..].
  - destruct Hc as (q' & -> & H2 & Hrest). exists (q' ++ x). split_and!; [done|by eapply frames_app|apply Hrest..].
Qed.

Lemma ring_ok_publish p q n x :
  ring_ok p q → frames (ring p) (ring_cap p) (tail p) (tail p + n) x → room p (tail p) n →
  (bytes_of q + bytes_of x ≤ user_capacity p)%N → ring_ok (with_tail (tail p + n) p) (q ++ x).
Proof.
  intros Hr Hx [H1 H2] Hb. split; cbn; try apply Hr; try done.
  - eapply frames_app; [apply Hr|done].
  - by rewrite bytes_of_app.
Qed.

(** The head moves on. *)
Lemma producer_ok_head p q q' w h :
  producer_ok p q w → (head p ≤ h)%N → (bytes_of q' ≤ bytes_of q)%N → producer_ok (with_head h p) q' w.
Proof.
  intros Hw Hh Hb. destruct w; cbn in *; unfold admitted, room in *; cbn in *; try done;
    intuition lia.
Qed.

(** ** The producer's steps *)

Lemma mod_add_small cap t k : (0 < cap → t mod cap + k < cap → (t + k) mod cap = t mod cap + k)%N.
Proof.
  intros Hc Hk. symmetry. apply (N.mod_unique _ _ (t / cap)); [lia|].
  pose proof (N.Div0.div_mod t cap). lia.
Qed.

Lemma plan_ok p q data :
  ring_ok p q → (tail p + 2 * ring_cap p < U64_MOD)%N → admitted p q data →
  producer_ok p q (plan_pc data (push_plan data p)).
Proof.
  intros Hr Ht Ha. pose proof (frames_le _ _ _ _ _ (rk_frames _ _ Hr)) as Hle.
  pose proof (N.mod_lt (tail p) (ring_cap p) ltac:(pose proof (rk_pos _ _ Hr); lia)) as Hm.
  unfold push_plan. destruct (N.ltb_spec (ring_cap p - tail p mod ring_cap p) (HEADER_SIZE + slen data)).
  - destruct (N.ltb_spec (ring_cap p - tail p mod ring_cap p) HEADER_SIZE); [done|].
    case_match eqn:E; [done|]. apply N.ltb_ge in E. cbn. unfold room. split_and!; try done; lia.
  - case_match eqn:E; [done|]. apply N.ltb_ge in E. cbn. unfold room. split_and!; try done; lia.
Qed.

Lemma sentinel_ok p q c data i k p' :
  ring_ok p q → producer_ok p q (PushSentinel data i k) → consumer_ok p q c →
  write_sentinel i p = Some p' →
  ring_ok p' q ∧ producer_ok p' q (PushSkip data k) ∧ consumer_ok p' q c ∧ used_bytes p' = used_bytes p.
Proof.
  intros Hr (Ha & -> & -> & Hk & Hroom) Hc. unfold write_sentinel.
  pose proof (N.mod_lt (tail p) (ring_cap p) ltac:(pose proof (rk_pos _ _ Hr); lia)) as Hm.
  rewrite <-(N.add_0_r (tail p)) at 1. destruct (overwrite _ _ _) as [r|] eqn:Ho; [|done]. intros [= <-].
  assert (write_ok (ring_cap p) (tail p + 0) (slen (u32_to_le 0)) (head p)) as Hw.
  { destruct Hroom. rewrite N.add_0_r, slen_header. split; lia. }
  split_and!; [by eapply ring_ok_write| |by eapply consumer_ok_write|done].
  cbn. split; [done|]. split; [done|]. split; [|done]. split; cbn; [lia|].
  rewrite <-(slen_header 0). rewrite N.add_0_r in Ho. by eapply slice_overwrite_same.
Qed.

Lemma sentinel_no_panic p q data i k :
  ring_ok p q → producer_ok p q (PushSentinel data i k) → write_sentinel i p ≠ None.
Proof.
  intros Hr (_ & -> & -> & Hk & _). unfold write_sentinel.
  destruct (overwrite_Some (tail p mod ring_cap p) (u32_to_le 0) (ring p)) as [r ->]; [|done].
  rewrite (rk_len _ _ Hr), slen_header. unfold HEADER_SIZE in *. lia.
Qed.

Lemma skip_ok p q c data k :
  ring_ok p q → producer_ok p q (PushSkip data k) → consumer_ok p q c →
  ring_ok (publish k p) q ∧ producer_ok (publish k p) q (PushFrame data 0) ∧ consumer_ok (publish k p) q c.
Proof.
  intros Hr (Ha & -> & Hs & Hroom1 & Hroom2) Hc. pose proof (rk_pos _ _ Hr) as Hpos.
  pose proof (N.mod_lt (tail p) (ring_cap p) ltac:(lia)) as Hm. set (k := (ring_cap p - tail p mod ring_cap p)%N) in *.
  assert (publish k p = with_tail (tail p + k) p) as ->.
  { unfold publish. rewrite wrap64_small; [done|lia]. }
  assert (frames (ring p) (ring_cap p) (tail p) (tail p + k) []) as Hf.
  { apply frames_skip; [done|]. apply frames_nil. }
  rewrite <-(app_nil_r q). split_and!.
  - apply ring_ok_publish; [done|done| |]; [split; lia|]. cbn. pose proof (rk_bytes _ _ Hr). lia.
  - rewrite app_nil_r. cbn. split; [done|]. assert ((tail p + k) mod ring_cap p = 0)%N as -> by (by apply mod_lap).
    unfold room. cbn. pose proof (frames_le _ _ _ _ _ (rk_frames _ _ Hr)). split_and!; lia || done.
  - by apply consumer_ok_publish.
Qed.

Lemma frame_ok p q c data i p' :
  ring_ok p q → producer_ok p q (PushFrame data i) → consumer_ok p q c → write_frame i data p = Some p' →
  ring_ok p' q ∧ producer_ok p' q (PushPublish data) ∧ consumer_ok p' q c ∧ used_bytes p' = used_bytes p.
Proof.
  intros Hr (Ha & -> & Hi & Hroom1 & Hroom2) Hc. pose proof (rk_pos _ _ Hr) as Hpos.
  destruct Ha as [Ha1 Ha2]. pose proof (rk_width _ _ Hr). unfold write_frame.
  assert (wrap32 (slen data) = slen data) as -> by (apply N.mod_small; lia).
  destruct (overwrite (tail p mod ring_cap p) _ (ring p)) as [r1|] eqn:Ho1; [|done]. cbn [mbind option_bind].
  destruct (overwrite _ data r1) as [r2|] eqn:Ho2; [|done]. intros [= <-].
  assert (write_ok (ring_cap p) (tail p + 0) (slen (u32_to_le (slen data))) (head p)) as Hw1.
  { rewrite N.add_0_r, slen_header. split; lia. }
  pose proof Ho1 as Ho1'. rewrite <-(N.add_0_r (tail p)) in Ho1'.
  pose proof (ring_ok_write p q 0 _ r1 Hr Ho1' Hw1) as Hr1.
  pose proof (consumer_ok_write p q c 0 _ r1 Hr Ho1' Hw1 Hc) as Hc1.
  assert ((tail p + HEADER_SIZE) mod ring_cap p = tail p mod ring_cap p + HEADER_SIZE)%N as Hm
    by (apply mod_add_small; lia).
  assert (write_ok (ring_cap p) (tail p + HEADER_SIZE) (slen data) (head p)) as Hw2 by (split; lia).
  pose proof Ho2 as Ho2'. rewrite <-Hm in Ho2'.
  split_and!.
  - by apply (ring_ok_write (with_ring r1 p) q HEADER_SIZE data r2).
  - cbn. split; [done|]. split; [|done]. split_and!; cbn; [lia..| |].
    + rewrite (slice_overwrite_other _ _ _ _ _ _ Ho2) by lia. rewrite <-(slen_header (slen data)) at 1.
      by eapply slice_overwrite_same.
    + by eapply slice_overwrite_same.
  - by apply (consumer_ok_write (with_ring r1 p) q c HEADER_SIZE data r2).
  - done.
Qed.

Lemma frame_no_panic p q data i :
  ring_ok p q → producer_ok p q (PushFrame data i) → write_frame i data p ≠ None.
Proof.
  intros Hr (_ & -> & Hi & _). unfold write_frame.
  destruct (overwrite_Some (tail p mod ring_cap p) (u32_to_le (wrap32 (slen data))) (ring p)) as [r1 H1].
  { rewrite (rk_len _ _ Hr), slen_header. lia. }
  rewrite H1. cbn [mbind option_bind].
  destruct (overwrite_Some (tail p mod ring_cap p + HEADER_SIZE) data r1) as [r2 ->]; [|done].
  rewrite (overwrite_slen _ _ _ _ H1), (rk_len _ _ Hr). lia.
Qed.

Lemma publish_ok p q c data :
  ring_ok p q → producer_ok p q (PushPublish data) → consumer_ok p q c →
  let p' := publish (HEADER_SIZE + slen data) p in
  ring_ok p' (q ++ [data]) ∧ producer_ok p' (q ++ [data]) (PushCount data) ∧ consumer_ok p' (q ++ [data]) c.
Proof.
  intros Hr ([Ha1 Ha2] & Hm & Hroom) Hc p'. destruct Hroom as [Hroom1 Hroom2].
  assert (p' = with_tail (tail p + (HEADER_SIZE + slen data)) p) as ->.
  { unfold p', publish. rewrite wrap64_small; [done|lia]. }
  assert (frames (ring p) (ring_cap p) (tail p) (tail p + (HEADER_SIZE + slen data)) [data]) as Hf.
  { apply frames_msg; [done|]. rewrite N.add_assoc. apply frames_nil. }
  split_and!.
  - apply ring_ok_publish; [done|done|by split|]. cbn. lia.
  - cbn. lia.
  - by apply consumer_ok_publish.
Qed.

(** ** The consumer's steps *)

Lemma slice_at_slen i n buf s : slice_at i n buf = Some s → slen s = n.
Proof.
  unfold slice_at, slen. destruct (N.leb_spec (i + n) (N.of_nat (String.length buf))); [|done].
  intros [= <-]. rewrite slen_stake, slen_sdrop. lia.
Qed.

(** What a round finds at the head. *)
Lemma round_spec p h t q1 :
  frames (ring p) (ring_cap p) h t q1 → h ≠ t →
  (∃ d q', q1 = d :: q' ∧ msg_at (ring p) (ring_cap p) h d ∧
     frames (ring p) (ring_cap p) (h + HEADER_SIZE + slen d) t q' ∧
     pop_round h t p = Some (PopAt (h mod ring_cap p + HEADER_SIZE) (slen d) (HEADER_SIZE + slen d))) ∨
  (frames (ring p) (ring_cap p) (lap (ring_cap p) h) t q1 ∧
   pop_round h t p = Some (PopSkip (wrap64 (lap (ring_cap p) h)))).
Proof.
  intros Hf Hne. unfold pop_round. destruct (N.eqb_spec h t) as [|_]; [done|].
  destruct Hf as [h|h t d q Hm Hf|h t q Hs Hf]; [done| |].
  - left. exists d, q. split_and!; [done..|]. destruct Hm as (Hd & _ & -> & _). cbn [mbind option_bind].
    rewrite u32_le_val by lia. destruct (N.eqb_spec (slen d) 0); [lia|done].
  - right. split; [done|]. destruct Hs as (_ & ->). done.
Qed.

Lemma ring_ok_head p q q' h :
  ring_ok p q → frames (ring p) (ring_cap p) h (tail p) q' → (head p ≤ h)%N → (bytes_of q' ≤ bytes_of q)%N →
  ring_ok (with_head h p) q'.
Proof.
  intros Hr Hf Hh Hb. split; cbn; try apply Hr; try done.
  - pose proof (rk_lap _ _ Hr). lia.
  - pose proof (rk_bytes _ _ Hr). lia.
Qed.

Lemma round_ok p q w h t plan c p' :
  ring_ok p q → producer_ok p q w → consumer_ok p q (PopLoaded h t) →
  pop_round h t p = Some plan → round_pc t plan p = (c, p') →
  ring_ok p' q ∧ producer_ok p' q w ∧ consumer_ok p' q c ∧ used_bytes p' = used_bytes p ∧ pending_pop c = 0%N.
Proof.
  intros Hr Hw (-> & q1 & q2 & -> & H1 & H2) Hround Hpc. destruct (decide (head p = t)) as [He|Hne].
  { unfold pop_round in Hround. rewrite (proj2 (N.eqb_eq _ _) He) in Hround.
    injection Hround as <-. by injection Hpc as <- <-. }
  pose proof (frames_le _ _ _ _ _ H2) as Hle. pose proof (rk_tail _ _ Hr) as Ht.
  destruct (round_spec p (head p) t q1 H1 Hne) as [(d & q' & -> & Hm & Hf & E)|(Hf & E)];
    rewrite E in Hround; injection Hround as <-; injection Hpc as <- <-.
  - split_and!; try done. cbn. exists d, (q' ++ q2). split_and!; try done. by eapply frames_app.
  - pose proof (frames_le _ _ _ _ _ Hf) as Hl. rewrite wrap64_small by lia.
    assert (head p ≤ lap (ring_cap p) (head p))%N by (unfold lap; lia).
    split_and!; [| |cbn; split; [done|by exists q1, q2]|done|done].
    + eapply ring_ok_head; [done|by eapply frames_app|done|done].
    + by eapply producer_ok_head.
Qed.

Lemma round_no_panic p q h t : ring_ok p q → consumer_ok p q (PopLoaded h t) → pop_round h t p ≠ None.
Proof.
  intros Hr (-> & q1 & q2 & -> & H1 & H2). destruct (decide (head p = t)) as [He|Hne].
  - unfold pop_round. by rewrite (proj2 (N.eqb_eq _ _) He).
  - by destruct (round_spec p (head p) t q1 H1 Hne) as [(d & q' & _ & _ & _ & ->)|(_ & ->)].
Qed.

Lemma advance_ok p q w data len advance :
  ring_ok p q → producer_ok p q w → consumer_ok p q (PopCopied data len advance) →
  let p' := advance_head advance p in
  ∃ q', q = data :: q' ∧ ring_ok p' q' ∧ producer_ok p' q' w ∧ consumer_ok p' q' (PopCount data len).
Proof.
  intros Hr Hw (q' & -> & Hf & -> & ->) p'. exists q'. split; [done|].
  pose proof (frames_le _ _ _ _ _ Hf) as Hl. pose proof (rk_tail _ _ Hr) as Ht.
  assert (p' = with_head (head p + HEADER_SIZE + slen data) p) as ->.
  { unfold p', advance_head. rewrite wrap64_small by lia. by rewrite N.add_assoc. }
  assert (bytes_of q' ≤ bytes_of (data :: q'))%N by (rewrite bytes_of_cons; lia). split_and!.
  - eapply ring_ok_head; [done|done|lia|done].
  - eapply producer_ok_head; [done|lia|done].
  - cbn. pose proof (rk_bytes _ _ Hr) as Hb. rewrite bytes_of_cons in Hb. split; [done|lia].
Qed.

(** ** The used-bytes counter *)

Lemma used_exact p q w c :
  ring_ok p q → consumer_ok p q c → used_ok p q w c → pending_push w = 0%N →
  used_bytes p = (bytes_of q + pending_pop c)%N.
Proof.
  intros Hr Hc [Hu Hm] Hw. rewrite Hw, N.add_0_r, N.mod_small in Hm by done. rewrite Hm.
  apply N.mod_small. pose proof (rk_bytes _ _ Hr). pose proof (rk_width _ _ Hr).
  assert (pending_pop c ≤ user_capacity p)%N by (destruct c; cbn in *; try apply N.le_0_l; apply Hc). unfold U32_MOD, U64_MOD in *. lia.
Qed.

Lemma used_count_push p q c data :
  used_ok p q (PushCount data) c → used_ok (count_push data p) q PushIdle c.
Proof.
  intros [Hu Hm]. split; cbn in *; [apply N.mod_lt; done|]. unfold wrap64.
  by rewrite N.add_0_r, N.Div0.mod_mod.
Qed.

Lemma used_count_pop p q w data len :
  ring_ok p q → (len ≤ user_capacity p)%N →
  used_ok p q w (PopCount data len) → used_ok (count_pop len p) q w PopIdle.
Proof.
  intros Hr Hlen [Hu Hm]. split; cbn in *; [apply N.mod_lt; done|]. unfold wrap64.
  rewrite N.Div0.add_mod_idemp_l. pose proof (rk_bytes _ _ Hr). pose proof (rk_width _ _ Hr).
  rewrite (N.mod_small (bytes_of q + len)) in Hm by (unfold U32_MOD, U64_MOD in *; lia).
  pose proof (N.Div0.div_mod (used_bytes p + pending_push w) U64_MOD) as Hd. rewrite Hm in Hd.
  assert (used_bytes p + (U64_MOD - len) + pending_push w
    = bytes_of q + ((used_bytes p + pending_push w) / U64_MOD + 1) * U64_MOD)%N as ->
    by (unfold U32_MOD, U64_MOD in *; lia).
  by rewrite N.Div0.mod_add, N.add_0_r.
Qed.

Lemma used_publish p q c data :
  used_ok p q (PushPublish data) c →
  used_ok (publish (HEADER_SIZE + slen data) p) (q ++ [data]) (PushCount data) c.
Proof.
  intros [Hu Hm]. split; [done|]. cbn [pending_push used_bytes publish with_tail] in *.
  rewrite N.add_0_r in Hm. rewrite bytes_of_app, bytes_of_cons.
  replace (bytes_of q + (slen data + bytes_of []) + pending_pop c)%N
    with (bytes_of q + pending_pop c + slen data)%N by (change (bytes_of []) with 0%N; lia).
  by rewrite <-(N.Div0.add_mod_idemp_l (bytes_of q + pending_pop c)), <-Hm, N.Div0.add_mod_idemp_l.
Qed.

Lemma used_advance p q' w data advance :
  used_ok p (data :: q') w (PopCopied data (slen data) advance) →
  used_ok (advance_head advance p) q' w (PopCount data (slen data)).
Proof.
  intros [Hu Hm]. split; [done|]. cbn [pending_pop used_bytes advance_head with_head] in *.
  rewrite Hm, bytes_of_cons, N.add_0_r, (N.add_comm (slen data)). done.
Qed.

(** ** Every interleaving *)

Lemma pipe_step_inv s s' : pipe_step s s' → pipe_inv s → pipe_inv s'.
Proof.
  destruct 1; intros (q & Hx & Hr & Hw & Hc & Hu); cbn [ps_pushed ps_popped ps_pipe ps_push ps_pop] in *.
  - by exists q.
  - destruct (push_full data p) eqn:Hf; [by exists q|].
    assert (admitted p q data).
    { unfold push_full in Hf. apply N.ltb_ge in Hf.
      rewrite (used_exact p q (PushLocked data) c) in Hf by done. cbn in Hw. split; lia. }
    by exists q.
  - exists q. split_and!; try done; [by apply plan_ok|]. destruct Hu. split; [done|].
    by destruct (push_plan data p).
  - destruct (sentinel_ok p q c data tail_idx contiguous p') as (? & ? & ? & E); try done.
    exists q. split_and!; try done. destruct Hu. split; cbn in *; by rewrite E.
  - exfalso. by eapply sentinel_no_panic.
  - destruct (skip_ok p q c data contiguous) as (? & ? & ?); try done. by exists q.
  - destruct (frame_ok p q c data write_idx p') as (? & ? & ? & E); try done.
    exists q. split_and!; try done. destruct Hu. split; cbn in *; by rewrite E.
  - exfalso. by eapply frame_no_panic.
  - destruct (publish_ok p q c data) as (? & ? & ?); try done. exists (q ++ [data]).
    split_and!; try done; [by rewrite Hx, app_assoc|by apply used_publish].
  - exists q. split_and!; try done; [|by apply used_count_push]. split; apply Hr.
  - exists q. split_and!; try done. cbn. split; [done|]. exists q, [].
    split_and!; [by rewrite app_nil_r|apply Hr|apply frames_nil].
  - destruct (round_ok p q w h t plan c p') as (? & ? & ? & E & E'); try done.
    exists q. split_and!; try done. destruct Hu. split; cbn in *; by rewrite E, ?E'.
  - exfalso. by eapply round_no_panic.
  - destruct Hc as (d & q' & -> & Hm & Hf & -> & -> & ->).
    destruct Hm as (_ & _ & _ & Hs). assert (d = data) as -> by congruence.
    exists (data :: q'). split_and!; try done. cbn. by exists q'.
  - exfalso. destruct Hc as (d & q' & -> & (_ & _ & _ & Hs) & _ & -> & -> & _). congruence.
  - destruct (advance_ok p q w data len advance) as (q' & -> & ? & ? & [-> ?]); try done.
    exists q'. split_and!; try done; cbn [ps_pipe ps_push ps_pop ps_pushed ps_popped];
      [rewrite Hx; by rewrite <-app_assoc|by apply used_advance].
  - destruct Hc as [-> Hlen]. exists q. split_and!; try done; [|by apply (used_count_pop p q w data)].
    split; apply Hr.
  - exists q. split_and!; try done. split; apply Hr.
Qed.

Definition pipe_start (capacity : N) : PipeSystem :=
  mkPipeSystem (pipe_new capacity) PushIdle PopIdle [] [].

Lemma pipe_start_inv capacity : (0 < capacity < U32_MOD)%N → pipe_inv (pipe_start capacity).
Proof.
  intros Hc. exists []. split_and!; try done. split; cbn; try done; try lia.
  - rewrite slen_zeros. lia.
  - apply frames_nil.
Qed.

(** ** Uninterrupted calls *)

(** [push] and [pop] are runs of the producer's and the consumer's steps. *)
Lemma push_run data p p' n c xs ys :
  push data p = Some (Ok n, p') → (0 < slen data)%N → (tail p + 2 * ring_cap p < U64_MOD)%N →
  rtc pipe_step (mkPipeSystem p PushIdle c xs ys) (mkPipeSystem p' PushIdle c (xs ++ [data]) ys).
Proof.
  unfold push, push_admit. intros H Hd Ht. destruct (closed p); [done|].
  destruct (N.eqb_spec (slen data) 0); [lia|].
  destruct (N.ltb_spec (user_capacity p) (slen data)); [done|].
  eapply rtc_l; [by apply step_admit|]. eapply rtc_l; [apply step_used|].
  destruct (push_full data p); [done|]. eapply rtc_l; [by apply step_plan|].
  destruct (push_plan data p) as [|i|i k]; [done| |]; cbn [plan_pc].
  - destruct (write_frame i data p) as [p1|] eqn:E; [|done]. injection H as <- <-.
    eapply rtc_l; [by apply step_frame|]. eapply rtc_l; [apply step_publish|].
    apply rtc_once, step_push_count.
  - destruct (write_sentinel i p) as [p1|] eqn:E1; [|done]. cbn [mbind option_bind] in H.
    destruct (write_frame 0 data _) as [p2|] eqn:E2; [|done]. injection H as <- <-.
    eapply rtc_l; [by apply step_sentinel|]. eapply rtc_l; [apply step_skip|].
    eapply rtc_l; [by apply step_frame|]. eapply rtc_l; [apply step_publish|].
    apply rtc_once, step_push_count.
Qed.

Lemma pop_loop_run fuel t p r p' w xs ys :
  pop_loop fuel t p = Some (r, p') →
  rtc pipe_step (mkPipeSystem p w (PopLoaded (head p) t) xs ys)
    (mkPipeSystem p' w PopIdle xs (match r with Ok d => ys ++ [d] | Err _ => ys end)).
Proof.
  revert p. induction fuel as [|fuel IH]; intros p H; [done|]. cbn [pop_loop] in H.
  destruct (pop_round (head p) t p) as [plan|] eqn:E; [|done]. cbn [mbind option_bind] in H.
  destruct plan as [|h|start len advance].
  - injection H as <- <-. eapply rtc_once, step_round; [done|done].
  - eapply rtc_l; [by eapply step_round|]. by apply IH in H.
  - destruct (slice_at start len (ring p)) as [d|] eqn:Es; [|done]. injection H as <- <-.
    eapply rtc_l; [by eapply step_round|]. eapply rtc_l; [by eapply step_copy|].
    eapply rtc_l; [apply step_advance|]. apply rtc_once, step_pop_count.
Qed.

Lemma pop_run p r p' w xs ys :
  pop p = Some (r, p') →
  rtc pipe_step (mkPipeSystem p w PopIdle xs ys)
    (mkPipeSystem p' w PopIdle xs (match r with Ok d => ys ++ [d] | Err _ => ys end)).
Proof. intros H. eapply rtc_l; [apply step_load|]. by eapply pop_loop_run. Qed.

Lemma pipe_inv_reach s s' : rtc pipe_step s s' → pipe_inv s → pipe_inv s'.
Proof. induction 1 as [|s1 s2 s3 H12 _ IH]; [done|]. intros H. by eapply IH, pipe_step_inv. Qed.

(** The messages an idle pipe holds. *)
Definition pipe_rep (p : MemoryPipe) (q : list string) : Prop :=
  ring_ok p q ∧ used_bytes p = bytes_of q.

Lemma pipe_rep_inv p xs ys : pipe_inv (mkPipeSystem p PushIdle PopIdle xs ys) ↔ ∃ q, xs = ys ++ q ∧ pipe_rep p q.
Proof.
  split.
  - intros (q & Hx & Hr & Hw & Hc & Hu). cbn [ps_pipe ps_push ps_pop] in *. exists q. split; [done|]. split; [done|].
    rewrite (used_exact _ _ _ _ Hr Hc Hu) by done. cbn. lia.
  - intros (q & Hx & Hr & Hu). exists q. split_and!; try done. split; cbn; rewrite Hu.
    + pose proof (rk_bytes _ _ Hr). pose proof (rk_width _ _ Hr). unfold U32_MOD, U64_MOD in *. lia.
    + done.
Qed.

(** The monotonic counters have a lap to go before they reach the width. *)
Definition counters_fit (p : MemoryPipe) : Prop := (tail p + 2 * ring_cap p < U64_MOD)%N.

(** What a call reports: an error leaves the pipe as it was. *)
Lemma push_report data p r p' :
  push data p = Some (r, p') → match r with Ok n => n = slen data | Err _ => p' = p end.
Proof.
  unfold push. destruct (push_admit data p) as [r'|] eqn:Ha.
  - intros [= <- <-]. unfold push_admit in Ha. destruct (closed p); [by injection Ha as <-|].
    destruct (N.eqb_spec (slen data) 0); [by injection Ha as <-|].
    destruct (_ <? _)%N; [by injection Ha as <-|done].
  - destruct (push_full data p); [by intros [= <- <-]|]. destruct (push_plan data p) as [|i|i k].
    + by intros [= <- <-].
    + destruct (write_frame i data p); [by intros [= <- <-]|done].
    + destruct (write_sentinel i p); [|done]. cbn. destruct (write_frame _ data _); [by intros [= <- <-]|done].
Qed.

Lemma push_fixed data p r p' :
  push data p = Some (r, p') →
  closed p' = closed p ∧ if closed p then r = Err (PipeClosed "write to closed pipe") else True.
Proof.
  unfold push, push_admit. destruct (closed p) eqn:Hc; [by intros [= <- <-]|].
  destruct (slen data =? 0)%N; [by intros [= <- <-]|]. destruct (_ <? _)%N; [by intros [= <- <-]|].
  destruct (push_full data p); [by intros [= <- <-]|]. destruct (push_plan data p) as [|i|i k].
  - by intros [= <- <-].
  - unfold write_frame. destruct (overwrite _ _ _); [|done]. cbn. destruct (overwrite _ data _); by intros [= <- <-].
  - unfold write_sentinel, write_frame. destruct (overwrite _ _ _); [|done]. cbn.
    destruct (overwrite _ _ _); [|done]. cbn. destruct (overwrite _ data _); by intros [= <- <-].
Qed.

Definition can_panic (s : PipeSystem) : Prop := ∃ s', rtc pipe_step s s' ∧ ps_push s' = PushPanic.

Lemma can_panic_step s s' : pipe_step s s' → can_panic s' → can_panic s.
Proof. intros H (s2 & Hr & Hp). exists s2. split; [by eapply rtc_l|done]. Qed.

Lemma can_panic_now s s' : pipe_step s s' → ps_push s' = PushPanic → can_panic s.
Proof. intros H Hp. exists s'. split; [by apply rtc_once|done]. Qed.

Lemma push_no_panic data p q : pipe_rep p q → counters_fit p → push data p ≠ None.
Proof.
  intros Hrep Hfit H. assert (can_panic (mkPipeSystem p PushIdle PopIdle q [])) as (s' & Hrun & Hp).
  { unfold push, push_admit in H. destruct (closed p); [done|].
    destruct (N.eqb_spec (slen data) 0); [done|]. destruct (N.ltb_spec (user_capacity p) (slen data)); [done|].
    eapply can_panic_step; [apply (step_admit _ _ _ _ data); lia|]. eapply can_panic_step; [apply step_used|].
    destruct (push_full data p); [done|]. eapply can_panic_step; [by apply step_plan|].
    destruct (push_plan data p) as [|i|i k]; [done| |]; cbn [plan_pc].
    - destruct (write_frame i data p) as [p1|] eqn:E; [done|]. by eapply can_panic_now; [apply step_frame_panic|].
    - destruct (write_sentinel i p) as [p1|] eqn:E1; [|by eapply can_panic_now; [apply step_sentinel_panic|]].
      cbn [mbind option_bind] in H. destruct (write_frame 0 data _) as [p2|] eqn:E2; [done|].
      eapply can_panic_step; [by apply step_sentinel|]. eapply can_panic_step; [apply step_skip|].
      by eapply can_panic_now; [apply step_frame_panic|]. }
  destruct (pipe_inv_reach _ _ Hrun) as (? & _ & _ & Hw & _); [|by rewrite Hp in Hw].
  apply pipe_rep_inv. by exists q.
Qed.

(** [push] appends the message or changes nothing. *)
Lemma push_spec data p q :
  pipe_rep p q → counters_fit p →
  ∃ r p', push data p = Some (r, p') ∧
    match r with
    | Ok n => n = slen data ∧ pipe_rep p' (if (slen data =? 0)%N then q else q ++ [data])
    | Err _ => p' = p
    end.
Proof.
  intros Hrep Hfit. destruct (push data p) as [[[n|e] p']|] eqn:E; [| |by eapply push_no_panic in E].
  - exists (Ok n), p'. split; [done|]. split; [by apply push_report in E|].
    destruct (N.eqb_spec (slen data) 0) as [H0|H0].
    + unfold push, push_admit in E. destruct (closed p); [done|].
      rewrite (proj2 (N.eqb_eq _ _) H0) in E. by simplify_eq/=.
    + pose proof (push_run data p p' n PopIdle q [] E ltac:(lia) Hfit) as Hrun.
      apply pipe_inv_reach in Hrun; [|apply pipe_rep_inv; by exists q].
      apply pipe_rep_inv in Hrun as (q' & Hq & Hr). cbn in Hq. by subst q'.
  - exists (Err e), p'. split; [done|]. by apply push_report in E.
Qed.

(** When [push] accepts: the payload fits the capacity beside those queued, and the
    frame fits the ring, where it would not straddle the end of the ring or with
    room for the sentinel. *)
Lemma push_accepts data p q :
  pipe_rep p q → counters_fit p → closed p = false → (0 < slen data)%N →
  let frame := (HEADER_SIZE + slen data)%N in
  let contiguous := (ring_cap p - tail p mod ring_cap p)%N in
  (∃ p', push data p = Some (Ok (slen data), p')) ↔
  (bytes_of q + slen data ≤ user_capacity p)%N ∧
  ((frame ≤ contiguous ∧ tail p - head p + frame ≤ ring_cap p) ∨
   (HEADER_SIZE ≤ contiguous < frame ∧ tail p - head p + (contiguous + frame) ≤ ring_cap p))%N.
Proof.
  intros Hrep Hfit Hop Hd frame contiguous.
  pose proof (push_no_panic data p q Hrep Hfit) as Hnp. destruct Hrep as [_ Hu]. revert Hnp.
  unfold push, push_admit, push_full, push_plan. rewrite Hop, Hu. fold contiguous frame.
  destruct (N.eqb_spec (slen data) 0); [lia|].
  destruct (N.ltb_spec (user_capacity p) (slen data)); [intros _; split; [by intros [? ?]|lia]|].
  destruct (N.ltb_spec (user_capacity p) (bytes_of q + slen data)); [intros _; split; [by intros [? ?]|lia]|].
  destruct (N.ltb_spec contiguous frame); [destruct (N.ltb_spec contiguous HEADER_SIZE)|].
  - intros _; split; [by intros [? ?]|lia].
  - destruct (N.ltb_spec (ring_cap p) (tail p - head p + (contiguous + frame))); intros Hnp; split.
    + by intros [? ?].
    + lia.
    + intros _. split; [done|]. right. lia.
    + intros _. destruct (write_sentinel _ p); [|done]. cbn in *. destruct (write_frame _ data _); [by eexists|done].
  - destruct (N.ltb_spec (ring_cap p) (tail p - head p + frame)); intros Hnp; split.
    + by intros [? ?].
    + lia.
    + intros _. split; [done|]. left. lia.
    + intros _. cbn in *. destruct (write_frame _ data _); [by eexists|done].
Qed.

(** Rounds until the message or the end: each skip moves the head on. *)
Lemma pop_loop_spec fuel p q :
  ring_ok p q → (N.to_nat (tail p - head p) < fuel)%nat →
  ∃ p', pop_loop fuel (tail p) p
    = Some (match q with [] => Err (if closed p then PipeClosedEmpty else PipeEmpty) | d :: _ => Ok d end, p').
Proof.
  revert p. induction fuel as [|fuel IH]; intros p Hr Hfuel; [lia|]. cbn [pop_loop].
  pose proof (rk_frames _ _ Hr) as Hf. destruct (decide (head p = tail p)) as [He|Hne].
  { unfold pop_round. rewrite (proj2 (N.eqb_eq _ _) He). cbn [mbind option_bind]. exists p.
    rewrite He in Hf. destruct q as [|d q]; [done|]. exfalso.
    inversion Hf as [|? ? ? ? Hm Hf'|? ? ? Hs Hf']; simplify_eq; apply frames_le in Hf'; [destruct Hm|destruct Hs];
      unfold lap, HEADER_SIZE in *; lia. }
  destruct (round_spec p (head p) (tail p) q Hf Hne) as [(d & q' & -> & Hm & _ & ->)|(Hf' & ->)]; cbn [mbind option_bind].
  - destruct Hm as (_ & _ & _ & ->). cbn [mbind option_bind]. by eexists.
  - pose proof (frames_le _ _ _ _ _ Hf'). pose proof (rk_tail _ _ Hr). rewrite wrap64_small by lia.
    pose proof (N.mod_lt (head p) (ring_cap p) ltac:(pose proof (rk_pos _ _ Hr); lia)).
    assert (head p < lap (ring_cap p) (head p))%N by (unfold lap; lia).
    apply (IH (with_head (lap (ring_cap p) (head p)) p)); [|cbn; lia].
    eapply ring_ok_head; [done|done|lia|done].
Qed.

Lemma pop_loop_fixed fuel t p r p' :
  pop_loop fuel t p = Some (r, p') → closed p' = closed p ∧ tail p' = tail p ∧ ring_cap p' = ring_cap p.
Proof.
  revert p. induction fuel as [|fuel IH]; intros p E; [done|]. cbn [pop_loop] in E.
  destruct (pop_round _ _ p) as [[|h|start len advance]|]; [by simplify_eq/=| | |done]; cbn [mbind option_bind] in E.
  - by apply IH in E.
  - destruct (slice_at _ _ _); by simplify_eq/=.
Qed.

(** [pop] takes the oldest message. *)
Lemma pop_spec p q :
  pipe_rep p q →
  ∃ r p', pop p = Some (r, p') ∧ closed p' = closed p ∧ (counters_fit p → counters_fit p') ∧
    match q with
    | [] => r = Err (if closed p then PipeClosedEmpty else PipeEmpty) ∧ pipe_rep p' []
    | d :: q' => r = Ok d ∧ pipe_rep p' q'
    end.
Proof.
  intros Hrep. destruct (pop_loop_spec (S (N.to_nat (ring_cap p))) p q) as [p' E]; [apply Hrep| |].
  { pose proof (rk_lap _ _ (proj1 Hrep)). lia. }
  destruct (pop_loop_fixed _ _ _ _ _ E) as (Hc & Ht & Hk).
  eexists _, p'. split; [exact E|]. split; [done|]. split; [unfold counters_fit; by rewrite Ht, Hk|].
  pose proof (pop_run p _ p' PushIdle q [] E) as Hrun.
  apply pipe_inv_reach in Hrun; [|apply pipe_rep_inv; by exists q].
  apply pipe_rep_inv in Hrun as (q' & Hq & Hr). destruct q as [|d q]; cbn in Hq.
  - by subst q'.
  - injection Hq as <-. done.
Qed.

(** C31: The ring is a bounded first-in first-out queue under concurrency: in every
    interleaving of a producer, a consumer and a close, step by step, the messages
    taken are a prefix of the messages published, in order and whole; the ring
    holds exactly the others, whose payloads stay within the capacity; and neither
    side ever indexes out of range. *)
Theorem pipe_fifo capacity s
    (Hcapacity : (0 < capacity < U32_MOD)%N) (Hreach : rtc pipe_step (pipe_start capacity) s) :
  ps_push s ≠ PushPanic ∧ ps_pop s ≠ PopPanic ∧
  ∃ q, ps_pushed s = ps_popped s ++ q ∧ (bytes_of q ≤ user_capacity (ps_pipe s))%N ∧
    frames (ring (ps_pipe s)) (ring_cap (ps_pipe s)) (head (ps_pipe s)) (tail (ps_pipe s)) q.
Proof.
  destruct (pipe_inv_reach _ _ Hreach (pipe_start_inv capacity Hcapacity)) as (q & Hx & Hr & Hw & Hc & _).
  split_and!; [by intros E; rewrite E in Hw|by intros E; rewrite E in Hc|].
  exists q. split_and!; [done|apply Hr|apply Hr].
Qed.

Lemma pipe_fifo_witness :
  ∃ s, rtc pipe_step (pipe_start 8) s ∧ ps_pushed s = ["hello"; "abcd"] ∧ ps_popped s = ["hello"] ∧
    ∃ q, ps_pushed s = ps_popped s ++ q ∧ (bytes_of q ≤ user_capacity (ps_pipe s))%N.
Proof.
  assert (∃ s, rtc pipe_step (pipe_start 8) s ∧ ps_pushed s = ["hello"; "abcd"] ∧ ps_popped s = ["hello"])
    as (s & Hrun & Hx & Hy).
  { eexists. split; [|split].
    - eapply rtc_trans; [eapply (push_run "hello"); [vm_compute; reflexivity|done|done]|].
      eapply rtc_trans; [eapply pop_run; vm_compute; reflexivity|].
      eapply rtc_trans; [eapply (push_run "abcd"); [vm_compute; reflexivity|done|done]|]. apply rtc_refl.
    - done.
    - done. }
  exists s. split; [done|]. split; [done|]. split; [done|].
  destruct (pipe_fifo 8 s ltac:(done) Hrun) as (_ & _ & q & Hq & Hb & _). by exists q.
Defined.

(** An empty pipe can refuse every message for good: once the tail index is within
    the last three bytes of the ring there is no room for the sentinel, and nothing
    moves the tail any more. *)
Definition after_two : MemoryPipe :=
  let next data p := match push data p with
                     | Some (_, p) => match pop p with Some (_, p) => p | None => p end
                     | None => p
                     end in
  next "ab" (next "hello" (pipe_new 8)).

Theorem pipe_wedges :
  pipe_rep after_two [] ∧ pop after_two = Some (Err PipeEmpty, after_two) ∧
  ∀ data, (0 < slen data ≤ user_capacity after_two)%N →
    push data after_two = Some (Err (PipeFull 0 8), after_two).
Proof.
  split_and!; [|by vm_compute|].
  - split; [|by vm_compute]. split; try by vm_compute.
    vm_compute. apply frames_nil.
  - intros data Hd. unfold push, push_admit. replace (closed after_two) with false by by vm_compute.
    replace (user_capacity after_two) with 8%N in * by by vm_compute.
    destruct (N.eqb_spec (slen data) 0); [lia|]. destruct (N.ltb_spec 8 (slen data)); [lia|].
    replace (used_bytes after_two) with 0%N by by vm_compute.
    destruct (push_full data after_two); [done|]. unfold push_plan.
    replace (ring_cap after_two - tail after_two mod ring_cap after_two)%N with 1%N by by vm_compute.
    destruct (N.ltb_spec 1 (HEADER_SIZE + slen data)); [done|unfold HEADER_SIZE in *; lia].
Qed.
