(* ===== verification/PipeManager.v ===== *)
(** * The registry of pipes

    src/rust/kernel/src/core/pipe/backend.rs and manager.rs: the interface every
    pipe backend implements, the registry of shared backends with its
    notifications, [splice], and blocking reads as threads that park on the
    condition variable of the pipe. *)

From S2P Require Import Prelude Bytes Codec Pipe.

(** ** The backend interface *)

(** [PipeBackend]; [None] is a panic. *)
Class PipeBackend (B : Type) := {
  pb_push : string → B → option (result PipeError N * B);
  pb_pop : B → option (result PipeError string * B);
  pb_close : B → B;
  pb_is_closed : B → bool;
  pb_is_empty : B → bool;
  pb_size : B → N;
  pb_msg_count : B → N }.

#[export] Instance memory_backend : PipeBackend MemoryPipe := {
  pb_push := push;
  pb_pop := pop;
  pb_close := pipe_close;
  pb_is_closed := closed;
  pb_is_empty p := (msg_count p =? 0)%N;
  pb_size := used_bytes;
  pb_msg_count := msg_count }.

(** Dynamic dispatch: a registered backend is an in-memory pipe or another one. *)
Section dispatch.
Context {A E : Type} `{!PipeBackend A, !PipeBackend E}.

Definition lift_l {X} (r : option (X * A)) : option (X * (A + E)) := '(x, a) ← r; Some (x, inl a).
Definition lift_r {X} (r : option (X * E)) : option (X * (A + E)) := '(x, e) ← r; Some (x, inr e).

#[export] Instance dyn_backend : PipeBackend (A + E) := {
  pb_push data b := match b with inl a => lift_l (pb_push data a) | inr e => lift_r (pb_push data e) end;
  pb_pop b := match b with inl a => lift_l (pb_pop a) | inr e => lift_r (pb_pop e) end;
  pb_close b := match b with inl a => inl (pb_close a) | inr e => inr (pb_close e) end;
  pb_is_closed b := match b with inl a => pb_is_closed a | inr e => pb_is_closed e end;
  pb_is_empty b := match b with inl a => pb_is_empty a | inr e => pb_is_empty e end;
  pb_size b := match b with inl a => pb_size a | inr e => pb_size e end;
  pb_msg_count b := match b with inl a => pb_msg_count a | inr e => pb_msg_count e end }.
End dispatch.

(** ** The registry *)

Inductive PipeManagerError :=
  | MgrExists (path : string)
  | MgrNotFound (path : string)
  | MgrClosed (path : string)
  | MgrWouldBlock (what : string)
  | MgrBackend (e : PipeError).

Inductive Wake := WakeReaders | WakeWriters | WakeAll.

Section manager.
Context {E : Type} `{!PipeBackend E}.

Abbreviation Dyn := (MemoryPipe + E)%type.

(** The backends are shared ([Arc]): the registry maps paths to cells of a store.
    [pm_notify] has a path's notification, and [pm_wakes] the calls made on it. *)
Record PipeManager := mkPipeManager {
  pm_store : gmap N Dyn;
  pm_next : N;
  pm_buffers : gmap string N;
  pm_notify : gset string;
  pm_wakes : list (string * Wake) }.

Definition manager_new : PipeManager := mkPipeManager ∅ 0 ∅ ∅ [].

Definition set_backend (l : N) (b : Dyn) (m : PipeManager) : PipeManager :=
  mkPipeManager (<[l := b]> (pm_store m)) (pm_next m) (pm_buffers m) (pm_notify m) (pm_wakes m).

(** [if let Some(n) = self.notify.get(path) { n.wake() }] *)
Definition wake (path : string) (w : Wake) (m : PipeManager) : PipeManager :=
  if decide (path ∈ pm_notify m)
  then mkPipeManager (pm_store m) (pm_next m) (pm_buffers m) (pm_notify m) (pm_wakes m ++ [(path, w)])
  else m.

Definition mgr_get (path : string) (m : PipeManager) : option (N * Dyn) :=
  l ← pm_buffers m !! path; b ← pm_store m !! l; Some (l, b).

Definition mgr_has (path : string) (m : PipeManager) : bool := bool_decide (is_Some (pm_buffers m !! path)).

(** [register]: the caller's [Arc] is the cell [l]. *)
Definition mgr_register (path : string) (l : N) (m : PipeManager) : result PipeManagerError () * PipeManager :=
  if mgr_has path m then (Err (MgrExists path), m)
  else (Ok (), mkPipeManager (pm_store m) (pm_next m) (<[path := l]> (pm_buffers m))
                 ({[path]} ∪ pm_notify m) (pm_wakes m)).

(** [Arc::new(backend)] *)
Definition alloc (b : Dyn) (m : PipeManager) : N * PipeManager :=
  (pm_next m, mkPipeManager (<[pm_next m := b]> (pm_store m)) (pm_next m + 1) (pm_buffers m)
                (pm_notify m) (pm_wakes m)).

Definition mgr_create (path : string) (capacity : N) (m : PipeManager) :
    result PipeManagerError () * PipeManager :=
  if mgr_has path m then (Err (MgrExists path), m)
  else let '(l, m) := alloc (inl (pipe_new capacity)) m in mgr_register path l m.

Definition mgr_destroy (path : string) (m : PipeManager) : result PipeManagerError () * PipeManager :=
  match mgr_get path m with
  | Some (l, b) =>
      let m := set_backend l (pb_close b) m in
      let m := wake path WakeAll m in
      (Ok (), mkPipeManager (pm_store m) (pm_next m) (delete path (pm_buffers m))
                (pm_notify m ∖ {[path]}) (pm_wakes m))
  | None => (Err (MgrNotFound path), m)
  end.

Definition mgr_close (path : string) (m : PipeManager) : result PipeManagerError () * PipeManager :=
  match mgr_get path m with
  | Some (l, b) => (Ok (), wake path WakeAll (set_backend l (pb_close b) m))
  | None => (Err (MgrNotFound path), m)
  end.

Definition mgr_size (path : string) (m : PipeManager) : option N :=
  '(_, b) ← mgr_get path m; Some (pb_size b).

Definition write_nowait (path data : string) (m : PipeManager) :
    option (result PipeManagerError N * PipeManager) :=
  match mgr_get path m with
  | None => Some (Err (MgrNotFound path), m)
  | Some (l, b) =>
      '(r, b) ← pb_push data b;
      let m := set_backend l b m in
      Some (match r with
            | Err e => (Err (MgrBackend e), m)
            | Ok n => (Ok n, wake path WakeReaders m)
            end)
  end.

Definition read_nowait (path : string) (m : PipeManager) :
    option (result PipeManagerError (option string) * PipeManager) :=
  match mgr_get path m with
  | None => Some (Err (MgrNotFound path), m)
  | Some (l, b) =>
      '(r, b) ← pb_pop b;
      let m := set_backend l b m in
      Some (match r with
            | Ok data => (Ok (Some data), wake path WakeWriters m)
            | Err PipeEmpty => (Ok None, m)
            | Err PipeClosedEmpty => (Err (MgrClosed path), m)
            | Err e => (Err (MgrBackend e), m)
            end)
  end.

(** The loop of [splice] from the cell [src] to the cell [dst]. *)
Fixpoint splice_loop (count : nat) (src dst moved : N) (m : PipeManager) :
    option (result PipeManagerError N * PipeManager) :=
  match count with
  | O => Some (Ok moved, m)
  | S count =>
      b ← pm_store m !! src;
      '(r, b) ← pb_pop b;
      let m := set_backend src b m in
      match r with
      | Err (PipeEmpty | PipeClosedEmpty) => Some (Ok moved, m)
      | Err e => Some (Err (MgrBackend e), m)
      | Ok data =>
          b ← pm_store m !! dst;
          '(r, b) ← pb_push data b;
          let m := set_backend dst b m in
          match r with
          | Ok _ => splice_loop count src dst (moved + 1) m
          | Err e =>
              b ← pm_store m !! src;
              '(_, b) ← pb_push data b;
              let m := set_backend src b m in
              match e with
              | PipeFull _ _ => Some (Ok moved, m)
              | _ => Some (Err (MgrBackend e), m)
              end
          end
      end
  end.

Definition splice (from to : string) (count : nat) (m : PipeManager) :
    option (result PipeManagerError N * PipeManager) :=
  match mgr_get from m with
  | None => Some (Err (MgrNotFound from), m)
  | Some (src, _) =>
      match mgr_get to m with
      | None => Some (Err (MgrNotFound to), m)
      | Some (dst, _) =>
          '(r, m) ← splice_loop count src dst 0 m;
          Some (match r with
                | Ok moved => (Ok moved, if (0 <? moved)%N then wake to WakeReaders m else m)
                | Err e => (Err e, m)
                end)
      end
  end.

Definition close_all (m : PipeManager) : PipeManager :=
  let m := foldr (λ '(path, l) m, match pm_store m !! l with
                                  | Some b => set_backend l (pb_close b) m
                                  | None => m
                                  end) m (map_to_list (pm_buffers m)) in
  foldr (λ path m, wake path WakeAll m) m (elements (pm_notify m)).
End manager.

Arguments PipeManager : clear implicits.

(** ** Blocking reads *)

(** Threads of one pipe: [write_nowait], [read_blocking] and [close], split where
    the mutex of the notification is taken or another thread can run.  A backend
    call is one step here. *)
Inductive PipeThread :=
  | WriteStart (data : string)
  | WriteWake (n : N)
  | WriteDone (r : result PipeManagerError N)
  | ReadStart
  | ReadWakeWriters (data : string)
  | ReadLock
  | ReadCheck
  | ReadPark
  | ReadParked
  | ReadWoken
  | ReadTimedOut
  | ReadLast
  | ReadDone (r : result PipeManagerError string)
  | CloseStart
  | CloseWake
  | CloseDone.

Record WaitSystem (B : Type) := mkWait { ws_backend : B; ws_threads : list PipeThread }.
Arguments mkWait {B}.
Arguments ws_backend {B}.
Arguments ws_threads {B}.

(** A thread at these points holds the mutex. *)
Definition holds_mutex (t : PipeThread) : bool :=
  match t with ReadCheck | ReadPark | ReadLast => true | _ => false end.

Definition mutex_free (ts : list PipeThread) : Prop := Forall (λ t, holds_mutex t = false) ts.

(** [Condvar::notify_all] on [not_empty] *)
Definition notify_readers (ts : list PipeThread) : list PipeThread :=
  (λ t, match t with ReadParked => ReadWoken | t => t end) <$> ts.

Section waiting.
Context {B : Type} `{!PipeBackend B} (path : string).

(** What a reader does with a reply; [empty] is where an empty pipe leads. *)
Definition read_reply (r : result PipeError string) (empty : PipeThread) : PipeThread :=
  match r with
  | Ok data => ReadDone (Ok data)
  | Err PipeClosedEmpty => ReadDone (Err (MgrClosed path))
  | Err PipeEmpty => empty
  | Err e => ReadDone (Err (MgrBackend e))
  end.

Inductive wait_step : WaitSystem B → WaitSystem B → Prop :=
  | wait_push b ts i data n b' :
      ts !! i = Some (WriteStart data) → pb_push data b = Some (Ok n, b') →
      wait_step (mkWait b ts) (mkWait b' (<[i := WriteWake n]> ts))
  | wait_push_err b ts i data e b' :
      ts !! i = Some (WriteStart data) → pb_push data b = Some (Err e, b') →
      wait_step (mkWait b ts) (mkWait b' (<[i := WriteDone (Err (MgrBackend e))]> ts))
  | wait_notify b ts i n j :
      ts !! i = Some (WriteWake n) → mutex_free ts → ts !! j = Some ReadParked →
      wait_step (mkWait b ts) (mkWait b (<[j := ReadWoken]> (<[i := WriteDone (Ok n)]> ts)))
  | wait_notify_none b ts i n :
      ts !! i = Some (WriteWake n) → mutex_free ts → ReadParked ∉ ts →
      wait_step (mkWait b ts) (mkWait b (<[i := WriteDone (Ok n)]> ts))
  | wait_fast_ok b ts i data b' :
      ts !! i = Some ReadStart → pb_pop b = Some (Ok data, b') →
      wait_step (mkWait b ts) (mkWait b' (<[i := ReadWakeWriters data]> ts))
  | wait_fast_err b ts i e b' :
      ts !! i = Some ReadStart → pb_pop b = Some (Err e, b') →
      wait_step (mkWait b ts) (mkWait b' (<[i := read_reply (Err e) ReadLock]> ts))
  | wait_wake_writers b ts i data :
      ts !! i = Some (ReadWakeWriters data) → mutex_free ts →
      wait_step (mkWait b ts) (mkWait b (<[i := ReadDone (Ok data)]> ts))
  | wait_lock b ts i :
      ts !! i = Some ReadLock → mutex_free ts →
      wait_step (mkWait b ts) (mkWait b (<[i := ReadCheck]> ts))
  | wait_check b ts i r b' :
      ts !! i = Some ReadCheck → pb_pop b = Some (r, b') →
      wait_step (mkWait b ts) (mkWait b' (<[i := read_reply r ReadPark]> ts))
  | wait_expired b ts i :
      ts !! i = Some ReadPark →
      wait_step (mkWait b ts) (mkWait b (<[i := ReadDone (Err (MgrWouldBlock "pipe read timeout"))]> ts))
  | wait_park b ts i :
      ts !! i = Some ReadPark →
      wait_step (mkWait b ts) (mkWait b (<[i := ReadParked]> ts))
  | wait_woken b ts i :
      ts !! i = Some ReadWoken → mutex_free ts →
      wait_step (mkWait b ts) (mkWait b (<[i := ReadCheck]> ts))
  | wait_timeout b ts i :
      ts !! i = Some ReadParked →
      wait_step (mkWait b ts) (mkWait b (<[i := ReadTimedOut]> ts))
  | wait_timed_out b ts i :
      ts !! i = Some ReadTimedOut → mutex_free ts →
      wait_step (mkWait b ts) (mkWait b (<[i := ReadLast]> ts))
  | wait_last_ok b ts i data b' :
      ts !! i = Some ReadLast → pb_pop b = Some (Ok data, b') →
      wait_step (mkWait b ts) (mkWait b' (<[i := ReadDone (Ok data)]> ts))
  | wait_last_err b ts i e b' :
      ts !! i = Some ReadLast → pb_pop b = Some (Err e, b') →
      wait_step (mkWait b ts) (mkWait b' (<[i := ReadDone (Err (match e with
        | PipeClosedEmpty => MgrClosed path
        | _ => MgrWouldBlock "pipe read timeout"
        end))]> ts))
  | wait_close b ts i :
      ts !! i = Some CloseStart →
      wait_step (mkWait b ts) (mkWait (pb_close b) (<[i := CloseWake]> ts))
  | wait_close_wake b ts i :
      ts !! i = Some CloseWake → mutex_free ts →
      wait_step (mkWait b ts) (mkWait b (notify_readers (<[i := CloseDone]> ts))).
End waiting.
