(* ===== verification/PipeManagerProofs.v ===== *)
(** * Properties of the registry of pipes

    What a backend owes the registry ([PipeLaws], which the in-memory ring
    discharges), the refinement of the registry to a map of queues, and that no
    blocked reader is left asleep while messages wait. *)

From S2P Require Import Prelude Bytes Codec Pipe PipeProofs PipeManager.

(** ** The contract of a backend *)

(** A backend is a queue with a closed mark; [pl_fits] bounds its counters. *)
Class PipeLaws (B : Type) `{!PipeBackend B} := {
  pl_rep : B → list string → Prop;
  pl_fits : B → Prop;
  pl_push data b q : pl_rep b q → pl_fits b →
    ∃ r b', pb_push data b = Some (r, b') ∧ pb_is_closed b' = pb_is_closed b ∧
      match r with
      | Ok n => pb_is_closed b = false ∧ n = slen data ∧ pl_rep b' (if (slen data =? 0)%N then q else q ++ [data])
      | Err e => b' = b ∧ (pb_is_closed b = true → e = PipeClosed "write to closed pipe")
      end;
  pl_pop b q : pl_rep b q →
    ∃ r b', pb_pop b = Some (r, b') ∧ pb_is_closed b' = pb_is_closed b ∧
      match q with
      | [] => r = Err (if pb_is_closed b then PipeClosedEmpty else PipeEmpty) ∧ pl_rep b' []
      | d :: q' => r = Ok d ∧ pl_rep b' q'
      end;
  pl_close b q : pl_rep b q → pl_rep (pb_close b) q ∧ pb_is_closed (pb_close b) = true }.

#[export, program] Instance memory_laws : PipeLaws MemoryPipe := {
  pl_rep := pipe_rep; pl_fits := counters_fit }.
Next Obligation.
  intros data p q Hrep Hfit. destruct (push_spec data p q Hrep Hfit) as (r & p' & E & Hr).
  exists r, p'. destruct (push_fixed _ _ _ _ E) as [Hc Hk]. split; [done|]. split; [done|]. cbn.
  destruct r as [n|e]; destruct (closed p); naive_solver.
Qed.
Next Obligation.
  intros p q Hrep. destruct (pop_spec p q Hrep) as (r & p' & E & Hc & _ & Hr). by exists r, p'.
Qed.
Next Obligation. intros p q [Hr Hu]. split; [|done]. split; [|done]. split; apply Hr. Qed.

Section dispatch.
Context {A E : Type} `{!PipeBackend A, !PipeBackend E, !PipeLaws A, !PipeLaws E}.

Definition dyn_rep (b : A + E) (q : list string) : Prop :=
  match b with inl a => pl_rep a q | inr e => pl_rep e q end.
Definition dyn_fits (b : A + E) : Prop := match b with inl a => pl_fits a | inr e => pl_fits e end.

#[export, program] Instance dyn_laws : PipeLaws (A + E) := { pl_rep := dyn_rep; pl_fits := dyn_fits }.
Next Obligation.
  intros data [a|e] q Hrep Hfit; destruct (pl_push data _ q Hrep Hfit) as (r & b' & Ep & Hc & Hr).
  - exists r, (inl b'). cbn. rewrite Ep. split; [done|]. split; [done|]. destruct r; [done|].
    destruct Hr as [-> ?]. done.
  - exists r, (inr b'). cbn. rewrite Ep. split; [done|]. split; [done|]. destruct r; [done|].
    destruct Hr as [-> ?]. done.
Qed.
Next Obligation.
  intros [a|e] q Hrep; destruct (pl_pop _ q Hrep) as (r & b' & Ep & Hc & Hr).
  - exists r, (inl b'). cbn. by rewrite Ep.
  - exists r, (inr b'). cbn. by rewrite Ep.
Qed.
Next Obligation. intros [a|e] q Hrep; by destruct (pl_close _ q Hrep). Qed.
End dispatch.

(** ** Blocked readers *)

(** A notification that is on its way, or a reader it has reached. *)
Definition in_flight (t : PipeThread) : nat :=
  match t with WriteWake _ | ReadWoken | ReadCheck => 1 | _ => 0 end.

Definition waits (t : PipeThread) : bool := match t with ReadPark | ReadParked => true | _ => false end.

Definition count_threads (f : PipeThread → nat) (ts : list PipeThread) : nat := sum_list_with f ts.
Arguments count_threads : simpl never.

Lemma count_insert f ts i x y :
  ts !! i = Some x → (count_threads f (<[i := y]> ts) + f x = count_threads f ts + f y)%nat.
Proof.
  unfold count_threads. revert i. induction ts as [|t ts IH]; intros [|i] Hi; try done; simpl in *.
  - injection Hi as ->. lia.
  - specialize (IH i Hi). lia.
Qed.

Definition some_waits (ts : list PipeThread) : Prop := ∃ j t, ts !! j = Some t ∧ waits t.

Lemma some_waits_insert ts i y : waits y = false → some_waits (<[i := y]> ts) → some_waits ts.
Proof.
  intros Hy (j & t & Hj & Ht). apply list_lookup_insert_Some in Hj as [(-> & <- & _)|(_ & Hj)].
  - by rewrite Hy in Ht.
  - by exists j, t.
Qed.

Lemma closing_insert (ts : list PipeThread) i x y :
  ts !! i = Some x → x ≠ CloseWake → CloseWake ∈ ts → CloseWake ∈ <[i := y]> ts.
Proof.
  intros Hi Hx [j Hj]%list_elem_of_lookup. apply list_elem_of_lookup. exists j.
  rewrite list_lookup_insert_ne; [done|]. intros ->. congruence.
Qed.

Section waiting.
Context {B : Type} `{!PipeBackend B, !PipeLaws B} (path : string).

Definition wait_inv (s : WaitSystem B) : Prop :=
  ∃ q, pl_rep (ws_backend s) q ∧
    (some_waits (ws_threads s) →
     (length q ≤ count_threads in_flight (ws_threads s))%nat ∧
     (pb_is_closed (ws_backend s) = true → CloseWake ∈ ws_threads s)).

(** A step of one thread that leaves the backend's queue and mark. *)
Lemma wait_inv_move b ts i x y :
  ts !! i = Some x → (in_flight x ≤ in_flight y)%nat → waits y = false ∨ waits x = true → x ≠ CloseWake →
  wait_inv (mkWait b ts) → wait_inv (mkWait b (<[i := y]> ts)).
Proof.
  intros Hi Hf Hw Hx (q & Hq & H). exists q. split; [done|]. cbn in *. intros Hs.
  assert (some_waits ts) as [Hlen Hc]%H.
  { destruct Hw as [Hw|Hw]; [by eapply some_waits_insert|]. exists i, x. by rewrite Hw. }
  pose proof (count_insert in_flight ts i x y Hi). split; [lia|]. intros Hcl. eapply closing_insert; eauto.
Qed.

(** A step of one thread that takes a message, or finds none. *)
Lemma wait_inv_pop b b' ts i x y r :
  ts !! i = Some x → pb_pop b = Some (r, b') → (in_flight x ≤ 1)%nat → x ≠ CloseWake →
  (waits y = true → r = Err PipeEmpty) →
  wait_inv (mkWait b ts) → wait_inv (mkWait b' (<[i := y]> ts)).
Proof.
  intros Hi Hp Hf Hx Hy (q & Hq & H). cbn in *.
  destruct (pl_pop b q Hq) as (r' & b'' & E & Hc & Hr). rewrite E in Hp. injection Hp as -> ->.
  pose proof (count_insert in_flight ts i x y Hi) as Hcount.
  destruct q as [|d q]; destruct Hr as [-> Hq'].
  - exists []. split; [done|]. cbn. intros Hs. split; [lia|]. rewrite Hc. intros Hcl. rewrite Hcl in Hy.
    destruct (waits y) eqn:Hw; [by specialize (Hy eq_refl)|].
    eapply closing_insert; [done|done|]. apply H; [|done]. by eapply some_waits_insert.
  - exists q. split; [done|]. cbn. intros Hs. destruct (waits y) eqn:Hw; [by specialize (Hy eq_refl)|].
    apply some_waits_insert in Hs as [Hlen Hcl]%H; [|done]. cbn in Hlen. split; [lia|].
    rewrite Hc. intros ?. eapply closing_insert; eauto.
Qed.

Lemma wait_inv_push b b' ts i data r y :
  ts !! i = Some (WriteStart data) → pl_fits b → pb_push data b = Some (r, b') → waits y = false →
  (∀ n, r = Ok n → in_flight y = 1%nat) →
  wait_inv (mkWait b ts) → wait_inv (mkWait b' (<[i := y]> ts)).
Proof.
  intros Hi Hfit Hp Hy Hw (q & Hq & H). cbn in *.
  destruct (pl_push data b q Hq Hfit) as (r' & b'' & E & Hc & Hr). rewrite E in Hp. injection Hp as -> ->.
  pose proof (count_insert in_flight ts i _ y Hi) as Hcount. cbn in Hcount. destruct r as [n|e].
  - destruct Hr as (Hop & _ & Hq'). eexists. split; [exact Hq'|]. cbn. intros Hs.
    apply some_waits_insert in Hs as [Hlen Hcl]%H; [|done]. rewrite (Hw n) in Hcount by done. split; [|congruence].
    destruct (_ =? _)%N; [lia|]. rewrite length_app. cbn. lia.
  - destruct Hr as [-> _]. exists q. split; [done|]. cbn. intros Hs.
    apply some_waits_insert in Hs as [Hlen Hcl]%H; [|done]. split; [lia|]. intros ?. eapply closing_insert; eauto.
Qed.

Lemma mutex_free_waits ts j t : mutex_free ts → ts !! j = Some t → waits t → t = ReadParked.
Proof. intros Hm Hj Ht. pose proof (Forall_lookup_1 _ _ _ _ Hm Hj). by destruct t. Qed.

(** A notification moves from its sender to a parked reader. *)
Lemma wait_inv_notify b ts i n j :
  ts !! i = Some (WriteWake n) → ts !! j = Some ReadParked →
  wait_inv (mkWait b ts) → wait_inv (mkWait b (<[j := ReadWoken]> (<[i := WriteDone (Ok n)]> ts))).
Proof.
  intros Hi Hj (q & Hq & H). exists q. split; [done|]. cbn. intros _.
  destruct H as [Hlen Hc]; [by exists j, ReadParked|]. cbn in *.
  assert (<[i := WriteDone (Ok n)]> ts !! j = Some ReadParked) as Hj'
    by (rewrite list_lookup_insert_ne; [done|congruence]).
  pose proof (count_insert in_flight ts i _ (WriteDone (Ok n)) Hi) as Hc1.
  pose proof (count_insert in_flight _ j _ ReadWoken Hj') as Hc2. cbn in *. split; [lia|].
  intros ?. eapply closing_insert; [done|done|]. eapply closing_insert; eauto.
Qed.

Lemma notify_readers_none ts i y :
  mutex_free ts → waits y = false → ¬ some_waits (notify_readers (<[i := y]> ts)).
Proof.
  intros Hm Hy (j & t & Hj & Ht). unfold notify_readers in Hj. rewrite list_lookup_fmap in Hj.
  destruct (<[i := y]> ts !! j) as [u|] eqn:Hu; [|done]. injection Hj as <-.
  apply list_lookup_insert_Some in Hu as [(_ & <- & _)|(_ & Hu)]; [by destruct y|].
  destruct (waits u) eqn:Hw; [|by destruct u].
  rewrite (mutex_free_waits _ _ _ Hm Hu) in Ht; [done|by rewrite Hw].
Qed.

Lemma read_reply_waits r : waits (read_reply path r ReadPark) = true → r = Err PipeEmpty.
Proof. by destruct r as [|[]]. Qed.

Lemma wait_step_inv s s' :
  pl_fits (ws_backend s) → wait_step path s s' → wait_inv s → wait_inv s'.
Proof.
  intros Hfit Hstep Hinv. destruct Hstep as
    [b ts i data n b' Hi Hp|b ts i data e b' Hi Hp|b ts i n j Hi Hm Hj|b ts i n Hi Hm Hj|b ts i data b' Hi Hp
    |b ts i e b' Hi Hp|b ts i data Hi Hm|b ts i Hi Hm|b ts i r b' Hi Hp|b ts i Hi|b ts i Hi|b ts i Hi Hm|b ts i Hi
    |b ts i Hi Hm|b ts i data b' Hi Hp|b ts i e b' Hi Hp|b ts i Hi|b ts i Hi Hm]; cbn in Hfit.
  - by eapply wait_inv_push.
  - by eapply wait_inv_push.
  - by eapply wait_inv_notify.
  - destruct Hinv as (q & Hq & _). exists q. split; [done|]. cbn. intros (k & t & Hk & Ht)%some_waits_insert; [|done].
    rewrite (mutex_free_waits _ _ _ Hm Hk Ht) in Hk. by apply list_elem_of_lookup_2 in Hk.
  - eapply wait_inv_pop; try done; cbn; lia.
  - eapply wait_inv_pop; try done; cbn; [lia|]. by destruct e.
  - by eapply wait_inv_move; [done|cbn; lia|left|..].
  - by eapply wait_inv_move; [done|cbn; lia|left|..].
  - eapply wait_inv_pop; try done; apply read_reply_waits.
  - by eapply wait_inv_move; [done|cbn; lia|left|..].
  - by eapply wait_inv_move; [done|cbn; lia|right|..].
  - by eapply wait_inv_move; [done|cbn; lia|left|..].
  - by eapply wait_inv_move; [done|cbn; lia|left|..].
  - by eapply wait_inv_move; [done|cbn; lia|left|..].
  - eapply wait_inv_pop; try done; cbn; lia.
  - eapply wait_inv_pop; try done; cbn; lia.
  - destruct Hinv as (q & Hq & H). destruct (pl_close b q Hq) as [Hq' Hc]. exists q. split; [done|]. cbn.
    pose proof (count_insert in_flight ts i _ CloseWake Hi) as Hcount. cbn in Hcount.
    intros Hs%some_waits_insert; [|done]. destruct (H Hs) as [Hl _]. cbn in Hl. split; [lia|]. intros _.
    apply list_elem_of_lookup. exists i. apply list_lookup_insert_eq. by eapply lookup_lt_Some.
  - destruct Hinv as (q & Hq & _). exists q. split; [done|]. intros Hs. exfalso. revert Hs.
    by apply notify_readers_none.
Qed.

(** A call that has not begun. *)
Definition starting (t : PipeThread) : bool :=
  match t with WriteStart _ | ReadStart | CloseStart => true | _ => false end.

(** Steps taken while the byte counters are within their width. *)
Definition fitting_step (s s' : WaitSystem B) : Prop := pl_fits (ws_backend s) ∧ wait_step path s s'.

(** C33: No wake-up is lost: with any number of writers, blocking readers and
    closers on a pipe, interleaved in any way, whenever a reader is parked there
    are at least as many notifications on their way, or readers awake to take a
    message, as messages in the pipe; and if the pipe is closed, the closer has
    yet to wake everyone. *)
Theorem no_lost_wakeup b ts s q0
    (Hrep : pl_rep b q0) (Hstart : Forall starting ts) (Hreach : rtc fitting_step (mkWait b ts) s) :
  ∃ q, pl_rep (ws_backend s) q ∧
    (ReadParked ∈ ws_threads s →
     (length q ≤ count_threads in_flight (ws_threads s))%nat ∧
     (pb_is_closed (ws_backend s) = true → CloseWake ∈ ws_threads s)).
Proof.
  assert (wait_inv (mkWait b ts)) as Hinv.
  { exists q0. split; [done|]. cbn. intros (j & t & Hj & Ht). pose proof (Forall_lookup_1 _ _ _ _ Hstart Hj). by destruct t. }
  assert (wait_inv s) as (q & Hq & H).
  { clear Hstart Hrep. induction Hreach as [|s1 s2 s3 [Hf H12] _ IH]; [done|]. by eapply IH, wait_step_inv. }
  exists q. split; [done|]. intros [j Hj]%list_elem_of_lookup. apply H. by exists j, ReadParked.
Qed.
End waiting.

(** A reader parks on an empty pipe, and a message is pushed. *)
Lemma no_lost_wakeup_witness :
  ∃ s : WaitSystem MemoryPipe, ws_threads s = [ReadParked; WriteWake 2] ∧
    ∃ q, pipe_rep (ws_backend s) q ∧ (length q ≤ 1)%nat.
Proof.
  assert (∃ s, rtc (fitting_step "/p") (mkWait (pipe_new 8) [ReadStart; WriteStart "ab"]) s ∧
    ws_threads s = [ReadParked; WriteWake 2]) as (s & Hrun & Hts).
  { eexists. split.
    - eapply rtc_l; [split; [done|eapply (wait_fast_err _ _ _ 0); [done|vm_compute; reflexivity]]|].
      eapply rtc_l; [split; [done|by eapply (wait_lock _ _ _ 0); [|repeat constructor]]|].
      eapply rtc_l; [split; [done|eapply (wait_check _ _ _ 0); [done|vm_compute; reflexivity]]|].
      eapply rtc_l; [split; [done|by eapply (wait_park _ _ _ 0)]|].
      eapply rtc_l; [split; [done|eapply (wait_push _ _ _ 1); [done|vm_compute; reflexivity]]|].
      apply rtc_refl.
    - done. }
  exists s. split; [done|].
  destruct (no_lost_wakeup "/p" (pipe_new 8) [ReadStart; WriteStart "ab"] s []) as (q & Hq & H).
  - destruct (pipe_start_inv 8 ltac:(done)) as (q & Hq & Hr & _). destruct q; [|done]. by split.
  - by repeat constructor.
  - done.
  - exists q. split; [done|]. rewrite Hts in H. apply H. by left.
Defined.

(** ** The registry refines a map of queues *)

Inductive PipeOp :=
  | OpCreate (path : string) (capacity : N)
  | OpRegister (path : string) (l : N)
  | OpDestroy (path : string)
  | OpClose (path : string)
  | OpWrite (path data : string)
  | OpRead (path : string).

Inductive Reply :=
  | ReplyOk
  | ReplyWrote (n : N)
  | ReplyRead (data : option string)
  | ReplyErr (e : PipeManagerError).

(** The specification: named cells, each a queue with a closed mark. *)
Record Queues := mkQueues { q_names : gmap string N; q_cells : gmap N (list string * bool) }.

Definition frame_of (data : string) : list string := if (slen data =? 0)%N then [] else [data].

Inductive queue_step : PipeOp → Queues → Reply → Queues → Prop :=
  | q_create path capacity names cells l :
      names !! path = None → cells !! l = None →
      queue_step (OpCreate path capacity) (mkQueues names cells) ReplyOk
        (mkQueues (<[path := l]> names) (<[l := ([], false)]> cells))
  | q_create_exists path capacity s :
      is_Some (q_names s !! path) → queue_step (OpCreate path capacity) s (ReplyErr (MgrExists path)) s
  | q_register path l names cells :
      names !! path = None →
      queue_step (OpRegister path l) (mkQueues names cells) ReplyOk (mkQueues (<[path := l]> names) cells)
  | q_register_exists path l s :
      is_Some (q_names s !! path) → queue_step (OpRegister path l) s (ReplyErr (MgrExists path)) s
  | q_destroy path names cells l q c :
      names !! path = Some l → cells !! l = Some (q, c) →
      queue_step (OpDestroy path) (mkQueues names cells) ReplyOk
        (mkQueues (delete path names) (<[l := (q, true)]> cells))
  | q_close path names cells l q c :
      names !! path = Some l → cells !! l = Some (q, c) →
      queue_step (OpClose path) (mkQueues names cells) ReplyOk (mkQueues names (<[l := (q, true)]> cells))
  | q_write path data names cells l q :
      names !! path = Some l → cells !! l = Some (q, false) →
      queue_step (OpWrite path data) (mkQueues names cells) (ReplyWrote (slen data))
        (mkQueues names (<[l := (q ++ frame_of data, false)]> cells))
  | q_refuse path data s l q c e :
      q_names s !! path = Some l → q_cells s !! l = Some (q, c) →
      (c = true → e = PipeClosed "write to closed pipe") →
      queue_step (OpWrite path data) s (ReplyErr (MgrBackend e)) s
  | q_read path names cells l d q c :
      names !! path = Some l → cells !! l = Some (d :: q, c) →
      queue_step (OpRead path) (mkQueues names cells) (ReplyRead (Some d))
        (mkQueues names (<[l := (q, c)]> cells))
  | q_read_empty path s l :
      q_names s !! path = Some l → q_cells s !! l = Some ([], false) →
      queue_step (OpRead path) s (ReplyRead None) s
  | q_read_closed path s l :
      q_names s !! path = Some l → q_cells s !! l = Some ([], true) →
      queue_step (OpRead path) s (ReplyErr (MgrClosed path)) s
  | q_missing op path s :
      q_names s !! path = None →
      op = OpDestroy path ∨ op = OpClose path ∨ op = OpRead path ∨ (∃ data, op = OpWrite path data) →
      queue_step op s (ReplyErr (MgrNotFound path)) s.

Section registry.
Context {E : Type} `{!PipeBackend E, !PipeLaws E}.

Definition unit_reply (r : result PipeManagerError () * PipeManager E) : option (Reply * PipeManager E) :=
  Some (match r.1 with Ok _ => ReplyOk | Err e => ReplyErr e end, r.2).

Definition run_op (op : PipeOp) (m : PipeManager E) : option (Reply * PipeManager E) :=
  match op with
  | OpCreate path capacity => unit_reply (mgr_create path capacity m)
  | OpRegister path l => unit_reply (mgr_register path l m)
  | OpDestroy path => unit_reply (mgr_destroy path m)
  | OpClose path => unit_reply (mgr_close path m)
  | OpWrite path data =>
      '(r, m) ← write_nowait path data m;
      Some (match r with Ok n => ReplyWrote n | Err e => ReplyErr e end, m)
  | OpRead path =>
      '(r, m) ← read_nowait path m;
      Some (match r with Ok d => ReplyRead d | Err e => ReplyErr e end, m)
  end.

Definition cell_rep (b : MemoryPipe + E) (c : list string * bool) : Prop :=
  pl_rep b c.1 ∧ pb_is_closed b = c.2.

Record mgr_rep (m : PipeManager E) (s : Queues) : Prop := {
  mr_names : pm_buffers m = q_names s;
  mr_cells : ∀ l, option_Forall2 cell_rep (pm_store m !! l) (q_cells s !! l);
  mr_live : ∀ path l, pm_buffers m !! path = Some l → is_Some (pm_store m !! l);
  mr_fresh : ∀ l, (pm_next m ≤ l)%N → pm_store m !! l = None;
  mr_notify : pm_notify m = dom (pm_buffers m) }.

(** What a caller owes an operation. *)
Definition op_ok (op : PipeOp) (m : PipeManager E) : Prop :=
  match op with
  | OpCreate _ capacity => (0 < capacity < U32_MOD)%N
  | OpRegister _ l => is_Some (pm_store m !! l)
  | OpWrite path _ => ∀ l b, mgr_get path m = Some (l, b) → pl_fits b
  | _ => True
  end.

Lemma mgr_rep_wake path w m s : mgr_rep m s → mgr_rep (wake path w m) s.
Proof. intros H. unfold wake. case_decide; [|done]. split; apply H. Qed.

Lemma mgr_rep_set m names cells l b c :
  mgr_rep m (mkQueues names cells) → is_Some (pm_store m !! l) → cell_rep b c →
  mgr_rep (set_backend l b m) (mkQueues names (<[l := c]> cells)).
Proof.
  intros H [b0 Hl] Hc. split; cbn; try apply H.
  - intros k. destruct (decide (k = l)) as [->|Hk].
    + rewrite !lookup_insert_eq. by constructor.
    + rewrite !lookup_insert_ne by done. apply H.
  - intros path k Hk. destruct (decide (k = l)) as [->|Hkl]; [by rewrite lookup_insert_eq|].
    rewrite lookup_insert_ne by done. by apply (mr_live _ _ H path).
  - intros k Hk. rewrite lookup_insert_ne; [by apply H|]. intros ->. rewrite (mr_fresh _ _ H) in Hl; done.
Qed.

Lemma mgr_get_cases path m s :
  mgr_rep m s →
  (mgr_get path m = None ∧ q_names s !! path = None) ∨
  (∃ l b c, mgr_get path m = Some (l, b) ∧ q_names s !! path = Some l ∧ q_cells s !! l = Some c ∧
     pm_store m !! l = Some b ∧ cell_rep b c).
Proof.
  intros H. unfold mgr_get. rewrite <-(mr_names _ _ H). destruct (pm_buffers m !! path) as [l|] eqn:Hl; [|by left].
  right. destruct (mr_live _ _ H path l Hl) as [b Hb]. pose proof (mr_cells _ _ H l) as Hc. rewrite Hb in Hc.
  inversion Hc as [? c Hbc|]; subst. exists l, b, c. cbn. by rewrite Hb.
Qed.

Lemma mgr_rep_insert m names cells path l :
  mgr_rep m (mkQueues names cells) → is_Some (pm_store m !! l) →
  mgr_rep (mkPipeManager (pm_store m) (pm_next m) (<[path := l]> (pm_buffers m)) ({[path]} ∪ pm_notify m) (pm_wakes m))
    (mkQueues (<[path := l]> names) cells).
Proof.
  intros H Hl. split; cbn; try apply H.
  - by rewrite (mr_names _ _ H).
  - intros p k. destruct (decide (p = path)) as [->|Hp].
    + rewrite lookup_insert_eq. by intros [= <-].
    + rewrite lookup_insert_ne by done. apply H.
  - by rewrite (mr_notify _ _ H), dom_insert_L.
Qed.

Lemma mgr_rep_delete m names cells path :
  mgr_rep m (mkQueues names cells) →
  mgr_rep (mkPipeManager (pm_store m) (pm_next m) (delete path (pm_buffers m)) (pm_notify m ∖ {[path]}) (pm_wakes m))
    (mkQueues (delete path names) cells).
Proof.
  intros H. split; cbn; try apply H.
  - by rewrite (mr_names _ _ H).
  - intros p k [_ Hp]%lookup_delete_Some. by apply (mr_live _ _ H p).
  - by rewrite (mr_notify _ _ H), dom_delete_L.
Qed.

Lemma mgr_rep_alloc m names cells b c :
  mgr_rep m (mkQueues names cells) → cell_rep b c →
  cells !! pm_next m = None ∧ mgr_rep (alloc b m).2 (mkQueues names (<[pm_next m := c]> cells)).
Proof.
  intros H Hc. split.
  { pose proof (mr_cells _ _ H (pm_next m)) as Hn. rewrite (mr_fresh _ _ H) in Hn by lia. by inversion Hn. }
  split; cbn; try apply H.
  - intros k. destruct (decide (k = pm_next m)) as [->|Hk].
    + rewrite !lookup_insert_eq. by constructor.
    + rewrite !lookup_insert_ne by done. apply H.
  - intros path k Hk. destruct (decide (k = pm_next m)) as [->|Hkl]; [by rewrite lookup_insert_eq|].
    rewrite lookup_insert_ne by done. by apply (mr_live _ _ H path).
  - intros k Hk. rewrite lookup_insert_ne by lia. apply H. lia.
Qed.

Lemma mgr_has_spec path m s : mgr_rep m s → mgr_has path m = bool_decide (is_Some (q_names s !! path)).
Proof. intros H. unfold mgr_has. by rewrite (mr_names _ _ H). Qed.

Lemma create_refines path capacity m s :
  mgr_rep m s → (0 < capacity < U32_MOD)%N →
  ∃ r m' s', run_op (OpCreate path capacity) m = Some (r, m') ∧
    queue_step (OpCreate path capacity) s r s' ∧ mgr_rep m' s'.
Proof.
  intros H Hcap. cbn [run_op]. unfold mgr_create. rewrite (mgr_has_spec _ _ _ H).
  case_bool_decide as Hn.
  { exists (ReplyErr (MgrExists path)), m, s. split_and!; [done|by constructor|done]. }
  destruct s as [names cells]. cbn in Hn. apply eq_None_not_Some in Hn.
  destruct (mgr_rep_alloc m names cells (inl (pipe_new capacity)) ([], false) H) as [Hl Ha].
  { destruct (pipe_start_inv capacity Hcap) as (q & Hq & Hr & _). destruct q; [|done]. by repeat split; try apply Hr. }
  cbn [alloc] in *. unfold mgr_register, mgr_has. cbn [pm_buffers].
  rewrite bool_decide_eq_false_2 by (rewrite (mr_names _ _ H); by apply eq_None_not_Some).
  do 3 eexists. split; [reflexivity|]. split; [by apply (q_create path capacity names cells (pm_next m))|].
  apply (mgr_rep_insert _ _ _ path (pm_next m)) in Ha; [done|]. cbn. by rewrite lookup_insert_eq.
Qed.

Lemma register_refines path l m s :
  mgr_rep m s → is_Some (pm_store m !! l) →
  ∃ r m' s', run_op (OpRegister path l) m = Some (r, m') ∧
    queue_step (OpRegister path l) s r s' ∧ mgr_rep m' s'.
Proof.
  intros H Hl. cbn [run_op]. unfold mgr_register. rewrite (mgr_has_spec _ _ _ H). case_bool_decide as Hn.
  { exists (ReplyErr (MgrExists path)), m, s. split_and!; [done|by constructor|done]. }
  destruct s as [names cells]. cbn in Hn. apply eq_None_not_Some in Hn.
  do 3 eexists. split; [reflexivity|]. split; [by apply (q_register path l names cells)|].
  by apply mgr_rep_insert.
Qed.

Lemma close_refines path m s :
  mgr_rep m s →
  (∃ r m' s', run_op (OpDestroy path) m = Some (r, m') ∧ queue_step (OpDestroy path) s r s' ∧ mgr_rep m' s') ∧
  (∃ r m' s', run_op (OpClose path) m = Some (r, m') ∧ queue_step (OpClose path) s r s' ∧ mgr_rep m' s').
Proof.
  intros H. cbn [run_op]. unfold mgr_destroy, mgr_close.
  destruct (mgr_get_cases path m s H) as [[-> Hn]|(l & b & [q c] & -> & Hn & Hq & Hb & Hrep & Hc)].
  { split; do 3 eexists; (split; [reflexivity|]; split; [|exact H]); apply q_missing; auto. }
  destruct s as [names cells]. cbn [q_names q_cells fst snd] in *. destruct (pl_close b q Hrep) as [Hrep' Hc'].
  assert (mgr_rep (wake path WakeAll (set_backend l (pb_close b) m)) (mkQueues names (<[l := (q, true)]> cells))) as Hw.
  { apply mgr_rep_wake, mgr_rep_set; [done|by rewrite Hb|done]. }
  split; do 3 eexists; (split; [reflexivity|]).
  - split; [by eapply q_destroy|]. by apply mgr_rep_delete.
  - split; [by eapply q_close|]. exact Hw.
Qed.

Lemma write_refines path data m s :
  mgr_rep m s → (∀ l b, mgr_get path m = Some (l, b) → pl_fits b) →
  ∃ r m' s', run_op (OpWrite path data) m = Some (r, m') ∧
    queue_step (OpWrite path data) s r s' ∧ mgr_rep m' s'.
Proof.
  intros H Hfit. cbn [run_op]. unfold write_nowait.
  destruct (mgr_get_cases path m s H) as [[-> Hn]|(l & b & [q c] & Hg & Hn & Hq & Hb & Hrep & Hc)].
  { do 3 eexists. split; [reflexivity|]. split; [|exact H]. apply q_missing; eauto. }
  rewrite Hg. destruct s as [names cells]. cbn [q_names q_cells fst snd] in *.
  destruct (pl_push data b q Hrep (Hfit l b Hg)) as (r & b' & E' & Hcl & Hr). rewrite E'. cbn [mbind option_bind].
  destruct r as [n|e].
  - destruct Hr as (Hop & -> & Hq'). do 3 eexists. split; [reflexivity|]. assert (c = false) as -> by congruence. split.
    + by eapply q_write.
    + apply mgr_rep_wake, mgr_rep_set; [done|by rewrite Hb|]. split; [|by rewrite Hcl]. cbn. unfold frame_of.
      destruct (_ =? _)%N; [by rewrite app_nil_r|done].
  - destruct Hr as [-> He]. do 3 eexists. split; [reflexivity|]. split; [eapply q_refuse; [done|done|intros ->; by apply He]|].
    rewrite <-(insert_id cells l (q, c)) by done. apply mgr_rep_set; [done|by rewrite Hb|done].
Qed.

Lemma read_refines path m s :
  mgr_rep m s →
  ∃ r m' s', run_op (OpRead path) m = Some (r, m') ∧ queue_step (OpRead path) s r s' ∧ mgr_rep m' s'.
Proof.
  intros H. cbn [run_op]. unfold read_nowait.
  destruct (mgr_get_cases path m s H) as [[-> Hn]|(l & b & [q c] & -> & Hn & Hq & Hb & Hrep & Hc)].
  { do 3 eexists. split; [reflexivity|]. split; [|exact H]. apply q_missing; eauto. }
  destruct s as [names cells]. cbn [q_names q_cells fst snd] in *.
  destruct (pl_pop b q Hrep) as (r & b' & -> & Hcl & Hr). cbn [mbind option_bind].
  assert (∀ q', pl_rep b' q' → mgr_rep (set_backend l b' m) (mkQueues names (<[l := (q', c)]> cells))) as Hset.
  { intros q' Hq'. apply mgr_rep_set; [done|by rewrite Hb|]. split; [done|]. cbn [snd]. congruence. }
  destruct q as [|d q]; destruct Hr as [-> Hq'].
  - specialize (Hset [] Hq'). rewrite insert_id in Hset by done. rewrite Hc.
    destruct c; do 3 eexists; (split; [reflexivity|]; split; [|exact Hset]).
    + by eapply q_read_closed.
    + by eapply q_read_empty.
  - do 3 eexists. split; [reflexivity|]. split; [by eapply q_read|]. by apply mgr_rep_wake, Hset.
Qed.

End registry.

Lemma manager_new_rep {E} `{!PipeBackend E, !PipeLaws E} : mgr_rep (E := E) manager_new (mkQueues ∅ ∅).
Proof.
  split; cbn; try done. intros l. rewrite !lookup_empty. constructor.
Qed.

Definition piped (ops : list PipeOp) : PipeManager MemoryPipe :=
  foldl (λ m op, match run_op op m with Some (_, m) => m | None => m end) manager_new ops.


(** ** [splice] *)

(** The pipes "/a", holding [xs], and "/b", holding [ys]. *)
Definition two_pipes (xs ys : list string) : PipeManager MemoryPipe :=
  let run op m := match run_op op m with Some (_, m) => m | None => m end in
  let m := run (OpCreate "/b" 8) (run (OpCreate "/a" 8) manager_new) in
  foldl (λ m d, run (OpWrite "/b" d) m) (foldl (λ m d, run (OpWrite "/a" d) m) m xs) ys.

Definition drain (path : string) (m : PipeManager MemoryPipe) : list string :=
  let fix go n m := match n with
    | O => []
    | S n => match read_nowait path m with
             | Some (Ok (Some d), m) => d :: go n m
             | _ => []
             end
    end in go 10 m.

(** A message the destination refuses goes to the end of its source: the order
    of the source changes; a closed source drops it. *)
Theorem splice_reorders_and_loses :
  (∃ m, splice "/a" "/b" 2 (two_pipes ["x"; "y"] ["12345678"]) = Some (Ok 0%N, m) ∧ drain "/a" m = ["y"; "x"]) ∧
  (∃ m, splice "/a" "/b" 2 (mgr_close "/a" (two_pipes ["x"; "y"] ["12345678"])).2 = Some (Ok 0%N, m) ∧
     drain "/a" m = ["y"] ∧ drain "/b" m = ["12345678"]).
Proof. split; eexists; (split; [vm_compute; reflexivity|]); by vm_compute. Qed.

(** Two messages, one notification. *)
Theorem splice_wakes_once :
  ∃ m, splice "/a" "/b" 2 (two_pipes ["x"; "y"] []) = Some (Ok 2%N, m) ∧
    drain "/b" m = ["x"; "y"] ∧ filter (λ w, w.1 = "/b") (pm_wakes m) = [("/b", WakeReaders)].
Proof. eexists. split; [vm_compute; reflexivity|]. split; by vm_compute. Qed.
