(* ===== verification/StreamBuf.v ===== *)
(** * In-memory streams

    src/rust/kernel/src/core/stream/mod.rs: the append-only buffer behind
    DT_STREAM ([MemoryStreamBackend]), its reads by byte offset, and the steps of a
    writer and a reader that run concurrently. *)

From S2P Require Import Prelude Bytes Codec.

Definition FRAME_HEADER : N := 4.

Inductive StreamError :=
  | StreamClosed (what : string)
  | StreamFull (tail capacity : N)
  | StreamEmpty
  | StreamClosedEmpty
  | StreamOversized (len capacity : N)
  | StreamInvalidOffset (offset tail : N)
  | StreamTruncated (earliest requested : N)
  | StreamReadFailed (what : string)
  | StreamNotReplicated (what : string).

Record MemoryStream := mkStream {
  ms_buf : string;
  ms_capacity : N;
  ms_tail : N;
  ms_closed : bool;
  ms_push_count : N;
  ms_msg_count : N;
  ms_last_append : Z }.

Definition stream_new (capacity : N) : MemoryStream :=
  mkStream (zeros (N.to_nat capacity)) capacity 0 false 0 0 0.

Definition stream_close (s : MemoryStream) : MemoryStream :=
  mkStream (ms_buf s) (ms_capacity s) (ms_tail s) true (ms_push_count s) (ms_msg_count s) (ms_last_append s).

Definition with_buf (b : string) (s : MemoryStream) : MemoryStream :=
  mkStream b (ms_capacity s) (ms_tail s) (ms_closed s) (ms_push_count s) (ms_msg_count s) (ms_last_append s).

(** ** [push] *)

(** Before the writer lock: [Some r] returns. *)
Definition stream_admit (data : string) (s : MemoryStream) : option (result StreamError N) :=
  if ms_closed s then Some (Err (StreamClosed "write to closed stream"))
  else if (slen data =? 0)%N then Some (Ok (ms_tail s))
  else if (ms_capacity s <? slen data)%N then Some (Err (StreamOversized (slen data) (ms_capacity s)))
  else None.

Definition stream_full (data : string) (s : MemoryStream) : bool :=
  (ms_capacity s <? ms_tail s + (FRAME_HEADER + slen data))%N.

Definition write_header (data : string) (s : MemoryStream) : option MemoryStream :=
  b ← overwrite (ms_tail s) (u32_to_le (wrap32 (slen data))) (ms_buf s); Some (with_buf b s).

Definition write_payload (data : string) (s : MemoryStream) : option MemoryStream :=
  b ← overwrite (ms_tail s + FRAME_HEADER) data (ms_buf s); Some (with_buf b s).

Definition publish_tail (data : string) (s : MemoryStream) : MemoryStream :=
  mkStream (ms_buf s) (ms_capacity s) (ms_tail s + (FRAME_HEADER + slen data)) (ms_closed s)
    (ms_push_count s) (ms_msg_count s) (ms_last_append s).

(** The counters and [stamp_now_monotonic]: the clock reads [now]. *)
Definition count_append (now : Z) (s : MemoryStream) : MemoryStream :=
  mkStream (ms_buf s) (ms_capacity s) (ms_tail s) (ms_closed s) (wrap64 (ms_push_count s + 1))
    (wrap64 (ms_msg_count s + 1)) (Z.max (ms_last_append s) now).

Definition last_append_ms (s : MemoryStream) : option Z :=
  if (ms_last_append s =? 0)%Z then None else Some (ms_last_append s).

(** [push] run without interference; [None] is a panic. *)
Definition stream_push (now : Z) (data : string) (s : MemoryStream) :
    option (result StreamError N * MemoryStream) :=
  match stream_admit data s with
  | Some r => Some (r, s)
  | None =>
      if stream_full data s then Some (Err (StreamFull (ms_tail s) (ms_capacity s)), s)
      else
        s1 ← write_header data s;
        s2 ← write_payload data s1;
        Some (Ok (ms_tail s), count_append now (publish_tail data s2))
  end.

(** ** Reads *)

Definition stream_end (s : MemoryStream) : StreamError :=
  if ms_closed s then StreamClosedEmpty else StreamEmpty.

(** [read_at_position] after the load of [tail]. *)
Definition read_position (offset tail : N) (s : MemoryStream) : option (result StreamError (N * N * N)) :=
  if (tail <=? offset)%N then Some (Err (stream_end s))
  else if (tail <? offset + FRAME_HEADER)%N then Some (Err (StreamInvalidOffset offset tail))
  else
    hdr ← slice_at offset FRAME_HEADER (ms_buf s);
    let payload_len := le_val hdr in
    let payload_start := (offset + FRAME_HEADER)%N in
    let next_offset := (payload_start + payload_len)%N in
    Some (if (tail <? next_offset)%N then Err (StreamInvalidOffset offset tail)
          else Ok (payload_start, payload_len, next_offset)).

Definition stream_read_at (offset : N) (s : MemoryStream) : option (result StreamError (string * N)) :=
  r ← read_position offset (ms_tail s) s;
  match r with
  | Err e => Some (Err e)
  | Ok (payload_start, payload_len, next_offset) =>
      data ← slice_at payload_start payload_len (ms_buf s); Some (Ok (data, next_offset))
  end.

Fixpoint batch_loop (count : nat) (offset : N) (results : list string) (s : MemoryStream) :
    option (result StreamError (list string * N)) :=
  match count with
  | O => Some (Ok (results, offset))
  | S count =>
      r ← stream_read_at offset s;
      match r with
      | Ok (data, next) => batch_loop count next (results ++ [data]) s
      | Err (StreamEmpty | StreamClosedEmpty) => Some (Ok (results, offset))
      | Err e => Some (Err e)
      end
  end.

Definition stream_read_batch (offset : N) (count : nat) (s : MemoryStream) :
    option (result StreamError (list string * N)) := batch_loop count offset [] s.

(** ** A writer and a reader *)

Inductive AppendPc :=
  | AppendIdle
  | AppendLocked (data : string)
  | AppendHeader (data : string)
  | AppendPayload (data : string)
  | AppendPublish (data : string)
  | AppendCount
  | AppendPanic.

Inductive ReadPc :=
  | ReadIdle
  | ReadTail (offset tail : N)
  | ReadFrame (offset payload_start payload_len next_offset : N)
  | ReadGot (offset : N) (data : string) (next_offset : N)
  | ReadFailed (offset : N) (e : StreamError)
  | ReadPanic.

(** The writer, one reader, and the messages published so far. *)
Record StreamSystem := mkStreamSystem {
  ss_stream : MemoryStream;
  ss_writer : AppendPc;
  ss_reader : ReadPc;
  ss_log : list string }.

Inductive stream_step : StreamSystem → StreamSystem → Prop :=
  | append_admit s r log data :
      (0 < slen data ≤ ms_capacity s)%N →
      stream_step (mkStreamSystem s AppendIdle r log) (mkStreamSystem s (AppendLocked data) r log)
  | append_check s r log data :
      stream_step (mkStreamSystem s (AppendLocked data) r log)
        (mkStreamSystem s (if stream_full data s then AppendIdle else AppendHeader data) r log)
  | append_header s r log data s' :
      write_header data s = Some s' →
      stream_step (mkStreamSystem s (AppendHeader data) r log) (mkStreamSystem s' (AppendPayload data) r log)
  | append_header_panic s r log data :
      write_header data s = None →
      stream_step (mkStreamSystem s (AppendHeader data) r log) (mkStreamSystem s AppendPanic r log)
  | append_payload s r log data s' :
      write_payload data s = Some s' →
      stream_step (mkStreamSystem s (AppendPayload data) r log) (mkStreamSystem s' (AppendPublish data) r log)
  | append_payload_panic s r log data :
      write_payload data s = None →
      stream_step (mkStreamSystem s (AppendPayload data) r log) (mkStreamSystem s AppendPanic r log)
  | append_publish s r log data :
      stream_step (mkStreamSystem s (AppendPublish data) r log)
        (mkStreamSystem (publish_tail data s) AppendCount r (log ++ [data]))
  | append_count s r log now :
      stream_step (mkStreamSystem s AppendCount r log) (mkStreamSystem (count_append now s) AppendIdle r log)
  | read_load s w r log offset :
      stream_step (mkStreamSystem s w r log) (mkStreamSystem s w (ReadTail offset (ms_tail s)) log)
  | read_frame s w log offset tail start len next :
      read_position offset tail s = Some (Ok (start, len, next)) →
      stream_step (mkStreamSystem s w (ReadTail offset tail) log)
        (mkStreamSystem s w (ReadFrame offset start len next) log)
  | read_error s w log offset tail e :
      read_position offset tail s = Some (Err e) →
      stream_step (mkStreamSystem s w (ReadTail offset tail) log) (mkStreamSystem s w (ReadFailed offset e) log)
  | read_panic s w log offset tail :
      read_position offset tail s = None →
      stream_step (mkStreamSystem s w (ReadTail offset tail) log) (mkStreamSystem s w ReadPanic log)
  | read_copy s w log offset start len next data :
      slice_at start len (ms_buf s) = Some data →
      stream_step (mkStreamSystem s w (ReadFrame offset start len next) log)
        (mkStreamSystem s w (ReadGot offset data next) log)
  | read_copy_panic s w log offset start len next :
      slice_at start len (ms_buf s) = None →
      stream_step (mkStreamSystem s w (ReadFrame offset start len next) log)
        (mkStreamSystem s w ReadPanic log)
  | stream_step_close s w r log :
      stream_step (mkStreamSystem s w r log) (mkStreamSystem (stream_close s) w r log).
