(* ===== verification/StreamBufProofs.v ===== *)
(** * Properties of the in-memory stream

    The buffer is a log: what was published stays readable, at the same offsets,
    whatever the writer does meanwhile; a read is in range at any offset. *)

From S2P Require Import Prelude Bytes Codec StreamBuf.

(** ** The log in the buffer *)

Fixpoint log_len (ms : list string) : N :=
  match ms with [] => 0 | d :: ms => (FRAME_HEADER + slen d + log_len ms)%N end.

(** The buffer holds the frames of [ms] from [off] on. *)
Fixpoint log_at (buf : string) (off : N) (ms : list string) : Prop :=
  match ms with
  | [] => True
  | d :: ms =>
      (0 < slen d < U32_MOD)%N ∧ slice_at off FRAME_HEADER buf = Some (u32_to_le (slen d)) ∧
      slice_at (off + FRAME_HEADER) (slen d) buf = Some d ∧ log_at buf (off + FRAME_HEADER + slen d) ms
  end.

Lemma log_len_app ms ns : log_len (ms ++ ns) = (log_len ms + log_len ns)%N.
Proof. induction ms as [|d ms IH]; [done|]. cbn [log_len app]. rewrite IH. lia. Qed.

Lemma log_len_snoc ms d : log_len (ms ++ [d]) = (log_len ms + (FRAME_HEADER + slen d))%N.
Proof. rewrite log_len_app. cbn [log_len]. lia. Qed.

Lemma log_at_app buf off ms ns : log_at buf off (ms ++ ns) ↔ log_at buf off ms ∧ log_at buf (off + log_len ms) ns.
Proof.
  revert off. induction ms as [|d ms IH]; intros off; cbn [app log_at log_len].
  - rewrite N.add_0_r. tauto.
  - rewrite IH. replace (off + (FRAME_HEADER + slen d + log_len ms))%N
      with (off + FRAME_HEADER + slen d + log_len ms)%N by lia. tauto.
Qed.

(** A write behind the log leaves it. *)
Lemma log_at_write buf buf' i w off ms :
  overwrite i w buf = Some buf' → (off + log_len ms ≤ i)%N → log_at buf off ms → log_at buf' off ms.
Proof.
  intros Ho. revert off. induction ms as [|d ms IH]; intros off Hi; [done|]. cbn [log_at log_len] in *.
  intros (Hd & H1 & H2 & H3). split_and!; [apply Hd..| | |].
  - rewrite (slice_overwrite_other _ _ _ _ _ _ Ho) by lia. done.
  - rewrite (slice_overwrite_other _ _ _ _ _ _ Ho) by lia. done.
  - apply IH; [lia|done].
Qed.

Record stream_ok (s : MemoryStream) (ms : list string) : Prop := {
  so_width : (ms_capacity s < U32_MOD)%N;
  so_buf : slen (ms_buf s) = ms_capacity s;
  so_log : log_at (ms_buf s) 0 ms;
  so_tail : ms_tail s = log_len ms;
  so_cap : (ms_tail s ≤ ms_capacity s)%N }.

(** ** One read *)

(** At a frame of the log, the header is that of the message there. *)
Lemma read_position_at s p d q tail :
  stream_ok s (p ++ d :: q) → (log_len (p ++ [d]) ≤ tail)%N →
  read_position (log_len p) tail s
  = Some (Ok (log_len p + FRAME_HEADER, slen d, log_len (p ++ [d])))%N.
Proof.
  intros Hs Ht. pose proof (so_log _ _ Hs) as Hl. apply log_at_app in Hl as [_ Hl]. cbn [log_at] in Hl.
  rewrite N.add_0_l in Hl. destruct Hl as (Hd & H1 & _). rewrite log_len_snoc in *. unfold read_position.
  destruct (N.leb_spec tail (log_len p)); [unfold FRAME_HEADER in *; lia|].
  destruct (N.ltb_spec tail (log_len p + FRAME_HEADER)); [lia|]. rewrite H1. cbn [mbind option_bind].
  rewrite u32_le_val by lia. destruct (N.ltb_spec tail (log_len p + FRAME_HEADER + slen d)); [lia|].
  do 3 f_equal. lia.
Qed.

(** Anywhere, what it reports lies below the tail. *)
Lemma read_position_range s ms offset tail :
  stream_ok s ms → (tail ≤ ms_tail s)%N →
  match read_position offset tail s with
  | None => False
  | Some (Ok (start, len, next)) =>
      start = (offset + FRAME_HEADER)%N ∧ next = (start + len)%N ∧ (next ≤ tail)%N
  | Some (Err e) => ((tail ≤ offset)%N ∧ e = stream_end s) ∨ (offset < tail)%N
  end.
Proof.
  intros Hs Ht. pose proof (so_cap _ _ Hs). unfold read_position.
  destruct (N.leb_spec tail offset); [by left|]. destruct (N.ltb_spec tail (offset + FRAME_HEADER)); [by right|].
  destruct (slice_at_Some offset FRAME_HEADER (ms_buf s)) as [hdr ->].
  { rewrite (so_buf _ _ Hs). lia. }
  cbn [mbind option_bind]. destruct (N.ltb_spec tail (offset + FRAME_HEADER + le_val hdr)); [by right|done].
Qed.

Lemma stream_slice_at s p d q :
  stream_ok s (p ++ d :: q) → slice_at (log_len p + FRAME_HEADER) (slen d) (ms_buf s) = Some d.
Proof.
  intros Hs. pose proof (so_log _ _ Hs) as Hl. apply log_at_app in Hl as [_ Hl]. cbn [log_at] in Hl.
  rewrite N.add_0_l in Hl. apply Hl.
Qed.

Lemma stream_read_at_spec s p d q :
  stream_ok s (p ++ d :: q) → stream_read_at (log_len p) s = Some (Ok (d, log_len (p ++ [d]))).
Proof.
  intros Hs. unfold stream_read_at. rewrite (read_position_at s p d q) by
    (try done; rewrite (so_tail _ _ Hs), !log_len_app; cbn [log_len]; lia).
  cbn [mbind option_bind]. by rewrite (stream_slice_at s p d q Hs).
Qed.

Lemma stream_read_end s ms : stream_ok s ms → stream_read_at (log_len ms) s = Some (Err (stream_end s)).
Proof.
  intros Hs. unfold stream_read_at, read_position. rewrite (so_tail _ _ Hs). by rewrite N.leb_refl.
Qed.

(** No offset is out of range. *)
Lemma stream_read_total s ms offset : stream_ok s ms → is_Some (stream_read_at offset s).
Proof.
  intros Hs. unfold stream_read_at. pose proof (read_position_range s ms offset (ms_tail s) Hs ltac:(lia)) as H.
  destruct (read_position offset (ms_tail s) s) as [[[[start len] next]|e]|]; [|by eexists|done]. cbn [mbind option_bind].
  destruct H as (-> & -> & Hn). destruct (slice_at_Some (offset + FRAME_HEADER) len (ms_buf s)) as [d ->]; [|by eexists].
  rewrite (so_buf _ _ Hs). pose proof (so_cap _ _ Hs). lia.
Qed.

Lemma batch_loop_spec s p ms n acc :
  stream_ok s (p ++ ms) →
  batch_loop n (log_len p) acc s = Some (Ok (acc ++ take n ms, log_len (p ++ take n ms))).
Proof.
  revert p ms acc. induction n as [|n IH]; intros p ms acc Hs; cbn [batch_loop take].
  { by rewrite !app_nil_r. }
  destruct ms as [|d ms].
  - rewrite !app_nil_r in *. rewrite (stream_read_end _ _ Hs). cbn [mbind option_bind].
    unfold stream_end. by destruct (ms_closed s).
  - rewrite (stream_read_at_spec s p d ms Hs). cbn [mbind option_bind].
    rewrite (IH (p ++ [d]) ms (acc ++ [d])) by (by rewrite <-app_assoc). by rewrite <-!app_assoc.
Qed.

(** ** [push] *)

Lemma write_header_ok s ms data :
  stream_ok s ms → (slen data < U32_MOD)%N → (ms_tail s + (FRAME_HEADER + slen data) ≤ ms_capacity s)%N →
  ∃ s', write_header data s = Some s' ∧ stream_ok s' ms ∧
    ms_tail s' = ms_tail s ∧ ms_capacity s' = ms_capacity s ∧ ms_closed s' = ms_closed s ∧
    slice_at (ms_tail s') FRAME_HEADER (ms_buf s') = Some (u32_to_le (slen data)).
Proof.
  intros Hs Hd Hc. unfold write_header.
  assert (wrap32 (slen data) = slen data) as -> by (apply N.mod_small; lia).
  destruct (overwrite_Some (ms_tail s) (u32_to_le (slen data)) (ms_buf s)) as [b Hb].
  { rewrite (so_buf _ _ Hs), slen_u32. unfold FRAME_HEADER in *. lia. }
  rewrite Hb. eexists. split; [done|]. split_and!; try done.
  - split; cbn; try apply Hs.
    + rewrite (overwrite_slen _ _ _ _ Hb). apply Hs.
    + eapply log_at_write; [done| |apply Hs]. rewrite (so_tail _ _ Hs). lia.
  - cbn. change FRAME_HEADER with (slen (u32_to_le (slen data))). by eapply slice_overwrite_same.
Qed.

Lemma write_payload_ok s ms data :
  stream_ok s ms → (ms_tail s + (FRAME_HEADER + slen data) ≤ ms_capacity s)%N →
  slice_at (ms_tail s) FRAME_HEADER (ms_buf s) = Some (u32_to_le (slen data)) →
  ∃ s', write_payload data s = Some s' ∧ stream_ok s' ms ∧
    ms_tail s' = ms_tail s ∧ ms_capacity s' = ms_capacity s ∧ ms_closed s' = ms_closed s ∧
    slice_at (ms_tail s') FRAME_HEADER (ms_buf s') = Some (u32_to_le (slen data)) ∧
    slice_at (ms_tail s' + FRAME_HEADER) (slen data) (ms_buf s') = Some data.
Proof.
  intros Hs Hc Hh. unfold write_payload.
  destruct (overwrite_Some (ms_tail s + FRAME_HEADER) data (ms_buf s)) as [b Hb].
  { rewrite (so_buf _ _ Hs). lia. }
  rewrite Hb. eexists. split; [done|]. split_and!; try done.
  - split; cbn; try apply Hs.
    + rewrite (overwrite_slen _ _ _ _ Hb). apply Hs.
    + eapply log_at_write; [done| |apply Hs]. rewrite (so_tail _ _ Hs). lia.
  - cbn. rewrite (slice_overwrite_other _ _ _ _ _ _ Hb) by lia. done.
  - cbn. by eapply slice_overwrite_same.
Qed.

Lemma publish_tail_ok s ms data :
  stream_ok s ms → (0 < slen data < U32_MOD)%N → (ms_tail s + (FRAME_HEADER + slen data) ≤ ms_capacity s)%N →
  slice_at (ms_tail s) FRAME_HEADER (ms_buf s) = Some (u32_to_le (slen data)) →
  slice_at (ms_tail s + FRAME_HEADER) (slen data) (ms_buf s) = Some data →
  stream_ok (publish_tail data s) (ms ++ [data]).
Proof.
  intros Hs Hd Hc H1 H2. split; cbn; try apply Hs.
  - apply log_at_app. split; [apply Hs|]. rewrite N.add_0_l, <-(so_tail _ _ Hs). cbn. done.
  - by rewrite log_len_snoc, (so_tail _ _ Hs).
  - done.
Qed.

Lemma count_append_ok s ms now : stream_ok s ms → stream_ok (count_append now s) ms.
Proof. intros Hs. split; apply Hs. Qed.

Definition append_frame (data : string) (ms : list string) : list string :=
  if (slen data =? 0)%N then ms else ms ++ [data].

(** [push] accepts a message exactly while the stream is open and its frame fits. *)
Lemma stream_push_spec now data s ms :
  stream_ok s ms →
  ∃ r s', stream_push now data s = Some (r, s') ∧ ms_closed s' = ms_closed s ∧ ms_capacity s' = ms_capacity s ∧
    if ms_closed s then r = Err (StreamClosed "write to closed stream") ∧ s' = s
    else if (slen data =? 0)%N then r = Ok (log_len ms) ∧ s' = s
    else if (log_len ms + (FRAME_HEADER + slen data) <=? ms_capacity s)%N
         then r = Ok (log_len ms) ∧ stream_ok s' (ms ++ [data])
         else (∃ e, r = Err e) ∧ s' = s.
Proof.
  intros Hs. unfold stream_push, stream_admit. rewrite <-(so_tail _ _ Hs).
  destruct (ms_closed s) eqn:Hcl; [by do 2 eexists|].
  destruct (N.eqb_spec (slen data) 0) as [H0|H0]; [by do 2 eexists|].
  destruct (N.ltb_spec (ms_capacity s) (slen data)) as [Hc|Hc].
  { rewrite (proj2 (N.leb_gt _ _)) by lia. do 2 eexists. split_and!; eauto. }
  unfold stream_full. rewrite N.ltb_antisym.
  destruct (N.leb_spec (ms_tail s + (FRAME_HEADER + slen data)) (ms_capacity s)) as [Hf|Hf]; cbn [negb].
  2: { do 2 eexists. split_and!; eauto. }
  pose proof (so_width _ _ Hs) as Hw.
  destruct (write_header_ok s ms data Hs ltac:(lia) Hf) as (s1 & -> & Hs1 & T1 & C1 & L1 & H1). cbn [mbind option_bind].
  rewrite <-T1, <-C1 in Hf.
  destruct (write_payload_ok s1 ms data Hs1 Hf H1) as (s2 & -> & Hs2 & T2 & C2 & L2 & H2 & H3). cbn [mbind option_bind].
  do 2 eexists. split; [reflexivity|]. cbn. split_and!; [congruence..|]. apply count_append_ok, publish_tail_ok; [done|lia|lia|done|done].
Qed.

(** ** Writer and reader together *)

Definition writer_ok (s : MemoryStream) (w : AppendPc) : Prop :=
  let fits data := (0 < slen data)%N ∧ (ms_tail s + (FRAME_HEADER + slen data) ≤ ms_capacity s)%N in
  let header data := slice_at (ms_tail s) FRAME_HEADER (ms_buf s) = Some (u32_to_le (slen data)) in
  match w with
  | AppendIdle | AppendCount => True
  | AppendLocked data => (0 < slen data ≤ ms_capacity s)%N
  | AppendHeader data => fits data
  | AppendPayload data => fits data ∧ header data
  | AppendPublish data =>
      fits data ∧ header data ∧ slice_at (ms_tail s + FRAME_HEADER) (slen data) (ms_buf s) = Some data
  | AppendPanic => False
  end.

(** [offset] is where the message [d] of the log begins. *)
Definition starts (log : list string) (offset : N) (d : string) (next : N) : Prop :=
  ∃ p q, log = p ++ d :: q ∧ offset = log_len p ∧ next = log_len (p ++ [d]).

Definition reader_ok (s : MemoryStream) (log : list string) (r : ReadPc) : Prop :=
  match r with
  | ReadIdle => True
  | ReadTail _ t => ∃ p q, log = p ++ q ∧ t = log_len p
  | ReadFrame offset start len next =>
      start = (offset + FRAME_HEADER)%N ∧ next = (start + len)%N ∧ (next ≤ ms_tail s)%N ∧
      ∀ d n, starts log offset d n → len = slen d
  | ReadGot offset data next =>
      (next ≤ ms_tail s ∧ offset < next)%N ∧ ∀ d n, starts log offset d n → data = d ∧ next = n
  | ReadFailed offset e =>
      e = StreamEmpty ∨ e = StreamClosedEmpty ∨
      (offset < ms_tail s)%N ∧ ∀ d n, ¬ starts log offset d n
  | ReadPanic => False
  end.

Definition stream_inv (x : StreamSystem) : Prop :=
  stream_ok (ss_stream x) (ss_log x) ∧ writer_ok (ss_stream x) (ss_writer x) ∧
  reader_ok (ss_stream x) (ss_log x) (ss_reader x).

Lemma starts_snoc log x offset d next n :
  starts (log ++ [x]) offset d n → (offset < next)%N → (next ≤ log_len log)%N → starts log offset d n.
Proof.
  intros (p & q & E & -> & ->) H1 H2. destruct q as [|y q _] using rev_ind.
  - apply app_inj_tail in E as [<- <-]. lia.
  - rewrite app_comm_cons, app_assoc in E. apply app_inj_tail in E as [-> ->]. by exists p, q.
Qed.

(** A message that starts below a frame boundary ends there or below. *)
Lemma starts_below p0 q0 offset d n :
  starts (p0 ++ q0) offset d n → (offset < log_len p0)%N → (n ≤ log_len p0)%N.
Proof.
  intros (p & q & E & -> & ->) Hlt. apply app_eq_inv in E as [(k & -> & E)|(k & -> & E)].
  - destruct k as [|x k]; [rewrite app_nil_r in Hlt; lia|]. injection E as -> _.
    rewrite !log_len_app. cbn [log_len]. lia.
  - rewrite log_len_app in Hlt. lia.
Qed.

Lemma read_position_starts s log offset tail d n :
  stream_ok s log → starts log offset d n → (n ≤ tail)%N →
  read_position offset tail s = Some (Ok (offset + FRAME_HEADER, slen d, n))%N.
Proof. intros Hs (p & q & -> & -> & ->) Hn. by eapply read_position_at. Qed.

Lemma read_ok s log offset t r :
  stream_ok s log → reader_ok s log (ReadTail offset t) → read_position offset t s = Some r →
  reader_ok s log (match r with
                   | Ok (start, len, next) => ReadFrame offset start len next
                   | Err e => ReadFailed offset e
                   end).
Proof.
  intros Hs (p & q & -> & ->) E.
  assert (log_len p ≤ ms_tail s)%N as Hle by (rewrite (so_tail _ _ Hs), log_len_app; lia).
  pose proof (read_position_range s _ offset (log_len p) Hs Hle) as H. rewrite E in H.
  assert (offset < log_len p → ∀ d n, starts (p ++ q) offset d n →
    r = Ok (offset + FRAME_HEADER, slen d, n))%N as Hst.
  { intros Hlt d n Hd. rewrite (read_position_starts s _ offset (log_len p) d n Hs Hd) in E; [congruence|].
    by eapply starts_below. }
  destruct r as [[[start len] next]|e]; cbn.
  - destruct H as (-> & -> & Hn). split_and!; [done..|lia|]. intros d n Hd.
    assert (offset < log_len p)%N as Hlt by (unfold FRAME_HEADER in *; lia). specialize (Hst Hlt d n Hd). congruence.
  - destruct H as [[_ ->]|Hlt]; [unfold stream_end; destruct (ms_closed s); auto|].
    right; right. split; [lia|]. intros d n Hd. by specialize (Hst Hlt d n Hd).
Qed.

Lemma read_copy_ok s log offset start len next :
  stream_ok s log → reader_ok s log (ReadFrame offset start len next) →
  ∃ data, slice_at start len (ms_buf s) = Some data ∧ reader_ok s log (ReadGot offset data next).
Proof.
  intros Hs (-> & -> & Hn & Hd).
  destruct (slice_at_Some (offset + FRAME_HEADER) len (ms_buf s)) as [data E].
  { rewrite (so_buf _ _ Hs). pose proof (so_cap _ _ Hs). lia. }
  exists data. split; [done|]. cbn. split; [unfold FRAME_HEADER in *; lia|]. intros d n Hst. rewrite (Hd d n Hst) in *.
  destruct Hst as (p & q & -> & -> & ->). rewrite (stream_slice_at s p d q Hs) in E.
  split; [congruence|]. rewrite log_len_snoc. lia.
Qed.

(** The log grows behind the reader. *)
Lemma reader_ok_publish s log data r :
  stream_ok s log → reader_ok s log r → reader_ok (publish_tail data s) (log ++ [data]) r.
Proof.
  intros Hs. pose proof (so_tail _ _ Hs) as Ht.
  destruct r as [|offset t|offset start len next|offset d' next|offset e|]; cbn; try done.
  - intros (p & q & -> & ->). exists p, (q ++ [data]). by rewrite app_assoc.
  - intros (-> & -> & Hn & H). split_and!; [done..|lia|]. intros d n Hd. eapply H, starts_snoc; [done| |].
    + instantiate (1 := (offset + FRAME_HEADER + len)%N). unfold FRAME_HEADER. lia.
    + lia.
  - intros ([H1 H2] & H). split; [lia|]. intros d n Hd. eapply H, starts_snoc; [done|done|lia].
  - intros [H|[H|[H1 H2]]]; [auto..|]. right; right. split; [lia|]. intros d n Hd. eapply H2, starts_snoc; [done| |].
    + instantiate (1 := (offset + 1)%N). lia.
    + lia.
Qed.

Lemma reader_ok_same s s' log r : ms_tail s' = ms_tail s → reader_ok s log r → reader_ok s' log r.
Proof. intros Ht. destruct r; cbn; by rewrite ?Ht. Qed.

Lemma stream_step_inv x x' : stream_step x x' → stream_inv x → stream_inv x'.
Proof.
  intros Hstep (Hs & Hw & Hr). unfold stream_inv. destruct Hstep as
    [s r log data Hd|s r log data|s r log data s' E|s r log data E|s r log data s' E|s r log data E|s r log data
    |s r log now|s w r log offset|s w log offset t start len next E|s w log offset t e E|s w log offset t E
    |s w log offset start len next data E|s w log offset start len next E|s w r log];
    cbn [ss_stream ss_writer ss_reader ss_log] in *.
  - done.
  - split_and!; [done| |done]. destruct (stream_full data s) eqn:Hf; [done|].
    unfold stream_full in Hf. apply N.ltb_ge in Hf. cbn in *. lia.
  - destruct Hw as [H1 H2]. pose proof (so_width _ _ Hs).
    destruct (write_header_ok s log data Hs ltac:(lia) H2) as (s1 & E1 & Hs1 & T1 & C1 & L1 & H3).
    rewrite E1 in E. injection E as <-. split_and!; [done| |by eapply reader_ok_same]. cbn. by rewrite T1, C1 in *.
  - destruct Hw as [H1 H2]. pose proof (so_width _ _ Hs).
    destruct (write_header_ok s log data Hs ltac:(lia) H2) as (s1 & E1 & _). congruence.
  - destruct Hw as [[H1 H2] H3].
    destruct (write_payload_ok s log data Hs H2 H3) as (s1 & E1 & Hs1 & T1 & C1 & L1 & H4 & H5).
    rewrite E1 in E. injection E as <-. split_and!; [done| |by eapply reader_ok_same]. cbn. by rewrite T1, C1 in *.
  - destruct Hw as [[H1 H2] H3]. destruct (write_payload_ok s log data Hs H2 H3) as (s1 & E1 & _). congruence.
  - destruct Hw as ([H1 H2] & H3 & H4). pose proof (so_width _ _ Hs).
    split_and!; [|done|by apply reader_ok_publish]. apply publish_tail_ok; [done|lia|done..].
  - split_and!; [by apply count_append_ok|done|by eapply reader_ok_same].
  - split_and!; [done..|]. exists log, []. rewrite app_nil_r. split; [done|apply Hs].
  - split_and!; [done..|]. by apply (read_ok s log offset t (Ok (start, len, next))).
  - split_and!; [done..|]. by apply (read_ok s log offset t (Err e)).
  - destruct Hr as (p & q & -> & ->).
    pose proof (read_position_range s _ offset (log_len p) Hs) as H. rewrite E in H. exfalso. apply H.
    rewrite (so_tail _ _ Hs), log_len_app. lia.
  - destruct (read_copy_ok s log offset start len next Hs Hr) as (d & E' & Hg). rewrite E' in E. by injection E as <-.
  - destruct (read_copy_ok s log offset start len next Hs Hr) as (d & E' & _). congruence.
  - split_and!; [split; apply Hs|by destruct w|by eapply reader_ok_same].
Qed.

Definition stream_start (capacity : N) : StreamSystem :=
  mkStreamSystem (stream_new capacity) AppendIdle ReadIdle [].

Lemma stream_new_ok capacity : (capacity < U32_MOD)%N → stream_ok (stream_new capacity) [].
Proof.
  intros Hc. split; cbn; try done; [|lia]. rewrite slen_zeros. lia.
Qed.

(** C34: Reads of a stream are in range and exact while it is written: in every
    interleaving of a writer, a reader at any byte offset and a close, no slice is
    out of range and the frames never exceed the capacity; a read at the offset
    where a message of the log starts returns that message and the offset of the
    next one, or finds it not there yet; it never calls the offset invalid. *)
Theorem stream_reads_exact capacity x
    (Hcapacity : (capacity < U32_MOD)%N) (Hreach : rtc stream_step (stream_start capacity) x) :
  ss_writer x ≠ AppendPanic ∧ ss_reader x ≠ ReadPanic ∧ (log_len (ss_log x) ≤ ms_capacity (ss_stream x))%N ∧
  ∀ offset d n, starts (ss_log x) offset d n →
    (∀ data next, ss_reader x = ReadGot offset data next → data = d ∧ next = n) ∧
    (∀ e, ss_reader x = ReadFailed offset e → e = StreamEmpty ∨ e = StreamClosedEmpty).
Proof.
  assert (stream_inv x) as (Hs & Hw & Hr).
  { assert (stream_inv (stream_start capacity)) as Hi by (split_and!; [by apply stream_new_ok|done|done]).
    induction Hreach as [|x1 x2 x3 H12 _ IH]; [done|]. by eapply IH, stream_step_inv. }
  split_and!; [by intros E; rewrite E in Hw|by intros E; rewrite E in Hr|rewrite <-(so_tail _ _ Hs); apply Hs|].
  intros offset d n Hd. split.
  - intros data next E. rewrite E in Hr. by apply Hr.
  - intros e E. rewrite E in Hr. destruct Hr as [H|[H|[_ H]]]; [auto..|]. by apply H in Hd.
Qed.

Lemma stream_reads_exact_witness :
  ∃ x, rtc stream_step (stream_start 16) x ∧ ss_log x = ["ab"] ∧ ss_reader x = ReadGot 0 "ab" 6 ∧
    (log_len (ss_log x) ≤ 16)%N.
Proof.
  assert (∃ x, rtc stream_step (stream_start 16) x ∧ ss_log x = ["ab"] ∧ ss_reader x = ReadGot 0 "ab" 6 ∧
    ms_capacity (ss_stream x) = 16%N) as (x & Hrun & Hl & Hr & Hc).
  { eexists. split.
    - eapply rtc_l; [apply (append_admit _ _ _ "ab"); by vm_compute|].
      eapply rtc_l; [apply append_check|].
      eapply rtc_l; [eapply append_header; vm_compute; reflexivity|].
      eapply rtc_l; [eapply append_payload; vm_compute; reflexivity|].
      eapply rtc_l; [apply append_publish|].
      eapply rtc_l; [apply (read_load _ _ _ _ 0)|].
      eapply rtc_l; [eapply read_frame; vm_compute; reflexivity|].
      eapply rtc_once, read_copy. vm_compute. reflexivity.
    - done. }
  exists x. split_and!; [done..|].
  destruct (stream_reads_exact 16 x ltac:(done) Hrun) as (_ & _ & H & _). by rewrite Hc in H.
Defined.

(** Batches read the log: from the offset where the [k]-th message starts, a
    batch of [n] returns the next [n] messages, fewer only at the end, and the
    offset to continue from. *)
Theorem stream_batch_reads s ms k n (Hs : stream_ok s ms) :
  stream_read_batch (log_len (take k ms)) n s
  = Some (Ok (take n (drop k ms), log_len (take (k + n) ms))).
Proof.
  unfold stream_read_batch. rewrite (batch_loop_spec s (take k ms) (drop k ms) n []) by (by rewrite take_drop).
  cbn. do 3 f_equal. by rewrite take_take_drop.
Qed.

Lemma stream_batch_reads_witness :
  ∃ s, stream_ok s ["ab"; "c"] ∧ stream_read_batch 6 5 s = Some (Ok (["c"], 11%N)).
Proof.
  destruct (stream_push_spec 7 "ab" (stream_new 16) [] (stream_new_ok 16 ltac:(done))) as (r1 & s1 & _ & C1 & K1 & _ & H1).
  destruct (stream_push_spec 7 "c" s1 ["ab"] H1) as (r2 & s2 & _ & _ & _ & H2). cbn in C1. rewrite C1, K1 in H2.
  destruct H2 as [_ H2]. exists s2. split; [done|]. exact (stream_batch_reads s2 ["ab"; "c"] 1 5 H2).
Defined.
