(* ===== verification/StreamManager.v ===== *)
(** * The registry of streams

    src/rust/kernel/src/core/stream/backend.rs and manager.rs: the interface every
    stream backend implements, the registry with its miss-materializer, whole
    reads and [forward], and blocking reads as threads that park on the
    generation-counted notification of the stream. *)

From S2P Require Import Prelude Bytes Codec StreamBuf.

(** ** The backend interface *)

(** [StreamBackend]; the clock is an argument of [push], [None] is a panic. *)
Class StreamBackend (B : Type) := {
  sb_push : Z → string → B → option (result StreamError N * B);
  sb_read_at : N → B → option (result StreamError (string * N));
  sb_read_batch : N → nat → B → option (result StreamError (list string * N));
  sb_close : B → B;
  sb_is_closed : B → bool;
  sb_tail_offset : B → N;
  sb_msg_count : B → N;
  sb_earliest_offset : B → N;
  sb_last_append_ms : B → option Z }.

#[export] Instance memory_stream_backend : StreamBackend MemoryStream := {
  sb_push := stream_push;
  sb_read_at := stream_read_at;
  sb_read_batch := stream_read_batch;
  sb_close := stream_close;
  sb_is_closed := ms_closed;
  sb_tail_offset := ms_tail;
  sb_msg_count := ms_msg_count;
  sb_earliest_offset _ := 0%N;
  sb_last_append_ms := last_append_ms }.

(** ** The registry *)

Inductive StreamManagerError :=
  | StreamExists (path : string)
  | StreamNotFound (path : string)
  | StreamMgrClosed (path : string)
  | StreamWouldBlock (what : string)
  | StreamBackendError (e : StreamError)
  | StreamResolve (what : string).

Section manager.
Context {B : Type} `{!StreamBackend B}.

(** [StreamSlot]: the cell of the shared backend, and the generation its
    notification counts wakes with. *)
Record StreamSlot := mkSlot { slot_backend : N; slot_generation : N }.

Record StreamManager := mkStreamManager {
  sm_store : gmap N B;
  sm_next : N;
  sm_buffers : gmap string StreamSlot;
  sm_materializer : option (string → result string (option B)) }.

Definition stream_manager_new : StreamManager := mkStreamManager ∅ 0 ∅ None.

(** [OnceLock::set]: the first one stays. *)
Definition set_materializer (f : string → result string (option B)) (m : StreamManager) : StreamManager :=
  mkStreamManager (sm_store m) (sm_next m) (sm_buffers m)
    (match sm_materializer m with Some g => Some g | None => Some f end).

Definition sm_set (l : N) (b : B) (m : StreamManager) : StreamManager :=
  mkStreamManager (<[l := b]> (sm_store m)) (sm_next m) (sm_buffers m) (sm_materializer m).

Definition with_buffers (bs : gmap string StreamSlot) (m : StreamManager) : StreamManager :=
  mkStreamManager (sm_store m) (sm_next m) bs (sm_materializer m).

(** [Arc::new] *)
Definition sm_alloc (b : B) (m : StreamManager) : N * StreamManager :=
  (sm_next m, mkStreamManager (<[sm_next m := b]> (sm_store m)) (sm_next m + 1) (sm_buffers m) (sm_materializer m)).

Definition sm_register (path : string) (l : N) (m : StreamManager) :
    result StreamManagerError () * StreamManager :=
  match sm_buffers m !! path with
  | Some _ => (Err (StreamExists path), m)
  | None => (Ok (), with_buffers (<[path := mkSlot l 0]> (sm_buffers m)) m)
  end.

(** [of_memory] is the coercion to [dyn StreamBackend]. *)
Definition sm_create (of_memory : MemoryStream → B) (path : string) (capacity : N) (m : StreamManager) :
    result StreamManagerError () * StreamManager :=
  let '(l, m) := sm_alloc (of_memory (stream_new capacity)) m in sm_register path l m.

Definition sm_get (path : string) (m : StreamManager) : option (N * B) :=
  slot ← sm_buffers m !! path; b ← sm_store m !! slot_backend slot; Some (slot_backend slot, b).

Definition materialize_miss (path : string) (m : StreamManager) :
    result StreamManagerError (option (N * B)) * StreamManager :=
  match sm_materializer m with
  | None => (Ok None, m)
  | Some f =>
      match f path with
      | Err e => (Err (StreamResolve e), m)
      | Ok None => (Ok None, m)
      | Ok (Some b) =>
          let '(l, m) := sm_alloc b m in
          let '(_, m) := sm_register path l m in
          (Ok (sm_get path m), m)
      end
  end.

Definition resolve (path : string) (m : StreamManager) :
    result StreamManagerError (option (N * B)) * StreamManager :=
  match sm_get path m with
  | Some lb => (Ok (Some lb), m)
  | None => materialize_miss path m
  end.

(** [self.resolve(path)?.ok_or_else(NotFound)?], then [k]. *)
Definition resolved {A} (path : string) (m : StreamManager)
    (k : N → B → StreamManager → option (result StreamManagerError A * StreamManager)) :
    option (result StreamManagerError A * StreamManager) :=
  match resolve path m with
  | (Err e, m) => Some (Err e, m)
  | (Ok None, m) => Some (Err (StreamNotFound path), m)
  | (Ok (Some (l, b)), m) => k l b m
  end.

(** [wake_all_readers] on the slot of [path]: its generation moves on. *)
Definition sm_wake (path : string) (m : StreamManager) : StreamManager :=
  with_buffers (alter (λ s, mkSlot (slot_backend s) (wrap64 (slot_generation s + 1))) path (sm_buffers m)) m.

Definition sm_destroy (path : string) (m : StreamManager) : result StreamManagerError () * StreamManager :=
  match sm_get path m with
  | Some (l, b) =>
      let m := sm_set l (sb_close b) m in (Ok (), with_buffers (delete path (sm_buffers m)) m)
  | None => (Err (StreamNotFound path), m)
  end.

Definition sm_close (path : string) (m : StreamManager) : result StreamManagerError () * StreamManager :=
  match sm_get path m with
  | Some (l, b) => (Ok (), sm_wake path (sm_set l (sb_close b) m))
  | None => (Err (StreamNotFound path), m)
  end.

Definition sm_has (path : string) (m : StreamManager) : bool := bool_decide (is_Some (sm_buffers m !! path)).

Definition sm_write_nowait (now : Z) (path data : string) (m : StreamManager) :
    option (result StreamManagerError N * StreamManager) :=
  resolved path m (λ l b m,
    '(r, b) ← sb_push now data b;
    let m := sm_set l b m in
    Some (match r with
          | Ok offset => (Ok offset, sm_wake path m)
          | Err e => (Err (StreamBackendError e), m)
          end)).

Definition wake_waiters (path : string) (m : StreamManager) : bool * StreamManager :=
  if sm_has path m then (true, sm_wake path m) else (false, m).

Definition sm_read_at (path : string) (offset : N) (m : StreamManager) :
    option (result StreamManagerError (option (string * N)) * StreamManager) :=
  resolved path m (λ _ b m,
    r ← sb_read_at offset b;
    Some (match r with
          | Ok x => Ok (Some x)
          | Err StreamEmpty => Ok None
          | Err StreamClosedEmpty => Err (StreamMgrClosed path)
          | Err e => Err (StreamBackendError e)
          end, m)).

Definition sm_read_batch (path : string) (offset : N) (count : nat) (m : StreamManager) :
    option (result StreamManagerError (list string * N) * StreamManager) :=
  resolved path m (λ _ b m,
    r ← sb_read_batch offset count b;
    Some (match r with Ok x => Ok x | Err e => Err (StreamBackendError e) end, m)).

(** The loop of [collect_all_payloads]; [None] is a panic or the fuel's end. *)
Fixpoint collect_loop (fuel : nat) (offset : N) (out : string) (b : B) :
    option (result StreamManagerError string) :=
  match fuel with
  | O => None
  | S fuel =>
      r ← sb_read_at offset b;
      match r with
      | Ok (data, next) => collect_loop fuel next (out +:+ data) b
      | Err (StreamEmpty | StreamClosedEmpty) => Some (Ok out)
      | Err e => Some (Err (StreamBackendError e))
      end
  end.

Definition collect_all_payloads (fuel : nat) (path : string) (m : StreamManager) :
    option (result StreamManagerError string * StreamManager) :=
  resolved path m (λ _ b m, r ← collect_loop fuel (sb_earliest_offset b) "" b; Some (r, m)).

Definition sm_tail (path : string) (m : StreamManager) : option N * StreamManager :=
  match resolve path m with
  | (Ok (Some (_, b)), m) => (Some (sb_tail_offset b), m)
  | (_, m) => (None, m)
  end.

Definition sm_last_append_ms (path : string) (m : StreamManager) : option Z * StreamManager :=
  match resolve path m with
  | (Ok (Some (_, b)), m) => (sb_last_append_ms b, m)
  | (_, m) => (None, m)
  end.

(** The loop of [forward] from the cell [src] to the cell [dst]. *)
Fixpoint forward_loop (fuel : nat) (now : Z) (src dst offset forwarded : N) (m : StreamManager) :
    option (result StreamManagerError (N * N) * StreamManager) :=
  match fuel with
  | O => None
  | S fuel =>
      b ← sm_store m !! src;
      r ← sb_read_at offset b;
      match r with
      | Ok (data, next) =>
          b ← sm_store m !! dst;
          '(r, b) ← sb_push now data b;
          let m := sm_set dst b m in
          match r with
          | Ok _ => forward_loop fuel now src dst next (forwarded + 1) m
          | Err e => Some (Err (StreamBackendError e), m)
          end
      | Err (StreamEmpty | StreamClosedEmpty) => Some (Ok (forwarded, offset), m)
      | Err e => Some (Err (StreamBackendError e), m)
      end
  end.

Definition sm_forward (fuel : nat) (now : Z) (from to : string) (from_offset : N) (m : StreamManager) :
    option (result StreamManagerError (N * N) * StreamManager) :=
  resolved from m (λ src _ m,
    resolved to m (λ dst _ m,
      '(r, m) ← forward_loop fuel now src dst from_offset 0 m;
      Some (match r with
            | Ok (forwarded, offset) =>
                (Ok (forwarded, offset), if (0 <? forwarded)%N then sm_wake to m else m)
            | Err e => (Err e, m)
            end))).

Definition sm_close_all (m : StreamManager) : StreamManager :=
  foldr (λ '(path, slot) m,
    match sm_store m !! slot_backend slot with
    | Some b => sm_wake path (sm_set (slot_backend slot) (sb_close b) m)
    | None => m
    end) m (map_to_list (sm_buffers m)).
End manager.

Arguments StreamManager : clear implicits.

(** ** Blocking reads *)

(** Threads of one stream: [write_nowait], [forward], [read_at_blocking] and
    [close], split where another thread can run.  The mutex of the generation is
    held only within a step. *)
Inductive StreamThread :=
  | SWrite (data : string)
  | SWriteWake (offset : N)
  | SWriteDone (r : result StreamManagerError N)
  | SForward (data : string)
  | SForwardWake
  | SForwardDone
  | SRead (offset : N)
  | SReadTry (offset observed : N)
  | SReadLock (offset observed : N)
  | SReadParked (offset : N)
  | SReadWoken (offset : N)
  | SReadDone (r : result StreamManagerError (string * N))
  | SClose
  | SCloseWake
  | SCloseDone.

Record StreamWait (B : Type) := mkStreamWait {
  sw_backend : B;
  sw_generation : N;
  sw_threads : list StreamThread }.
Arguments mkStreamWait {B}.
Arguments sw_backend {B}.
Arguments sw_generation {B}.
Arguments sw_threads {B}.

(** [notify_all] *)
Definition wake_parked (ts : list StreamThread) : list StreamThread :=
  (λ t, match t with SReadParked offset => SReadWoken offset | t => t end) <$> ts.

Section waiting.
Context {B : Type} `{!StreamBackend B} (path : string).

Definition read_answer (r : result StreamError (string * N)) (empty : StreamThread) : StreamThread :=
  match r with
  | Ok x => SReadDone (Ok x)
  | Err StreamClosedEmpty => SReadDone (Err (StreamMgrClosed path))
  | Err StreamEmpty => empty
  | Err e => SReadDone (Err (StreamBackendError e))
  end.

Inductive stream_wait_step : StreamWait B → StreamWait B → Prop :=
  | sw_push b g ts i now data offset b' :
      ts !! i = Some (SWrite data) → sb_push now data b = Some (Ok offset, b') →
      stream_wait_step (mkStreamWait b g ts) (mkStreamWait b' g (<[i := SWriteWake offset]> ts))
  | sw_push_err b g ts i now data e b' :
      ts !! i = Some (SWrite data) → sb_push now data b = Some (Err e, b') →
      stream_wait_step (mkStreamWait b g ts)
        (mkStreamWait b' g (<[i := SWriteDone (Err (StreamBackendError e))]> ts))
  | sw_wake b g ts i offset :
      ts !! i = Some (SWriteWake offset) →
      stream_wait_step (mkStreamWait b g ts)
        (mkStreamWait b (wrap64 (g + 1)) (wake_parked (<[i := SWriteDone (Ok offset)]> ts)))
  | sw_forward b g ts i now data offset b' :
      ts !! i = Some (SForward data) → sb_push now data b = Some (Ok offset, b') →
      stream_wait_step (mkStreamWait b g ts) (mkStreamWait b' g (<[i := SForwardWake]> ts))
  | sw_forward_wake b g ts i j offset :
      ts !! i = Some SForwardWake → ts !! j = Some (SReadParked offset) →
      stream_wait_step (mkStreamWait b g ts)
        (mkStreamWait b (wrap64 (g + 1)) (<[j := SReadWoken offset]> (<[i := SForwardDone]> ts)))
  | sw_start b g ts i offset :
      ts !! i = Some (SRead offset) →
      stream_wait_step (mkStreamWait b g ts) (mkStreamWait b g (<[i := SReadTry offset g]> ts))
  | sw_try b g ts i offset observed r :
      ts !! i = Some (SReadTry offset observed) → sb_read_at offset b = Some r →
      stream_wait_step (mkStreamWait b g ts)
        (mkStreamWait b g (<[i := read_answer r (SReadLock offset observed)]> ts))
  | sw_expired b g ts i offset observed :
      ts !! i = Some (SReadLock offset observed) →
      stream_wait_step (mkStreamWait b g ts)
        (mkStreamWait b g (<[i := SReadDone (Err (StreamWouldBlock "stream read timeout"))]> ts))
  | sw_park b g ts i offset :
      ts !! i = Some (SReadLock offset g) →
      stream_wait_step (mkStreamWait b g ts) (mkStreamWait b g (<[i := SReadParked offset]> ts))
  | sw_retry b g ts i offset observed :
      ts !! i = Some (SReadLock offset observed) → observed ≠ g →
      stream_wait_step (mkStreamWait b g ts) (mkStreamWait b g (<[i := SReadTry offset g]> ts))
  | sw_timeout b g ts i offset :
      ts !! i = Some (SReadParked offset) →
      stream_wait_step (mkStreamWait b g ts) (mkStreamWait b g (<[i := SReadWoken offset]> ts))
  | sw_woken b g ts i offset :
      ts !! i = Some (SReadWoken offset) →
      stream_wait_step (mkStreamWait b g ts) (mkStreamWait b g (<[i := SReadTry offset g]> ts))
  | sw_close b g ts i :
      ts !! i = Some SClose →
      stream_wait_step (mkStreamWait b g ts) (mkStreamWait (sb_close b) g (<[i := SCloseWake]> ts))
  | sw_close_wake b g ts i :
      ts !! i = Some SCloseWake →
      stream_wait_step (mkStreamWait b g ts)
        (mkStreamWait b (wrap64 (g + 1)) (wake_parked (<[i := SCloseDone]> ts))).
End waiting.
