(* ===== verification/StreamManagerProofs.v ===== *)
(** * Properties of the registry of streams

    Whole reads and [forward] copy the log, a replicated stream is materialized
    once, and no blocked reader is left asleep over a message it could read. *)

From S2P Require Import Prelude Bytes Codec StreamBuf StreamBufProofs StreamManager.

(** ** Blocked readers *)

Section waiting.
Context {B : Type} `{!StreamBackend B} (path : string).

(** A refused push changes nothing. *)
Hypothesis push_refused : ∀ now data b e b', sb_push now data b = Some (Err e, b') → b' = b.

(** A read at [offset] would not block. *)
Definition readable (b : B) (offset : N) : Prop := sb_read_at offset b ≠ Some (Err StreamEmpty).

(** Someone is about to wake every parked reader. *)
Definition wake_pending (ts : list StreamThread) : Prop :=
  ∃ j t, ts !! j = Some t ∧ match t with SWriteWake _ | SCloseWake => True | _ => False end.

Definition thread_ok (b : B) (g : N) (ts : list StreamThread) (t : StreamThread) : Prop :=
  match t with
  | SReadTry _ observed => (observed ≤ g)%N
  | SReadLock offset observed => (observed ≤ g)%N ∧ (observed = g → readable b offset → wake_pending ts)
  | SReadParked offset => readable b offset → wake_pending ts
  | SForward _ | SForwardWake => False
  | _ => True
  end.

Definition stream_wait_inv (s : StreamWait B) : Prop :=
  Forall (thread_ok (sw_backend s) (sw_generation s) (sw_threads s)) (sw_threads s).

Lemma Forall_insert_imp {A} (P Q : A → Prop) (ts : list A) i y :
  Forall P ts → (∀ t, P t → Q t) → Q y → Forall Q (<[i := y]> ts).
Proof.
  intros HP HPQ Hy. apply Forall_lookup. intros j t [(-> & -> & _)|(_ & Hj)]%list_lookup_insert_Some; [done|].
  apply HPQ. by eapply Forall_lookup_1.
Qed.

Definition wakes (t : StreamThread) : bool := match t with SWriteWake _ | SCloseWake => true | _ => false end.

Lemma wake_pending_insert ts i x y :
  ts !! i = Some x → wakes x = false → wake_pending ts → wake_pending (<[i := y]> ts).
Proof.
  intros Hi Hx (j & t & Hj & Ht). exists j, t. split; [|done]. rewrite list_lookup_insert_ne; [done|].
  intros ->. assert (t = x) as -> by congruence. by destruct x.
Qed.

(** A step of one thread that leaves the backend and the generation. *)
Lemma inv_move b g ts i x y :
  ts !! i = Some x → wakes x = false → thread_ok b g (<[i := y]> ts) y →
  stream_wait_inv (mkStreamWait b g ts) → stream_wait_inv (mkStreamWait b g (<[i := y]> ts)).
Proof.
  intros Hi Hx Hy Hinv. eapply Forall_insert_imp; [exact Hinv| |done]. cbn.
  pose proof (wake_pending_insert ts i x y Hi Hx). intros [] Ht; cbn in *; naive_solver.
Qed.

(** A step that changes the backend and has a wake to come. *)
Lemma inv_change b b' g ts i x y :
  ts !! i = Some x → wakes y = true →
  stream_wait_inv (mkStreamWait b g ts) → stream_wait_inv (mkStreamWait b' g (<[i := y]> ts)).
Proof.
  intros Hi Hy Hinv. assert (wake_pending (<[i := y]> ts)).
  { exists i, y. split; [|by destruct y]. apply list_lookup_insert_eq. by eapply lookup_lt_Some. }
  eapply Forall_insert_imp; [exact Hinv| |by destruct y]. cbn. intros [] Ht; cbn in *; naive_solver.
Qed.

(** The wake of everyone parked. *)
Lemma inv_wake b g ts i y :
  (g + 1 < U64_MOD)%N → (∀ b g ts, thread_ok b g ts y) →
  stream_wait_inv (mkStreamWait b g ts) →
  stream_wait_inv (mkStreamWait b (wrap64 (g + 1)) (wake_parked (<[i := y]> ts))).
Proof.
  intros Hg Hy Hinv. rewrite wrap64_small by done. unfold stream_wait_inv. cbn. apply Forall_lookup.
  intros j t Hj. unfold wake_parked in Hj. rewrite list_lookup_fmap in Hj.
  destruct (<[i := y]> ts !! j) as [u|] eqn:Hu; [|done]. injection Hj as <-.
  apply list_lookup_insert_Some in Hu as [(_ & <- & _)|(_ & Hu)].
  - pose proof (Hy b (g + 1)%N (wake_parked (<[i := y]> ts))). by destruct y.
  - pose proof (Forall_lookup_1 _ _ _ _ Hinv Hu) as Hok. destruct u; cbn in *; try done; try lia.
Qed.

Definition stream_fitting_step (s s' : StreamWait B) : Prop :=
  (sw_generation s + 1 < U64_MOD)%N ∧ stream_wait_step path s s'.

Lemma stream_wait_step_inv s s' : stream_fitting_step s s' → stream_wait_inv s → stream_wait_inv s'.
Proof.
  intros [Hg Hstep] Hinv. destruct Hstep as
    [b g ts i now data offset b' Hi Hp|b g ts i now data e b' Hi Hp|b g ts i offset Hi|b g ts i now data offset b' Hi Hp
    |b g ts i j offset Hi Hj|b g ts i offset Hi|b g ts i offset observed r Hi Hr|b g ts i offset observed Hi
    |b g ts i offset Hi|b g ts i offset observed Hi Hne|b g ts i offset Hi|b g ts i offset Hi|b g ts i Hi|b g ts i Hi];
    cbn in Hg; pose proof (Forall_lookup_1 _ _ _ _ Hinv Hi) as Hok; cbn in Hok.
  - by eapply inv_change.
  - rewrite (push_refused _ _ _ _ _ Hp). by eapply inv_move.
  - by apply inv_wake.
  - done.
  - done.
  - eapply inv_move; [done|done|cbn; lia|done].
  - eapply inv_move; [done|done| |done]. destruct r as [x|e]; [done|]. by destruct e.
  - by eapply inv_move.
  - eapply inv_move; [done|done| |done]. cbn. intros Hrd. eapply wake_pending_insert; [done|done|]. by apply Hok.
  - eapply inv_move; [done|done|cbn; lia|done].
  - by eapply inv_move.
  - eapply inv_move; [done|done|cbn; lia|done].
  - by eapply inv_change.
  - by apply inv_wake.
Qed.

(** A call of [write_nowait], [read_at_blocking] or [close] that has not begun. *)
Definition stream_starting (t : StreamThread) : bool :=
  match t with SWrite _ | SRead _ | SClose => true | _ => false end.

(** No wake-up of a stream is lost: with any number of writers, blocking readers
    and closers interleaved in any way, whenever a reader is parked although a
    read at its offset would return, some writer or closer is about to wake
    everyone parked. *)
Theorem stream_no_lost_wakeup b ts s offset
    (Hstart : Forall stream_starting ts) (Hreach : rtc stream_fitting_step (mkStreamWait b 0 ts) s)
    (Hparked : SReadParked offset ∈ sw_threads s) (Hready : readable (sw_backend s) offset) :
  wake_pending (sw_threads s).
Proof.
  assert (stream_wait_inv (mkStreamWait b 0 ts)) as Hi.
  { eapply Forall_impl; [exact Hstart|]. by intros []. }
  assert (stream_wait_inv s) as Hinv.
  { clear Hstart Hparked Hready. induction Hreach as [|s1 s2 s3 H12 _ IH]; [done|]. by eapply IH, stream_wait_step_inv. }
  apply list_elem_of_lookup in Hparked as [j Hj]. by apply (Forall_lookup_1 _ _ _ _ Hinv Hj).
Qed.
End waiting.

Lemma memory_push_refused now data (s : MemoryStream) e s' : sb_push now data s = Some (Err e, s') → s' = s.
Proof.
  cbn [sb_push memory_stream_backend]. unfold stream_push. destruct (stream_admit data s); [congruence|]. destruct (stream_full data s); [congruence|].
  destruct (write_header data s) as [s1|]; [|done]. cbn. destruct (write_payload data s1); [|done]. by intros [=].
Qed.

Lemma stream_no_lost_wakeup_witness :
  ∃ s : StreamWait MemoryStream, sw_threads s = [SReadParked 0; SWriteWake 0] ∧
    readable (sw_backend s) 0 ∧ wake_pending (sw_threads s).
Proof.
  assert (∃ s : StreamWait MemoryStream,
    rtc (stream_fitting_step "/s") (mkStreamWait (stream_new 16) 0 [SRead 0; SWrite "ab"]) s ∧
    sw_threads s = [SReadParked 0; SWriteWake 0] ∧ sb_read_at 0 (sw_backend s) = Some (Ok ("ab", 6%N)))
    as (s & Hrun & Hts & Hrd).
  { eexists. split.
    - eapply rtc_l; [split; [done|by eapply (sw_start _ _ _ _ 0)]|].
      eapply rtc_l; [split; [done|eapply (sw_try _ _ _ _ 0); [done|vm_compute; reflexivity]]|].
      eapply rtc_l; [split; [done|by eapply (sw_park _ _ _ _ 0)]|].
      eapply rtc_l; [split; [done|eapply (sw_push _ _ _ _ 1 5); [done|vm_compute; reflexivity]]|].
      apply rtc_refl.
    - split; [done|]. by vm_compute. }
  exists s. split; [done|]. assert (readable (sw_backend s) 0) as Hr by (unfold readable; by rewrite Hrd).
  split; [done|].
  eapply (stream_no_lost_wakeup "/s" memory_push_refused (stream_new 16) [SRead 0; SWrite "ab"] s 0);
    [by repeat constructor|done|rewrite Hts; by left|done].
Defined.

(** [forward] wakes one reader: of two parked at the tail, the other sleeps on. *)
Theorem forward_strands_reader :
  ∃ s : StreamWait MemoryStream,
    rtc (stream_fitting_step "/s") (mkStreamWait (stream_new 16) 0 [SRead 0; SRead 0; SForward "ab"]) s ∧
    SReadParked 0 ∈ sw_threads s ∧ readable (sw_backend s) 0 ∧ ¬ wake_pending (sw_threads s).
Proof.
  eexists. split; [|split; [|split]].
  - eapply rtc_l; [split; [done|by eapply (sw_start _ _ _ _ 0)]|].
    eapply rtc_l; [split; [done|eapply (sw_try _ _ _ _ 0); [done|vm_compute; reflexivity]]|].
    eapply rtc_l; [split; [done|by eapply (sw_park _ _ _ _ 0)]|].
    eapply rtc_l; [split; [done|by eapply (sw_start _ _ _ _ 1)]|].
    eapply rtc_l; [split; [done|eapply (sw_try _ _ _ _ 1); [done|vm_compute; reflexivity]]|].
    eapply rtc_l; [split; [done|by eapply (sw_park _ _ _ _ 1)]|].
    eapply rtc_l; [split; [done|eapply (sw_forward _ _ _ _ 2 5); [done|vm_compute; reflexivity]]|].
    eapply rtc_once. split; [done|by eapply (sw_forward_wake _ _ _ _ 2 0)].
  - cbn. set_solver.
  - by vm_compute.
  - intros (j & t & Hj & Ht). cbn in Hj. destruct j as [|[|[|j]]]; cbn in Hj; by simplify_eq.
Qed.

(** ** Whole reads *)

Definition payload (ms : list string) : string := foldr (λ d s, d +:+ s) "" ms.

Lemma collect_loop_spec s p ms fuel out :
  stream_ok s (p ++ ms) → (length ms < fuel)%nat →
  collect_loop fuel (log_len p) out s = Some (Ok (out +:+ payload ms)).
Proof.
  revert p ms out. induction fuel as [|fuel IH]; intros p ms out Hs Hf; [lia|]. cbn [collect_loop sb_read_at memory_stream_backend].
  destruct ms as [|d ms].
  - rewrite app_nil_r in Hs. rewrite (stream_read_end _ _ Hs). cbn [mbind option_bind].
    unfold stream_end. cbn. rewrite sapp_nil_r. by destruct (ms_closed s).
  - rewrite (stream_read_at_spec s p d ms Hs). cbn [mbind option_bind].
    rewrite (IH (p ++ [d]) ms); [|by rewrite <-app_assoc|cbn in Hf; lia]. cbn. by rewrite sapp_assoc.
Qed.

Lemma sm_get_store {B} `{!StreamBackend B} path (m : StreamManager B) l b :
  sm_get path m = Some (l, b) → sm_store m !! l = Some b.
Proof.
  unfold sm_get. destruct (sm_buffers m !! path) as [slot|]; [|done]. cbn.
  destruct (sm_store m !! slot_backend slot) eqn:E; [|done]. by intros [= <- <-].
Qed.

(** The copying loop: as long as the frames fit it copies them all. *)
Lemma forward_loop_spec fuel now (m : StreamManager MemoryStream) src dst ssrc sdst p ms ns n :
  src ≠ dst → sm_store m !! src = Some ssrc → sm_store m !! dst = Some sdst →
  stream_ok ssrc (p ++ ms) → stream_ok sdst ns → ms_closed sdst = false →
  (log_len ns + log_len ms ≤ ms_capacity sdst)%N → (length ms < fuel)%nat →
  ∃ m' sdst', forward_loop fuel now src dst (log_len p) n m
      = Some (Ok ((n + N.of_nat (length ms))%N, log_len (p ++ ms)), m') ∧
    sm_buffers m' = sm_buffers m ∧ sm_store m' !! src = Some ssrc ∧
    sm_store m' !! dst = Some sdst' ∧ stream_ok sdst' (ns ++ ms).
Proof.
  revert m sdst p ms ns n. induction fuel as [|fuel IH]; intros m sdst p ms ns n Hne Hsrc Hdst Hos Hod Hcl Hcap Hf; [lia|].
  cbn [forward_loop]. rewrite Hsrc. cbn [mbind option_bind sb_read_at memory_stream_backend]. destruct ms as [|d ms].
  { rewrite app_nil_r in Hos. rewrite (stream_read_end _ _ Hos). cbn [mbind option_bind].
    exists m, sdst. rewrite !app_nil_r. split_and!; try done. unfold stream_end.
    destruct (ms_closed ssrc); by rewrite N.add_0_r. }
  rewrite (stream_read_at_spec ssrc p d ms Hos). cbn [mbind option_bind]. rewrite Hdst. cbn [mbind option_bind].
  cbn [sb_push memory_stream_backend]. destruct (stream_push_spec now d sdst ns Hod) as (r & s' & -> & Hc & Hk & H).
  cbn [mbind option_bind]. rewrite Hcl in H. cbn [log_len] in Hcap.
  pose proof (so_log _ _ Hos) as Hlog. apply log_at_app in Hlog as [_ Hlog]. cbn [log_at] in Hlog.
  destruct (N.eqb_spec (slen d) 0); [lia|]. rewrite (proj2 (N.leb_le _ _)) in H by lia. destruct H as [-> Hod'].
  destruct (IH (sm_set dst s' m) s' (p ++ [d]) ms (ns ++ [d]) (n + 1)%N) as (m' & sdst' & E & Hb & H1 & H2 & H3).
  - done.
  - cbn. by rewrite lookup_insert_ne.
  - cbn. by rewrite lookup_insert_eq.
  - by rewrite <-app_assoc.
  - done.
  - by rewrite Hc.
  - rewrite log_len_snoc, Hk. lia.
  - cbn in Hf. lia.
  - exists m', sdst'. rewrite <-app_assoc in E, H3. cbn [app] in *. rewrite E. split_and!; try done.
    do 4 f_equal. cbn [length]. lia.
Qed.

Lemma resolve_hit {B} `{!StreamBackend B} path (m : StreamManager B) lb :
  sm_get path m = Some lb → resolve path m = (Ok (Some lb), m).
Proof. unfold resolve. by intros ->. Qed.

Lemma collect_all_spec path (m : StreamManager MemoryStream) l s ms fuel :
  sm_get path m = Some (l, s) → stream_ok s ms → (length ms < fuel)%nat →
  collect_all_payloads fuel path m = Some (Ok (payload ms), m).
Proof.
  intros Hg Hs Hf. unfold collect_all_payloads, resolved. rewrite (resolve_hit _ _ _ Hg).
  change (sb_earliest_offset s) with (log_len []). by rewrite (collect_loop_spec s [] ms fuel "" Hs Hf).
Qed.

(** [forward] appends to the destination, in order, every message of the source
    from the given one on, leaves the source as it was, and returns how many and
    where to continue; reading the destination whole then returns its payloads
    followed by the copied ones.  Both loops end, after as many reads as there
    are messages and one more. *)
Theorem forward_appends fuel now (m : StreamManager MemoryStream) from to src dst ssrc sdst ms ns k
    (Hne : src ≠ dst) (Hfrom : sm_get from m = Some (src, ssrc)) (Hto : sm_get to m = Some (dst, sdst))
    (Hsrc : stream_ok ssrc ms) (Hdst : stream_ok sdst ns) (Hopen : ms_closed sdst = false)
    (Hroom : (log_len ns + log_len (drop k ms) ≤ ms_capacity sdst)%N) (Hfuel : (length ms < fuel)%nat) :
  ∃ m' sdst', sm_forward fuel now from to (log_len (take k ms)) m
      = Some (Ok (N.of_nat (length (drop k ms)), log_len ms), m') ∧
    sm_get from m' = Some (src, ssrc) ∧ sm_get to m' = Some (dst, sdst') ∧ stream_ok sdst' (ns ++ drop k ms) ∧
    collect_all_payloads (length ns + fuel) to m' = Some (Ok (payload (ns ++ drop k ms)), m').
Proof.
  destruct (forward_loop_spec fuel now m src dst ssrc sdst (take k ms) (drop k ms) ns 0)
    as (m' & sdst' & E & Hb & H1 & H2 & H3); try done.
  { by apply (sm_get_store from). }
  { by apply (sm_get_store to). }
  { by rewrite take_drop. }
  { rewrite length_drop. lia. }
  rewrite take_drop in E.
  set (m2 := if (0 <? 0 + N.of_nat (length (drop k ms)))%N then sm_wake to m' else m').
  assert (∀ path l s, sm_get path m = Some (l, s) → sm_get path m2 = (s' ← sm_store m' !! l; Some (l, s'))) as Hget.
  { intros path l s. unfold sm_get. destruct (sm_buffers m !! path) as [slot|] eqn:Hs; [|done]. cbn.
    destruct (sm_store m !! slot_backend slot); [|done]. intros [= <- _].
    assert (∃ g, sm_buffers m2 !! path = Some (mkSlot (slot_backend slot) g)) as [g ->]; [|cbn; by subst m2; destruct (_ <? _)%N].
    subst m2. destruct (_ <? _)%N.
    - cbn. rewrite Hb. destruct (decide (path = to)) as [<-|Hp].
      + rewrite lookup_alter_eq, Hs. cbn. eauto.
      + rewrite lookup_alter_ne by done. rewrite Hs. destruct slot. cbn. eauto.
    - rewrite Hb, Hs. destruct slot. cbn. eauto. }
  assert (sm_get to m2 = Some (dst, sdst')) as Hto2 by (rewrite (Hget _ _ _ Hto), H2; done).
  exists m2, sdst'. split_and!; [|by rewrite (Hget _ _ _ Hfrom), H1|done|done|].
  - unfold sm_forward, resolved. rewrite (resolve_hit _ _ _ Hfrom), (resolve_hit _ _ _ Hto), E. done.
  - apply (collect_all_spec _ _ dst sdst'); [done|done|]. rewrite length_app, length_drop. lia.
Qed.

(** Two streams, the first with two messages. *)
Definition two_streams : StreamManager MemoryStream :=
  let m := (sm_create id "/b" 32 (sm_create id "/a" 32 stream_manager_new).2).2 in
  match sm_write_nowait 7 "/a" "ab" m with
  | Some (_, m) => match sm_write_nowait 8 "/a" "c" m with Some (_, m) => m | None => m end
  | None => m
  end.

Lemma two_streams_ok :
  ∃ sa sb, sm_get "/a" two_streams = Some (0%N, sa) ∧ sm_get "/b" two_streams = Some (1%N, sb) ∧
    stream_ok sa ["ab"; "c"] ∧ stream_ok sb [] ∧ ms_closed sb = false ∧ ms_capacity sb = 32%N.
Proof.
  do 2 eexists. split; [vm_compute; reflexivity|]. split; [vm_compute; reflexivity|].
  split; [|split; [apply (stream_new_ok 32); done|done]]. split; try by vm_compute.
Qed.

Lemma forward_appends_witness :
  ∃ m' sdst', sm_forward 9 5 "/a" "/b" 6 two_streams = Some (Ok (1%N, 11%N), m') ∧
    sm_get "/b" m' = Some (1%N, sdst') ∧ stream_ok sdst' ["c"] ∧
    collect_all_payloads 9 "/b" m' = Some (Ok "c", m').
Proof.
  destruct two_streams_ok as (sa & sb & Ha & Hb & Hsa & Hsb & Hcl & Hcap).
  pose proof (forward_appends 9 5 two_streams "/a" "/b" 0 1 sa sb ["ab"; "c"] [] 1 ltac:(done) Ha Hb Hsa Hsb Hcl) as H.
  rewrite Hcap in H. destruct H as (m' & s' & E & _ & H2 & H3 & H4); [done|cbn; lia|].
  exists m', s'. split; [exact E|]. split; [exact H2|]. split; [exact H3|exact H4].
Defined.

(** ** Materializing *)

Lemma materialize_once {B} `{!StreamBackend B} path (m m' : StreamManager B) l b :
  (∀ slot, sm_buffers m !! path = Some slot → is_Some (sm_store m !! slot_backend slot)) →
  resolve path m = (Ok (Some (l, b)), m') →
  resolve path m' = (Ok (Some (l, b)), m').
Proof.
  intros Hlive. unfold resolve at 1. destruct (sm_get path m) as [lb|] eqn:Hg.
  { intros [= -> ->]. by apply resolve_hit. }
  assert (sm_buffers m !! path = None) as Hn.
  { unfold sm_get in Hg. destruct (sm_buffers m !! path) as [slot|]; [|done]. cbn in Hg.
    by destruct (Hlive slot eq_refl) as [? E]; rewrite E in Hg. }
  unfold materialize_miss. destruct (sm_materializer m) as [f|]; [|done]. destruct (f path) as [[b'|]|e]; try done.
  cbn [sm_alloc]. unfold sm_register. cbn [sm_buffers]. rewrite Hn. intros [= E <-]. by apply resolve_hit.
Qed.
