(* ===== verification/Cas.v ===== *)
(** * Content addressed storage

    src/rust/kernel/src/core/cas: the blob store of transport.rs, the chunked
    manifests of chunking.rs and the engine of engine.rs.  Files below the root
    are a map from paths to bytes; I/O fails only where a file is missing or does
    not have its hash, and a publication is one step (staging and durability
    barriers are left out).  BLAKE3, FastCDC, serde_json and the remote fetcher
    are parameters. *)

From S2P Require Import Prelude Bytes Codec.

(** ** Errors and effects *)

(** [io::Error] by its kind. *)
Inductive IoError := IoNotFound | IoInvalidData | IoInvalidInput | IoOther.

Inductive CASError := CASNotFound (what : string) | CASIOError (e : IoError).

(** The files below the root of the transport. *)
Abbreviation Files := (gmap string string).

(** Effectful code: [None] is a panic. *)
Definition M (E A : Type) : Type := Files → option (result E A * Files).

#[global] Instance M_ret E : MRet (M E) := λ A a fs, Some (Ok a, fs).
#[global] Instance M_bind E : MBind (M E) := λ A B f m fs,
  match m fs with
  | Some (Ok a, fs) => f a fs
  | Some (Err e, fs) => Some (Err e, fs)
  | None => None
  end.

Definition throw {E A} (e : E) : M E A := λ fs, Some (Err e, fs).
Definition files {E} : M E Files := λ fs, Some (Ok fs, fs).
Definition set_files {E} (fs : Files) : M E () := λ _, Some (Ok (), fs).
Definition panic {E A} : M E A := λ _, None.

Definition map_err {E E' A} (f : E → E') (m : M E A) : M E' A := λ fs,
  match m fs with
  | Some (Ok a, fs) => Some (Ok a, fs)
  | Some (Err e, fs) => Some (Err (f e), fs)
  | None => None
  end.

(** [let _ = m] *)
Definition ignore {E E' A} (m : M E A) : M E' () := λ fs,
  match m fs with Some (_, fs) => Some (Ok (), fs) | None => None end.

Fixpoint mapM {E A B} (f : A → M E B) (l : list A) : M E (list B) :=
  match l with
  | [] => mret []
  | a :: l => b ← f a; bs ← mapM f l; mret (b :: bs)
  end.

(** ** JSON values, by the fields the code reads *)

Record JChunk := mkJChunk {
  jc_hash : option string;
  jc_offset : option Z;
  jc_length : option Z }.

Record JManifest := mkJManifest {
  jm_type : option string;
  jm_total_size : option Z;
  jm_chunk_count : option Z;
  jm_avg_chunk_size : option Z;
  jm_content_id : option string;
  jm_chunks : option (list JChunk) }.

Record JSidecar := mkJSidecar {
  js_size : option Z;
  js_is_chunked : option bool;
  js_chunk_count : option Z }.

(** [Value::as_u64], [Value::as_i64] *)
Definition as_u64 (n : option Z) : option N :=
  z ← n; if decide (0 ≤ z < Z.of_N U64_MOD)%Z then Some (Z.to_N z) else None.
Definition as_i64 (n : option Z) : option Z :=
  z ← n; if decide (- I64_MAX - 1 ≤ z ≤ I64_MAX)%Z then Some z else None.

(** ** Third-party code *)

Class CasEnv := {
  (** BLAKE3 in hexadecimal *)
  hash_content : string → string;
  (** the cuts of FastCDC: offset and length *)
  fastcdc : string → list (N * N);
  manifest_to_vec : JManifest → string;
  manifest_from_slice : string → option JManifest;
  sidecar_to_vec : JSidecar → string;
  sidecar_from_slice : string → option JSidecar;
  (** a JSON array of messages, each serialized again *)
  json_messages : string → option (list string);
  (** the first element of the array is an object with a role *)
  json_first_has_role : string → bool;
  (** [RemoteChunkFetcher::fetch_chunk] *)
  fetch_chunk : string → list string → option string }.

Section cas.
Context {env : CasEnv}.

(** ** The transport *)

(** Slicing a shorter id panics. *)
Definition blob_key {E} (content_id : string) : M E string :=
  if (String.length content_id <? 4)%nat then panic
  else mret ("cas/" +:+ stake 2 content_id +:+ "/" +:+ stake 2 (sdrop 2 content_id) +:+ "/" +:+ content_id).

Definition meta_key {E} (content_id : string) : M E string :=
  key ← blob_key content_id; mret (key +:+ ".meta").

Definition validate_content_hash (content_id content : string) : M IoError () :=
  if decide (hash_content content = content_id) then mret () else throw IoInvalidData.

Definition read_file (path : string) : M IoError string :=
  fs ← files;
  match fs !! path with Some c => mret c | None => throw IoNotFound end.

Definition write_file (path content : string) : M IoError () :=
  fs ← files; set_files (<[path := content]> fs).

Definition confirm_existing_blob (path content_id : string) : M IoError bool :=
  fs ← files;
  match fs !! path with
  | None => mret false
  | Some c => _ ← validate_content_hash content_id c; mret true
  end.

Definition publish_blob (content content_id : string) : M IoError bool :=
  path ← blob_key content_id;
  present ← confirm_existing_blob path content_id;
  if present : bool then mret false else _ ← write_file path content; mret true.

Definition read_blob (content_id : string) : M IoError string :=
  path ← blob_key content_id;
  content ← read_file path;
  _ ← validate_content_hash content_id content;
  mret content.

Definition write_blob_tracked (content : string) : M IoError (string * bool) :=
  let hash := hash_content content in
  published ← publish_blob content hash; mret (hash, published).

Definition write_blob (content : string) : M IoError string :=
  '(h, _) ← write_blob_tracked content; mret h.

Definition write_blob_with_hash (content content_id : string) : M IoError bool :=
  if decide (hash_content content = content_id) then publish_blob content content_id else throw IoInvalidInput.

Definition exists_blob {E} (content_id : string) : M E bool :=
  path ← blob_key content_id; fs ← files; mret (bool_decide (is_Some (fs !! path))).

Definition blob_size (content_id : string) : M IoError N :=
  path ← blob_key content_id; content ← read_file path; mret (slen content).

Definition write_meta (content_id meta : string) : M IoError () :=
  path ← meta_key content_id; write_file path meta.

Definition read_meta (content_id : string) : M IoError string :=
  path ← meta_key content_id; read_file path.

Definition meta_exists {E} (content_id : string) : M E bool :=
  path ← meta_key content_id; fs ← files; mret (bool_decide (is_Some (fs !! path))).

Definition remove_file (path : string) : M IoError () :=
  fs ← files;
  match fs !! path with Some _ => set_files (delete path fs) | None => throw IoNotFound end.

Definition remove_meta (content_id : string) : M IoError () :=
  path ← meta_key content_id; fs ← files;
  match fs !! path with Some _ => set_files (delete path fs) | None => mret () end.

Definition remove_blob (content_id : string) : M IoError () :=
  path ← blob_key content_id; remove_file path.

(** ** Manifests *)

(** [NotFound] of a read, with the id the caller asked for. *)
Definition not_found_as (content_id : string) (e : IoError) : CASError :=
  match e with IoNotFound => CASNotFound content_id | _ => CASIOError e end.

(** [From<io::Error> for CASError] *)
Definition cas_from (e : IoError) : CASError :=
  match e with IoNotFound => CASNotFound "(io::NotFound)" | _ => CASIOError e end.

Definition MANIFEST_LIMIT : N := 512000.

Definition parse_chunk_manifest (data : string) : option JManifest :=
  if (MANIFEST_LIMIT <=? slen data)%N || negb (starts_with "{" data) then None
  else
    manifest ← manifest_from_slice data;
    if decide (jm_type manifest = Some "chunked_manifest" ∧ is_Some (jm_chunks manifest))
    then Some manifest else None.

(** The local read with its fall-back to the peers. *)
Definition read_and_verify_chunk (expected_hash : string) (fetcher : bool) (origins : list string) :
    M CASError string := λ fs,
  match read_blob expected_hash fs with
  | None => None
  | Some (Ok data, fs) => Some (Ok data, fs)
  | Some (Err IoNotFound, fs) =>
      match (if fetcher && negb (bool_decide (origins = [])) then fetch_chunk expected_hash origins else None) with
      | Some bytes =>
          if decide (hash_content bytes = expected_hash)
          then (_ ← ignore (write_blob_with_hash bytes expected_hash); mret bytes) fs
          else throw (CASIOError IoInvalidData) fs
      | None => throw (CASNotFound expected_hash) fs
      end
  | Some (Err e, fs) => Some (Err (CASIOError e), fs)
  end.

(** A stable sort by the first component. *)
Fixpoint insert_by_key {A} (x : N * A) (l : list (N * A)) : list (N * A) :=
  match l with
  | [] => [x]
  | y :: l => if (x.1 <=? y.1)%N then x :: y :: l else y :: insert_by_key x l
  end.
Definition sort_by_key {A} (l : list (N * A)) : list (N * A) := foldr insert_by_key [] l.

Definition read_part (fetcher : bool) (origins : list string) (chunk : JChunk) : M CASError (N * string) :=
  match jc_hash chunk with
  | None => throw (CASIOError IoInvalidData)
  | Some hash =>
      let offset := default 0%Z (as_i64 (jc_offset chunk)) in
      if (offset <? 0)%Z then throw (CASIOError IoInvalidData)
      else data ← read_and_verify_chunk hash fetcher origins; mret (Z.to_N offset, data)
  end.

(** Gaps, overlaps and an overflowing total are rejected. *)
Fixpoint check_tiling (expected : N) (parts : list (N * string)) : option N :=
  match parts with
  | [] => Some expected
  | (offset, data) :: parts =>
      if (offset =? expected)%N && (offset + slen data <? U64_MOD)%N
      then check_tiling (offset + slen data) parts else None
  end.

Definition sconcat (l : list string) : string := foldr (λ d s, d +:+ s) "" l.

Definition reassemble_chunks (chunks : list JChunk) (fetcher : bool) (origins : list string) :
    M CASError string :=
  parts ← mapM (read_part fetcher origins) chunks;
  let parts := sort_by_key parts in
  match check_tiling 0 parts with
  | None => throw (CASIOError IoInvalidData)
  | Some _ => mret (sconcat (snd <$> parts))
  end.

Definition try_reassemble (data : string) (fetcher : bool) (origins : list string) :
    M CASError (option string) :=
  match parse_chunk_manifest data with
  | None => mret None
  | Some manifest =>
      match jm_chunks manifest with
      | None => mret None
      | Some chunks => c ← reassemble_chunks chunks fetcher origins; mret (Some c)
      end
  end.

Definition finalize_manifest (chunk_entries : list JChunk) (chunk_count total_size : N)
    (full_content_hash : string) : M CASError (string * bool) :=
  let manifest := mkJManifest (Some "chunked_manifest") (Some (Z.of_N total_size)) (Some (Z.of_N chunk_count))
    (Some (Z.of_N (total_size / chunk_count))) (Some full_content_hash) (Some chunk_entries) in
  '(manifest_hash, is_new) ← map_err CASIOError (write_blob_tracked (manifest_to_vec manifest));
  let sidecar := mkJSidecar (Some (Z.of_N total_size)) (Some true) (Some (Z.of_N chunk_count)) in
  _ ← map_err CASIOError (write_meta manifest_hash (sidecar_to_vec sidecar));
  mret (manifest_hash, is_new).

Definition entry_of (hash : string) (offset length : N) : JChunk :=
  mkJChunk (Some hash) (Some (Z.of_N offset)) (Some (Z.of_N length)).

Definition write_literal_manifest (content : string) : M CASError (string * bool) :=
  '(hash, _) ← map_err cas_from (write_blob_tracked content);
  finalize_manifest [entry_of hash 0 (slen content)] 1 (slen content) hash.

(** ** Strategies *)

Class ChunkingStrategy := {
  should_chunk : string → bool;
  chunk_content : string → M CASError (list (N * string));
  supports_partial_writes : bool;
  write_chunked : string → M CASError (string * bool) }.

Definition CDC_THRESHOLD_BYTES : N := 16777216.

(** Stores a chunk that begins at [base + offset]. *)
Definition store_chunk (base : N) (chunk : N * string) : M CASError JChunk :=
  h ← map_err CASIOError (write_blob chunk.2);
  mret (entry_of h (base + chunk.1) (slen chunk.2)).

(** [content[offset..offset + length]] *)
Definition cut (content : string) (c : N * N) : M CASError (N * string) := λ fs,
  match slice_at c.1 c.2 content with Some bytes => Some (Ok (c.1, bytes), fs) | None => None end.

Definition fastcdc_strategy : ChunkingStrategy := {|
  should_chunk content := (CDC_THRESHOLD_BYTES <? slen content)%N;
  chunk_content content := mapM (cut content) (fastcdc content);
  supports_partial_writes := true;
  write_chunked content :=
    entries ← mapM (λ c, chunk ← cut content c; store_chunk 0 chunk) (fastcdc content);
    finalize_manifest entries (N.of_nat (length (fastcdc content))) (slen content) (hash_content content) |}.

(** Messages one after the other from [offset] on. *)
Fixpoint lay_out (offset : N) (messages : list string) : list (N * string) :=
  match messages with
  | [] => []
  | m :: messages => (offset, m) :: lay_out (offset + slen m) messages
  end.

Definition message_strategy : ChunkingStrategy := {|
  should_chunk content :=
    match json_messages content with
    | Some messages => (2 <=? length messages)%nat && json_first_has_role content
    | None => false
    end;
  chunk_content content :=
    match json_messages content with
    | Some messages => mret (lay_out 0 messages)
    | None => throw (CASIOError IoOther)
    end;
  supports_partial_writes := false;
  write_chunked content :=
    match json_messages content with
    | None => throw (CASIOError IoOther)
    | Some messages =>
        entries ← mapM (store_chunk 0) (lay_out 0 messages);
        finalize_manifest entries (N.of_nat (length messages)) (slen content) (hash_content content)
    end |}.

(** ** The engine *)

Section engine.
Context {strategy : ChunkingStrategy} (fetcher : bool).

Definition read_content_with_origins (content_id : string) (origins : list string) : M CASError string :=
  data ← map_err (not_found_as content_id) (read_blob content_id);
  reassembled ← try_reassemble data fetcher origins;
  mret (default data reassembled).

Definition read_content (content_id : string) : M CASError string := read_content_with_origins content_id [].

Definition write_content_tracked (content : string) : M CASError (string * bool) :=
  if decide (is_Some (parse_chunk_manifest content)) then write_literal_manifest content
  else if should_chunk content then write_chunked content
  else map_err cas_from (write_blob_tracked content).

Definition write_content (content : string) : M CASError string :=
  '(h, _) ← write_content_tracked content; mret h.

Definition is_hexdigit (a : ascii) : bool := byte_in 48 57 a || byte_in 65 70 a || byte_in 97 102 a.

Fixpoint all_hex (s : string) : bool :=
  match s with "" => true | String a s => is_hexdigit a && all_hex s end.

Definition content_exists (content_id : string) : M CASError bool :=
  if (String.length content_id =? 64)%nat && all_hex content_id then exists_blob content_id else mret false.

Definition content_size (content_id : string) : M CASError N :=
  map_err (not_found_as content_id) (blob_size content_id).

Definition delete_content (content_id : string) : M CASError () :=
  map_err (not_found_as content_id) (remove_blob content_id).

Definition is_chunked (content_id : string) : M CASError bool := λ fs,
  match meta_exists (E := CASError) content_id fs with
  | None => None
  | Some (Err e, fs) => Some (Err e, fs)
  | Some (Ok false, fs) => Some (Ok false, fs)
  | Some (Ok true, fs) =>
      match read_meta content_id fs with
      | None => None
      | Some (Err _, fs) => Some (Ok false, fs)
      | Some (Ok data, fs) =>
          Some (Ok (default false (parsed ← sidecar_from_slice data; js_is_chunked parsed)), fs)
      end
  end.

Definition get_size (content_id : string) : M CASError N :=
  chunked ← meta_exists content_id;
  if chunked : bool then
    data ← map_err (not_found_as content_id) (read_meta content_id);
    match sidecar_from_slice data with
    | None => throw (CASIOError IoInvalidData)
    | Some parsed => mret (default 0%N (as_u64 (js_size parsed)))
    end
  else content_size content_id.

Definition read_manifest (content_id : string) : M CASError JManifest :=
  data ← map_err (not_found_as content_id) (read_blob content_id);
  match manifest_from_slice data with
  | None => throw (CASIOError IoInvalidData)
  | Some manifest => mret manifest
  end.

Fixpoint remove_chunks (chunks : list JChunk) : M CASError () :=
  match chunks with
  | [] => mret ()
  | c :: chunks =>
      _ ← match jc_hash c with
          | Some h => _ ← ignore (remove_blob h); ignore (remove_meta h)
          | None => mret ()
          end;
      remove_chunks chunks
  end.

Definition delete_chunked (content_id : string) : M CASError () :=
  manifest ← read_manifest content_id;
  _ ← remove_chunks (default [] (jm_chunks manifest));
  _ ← ignore (remove_blob content_id);
  ignore (remove_meta content_id).

(** ** Ranges *)

Definition c_offset (c : JChunk) : N := default 0%N (as_u64 (jc_offset c)).
Definition c_length (c : JChunk) : N := default 0%N (as_u64 (jc_length c)).
Definition c_end (c : JChunk) : N := sat_add64 (c_offset c) (c_length c).

(** The chunks that meet a range, with their offsets and hashes. *)
Fixpoint overlapping (start end_ : N) (chunks : list JChunk) : M CASError (list (N * string)) :=
  match chunks with
  | [] => mret []
  | c :: chunks =>
      if (c_offset c <? end_)%N && (start <? c_end c)%N then
        match jc_hash c with
        | None => throw (CASIOError IoInvalidData)
        | Some h => rest ← overlapping start end_ chunks; mret ((c_offset c, h) :: rest)
        end
      else overlapping start end_ chunks
  end.

(** [x as i64], then [max(0) as usize] of a difference. *)
Definition clamp_diff (a b : N) : N :=
  Z.to_N (Z.max 0 (wrap_i64 (wrap_i64 (Z.of_N a) - wrap_i64 (Z.of_N b)))).

Definition read_chunked_range_with_origins (content_id : string) (start end_ : N) (origins : list string) :
    M CASError string :=
  if (end_ <=? start)%N then mret ""
  else
    manifest ← read_manifest content_id;
    match jm_chunks manifest with
    | None => throw (CASIOError IoInvalidData)
    | Some chunks =>
        found ← overlapping start end_ chunks;
        match sort_by_key found with
        | [] => mret ""
        | (first_offset, _) :: _ =>
            parts ← mapM (λ c, read_and_verify_chunk c.2 fetcher origins) (sort_by_key found);
            let assembled := sconcat parts in
            let raw_start := clamp_diff start first_offset in
            let raw_end := clamp_diff end_ first_offset in
            let clamped_end := N.min raw_end (slen assembled) in
            let clamped_start := N.min raw_start clamped_end in
            mret (stake (N.to_nat (clamped_end - clamped_start)) (sdrop (N.to_nat clamped_start) assembled))
        end
    end.

Definition read_chunked_range (content_id : string) (start end_ : N) : M CASError string :=
  read_chunked_range_with_origins content_id start end_ [].

(** ** Partial writes *)

Record PartialWriteResult := mkPartial { pw_content_id : string; pw_size : N }.

Record Partition := mkPartition {
  pt_prefix : list JChunk;
  pt_affected : list (N * string);
  pt_suffix : list JChunk }.

(** Chunks before, under and after the written range. *)
Fixpoint partition (offset write_end : N) (chunks : list JChunk) : M CASError Partition :=
  match chunks with
  | [] => mret (mkPartition [] [] [])
  | c :: chunks =>
      if (c_end c <=? offset)%N then
        p ← partition offset write_end chunks;
        mret (mkPartition (c :: pt_prefix p) (pt_affected p) (pt_suffix p))
      else if (write_end <=? c_offset c)%N then
        p ← partition offset write_end chunks;
        mret (mkPartition (pt_prefix p) (pt_affected p) (c :: pt_suffix p))
      else
        match jc_hash c with
        | None => throw (CASIOError IoInvalidData)
        | Some h =>
            p ← partition offset write_end chunks;
            mret (mkPartition (pt_prefix p) ((c_offset c, h) :: pt_affected p) (pt_suffix p))
        end
  end.

Definition store_region (base : N) (region : string) : M CASError (list JChunk) :=
  chunks ← chunk_content region; mapM (store_chunk base) chunks.

(** A write that meets no chunk: past the end, or of nothing. *)
Definition append_region (old_total_size offset : N) (buf : string) (suffix : list JChunk) :
    M CASError (list JChunk) :=
  let region := zeros (N.to_nat (offset - old_total_size)) +:+ buf in
  store_region (if decide (suffix = []) then old_total_size else offset) region.

(** The affected chunks with the buffer spliced in; the subtraction panics or
    wraps when the first of them begins behind the offset. *)
Definition splice_region (affected : list (N * string)) (region_start offset : N) (buf : string)
    (origins : list string) : M CASError (list JChunk) :=
  parts ← mapM (λ c, read_and_verify_chunk c.2 fetcher origins) affected;
  let assembled := sconcat parts in
  let splice_start := wrap64 (offset + (U64_MOD - region_start)) in
  let assembled := assembled +:+ zeros (N.to_nat (splice_start - slen assembled)) in
  let tail_start := N.min (splice_start + slen buf) (slen assembled) in
  let new_region :=
    stake (N.to_nat splice_start) assembled +:+ buf +:+ sdrop (N.to_nat tail_start) assembled in
  store_region region_start new_region.

Definition total_of (chunks : list JChunk) : N := foldr (λ c n, N.max (c_end c) n) 0%N chunks.

Definition write_chunked_partial_with_origins (old_manifest_hash buf : string) (offset : N)
    (origins : list string) : M CASError PartialWriteResult :=
  if supports_partial_writes then
    manifest ← read_manifest old_manifest_hash;
    match jm_chunks manifest with
    | None => throw (CASIOError IoInvalidData)
    | Some chunks =>
        let old_total_size := default 0%N (as_u64 (jm_total_size manifest)) in
        let write_end := sat_add64 offset (slen buf) in
        p ← partition offset write_end chunks;
        new_entries ←
          match pt_affected p with
          | [] => append_region old_total_size offset buf (pt_suffix p)
          | (region_start, _) :: _ => splice_region (pt_affected p) region_start offset buf origins
          end;
        let all_chunks := pt_prefix p ++ new_entries ++ pt_suffix p in
        let total_size := total_of all_chunks in
        '(content_id, _) ← finalize_manifest all_chunks (N.of_nat (length all_chunks)) total_size "";
        mret (mkPartial content_id total_size)
    end
  else throw (CASIOError IoOther).

(** The read-modify-write of a whole blob. *)
Definition splice_blob (old buf : string) (off : N) : string :=
  stake (N.to_nat off) old +:+ zeros (N.to_nat (off - slen old)) +:+ buf +:+ sdrop (N.to_nat (off + slen buf)) old.

Definition write_partial (old_hash buf : string) (offset : N) (origins : list string) :
    M CASError PartialWriteResult :=
  chunked ← is_chunked old_hash;
  if chunked : bool then write_chunked_partial_with_origins old_hash buf offset origins
  else
    old ← map_err (not_found_as old_hash) (read_blob old_hash);
    let new_blob := splice_blob old buf offset in
    id ← write_content new_blob;
    mret (mkPartial id (N.max (slen old) (offset + slen buf))).
End engine.
End cas.
