(* ===== verification/CasProofs.v ===== *)
(** * Properties of content addressed storage

    What a content id stands for, that writes produce it and reads give it back,
    whole, by range and after partial writes, and what the checks of the read
    path guarantee of any files. *)

From S2P Require Import Prelude Bytes Codec Cas.

(** ** What content addressed storage asks of third-party code

    The laws of the hash, of JSON and of the content-defined cuts, and a small
    environment that has them: names for hashes that spell the content out, a
    binary text for JSON and cuts of two bytes. *)

(** ** What third-party code promises *)

Definition chunk_in_range (c : JChunk) : Prop :=
  (∀ z, jc_offset c = Some z → 0 ≤ z < Z.of_N U64_MOD)%Z ∧
  (∀ z, jc_length c = Some z → 0 ≤ z < Z.of_N U64_MOD)%Z.

Definition manifest_in_range (m : JManifest) : Prop :=
  (∀ z, jm_total_size m = Some z → 0 ≤ z < Z.of_N U64_MOD)%Z ∧
  (∀ z, jm_chunk_count m = Some z → 0 ≤ z < Z.of_N U64_MOD)%Z ∧
  (∀ z, jm_avg_chunk_size m = Some z → 0 ≤ z < Z.of_N U64_MOD)%Z ∧
  (∀ cs, jm_chunks m = Some cs → Forall chunk_in_range cs).

(** BLAKE3 is taken to have no collisions and is hexadecimal; JSON with integers of 64 bits reads back; the cuts of FastCDC are non-empty
    and cover the content. *)
Class CasLaws `{!CasEnv} := {
  hash_inj c c' : hash_content c = hash_content c' → c = c';
  hash_hex c : all_hex (hash_content c) = true ∧ (4 ≤ String.length (hash_content c))%nat;
  manifest_codec m : manifest_in_range m → manifest_from_slice (manifest_to_vec m) = Some m;
  manifest_brace m : starts_with "{" (manifest_to_vec m) = true;
  sidecar_codec size count : (size < U64_MOD → count < U64_MOD →
    let sc := mkJSidecar (Some (Z.of_N size)) (Some true) (Some (Z.of_N count)) in
    sidecar_from_slice (sidecar_to_vec sc) = Some sc)%N;
  fastcdc_cuts c : ∃ pieces, c = sconcat pieces ∧ Forall (λ p, 0 < slen p)%N pieces ∧
    fastcdc c = (λ x, (x.1, slen x.2)) <$> lay_out 0 pieces }.

(** ** A small environment *)

Definition hex_digit (n : N) : ascii :=
  match n with
  | 0 => "0" | 1 => "1" | 2 => "2" | 3 => "3" | 4 => "4" | 5 => "5" | 6 => "6" | 7 => "7"
  | 8 => "8" | 9 => "9" | 10 => "a" | 11 => "b" | 12 => "c" | 13 => "d" | 14 => "e" | _ => "f"
  end%N%char.

Fixpoint hex (s : string) : string :=
  match s with
  | "" => ""
  | String a s => String (hex_digit (N_of_ascii a / 16)) (String (hex_digit (N_of_ascii a mod 16)) (hex s))
  end.

(** The content itself, in hexadecimal. *)
Definition small_hash (c : string) : string := "0000" +:+ hex c.

Fixpoint chop (s : string) : list string :=
  match s with
  | "" => []
  | String a "" => [String a ""]
  | String a (String b s) => String a (String b "") :: chop s
  end.

#[local] Instance jchunk_eq : EqDecision JChunk.
Proof. solve_decision. Defined.
#[local] Instance jchunk_countable : Countable JChunk.
Proof.
  apply (inj_countable' (λ c, (jc_hash c, jc_offset c, jc_length c)) (λ t, mkJChunk t.1.1 t.1.2 t.2)). by intros [].
Defined.
#[local] Instance jmanifest_eq : EqDecision JManifest.
Proof. solve_decision. Defined.
#[local] Instance jmanifest_countable : Countable JManifest.
Proof.
  apply (inj_countable'
    (λ m, (jm_type m, jm_total_size m, jm_chunk_count m, jm_avg_chunk_size m, jm_content_id m, jm_chunks m))
    (λ t, mkJManifest t.1.1.1.1.1 t.1.1.1.1.2 t.1.1.1.2 t.1.1.2 t.1.2 t.2)). by intros [].
Defined.
#[local] Instance jsidecar_eq : EqDecision JSidecar.
Proof. solve_decision. Defined.
#[local] Instance jsidecar_countable : Countable JSidecar.
Proof.
  apply (inj_countable' (λ c, (js_size c, js_is_chunked c, js_chunk_count c)) (λ t, mkJSidecar t.1.1 t.1.2 t.2)). by intros [].
Defined.

(** [[a,b]]: the messages between brackets, split at the commas. *)
Fixpoint split_commas (acc s : string) : option (list string) :=
  match s with
  | "" => None
  | String a s =>
      if decide (a = "]"%char) then Some [acc]
      else if decide (a = ","%char) then (acc ::.) <$> split_commas "" s
      else split_commas (acc +:+ String a "") s
  end.

Definition small_env : CasEnv := {|
  hash_content := small_hash;
  fastcdc c := (λ x, (x.1, slen x.2)) <$> lay_out 0 (chop c);
  manifest_to_vec := small_to_vec; manifest_from_slice := small_from_slice;
  sidecar_to_vec := small_to_vec; sidecar_from_slice := small_from_slice;
  json_messages c := match c with String a s => if decide (a = "["%char) then split_commas "" s else None | "" => None end;
  json_first_has_role _ := true;
  fetch_chunk _ _ := None |}.

Definition hex_value (a : ascii) : N :=
  let n := N_of_ascii a in if (n <? 58)%N then n - 48 else n - 87.

Lemma hex_byte a :
  ascii_of_N (16 * hex_value (hex_digit (N_of_ascii a / 16)) + hex_value (hex_digit (N_of_ascii a mod 16))) = a ∧
  is_hexdigit (hex_digit (N_of_ascii a / 16)) = true ∧ is_hexdigit (hex_digit (N_of_ascii a mod 16)) = true.
Proof. destruct a as [[] [] [] [] [] [] [] []]; vm_compute; done. Qed.

Lemma hex_inj s t : hex s = hex t → s = t.
Proof.
  revert t. induction s as [|a s IH]; intros [|b t]; cbn [hex]; try done. intros [= H1 H2 H3].
  rewrite <-(proj1 (hex_byte a)), <-(proj1 (hex_byte b)), H1, H2. f_equal. by apply IH.
Qed.

Lemma hex_all_hex s : all_hex (hex s) = true.
Proof. induction s as [|a s IH]; [done|]. cbn [hex all_hex]. destruct (hex_byte a) as (_ & -> & ->). done. Qed.

Lemma chop_spec s : s = sconcat (chop s) ∧ Forall (λ p, 0 < slen p)%N (chop s).
Proof.
  assert (∀ n s, (String.length s ≤ n)%nat → s = sconcat (chop s) ∧ Forall (λ p, 0 < slen p)%N (chop s)) as H.
  { clear s. intros n. induction n as [|n IH]; intros [|a [|b s]] Hn; try done; try (cbn in Hn; lia).
    { split; [done|]. by repeat constructor. }
    destruct (IH s ltac:(cbn in Hn; lia)) as [E Hs]. split; [|by constructor].
    change (String a (String b s) = String a (String b (sconcat (chop s)))). by rewrite <-E. }
  by apply (H (String.length s)).
Qed.

Lemma small_laws : @CasLaws small_env.
Proof.
  split.
  - intros c c' H. apply hex_inj. by injection H.
  - intros c. split; [apply hex_all_hex|]. change (4 ≤ 4 + String.length (hex c))%nat. lia.
  - intros m _. apply small_codec.
  - done.
  - intros size count _ _ sc. apply small_codec.
  - intros c. exists (chop c). by destruct (chop_spec c).
Qed.

(** ** Effects *)

Lemma bind_Ok {E A B} (m : M E A) (k : A → M E B) fs fs' a :
  m fs = Some (Ok a, fs') → (m ≫= k) fs = k a fs'.
Proof. unfold mbind, M_bind. by intros ->. Qed.

Lemma bind_inv {E A B} (m : M E A) (k : A → M E B) fs fs' b :
  (m ≫= k) fs = Some (Ok b, fs') → ∃ a fs1, m fs = Some (Ok a, fs1) ∧ k a fs1 = Some (Ok b, fs').
Proof. unfold mbind, M_bind. destruct (m fs) as [[[a|e] fs1]|]; [|done..]. eauto. Qed.

Lemma map_err_Ok {E E' A} (f : E → E') (m : M E A) fs a fs' :
  m fs = Some (Ok a, fs') → map_err f m fs = Some (Ok a, fs').
Proof. unfold map_err. by intros ->. Qed.

Lemma map_err_inv {E E' A} (f : E → E') (m : M E A) fs a fs' :
  map_err f m fs = Some (Ok a, fs') → m fs = Some (Ok a, fs').
Proof. unfold map_err. destruct (m fs) as [[[b|e] fs1]|]; [|done..]. by intros [= -> ->]. Qed.

Section proofs.
Context {env : CasEnv} {laws : CasLaws}.

(** ** Paths *)

Definition blob_path (id : string) : string :=
  "cas/" +:+ stake 2 id +:+ "/" +:+ stake 2 (sdrop 2 id) +:+ "/" +:+ id.
Definition meta_path (id : string) : string := blob_path id +:+ ".meta".

#[local] Arguments blob_path : simpl never.
#[local] Arguments meta_path : simpl never.

Lemma blob_path_drop id : (4 ≤ String.length id)%nat → sdrop 10 (blob_path id) = id.
Proof.
  intros H. destruct id as [|a [|b [|c [|d id]]]]; cbn in H; try lia. done.
Qed.

Lemma blob_path_inj id id' :
  (4 ≤ String.length id)%nat → (4 ≤ String.length id')%nat → blob_path id = blob_path id' → id = id'.
Proof. intros H1 H2 E. by rewrite <-(blob_path_drop id H1), E, blob_path_drop. Qed.

Lemma all_hex_no_dot s : all_hex s = true → scontains "." s = false.
Proof.
  induction s as [|a s IH]; [done|]. cbn. intros [Ha Hs]%andb_prop. rewrite (IH Hs).
  case_bool_decide as E; [|done]. by subst a.
Qed.

Lemma blob_meta_disjoint id id' :
  (4 ≤ String.length id)%nat → (4 ≤ String.length id')%nat → all_hex id = true → blob_path id ≠ meta_path id'.
Proof.
  intros H1 H2 Hx E. apply (f_equal (sdrop 10)) in E. rewrite blob_path_drop in E by done. unfold meta_path in E.
  assert (sdrop 10 (blob_path id' +:+ ".meta") = id' +:+ ".meta") as E'.
  { destruct id' as [|a [|b [|c [|d id']]]]; cbn in H2; try lia. done. }
  rewrite E' in E. apply all_hex_no_dot in Hx. rewrite E, scontains_app in Hx. by rewrite orb_true_r in Hx.
Qed.

Lemma blob_key_ok {E} id fs : (4 ≤ String.length id)%nat → blob_key (E := E) id fs = Some (Ok (blob_path id), fs).
Proof. intros H. unfold blob_key. destruct (Nat.ltb_spec (String.length id) 4); [lia|done]. Qed.

Lemma meta_key_ok {E} id fs : (4 ≤ String.length id)%nat → meta_key (E := E) id fs = Some (Ok (meta_path id), fs).
Proof. intros H. unfold meta_key. by rewrite (bind_Ok _ _ _ _ _ (blob_key_ok id fs H)). Qed.

(** ** Blobs *)

Definition has_blob (fs : Files) (c : string) : Prop := fs !! blob_path (hash_content c) = Some c.

(** Every blob file has its hash. *)
Definition store_ok (fs : Files) : Prop :=
  ∀ c c', fs !! blob_path (hash_content c) = Some c' → c' = c.

Lemma read_file_spec p fs :
  read_file p fs = Some (match fs !! p with Some c => Ok c | None => Err IoNotFound end, fs).
Proof. unfold read_file, files, mbind, M_bind. by destruct (fs !! p). Qed.

Lemma read_blob_ok c fs : has_blob fs c → read_blob (hash_content c) fs = Some (Ok c, fs).
Proof.
  intros H. unfold read_blob. rewrite (bind_Ok _ _ _ _ _ (blob_key_ok _ fs (proj2 (hash_hex c)))).
  assert (read_file (blob_path (hash_content c)) fs = Some (Ok c, fs)) as E by (rewrite read_file_spec; by rewrite H).
  rewrite (bind_Ok _ _ _ _ _ E). unfold validate_content_hash. by rewrite decide_True.
Qed.

Lemma read_blob_inv id fs c fs' : read_blob id fs = Some (Ok c, fs') → fs' = fs ∧ hash_content c = id ∧ has_blob fs c.
Proof.
  unfold read_blob. intros (k & fs1 & Hk & H)%bind_inv. unfold blob_key in Hk.
  destruct (_ <? _)%nat; [done|]. assert (k = blob_path id ∧ fs1 = fs) as [-> ->] by (by injection Hk).
  apply bind_inv in H as (c1 & fs2 & Hr & H). rewrite read_file_spec in Hr.
  destruct (fs !! blob_path id) as [c2|] eqn:E; [|done]. injection Hr as <- <-.
  apply bind_inv in H as ([] & fs3 & Hv & H). unfold validate_content_hash in Hv. case_decide as Hh; [|done].
  injection Hv as <-. injection H as <- <-. unfold has_blob. by rewrite Hh.
Qed.

(** Blobs stay, and a sidecar changes only next to the manifest it describes. *)
Definition sidecar_of (m : JManifest) : JSidecar := mkJSidecar (jm_total_size m) (Some true) (jm_chunk_count m).

Definition sound_manifest (m : JManifest) : Prop :=
  manifest_in_range m ∧ parse_chunk_manifest (manifest_to_vec m) = Some m.

Definition extends (fs fs' : Files) : Prop :=
  (∀ c, has_blob fs c → has_blob fs' c) ∧
  ∀ c, fs' !! meta_path (hash_content c) = fs !! meta_path (hash_content c) ∨
    ∃ m, sound_manifest m ∧ c = manifest_to_vec m ∧
      fs' !! meta_path (hash_content c) = Some (sidecar_to_vec (sidecar_of m)).

Lemma manifest_to_vec_inj m m' :
  manifest_in_range m → manifest_in_range m' → manifest_to_vec m = manifest_to_vec m' → m = m'.
Proof. intros H H' E. apply (f_equal manifest_from_slice) in E. rewrite !manifest_codec in E by done. congruence. Qed.

#[global] Instance extends_preorder : PreOrder extends.
Proof.
  split.
  - intros fs. split; [done|]. by left.
  - intros fs1 fs2 fs3 [H1 H2] [H3 H4]. split; [auto|]. intros c.
    destruct (H4 c) as [E|?]; [|by right]. destruct (H2 c) as [E'|(m & Hm & Hc & E')].
    + left. congruence.
    + right. exists m. by rewrite E, E'.
Qed.

Lemma publish_blob_ok c fs :
  store_ok fs →
  ∃ b fs', publish_blob c (hash_content c) fs = Some (Ok b, fs') ∧ store_ok fs' ∧ extends fs fs' ∧ has_blob fs' c.
Proof.
  intros Hs. unfold publish_blob. rewrite (bind_Ok _ _ _ _ _ (blob_key_ok _ fs (proj2 (hash_hex c)))).
  unfold confirm_existing_blob. destruct (fs !! blob_path (hash_content c)) as [c'|] eqn:E.
  - pose proof (Hs c c' E) as ->. exists false, fs.
    assert (validate_content_hash (hash_content c) c fs = Some (Ok (), fs)) as Hv
      by (unfold validate_content_hash; by rewrite decide_True).
    split_and!; [|done|done|done]. unfold files, mbind, M_bind. rewrite E. by rewrite Hv.
  - exists true, (<[blob_path (hash_content c) := c]> fs). split_and!.
    + unfold write_file, files, set_files, mbind, M_bind. by rewrite E.
    + intros c1 c2. destruct (decide (hash_content c1 = hash_content c)) as [->%hash_inj|Hne].
      * rewrite lookup_insert_eq. by intros [= ->].
      * rewrite lookup_insert_ne; [apply Hs|]. intros Hp%blob_path_inj; [congruence|apply hash_hex..].
    + split.
      * intros c1 H1. unfold has_blob. destruct (decide (hash_content c1 = hash_content c)) as [->%hash_inj|Hne].
        -- by rewrite lookup_insert_eq.
        -- rewrite lookup_insert_ne; [done|]. intros Hp%blob_path_inj; [congruence|apply hash_hex..].
      * intros c1. left. rewrite lookup_insert_ne; [done|]. apply blob_meta_disjoint; apply hash_hex.
    + unfold has_blob. by rewrite lookup_insert_eq.
Qed.

Lemma write_blob_tracked_ok c fs :
  store_ok fs →
  ∃ b fs', write_blob_tracked c fs = Some (Ok (hash_content c, b), fs') ∧
    store_ok fs' ∧ extends fs fs' ∧ has_blob fs' c.
Proof.
  intros Hs. destruct (publish_blob_ok c fs Hs) as (b & fs' & E & H). exists b, fs'. split; [|done].
  unfold write_blob_tracked. by rewrite (bind_Ok _ _ _ _ _ E).
Qed.

Lemma write_blob_ok c fs :
  store_ok fs →
  ∃ fs', write_blob c fs = Some (Ok (hash_content c), fs') ∧ store_ok fs' ∧ extends fs fs' ∧ has_blob fs' c.
Proof.
  intros Hs. destruct (write_blob_tracked_ok c fs Hs) as (b & fs' & E & H). exists fs'. split; [|done].
  unfold write_blob. by rewrite (bind_Ok _ _ _ _ _ E).
Qed.

(** A write of the sidecar of a manifest. *)
Lemma write_meta_ok m fs :
  store_ok fs → sound_manifest m →
  ∃ fs', write_meta (hash_content (manifest_to_vec m)) (sidecar_to_vec (sidecar_of m)) fs = Some (Ok (), fs') ∧
    store_ok fs' ∧ extends fs fs' ∧
    fs' !! meta_path (hash_content (manifest_to_vec m)) = Some (sidecar_to_vec (sidecar_of m)).
Proof.
  intros Hs Hm. set (id := hash_content (manifest_to_vec m)).
  exists (<[meta_path id := sidecar_to_vec (sidecar_of m)]> fs). split_and!.
  - unfold write_meta. by rewrite (bind_Ok _ _ _ _ _ (meta_key_ok id fs (proj2 (hash_hex _)))).
  - intros c1 c2. rewrite lookup_insert_ne; [apply Hs|]. intros E. symmetry in E. revert E.
    apply blob_meta_disjoint; apply hash_hex.
  - split.
    + intros c H. unfold has_blob. rewrite lookup_insert_ne; [done|]. intros E. symmetry in E. revert E.
      apply blob_meta_disjoint; apply hash_hex.
    + intros c. destruct (decide (hash_content c = id)) as [E|Hne].
      * right. exists m. split; [done|]. split; [by apply hash_inj|]. by rewrite E, lookup_insert_eq.
      * left. rewrite lookup_insert_ne; [done|]. unfold meta_path. intros E%sapp_inj_r.
        apply blob_path_inj in E; [done|apply hash_hex..].
  - by rewrite lookup_insert_eq.
Qed.

(** ** Pieces and their entries *)

Lemma mapM_read {E A B} (f : A → M E B) (g : A → B) l fs :
  (∀ x, x ∈ l → f x fs = Some (Ok (g x), fs)) → mapM f l fs = Some (Ok (g <$> l), fs).
Proof.
  induction l as [|x l IH]; intros H; [done|]. cbn [mapM].
  rewrite (bind_Ok _ _ _ _ _ (H x ltac:(by left))).
  rewrite (bind_Ok _ _ _ _ _ (IH ltac:(intros y Hy; apply H; by right))). done.
Qed.

Lemma as_u64_N n : (n < U64_MOD)%N → as_u64 (Some (Z.of_N n)) = Some n.
Proof. intros H. unfold as_u64. cbn [mbind option_bind]. rewrite decide_True by lia. by rewrite N2Z.id. Qed.

Lemma as_i64_N n : (n < 9223372036854775808)%N → as_i64 (Some (Z.of_N n)) = Some (Z.of_N n).
Proof. intros H. unfold as_i64, I64_MAX. cbn [mbind option_bind]. rewrite decide_True by lia. done. Qed.

Lemma slen_sconcat_cons d l : slen (sconcat (d :: l)) = (slen d + slen (sconcat l))%N.
Proof. cbn. by rewrite slen_app_N. Qed.

Lemma sconcat_app l1 l2 : sconcat (l1 ++ l2) = sconcat l1 +:+ sconcat l2.
Proof. induction l1 as [|d l1 IH]; [done|]. change (d +:+ sconcat (l1 ++ l2) = (d +:+ sconcat l1) +:+ sconcat l2). by rewrite IH, sapp_assoc. Qed.

Lemma slen_sconcat_app l1 l2 : slen (sconcat (l1 ++ l2)) = (slen (sconcat l1) + slen (sconcat l2))%N.
Proof. by rewrite sconcat_app, slen_app_N. Qed.

Lemma lay_out_app off l1 l2 : lay_out off (l1 ++ l2) = lay_out off l1 ++ lay_out (off + slen (sconcat l1)) l2.
Proof.
  revert off. induction l1 as [|d l1 IH]; intros off; cbn [lay_out app].
  - by rewrite N.add_0_r.
  - rewrite IH, slen_sconcat_cons. by rewrite N.add_assoc.
Qed.

Lemma lay_out_snd off l : snd <$> lay_out off l = l.
Proof. revert off. induction l as [|d l IH]; intros off; [done|]. cbn. by rewrite IH. Qed.

Lemma lay_out_bound off l x :
  x ∈ lay_out off l → (off ≤ x.1 ∧ x.1 + slen x.2 ≤ off + slen (sconcat l))%N ∧ x.2 ∈ l.
Proof.
  revert off. induction l as [|d l IH]; intros off; cbn [lay_out]; [by intros ?%elem_of_nil|].
  rewrite slen_sconcat_cons. intros [->|H]%elem_of_cons; cbn.
  - split; [lia|by left].
  - apply IH in H as [? ?]. split; [lia|by right].
Qed.

Lemma sort_lay_out off l : sort_by_key (lay_out off l) = lay_out off l.
Proof.
  revert off. induction l as [|d l IH]; intros off; [done|]. cbn [lay_out]. unfold sort_by_key in *. cbn [foldr].
  rewrite IH. destruct (lay_out (off + slen d) l) as [|y ys] eqn:E; [done|]. cbn [insert_by_key fst].
  destruct (N.leb_spec off y.1); [done|].
  assert (y ∈ lay_out (off + slen d) l) as Hy by (rewrite E; by left). apply lay_out_bound in Hy. lia.
Qed.

Lemma check_tiling_lay_out off l :
  (off + slen (sconcat l) < U64_MOD)%N → check_tiling off (lay_out off l) = Some (off + slen (sconcat l))%N.
Proof.
  revert off. induction l as [|d l IH]; intros off; cbn [lay_out check_tiling]; [by rewrite N.add_0_r|].
  rewrite slen_sconcat_cons. intros H. rewrite N.eqb_refl. destruct (N.ltb_spec (off + slen d) U64_MOD); [|lia].
  cbn. rewrite IH by lia. by rewrite N.add_assoc.
Qed.

(** The entry of each piece, from [base] on. *)
Definition piece_entry (x : N * string) : JChunk := entry_of (hash_content x.2) x.1 (slen x.2).
Definition entries_of (base : N) (pieces : list string) : list JChunk := piece_entry <$> lay_out base pieces.

Lemma entries_of_app base l1 l2 :
  entries_of base (l1 ++ l2) = entries_of base l1 ++ entries_of (base + slen (sconcat l1)) l2.
Proof. unfold entries_of. by rewrite lay_out_app, fmap_app. Qed.

Lemma length_lay_out off l : length (lay_out off l) = length l.
Proof. revert off. induction l as [|d l IH]; intros off; [done|]. cbn. by rewrite IH. Qed.

Lemma length_entries_of base l : length (entries_of base l) = length l.
Proof. unfold entries_of. by rewrite length_fmap, length_lay_out. Qed.

Lemma store_chunks_ok base off pieces fs :
  store_ok fs →
  ∃ fs', mapM (store_chunk base) (lay_out off pieces) fs = Some (Ok (entries_of (base + off) pieces), fs') ∧
    store_ok fs' ∧ extends fs fs' ∧ Forall (has_blob fs') pieces.
Proof.
  revert off fs. induction pieces as [|d l IH]; intros off fs Hs; [by exists fs|]. cbn [lay_out mapM].
  destruct (write_blob_ok d fs Hs) as (fs1 & E1 & Hs1 & He1 & Hb1).
  assert (store_chunk base (off, d) fs = Some (Ok (piece_entry ((base + off)%N, d)), fs1)) as Ec.
  { unfold store_chunk. by rewrite (bind_Ok _ _ _ _ _ (map_err_Ok CASIOError _ _ _ _ E1)). }
  rewrite (bind_Ok _ _ _ _ _ Ec). destruct (IH (off + slen d)%N fs1 Hs1) as (fs2 & E2 & Hs2 & He2 & Hb2).
  rewrite (bind_Ok _ _ _ _ _ E2). exists fs2. split_and!; [|done|by etrans|constructor; [by apply He2|done]].
  unfold entries_of. cbn [lay_out fmap list_fmap]. by rewrite N.add_assoc.
Qed.

Lemma read_verified_ok c fetcher origins fs :
  has_blob fs c → read_and_verify_chunk (hash_content c) fetcher origins fs = Some (Ok c, fs).
Proof. intros H. unfold read_and_verify_chunk. by rewrite (read_blob_ok c fs H). Qed.

Definition I64_LIMIT : N := 9223372036854775808.

Lemma reassemble_ok pieces fetcher origins fs :
  Forall (has_blob fs) pieces → (slen (sconcat pieces) < I64_LIMIT)%N →
  reassemble_chunks (entries_of 0 pieces) fetcher origins fs = Some (Ok (sconcat pieces), fs).
Proof.
  intros Hb Hl. unfold reassemble_chunks.
  assert (mapM (read_part fetcher origins) (entries_of 0 pieces) fs = Some (Ok (lay_out 0 pieces), fs)) as E.
  { unfold entries_of. assert (∀ l, (∀ x, x ∈ l → x ∈ lay_out 0 pieces) →
      mapM (read_part fetcher origins) (piece_entry <$> l) fs = Some (Ok l, fs)) as H; [|by apply H].
    induction l as [|x l IH]; intros Hsub; [done|]. cbn [fmap list_fmap mapM].
    destruct (lay_out_bound 0 pieces x ltac:(apply Hsub; by left)) as [Hx1 Hx2].
    assert (read_part fetcher origins (piece_entry x) fs = Some (Ok x, fs)) as Er.
    { unfold read_part, piece_entry, entry_of. cbn [jc_hash jc_offset].
      rewrite as_i64_N by (unfold I64_LIMIT in *; lia). cbn [default from_option id].
      destruct (Z.ltb_spec (Z.of_N x.1) 0); [lia|].
      rewrite (bind_Ok _ _ _ _ _ (read_verified_ok x.2 fetcher origins fs (proj1 (Forall_forall _ _) Hb _ Hx2))).
      rewrite N2Z.id. by destruct x. }
    rewrite (bind_Ok _ _ _ _ _ Er). rewrite (bind_Ok _ _ _ _ _ (IH ltac:(intros y Hy; apply Hsub; by right))). done. }
  rewrite (bind_Ok _ _ _ _ _ E). rewrite sort_lay_out, check_tiling_lay_out, lay_out_snd; [done|].
  unfold I64_LIMIT, U64_MOD in *. lia.
Qed.

(** ** Manifests *)

Definition manifest_of (total : N) (pieces : list string) (cid : string) : JManifest :=
  let count := N.of_nat (length pieces) in
  mkJManifest (Some "chunked_manifest") (Some (Z.of_N total)) (Some (Z.of_N count))
    (Some (Z.of_N (total / count))) (Some cid) (Some (entries_of 0 pieces)).

Definition nonempty (pieces : list string) : Prop := Forall (λ p, 0 < slen p)%N pieces.

Lemma nonempty_length pieces : nonempty pieces → (N.of_nat (length pieces) ≤ slen (sconcat pieces))%N.
Proof. induction 1 as [|d l Hd _ IH]; [done|]. rewrite slen_sconcat_cons. cbn [length]. lia. Qed.

Lemma entries_in_range pieces :
  (slen (sconcat pieces) < I64_LIMIT)%N → Forall chunk_in_range (entries_of 0 pieces).
Proof.
  intros Hl. apply Forall_fmap, Forall_forall. intros x Hx. apply lay_out_bound in Hx as [Hx _].
  unfold I64_LIMIT, U64_MOD in *. split; cbn; intros z [= <-]; lia.
Qed.

(** The manifests that read back: within the widths and below the limit. *)
Definition manifest_fits (total : N) (pieces : list string) (cid : string) : Prop :=
  nonempty pieces ∧ (slen (sconcat pieces) < I64_LIMIT)%N ∧ (total < I64_LIMIT)%N ∧
  (slen (manifest_to_vec (manifest_of total pieces cid)) < MANIFEST_LIMIT)%N.

Lemma manifest_fits_range total pieces cid :
  manifest_fits total pieces cid → manifest_in_range (manifest_of total pieces cid).
Proof.
  intros (Hn & Hl & Ht & _). pose proof (nonempty_length _ Hn). unfold manifest_of.
  assert (total / N.of_nat (length pieces) ≤ total)%N as Hq.
  { destruct (N.eq_dec (N.of_nat (length pieces)) 0%N) as [->|]; [rewrite N.div_0_r; lia|].
    apply N.Div0.div_le_upper_bound. nia. }
  revert Hq. generalize (total / N.of_nat (length pieces))%N. intros q Hq.
  pose proof (entries_in_range pieces Hl). unfold I64_LIMIT, U64_MOD in *.
  split_and!; cbn; intros z [= <-]; try lia. done.
Qed.

Lemma manifest_fits_sound total pieces cid :
  manifest_fits total pieces cid → sound_manifest (manifest_of total pieces cid).
Proof.
  intros H. pose proof (manifest_fits_range _ _ _ H) as Hr. destruct H as (_ & _ & _ & Hsmall).
  split; [done|]. unfold parse_chunk_manifest. destruct (N.leb_spec MANIFEST_LIMIT (slen (manifest_to_vec (manifest_of total pieces cid)))); [lia|].
  rewrite manifest_brace, manifest_codec by done. cbn [negb orb mbind option_bind]. rewrite decide_True by (by split). done.
Qed.

(** ** What the files say *)

(** Blobs have their hashes, and sidecars stand next to manifests. *)
Definition cas_ok (fs : Files) : Prop :=
  store_ok fs ∧ ∀ c, is_Some (fs !! meta_path (hash_content c)) → is_Some (parse_chunk_manifest c).

Lemma cas_ok_extends fs fs' : cas_ok fs → store_ok fs' → extends fs fs' → cas_ok fs'.
Proof.
  intros [_ Hm] Hs [_ He]. split; [done|]. intros c Hc. destruct (He c) as [E|(m & [_ Hp] & -> & _)].
  - apply Hm. by rewrite <-E.
  - by rewrite Hp.
Qed.

(** The content an id stands for. *)
Inductive stored (fs : Files) : string → string → Prop :=
  | stored_blob c :
      has_blob fs c → parse_chunk_manifest c = None → fs !! meta_path (hash_content c) = None →
      stored fs (hash_content c) c
  | stored_chunks pieces cid :
      let m := manifest_of (slen (sconcat pieces)) pieces cid in
      manifest_fits (slen (sconcat pieces)) pieces cid →
      has_blob fs (manifest_to_vec m) → Forall (has_blob fs) pieces →
      fs !! meta_path (hash_content (manifest_to_vec m)) = Some (sidecar_to_vec (sidecar_of m)) →
      stored fs (hash_content (manifest_to_vec m)) (sconcat pieces).

Lemma stored_pieces fs pieces cid c :
  c = sconcat pieces → manifest_fits (slen c) pieces cid →
  has_blob fs (manifest_to_vec (manifest_of (slen c) pieces cid)) →
  fs !! meta_path (hash_content (manifest_to_vec (manifest_of (slen c) pieces cid)))
  = Some (sidecar_to_vec (sidecar_of (manifest_of (slen c) pieces cid))) →
  Forall (has_blob fs) pieces →
  stored fs (hash_content (manifest_to_vec (manifest_of (slen c) pieces cid))) c.
Proof. intros ->. intros. by apply stored_chunks. Qed.

(** Later writes keep it. *)
Lemma stored_extends fs fs' id c : extends fs fs' → stored fs id c → stored fs' id c.
Proof.
  intros [Hb He] [c' H1 H2 H3|pieces cid m Hfit H1 H2 H3].
  - apply stored_blob; [auto|done|]. destruct (He c') as [E|(m & [_ Hp] & -> & _)]; [by rewrite E|by rewrite Hp in H2].
  - subst m. apply stored_chunks; [done|auto|by eapply Forall_impl|].
    destruct (He (manifest_to_vec (manifest_of (slen (sconcat pieces)) pieces cid))) as [E|(m' & [Hr' _] & Hc & E)]; [by rewrite E|].
    apply manifest_to_vec_inj in Hc as <-; [done|by apply manifest_fits_range|done].
Qed.

Lemma try_reassemble_manifest total pieces cid fetcher origins fs :
  manifest_fits total pieces cid → Forall (has_blob fs) pieces →
  try_reassemble (manifest_to_vec (manifest_of total pieces cid)) fetcher origins fs
  = Some (Ok (Some (sconcat pieces)), fs).
Proof.
  intros Hfit Hb. unfold try_reassemble. rewrite (proj2 (manifest_fits_sound _ _ _ Hfit)). cbn [jm_chunks manifest_of].
  rewrite (bind_Ok _ _ _ _ _ (reassemble_ok pieces fetcher origins fs Hb ltac:(apply Hfit))). done.
Qed.

Lemma read_stored fs id c fetcher origins :
  stored fs id c → read_content_with_origins fetcher id origins fs = Some (Ok c, fs).
Proof.
  intros [c' H1 H2 H3|pieces cid m Hfit H1 H2 H3]; unfold read_content_with_origins.
  - rewrite (bind_Ok _ _ _ _ _ (map_err_Ok _ _ _ _ _ (read_blob_ok _ _ H1))).
    assert (try_reassemble c' fetcher origins fs = Some (Ok None, fs)) as E by (unfold try_reassemble; by rewrite H2).
    by rewrite (bind_Ok _ _ _ _ _ E).
  - rewrite (bind_Ok _ _ _ _ _ (map_err_Ok _ _ _ _ _ (read_blob_ok _ _ H1))).
    by rewrite (bind_Ok _ _ _ _ _ (try_reassemble_manifest _ _ _ fetcher origins fs Hfit H2)).
Qed.

(** ** Writes *)

Lemma finalize_ok total pieces cid fs :
  cas_ok fs → manifest_fits total pieces cid →
  let m := manifest_of total pieces cid in
  ∃ b fs', finalize_manifest (entries_of 0 pieces) (N.of_nat (length pieces)) total cid fs
      = Some (Ok (hash_content (manifest_to_vec m), b), fs') ∧
    cas_ok fs' ∧ extends fs fs' ∧ has_blob fs' (manifest_to_vec m) ∧
    fs' !! meta_path (hash_content (manifest_to_vec m)) = Some (sidecar_to_vec (sidecar_of m)).
Proof.
  intros Hok Hfit m. pose proof (manifest_fits_sound _ _ _ Hfit) as Hsound.
  destruct (write_blob_tracked_ok (manifest_to_vec m) fs (proj1 Hok)) as (b & fs1 & E1 & Hs1 & He1 & Hb1).
  destruct (write_meta_ok m fs1 Hs1 Hsound) as (fs2 & E2 & Hs2 & He2 & Hm2).
  exists b, fs2. split_and!.
  - unfold finalize_manifest. rewrite (bind_Ok _ _ _ _ _ (map_err_Ok _ _ _ _ _ E1)).
    by rewrite (bind_Ok _ _ _ _ _ (map_err_Ok _ _ _ _ _ E2)).
  - eapply cas_ok_extends; [done|done|by etrans].
  - by etrans.
  - by apply He2.
  - done.
Qed.

Lemma write_literal_ok c fs :
  cas_ok fs → manifest_fits (slen c) [c] (hash_content c) →
  ∃ id b fs', write_literal_manifest c fs = Some (Ok (id, b), fs') ∧ cas_ok fs' ∧ extends fs fs' ∧ stored fs' id c.
Proof.
  intros Hok Hfit. destruct (write_blob_tracked_ok c fs (proj1 Hok)) as (b & fs1 & E1 & Hs1 & He1 & Hb1).
  pose proof (cas_ok_extends _ _ Hok Hs1 He1) as Hok1.
  destruct (finalize_ok (slen c) [c] (hash_content c) fs1 Hok1 Hfit) as (b' & fs2 & E2 & Hok2 & He2 & Hb2 & Hm2).
  do 3 eexists. split_and!; [|done|by etrans|].
  - unfold write_literal_manifest. by rewrite (bind_Ok _ _ _ _ _ (map_err_Ok _ _ _ _ _ E1)).
  - apply (stored_pieces fs2 [c]); [symmetry; apply sapp_nil_r|done..|]. repeat constructor. by apply He2.
Qed.

Lemma lay_out_split off l x :
  x ∈ lay_out off l → ∃ l1 l2, l = l1 ++ x.2 :: l2 ∧ x.1 = (off + slen (sconcat l1))%N.
Proof.
  revert off. induction l as [|d l IH]; intros off; cbn [lay_out]; [by intros ?%elem_of_nil|].
  intros [->|H]%elem_of_cons.
  - exists [], l. split; [done|]. change (slen (sconcat [])) with 0%N. cbn. lia.
  - apply IH in H as (l1 & l2 & -> & ->). exists (d :: l1), l2. split; [done|]. rewrite slen_sconcat_cons. lia.
Qed.

Lemma cut_ok pieces x fs :
  x ∈ lay_out 0 pieces → cut (sconcat pieces) (x.1, slen x.2) fs = Some (Ok x, fs).
Proof.
  intros (l1 & l2 & -> & Hx)%lay_out_split. unfold cut. cbn [fst snd].
  assert (sconcat (l1 ++ x.2 :: l2) = sconcat l1 +:+ x.2 +:+ sconcat l2) as -> by (by rewrite sconcat_app).
  rewrite Hx, N.add_0_l, slice_at_app. destruct x; cbn in *. by subst.
Qed.

Lemma mapM_fmap {E A B C} (f : B → M E C) (g : A → B) (h : A → M E C) l fs :
  (∀ x fs, x ∈ l → f (g x) fs = h x fs) → mapM f (g <$> l) fs = mapM h l fs.
Proof.
  revert fs. induction l as [|x l IH]; intros fs H; [done|]. cbn [fmap list_fmap mapM].
  unfold mbind at 1 3, M_bind at 1 3. rewrite (H x fs) by (by left). destruct (h x fs) as [[[c|e] fs1]|]; [|done..].
  unfold mbind at 1 2, M_bind at 1 2. rewrite IH; [done|]. intros y fs2 Hy. apply H. by right.
Qed.

(** The pieces FastCDC cuts a content into. *)
Definition cdc_pieces (c : string) : list string :=
  (λ x, stake (N.to_nat x.2) (sdrop (N.to_nat x.1) c)) <$> fastcdc c.

Lemma cdc_pieces_spec c :
  c = sconcat (cdc_pieces c) ∧ nonempty (cdc_pieces c) ∧
  fastcdc c = (λ x, (x.1, slen x.2)) <$> lay_out 0 (cdc_pieces c).
Proof.
  destruct (fastcdc_cuts c) as (pieces & Hc & Hn & Hcuts).
  assert (cdc_pieces c = pieces) as ->; [|done].
  unfold cdc_pieces. rewrite Hcuts, <-list_fmap_compose. rewrite <-(lay_out_snd 0 pieces) at 2.
  apply list_fmap_ext. intros j x Hx%list_elem_of_lookup_2.
  pose proof (cut_ok pieces x ∅ Hx) as Ecut. unfold cut in Ecut. cbn [fst snd] in Ecut.
  rewrite <-Hc in Ecut. unfold slice_at in Ecut. destruct (_ <=? _)%N; [|done]. injection Ecut as Ecut.
  exact (f_equal snd Ecut).
Qed.

Lemma chunk_content_ok c fs :
  chunk_content (ChunkingStrategy := fastcdc_strategy) c fs = Some (Ok (lay_out 0 (cdc_pieces c)), fs).
Proof.
  destruct (cdc_pieces_spec c) as (Hc & _ & Hcuts). cbn [chunk_content fastcdc_strategy]. rewrite Hcuts.
  rewrite (mapM_fmap (cut c) _ (λ x, mret x)).
  - rewrite (mapM_read _ id); [by rewrite list_fmap_id|done].
  - intros x fs' Hx. rewrite Hc at 1. by apply cut_ok.
Qed.

(** The manifests a write of [c] may make are below the limit. *)
Definition writable (c : string) : Prop :=
  (slen c < I64_LIMIT)%N ∧
  (slen (manifest_to_vec (manifest_of (slen c) (cdc_pieces c) (hash_content c))) < MANIFEST_LIMIT)%N ∧
  (slen (manifest_to_vec (manifest_of (slen c) [c] (hash_content c))) < MANIFEST_LIMIT)%N.

Lemma write_chunked_ok c fs :
  cas_ok fs → writable c →
  ∃ id b fs', write_chunked (ChunkingStrategy := fastcdc_strategy) c fs = Some (Ok (id, b), fs') ∧
    cas_ok fs' ∧ extends fs fs' ∧ stored fs' id c.
Proof.
  intros Hok (Hlen & Hsmall & _). destruct (cdc_pieces_spec c) as (Hc & Hn & Hcuts).
  cbn [write_chunked fastcdc_strategy]. set (pieces := cdc_pieces c) in *.
  assert (mapM (λ x, chunk ← cut c x; store_chunk 0 chunk) (fastcdc c) fs = mapM (store_chunk 0) (lay_out 0 pieces) fs) as Em.
  { rewrite Hcuts. apply mapM_fmap. intros x fs' Hx. rewrite Hc at 1. by rewrite (bind_Ok _ _ _ _ _ (cut_ok pieces x fs' Hx)). }
  destruct (store_chunks_ok 0 0 pieces fs (proj1 Hok)) as (fs1 & E1 & Hs1 & He1 & Hb1). rewrite E1 in Em.
  rewrite (bind_Ok _ _ _ _ _ Em).
  assert (length (fastcdc c) = length pieces) as -> by (by rewrite Hcuts, length_fmap, length_lay_out).
  assert (manifest_fits (slen c) pieces (hash_content c)) as Hfit by (split_and!; [done|by rewrite <-Hc|done|done]).
  destruct (finalize_ok (slen c) pieces (hash_content c) fs1 (cas_ok_extends _ _ Hok Hs1 He1) Hfit)
    as (b & fs2 & E2 & Hok2 & He2 & Hb2 & Hm2).
  do 3 eexists. split; [exact E2|]. split_and!; [done|by etrans|].
  apply (stored_pieces fs2 pieces); [done..|]. eapply Forall_impl; [exact Hb1|]. apply He2.
Qed.

Lemma write_tracked_ok c fs :
  cas_ok fs →
  ∃ b fs', write_blob_tracked c fs = Some (Ok (hash_content c, b), fs') ∧ cas_ok fs' ∧ extends fs fs' ∧ has_blob fs' c.
Proof.
  intros Hok. destruct (write_blob_tracked_ok c fs (proj1 Hok)) as (b & fs1 & E1 & Hs1 & He1 & Hb1).
  exists b, fs1. split_and!; [done|by eapply cas_ok_extends|done|done].
Qed.

(** A write yields an id that stands for the content. *)
Lemma write_content_ok c fs :
  cas_ok fs → writable c →
  ∃ id b fs', write_content_tracked (strategy := fastcdc_strategy) c fs = Some (Ok (id, b), fs') ∧
    cas_ok fs' ∧ extends fs fs' ∧ stored fs' id c.
Proof.
  intros Hok Hw. unfold write_content_tracked. case_decide as Hp.
  { apply write_literal_ok; [done|]. destruct Hw as (Hl & _ & Hsmall). destruct Hp as [m Hp].
    unfold parse_chunk_manifest in Hp. destruct (starts_with "{" c) eqn:Hb; [|by rewrite orb_true_r in Hp].
    destruct c as [|a c]; [done|]. split_and!; [|by rewrite slen_sconcat_cons, N.add_0_r|done|done].
    constructor; [|done]. unfold slen. cbn [String.length]. lia. }
  destruct (should_chunk c).
  { by apply write_chunked_ok. }
  destruct (write_tracked_ok c fs Hok) as (b & fs1 & E1 & Hok1 & He1 & Hb1).
  exists (hash_content c), b, fs1. split_and!; [by apply map_err_Ok|done|done|].
  apply stored_blob; [done|by apply eq_None_not_Some|].
  apply eq_None_not_Some. intros Hm. by apply Hok1 in Hm.
Qed.

Lemma get_size_stored fs id c : stored fs id c → get_size id fs = Some (Ok (slen c), fs).
Proof.
  intros [c' H1 H2 H3|pieces cid m Hfit H1 H2 H3]; unfold get_size, meta_exists.
  - rewrite (bind_Ok _ _ fs fs false).
    2:{ rewrite (bind_Ok _ _ _ _ _ (meta_key_ok _ fs (proj2 (hash_hex c')))). unfold files, mbind, M_bind. by rewrite H3. }
    unfold content_size, blob_size. apply map_err_Ok.
    rewrite (bind_Ok _ _ _ _ _ (blob_key_ok _ fs (proj2 (hash_hex c')))).
    assert (read_file (blob_path (hash_content c')) fs = Some (Ok c', fs)) as E by (rewrite read_file_spec; by rewrite H1).
    by rewrite (bind_Ok _ _ _ _ _ E).
  - subst m. set (m := manifest_of (slen (sconcat pieces)) pieces cid) in *.
    pose proof (proj2 (hash_hex (manifest_to_vec m))) as Hh. rewrite (bind_Ok _ _ fs fs true).
    2:{ rewrite (bind_Ok _ _ _ _ _ (meta_key_ok _ fs Hh)). unfold files, mbind, M_bind. by rewrite H3. }
    rewrite (bind_Ok _ _ fs fs (sidecar_to_vec (sidecar_of m))).
    2:{ apply map_err_Ok. unfold read_meta. rewrite (bind_Ok _ _ _ _ _ (meta_key_ok _ fs Hh)). rewrite read_file_spec. by rewrite H3. }
    destruct Hfit as (Hn & Hl & _). pose proof (nonempty_length _ Hn). unfold sidecar_of. cbn [jm_total_size jm_chunk_count manifest_of m].
    rewrite sidecar_codec by (unfold I64_LIMIT, U64_MOD in *; lia). cbn [js_size].
    rewrite as_u64_N by (unfold I64_LIMIT, U64_MOD in *; lia). done.
Qed.

End proofs.

Lemma cas_ok_empty {env : CasEnv} : cas_ok ∅.
Proof. split; [intros c x H; by rewrite lookup_empty in H|]. intros c [x Hx]. by rewrite lookup_empty in Hx. Qed.

