(* ===== verification/CasRange.v ===== *)
(** * Ranges and partial writes of stored content

    Reading a range of chunked content reads the slice of the content, and a
    partial write yields an id that stands for the content with the buffer
    written at the offset. *)

From S2P Require Import Prelude Bytes Codec Cas CasProofs.

Section proofs.
Context {env : CasEnv} {laws : CasLaws}.

(** ** Ranges *)

(** The pieces before, under and after the range from [lo] to [hi]. *)
Lemma split_pieces off pieces lo hi :
  ∃ P A S, pieces = P ++ A ++ S ∧
    Forall (λ x, x.1 + slen x.2 ≤ lo)%N (lay_out off P) ∧
    Forall (λ x, lo < x.1 + slen x.2 ∧ x.1 < hi)%N (lay_out (off + slen (sconcat P)) A) ∧
    Forall (λ x, lo < x.1 + slen x.2 ∧ hi ≤ x.1)%N (lay_out (off + slen (sconcat P) + slen (sconcat A)) S).
Proof.
  revert off. induction pieces as [|d l IH]; intros off; [by exists [], [], []|].
  destruct (N.le_gt_cases (off + slen d) lo) as [Hlo|Hlo].
  - destruct (IH (off + slen d)%N) as (P & A & S & -> & HP & HA & HS). exists (d :: P), A, S.
    rewrite slen_sconcat_cons, N.add_assoc. split_and!; [done|by constructor|done|done].
  - assert (∃ A S, d :: l = A ++ S ∧ Forall (λ x, x.1 < hi)%N (lay_out off A) ∧
      Forall (λ x, hi ≤ x.1)%N (lay_out (off + slen (sconcat A)) S)) as (A & S & E & HA & HS).
    { clear IH Hlo. generalize (d :: l). intros k. clear d l. revert off. induction k as [|d l IH]; intros off.
      { by exists [], []. }
      destruct (N.lt_ge_cases off hi) as [Hhi|Hhi].
      - destruct (IH (off + slen d)%N) as (A & S & -> & HA & HS). exists (d :: A), S.
        rewrite slen_sconcat_cons, N.add_assoc. split_and!; [done|by constructor|done].
      - exists [], (d :: l). split_and!; [done|constructor|]. change (slen (sconcat [])) with 0%N. rewrite N.add_0_r.
        apply Forall_forall. intros x [Hx _]%lay_out_bound. lia. }
    assert (Forall (λ x, lo < x.1 + slen x.2)%N (lay_out off (A ++ S))) as Hend.
    { rewrite <-E. cbn [lay_out]. constructor; [done|]. apply Forall_forall. intros x [Hx _]%lay_out_bound. lia. }
    rewrite lay_out_app, Forall_app in Hend. destruct Hend as [HeA HeS].
    exists [], A, S. change (slen (sconcat [])) with 0%N. rewrite N.add_0_r.
    split_and!; [done|constructor|by apply Forall_and|by apply Forall_and].
Qed.

(** Where the parts meet. *)
Lemma split_bounds off P A S lo hi :
  (off ≤ lo)%N → Forall (λ x, x.1 + slen x.2 ≤ lo)%N (lay_out off P) →
  Forall (λ x, lo < x.1 + slen x.2 ∧ hi ≤ x.1)%N (lay_out (off + slen (sconcat P) + slen (sconcat A)) S) →
  (off + slen (sconcat P) ≤ lo)%N ∧ (S ≠ [] → hi ≤ off + slen (sconcat P) + slen (sconcat A))%N.
Proof.
  intros Hoff HP HS. split.
  - destruct P as [|d P _] using rev_ind; [change (slen (sconcat [])) with 0%N; lia|].
    rewrite lay_out_app, Forall_app in HP. destruct HP as [_ HP]. cbn [lay_out] in HP.
    inversion HP as [|? ? H _]; subst. cbn in H. rewrite slen_sconcat_app, slen_sconcat_cons.
    change (slen (sconcat [])) with 0%N. lia.
  - intros Hne. destruct S as [|d S]; [done|]. cbn [lay_out] in HS. inversion HS as [|? ? H _]; subst. apply H.
Qed.

Lemma c_piece x :
  (x.1 + slen x.2 < U64_MOD)%N →
  c_offset (piece_entry x) = x.1 ∧ c_length (piece_entry x) = slen x.2 ∧ c_end (piece_entry x) = (x.1 + slen x.2)%N.
Proof.
  intros H. unfold c_end, c_offset, c_length, piece_entry, entry_of. cbn [jc_offset jc_length].
  rewrite !as_u64_N by lia. cbn. split_and!; [done..|]. unfold sat_add64, U64_MAX, U64_MOD in *. lia.
Qed.

(** Offsets and hashes of pieces. *)
Definition piece_ref (x : N * string) : N * string := (x.1, hash_content x.2).

Lemma overlapping_pieces start end_ l1 l2 l3 fs :
  Forall (λ x, x.1 + slen x.2 < U64_MOD)%N (l1 ++ l2 ++ l3) →
  Forall (λ x, x.1 + slen x.2 ≤ start)%N l1 →
  Forall (λ x, start < x.1 + slen x.2 ∧ x.1 < end_)%N l2 →
  Forall (λ x, start < x.1 + slen x.2 ∧ end_ ≤ x.1)%N l3 →
  overlapping start end_ (piece_entry <$> (l1 ++ l2 ++ l3)) fs = Some (Ok (piece_ref <$> l2), fs).
Proof.
  intros Hr H1 H2 H3. induction l1 as [|x l1 IH1]; cbn [app fmap list_fmap overlapping] in *.
  - clear H1. induction l2 as [|x l2 IH2]; cbn [app fmap list_fmap overlapping] in *.
    + clear H2. induction l3 as [|x l3 IH3]; [done|]. cbn [app fmap list_fmap overlapping] in *.
      apply Forall_cons in Hr as [Hx Hr]. apply Forall_cons in H3 as [Hx3 H3].
      destruct (c_piece x Hx) as (-> & _ & ->). rewrite (proj2 (N.ltb_ge x.1 end_)) by lia. by apply IH3.
    + apply Forall_cons in Hr as [Hx Hr]. apply Forall_cons in H2 as [Hx2 H2].
      destruct (c_piece x Hx) as (-> & _ & ->). rewrite !(proj2 (N.ltb_lt _ _)) by lia.
      cbn [andb jc_hash piece_entry entry_of]. by rewrite (bind_Ok _ _ _ _ _ (IH2 Hr H2)).
  - apply Forall_cons in Hr as [Hx Hr]. apply Forall_cons in H1 as [Hx1 H1].
    destruct (c_piece x Hx) as (-> & _ & ->). rewrite (proj2 (N.ltb_ge start _)) by lia. rewrite andb_false_r. by apply IH1.
Qed.

Lemma sort_refs off l : sort_by_key (piece_ref <$> lay_out off l) = piece_ref <$> lay_out off l.
Proof.
  revert off. induction l as [|d l IH]; intros off; [done|]. cbn [lay_out fmap list_fmap]. unfold sort_by_key in *. cbn [foldr].
  rewrite IH. destruct (lay_out (off + slen d) l) as [|y ys] eqn:E; [done|]. cbn [fmap list_fmap insert_by_key fst piece_ref].
  destruct (N.leb_spec off y.1); [done|].
  assert (y ∈ lay_out (off + slen d) l) as Hy by (rewrite E; by left). apply lay_out_bound in Hy. lia.
Qed.

Lemma read_refs off l fetcher origins fs :
  Forall (has_blob fs) l →
  mapM (λ c, read_and_verify_chunk c.2 fetcher origins) (piece_ref <$> lay_out off l) fs = Some (Ok l, fs).
Proof.
  intros Hb. rewrite (mapM_fmap _ _ (λ x, read_and_verify_chunk (hash_content x.2) fetcher origins)) by done.
  rewrite (mapM_read _ snd); [by rewrite lay_out_snd|]. intros x [_ Hx]%lay_out_bound.
  apply read_verified_ok. by apply (proj1 (Forall_forall _ _) Hb).
Qed.

(** [s[i..i + n]], as much of it as there is. *)
Definition sub (s : string) (i n : N) : string := stake (N.to_nat n) (sdrop (N.to_nat i) s).

Lemma stake_all n s : (String.length s ≤ n)%nat → stake n s = s.
Proof.
  revert n. induction s as [|a s IH]; intros [|n] H; cbn in *; try done; try lia. f_equal. apply IH. lia.
Qed.

Lemma sdrop_all n s : (String.length s ≤ n)%nat → sdrop n s = "".
Proof.
  revert n. induction s as [|a s IH]; intros [|n] H; cbn in *; try done; try lia. apply IH. lia.
Qed.

Lemma sub_none s i n : n = 0%N → sub s i n = "".
Proof. intros ->. unfold sub. by destruct (sdrop _ _). Qed.

Lemma sub_mid a b c i n :
  (slen a ≤ i → i + n ≤ slen a + slen b → sub (a +:+ b +:+ c) i n = sub b (i - slen a) n)%N.
Proof.
  intros H1 H2. unfold sub, slen in *. rewrite sdrop_app_ge by lia.
  rewrite sdrop_app_le by lia. rewrite stake_app_le by (rewrite slen_sdrop; lia). do 2 f_equal. lia.
Qed.

Lemma clamp_diff_small a b : (a < I64_LIMIT → b < I64_LIMIT → clamp_diff a b = a - b)%N.
Proof.
  unfold clamp_diff, I64_LIMIT. intros Ha Hb.
  rewrite (wrap_i64_small (Z.of_N a)), (wrap_i64_small (Z.of_N b)), wrap_i64_small by (unfold I64_MAX; lia). lia.
Qed.

(** The manifest behind an id. *)
Lemma read_manifest_ok fs total pieces cid :
  manifest_fits total pieces cid → has_blob fs (manifest_to_vec (manifest_of total pieces cid)) →
  read_manifest (hash_content (manifest_to_vec (manifest_of total pieces cid))) fs
  = Some (Ok (manifest_of total pieces cid), fs).
Proof.
  intros Hfit Hb. unfold read_manifest. rewrite (bind_Ok _ _ _ _ _ (map_err_Ok _ _ _ _ _ (read_blob_ok _ _ Hb))).
  by rewrite manifest_codec by (by apply manifest_fits_range).
Qed.

Lemma pieces_in_range pieces :
  (slen (sconcat pieces) < I64_LIMIT)%N → Forall (λ x, x.1 + slen x.2 < U64_MOD)%N (lay_out 0 pieces).
Proof.
  intros Hl. apply Forall_forall. intros x [Hx _]%lay_out_bound. unfold I64_LIMIT, U64_MOD in *. lia.
Qed.

(** The content an id of chunks stands for, with its pieces. *)
Definition chunked (fs : Files) (id : string) (pieces : list string) : Prop :=
  ∃ cid, let m := manifest_of (slen (sconcat pieces)) pieces cid in
    id = hash_content (manifest_to_vec m) ∧ manifest_fits (slen (sconcat pieces)) pieces cid ∧
    has_blob fs (manifest_to_vec m) ∧ Forall (has_blob fs) pieces ∧
    fs !! meta_path id = Some (sidecar_to_vec (sidecar_of m)).

(** Reading a range of chunked content reads only the chunks that meet it, and
    returns exactly that slice of the content, cut off at its end. *)
Theorem range_read_exact fs id pieces start end_ fetcher origins
    (Hstored : chunked fs id pieces) (Hend : (end_ < I64_LIMIT)%N) :
  let content := sconcat pieces in
  read_chunked_range_with_origins fetcher id start end_ origins fs
  = Some (Ok (sub content start (N.min end_ (slen content) - start)), fs).
Proof.
  destruct Hstored as (cid & -> & Hfit & Hb & Hpieces & _). intros content. unfold read_chunked_range_with_origins.
  destruct (N.leb_spec end_ start) as [Hse|Hse].
  { rewrite sub_none by lia. done. }
  rewrite (bind_Ok _ _ _ _ _ (read_manifest_ok fs _ pieces cid Hfit Hb)). cbn [jm_chunks manifest_of].
  assert (slen content < I64_LIMIT)%N as Hl by apply Hfit.
  pose proof (pieces_in_range pieces Hl) as Hr.
  destruct (split_pieces 0 pieces start end_) as (P & A & S & E & HP & HA & HS). rewrite !N.add_0_l in *.
  pose proof (split_bounds 0 P A S start end_ ltac:(lia) HP HS) as [HsP HeS]. rewrite N.add_0_l in *.
  unfold entries_of. rewrite E, !lay_out_app, N.add_0_l in *.
  rewrite (bind_Ok _ _ _ _ _ (overlapping_pieces start end_ _ _ _ fs Hr HP HA HS)). rewrite sort_refs.
  assert (Forall (has_blob fs) A) as HbA by (apply Forall_app in Hpieces as [_ [H _]%Forall_app]; done).
  assert (content = sconcat P +:+ sconcat A +:+ sconcat S) as Ec by (unfold content; by rewrite E, !sconcat_app).
  assert (slen content = slen (sconcat P) + slen (sconcat A) + slen (sconcat S))%N as El
    by (rewrite Ec, !slen_app_N; lia).
  destruct A as [|d A].
  - cbn [lay_out fmap list_fmap]. assert (S = []) as ->.
    { destruct S; [done|]. specialize (HeS ltac:(done)). change (slen (sconcat [])) with 0%N in HeS. lia. }
    unfold sub. change (slen (sconcat [])) with 0%N in *. rewrite sdrop_all; [by destruct (N.to_nat _)|].
    unfold slen in *. lia.
  - assert (∃ r, piece_ref <$> lay_out (slen (sconcat P)) (d :: A) = (slen (sconcat P), hash_content d) :: r)
      as [r Er] by (by eexists).
    rewrite Er. cbv iota beta. rewrite <-Er.
    rewrite (bind_Ok _ _ _ _ _ (read_refs _ (d :: A) fetcher origins fs HbA)).
    rewrite !clamp_diff_small by (unfold I64_LIMIT in *; lia).
    set (a := sconcat (d :: A)) in *.
    set (ce := N.min (end_ - slen (sconcat P)) (slen a)). set (cs := N.min (start - slen (sconcat P)) ce).
    transitivity (Some (Ok (E := CASError) (sub a cs (ce - cs)), fs)); [done|]. do 3 f_equal. symmetry.
    assert (N.min end_ (slen content) ≤ slen (sconcat P) + slen a)%N as Hin.
    { destruct S; [change (slen (sconcat [])) with 0%N in *; lia|]. specialize (HeS ltac:(done)). lia. }
    destruct (N.le_gt_cases (slen content) start) as [Hge|Hlt].
    { by rewrite !sub_none by (unfold cs, ce; lia). }
    replace (N.min end_ (slen content) - start)%N with (ce - cs)%N by (unfold cs, ce; lia).
    rewrite Ec, sub_mid by (unfold cs, ce; lia). f_equal. unfold cs, ce. lia.
Qed.

(** ** Partial writes *)

Lemma stake_app_ge n s t : (String.length s ≤ n)%nat → stake n (s +:+ t) = s +:+ stake (n - String.length s) t.
Proof.
  revert n. induction s as [|a s IH]; intros n H; [by rewrite Nat.sub_0_r|].
  destruct n as [|n]; [cbn in H; lia|]. rewrite !sapp_cons. cbn [stake String.length]. rewrite IH by (cbn in H; lia). done.
Qed.

Lemma slen_splice old buf off : slen (splice_blob old buf off) = N.max (slen old) (off + slen buf)%N.
Proof.
  unfold splice_blob. rewrite !slen_app_N, slen_zeros. unfold slen. rewrite slen_stake, slen_sdrop. lia.
Qed.

(** A write within one part of a content leaves the other parts alone. *)
Lemma splice_app p a s buf off :
  (slen p ≤ off)%N → s = "" ∨ (off + slen buf ≤ slen p + slen a)%N →
  splice_blob (p +:+ a +:+ s) buf off = p +:+ splice_blob a buf (off - slen p) +:+ s.
Proof.
  intros Hp Hs. unfold splice_blob, slen in *. rewrite stake_app_ge by lia. rewrite sdrop_app_ge by lia.
  rewrite <-sapp_assoc. f_equal. destruct Hs as [->|Hs].
  - rewrite !sapp_nil_r, !slen_app. f_equal; [f_equal; lia|]. f_equal; [f_equal; lia|]. do 2 f_equal. lia.
  - rewrite stake_app_le by lia. rewrite sdrop_app_le by lia. rewrite <-!sapp_assoc, !slen_app.
    replace (zeros (N.to_nat (off - N.of_nat (String.length p + (String.length a + String.length s))))) with ""
      by (replace (N.to_nat _) with 0%nat by lia; done).
    replace (zeros (N.to_nat (off - N.of_nat (String.length p) - N.of_nat (String.length a)))) with ""
      by (replace (N.to_nat _) with 0%nat by lia; done).
    f_equal; [f_equal; lia|]. do 4 f_equal. lia.
Qed.

Lemma splice_within a buf ss :
  (ss ≤ slen a)%N →
  let a' := a +:+ zeros (N.to_nat (ss - slen a)) in
  stake (N.to_nat ss) a' +:+ buf +:+ sdrop (N.to_nat (N.min (ss + slen buf) (slen a'))) a' = splice_blob a buf ss.
Proof.
  intros H. replace (N.to_nat (ss - slen a)) with 0%nat by lia. cbn [zeros]. rewrite sapp_nil_r. cbv zeta.
  unfold splice_blob. replace (N.to_nat (ss - slen a)) with 0%nat by lia. cbn [zeros]. rewrite sapp_nil_l. do 2 f_equal.
  destruct (N.le_gt_cases (ss + slen buf) (slen a)); [f_equal; lia|]. rewrite !sdrop_all; [done|..]; unfold slen in *; lia.
Qed.

Lemma partition_pieces offset write_end l1 l2 l3 fs :
  Forall (λ x, x.1 + slen x.2 < U64_MOD)%N (l1 ++ l2 ++ l3) →
  Forall (λ x, x.1 + slen x.2 ≤ offset)%N l1 →
  Forall (λ x, offset < x.1 + slen x.2 ∧ x.1 < write_end)%N l2 →
  Forall (λ x, offset < x.1 + slen x.2 ∧ write_end ≤ x.1)%N l3 →
  partition offset write_end (piece_entry <$> (l1 ++ l2 ++ l3)) fs
  = Some (Ok (mkPartition (piece_entry <$> l1) (piece_ref <$> l2) (piece_entry <$> l3)), fs).
Proof.
  intros Hr H1 H2 H3. induction l1 as [|x l1 IH1]; cbn [app fmap list_fmap partition] in *.
  - clear H1. induction l2 as [|x l2 IH2]; cbn [app fmap list_fmap partition] in *.
    + clear H2. induction l3 as [|x l3 IH3]; [done|]. cbn [app fmap list_fmap partition] in *.
      apply Forall_cons in Hr as [Hx Hr]. apply Forall_cons in H3 as [Hx3 H3].
      destruct (c_piece x Hx) as (-> & _ & ->). rewrite (proj2 (N.leb_gt _ offset)), (proj2 (N.leb_le write_end _)) by lia.
      by rewrite (bind_Ok _ _ _ _ _ (IH3 Hr H3)).
    + apply Forall_cons in Hr as [Hx Hr]. apply Forall_cons in H2 as [Hx2 H2].
      destruct (c_piece x Hx) as (-> & _ & ->). rewrite (proj2 (N.leb_gt _ offset)), (proj2 (N.leb_gt write_end _)) by lia.
      cbn [jc_hash piece_entry entry_of]. by rewrite (bind_Ok _ _ _ _ _ (IH2 Hr H2)).
  - apply Forall_cons in Hr as [Hx Hr]. apply Forall_cons in H1 as [Hx1 H1].
    destruct (c_piece x Hx) as (-> & _ & ->). rewrite (proj2 (N.leb_le _ offset)) by lia.
    by rewrite (bind_Ok _ _ _ _ _ (IH1 Hr H1)).
Qed.

Lemma store_region_ok base region fs :
  cas_ok fs →
  ∃ fs', store_region (strategy := fastcdc_strategy) base region fs
      = Some (Ok (entries_of base (cdc_pieces region)), fs') ∧
    cas_ok fs' ∧ extends fs fs' ∧ Forall (has_blob fs') (cdc_pieces region).
Proof.
  intros Hok. destruct (store_chunks_ok base 0 (cdc_pieces region) fs (proj1 Hok)) as (fs1 & E1 & Hs1 & He1 & Hb1).
  rewrite N.add_0_r in E1. exists fs1. split_and!; [|by eapply cas_ok_extends|done|done].
  unfold store_region. by rewrite (bind_Ok _ _ _ _ _ (chunk_content_ok region fs)).
Qed.

Lemma total_of_entries off pieces :
  (off + slen (sconcat pieces) < U64_MOD)%N →
  total_of (entries_of off pieces) = match pieces with [] => 0 | _ => off + slen (sconcat pieces) end%N.
Proof.
  revert off. induction pieces as [|d l IH]; intros off H; [done|]. rewrite slen_sconcat_cons in *.
  unfold entries_of in *. cbn [lay_out fmap list_fmap total_of foldr].
  change (foldr _ 0%N _) with (total_of (piece_entry <$> lay_out (off + slen d) l)). rewrite IH by lia.
  rewrite (proj2 (proj2 (c_piece (off, d) ltac:(cbn; lia)))). cbn [fst snd].
  destruct l; [change (slen (sconcat [])) with 0%N|]; lia.
Qed.

Lemma total_of_pieces pieces :
  (slen (sconcat pieces) < I64_LIMIT)%N → total_of (entries_of 0 pieces) = slen (sconcat pieces).
Proof. intros H. rewrite total_of_entries by (unfold I64_LIMIT, U64_MOD in *; lia). by destruct pieces. Qed.

Lemma cdc_pieces_nil : cdc_pieces "" = [].
Proof.
  destruct (cdc_pieces_spec "") as (Hc & Hn & _). destruct (cdc_pieces "") as [|d l]; [done|].
  inversion Hn as [|? ? Hd _]; subst. destruct d; [|done]. by cbn in Hd.
Qed.

(** The pieces before, under and after the written range, and the ones that make
    the new content: the untouched ones with the touched ones cut anew. *)
Definition before (off : N) (pieces : list string) : list string :=
  snd <$> filter (λ x, x.1 + slen x.2 ≤ off)%N (lay_out 0 pieces).
Definition under (off hi : N) (pieces : list string) : list string :=
  snd <$> filter (λ x, off < x.1 + slen x.2 ∧ x.1 < hi)%N (lay_out 0 pieces).
Definition behind (off hi : N) (pieces : list string) : list string :=
  snd <$> filter (λ x, off < x.1 + slen x.2 ∧ hi ≤ x.1)%N (lay_out 0 pieces).
Definition region (pieces : list string) (buf : string) (off : N) : string :=
  splice_blob (sconcat (under off (off + slen buf) pieces)) buf (off - slen (sconcat (before off pieces))).
Definition new_pieces (pieces : list string) (buf : string) (off : N) : list string :=
  before off pieces ++ cdc_pieces (region pieces buf off) ++ behind off (off + slen buf) pieces.

Lemma parts_spec pieces off hi :
  (off ≤ hi)%N →
  let P := before off pieces in let A := under off hi pieces in let S := behind off hi pieces in
  pieces = P ++ A ++ S ∧ (slen (sconcat P) ≤ off)%N ∧
  (S ≠ [] → hi ≤ slen (sconcat P) + slen (sconcat A))%N ∧
  Forall (λ x, x.1 + slen x.2 ≤ off)%N (lay_out 0 P) ∧
  Forall (λ x, off < x.1 + slen x.2 ∧ x.1 < hi)%N (lay_out (slen (sconcat P)) A) ∧
  Forall (λ x, off < x.1 + slen x.2 ∧ hi ≤ x.1)%N (lay_out (slen (sconcat P) + slen (sconcat A)) S).
Proof.
  intros Hhi. destruct (split_pieces 0 pieces off hi) as (P & A & S & E & HP & HA & HS).
  pose proof (split_bounds 0 P A S off hi ltac:(lia) HP HS) as [HsP HeS]. rewrite !N.add_0_l in *.
  assert (before off pieces = P ∧ under off hi pieces = A ∧ behind off hi pieces = S) as (-> & -> & ->); [|done].
  unfold before, under, behind. rewrite E, !lay_out_app, !N.add_0_l, !filter_app. split_and!.
  - rewrite (filter_all _ (lay_out 0 P)) by done.
    rewrite (filter_nothing _ _ (lay_out (slen _) A) HA), (filter_nothing _ _ _ HS) by (intros x; cbn; lia).
    by rewrite app_nil_r, lay_out_snd.
  - rewrite (filter_all _ (lay_out (slen _) A)) by done.
    rewrite (filter_nothing _ _ _ HP), (filter_nothing _ _ _ HS) by (intros x; cbn; lia).
    by rewrite app_nil_r, app_nil_l, lay_out_snd.
  - rewrite (filter_all _ (lay_out (_ + _) S)) by done.
    rewrite (filter_nothing _ _ _ HP), (filter_nothing _ _ _ HA) by (intros x; cbn; lia). by rewrite !app_nil_l, lay_out_snd.
Qed.

(** They are the content with the buffer written at the offset. *)
Lemma new_pieces_content pieces buf off :
  sconcat (new_pieces pieces buf off) = splice_blob (sconcat pieces) buf off.
Proof.
  destruct (parts_spec pieces off (off + slen buf) ltac:(lia)) as (E & HP & HS & _).
  unfold new_pieces, region. rewrite !sconcat_app, <-(proj1 (cdc_pieces_spec _)).
  symmetry. rewrite (f_equal (λ l, splice_blob (sconcat l) buf off) E) at 1. cbv beta. rewrite !sconcat_app.
  apply splice_app; [done|].
  destruct (behind off (off + slen buf) pieces); [by left|]. right. by apply HS.
Qed.

Lemma new_pieces_nonempty pieces buf off : nonempty pieces → nonempty (new_pieces pieces buf off).
Proof.
  destruct (parts_spec pieces off (off + slen buf) ltac:(lia)) as (E & _). intros Hn. rewrite E in Hn.
  apply Forall_app in Hn as [HP [_ HS]%Forall_app]. apply Forall_app. split; [done|].
  apply Forall_app. split; [|done]. apply cdc_pieces_spec.
Qed.

(** The entries of a rewritten part take the place of the old ones. *)
Lemma new_entries pieces buf off :
  let P := before off pieces in let A := under off (off + slen buf) pieces in
  let S := behind off (off + slen buf) pieces in
  entries_of 0 P ++ entries_of (slen (sconcat P)) (cdc_pieces (region pieces buf off))
    ++ entries_of (slen (sconcat P) + slen (sconcat A)) S
  = entries_of 0 (new_pieces pieces buf off).
Proof.
  destruct (parts_spec pieces off (off + slen buf) ltac:(lia)) as (E & HP & HS & _). unfold new_pieces.
  rewrite !entries_of_app, N.add_0_l. do 2 f_equal. rewrite <-(proj1 (cdc_pieces_spec _)).
  destruct (behind off (off + slen buf) pieces) as [|d l] eqn:ES; [done|]. f_equal. f_equal.
  unfold region. rewrite slen_splice. specialize (HS ltac:(done)). lia.
Qed.

(** The rewritten part is stored, whichever branch computes it. *)
Lemma region_stored pieces buf off fetcher origins fs :
  let P := before off pieces in let A := under off (off + slen buf) pieces in
  let S := behind off (off + slen buf) pieces in
  cas_ok fs → Forall (has_blob fs) pieces → (slen (sconcat pieces) < I64_LIMIT)%N → (off + slen buf < I64_LIMIT)%N →
  ∃ fs', match piece_ref <$> lay_out (slen (sconcat P)) A with
      | [] => append_region (strategy := fastcdc_strategy) (slen (sconcat pieces)) off buf
          (entries_of (slen (sconcat P) + slen (sconcat A)) S)
      | (region_start, _) :: _ =>
          splice_region (strategy := fastcdc_strategy) fetcher (piece_ref <$> lay_out (slen (sconcat P)) A)
            region_start off buf origins
      end fs = Some (Ok (entries_of (slen (sconcat P)) (cdc_pieces (region pieces buf off))), fs') ∧
    cas_ok fs' ∧ extends fs fs' ∧ Forall (has_blob fs') (cdc_pieces (region pieces buf off)).
Proof.
  intros P A S Hok Hb Hl Hhi. destruct (parts_spec pieces off (off + slen buf) ltac:(lia)) as (E & HP & HS & _ & HA & _).
  fold P A S in E, HP, HS, HA. rewrite E in Hb, Hl. rewrite !slen_sconcat_app in Hl. unfold region. fold P A.
  apply Forall_app in Hb as [_ [HbA _]%Forall_app].
  assert (slen (sconcat pieces) = slen (sconcat P) + slen (sconcat A) + slen (sconcat S))%N as ->
    by (rewrite (f_equal (λ l, slen (sconcat l)) E), !slen_sconcat_app; lia).
  clearbody P A S. clear E. destruct A as [|d A].
  - cbn [lay_out fmap list_fmap]. change (slen (sconcat [])) with 0%N in *. unfold append_region.
    assert (zeros (N.to_nat (off - (slen (sconcat P) + 0 + slen (sconcat S)))) +:+ buf
      = splice_blob (sconcat []) buf (off - slen (sconcat P)) ∧
      (if decide (entries_of (slen (sconcat P) + 0) S = []) then slen (sconcat P) + 0 + slen (sconcat S) else off)%N
      = slen (sconcat P)) as [-> ->]; [|by apply store_region_ok].
    unfold splice_blob. change (slen (sconcat [])) with 0%N. destruct S as [|c S].
    + change (slen (sconcat [])) with 0%N. rewrite decide_True by done. rewrite sdrop_all by (cbn; lia). split; [|lia].
      cbn [sconcat foldr]. replace (stake _ "") with "" by (by destruct (N.to_nat _)).
      rewrite sapp_nil_l, sapp_nil_r. do 2 f_equal. lia.
    + specialize (HS ltac:(done)). assert (buf = "") as ->.
      { destruct buf; [done|]. unfold slen in *. cbn [String.length] in *. lia. }
      rewrite decide_False by done. split; [|change (slen "") with 0%N in HS; lia].
      replace (off - slen (sconcat P))%N with 0%N by lia. change (slen "") with 0%N in *.
      replace (N.to_nat (off - _)) with 0%nat by lia. done.
  - assert (∃ r, piece_ref <$> lay_out (slen (sconcat P)) (d :: A) = (slen (sconcat P), hash_content d) :: r)
      as [r Er] by (by eexists).
    rewrite Er. cbv iota beta. rewrite <-Er. unfold splice_region.
    rewrite (bind_Ok _ _ _ _ _ (read_refs _ (d :: A) fetcher origins fs HbA)). cbv zeta.
    cbn [lay_out] in HA. apply Forall_cons in HA as [[Hd _] _]. cbn [fst snd] in Hd.
    replace (wrap64 (off + (U64_MOD - slen (sconcat P)))) with (off - slen (sconcat P))%N.
    2:{ unfold wrap64, I64_LIMIT, U64_MOD in *. replace (off + (18446744073709551616 - slen (sconcat P)))%N
          with (off - slen (sconcat P) + 1 * 18446744073709551616)%N by lia. rewrite N.Div0.mod_add, N.mod_small; lia. }
    rewrite splice_within by (rewrite slen_sconcat_cons; lia). by apply store_region_ok.
Qed.

Lemma chunked_stored fs id pieces : chunked fs id pieces → stored fs id (sconcat pieces).
Proof. intros (cid & -> & Hfit & Hb & Hp & Hm). by apply stored_chunks. Qed.

Lemma chunked_partial_ok fs id pieces buf off fetcher origins :
  let new := splice_blob (sconcat pieces) buf off in
  cas_ok fs → chunked fs id pieces → (off + slen buf < I64_LIMIT)%N →
  (slen (manifest_to_vec (manifest_of (slen new) (new_pieces pieces buf off) "")) < MANIFEST_LIMIT)%N →
  ∃ id' fs', write_chunked_partial_with_origins (strategy := fastcdc_strategy) fetcher id buf off origins fs
      = Some (Ok (mkPartial id' (slen new)), fs') ∧
    cas_ok fs' ∧ extends fs fs' ∧ chunked fs' id' (new_pieces pieces buf off).
Proof.
  intros new Hok (cid & -> & Hfit & Hb & Hpieces & _) Hhi Hsmall. unfold write_chunked_partial_with_origins.
  cbn [supports_partial_writes fastcdc_strategy].
  rewrite (bind_Ok _ _ _ _ _ (read_manifest_ok fs _ pieces cid Hfit Hb)). cbn [jm_chunks jm_total_size manifest_of].
  assert (slen (sconcat pieces) < I64_LIMIT)%N as Hl by apply Hfit.
  rewrite as_u64_N by (unfold I64_LIMIT, U64_MOD in *; lia). cbn [default from_option id].
  replace (sat_add64 off (slen buf)) with (off + slen buf)%N by (unfold sat_add64, U64_MAX, I64_LIMIT in *; lia).
  pose proof (pieces_in_range pieces Hl) as Hr.
  destruct (parts_spec pieces off (off + slen buf) ltac:(lia)) as (E & _ & _ & HP & HA & HS).
  destruct (region_stored pieces buf off fetcher origins fs Hok Hpieces Hl Hhi) as (fs1 & E1 & Hok1 & He1 & Hb1).
  set (P := before off pieces) in *. set (A := under off (off + slen buf) pieces) in *.
  set (S := behind off (off + slen buf) pieces) in *.
  assert (lay_out 0 pieces = lay_out 0 P ++ lay_out (slen (sconcat P)) A ++ lay_out (slen (sconcat P) + slen (sconcat A)) S) as EL
    by (rewrite E at 1; by rewrite !lay_out_app, !N.add_0_l).
  assert (partition off (off + slen buf) (entries_of 0 pieces) fs =
    Some (Ok (mkPartition (entries_of 0 P) (piece_ref <$> lay_out (slen (sconcat P)) A)
      (entries_of (slen (sconcat P) + slen (sconcat A)) S)), fs)) as Ep.
  { unfold entries_of. rewrite EL in Hr |- *. by apply partition_pieces. }
  rewrite (bind_Ok _ _ _ _ _ Ep). cbn [pt_prefix pt_affected pt_suffix]. rewrite (bind_Ok _ _ _ _ _ E1). cbv zeta.
  unfold P, A, S. rewrite new_entries.
  assert (slen (sconcat (new_pieces pieces buf off)) = slen new) as Hnew by (by rewrite new_pieces_content).
  assert (slen new < I64_LIMIT)%N as Hnl by (unfold new; rewrite slen_splice; lia).
  rewrite total_of_pieces, Hnew by (by rewrite Hnew). rewrite length_entries_of.
  assert (manifest_fits (slen new) (new_pieces pieces buf off) "") as Hfit'
    by (split_and!; [apply new_pieces_nonempty, Hfit|by rewrite Hnew|done|done]).
  destruct (finalize_ok _ _ "" fs1 Hok1 Hfit') as (b & fs2 & E2 & Hok2 & He2 & Hb2 & Hm2).
  rewrite (bind_Ok _ _ _ _ _ E2). do 2 eexists. split; [done|]. split_and!; [done|by etrans|].
  exists "". rewrite Hnew. split_and!; [done..| |done].
  assert (Forall (has_blob fs2) pieces) as Hold by (eapply Forall_impl; [exact Hpieces|]; intros x Hx; by apply He2, He1).
  rewrite E in Hold. apply Forall_app in Hold as [HoP [_ HoS]%Forall_app].
  apply Forall_app. split; [done|]. apply Forall_app. split; [|done]. eapply Forall_impl; [exact Hb1|]. apply He2.
Qed.

Lemma is_chunked_blob fs c :
  fs !! meta_path (hash_content c) = None → is_chunked (hash_content c) fs = Some (Ok false, fs).
Proof.
  intros H. unfold is_chunked, meta_exists. rewrite (bind_Ok _ _ _ _ _ (meta_key_ok _ fs (proj2 (hash_hex c)))).
  unfold files, mbind, M_bind. by rewrite H.
Qed.

Lemma is_chunked_chunks fs id pieces : chunked fs id pieces → is_chunked id fs = Some (Ok true, fs).
Proof.
  intros (cid & -> & Hfit & Hb & Hp & Hm). set (m := manifest_of (slen (sconcat pieces)) pieces cid) in *.
  pose proof (proj2 (hash_hex (manifest_to_vec m))) as Hh. unfold is_chunked.
  assert (meta_exists (E := CASError) (hash_content (manifest_to_vec m)) fs = Some (Ok true, fs)) as ->.
  { unfold meta_exists. rewrite (bind_Ok _ _ _ _ _ (meta_key_ok _ fs Hh)). unfold files, mbind, M_bind. by rewrite Hm. }
  assert (read_meta (hash_content (manifest_to_vec m)) fs = Some (Ok (sidecar_to_vec (sidecar_of m)), fs)) as ->.
  { unfold read_meta. rewrite (bind_Ok _ _ _ _ _ (meta_key_ok _ fs Hh)). rewrite read_file_spec. by rewrite Hm. }
  destruct Hfit as (Hn & Hl & _). pose proof (nonempty_length _ Hn). unfold sidecar_of. cbn [jm_total_size jm_chunk_count manifest_of m].
  by rewrite sidecar_codec by (unfold I64_LIMIT, U64_MOD in *; lia).
Qed.

Lemma entries_of_inj off l l' : entries_of off l = entries_of off l' → l = l'.
Proof.
  revert off l'. induction l as [|d l IH]; intros off [|d' l']; [done..|]. unfold entries_of. cbn [lay_out fmap list_fmap].
  intros H. injection H as Hh Hl Ht. apply hash_inj in Hh as ->. f_equal. by apply (IH (off + slen d')%N).
Qed.

Lemma chunked_unique fs id l l' : chunked fs id l → chunked fs id l' → l = l'.
Proof.
  intros (cid & E & Hfit & _) (cid' & E' & Hfit' & _). rewrite E in E'. apply hash_inj, manifest_to_vec_inj in E';
    [|by apply manifest_fits_range..]. apply (entries_of_inj 0). unfold manifest_of in E'. by injection E'.
Qed.

(** The manifests the new content may need are below the limit. *)
Definition rewritable (fs : Files) (id c buf : string) (off : N) : Prop :=
  let new := splice_blob c buf off in
  writable new ∧ ∀ pieces, chunked fs id pieces →
    (slen (manifest_to_vec (manifest_of (slen new) (new_pieces pieces buf off) "")) < MANIFEST_LIMIT)%N.

End proofs.

(** ** In the small environment *)

(** The files after [c] has been written in chunks. *)
Definition chunked_files (c : string) : Files :=
  match write_chunked (ChunkingStrategy := @fastcdc_strategy small_env) c ∅ with Some (_, fs) => fs | None => ∅ end.

Definition chunked_id (c : string) : string :=
  match write_chunked (ChunkingStrategy := @fastcdc_strategy small_env) c ∅ with Some (Ok (id, _), _) => id | _ => "" end.

Lemma hello_chunked : chunked (env := small_env) (chunked_files "hello") (chunked_id "hello") ["he"; "ll"; "o"].
Proof.
  exists (small_hash "hello"). split_and!.
  - by vm_compute.
  - repeat constructor.
  - by vm_compute.
  - repeat (apply Forall_cons; split; [by vm_compute|]). apply Forall_nil. done.
  - by vm_compute.
Qed.

Lemma hello_ok : cas_ok (env := small_env) (chunked_files "hello").
Proof.
  destruct (write_chunked_ok (laws := small_laws) "hello" ∅ cas_ok_empty ltac:(repeat split)) as (id & b & fs & E & Hok & _).
  unfold chunked_files. by rewrite E.
Qed.

Lemma range_read_exact_witness :
  read_chunked_range (env := small_env) true (chunked_id "hello") 1 4 (chunked_files "hello")
  = Some (Ok "ell", chunked_files "hello").
Proof.
  exact (range_read_exact (env := small_env) (laws := small_laws) (chunked_files "hello") (chunked_id "hello")
    ["he"; "ll"; "o"] 1 4 true [] hello_chunked eq_refl).
Defined.

