(* ===== verification/CasLimits.v ===== *)
(** * Integrity of stored content, and its limits

    The id of a content determines what any store and any peer can answer for
    it.  Where the engine falls short of giving back what was written: manifests
    past the size limit, chunks shared with a deleted conversation, and
    conversations whose array is not stored. *)

From S2P Require Import Prelude Bytes Codec Cas CasProofs.

Section integrity.
Context {env : CasEnv}.

(** Whatever the disk and the peers hold, an accepted chunk has its hash. *)
Lemma read_verified_inv h fetcher origins fs d fs' :
  read_and_verify_chunk h fetcher origins fs = Some (Ok d, fs') → hash_content d = h.
Proof.
  unfold read_and_verify_chunk. destruct (read_blob h fs) as [[[b|e] fs1]|] eqn:E; [|destruct e; try done|done].
  - intros [= <- <-]. by apply read_blob_inv in E as (_ & ? & _).
  - destruct (if fetcher && negb (bool_decide (origins = [])) then fetch_chunk h origins else None) as [b|]; [|done]. case_decide as Hh; [|done].
    intros (u & fs2 & _ & Hr)%bind_inv. by injection Hr as <- _.
Qed.

Lemma mapM_agree {E A B} (f g : A → M E B) l fs1 fs2 bs1 bs2 fs1' fs2' :
  (∀ a s1 s2 b1 b2 s1' s2', a ∈ l → f a s1 = Some (Ok b1, s1') → g a s2 = Some (Ok b2, s2') → b1 = b2) →
  mapM f l fs1 = Some (Ok bs1, fs1') → mapM g l fs2 = Some (Ok bs2, fs2') → bs1 = bs2.
Proof.
  intros Hfg. revert fs1 fs2 bs1 bs2 fs1' fs2'. induction l as [|a l IH]; intros fs1 fs2 bs1 bs2 fs1' fs2'; cbn [mapM].
  - intros H1 H2. injection H1 as <- _. by injection H2 as <- _.
  - intros (b1 & s1 & E1 & (r1 & s1' & F1 & G1)%bind_inv)%bind_inv (b2 & s2 & E2 & (r2 & s2' & F2 & G2)%bind_inv)%bind_inv.
    injection G1 as <- _. injection G2 as <- _. f_equal; [eapply Hfg; [|done..]; by left|].
    eapply IH; [|done..]. intros x t1 t2 c1 c2 t1' t2' Hx. apply Hfg. by right.
Qed.

Lemma reassemble_agree {laws : CasLaws} chunks f1 f2 o1 o2 fs1 fs2 c1 c2 fs1' fs2' :
  reassemble_chunks chunks f1 o1 fs1 = Some (Ok c1, fs1') →
  reassemble_chunks chunks f2 o2 fs2 = Some (Ok c2, fs2') → c1 = c2.
Proof.
  unfold reassemble_chunks. intros (p1 & s1 & E1 & G1)%bind_inv (p2 & s2 & E2 & G2)%bind_inv.
  assert (p1 = p2) as ->.
  { eapply mapM_agree; [|exact E1|exact E2]. clear -laws. intros a s1 s2 b1 b2 s1' s2' _. unfold read_part.
    destruct (jc_hash a) as [h|]; [|done]. destruct (_ <? 0)%Z; [done|].
    intros (d1 & t1 & R1 & H1)%bind_inv (d2 & t2 & R2 & H2)%bind_inv. injection H1 as <- _. injection H2 as <- _.
    apply read_verified_inv in R1, R2. f_equal. apply hash_inj. congruence. }
  cbv zeta in G1, G2. destruct (check_tiling 0 (sort_by_key p2)); [|done]. injection G1 as <- _. by injection G2 as <- _.
Qed.

(** C37: A content id determines the content: two successful reads of one id return
    the same bytes, on any two sets of files (damaged, partial, of other nodes)
    and whatever the peers asked for missing chunks answer. *)
Theorem content_id_determines_content {laws : CasLaws} id f1 f2 o1 o2 fs1 fs2 c1 c2 fs1' fs2'
    (Hr1 : read_content_with_origins f1 id o1 fs1 = Some (Ok c1, fs1'))
    (Hr2 : read_content_with_origins f2 id o2 fs2 = Some (Ok c2, fs2')) :
  c1 = c2.
Proof.
  unfold read_content_with_origins in *. apply bind_inv in Hr1 as (d1 & s1 & R1%map_err_inv & H1).
  apply bind_inv in Hr2 as (d2 & s2 & R2%map_err_inv & H2).
  apply read_blob_inv in R1 as (_ & R1 & _), R2 as (_ & R2 & _). assert (d1 = d2) as -> by (apply hash_inj; congruence).
  apply bind_inv in H1 as (r1 & t1 & T1 & G1). apply bind_inv in H2 as (r2 & t2 & T2 & G2).
  injection G1 as <- _. injection G2 as <- _. f_equal. unfold try_reassemble in *.
  destruct (parse_chunk_manifest d2) as [m|]; [|by injection T1 as <- _; injection T2 as <- _].
  destruct (jm_chunks m) as [cs|]; [|by injection T1 as <- _; injection T2 as <- _].
  apply bind_inv in T1 as (x1 & u1 & X1 & T1). apply bind_inv in T2 as (x2 & u2 & X2 & T2).
  injection T1 as <- _. injection T2 as <- _. f_equal. by eapply reassemble_agree.
Qed.
End integrity.

Definition hi_files : Files := {[ "cas/00/00/00006869" := "hi" ]}.

Lemma hi_reads : read_content (env := small_env) false (small_hash "hi") hi_files = Some (Ok "hi", hi_files).
Proof. vm_compute. reflexivity. Qed.

Lemma content_id_determines_content_witness :
  read_content (env := small_env) false (small_hash "hi") hi_files = Some (Ok "hi", hi_files) ∧
  ∀ fs c fs', read_content_with_origins (env := small_env) true (small_hash "hi") ["peer"] fs = Some (Ok c, fs') → "hi" = c.
Proof.
  split; [exact hi_reads|]. intros fs c fs' H.
  exact (content_id_determines_content (env := small_env) (laws := small_laws) (small_hash "hi")
    false true [] ["peer"] hi_files fs "hi" c hi_files fs' hi_reads H).
Defined.

(** ** Limits *)

Section limits.
Context {env : CasEnv} {laws : CasLaws}.

(** A content whose manifest reaches the size limit of manifests is written and
    acknowledged, and reads back as its manifest. *)
Lemma large_manifest_reads_raw c fs :
  store_ok fs →
  let m := manifest_of (slen c) (cdc_pieces c) (hash_content c) in
  (MANIFEST_LIMIT ≤ slen (manifest_to_vec m))%N →
  ∃ id b fs', write_chunked (ChunkingStrategy := fastcdc_strategy) c fs = Some (Ok (id, b), fs') ∧
    ∀ fetcher, read_content fetcher id fs' = Some (Ok (manifest_to_vec m), fs').
Proof.
  intros Hs m Hm. destruct (cdc_pieces_spec c) as (Hc & Hn & Hcuts).
  cbn [write_chunked fastcdc_strategy]. set (pieces := cdc_pieces c) in *.
  assert (mapM (λ x, chunk ← cut c x; store_chunk 0 chunk) (fastcdc c) fs = mapM (store_chunk 0) (lay_out 0 pieces) fs) as Em.
  { rewrite Hcuts. apply mapM_fmap. intros x fs' Hx. rewrite Hc at 1. by rewrite (bind_Ok _ _ _ _ _ (cut_ok pieces x fs' Hx)). }
  destruct (store_chunks_ok 0 0 pieces fs Hs) as (fs1 & E1 & Hs1 & He1 & Hb1). rewrite E1 in Em.
  rewrite (bind_Ok _ _ _ _ _ Em).
  assert (length (fastcdc c) = length pieces) as -> by (by rewrite Hcuts, length_fmap, length_lay_out).
  destruct (write_blob_tracked_ok (manifest_to_vec m) fs1 Hs1) as (b & fs2 & E2 & Hs2 & He2 & Hb2).
  set (id := hash_content (manifest_to_vec m)) in *. set (fs3 := <[meta_path id := sidecar_to_vec (sidecar_of m)]> fs2).
  assert (has_blob fs3 (manifest_to_vec m)) as Hb3.
  { unfold has_blob, fs3. rewrite lookup_insert_ne; [done|]. intros E. symmetry in E. revert E.
    apply blob_meta_disjoint; apply hash_hex. }
  exists id, b, fs3. split.
  - unfold finalize_manifest. fold pieces in m. rewrite (bind_Ok _ _ _ _ _ (map_err_Ok _ _ _ _ _ E2)).
    assert (write_meta id (sidecar_to_vec (sidecar_of m)) fs2 = Some (Ok (), fs3)) as E3
      by (unfold write_meta; by rewrite (bind_Ok _ _ _ _ _ (meta_key_ok id fs2 (proj2 (hash_hex _))))).
    by rewrite (bind_Ok _ _ _ _ _ (map_err_Ok _ _ _ _ _ E3)).
  - intros fetcher. unfold read_content, read_content_with_origins.
    rewrite (bind_Ok _ _ _ _ _ (map_err_Ok _ _ _ _ _ (read_blob_ok _ _ Hb3))).
    unfold try_reassemble, parse_chunk_manifest. rewrite (proj2 (N.leb_le _ _) Hm). done.
Qed.
End limits.

(** Two conversations, of which the first is deleted. *)
Definition shared_prefix_demo : option (result CASError string * Files) :=
  let M := message_strategy (env := small_env) in
  (id1 ← write_content (env := small_env) (strategy := M) "[a,b]";
   id2 ← write_content (env := small_env) (strategy := M) "[a,c]";
   _ ← delete_chunked (env := small_env) id1;
   read_content (env := small_env) false id2) ∅.

(** Deleting a conversation removes the messages it shares with others: the
    second no longer reads. *)
Lemma delete_removes_shared_chunks :
  fst <$> shared_prefix_demo = Some (Err (CASNotFound (small_hash "a"))).
Proof. vm_compute. reflexivity. Qed.

Definition conversation_demo : option (result CASError (string * N) * Files) :=
  (id ← write_content (env := small_env) (strategy := message_strategy (env := small_env)) "[a,b]";
   c ← read_content (env := small_env) false id;
   n ← get_size (env := small_env) id;
   mret (c, n)) ∅.

(** A conversation reads back as its messages one after the other, without the
    array around them, and not in the size that is recorded. *)
Lemma conversation_reads_without_array : fst <$> conversation_demo = Some (Ok ("ab", 5%N)).
Proof. vm_compute. reflexivity. Qed.
