(* ===== verification/CasFetch.v ===== *)
(** * Fetching chunks from peers

    The scatter-gather fetcher of kernel/core/cas/remote.rs: the candidate
    origins, the race of one thread per candidate with its cancel flag and its
    channel, and what the caller receives.  A peer is a function of the address;
    its failures and its wrong bytes are among its answers. *)

From S2P Require Import Prelude Bytes Codec Cas.

(** The origins in a backend name of the form type@host1:port1,host2:port2. *)
Fixpoint split_once (c : ascii) (s : string) : option (string * string) :=
  match s with
  | "" => None
  | String a s =>
      if decide (a = c) then Some ("", s)
      else '(l, r) ← split_once c s; Some (String a l, r)
  end.

Definition parse_origins (backend_name : string) : list string :=
  match split_once "@" backend_name with
  | None => []
  | Some (_, tail) => filter (λ s, s ≠ "") (trim <$> ssplit "," tail)
  end.

(** A worker before its look at the flag, in its call, between the flag and the
    channel, and gone. *)
Inductive Worker := WStart | WFetch | WSend (bytes : string) | WDone.

#[export] Instance worker_eq : EqDecision Worker.
Proof. solve_decision. Defined.

Section fetcher.
Context {env : CasEnv}.

(** [PeerBlobClient::fetch]: the bytes, or an error. *)
Variable client_fetch : string → string → option string.
Variable self_address : option string.

Fixpoint candidates_go (seen origins : list string) : list string :=
  match origins with
  | [] => seen
  | raw :: origins =>
      let trimmed := trim raw in
      if decide (trimmed = "") then candidates_go seen origins
      else if decide (self_address = Some trimmed) then candidates_go seen origins
      else candidates_go (if decide (trimmed ∈ seen) then seen else seen ++ [trimmed]) origins
  end.
Definition candidate_origins (origins : list string) : list string := candidates_go [] origins.

Record Race := mkRace {
  cancelled : bool;
  channel : list string;
  workers : list Worker }.

Section race.
Variable chunk_hash : string.
Variable candidates : list string.

Definition race_start : Race := mkRace false [] ((λ _, WStart) <$> candidates).

(** A call and the check of its bytes. *)
Definition answer (addr : string) : option string :=
  match client_fetch addr chunk_hash with
  | Some bytes => if decide (hash_content bytes = chunk_hash) then Some bytes else None
  | None => None
  end.

Inductive race_step : Race → Race → Prop :=
  | w_cancelled c q ws i :
      ws !! i = Some WStart → c = true → race_step (mkRace c q ws) (mkRace c q (<[i := WDone]> ws))
  | w_call c q ws i :
      ws !! i = Some WStart → c = false → race_step (mkRace c q ws) (mkRace c q (<[i := WFetch]> ws))
  | w_nothing c q ws i addr :
      ws !! i = Some WFetch → candidates !! i = Some addr → answer addr = None →
      race_step (mkRace c q ws) (mkRace c q (<[i := WDone]> ws))
  | w_found c q ws i addr bytes :
      ws !! i = Some WFetch → candidates !! i = Some addr → answer addr = Some bytes →
      race_step (mkRace c q ws) (mkRace true q (<[i := WSend bytes]> ws))
  | w_send c q ws i bytes :
      ws !! i = Some (WSend bytes) →
      race_step (mkRace c q ws) (mkRace c (q ++ [bytes]) (<[i := WDone]> ws)).

(** [rx.recv().ok()]: the first message, or nothing once every sender is gone. *)
Definition received (r : Race) (out : option string) : Prop :=
  match channel r with
  | b :: _ => out = Some b
  | [] => Forall (WDone =.) (workers r) ∧ out = None
  end.
End race.

(** What [fetch_chunk] may return. *)
Definition fetch_outcome (chunk_hash : string) (origins : list string) (out : option string) : Prop :=
  let candidates := candidate_origins origins in
  match candidates with
  | [] => out = None
  | _ => ∃ r, rtc (race_step chunk_hash candidates) (race_start candidates) r ∧ received r out
  end.

(** ** The candidates *)

Definition is_candidate (origins : list string) (addr : string) : Prop :=
  addr ≠ "" ∧ self_address ≠ Some addr ∧ ∃ raw, raw ∈ origins ∧ trim raw = addr.

Lemma candidates_go_spec seen origins :
  NoDup seen → NoDup (candidates_go seen origins) ∧
  ∀ addr, addr ∈ candidates_go seen origins ↔ addr ∈ seen ∨ is_candidate origins addr.
Proof.
  revert seen. induction origins as [|raw origins IH]; intros seen Hn; cbn [candidates_go].
  { split; [done|]. intros addr. split; [by left|]. intros [H|(_ & _ & raw & H & _)]; [done|by apply elem_of_nil in H]. }
  assert (∀ addr, is_candidate (raw :: origins) addr ↔
    (addr ≠ "" ∧ self_address ≠ Some addr ∧ trim raw = addr) ∨ is_candidate origins addr) as Hc.
  { intros addr. unfold is_candidate. set_solver. }
  case_decide as H1; [|case_decide as H2].
  - destruct (IH seen Hn) as [Hn' Hi]. split; [done|]. intros addr. rewrite Hi, Hc. naive_solver.
  - destruct (IH seen Hn) as [Hn' Hi]. split; [done|]. intros addr. rewrite Hi, Hc. naive_solver.
  - case_decide as H3.
    + destruct (IH seen Hn) as [Hn' Hi]. split; [done|]. intros addr. rewrite Hi, Hc. naive_solver.
    + destruct (IH (seen ++ [trim raw])) as [Hn' Hi].
      { apply NoDup_app. split_and!; [done| |apply NoDup_singleton]. set_solver. }
      split; [done|]. intros addr. rewrite Hi, Hc, elem_of_app, list_elem_of_singleton. naive_solver.
Qed.

Lemma candidate_origins_spec origins :
  NoDup (candidate_origins origins) ∧ ∀ addr, addr ∈ candidate_origins origins ↔ is_candidate origins addr.
Proof.
  destruct (candidates_go_spec [] origins (NoDup_nil_2)) as [H1 H2]. split; [done|]. intros addr. unfold candidate_origins.
  rewrite H2. set_solver.
Qed.

(** ** The race *)

Section race_proofs.
Variable chunk_hash : string.
Variable candidates : list string.

Abbreviation step := (race_step chunk_hash candidates).

(** Every message has the hash and comes from a candidate; the flag is raised
    only by a worker that has sent or is about to; and while it is down, a
    worker that is gone had nothing. *)
Record race_inv (r : Race) : Prop := {
  ri_length : length (workers r) = length candidates;
  ri_channel : Forall (λ b, ∃ addr, addr ∈ candidates ∧ answer chunk_hash addr = Some b) (channel r);
  ri_sending i b : workers r !! i = Some (WSend b) → ∃ addr, addr ∈ candidates ∧ answer chunk_hash addr = Some b;
  ri_flag i b : workers r !! i = Some (WSend b) → cancelled r = true;
  ri_cancelled : cancelled r = true → channel r ≠ [] ∨ ∃ i b, workers r !! i = Some (WSend b);
  ri_done i addr : cancelled r = false → workers r !! i = Some WDone → candidates !! i = Some addr → answer chunk_hash addr = None }.

Lemma race_inv_start : race_inv (race_start candidates).
Proof.
  split; cbn; [by rewrite length_fmap|constructor|..]; try done.
  - intros i b H. rewrite list_lookup_fmap in H. by destruct (candidates !! i).
  - intros i b H. rewrite list_lookup_fmap in H. by destruct (candidates !! i).
  - intros i addr _ H. rewrite list_lookup_fmap in H. by destruct (candidates !! i).
Qed.

Lemma race_inv_step r r' : race_inv r → step r r' → race_inv r'.
Proof.
  intros [Hl Hch Hs Hfl Hc Hd] Hstep. assert (length (workers r') = length candidates) as Hl'
    by (destruct Hstep; cbn in *; by rewrite length_insert).
  destruct Hstep as [c q ws i Hi Hcc|c q ws i Hi Hcc|c q ws i addr Hi Ha Hn|c q ws i addr bytes Hi Ha Hb|c q ws i bytes Hi];
    cbn in *; split; cbn; try done.
  all: try (by intros j b [(_ & Hx & _)|[_ Hj]]%list_lookup_insert_Some; [done|by eapply Hs]).
  all: try (by intros j b [(_ & Hx & _)|[_ Hj]]%list_lookup_insert_Some; [done|by eapply Hfl]).
  - intros _. destruct (Hc Hcc) as [|(j & b & Hj)]; [by left|]. right. exists j, b.
    rewrite list_lookup_insert_ne; [done|]. intros ->. congruence.
  - congruence.
  - congruence.
  - intros j addr Hf [(_ & Hx & _)|[_ Hj]]%list_lookup_insert_Some; [done|by eapply Hd].
  - intros H. destruct (Hc H) as [|(j & b & Hj)]; [by left|]. right. exists j, b.
    rewrite list_lookup_insert_ne; [done|]. intros ->. congruence.
  - intros j addr' Hf [(<- & Hx & _)|[_ Hj]]%list_lookup_insert_Some; [congruence|by eapply Hd].
  - intros j b [(_ & Hx & _)|[_ Hj]]%list_lookup_insert_Some; [|by eapply Hs].
    injection Hx as <-. exists addr. split; [by eapply list_elem_of_lookup_2|done].
  - intros _. right. exists i, bytes. apply list_lookup_insert_eq. by eapply lookup_lt_Some.
  - apply Forall_app. split; [done|]. constructor; [by eapply Hs|done].
  - intros _. left. by destruct q.
  - intros j addr' Hf _. pose proof (Hfl i bytes Hi). congruence.
Qed.

Lemma race_inv_run r : rtc step (race_start candidates) r → race_inv r.
Proof.
  intros H. assert (race_inv (race_start candidates)) as Hi by apply race_inv_start.
  revert Hi. induction H as [|r1 r2 r3 Hs _ IH]; [done|]. intros Hi. apply IH. by eapply race_inv_step.
Qed.

(** Steps a worker has left. *)
Definition left_of (w : Worker) : nat := match w with WStart => 3 | WFetch => 2 | WSend _ => 1 | WDone => 0 end.
Definition work_left (r : Race) : nat := sum_list (left_of <$> workers r).

Lemma sum_insert ws i w w' :
  ws !! i = Some w → sum_list (left_of <$> <[i := w']> ws) + left_of w = sum_list (left_of <$> ws) + left_of w'.
Proof.
  revert i. induction ws as [|v ws IH]; intros [|i] H; try done; [cbn in *; injection H as ->; lia|].
  specialize (IH i H). change (left_of v + sum_list (left_of <$> <[i := w']> ws) + left_of w
    = left_of v + sum_list (left_of <$> ws) + left_of w')%nat. lia.
Qed.

Lemma step_works r r' : step r r' → (work_left r' < work_left r)%nat.
Proof.
  intros Hstep. unfold work_left.
  destruct Hstep as [c q ws i Hi _|c q ws i Hi _|c q ws i addr Hi _ _|c q ws i addr bytes Hi _ _|c q ws i bytes Hi]; cbn [workers].
  - pose proof (sum_insert ws i _ WDone Hi). cbn [left_of] in *. lia.
  - pose proof (sum_insert ws i _ WFetch Hi). cbn [left_of] in *. lia.
  - pose proof (sum_insert ws i _ WDone Hi). cbn [left_of] in *. lia.
  - pose proof (sum_insert ws i _ (WSend bytes) Hi). cbn [left_of] in *. lia.
  - pose proof (sum_insert ws i _ WDone Hi). cbn [left_of] in *. lia.
Qed.

(** A worker that is not gone has a step. *)
Lemma race_progress r : race_inv r → Forall (WDone =.) (workers r) ∨ ∃ r', step r r'.
Proof.
  intros Hinv. destruct (decide (Forall (WDone =.) (workers r))) as [|Hn]; [by left|right].
  apply not_Forall_Exists in Hn; [|apply _].
  apply Exists_exists in Hn as (w & [i Hi]%list_elem_of_lookup_1 & Hw). destruct r as [c q ws]. cbn in *.
  destruct w as [| |b|]; [| | |done].
  - destruct c; eexists; [by eapply w_cancelled|by eapply w_call].
  - destruct (lookup_lt_is_Some_2 candidates i) as [addr Ha].
    { rewrite <-(ri_length _ Hinv). by eapply lookup_lt_Some. }
    destruct (answer chunk_hash addr) as [b|] eqn:E; eexists; [by eapply w_found|by eapply w_nothing].
  - eexists. by eapply w_send.
Qed.

Lemma received_sound r out :
  race_inv r → received r out →
  match out with
  | Some b => ∃ addr, addr ∈ candidates ∧ answer chunk_hash addr = Some b
  | None => ∀ addr, addr ∈ candidates → answer chunk_hash addr = None
  end.
Proof.
  intros Hinv Hr. unfold received in Hr. destruct (channel r) as [|b q] eqn:Eq.
  - destruct Hr as [Hd ->]. intros addr [i Ha]%list_elem_of_lookup_1.
    destruct (lookup_lt_is_Some_2 (workers r) i) as [w Hw].
    { rewrite (ri_length _ Hinv). by eapply lookup_lt_Some. }
    assert (WDone = w) as <- by (exact (proj1 (Forall_lookup _ _) Hd i w Hw)).
    apply (ri_done _ Hinv i); [|done..]. destruct (cancelled r) eqn:Ec; [|done].
    destruct (ri_cancelled _ Hinv Ec) as [|(j & b & Hj)]; [by rewrite Eq in *|].
    pose proof (proj1 (Forall_lookup _ _) Hd j _ Hj). done.
  - subst out. pose proof (ri_channel _ Hinv) as H. rewrite Eq in H. by apply Forall_cons in H as [H _].
Qed.

Lemma run_bounded n r : nsteps step n (race_start candidates) r → (n ≤ 3 * length candidates)%nat.
Proof.
  intros Hn. assert (∀ r1 r2, nsteps step n r1 r2 → n + work_left r2 ≤ work_left r1)%nat as H.
  { clear. intros r1 r2 H. induction H as [r|n r1 r2 r3 Hs _ IH]; [done|]. pose proof (step_works _ _ Hs). lia. }
  apply H in Hn. assert (work_left (race_start candidates) = 3 * length candidates)%nat as Hw; [|lia].
  unfold work_left, race_start. cbn [workers]. clear. induction candidates as [|a l IH]; cbn in *; lia.
Qed.

Lemma race_unstuck r : race_inv r → (∃ out, received r out) ∨ ∃ r', step r r'.
Proof.
  intros Hinv. destruct (race_progress r Hinv) as [Hd|]; [left|by right].
  unfold received. destruct (channel r) as [|b q]; eauto.
Qed.

(** A worker that goes without a call saw the flag, which an answer raised. *)
Lemma skipped_after_answer r r' i :
  race_inv r → step r r' → workers r !! i = Some WStart → workers r' !! i = Some WDone →
  ∃ addr b, addr ∈ candidates ∧ answer chunk_hash addr = Some b.
Proof.
  intros Hinv Hs Hi Hi'. assert (cancelled r = true) as Hc.
  { destruct Hs as [c q ws j Hj Hc|c q ws j Hj Hc|c q ws j addr Hj _ _|c q ws j addr b Hj _ _|c q ws j b Hj]; cbn in *; [done|..];
      apply list_lookup_insert_Some in Hi' as [(-> & ? & _)|[_ ?]]; congruence. }
  destruct (ri_cancelled _ Hinv Hc) as [Hq|(j & b & Hj)].
  - pose proof (ri_channel _ Hinv) as Hch. destruct (channel r) as [|b q]; [done|]. apply Forall_cons in Hch as [(addr & ? & ?) _]. eauto.
  - destruct (ri_sending _ Hinv j b Hj) as (addr & ? & ?). eauto.
Qed.
End race_proofs.

(** What a peer can serve: bytes with the hash asked for. *)
Definition serves (addr chunk_hash bytes : string) : Prop :=
  client_fetch addr chunk_hash = Some bytes ∧ hash_content bytes = chunk_hash.

Lemma answer_serves h addr b : answer h addr = Some b ↔ serves addr h b.
Proof. unfold answer, serves. destruct (client_fetch addr h); [case_decide|]; naive_solver. Qed.

End fetcher.
