(* ===== verification/MetaStore.v ===== *)
(** * The kernel's metadata store

    src/rust/kernel/src/abc/meta_store.rs (the trait with its default methods)
    and src/rust/kernel/src/core/meta_store/mod.rs ([LocalMetaStore]: redb tables
    with a cache in front).  The value encoding is bincode over derived code: the
    interface [RowCodec].  A commit may fail; the texts of errors are left out. *)

From S2P Require Import Prelude Bytes Codec Table Rename.

Record FileMetadata := mkMeta {
  md_path : string;
  md_size : N;
  md_content_id : option string;
  md_gen : N;
  md_version : N;
  md_entry_type : N;
  md_zone_id : option string;
  md_mime_type : option string;
  md_created_at_ms : option Z;
  md_modified_at_ms : option Z;
  md_last_writer_address : option string;
  md_target_zone_id : option string;
  md_target_subtree : option string;
  md_link_target : option string;
  md_owner_id : option string }.

Definition with_path (m : FileMetadata) (path : string) : FileMetadata :=
  mkMeta path (md_size m) (md_content_id m) (md_gen m) (md_version m) (md_entry_type m) (md_zone_id m)
    (md_mime_type m) (md_created_at_ms m) (md_modified_at_ms m) (md_last_writer_address m)
    (md_target_zone_id m) (md_target_subtree m) (md_link_target m) (md_owner_id m).

Definition with_content_id (m : FileMetadata) (cid : option string) : FileMetadata :=
  mkMeta (md_path m) (md_size m) cid (md_gen m) (md_version m) (md_entry_type m) (md_zone_id m)
    (md_mime_type m) (md_created_at_ms m) (md_modified_at_ms m) (md_last_writer_address m)
    (md_target_zone_id m) (md_target_subtree m) (md_link_target m) (md_owner_id m).

Inductive MetaStoreError := NotFound (key : string) | IOError.

(** Operations on a store of type [S]; [None] is a panic. *)
Definition Op (S A : Type) : Type := S → option (result MetaStoreError A * S).

#[global] Instance Op_ret S : MRet (Op S) := λ A a s, Some (Ok a, s).
#[global] Instance Op_bind S : MBind (Op S) := λ A B f m s,
  match m s with
  | Some (Ok a, s) => f a s
  | Some (Err e, s) => Some (Err e, s)
  | None => None
  end.

Definition fail {S A} (e : MetaStoreError) : Op S A := λ s, Some (Err e, s).
Definition panics {S A} : Op S A := λ _, None.
Definition state {S} : Op S S := λ s, Some (Ok s, s).
Definition set_state {S} (s : S) : Op S () := λ _, Some (Ok (), s).

Fixpoint traverse {S A B} (f : A → Op S B) (l : list A) : Op S (list B) :=
  match l with
  | [] => mret []
  | a :: l => b ← f a; bs ← traverse f l; mret (b :: bs)
  end.

Record PutIfVersionResult := mkPutIf { pv_success : bool; pv_current_version : N }.
Record PaginatedList := mkPage {
  pg_items : list FileMetadata;
  pg_next_cursor : option string;
  pg_has_more : bool;
  pg_total_count : N }.

(** ** The trait *)

Class MetaStore (S : Type) := {
  ms_get : string → Op S (option FileMetadata);
  ms_put : string → FileMetadata → Op S ();
  ms_delete : string → Op S bool;
  ms_list : string → Op S (list FileMetadata);
  ms_exists : string → Op S bool }.

Definition pas_update_content_id (m : FileMetadata) (old_vfs new_vfs : string) : FileMetadata :=
  match md_content_id m ≫= λ cid, renamed_pas_content_id cid old_vfs new_vfs with
  | Some updated => with_content_id m (Some updated)
  | None => m
  end.

(** A row at its new path. *)
Definition renamed (is_pas : bool) (old_key new_key : string) (m : FileMetadata) : FileMetadata :=
  let m := with_path m new_key in
  if is_pas then pas_update_content_id m old_key new_key else m.

(** [s.matches('/').count()] *)
Fixpoint count_slashes (s : string) : nat :=
  match s with
  | "" => 0
  | String a s => (if decide (a = "/"%char) then 1 else 0) + count_slashes s
  end.

Section defaults.
Context {S : Type} {store : MetaStore S}.

Definition default_put_batch (items : list (string * FileMetadata)) : Op S () :=
  _ ← traverse (λ x, ms_put x.1 x.2) items; mret ().

Definition default_get_batch (paths : list string) : Op S (list (option FileMetadata)) := traverse ms_get paths.

Definition default_delete_batch (paths : list string) : Op S N :=
  hits ← traverse ms_delete paths; mret (N.of_nat (length (filter (λ b : bool, b = true) hits))).

Definition default_put_if_version (metadata : FileMetadata) (expected_version : N) : Op S PutIfVersionResult :=
  let path := md_path metadata in
  current ← ms_get path;
  let current_ver := default 0%N (md_version <$> current) in
  if decide (current_ver = expected_version) then
    _ ← ms_put path metadata; mret (mkPutIf true (md_version metadata))
  else mret (mkPutIf false current_ver).

Fixpoint rename_children (old_prefix new_prefix : string) (is_pas : bool) (children : list FileMetadata) : Op S () :=
  match children with
  | [] => mret ()
  | child :: children =>
      _ ← match strip_prefix old_prefix (md_path child) with
          | None => mret ()
          | Some suffix =>
              let new_child := new_prefix +:+ suffix in
              _ ← ms_put new_child (renamed is_pas (md_path child) new_child child);
              _ ← ms_delete (md_path child);
              mret ()
          end;
      rename_children old_prefix new_prefix is_pas children
  end.

Definition rename_metadata_path (old_path new_path : string) (is_pas : bool) : Op S () :=
  if decide (old_path = new_path) then mret ()
  else
    top ← ms_get old_path;
    _ ← match top with
        | Some meta =>
            _ ← ms_put new_path (renamed is_pas old_path new_path meta);
            _ ← ms_delete old_path;
            mret ()
        | None => mret ()
        end;
    children ← ms_list (dir_of old_path);
    rename_children (dir_of old_path) (dir_of new_path) is_pas children.

Definition is_implicit_directory (path : string) : Op S bool :=
  children ← ms_list (dir_of path); mret (negb (bool_decide (children = []))).

(** The slice panics when the cursor lies behind the end of the list. *)
Definition list_paginated (prefix : string) (recursive : bool) (limit : N) (cursor : option string) :
    Op S PaginatedList :=
  all ← ms_list prefix;
  let depth := count_slashes (trim_end "/" prefix) + 1 in
  let all := if recursive then all
             else filter (λ m, count_slashes (trim_end "/" (md_path m)) = depth) all in
  let len := N.of_nat (length all) in
  let start := default 0%N (cursor ≫= parse_u64) in
  let end_ := N.min (wrap64 (start + limit)) len in
  if (start <=? end_)%N then
    let has_more := (end_ <? len)%N in
    mret (mkPage (take (N.to_nat (end_ - start)) (drop (N.to_nat start) all))
      (if has_more then Some (pretty end_) else None) has_more len)
  else panics.

Definition batch_get_content_ids (paths : list string) : Op S (list (string * option string)) :=
  traverse (λ p, m ← ms_get p; mret (p, m ≫= md_content_id)) paths.
End defaults.
