(* ===== verification/LocalStore.v ===== *)
(** * The local metadata store

    [LocalMetaStore] of src/rust/kernel/src/core/meta_store/mod.rs: a table of
    encoded rows, a table of auxiliary values keyed by path and key, a schema
    row, and a cache of decoded rows.  Reads and writes that need the coherence
    guard are atomic here; LocalCache.v has their steps. *)

From S2P Require Import Prelude Bytes Codec Table Rename MetaStore.


(** Bincode over the derived code of [FileMetadata]. *)
Class RowCodec := {
  serialize_metadata : FileMetadata → string;
  deserialize_metadata : string → option FileMetadata }.

(** ** Ranges of keys *)

(** The last character of a string: a byte and the continuation bytes behind
    it. *)
Fixpoint all_cont (s : string) : bool :=
  match s with "" => true | String a s => utf8_cont a && all_cont s end.

Fixpoint char_pop (s : string) : option (string * string) :=
  match s with
  | "" => None
  | String a s =>
      if all_cont s then Some ("", String a s)
      else '(init, c) ← char_pop s; Some (String a init, c)
  end.

Definition cont_bits (a : ascii) : N := N_of_ascii a - 128.

Definition char_value (c : string) : N :=
  match c with
  | String a "" => N_of_ascii a
  | String a (String b "") => (N_of_ascii a - 192) * 64 + cont_bits b
  | String a (String b (String d "")) => ((N_of_ascii a - 224) * 64 + cont_bits b) * 64 + cont_bits d
  | String a (String b (String d (String e ""))) =>
      (((N_of_ascii a - 240) * 64 + cont_bits b) * 64 + cont_bits d) * 64 + cont_bits e
  | _ => 0
  end%N.

Definition CHAR_MAX : N := 1114111.

(** [char::from_u32] *)
Definition from_u32 (n : N) : option N :=
  if (CHAR_MAX <? n)%N || ((55296 <=? n)%N && (n <=? 57343)%N) then None else Some n.

Definition char_bytes (n : N) : string :=
  (if n <? 128 then String (ascii_of_N n) ""
   else if n <? 2048 then String (ascii_of_N (192 + n / 64)) (String (ascii_of_N (128 + n mod 64)) "")
   else if n <? 65536 then
     String (ascii_of_N (224 + n / 4096)) (String (ascii_of_N (128 + (n / 64) mod 64))
       (String (ascii_of_N (128 + n mod 64)) ""))
   else
     String (ascii_of_N (240 + n / 262144)) (String (ascii_of_N (128 + (n / 4096) mod 64))
       (String (ascii_of_N (128 + (n / 64) mod 64)) (String (ascii_of_N (128 + n mod 64)) ""))))%N.

(** The prefix with its last character incremented. *)
Definition range_end (prefix : string) : string :=
  match char_pop prefix with
  | None => prefix
  | Some (init, c) => init +:+ char_bytes (default CHAR_MAX (from_u32 (char_value c + 1)))
  end.

(** [path\0key] *)
Definition fm_composite_key (path key : string) : string := path +:+ String "000" key.

(** The auxiliary rows of a path: from [path\0] up to [path\u{1}]. *)
Definition fm_range (path : string) (fm : gmap string string) : list (string * string) :=
  range (fm_composite_key path "") (Excluded (path +:+ String "001" "")) fm.

(** ** The store *)

Record LocalMetaStore := mkLocal {
  ls_meta : gmap string string;
  ls_fm : gmap string string;
  ls_schema : gmap string N;
  ls_cache : gmap string FileMetadata;
  (** whether the commits to come succeed *)
  ls_commits : list bool }.

Section local.
Context {codec : RowCodec}.

(** [txn.commit()]: the tables as the transaction left them, or an error and no
    change. *)
Definition commit (meta fm : gmap string string) (schema : gmap string N) : Op LocalMetaStore () := λ s,
  match ls_commits s with
  | false :: rest => Some (Err IOError, mkLocal (ls_meta s) (ls_fm s) (ls_schema s) (ls_cache s) rest)
  | _ => Some (Ok (), mkLocal meta fm schema (ls_cache s) (tail (ls_commits s)))
  end.

Definition cache_put (path : string) (m : FileMetadata) : Op LocalMetaStore () := λ s,
  Some (Ok (), mkLocal (ls_meta s) (ls_fm s) (ls_schema s) (<[path := m]> (ls_cache s)) (ls_commits s)).

Definition cache_remove (path : string) : Op LocalMetaStore () := λ s,
  Some (Ok (), mkLocal (ls_meta s) (ls_fm s) (ls_schema s) (delete path (ls_cache s)) (ls_commits s)).

(** [cache.retain(|k, _| !k.starts_with(prefix))] *)
Definition cache_drop_prefix (prefix : string) : Op LocalMetaStore () := λ s,
  Some (Ok (), mkLocal (ls_meta s) (ls_fm s) (ls_schema s)
    (filter (λ kv, starts_with prefix kv.1 = false) (ls_cache s)) (ls_commits s)).

Definition decode_row (data : string) : Op LocalMetaStore FileMetadata :=
  match deserialize_metadata data with Some m => mret m | None => fail IOError end.

Definition local_get (path : string) : Op LocalMetaStore (option FileMetadata) :=
  s ← state;
  match ls_cache s !! path with
  | Some cached => mret (Some cached)
  | None =>
      match ls_meta s !! path with
      | Some data => m ← decode_row data; _ ← cache_put path m; mret (Some m)
      | None => mret None
      end
  end.

Definition local_put (path : string) (metadata : FileMetadata) : Op LocalMetaStore () :=
  s ← state;
  _ ← commit (<[path := serialize_metadata metadata]> (ls_meta s)) (ls_fm s) (ls_schema s);
  cache_put path metadata.

Definition drop_fm (path : string) (fm : gmap string string) : gmap string string :=
  foldr delete fm (fm_range path fm).*1.

Definition local_delete (path : string) : Op LocalMetaStore bool :=
  _ ← cache_remove path;
  s ← state;
  _ ← commit (delete path (ls_meta s)) (drop_fm path (ls_fm s)) (ls_schema s);
  mret (bool_decide (is_Some (ls_meta s !! path))).

Definition rows_under (prefix : string) (meta : gmap string string) : list (string * string) :=
  if decide (prefix = "") then entries meta
  else range prefix (Excluded (range_end prefix)) meta.

Definition local_list (prefix : string) : Op LocalMetaStore (list FileMetadata) :=
  s ← state; traverse (λ kv, decode_row kv.2) (rows_under prefix (ls_meta s)).

Definition local_exists (path : string) : Op LocalMetaStore bool :=
  s ← state; mret (bool_decide (is_Some (ls_meta s !! path))).

#[global] Instance local_meta_store : MetaStore LocalMetaStore := {|
  ms_get := local_get; ms_put := local_put; ms_delete := local_delete; ms_list := local_list;
  ms_exists := local_exists |}.

Definition insert_rows (items : list (string * FileMetadata)) (meta : gmap string string) : gmap string string :=
  foldl (λ t x, <[x.1 := serialize_metadata x.2]> t) meta items.

Definition local_put_batch (items : list (string * FileMetadata)) : Op LocalMetaStore () :=
  s ← state;
  _ ← commit (insert_rows items (ls_meta s)) (ls_fm s) (ls_schema s);
  _ ← traverse (λ x, cache_put x.1 x.2) items;
  mret ().

Fixpoint remove_rows (paths : list string) (meta : gmap string string) : gmap string string * N :=
  match paths with
  | [] => (meta, 0%N)
  | p :: paths =>
      let '(t, n) := remove_rows paths (delete p meta) in
      (t, if decide (is_Some (meta !! p)) then n + 1 else n)%N
  end.

Definition local_delete_batch (paths : list string) : Op LocalMetaStore N :=
  _ ← traverse cache_remove paths;
  s ← state;
  let '(t, n) := remove_rows paths (ls_meta s) in
  _ ← commit t (ls_fm s) (ls_schema s);
  mret n.

Definition batch_row (meta : gmap string string) (path : string) : Op LocalMetaStore (option FileMetadata) :=
  match meta !! path with
  | Some data => m ← decode_row data; _ ← cache_put path m; mret (Some m)
  | None => mret None
  end.

Definition local_get_batch (paths : list string) : Op LocalMetaStore (list (option FileMetadata)) :=
  s ← state; traverse (batch_row (ls_meta s)) paths.

Definition local_put_if_version (metadata : FileMetadata) (expected_version : N) :
    Op LocalMetaStore PutIfVersionResult :=
  let path := md_path metadata in
  s ← state;
  current_ver ← match ls_meta s !! path with
                | Some data => m ← decode_row data; mret (md_version m)
                | None => mret 0%N
                end;
  if decide (current_ver = expected_version) then
    _ ← commit (<[path := serialize_metadata metadata]> (ls_meta s)) (ls_fm s) (ls_schema s);
    _ ← cache_put path metadata;
    mret (mkPutIf true (md_version metadata))
  else
    _ ← commit (ls_meta s) (ls_fm s) (ls_schema s);
    mret (mkPutIf false current_ver).

(** ** Rename *)

(** The rows to move: old key, new key, bytes. *)
Definition to_rewrite (old_path new_path : string) (meta : gmap string string) :
    list (string * string * string) :=
  match meta !! old_path with Some bytes => [(old_path, new_path, bytes)] | None => [] end ++
  ((λ kv, (kv.1, dir_of new_path +:+ default "" (strip_prefix (dir_of old_path) kv.1), kv.2))
     <$> range (dir_of old_path) (Excluded (range_end (dir_of old_path))) meta).

Fixpoint move_rows (is_pas : bool) (rows : list (string * string * string)) (meta : gmap string string) :
    Op LocalMetaStore (gmap string string) :=
  match rows with
  | [] => mret meta
  | (old_key, new_key, bytes) :: rows =>
      m ← decode_row bytes;
      move_rows is_pas rows
        (<[new_key := serialize_metadata (renamed is_pas old_key new_key m)]> (delete old_key meta))
  end.

(** The auxiliary rows of one moved row, with their new keys. *)
Definition fm_moves (fm : gmap string string) (row : string * string * string) : list (string * string * string) :=
  let '(old_key, new_key, _) := row in
  (λ kv, (kv.1, fm_composite_key new_key (default "" (strip_prefix (fm_composite_key old_key "") kv.1)), kv.2))
    <$> fm_range old_key fm.

Definition move_fm (moves : list (string * string * string)) (fm : gmap string string) : gmap string string :=
  foldl (λ t x, <[x.1.2 := x.2]> (delete x.1.1 t)) fm moves.

Definition local_rename_path (old_path new_path : string) (is_pas : bool) : Op LocalMetaStore () :=
  if decide (old_path = new_path) then mret ()
  else
    s ← state;
    let rows := to_rewrite old_path new_path (ls_meta s) in
    meta ← move_rows is_pas rows (ls_meta s);
    let fm := drop_fm new_path (ls_fm s) in
    _ ← commit meta (move_fm (rows ≫= fm_moves fm) fm) (ls_schema s);
    _ ← cache_remove old_path;
    _ ← cache_drop_prefix (dir_of old_path);
    _ ← cache_remove new_path;
    cache_drop_prefix (dir_of new_path).

(** ** Auxiliary values *)

Definition set_file_metadata (path key value : string) : Op LocalMetaStore () :=
  s ← state; commit (ls_meta s) (<[fm_composite_key path key := value]> (ls_fm s)) (ls_schema s).

Definition get_file_metadata (path key : string) : Op LocalMetaStore (option string) :=
  s ← state;
  match ls_fm s !! fm_composite_key path key with
  | Some bytes => match from_utf8 bytes with Some v => mret (Some v) | None => fail IOError end
  | None => mret None
  end.

Definition get_file_metadata_bulk (paths : list string) (key : string) : Op LocalMetaStore (list (string * option string)) :=
  traverse (λ p, v ← get_file_metadata p key; mret (p, v)) paths.
End local.

(** ** The local metadata store as a map

    What a metadata store is to its callers: a map from paths to rows and a map
    from paths and keys to auxiliary values, on which every operation acts at
    once or not at all. *)

Record Spec := mkSpec {
  sp_rows : gmap string FileMetadata;
  sp_aux : gmap (string * string) string;
  sp_commits : list bool }.

Inductive LsOp :=
  | LsGet (path : string)
  | LsPut (path : string) (m : FileMetadata)
  | LsDelete (path : string)
  | LsList (prefix : string)
  | LsExists (path : string)
  | LsPutBatch (items : list (string * FileMetadata))
  | LsDeleteBatch (paths : list string)
  | LsGetBatch (paths : list string)
  | LsPutIf (m : FileMetadata) (expected : N)
  | LsRename (old_path new_path : string) (is_pas : bool)
  | LsSetAux (path key value : string)
  | LsGetAux (path key : string).

Inductive LsAnswer :=
  | AnUnit
  | AnBool (b : bool)
  | AnCount (n : N)
  | AnRow (m : option FileMetadata)
  | AnRows (l : list FileMetadata)
  | AnBatch (l : list (option FileMetadata))
  | AnPutIf (r : PutIfVersionResult)
  | AnValue (v : option string).

(** ** Rename *)

(** The new path of a row in the subtree at [old]. *)
Definition moved_to (old new k : string) : option string :=
  if decide (k = old) then Some new
  else r ← strip_prefix old k; if starts_with "/" r then Some (new +:+ r) else None.

Definition spec_rename (old new : string) (is_pas : bool) (a : Spec) : Spec :=
  mkSpec (move_map (moved_to old new) (renamed is_pas) (sp_rows a))
    (move_map (λ pk, if decide (is_Some (sp_rows a !! pk.1)) then (λ t, (t, pk.2)) <$> moved_to old new pk.1 else None)
      (λ _ _ v, v) (filter (λ x, x.1.1 ≠ new) (sp_aux a)))
    (sp_commits a).

(** ** Operations *)

(** A write: all of it, or an error and nothing. *)
Definition spec_commit (a a' : Spec) (ans : LsAnswer) : result MetaStoreError LsAnswer * Spec :=
  match sp_commits a with
  | false :: rest => (Err IOError, mkSpec (sp_rows a) (sp_aux a) rest)
  | _ => (Ok ans, mkSpec (sp_rows a') (sp_aux a') (tail (sp_commits a)))
  end.

Definition with_rows (a : Spec) (rows : gmap string FileMetadata) : Spec := mkSpec rows (sp_aux a) (sp_commits a).

Definition spec_list (prefix : string) (rows : gmap string FileMetadata) : list FileMetadata :=
  snd <$> filter (λ kv, starts_with prefix kv.1 = true) (entries rows).

Definition spec_exec (op : LsOp) (a : Spec) : result MetaStoreError LsAnswer * Spec :=
  match op with
  | LsGet p => (Ok (AnRow (sp_rows a !! p)), a)
  | LsPut p m => spec_commit a (with_rows a (<[p := m]> (sp_rows a))) AnUnit
  | LsDelete p =>
      spec_commit a (mkSpec (delete p (sp_rows a)) (filter (λ x, x.1.1 ≠ p) (sp_aux a)) (sp_commits a))
        (AnBool (bool_decide (is_Some (sp_rows a !! p))))
  | LsList prefix => (Ok (AnRows (spec_list prefix (sp_rows a))), a)
  | LsExists p => (Ok (AnBool (bool_decide (is_Some (sp_rows a !! p)))), a)
  | LsPutBatch items =>
      spec_commit a (with_rows a (foldl (λ t x, <[x.1 := x.2]> t) (sp_rows a) items)) AnUnit
  | LsDeleteBatch paths =>
      spec_commit a (with_rows a (foldl (λ t p, delete p t) (sp_rows a) paths))
        (AnCount (N.of_nat (size (filter (λ kv, kv.1 ∈ paths) (sp_rows a)))))
  | LsGetBatch paths => (Ok (AnBatch ((sp_rows a !!.) <$> paths)), a)
  | LsPutIf m expected =>
      let current := default 0%N (md_version <$> sp_rows a !! md_path m) in
      if decide (current = expected)
      then spec_commit a (with_rows a (<[md_path m := m]> (sp_rows a))) (AnPutIf (mkPutIf true (md_version m)))
      else spec_commit a a (AnPutIf (mkPutIf false current))
  | LsRename old new is_pas =>
      if decide (old = new) then (Ok AnUnit, a) else spec_commit a (spec_rename old new is_pas a) AnUnit
  | LsSetAux p k v =>
      spec_commit a (mkSpec (sp_rows a) (<[(p, k) := v]> (sp_aux a)) (sp_commits a)) AnUnit
  | LsGetAux p k => (Ok (AnValue (sp_aux a !! (p, k))), a)
  end.

Fixpoint spec_run (ops : list LsOp) (a : Spec) : list (result MetaStoreError LsAnswer) * Spec :=
  match ops with
  | [] => ([], a)
  | op :: ops =>
      let '(r, a) := spec_exec op a in let '(rs, a) := spec_run ops a in (r :: rs, a)
  end.

(** ** The store's operations *)

Section local.
Context {codec : RowCodec}.

Definition ls_answer {S A} (f : A → LsAnswer) (m : Op S A) : Op S LsAnswer := a ← m; mret (f a).

Definition local_exec (op : LsOp) : Op LocalMetaStore LsAnswer :=
  match op with
  | LsGet p => ls_answer AnRow (local_get p)
  | LsPut p m => ls_answer (λ _, AnUnit) (local_put p m)
  | LsDelete p => ls_answer AnBool (local_delete p)
  | LsList prefix => ls_answer AnRows (local_list prefix)
  | LsExists p => ls_answer AnBool (local_exists p)
  | LsPutBatch items => ls_answer (λ _, AnUnit) (local_put_batch items)
  | LsDeleteBatch paths => ls_answer AnCount (local_delete_batch paths)
  | LsGetBatch paths => ls_answer AnBatch (local_get_batch paths)
  | LsPutIf m expected => ls_answer AnPutIf (local_put_if_version m expected)
  | LsRename old new is_pas => ls_answer (λ _, AnUnit) (local_rename_path old new is_pas)
  | LsSetAux p k v => ls_answer (λ _, AnUnit) (set_file_metadata p k v)
  | LsGetAux p k => ls_answer AnValue (get_file_metadata p k)
  end.

(** A failed operation returns its error, and the next one runs. *)
Fixpoint local_run (ops : list LsOp) (s : LocalMetaStore) :
    option (list (result MetaStoreError LsAnswer) * LocalMetaStore) :=
  match ops with
  | [] => Some ([], s)
  | op :: ops =>
      '(r, s) ← local_exec op s; '(rs, s) ← local_run ops s; Some (r :: rs, s)
  end.
End local.
