(* ===== verification/LocalStoreProofs.v ===== *)
(** * The local metadata store refines its specification

    Every operation of [LocalMetaStore], with its cache and with commits that may
    fail, answers as the map of LocalStore.v does. *)

From S2P Require Import Prelude Bytes Codec Table Rename MetaStore LocalStore.

(** ** Keys *)

Definition no_nul (p : string) : Prop := scontains "000" p = false.

Lemma composite_inj p p' k k' :
  no_nul p → no_nul p' → fm_composite_key p k = fm_composite_key p' k' → p = p' ∧ k = k'.
Proof.
  unfold no_nul, fm_composite_key. revert p'. induction p as [|a p IH]; intros [|b p'] Hp Hp' E;
    cbn [scontains] in *; rewrite ?sapp_nil_l, ?sapp_cons in E.
  - by injection E.
  - injection E as <- _. by rewrite bool_decide_eq_true_2 in Hp' by done.
  - injection E as -> _. by rewrite bool_decide_eq_true_2 in Hp by done.
  - apply orb_false_iff in Hp as [_ Hp], Hp' as [_ Hp']. injection E as -> E.
    destruct (IH p' Hp Hp' E) as [-> ->]. done.
Qed.

(** The computed end of a range is the least string above all extensions, when
    the last character is one byte. *)
Lemma all_cont_last q a : (N_of_ascii a < 128)%N → all_cont (q +:+ String a "") = false.
Proof.
  intros Ha. induction q as [|b q IH]; cbn [all_cont].
  - rewrite sapp_nil_l. cbn [all_cont]. unfold utf8_cont, byte_in. rewrite (proj2 (N.leb_gt 128 _)) by done. done.
  - rewrite sapp_cons. cbn [all_cont]. rewrite IH. apply andb_false_r.
Qed.

Lemma char_pop_last q a : (N_of_ascii a < 128)%N → char_pop (q +:+ String a "") = Some (q, String a "").
Proof.
  intros Ha. induction q as [|b q IH]; [done|]. rewrite sapp_cons. cbn [char_pop].
  rewrite all_cont_last by done. by rewrite IH.
Qed.

Lemma range_end_last q a :
  (N_of_ascii a < 127)%N → range_end (q +:+ String a "") = q +:+ String (ascii_of_N (N_of_ascii a + 1)) "".
Proof.
  intros Ha. unfold range_end. rewrite char_pop_last by lia. cbn [char_value]. f_equal. unfold from_u32, CHAR_MAX.
  rewrite (proj2 (N.ltb_ge 1114111 _)), (proj2 (N.leb_gt 55296 _)) by lia. cbn [orb andb default from_option id].
  unfold char_bytes. by rewrite (proj2 (N.ltb_lt _ 128)) by lia.
Qed.

Lemma upper_bound_last q a :
  (N_of_ascii a < 255)%N → prefix_upper_bound (q +:+ String a "") = Some (q +:+ String (ascii_of_N (N_of_ascii a + 1)) "").
Proof.
  intros Ha. induction q as [|b q IH]; [|by rewrite !sapp_cons, prefix_upper_bound_cons, IH].
  rewrite sapp_nil_l, prefix_upper_bound_cons. cbn. by rewrite (proj2 (N.eqb_neq _ 255)) by lia.
Qed.

(** A prefix whose last character is one byte (and not DEL). *)
Definition plain_end (p : string) : Prop := ∃ q a, p = q +:+ String a "" ∧ (N_of_ascii a < 127)%N.

Lemma range_plain {V} p (m : gmap string V) : plain_end p → range p (Excluded (range_end p)) m = scan_prefix p m.
Proof.
  intros (q & a & -> & Ha). unfold scan_prefix. rewrite upper_bound_last by lia. by rewrite range_end_last.
Qed.

Lemma dir_plain p : plain_end (dir_of p).
Proof. exists (trim_end "/" p), "/"%char. split; [done|]. by vm_compute. Qed.

Lemma fm_range_scan path fm : fm_range path fm = scan_prefix (fm_composite_key path "") fm.
Proof. unfold fm_range, scan_prefix, fm_composite_key. by rewrite upper_bound_last. Qed.

Lemma elem_of_fm_range path fm key v :
  (key, v) ∈ fm_range path fm ↔ (∃ k, key = fm_composite_key path k) ∧ fm !! key = Some v.
Proof.
  rewrite fm_range_scan, elem_of_scan_prefix, starts_with_true.
  assert (∀ r, fm_composite_key path "" +:+ r = fm_composite_key path r) as E
    by (intros r; unfold fm_composite_key; by rewrite <-sapp_assoc).
  setoid_rewrite E. done.
Qed.

Lemma filter_fmap {A B} (P : B → Prop) `{∀ x, Decision (P x)} (f : A → B) (l : list A) :
  filter P (f <$> l) = f <$> filter (λ x, P (f x)) l.
Proof.
  induction l as [|x l IH]; [done|]. cbn [fmap list_fmap]. rewrite !filter_cons, IH. by case_decide.
Qed.

(** Entries of a mapped table. *)
Lemma entries_fmap {A B} (f : A → B) (m : gmap string A) : entries (f <$> m) = prod_map id f <$> entries m.
Proof.
  apply (StronglySorted_unique_strong key_le).
  - intros [k1 v1] [k2 v2] H1 ([k3 v3] & E & H2)%list_elem_of_fmap Hle Hge. cbn in E. injection E as -> ->.
    unfold key_le in *. cbn in *. assert (k1 = k3) as ->.
    { apply leb_antisym; apply Is_true_true; done. }
    apply elem_of_entries in H1, H2. rewrite lookup_fmap, H2 in H1. by injection H1 as <-.
  - apply entries_sorted.
  - pose proof (entries_sorted m) as H. induction H as [|x l Hs IH Hx]; cbn; constructor; [done|].
    apply Forall_fmap. eapply Forall_impl; [exact Hx|]. by intros y.
  - unfold entries at 1. rewrite merge_sort_Permutation. unfold entries. rewrite merge_sort_Permutation.
    by rewrite map_to_list_fmap.
Qed.

(** ** The relation *)

(** Bincode gives back the rows whose numbers have their widths. *)
Definition row_in_range (m : FileMetadata) : Prop :=
  (md_size m < U64_MOD)%N ∧ (md_gen m < U64_MOD)%N ∧ (md_version m < U32_MOD)%N ∧ (md_entry_type m < 256)%N ∧
  (∀ z, md_created_at_ms m = Some z → - I64_MAX - 1 ≤ z ≤ I64_MAX)%Z ∧
  (∀ z, md_modified_at_ms m = Some z → - I64_MAX - 1 ≤ z ≤ I64_MAX)%Z.

Class RowLaws {codec : RowCodec} := {
  row_codec m : row_in_range m → deserialize_metadata (serialize_metadata m) = Some m }.

Section proofs.
Context {codec : RowCodec} {laws : RowLaws}.

Definition row_ok (k : string) (m : FileMetadata) : Prop := row_in_range m ∧ no_nul k.

(** Tables that hold the rows and auxiliary values of the map. *)
Record tables (meta fm : gmap string string) (rows : gmap string FileMetadata) (aux : gmap (string * string) string) :
    Prop := {
  tb_meta : meta = serialize_metadata <$> rows;
  tb_rows : map_Forall row_ok rows;
  tb_fm p k : no_nul p → fm !! fm_composite_key p k = aux !! (p, k);
  tb_keys key : is_Some (fm !! key) → ∃ p k, no_nul p ∧ key = fm_composite_key p k;
  tb_aux p k v : aux !! (p, k) = Some v → no_nul p ∧ is_utf8 v = true }.

Record refines (s : LocalMetaStore) (a : Spec) : Prop := {
  rf_tables : tables (ls_meta s) (ls_fm s) (sp_rows a) (sp_aux a);
  rf_cache : ls_cache s ⊆ sp_rows a;
  rf_commits : ls_commits s = sp_commits a }.

Lemma decode_row_ok k m (rows : gmap string FileMetadata) s :
  map_Forall row_ok rows → rows !! k = Some m → decode_row (serialize_metadata m) s = Some (Ok m, s).
Proof. intros Hr Hm. unfold decode_row. by rewrite row_codec by apply (Hr k m Hm). Qed.

Lemma op_bind {S A B} (m : Op S A) (f : A → Op S B) s a s' : m s = Some (Ok a, s') → (m ≫= f) s = f a s'.
Proof. unfold mbind, Op_bind. by intros ->. Qed.

Lemma op_bind_err {S A B} (m : Op S A) (f : A → Op S B) s e s' : m s = Some (Err e, s') → (m ≫= f) s = Some (Err e, s').
Proof. unfold mbind, Op_bind. by intros ->. Qed.

Lemma op_bind_assoc {S A B C} (m : Op S A) (f : A → Op S B) (g : B → Op S C) s :
  ((m ≫= f) ≫= g) s = (m ≫= λ a, f a ≫= g) s.
Proof. unfold mbind, Op_bind. by destruct (m s) as [[[a|e] s']|]. Qed.

(** A write is its commit and what follows it. *)
Lemma commit_refines s a a' meta fm ans (f : Op LocalMetaStore LsAnswer) :
  refines s a → tables meta fm (sp_rows a') (sp_aux a') →
  (∀ commits, ∃ cache, f (mkLocal meta fm (ls_schema s) (ls_cache s) commits)
     = Some (Ok ans, mkLocal meta fm (ls_schema s) cache commits) ∧ cache ⊆ sp_rows a') →
  ∃ s', (commit meta fm (ls_schema s) ≫= λ _, f) s = Some ((spec_commit a a' ans).1, s') ∧
    refines s' (spec_commit a a' ans).2.
Proof.
  intros [Ht Hc Hk] Ht' Hf. unfold mbind, Op_bind, commit, spec_commit. rewrite Hk.
  destruct (Hf (tail (sp_commits a))) as (cache & Ef & Hcache).
  destruct (sp_commits a) as [|[] rest]; cbn [tail] in *.
  - exists (mkLocal meta fm (ls_schema s) cache []). split; [done|]. by split.
  - exists (mkLocal meta fm (ls_schema s) cache rest). split; [done|]. by split.
  - eexists. split; [done|]. by split.
Qed.

(** ** Reads *)

Lemma get_refines s a p :
  refines s a → ∃ s', local_get p s = Some (Ok (sp_rows a !! p), s') ∧ refines s' a.
Proof.
  intros [Ht Hc Hk]. unfold local_get. rewrite (op_bind _ _ s s s) by done.
  destruct (ls_cache s !! p) as [m|] eqn:Ec.
  - exists s. split; [|by split]. rewrite (lookup_weaken _ _ _ _ Ec Hc). done.
  - rewrite (tb_meta _ _ _ _ Ht), lookup_fmap. destruct (sp_rows a !! p) as [m|] eqn:Em; cbn [fmap option_fmap option_map].
    + rewrite (op_bind _ _ _ _ _ (decode_row_ok p m _ s (tb_rows _ _ _ _ Ht) Em)). eexists. split; [done|].
      split; cbn; [done| |done]. by apply insert_subseteq_l.
    + exists s. split; [done|]. by split.
Qed.

Lemma batch_refines a paths s :
  refines s a → ∃ s', traverse (batch_row (serialize_metadata <$> sp_rows a)) paths s
    = Some (Ok ((sp_rows a !!.) <$> paths), s') ∧ refines s' a.
Proof.
  revert s. induction paths as [|p paths IH]; intros s Hr; [by exists s|]. cbn [traverse fmap list_fmap].
  assert (∃ s1, batch_row (serialize_metadata <$> sp_rows a) p s = Some (Ok (sp_rows a !! p), s1) ∧ refines s1 a)
    as (s1 & E1 & Hr1).
  { destruct Hr as [Ht Hc Hk]. unfold batch_row. rewrite lookup_fmap.
    destruct (sp_rows a !! p) as [m|] eqn:Em; cbn [fmap option_fmap option_map]; [|exists s; split; [done|by split]].
    rewrite (op_bind _ _ _ _ _ (decode_row_ok p m _ s (tb_rows _ _ _ _ Ht) Em)). eexists. split; [done|].
    split; cbn; [done| |done]. by apply insert_subseteq_l. }
  destruct (IH s1 Hr1) as (s2 & E2 & Hr2). exists s2. split; [|done].
  rewrite (op_bind _ _ _ _ _ E1). by rewrite (op_bind _ _ _ _ _ E2).
Qed.

Lemma decode_rows_ok (l : list (string * FileMetadata)) s :
  Forall (λ kv, row_in_range kv.2) l →
  traverse (λ kv, decode_row kv.2) (prod_map id serialize_metadata <$> l) s = Some (Ok l.*2, s).
Proof.
  induction 1 as [|[k m] l Hm _ IH]; [done|]. cbn [fmap list_fmap traverse prod_map snd].
  assert (decode_row (serialize_metadata m) s = Some (Ok m, s)) as E by (unfold decode_row; by rewrite row_codec).
  rewrite (op_bind _ _ _ _ _ E). by rewrite (op_bind _ _ _ _ _ IH).
Qed.

Lemma list_refines s a prefix :
  refines s a → prefix = "" ∨ plain_end prefix →
  local_list prefix s = Some (Ok (spec_list prefix (sp_rows a)), s).
Proof.
  intros [Ht _ _] Hp. unfold local_list. rewrite (op_bind _ _ s s s) by done.
  assert (rows_under prefix (ls_meta s) = prod_map id serialize_metadata
    <$> filter (λ kv, starts_with prefix kv.1 = true) (entries (sp_rows a))) as ->.
  { rewrite (tb_meta _ _ _ _ Ht). unfold rows_under. case_decide as Hd.
    - subst prefix. rewrite entries_fmap. f_equal. symmetry. apply filter_all, Forall_forall. by intros [[|? ?] ?] _.
    - destruct Hp as [?|Hp]; [done|]. rewrite range_plain, scan_prefix_filter, entries_fmap by done.
      by rewrite filter_fmap. }
  rewrite decode_rows_ok; [done|]. apply Forall_forall. intros [k m] [_ Hm%elem_of_entries]%list_elem_of_filter.
  apply (tb_rows _ _ _ _ Ht k m Hm).
Qed.

(** ** Writes *)

Lemma tables_insert meta fm rows aux p m :
  tables meta fm rows aux → row_ok p m → tables (<[p := serialize_metadata m]> meta) fm (<[p := m]> rows) aux.
Proof.
  intros [H1 H2 H3 H4 H5] Hm. split; [|by apply map_Forall_insert_2|done..]. by rewrite H1, fmap_insert.
Qed.

Lemma tables_delete meta fm rows aux p : tables meta fm rows aux → tables (delete p meta) fm (delete p rows) aux.
Proof.
  intros [H1 H2 H3 H4 H5]. split; [|by apply map_Forall_delete|done..]. by rewrite H1, fmap_delete.
Qed.

Lemma drop_fm_lookup p fm key :
  drop_fm p fm !! key = if decide (starts_with (fm_composite_key p "") key = true) then None else fm !! key.
Proof.
  unfold drop_fm. rewrite foldr_delete_lookup. rewrite fm_range_scan.
  destruct (fm !! key) as [v|] eqn:E; [|by repeat case_decide].
  apply decide_ext. rewrite list_elem_of_fmap. split.
  - intros ([k v'] & -> & H%elem_of_scan_prefix). apply H.
  - intros H. exists (key, v). split; [done|]. by apply elem_of_scan_prefix.
Qed.

Lemma composite_prefix p q k :
  no_nul p → no_nul q → starts_with (fm_composite_key p "") (fm_composite_key q k) = true ↔ q = p.
Proof.
  intros Hp Hq. rewrite starts_with_true. unfold fm_composite_key. split.
  - intros [r E]. rewrite <-sapp_assoc in E. by apply (composite_inj q p k r).
  - intros ->. exists k. by rewrite <-sapp_assoc.
Qed.

Lemma tables_drop_fm meta fm rows aux p :
  tables meta fm rows aux → no_nul p → tables meta (drop_fm p fm) rows (filter (λ x, x.1.1 ≠ p) aux).
Proof.
  intros [H1 H2 H3 H4 H5] Hp. split; [done|done|..].
  - intros q k Hq. rewrite drop_fm_lookup. rewrite map_lookup_filter, H3 by done.
    destruct (decide (q = p)) as [->|Hne].
    + rewrite decide_True by (by apply composite_prefix). destruct (aux !! (p, k)); [|done]. cbn. by rewrite option_guard_False by naive_solver.
    + rewrite decide_False by (by rewrite composite_prefix). destruct (aux !! (q, k)); [|done]. cbn. by rewrite option_guard_True.
  - intros key Hk. apply H4. rewrite drop_fm_lookup in Hk. case_decide; [by destruct Hk|done].
  - intros q k v [Hq _]%map_lookup_filter_Some. by apply (H5 q k).
Qed.

Lemma tables_set_aux meta fm rows aux p k v :
  tables meta fm rows aux → no_nul p → is_utf8 v = true →
  tables meta (<[fm_composite_key p k := v]> fm) rows (<[(p, k) := v]> aux).
Proof.
  intros [H1 H2 H3 H4 H5] Hp Hv. split; [done|done|..].
  - intros q l Hq. destruct (decide ((q, l) = (p, k))) as [[= -> ->]|Hne]; [by rewrite !lookup_insert_eq|].
    rewrite !lookup_insert_ne; [by apply H3|by intros E|]. intros E. symmetry in E. apply composite_inj in E as [-> ->]; done.
  - intros key [w Hw]. apply lookup_insert_Some in Hw as [[<- _]|[_ Hw]]; [by exists p, k|]. apply H4. by exists w.
  - intros q l w [[[= <- <-] <-]|[_ Hw]]%lookup_insert_Some; [done|by apply (H5 q l)].
Qed.
End proofs.

(** ** A store in examples *)

#[local] Instance meta_eq : EqDecision FileMetadata.
Proof. solve_decision. Defined.
#[local] Instance meta_countable : Countable FileMetadata.
Proof.
  apply (inj_countable'
    (λ m, ((md_path m, md_size m, md_content_id m, md_gen m, md_version m),
           (md_entry_type m, md_zone_id m, md_mime_type m, md_created_at_ms m, md_modified_at_ms m),
           (md_last_writer_address m, md_target_zone_id m, md_target_subtree m, md_link_target m, md_owner_id m)))
    (λ t, mkMeta t.1.1.1.1.1.1 t.1.1.1.1.1.2 t.1.1.1.1.2 t.1.1.1.2 t.1.1.2
            t.1.2.1.1.1.1 t.1.2.1.1.1.2 t.1.2.1.1.2 t.1.2.1.2 t.1.2.2
            t.2.1.1.1.1 t.2.1.1.1.2 t.2.1.1.2 t.2.1.2 t.2.2)).
  by intros [].
Defined.

Definition small_row_codec : RowCodec := {| serialize_metadata := small_to_vec; deserialize_metadata := small_from_slice |}.

Lemma small_row_laws : @RowLaws small_row_codec.
Proof. split. intros m _. apply small_codec. Qed.

Definition file_row (path : string) (version : N) : FileMetadata :=
  mkMeta path 0 None 0 version 0 None None None None None None None None None.

Lemma file_row_ok path version : (version < U32_MOD)%N → row_in_range (file_row path version).
Proof. intros H. by split_and!. Qed.

Definition empty_store (commits : list bool) : LocalMetaStore := mkLocal ∅ ∅ ∅ ∅ commits.

Lemma empty_tables {codec : RowCodec} : tables ∅ ∅ ∅ ∅.
Proof.
  split; [by rewrite fmap_empty|apply map_Forall_empty|done|..].
  - intros key [v Hv]. by rewrite lookup_empty in Hv.
  - intros p k v Hv. by rewrite lookup_empty in Hv.
Qed.

Lemma empty_refines {codec : RowCodec} commits : refines (empty_store commits) (mkSpec ∅ ∅ commits).
Proof. split; [apply empty_tables|done|done]. Qed.

(** ** Where the metadata store falls short

    Executions of the trait's default methods and of the local store that do not
    do what they are for. *)

(** A page asked for with a cursor behind the end of the list, as when rows were
    deleted since the last page, panics. *)
Lemma stale_cursor_panics {S : Type} {store : MetaStore S} prefix limit cursor start all s s' :
  ms_list prefix s = Some (Ok all, s') → parse_u64 cursor = Some start → (N.of_nat (length all) < start)%N →
  list_paginated prefix true limit (Some cursor) s = None.
Proof.
  intros Hl Hp Hlt. unfold list_paginated. rewrite (op_bind _ _ _ _ _ Hl). cbn [mbind option_bind]. rewrite Hp.
  cbn [default from_option id]. rewrite (proj2 (N.leb_gt start _)) by lia. done.
Qed.

(** The batch form of delete leaves the auxiliary values, which the file created
    next at the path inherits. *)
Lemma delete_batch_keeps_aux :
  let store := empty_store [] in
  let setup := [LsPut "/a" (file_row "/a" 1); LsSetAux "/a" "parsed_text" "old"] in
  let after := [LsPut "/a" (file_row "/a" 1); LsGetAux "/a" "parsed_text"] in
  (λ r, last r.1) <$> local_run (codec := small_row_codec) (setup ++ [LsDelete "/a"] ++ after) store
    = Some (Some (Ok (AnValue None))) ∧
  (λ r, last r.1) <$> local_run (codec := small_row_codec) (setup ++ [LsDeleteBatch ["/a"]] ++ after) store
    = Some (Some (Ok (AnValue (Some "old")))).
Proof. split; vm_compute; reflexivity. Qed.
