(* ===== verification/LocalRefine.v ===== *)
(** * Renames of the local metadata store, and the refinement

    The rename of a subtree in one transaction moves exactly the rows of the
    subtree and their auxiliary values; with it, every run of the store answers
    as its specification. *)

From S2P Require Import Prelude Bytes Codec Table Rename MetaStore LocalStore LocalStoreProofs.

(** ** Subtrees *)

Lemma moved_to_Some old new k t :
  moved_to old new k = Some t ↔
  (k = old ∧ t = new) ∨ ∃ r, k = old +:+ String "/" r ∧ t = new +:+ String "/" r.
Proof.
  unfold moved_to. case_decide as Hk.
  - subst k. split; [intros [= <-]; by left|]. intros [[_ ->]|(r & E & _)]; [done|].
    exfalso. apply (f_equal String.length) in E. rewrite slen_app in E. cbn in E. lia.
  - split.
    + destruct (strip_prefix old k) as [r|] eqn:E; [|done]. apply strip_prefix_Some in E as ->. cbn [mbind option_bind].
      destruct (starts_with "/" r) eqn:Es; [|done]. apply starts_with_true in Es as [r' ->]. intros [= <-]. right. by exists r'.
    + intros [[-> _]|(r & -> & ->)]; [done|]. rewrite strip_prefix_app. cbn [mbind option_bind].
      by rewrite (proj2 (starts_with_true "/" (String "/" r)) ltac:(by exists r)).
Qed.

(** Paths without a trailing slash, neither inside the other's subtree. *)
Record rename_ok (old new : string) : Prop := {
  ro_nul : no_nul new;
  ro_old : trim_end "/" old = old;
  ro_new : trim_end "/" new = new;
  ro_into : starts_with (old +:+ "/") (new +:+ "/") = false;
  ro_over : starts_with (new +:+ "/") (old +:+ "/") = false }.

Lemma moved_inj old new k k' t : moved_to old new k = Some t → moved_to old new k' = Some t → k = k'.
Proof.
  rewrite !moved_to_Some. intros [[-> ->]|(r & -> & ->)] [[-> E]|(r' & -> & E)]; try done.
  - exfalso. apply (f_equal String.length) in E. rewrite slen_app in E. cbn in E. lia.
  - exfalso. symmetry in E. apply (f_equal String.length) in E. rewrite slen_app in E. cbn in E. lia.
  - assert (r = r') as ->; [|done]. clear -E. induction new as [|a p IH]; [by injection E|].
    rewrite !sapp_cons in E. injection E as E. by apply IH.
Qed.

Lemma moved_once old new k t : rename_ok old new → moved_to old new k = Some t → moved_to old new t = None.
Proof.
  intros [_ _ _ Hinto Hover] Ht. destruct (moved_to old new t) as [u|] eqn:Eu; [|done]. exfalso.
  apply moved_to_Some in Ht, Eu.
  assert (∃ x, t = new +:+ x ∧ (x = "" ∨ ∃ r, x = String "/" r)) as (x & -> & Hx).
  { destruct Ht as [[_ ->]|(r & _ & ->)]; [exists ""; split; [by rewrite sapp_nil_r|by left]|]. eauto. }
  assert (∃ y, new +:+ x = old +:+ y ∧ (y = "" ∨ ∃ r, y = String "/" r)) as (y & E & Hy).
  { destruct Eu as [[-> _]|(r & -> & _)]; [exists ""; split; [by rewrite sapp_nil_r|by left]|]. eauto. }
  assert (∀ p x, (x = "" ∨ ∃ r, x = String "/" r) → starts_with (p +:+ "/") ((p +:+ x) +:+ "/") = true) as Hst.
  { intros p z [->|[r ->]]; apply starts_with_true; [exists ""; by rewrite !sapp_nil_r|].
    exists (r +:+ "/"). by rewrite <-!sapp_assoc. }
  pose proof (Hst new x Hx) as H1. pose proof (Hst old y Hy) as H2. rewrite <-E in H2.
  destruct (starts_with_total _ _ _ H1 H2); congruence.
Qed.

Section proofs.
Context {codec : RowCodec} {laws : RowLaws}.

Lemma moved_apart {V} old new (m : gmap string V) : rename_ok old new → moves_apart (moved_to old new) m.
Proof.
  intros Hok. split.
  - intros k k' t _ _. apply moved_inj.
  - intros k t _. by apply moved_once.
Qed.

Lemma dir_trimmed p : trim_end "/" p = p → dir_of p = p +:+ "/".
Proof. intros H. unfold dir_of. by rewrite H. Qed.

(** The rows the transaction gathers are the rows that move. *)
Lemma elem_of_to_rewrite old new meta k t bytes :
  rename_ok old new →
  (k, t, bytes) ∈ to_rewrite old new meta ↔ moved_to old new k = Some t ∧ meta !! k = Some bytes.
Proof.
  intros Hok. unfold to_rewrite. rewrite (dir_trimmed old), (dir_trimmed new) by apply Hok.
  rewrite range_plain by (rewrite <-(dir_trimmed old) by apply Hok; apply dir_plain).
  rewrite elem_of_app, moved_to_Some, list_elem_of_fmap. split.
  - intros [H|([k1 v1] & E & [[r ->]%starts_with_true Hk]%elem_of_scan_prefix)].
    + destruct (meta !! old) as [b|] eqn:Eb; [|by apply elem_of_nil in H]. apply list_elem_of_singleton in H. injection H as -> -> ->. naive_solver.
    + cbn in E. rewrite strip_prefix_app in E. cbn in E. injection E as -> -> ->. split; [|done]. right. exists r.
      by rewrite <-!sapp_assoc.
  - intros [[[-> ->]|(r & -> & ->)] Hm]; [left; rewrite Hm; by apply list_elem_of_singleton|].
    right. exists ((old +:+ "/") +:+ r, bytes). cbn [fst snd]. rewrite strip_prefix_app. cbn. split; [by rewrite <-!sapp_assoc|].
    apply elem_of_scan_prefix. split; [apply starts_with_app|]. by rewrite <-sapp_assoc.
Qed.

Lemma to_rewrite_NoDup old new meta : rename_ok old new → NoDup (to_rewrite old new meta).*1.*1.
Proof.
  intros Hok. unfold to_rewrite. rewrite (dir_trimmed old), (dir_trimmed new) by apply Hok.
  rewrite range_plain by (rewrite <-(dir_trimmed old) by apply Hok; apply dir_plain).
  rewrite !fmap_app. apply NoDup_app. split_and!.
  - destruct (meta !! old); cbn; [apply NoDup_singleton|constructor].
  - intros k Hk. destruct (meta !! old); [|by apply elem_of_nil in Hk]. apply list_elem_of_singleton in Hk as ->. cbn.
    rewrite <-!list_fmap_compose. intros ([k1 v1] & E & [[r ->]%starts_with_true _]%elem_of_scan_prefix)%list_elem_of_fmap.
    cbn in E. apply (f_equal String.length) in E. rewrite !slen_app in E. cbn in E. lia.
  - rewrite <-!list_fmap_compose. cbn. rewrite scan_prefix_filter.
    eapply sublist_NoDup; [apply (entries_NoDup meta)|]. apply fmap_sublist, sublist_filter.
Qed.

Lemma move_map_fmap {A B} (h : A → B) f (g : string → string → A → A) (g' : string → string → B → B) (m : gmap string A) :
  (∀ k t v, m !! k = Some v → g' k t (h v) = h (g k t v)) →
  move_map f g' (h <$> m) = h <$> move_map f g m.
Proof.
  intros Hg. unfold move_map. rewrite map_fmap_union, map_filter_fmap. f_equal. rewrite <-list_to_map_fmap. f_equal.
  rewrite map_to_list_fmap. assert (∀ kv, kv ∈ map_to_list m → m !! kv.1 = Some kv.2) as Hm
    by (intros [k v]; apply elem_of_map_to_list).
  induction (map_to_list m) as [|[k v] l IH]; [done|]. cbn [fmap list_fmap omap list_omap prod_map fst snd].
  rewrite IH by (intros kv Hkv; apply Hm; by right). change (id k) with k. destruct (f k) as [t|]; cbn [fmap option_fmap option_map list_fmap]; [|done].
  unfold prod_map at 2. cbn [fst snd id]. do 2 f_equal. apply Hg. apply (Hm (k, v)). by left.
Qed.

(** What becomes of the bytes of a moved row. *)
Definition renamed_bytes (is_pas : bool) (k t bytes : string) : string :=
  match deserialize_metadata bytes with Some m => serialize_metadata (renamed is_pas k t m) | None => bytes end.

Lemma move_rows_ok is_pas l meta s :
  Forall (λ x, is_Some (deserialize_metadata x.2)) l →
  move_rows is_pas l meta s
  = Some (Ok (foldl move_one meta ((λ x, (x.1, renamed_bytes is_pas x.1.1 x.1.2 x.2)) <$> l)), s).
Proof.
  intros Hl. revert meta. induction Hl as [|[[k t] b] l [m Hm] _ IH]; intros meta; [done|]. cbn [move_rows fmap list_fmap foldl snd] in *.
  assert (decode_row b s = Some (Ok m, s)) as E by (unfold decode_row; by rewrite Hm).
  rewrite (op_bind _ _ _ _ _ E). rewrite IH. do 4 f_equal. unfold move_one, renamed_bytes. cbn [fst snd]. by rewrite Hm.
Qed.

Lemma rename_rows_moved old new is_pas rows s :
  rename_ok old new → map_Forall row_ok rows →
  move_rows is_pas (to_rewrite old new (serialize_metadata <$> rows)) (serialize_metadata <$> rows) s
  = Some (Ok (serialize_metadata <$> move_map (moved_to old new) (renamed is_pas) rows), s).
Proof.
  intros Hok Hr. rewrite move_rows_ok.
  2:{ apply Forall_forall. intros [[k t] b] [_ Hb]%elem_of_to_rewrite; [|done]. cbn. rewrite lookup_fmap in Hb.
      destruct (rows !! k) as [m|] eqn:Em; [|done]. injection Hb as <-. rewrite row_codec by apply (Hr k m Em). done. }
  do 3 f_equal. rewrite <-(move_map_fmap serialize_metadata _ _ (renamed_bytes is_pas)).
  2:{ intros k t v Hv. unfold renamed_bytes. by rewrite row_codec by apply (Hr k v Hv). }
  apply foldl_move; [by apply moved_apart|..].
  - rewrite <-!list_fmap_compose. pose proof (to_rewrite_NoDup old new (serialize_metadata <$> rows) Hok) as Hn.
    by rewrite <-list_fmap_compose in Hn.
  - intros k t v. rewrite list_elem_of_fmap. split.
    + intros ([[k1 t1] b] & E & [Hm Hb]%elem_of_to_rewrite); [|done]. cbn in E. injection E as -> -> ->. eauto.
    + intros (Hm & w & Hw & ->). exists (k, t, w). split; [done|]. by apply elem_of_to_rewrite.
Qed.

(** Renamed rows keep their widths. *)
Lemma renamed_in_range is_pas k t m : row_in_range m → row_in_range (renamed is_pas k t m).
Proof.
  intros H. unfold renamed, pas_update_content_id. destruct is_pas; [|exact H].
  destruct (md_content_id (with_path m t) ≫= _); exact H.
Qed.

Lemma move_map_rows old new is_pas rows :
  rename_ok old new → map_Forall row_ok rows → map_Forall row_ok (move_map (moved_to old new) (renamed is_pas) rows).
Proof.
  intros Hok Hr t v Hv.
  destruct (decide (map_Forall (λ k _, moved_to old new k ≠ Some t) rows)) as [Hno|Hyes].
  - rewrite move_map_other in Hv by (intros k [m Hm]; apply (Hno k m Hm)).
    case_decide; [|done]. by apply Hr.
  - apply map_not_Forall in Hyes as (k & m & Hm & Hk); [|intros; apply _].
    apply dec_stable in Hk. rewrite (move_map_target _ _ _ k t m) in Hv; [|by apply moved_apart|done|done].
    injection Hv as <-. destruct (Hr k m Hm) as [Hin Hnul]. split; [by apply renamed_in_range|].
    apply moved_to_Some in Hk as [[-> ->]|(r & -> & ->)]; [apply Hok|].
    unfold no_nul in *. rewrite scontains_app in *. apply orb_false_iff in Hnul as [_ Hnul].
    apply orb_false_iff. split; [apply Hok|done].
Qed.

(** ** Auxiliary values *)

(** The path and the key of a composite key. *)
Fixpoint fm_split (key : string) : option (string * string) :=
  match key with
  | "" => None
  | String a s => if decide (a = "000"%char) then Some ("", s) else '(p, k) ← fm_split s; Some (String a p, k)
  end.

Lemma fm_split_composite p k : no_nul p → fm_split (fm_composite_key p k) = Some (p, k).
Proof.
  unfold no_nul, fm_composite_key. induction p as [|a p IH]; intros Hp; [by rewrite sapp_nil_l|]. cbn [scontains] in Hp.
  apply orb_false_iff in Hp as [Ha%bool_decide_eq_false_1 Hp]. rewrite sapp_cons. cbn [fm_split].
  rewrite decide_False by done. by rewrite IH.
Qed.

Section aux.
Context (old new : string) (rows : gmap string FileMetadata) (Hok : rename_ok old new) (Hrows : map_Forall row_ok rows).

Definition fm_target (key : string) : option string :=
  '(p, k) ← fm_split key;
  if decide (is_Some (rows !! p)) then (λ t, fm_composite_key t k) <$> moved_to old new p else None.

Definition aux_target (pk : string * string) : option (string * string) :=
  if decide (is_Some (rows !! pk.1)) then (λ t, (t, pk.2)) <$> moved_to old new pk.1 else None.

Lemma moved_no_nul p t : no_nul p → moved_to old new p = Some t → no_nul t.
Proof.
  intros Hp. rewrite moved_to_Some. intros [[-> ->]|(r & -> & ->)]; [apply Hok|].
  unfold no_nul in *. rewrite scontains_app in *. apply orb_false_iff in Hp as [_ Hp]. apply orb_false_iff. split; [apply Hok|done].
Qed.

Lemma row_no_nul p : is_Some (rows !! p) → no_nul p.
Proof. intros [m Hm]. apply (Hrows p m Hm). Qed.

Lemma fm_target_composite p k t :
  no_nul p → fm_target (fm_composite_key p k) = Some t ↔ ∃ q, aux_target (p, k) = Some (q, k) ∧ t = fm_composite_key q k.
Proof.
  intros Hp. unfold fm_target, aux_target. rewrite fm_split_composite by done. cbn [mbind option_bind fst snd].
  case_decide; [|naive_solver]. destruct (moved_to old new p) as [q|]; cbn [fmap option_fmap option_map]; naive_solver.
Qed.

Lemma fm_target_None p k : no_nul p → fm_target (fm_composite_key p k) = None ↔ aux_target (p, k) = None.
Proof.
  intros Hp. unfold fm_target, aux_target. rewrite fm_split_composite by done. cbn [mbind option_bind fst snd].
  case_decide; [|done]. by destruct (moved_to old new p).
Qed.

Lemma aux_target_Some p k q k' :
  aux_target (p, k) = Some (q, k') ↔ is_Some (rows !! p) ∧ moved_to old new p = Some q ∧ k' = k.
Proof.
  unfold aux_target. cbn [fst snd]. case_decide; [|naive_solver]. destruct (moved_to old new p); cbn; naive_solver.
Qed.

Lemma aux_apart (aux : gmap (string * string) string) : moves_apart aux_target aux.
Proof.
  split.
  - intros [p k] [p' k'] [q l] _ _ (_ & H1 & ->)%aux_target_Some (_ & H2 & ->)%aux_target_Some. f_equal. by eapply moved_inj.
  - intros [p k] [q l] _ (_ & H1 & ->)%aux_target_Some. unfold aux_target. cbn [fst snd]. rewrite (moved_once _ _ _ _ Hok H1). by case_decide.
Qed.

Context (fm : gmap string string) (aux : gmap (string * string) string).
Context (Hfm : ∀ p k, no_nul p → fm !! fm_composite_key p k = aux !! (p, k)).
Context (Hkeys : ∀ key, is_Some (fm !! key) → ∃ p k, no_nul p ∧ key = fm_composite_key p k).
Context (Haux : ∀ p k v, aux !! (p, k) = Some v → no_nul p ∧ is_utf8 v = true).

Lemma fm_apart : moves_apart fm_target fm.
Proof.
  split.
  - intros key key' t (p & k & Hp & ->)%Hkeys (p' & k' & Hp' & ->)%Hkeys
      (q & Hq & ->)%fm_target_composite (q' & Hq' & E)%fm_target_composite; [|done..].
    apply aux_target_Some in Hq as (Hr & Hm & _), Hq' as (Hr' & Hm' & _).
    apply composite_inj in E as [<- <-]; [|exact (moved_no_nul _ _ Hp Hm)|exact (moved_no_nul _ _ Hp' Hm')]. f_equal. by eapply moved_inj.
  - intros key t (p & k & Hp & ->)%Hkeys (q & Hq & ->)%fm_target_composite; [|done].
    pose proof (ma_once _ _ (aux_apart {[ (p, k) := "" ]}) (p, k) (q, k)) as Ho.
    apply fm_target_None; [apply aux_target_Some in Hq as (_ & Hm & _); exact (moved_no_nul _ _ Hp Hm)|].
    apply Ho; [|done]. rewrite lookup_singleton_eq. eauto.
Qed.

(** The moved tables hold the moved values. *)
Lemma moved_fm_lookup p k :
  no_nul p →
  move_map fm_target (λ _ _ v, v) fm !! fm_composite_key p k = move_map aux_target (λ _ _ v, v) aux !! (p, k).
Proof.
  intros Hp. destruct (decide (map_Forall (λ pk _, aux_target pk ≠ Some (p, k)) aux)) as [Hno|Hyes].
  - rewrite (move_map_other aux_target) by (intros pk [v Hv]; apply (Hno pk v Hv)).
    rewrite move_map_other.
    + rewrite Hfm by done. apply decide_ext. by apply fm_target_None.
    + intros key Hkey. destruct (Hkeys key Hkey) as (q & l & Hq & ->). intros (t & Ht & E)%fm_target_composite; [|done].
      pose proof Ht as (_ & Hm & _)%aux_target_Some. apply composite_inj in E as [<- <-]; [|done|exact (moved_no_nul _ _ Hq Hm)].
      rewrite Hfm in Hkey by done. destruct Hkey as [v Hv]. by apply (Hno (q, k) v Hv).
  - apply map_not_Forall in Hyes as ([q l] & v & Hv & Ht); [|intros; apply _]. apply dec_stable in Ht.
    rewrite (move_map_target aux_target _ _ (q, l) (p, k) v); [|apply aux_apart|done|done].
    assert (l = k) as -> by (by apply aux_target_Some in Ht as (_ & _ & ->)). destruct (Haux q k v Hv) as [Hq _].
    apply (move_map_target fm_target (λ _ _ v, v) fm (fm_composite_key q k) _ v); [apply fm_apart|by rewrite Hfm|].
    apply fm_target_composite; [done|]. by exists p.
Qed.

Lemma moved_fm_keys key :
  is_Some (move_map fm_target (λ _ _ v, v) fm !! key) → ∃ p k, no_nul p ∧ key = fm_composite_key p k.
Proof.
  intros [v Hv]. destruct (decide (map_Forall (λ k _, fm_target k ≠ Some key) fm)) as [Hno|Hyes].
  - rewrite move_map_other in Hv by (intros k [w Hw]; apply (Hno k w Hw)). case_decide; [|done]. apply Hkeys. by exists v.
  - apply map_not_Forall in Hyes as (k & w & Hw & Ht); [|intros; apply _]. apply dec_stable in Ht.
    destruct (Hkeys k ltac:(eauto)) as (p & l & Hp & ->). apply fm_target_composite in Ht as (q & Hq & ->); [|done].
    exists q, l. split; [|done]. apply aux_target_Some in Hq as (_ & Hm & _). exact (moved_no_nul _ _ Hp Hm).
Qed.

Lemma moved_aux_ok p k v : move_map aux_target (λ _ _ v, v) aux !! (p, k) = Some v → no_nul p ∧ is_utf8 v = true.
Proof.
  intros Hv. destruct (decide (map_Forall (λ pk _, aux_target pk ≠ Some (p, k)) aux)) as [Hno|Hyes].
  - rewrite move_map_other in Hv by (intros pk [w Hw]; apply (Hno pk w Hw)). case_decide; [|done]. by apply (Haux p k).
  - apply map_not_Forall in Hyes as ([q l] & w & Hw & Ht); [|intros; apply _]. apply dec_stable in Ht.
    rewrite (move_map_target aux_target _ _ (q, l) (p, k) w) in Hv; [|apply aux_apart|done|done]. injection Hv as <-.
    destruct (Haux q l w Hw) as [Hq Hu]. split; [|done]. apply aux_target_Some in Ht as (_ & Hm & _). exact (moved_no_nul _ _ Hq Hm).
Qed.

Lemma elem_of_fm_moves p q b key t v :
  (key, t, v) ∈ fm_moves fm (p, q, b) ↔
  ∃ k, key = fm_composite_key p k ∧ t = fm_composite_key q k ∧ fm !! key = Some v.
Proof.
  unfold fm_moves. rewrite list_elem_of_fmap.
  assert (∀ k, strip_prefix (fm_composite_key p "") (fm_composite_key p k) = Some k) as Hs.
  { intros k. apply strip_prefix_Some. unfold fm_composite_key. by rewrite <-sapp_assoc. }
  split.
  - intros ([key' v'] & E & [[k ->] Hv]%elem_of_fm_range). cbn [fst snd] in E. rewrite Hs in E. injection E as -> -> ->. by exists k.
  - intros (k & -> & -> & Hv). exists (fm_composite_key p k, v). cbn [fst snd]. rewrite Hs. split; [done|].
    apply elem_of_fm_range. split; [by exists k|done].
Qed.

Lemma fm_moves_NoDup l :
  NoDup l.*1.*1 → (∀ x, x ∈ l → no_nul x.1.1) → NoDup (l ≫= fm_moves fm).*1.*1.
Proof.
  induction l as [|[[p q] b] l IH]; intros Hn Hl; [constructor|]. cbn [fmap list_fmap fst] in Hn. apply NoDup_cons in Hn as [Hp Hn].
  cbn [mbind list_bind]. rewrite !fmap_app. apply NoDup_app. split_and!.
  - unfold fm_moves. rewrite <-!list_fmap_compose. rewrite fm_range_scan, scan_prefix_filter.
    eapply sublist_NoDup; [apply (entries_NoDup fm)|]. apply fmap_sublist, sublist_filter.
  - rewrite <-!list_fmap_compose. intros key ([[key1 t1] v1] & -> & (k & -> & _ & _)%elem_of_fm_moves)%list_elem_of_fmap.
    intros ([[key2 t2] v2] & E & ([[p2 q2] b2] & (k2 & -> & _ & _)%elem_of_fm_moves & H2)%list_elem_of_bind)%list_elem_of_fmap.
    cbn in E. apply composite_inj in E as [-> _]; [|apply (Hl (p, q, b)); by left|apply (Hl (p2, q2, b2)); by right].
    apply Hp. rewrite <-list_fmap_compose. apply list_elem_of_fmap. by exists (p2, q2, b2).
  - apply IH; [done|]. intros x Hx. apply Hl. by right.
Qed.

Lemma move_fm_map :
  move_fm (to_rewrite old new (serialize_metadata <$> rows) ≫= fm_moves fm) fm = move_map fm_target (λ _ _ v, v) fm.
Proof.
  assert (∀ k t b, (k, t, b) ∈ to_rewrite old new (serialize_metadata <$> rows) → is_Some (rows !! k)) as Hrow.
  { intros k t b [_ Hb]%elem_of_to_rewrite; [|done]. rewrite lookup_fmap in Hb. destruct (rows !! k); [eauto|done]. }
  apply foldl_move; [apply fm_apart|apply fm_moves_NoDup; [by apply to_rewrite_NoDup|]|].
  - intros [[k t] b] Hx. apply row_no_nul. by eapply Hrow.
  - intros key t v. rewrite list_elem_of_bind. split.
    + intros ([[p q] b] & (k & -> & -> & Hv)%elem_of_fm_moves & Hin). pose proof (Hrow _ _ _ Hin) as Hp.
      apply elem_of_to_rewrite in Hin as [Hm _]; [|done]. split; [|eauto].
      apply fm_target_composite; [by apply row_no_nul|]. exists q. split; [|done]. by apply aux_target_Some.
    + intros (Ht & w & Hw & ->). destruct (Hkeys key ltac:(eauto)) as (p & k & Hp & ->).
      apply fm_target_composite in Ht as (q & (Hr & Hm & _)%aux_target_Some & ->); [|done]. destruct Hr as [m Hr].
      exists (p, q, serialize_metadata m). split; [apply elem_of_fm_moves; by exists k|].
      apply elem_of_to_rewrite; [done|]. split; [done|]. by rewrite lookup_fmap, Hr.
Qed.
End aux.

(** ** The rename *)

Lemma tables_rename old new is_pas meta fm a :
  tables meta fm (sp_rows a) (sp_aux a) → rename_ok old new →
  let fm0 := drop_fm new fm in let a' := spec_rename old new is_pas a in
  tables (serialize_metadata <$> sp_rows a') (move_fm (to_rewrite old new meta ≫= fm_moves fm0) fm0) (sp_rows a') (sp_aux a').
Proof.
  intros Ht Hok fm0 a'. destruct (tables_drop_fm _ _ _ _ new Ht (ro_nul _ _ Hok)) as [H1 H2 H3 H4 H5].
  fold fm0 in H3, H4. rewrite H1. rewrite (move_fm_map old new (sp_rows a) Hok H2 fm0 H4).
  cbn [spec_rename sp_rows sp_aux a']. split; [done|by apply move_map_rows|..].
  - intros p k Hp. by apply moved_fm_lookup.
  - intros key. by apply moved_fm_keys.
  - intros p k v. by apply moved_aux_ok.
Qed.

(** The cache without the rows of either subtree. *)
Definition rename_cache (old new : string) (cache : gmap string FileMetadata) : gmap string FileMetadata :=
  filter (λ kv, starts_with (dir_of new) kv.1 = false) (delete new
    (filter (λ kv, starts_with (dir_of old) kv.1 = false) (delete old cache))).

Lemma rename_cache_ok old new is_pas cache rows :
  rename_ok old new → cache ⊆ rows →
  rename_cache old new cache ⊆ move_map (moved_to old new) (renamed is_pas) rows.
Proof.
  intros Hok Hc. apply map_subseteq_spec. intros k m. unfold rename_cache.
  rewrite (dir_trimmed old), (dir_trimmed new) by apply Hok.
  intros [Hk Hnew]%map_lookup_filter_Some. apply lookup_delete_Some in Hk as [Hkn Hk].
  apply map_lookup_filter_Some in Hk as [Hk Hold]. apply lookup_delete_Some in Hk as [Hko Hk]. cbn in Hnew, Hold.
  apply (lookup_weaken _ rows) in Hk; [|done].
  rewrite move_map_other; [rewrite decide_True; [done|]|].
  - apply eq_None_not_Some. intros [t [[-> _]|(r & -> & _)]%moved_to_Some]; [done|].
    assert (starts_with (old +:+ "/") (old +:+ String "/" r) = true) by (apply starts_with_true; exists r; by rewrite <-sapp_assoc). congruence.
  - intros src _ [[_ ->]|(r & _ & ->)]%moved_to_Some; [done|].
    assert (starts_with (new +:+ "/") (new +:+ String "/" r) = true) by (apply starts_with_true; exists r; by rewrite <-sapp_assoc). congruence.
Qed.

Lemma rename_refines s a old new is_pas :
  refines s a → rename_ok old new →
  ∃ s', ls_answer (λ _, AnUnit) (local_rename_path old new is_pas) s = Some ((spec_exec (LsRename old new is_pas) a).1, s') ∧
    refines s' (spec_exec (LsRename old new is_pas) a).2.
Proof.
  intros Href Hok. unfold ls_answer, local_rename_path. cbn [spec_exec]. case_decide as Hne; [by exists s|].
  pose proof (rf_tables _ _ Href) as Ht. rewrite op_bind_assoc, (op_bind _ _ s s s) by done. rewrite op_bind_assoc.
  cbv zeta. pose proof (rename_rows_moved old new is_pas (sp_rows a) s Hok (tb_rows _ _ _ _ Ht)) as Em.
  rewrite <-(tb_meta _ _ _ _ Ht) in Em. rewrite (op_bind _ _ _ _ _ Em). rewrite op_bind_assoc.
  apply (commit_refines s a (spec_rename old new is_pas a)); [done|by apply tables_rename|].
  intros commits. eexists. split; [done|]. by apply rename_cache_ok; [|apply Href].
Qed.

(** ** The other writes *)

Lemma put_refines s a p m :
  refines s a → row_ok p m →
  ∃ s', ls_answer (λ _, AnUnit) (local_put p m) s = Some ((spec_exec (LsPut p m) a).1, s') ∧ refines s' (spec_exec (LsPut p m) a).2.
Proof.
  intros Href Hm. unfold ls_answer, local_put. rewrite op_bind_assoc, (op_bind _ _ s s s) by done. rewrite op_bind_assoc.
  apply commit_refines; [done|apply tables_insert; [apply Href|done]|].
  intros commits. eexists. split; [done|]. cbn. apply insert_mono, Href.
Qed.

Lemma delete_refines s a p :
  refines s a → no_nul p →
  ∃ s', ls_answer AnBool (local_delete p) s = Some ((spec_exec (LsDelete p) a).1, s') ∧ refines s' (spec_exec (LsDelete p) a).2.
Proof.
  intros Href Hp. unfold ls_answer, local_delete. rewrite op_bind_assoc.
  set (s1 := mkLocal (ls_meta s) (ls_fm s) (ls_schema s) (delete p (ls_cache s)) (ls_commits s)).
  assert (refines s1 a) as Href1.
  { destruct Href as [Ht Hc Hk]. split; [done| |done]. cbn. etrans; [apply delete_subseteq|done]. }
  rewrite (op_bind _ _ s () s1) by done. rewrite op_bind_assoc, (op_bind _ _ s1 s1 s1) by done. rewrite op_bind_assoc.
  cbn [spec_exec]. assert (is_Some (sp_rows a !! p) ↔ is_Some (ls_meta s1 !! p)) as E.
  { rewrite (tb_meta _ _ _ _ (rf_tables _ _ Href1)), lookup_fmap. by rewrite fmap_is_Some. }
  rewrite (bool_decide_ext _ _ E).
  apply (commit_refines s1 a (mkSpec (delete p (sp_rows a)) (filter (λ x, x.1.1 ≠ p) (sp_aux a)) (sp_commits a))); [done| |].
  - apply tables_drop_fm; [|done]. apply tables_delete, Href1.
  - intros commits. eexists. split; [done|]. cbn. apply delete_mono, Href.
Qed.

Lemma put_if_refines s a m expected :
  refines s a → row_ok (md_path m) m →
  ∃ s', ls_answer AnPutIf (local_put_if_version m expected) s = Some ((spec_exec (LsPutIf m expected) a).1, s') ∧
    refines s' (spec_exec (LsPutIf m expected) a).2.
Proof.
  intros Href Hm. pose proof (rf_tables _ _ Href) as Ht. unfold ls_answer, local_put_if_version. cbv zeta.
  rewrite op_bind_assoc, (op_bind _ _ s s s) by done. rewrite op_bind_assoc.
  rewrite (op_bind _ _ s (default 0%N (md_version <$> sp_rows a !! md_path m)) s).
  2:{ rewrite (tb_meta _ _ _ _ Ht), lookup_fmap. destruct (sp_rows a !! md_path m) as [c|] eqn:Ec; [|done]. cbn [fmap option_fmap option_map].
      by rewrite (op_bind _ _ _ _ _ (decode_row_ok _ c _ s (tb_rows _ _ _ _ Ht) Ec)). }
  cbn [spec_exec]. case_decide.
  - rewrite op_bind_assoc. apply commit_refines; [done|by apply tables_insert|].
    intros commits. eexists. split; [done|]. cbn. apply insert_mono, Href.
  - rewrite op_bind_assoc. apply commit_refines; [done|done|]. intros commits. eexists. split; [done|apply Href].
Qed.

Lemma set_aux_refines s a p k v :
  refines s a → no_nul p → is_utf8 v = true →
  ∃ s', ls_answer (λ _, AnUnit) (set_file_metadata p k v) s = Some ((spec_exec (LsSetAux p k v) a).1, s') ∧
    refines s' (spec_exec (LsSetAux p k v) a).2.
Proof.
  intros Href Hp Hv. unfold ls_answer, set_file_metadata. rewrite op_bind_assoc, (op_bind _ _ s s s) by done.
  apply (commit_refines s a (mkSpec (sp_rows a) (<[(p, k) := v]> (sp_aux a)) (sp_commits a))); [done| |].
  - apply tables_set_aux; [apply Href|done|done].
  - intros commits. eexists. split; [done|apply Href].
Qed.

Lemma get_aux_refines s a p k :
  refines s a → no_nul p → ls_answer AnValue (get_file_metadata p k) s = Some (Ok (AnValue (sp_aux a !! (p, k))), s).
Proof.
  intros Href Hp. pose proof (rf_tables _ _ Href) as Ht. unfold ls_answer, get_file_metadata.
  rewrite op_bind_assoc, (op_bind _ _ s s s) by done. rewrite (tb_fm _ _ _ _ Ht) by done.
  destruct (sp_aux a !! (p, k)) as [v|] eqn:E; [|done]. destruct (tb_aux _ _ _ _ Ht p k v E) as [_ Hv].
  unfold from_utf8. by rewrite Hv.
Qed.

(** ** Batches *)

Lemma tables_insert_rows items meta fm rows aux :
  tables meta fm rows aux → Forall (λ x, row_ok x.1 x.2) items →
  tables (insert_rows items meta) fm (foldl (λ t x, <[x.1 := x.2]> t) rows items) aux.
Proof.
  intros Ht Hi. revert meta rows Ht. induction Hi as [|[p m] items Hm _ IH]; intros meta rows Ht; [done|].
  cbn [insert_rows foldl fst snd]. apply IH. by apply tables_insert.
Qed.

Definition with_cache (s : LocalMetaStore) (cache : gmap string FileMetadata) : LocalMetaStore :=
  mkLocal (ls_meta s) (ls_fm s) (ls_schema s) cache (ls_commits s).

Lemma cache_puts items s :
  ∃ l, traverse (λ x, cache_put x.1 x.2) items s
    = Some (Ok l, with_cache s (foldl (λ t x, <[x.1 := x.2]> t) (ls_cache s) items)).
Proof.
  revert s. induction items as [|[p m] items IH]; intros s; [exists []; by destruct s|].
  destruct (IH (with_cache s (<[p := m]> (ls_cache s)))) as [l El]. exists (() :: l). cbn [traverse foldl fst snd].
  rewrite (op_bind _ _ s () (with_cache s (<[p := m]> (ls_cache s)))) by done. by rewrite (op_bind _ _ _ _ _ El).
Qed.

Lemma cache_removes paths s :
  ∃ l, traverse cache_remove paths s = Some (Ok l, with_cache s (foldl (λ t p, delete p t) (ls_cache s) paths)).
Proof.
  revert s. induction paths as [|p paths IH]; intros s; [exists []; by destruct s|].
  destruct (IH (with_cache s (delete p (ls_cache s)))) as [l El]. exists (() :: l). cbn [traverse foldl].
  rewrite (op_bind _ _ s () (with_cache s (delete p (ls_cache s)))) by done. by rewrite (op_bind _ _ _ _ _ El).
Qed.

Lemma foldl_insert_mono (items : list (string * FileMetadata)) (c r : gmap string FileMetadata) :
  c ⊆ r → foldl (λ t x, <[x.1 := x.2]> t) c items ⊆ foldl (λ t x, <[x.1 := x.2]> t) r items.
Proof. revert c r. induction items as [|x items IH]; intros c r H; [done|]. cbn. apply IH. by apply insert_mono. Qed.

Lemma foldl_delete_mono (paths : list string) (c r : gmap string FileMetadata) :
  c ⊆ r → foldl (λ t p, delete p t) c paths ⊆ foldl (λ t p, delete p t) r paths.
Proof. revert c r. induction paths as [|x paths IH]; intros c r H; [done|]. cbn. apply IH. by apply delete_mono. Qed.

Lemma foldl_delete_subset (paths : list string) (c : gmap string FileMetadata) : foldl (λ t p, delete p t) c paths ⊆ c.
Proof. revert c. induction paths as [|x paths IH]; intros c; [done|]. cbn. etrans; [apply IH|apply delete_subseteq]. Qed.

Lemma put_batch_refines s a items :
  refines s a → Forall (λ x, row_ok x.1 x.2) items →
  ∃ s', ls_answer (λ _, AnUnit) (local_put_batch items) s = Some ((spec_exec (LsPutBatch items) a).1, s') ∧
    refines s' (spec_exec (LsPutBatch items) a).2.
Proof.
  intros Href Hi. unfold ls_answer, local_put_batch. rewrite op_bind_assoc, (op_bind _ _ s s s) by done. rewrite op_bind_assoc.
  cbn [spec_exec]. apply commit_refines; [done|by apply tables_insert_rows; [apply Href|]|]. intros commits.
  set (s1 := mkLocal _ _ _ _ _). destruct (cache_puts items s1) as [l El].
  eexists. split; [rewrite op_bind_assoc, (op_bind _ _ _ _ _ El); done|]. cbn. apply foldl_insert_mono, Href.
Qed.

Lemma remove_rows_spec paths (rows : gmap string FileMetadata) :
  remove_rows paths (serialize_metadata <$> rows)
  = (serialize_metadata <$> foldl (λ t p, delete p t) rows paths, N.of_nat (size (filter (λ kv, kv.1 ∈ paths) rows))).
Proof.
  revert rows. induction paths as [|p paths IH]; intros rows; cbn [remove_rows foldl].
  { assert (filter (λ kv : string * FileMetadata, kv.1 ∈ @nil string) rows = ∅) as ->; [|done].
    apply map_empty. intros k. apply map_lookup_filter_None. right. intros m _. apply not_elem_of_nil. }
  rewrite <-fmap_delete, IH. f_equal. rewrite lookup_fmap, (decide_ext _ (is_Some (rows !! p))) by apply fmap_is_Some.
  assert (∀ k m, k ≠ p → filter (λ kv, kv.1 ∈ p :: paths) rows !! k = Some m ↔
    filter (λ kv, kv.1 ∈ paths) (delete p rows) !! k = Some m) as Hk.
  { intros k m Hne. rewrite !map_lookup_filter_Some, lookup_delete_ne by done. cbn. rewrite elem_of_cons. naive_solver. }
  case_decide as Hp.
  - destruct Hp as [m Hm]. assert (filter (λ kv, kv.1 ∈ p :: paths) rows
      = <[p := m]> (filter (λ kv, kv.1 ∈ paths) (delete p rows))) as ->.
    { apply map_eq. intros k. destruct (decide (k = p)) as [->|Hne].
      - rewrite lookup_insert_eq. apply map_lookup_filter_Some. split; [done|by left].
      - rewrite lookup_insert_ne by done. apply option_eq. intros x. by apply Hk. }
    rewrite map_size_insert_None; [lia|]. apply map_lookup_filter_None. left. apply lookup_delete_eq.
  - do 2 f_equal. apply map_eq. intros k. apply option_eq. intros x. destruct (decide (k = p)) as [->|Hne]; [|symmetry; by apply Hk].
    rewrite !map_lookup_filter_Some, lookup_delete_eq. split; [naive_solver|]. intros [Hx _]. exfalso. eauto.
Qed.

Lemma tables_delete_rows paths meta fm rows aux :
  tables meta fm rows aux →
  tables (serialize_metadata <$> foldl (λ t p, delete p t) rows paths) fm (foldl (λ t p, delete p t) rows paths) aux.
Proof.
  intros Ht. revert meta rows Ht. induction paths as [|p paths IH]; intros meta rows Ht; cbn [foldl].
  - by rewrite <-(tb_meta _ _ _ _ Ht).
  - eapply IH. by eapply tables_delete.
Qed.

Lemma delete_batch_refines s a paths :
  refines s a →
  ∃ s', ls_answer AnCount (local_delete_batch paths) s = Some ((spec_exec (LsDeleteBatch paths) a).1, s') ∧
    refines s' (spec_exec (LsDeleteBatch paths) a).2.
Proof.
  intros Href. unfold ls_answer, local_delete_batch. rewrite op_bind_assoc.
  destruct (cache_removes paths s) as [l El]. rewrite (op_bind _ _ _ _ _ El). set (s1 := with_cache s _).
  assert (refines s1 a) as Href1.
  { destruct Href as [Ht Hc Hk]. split; [done| |done]. cbn. etrans; [apply foldl_delete_subset|done]. }
  rewrite op_bind_assoc, (op_bind _ _ s1 s1 s1) by done. rewrite (tb_meta _ _ _ _ (rf_tables _ _ Href1)), remove_rows_spec.
  rewrite op_bind_assoc. cbn [spec_exec]. apply commit_refines; [done|eapply tables_delete_rows, Href1|].
  intros commits. eexists. split; [done|]. cbn. apply foldl_delete_mono, Href.
Qed.

(** ** All operations *)

(** What callers pass: rows with numbers of their widths, paths without NUL,
    prefixes that end in a one-byte character, renames of paths apart. *)
Definition op_ok (op : LsOp) : Prop :=
  match op with
  | LsGet _ | LsExists _ | LsDeleteBatch _ | LsGetBatch _ => True
  | LsPut p m => row_ok p m
  | LsDelete p | LsGetAux p _ => no_nul p
  | LsList prefix => prefix = "" ∨ plain_end prefix
  | LsPutBatch items => Forall (λ x, row_ok x.1 x.2) items
  | LsPutIf m _ => row_ok (md_path m) m
  | LsRename old new _ => rename_ok old new
  | LsSetAux p _ v => no_nul p ∧ is_utf8 v = true
  end.

Lemma exec_refines s a op :
  refines s a → op_ok op →
  ∃ s', local_exec op s = Some ((spec_exec op a).1, s') ∧ refines s' (spec_exec op a).2.
Proof.
  intros Href Hop. destruct op as [p|p m|p|prefix|p|items|paths|paths|m e|old new b|p k v|p k]; cbn [local_exec].
  - destruct (get_refines s a p Href) as (s' & E & Hr). exists s'. split; [|done]. unfold ls_answer. by rewrite (op_bind _ _ _ _ _ E).
  - by apply put_refines.
  - by apply delete_refines.
  - exists s. split; [|done]. unfold ls_answer. by rewrite (op_bind _ _ _ _ _ (list_refines s a prefix Href Hop)).
  - exists s. split; [|done]. unfold ls_answer, local_exists. rewrite op_bind_assoc, (op_bind _ _ s s s) by done.
    rewrite (op_bind _ _ s (bool_decide (is_Some (sp_rows a !! p))) s); [done|].
    change (Some (Ok (E := MetaStoreError) (bool_decide (is_Some (ls_meta s !! p))), s) = Some (Ok (bool_decide (is_Some (sp_rows a !! p))), s)).
    do 3 f_equal. apply bool_decide_ext. rewrite (tb_meta _ _ _ _ (rf_tables _ _ Href)), lookup_fmap. by rewrite fmap_is_Some.
  - by apply put_batch_refines.
  - by apply delete_batch_refines.
  - destruct (batch_refines a paths s Href) as (s' & E & Hr). exists s'. split; [|done]. unfold ls_answer, local_get_batch.
    rewrite op_bind_assoc, (op_bind _ _ s s s) by done. rewrite (tb_meta _ _ _ _ (rf_tables _ _ Href)).
    by rewrite (op_bind _ _ _ _ _ E).
  - by apply put_if_refines.
  - by apply rename_refines.
  - destruct Hop. by apply set_aux_refines.
  - exists s. split; [|done]. by apply get_aux_refines.
Qed.

(** C39: The local metadata store is a map: in every run of reads, writes, batches,
    conditional writes, subtree renames and auxiliary values, with the cache
    warm or cold and any of the commits failing, it never panics and every answer
    is the one of a map from paths to rows; an operation whose commit fails
    reports the error and leaves no trace, in the tables or in the cache. *)
Theorem local_store_refines s a ops
    (Hstart : refines s a) (Hops : Forall op_ok ops) :
  ∃ s', local_run ops s = Some ((spec_run ops a).1, s') ∧ refines s' (spec_run ops a).2.
Proof.
  revert s a Hstart. induction Hops as [|op ops Hop _ IH]; intros s a Href; [by exists s|].
  destruct (exec_refines s a op Href Hop) as (s1 & E1 & Hr1). cbn [local_run spec_run].
  destruct (spec_exec op a) as [r a1] eqn:Ea. cbn [fst snd] in *.
  destruct (IH s1 a1 Hr1) as (s2 & E2 & Hr2). destruct (spec_run ops a1) as [rs a2]. cbn [fst snd] in *.
  exists s2. split; [|done]. rewrite E1. cbn. by rewrite E2.
Qed.
End proofs.

Lemma local_store_refines_witness :
  let ops := [LsPut "/a" (file_row "/a" 1); LsRename "/a" "/b" false; LsDelete "/a"; LsGet "/b"; LsList "/"] in
  ∃ s', local_run (codec := small_row_codec) ops (empty_store [true; true; false])
    = Some ([Ok AnUnit; Ok AnUnit; Err IOError; Ok (AnRow (Some (file_row "/b" 1))); Ok (AnRows [file_row "/b" 1])], s').
Proof.
  destruct (local_store_refines (laws := small_row_laws) (empty_store [true; true; false]) (mkSpec ∅ ∅ [true; true; false])
    [LsPut "/a" (file_row "/a" 1); LsRename "/a" "/b" false; LsDelete "/a"; LsGet "/b"; LsList "/"]) as (s' & E & _).
  - apply empty_refines.
  - repeat (apply Forall_cons; split).
    + split; [by apply file_row_ok|done].
    + by split.
    + done.
    + exact I.
    + right. exists "", "/"%char. split; [reflexivity|by vm_compute].
    + apply Forall_nil. exact I.
  - exists s'. exact E.
Defined.
