(* ===== verification/LocalOpen.v ===== *)
(** * Opening the local metadata store

    [LocalMetaStore::from_database] of src/rust/kernel/src/core/meta_store/mod.rs
    with the decoder of the positional format that older stores are written in,
    and the proof that a migrated store holds the rows it held.  The encoder of
    that format is gone from the source; [encode_positional] writes it down as
    the comments of the decoder document it. *)

From S2P Require Import Prelude Bytes Codec Table Rename MetaStore LocalStore LocalStoreProofs LocalRefine.

(** ** The positional decoder *)

(** A read of the bytes from [pos] on: the value or an error, and the bytes
    left, since a failed read may already have moved [pos]. *)
Definition Rd (A : Type) : Type := string → option A * string.

#[local] Instance Rd_ret : MRet Rd := λ A a s, (Some a, s).
#[local] Instance Rd_bind : MBind Rd := λ A B f m s,
  match m s with (Some a, s) => f a s | (None, s) => (None, s) end.

(** [.ok().flatten()] *)
Definition ok_flatten {A} (m : Rd (option A)) : Rd (option A) := λ s,
  match m s with (Some a, s) => (Some a, s) | (None, s) => (Some None, s) end.

(** The next [n] bytes, if that many are left. *)
Definition rd_bytes (n : nat) : Rd string := λ s,
  if (n <=? String.length s)%nat then (Some (stake n s), sdrop n s) else (None, s).

Definition rd_byte : Rd N := λ s,
  match s with String a s => (Some (N_of_ascii a), s) | "" => (None, s) end.

Definition rd_u64 : Rd N := b ← rd_bytes 8; mret (le_val b).
Definition rd_u32 : Rd N := b ← rd_bytes 4; mret (le_val b).

(** The text of the next [n] bytes; an error leaves them. *)
Definition rd_text (n : nat) : Rd string := λ s,
  if (n <=? String.length s)%nat then
    match from_utf8 (stake n s) with Some v => (Some v, sdrop n s) | None => (None, s) end
  else (None, s).

Definition read_str : Rd string := len ← rd_u32; rd_text (N.to_nat len).

Definition read_opt_str : Rd (option string) :=
  flag ← rd_byte; if (flag =? 0)%N then mret None else v ← read_str; mret (Some v).

(** At the end of the record there is nothing. *)
Definition read_opt_i64 : Rd (option Z) := λ s,
  match s with
  | "" => (Some None, s)
  | String a s =>
      if (N_of_ascii a =? 0)%N then (Some None, s)
      else (v ← rd_u64; mret (Some (wrap_i64 (Z.of_N v)))) s
  end.

(** The fields behind the tag; the generation is there from version 4 on. *)
Definition read_record (tag : N) : Rd FileMetadata :=
  path ← read_str;
  size ← rd_u64;
  content_id ← read_opt_str;
  version ← rd_u32;
  entry_type ← rd_byte;
  zone_id ← read_opt_str;
  mime_type ← read_opt_str;
  created_at_ms ← read_opt_i64;
  modified_at_ms ← read_opt_i64;
  last_writer_address ← ok_flatten read_opt_str;
  target_zone_id ← ok_flatten read_opt_str;
  link_target ← ok_flatten read_opt_str;
  gen ← (if (4 <=? tag)%N then rd_u64 else mret 0%N);
  owner_id ← ok_flatten read_opt_str;
  target_subtree ← ok_flatten read_opt_str;
  mret (mkMeta path size content_id gen version entry_type zone_id mime_type created_at_ms modified_at_ms
    last_writer_address target_zone_id target_subtree link_target owner_id).

Definition decode_legacy_positional (data : string) : option FileMetadata :=
  match data with
  | "" => None
  | String tag rest =>
      let tag := N_of_ascii tag in
      if (tag =? 3)%N || (tag =? 4)%N then fst (read_record tag rest) else None
  end.

(** ** Opening *)

Definition METADATA_FORMAT_KEY : string := "metadata_format".
Definition METADATA_FORMAT_BINCODE : N := 5.

Section open.
Context {codec : RowCodec}.

(** The rows decoded, or nothing if one of them does not decode. *)
Fixpoint decode_all (rows : list (string * string)) : option (list (string * FileMetadata)) :=
  match rows with
  | [] => Some []
  | (k, v) :: rows => m ← decode_legacy_positional v; l ← decode_all rows; Some ((k, m) :: l)
  end.

(** [None] is the error; a failed commit leaves the database as it was. *)
Definition from_database (meta fm : gmap string string) (schema : gmap string N) (commits : list bool) :
    option LocalMetaStore :=
  tabs ← match schema !! METADATA_FORMAT_KEY with
         | Some format =>
             if decide (format = METADATA_FORMAT_BINCODE) then Some (meta, schema) else None
         | None =>
             legacy ← decode_all (entries meta);
             Some (insert_rows legacy meta, <[METADATA_FORMAT_KEY := METADATA_FORMAT_BINCODE]> schema)
         end;
  match commits with
  | false :: _ => None
  | _ => Some (mkLocal tabs.1 fm tabs.2 ∅ (tail commits))
  end.
End open.

(** ** The documented format *)

Definition enc_str (s : string) : string := u32_to_le (slen s) +:+ s.
Definition enc_opt {A} (f : A → string) (o : option A) : string :=
  match o with None => String "000" "" | Some a => String "001" (f a) end.
Definition enc_i64 (z : Z) : string := le_bytes 8 (Z.to_N (z mod 18446744073709551616)).

(** The fields of the third version; the fourth appends the generation, the
    owner and then the subtree. *)
Definition enc_v3 (m : FileMetadata) : string :=
  enc_str (md_path m) +:+ le_bytes 8 (md_size m) +:+ enc_opt enc_str (md_content_id m) +:+
  le_bytes 4 (md_version m) +:+ String (ascii_of_N (md_entry_type m)) "" +:+
  enc_opt enc_str (md_zone_id m) +:+ enc_opt enc_str (md_mime_type m) +:+
  enc_opt enc_i64 (md_created_at_ms m) +:+ enc_opt enc_i64 (md_modified_at_ms m) +:+
  enc_opt enc_str (md_last_writer_address m) +:+ enc_opt enc_str (md_target_zone_id m) +:+
  enc_opt enc_str (md_link_target m).

Definition enc_tail (m : FileMetadata) : string :=
  le_bytes 8 (md_gen m) +:+ enc_opt enc_str (md_owner_id m) +:+ enc_opt enc_str (md_target_subtree m).

Definition encode_positional (m : FileMetadata) : string := String "004" (enc_v3 m +:+ enc_tail m).
Definition encode_positional_v3 (m : FileMetadata) : string := String "003" (enc_v3 m).

(** ** Reading back *)

(** [m] reads the encoding [e] as [a], whatever follows. *)
Definition reads {A} (m : Rd A) (e : string) (a : A) : Prop := ∀ rest, m (e +:+ rest) = (Some a, rest).

Lemma reads_ret {A} (a : A) : reads (mret a) "" a.
Proof. by intros rest. Qed.

Lemma reads_bind {A B} (m : Rd A) (k : A → Rd B) e e' a b :
  reads m e a → reads (k a) e' b → reads (m ≫= k) (e +:+ e') b.
Proof. intros Hm Hk rest. unfold mbind, Rd_bind. rewrite <-sapp_assoc, Hm. apply Hk. Qed.

Lemma reads_bytes n s : String.length s = n → reads (rd_bytes n) s s.
Proof.
  intros <- rest. unfold rd_bytes. rewrite slen_app. rewrite (proj2 (Nat.leb_le _ _)) by lia. by rewrite stake_app, sdrop_app.
Qed.

Lemma slen_le_bytes k v : String.length (le_bytes k v) = k.
Proof. revert v. induction k as [|k IH]; intros v; [done|]. cbn. by rewrite IH. Qed.

Lemma reads_u64 v : (v < U64_MOD)%N → reads rd_u64 (le_bytes 8 v) v.
Proof.
  intros Hv. unfold rd_u64. rewrite <-(sapp_nil_r (le_bytes 8 v)). eapply reads_bind; [by apply reads_bytes, slen_le_bytes|].
  rewrite le_val_le_bytes, N.mod_small; [apply reads_ret|]. exact Hv.
Qed.

Lemma reads_u32 v : (v < U32_MOD)%N → reads rd_u32 (le_bytes 4 v) v.
Proof.
  intros Hv. unfold rd_u32. rewrite <-(sapp_nil_r (le_bytes 4 v)). eapply reads_bind; [by apply reads_bytes, slen_le_bytes|].
  rewrite le_val_le_bytes, N.mod_small; [apply reads_ret|]. exact Hv.
Qed.

Definition text_ok (s : string) : Prop := is_utf8 s = true ∧ (slen s < U32_MOD)%N.

Lemma reads_str s : text_ok s → reads read_str (enc_str s) s.
Proof.
  intros [Hu Hl]. unfold read_str, enc_str. eapply reads_bind; [by apply reads_u32|]. intros rest. unfold rd_text, slen.
  rewrite Nat2N.id, slen_app, (proj2 (Nat.leb_le _ _)) by lia. rewrite stake_app, sdrop_app. unfold from_utf8. by rewrite Hu.
Qed.

Definition opt_ok (o : option string) : Prop := ∀ s, o = Some s → text_ok s.

Lemma reads_byte n : (n < 256)%N → reads rd_byte (String (ascii_of_N n) "") n.
Proof. intros Hn rest. rewrite sapp_cons. unfold rd_byte. by rewrite N_ascii_embedding. Qed.

Lemma reads_opt_str o : opt_ok o → reads read_opt_str (enc_opt enc_str o) o.
Proof.
  intros Ho. unfold read_opt_str. destruct o as [s|]; cbn [enc_opt].
  - change (String "001" (enc_str s)) with (String (ascii_of_N 1) "" +:+ enc_str s).
    eapply reads_bind; [by apply reads_byte|]. cbn [N.eqb]. rewrite <-(sapp_nil_r (enc_str s)).
    eapply reads_bind; [apply reads_str; by apply Ho|apply reads_ret].
  - change (String "000" "") with (String (ascii_of_N 0) "" +:+ ""). eapply reads_bind; [by apply reads_byte|apply reads_ret].
Qed.

Lemma reads_ok_flatten {A} (m : Rd (option A)) e a : reads m e a → reads (ok_flatten m) e a.
Proof. intros H rest. unfold ok_flatten. by rewrite H. Qed.

Lemma reads_opt_i64 o : (∀ z, o = Some z → - I64_MAX - 1 ≤ z ≤ I64_MAX)%Z → reads read_opt_i64 (enc_opt enc_i64 o) o.
Proof.
  intros Ho rest. destruct o as [z|]; [|done]. cbn [enc_opt]. rewrite sapp_cons. cbn [read_opt_i64].
  change (N_of_ascii "001" =? 0)%N with false. cbv iota. specialize (Ho z eq_refl).
  pose proof (Z.mod_pos_bound z 18446744073709551616 ltac:(lia)) as Hm.
  assert (reads (v ← rd_u64; mret (Some (wrap_i64 (Z.of_N v)))) (enc_i64 z +:+ "") (Some z)) as Hr.
  { eapply reads_bind; [apply reads_u64; unfold U64_MOD; lia|]. rewrite Z2N.id by lia.
    assert (wrap_i64 (z mod 18446744073709551616) = z) as ->; [|apply reads_ret].
    rewrite <-(wrap_i64_small z) at 2 by (unfold I64_MAX in *; lia). unfold wrap_i64. by rewrite Zmod_mod. }
  specialize (Hr rest). by rewrite sapp_nil_r in Hr.
Qed.

(** Rows the format holds: numbers of their widths, texts in UTF-8. *)
Record positional_ok (m : FileMetadata) : Prop := {
  po_range : row_in_range m;
  po_path : text_ok (md_path m);
  po_opts : Forall opt_ok [md_content_id m; md_zone_id m; md_mime_type m; md_last_writer_address m;
    md_target_zone_id m; md_link_target m; md_owner_id m; md_target_subtree m] }.

Lemma reads_step {A B} (m : Rd A) (k : A → Rd B) e a rest : reads m e a → (m ≫= k) (e +:+ rest) = k a rest.
Proof. intros Hm. unfold mbind, Rd_bind. by rewrite Hm. Qed.

(** One field after the other. *)
Ltac read_fields :=
  repeat (eapply reads_bind;
    [first [by apply reads_str|by apply reads_u64|by apply reads_u32|by apply reads_byte|by apply reads_opt_i64
           |by apply reads_opt_str|by apply reads_ok_flatten, reads_opt_str]|]).

Lemma positional_roundtrip m : positional_ok m → decode_legacy_positional (encode_positional m) = Some m.
Proof.
  intros [(Hs & Hg & Hv & Ht & Hc & Hm) Hp Ho]. repeat (apply Forall_cons in Ho as [? Ho]).
  assert (reads (read_record 4) ((enc_v3 m +:+ enc_tail m) +:+ "") m) as Hr.
  { unfold enc_v3, enc_tail, read_record. rewrite <-!sapp_assoc. read_fields. destruct m. apply reads_ret. }
  specialize (Hr ""). rewrite !sapp_nil_r in Hr. unfold decode_legacy_positional, encode_positional.
  change (fst (read_record 4 (enc_v3 m +:+ enc_tail m)) = Some m). by rewrite Hr.
Qed.

(** A record of the third version reads as one without generation, owner and
    subtree. *)
Lemma positional_v3 m :
  positional_ok m → decode_legacy_positional (encode_positional_v3 m)
    = Some (mkMeta (md_path m) (md_size m) (md_content_id m) 0 (md_version m) (md_entry_type m) (md_zone_id m) (md_mime_type m)
        (md_created_at_ms m) (md_modified_at_ms m) (md_last_writer_address m) (md_target_zone_id m) None (md_link_target m) None).
Proof.
  intros [(Hs & Hg & Hv & Ht & Hc & Hm) Hp Ho]. repeat (apply Forall_cons in Ho as [? Ho]).
  set (m3 := mkMeta _ _ _ _ _ _ _ _ _ _ _ _ _ _ _).
  change (fst (read_record 3 (enc_v3 m)) = Some m3). unfold enc_v3, read_record.
  rewrite <-(sapp_nil_r (enc_opt enc_str (md_link_target m))).
  repeat (erewrite reads_step; [|first [by apply reads_str|by apply reads_u64|by apply reads_u32|by apply reads_byte
    |by apply reads_opt_i64|by apply reads_opt_str|by apply reads_ok_flatten, reads_opt_str]]).
  done.
Qed.

(** ** The opened store *)

Section opened.
Context {codec : RowCodec} {laws : RowLaws}.

Lemma decode_all_ok (l : list (string * FileMetadata)) :
  Forall (λ x, positional_ok x.2) l → decode_all (prod_map id encode_positional <$> l) = Some l.
Proof.
  induction 1 as [|[k m] l Hm _ IH]; [done|]. cbn [fmap list_fmap prod_map decode_all fst snd].
  rewrite positional_roundtrip by done. cbn. by rewrite IH.
Qed.

Lemma insert_rows_lookup l (meta : gmap string string) k :
  NoDup l.*1 → insert_rows l meta !! k = match (list_to_map l : gmap string FileMetadata) !! k with Some m => Some (serialize_metadata m) | None => meta !! k end.
Proof.
  revert meta. induction l as [|[p m] l IH]; intros meta Hn; [done|]. cbn [fmap list_fmap fst] in Hn. apply NoDup_cons in Hn as [Hp Hn].
  cbn [insert_rows foldl list_to_map foldr uncurry fst snd]. change (foldl _ ?x l) with (insert_rows l x). rewrite IH by done.
  destruct (decide (p = k)) as [->|Hne].
  - rewrite lookup_insert_eq. rewrite (not_elem_of_list_to_map_1 l k) by done. by rewrite lookup_insert_eq.
  - by rewrite !lookup_insert_ne by done.
Qed.

Lemma insert_entries (rows : gmap string FileMetadata) :
  insert_rows (entries rows) (encode_positional <$> rows) = serialize_metadata <$> rows.
Proof.
  apply map_eq. intros k. rewrite insert_rows_lookup by apply entries_NoDup. rewrite list_to_map_entries, !lookup_fmap.
  by destruct (rows !! k).
Qed.

(** Opening a store of the positional format migrates it whole: if the commit
    succeeds the store is open and holds exactly the rows and auxiliary values it
    held, so that every later operation acts on them; opening it again changes
    nothing; and if the commit fails, opening reports an error. *)
Theorem open_migrates_rows rows fm schema aux commits
    (Hrows : map_Forall (λ k m, positional_ok m ∧ no_nul k) rows)
    (Hfm : tables (serialize_metadata <$> rows) fm rows aux)
    (Hschema : schema !! METADATA_FORMAT_KEY = None) :
  match from_database (encode_positional <$> rows) fm schema commits with
  | None => ∃ rest, commits = false :: rest
  | Some s =>
      refines s (mkSpec rows aux (tail commits)) ∧
      from_database (ls_meta s) (ls_fm s) (ls_schema s) [] = Some (mkLocal (ls_meta s) (ls_fm s) (ls_schema s) ∅ [])
  end.
Proof.
  unfold from_database at 1. rewrite Hschema, entries_fmap, decode_all_ok.
  2:{ apply Forall_forall. intros [k m] H%elem_of_entries. apply (Hrows k m H). }
  cbn [mbind option_bind fst snd]. rewrite insert_entries.
  destruct commits as [|[] rest]; cbn [tail]; [| |by exists rest];
    (split; [by split; [done|apply map_empty_subseteq|done]|]); unfold from_database; cbn [ls_schema ls_meta ls_fm];
    rewrite lookup_insert_eq; by rewrite decide_True.
Qed.
End opened.

Definition one_row : gmap string FileMetadata := {[ "/a" := file_row "/a" 1 ]}.

Lemma one_row_positional : map_Forall (λ k m, positional_ok m ∧ no_nul k) one_row.
Proof.
  apply map_Forall_singleton. split; [|done]. split; [by apply file_row_ok|by split|].
  apply Forall_forall. intros o Ho t ->. exfalso.
  repeat (apply elem_of_cons in Ho as [Ho|Ho]; [discriminate Ho|]). by apply elem_of_nil in Ho.
Qed.

Lemma one_row_tables : tables (codec := small_row_codec) (serialize_metadata (RowCodec := small_row_codec) <$> one_row) ∅ one_row ∅.
Proof.
  split; [done|apply map_Forall_singleton; split; [by apply file_row_ok|done]|done|..].
  - intros key [v Hv]. by rewrite lookup_empty in Hv.
  - intros p k v Hv. by rewrite lookup_empty in Hv.
Qed.

Lemma open_migrates_rows_witness :
  ∃ s, from_database (codec := small_row_codec) (encode_positional <$> one_row) ∅ ∅ [] = Some s ∧
    refines (codec := small_row_codec) s (mkSpec one_row ∅ []).
Proof.
  pose proof (open_migrates_rows (codec := small_row_codec) one_row ∅ ∅ ∅ [] one_row_positional one_row_tables eq_refl) as H.
  destruct (from_database (codec := small_row_codec) (encode_positional <$> one_row) ∅ ∅ []) as [s|].
  - exists s. split; [reflexivity|]. apply H.
  - by destruct H.
Defined.
