(* ===== verification/LocalCache.v ===== *)
(** * The cache of the local metadata store under concurrency

    The steps of threads that read and write a [LocalMetaStore] at the same time
    (src/rust/kernel/src/core/meta_store/mod.rs): readers share the coherence
    guard from the look at the cache to the fill, writers hold it alone from the
    first change of the cache over the commit to the last.  The rows of the table
    are taken decoded, as LocalRefine.v justifies. *)

From S2P Require Import Prelude Bytes Codec Table Rename MetaStore LocalStore LocalStoreProofs LocalRefine.

Abbreviation RowMap := (gmap string FileMetadata).

(** The operations that take the guard to write. *)
Inductive Mutation :=
  | MuPut (path : string) (m : FileMetadata)
  | MuDelete (path : string)
  | MuPutBatch (items : list (string * FileMetadata))
  | MuDeleteBatch (paths : list string)
  | MuPutIf (m : FileMetadata) (expected : N)
  | MuRename (old_path new_path : string) (is_pas : bool).

Definition op_of (mu : Mutation) : LsOp :=
  match mu with
  | MuPut p m => LsPut p m
  | MuDelete p => LsDelete p
  | MuPutBatch items => LsPutBatch items
  | MuDeleteBatch paths => LsDeleteBatch paths
  | MuPutIf m e => LsPutIf m e
  | MuRename o n b => LsRename o n b
  end.

(** The change of the cache before the transaction. *)
Definition cache_before (mu : Mutation) (cache : RowMap) : RowMap :=
  match mu with
  | MuDelete p => delete p cache
  | MuDeleteBatch paths => foldl (λ t p, delete p t) cache paths
  | _ => cache
  end.

(** The rows the transaction commits. *)
Definition rows_after (mu : Mutation) (rows : RowMap) : RowMap :=
  match mu with
  | MuPut p m => <[p := m]> rows
  | MuDelete p => delete p rows
  | MuPutBatch items => foldl (λ t x, <[x.1 := x.2]> t) rows items
  | MuDeleteBatch paths => foldl (λ t p, delete p t) rows paths
  | MuPutIf m e => if decide (default 0%N (md_version <$> rows !! md_path m) = e) then <[md_path m := m]> rows else rows
  | MuRename o n b => if decide (o = n) then rows else move_map (moved_to o n) (renamed b) rows
  end.

(** What the transaction tells the code behind it: of a conditional write,
    whether it took place. *)
Definition takes_place (mu : Mutation) (rows : RowMap) : bool :=
  match mu with
  | MuPutIf m e => bool_decide (default 0%N (md_version <$> rows !! md_path m) = e)
  | _ => true
  end.

(** The change of the cache behind the commit. *)
Definition cache_after (mu : Mutation) (took : bool) (cache : RowMap) : RowMap :=
  match mu with
  | MuPut p m => <[p := m]> cache
  | MuPutBatch items => foldl (λ t x, <[x.1 := x.2]> t) cache items
  | MuPutIf m _ => if took then <[md_path m := m]> cache else cache
  | MuRename o n _ => if decide (o = n) then cache else rename_cache o n cache
  | MuDelete _ | MuDeleteBatch _ => cache
  end.

(** ** Threads *)

Inductive Thread :=
  | GetWait (p : string)
  | GetHeld (p : string)
  | GetMiss (p : string)
  | GetFill (p : string) (m : FileMetadata)
  | GetDone (p : string) (r : option FileMetadata)
  | MutWait (mu : Mutation)
  | MutHeld (mu : Mutation)
  | MutReady (mu : Mutation)
  | MutCommitted (mu : Mutation) (took : bool)
  | MutDone (mu : Mutation) (ok : bool).

Definition reading (t : Thread) : bool :=
  match t with GetHeld _ | GetMiss _ | GetFill _ _ => true | _ => false end.
Definition writing (t : Thread) : bool :=
  match t with MutHeld _ | MutReady _ | MutCommitted _ _ => true | _ => false end.

Record Shared := mkShared { sh_rows : RowMap; sh_cache : RowMap; sh_threads : list Thread }.

(** The read-write lock. *)
Definition no_writer (ts : list Thread) : Prop := Forall (λ t, writing t = false) ts.
Definition no_holder (ts : list Thread) : Prop := Forall (λ t, writing t = false ∧ reading t = false) ts.

Inductive cache_step : Shared → Shared → Prop :=
  | cs_get_lock rows cache ts i p :
      ts !! i = Some (GetWait p) → no_writer ts →
      cache_step (mkShared rows cache ts) (mkShared rows cache (<[i := GetHeld p]> ts))
  | cs_get_hit rows cache ts i p m :
      ts !! i = Some (GetHeld p) → cache !! p = Some m →
      cache_step (mkShared rows cache ts) (mkShared rows cache (<[i := GetDone p (Some m)]> ts))
  | cs_get_miss rows cache ts i p :
      ts !! i = Some (GetHeld p) → cache !! p = None →
      cache_step (mkShared rows cache ts) (mkShared rows cache (<[i := GetMiss p]> ts))
  | cs_get_row rows cache ts i p m :
      ts !! i = Some (GetMiss p) → rows !! p = Some m →
      cache_step (mkShared rows cache ts) (mkShared rows cache (<[i := GetFill p m]> ts))
  | cs_get_none rows cache ts i p :
      ts !! i = Some (GetMiss p) → rows !! p = None →
      cache_step (mkShared rows cache ts) (mkShared rows cache (<[i := GetDone p None]> ts))
  | cs_get_fill rows cache ts i p m :
      ts !! i = Some (GetFill p m) →
      cache_step (mkShared rows cache ts) (mkShared rows (<[p := m]> cache) (<[i := GetDone p (Some m)]> ts))
  | cs_mut_lock rows cache ts i mu :
      ts !! i = Some (MutWait mu) → no_holder ts →
      cache_step (mkShared rows cache ts) (mkShared rows cache (<[i := MutHeld mu]> ts))
  | cs_mut_before rows cache ts i mu :
      ts !! i = Some (MutHeld mu) →
      cache_step (mkShared rows cache ts) (mkShared rows (cache_before mu cache) (<[i := MutReady mu]> ts))
  | cs_mut_commit rows cache ts i mu :
      ts !! i = Some (MutReady mu) →
      cache_step (mkShared rows cache ts)
        (mkShared (rows_after mu rows) cache (<[i := MutCommitted mu (takes_place mu rows)]> ts))
  | cs_mut_fail rows cache ts i mu :
      ts !! i = Some (MutReady mu) →
      cache_step (mkShared rows cache ts) (mkShared rows cache (<[i := MutDone mu false]> ts))
  | cs_mut_after rows cache ts i mu took :
      ts !! i = Some (MutCommitted mu took) →
      cache_step (mkShared rows cache ts) (mkShared rows (cache_after mu took cache) (<[i := MutDone mu true]> ts)).

(** ** Sequentially, these are the operations of the store *)

Definition mutation_ok (mu : Mutation) : Prop :=
  match mu with MuRename o n _ => rename_ok o n | _ => True end.

Lemma rows_after_spec mu a :
  sp_commits a = [] → (spec_exec (op_of mu) a).2.(sp_rows) = rows_after mu (sp_rows a).
Proof.
  intros Hc. destruct mu; cbn; unfold spec_commit; rewrite ?Hc; try done.
  - case_decide; by rewrite ?Hc.
  - case_decide; by rewrite ?Hc.
Qed.

(** What a writer does to the cache keeps it within the rows. *)
Lemma before_coherent mu cache rows : cache ⊆ rows → cache_before mu cache ⊆ rows.
Proof.
  intros H. destruct mu; cbn; try done; (etrans; [|exact H]); [apply delete_subseteq|apply foldl_delete_subset].
Qed.

Lemma after_coherent mu cache rows :
  mutation_ok mu → cache ⊆ rows →
  cache_after mu (takes_place mu rows) (cache_before mu cache) ⊆ rows_after mu rows.
Proof.
  intros Hok H. destruct mu as [p m|p|items|paths|m e|o n b]; cbn.
  - by apply insert_mono.
  - by apply delete_mono.
  - by apply foldl_insert_mono.
  - by apply foldl_delete_mono.
  - case_bool_decide; [rewrite decide_True by done; by apply insert_mono|by rewrite decide_False].
  - case_decide; [done|]. by apply rename_cache_ok.
Qed.

(** ** The invariant *)

Definition thread_ok (t : Thread) : Prop :=
  match t with
  | MutWait mu | MutHeld mu | MutReady mu | MutCommitted mu _ => mutation_ok mu
  | _ => True
  end.

Definition holds (t : Thread) : bool := writing t || reading t.

(** Where the one writer is. *)
Inductive writer_at (rows cache : RowMap) : Thread → Prop :=
  | wa_held mu : cache ⊆ rows → writer_at rows cache (MutHeld mu)
  | wa_ready mu c : c ⊆ rows → cache = cache_before mu c → writer_at rows cache (MutReady mu)
  | wa_committed mu took : cache_after mu took cache ⊆ rows → writer_at rows cache (MutCommitted mu took).

(** Either no one writes, and cache and pending fills agree with the rows, or one
    thread holds the guard alone. *)
Inductive phase (s : Shared) : Prop :=
  | ph_quiet :
      no_writer (sh_threads s) → sh_cache s ⊆ sh_rows s →
      (∀ i p m, sh_threads s !! i = Some (GetFill p m) → sh_rows s !! p = Some m) → phase s
  | ph_busy i t :
      sh_threads s !! i = Some t → writer_at (sh_rows s) (sh_cache s) t →
      (∀ j u, sh_threads s !! j = Some u → holds u = true → j = i) → phase s.

Definition cache_inv (s : Shared) : Prop := Forall thread_ok (sh_threads s) ∧ phase s.

Lemma no_writer_lookup ts i t : no_writer ts → ts !! i = Some t → writing t = false.
Proof. intros H Hi. exact (proj1 (Forall_lookup _ _) H i t Hi). Qed.

Lemma no_writer_insert ts i t : no_writer ts → writing t = false → no_writer (<[i := t]> ts).
Proof. intros H Ht. by apply Forall_insert. Qed.

Lemma fills_insert (rows : RowMap) (ts : list Thread) i t :
  (∀ j p m, ts !! j = Some (GetFill p m) → rows !! p = Some m) →
  (∀ p m, t = GetFill p m → rows !! p = Some m) →
  ∀ j (p : string) (m : FileMetadata), <[i := t]> ts !! j = Some (GetFill p m) → rows !! p = Some m.
Proof. intros H Ht j p m [(_ & E & _)|[_ Hj]]%list_lookup_insert_Some; [by apply Ht|by eapply H]. Qed.

Lemma writer_writes rows cache t : writer_at rows cache t → writing t = true.
Proof. by intros []. Qed.

(** The steps while no one writes. *)
Lemma quiet_step rows cache ts s' :
  Forall thread_ok ts → no_writer ts → cache ⊆ rows →
  (∀ i p m, ts !! i = Some (GetFill p m) → rows !! p = Some m) →
  cache_step (mkShared rows cache ts) s' → phase s'.
Proof.
  intros Hok Hnw Hc Hf Hstep. inversion Hstep as
    [? ? ? i p Hi _|? ? ? i p m Hi Hm|? ? ? i p Hi Hm|? ? ? i p m Hi Hm|? ? ? i p Hi Hm|? ? ? i p m Hi
    |? ? ? i mu Hi Hno|? ? ? i mu Hi|? ? ? i mu Hi|? ? ? i mu Hi|? ? ? i mu took Hi]; subst.
  1-5: apply ph_quiet; cbn; [by apply no_writer_insert|done|apply fills_insert; [done|]; try done].
  - by intros q w [= <- <-].
  - apply ph_quiet; cbn; [by apply no_writer_insert| |by apply fills_insert]. apply insert_subseteq_l; [by eapply Hf|done].
  - apply (ph_busy _ i (MutHeld mu)); cbn.
    + apply list_lookup_insert_eq. by eapply lookup_lt_Some.
    + by apply wa_held.
    + intros j u [(-> & _)|[_ Hj]]%list_lookup_insert_Some Hu; [done|].
      destruct (proj1 (Forall_lookup _ _) Hno j u Hj) as [H1 H2]. unfold holds in Hu. by rewrite H1, H2 in Hu.
  - by apply (no_writer_lookup _ _ _ Hnw) in Hi.
  - by apply (no_writer_lookup _ _ _ Hnw) in Hi.
  - by apply (no_writer_lookup _ _ _ Hnw) in Hi.
  - by apply (no_writer_lookup _ _ _ Hnw) in Hi.
Qed.

(** The writer is gone: the others hold nothing. *)
Lemma released rows cache ts i t :
  (∀ j u, ts !! j = Some u → holds u = true → j = i) → holds t = false → cache ⊆ rows →
  phase (mkShared rows cache (<[i := t]> ts)).
Proof.
  intros Halone Ht Hc.
  assert (∀ j u, <[i := t]> ts !! j = Some u → holds u = false) as Hfree.
  { intros j u [(_ & -> & _)|[Hne Hj]]%list_lookup_insert_Some; [done|].
    destruct (holds u) eqn:E; [|done]. exfalso. by apply Hne, eq_sym, (Halone j u). }
  apply ph_quiet; cbn; [|done|].
  - apply Forall_lookup. intros j u Hj. specialize (Hfree j u Hj). unfold holds in Hfree. by apply orb_false_iff in Hfree as [? _].
  - intros j p m Hj. by specialize (Hfree j _ Hj).
Qed.

(** The writer goes on, alone. *)
Lemma goes_on rows cache ts i t :
  (i < length ts)%nat → (∀ j u, ts !! j = Some u → holds u = true → j = i) → writer_at rows cache t →
  phase (mkShared rows cache (<[i := t]> ts)).
Proof.
  intros Hlt Halone Hw. apply (ph_busy _ i t); cbn; [by apply list_lookup_insert_eq|done|].
  intros j u [(-> & _)|[_ Hj]]%list_lookup_insert_Some Hu; [done|]. by eapply Halone.
Qed.

Lemma busy_step rows cache ts i t s' :
  Forall thread_ok ts → ts !! i = Some t → writer_at rows cache t →
  (∀ j u, ts !! j = Some u → holds u = true → j = i) →
  cache_step (mkShared rows cache ts) s' → phase s'.
Proof.
  intros Hok Ht Hw Halone Hstep. pose proof (writer_writes _ _ _ Hw) as Hwr. pose proof (lookup_lt_Some _ _ _ Ht) as Hlt.
  inversion Hstep as
    [? ? ? j p Hj Hno|? ? ? j p m Hj Hm|? ? ? j p Hj Hm|? ? ? j p m Hj Hm|? ? ? j p Hj Hm|? ? ? j p m Hj
    |? ? ? j mu Hj Hno|? ? ? j mu Hj|? ? ? j mu Hj|? ? ? j mu Hj|? ? ? j mu took Hj]; subst.
  - apply (no_writer_lookup _ _ _ Hno) in Ht. congruence.
  - assert (j = i) as -> by (by eapply Halone). simplify_eq.
  - assert (j = i) as -> by (by eapply Halone). simplify_eq.
  - assert (j = i) as -> by (by eapply Halone). simplify_eq.
  - assert (j = i) as -> by (by eapply Halone). simplify_eq.
  - assert (j = i) as -> by (by eapply Halone). simplify_eq.
  - destruct (proj1 (Forall_lookup _ _) Hno i t Ht). congruence.
  - assert (j = i) as -> by (by eapply Halone). simplify_eq. inversion Hw as [? Hc| |]; subst.
    apply goes_on; [done|done|]. by apply (wa_ready _ _ mu cache).
  - assert (j = i) as -> by (by eapply Halone). simplify_eq. inversion Hw as [|? c Hc Ec|]; subst.
    apply goes_on; [done|done|]. apply wa_committed. apply after_coherent; [|done].
    exact (proj1 (Forall_lookup _ _) Hok i _ Ht).
  - assert (j = i) as -> by (by eapply Halone). simplify_eq. inversion Hw as [|? c Hc Ec|]; subst.
    apply released; [done|done|]. by apply before_coherent.
  - assert (j = i) as -> by (by eapply Halone). simplify_eq. inversion Hw as [| |? ? Hc]; subst.
    by apply released.
Qed.

Lemma thread_ok_step s s' : Forall thread_ok (sh_threads s) → cache_step s s' → Forall thread_ok (sh_threads s').
Proof.
  intros Hok Hstep.
  assert (∀ ts i t, Forall thread_ok ts → thread_ok t → Forall thread_ok (<[i := t]> ts)) as Hins by (intros; by apply Forall_insert).
  destruct Hstep as [? ? ? i ? Hi|? ? ? i ? ? Hi|? ? ? i ? Hi|? ? ? i ? ? Hi|? ? ? i ? Hi|? ? ? i ? ? Hi
    |? ? ? i mu Hi|? ? ? i mu Hi|? ? ? i mu Hi|? ? ? i mu Hi|? ? ? i mu took Hi];
    cbn in *; apply Hins; try done; exact (proj1 (Forall_lookup _ _) Hok i _ Hi).
Qed.

Lemma cache_inv_step s s' : cache_inv s → cache_step s s' → cache_inv s'.
Proof.
  intros [Hok Hph] Hstep. split; [by eapply thread_ok_step|]. destruct s as [rows cache ts]. cbn in *.
  destruct Hph as [Hnw Hc Hf|i t Ht Hw Ha]; cbn in *; [by eapply quiet_step|by eapply busy_step].
Qed.

(** Threads before their first step, over a cache within the rows. *)
Definition starting (t : Thread) : Prop :=
  match t with GetWait _ => True | MutWait mu => mutation_ok mu | _ => False end.

Lemma cache_inv_run s s' :
  sh_cache s ⊆ sh_rows s → Forall starting (sh_threads s) → rtc cache_step s s' → cache_inv s'.
Proof.
  intros Hc Hs Hr. assert (cache_inv s) as Hi.
  { split; [eapply Forall_impl; [exact Hs|]; by intros []|].
    apply ph_quiet; [eapply Forall_impl; [exact Hs|]; by intros []|done|].
    intros i p m Hi. by pose proof (proj1 (Forall_lookup _ _) Hs i _ Hi). }
  clear Hc Hs. induction Hr as [|s1 s2 s3 Hst _ IH]; [done|]. apply IH. by eapply cache_inv_step.
Qed.

(** C40: Reads through the cache are current: with any number of threads reading,
    writing, deleting and renaming at once, and commits failing at will, the
    answer a read returns is the row the table holds at that moment; and
    whenever nobody writes, the cache holds rows of the table only. *)
Theorem cached_reads_current s s1 s2 i p r
    (Hcache : sh_cache s ⊆ sh_rows s) (Hstart : Forall starting (sh_threads s))
    (Hrun : rtc cache_step s s1) (Hstep : cache_step s1 s2)
    (Hbefore : sh_threads s1 !! i ≠ Some (GetDone p r)) (Hafter : sh_threads s2 !! i = Some (GetDone p r)) :
  r = sh_rows s2 !! p ∧ (no_writer (sh_threads s2) → sh_cache s2 ⊆ sh_rows s2).
Proof.
  pose proof (cache_inv_run s s1 Hcache Hstart Hrun) as [_ Hph].
  assert (cache_inv s2) as [_ Hph2] by (apply (cache_inv_run s s2); [done|done|by eapply rtc_r]).
  split.
  - destruct s1 as [rows cache ts]. cbn in *.
    assert (∀ j t, ts !! j = Some t → reading t = true → no_writer ts ∧ cache ⊆ rows ∧
      ∀ k q m, ts !! k = Some (GetFill q m) → rows !! q = Some m) as Hquiet.
    { intros j t Hj Hrd. destruct Hph as [Hnw Hc Hf|k u Hk Hw Ha]; [done|]. cbn in *. exfalso.
      assert (j = k) as -> by (eapply Ha; [done|]; unfold holds; by rewrite Hrd, orb_true_r). simplify_eq. by destruct Hw. }
    inversion Hstep as
      [? ? ? j q Hj _|? ? ? j q m Hj Hm|? ? ? j q Hj Hm|? ? ? j q m Hj Hm|? ? ? j q Hj Hm|? ? ? j q m Hj
      |? ? ? j mu Hj Hno|? ? ? j mu Hj|? ? ? j mu Hj|? ? ? j mu Hj|? ? ? j mu took Hj]; subst; cbn in *;
      apply list_lookup_insert_Some in Hafter as [(-> & E & _)|[_ Hafter]]; try done; injection E as E1 E2; subst.
    + destruct (Hquiet i _ Hj eq_refl) as (_ & Hc & _). symmetry. by eapply lookup_weaken.
    + done.
    + destruct (Hquiet i _ Hj eq_refl) as (_ & _ & Hf). symmetry. by eapply Hf.
  - intros Hnw. destruct Hph2 as [_ Hc _|k u Hk Hw _]; [done|].
    apply (no_writer_lookup _ _ _ Hnw) in Hk. by rewrite (writer_writes _ _ _ Hw) in Hk.
Qed.

Lemma cached_reads_current_witness :
  ∃ s1 s2, rtc cache_step (mkShared {[ "/a" := file_row "/a" 1 ]} ∅ [GetWait "/a"; MutWait (MuPut "/a" (file_row "/a" 2))]) s1 ∧
    cache_step s1 s2 ∧ sh_threads s2 !! 0%nat = Some (GetDone "/a" (Some (file_row "/a" 1))) ∧
    Some (file_row "/a" 1) = sh_rows s2 !! "/a".
Proof.
  set (rows := {[ "/a" := file_row "/a" 1 ]} : RowMap). set (w := MutWait (MuPut "/a" (file_row "/a" 2))).
  exists (mkShared rows ∅ [GetFill "/a" (file_row "/a" 1); w]),
    (mkShared rows (<[ "/a" := file_row "/a" 1 ]> ∅) [GetDone "/a" (Some (file_row "/a" 1)); w]).
  assert (rtc cache_step (mkShared rows ∅ [GetWait "/a"; w]) (mkShared rows ∅ [GetFill "/a" (file_row "/a" 1); w])) as Hrun.
  { eapply rtc_l; [apply (cs_get_lock _ _ _ 0 "/a"); [reflexivity|repeat constructor]|].
    eapply rtc_l; [apply (cs_get_miss _ _ _ 0 "/a"); reflexivity|].
    eapply rtc_l; [apply (cs_get_row _ _ _ 0 "/a" (file_row "/a" 1)); reflexivity|]. apply rtc_refl. }
  assert (cache_step (mkShared rows ∅ [GetFill "/a" (file_row "/a" 1); w])
    (mkShared rows (<[ "/a" := file_row "/a" 1 ]> ∅) [GetDone "/a" (Some (file_row "/a" 1)); w])) as Hstep.
  { apply (cs_get_fill rows ∅ [GetFill "/a" (file_row "/a" 1); w] 0 "/a" (file_row "/a" 1)). reflexivity. }
  split; [exact Hrun|]. split; [exact Hstep|]. split; [reflexivity|].
  refine (proj1 (cached_reads_current (mkShared rows ∅ [GetWait "/a"; w]) _ _ 0 "/a" (Some (file_row "/a" 1)) _ _ Hrun Hstep _ eq_refl)).
  - apply map_empty_subseteq.
  - repeat constructor.
  - discriminate.
Defined.
