(* ===== verification/KernelTypes.v ===== *)
(** * Data of the kernel's system calls

    The types of src/rust/kernel/src/kernel/mod.rs (errors, requests, results),
    src/rust/contracts/src/operation_context.rs (who calls), the object store
    interface of src/rust/kernel/src/abc/object_store.rs, and the permission,
    hook and event types of src/rust/kernel/src/core/dispatch/mod.rs. *)

From S2P Require Import Prelude Bytes Codec Pipe PipeManager StreamBuf StreamManager MetaStore.

(** ** Entry types *)

Definition DT_REG : N := 0.
Definition DT_DIR : N := 1.
Definition DT_MOUNT : N := 2.
Definition DT_PIPE : N := 3.
Definition DT_STREAM : N := 4.
Definition DT_EXTERNAL_STORAGE : N := 5.
Definition DT_LINK : N := 6.

(** ** Errors *)

Inductive KernelError :=
  | EInvalidPath (m : string)
  | EFileNotFound (path : string)
  | EFileExists (m : string)
  | EIOError (m : string)
  | ETrieError (m : string)
  | EPipeFull (m : string)
  | EPipeEmpty (m : string)
  | EPipeClosed (m : string)
  | EPipeExists (m : string)
  | EPipeNotFound (m : string)
  | EStreamFull (m : string)
  | EStreamEmpty (m : string)
  | EStreamClosed (m : string)
  | EStreamExists (m : string)
  | EStreamNotFound (m : string)
  | EStreamTruncated (earliest requested : N)
  | EWouldBlock (m : string)
  | EPermissionDenied (m : string)
  | EBackendError (m : string)
  | EFederation (m : string).

(** [std::io::Error]: its kind, as far as the kernel looks at it, and its text. *)
Inductive ErrorKind := KindNotFound | KindAlreadyExists | KindOther.

Record IoError := mkIoError { io_kind : ErrorKind; io_text : string }.

Inductive StorageError :=
  | StNotFound (what : string)
  | StIOError (e : IoError)
  | StNotSupported (what : string).

#[global] Instance ErrorKind_eq_dec : EqDecision ErrorKind.
Proof. solve_decision. Defined.

(** ** Callers *)

Record OperationContext := mkContext {
  oc_user_id : string;
  oc_zone_id : string;
  oc_is_admin : bool;
  oc_agent_id : option string;
  oc_trust_domain : option string;
  oc_is_system : bool;
  oc_groups : list string;
  oc_admin_capabilities : list string;
  oc_subject_type : string;
  oc_subject_id : option string;
  oc_request_id : string;
  oc_context_zone_id : option string;
  oc_zone_perms : list (string * string);
  oc_propagates_cross_node : bool }.

Definition context_new (user_id zone_id : string) (is_admin : bool) (agent_id : option string)
    (is_system : bool) : OperationContext :=
  mkContext user_id zone_id is_admin agent_id None is_system [] [] "user" None "" None [] false.

(** [ctx.clone()] with another zone. *)
Definition in_zone (zone_id : string) (ctx : OperationContext) : OperationContext :=
  mkContext (oc_user_id ctx) zone_id (oc_is_admin ctx) (oc_agent_id ctx) (oc_trust_domain ctx)
    (oc_is_system ctx) (oc_groups ctx) (oc_admin_capabilities ctx) (oc_subject_type ctx)
    (oc_subject_id ctx) (oc_request_id ctx) (oc_context_zone_id ctx) (oc_zone_perms ctx)
    (oc_propagates_cross_node ctx).

Inductive Permission := PermRead | PermWrite | PermTraverse.

#[global] Instance Permission_eq_dec : EqDecision Permission.
Proof. solve_decision. Defined.

(** ** Hooks and events *)

Record HookIdentity := mkIdentity {
  hi_user_id : string;
  hi_zone_id : string;
  hi_agent_id : string;
  hi_is_admin : bool }.

Definition identity_of (ctx : OperationContext) : HookIdentity :=
  mkIdentity (oc_user_id ctx) (oc_zone_id ctx) (default "" (oc_agent_id ctx)) (oc_is_admin ctx).

Record WriteHookCtx := mkWriteHook {
  wh_path : string;
  wh_identity : HookIdentity;
  wh_content : string;
  wh_is_new_file : bool;
  wh_content_id : option string;
  wh_new_version : N;
  wh_size_bytes : option N }.

Inductive HookContext :=
  | HookRead (path : string) (identity : HookIdentity) (content content_id : option string)
  | HookWrite (c : WriteHookCtx)
  | HookDelete (path : string) (identity : HookIdentity)
  | HookRename (old_path new_path : string) (identity : HookIdentity) (is_directory : bool).

Definition hook_path (c : HookContext) : string :=
  match c with
  | HookRead p _ _ _ => p
  | HookWrite c => wh_path c
  | HookDelete p _ => p
  | HookRename p _ _ _ => p
  end.

Inductive FileEventType :=
  | EvFileWrite | EvFileDelete | EvFileRename | EvMetadataChange | EvDirCreate | EvDirDelete
  | EvConflictDetected | EvFileCopy | EvMount | EvUnmount | EvRemoteFetch.

(** The position of an event type in an observer's mask. *)
Definition event_bit (t : FileEventType) : N :=
  N.shiftl 1 match t with
             | EvFileWrite => 0 | EvFileDelete => 1 | EvFileRename => 2 | EvMetadataChange => 3
             | EvDirCreate => 4 | EvDirDelete => 5 | EvConflictDetected => 6 | EvFileCopy => 7
             | EvMount => 8 | EvUnmount => 9 | EvRemoteFetch => 10
             end.

(** [FileEvent] without its time stamp and its random id. *)
Record FileEvent := mkEvent {
  ev_type : FileEventType;
  ev_path : string;
  ev_zone_id : option string;
  ev_size : option N;
  ev_content_id : option string;
  ev_agent_id : option string;
  ev_user_id : option string;
  ev_remote_addr : option string;
  ev_version : option N;
  ev_gen : option N;
  ev_is_new : bool;
  ev_new_path : option string;
  ev_old_content_id : option string }.

Definition event_new (t : FileEventType) (path : string) : FileEvent :=
  mkEvent t path None None None None None None None None false None None.

(** The fields a system call sets on its event. *)
Record EventExtra := mkExtra {
  ex_size : option N;
  ex_content_id : option string;
  ex_version : option N;
  ex_gen : option N;
  ex_is_new : bool;
  ex_new_path : option string;
  ex_old_content_id : option string }.

Definition no_extra : EventExtra := mkExtra None None None None false None None.

(** ** Requests and results *)

Record ReadRequest := mkReadRequest {
  rq_path : string; rq_offset : N; rq_len : option N; rq_timeout_ms : N }.

Record WriteRequest := mkWriteRequest { wq_path : string; wq_content : string; wq_offset : N }.

Record UnlinkRequest := mkUnlinkRequest { uq_path : string; uq_recursive : bool }.

Record SysReadResult := mkReadResult {
  rd_data : option string;
  rd_post_hook_needed : bool;
  rd_content_id : option string;
  rd_gen : N;
  rd_entry_type : N;
  rd_stream_next_offset : option N }.

(** [SysReadResult::ipc] *)
Definition read_ipc (entry_type : N) (data : option string) (next : option N) : SysReadResult :=
  mkReadResult data false None 0 entry_type next.

Record SysWriteResult := mkWriteResult {
  ww_hit : bool;
  ww_content_id : option string;
  ww_post_hook_needed : bool;
  ww_version : N;
  ww_gen : N;
  ww_size : N;
  ww_is_new : bool;
  ww_old_content_id : option string;
  ww_old_size : option N;
  ww_old_version : option N;
  ww_old_modified_at_ms : option Z }.

Definition write_miss : SysWriteResult := mkWriteResult false None false 0 0 0 false None None None None.

Record SysUnlinkResult := mkUnlinkResult {
  ul_hit : bool;
  ul_entry_type : N;
  ul_post_hook_needed : bool;
  ul_path : string;
  ul_content_id : option string;
  ul_size : N }.

Record SysRenameResult := mkRenameResult {
  rn_hit : bool;
  rn_success : bool;
  rn_post_hook_needed : bool;
  rn_is_directory : bool;
  rn_old_content_id : option string;
  rn_old_size : option N;
  rn_old_version : option N;
  rn_old_modified_at_ms : option Z }.

Definition rename_miss : SysRenameResult := mkRenameResult false false false false None None None None.

Record SysMkdirResult := mkMkdirResult { mk_hit : bool; mk_post_hook_needed : bool }.

Record SysRmdirResult := mkRmdirResult { rm_hit : bool; rm_post_hook_needed : bool; rm_children_deleted : N }.

Record SysCopyResult := mkCopyResult {
  cp_hit : bool;
  cp_post_hook_needed : bool;
  cp_dst_path : string;
  cp_content_id : option string;
  cp_size : N;
  cp_version : N;
  cp_gen : N }.

Record ReaddirOpts := mkReaddirOpts { ro_recursive : bool; ro_limit : option N }.

Definition readdir_default : ReaddirOpts := mkReaddirOpts false None.

(** ** Object stores *)

Record WriteResult := mkStored { wr_content_id : string; wr_version : string; wr_size : N }.

Record BackendStat := mkBackendStat { bs_size : N; bs_is_dir : bool }.

Record ReferenceMetadata := mkReference {
  rf_size : N; rf_is_dir : bool; rf_mode : N; rf_modified_at_ms : option Z }.

(** [std::fs::Metadata] of a host file. *)
Record HostMetadata := mkHost {
  hm_device : N; hm_inode : N; hm_len : N; hm_is_dir : bool; hm_mode : N; hm_modified_at_ms : option Z }.

(** All object stores of a node and the host's file system under them: a state
    [W] the methods of the store named by a number act on.  Reads leave it as it
    is. *)
Class ObjectStores (W : Type) := {
  os_write_content : N → string → string → OperationContext → N → W → result StorageError WriteResult * W;
  os_read_content : N → string → OperationContext → W → result StorageError string;
  os_get_content_size : N → string → W → result StorageError N;
  os_mkdir : N → string → bool → bool → W → result StorageError () * W;
  os_rmdir : N → string → bool → W → result StorageError () * W;
  os_delete_file : N → string → W → result StorageError () * W;
  os_rename : N → string → string → W → result StorageError () * W;
  os_copy_file : N → string → string → W → result StorageError WriteResult * W;
  os_list_dir : N → string → W → result StorageError (list string);
  os_stat : N → string → W → result StorageError BackendStat;
  os_resolve_physical_path : N → string → W → option string;
  os_set_file_mode : N → string → N → W → result StorageError () * W;
  fs_metadata : string → W → result IoError HostMetadata;
  fs_open : string → W → option (N * N);
  fs_pread : N * N → N → W → option string }.

(** [ReferenceMetadata::from] *)
Definition reference_of (m : HostMetadata) : ReferenceMetadata :=
  mkReference (if hm_is_dir m then 4096 else hm_len m) (hm_is_dir m) (N.land (hm_mode m) 511) (hm_modified_at_ms m).

(** [ObjectStore::reference_metadata] *)
Definition os_reference_metadata {W} `{ObjectStores W} (b : N) (path : string) (w : W) :
    option (result IoError ReferenceMetadata) :=
  physical ← os_resolve_physical_path b path w;
  Some (m ← fs_metadata physical w; mret (reference_of m)).

(** ** Texts

    The texts of errors, which derived or library code produces, and the text of
    the coordinator for a zone whose locks it does not have. *)
Class Texts := {
  storage_debug : StorageError → string;
  meta_debug : MetaStoreError → string;
  meta_display : MetaStoreError → string;
  io_display : IoError → string;
  str_debug : string → string;
  kernel_debug : KernelError → string;
  pipe_debug : PipeError → string;
  stream_debug : StreamError → string;
  stream_mgr_debug : StreamManagerError → string;
  zone_locks_error : string → string }.
