(* ===== verification/Dispatch.v ===== *)
(** * The trie of virtual paths, hooks and observers

    [TrieNode] and [Trie] of src/rust/kernel/src/core/dispatch/mod.rs: patterns
    of path segments, with [{}] for any one segment, each with the index of its
    resolver.  The children of a node are a map from segments; the order of a
    hash map plays no part in its operations.  The registries of hooks and of
    observers follow. *)

From S2P Require Import Prelude Bytes MetaStore KernelTypes.


Definition wildcard_segment : string := "{}".

Inductive TrieNode := mkNode {
  tn_children : list (string * TrieNode);
  tn_wildcard : option TrieNode;
  tn_resolver_idx : option N }.

Definition node_new : TrieNode := mkNode [] None None.

Definition node_is_empty (n : TrieNode) : bool :=
  bool_decide (length (tn_children n) = 0) &&
  match tn_wildcard n, tn_resolver_idx n with None, None => true | _, _ => false end.

(** [children.get(seg)] *)
Fixpoint child_get (seg : string) (cs : list (string * TrieNode)) : option TrieNode :=
  match cs with
  | [] => None
  | (s, n) :: cs => if decide (s = seg) then Some n else child_get seg cs
  end.

(** [children.insert(seg, n)] *)
Fixpoint child_put (seg : string) (n : TrieNode) (cs : list (string * TrieNode)) : list (string * TrieNode) :=
  match cs with
  | [] => [(seg, n)]
  | (s, m) :: cs => if decide (s = seg) then (seg, n) :: cs else (s, m) :: child_put seg n cs
  end.

(** [children.remove(seg)] *)
Definition child_remove (seg : string) (cs : list (string * TrieNode)) : list (string * TrieNode) :=
  filter (λ x, x.1 ≠ seg) cs.

Fixpoint node_lookup (segments : list string) (n : TrieNode) : option N :=
  match segments with
  | [] => tn_resolver_idx n
  | seg :: rest =>
      match child_get seg (tn_children n) ≫= node_lookup rest with
      | Some idx => Some idx
      | None => tn_wildcard n ≫= node_lookup rest
      end
  end.

Fixpoint node_insert (segments : list string) (idx : N) (n : TrieNode) : TrieNode :=
  match segments with
  | [] => mkNode (tn_children n) (tn_wildcard n) (Some idx)
  | seg :: rest =>
      if decide (seg = wildcard_segment)
      then mkNode (tn_children n) (Some (node_insert rest idx (default node_new (tn_wildcard n))))
             (tn_resolver_idx n)
      else mkNode (child_put seg (node_insert rest idx (default node_new (child_get seg (tn_children n))))
                     (tn_children n)) (tn_wildcard n) (tn_resolver_idx n)
  end.

(** [remove]: the node without the pattern; [is_empty] is what it returns. *)
Fixpoint node_remove (segments : list string) (n : TrieNode) : TrieNode :=
  match segments with
  | [] => mkNode (tn_children n) (tn_wildcard n) None
  | seg :: rest =>
      if decide (seg = wildcard_segment)
      then match tn_wildcard n with
           | None => n
           | Some wc =>
               let wc := node_remove rest wc in
               mkNode (tn_children n) (if node_is_empty wc then None else Some wc) (tn_resolver_idx n)
           end
      else match child_get seg (tn_children n) with
           | None => n
           | Some child =>
               let child := node_remove rest child in
               mkNode (if node_is_empty child then child_remove seg (tn_children n)
                       else child_put seg child (tn_children n)) (tn_wildcard n) (tn_resolver_idx n)
           end
  end.

Record Trie := mkTrie { tr_root : TrieNode; tr_patterns : gmap N string }.

Definition trie_new : Trie := mkTrie node_new ∅.

(** [path.split('/').filter(|s| !s.is_empty())] *)
Definition segments (path : string) : list string := filter (λ c, c ≠ "") (ssplit "/" path).

Definition trie_lookup (path : string) (t : Trie) : option N := node_lookup (segments path) (tr_root t).

Definition trie_register (pattern : string) (idx : N) (t : Trie) : result string () * Trie :=
  match tr_patterns t !! idx with
  | Some _ => (Err ("resolver_idx " +:+ pretty idx +:+ " already registered"), t)
  | None => (Ok (), mkTrie (node_insert (segments pattern) idx (tr_root t)) (<[idx := pattern]> (tr_patterns t)))
  end.

Definition trie_unregister (idx : N) (t : Trie) : bool * Trie :=
  match tr_patterns t !! idx with
  | None => (false, t)
  | Some pattern => (true, mkTrie (node_remove (segments pattern) (tr_root t)) (delete idx (tr_patterns t)))
  end.

Definition trie_len (t : Trie) : nat := size (tr_patterns t).

(** ** What a trie holds *)

(** The resolver at a pattern. *)
Fixpoint node_at (pattern : list string) (n : TrieNode) : option N :=
  match pattern with
  | [] => tn_resolver_idx n
  | seg :: rest =>
      (if decide (seg = wildcard_segment) then tn_wildcard n else child_get seg (tn_children n)) ≫= node_at rest
  end.

(** A pattern against the segments of a path. *)
Definition seg_matches (p s : string) : Prop := p = wildcard_segment ∨ (p ≠ wildcard_segment ∧ p = s).

Definition pattern_matches (pattern path : list string) : Prop := Forall2 seg_matches pattern path.

(** Literal segments come before wildcards, from the left. *)
Inductive precedes : list string → list string → list string → Prop :=
  | precedes_here s path p q : s ≠ wildcard_segment → precedes (s :: p) (wildcard_segment :: q) (s :: path)
  | precedes_next s path a p q : precedes p q path → precedes (a :: p) (a :: q) (s :: path).

Lemma child_get_put seg n cs s : child_get s (child_put seg n cs) = if decide (s = seg) then Some n else child_get s cs.
Proof.
  induction cs as [|[s' m] cs IH]; cbn.
  - repeat case_decide; congruence.
  - destruct (decide (s' = seg)) as [->|]; cbn.
    + repeat case_decide; congruence.
    + rewrite IH. repeat case_decide; congruence.
Qed.

Lemma child_get_remove seg cs s : child_get s (child_remove seg cs) = if decide (s = seg) then None else child_get s cs.
Proof.
  unfold child_remove. induction cs as [|[s' m] cs IH]; cbn [child_get]; [by case_decide|].
  destruct (decide (s' = seg)) as [->|Hne].
  - rewrite filter_cons_False by (cbn; tauto). rewrite IH. repeat case_decide; congruence.
  - rewrite filter_cons_True by done. cbn [child_get]. rewrite IH. repeat case_decide; congruence.
Qed.

Lemma node_at_empty n p : node_is_empty n = true → node_at p n = None.
Proof.
  unfold node_is_empty. destruct n as [cs wc idx]. cbn. intros H. bool_simpl.
  destruct cs as [|c cs]; [|discriminate]. destruct wc, idx; [discriminate..|].
  destruct p as [|seg p]; [done|]. cbn. by destruct (decide _).
Qed.

Lemma node_at_insert p idx n q : node_at q (node_insert p idx n) = if decide (q = p) then Some idx else node_at q n.
Proof.
  revert n q. induction p as [|seg p IH]; intros n q.
  - destruct q; [done|]. by rewrite decide_False by done.
  - assert (Hd : ∀ q, node_at q (default node_new (None : option TrieNode)) = None)
      by (intros q'; by apply node_at_empty).
    destruct q as [|s q]; cbn [node_insert].
    { by destruct (decide (seg = wildcard_segment)); rewrite (decide_False (P := [] = _)). }
    destruct (decide (seg = wildcard_segment)) as [->|Hseg]; cbn [node_at].
    + cbn [tn_wildcard tn_children]. destruct (decide (s = wildcard_segment)) as [->|Hs]; cbn.
      * rewrite IH. destruct (decide (q = p)) as [->|]; [by rewrite decide_True|]. rewrite decide_False by congruence.
        destruct (tn_wildcard n); [done|]. apply Hd.
      * by rewrite decide_False by congruence.
    + cbn [tn_wildcard tn_children]. destruct (decide (s = wildcard_segment)) as [->|Hs]; cbn.
      { by rewrite decide_False by congruence. }
      rewrite child_get_put. destruct (decide (s = seg)) as [->|]; cbn.
      * rewrite IH. destruct (decide (q = p)) as [->|]; [by rewrite decide_True|]. rewrite decide_False by congruence.
        destruct (child_get seg (tn_children n)); [done|]. apply Hd.
      * by rewrite decide_False by congruence.
Qed.

Lemma node_at_remove p n q : node_at q (node_remove p n) = if decide (q = p) then None else node_at q n.
Proof.
  revert n q. induction p as [|seg p IH]; intros n q.
  - destruct q; [done|]. by rewrite decide_False by done.
  - destruct q as [|s q]; cbn [node_remove].
    { rewrite (decide_False (P := [] = _)) by done. destruct (decide (seg = wildcard_segment)).
      - by destruct (tn_wildcard n).
      - by destruct (child_get seg (tn_children n)). }
    destruct (decide (seg = wildcard_segment)) as [->|Hseg].
    + destruct (tn_wildcard n) as [wc|] eqn:Hwc; cbn [node_at tn_wildcard tn_children].
      * destruct (decide (s = wildcard_segment)) as [->|Hs]; cbn; [|by rewrite decide_False by congruence].
        rewrite Hwc. cbn. specialize (IH wc q).
        destruct (node_is_empty (node_remove p wc)) eqn:He; cbn.
        -- rewrite (node_at_empty _ _ He) in IH. revert IH. repeat case_decide; congruence.
        -- rewrite IH. repeat case_decide; congruence.
      * repeat case_decide; simplify_eq; [by rewrite Hwc|done..].
    + destruct (child_get seg (tn_children n)) as [child|] eqn:Hc; cbn [node_at tn_wildcard tn_children].
      * destruct (decide (s = wildcard_segment)) as [->|Hs]; cbn; [by rewrite decide_False by congruence|].
        specialize (IH child q). destruct (decide (s = seg)) as [->|Hne].
        -- rewrite Hc. cbn. destruct (node_is_empty (node_remove p child)) eqn:He; cbn.
           ++ rewrite child_get_remove, decide_True by done. cbn.
              rewrite (node_at_empty _ _ He) in IH. revert IH. repeat case_decide; congruence.
           ++ rewrite child_get_put, decide_True by done. cbn. rewrite IH. repeat case_decide; congruence.
        -- rewrite decide_False by congruence.
           destruct (node_is_empty (node_remove p child)); [rewrite child_get_remove|rewrite child_get_put];
             by rewrite decide_False.
      * repeat case_decide; simplify_eq; [done|by rewrite Hc|done].
Qed.

(** ** Lookups *)

(** No node has a literal child spelled like the wildcard. *)
Inductive node_wf : TrieNode → Prop :=
  wf_node cs wc idx :
    child_get wildcard_segment cs = None →
    (∀ s c, child_get s cs = Some c → node_wf c) →
    (∀ w, wc = Some w → node_wf w) →
    node_wf (mkNode cs wc idx).

Lemma new_wf : node_wf node_new.
Proof. by constructor. Qed.

Lemma insert_wf p idx n : node_wf n → node_wf (node_insert p idx n).
Proof.
  revert n. induction p as [|seg p IH]; intros n [cs wc idx' Hw Hc Hwc]; [by constructor|].
  cbn [node_insert tn_children tn_wildcard tn_resolver_idx].
  destruct (decide (seg = wildcard_segment)) as [->|Hseg]; constructor; try done.
  - intros w [= <-]. apply IH. destruct wc; [by apply Hwc|apply new_wf].
  - by rewrite child_get_put, decide_False.
  - intros s c. rewrite child_get_put. case_decide; [|apply Hc]. intros [= <-]. apply IH.
    destruct (child_get seg cs) eqn:E; [by eapply Hc|apply new_wf].
Qed.

Lemma remove_wf p n : node_wf n → node_wf (node_remove p n).
Proof.
  revert n. induction p as [|seg p IH]; intros n [cs wc idx' Hw Hc Hwc]; [by constructor|].
  cbn [node_remove tn_children tn_wildcard tn_resolver_idx].
  destruct (decide (seg = wildcard_segment)) as [->|Hseg].
  - destruct wc as [w|]; [|by constructor]. constructor; [done..|]. intros w'. case_match; [done|].
    intros [= <-]. by apply IH, Hwc.
  - destruct (child_get seg cs) as [c|] eqn:E; [|by constructor].
    assert (node_wf (node_remove p c)) by (eapply IH, Hc, E). constructor; [| |done].
    + case_match; [rewrite child_get_remove|rewrite child_get_put]; by rewrite decide_False.
    + intros s c'. case_match; [rewrite child_get_remove|rewrite child_get_put]; case_decide; try done; eauto.
      by intros [= <-].
Qed.

(** The pattern [q] of resolver [j] matches. *)
Definition candidate (n : TrieNode) (path q : list string) (j : N) : Prop :=
  node_at q n = Some j ∧ pattern_matches q path.

Lemma candidate_cons cs wc idx seg path q j :
  child_get wildcard_segment cs = None →
  candidate (mkNode cs wc idx) (seg :: path) q j ↔
    (∃ q' c, q = seg :: q' ∧ child_get seg cs = Some c ∧ candidate c path q' j) ∨
    (∃ q' w, q = wildcard_segment :: q' ∧ wc = Some w ∧ candidate w path q' j).
Proof.
  intros Hw. unfold candidate, pattern_matches. split.
  - intros [Hq Hm]. inversion Hm as [|a s q' path' [->|[Ha ->]] Hq']; subst.
    + right. cbn in Hq. destruct wc as [w|]; [|done]. eauto 10.
    + left. cbn in Hq. rewrite decide_False in Hq by done. destruct (child_get seg cs) as [c|] eqn:E; [|done]. eauto 10.
  - intros [(q' & c & -> & Hc & Hq & Hm)|(q' & w & -> & -> & Hq & Hm)].
    + assert (seg ≠ wildcard_segment) by congruence. cbn. rewrite decide_False, Hc by done.
      split; [done|]. constructor; [by right|done].
    + split; [done|]. constructor; [by left|done].
Qed.

(** The most specific pattern that matches, or none. *)
Definition finds (n : TrieNode) (path : list string) (r : option N) : Prop :=
  match r with
  | Some i => ∃ p, candidate n path p i ∧ ∀ q j, candidate n path q j → q = p ∨ precedes p q path
  | None => ∀ q j, ¬ candidate n path q j
  end.

Lemma lookup_finds path n : node_wf n → finds n path (node_lookup path n).
Proof.
  revert n. induction path as [|seg path IH]; intros n [cs wc idx Hw Hc Hwc].
  { cbn. destruct idx as [i|].
    - exists []. split; [by split; [|constructor]|]. intros q j [_ Hq]. inversion Hq. by left.
    - intros q j [Hq Hm]. by inversion Hm; subst. }
  cbn [node_lookup tn_children tn_wildcard].
  destruct (child_get seg cs ≫= node_lookup path) as [i|] eqn:Hl.
  - destruct (child_get seg cs) as [c|] eqn:Hget; [|done]. cbn in Hl.
    assert (seg ≠ wildcard_segment) by congruence.
    pose proof (IH c (Hc _ _ Hget)) as IHc. rewrite Hl in IHc. destruct IHc as (p & Hp & Hbest).
    exists (seg :: p). split; [apply candidate_cons; naive_solver|].
    intros q j [(q' & c' & -> & Hg & Hq)|(q' & w & -> & -> & Hq)]%candidate_cons; [| |done].
    + simplify_eq. destruct (Hbest q' j Hq) as [->|]; [by left|]. right. by constructor.
    + right. by constructor.
  - assert (Hno : ∀ q c j, child_get seg cs = Some c → ¬ candidate c path q j).
    { intros q c j Hget. rewrite Hget in Hl. cbn in Hl. pose proof (IH c (Hc _ _ Hget)) as IHc.
      rewrite Hl in IHc. apply IHc. }
    destruct wc as [w|]; cbn [mbind option_bind].
    + pose proof (IH w (Hwc _ eq_refl)) as IHw. destruct (node_lookup path w) as [i|].
      * destruct IHw as (p & Hp & Hbest). exists (wildcard_segment :: p).
        split; [apply candidate_cons; naive_solver|].
        intros q j [(q' & c & -> & Hget & Hq)|(q' & w' & -> & [= <-] & Hq)]%candidate_cons; [by destruct (Hno q' c j)| |done].
        destruct (Hbest q' j Hq) as [->|]; [by left|]. right. by constructor.
      * intros q j. rewrite candidate_cons by done. naive_solver.
    + intros q j. rewrite candidate_cons by done. naive_solver.
Qed.

(** ** Runs *)

Definition segments_live (segs : list string) (t : Trie) : Prop :=
  ∃ i pattern, tr_patterns t !! i = Some pattern ∧ segments pattern = segs.

(** Registrations of patterns that are not live at the time, and removals. *)
Inductive trie_reach : Trie → Prop :=
  | reach_new : trie_reach trie_new
  | reach_register t pattern idx t' :
      trie_reach t → ¬ segments_live (segments pattern) t →
      trie_register pattern idx t = (Ok (), t') → trie_reach t'
  | reach_unregister t idx b t' :
      trie_reach t → trie_unregister idx t = (b, t') → trie_reach t'.

(** The root holds exactly the live patterns. *)
Record trie_inv (t : Trie) : Prop := {
  ti_wf : node_wf (tr_root t);
  ti_at p i : node_at p (tr_root t) = Some i ↔ ∃ pattern, tr_patterns t !! i = Some pattern ∧ segments pattern = p }.

Lemma reach_inv t : trie_reach t → trie_inv t.
Proof.
  induction 1 as [|t pattern idx t' _ [Hwf Hat] Hfresh Hreg|t idx b t' _ [Hwf Hat] Hun].
  - split; [apply new_wf|]. intros p i. rewrite (node_at_empty node_new) by done. naive_solver.
  - unfold trie_register in Hreg. destruct (tr_patterns t !! idx) eqn:Hidx; [done|]. injection Hreg as <-.
    split; [by apply insert_wf|]. intros p i. cbn [tr_root tr_patterns]. rewrite node_at_insert. case_decide as Hp.
    + subst p. split.
      * intros [= <-]. exists pattern. by rewrite lookup_insert_eq.
      * intros (q & Hq & Hs). apply lookup_insert_Some in Hq as [[-> _]|[_ Hq]]; [done|].
        destruct Hfresh. by exists i, q.
    + rewrite Hat. split; intros (q & Hq & Hs); exists q.
      * by rewrite lookup_insert_ne by congruence.
      * apply lookup_insert_Some in Hq as [[-> ->]|[_ Hq]]; [congruence|done].
  - unfold trie_unregister in Hun. destruct (tr_patterns t !! idx) as [pattern|] eqn:Hidx; [|by injection Hun as _ <-].
    injection Hun as _ <-. split; [by apply remove_wf|]. intros p i. cbn [tr_root tr_patterns]. rewrite node_at_remove. case_decide as Hp.
    + subst p. split; [done|]. intros (q & Hq & Hs). apply lookup_delete_Some in Hq as [Hne Hq].
      assert (node_at (segments pattern) (tr_root t) = Some i) as E1 by (apply Hat; eauto).
      assert (node_at (segments pattern) (tr_root t) = Some idx) as E2 by (apply Hat; eauto). congruence.
    + rewrite Hat. setoid_rewrite lookup_delete_Some. split; [|naive_solver].
      intros (q & Hq & Hs). exists q. split_and!; [|done..]. congruence.
Qed.

(** However virtual paths come and go, as long as no pattern is registered
    while the same pattern is live, a path resolves to the resolver of the most
    specific live pattern that matches it (a literal segment before the wildcard,
    from the left), and to nothing exactly when no live pattern matches. *)
Theorem trie_lookup_most_specific t path
  (reach : trie_reach t) :
  match trie_lookup path t with
  | Some i =>
      ∃ p, tr_patterns t !! i = Some p ∧ pattern_matches (segments p) (segments path) ∧
        ∀ j q, tr_patterns t !! j = Some q → pattern_matches (segments q) (segments path) →
          segments q = segments p ∨ precedes (segments p) (segments q) (segments path)
  | None => ∀ j q, tr_patterns t !! j = Some q → ¬ pattern_matches (segments q) (segments path)
  end.
Proof.
  destruct (reach_inv t reach) as [Hwf Hat]. unfold trie_lookup.
  pose proof (lookup_finds (segments path) _ Hwf) as Hf. destruct (node_lookup _ _) as [i|].
  - destruct Hf as (p & [Hp Hm] & Hbest). apply Hat in Hp as (pattern & Hi & <-). exists pattern.
    split_and!; [done..|]. intros j q Hj Hq. apply (Hbest (segments q) j). split; [|done]. apply Hat. eauto.
  - intros j q Hj Hq. apply (Hf (segments q) j). split; [|done]. apply Hat. eauto.
Qed.

Definition two_patterns : Trie :=
  (trie_register "/proc/self/status" 2 (trie_register "/proc/{}/status" 1 trie_new).2).2.

Lemma trie_lookup_most_specific_witness :
  trie_lookup "/proc/self/status" two_patterns = Some 2%N ∧
  trie_lookup "/proc/7/status" two_patterns = Some 1%N ∧
  ∃ p, tr_patterns two_patterns !! 2%N = Some p ∧ pattern_matches (segments p) (segments "/proc/self/status").
Proof.
  split_and!; [vm_compute; reflexivity..|].
  assert (trie_reach two_patterns) as Hr.
  { eapply (reach_register (trie_register "/proc/{}/status" 1 trie_new).2 "/proc/self/status" 2).
    - eapply (reach_register trie_new "/proc/{}/status" 1); [constructor| |reflexivity].
      intros (i & p & Hi & _). unfold trie_new in Hi. cbn [tr_patterns] in Hi. by rewrite lookup_empty in Hi.
    - intros (i & p & Hi & Hs). unfold trie_register, trie_new in Hi. cbn [tr_patterns] in Hi.
      rewrite lookup_empty in Hi. cbn [snd tr_patterns] in Hi. apply lookup_insert_Some in Hi as [[_ <-]|[_ Hi]].
      + vm_compute in Hs. discriminate Hs.
      + by rewrite lookup_empty in Hi.
    - reflexivity. }
  pose proof (trie_lookup_most_specific two_patterns "/proc/self/status" Hr) as H.
  assert (trie_lookup "/proc/self/status" two_patterns = Some 2%N) as E by (vm_compute; reflexivity).
  rewrite E in H. destruct H as (p & Hp & Hm & _). by exists p.
Defined.

(** Two resolvers on one pattern: removing the first hides the second, which
    stays registered. *)
Lemma unregister_hides_twin :
  let t := (trie_unregister 1 (trie_register "/v" 2 (trie_register "/v" 1 trie_new).2).2).2 in
  tr_patterns t !! 2%N = Some "/v" ∧ trie_lookup "/v" t = None.
Proof. split; vm_compute; reflexivity. Qed.

(** ** Hooks and observers

    [NativeHookRegistry] and [ObserverRegistry] of
    src/rust/kernel/src/core/dispatch/mod.rs.  A hook is a parameter: what it
    answers before an operation and the suffixes it declares.  Hooks that rewrite
    content compose. *)

Inductive HookOutcome := HookPass | HookReplace (bytes : string).

(** [NativeInterceptHook]; what a hook does after an operation stays with it. *)
Record Hook := mkHook {
  hk_name : string;
  hk_on_pre : HookContext → result string HookOutcome;
  hk_suffixes : list string }.

Record NativeHookRegistry := mkHooks {
  hr_hooks : list Hook;
  hr_mutating_suffixes : list string }.

Definition hooks_new : NativeHookRegistry := mkHooks [] [].

Definition hooks_register (h : Hook) (r : NativeHookRegistry) : NativeHookRegistry :=
  mkHooks (hr_hooks r ++ [h]) (hr_mutating_suffixes r ++ hk_suffixes h).

(** [hooks.remove(pos)] of the first hook with the name. *)
Fixpoint remove_named (name : string) (hs : list Hook) : option (list Hook) :=
  match hs with
  | [] => None
  | h :: hs => if decide (hk_name h = name) then Some hs else (h ::.) <$> remove_named name hs
  end.

Definition hooks_unregister (name : string) (r : NativeHookRegistry) : bool * NativeHookRegistry :=
  match remove_named name (hr_hooks r) with
  | Some hs => (true, mkHooks hs (mjoin (hk_suffixes <$> hs)))
  | None => (false, r)
  end.

(** The context with the chain's current bytes. *)
Definition with_content (c : WriteHookCtx) (bytes : string) : WriteHookCtx :=
  mkWriteHook (wh_path c) (wh_identity c) bytes (wh_is_new_file c) (wh_content_id c) (wh_new_version c)
    (wh_size_bytes c).

Definition chained (replacement : option string) (ctx : HookContext) : HookContext :=
  match replacement, ctx with
  | Some bytes, HookWrite c => HookWrite (with_content c bytes)
  | _, _ => ctx
  end.

Fixpoint dispatch_pre_loop (hs : list Hook) (ctx : HookContext) (replacement : option string) :
    result string (option string) :=
  match hs with
  | [] => Ok replacement
  | h :: hs =>
      outcome ← hk_on_pre h (chained replacement ctx);
      dispatch_pre_loop hs ctx (match outcome with HookPass => replacement | HookReplace b => Some b end)
  end.

Definition dispatch_pre (r : NativeHookRegistry) (ctx : HookContext) : result string (option string) :=
  dispatch_pre_loop (hr_hooks r) ctx None.

Definition has_mutating_match (r : NativeHookRegistry) (path : string) : bool :=
  existsb (λ suffix, ends_with suffix path) (hr_mutating_suffixes r).

Definition hooks_count (r : NativeHookRegistry) : nat := length (hr_hooks r).

(** ** Observers *)

Record ObserverEntry (O : Type) := mkObserver { ob_observer : O; ob_name : string; ob_event_mask : N }.
Arguments mkObserver {O}.
Arguments ob_observer {O}.
Arguments ob_name {O}.
Arguments ob_event_mask {O}.

Section observers.
Context {O : Type}.

Definition observers_register (o : O) (name : string) (event_mask : N) (r : list (ObserverEntry O)) :
    list (ObserverEntry O) := r ++ [mkObserver o name event_mask].

Fixpoint observers_unregister (name : string) (r : list (ObserverEntry O)) : bool * list (ObserverEntry O) :=
  match r with
  | [] => (false, [])
  | e :: r => if decide (ob_name e = name) then (true, r)
              else let '(b, r) := observers_unregister name r in (b, e :: r)
  end.

Definition observers_matching (event_type_bit : N) (r : list (ObserverEntry O)) : list O :=
  ob_observer <$> filter (λ e, N.land (ob_event_mask e) event_type_bit ≠ 0%N) r.
End observers.

(** ** Composition *)

Inductive HookOp := OpRegister (h : Hook) | OpUnregister (name : string).

Definition hook_op (op : HookOp) (r : NativeHookRegistry) : NativeHookRegistry :=
  match op with
  | OpRegister h => hooks_register h r
  | OpUnregister name => (hooks_unregister name r).2
  end.

(** What one hook makes of the content of a write. *)
Definition hook_step (c : WriteHookCtx) (acc : result string string) (h : Hook) : result string string :=
  bytes ← acc;
  outcome ← hk_on_pre h (HookWrite (with_content c bytes));
  Ok (match outcome with HookPass => bytes | HookReplace b => b end).

Lemma with_content_id c : with_content c (wh_content c) = c.
Proof. by destruct c. Qed.

Lemma step_err c e hs : foldl (hook_step c) (Err e) hs = Err e.
Proof. induction hs as [|h hs IH]; [done|]. apply IH. Qed.

Lemma dispatch_compose hs c replacement :
  (x ← dispatch_pre_loop hs (HookWrite c) replacement; Ok (default (wh_content c) x)) =
  foldl (hook_step c) (Ok (default (wh_content c) replacement)) hs.
Proof.
  revert replacement. induction hs as [|h hs IH]; intros replacement; [done|].
  cbn [dispatch_pre_loop foldl]. unfold hook_step at 2. cbn [mbind result_bind].
  assert (chained replacement (HookWrite c) = HookWrite (with_content c (default (wh_content c) replacement))) as ->.
  { destruct replacement; [done|]. cbn. by rewrite with_content_id. }
  destruct (hk_on_pre h _) as [o|e]; cbn [mbind result_bind]; [|by rewrite step_err].
  rewrite IH. by destruct o.
Qed.

Lemma suffixes_cached ops :
  let r := foldl (flip hook_op) hooks_new ops in hr_mutating_suffixes r = mjoin (hk_suffixes <$> hr_hooks r).
Proof.
  induction ops as [|op ops IH] using rev_ind; [done|]. cbn in *. rewrite foldl_app. cbn.
  set (r := foldl _ _ _) in *. destruct op as [h|name]; cbn.
  - rewrite IH, fmap_app. cbn. rewrite join_app. cbn. by rewrite app_nil_r.
  - unfold hooks_unregister. by destruct (remove_named _ _).
Qed.

(** However hooks are registered and removed, a write passes through the live
    hooks in their order, each one seeing the bytes the one before it left, and
    the first refusal refuses the write; content is handed to the hooks exactly
    when a live hook declares a suffix of the path. *)
Theorem hooks_compose ops c :
  let r := foldl (flip hook_op) hooks_new ops in
  (x ← dispatch_pre r (HookWrite c); Ok (default (wh_content c) x)) = foldl (hook_step c) (Ok (wh_content c)) (hr_hooks r) ∧
  (has_mutating_match r (wh_path c) = true ↔
    ∃ h suffix, h ∈ hr_hooks r ∧ suffix ∈ hk_suffixes h ∧ ends_with suffix (wh_path c) = true).
Proof.
  cbn. split; [apply dispatch_compose|]. unfold has_mutating_match. rewrite suffixes_cached. cbn.
  rewrite existsb_exists. setoid_rewrite <-list_elem_of_In. split.
  - intros (x & Hx & He). apply list_elem_of_join in Hx as (l & Hx & Hl).
    apply list_elem_of_fmap in Hl as (h & -> & Hh). eauto.
  - intros (h & x & Hh & Hx & He). exists x. split; [|done]. apply list_elem_of_join.
    exists (hk_suffixes h). split; [done|]. by apply list_elem_of_fmap_2.
Qed.
