(* ===== verification/Kernel.v ===== *)
(** * The kernel's state and its plumbing

    [Kernel] of src/rust/kernel/src/kernel/mod.rs and what the system calls share:
    the permission gate and the hooks (kernel/dispatch.rs), the choice of the
    metadata store, links, events (kernel/observability.rs), the table of open
    descriptors (core/fdt.rs) and the blocking lock of a path.

    A system call runs from its start to its end while other threads stand still;
    what they hold when it starts is part of the state.  The interleavings inside
    the lock manager, the pipes, the streams and the metadata cache are the
    subjects of their own files.  A call fails with the state it has reached, and
    [None] is a panic. *)

From S2P Require Import Prelude Bytes Codec Table LockState IoLocks Router Rename Pipe PipeManager StreamBuf StreamManager MetaStore KernelTypes Dispatch.

Abbreviation Route := (@RouteResult N N).
Abbreviation MountTable := (gmap string (@MountEntry N N)).

(** A metadata store: the trait's methods a system call uses, those with a default
    included, since stores replace them. *)
Class KernelStore (S : Type) := {
  ks_base :: MetaStore S;
  ks_put_batch : list (string * FileMetadata) → Op S ();
  ks_delete_batch : list string → Op S N;
  ks_rename_path : string → string → bool → Op S () }.

(** A call to a peer through the federation coordinator. *)
Inductive PeerCall :=
  | PeerDelete (zone path : string)
  | PeerMkdir (zone path : string) (parents exist_ok : bool)
  | PeerRename (zone old_path new_path : string)
  | PeerSetattr (zone path : string).

(** What does not change during a call.  The permission provider, the peers and
    the hooks are other components: functions of what they are asked. *)
Record KernelConfig := mkConfig {
  kc_provider : option (string → option Route → Permission → OperationContext → result KernelError ());
  kc_hooks : NativeHookRegistry;
  kc_metastore : option N;
  kc_self_address : option string;
  kc_federation_cache : option N;
  kc_vfs_lock_timeout_ms : N;
  kc_read_hook_count : N;
  kc_write_hook_count : N;
  kc_delete_hook_count : N;
  kc_rename_hook_count : N;
  kc_read_batch_max_aggregate_bytes : N;
  kc_peer_fetch : string → string → result string string;
  kc_peer_stat : string → string → option BackendStat;
  kc_peer_list_dir : string → string → option (list (string * N));
  kc_peer_delete_file : string → string → bool;
  kc_list_zones : list string }.

(** A descriptor of the table: the path it was opened at and the file it names. *)
Record FileHandle := mkHandle { fh_physical_path : string; fh_file : N * N }.

Section kernel.
Context {W : Type} `{!ObjectStores W}.
Context {S : Type} `{!KernelStore S}.
Context {L : Type} `{!Locks L}.
Context {E : Type} `{!PipeBackend E}.
Context {B : Type} `{!StreamBackend B}.
Context `{!Texts}.

(** [k_zone_locks] is the coordinator's lock table per zone, when the coordinator
    is initialised; [k_armed] the mounts whose backend is synced into metadata. *)
Record Kernel := mkKernel {
  k_config : KernelConfig;
  k_router : MountTable;
  k_trie : Trie;
  k_storage : W;
  k_stores : gmap N S;
  k_locks : LockManager L;
  k_zone_locks : option (gmap string L);
  k_fdt : gmap string FileHandle;
  k_pipes : PipeManager E;
  k_streams : StreamManager B;
  k_armed : gset string;
  k_events : list FileEvent;
  k_posts : list HookContext;
  k_peer_calls : list PeerCall }.

Definition set_router (t : MountTable) (k : Kernel) : Kernel :=
  mkKernel (k_config k) t (k_trie k) (k_storage k) (k_stores k) (k_locks k) (k_zone_locks k) (k_fdt k)
    (k_pipes k) (k_streams k) (k_armed k) (k_events k) (k_posts k) (k_peer_calls k).
Definition set_storage (w : W) (k : Kernel) : Kernel :=
  mkKernel (k_config k) (k_router k) (k_trie k) w (k_stores k) (k_locks k) (k_zone_locks k) (k_fdt k)
    (k_pipes k) (k_streams k) (k_armed k) (k_events k) (k_posts k) (k_peer_calls k).
Definition set_store (id : N) (s : S) (k : Kernel) : Kernel :=
  mkKernel (k_config k) (k_router k) (k_trie k) (k_storage k) (<[id := s]> (k_stores k)) (k_locks k)
    (k_zone_locks k) (k_fdt k) (k_pipes k) (k_streams k) (k_armed k) (k_events k) (k_posts k) (k_peer_calls k).
Definition set_locks (m : LockManager L) (k : Kernel) : Kernel :=
  mkKernel (k_config k) (k_router k) (k_trie k) (k_storage k) (k_stores k) m (k_zone_locks k) (k_fdt k)
    (k_pipes k) (k_streams k) (k_armed k) (k_events k) (k_posts k) (k_peer_calls k).
Definition set_zone_locks (m : option (gmap string L)) (k : Kernel) : Kernel :=
  mkKernel (k_config k) (k_router k) (k_trie k) (k_storage k) (k_stores k) (k_locks k) m (k_fdt k)
    (k_pipes k) (k_streams k) (k_armed k) (k_events k) (k_posts k) (k_peer_calls k).
Definition set_fdt (t : gmap string FileHandle) (k : Kernel) : Kernel :=
  mkKernel (k_config k) (k_router k) (k_trie k) (k_storage k) (k_stores k) (k_locks k) (k_zone_locks k) t
    (k_pipes k) (k_streams k) (k_armed k) (k_events k) (k_posts k) (k_peer_calls k).
Definition set_pipes (p : PipeManager E) (k : Kernel) : Kernel :=
  mkKernel (k_config k) (k_router k) (k_trie k) (k_storage k) (k_stores k) (k_locks k) (k_zone_locks k)
    (k_fdt k) p (k_streams k) (k_armed k) (k_events k) (k_posts k) (k_peer_calls k).
Definition set_streams (s : StreamManager B) (k : Kernel) : Kernel :=
  mkKernel (k_config k) (k_router k) (k_trie k) (k_storage k) (k_stores k) (k_locks k) (k_zone_locks k)
    (k_fdt k) (k_pipes k) s (k_armed k) (k_events k) (k_posts k) (k_peer_calls k).
Definition set_armed (a : gset string) (k : Kernel) : Kernel :=
  mkKernel (k_config k) (k_router k) (k_trie k) (k_storage k) (k_stores k) (k_locks k) (k_zone_locks k)
    (k_fdt k) (k_pipes k) (k_streams k) a (k_events k) (k_posts k) (k_peer_calls k).
Definition add_event (e : FileEvent) (k : Kernel) : Kernel :=
  mkKernel (k_config k) (k_router k) (k_trie k) (k_storage k) (k_stores k) (k_locks k) (k_zone_locks k)
    (k_fdt k) (k_pipes k) (k_streams k) (k_armed k) (k_events k ++ [e]) (k_posts k) (k_peer_calls k).
Definition add_post (c : HookContext) (k : Kernel) : Kernel :=
  mkKernel (k_config k) (k_router k) (k_trie k) (k_storage k) (k_stores k) (k_locks k) (k_zone_locks k)
    (k_fdt k) (k_pipes k) (k_streams k) (k_armed k) (k_events k) (k_posts k ++ [c]) (k_peer_calls k).
Definition add_peer_call (c : PeerCall) (k : Kernel) : Kernel :=
  mkKernel (k_config k) (k_router k) (k_trie k) (k_storage k) (k_stores k) (k_locks k) (k_zone_locks k)
    (k_fdt k) (k_pipes k) (k_streams k) (k_armed k) (k_events k) (k_posts k) (k_peer_calls k ++ [c]).

(** ** Calls *)

Definition K (A : Type) : Type := Kernel → option (result KernelError A * Kernel).

#[global] Instance K_ret : MRet K := λ A a k, Some (Ok a, k).
#[global] Instance K_bind : MBind K := λ A C f m k,
  match m k with
  | Some (Ok a, k) => f a k
  | Some (Err e, k) => Some (Err e, k)
  | None => None
  end.

Definition throw {A} (e : KernelError) : K A := λ k, Some (Err e, k).
Definition reads {A} (f : Kernel → A) : K A := λ k, Some (Ok (f k), k).
Definition config {A} (f : KernelConfig → A) : K A := reads (λ k, f (k_config k)).
Definition modify (f : Kernel → Kernel) : K () := λ k, Some (Ok (), f k).

(** The result of a call as a value, for callers that look at the error. *)
Definition attempt {A} (m : K A) : K (result KernelError A) := λ k,
  match m k with Some (r, k) => Some (Ok r, k) | None => None end.

(** [result?] *)
Definition of_result {A} (r : result KernelError A) : K A :=
  match r with Ok a => mret a | Err e => throw e end.

(** [option.ok_or_else(|| e)?] *)
Definition ok_or {A} (o : option A) (e : KernelError) : K A :=
  match o with Some a => mret a | None => throw e end.

Definition when (b : bool) (m : K ()) : K () := if b then m else mret ().

Fixpoint each {A C} (f : A → K C) (l : list A) : K (list C) :=
  match l with
  | [] => mret []
  | a :: l => b ← f a; bs ← each f l; mret (b :: bs)
  end.

(** A method of an object store that changes the storage. *)
Definition storage {A} (f : W → result StorageError A * W) : K (result StorageError A) := λ k,
  let '(r, w) := f (k_storage k) in Some (Ok r, set_storage w k).

(** ** Paths *)

Definition validate_path_fast (path : string) : result KernelError () :=
  if decide (path = "") then Err (EInvalidPath "Path cannot be empty")
  else if negb (starts_with "/" path) then Err (EInvalidPath "Path must start with /")
  else if scontains "000" path then Err (EInvalidPath "Path contains null byte")
  else if existsb (λ segment, bool_decide (segment = "..")) (ssplit "/" path)
       then Err (EInvalidPath "Path contains parent directory reference (..)")
  else Ok ().

Definition validate (path : string) : K () := of_result (validate_path_fast path).

Definition route_path (path zone_id : string) : K (option Route) := reads (λ k, route (k_router k) path zone_id).

Definition trie_resolved (path : string) : K bool := reads (λ k, bool_decide (is_Some (trie_lookup path (k_trie k)))).

(** ** The permission gate and the hooks *)

Definition check_permission_with_route (path : string) (r : option Route) (p : Permission)
    (ctx : OperationContext) : K () := λ k,
  if starts_with "/__sys__/" path then Some (Ok (), k)
  else if oc_is_system ctx then Some (Ok (), k)
  else match kc_provider (k_config k) with
       | None => Some (Ok (), k)
       | Some check =>
           let r := match r with Some r => Some r | None => route (k_router k) path (oc_zone_id ctx) end in
           Some (check path r p ctx, k)
       end.

Definition check_permission (path : string) (p : Permission) (ctx : OperationContext) : K () :=
  check_permission_with_route path None p ctx.

Definition check_metadata_permission (path : string) (p : Permission) (ctx : OperationContext) : K () :=
  _ ← validate path;
  if negb (oc_is_admin ctx) && negb (oc_is_system ctx) &&
     (bool_decide (path = "/__sys__") || starts_with "/__sys__/" path)
  then throw (EPermissionDenied "system metadata requires an administrator")
  else check_permission path p ctx.

Definition dispatch_native_pre_with_replacement (c : HookContext) : K (option string) :=
  hooks ← config kc_hooks;
  if (hooks_count hooks =? 0)%nat then mret None
  else match dispatch_pre hooks c with
       | Ok replacement => mret replacement
       | Err e => throw (EPermissionDenied e)
       end.

Definition dispatch_native_pre (c : HookContext) : K () :=
  _ ← dispatch_native_pre_with_replacement c; mret ().

Definition dispatch_native_post (c : HookContext) : K () :=
  hooks ← config kc_hooks;
  if (hooks_count hooks =? 0)%nat then mret () else modify (add_post c).

Definition apply_read_hooks (path : string) (ctx : OperationContext) : K () :=
  _ ← check_permission path PermRead ctx;
  dispatch_native_pre (HookRead path (identity_of ctx) None None).

Definition apply_mutating_write_hooks_with_route (path : string) (r : option Route)
    (ctx : OperationContext) (content : string) : K (option string) :=
  _ ← check_permission_with_route path r PermWrite ctx;
  hooks ← config kc_hooks;
  let hook_content := if has_mutating_match hooks path then content else "" in
  dispatch_native_pre_with_replacement
    (HookWrite (mkWriteHook path (identity_of ctx) hook_content false None 0 None)).

Definition apply_mutating_write_hooks (path : string) (ctx : OperationContext) (content : string) :
    K (option string) := apply_mutating_write_hooks_with_route path None ctx content.

(** ** Events *)

Definition dispatch_observers (e : FileEvent) : K () := modify (add_event e).

Definition dispatch_mutation (t : FileEventType) (path : string) (ctx : OperationContext) (x : EventExtra) : K () :=
  dispatch_observers
    (mkEvent t path (Some (oc_zone_id ctx)) (ex_size x) (ex_content_id x) (oc_agent_id ctx)
       (if decide (oc_user_id ctx = "") then None else Some (oc_user_id ctx)) None (ex_version x) (ex_gen x)
       (ex_is_new x) (ex_new_path x) (ex_old_content_id x)).

(** ** Metadata stores *)

Definition run_store {A} (id : N) (f : Op S A) : K (result MetaStoreError A) := λ k,
  s ← k_stores k !! id; '(r, s) ← f s; Some (Ok r, set_store id s k).

Definition with_store {A} (id : option N) (f : Op S A) : K (option (result MetaStoreError A)) :=
  match id with Some id => r ← run_store id f; mret (Some r) | None => mret None end.

Definition kernel_with_metastore {A} (mount_point : string) (f : Op S A) : K (option (result MetaStoreError A)) :=
  entry ← reads (λ k, k_router k !! mount_point);
  global ← config kc_metastore;
  with_store (match entry ≫= me_metastore with Some id => Some id | None => global end) f.

Definition with_metastore_route {A} (r : Route) (f : Op S A) : K (option (result MetaStoreError A)) :=
  global ← config kc_metastore; with_store (resolve_metastore r global) f.

(** [.ok().flatten()] of a lookup *)
Definition found {A} (r : option (result MetaStoreError (option A))) : option A :=
  match r with Some (Ok x) => x | _ => None end.

(** [.unwrap_or(d)] of a lookup that may have no store *)
Definition or_else {A} (d : A) (r : option (result MetaStoreError A)) : A :=
  match r with Some (Ok x) => x | _ => d end.

(** [with_metastore_route(route, |ms| ms.get(path).ok().flatten()).flatten()] *)
Definition get_row (r : Route) (path : string) : K (option FileMetadata) :=
  x ← with_metastore_route r (ms_get path); mret (found x).

Definition resolve_mount_point (path zone_id : string) : K string :=
  r ← route_path path zone_id; mret (default "" (rr_mount_point <$> r)).

(** A failed store operation as a kernel error. *)
Definition store_result {A} (prefix : string) (r : option (result MetaStoreError A)) : K A :=
  match r with
  | None => throw (EIOError "no metastore wired")
  | Some (Err e) => throw (EIOError (prefix +:+ meta_debug e))
  | Some (Ok a) => mret a
  end.

Definition metastore_get (path : string) : K (option FileMetadata) :=
  mount_point ← resolve_mount_point path ROOT_ZONE_ID;
  x ← kernel_with_metastore mount_point (ms_get path);
  store_result ("metastore_get(" +:+ path +:+ "): ") x.

Definition metastore_put (path : string) (metadata : FileMetadata) : K () :=
  let zone := default ROOT_ZONE_ID (md_zone_id metadata) in
  mount_point ← resolve_mount_point path zone;
  x ← kernel_with_metastore mount_point (ms_put path (with_path metadata path));
  store_result ("metastore_put(" +:+ path +:+ "): ") x.

Definition metastore_delete (path : string) : K bool :=
  mount_point ← resolve_mount_point path ROOT_ZONE_ID;
  x ← kernel_with_metastore mount_point (ms_delete path);
  store_result ("metastore_delete(" +:+ path +:+ "): ") x.

Definition build_metadata (path zone_id : string) (entry_type size : N) (content_id : option string)
    (gen version : N) (mime_type : option string) (created_at_ms modified_at_ms : option Z) : K FileMetadata :=
  self_address ← config kc_self_address;
  mret (mkMeta path size content_id gen version entry_type (Some zone_id) mime_type created_at_ms
          modified_at_ms self_address None None None None).

Definition observe_backend_entry (now : Z) (path : string) (entry_type : N) (zone_id : string) (size : N)
    (content_id : option string) : K bool :=
  row ← attempt (metastore_get path);
  match row with
  | Ok (Some _) => mret false
  | _ =>
      meta ← build_metadata path zone_id entry_type size content_id 0 1 None (Some now) (Some now);
      r ← attempt (metastore_put path meta);
      mret (is_ok r)
  end.

Definition observe_backend_content (now : Z) (path : string) (size : N) (content_id : option string)
    (zone_id : string) (ctx : OperationContext) : K () :=
  if negb (oc_propagates_cross_node ctx) then mret ()
  else
    fresh ← observe_backend_entry now path DT_REG zone_id size content_id;
    when fresh (dispatch_mutation EvFileWrite path ctx (mkExtra (Some size) None None None false None None)).

(** ** Links *)

Definition dt_link_target (path : string) (entry : FileMetadata) : result KernelError (option string) :=
  if decide (md_entry_type entry ≠ DT_LINK) then Ok None
  else match md_link_target entry with
       | None => Err (EPermissionDenied ("DT_LINK at " +:+ path +:+ " has no link_target"))
       | Some target =>
           if decide (target = path) then Err (EPermissionDenied ("DT_LINK self-loop at " +:+ path))
           else Ok (Some target)
       end.

(** A path cut in front of each of its slashes. *)
Fixpoint slash_cuts (before s : string) : list (string * string) :=
  match s with
  | "" => []
  | String a s' =>
      (if decide (a = "/"%char) then [(before, s)] else []) ++ slash_cuts (before +:+ String a "") s'
  end.

(** [path.match_indices('/').skip(1)] with the two sides of the index *)
Definition ancestor_cuts (path : string) : list (string * string) := drop 1 (slash_cuts "" path).

Fixpoint link_in_ancestors (cuts : list (string * string)) (zone_id : string) : K (option string) :=
  match cuts with
  | [] => mret None
  | (ancestor, below) :: cuts =>
      r ← route_path ancestor zone_id;
      entry ←
        match r with
        | Some r =>
            x ← with_metastore_route r (ms_get ancestor);
            match x with
            | None => mret None
            | Some (Ok row) => mret row
            | Some (Err e) => throw (EIOError ("read link at " +:+ ancestor +:+ ": " +:+ meta_debug e))
            end
        | None =>
            x ← attempt (metastore_get ancestor);
            match x with
            | Ok row => mret row
            | Err e => throw (EIOError ("read link at " +:+ ancestor +:+ ": " +:+ kernel_debug e))
            end
        end;
      target ← of_result (match entry with Some e => dt_link_target ancestor e | None => Ok None end);
      match target with
      | Some target =>
          let resolved := trim_end "/" target +:+ below in
          _ ← validate resolved;
          mret (Some resolved)
      | None => link_in_ancestors cuts zone_id
      end
  end.

Definition directory_link_target (path zone_id : string) : K (option string) :=
  link_in_ancestors (ancestor_cuts path) zone_id.

(** ** Locks on paths *)

(** [LockManager::blocking_acquire] while no other thread releases: the first try,
    the wait, and the last try after the time-out. *)
Definition acquire_alone (path : string) (mode : LockMode) (timeout_ms : N) (m : LockManager L) : N * LockManager L :=
  match acquire_enter path mode timeout_ms 0 m with
  | (Returned handle, m) => (handle, m)
  | (_, m) =>
      let '(_, m) := acquire_wait false m in
      match acquire_wake path mode true 0 m with
      | (Returned handle, m) => (handle, m)
      | (_, m) => (0%N, m)
      end
  end.

Definition blocking_acquire (path : string) (mode : LockMode) : K N := λ k,
  let '(handle, m) := acquire_alone path mode (kc_vfs_lock_timeout_ms (k_config k)) (k_locks k) in
  Some (Ok handle, set_locks m k).

Definition release (handle : N) : K () := modify (λ k, set_locks (do_release handle (k_locks k)).2 k).

(** The closure [release_locks] of rename and copy. *)
Definition release_locks (lock1 lock2 : N) : K () :=
  _ ← when (0 <? lock2)%N (release lock2);
  when (0 <? lock1)%N (release lock1).

(** ** The table of open descriptors *)

Definition fdt_register (vfs_path physical : string) : K () := λ k,
  Some (Ok (), match fs_open physical (k_storage k) with
               | Some file => set_fdt (<[vfs_path := mkHandle physical file]> (k_fdt k)) k
               | None => k
               end).

(** [FileHandle::current_size] *)
Definition current_size (h : FileHandle) (w : W) : option N :=
  match fs_metadata (fh_physical_path h) w with
  | Ok m => if decide ((hm_device m, hm_inode m) = fh_file h) then Some (hm_len m) else None
  | Err _ => None
  end.

Definition fdt_pread (vfs_path : string) : K (option string) := λ k,
  match k_fdt k !! vfs_path with
  | None => Some (Ok None, k)
  | Some handle =>
      match current_size handle (k_storage k) with
      | None => Some (Ok None, set_fdt (delete vfs_path (k_fdt k)) k)
      | Some size =>
          Some (Ok (if (size =? 0)%N then Some "" else fs_pread (fh_file handle) size (k_storage k)), k)
      end
  end.

Definition fdt_close_all : K () := modify (set_fdt ∅).

Definition fdt_remove (vfs_path : string) : K () := modify (λ k, set_fdt (delete vfs_path (k_fdt k)) k).

Definition fdt_remove_tree (vfs_path : string) : K () :=
  modify (λ k, set_fdt (filter (λ x, x.1 ≠ vfs_path ∧ starts_with (dir_of vfs_path) x.1 = false) (k_fdt k)) k).

Definition fdt_rename (old_path new_path : string) : K () :=
  modify (λ k, match k_fdt k !! old_path with
               | Some handle => set_fdt (<[new_path := handle]> (delete old_path (k_fdt k))) k
               | None => k
               end).

(** ** Peers *)

Definition via_federation_stat (r : Route) (peer_path : string) : K (option BackendStat) :=
  peer_stat ← config kc_peer_stat;
  mret (zone ← federation_target_zone r; peer_stat zone peer_path).

Definition via_federation_readdir (r : Route) (peer_path : string) : K (option (list (string * N))) :=
  peer_list_dir ← config kc_peer_list_dir;
  mret (zone ← federation_target_zone r; peer_list_dir zone peer_path).

Definition via_federation_unlink (r : Route) (peer_path : string) : K (option bool) :=
  peer_delete_file ← config kc_peer_delete_file;
  match federation_target_zone r with
  | None => mret None
  | Some zone => _ ← modify (add_peer_call (PeerDelete zone peer_path)); mret (Some (peer_delete_file zone peer_path))
  end.

Definition supplement (call : string → PeerCall) (r : Route) : K () :=
  match federation_target_zone r with
  | None => mret ()
  | Some zone => modify (add_peer_call (call zone))
  end.

Definition supplement_mkdir (r : Route) (peer_path : string) (parents exist_ok : bool) : K () :=
  supplement (λ zone, PeerMkdir zone peer_path parents exist_ok) r.

Definition supplement_rename (r : Route) (old_path new_path : string) : K () :=
  supplement (λ zone, PeerRename zone old_path new_path) r.

(** ** Errors of the managers *)

Definition pipe_mgr_err (e : PipeManagerError) : KernelError :=
  match e with
  | MgrExists p => EPipeExists p
  | MgrNotFound p => EPipeNotFound p
  | MgrClosed p => EPipeClosed p
  | MgrWouldBlock m => EWouldBlock m
  | MgrBackend (PipeFull u c) => EPipeFull (pretty u +:+ "/" +:+ pretty c +:+ " bytes used")
  | MgrBackend (PipeClosed m) => EPipeClosed m
  | MgrBackend (PipeOversized s c) => EPipeFull ("msg " +:+ pretty s +:+ " > capacity " +:+ pretty c)
  | MgrBackend other => EIOError ("pipe: " +:+ pipe_debug other)
  end.

Definition stream_mgr_err (e : StreamManagerError) : KernelError :=
  match e with
  | StreamExists p => EStreamExists p
  | StreamNotFound p => EStreamNotFound p
  | StreamMgrClosed p => EStreamClosed p
  | StreamWouldBlock m => EWouldBlock m
  | StreamResolve m => EIOError m
  | StreamBackendError (StreamFull u c) => EStreamFull (pretty u +:+ "/" +:+ pretty c +:+ " bytes used")
  | StreamBackendError (StreamClosed m) => EStreamClosed m
  | StreamBackendError (StreamOversized s c) => EStreamFull ("msg " +:+ pretty s +:+ " > capacity " +:+ pretty c)
  | StreamBackendError (StreamTruncated earliest requested) => EStreamTruncated earliest requested
  | StreamBackendError (StreamNotReplicated why) => EIOError ("stream append did not commit: " +:+ why)
  | StreamBackendError (StreamReadFailed why) => EIOError ("stream read failed: " +:+ why)
  | StreamBackendError other => EIOError ("stream: " +:+ stream_debug other)
  end.

(** A call into a manager. *)
Definition pipes {A} (f : PipeManager E → option (result PipeManagerError A * PipeManager E)) :
    K (result PipeManagerError A) := λ k, '(r, p) ← f (k_pipes k); Some (Ok r, set_pipes p k).

Definition streams {A} (f : StreamManager B → option (result StreamManagerError A * StreamManager B)) :
    K (result StreamManagerError A) := λ k, '(r, s) ← f (k_streams k); Some (Ok r, set_streams s k).
End kernel.

Arguments Kernel : clear implicits.
