(* ===== verification/KernelFiles.v ===== *)
(** * Reading and writing files

    [sys_read] and [sys_write] of one path and [set_file_mode], from
    src/rust/kernel/src/kernel/syscall_impl.rs, with the stream addresses of
    kernel/stream_address.rs and the pipe calls of kernel/ipc.rs. *)

From S2P Require Import Prelude Bytes Codec Table LockState IoLocks Router Rename Pipe PipeManager StreamBuf StreamManager MetaStore KernelTypes Dispatch Kernel.

(** ** Stream addresses *)

Record StreamAddress := mkAddress { sa_zone : string; sa_stream_path : string }.

Definition address_of_route (path zone : string) (r : option Route) : StreamAddress :=
  match r with
  | Some r =>
      mkAddress (rr_zone_id r)
        (match rr_target_zone_id r with
         | Some _ => "/" +:+ trim_start_matches "/" (rr_backend_path r)
         | None => path
         end)
  | None => mkAddress zone path
  end.

Definition address_key (a : StreamAddress) : string :=
  if decide (sa_zone a = ROOT_ZONE_ID) then sa_stream_path a
  else sa_zone a +:+ String "000" (sa_stream_path a).

Definition address_of_key (key : string) : StreamAddress :=
  match split_once "000" key with
  | Some (zone, path) => mkAddress zone path
  | None => mkAddress ROOT_ZONE_ID key
  end.

(** ** Results of reads *)

Definition backend_read_or_miss `{!Texts} (r : option (result StorageError string)) : result KernelError (option string) :=
  match r with
  | Some (Ok content) => Ok (Some content)
  | Some (Err (StIOError e)) =>
      if decide (io_kind e = KindNotFound) then Ok None
      else Err (EBackendError ("backend read failed: " +:+ io_display e))
  | None | Some (Err (StNotFound _ | StNotSupported _)) => Ok None
  end.

(** [&bytes[off..end]] of the request's window *)
Definition read_window (bytes : string) (offset : N) (len : option N) : string :=
  let off := N.min offset (slen bytes) in
  let end_ := match len with
              | Some len => N.min (sat_add64 off len) (slen bytes)
              | None => slen bytes
              end in
  stake (N.to_nat (end_ - off)) (sdrop (N.to_nat off) bytes).

Definition slice_read_result (r : result KernelError SysReadResult) (req : ReadRequest) : result KernelError SysReadResult :=
  r ← r;
  if (rq_offset req =? 0)%N && bool_decide (rq_len req = None) then Ok r
  else match rd_data r with
       | Some bytes =>
           Ok (mkReadResult (Some (read_window bytes (rq_offset req) (rq_len req))) (rd_post_hook_needed r)
                 (rd_content_id r) (rd_gen r) (rd_entry_type r) (rd_stream_next_offset r))
       | None => Ok r
       end.

Definition has_local_content_origin (entry : FileMetadata) (local_address : option string) : bool :=
  match md_last_writer_address entry with
  | Some writer => if decide (writer = "") then true else bool_decide (Some writer = local_address)
  | None => true
  end.

(** ** Blocking reads while no other thread runs *)

Section alone.
Context {E : Type} `{!PipeBackend E} {B : Type} `{!StreamBackend B}.

(** One [pop] of [read_blocking]; [empty] is what an empty pipe leads to. *)
Definition pop_once (path : string) (l : N) (m : PipeManager E)
    (other : PipeError → PipeManager E → option (result PipeManagerError string * PipeManager E)) :
    option (result PipeManagerError string * PipeManager E) :=
  b ← pm_store m !! l;
  '(r, b) ← pb_pop b;
  let m := set_backend l b m in
  match r with
  | Ok data => Some (Ok data, wake path WakeWriters m)
  | Err PipeClosedEmpty => Some (Err (MgrClosed path), m)
  | Err e => other e m
  end.

(** [PipeManager::read_blocking]: the fast path, the try under the mutex, and the
    try after the time-out. *)
Definition pipe_read_alone (path : string) (m : PipeManager E) : option (result PipeManagerError string * PipeManager E) :=
  match mgr_get path m with
  | None => Some (Err (MgrNotFound path), m)
  | Some (l, _) =>
      if decide (path ∉ pm_notify m) then Some (Err (MgrNotFound path), m)
      else
        let try_again k e m := match e with PipeEmpty => k m | _ => Some (Err (MgrBackend e), m) end in
        pop_once path l m (try_again (λ m,
          pop_once path l m (try_again (λ m,
            pop_once path l m (λ _ m, Some (Err (MgrWouldBlock "pipe read timeout"), m))))))
  end.

(** [StreamManager::read_at_blocking]: the read, and the read after the time-out. *)
Definition stream_read_alone (path : string) (offset : N) (m : StreamManager B) :
    option (result StreamManagerError (string * N) * StreamManager B) :=
  resolved path m (λ _ b m,
    let read (k : option (result StreamManagerError (string * N) * StreamManager B)) :=
      r ← sb_read_at offset b;
      match r with
      | Ok x => Some (Ok x, m)
      | Err StreamClosedEmpty => Some (Err (StreamMgrClosed path), m)
      | Err StreamEmpty => k
      | Err e => Some (Err (StreamBackendError e), m)
      end in
    read (read (Some (Err (StreamWouldBlock "stream read timeout"), m)))).
End alone.

Section files.
Context {W : Type} `{!ObjectStores W}.
Context {S : Type} `{!KernelStore S}.
Context {L : Type} `{!Locks L}.
Context {E : Type} `{!PipeBackend E}.
Context {B : Type} `{!StreamBackend B}.
Context `{!Texts}.

Abbreviation K := (@K W S L E B).
Abbreviation Kernel := (Kernel W S L E B).

(** ** [sys_read] *)

Definition not_found (path : string) : KernelError := EFileNotFound path.

Definition elooped (path : string) : KernelError :=
  EPermissionDenied ("DT_LINK chain rejected (ELOOP) at " +:+ path).

Definition read_result (data : string) (content_id : option string) (gen : N) : K SysReadResult :=
  hooks ← config kc_read_hook_count;
  mret (mkReadResult (Some data) (0 <? hooks)%N content_id gen DT_REG None).

(** A read of the route's backend, when it has one. *)
Definition route_read (r : Route) (cid : string) (ctx : OperationContext) : K (option (result StorageError string)) :=
  reads (λ k, (λ b, os_read_content b cid ctx (k_storage k)) <$> rr_backend r).

Definition try_remote_fetch (path : string) (entry : FileMetadata) : K SysReadResult :=
  match md_last_writer_address entry with
  | None | Some "" => throw (not_found path)
  | Some origin =>
      self_address ← config kc_self_address;
      if decide (self_address = Some origin) then throw (not_found path)
      else
        fetch ← config kc_peer_fetch;
        match fetch origin path with
        | Err e => throw (EIOError e)
        | Ok data =>
            _ ← dispatch_observers
                  (mkEvent EvRemoteFetch path None (Some (slen data)) (md_content_id entry) None None
                     (Some origin) None None false None None);
            read_result data (md_content_id entry) (md_gen entry)
        end
  end.

Definition pipe_read (path : string) (timeout_ms : N) : K SysReadResult :=
  r ← pipes (read_nowait path);
  match r with
  | Ok (Some data) => mret (read_ipc DT_PIPE (Some data) None)
  | Ok None =>
      if (timeout_ms =? 0)%N then mret (read_ipc DT_PIPE None None)
      else
        r ← pipes (pipe_read_alone path);
        match r with
        | Ok data => mret (read_ipc DT_PIPE (Some data) None)
        | Err e => match pipe_mgr_err e with
                   | EWouldBlock _ => mret (read_ipc DT_PIPE None None)
                   | e => throw e
                   end
        end
  | Err e => throw (pipe_mgr_err e)
  end.

Definition stream_read (path : string) (ctx : OperationContext) (r : Route) (timeout_ms offset : N) : K SysReadResult :=
  let address := address_of_route path (oc_zone_id ctx) (Some r) in
  _ ← check_permission_with_route (sa_stream_path address) (Some r) PermRead (in_zone (sa_zone address) ctx);
  let key := address_key address in
  x ← streams (sm_read_at key offset);
  match x with
  | Ok (Some (data, next)) => mret (read_ipc DT_STREAM (Some data) (Some next))
  | Ok None =>
      if (timeout_ms =? 0)%N then mret (read_ipc DT_STREAM None None)
      else
        x ← streams (stream_read_alone key offset);
        match x with
        | Ok (data, next) => mret (read_ipc DT_STREAM (Some data) (Some next))
        | Err e => match stream_mgr_err e with
                   | EWouldBlock _ => mret (read_ipc DT_STREAM None None)
                   | e => throw e
                   end
        end
  | Err e => throw (stream_mgr_err e)
  end.

(** The part of a read under the lock of the path. *)
Definition read_locked (path : string) (ctx : OperationContext) (r : Route) (entry : FileMetadata) : K SysReadResult :=
  lock_handle ← blocking_acquire path ModeRead;
  if (lock_handle =? 0)%N then throw (EIOError ("vfs read lock timeout: " +:+ path))
  else
    self_address ← config kc_self_address;
    cache ← config kc_federation_cache;
    let substitution :=
      is_federation_peer_mount r &&
      match md_last_writer_address entry, self_address with
      | Some writer, Some me => bool_decide (writer = me)
      | _, _ => false
      end in
    content ←
      if substitution then reads (λ k, (λ b, os_read_content b path ctx (k_storage k)) <$> cache)
      else match md_content_id entry with
           | Some cid => if decide (cid = "") then mret None else route_read r cid ctx
           | None => mret None
           end;
    _ ← release lock_handle;
    x ← of_result (backend_read_or_miss content);
    match x with
    | Some data => read_result data (md_content_id entry) (md_gen entry)
    | None => try_remote_fetch path entry
    end.

(** A path without a row: the backend is asked for it. *)
Definition read_unlisted (now : Z) (path : string) (ctx : OperationContext) (r : Route) : K SysReadResult :=
  content ← route_read r (rr_backend_path r) ctx;
  x ← of_result (backend_read_or_miss content);
  match x with
  | Some data =>
      _ ← observe_backend_content now path (slen data) (Some (rr_backend_path r)) (rr_zone_id r) ctx;
      read_result data None 0
  | None => throw (not_found path)
  end.

(** [follow] reads the target of a link, when there is a hop left. *)
Definition sys_read_after_auth (follow : option (string → K SysReadResult)) (now : Z) (path : string)
    (ctx : OperationContext) (timeout_ms offset : N) : K SysReadResult :=
  let follow target := match follow with Some f => f target | None => throw (elooped path) end in
  link ← directory_link_target path (oc_zone_id ctx);
  match link with
  | Some target => follow target
  | None =>
      r ← route_path path (oc_zone_id ctx);
      match r with
      | None => throw (not_found path)
      | Some r =>
          row ← get_row r path;
          match row with
          | None => read_unlisted now path ctx r
          | Some entry =>
              target ← of_result (dt_link_target path entry);
              match target with
              | Some target => follow target
              | None =>
                  if decide (md_entry_type entry = DT_PIPE) then pipe_read path timeout_ms
                  else if decide (md_entry_type entry = DT_STREAM) then stream_read path ctx r timeout_ms offset
                  else
                    cached ← if decide (md_entry_type entry = DT_REG) then fdt_pread path else mret None;
                    match cached with
                    | Some data => read_result data (md_content_id entry) (md_gen entry)
                    | None => read_locked path ctx r entry
                    end
              end
          end
      end
  end.

Fixpoint sys_read_single (max_link_hops : nat) (now : Z) (path : string) (ctx : OperationContext)
    (timeout_ms offset : N) : K SysReadResult :=
  _ ← validate path;
  virtual ← trie_resolved path;
  if (virtual : bool) then throw (not_found path)
  else
    _ ← apply_read_hooks path ctx;
    sys_read_after_auth
      (match max_link_hops with
       | O => None
       | Datatypes.S hops => Some (λ target, sys_read_single hops now target ctx timeout_ms offset)
       end) now path ctx timeout_ms offset.

(** [sys_read] of one request *)
Definition sys_read_one (now : Z) (req : ReadRequest) (ctx : OperationContext) : K SysReadResult :=
  r ← sys_read_single 1 now (rq_path req) ctx (rq_timeout_ms req) (rq_offset req);
  if decide (rd_entry_type r = DT_PIPE ∨ rd_entry_type r = DT_STREAM) then mret r
  else of_result (slice_read_result (Ok r) req).

(** ** [sys_write] *)

Definition replacement_file_metadata (now : Z) (path zone_id : string) (written : WriteResult)
    (old : option FileMetadata) : K FileMetadata :=
  build_metadata path zone_id DT_REG (wr_size written) (Some (wr_content_id written))
    (sat_add64 (default 0%N (md_gen <$> old)) 1) (wrap32 (default 0%N (md_version <$> old) + 1)) None
    (match old ≫= md_created_at_ms with Some t => Some t | None => Some now end) (Some now).

Definition file_write_result (metadata : FileMetadata) (written : WriteResult) (old : option FileMetadata) : K SysWriteResult :=
  hooks ← config kc_write_hook_count;
  mret (mkWriteResult true (Some (wr_content_id written)) (0 <? hooks)%N (md_version metadata) (md_gen metadata)
          (md_size metadata) (bool_decide (old = None)) (old ≫= md_content_id) (md_size <$> old)
          (md_version <$> old) (old ≫= md_modified_at_ms)).

Definition notify_file_write (path : string) (ctx : OperationContext) (r : SysWriteResult) : K () :=
  _ ← dispatch_mutation EvFileWrite path ctx
        (mkExtra (Some (ww_size r)) (ww_content_id r) (Some (ww_version r)) (Some (ww_gen r)) (ww_is_new r) None
           (ww_old_content_id r));
  dispatch_native_post
    (HookWrite (mkWriteHook path (identity_of ctx) "" (ww_is_new r) None (ww_version r) (Some (ww_size r)))).

(** The write of the bytes and of the row, with the lock of the path held. *)
Definition commit_write_through (now : Z) (path : string) (ctx : OperationContext) (content : string)
    (offset : N) (r : Route) : K SysWriteResult :=
  cid ←
    if (offset =? 0)%N then mret (rr_backend_path r)
    else
      old ← get_row r path;
      match old with
      | Some e => mret (default "" (md_content_id e))
      | None => throw (EFileNotFound path)
      end;
  cache ← config kc_federation_cache;
  let substitution := is_federation_peer_mount r in
  let backend := match rr_backend r with
                 | Some b => Some b
                 | None => if substitution then cache else None
                 end in
  let cid := if substitution then path else cid in
  match backend with
  | None => mret write_miss
  | Some b =>
      w ← storage (os_write_content b content cid ctx offset);
      match w with
      | Err e => throw (EBackendError (storage_debug e))
      | Ok wr =>
          physical ← reads (λ k, b ← rr_backend r; os_resolve_physical_path b (wr_content_id wr) (k_storage k));
          _ ← match physical with
              | Some physical => fdt_register path physical
              | None => mret ()
              end;
          old ← get_row r path;
          meta ← replacement_file_metadata now path (rr_zone_id r) wr old;
          result ← file_write_result meta wr old;
          x ← with_metastore_route r (ms_put path meta);
          _ ← store_result ("metastore_put(" +:+ path +:+ "): ") x;
          _ ← notify_file_write path ctx result;
          mret result
      end
  end.

Definition ipc_write_result (size : N) : K SysWriteResult :=
  hooks ← config kc_write_hook_count;
  mret (mkWriteResult true None (0 <? hooks)%N 0 0 size false None None None None).

Definition ipc_post (path : string) (ctx : OperationContext) (content : string) (size : N) : K () :=
  dispatch_native_post (HookWrite (mkWriteHook path (identity_of ctx) content false None 0 (Some size))).

(** A push into the backend of a pipe, past the registry. *)
Definition pipe_push (path data : string) (m : PipeManager E) :
    option (result PipeManagerError (option (result PipeError N)) * PipeManager E) :=
  match mgr_get path m with
  | None => Some (Ok None, m)
  | Some (l, b) => '(r, b) ← pb_push data b; Some (Ok (Some r), set_backend l b m)
  end.

Definition pipe_write (path : string) (ctx : OperationContext) (content : string) : K SysWriteResult :=
  x ← pipes (pipe_push path content);
  match x with
  | Ok (Some (Ok n)) => _ ← ipc_post path ctx content n; ipc_write_result n
  | Ok (Some (Err (PipeClosed m))) => throw (EPipeClosed m)
  | _ => mret write_miss
  end.

Definition stream_write (now : Z) (path : string) (ctx : OperationContext) (r : Route) (content : string) : K SysWriteResult :=
  let address := address_of_route path (oc_zone_id ctx) (Some r) in
  replacement ←
    if decide (sa_stream_path address ≠ path ∨ sa_zone address ≠ oc_zone_id ctx)
    then apply_mutating_write_hooks_with_route (sa_stream_path address) (Some r)
           (in_zone (sa_zone address) ctx) content
    else mret None;
  let content := default content replacement in
  x ← streams (sm_write_nowait now (address_key address) content);
  match x with
  | Ok offset => _ ← ipc_post path ctx content offset; ipc_write_result offset
  | Err (StreamBackendError (StreamClosed m)) => throw (EStreamClosed m)
  | Err (StreamBackendError (StreamNotReplicated why)) =>
      throw (EIOError ("DT_STREAM append at " +:+ path +:+ " did not commit: " +:+ why))
  | Err (StreamBackendError (StreamFull _ _)) => mret write_miss
  | Err e => throw (EIOError ("DT_STREAM append at " +:+ path +:+ " failed: " +:+ stream_mgr_debug e))
  end.

(** A regular file: the lock, the commit, the release. *)
Definition write_locked (now : Z) (path : string) (ctx : OperationContext) (content : string) (offset : N) (r : Route) :
    K SysWriteResult :=
  lock_handle ← blocking_acquire path ModeWrite;
  if (lock_handle =? 0)%N then mret write_miss
  else
    result ← attempt (commit_write_through now path ctx content offset r);
    _ ← release lock_handle;
    of_result result.

Fixpoint sys_write_with_link_depth (max_link_hops : nat) (now : Z) (path : string) (ctx : OperationContext)
    (content : string) (offset : N) : K SysWriteResult :=
  let follow content target :=
    match max_link_hops with
    | O => throw (elooped path)
    | Datatypes.S hops => sys_write_with_link_depth hops now target ctx content offset
    end in
  _ ← validate path;
  virtual ← trie_resolved path;
  if (virtual : bool) then mret write_miss
  else
    replacement ← apply_mutating_write_hooks path ctx content;
    let content := default content replacement in
    link ← directory_link_target path (oc_zone_id ctx);
    match link with
    | Some target => follow content target
    | None =>
        r ← route_path path (oc_zone_id ctx);
        match r with
        | None => mret write_miss
        | Some r =>
            row ← get_row r path;
            target ← of_result (match row with Some e => dt_link_target path e | None => Ok None end);
            match target with
            | Some target => follow content target
            | None =>
                let entry_type := md_entry_type <$> row in
                if decide (entry_type = Some DT_PIPE) then pipe_write path ctx content
                else if decide (entry_type = Some DT_STREAM) then stream_write now path ctx r content
                else write_locked now path ctx content offset r
            end
        end
    end.

(** [sys_write] of one request *)
Definition sys_write_one (now : Z) (req : WriteRequest) (ctx : OperationContext) : K SysWriteResult :=
  sys_write_with_link_depth 1 now (wq_path req) ctx (wq_content req) (wq_offset req).

(** ** [set_file_mode] *)

Definition sys_set_file_mode (path : string) (ctx : OperationContext) (mode : N) : K () :=
  _ ← validate path;
  if negb (N.ldiff mode 511 =? 0)%N then throw (EInvalidPath "invalid file permission bits")
  else
    r ← route_path path (oc_zone_id ctx);
    r ← ok_or r (EFileNotFound path);
    _ ← check_permission_with_route path (Some r) PermWrite ctx;
    row ← get_row r path;
    self_address ← config kc_self_address;
    if match row with
       | Some entry =>
           (bool_decide (md_entry_type entry ≠ DT_REG) && bool_decide (md_entry_type entry ≠ DT_DIR))
           || negb (has_local_content_origin entry self_address)
       | None => false
       end
    then throw (EInvalidPath "native permissions require a local regular file or directory")
    else
      b ← ok_or (rr_backend r) (EIOError "file mode is unsupported by this route");
      lock ← blocking_acquire path ModeWrite;
      if (lock =? 0)%N then throw (EIOError "file mode lock timed out")
      else
        x ← storage (os_set_file_mode b (rr_backend_path r) mode);
        _ ← release lock;
        _ ← match x with
            | Ok _ => mret ()
            | Err (StIOError e) =>
                if decide (io_kind e = KindNotFound) then throw (EFileNotFound path)
                else throw (EIOError ("set file mode: " +:+ storage_debug (StIOError e)))
            | Err e => throw (EIOError ("set file mode: " +:+ storage_debug e))
            end;
        dispatch_mutation EvMetadataChange path ctx no_extra.
End files.
