(* ===== verification/KernelNames.v ===== *)
(** * Making, moving, copying and removing names

    [mkdir], [rmdir], [sys_unlink], [sys_rename] and [sys_copy] of
    src/rust/kernel/src/kernel/syscall_impl.rs, [destroy_pipe] and
    [destroy_stream_in_zone] of kernel/ipc.rs, and the unmount of
    src/rust/kernel/src/core/dlc.rs. *)

From S2P Require Import Prelude Bytes Codec Table LockState IoLocks Router Rename Pipe PipeManager StreamBuf StreamManager MetaStore KernelTypes Dispatch Kernel KernelFiles.

Section names.
Context {W : Type} `{!ObjectStores W}.
Context {S : Type} `{!KernelStore S}.
Context {L : Type} `{!Locks L}.
Context {E : Type} `{!PipeBackend E}.
Context {B : Type} `{!StreamBackend B}.
Context `{!Texts}.

Abbreviation K := (@K W S L E B).

(** A method of the route's backend, when it has one. *)
Definition route_storage {A} (r : Route) (f : N → W → result StorageError A * W) : K (option (result StorageError A)) :=
  match rr_backend r with Some b => x ← storage (f b); mret (Some x) | None => mret None end.

(** ** [mkdir] *)

Definition materialize_reference_directory (r : Route) (parents exist_ok : bool) : K () :=
  match rr_backend r with
  | None => mret ()
  | Some b =>
      physical ← reads (λ k, os_resolve_physical_path b (rr_backend_path r) (k_storage k));
      match physical with
      | None => mret ()
      | Some _ =>
          x ← storage (os_mkdir b (rr_backend_path r) parents exist_ok);
          is_dir ← reads (λ k, match os_stat b (rr_backend_path r) (k_storage k) with
                               | Ok s => bs_is_dir s | Err _ => false end);
          match x with
          | Ok _ => mret ()
          | Err e =>
              if match e with
                 | StIOError e => exist_ok && bool_decide (io_kind e = KindAlreadyExists) && is_dir
                 | _ => false
                 end
              then mret ()
              else throw (EIOError ("create reference directory: " +:+ storage_debug e))
          end
      end
  end.

(** The parents without a row, deepest first, up to the first that has one.
    Every round shortens [cur], so its length is enough fuel. *)
Fixpoint missing_parents (fuel : nat) (r : Route) (cur : string) : K (list string) :=
  match fuel with
  | O => mret []
  | Datatypes.S fuel =>
      match rsplit_once "/" cur with
      | None | Some ("", _) => mret []
      | Some (cur, _) =>
          if decide (cur = "/") then mret []
          else
            x ← with_metastore_route r (ms_exists cur);
            if or_else true x then mret []
            else rest ← missing_parents fuel r cur; mret (cur :: rest)
      end
  end.

Definition create_parent (ctx : OperationContext) (r : Route) (dir : string) : K () :=
  meta ← build_metadata dir (oc_zone_id ctx) DT_DIR 0 None 0 1 (Some "inode/directory") None None;
  x ← with_metastore_route r (ms_put dir meta);
  store_result ("metastore_put(" +:+ dir +:+ "): ") x.

Definition ensure_parent_directories (path : string) (ctx : OperationContext) (r : Route) : K () :=
  to_create ← missing_parents (String.length path) r path;
  _ ← each (create_parent ctx r) (reverse to_create);
  mret ().

Definition mkdir (path : string) (ctx : OperationContext) (parents exist_ok : bool) : K SysMkdirResult :=
  let done := mkMkdirResult true false in
  _ ← validate path;
  _ ← check_permission path PermWrite ctx;
  r ← route_path path (oc_zone_id ctx);
  r ← ok_or r (EFileNotFound path);
  if decide (rr_backend_path r = "") then
    _ ← when parents (ensure_parent_directories path ctx r);
    mret done
  else
    _ ← supplement_mkdir r path parents exist_ok;
    x ← kernel_with_metastore (rr_mount_point r) (ms_exists path);
    let explicit_exists := or_else false x in
    implicit_exists ←
      if explicit_exists then mret false
      else x ← kernel_with_metastore (rr_mount_point r) (is_implicit_directory path); mret (or_else false x);
    if (explicit_exists || implicit_exists) && negb exist_ok && negb parents
    then throw (EIOError ("Directory already exists: " +:+ path))
    else if explicit_exists then
      _ ← materialize_reference_directory r parents true;
      _ ← when parents (ensure_parent_directories path ctx r);
      mret done
    else
      physical ← reads (λ k, b ← rr_backend r; os_resolve_physical_path b (rr_backend_path r) (k_storage k));
      _ ← match physical with
          | Some _ => materialize_reference_directory r parents (exist_ok || parents)
          | None => _ ← route_storage r (λ b, os_mkdir b (rr_backend_path r) parents true); mret ()
          end;
      _ ← when parents (ensure_parent_directories path ctx r);
      meta ← build_metadata path (rr_zone_id r) DT_DIR 0 None 0 1 (Some "inode/directory") None None;
      x ← with_metastore_route r (ms_put path meta);
      _ ← store_result ("metastore_put(" +:+ path +:+ "): ") x;
      _ ← dispatch_mutation EvDirCreate path ctx no_extra;
      mret done.

(** ** [rmdir] *)

(** The check for children and their removal, on the store. *)
Definition remove_children (path : string) (recursive : bool) : Op S (result KernelError N) := λ s,
  let prefix := dir_of path in
  '(children, s) ← ms_list prefix s;
  match children with
  | Err e => Some (Ok (Err (EIOError ("metastore_list(" +:+ prefix +:+ "): " +:+ meta_debug e))), s)
  | Ok [] => Some (Ok (Ok 0%N), s)
  | Ok children =>
      if negb recursive then Some (Ok (Err (EIOError ("Directory not empty: " +:+ path))), s)
      else
        '(n, s) ← ks_delete_batch (md_path <$> children) s;
        Some (Ok (match n with
                  | Ok n => Ok n
                  | Err e => Err (EIOError ("metastore_delete_batch(" +:+ path +:+ "): " +:+ meta_debug e))
                  end), s)
  end.

(** What follows under the lock once the children are gone. *)
Definition remove_directory (path : string) (recursive : bool) (r : Route) (lock_handle : N) : K () :=
  x ← route_storage r (λ b, os_rmdir b (rr_backend_path r) recursive);
  match x with
  | Some (Err (StIOError e)) =>
      _ ← release lock_handle;
      throw (EIOError (if recursive
                       then "rmdir(" +:+ path +:+ ") failed in the backend: " +:+ storage_debug (StIOError e)
                       else "Directory not empty: " +:+ path))
  | _ =>
      x ← with_metastore_route r (ms_delete path);
      d ← attempt (store_result ("metastore_delete(" +:+ path +:+ "): ") x);
      match d with
      | Err e => _ ← release lock_handle; throw e
      | Ok _ =>
          _ ← fdt_remove_tree path;
          release lock_handle
      end
  end.

Definition rmdir (path : string) (ctx : OperationContext) (recursive : bool) : K SysRmdirResult :=
  let miss := mkRmdirResult false false 0 in
  _ ← validate path;
  _ ← check_permission path PermWrite ctx;
  r ← route_path path (oc_zone_id ctx);
  r ← ok_or r (EFileNotFound path);
  x ← with_metastore_route r (ms_get path);
  row ← store_result ("metastore_get(" +:+ path +:+ "): ") x;
  let entry_type := match row with Some m => md_entry_type m | None => DT_DIR end in
  if decide (entry_type = 2 ∨ entry_type = 5)%N then mret miss
  else
    lock_handle ← blocking_acquire path ModeWrite;
    if (lock_handle =? 0)%N then mret miss
    else
      x ← with_metastore_route r (remove_children path recursive);
      match x with
      | None => _ ← release lock_handle; throw (EIOError "no metastore wired")
      | Some (Err e) => _ ← release lock_handle; throw (EIOError (meta_debug e))
      | Some (Ok (Err e)) => _ ← release lock_handle; throw e
      | Some (Ok (Ok children_deleted)) =>
          _ ← remove_directory path recursive r lock_handle;
          _ ← dispatch_mutation EvDirDelete path ctx no_extra;
          mret (mkRmdirResult true false children_deleted)
      end.

(** ** Pipes, streams and mounts *)

Definition destroy_pipe (path : string) : K () :=
  r ← pipes (λ m, Some (mgr_destroy path m));
  match r with
  | Err e => throw (pipe_mgr_err e)
  | Ok _ => _ ← metastore_delete path; mret ()
  end.

Definition destroy_stream_in_zone (path zone : string) : K () :=
  r ← route_path path zone;
  let address := address_of_route path zone r in
  _ ← match r with
      | Some r =>
          x ← with_metastore_route r (ms_delete path);
          match x with
          | None => throw (EIOError "no stream metastore wired")
          | Some (Err e) => throw (EIOError (meta_display e))
          | Some (Ok _) => mret ()
          end
      | None => _ ← metastore_delete path; mret ()
      end;
  x ← streams (λ m, Some (sm_destroy (address_key address) m));
  match x with
  | Ok _ | Err (StreamNotFound _) => mret ()
  | Err e => throw (stream_mgr_err e)
  end.

(** The directory a mount point lies in. *)
Definition mount_parent (mount_point : string) : string :=
  match rsplit_once "/" mount_point with
  | None | Some ("", _) => "/"
  | Some (parent, _) => parent
  end.

Definition dlc_unmount (mount_point zone_id : string) : K bool :=
  r ← route_path (mount_parent mount_point) "root";
  row_existed ←
    match r with
    | None => mret false
    | Some parent_route =>
        x ← kernel_with_metastore (rr_mount_point parent_route) (ms_delete mount_point);
        match x with
        | Some (Ok existed) => mret existed
        | Some (Err e) => throw (EIOError ("DT_MOUNT metadata delete failed for " +:+ mount_point +:+ ": " +:+ meta_debug e))
        | None => mret false
        end
    end;
  _ ← modify (λ k, set_armed (k_armed k ∖ {[canonicalize_mount_path mount_point zone_id]}) k);
  route_removed ← reads (λ k, (router_remove mount_point zone_id (k_router k)).1);
  _ ← modify (λ k, set_router (router_remove mount_point zone_id (k_router k)).2 k);
  mret ((row_existed : bool) || route_removed).

(** ** [sys_unlink] *)

Definition unlink_result (hit : bool) (entry_type : N) (path : string) (content_id : option string) (size : N) : K SysUnlinkResult :=
  hooks ← config kc_delete_hook_count;
  mret (mkUnlinkResult hit entry_type (0 <? hooks)%N path content_id size).

Definition unlink_miss (path : string) (entry_type : N) : SysUnlinkResult := mkUnlinkResult false entry_type false path None 0.

(** A path without a row: a peer, or the backend alone, may have it. *)
Definition unlink_unlisted (path : string) (ctx : OperationContext) (recursive : bool) (r : Route) : K SysUnlinkResult :=
  peer ← via_federation_unlink r path;
  if decide (peer = Some true) then unlink_result true DT_REG path None 0
  else match rr_backend r with
       | None => mret (unlink_miss path 0)
       | Some b =>
           is_dir ← reads (λ k, match os_stat b (rr_backend_path r) (k_storage k) with
                                | Ok s => bs_is_dir s | Err _ => false end);
           if (is_dir : bool) then
             removed ← rmdir path ctx recursive;
             mret (mkUnlinkResult (rm_hit removed) DT_DIR (rm_post_hook_needed removed) path None 0)
           else
             x ← storage (os_delete_file b (rr_backend_path r));
             match x with
             | Ok _ => unlink_result true DT_REG path None 0
             | Err _ => mret (unlink_miss path 0)
             end
       end.

(** A regular file or a link, with the lock of the path. *)
Definition unlink_locked (path : string) (ctx : OperationContext) (r : Route) (entry : FileMetadata) : K SysUnlinkResult :=
  lock_handle ← blocking_acquire path ModeWrite;
  if (lock_handle =? 0)%N then mret (unlink_miss path (md_entry_type entry))
  else
    x ← with_metastore_route r (ms_delete path);
    d ← attempt (store_result ("metastore_delete(" +:+ path +:+ "): ") x);
    match d with
    | Err e => _ ← release lock_handle; throw e
    | Ok _ =>
        _ ← route_storage r (λ b, os_delete_file b (rr_backend_path r));
        _ ← fdt_remove path;
        _ ← release lock_handle;
        _ ← dispatch_mutation EvFileDelete path ctx
              (mkExtra (Some (md_size entry)) (md_content_id entry) None None false None None);
        _ ← dispatch_native_post (HookDelete path (identity_of ctx));
        unlink_result true (md_entry_type entry) path (md_content_id entry) (md_size entry)
    end.

(** The dispatch on the type of the entry. *)
Definition unlink_entry (path : string) (ctx : OperationContext) (recursive : bool) (r : Route) (entry : FileMetadata) :
    K SysUnlinkResult :=
  let et := md_entry_type entry in
  if decide (et = DT_PIPE) then
    _ ← attempt (destroy_pipe path);
    unlink_result true DT_PIPE path (md_content_id entry) (md_size entry)
  else if decide (et = DT_STREAM) then
    _ ← destroy_stream_in_zone path (oc_zone_id ctx);
    unlink_result true DT_STREAM path (md_content_id entry) (md_size entry)
  else if decide (et = DT_DIR) then
    removed ← rmdir path ctx recursive;
    mret (mkUnlinkResult (rm_hit removed) DT_DIR (rm_post_hook_needed removed) path (md_content_id entry) (md_size entry))
  else if decide (et = DT_MOUNT) then
    let zone_id := match md_target_zone_id entry with
                   | Some z => z
                   | None => default (oc_zone_id ctx) (md_zone_id entry)
                   end in
    removed ← dlc_unmount path zone_id;
    unlink_result removed DT_MOUNT path (md_content_id entry) (md_size entry)
  else if decide (et = 5)%N then mret (unlink_miss path et)
  else
    peer ← via_federation_unlink r path;
    match peer with
    | Some hit => unlink_result hit et path (md_content_id entry) (md_size entry)
    | None => unlink_locked path ctx r entry
    end.

(** The row of a mount point of another zone, which lives in the parent's zone. *)
Definition mount_row (path zone_id : string) : FileMetadata :=
  mkMeta path 0 None 0 1 DT_MOUNT (Some zone_id) None None None None (Some zone_id) None None None.

Definition sys_unlink_single (path : string) (ctx : OperationContext) (recursive : bool) : K SysUnlinkResult :=
  _ ← validate path;
  virtual ← trie_resolved path;
  if (virtual : bool) then mret (unlink_miss path 0)
  else
    _ ← check_permission path PermWrite ctx;
    _ ← dispatch_native_pre (HookDelete path (identity_of ctx));
    r ← route_path path (oc_zone_id ctx);
    match r with
    | None => mret (unlink_miss path 0)
    | Some r =>
        let parent_zone := (extract_zone_from_canonical (rr_mount_point r)).1 in
        if decide (rr_backend_path r = "" ∧ parent_zone ≠ rr_zone_id r)
        then unlink_entry path ctx recursive r (mount_row path (rr_zone_id r))
        else
          row ← get_row r path;
          match row with
          | Some entry => unlink_entry path ctx recursive r entry
          | None => unlink_unlisted path ctx recursive r
          end
    end.

Definition sys_unlink (reqs : list UnlinkRequest) (ctx : OperationContext) : K (list (result KernelError SysUnlinkResult)) :=
  each (λ req, attempt (sys_unlink_single (uq_path req) ctx (uq_recursive req))) reqs.

(** ** [sys_rename] *)

(** The two locks in the order of the paths; a path that is both is locked once. *)
Definition lock_pair (a b : string) : K (N * N) :=
  let '(first, second) := if decide (String.le a b) then (a, b) else (b, a) in
  lock1 ← blocking_acquire first ModeWrite;
  lock2 ← (if decide (first ≠ second) then blocking_acquire second ModeWrite else mret 0%N);
  mret (lock1, lock2).

(** Did one of the two acquires time out? *)
Definition lock_pair_failed (a b : string) (locks : N * N) : bool :=
  (locks.1 =? 0)%N || (bool_decide (a ≠ b) && (locks.2 =? 0)%N).

(** An error after the locks are given back. *)
Definition unlock_throw {A} (locks : N * N) (e : KernelError) : K A :=
  _ ← release_locks locks.1 locks.2; throw e.

(** Is the source there: its row, and whether it is a directory. *)
Definition rename_source (old_path : string) (r : Route) : K (option (bool * N * option FileMetadata)) :=
  old_meta ← get_row r old_path;
  match old_meta with
  | Some m => mret (Some (bool_decide (md_entry_type m = DT_DIR), md_entry_type m, Some m))
  | None =>
      x ← with_metastore_route r (ms_list (dir_of old_path));
      match or_else [] x with
      | [] => mret None
      | _ => mret (Some (true, DT_DIR, None))
      end
  end.

(** What stands at the destination: whether there is something, and a directory. *)
Definition rename_destination (new_path : string) (r : Route) : K (bool * bool) :=
  x ← kernel_with_metastore (rr_mount_point r) (ms_get new_path);
  match found x with
  | Some m => mret (true, bool_decide (md_entry_type m = DT_DIR))
  | None =>
      x ← kernel_with_metastore (rr_mount_point r) (ms_list (dir_of new_path));
      let new_is_dir := negb (bool_decide (or_else [] x = [])) in
      mret (new_is_dir, new_is_dir)
  end.

Definition rename_refusal (is_directory replacing new_is_dir : bool) : option string :=
  if negb replacing then None
  else if is_directory && negb new_is_dir then Some "cannot rename a directory over a file"
  else if negb is_directory && new_is_dir then Some "cannot rename a file over a directory"
  else if is_directory && new_is_dir then Some "cannot replace a directory"
  else None.

(** The bytes, where they are stored by path and there is a backend. *)
Definition move_bytes (old_route new_route : Route) : K (result StorageError bool) :=
  if rr_is_cas old_route then mret (Ok false)
  else
    x ← route_storage old_route (λ b, os_rename b (rr_backend_path old_route) (rr_backend_path new_route));
    mret (match x with
          | Some (Err e) => Err e
          | Some (Ok _) => Ok true
          | None => Ok false
          end).

(** The bytes moved back. *)
Definition move_back (backend_renamed : bool) (old_route new_route : Route) : K (option (result StorageError ())) :=
  if backend_renamed
  then route_storage old_route (λ b, os_rename b (rr_backend_path new_route) (rr_backend_path old_route))
  else mret None.

(** The move within one mount: the bytes first where they are stored by path, then
    the rows, and back again when the rows cannot be moved. *)
Definition rename_move (old_path new_path : string) (old_route new_route : Route) (locks : N * N) : K () :=
  moved ← move_bytes old_route new_route;
  match moved with
  | Err e => unlock_throw locks (EIOError ("sys_rename: backend rename failed: " +:+ storage_debug e))
  | Ok backend_renamed =>
      x ← kernel_with_metastore (rr_mount_point old_route) (ks_rename_path old_path new_path (negb (rr_is_cas old_route)));
      match x with
      | None => throw (EIOError ("sys_rename: no metastore for " +:+ rr_mount_point old_route))
      | Some (Err meta_err) =>
          rollback ← move_back backend_renamed old_route new_route;
          match rollback with
          | Some (Err rollback_err) =>
              unlock_throw locks
                (EIOError ("sys_rename: metastore failed and storage rollback also failed (data at " +:+ new_path
                   +:+ " is inaccessible): meta=" +:+ meta_debug meta_err +:+ " rollback=" +:+ storage_debug rollback_err))
          | _ => unlock_throw locks (EIOError ("sys_rename: metastore.rename_path: " +:+ meta_debug meta_err))
          end
      | Some (Ok _) =>
          if rr_is_cas old_route then
            _ ← route_storage old_route (λ b, os_rename b (rr_backend_path old_route) (rr_backend_path new_route));
            mret ()
          else mret ()
      end
  end.

(** The part of a rename with the two locks held. *)
Definition rename_locked (old_path new_path : string) (ctx : OperationContext) (old_route new_route : Route)
    (locks : N * N) : K SysRenameResult :=
  source ← rename_source old_path old_route;
  match source with
  | None => unlock_throw locks (EFileNotFound old_path)
  | Some (is_directory, entry_type, old_meta) =>
      if decide (entry_type = DT_PIPE ∨ entry_type = DT_STREAM)
      then unlock_throw locks
             (EIOError ("rename not supported for entry type " +:+ pretty entry_type +:+ " at " +:+ old_path))
      else
        dst ← rename_destination new_path new_route;
        match rename_refusal is_directory dst.1 dst.2 with
        | Some why => unlock_throw locks (EFileExists ("sys_rename: " +:+ why +:+ ": " +:+ new_path))
        | None =>
            if decide (rr_mount_point old_route ≠ rr_mount_point new_route)
            then unlock_throw locks
                   (EIOError "sys_rename: cross-mount rename not supported; use copy + delete instead")
            else
              _ ← rename_move old_path new_path old_route new_route locks;
              _ ← fdt_rename old_path new_path;
              _ ← release_locks locks.1 locks.2;
              _ ← dispatch_mutation EvFileRename old_path ctx (mkExtra None None None None false (Some new_path) None);
              _ ← dispatch_native_post (HookRename old_path new_path (identity_of ctx) is_directory);
              hooks ← config kc_rename_hook_count;
              mret (mkRenameResult true true (0 <? hooks)%N is_directory (old_meta ≫= md_content_id)
                      (md_size <$> old_meta) (md_version <$> old_meta) (old_meta ≫= md_modified_at_ms))
        end
  end.

Definition sys_rename (old_path new_path : string) (ctx : OperationContext) : K SysRenameResult :=
  _ ← validate old_path;
  _ ← validate new_path;
  _ ← check_permission old_path PermWrite ctx;
  _ ← check_permission new_path PermWrite ctx;
  _ ← dispatch_native_pre (HookRename old_path new_path (identity_of ctx) false);
  old_route ← route_path old_path (oc_zone_id ctx);
  new_route ← route_path new_path (oc_zone_id ctx);
  match old_route, new_route with
  | Some old_route, Some new_route =>
      _ ← when (bool_decide (rr_mount_point old_route = rr_mount_point new_route))
            (supplement_rename old_route old_path new_path);
      locks ← lock_pair old_path new_path;
      if lock_pair_failed old_path new_path locks
      then _ ← release_locks locks.1 locks.2; mret rename_miss
      else rename_locked old_path new_path ctx old_route new_route locks
  | _, _ => mret rename_miss
  end.

(** ** [sys_copy] *)

Definition copy_via_read_write (src_route dst_route : Route) (src_meta : FileMetadata) (ctx : OperationContext) :
    K (string * N) :=
  match md_content_id src_meta with
  | None | Some "" => throw (EIOError "sys_copy: source has no content_id")
  | Some content_id =>
      content ← route_read src_route content_id ctx;
      x ← of_result (backend_read_or_miss content);
      content ← ok_or x (EIOError ("sys_copy: failed to read source content at " +:+ rr_backend_path src_route));
      b ← ok_or (rr_backend dst_route)
            (EIOError ("sys_copy: failed to write destination at " +:+ rr_backend_path dst_route));
      wr ← storage (os_write_content b content (rr_backend_path dst_route) ctx 0);
      match wr with
      | Ok wr => mret (wr_content_id wr, wr_size wr)
      | Err e => throw (EBackendError ("sys_copy: " +:+ storage_debug e))
      end
  end.

Definition copy_miss (dst_path : string) : SysCopyResult := mkCopyResult false false dst_path None 0 0 0.

(** The bytes a tracked destination stored by path has before it is overwritten. *)
Definition snapshot_destination (dst_path : string) (ctx : OperationContext) (dst_route : Route)
    (old : option FileMetadata) : K (option string) :=
  match old with
  | Some m =>
      if rr_is_cas dst_route then mret None
      else
        let content_id := match md_content_id m with
                          | None | Some "" => rr_backend_path dst_route
                          | Some id => id
                          end in
        b ← ok_or (rr_backend dst_route)
              (EIOError ("sys_copy: destination has tracked metadata but no backend: " +:+ dst_path));
        x ← reads (λ k, os_read_content b content_id ctx (k_storage k));
        match x with
        | Ok content => mret (Some content)
        | Err e => throw (EBackendError ("sys_copy: failed to snapshot destination before overwrite: " +:+ storage_debug e))
        end
  | None => mret None
  end.

(** Are there bytes at the destination that no row tracks? *)
Definition untracked_destination (dst_route : Route) (old : option FileMetadata) : K bool :=
  if rr_is_cas dst_route then mret false
  else match rr_backend dst_route, old with
       | Some b, None =>
           reads (λ k, is_ok (os_get_content_size b (rr_backend_path dst_route) (k_storage k)))
       | _, _ => mret false
       end.

(** The bytes' new place, their size, and whether the copy wrote them. *)
Definition copy_content (ctx : OperationContext) (src_route dst_route : Route) (src_meta : FileMetadata) :
    K (string * N * bool) :=
  let read_write := x ← copy_via_read_write src_route dst_route src_meta ctx; mret (x, true) in
  if decide (rr_mount_point src_route = rr_mount_point dst_route) then
    x ← route_storage src_route (λ b, os_copy_file b (rr_backend_path src_route) (rr_backend_path dst_route));
    match x with
    | Some (Ok wr) => mret (wr_content_id wr, wr_size wr, true)
    | None | Some (Err (StNotSupported _)) =>
        match rr_is_cas src_route, md_content_id src_meta with
        | false, _ | true, (None | Some "") => read_write
        | true, Some content_id => mret (content_id, md_size src_meta, false)
        end
    | Some (Err e) => throw (EBackendError ("sys_copy: " +:+ storage_debug e))
    end
  else read_write.

(** After the row could not be put: the destination as it was. *)
Definition copy_rollback (ctx : OperationContext) (dst_route : Route) (old : option FileMetadata)
    (old_content : option string) (wrote : bool) : K (option (result StorageError ())) :=
  if negb wrote then mret None
  else match old_content, old with
       | Some bytes, _ =>
           x ← route_storage dst_route (λ b, os_write_content b bytes (rr_backend_path dst_route) ctx 0);
           mret ((λ r, match r with Ok _ => Ok () | Err e => Err e end) <$> x)
       | None, None => route_storage dst_route (λ b, os_delete_file b (rr_backend_path dst_route))
       | None, Some _ => mret None
       end.

(** The part of a copy with the two locks held, which are released by the caller. *)
Definition copy_locked (now : Z) (dst_path : string) (ctx : OperationContext) (src_route dst_route : Route)
    (src_meta : FileMetadata) : K (string * N * N * N) :=
  old ← get_row dst_route dst_path;
  _ ← match old with
      | Some m =>
          if decide (md_entry_type m ≠ DT_REG)
          then throw (EInvalidPath ("sys_copy: destination is not a regular file (entry_type="
                       +:+ pretty (md_entry_type m) +:+ "): " +:+ dst_path))
          else mret ()
      | None => mret ()
      end;
  let new_version := sat_add32 (default 0%N (md_version <$> old)) 1 in
  let new_gen := sat_add64 (default 0%N (md_gen <$> old)) 1 in
  old_content ← snapshot_destination dst_path ctx dst_route old;
  untracked ← untracked_destination dst_route old;
  if (untracked : bool)
  then throw (EIOError ("sys_copy: destination backend path already exists (untracked): " +:+ dst_path))
  else
    '(content_id, size, wrote) ← copy_content ctx src_route dst_route src_meta;
    let created_at_ms := match old ≫= md_created_at_ms with Some t => Some t | None => Some now end in
    meta ← build_metadata dst_path (rr_zone_id dst_route) DT_REG size (Some content_id) new_gen new_version
             (md_mime_type src_meta) created_at_ms (Some now);
    x ← kernel_with_metastore (rr_mount_point dst_route) (ms_put dst_path meta);
    match x with
    | None => throw (EIOError ("sys_copy: no metastore for " +:+ rr_mount_point dst_route))
    | Some (Err e) =>
        rollback ← copy_rollback ctx dst_route old old_content wrote;
        match rollback with
        | Some (Err rollback_err) =>
            throw (EIOError ("sys_copy: metastore.put failed (" +:+ meta_debug e +:+ ") and rollback also failed ("
                     +:+ storage_debug rollback_err +:+ "); destination bytes at " +:+ rr_backend_path dst_route
                     +:+ " may remain"))
        | _ => throw (EIOError ("sys_copy: metastore.put: " +:+ meta_debug e))
        end
    | Some (Ok _) => mret (content_id, size, new_version, new_gen)
    end.

Fixpoint sys_copy_with_link_depth (max_link_hops : nat) (now : Z) (src_path dst_path : string)
    (ctx : OperationContext) : K SysCopyResult :=
  _ ← validate src_path;
  _ ← validate dst_path;
  _ ← check_permission src_path PermRead ctx;
  _ ← check_permission dst_path PermWrite ctx;
  src_route ← route_path src_path (oc_zone_id ctx);
  dst_route ← route_path dst_path (oc_zone_id ctx);
  match src_route, dst_route with
  | Some src_route, Some dst_route =>
      row ← get_row src_route src_path;
      src_meta ← ok_or row (EFileNotFound src_path);
      link ← of_result (dt_link_target src_path src_meta);
      match link with
      | Some target =>
          match max_link_hops with
          | O => throw (EPermissionDenied ("DT_LINK chain rejected (ELOOP) at " +:+ src_path))
          | Datatypes.S hops => sys_copy_with_link_depth hops now target dst_path ctx
          end
      | None =>
          if decide (md_entry_type src_meta ≠ DT_REG)
          then throw (EInvalidPath ("sys_copy: source is not a regular file (entry_type="
                       +:+ pretty (md_entry_type src_meta) +:+ "): " +:+ src_path))
          else
            locks ← lock_pair src_path dst_path;
            if lock_pair_failed src_path dst_path locks
            then _ ← release_locks locks.1 locks.2; mret (copy_miss dst_path)
            else
              copied ← attempt (copy_locked now dst_path ctx src_route dst_route src_meta);
              _ ← release_locks locks.1 locks.2;
              '(content_id, size, version, gen) ← of_result copied;
              _ ← dispatch_mutation EvFileCopy dst_path ctx
                    (mkExtra (Some size) (Some content_id) (Some version) (Some gen) false None None);
              mret (mkCopyResult true false dst_path (Some content_id) size version gen)
      end
  | _, _ => mret (copy_miss dst_path)
  end.

Definition sys_copy (now : Z) (src_path dst_path : string) (ctx : OperationContext) : K SysCopyResult :=
  sys_copy_with_link_depth 1 now src_path dst_path ctx.
End names.
