(* ===== verification/KernelList.v ===== *)
(** * Advisory locks, inspecting and listing

    The advisory locks of src/rust/kernel/src/kernel/locks.rs, and [sys_stat],
    [access], [is_mounted] and the directory listings of
    src/rust/kernel/src/kernel/syscall_impl.rs, with the view of the zones
    (federation/coordinator_wiring.rs) and the registry of synthetic views
    (core/synthetic_view.rs). *)

From S2P Require Import Prelude Bytes Codec Table LockState Rename IoLocks Router Pipe PipeManager StreamBuf StreamManager MetaStore KernelTypes Dispatch Kernel KernelFiles.


(** ** Advisory locks by path

    src/rust/kernel/src/kernel/locks.rs: which lock table and which key a path
    stands for, and [sys_lock] and [sys_unlock] on it. *)

(** A lock table: the lock manager's own, or a zone's of the coordinator. *)
Inductive LocksAt := LocalTable | ZoneTable (zone : string).

#[global] Instance LocksAt_eq_dec : EqDecision LocksAt.
Proof. solve_decision. Defined.

Section locks.
Context {W : Type} `{!ObjectStores W}.
Context {S : Type} `{!KernelStore S}.
Context {L : Type} `{!Locks L}.
Context {E : Type} `{!PipeBackend E}.
Context {B : Type} `{!StreamBackend B}.
Context `{!Texts}.

Abbreviation K := (@K W S L E B).
Abbreviation Kernel := (Kernel W S L E B).

Definition advisory_lock_target (path lookup_zone : string) : K (LocksAt * string) :=
  _ ← validate path;
  let path := normalize_path path in
  r ← route_path path lookup_zone;
  zones ← reads k_zone_locks;
  match zones with
  | None =>
      if decide (is_Some (r ≫= rr_target_zone_id))
      then throw (EIOError ("advisory lock at " +:+ path +:+ ": the routed zone has no distributed coordinator"))
      else mret (LocalTable, path)
  | Some zones =>
      let zone := match r with Some r => rr_zone_id r | None => lookup_zone end in
      let key := match r with
                 | Some r => match rr_target_zone_id r with
                             | Some _ => "/" +:+ rr_backend_path r
                             | None => path
                             end
                 | None => path
                 end in
      match zones !! zone with
      | Some _ => mret (ZoneTable zone, key)
      | None => throw (EIOError ("advisory lock in zone " +:+ zone +:+ ": " +:+ zone_locks_error zone))
      end
  end.

Definition table_at (t : LocksAt) (k : Kernel) : option L :=
  match t with
  | LocalTable => Some (lm_locks (k_locks k))
  | ZoneTable zone => k_zone_locks k ≫= (.!! zone)
  end.

Definition set_table_at (t : LocksAt) (l : L) (k : Kernel) : Kernel :=
  match t with
  | LocalTable => set_locks (with_locks l (k_locks k)) k
  | ZoneTable zone => set_zone_locks (<[zone := l]> <$> k_zone_locks k) k
  end.

(** A method of the table; [advisory_lock_target] has found it. *)
Definition on_table {A} (t : LocksAt) (f : L → result string A * L) : K (result string A) := λ k,
  l ← table_at t k; let '(r, l) := f l in Some (Ok r, set_table_at t l k).

Definition advisory_lock_info (path zone : string) : K (option LockInfo) :=
  x ← attempt (advisory_lock_target path zone);
  match x with
  | Ok (t, key) =>
      reads (λ k, l ← table_at t k;
                  info ← lk_get_lock l key;
                  Some (mkLockInfo path (li_max_holders info) (li_holders info)))
  | Err _ => mret None
  end.

(** [generated_id] is the identifier a new lock gets. *)
Definition sys_lock (generated_id : string) (now : N) (path lock_id : string) (max_holders ttl_secs : N)
    (holder_info : string) : K (option string) :=
  '(t, key) ← advisory_lock_target path ROOT_ZONE_ID;
  let id := if decide (lock_id = "") then generated_id else lock_id in
  x ← on_table t (λ l, if decide (lock_id = "")
                       then lk_acquire l key id max_holders (clamp_ttl ttl_secs) holder_info now
                       else lk_extend l key id (clamp_ttl ttl_secs) now);
  match x with
  | Ok done => mret (if (done : bool) then Some id else None)
  | Err e => throw (EIOError ("sys_lock(" +:+ path +:+ "): " +:+ e))
  end.

Definition sys_unlock (path lock_id : string) (force : bool) : K bool :=
  '(t, key) ← advisory_lock_target path ROOT_ZONE_ID;
  x ← on_table t (λ l, if force then lk_force_release l key else lk_release l key lock_id);
  match x with
  | Ok done => mret done
  | Err e => throw (EIOError ("sys_unlock(" +:+ path +:+ "): " +:+ e))
  end.
End locks.

Record StatResult := mkStat {
  st_path : string;
  st_size : N;
  st_content_id : option string;
  st_mime_type : string;
  st_is_directory : bool;
  st_entry_type : N;
  st_mode : N;
  st_version : N;
  st_gen : N;
  st_zone_id : option string;
  st_created_at_ms : option Z;
  st_modified_at_ms : option Z;
  st_last_writer_address : option string;
  st_lock : option LockInfo;
  st_link_target : option string;
  st_owner_id : option string }.

Definition MODE_DIR : N := 493.
Definition MODE_FILE : N := 420.

Definition is_dir_type (entry_type : N) : bool := bool_decide (entry_type = DT_DIR ∨ entry_type = DT_MOUNT).

Definition mime_of (is_dir : bool) : string :=
  if is_dir then "inode/directory" else "application/octet-stream".

(** [StatResult::from] *)
Definition stat_of (m : FileMetadata) : StatResult :=
  let is_dir := is_dir_type (md_entry_type m) in
  mkStat (md_path m) (if is_dir && (md_size m =? 0)%N then 4096 else md_size m) (md_content_id m)
    (default (mime_of is_dir) (md_mime_type m)) is_dir (md_entry_type m)
    (if is_dir then MODE_DIR else MODE_FILE) (md_version m) (md_gen m) (md_zone_id m)
    (md_created_at_ms m) (md_modified_at_ms m) (md_last_writer_address m) None (md_link_target m) (md_owner_id m).

Definition apply_reference_metadata (s : StatResult) (m : ReferenceMetadata) : StatResult :=
  mkStat (st_path s) (rf_size m) (st_content_id s)
    (if rf_is_dir m then "inode/directory" else st_mime_type s) (rf_is_dir m)
    (if rf_is_dir m then DT_DIR else DT_REG) (rf_mode m) (st_version s) (st_gen s) (st_zone_id s)
    (st_created_at_ms s) (rf_modified_at_ms m) (st_last_writer_address s) (st_lock s) (st_link_target s) (st_owner_id s).

Definition with_lock (l : option LockInfo) (s : StatResult) : StatResult :=
  mkStat (st_path s) (st_size s) (st_content_id s) (st_mime_type s) (st_is_directory s) (st_entry_type s)
    (st_mode s) (st_version s) (st_gen s) (st_zone_id s) (st_created_at_ms s) (st_modified_at_ms s)
    (st_last_writer_address s) l (st_link_target s) (st_owner_id s).

(** A path without a row: size, type and mode from what was found. *)
Definition bare_stat (path zone_id : string) (size entry_type mode version : N) : StatResult :=
  let is_dir := is_dir_type entry_type in
  mkStat path size None (mime_of is_dir) is_dir entry_type mode version 0 (Some zone_id) None None None None None None.

Definition stat_of_backend (path zone_id : string) (s : BackendStat) : StatResult :=
  if bs_is_dir s then bare_stat path zone_id 4096 DT_DIR MODE_DIR 0
  else bare_stat path zone_id (bs_size s) DT_REG MODE_FILE 0.

Definition ZONES_PATH_PREFIX : string := "/__sys__/zones".

(** A synthetic view: its prefix, whether it is for administrators, its listing. *)
Record SyntheticView := mkView {
  sv_prefix : string;
  sv_admin_only : bool;
  sv_readdir : string → list (string * N) }.

Definition views_register (v : SyntheticView) (vs : list SyntheticView) : list SyntheticView :=
  filter (λ p, sv_prefix p ≠ sv_prefix v) vs ++ [v].

Fixpoint views_resolve (vs : list SyntheticView) (path : string) : option (SyntheticView * string) :=
  match vs with
  | [] => None
  | v :: vs =>
      if decide (path = sv_prefix v) then Some (v, "")
      else match strip_prefix (sv_prefix v) path ≫= strip_prefix "/" with
           | Some sub => Some (v, sub)
           | None => views_resolve vs path
           end
  end.

Definition zones_view (zones : list string) : SyntheticView :=
  mkView ZONES_PATH_PREFIX false
    (λ sub_path, if decide (sub_path = "") then (λ z, (z, DT_DIR)) <$> zones else []).

Record ReadDirResult := mkPageOf {
  rp_items : list (string * N);
  rp_next_cursor : option string;
  rp_has_more : bool }.

(** The index of the first entry behind the cursor. *)
Fixpoint start_index (cursor : string) (all : list (string * N)) : nat :=
  match all with
  | [] => 0
  | (p, _) :: all => if decide (String.le p cursor) then Datatypes.S (start_index cursor all) else 0
  end.

Definition start_of (cursor : option string) (all : list (string * N)) : nat :=
  match cursor with Some c => start_index c all | None => 0 end.

(** A page of a synthetic view. *)
Definition page_of (all : list (string * N)) (start limit : nat) : ReadDirResult :=
  let items := take limit (drop start all) in
  let has_more := bool_decide (start + limit < length all) in
  mkPageOf items (if has_more then fst <$> last items else None) has_more.

(** A page of a directory; the sum of start and limit is one of [usize], and the
    slice panics when it wraps below the start. *)
Definition dir_page (all : list (string * N)) (start : nat) (limit : N) : option ReadDirResult :=
  let end_ := N.to_nat (N.min (wrap64 (N.of_nat start + limit)) (N.of_nat (length all))) in
  if decide (start ≤ end_) then
    let items := take (end_ - start) (drop start all) in
    let has_more := bool_decide (end_ < length all) in
    Some (mkPageOf items (if has_more then fst <$> last items else None) has_more)
  else None.

(** The listing under construction: type and zone of each path. *)
Abbreviation Seen := (gmap string (N * option string)).

(** [seen.entry(path).or_insert(v)] *)
Definition or_insert (path : string) (v : N * option string) (seen : Seen) : Seen :=
  match seen !! path with Some _ => seen | None => <[path := v]> seen end.

(** The directories a row implies, relative to the listing. *)
Definition implied_relative_dirs (global_prefix path : string) (recursive : bool) : list string :=
  let dirs := (slash_cuts "" (sdrop (String.length global_prefix) path)).*1 in
  if recursive then dirs else take 1 dirs.

(** [last] is the directory noted last; [out] those noted, with the row's zone. *)
Definition note_implied (global_prefix : string) (zone : option string) (rels : list string)
    (st : string * list (string * option string)) : string * list (string * option string) :=
  foldl (λ st rel, if decide (rel = st.1) then st else (rel, st.2 ++ [(global_prefix +:+ rel, zone)])) st rels.

Section listing.
Context {W : Type} `{!ObjectStores W}.
Context {S : Type} `{!KernelStore S}.
Context {L : Type} `{!Locks L}.
Context {E : Type} `{!PipeBackend E}.
Context {B : Type} `{!StreamBackend B}.
Context `{!Texts}.

Abbreviation K := (@K W S L E B).
Abbreviation Kernel := (Kernel W S L E B).

(** ** [sys_stat] *)

Definition reference_file_metadata (r : Route) (entry : FileMetadata) (local_address : option string) (w : W) :
    option (result IoError ReferenceMetadata) :=
  if bool_decide (md_entry_type entry ≠ DT_REG) || bool_decide (md_content_id entry ≠ Some (rr_backend_path r))
     || negb (has_local_content_origin entry local_address)
  then None
  else b ← rr_backend r; os_reference_metadata b (rr_backend_path r) w.

Definition route_reference (r : Route) (w : W) : option (result IoError ReferenceMetadata) :=
  b ← rr_backend r; os_reference_metadata b (rr_backend_path r) w.

Definition live_stream_tail (key : string) : K (option N) := λ k,
  let '(t, m) := sm_tail key (k_streams k) in Some (Ok t, set_streams m k).

Definition stream_last_append_ms (key : string) : K (option Z) := λ k,
  let '(t, m) := sm_last_append_ms key (k_streams k) in Some (Ok t, set_streams m k).

(** A directory of this node whose native directory is there. *)
Definition directory_reference (r : Route) (entry : FileMetadata) (local_address : option string) (w : W) :
    option ReferenceMetadata :=
  if bool_decide (md_entry_type entry = DT_DIR) && has_local_content_origin entry local_address
  then match route_reference r w with
       | Some (Ok m) => if rf_is_dir m then Some m else None
       | _ => None
       end
  else None.

(** The row's own answer: a stream's size and time come from the stream. *)
Definition stat_row (path zone_id : string) (r : Route) (entry : FileMetadata) : K StatResult :=
  lock ← advisory_lock_info path zone_id;
  let key := address_key (address_of_route path zone_id (Some r)) in
  let is_dir := is_dir_type (md_entry_type entry) in
  size ←
    if decide (md_entry_type entry = DT_STREAM) then t ← live_stream_tail key; mret (default (md_size entry) t)
    else mret (if is_dir && (md_size entry =? 0)%N then 4096%N else md_size entry);
  modified ←
    if decide (md_entry_type entry = DT_STREAM)
    then t ← stream_last_append_ms key; mret (match t with Some t => Some t | None => md_modified_at_ms entry end)
    else mret (md_modified_at_ms entry);
  mret (mkStat path size (md_content_id entry) (default (mime_of is_dir) (md_mime_type entry)) is_dir
          (md_entry_type entry) (if is_dir then MODE_DIR else MODE_FILE) (md_version entry) (md_gen entry)
          (md_zone_id entry) (md_created_at_ms entry) modified (md_last_writer_address entry) lock
          (md_link_target entry) (md_owner_id entry)).

Definition stat_from_metadata (path zone_id : string) (r : Route) (entry : FileMetadata) : K (option StatResult) :=
  self_address ← config kc_self_address;
  reference ← reads (λ k, reference_file_metadata r entry self_address (k_storage k));
  match reference with
  | Some (Err _) => mret None
  | Some (Ok m) =>
      lock ← advisory_lock_info path zone_id;
      mret (Some (apply_reference_metadata (with_lock lock (stat_of entry)) m))
  | None =>
      directory ← reads (λ k, directory_reference r entry self_address (k_storage k));
      match directory with
      | Some m =>
          lock ← advisory_lock_info path zone_id;
          mret (Some (apply_reference_metadata (with_lock lock (stat_of entry)) m))
      | None => s ← stat_row path zone_id r entry; mret (Some s)
      end
  end.

Definition zones_view_stat (path : string) : K (option StatResult) :=
  zones ← config kc_list_zones;
  self_address ← config kc_self_address;
  mret (suffix ← strip_prefix ZONES_PATH_PREFIX path;
        if decide (suffix = "" ∨ suffix = "/")
        then Some (bare_stat path "root" 4096 DT_DIR 365 0)
        else
          let zone_id := trim_start_matches "/" suffix in
          if bool_decide (zone_id = "") || scontains "/" zone_id || bool_decide (zone_id ∉ zones) then None
          else Some (mkStat path 0 None "application/x-nexus-zone" false DT_REG 292 0 0 (Some zone_id) None None
                       self_address None None None)).

(** [FileMetadata::default()] at a path and in a zone *)
Definition default_row (path zone_id : string) : FileMetadata :=
  mkMeta path 0 None 0 0 DT_REG (Some zone_id) None None None None None None None None.

(** A path without a row: the native file, the rows below it, the backend, a peer. *)
Definition stat_unlisted (path : string) (r : Route) : K (option StatResult) :=
  reference ← reads (λ k, route_reference r (k_storage k));
  match reference with
  | Some (Ok m) => mret (Some (apply_reference_metadata (stat_of (default_row path (rr_zone_id r))) m))
  | _ =>
      x ← with_metastore_route r (is_implicit_directory path);
      if or_else false x then mret (Some (bare_stat path (rr_zone_id r) 4096 DT_DIR MODE_DIR 0))
      else
        found ← reads (λ k, match rr_backend r with
                            | Some b => match os_stat b (rr_backend_path r) (k_storage k) with
                                        | Ok s => Some s | Err _ => None end
                            | None => None
                            end);
        match found with
        | Some s => mret (Some (stat_of_backend path (rr_zone_id r) s))
        | None => s ← via_federation_stat r path; mret (stat_of_backend path (rr_zone_id r) <$> s)
        end
  end.

Definition sys_stat (path zone_id : string) : K (option StatResult) :=
  if negb (is_ok (validate_path_fast path)) then mret None
  else
    virtual ← trie_resolved path;
    if (virtual : bool) then mret None
    else
      zone_stat ← zones_view_stat path;
      match zone_stat with
      | Some s => mret (Some s)
      | None =>
          r ← route_path path zone_id;
          match r with
          | None =>
              x ← attempt (metastore_get path);
              mret (match x with Ok row => stat_of <$> row | Err _ => None end)
          | Some r =>
              if decide (rr_backend_path r = "")
              then mret (Some (bare_stat path (rr_zone_id r) 4096 DT_MOUNT MODE_DIR 1))
              else
                row ← get_row r path;
                match row with
                | Some entry => stat_from_metadata path zone_id r entry
                | None => stat_unlisted path r
                end
          end
      end.

Definition access (path zone_id : string) : K bool :=
  if negb (is_ok (validate_path_fast path)) then mret false
  else
    r ← route_path path zone_id;
    match r with
    | None => mret false
    | Some r => x ← with_metastore_route r (ms_exists path); mret (or_else false x)
    end.

Definition is_mounted (path zone_id : string) : K bool :=
  r ← route_path path zone_id;
  mret (is_ok (validate_path_fast path) && bool_decide (is_Some r)).

(** ** Listings *)

(** The type a row is listed with; [None] when its native file is gone. *)
Definition listed_type (has_local_references : bool) (zone_id : string) (local_address : option string)
    (meta : FileMetadata) (k : Kernel) : option N :=
  let child_route := if has_local_references && bool_decide (md_entry_type meta = DT_REG)
                     then route (k_router k) (md_path meta) zone_id else None in
  match child_route with
  | None => Some (md_entry_type meta)
  | Some cr =>
      match reference_file_metadata cr meta local_address (k_storage k) with
      | Some (Ok m) => Some (if rf_is_dir m then DT_DIR else DT_REG)
      | Some (Err e) => if decide (io_kind e = KindNotFound) then None else Some (md_entry_type meta)
      | None => Some (md_entry_type meta)
      end
  end.

(** One row of the prefix scan. *)
Definition scan_row (global_prefix : string) (recursive : bool) (type_of : FileMetadata → option N)
    (st : Seen * (string * list (string * option string))) (meta : FileMetadata) :
    Seen * (string * list (string * option string)) :=
  if negb (starts_with global_prefix (md_path meta)) then st
  else match type_of meta with
       | None => st
       | Some entry_type =>
           let depth := count_slashes (md_path meta) in
           let parent_depth := count_slashes global_prefix in
           let noted := if bool_decide (parent_depth < depth)
                        then note_implied global_prefix (md_zone_id meta)
                               (implied_relative_dirs global_prefix (md_path meta) recursive) st.2
                        else st.2 in
           (if negb recursive && bool_decide (depth ≠ parent_depth) then st.1
            else or_insert (md_path meta) (entry_type, md_zone_id meta) st.1, noted)
       end.

(** All rows of the scan, and then the directories they imply. *)
Definition scan_rows (global_prefix : string) (recursive : bool) (type_of : FileMetadata → option N)
    (rows : list FileMetadata) (seen : Seen) : Seen :=
  let '(seen, (_, implied)) := foldl (scan_row global_prefix recursive type_of) (seen, ("", [])) rows in
  foldl (λ seen d, or_insert d.1 (DT_DIR, d.2) seen) seen implied.

(** One name of the backend's listing; a synced mount gets a row for it. *)
Definition scan_backend_entry (now : Z) (r : Route) (b : N) (parent_for_join : string) (armed : bool)
    (seen : Seen) (name : string) : K Seen :=
  let is_dir := ends_with "/" name in
  let clean := trim_end "/" name in
  if decide (clean = "") then mret seen
  else
    let etype := if is_dir then DT_DIR else DT_REG in
    let child_path := parent_for_join +:+ "/" +:+ clean in
    let known := bool_decide (is_Some (seen !! child_path)) in
    let backend_rel := if decide (rr_backend_path r = "") then clean
                       else trim_end "/" (rr_backend_path r) +:+ "/" +:+ clean in
    size ← reads (λ k, match os_stat b backend_rel (k_storage k) with Ok s => bs_size s | Err _ => 0%N end);
    _ ← when (armed && negb known)
          (_ ← observe_backend_entry now child_path etype (rr_zone_id r) (if is_dir then 0%N else size)
                 (if is_dir then None else Some backend_rel);
           mret ());
    mret (or_insert child_path (etype, Some (rr_zone_id r)) seen).

Fixpoint scan_backend (now : Z) (r : Route) (b : N) (parent_for_join : string) (armed : bool) (seen : Seen)
    (names : list string) : K Seen :=
  match names with
  | [] => mret seen
  | name :: names =>
      seen ← scan_backend_entry now r b parent_for_join armed seen name;
      scan_backend now r b parent_for_join armed seen names
  end.

(** [s.rsplit('/').next()] *)
Definition basename (path : string) : string :=
  match rsplit_once "/" path with Some (_, name) => name | None => path end.

Definition scan_peer (r : Route) (parent_for_join : string) (seen : Seen) (entries : list (string * N)) : Seen :=
  foldl (λ seen e, if decide (basename e.1 = "") then seen
                   else or_insert (parent_for_join +:+ "/" +:+ basename e.1) (e.2, Some (rr_zone_id r)) seen)
    seen entries.

Definition scan_mount_into (now : Z) (r : Route) (scan_root : string) (recursive : bool) (seen : Seen) : K Seen :=
  let global_prefix := if decide (scan_root = "/") then "/" else scan_root +:+ "/" in
  let parent_for_join := if decide (scan_root = "/") then "" else trim_end "/" scan_root in
  x ← with_metastore_route r (ms_list global_prefix);
  self_address ← config kc_self_address;
  has_local_references ← reads (λ k,
    bool_decide (is_Some (b ← rr_backend r; os_resolve_physical_path b "" (k_storage k))));
  seen ← reads (λ k, scan_rows global_prefix recursive
                       (λ meta, listed_type has_local_references (rr_zone_id r) self_address meta k)
                       (or_else [] x) seen);
  names ← reads (λ k, b ← rr_backend r;
                      match os_list_dir b (rr_backend_path r) (k_storage k) with
                      | Ok names => Some (b, names)
                      | Err _ => None
                      end);
  match names with
  | Some (b, names) =>
      armed ← reads (λ k, bool_decide (rr_mount_point r ∈ k_armed k));
      scan_backend now r b parent_for_join armed seen names
  | None =>
      entries ← via_federation_readdir r scan_root;
      mret (match entries with Some entries => scan_peer r parent_for_join seen entries | None => seen end)
  end.

(** The mounts below a recursive listing. *)
Fixpoint scan_children (now : Z) (zone_id : string) (seen : Seen) (children : list string) : K Seen :=
  match children with
  | [] => mret seen
  | child :: children =>
      r ← route_path child zone_id;
      seen ← match r with Some r => scan_mount_into now r child true seen | None => mret seen end;
      scan_children now zone_id seen children
  end.

(** Entries of the root zone and of the caller's are for everyone. *)
Definition zone_visible (zone_id : string) (entry_zone : option string) : bool :=
  let ez := default ROOT_ZONE_ID entry_zone in
  bool_decide (ez = ROOT_ZONE_ID) || bool_decide (ez = zone_id).

Definition sys_readdir (now : Z) (parent_path zone_id : string) (is_admin : bool) (opts : ReaddirOpts) :
    K (list (string * N)) :=
  if negb (is_ok (validate_path_fast parent_path)) then mret []
  else
    let normalized := if bool_decide (parent_path ≠ "/") && ends_with "/" parent_path
                      then trim_end "/" parent_path else parent_path in
    r ← route_path normalized zone_id;
    match r with
    | None => mret []
    | Some r =>
        let needs_zone_filter := negb is_admin && bool_decide (zone_id ≠ ROOT_ZONE_ID) in
        seen ← scan_mount_into now r normalized (ro_recursive opts) ∅;
        seen ←
          if ro_recursive opts
          then children ← reads (λ k, child_mounts_under (k_router k) normalized zone_id);
               scan_children now zone_id seen children
          else mret seen;
        let listed := entries seen in
        let listed := if needs_zone_filter
                      then filter (λ e, zone_visible zone_id e.2.2 = true) listed else listed in
        let out := (λ e : string * (N * option string), (e.1, e.2.1)) <$> listed in
        mret (match ro_limit opts with Some limit => take (N.to_nat (N.min limit (N.of_nat (length out)))) out | None => out end)
    end.

Definition sys_readdir_checked (now : Z) (parent_path zone_id : string) (is_admin : bool) (opts : ReaddirOpts) :
    K (list (string * N)) :=
  es ← sys_readdir now parent_path zone_id is_admin opts;
  match es with
  | [] =>
      s ← sys_stat parent_path zone_id;
      match s with
      | None => throw (EFileNotFound parent_path)
      | Some s => if negb (st_is_directory s) then throw (EInvalidPath ("not a directory: " +:+ parent_path))
                  else mret []
      end
  | _ => mret es
  end.

Definition empty_page : ReadDirResult := mkPageOf [] None false.

(** [views] are the registered synthetic views. *)
Definition readdir_paged (views : list SyntheticView) (now : Z) (parent_path zone_id : string) (is_admin : bool)
    (limit : N) (cursor : option string) : K ReadDirResult :=
  match (if starts_with "/__sys__/" parent_path then views_resolve views parent_path else None) with
  | Some (v, sub_path) =>
      if sv_admin_only v && negb is_admin then mret empty_page
      else
        let all := merge_sort key_le (sv_readdir v sub_path) in
        mret (page_of all (start_of cursor all)
                (N.to_nat (N.min (if (limit =? 0)%N then 10000 else limit) (N.of_nat (length all)))))
  | None =>
      all ← sys_readdir now parent_path zone_id is_admin readdir_default;
      if (limit =? 0)%N then mret (mkPageOf all None false)
      else λ k, match dir_page all (start_of cursor all) limit with Some p => Some (Ok p, k) | None => None end
  end.
End listing.

(** ** Writing several files at once

    [sys_write] and its batch path [sys_write_batch_impl] of
    src/rust/kernel/src/kernel/syscall_impl.rs: the locks of all paths in the order
    of the paths, the bytes one file after the other, the rows, the release of
    the locks, and the notifications. *)

Section batch.
Context {W : Type} `{!ObjectStores W}.
Context {S : Type} `{!KernelStore S}.
Context {L : Type} `{!Locks L}.
Context {E : Type} `{!PipeBackend E}.
Context {B : Type} `{!StreamBackend B}.
Context `{!Texts}.

Abbreviation K := (@K W S L E B).

(** A request with what the phases have found out about it. *)
Record BatchItem := mkItem {
  bi_req : WriteRequest;
  bi_pre : result KernelError (option string);
  bi_route : option Route;
  bi_lock : N }.

(** Does a request lead through a link? *)
Definition batch_has_link (ctx : OperationContext) (req : WriteRequest) : K bool :=
  x ← attempt (directory_link_target (wq_path req) (oc_zone_id ctx));
  match x with
  | Err _ | Ok (Some _) => mret true
  | Ok None =>
      s ← sys_stat (wq_path req) (oc_zone_id ctx);
      mret (match s with Some s => bool_decide (st_entry_type s = DT_LINK) | None => false end)
  end.

(** [reqs.iter().any(..)], which stops at the first. *)
Fixpoint any_link (ctx : OperationContext) (reqs : list WriteRequest) : K bool :=
  match reqs with
  | [] => mret false
  | req :: reqs => b ← batch_has_link ctx req; if (b : bool) then mret true else any_link ctx reqs
  end.

(** The hooks of a request, and the routes, which no hook changes. *)
Definition batch_prepare (ctx : OperationContext) (req : WriteRequest) : K BatchItem :=
  pre ← attempt (apply_mutating_write_hooks (wq_path req) ctx (wq_content req));
  r ← route_path (wq_path req) (oc_zone_id ctx);
  mret (mkItem req pre r 0).

Definition with_handle (handle : N) (i : BatchItem) : BatchItem :=
  mkItem (bi_req i) (bi_pre i) (bi_route i) handle.

(** Index and path of the items, in the order of the paths. *)
Definition lock_order (items : list BatchItem) : list (nat * BatchItem) :=
  merge_sort (λ a b, String.le (wq_path (bi_req a.2)) (wq_path (bi_req b.2))) (imap pair items).

Fixpoint batch_lock (order : list (nat * BatchItem)) (items : list BatchItem) : K (list BatchItem) :=
  match order with
  | [] => mret items
  | (idx, i) :: order =>
      if bool_decide (is_Some (bi_route i)) && is_ok (bi_pre i) then
        handle ← blocking_acquire (wq_path (bi_req i)) ModeWrite;
        batch_lock order (<[idx := with_handle handle i]> items)
      else batch_lock order items
  end.

(** The bytes of one item, its answer, and the row it needs. *)
Definition batch_write (ctx : OperationContext) (i : BatchItem) :
    K (result KernelError SysWriteResult * option (Route * FileMetadata)) :=
  match bi_pre i, bi_route i with
  | Err e, _ => mret (Err e, None)
  | Ok _, None => mret (Ok write_miss, None)
  | Ok replacement, Some r =>
      if (bi_lock i =? 0)%N then mret (Ok write_miss, None)
      else
        match rr_backend r with
        | None => mret (Ok write_miss, None)
        | Some b =>
            w ← storage (os_write_content b (default (wq_content (bi_req i)) replacement) (rr_backend_path r) ctx 0);
            match w with
            | Err e => mret (Err (EBackendError (storage_debug e)), None)
            | Ok wr =>
                old ← get_row r (wq_path (bi_req i));
                meta ← build_metadata (wq_path (bi_req i)) (rr_zone_id r) DT_REG (wr_size wr)
                         (Some (wr_content_id wr)) (sat_add64 (default 0%N (md_gen <$> old)) 1)
                         (wrap32 (default 0%N (md_version <$> old) + 1)) None None None;
                result ← file_write_result meta wr old;
                mret (Ok result, Some (r, meta))
            end
        end
  end.

(** Rows of mounts with a store of their own, put one by one; [None] marks those
    left for the store of the kernel. *)
Definition batch_put_own (row : nat * (Route * FileMetadata)) :
    K (nat * option (result KernelError ())) :=
  let '(idx, (r, meta)) := row in
  match rr_metastore r with
  | None => mret (idx, None)
  | Some _ =>
      x ← with_metastore_route r (ms_put (md_path meta) meta);
      put ← attempt (store_result "" x);
      mret (idx, Some put)
  end.

(** The answers with the rows' errors in place of the writes' results. *)
Definition set_error (results : list (result KernelError SysWriteResult)) (idx : nat) (put : result KernelError ()) :
    list (result KernelError SysWriteResult) :=
  match put with Ok _ => results | Err e => <[idx := Err e]> results end.

Definition batch_put_global (items : list (string * FileMetadata)) : K () :=
  global ← config kc_metastore;
  x ← with_store global (ks_put_batch items);
  store_result "metastore_put_batch: " x.

Definition batch_commit (rows : list (nat * (Route * FileMetadata)))
    (results : list (result KernelError SysWriteResult)) : K (list (result KernelError SysWriteResult)) :=
  puts ← each batch_put_own rows;
  let results := foldl (λ rs p, match p.2 with Some put => set_error rs p.1 put | None => rs end) results puts in
  let global := filter (λ row, rr_metastore row.2.1 = None) rows in
  match global with
  | [] => mret results
  | _ =>
      put ← attempt (batch_put_global ((λ row, (md_path row.2.2, row.2.2)) <$> global));
      mret (foldl (λ rs row, set_error rs row.1 put) results global)
  end.

Definition batch_release (items : list BatchItem) : K () :=
  _ ← each (λ i, when (0 <? bi_lock i)%N (release (bi_lock i))) items; mret ().

Definition batch_notify (ctx : OperationContext) (x : WriteRequest * result KernelError SysWriteResult) : K () :=
  match x.2 with
  | Ok r => when (ww_hit r) (notify_file_write (wq_path x.1) ctx r)
  | Err _ => mret ()
  end.

(** The rows the items need, by index. *)
Definition rows_of (written : list (result KernelError SysWriteResult * option (Route * FileMetadata))) :
    list (nat * (Route * FileMetadata)) :=
  omap (λ x, row ← x.2.2; Some (x.1, row)) (imap pair written).

Definition sys_write_batch_impl (now : Z) (reqs : list WriteRequest) (ctx : OperationContext) :
    K (list (result KernelError SysWriteResult)) :=
  if existsb (λ req, negb (is_ok (validate_path_fast (wq_path req)))) reqs
  then mret ((λ req, Err (EInvalidPath (wq_path req))) <$> reqs)
  else
    linked ← any_link ctx reqs;
    if (linked : bool)
    then each (λ req, attempt (sys_write_with_link_depth 1 now (wq_path req) ctx (wq_content req) (wq_offset req))) reqs
    else
      items ← each (batch_prepare ctx) reqs;
      items ← batch_lock (lock_order items) items;
      written ← each (batch_write ctx) items;
      results ← batch_commit (rows_of written) written.*1;
      _ ← batch_release items;
      _ ← each (batch_notify ctx) (zip reqs results);
      mret results.

Definition sys_write (now : Z) (reqs : list WriteRequest) (ctx : OperationContext) :
    K (list (result KernelError SysWriteResult)) :=
  match reqs with
  | [] => mret []
  | [req] => r ← attempt (sys_write_one now req ctx); mret [r]
  | _ => sys_write_batch_impl now reqs ctx
  end.
End batch.
