(* ===== verification/KernelLockProofs.v ===== *)
(** * System calls give their locks back

    A small logic for the locks a call holds: [frees X a m] says that [m], started
    with the handles [X] held and [a] more to take, ends with those handles
    released and every other as it was, whether it returns a value or an error. *)

From S2P Require Import Prelude Bytes Codec Table LockState IoLocks IoLockProofs Router Rename Pipe PipeManager StreamBuf StreamManager MetaStore KernelTypes Dispatch Kernel KernelFiles KernelNames KernelList.

Create HintDb locks.

Lemma size_delete_le (H : gmap N HandleInfo) h : (N.of_nat (size (delete h H)) ≤ N.of_nat (size H))%N.
Proof. apply N2Z.inj_le. rewrite !nat_N_Z, map_size_delete. destruct (H !! h); [|done]. apply Nat2Z.inj_le, Nat.le_pred_l. Qed.

Section logic.
Context {W : Type} `{!ObjectStores W}.
Context {S : Type} `{!KernelStore S}.
Context {L : Type} `{!Locks L}.
Context {E : Type} `{!PipeBackend E}.
Context {B : Type} `{!StreamBackend B}.
Context {TX : Texts}.

Abbreviation K := (@K W S L E B).
Abbreviation Kernel := (Kernel W S L E B).
Implicit Types (k : Kernel) (c : KernelConfig * option MountTable) (X : gset N) (H : gmap N HandleInfo).

(** The configuration, and the mount table where a proof needs to know it. *)
Definition context_is c (k : Kernel) : Prop := k_config k = c.1 ∧ ∀ t, c.2 = Some t → k_router k = t.

(** The live handles are [H], and [n] more fit into the counters. *)
Definition locked c (n : N) (H : gmap N HandleInfo) (k : Kernel) : Prop :=
  context_is c k ∧ manager_inv (k_locks k) ∧ io_handles (io_state (k_locks k)) = H ∧
  (next_handle (k_locks k) + n < U64_MOD)%N ∧ (N.of_nat (size H) + n < U32_MOD)%N.

Definition without X H : gmap N HandleInfo := filter (λ kv, kv.1 ∉ X) H.

Definition frees {A} c X (a : N) (m : K A) : Prop := ∀ n H k r k',
  X ⊆ dom H → locked c (a + n) H k → m k = Some (r, k') → locked c n (without X H) k'.

(** A call that never fails, and one that leaves the lock manager,
    the configuration and the mount table alone. *)
Definition infallible {A} (m : K A) : Prop := ∀ k r k', m k = Some (r, k') → is_ok r = true.

Definition lockless {A} (m : K A) : Prop := ∀ k r k', m k = Some (r, k') →
  k_locks k' = k_locks k ∧ k_config k' = k_config k ∧ k_router k' = k_router k.

(** ** Rules *)

Lemma without_empty H : without ∅ H = H.
Proof. apply map_filter_id. intros h i _. apply not_elem_of_empty. Qed.

Lemma lookup_without X H h : without X H !! h = if decide (h ∈ X) then None else H !! h.
Proof.
  unfold without. apply option_eq. intros i. rewrite map_lookup_filter_Some. cbn. case_decide; naive_solver.
Qed.

Lemma without_insert X H h i : H !! h = None → without ({[h]} ∪ X) (<[h := i]> H) = without X H.
Proof.
  intros Hh. apply map_eq. intros h'. rewrite !lookup_without. destruct (decide (h = h')) as [<-|Hne].
  - rewrite Hh, decide_True by set_solver. by case_decide.
  - rewrite lookup_insert_ne by done. do 2 case_decide; set_solver.
Qed.

Lemma without_delete X H h : h ∈ X → without (X ∖ {[h]}) (delete h H) = without X H.
Proof.
  intros Hh. apply map_eq. intros h'. rewrite !lookup_without. destruct (decide (h = h')) as [<-|Hne].
  - rewrite lookup_delete_eq, (decide_True (P := h ∈ X)) by done. by case_decide.
  - rewrite lookup_delete_ne by done. do 2 case_decide; set_solver.
Qed.

Lemma locked_mono c a b H k : (b ≤ a)%N → locked c a H k → locked c b H k.
Proof. unfold locked. intros ? (? & ? & ? & ? & ?). split_and!; [done..| |]; lia. Qed.

Lemma frees_mono {A} c X a b (m : K A) : (a ≤ b)%N → frees c X a m → frees c X b m.
Proof. intros Hab Hm n H k r k' HX Hk. eapply Hm; [done|]. eapply locked_mono, Hk. lia. Qed.

Lemma frees_lockless {A} c (m : K A) : lockless m → frees c ∅ 0 m.
Proof.
  intros Hm n H k r k' _ Hk E1. rewrite without_empty. unfold locked, context_is in *. by destruct (Hm _ _ _ E1) as (-> & -> & ->).
Qed.

Lemma frees_bind {A C} c X a b (m : K A) (f : A → K C) :
  frees c ∅ a m → infallible m → (∀ x, frees c X b (f x)) → frees c X (a + b) (m ≫= f).
Proof.
  intros Hm Hi Hf n H k r k' HX Hk. unfold mbind, K_bind. destruct (m k) as [[[x|e] k1]|] eqn:E1; [| |done].
  - intros E2. eapply Hf; [done| |done]. rewrite <-(without_empty H). eapply Hm; [set_solver| |done].
    by rewrite N.add_assoc.
  - by apply Hi in E1.
Qed.

Lemma frees_seq {A C} c a b (m : K A) (f : A → K C) :
  frees c ∅ a m → (∀ x, frees c ∅ b (f x)) → frees c ∅ (a + b) (m ≫= f).
Proof.
  intros Hm Hf n H k r k' HX Hk. rewrite without_empty. unfold mbind, K_bind.
  destruct (m k) as [[[x|e] k1]|] eqn:E1; [| |done].
  - intros E2. rewrite <-(without_empty H). eapply Hf; [done| |done].
    rewrite <-(without_empty H). eapply Hm; [set_solver| |done]. by rewrite N.add_assoc.
  - intros [= <- <-]. eapply locked_mono; [|rewrite <-(without_empty H); eapply Hm; [set_solver| |done]];
      [apply (N.le_add_r n b)|]. eapply locked_mono, Hk. lia.
Qed.

(** Work that takes no lock, in front of anything that frees [X]. *)
Lemma frees_bind0 {A C} c X b (m : K A) (f : A → K C) :
  lockless m → infallible m → (∀ x, frees c X b (f x)) → frees c X b (m ≫= f).
Proof. intros Hm Hi Hf. apply (frees_bind c X 0 b); [by apply frees_lockless|done..]. Qed.

Lemma frees_seq0 {A C} c b (m : K A) (f : A → K C) :
  lockless m → (∀ x, frees c ∅ b (f x)) → frees c ∅ b (m ≫= f).
Proof. intros Hm Hf. apply (frees_seq c 0 b); [by apply frees_lockless|done]. Qed.

Lemma frees_release {C} c X b h (f : () → K C) :
  h ∈ X → frees c (X ∖ {[h]}) b (f ()) → frees c X b (release h ≫= f).
Proof.
  intros Hh Hf n H k r k' HX (Hc & Hi & Heq & Hn & Hs). unfold mbind, K_bind, release, modify. intros E1.
  assert (is_Some (H !! h)) as [info Hlk] by (apply elem_of_dom; set_solver).
  rewrite <-(without_delete X H h Hh). eapply Hf; [set_solver| |done].
  unfold do_release. rewrite <-Heq in Hlk.
  rewrite (release_known _ _ _ _ Hi Hlk). cbn [snd k_locks k_config set_locks]. split_and!; [done|..].
  - by apply released_inv.
  - cbn. by rewrite Heq.
  - done.
  - pose proof (size_delete_le H h). lia.
Qed.

(** One try alone: refused with the table as it was, or granted. *)
Lemma acquire_alone_spec path mode timeout (m : LockManager L) :
  manager_inv m → counters_in_range m →
  let '(h, m') := acquire_alone path mode timeout m in
  (h = 0%N ∧ io_state m' = io_state m ∧ next_handle m' = next_handle m) ∨
  (h = (next_handle m + 1)%N ∧ next_handle m' = h ∧ io_inv (io_state m') h ∧
   io_handles (io_state m') = <[h := mkHandleInfo (normalize_path path) mode]> (io_handles (io_state m))).
Proof.
  intros Hi Hc. unfold acquire_alone, acquire_enter. destruct (try_spec m path mode Hi Hc) as [[_ E1]|(_ & E1 & Hi')].
  - rewrite E1, with_io_id. destruct (timeout =? 0)%N; [by left|].
    unfold acquire_wait, acquire_wake. cbn [io_state next_handle count_contention].
    rewrite E1. by left.
  - rewrite E1. right. by split_and!.
Qed.

Lemma frees_acquire {C} c X b path mode (f : N → K C) :
  frees c X b (f 0%N) → (∀ h, h ≠ 0%N → h ∉ X → frees c ({[h]} ∪ X) b (f h)) →
  frees c X (1 + b) (blocking_acquire path mode ≫= f).
Proof.
  intros H0 Hf n H k r k' HX (Hc & Hi & Heq & Hn & Hs). unfold mbind, K_bind, blocking_acquire.
  pose proof (acquire_alone_spec path mode (kc_vfs_lock_timeout_ms (k_config k)) (k_locks k) Hi) as Ha.
  destruct (acquire_alone _ _ _ _) as [h m']. destruct Ha as [(-> & Es & En)|(-> & En & Hi' & Eh)].
  - unfold counters_in_range. rewrite Heq. lia.
  - intros E1. eapply H0; [done| |done]. split_and!; cbn [k_locks k_config set_locks]; unfold manager_inv;
      rewrite ?Es, ?En; [done..| |]; lia.
  - set (h := (next_handle (k_locks k) + 1)%N) in *. assert (H !! h = None) as Hfresh.
    { apply eq_None_not_Some. intros [i Hx]. rewrite <-Heq in Hx. apply (inv_handle _ _ Hi) in Hx. lia. }
    intros E1. rewrite <-(without_insert X H h (mkHandleInfo (normalize_path path) mode) Hfresh).
    eapply Hf; [lia| | | |done].
    + intros Hx. apply HX, elem_of_dom in Hx as [? ?]. congruence.
    + set_solver.
    + split_and!; cbn [k_locks k_config set_locks]; [done|..].
      * unfold manager_inv. by rewrite En.
      * by rewrite Eh, Heq.
      * rewrite En. lia.
      * rewrite map_size_insert_None by done. lia.
Qed.

(** ** Derived rules *)

(** A part that takes and gives back no lock of its own, in any budget. *)
Lemma frees_any {A} c b (m : K A) : lockless m → frees c ∅ b m.
Proof. intros Hm. eapply frees_mono, frees_lockless; [lia|done]. Qed.

(** Releasing first and then going on. *)
Lemma frees_then {A C} c X a b (m : K A) (f : A → K C) :
  frees c X a m → (∀ x, frees c ∅ b (f x)) → frees c X (a + b) (m ≫= f).
Proof.
  intros Hm Hf n H k r k' HX Hk. unfold mbind, K_bind. destruct (m k) as [[[x|e] k1]|] eqn:E1; [| |done].
  - intros E2. rewrite <-(without_empty (without X H)). eapply Hf; [set_solver| |done].
    eapply Hm; [done| |done]. by rewrite N.add_assoc.
  - intros [= <- <-]. eapply locked_mono; [|eapply Hm; [done| |done]]; [apply (N.le_add_r n b)|].
    eapply locked_mono, Hk. lia.
Qed.

Lemma frees_then0 {A C} c X b (m : K A) (f : A → K C) :
  frees c X 0 m → (∀ x, frees c ∅ b (f x)) → frees c X b (m ≫= f).
Proof. intros Hm Hf. by apply (frees_then c X 0 b). Qed.

(** The last lock. *)
Lemma frees_release_last {C} c b h (f : () → K C) :
  frees c ∅ b (f ()) → frees c {[h]} b (release h ≫= f).
Proof.
  intros Hf. apply frees_release; [set_solver|]. by replace ({[h]} ∖ {[h]} : gset N) with (∅ : gset N) by set_solver.
Qed.

Lemma frees_release_only c b h : frees c {[h]} b (release h : K ()).
Proof.
  intros n H k r k' HX Hk E1.
  eapply (frees_release_last c b h (λ x, mret x : K ())); [|exact HX|exact Hk|].
  - apply frees_any. by intros ??? [= <- <-].
  - unfold mbind, K_bind. rewrite E1. unfold release, modify in E1. by injection E1 as <- <-.
Qed.

(** The first lock. *)
Lemma frees_lock {C} c b path mode (f : N → K C) :
  frees c ∅ b (f 0%N) → (∀ h, h ≠ 0%N → frees c {[h]} b (f h)) →
  frees c ∅ (1 + b) (blocking_acquire path mode ≫= f).
Proof.
  intros H0 Hf. apply frees_acquire; [done|]. intros h Hh _.
  replace ({[h]} ∪ ∅ : gset N) with ({[h]} : gset N) by set_solver. by apply Hf.
Qed.

(** The two locks of rename and copy; a handle of 0 is none. *)
Definition handles (locks : N * N) : gset N :=
  (if (locks.1 =? 0)%N then ∅ else {[locks.1]}) ∪ (if (locks.2 =? 0)%N then ∅ else {[locks.2]}).

Lemma frees_ext {A} c X b (m m' : K A) : (∀ k, m k = m' k) → frees c X b m' → frees c X b m.
Proof. intros He Hm n H k r k'. rewrite He. apply Hm. Qed.

Lemma bind_assoc {A C D} (m : K A) (f : A → K C) (g : C → K D) k :
  ((m ≫= f) ≫= g) k = (m ≫= λ x, f x ≫= g) k.
Proof. unfold mbind, K_bind. by destruct (m k) as [[[]]|]. Qed.

Lemma frees_two_locks {C} c b p q (f : N * N → K C) :
  (∀ locks, (locks.1 = locks.2 → locks.1 = 0%N) → frees c (handles locks) b (f locks)) →
  frees c ∅ (2 + b) (blocking_acquire p ModeWrite ≫= λ lock1, blocking_acquire q ModeWrite ≫= λ lock2, f (lock1, lock2)).
Proof.
  intros Hf. replace (2 + b)%N with (1 + (1 + b))%N by lia. apply frees_acquire.
  - apply frees_acquire; [by apply (Hf (0, 0)%N)|]. intros h Hh _.
    replace ({[h]} ∪ ∅) with (handles (0, h)%N); [by apply Hf|].
    unfold handles. cbn [fst snd]. rewrite (proj2 (N.eqb_neq h 0)) by done. set_solver.
  - intros h Hh _. apply frees_acquire.
    + replace ({[h]} ∪ ∅) with (handles (h, 0)%N); [by apply Hf|].
      unfold handles. cbn [fst snd]. rewrite (proj2 (N.eqb_neq h 0)) by done. set_solver.
    + intros h' Hh' Hne. replace ({[h']} ∪ ({[h]} ∪ ∅)) with (handles (h, h')).
      * apply Hf. cbn. intros ->. set_solver.
      * unfold handles. cbn [fst snd]. rewrite !(proj2 (N.eqb_neq _ 0)) by done. set_solver.
Qed.

Lemma frees_lock_pair {C} c b p q (f : N * N → K C) :
  (∀ locks, (locks.1 = locks.2 → locks.1 = 0%N) → frees c (handles locks) b (f locks)) →
  frees c ∅ (2 + b) (lock_pair p q ≫= f).
Proof.
  intros Hf. unfold lock_pair. destruct (if decide (String.le p q) then (p, q) else (q, p)) as [first second].
  eapply frees_ext; [intros k; apply bind_assoc|]. case_decide.
  - eapply frees_ext, (frees_two_locks c b first second f), Hf. intros k. unfold mbind, K_bind.
    destruct (blocking_acquire first ModeWrite k) as [[[l1|] k1]|]; [|done..].
    by destruct (blocking_acquire second ModeWrite k1) as [[[]]|].
  - replace (2 + b)%N with (1 + (1 + b))%N by lia. apply frees_acquire.
    + eapply frees_mono, (Hf (0, 0)%N); [lia|done].
    + intros h Hh _. replace ({[h]} ∪ ∅) with (handles (h, 0)%N).
      * eapply frees_mono, (Hf (h, 0)%N); [lia|done].
      * unfold handles. cbn [fst snd]. rewrite (proj2 (N.eqb_neq h 0)) by done. set_solver.
Qed.

Lemma frees_release_locks {C} c b locks (f : () → K C) :
  (locks.1 = locks.2 → locks.1 = 0%N) → frees c ∅ b (f ()) →
  frees c (handles locks) b (release_locks locks.1 locks.2 ≫= f).
Proof.
  destruct locks as [h1 h2]. cbn [fst snd]. intros Hne Hf. unfold release_locks, handles. cbn [fst snd].
  eapply frees_ext; [intros k; apply bind_assoc|].
  destruct (N.eqb_spec h2 0) as [->|H2]; cbn [when].
  - change (frees c ((if (h1 =? 0)%N then ∅ else {[h1]}) ∪ ∅) b (when (0 <? h1)%N (release h1) ≫= f)).
    destruct (N.eqb_spec h1 0) as [->|H1]; rewrite (right_id_L ∅ (∪)).
    + exact Hf.
    + rewrite (proj2 (N.ltb_lt 0 h1)) by lia. by apply frees_release_last.
  - rewrite (proj2 (N.ltb_lt 0 h2)) by lia. apply frees_release; [set_solver|].
    destruct (N.eqb_spec h1 0) as [->|H1].
    + replace ((∅ ∪ {[h2]}) ∖ {[h2]} : gset N) with (∅ : gset N) by set_solver. exact Hf.
    + replace (({[h1]} ∪ {[h2]}) ∖ {[h2]} : gset N) with ({[h1]} : gset N) by set_solver.
      rewrite (proj2 (N.ltb_lt 0 h1)) by lia. by apply frees_release_last.
Qed.

(** A step that fails only after it has released [X]. *)
Definition frees_on_error {A} c X (a : N) (m : K A) : Prop := ∀ n H k r k',
  X ⊆ dom H → locked c (a + n) H k → m k = Some (r, k') →
  locked c n (if is_ok r then H else without X H) k'.

Lemma frees_bind_error {A C} c X b (m : K A) (f : A → K C) :
  frees_on_error c X 0 m → (∀ x, frees c X b (f x)) → frees c X b (m ≫= f).
Proof.
  intros Hm Hf n H k r k' HX Hk. unfold mbind, K_bind. destruct (m k) as [[[x|e] k1]|] eqn:E1; [| |done].
  - intros E2. eapply Hf; [done| |done]. by apply (Hm _ _ _ _ _ HX Hk E1).
  - intros [= <- <-]. eapply locked_mono, (Hm _ _ _ _ _ HX Hk E1). lia.
Qed.

Lemma frees_on_error_bind {A C} c X (m : K A) (f : A → K C) :
  lockless m → infallible m → (∀ x, frees_on_error c X 0 (f x)) → frees_on_error c X 0 (m ≫= f).
Proof.
  intros Hm Hi Hf n H k r k' HX Hk. unfold mbind, K_bind. destruct (m k) as [[[x|e] k1]|] eqn:E1; [| |done].
  - intros E2. eapply Hf; [done| |done]. unfold locked, context_is in *. by destruct (Hm _ _ _ E1) as (-> & -> & ->).
  - by apply Hi in E1.
Qed.

Lemma frees_on_error_ok {A} c X (m : K A) : lockless m → infallible m → frees_on_error c X 0 m.
Proof.
  intros Hm Hi n H k r k' HX Hk E1. rewrite (Hi _ _ _ E1). unfold locked, context_is in *. by destruct (Hm _ _ _ E1) as (-> & -> & ->).
Qed.

Lemma frees_on_error_throw {A} c X (m : K A) :
  frees c X 0 m → (∀ k r k', m k = Some (r, k') → is_ok r = false) → frees_on_error c X 0 m.
Proof. intros Hm Hi n H k r k' HX Hk E1. rewrite (Hi _ _ _ E1). by eapply Hm. Qed.

(** With the mount table known, routes and stores are. *)
Lemma frees_route {C} cf t X b p z (f : option Route → K C) :
  frees (cf, Some t) X b (f (route t p z)) → frees (cf, Some t) X b (route_path p z ≫= f).
Proof.
  intros Hf n H k r k' HX Hk E1. eapply Hf; [done..|]. destruct Hk as [[_ Hr] _].
  rewrite <-(Hr t) by done. exact E1.
Qed.

Definition store_at (cf : KernelConfig) (t : MountTable) (mp : string) : option N :=
  match (t !! mp) ≫= me_metastore with Some id => Some id | None => kc_metastore cf end.

Lemma frees_on_error_store {A C} cf t X mp id (op : Op S A) (f : option (result MetaStoreError A) → K C) :
  store_at cf t mp = Some id → (∀ r, frees_on_error (cf, Some t) X 0 (f (Some r))) →
  frees_on_error (cf, Some t) X 0 (kernel_with_metastore mp op ≫= f).
Proof.
  intros Hid Hf n H k r k' HX Hk E1. pose proof Hk as [[Hc Hr] _]. specialize (Hr t eq_refl). cbn in Hc.
  assert (kernel_with_metastore mp op k = with_store (Some id) op k) as Hk1.
  { rewrite <-Hid. unfold kernel_with_metastore, store_at, config, reads, mbind, K_bind. by rewrite Hr, Hc. }
  revert E1. unfold mbind at 1, K_bind at 1. rewrite Hk1. unfold with_store, mbind, K_bind, run_store, mret, K_ret.
  destruct (k_stores k !! id) as [s|]; cbn; [|done].
  destruct (op s) as [[x s']|]; cbn; [|done]. intros E1. by eapply (Hf x _ H (set_store id s' k)).
Qed.
End logic.
