(* ===== verification/KernelReleases.v ===== *)
(** * Every system call releases its locks

    The calls of the kernel one by one with the rules of KernelLockProofs: on
    success, on a miss and on every error the table of I/O locks is the one the
    call found. *)

From S2P Require Import Prelude Bytes Codec Table LockState IoLocks IoLockProofs Router Rename Pipe PipeManager StreamBuf StreamManager MetaStore KernelTypes Dispatch Kernel KernelFiles KernelNames KernelList KernelLockProofs.

Section atoms.
Context {W : Type} `{!ObjectStores W}.
Context {S : Type} `{!KernelStore S}.
Context {L : Type} `{!Locks L}.
Context {E : Type} `{!PipeBackend E}.
Context {B : Type} `{!StreamBackend B}.
Context {TX : Texts}.

Abbreviation K := (@K W S L E B).
Abbreviation Kernel := (Kernel W S L E B).

Lemma lockless_ret {A} (a : A) : lockless (mret a : K A).
Proof. by intros k r k' [= <- <-]. Qed.
Lemma lockless_throw {A} e : lockless (throw e : K A).
Proof. by intros k r k' [= <- <-]. Qed.
Lemma lockless_reads {A} (f : Kernel → A) : lockless (reads f).
Proof. by intros k r k' [= <- <-]. Qed.
Lemma lockless_modify (f : Kernel → Kernel) : (∀ k, k_locks (f k) = k_locks k ∧ k_config (f k) = k_config k ∧ k_router (f k) = k_router k) → lockless (modify f).
Proof. by intros Hf k r k' [= <- <-]. Qed.
Lemma lockless_bind {A C} (m : K A) (f : A → K C) : lockless m → (∀ x, lockless (f x)) → lockless (m ≫= f).
Proof.
  intros Hm Hf k r k'. unfold mbind, K_bind. destruct (m k) as [[[x|e] k1]|] eqn:E1; [| |done].
  - intros E2. destruct (Hf _ _ _ _ E2) as (-> & -> & ->). by apply Hm in E1.
  - intros [= <- <-]. by apply Hm in E1.
Qed.
Lemma lockless_attempt {A} (m : K A) : lockless m → lockless (attempt m).
Proof.
  intros Hm k r k'. unfold attempt. destruct (m k) as [[x k1]|] eqn:E1; [|done].
  intros [= <- <-]. by apply Hm in E1.
Qed.
Lemma lockless_of_result {A} (r : result KernelError A) : lockless (of_result r : K A).
Proof. destruct r; [apply lockless_ret|apply lockless_throw]. Qed.
Lemma lockless_ok_or {A} (o : option A) e : lockless (ok_or o e : K A).
Proof. destruct o; [apply lockless_ret|apply lockless_throw]. Qed.
Lemma lockless_when b (m : K ()) : lockless m → lockless (when b m).
Proof. intros ?. destruct b; [done|apply lockless_ret]. Qed.
Lemma lockless_each {A C} (f : A → K C) l : (∀ a, lockless (f a)) → lockless (each f l).
Proof.
  intros Hf. induction l as [|a l IH]; cbn [each]; [apply lockless_ret|].
  repeat (apply lockless_bind; [done|intros ?]). apply lockless_ret.
Qed.
Lemma lockless_storage {A} (f : W → result StorageError A * W) : lockless (storage f : K _).
Proof. intros k r k'. unfold storage. destruct (f _). by intros [= <- <-]. Qed.
Lemma lockless_run_store {A} id (f : Op S A) : lockless (run_store id f : K _).
Proof.
  intros k r k'. unfold run_store. destruct (k_stores k !! id) as [s|]; cbn; [|done].
  destruct (f s) as [[x s']|]; cbn; [|done]. by intros [= <- <-].
Qed.
Lemma lockless_pipes {A} (f : PipeManager E → option (result PipeManagerError A * PipeManager E)) :
  lockless (pipes f : K _).
Proof. intros k r k'. unfold pipes. destruct (f _) as [[x s']|]; cbn; [|done]. by intros [= <- <-]. Qed.
Lemma lockless_streams {A} (f : StreamManager B → option (result StreamManagerError A * StreamManager B)) :
  lockless (streams f : K _).
Proof. intros k r k'. unfold streams. destruct (f _) as [[x s']|]; cbn; [|done]. by intros [= <- <-]. Qed.
Lemma lockless_check path r p ctx : lockless (check_permission_with_route path r p ctx : K ()).
Proof.
  intros k x k'. unfold check_permission_with_route. repeat case_match; by intros [= <- <-].
Qed.
Lemma lockless_fdt_register p q : lockless (fdt_register p q : K ()).
Proof. intros k r k'. unfold fdt_register. intros [= <- <-]. by case_match. Qed.
Lemma lockless_fdt_pread p : lockless (fdt_pread p : K _).
Proof. intros k r k'. unfold fdt_pread. repeat case_match; by intros [= <- <-]. Qed.
Lemma lockless_fdt_rename p q : lockless (fdt_rename p q : K ()).
Proof. apply lockless_modify. intros k. by case_match. Qed.
Lemma lockless_stream_tail key : lockless (live_stream_tail key : K _).
Proof. intros k r k'. unfold live_stream_tail. case_match. by intros [= <- <-]. Qed.
Lemma lockless_stream_last key : lockless (stream_last_append_ms key : K _).
Proof. intros k r k'. unfold stream_last_append_ms. case_match. by intros [= <- <-]. Qed.

Lemma infallible_ret {A} (a : A) : infallible (mret a : K A).
Proof. by intros k r k' [= <- <-]. Qed.
Lemma infallible_reads {A} (f : Kernel → A) : infallible (reads f).
Proof. by intros k r k' [= <- <-]. Qed.
Lemma infallible_modify (f : Kernel → Kernel) : infallible (modify f).
Proof. by intros k r k' [= <- <-]. Qed.
Lemma infallible_attempt {A} (m : K A) : infallible (attempt m).
Proof. intros k r k'. unfold attempt. destruct (m k) as [[]|]; [|done]. by intros [= <- <-]. Qed.
Lemma infallible_bind {A C} (m : K A) (f : A → K C) :
  infallible m → (∀ x, infallible (f x)) → infallible (m ≫= f).
Proof.
  intros Hm Hf k r k'. unfold mbind, K_bind. destruct (m k) as [[[x|e] k1]|] eqn:E1; [| |done].
  - apply Hf.
  - by apply Hm in E1.
Qed.
Lemma infallible_when b (m : K ()) : infallible m → infallible (when b m).
Proof. intros ?. destruct b; [done|apply infallible_ret]. Qed.
Lemma infallible_each {A C} (f : A → K C) l : (∀ a, infallible (f a)) → infallible (each f l).
Proof.
  intros Hf. induction l as [|a l IH]; cbn [each]; [apply infallible_ret|].
  repeat (apply infallible_bind; [done|intros ?]). apply infallible_ret.
Qed.
Lemma infallible_storage {A} (f : W → result StorageError A * W) : infallible (storage f : K _).
Proof. intros k r k'. unfold storage. destruct (f _). by intros [= <- <-]. Qed.
Lemma infallible_run_store {A} id (f : Op S A) : infallible (run_store id f : K _).
Proof.
  intros k r k'. unfold run_store. destruct (k_stores k !! id) as [s|]; cbn; [|done].
  destruct (f s) as [[x s']|]; cbn; [|done]. by intros [= <- <-].
Qed.
End atoms.

#[export] Hint Resolve lockless_ret lockless_throw lockless_reads lockless_attempt lockless_of_result
  lockless_ok_or lockless_when lockless_each lockless_storage lockless_run_store lockless_pipes
  lockless_streams lockless_check lockless_fdt_register lockless_fdt_pread lockless_fdt_rename
  lockless_stream_tail lockless_stream_last : locks.
#[export] Hint Resolve infallible_ret infallible_reads infallible_modify infallible_attempt infallible_when
  infallible_each infallible_storage infallible_run_store : locks.

(** Follow the shape of a call; what is left are its parts without a rule. *)
Ltac lockless :=
  repeat (cbv beta iota zeta;
    lazymatch goal with
    | |- ∀ _, _ => intro
    | |- lockless (_ ≫= _) => apply lockless_bind
    | |- lockless (attempt _) => apply lockless_attempt
    | |- lockless (when _ _) => apply lockless_when
    | |- lockless (each _ _) => apply lockless_each
    | |- lockless (modify _) => by apply lockless_modify
    | |- lockless (match _ with _ => _ end) => case_match
    | |- lockless _ => solve [auto with locks]
    end).
Ltac infallible :=
  repeat (cbv beta iota zeta;
    lazymatch goal with
    | |- ∀ _, _ => intro
    | |- infallible (_ ≫= _) => apply infallible_bind
    | |- infallible (when _ _) => apply infallible_when
    | |- infallible (each _ _) => apply infallible_each
    | |- infallible (match _ with _ => _ end) => case_match
    | |- infallible _ => solve [auto with locks]
    end).

Section plumbing.
Context {W : Type} `{!ObjectStores W}.
Context {S : Type} `{!KernelStore S}.
Context {L : Type} `{!Locks L}.
Context {E : Type} `{!PipeBackend E}.
Context {B : Type} `{!StreamBackend B}.
Context {TX : Texts}.

Abbreviation K := (@K W S L E B).

Lemma lockless_config {A} (f : KernelConfig → A) : lockless (config f : K A).
Proof. apply lockless_reads. Qed.
Lemma infallible_config {A} (f : KernelConfig → A) : infallible (config f : K A).
Proof. apply infallible_reads. Qed.
Lemma lockless_validate p : lockless (validate p : K ()).
Proof. apply lockless_of_result. Qed.
Lemma lockless_route_path p z : lockless (route_path p z : K _).
Proof. apply lockless_reads. Qed.
Lemma infallible_route_path p z : infallible (route_path p z : K _).
Proof. apply infallible_reads. Qed.
Lemma lockless_trie p : lockless (trie_resolved p : K _).
Proof. apply lockless_reads. Qed.
Hint Resolve lockless_config infallible_config lockless_validate lockless_route_path infallible_route_path lockless_trie : locks.

Lemma lockless_check_permission p m ctx : lockless (check_permission p m ctx : K ()).
Proof. apply lockless_check. Qed.
Lemma lockless_pre_replacement c : lockless (dispatch_native_pre_with_replacement c : K _).
Proof. unfold dispatch_native_pre_with_replacement. lockless. Qed.
Hint Resolve lockless_check_permission lockless_pre_replacement : locks.
Lemma lockless_pre c : lockless (dispatch_native_pre c : K ()).
Proof. unfold dispatch_native_pre. lockless. Qed.
Lemma lockless_post c : lockless (dispatch_native_post c : K ()).
Proof. unfold dispatch_native_post. lockless. Qed.
Lemma infallible_post c : infallible (dispatch_native_post c : K ()).
Proof. unfold dispatch_native_post. infallible. Qed.
Hint Resolve lockless_pre lockless_post infallible_post : locks.
Lemma lockless_read_hooks p ctx : lockless (apply_read_hooks p ctx : K ()).
Proof. unfold apply_read_hooks. lockless. Qed.
Lemma lockless_write_hooks_route p r ctx c : lockless (apply_mutating_write_hooks_with_route p r ctx c : K _).
Proof. unfold apply_mutating_write_hooks_with_route. lockless. Qed.
Hint Resolve lockless_read_hooks lockless_write_hooks_route : locks.
Lemma lockless_write_hooks p ctx c : lockless (apply_mutating_write_hooks p ctx c : K _).
Proof. apply lockless_write_hooks_route. Qed.
Lemma lockless_observers e : lockless (dispatch_observers e : K ()).
Proof. by apply lockless_modify. Qed.
Lemma lockless_mutation t p ctx x : lockless (dispatch_mutation t p ctx x : K ()).
Proof. by apply lockless_modify. Qed.
Lemma infallible_mutation t p ctx x : infallible (dispatch_mutation t p ctx x : K ()).
Proof. apply infallible_modify. Qed.
Lemma lockless_with_store {A} id (f : Op S A) : lockless (with_store id f : K _).
Proof. unfold with_store. lockless. Qed.
Lemma infallible_with_store {A} id (f : Op S A) : infallible (with_store id f : K _).
Proof. unfold with_store. infallible. Qed.
Hint Resolve lockless_write_hooks lockless_observers lockless_mutation infallible_mutation
  lockless_with_store infallible_with_store : locks.
Lemma lockless_kernel_with_metastore {A} mp (f : Op S A) : lockless (kernel_with_metastore mp f : K _).
Proof. unfold kernel_with_metastore. lockless. Qed.
Lemma infallible_kernel_with_metastore {A} mp (f : Op S A) : infallible (kernel_with_metastore mp f : K _).
Proof. unfold kernel_with_metastore. infallible. Qed.
Lemma lockless_with_metastore_route {A} r (f : Op S A) : lockless (with_metastore_route r f : K _).
Proof. unfold with_metastore_route. lockless. Qed.
Lemma infallible_with_metastore_route {A} r (f : Op S A) : infallible (with_metastore_route r f : K _).
Proof. unfold with_metastore_route. infallible. Qed.
Hint Resolve lockless_kernel_with_metastore infallible_kernel_with_metastore lockless_with_metastore_route
  infallible_with_metastore_route : locks.
Lemma lockless_get_row r p : lockless (get_row r p : K _).
Proof. unfold get_row. lockless. Qed.
Lemma infallible_get_row r p : infallible (get_row r p : K _).
Proof. unfold get_row. infallible. Qed.
Lemma lockless_store_result {A} p (r : option (result MetaStoreError A)) : lockless (store_result p r : K A).
Proof. unfold store_result. lockless. Qed.
Hint Resolve lockless_get_row infallible_get_row lockless_store_result : locks.
Lemma lockless_metastore_get p : lockless (metastore_get p : K _).
Proof. unfold metastore_get, resolve_mount_point. lockless. Qed.
Lemma lockless_metastore_put p m : lockless (metastore_put p m : K _).
Proof. unfold metastore_put, resolve_mount_point. lockless. Qed.
Lemma lockless_metastore_delete p : lockless (metastore_delete p : K _).
Proof. unfold metastore_delete, resolve_mount_point. lockless. Qed.
Lemma lockless_build_metadata p z t s c g v m cr mo : lockless (build_metadata p z t s c g v m cr mo : K _).
Proof. unfold build_metadata. lockless. Qed.
Lemma infallible_build_metadata p z t s c g v m cr mo : infallible (build_metadata p z t s c g v m cr mo : K _).
Proof. unfold build_metadata. infallible. Qed.
Hint Resolve lockless_metastore_get lockless_metastore_put lockless_metastore_delete lockless_build_metadata
  infallible_build_metadata : locks.
Lemma lockless_observe_entry now p t z s c : lockless (observe_backend_entry now p t z s c : K _).
Proof. unfold observe_backend_entry. lockless. Qed.
Hint Resolve lockless_observe_entry : locks.
Lemma lockless_observe_content now p s c z ctx : lockless (observe_backend_content now p s c z ctx : K _).
Proof. unfold observe_backend_content. lockless. Qed.
Lemma lockless_link_in_ancestors cuts z : lockless (link_in_ancestors cuts z : K _).
Proof. induction cuts as [|[a b] cuts IH]; cbn [link_in_ancestors]; lockless. Qed.
Lemma lockless_directory_link p z : lockless (directory_link_target p z : K _).
Proof. apply lockless_link_in_ancestors. Qed.
Lemma lockless_federation_unlink r p : lockless (via_federation_unlink r p : K _).
Proof. unfold via_federation_unlink. lockless. Qed.
Lemma lockless_federation_stat r p : lockless (via_federation_stat r p : K _).
Proof. unfold via_federation_stat. lockless. Qed.
Lemma lockless_supplement c r : lockless (supplement c r : K _).
Proof. unfold supplement. lockless. Qed.
Lemma lockless_route_storage {A} r (f : N → W → result StorageError A * W) : lockless (route_storage r f : K _).
Proof. unfold route_storage. lockless. Qed.
Lemma infallible_route_storage {A} r (f : N → W → result StorageError A * W) : infallible (route_storage r f : K _).
Proof. unfold route_storage. infallible. Qed.
Lemma lockless_read_result d c g : lockless (read_result d c g : K _).
Proof. unfold read_result. lockless. Qed.
Lemma lockless_route_read r c ctx : lockless (route_read r c ctx : K _).
Proof. apply lockless_reads. Qed.
Lemma infallible_route_read r c ctx : infallible (route_read r c ctx : K _).
Proof. apply infallible_reads. Qed.
Lemma lockless_fdt_remove p : lockless (fdt_remove p : K ()).
Proof. by apply lockless_modify. Qed.
Lemma lockless_fdt_remove_tree p : lockless (fdt_remove_tree p : K ()).
Proof. by apply lockless_modify. Qed.
Lemma infallible_fdt_remove p : infallible (fdt_remove p : K ()).
Proof. apply infallible_modify. Qed.
Lemma infallible_fdt_remove_tree p : infallible (fdt_remove_tree p : K ()).
Proof. apply infallible_modify. Qed.
Lemma infallible_fdt_rename p q : infallible (fdt_rename p q : K ()).
Proof. apply infallible_modify. Qed.
End plumbing.

#[export] Hint Resolve lockless_config infallible_config lockless_validate lockless_route_path
  infallible_route_path lockless_trie lockless_check_permission lockless_pre_replacement lockless_pre
  lockless_post infallible_post lockless_read_hooks lockless_write_hooks_route lockless_write_hooks
  lockless_observers lockless_mutation infallible_mutation lockless_with_store infallible_with_store
  lockless_kernel_with_metastore infallible_kernel_with_metastore lockless_with_metastore_route
  infallible_with_metastore_route lockless_get_row infallible_get_row lockless_store_result
  lockless_metastore_get lockless_metastore_put lockless_metastore_delete lockless_build_metadata
  infallible_build_metadata lockless_observe_entry lockless_observe_content lockless_directory_link
  lockless_federation_unlink lockless_federation_stat lockless_supplement lockless_route_storage
  infallible_route_storage lockless_read_result lockless_route_read infallible_route_read
  lockless_fdt_remove lockless_fdt_remove_tree infallible_fdt_remove infallible_fdt_remove_tree
  infallible_fdt_rename : locks.

(** Follow a call: parts without locks first, then its locks. *)
Ltac frees :=
  repeat (cbv beta iota zeta;
    match goal with
    | |- ∀ _, _ => intro
    | |- context [(0 =? 0)%N] => change (0 =? 0)%N with true
    | Hh : ?h ≠ 0%N |- context [(?h =? 0)%N] => rewrite (proj2 (N.eqb_neq h 0) Hh)
    | |- frees _ _ _ (release _ ≫= _) => apply frees_release_last
    | |- frees _ _ _ (release _) => apply frees_release_only
    | |- frees _ ∅ _ (_ ≫= _) => apply frees_seq0; [solve [lockless]|]
    | |- frees _ _ _ (_ ≫= _) => apply frees_bind0; [solve [lockless]|solve [infallible]|]
    | |- frees _ _ _ (match _ with _ => _ end) => case_match
    | |- frees _ ∅ _ _ => apply frees_any; solve [lockless]
    end).

Section calls.
Context {W : Type} `{!ObjectStores W}.
Context {S : Type} `{!KernelStore S}.
Context {L : Type} `{!Locks L}.
Context {E : Type} `{!PipeBackend E}.
Context {B : Type} `{!StreamBackend B}.
Context {TX : Texts}.

Abbreviation K := (@K W S L E B).
Abbreviation Kernel := (Kernel W S L E B).
Implicit Types (c : KernelConfig * option MountTable) (cf : KernelConfig).

(** ** Parts without locks *)

Lemma lockless_remote_fetch p e : lockless (try_remote_fetch p e : K _).
Proof. unfold try_remote_fetch. lockless. Qed.
Lemma lockless_read_unlisted now p ctx r : lockless (read_unlisted now p ctx r : K _).
Proof. unfold read_unlisted. lockless. Qed.
Lemma lockless_pipe_read p t : lockless (pipe_read p t : K _).
Proof. unfold pipe_read. lockless. Qed.
Lemma lockless_stream_read p ctx r t o : lockless (stream_read p ctx r t o : K _).
Proof. unfold stream_read. lockless. Qed.
Lemma lockless_notify p ctx r : lockless (notify_file_write p ctx r : K _).
Proof. unfold notify_file_write. lockless. Qed.
Lemma lockless_file_write_result m w o : lockless (file_write_result m w o : K _).
Proof. unfold file_write_result. lockless. Qed.
Lemma lockless_replacement now p z w o : lockless (replacement_file_metadata now p z w o : K _).
Proof. apply lockless_build_metadata. Qed.
Hint Resolve lockless_remote_fetch lockless_read_unlisted lockless_pipe_read lockless_stream_read lockless_notify
  lockless_file_write_result lockless_replacement : locks.
Lemma lockless_commit now p ctx x o r : lockless (commit_write_through now p ctx x o r : K _).
Proof. unfold commit_write_through. lockless. Qed.
Lemma lockless_ipc_result n : lockless (ipc_write_result n : K _).
Proof. unfold ipc_write_result. lockless. Qed.
Lemma lockless_ipc_post p ctx x n : lockless (ipc_post p ctx x n : K _).
Proof. unfold ipc_post. lockless. Qed.
Hint Resolve lockless_commit lockless_ipc_result lockless_ipc_post : locks.
Lemma lockless_pipe_write p ctx x : lockless (pipe_write p ctx x : K _).
Proof. unfold pipe_write. lockless. Qed.
Lemma lockless_stream_write now p ctx r x : lockless (stream_write now p ctx r x : K _).
Proof. unfold stream_write. lockless. Qed.
Lemma lockless_materialize r a b : lockless (materialize_reference_directory r a b : K _).
Proof. unfold materialize_reference_directory. lockless. Qed.
Lemma lockless_missing_parents fuel r p : lockless (missing_parents fuel r p : K _).
Proof. revert p. induction fuel as [|fuel IH]; intros p; cbn [missing_parents]; lockless. Qed.
Lemma lockless_create_parent ctx r p : lockless (create_parent ctx r p : K _).
Proof. unfold create_parent. lockless. Qed.
Hint Resolve lockless_pipe_write lockless_stream_write lockless_materialize lockless_missing_parents
  lockless_create_parent : locks.
Lemma lockless_ensure_parents p ctx r : lockless (ensure_parent_directories p ctx r : K _).
Proof. unfold ensure_parent_directories. lockless. Qed.
Hint Resolve lockless_ensure_parents : locks.
Lemma lockless_mkdir p ctx a b : lockless (mkdir p ctx a b : K _).
Proof. unfold mkdir, supplement_mkdir. lockless. Qed.
Lemma lockless_destroy_pipe p : lockless (destroy_pipe p : K _).
Proof. unfold destroy_pipe. lockless. Qed.
Lemma lockless_destroy_stream p z : lockless (destroy_stream_in_zone p z : K _).
Proof. unfold destroy_stream_in_zone. lockless. Qed.
Lemma lockless_unlink_result h t p x n : lockless (unlink_result h t p x n : K _).
Proof. unfold unlink_result. lockless. Qed.
Hint Resolve lockless_mkdir lockless_destroy_pipe lockless_destroy_stream lockless_unlink_result : locks.
Lemma lockless_copy_rw s d m ctx : lockless (copy_via_read_write s d m ctx : K _).
Proof. unfold copy_via_read_write. lockless. Qed.
Lemma lockless_snapshot p ctx d o : lockless (snapshot_destination p ctx d o : K _).
Proof. unfold snapshot_destination. lockless. Qed.
Lemma lockless_untracked d o : lockless (untracked_destination d o : K _).
Proof. unfold untracked_destination. lockless. Qed.
Hint Resolve lockless_copy_rw lockless_snapshot lockless_untracked : locks.
Lemma lockless_copy_content ctx s d m : lockless (copy_content ctx s d m : K _).
Proof. unfold copy_content. lockless. Qed.
Lemma lockless_copy_rollback ctx d o x w : lockless (copy_rollback ctx d o x w : K _).
Proof. unfold copy_rollback. lockless. Qed.
Hint Resolve lockless_copy_content lockless_copy_rollback : locks.
Lemma lockless_copy_locked now p ctx s d m : lockless (copy_locked now p ctx s d m : K _).
Proof. unfold copy_locked. lockless. Qed.
Hint Resolve lockless_copy_locked : locks.

(** ** Calls with one lock *)

Lemma frees_read_locked c p ctx r e : frees c ∅ 1 (read_locked p ctx r e : K _).
Proof. apply (frees_lock c 0); frees. Qed.

Lemma frees_read_after_auth c now p ctx t o (follow : option (string → K SysReadResult)) :
  (∀ f target, follow = Some f → frees c ∅ 1 (f target)) → frees c ∅ 1 (sys_read_after_auth follow now p ctx t o).
Proof.
  intros Hf. unfold sys_read_after_auth. frees; subst; eauto using frees_read_locked.
Qed.

Lemma frees_read c hops now p ctx t o : frees c ∅ 1 (sys_read_single hops now p ctx t o : K _).
Proof.
  revert p. induction hops as [|hops IH]; intros p; cbn [sys_read_single]; frees;
    apply frees_read_after_auth; naive_solver.
Qed.

Lemma frees_write_locked c now p ctx x o r : frees c ∅ 1 (write_locked now p ctx x o r : K _).
Proof. apply (frees_lock c 0); frees. Qed.

Lemma frees_write c hops now p ctx x o : frees c ∅ 1 (sys_write_with_link_depth hops now p ctx x o : K _).
Proof.
  revert p x. induction hops as [|hops IH]; intros p x; cbn [sys_write_with_link_depth]; frees;
    auto using frees_write_locked.
Qed.

Lemma frees_set_mode c p ctx mode : frees c ∅ 1 (sys_set_file_mode p ctx mode : K _).
Proof. unfold sys_set_file_mode. frees. apply (frees_lock c 0); frees. Qed.

Lemma frees_remove_directory c p rec r h : frees c {[h]} 0 (remove_directory p rec r h : K _).
Proof. unfold remove_directory. frees. Qed.

Lemma frees_rmdir c p ctx rec : frees c ∅ 1 (rmdir p ctx rec : K _).
Proof.
  unfold rmdir. frees. apply (frees_lock c 0); frees;
    (apply frees_then0; [apply frees_remove_directory|frees]).
Qed.

Lemma frees_unlink_locked c p ctx r e : frees c ∅ 1 (unlink_locked p ctx r e : K _).
Proof. apply (frees_lock c 0); frees. Qed.

Lemma frees_rmdir_then {A} c p ctx rec (f : SysRmdirResult → K A) :
  (∀ x, lockless (f x)) → frees c ∅ 1 (rmdir p ctx rec ≫= f).
Proof.
  intros Hf. apply (frees_seq c 1 0); [apply frees_rmdir|]. intros x. by apply frees_any.
Qed.

(** An unmount changes the mount table, and no lock. *)
Lemma frees_modify cf b (f : Kernel → Kernel) :
  (∀ k, k_locks (f k) = k_locks k ∧ k_config (f k) = k_config k) → frees (cf, None) ∅ b (modify f : K ()).
Proof.
  intros Hf n H k r k' _ Hk [= <- <-]. rewrite without_empty. eapply locked_mono; [|].
  2:{ destruct Hk as [[Hc _] Hk]. destruct (Hf k) as [El Ec]. unfold locked, context_is. rewrite El, Ec.
      split; [by split|exact Hk]. }
  lia.
Qed.

Lemma frees_unmount cf b p z : frees (cf, None) ∅ b (dlc_unmount p z : K _).
Proof.
  unfold dlc_unmount. frees; (apply (frees_seq _ 0 b); [apply frees_modify; done|frees]).
Qed.

Lemma frees_unlink_entry cf p ctx rec r e : frees (cf, None) ∅ 1 (unlink_entry p ctx rec r e : K _).
Proof.
  unfold unlink_entry. frees; first
    [ apply frees_rmdir_then; solve [lockless]
    | apply frees_unlink_locked
    | apply (frees_seq _ 1 0); [apply frees_unmount|frees] ].
Qed.

Lemma frees_unlink cf p ctx rec : frees (cf, None) ∅ 1 (sys_unlink_single p ctx rec : K _).
Proof.
  unfold sys_unlink_single. frees; try apply frees_unlink_entry.
  unfold unlink_unlisted. frees. apply frees_rmdir_then. lockless.
Qed.

(** ** Calls with two locks *)

Lemma frees_copy c hops now p q ctx : frees c ∅ 2 (sys_copy_with_link_depth hops now p q ctx : K _).
Proof.
  revert p. induction hops as [|hops IH]; intros p; cbn [sys_copy_with_link_depth]; frees; try apply IH;
    apply (frees_lock_pair c 0); intros locks Hne; frees;
    try (apply frees_release_locks; [done|frees]).
Qed.

Lemma unlock_throw_error {A} locks e k r k' :
  (unlock_throw locks e : K A) k = Some (r, k') → is_ok r = false.
Proof.
  unfold unlock_throw, release_locks, when, release, modify, mbind, K_bind, mret, K_ret, throw.
  repeat case_match; intros Heq; by simplify_eq.
Qed.

Lemma frees_unlock_throw {A} c b locks e :
  (locks.1 = locks.2 → locks.1 = 0%N) → frees c (handles locks) b (unlock_throw locks e : K A).
Proof. intros Hne. unfold unlock_throw. apply frees_release_locks; [done|frees]. Qed.

Lemma error_unlock_throw {A} c locks e :
  (locks.1 = locks.2 → locks.1 = 0%N) → frees_on_error c (handles locks) 0 (unlock_throw locks e : K A).
Proof.
  intros Hne. apply frees_on_error_throw; [by apply frees_unlock_throw|]. intros k r k'. apply unlock_throw_error.
Qed.

Lemma lockless_move_bytes o d : lockless (move_bytes o d : K _).
Proof. unfold move_bytes. lockless. Qed.
Lemma infallible_move_bytes o d : infallible (move_bytes o d : K _).
Proof. unfold move_bytes. infallible. Qed.
Lemma lockless_move_back b o d : lockless (move_back b o d : K _).
Proof. unfold move_back. lockless. Qed.
Lemma infallible_move_back b o d : infallible (move_back b o d : K _).
Proof. unfold move_back. infallible. Qed.
Hint Resolve lockless_move_bytes infallible_move_bytes lockless_move_back infallible_move_back : locks.

Lemma frees_rename_move cf t p q o d locks :
  is_Some (store_at cf t (rr_mount_point o)) → (locks.1 = locks.2 → locks.1 = 0%N) →
  frees_on_error (cf, Some t) (handles locks) 0 (rename_move p q o d locks : K ()).
Proof.
  intros [id Hid] Hne. unfold rename_move. apply frees_on_error_bind; [lockless|infallible|]. intros [renamed|e].
  - eapply frees_on_error_store; [done|]. intros [x|e].
    + case_match; apply frees_on_error_ok; first [solve [lockless]|solve [infallible]].
    + apply frees_on_error_bind; [lockless|infallible|]. intros rollback.
      repeat case_match; by apply error_unlock_throw.
  - by apply error_unlock_throw.
Qed.

Lemma lockless_rename_source p r : lockless (rename_source p r : K _).
Proof. unfold rename_source. lockless. Qed.
Lemma infallible_rename_source p r : infallible (rename_source p r : K _).
Proof. unfold rename_source. infallible. Qed.
Lemma lockless_rename_destination p r : lockless (rename_destination p r : K _).
Proof. unfold rename_destination. lockless. Qed.
Lemma infallible_rename_destination p r : infallible (rename_destination p r : K _).
Proof. unfold rename_destination. infallible. Qed.

(** A source is found in a store. *)
Lemma rename_source_store p r k x k' :
  (rename_source p r : K _) k = Some (Ok (Some x), k') → is_Some (resolve_metastore r (kc_metastore (k_config k))).
Proof.
  destruct (resolve_metastore r (kc_metastore (k_config k))) as [id|] eqn:Hr; [by eauto|].
  assert (∀ A (op : Op S A), (with_metastore_route r op : K _) k = Some (Ok None, k)) as Hn.
  { intros A op. unfold with_metastore_route, config, reads, mbind, K_bind. by rewrite Hr. }
  unfold rename_source, get_row, mbind, K_bind, mret, K_ret. rewrite Hn. cbn [found]. by rewrite Hn.
Qed.

Lemma frees_rename_source {C} cf t X b p r (f : option (bool * N * option FileMetadata) → K C) :
  frees (cf, Some t) X b (f None) →
  (∀ x, is_Some (resolve_metastore r (kc_metastore cf)) → frees (cf, Some t) X b (f (Some x))) →
  frees (cf, Some t) X b (rename_source p r ≫= f).
Proof.
  intros Hn Hs n H k y k' HX Hk. unfold mbind, K_bind.
  destruct (rename_source p r k) as [[[x|e] k1]|] eqn:E1; [|by apply infallible_rename_source in E1|done].
  pose proof (lockless_rename_source p r _ _ _ E1) as (El & Ec & Er). intros E2.
  assert (locked (cf, Some t) (b + n) H k1) as Hk1.
  { unfold locked, context_is in *. by rewrite El, Ec, Er. }
  destruct x as [x|]; [|by eapply Hn]. eapply Hs; [|done..].
  destruct Hk as [[Hc _] _]. cbn in Hc. rewrite <-Hc. by eapply rename_source_store.
Qed.

Lemma frees_rename_locked cf t p q ctx o d locks :
  (t !! rr_mount_point o) ≫= me_metastore = rr_metastore o → (locks.1 = locks.2 → locks.1 = 0%N) →
  frees (cf, Some t) (handles locks) 0 (rename_locked p q ctx o d locks : K _).
Proof.
  intros Ho Hne. unfold rename_locked.
  apply frees_rename_source; [by apply frees_unlock_throw|]. intros [[is_dir et] m] Hst.
  case_decide; [by apply frees_unlock_throw|].
  apply frees_bind0; [apply lockless_rename_destination|apply infallible_rename_destination|]. intros dst.
  case_match; [by apply frees_unlock_throw|]. case_decide; [by apply frees_unlock_throw|].
  apply frees_bind_error.
  { apply frees_rename_move; [|done]. unfold store_at. rewrite Ho. exact Hst. }
  intros _. apply frees_bind0; [lockless|infallible|]. intros _. apply frees_release_locks; [done|frees].
Qed.

Lemma route_loop_metastore fuel (t : MountTable) canonical cur z (r : Route) :
  route_loop fuel t canonical cur z = Some r → (t !! rr_mount_point r) ≫= me_metastore = rr_metastore r.
Proof.
  revert cur. induction fuel as [|fuel IH]; intros cur; cbn [route_loop]; [done|].
  destruct (t !! cur) as [e|] eqn:He.
  - intros [= <-]. cbn. by rewrite He.
  - repeat case_match; try done; apply IH.
Qed.

Lemma route_metastore (t : MountTable) p z (r : Route) :
  route t p z = Some r → (t !! rr_mount_point r) ≫= me_metastore = rr_metastore r.
Proof.
  assert (∀ z r, route_in_zone t p z = Some r → (t !! rr_mount_point r) ≫= me_metastore = rr_metastore r) as Hz.
  { intros z' r'. apply route_loop_metastore. }
  unfold route. intros H. apply bind_Some in H as (initial & Hi & H).
  assert (∃ z', route_in_zone t p z' = Some initial) as [z' Hz']
    by (destruct (route_in_zone t p z) eqn:E1; [simplify_eq; eauto|]; destruct (decide (z ≠ ROOT_ZONE_ID)); [eauto|done]).
  repeat case_match; simplify_eq; eauto.
Qed.

Lemma frees_rename cf t p q ctx : frees (cf, Some t) ∅ 2 (sys_rename p q ctx : K _).
Proof.
  unfold sys_rename, supplement_rename. do 5 (apply frees_seq0; [lockless|intros _]).
  apply frees_route, frees_route. destruct (route t p _) as [o|] eqn:Ho; [|frees].
  destruct (route t q _) as [d|]; [|frees]. apply frees_seq0; [lockless|intros _].
  apply (frees_lock_pair _ 0). intros locks Hne. case_match.
  - apply frees_release_locks; [done|frees].
  - apply frees_rename_locked; [by eapply route_metastore|done].
Qed.

(** ** The calls together *)

Inductive Syscall :=
  | CallRead (now : Z) (req : ReadRequest)
  | CallWrite (now : Z) (req : WriteRequest)
  | CallSetMode (path : string) (mode : N)
  | CallMkdir (path : string) (parents exist_ok : bool)
  | CallRmdir (path : string) (recursive : bool)
  | CallUnlink (path : string) (recursive : bool)
  | CallRename (old_path new_path : string)
  | CallCopy (now : Z) (src_path dst_path : string).

(** A call with its answer forgotten. *)
Definition run_call (x : Syscall) (ctx : OperationContext) : K () :=
  match x with
  | CallRead now req => _ ← sys_read_one now req ctx; mret ()
  | CallWrite now req => _ ← sys_write_one now req ctx; mret ()
  | CallSetMode p mode => sys_set_file_mode p ctx mode
  | CallMkdir p parents exist_ok => _ ← mkdir p ctx parents exist_ok; mret ()
  | CallRmdir p recursive => _ ← rmdir p ctx recursive; mret ()
  | CallUnlink p recursive => _ ← sys_unlink_single p ctx recursive; mret ()
  | CallRename p q => _ ← sys_rename p q ctx; mret ()
  | CallCopy now p q => _ ← sys_copy now p q ctx; mret ()
  end.

Lemma frees_seq_any {A C} c a b (m : K A) (f : A → K C) :
  (a ≤ b)%N → frees c ∅ a m → (∀ x, lockless (f x)) → frees c ∅ b (m ≫= f).
Proof.
  intros Hab Hm Hf. eapply frees_mono; [exact Hab|]. rewrite <-(N.add_0_r a).
  apply frees_seq; [done|]. intros x. by apply frees_any.
Qed.

(** What the proof of a call needs to know of the mount table. *)
Definition call_context (x : Syscall) (k : Kernel) : KernelConfig * option MountTable :=
  (k_config k, match x with CallRename _ _ => Some (k_router k) | _ => None end).

Lemma frees_call x ctx k : frees (call_context x k) ∅ 2 (run_call x ctx).
Proof.
  unfold call_context. destruct x; cbn [run_call].
  - apply (frees_seq_any _ 1); [done| |intros; lockless]. unfold sys_read_one.
    apply (frees_seq_any _ 1); [done|apply frees_read|intros; lockless].
  - apply (frees_seq_any _ 1); [done|apply frees_write|intros; lockless].
  - eapply frees_mono, frees_set_mode. done.
  - apply frees_any. lockless.
  - apply (frees_seq_any _ 1); [done|apply frees_rmdir|intros; lockless].
  - apply (frees_seq_any _ 1); [done|apply frees_unlink|intros; lockless].
  - apply (frees_seq_any _ 2); [done|apply frees_rename|intros; lockless].
  - apply (frees_seq_any _ 2); [done|apply frees_copy|intros; lockless].
Qed.

(** C4: Every file system call gives its locks back on every path.  Whatever a read,
    write, change of mode, mkdir, rmdir, unlink, rename or copy of any path ends
    with (success, a miss, a time-out on a lock another thread holds, a denied
    permission, a failed store or backend, a failed rollback), the table of I/O
    locks, other threads' locks included, is exactly the one the call found, and
    it still satisfies its invariant. *)
Theorem calls_release_locks (x : Syscall) (ctx : OperationContext) (k k' : Kernel) (r : result KernelError ()) :
  manager_inv (k_locks k) →
  (next_handle (k_locks k) + 2 < U64_MOD)%N →
  (N.of_nat (size (io_handles (io_state (k_locks k)))) + 2 < U32_MOD)%N →
  run_call x ctx k = Some (r, k') →
  io_state (k_locks k') = io_state (k_locks k) ∧ manager_inv (k_locks k').
Proof.
  intros Hi Hn Hs E1.
  destruct (frees_call x ctx k 0%N (io_handles (io_state (k_locks k))) k r k') as (_ & Hi' & Hh & _);
    [set_solver| |done|].
  - split; [split; [done|by destruct x; intros t [= <-]]|by split_and!].
  - rewrite without_empty in Hh. split; [|done]. by eapply io_inv_unique.
Qed.
End calls.
