(* ===== verification/KernelWorld.v ===== *)
(** * A small node

    Instances of what the system calls run on, to evaluate them: the abstract
    metadata store of LocalSpec, and object stores that keep the bytes of each path
    in memory. *)

From S2P Require Import Prelude Bytes Codec Table LockState IoLocks IoLockProofs Router Rename Pipe PipeManager StreamBuf StreamManager MetaStore LocalStore KernelTypes Dispatch Kernel KernelFiles KernelNames.

(** ** The metadata store *)

(** An operation of the abstract store with its answer read back. *)
Definition spec_op {A} (op : LsOp) (read : LsAnswer → option A) : Op Spec A := λ a,
  match spec_exec op a with
  | (Ok ans, a) => x ← read ans; Some (Ok x, a)
  | (Err e, a) => Some (Err e, a)
  end.

Definition as_unit (x : LsAnswer) : option () := match x with AnUnit => Some () | _ => None end.
Definition as_bool (x : LsAnswer) : option bool := match x with AnBool b => Some b | _ => None end.
Definition as_row (x : LsAnswer) : option (option FileMetadata) := match x with AnRow m => Some m | _ => None end.
Definition as_rows (x : LsAnswer) : option (list FileMetadata) := match x with AnRows l => Some l | _ => None end.
Definition as_count (x : LsAnswer) : option N := match x with AnCount n => Some n | _ => None end.

#[global] Instance spec_meta_store : MetaStore Spec := {|
  ms_get p := spec_op (LsGet p) as_row;
  ms_put p m := spec_op (LsPut p m) as_unit;
  ms_delete p := spec_op (LsDelete p) as_bool;
  ms_list prefix := spec_op (LsList prefix) as_rows;
  ms_exists p := spec_op (LsExists p) as_bool |}.

#[global] Instance spec_kernel_store : KernelStore Spec := {|
  ks_base := spec_meta_store;
  ks_put_batch items := spec_op (LsPutBatch items) as_unit;
  ks_delete_batch paths := spec_op (LsDeleteBatch paths) as_count;
  ks_rename_path old new is_pas := spec_op (LsRename old new is_pas) as_unit |}.

(** ** Object stores *)

Abbreviation Memory := (gmap (N * string) string).

Definition mem_read (b : N) (p : string) (w : Memory) : result StorageError string :=
  match w !! (b, p) with Some bytes => Ok bytes | None => Err (StNotFound p) end.

Definition mem_write (b : N) (bytes p : string) (w : Memory) : result StorageError WriteResult * Memory :=
  (Ok (mkStored p "" (slen bytes)), <[(b, p) := bytes]> w).

Definition mem_rename (b : N) (old new : string) (w : Memory) : result StorageError () * Memory :=
  match w !! (b, old) with
  | Some bytes => (Ok (), <[(b, new) := bytes]> (delete (b, old) w))
  | None => (Err (StNotFound old), w)
  end.

#[global] Instance memory_stores : ObjectStores Memory := {|
  os_write_content b bytes p _ offset w :=
    if (offset =? 0)%N && negb (bool_decide (p = "")) then mem_write b bytes p w
    else (Err (StNotSupported "write"), w);
  os_read_content b p _ w := mem_read b p w;
  os_get_content_size b p w :=
    match w !! (b, p) with Some bytes => Ok (slen bytes) | None => Err (StNotFound p) end;
  os_mkdir _ _ _ _ w := (Ok (), w);
  os_rmdir _ _ _ w := (Err (StNotSupported "rmdir"), w);
  os_delete_file b p w :=
    match w !! (b, p) with Some _ => (Ok (), delete (b, p) w) | None => (Err (StNotFound p), w) end;
  os_rename := mem_rename;
  os_copy_file _ _ _ w := (Err (StNotSupported "copy_file"), w);
  os_list_dir _ _ _ := Err (StNotSupported "list_dir");
  os_stat _ _ _ := Err (StNotSupported "stat");
  os_resolve_physical_path _ _ _ := None;
  os_set_file_mode _ _ _ w := (Err (StNotSupported "set_file_mode"), w);
  fs_metadata p _ := Err (mkIoError KindNotFound p);
  fs_open _ _ := None;
  fs_pread _ _ _ := None |}.

#[global] Instance no_texts : Texts := {|
  storage_debug _ := ""; meta_debug _ := ""; meta_display _ := ""; io_display _ := ""; str_debug s := s;
  kernel_debug _ := ""; pipe_debug _ := ""; stream_debug _ := ""; stream_mgr_debug _ := "";
  zone_locks_error _ := "" |}.

(** ** The node *)

(** Everything is allowed, there are no hooks and no peers. *)
Definition bare_config (provider : option (string → option Route → Permission → OperationContext → result KernelError ())) :
    KernelConfig :=
  mkConfig provider hooks_new (Some 0%N) None None 0 0 0 0 0 U64_MAX (λ _ _, Err "no peer") (λ _ _, None)
    (λ _ _, None) (λ _ _, false) [].

(** One mount of the root zone, on the object store 0. *)
Definition one_mount : MountTable := {["/root" := mkMountEntry (Some 0%N) None false None None false]}.

Definition Node : Type := Kernel Memory Spec LockState MemoryPipe MemoryStream.

Definition node (rows : gmap string FileMetadata) (commits : list bool) (w : Memory) : Node :=
  mkKernel (bare_config None) one_mount trie_new w {[0%N := mkSpec rows ∅ commits]}
    (lock_manager_new lock_state_new) None ∅ manager_new stream_manager_new ∅ [] [] [].

Definition root_user : OperationContext := context_new "alice" "root" false None false.

(** A regular file and its bytes. *)
Definition file_row (p content_id : string) (bytes : string) : FileMetadata :=
  mkMeta p (slen bytes) (Some content_id) 1 1 DT_REG (Some "root") None None None None None None None None.

(** Two files; [commits] are the fates of the next commits of the store. *)
Definition two_files (commits : list bool) : Node :=
  node {["/a" := file_row "/a" "a" "new"; "/b" := file_row "/b" "b" "old"]} commits
    {[(0%N, "a") := "new"; (0%N, "b") := "old"]}.

(** ** Outcomes *)

Section outcomes.
Context {A T : Type}.
Implicit Types (x : option (result KernelError A * T)).

Definition fails x : bool := match x with Some (Err _, _) => true | _ => false end.

(** The node a call leaves, [k] when it panics. *)
Definition after (k : T) x : T := match x with Some (_, k) => k | None => k end.

Definition answer x : option (result KernelError A) := fst <$> x.

Lemma fails_inv x : fails x = true → ∃ e k', x = Some (Err e, k').
Proof. destruct x as [[[]]|]; naive_solver. Qed.

(** A call that succeeds with an answer that passes a test. *)
Definition succeeds (test : A → bool) x : bool := match x with Some (Ok a, _) => test a | _ => false end.

Lemma succeeds_inv x test : succeeds test x = true → ∃ a k', x = Some (Ok a, k') ∧ test a = true.
Proof. destruct x as [[[]]|]; naive_solver. Qed.
End outcomes.

(** The bytes a read of a path gives. *)
Definition read_back (p : string) (k : Node) : option (result KernelError (option string)) :=
  match answer (sys_read_one 0 (mkReadRequest p 0 None 0) root_user k) with
  | Some (Ok r) => Some (Ok (rd_data r))
  | Some (Err e) => Some (Err e)
  | None => None
  end.

Definition has_row (p : string) (k : Node) : bool :=
  match k_stores k !! 0%N with Some s => bool_decide (is_Some (sp_rows s !! p)) | None => false end.
