(* ===== verification/KernelRename.v ===== *)
(** * A failed rename

    What [sys_rename] leaves behind when it fails: every row as it was, and every
    byte, since a rename of the bytes is taken back when the rows cannot be moved.
    The exception is a destination that had bytes of its own. *)

From S2P Require Import Prelude Bytes Codec Table LockState IoLocks IoLockProofs Router Rename Pipe PipeManager StreamBuf StreamManager MetaStore LocalStore KernelTypes Dispatch Kernel KernelFiles KernelNames KernelList KernelLockProofs KernelReleases KernelWorld.

Section rename.
Context {W : Type} `{!ObjectStores W}.
Context {S : Type} `{!KernelStore S}.
Context {L : Type} `{!Locks L}.
Context {E : Type} `{!PipeBackend E}.
Context {B : Type} `{!StreamBackend B}.
Context {TX : Texts}.

Abbreviation K := (@K W S L E B).
Abbreviation Kernel := (Kernel W S L E B).
Implicit Types (k : Kernel).

(** What a store shows of its rows. *)
Context {V : Type} (view : S → V).

(** The object stores the laws speak of. *)
Context (sound : W → Prop).

(** The same reads of the object stores succeed, with the same bytes. *)
Definition same_bytes (w w' : W) : Prop :=
  ∀ b cid ctx x, os_read_content b cid ctx w' = Ok x ↔ os_read_content b cid ctx w = Ok x.

Definition same_rows k k' : Prop := ∀ id, view <$> k_stores k' !! id = view <$> k_stores k !! id.

(** Reads of a store and failed renames leave its rows; a failed rename of bytes
    leaves the bytes, and a rename to a free name is undone by renaming back. *)
Record RenameLaws : Prop := {
  law_get p s r s' : ms_get p s = Some (r, s') → view s' = view s;
  law_list p s r s' : ms_list p s = Some (r, s') → view s' = view s;
  law_rename_err p q pas s e s' : ks_rename_path p q pas s = Some (Err e, s') → view s' = view s;
  law_move_err b p q w e w' : sound w → os_rename b p q w = (Err e, w') → same_bytes w w';
  law_move_back b p q w w1 w2 : sound w →
    (∀ ctx, ∃ e, os_read_content b q ctx w = Err e) →
    os_rename b p q w = (Ok (), w1) → os_rename b q p w1 = (Ok (), w2) → same_bytes w w2 }.

(** Rows, bytes, mounts and configuration are the same. *)
Definition calm k k' : Prop :=
  k_storage k' = k_storage k ∧ same_rows k k' ∧ k_router k' = k_router k ∧ k_config k' = k_config k.

Definition calms {A} (m : K A) : Prop := ∀ k r k', m k = Some (r, k') → calm k k'.

Lemma calm_refl k : calm k k.
Proof. by split_and!. Qed.

Lemma calm_trans k1 k2 k3 : calm k1 k2 → calm k2 k3 → calm k1 k3.
Proof.
  intros (S1 & R1 & T1 & C1) (S2 & R2 & T2 & C2). split_and!; [congruence| |congruence..].
  intros id. by rewrite R2, R1.
Qed.

Lemma calms_ret {A} (a : A) : calms (mret a : K A).
Proof. intros k r k' [= <- <-]. apply calm_refl. Qed.
Lemma calms_throw {A} e : calms (throw e : K A).
Proof. intros k r k' [= <- <-]. apply calm_refl. Qed.
Lemma calms_reads {A} (f : Kernel → A) : calms (reads f).
Proof. intros k r k' [= <- <-]. apply calm_refl. Qed.
Lemma calms_modify (f : Kernel → Kernel) : (∀ k, calm k (f k)) → calms (modify f).
Proof. intros Hf k r k' [= <- <-]. apply Hf. Qed.
Lemma calms_bind {A C} (m : K A) (f : A → K C) : calms m → (∀ x, calms (f x)) → calms (m ≫= f).
Proof.
  intros Hm Hf k r k'. unfold mbind, K_bind. destruct (m k) as [[[x|e] k1]|] eqn:E1; [| |done].
  - intros E2. eapply calm_trans; [by eapply Hm|by eapply Hf].
  - intros [= <- <-]. by eapply Hm.
Qed.
Lemma calms_of_result {A} (r : result KernelError A) : calms (of_result r : K A).
Proof. destruct r; [apply calms_ret|apply calms_throw]. Qed.
Lemma calms_when b (m : K ()) : calms m → calms (when b m).
Proof. intros ?. destruct b; [done|apply calms_ret]. Qed.
Lemma calms_check path r p ctx : calms (check_permission_with_route path r p ctx : K ()).
Proof.
  intros k x k'. unfold check_permission_with_route. repeat case_match; intros [= <- <-]; apply calm_refl.
Qed.
Lemma calms_acquire p m : calms (blocking_acquire p m : K N).
Proof. intros k r k'. unfold blocking_acquire. case_match. intros [= <- <-]. by split_and!. Qed.
Lemma calms_store {A} id (op : Op S A) :
  (∀ s r s', op s = Some (r, s') → view s' = view s) → calms (with_store id op : K _).
Proof.
  intros Hop. unfold with_store. destruct id as [id|]; [|apply calms_ret]. apply calms_bind; [|intros; apply calms_ret].
  intros k r k'. unfold run_store. destruct (k_stores k !! id) as [s|] eqn:Hs; cbn; [|done].
  destruct (op s) as [[x s']|] eqn:Ho; cbn; [|done]. intros [= <- <-]. split_and!; [done| |done..].
  intros id'. cbn. destruct (decide (id = id')) as [<-|Hne].
  - rewrite lookup_insert_eq, Hs. cbn. f_equal. by eapply Hop.
  - by rewrite lookup_insert_ne.
Qed.
Lemma calms_route_store {A} r (op : Op S A) :
  (∀ s x s', op s = Some (x, s') → view s' = view s) → calms (with_metastore_route r op : K _).
Proof. intros Hop. apply calms_bind; [apply calms_reads|]. intros g. by apply calms_store. Qed.
Lemma calms_mount_store {A} mp (op : Op S A) :
  (∀ s x s', op s = Some (x, s') → view s' = view s) → calms (kernel_with_metastore mp op : K _).
Proof.
  intros Hop. apply calms_bind; [apply calms_reads|]. intros e. apply calms_bind; [apply calms_reads|].
  intros g. by apply calms_store.
Qed.

Create HintDb calm.
Hint Resolve calms_ret calms_throw calms_reads calms_of_result calms_check calms_acquire : calm.

Ltac calms :=
  repeat (cbv beta iota zeta;
    lazymatch goal with
    | |- ∀ _, _ => intro
    | |- calms (_ ≫= _) => apply calms_bind
    | |- calms (when _ _) => apply calms_when
    | |- calms (modify _) => apply calms_modify; intros; by split_and!
    | |- calms (match _ with _ => _ end) => case_match
    | |- calms _ => solve [auto with calm]
    end).

Lemma calms_release h : calms (release h : K ()).
Proof. unfold release. calms. Qed.
Hint Resolve calms_release : calm.
Lemma calms_release_locks a b : calms (release_locks a b : K ()).
Proof. unfold release_locks. calms. Qed.
Lemma calms_lock_pair p q : calms (lock_pair p q : K _).
Proof. unfold lock_pair. calms. Qed.
Hint Resolve calms_release_locks calms_lock_pair : calm.
Lemma calms_unlock_throw {A} locks e : calms (unlock_throw locks e : K A).
Proof. unfold unlock_throw. calms. Qed.
Lemma calms_pre c : calms (dispatch_native_pre c : K ()).
Proof. unfold dispatch_native_pre, dispatch_native_pre_with_replacement, config. calms. Qed.
Lemma calms_supplement_rename r p q : calms (supplement_rename r p q : K ()).
Proof. unfold supplement_rename, supplement. calms. Qed.

(** ** The moved bytes *)

Definition rollback_failed (new_path : string) (meta_err : MetaStoreError) (rollback_err : StorageError) : KernelError :=
  EIOError ("sys_rename: metastore failed and storage rollback also failed (data at " +:+ new_path
    +:+ " is inaccessible): meta=" +:+ meta_debug meta_err +:+ " rollback=" +:+ storage_debug rollback_err).

(** Rows and bytes are as they were. *)
Definition untouched k k' : Prop := same_rows k k' ∧ same_bytes (k_storage k) (k_storage k').

Lemma calm_untouched k k' : calm k k' → untouched k k'.
Proof. intros (Hs & Hr & _). split; [done|]. intros b cid ctx x. by rewrite Hs. Qed.

Lemma untouched_calm k k1 k2 : untouched k k1 → calm k1 k2 → untouched k k2.
Proof. intros [R1 S1] (S2 & R2 & _). split; [|by rewrite S2]. intros id. by rewrite R2, R1. Qed.

Lemma calm_then_untouched k k1 k2 : calm k k1 → untouched k1 k2 → untouched k k2.
Proof.
  intros (S1 & R1 & _) [R2 S2]. split; [|by rewrite <-S1]. intros id. by rewrite R2, R1.
Qed.

Lemma move_bytes_spec (laws : RenameLaws) o d k r k' :
  sound (k_storage k) → move_bytes o d k = Some (r, k') →
  k_stores k' = k_stores k ∧ k_router k' = k_router k ∧ k_config k' = k_config k ∧
  match r with
  | Ok (Ok true) => ∃ b, rr_backend o = Some b ∧
      os_rename b (rr_backend_path o) (rr_backend_path d) (k_storage k) = (Ok (), k_storage k')
  | Ok (Ok false) => k_storage k' = k_storage k
  | Ok (Err _) => same_bytes (k_storage k) (k_storage k')
  | Err _ => False
  end.
Proof.
  intros Hw. unfold move_bytes, route_storage, storage. destruct (rr_is_cas o); [by intros [= <- <-]|].
  destruct (rr_backend o) as [b|]; unfold mbind, K_bind, mret, K_ret; [|by intros [= <- <-]].
  destruct (os_rename b _ _ (k_storage k)) as [[[]|e] w] eqn:Em; intros [= <- <-]; split_and!; try done; [by eauto|].
  by apply (law_move_err laws b _ _ _ _ _ Hw Em).
Qed.

(** No byte is readable at the destination. *)
Definition destination_free (o d : Route) (w : W) : Prop :=
  ∀ b ctx, rr_backend o = Some b → ∃ e, os_read_content b (rr_backend_path d) ctx w = Err e.

Lemma move_back_spec (laws : RenameLaws) o d k k1 k2 b r :
  sound (k_storage k) → rr_backend o = Some b → destination_free o d (k_storage k) →
  os_rename b (rr_backend_path o) (rr_backend_path d) (k_storage k) = (Ok (), k_storage k1) →
  move_back true o d k1 = Some (r, k2) →
  k_stores k2 = k_stores k1 ∧ (r = Ok (Some (Ok ())) ∧ same_bytes (k_storage k) (k_storage k2)
                               ∨ ∃ e, r = Ok (Some (Err e))).
Proof.
  intros Hw Hb Hfree Hmv. unfold move_back, route_storage, storage. rewrite Hb. unfold mbind, K_bind, mret, K_ret.
  destruct (os_rename b (rr_backend_path d) _ _) as [[[]|e] w] eqn:Em; intros [= <- <-]; (split; [done|]); [left|by eauto].
  split; [done|]. eapply (law_move_back laws b); [done| |done..]. intros ctx. by apply Hfree.
Qed.

(** The metadata of the move: with a store it answers, and errors keep the rows. *)
Lemma rename_rows_spec (laws : RenameLaws) mp id p q pas k r k' :
  store_at (k_config k) (k_router k) mp = Some id →
  kernel_with_metastore mp (ks_rename_path p q pas) k = Some (r, k') →
  k_storage k' = k_storage k ∧ ∃ x, r = Ok (Some x) ∧ (is_ok x = false → same_rows k k').
Proof.
  intros Hid. assert (kernel_with_metastore mp (ks_rename_path p q pas) k = with_store (Some id) (ks_rename_path p q pas) k) as ->.
  { rewrite <-Hid. reflexivity. }
  unfold with_store, run_store, mbind, K_bind, mret, K_ret.
  destruct (k_stores k !! id) as [s|] eqn:Hs; cbn; [|done].
  destruct (ks_rename_path p q pas s) as [[x s']|] eqn:Ho; cbn; [|done]. intros [= <- <-]. split; [done|].
  exists x. split; [done|]. destruct x as [|e]; [done|]. intros _ id'. cbn.
  destruct (decide (id = id')) as [<-|Hne]; [|by rewrite lookup_insert_ne].
  rewrite lookup_insert_eq, Hs. cbn. f_equal. by eapply law_rename_err.
Qed.

Lemma rename_move_untouched (laws : RenameLaws) p q o d locks k e k' :
  sound (k_storage k) →
  is_Some (store_at (k_config k) (k_router k) (rr_mount_point o)) →
  destination_free o d (k_storage k) →
  rename_move p q o d locks k = Some (Err e, k') →
  untouched k k' ∨ ∃ me re, e = rollback_failed q me re.
Proof.
  intros Hw [id Hid] Hfree. unfold rename_move. unfold mbind at 1, K_bind at 1.
  destruct (move_bytes o d k) as [[[moved|?] k1]|] eqn:E1; [| |done].
  2:{ by apply (move_bytes_spec laws _ _ _ _ _ Hw) in E1 as (_ & _ & _ & []). }
  pose proof (move_bytes_spec laws o d k _ k1 Hw E1) as (Est & Ert & Ecf & Hmv). clear E1.
  destruct moved as [renamed|se].
  2:{ intros E2. left. eapply untouched_calm; [|by eapply calms_unlock_throw]. split; [|exact Hmv].
      intros id'. by rewrite Est. }
  unfold mbind at 1, K_bind at 1. rewrite <-Ert, <-Ecf in Hid.
  destruct (kernel_with_metastore _ _ k1) as [[r1 k2]|] eqn:E2; [|done].
  destruct (rename_rows_spec laws _ _ _ _ _ _ _ _ Hid E2) as (Es2 & x & -> & Hrows).
  destruct x as [[]|me].
  { destruct (rr_is_cas o); [|done]. unfold mbind, K_bind.
    destruct (route_storage o _ k2) as [[[?|?] k3]|] eqn:E3; [done| |done].
    by apply infallible_route_storage in E3. }
  specialize (Hrows eq_refl). assert (same_rows k k2) as Hr2.
  { intros id'. by rewrite Hrows, Est. }
  unfold mbind at 1, K_bind at 1. destruct renamed.
  - destruct Hmv as (b & Hb & Hmv). destruct (move_back true o d k2) as [[r3 k3]|] eqn:E3; [|done].
    rewrite <-Es2 in Hmv. destruct (move_back_spec laws o d k k2 k3 b r3 Hw Hb Hfree Hmv E3) as [Est3 [[-> Hsb]|[re ->]]].
    + intros E4. left. eapply untouched_calm; [|by eapply calms_unlock_throw]. split; [|exact Hsb].
      intros id'. by rewrite Est3, Hr2.
    + intros E4. right. exists me, re. revert E4.
      unfold unlock_throw, mbind, K_bind. destruct (release_locks _ _ k3) as [[[?|?] k4]|] eqn:E5; [|..|done].
      * by intros [= <- <-].
      * exfalso. revert E5. unfold release_locks, when, release, modify, mbind, K_bind, mret, K_ret.
        by repeat case_match; intros; simplify_eq.
  - intros E4. left. eapply untouched_calm; [|exact (calms_unlock_throw _ _ _ _ _ E4)]. split; [exact Hr2|].
    intros b cid ctx x. by rewrite Es2, Hmv.
Qed.

(** ** The call *)

(** Started as calmly as [k0], [m] fails only with the rows and bytes of [k0]. *)
Definition clean {A} k0 (q : string) (m : K A) : Prop := ∀ k e k',
  calm k0 k → m k = Some (Err e, k') → untouched k0 k' ∨ ∃ me re, e = rollback_failed q me re.

Lemma clean_calms {A} k0 q (m : K A) : calms m → clean k0 q m.
Proof. intros Hm k e k' Hk E1. left. apply calm_untouched. eapply calm_trans; [done|by eapply Hm]. Qed.

Lemma clean_bind {A C} k0 q (m : K A) (f : A → K C) :
  calms m → (∀ x, clean k0 q (f x)) → clean k0 q (m ≫= f).
Proof.
  intros Hm Hf k e k' Hk. unfold mbind, K_bind. destruct (m k) as [[[x|e'] k1]|] eqn:E1; [| |done].
  - apply Hf. eapply calm_trans; [done|by eapply Hm].
  - intros [= <- <-]. by apply (clean_calms k0 q m Hm k e' k1 Hk).
Qed.

Lemma clean_infallible {A C} k0 q (m : K A) (f : A → K C) :
  clean k0 q m → (∀ x, infallible (f x)) → clean k0 q (m ≫= f).
Proof.
  intros Hm Hf k e k' Hk. unfold mbind, K_bind. destruct (m k) as [[[x|e'] k1]|] eqn:E1; [| |done].
  - intros E2. by apply Hf in E2.
  - intros [= <- <-]. by apply (Hm k e' k1).
Qed.

Lemma calms_get_row (laws : RenameLaws) r p : calms (get_row r p : K _).
Proof.
  apply calms_bind; [|intros; apply calms_ret]. apply calms_route_store. intros s x s'. apply (law_get laws).
Qed.

Lemma calms_rename_source (laws : RenameLaws) p r : calms (rename_source p r : K _).
Proof.
  unfold rename_source. apply calms_bind; [by apply calms_get_row|]. intros [m|]; [apply calms_ret|].
  apply calms_bind; [|intros; calms]. apply calms_route_store. intros s x s'. apply (law_list laws).
Qed.

Lemma calms_rename_destination (laws : RenameLaws) p r : calms (rename_destination p r : K _).
Proof.
  unfold rename_destination. apply calms_bind; [apply calms_mount_store; intros s x s'; apply (law_get laws)|].
  intros x. case_match; [apply calms_ret|].
  apply calms_bind; [apply calms_mount_store; intros s y s'; apply (law_list laws)|]. intros; calms.
Qed.

Lemma infallible_release_locks a b : infallible (release_locks a b : K ()).
Proof. unfold release_locks, release. infallible. Qed.

Lemma clean_rename_move (laws : RenameLaws) p q o d locks k0 :
  sound (k_storage k0) →
  is_Some (store_at (k_config k0) (k_router k0) (rr_mount_point o)) →
  destination_free o d (k_storage k0) → clean k0 q (rename_move p q o d locks).
Proof.
  intros Hw Hst Hfree k e k' Hk E1. pose proof Hk as (Hs & _ & Hr & Hc).
  destruct (rename_move_untouched laws p q o d locks k e k') as [Hu|?]; [by rewrite Hs|by rewrite Hc, Hr|by rewrite Hs|done| |by right].
  left. by eapply calm_then_untouched.
Qed.

Lemma clean_rename_locked (laws : RenameLaws) p q ctx o d locks k0 :
  sound (k_storage k0) →
  (k_router k0 !! rr_mount_point o) ≫= me_metastore = rr_metastore o →
  destination_free o d (k_storage k0) → clean k0 q (rename_locked p q ctx o d locks).
Proof.
  intros Hw Ho Hfree k e k' Hk. unfold rename_locked. unfold mbind at 1, K_bind at 1.
  destruct (rename_source p o k) as [[[x|?] k1]|] eqn:E1; [|by apply infallible_rename_source in E1|done].
  assert (calm k0 k1) as Hk1 by (eapply calm_trans; [done|by eapply calms_rename_source]).
  destruct x as [[[is_dir et] m]|]; [|by apply (clean_calms k0 q); [apply calms_unlock_throw|]].
  revert k1 E1 Hk1. intros k1 E1 Hk1.
  apply rename_source_store in E1. destruct Hk as (_ & _ & _ & Hc). rewrite Hc in E1.
  match goal with |- ?m k1 = _ → _ => assert (clean k0 q m) as Hcl; [|by apply Hcl] end.
  case_decide; [apply clean_calms, calms_unlock_throw|].
  apply clean_bind; [by apply calms_rename_destination|]. intros dst.
  case_match; [apply clean_calms, calms_unlock_throw|]. case_decide; [apply clean_calms, calms_unlock_throw|].
  apply clean_infallible; [apply clean_rename_move; [done|done| |done]; unfold store_at; by rewrite Ho|].
  intros _. apply infallible_bind; [apply infallible_fdt_rename|]. intros _.
  apply infallible_bind; [apply infallible_release_locks|]. infallible.
Qed.

(** A rename that fails, to a name where nothing is readable. *)
Lemma failed_rename_untouched (laws : RenameLaws) (p q : string) (ctx : OperationContext) (k k' : Kernel)
    (e : KernelError) :
  sound (k_storage k) →
  (∀ o d, route (k_router k) p (oc_zone_id ctx) = Some o → route (k_router k) q (oc_zone_id ctx) = Some d →
          destination_free o d (k_storage k)) →
  sys_rename p q ctx k = Some (Err e, k') →
  untouched k k' ∨ ∃ me re, e = rollback_failed q me re.
Proof.
  intros Hw Hfree. assert (clean k q (sys_rename p q ctx)) as Hcl; [|by apply Hcl, calm_refl].
  unfold sys_rename, validate, check_permission. do 5 (apply clean_bind; [auto using calms_pre with calm|intros _]).
  intros k1 e1 k1' Hk1. pose proof Hk1 as (_ & _ & Hr & _).
  unfold route_path, reads. unfold mbind at 1, K_bind at 1. unfold mbind at 1, K_bind at 1. rewrite Hr.
  destruct (route _ p _) as [o|] eqn:Ho; [|done]. destruct (route _ q _) as [d|] eqn:Hd; [|done].
  match goal with |- ?m k1 = _ → _ => assert (clean k q m) as Hcl; [|by apply Hcl] end.
  apply clean_bind; [apply calms_when, calms_supplement_rename|]. intros _.
  apply clean_bind; [apply calms_lock_pair|]. intros locks. case_match; [apply clean_calms; calms|].
  apply clean_rename_locked; [done|done|by eapply route_metastore|by apply Hfree].
Qed.
End rename.

(** ** The small node *)

(** Renaming over a file that has bytes: when the rows cannot be moved, the bytes
    are moved back, but those of the destination are lost, while its row stays. *)
Lemma rename_rollback_loses_destination :
  let k := two_files [false] in
  let x := sys_rename "/a" "/b" root_user k in
  read_back "/b" k = Some (Ok (Some "old")) ∧ fails x = true ∧
  has_row "/b" (after k x) = true ∧ read_back "/b" (after k x) = Some (Err (EFileNotFound "/b")).
Proof. split_and!; vm_compute; reflexivity. Qed.
