(* ===== verification/KernelProofs.v ===== *)
(** * Properties of the system calls

    A denied call changes nothing; the lock release of every call on an example;
    what the parts of a rename leave when there is no metadata store; what a batch
    of writes does that the same writes one by one do not. *)

From S2P Require Import Prelude Bytes Codec Table LockState IoLocks IoLockProofs Router Rename Pipe PipeManager StreamBuf StreamManager MetaStore LocalStore KernelTypes Dispatch Kernel KernelFiles KernelNames KernelList KernelLockProofs KernelReleases KernelWorld.

Section denied.
Context {W : Type} `{!ObjectStores W}.
Context {S : Type} `{!KernelStore S}.
Context {L : Type} `{!Locks L}.
Context {E : Type} `{!PipeBackend E}.
Context {B : Type} `{!StreamBackend B}.
Context {TX : Texts}.

Abbreviation K := (@K W S L E B).
Abbreviation Kernel := (Kernel W S L E B).
Implicit Types (k : Kernel).

(** The paths a call names, with the permission it needs on each. *)
Definition call_checks (x : Syscall) : list (string * Permission) :=
  match x with
  | CallRead _ req => [(rq_path req, PermRead)]
  | CallWrite _ req => [(wq_path req, PermWrite)]
  | CallSetMode p _ | CallMkdir p _ _ | CallRmdir p _ | CallUnlink p _ => [(p, PermWrite)]
  | CallRename p q => [(p, PermWrite); (q, PermWrite)]
  | CallCopy _ p q => [(p, PermRead); (q, PermWrite)]
  end.

(** The provider denies [perm] on [p] to [ctx], who is not the system. *)
Definition denies k (ctx : OperationContext) (x : string * Permission) : Prop :=
  starts_with "/__sys__/" x.1 = false ∧ oc_is_system ctx = false ∧
  ∃ check e, kc_provider (k_config k) = Some check ∧
             check x.1 (route (k_router k) x.1 (oc_zone_id ctx)) x.2 ctx = Err e.

(** The state stays, and the call fails. *)
Definition still {A} (m : K A) k : Prop := ∃ r, m k = Some (r, k).
Definition refused {A} (m : K A) k : Prop := ∃ e, m k = Some (Err e, k).

Lemma refused_bind {A C} (m : K A) (f : A → K C) k :
  still m k → (∀ x, m k = Some (Ok x, k) → refused (f x) k) → refused (m ≫= f) k.
Proof.
  intros [[x|e] Hm] Hf; unfold refused, mbind, K_bind; rewrite Hm; [by apply Hf|by eauto].
Qed.

Lemma refused_first {A C} (m : K A) (f : A → K C) k : refused m k → refused (m ≫= f) k.
Proof. intros [e Hm]. unfold refused, mbind, K_bind. rewrite Hm. by eauto. Qed.

Lemma still_of_result {A} (r : result KernelError A) k : still (of_result r) k.
Proof. destruct r; by eexists. Qed.

Lemma still_check p r perm ctx k : still (check_permission_with_route p r perm ctx) k.
Proof. unfold still, check_permission_with_route. repeat case_match; by eexists. Qed.

Lemma refused_check p perm ctx k : denies k ctx (p, perm) → refused (check_permission p perm ctx) k.
Proof.
  intros (H1 & H2 & check & e & H3 & H4). exists e. unfold check_permission, check_permission_with_route.
  cbn [fst snd] in *. by rewrite H1, H2, H3, H4.
Qed.

Lemma refused_check_route p r perm ctx k :
  route (k_router k) p (oc_zone_id ctx) = Some r → denies k ctx (p, perm) →
  refused (check_permission_with_route p (Some r) perm ctx) k.
Proof.
  intros Hr (H1 & H2 & check & e & H3 & H4). exists e. unfold check_permission_with_route.
  cbn [fst snd] in *. rewrite Hr in H4. by rewrite H1, H2, H3, H4.
Qed.

(** Virtual paths, which a resolver serves, are left to it. *)
Definition is_virtual k (p : string) : Prop := is_Some (trie_lookup p (k_trie k)).

Lemma trie_resolved_eq p k : trie_resolved p k = Some (Ok (bool_decide (is_virtual k p)), k).
Proof. done. Qed.

Lemma refused_read now p ctx t o hops k : denies k ctx (p, PermRead) → refused (sys_read_single hops now p ctx t o) k.
Proof.
  intros Hd. destruct hops; cbn [sys_read_single]; apply refused_bind; try apply still_of_result; intros _ _;
    (apply refused_bind; [by eexists|]); intros [] _; try by eexists.
  all: apply refused_first; unfold apply_read_hooks; by apply refused_first, refused_check.
Qed.

Lemma refused_copy now p q ctx hops k :
  denies k ctx (p, PermRead) ∨ denies k ctx (q, PermWrite) → refused (sys_copy_with_link_depth hops now p q ctx) k.
Proof.
  intros Hd. destruct hops; cbn [sys_copy_with_link_depth];
    (do 2 (apply refused_bind; [apply still_of_result|intros _ _]));
    (destruct Hd as [Hd|Hd]; [by apply refused_first, refused_check|]);
    (apply refused_bind; [apply still_check|intros _ _]); by apply refused_first, refused_check.
Qed.

Lemma refused_rename p q ctx k :
  denies k ctx (p, PermWrite) ∨ denies k ctx (q, PermWrite) → refused (sys_rename p q ctx) k.
Proof.
  intros Hd. unfold sys_rename. do 2 (apply refused_bind; [apply still_of_result|intros _ _]).
  destruct Hd as [Hd|Hd]; [by apply refused_first, refused_check|].
  apply refused_bind; [apply still_check|intros _ _]. by apply refused_first, refused_check.
Qed.

Lemma refused_set_mode p ctx mode k : denies k ctx (p, PermWrite) → refused (sys_set_file_mode p ctx mode) k.
Proof.
  intros Hd. unfold sys_set_file_mode. apply refused_bind; [apply still_of_result|intros _ _].
  case_match; [by eexists|]. apply refused_bind; [by eexists|]. intros r [= Hr].
  apply refused_bind; [destruct r; by eexists|]. intros r'. destruct r as [r|]; [|done]. intros [= <-].
  apply refused_first, refused_check_route; [|done]. exact Hr.
Qed.

(** The gate of a write or an unlink: a miss for a virtual path. *)
Lemma virtual_gate {A} (miss : A) p (m : bool → K A) k :
  m true k = Some (Ok miss, k) → refused (m false) k →
  refused (validate p ≫= λ _, trie_resolved p ≫= m) k ∨
  is_virtual k p ∧ (validate p ≫= λ _, trie_resolved p ≫= m) k = Some (Ok miss, k).
Proof.
  intros Ht Hf. unfold validate. destruct (validate_path_fast p); [|left; by eexists].
  unfold mbind, K_bind, of_result, mret, K_ret, refused. rewrite trie_resolved_eq.
  case_bool_decide; [by right|left; exact Hf].
Qed.

Lemma write_denied now p ctx x o hops k : denies k ctx (p, PermWrite) →
  refused (sys_write_with_link_depth hops now p ctx x o) k ∨
  is_virtual k p ∧ sys_write_with_link_depth hops now p ctx x o k = Some (Ok write_miss, k).
Proof.
  intros Hd. destruct hops; cbn [sys_write_with_link_depth]; apply virtual_gate; try done; apply refused_first;
    unfold apply_mutating_write_hooks, apply_mutating_write_hooks_with_route; by apply refused_first, refused_check.
Qed.

Lemma unlink_denied p ctx rec k : denies k ctx (p, PermWrite) →
  refused (sys_unlink_single p ctx rec) k ∨
  is_virtual k p ∧ sys_unlink_single p ctx rec k = Some (Ok (unlink_miss p 0), k).
Proof. intros Hd. apply virtual_gate; [done|]. by apply refused_first, refused_check. Qed.

(** The theorem below, for other proofs. *)
Lemma denied_unchanged (x : Syscall) (ctx : OperationContext) (k : Kernel) :
  Exists (denies k ctx) (call_checks x) →
  ∃ r, run_call x ctx k = Some (r, k) ∧
    (is_ok r = true → ∃ p, (p, PermWrite) ∈ call_checks x ∧ is_virtual k p).
Proof.
  intros Hd. assert (∀ m : K (), refused m k → run_call x ctx = m → ∃ r, run_call x ctx k = Some (r, k) ∧
    (is_ok r = true → ∃ p, (p, PermWrite) ∈ call_checks x ∧ is_virtual k p)) as Hfail.
  { intros m [e He] ->. eexists. by split. }
  destruct x; cbn [call_checks run_call] in *; repeat setoid_rewrite Exists_cons in Hd; rewrite ?Exists_nil in Hd.
  - destruct Hd as [Hd|[]]. eapply Hfail; [|done]. apply refused_first. unfold sys_read_one.
    by apply refused_first, refused_read.
  - destruct Hd as [Hd|[]]. destruct (write_denied now (wq_path req) ctx (wq_content req) (wq_offset req) 1 k Hd)
      as [Hr|[Hv Hw]]; [eapply Hfail; [|done]; by apply refused_first|].
    eexists. unfold sys_write_one, mbind, K_bind. rewrite Hw. split; [done|]. intros _. exists (wq_path req). split; [by left|done].
  - destruct Hd as [Hd|[]]. eapply Hfail; [|done]. by apply refused_set_mode.
  - destruct Hd as [Hd|[]]. eapply Hfail; [|done]. apply refused_first. unfold mkdir.
    apply refused_bind; [apply still_of_result|intros _ _]. by apply refused_first, refused_check.
  - destruct Hd as [Hd|[]]. eapply Hfail; [|done]. apply refused_first. unfold rmdir.
    apply refused_bind; [apply still_of_result|intros _ _]. by apply refused_first, refused_check.
  - destruct Hd as [Hd|[]]. destruct (unlink_denied path ctx recursive k Hd) as [Hr|[Hv Hw]];
      [eapply Hfail; [|done]; by apply refused_first|].
    eexists. unfold mbind, K_bind. rewrite Hw. split; [done|]. intros _. exists path. split; [by left|done].
  - eapply Hfail; [|done]. apply refused_first, refused_rename. tauto.
  - eapply Hfail; [|done]. apply refused_first, refused_copy. tauto.
Qed.


(** ** Rename without a store *)

(** The early return of [rename_move] when the mount has no store releases nothing:
    reached while another thread takes the mount's store away, it leaves both
    locks held. *)
Lemma rename_move_without_store p q o d locks k :
  store_at (k_config k) (k_router k) (rr_mount_point o) = None → rr_is_cas o = true →
  ∃ e, rename_move p q o d locks k = Some (Err e, k).
Proof.
  intros Hs Hc. unfold rename_move, move_bytes. rewrite Hc. unfold mbind at 1, K_bind at 1. cbn.
  unfold mbind at 1, K_bind at 1.
  assert (∀ (op : Op S ()), kernel_with_metastore (rr_mount_point o) op k = with_store None op k) as Hn
    by (intros op; rewrite <-Hs; reflexivity).
  rewrite Hn. by eexists.
Qed.
End denied.

(** ** The small node *)

(** A provider that lets nobody write below [/b]. *)
Definition guarded (p : string) (_ : option Route) (perm : Permission) (_ : OperationContext) : result KernelError () :=
  if bool_decide (perm = PermWrite) && starts_with "/b" p then Err (EPermissionDenied p) else Ok ().

Definition guarded_node : Node :=
  mkKernel (bare_config (Some guarded)) one_mount trie_new {[(0%N, "a") := "new"; (0%N, "b") := "old"]}
    {[0%N := mkSpec {["/a" := file_row "/a" "a" "new"; "/b" := file_row "/b" "b" "old"]} ∅ []]}
    (lock_manager_new lock_state_new) None ∅ manager_new stream_manager_new ∅ [] [] [].


(** A rename whose metadata fails, after the bytes were moved and moved back. *)
Lemma calls_release_locks_witness : ∃ e k',
  run_call (CallRename "/a" "/b") root_user (two_files [false]) = Some (Err e, k') ∧
  (io_state (k_locks k') = io_state (k_locks (two_files [false])) ∧ manager_inv (k_locks k')).
Proof.
  destruct (fails_inv (run_call (CallRename "/a" "/b") root_user (two_files [false]))) as (e & k' & E1);
    [vm_compute; reflexivity|]. exists e, k'. split; [exact E1|].
  apply (calls_release_locks (CallRename "/a" "/b") root_user (two_files [false]) k' (Err e));
    [apply new_inv|vm_compute; reflexivity..|exact E1].
Defined.

(** ** Batches *)

(** The bytes stored for a path, and the type of its row. *)
Definition stored (p : string) (k : Node) : option string := k_storage k !! (0%N, p).
Definition type_at (p : string) (k : Node) : option N :=
  s ← k_stores k !! 0%N; m ← sp_rows s !! p; Some (md_entry_type m).

(** The hits of a batch. *)
Definition hits (x : option (result KernelError (list (result KernelError SysWriteResult)) * Node)) : option (list bool) :=
  match x with
  | Some (Ok rs, _) => Some ((λ r, match r with Ok r => ww_hit r | Err _ => false end) <$> rs)
  | _ => None
  end.

(** A batch writes at the start of the file whatever offset a request names, so it
    replaces the whole file; a single request at that offset reaches the backend
    with it. *)
Lemma batch_ignores_offset :
  let k := two_files [] in
  let x := sys_write 0 [mkWriteRequest "/a" "X" 3; mkWriteRequest "/b" "Y" 0] root_user k in
  stored "a" k = Some "new" ∧ hits x = Some [true; true] ∧ stored "a" (after k x) = Some "X" ∧
  fails (sys_write_one 0 (mkWriteRequest "/a" "X" 3) root_user k) = true.
Proof. split_and!; vm_compute; reflexivity. Qed.

(** A pipe named in a batch becomes a regular file. *)
Lemma batch_replaces_pipe :
  let pipe := mkMeta "/p" 0 None 0 1 DT_PIPE (Some "root") None None None None None None None None in
  let k := node {["/p" := pipe]} [] ∅ in
  let x := sys_write 0 [mkWriteRequest "/p" "X" 0; mkWriteRequest "/q" "Y" 0] root_user k in
  hits x = Some [true; true] ∧ type_at "/p" k = Some DT_PIPE ∧ type_at "/p" (after k x) = Some DT_REG.
Proof. split_and!; vm_compute; reflexivity. Qed.

(** A batch with a path twice waits for its own lock and drops the second write. *)
Lemma batch_duplicate_misses :
  let k := two_files [] in
  hits (sys_write 0 [mkWriteRequest "/a" "X" 0; mkWriteRequest "/a" "Y" 0] root_user k) = Some [true; false].
Proof. vm_compute. reflexivity. Qed.
