(* ===== verification/KernelPages.v ===== *)
(** * Listing a directory page by page

    A listing is in strict order of the paths, so the cursor of a page finds the
    place where the next one starts, and a client that follows the cursors gets
    every entry once. *)

From S2P Require Import Prelude Bytes Codec Table LockState IoLocks IoLockProofs Router Rename Pipe PipeManager StreamBuf StreamManager MetaStore LocalStore KernelTypes Dispatch Kernel KernelFiles KernelNames KernelList KernelWorld.

(** In strict order of the paths. *)
Definition ordered {V} (l : list (string * V)) : Prop := StronglySorted key_le l ∧ NoDup l.*1.

Lemma ordered_tail {V} x (l : list (string * V)) : ordered (x :: l) → ordered l.
Proof. intros [Hs Hn]. apply StronglySorted_inv in Hs as [Hs _]. apply NoDup_cons in Hn as [_ Hn]. by split. Qed.

Lemma ordered_entries {V} (m : gmap string V) : ordered (entries m).
Proof. split; [apply entries_sorted|apply entries_NoDup]. Qed.

Lemma ordered_filter {V} (P : string * V → Prop) `{!∀ x, Decision (P x)} l : ordered l → ordered (filter P l).
Proof.
  induction l as [|x l IH]; [done|]. intros Ho. pose proof (ordered_tail _ _ Ho) as [Hs Hn]%IH.
  rewrite filter_cons. case_decide; [|by split]. destruct Ho as [Ho Hd]. apply StronglySorted_inv in Ho as [_ Hx].
  apply NoDup_cons in Hd as [Hx' _]. split.
  - constructor; [done|]. apply Forall_forall. intros y [_ Hy]%list_elem_of_filter.
    by apply (proj1 (Forall_forall _ _) Hx).
  - apply NoDup_cons. split; [|done]. intros (y & Hy & Hin)%list_elem_of_fmap. apply Hx'.
    apply list_elem_of_filter in Hin as [_ Hin]. apply list_elem_of_fmap. eauto.
Qed.

Lemma ordered_fmap {V U} (f : V → U) (l : list (string * V)) :
  ordered l → ordered ((λ e, (e.1, f e.2)) <$> l).
Proof.
  intros [Hs Hn]. split.
  - clear Hn. induction Hs as [|x l Hs IH Hx]; [constructor|]. cbn. constructor; [done|].
    apply Forall_fmap. eapply Forall_impl; [exact Hx|]. by intros y.
  - by rewrite <-list_fmap_compose.
Qed.

Lemma ordered_take {V} n (l : list (string * V)) : ordered l → ordered (take n l).
Proof.
  intros [Hs Hn]. split.
  - clear Hn. revert n. induction Hs as [|x l Hs IH Hx]; intros [|n]; cbn; constructor; [done|]. by apply Forall_take.
  - rewrite fmap_take. eapply sublist_NoDup; [exact Hn|]. apply sublist_take.
Qed.

(** ** Cursors *)

Lemma start_index_at l1 c t l2 :
  ordered (l1 ++ (c, t) :: l2) → start_index c (l1 ++ (c, t) :: l2) = Datatypes.S (length l1).
Proof.
  induction l1 as [|[p x] l1 IH]; intros Ho.
  - cbn [app start_index length]. rewrite decide_True by reflexivity. f_equal.
    destruct l2 as [|[q y] l2]; [done|]. cbn [start_index]. rewrite decide_False; [done|]. intros Hle.
    destruct Ho as [Hs Hn]. apply StronglySorted_inv in Hs as [_ Hx]. apply Forall_cons in Hx as [Hx _].
    apply NoDup_cons in Hn as [Hn _]. apply Hn. cbn in *. rewrite (anti_symm String.le c q) by done. left.
  - cbn [app start_index length]. rewrite decide_True; [by rewrite (IH (ordered_tail _ _ Ho))|].
    destruct Ho as [Hs _]. apply StronglySorted_inv in Hs as [_ Hx].
    apply (proj1 (Forall_forall _ _) Hx (c, t)). set_solver.
Qed.

(** The last entry of a page leads to the entry behind it. *)
Lemma start_index_last all s e c :
  ordered all → s < e ≤ length all → fst <$> last (take (e - s) (drop s all)) = Some c → start_index c all = e.
Proof.
  intros Ho He Hc. destruct (last (take (e - s) (drop s all))) as [[c' t]|] eqn:Hl; [|done]. injection Hc as ->.
  rewrite last_lookup, length_take, length_drop, lookup_take_lt, lookup_drop in Hl by lia.
  replace (s + Nat.pred ((e - s) `min` (length all - s))) with (e - 1) in Hl by lia.
  apply list_elem_of_split_length in Hl as (l1 & l2 & -> & Hlen). rewrite start_index_at by done. lia.
Qed.

(** One page of an ordered listing. *)
Lemma dir_page_spec all s limit :
  ordered all → s ≤ length all → (0 < limit)%N → (N.of_nat (length all) + limit < U64_MOD)%N →
  ∃ p e, dir_page all s limit = Some p ∧ s ≤ e ≤ length all ∧ rp_items p = take (e - s) (drop s all) ∧
    match rp_next_cursor p with
    | Some c => s < e ∧ start_index c all = e
    | None => e = length all
    end.
Proof.
  intros Ho Hs Hl Hw. unfold dir_page. rewrite wrap64_small by lia.
  set (e := N.to_nat (N.min (N.of_nat s + limit) (N.of_nat (length all)))).
  assert (s ≤ e ≤ length all ∧ (s < length all → s < e)) as [He Hlt] by (unfold e; lia).
  rewrite decide_True by lia. eexists _, e. split_and!; [done|lia..|done|]. cbn [rp_next_cursor].
  case_bool_decide as Hm; [|cbn; lia]. destruct (last (take (e - s) (drop s all))) as [[c t]|] eqn:Hla.
  - cbn. split; [lia|]. eapply (start_index_last all s e c); [done|lia|]. by rewrite Hla.
  - apply last_None in Hla. apply (f_equal length) in Hla. rewrite length_take, length_drop in Hla. cbn in Hla. lia.
Qed.

Section pages.
Context {W : Type} `{!ObjectStores W}.
Context {S : Type} `{!KernelStore S}.
Context {L : Type} `{!Locks L}.
Context {E : Type} `{!PipeBackend E}.
Context {B : Type} `{!StreamBackend B}.
Context {TX : Texts}.

Abbreviation K := (@K W S L E B).
Abbreviation Kernel := (Kernel W S L E B).
Implicit Types (k : Kernel).

(** Every listing is in strict order of the paths. *)
Lemma sys_readdir_ordered now p z admin opts k l k' :
  sys_readdir now p z admin opts k = Some (Ok l, k') → ordered l.
Proof.
  unfold sys_readdir. assert (@ordered N []) as Hnil by (split; constructor).
  case_match; [by intros [= <- <-]|]. unfold mbind at 1, K_bind at 1, route_path, reads.
  destruct (route _ _ _) as [r|]; [|by intros [= <- <-]].
  unfold mbind at 1, K_bind at 1. destruct (scan_mount_into _ _ _ _ _ k) as [[[seen|?] k1]|]; [|done..].
  unfold mbind at 1, K_bind at 1. match goal with |- match ?x with _ => _ end = _ → _ => destruct x as [[[seen'|?] k2]|]; [|done..] end.
  intros [= <- <-].
  assert (∀ f : list (string * (N * option string)), ordered f → ordered ((λ e : string * (N * option string), (e.1, e.2.1)) <$> f)) as Hf.
  { intros f. apply (ordered_fmap (λ v : N * option string, v.1)). }
  destruct (ro_limit opts); [apply ordered_take|]; apply Hf; case_match;
    first [apply ordered_filter, ordered_entries | apply ordered_entries].
Qed.

(** A client that follows the cursors. *)
Fixpoint walk_pages (fuel : nat) (views : list SyntheticView) (now : Z) (p z : string) (admin : bool) (limit : N)
    (cursor : option string) : K (list (string * N)) :=
  match fuel with
  | O => mret []
  | Datatypes.S fuel =>
      page ← readdir_paged views now p z admin limit cursor;
      match rp_next_cursor page with
      | Some c => rest ← walk_pages fuel views now p z admin limit (Some c); mret (rp_items page ++ rest)
      | None => mret (rp_items page)
      end
  end.

Lemma walk_pages_from fuel views now p z admin limit cursor all k :
  starts_with "/__sys__/" p = false → (0 < limit)%N → (N.of_nat (length all) + limit < U64_MOD)%N → ordered all →
  sys_readdir now p z admin readdir_default k = Some (Ok all, k) →
  start_of cursor all ≤ length all → length all - start_of cursor all < fuel →
  walk_pages fuel views now p z admin limit cursor k = Some (Ok (drop (start_of cursor all) all), k).
Proof.
  intros Hsys Hl Hw Ho Hr. revert cursor. induction fuel as [|fuel IH]; intros cursor Hs Hf; [lia|].
  destruct (dir_page_spec all (start_of cursor all) limit Ho Hs Hl Hw) as (pg & e & Hp & He & Hi & Hc).
  assert (readdir_paged views now p z admin limit cursor k = Some (Ok pg, k)) as Hpg.
  { unfold readdir_paged. rewrite Hsys. unfold mbind, K_bind. rewrite Hr.
    rewrite (proj2 (N.eqb_neq limit 0)) by lia. by rewrite Hp. }
  cbn [walk_pages]. unfold mbind at 1, K_bind at 1. rewrite Hpg. destruct (rp_next_cursor pg) as [c|].
  - destruct Hc as [Hlt Hst]. unfold mbind, K_bind. rewrite IH; cbn [start_of]; rewrite ?Hst; [|lia..].
    unfold mret, K_ret. do 3 f_equal. rewrite Hi. replace e with (start_of cursor all + (e - start_of cursor all)) at 2 by lia.
    by rewrite <-drop_drop, take_drop.
  - unfold mret, K_ret. do 3 f_equal. rewrite Hi, Hc. apply take_ge. rewrite length_drop. lia.
Qed.

(** Paging through a directory visits every entry exactly once, in order.  For a
    directory whose listing leaves the state as it is, a client that asks for pages
    of any positive size (within the width of [usize]) and passes each page's
    cursor on gets exactly the entries [sys_readdir] lists, in strictly ascending
    order of their paths, after at most one request more than there are entries,
    and no request panics. *)
Theorem pages_visit_everything (views : list SyntheticView) (now : Z) (p z : string) (admin : bool) (limit : N)
    (all : list (string * N)) (k : Kernel) :
  starts_with "/__sys__/" p = false → (0 < limit)%N → (N.of_nat (length all) + limit < U64_MOD)%N →
  sys_readdir now p z admin readdir_default k = Some (Ok all, k) →
  ordered all ∧
  walk_pages (Datatypes.S (length all)) views now p z admin limit None k = Some (Ok all, k).
Proof.
  intros Hsys Hl Hw Hr. pose proof (sys_readdir_ordered _ _ _ _ _ _ _ _ Hr) as Ho. split; [done|].
  rewrite (walk_pages_from _ views now p z admin limit None all k); cbn [start_of]; [done..|lia|lia].
Qed.
End pages.

(** Three files and a directory implied by one of them, two entries to a page. *)
Definition listed_node : Node :=
  node {["/a" := file_row "/a" "a" ""; "/b" := file_row "/b" "b" ""; "/d/x" := file_row "/d/x" "d/x" ""]} [] ∅.

Lemma pages_visit_everything_witness :
  let all := [("/a", DT_REG); ("/b", DT_REG); ("/d", DT_DIR)] in
  sys_readdir 0 "/" "root" true readdir_default listed_node = Some (Ok all, listed_node) ∧
  (ordered all ∧ walk_pages 4 [] 0 "/" "root" true 2 None listed_node = Some (Ok all, listed_node)).
Proof.
  assert (sys_readdir 0 "/" "root" true readdir_default listed_node
    = Some (Ok [("/a", DT_REG); ("/b", DT_REG); ("/d", DT_DIR)], listed_node)) as Hr by (vm_compute; reflexivity).
  split; [exact Hr|].
  apply (pages_visit_everything [] 0 "/" "root" true 2 [("/a", DT_REG); ("/b", DT_REG); ("/d", DT_DIR)] listed_node);
    [reflexivity|lia|vm_compute; reflexivity|exact Hr].
Defined.

(** A limit near the width of [usize] with a cursor: the sum wraps below the start. *)
Lemma page_limit_overflow : dir_page [("/a", DT_REG); ("/b", DT_REG)] 1 U64_MAX = None.
Proof. vm_compute. reflexivity. Qed.
