(* ===== verification/KernelRoundtrip.v ===== *)
(** * Reading what was written

    A write of a regular file followed by a read of it, through the whole of both
    system calls: gate, hooks, links, routing, store, locks, descriptors, backend. *)

From S2P Require Import Prelude Bytes Codec Table LockState IoLocks IoLockProofs Router Rename Pipe PipeManager StreamBuf StreamManager MetaStore LocalStore LocalStoreProofs KernelTypes Dispatch Kernel KernelFiles KernelNames KernelList KernelLockProofs KernelReleases KernelWorld KernelProofs.

Section roundtrip.
Context {W : Type} `{!ObjectStores W}.
Context {S : Type} `{!KernelStore S}.
Context {L : Type} `{!Locks L}.
Context {E : Type} `{!PipeBackend E}.
Context {B : Type} `{!StreamBackend B}.
Context {TX : Texts}.

Abbreviation K := (@K W S L E B).
Abbreviation Kernel := (Kernel W S L E B).
Implicit Types (k : Kernel).

(** The rows a store holds, the stores that answer, and the object stores the laws
    speak of. *)
Context (rows : S → gmap string FileMetadata) (healthy : S → Prop) (sound : W → Prop).

(** A store that answers returns what it holds; a put it accepts is held.  Rows
    have the widths of their types, and no path has a NUL. *)
Record StoreLaws : Prop := {
  sl_rows s : healthy s → map_Forall row_ok (rows s);
  sl_get p s : healthy s → ∃ s', ms_get p s = Some (Ok (rows s !! p), s') ∧ healthy s' ∧ rows s' = rows s;
  sl_put p m s r s' : healthy s → row_ok p m → ms_put p m s = Some (r, s') →
    healthy s' ∧ rows s' = if is_ok r then <[p := m]> (rows s) else rows s }.

(** What a write stored can be read under the identifier it returned, also through
    a descriptor of the host file that identifier stands for; an identifier that
    stands for a host file is the one the write was given. *)
Record BytesLaws : Prop := {
  bl_write b x cid ctx w wr w' : sound w → os_write_content b x cid ctx 0 w = (Ok wr, w') →
    wr_content_id wr ≠ "" ∧ ((slen x < U64_MOD)%N → (wr_size wr < U64_MOD)%N) ∧ ∀ ctx', os_read_content b (wr_content_id wr) ctx' w' = Ok x;
  bl_path b x cid ctx w wr w' : sound w → os_write_content b x cid ctx 0 w = (Ok wr, w') →
    os_resolve_physical_path b (wr_content_id wr) w' = os_resolve_physical_path b cid w;
  bl_host b x cid ctx w wr w' h n : sound w → os_write_content b x cid ctx 0 w = (Ok wr, w') →
    os_resolve_physical_path b (wr_content_id wr) w' = Some (fh_physical_path h) → current_size h w' = Some n →
    if (n =? 0)%N then x = "" else fs_pread (fh_file h) n w' = Some x ∨ fs_pread (fh_file h) n w' = None }.

(** ** States that differ in one row *)

Definition row_in k (id : N) (p : string) : option FileMetadata := s ← k_stores k !! id; rows s !! p.

(** Same configuration and mounts, the same stores, which answer, and the same rows
    at the paths of [P]. *)
Record agree (P : string → Prop) k k' : Prop := {
  ag_config : k_config k' = k_config k;
  ag_router : k_router k' = k_router k;
  ag_trie : k_trie k' = k_trie k;
  ag_stores id : is_Some (k_stores k' !! id) ↔ is_Some (k_stores k !! id);
  ag_healthy id s : k_stores k' !! id = Some s → healthy s;
  ag_rows id p : P p → row_in k' id p = row_in k id p }.

Definition all_healthy k : Prop := ∀ id s, k_stores k !! id = Some s → healthy s.

(** What only looks: nothing changes but the insides of a store. *)
Definition looks k k' : Prop :=
  agree (λ _, True) k k' ∧ k_storage k' = k_storage k ∧ k_locks k' = k_locks k ∧ k_fdt k' = k_fdt k.

Lemma looks_refl k : all_healthy k → looks k k.
Proof. intros Hh. split; [by split|done]. Qed.

Lemma looks_trans k1 k2 k3 : looks k1 k2 → looks k2 k3 → looks k1 k3.
Proof.
  intros ([C1 R1 T1 S1 G1 W1] & ? & ? & ?) ([C2 R2 T2 S2 G2 W2] & ? & ? & ?).
  split; [|split_and!; congruence]. split; [congruence..| |done|].
  - intros id. by rewrite S2.
  - intros id p _. by rewrite W2, W1.
Qed.

Lemma agree_looks P k1 k2 k3 : agree P k1 k2 → looks k2 k3 → agree P k1 k3.
Proof.
  intros [C1 R1 T1 S1 G1 W1] [[C2 R2 T2 S2 G2 W2] _]. split; [congruence..| |done|].
  - intros id. by rewrite S2.
  - intros id p Hp. by rewrite W2, W1.
Qed.

(** A lookup of a row. *)
Lemma run_get (sl : StoreLaws) k id p :
  all_healthy k → is_Some (k_stores k !! id) →
  ∃ k', run_store id (ms_get p) k = Some (Ok (Ok (row_in k id p)), k') ∧ looks k k'.
Proof.
  intros Hh [s Hs]. destruct (sl_get sl p s (Hh id s Hs)) as (s' & Hg & Hh' & Hr).
  exists (set_store id s' k). unfold run_store, row_in. rewrite Hs. cbn. rewrite Hg. cbn. split; [done|].
  split; [|done]. split; [done..| | |]; cbn.
  - intros id'. destruct (decide (id = id')) as [<-|Hne]; [by rewrite lookup_insert_eq, Hs|by rewrite lookup_insert_ne].
  - intros id' s0 [[<- <-]|[_ Hs0]]%lookup_insert_Some; [done|by eapply Hh].
  - intros id' q _. unfold row_in. cbn. destruct (decide (id = id')) as [<-|Hne].
    + rewrite lookup_insert_eq, Hs. cbn. by rewrite Hr.
    + by rewrite lookup_insert_ne.
Qed.

(** The row a route leads to. *)
Definition route_row k (r : Route) (p : string) : option FileMetadata :=
  id ← resolve_metastore r (kc_metastore (k_config k)); row_in k id p.

Definition route_present k (r : Route) : Prop :=
  ∀ id, resolve_metastore r (kc_metastore (k_config k)) = Some id → is_Some (k_stores k !! id).

Lemma looks_healthy k k' : looks k k' → all_healthy k'.
Proof. intros [Ha _] id s. apply (ag_healthy _ _ _ Ha). Qed.

Lemma get_row_spec (sl : StoreLaws) k r p :
  all_healthy k → route_present k r →
  ∃ k', get_row r p k = Some (Ok (route_row k r p), k') ∧ looks k k'.
Proof.
  intros Hh Hp. unfold get_row, with_metastore_route, config, reads, route_row, mbind, K_bind.
  destruct (resolve_metastore r (kc_metastore (k_config k))) as [id|] eqn:Hid; unfold with_store, mbind, K_bind.
  - destruct (run_get sl k id p Hh (Hp id Hid)) as (k' & -> & Hl). by exists k'.
  - exists k. split; [done|by apply looks_refl].
Qed.

(** ** Links on the way *)

(** Every mount's store and the kernel's own are there. *)
Definition stores_present k : Prop :=
  (∀ p z r, route (k_router k) p z = Some r → route_present k r) ∧
  (∀ mp id, store_at (k_config k) (k_router k) mp = Some id → is_Some (k_stores k !! id)).

Lemma agree_present P k k' : agree P k k' → stores_present k → stores_present k'.
Proof.
  intros [C R T Hs _ _] [Hp1 Hp2]. split.
  - intros p z r. rewrite R. intros Hr id. rewrite C, Hs. by apply (Hp1 p z r Hr).
  - intros mp id. rewrite C, R, Hs. apply Hp2.
Qed.

(** The row of an ancestor, and the error when there is no store to ask. *)
Definition ancestor_row k (a z : string) : result KernelError (option FileMetadata) :=
  match route (k_router k) a z with
  | Some r => Ok (route_row k r a)
  | None =>
      match store_at (k_config k) (k_router k) (default "" (rr_mount_point <$> route (k_router k) a ROOT_ZONE_ID)) with
      | Some id => Ok (row_in k id a)
      | None => Err (EIOError ("read link at " +:+ a +:+ ": " +:+ kernel_debug (EIOError "no metastore wired")))
      end
  end.

(** The ancestors are not the path itself. *)
Lemma slash_cuts_split before q a below : (a, below) ∈ slash_cuts before q → a +:+ below = before +:+ q ∧ below ≠ "".
Proof.
  revert before. induction q as [|c q IH]; intros before; cbn [slash_cuts]; [by intros ?%not_elem_of_nil|].
  rewrite elem_of_app. intros [Hin|Hin].
  - case_decide; [|by apply not_elem_of_nil in Hin]. apply list_elem_of_singleton in Hin as [= -> ->]. done.
  - apply IH in Hin as [-> Hb]. split; [|done]. by rewrite <-sapp_assoc.
Qed.

Lemma ancestor_cuts_ne p : Forall (λ c, c.1 ≠ p) (ancestor_cuts p).
Proof.
  apply Forall_forall. intros [a below] Hin. cbn. unfold ancestor_cuts in Hin.
  assert ((a, below) ∈ slash_cuts "" p) as [Heq Hne]%slash_cuts_split.
  { rewrite <-(take_drop 1 (slash_cuts "" p)). apply elem_of_app. by right. }
  intros ->. apply (f_equal String.length) in Heq. rewrite !slen_app in Heq. cbn in Heq.
  destruct below; [done|]. cbn in Heq. lia.
Qed.

(** The search for a link as a function of the rows. *)
Fixpoint links k (cuts : list (string * string)) (z : string) : result KernelError (option string) :=
  match cuts with
  | [] => Ok None
  | (a, below) :: cuts =>
      entry ← ancestor_row k a z;
      target ← match entry with Some e => dt_link_target a e | None => Ok None end;
      match target with
      | Some target =>
          let resolved := trim_end "/" target +:+ below in
          _ ← validate_path_fast resolved; Ok (Some resolved)
      | None => links k cuts z
      end
  end.

Lemma agree_ancestor P k k' a z : agree P k k' → P a → ancestor_row k' a z = ancestor_row k a z.
Proof.
  intros [C R T Hs _ Hw] HP. unfold ancestor_row, route_row. rewrite R, C.
  repeat case_match; try done; f_equal; try by apply Hw.
  destruct (resolve_metastore _ _); [by apply Hw|done].
Qed.

Lemma agree_links P k k' cuts z :
  agree P k k' → Forall (λ c, P c.1) cuts → links k' cuts z = links k cuts z.
Proof.
  intros Ha. induction 1 as [|[a b] cuts Hc Hall IH]; [done|]. cbn [links]. rewrite (agree_ancestor P k k') by done.
  destruct (ancestor_row k a z) as [entry|]; [|done]. cbn [mbind result_bind].
  destruct (match entry with Some e => dt_link_target a e | None => Ok None end) as [[]|]; [done|exact IH|done].
Qed.

Lemma metastore_get_spec (sl : StoreLaws) k a :
  all_healthy k → stores_present k →
  ∃ k', metastore_get a k =
    Some (match store_at (k_config k) (k_router k) (default "" (rr_mount_point <$> route (k_router k) a ROOT_ZONE_ID)) with
          | Some id => Ok (row_in k id a)
          | None => Err (EIOError "no metastore wired")
          end, k') ∧ looks k k'.
Proof.
  intros Hh [_ Hp]. set (mp := default "" (rr_mount_point <$> route (k_router k) a ROOT_ZONE_ID)).
  assert (metastore_get a k =
    (with_store (store_at (k_config k) (k_router k) mp) (ms_get a) ≫= store_result ("metastore_get(" +:+ a +:+ "): ")) k)
    as -> by reflexivity.
  destruct (store_at _ _ mp) as [id|] eqn:Hid.
  - unfold with_store, mbind, K_bind. destruct (run_get sl k id a Hh (Hp _ _ Hid)) as (k' & -> & Hl). by exists k'.
  - exists k. split; [done|by apply looks_refl].
Qed.

(** The lookup of one step. *)
Lemma ancestor_lookup (sl : StoreLaws) k a z :
  all_healthy k → stores_present k →
  ∃ k', (match route (k_router k) a z with
    | Some r =>
        x ← with_metastore_route r (ms_get a);
        match x with
        | None => mret None
        | Some (Ok row) => mret row
        | Some (Err e) => throw (EIOError ("read link at " +:+ a +:+ ": " +:+ meta_debug e))
        end
    | None =>
        x ← attempt (metastore_get a);
        match x with
        | Ok row => mret row
        | Err e => throw (EIOError ("read link at " +:+ a +:+ ": " +:+ kernel_debug e))
        end
    end : K _) k = Some (ancestor_row k a z, k') ∧ looks k k'.
Proof.
  intros Hh Hp. unfold ancestor_row. destruct (route (k_router k) a z) as [r|] eqn:Hr.
  - unfold with_metastore_route, config, reads, route_row, mbind, K_bind.
    destruct (resolve_metastore r (kc_metastore (k_config k))) as [id|] eqn:Hid; unfold with_store, mbind, K_bind.
    + destruct (run_get sl k id a Hh (proj1 Hp a z r Hr id Hid)) as (k' & -> & Hl). by exists k'.
    + exists k. split; [done|by apply looks_refl].
  - destruct (metastore_get_spec sl k a Hh Hp) as (k' & Hg & Hl). exists k'. split; [|done].
    unfold attempt, mbind, K_bind. rewrite Hg. by destruct (store_at _ _ _).
Qed.

Lemma link_search (sl : StoreLaws) cuts z k :
  all_healthy k → stores_present k →
  ∃ k', link_in_ancestors cuts z k = Some (links k cuts z, k') ∧ looks k k'.
Proof.
  revert k. induction cuts as [|[a b] cuts IH]; intros k Hh Hp; cbn [link_in_ancestors links].
  { exists k. split; [done|by apply looks_refl]. }
  unfold route_path, reads. unfold mbind at 1, K_bind at 1. unfold mbind at 1, K_bind at 1.
  destruct (ancestor_lookup sl k a z Hh Hp) as (k1 & -> & Hl1).
  destruct (ancestor_row k a z) as [entry|e]; [|by exists k1]. cbn [mbind result_bind].
  unfold mbind at 1, K_bind at 1.
  destruct (match entry with Some e => dt_link_target a e | None => Ok None end) as [target|e]; cbn [of_result];
    [|by exists k1]. unfold mret at 1, K_ret at 1. destruct target as [target|].
  - exists k1. split; [|done]. unfold mbind, K_bind, result_bind, validate.
    destruct (validate_path_fast (trim_end "/" target +:+ b)); reflexivity.
  - destruct (IH k1) as (k2 & H2 & Hl2); [by eapply looks_healthy|exact (agree_present _ _ _ (proj1 Hl1) Hp)|].
    exists k2. rewrite H2. split; [|by eapply looks_trans]. do 2 f_equal.
    apply (agree_links (λ _, True)); [exact (proj1 Hl1)|by apply Forall_true].
Qed.

(** ** The commit of a write *)

(** The only new row is [m] at [p]. *)
Definition adds (p : string) (m : FileMetadata) k k' : Prop :=
  ∀ id q o, row_in k' id q = Some o → row_in k id q = Some o ∨ (q = p ∧ o = m).

(** A put that is accepted changes one row. *)
Lemma put_spec (sl : StoreLaws) k r p m k' :
  all_healthy k → row_ok p m →
  (x ← with_metastore_route r (ms_put p m); store_result ("metastore_put(" +:+ p +:+ "): ") x) k = Some (Ok (), k') →
  agree (λ q, q ≠ p) k k' ∧ adds p m k k' ∧ route_row k' r p = Some m ∧
  k_storage k' = k_storage k ∧ k_fdt k' = k_fdt k.
Proof.
  intros Hh Hm. unfold with_metastore_route, config, reads. unfold mbind at 1 2, K_bind at 1 2.
  destruct (resolve_metastore r (kc_metastore (k_config k))) as [id|] eqn:Hid; [|done].
  unfold with_store, run_store, mbind, K_bind, mret, K_ret.
  destruct (k_stores k !! id) as [s|] eqn:Hs; cbn; [|done].
  destruct (ms_put p m s) as [[x s']|] eqn:Hp; cbn; [|done].
  destruct (sl_put sl p m s x s' (Hh _ _ Hs) Hm Hp) as [Hh' Hr]. destruct x as [[]|e]; [|done].
  intros [= <-]. split_and!; [| |unfold route_row; cbn; rewrite Hid; cbn|done..].
  - split; [done..| | |]; cbn.
    + intros id'. destruct (decide (id = id')) as [<-|Hne]; [by rewrite lookup_insert_eq, Hs|by rewrite lookup_insert_ne].
    + intros id' s0 [[<- <-]|[_ Hs0]]%lookup_insert_Some; [done|by eapply Hh].
    + intros id' q Hq. unfold row_in. cbn. destruct (decide (id = id')) as [<-|Hne].
      * rewrite lookup_insert_eq, Hs. cbn. rewrite Hr. cbn. by rewrite lookup_insert_ne.
      * by rewrite lookup_insert_ne.
  - intros id' q o. unfold row_in. cbn. destruct (decide (id = id')) as [<-|Hne]; [|rewrite lookup_insert_ne by done; by left].
    rewrite lookup_insert_eq, Hs. cbn. rewrite Hr. cbn. intros [[<- <-]|[_ ?]]%lookup_insert_Some; auto.
  - unfold row_in. cbn. rewrite lookup_insert_eq. cbn. rewrite Hr. cbn. by rewrite lookup_insert_eq.
Qed.

(** Steps after which the stores and mounts are the same. *)
Lemma agree_other P k k1 k2 :
  agree P k k1 → k_config k2 = k_config k1 → k_router k2 = k_router k1 → k_trie k2 = k_trie k1 →
  k_stores k2 = k_stores k1 → agree P k k2.
Proof.
  intros [C R T Hs Hh Hw] C2 R2 T2 S2. split; [congruence..| | |].
  - intros id. by rewrite S2.
  - intros id s. rewrite S2. apply Hh.
  - intros id q Hq. unfold row_in. rewrite S2. by apply Hw.
Qed.

(** What the notifications leave alone. *)
Lemma notify_spec p ctx res k r k' :
  notify_file_write p ctx res k = Some (r, k') →
  k_config k' = k_config k ∧ k_router k' = k_router k ∧ k_trie k' = k_trie k ∧ k_stores k' = k_stores k ∧
  k_storage k' = k_storage k ∧ k_fdt k' = k_fdt k.
Proof.
  unfold notify_file_write, dispatch_mutation, dispatch_observers, dispatch_native_post, config, reads, modify,
    mbind, K_bind, mret, K_ret. case_match; by intros [= <- <-].
Qed.

(** The descriptors after the registration. *)
Definition registered (b : N) (cid p : string) (w : W) (t : gmap string FileHandle) : gmap string FileHandle :=
  match os_resolve_physical_path b cid w with
  | Some physical => match fs_open physical w with Some f => <[p := mkHandle physical f]> t | None => t end
  | None => t
  end.

(** What the stores hold is well-formed. *)
Lemma route_row_ok (sl : StoreLaws) k r p m : all_healthy k → route_row k r p = Some m → row_ok p m.
Proof.
  unfold route_row, row_in. destruct (resolve_metastore _ _) as [id|]; cbn; [|done].
  destruct (k_stores k !! id) as [s|] eqn:Hs; cbn; [|done]. intros Hh. apply (sl_rows sl s (Hh _ _ Hs)).
Qed.

Lemma replacement_spec now p z wr old k :
  (- I64_MAX - 1 ≤ now ≤ I64_MAX)%Z → (wr_size wr < U64_MOD)%N → no_nul p →
  (∀ o, old = Some o → row_ok p o) →
  ∃ m, replacement_file_metadata now p z wr old k = Some (Ok m, k) ∧
    md_entry_type m = DT_REG ∧ md_content_id m = Some (wr_content_id wr) ∧ row_ok p m.
Proof.
  intros Hnow Hsize Hp Hold. eexists. split_and!; [done..|]. split; [|done]. unfold row_in_range. cbn. split_and!; [done|..].
  - unfold sat_add64, U64_MAX, U64_MOD. lia.
  - apply N.mod_lt. done.
  - done.
  - intros t. destruct old as [o|]; cbn; [|by intros [= <-]].
    destruct (md_created_at_ms o) as [t'|] eqn:Ht; intros [= <-]; [|done].
    destruct (Hold o eq_refl) as [(_ & _ & _ & _ & Hc & _) _]. by apply Hc.
  - by intros t [= <-].
Qed.

Lemma file_write_result_spec m wr old k :
  ∃ res, file_write_result m wr old k = Some (Ok res, k) ∧
    ww_gen res = md_gen m ∧ ww_content_id res = Some (wr_content_id wr).
Proof. by eexists. Qed.

(** The row and the notifications. *)
Lemma publish_spec (sl : StoreLaws) r p ctx m result k res k' :
  all_healthy k → row_ok p m →
  (x ← with_metastore_route r (ms_put p m);
   _ ← store_result ("metastore_put(" +:+ p +:+ "): ") x;
   _ ← notify_file_write p ctx result; mret result) k = Some (Ok res, k') →
  res = result ∧ agree (λ q, q ≠ p) k k' ∧ adds p m k k' ∧ route_row k' r p = Some m ∧
  k_storage k' = k_storage k ∧ k_fdt k' = k_fdt k.
Proof.
  intros Hh Hm E1. assert (((x ← with_metastore_route r (ms_put p m);
      store_result ("metastore_put(" +:+ p +:+ "): ") x) ≫= λ _, notify_file_write p ctx result ≫= λ _, mret result) k
    = Some (Ok res, k')) as E2 by (rewrite bind_assoc; exact E1).
  clear E1. revert E2. unfold mbind at 1, K_bind at 1.
  match goal with |- context [match ?x with Some _ => _ | None => _ end] => destruct x as [[[[]|e] k3]|] eqn:E3 end; [|done..].
  destruct (put_spec sl k r p m k3 Hh Hm E3) as (Ha & Hadd & Hr & Es & Ef).
  unfold mbind, K_bind. destruct (notify_file_write p ctx result k3) as [[[u|e] k4]|] eqn:E4; [|done..].
  apply notify_spec in E4 as (C4 & R4 & T4 & S4 & W4 & F4). intros [= <- <-]. split_and!; [done| | | |congruence..].
  - by eapply agree_other.
  - intros id q o. unfold row_in. rewrite S4. apply Hadd.
  - unfold route_row, row_in in *. by rewrite C4, S4.
Qed.

Lemma commit_spec (sl : StoreLaws) (bl : BytesLaws) now p ctx y r b k res k' :
  (- I64_MAX - 1 ≤ now ≤ I64_MAX)%Z → (slen y < U64_MOD)%N → no_nul p → sound (k_storage k) → rr_backend r = Some b → all_healthy k → route_present k r →
  commit_write_through now p ctx y 0 r k = Some (Ok res, k') →
  ∃ wr m, os_write_content b y (rr_backend_path r) ctx 0 (k_storage k) = (Ok wr, k_storage k') ∧
    agree (λ q, q ≠ p) k k' ∧ adds p m k k' ∧ route_row k' r p = Some m ∧ md_entry_type m = DT_REG ∧
    md_content_id m = Some (wr_content_id wr) ∧ md_gen m = ww_gen res ∧
    ww_content_id res = Some (wr_content_id wr) ∧
    k_fdt k' = registered b (wr_content_id wr) p (k_storage k') (k_fdt k).
Proof.
  intros Hnow Hy Hp Hsound Hb Hh Hpr. unfold commit_write_through. change (0 =? 0)%N with true.
  unfold mbind at 1, K_bind at 1, mret at 1, K_ret at 1. unfold config, reads. unfold mbind at 1, K_bind at 1.
  rewrite Hb. assert (is_federation_peer_mount r = false) as -> by (unfold is_federation_peer_mount; by rewrite Hb).
  unfold storage. unfold mbind at 1, K_bind at 1.
  destruct (os_write_content b y (rr_backend_path r) ctx 0 (k_storage k)) as [[wr|e] w] eqn:Hw; [|done].
  unfold mbind at 1, K_bind at 1. cbn [mbind option_bind k_storage set_storage].
  set (k1 := set_fdt (registered b (wr_content_id wr) p w (k_fdt k)) (set_storage w k)).
  unfold mbind at 1, K_bind at 1.
  assert ((match os_resolve_physical_path b (wr_content_id wr) w with
           | Some physical => fdt_register p physical
           | None => mret ()
           end : K ()) (set_storage w k) = Some (Ok (), k1)) as ->.
  { unfold k1, registered, fdt_register, mret, K_ret. cbn [k_storage set_storage].
    destruct (os_resolve_physical_path _ _ _); [destruct (fs_open _ _)|]; by destruct k. }
  unfold mbind at 1, K_bind at 1. destruct (get_row_spec sl k1 r p Hh Hpr) as (k2 & -> & Hl2).
  set (old := route_row k1 r p). unfold mbind at 1, K_bind at 1.
  destruct (replacement_spec now p (rr_zone_id r) wr old k2) as (meta & -> & Ht & Hc & Hm);
    [done|by apply (bl_write bl _ _ _ _ _ _ _ Hsound Hw)|done|intros o Ho; by apply (route_row_ok sl k1 r p o Hh)|].
  unfold mbind at 1, K_bind at 1.
  destruct (file_write_result_spec meta wr old k2) as (result & -> & Hg & Hi).
  intros E1. destruct (publish_spec sl r p ctx meta result k2 res k') as (-> & Ha & Hadd & Hr & Es & Ef);
    [by eapply looks_healthy|done|exact E1|]. destruct Hl2 as (Ha2 & W2 & _ & F2). exists wr, meta.
  assert (k_storage k' = w) as Ew by (by rewrite Es, W2).
  rewrite Ew. split_and!; try done; [| |by rewrite Ef, F2].
  2:{ intros id q o [Ho|?]%Hadd; [|by right]. left. by rewrite (ag_rows _ _ _ Ha2) in Ho. }
  destruct Ha2 as [C2 R2 T2 S2 G2 V2], Ha as [C3 R3 T3 S3 G3 V3]. split; [by rewrite ?C3, ?R3, ?T3..| |done|].
  - intros id. by rewrite S3, S2.
  - intros id q Hq. by rewrite V3, V2.
Qed.

(** ** The lock *)

(** A lock is granted exactly when no live handle is in the way. *)
Lemma acquire_alone_granted path mode timeout (m : LockManager L) :
  manager_inv m → counters_in_range m →
  (acquire_alone path mode timeout m).1 ≠ 0%N ↔ ¬ in_the_way m path mode.
Proof.
  intros Hi Hc. unfold acquire_alone, acquire_enter. destruct (try_spec m path mode Hi Hc) as [[Hw E1]|(Hw & E1 & _)].
  - rewrite E1, with_io_id. destruct (timeout =? 0)%N; [cbn; tauto|].
    unfold acquire_wait, acquire_wake. cbn [io_state next_handle count_contention]. rewrite E1. cbn. tauto.
  - rewrite E1. cbn. split; [done|]. intros _. lia.
Qed.

Lemma write_lock_allows_read (m m' : LockManager L) p :
  io_state m' = io_state m → ¬ in_the_way m p ModeWrite → ¬ in_the_way m' p ModeRead.
Proof.
  intros Es Hw (h & i & Hh & Ho & He). apply Hw. exists h, i. rewrite <-Es. split_and!; [done..|]. by left.
Qed.

(** ** The write *)

(** Room for [n] more locks. *)
Definition lock_room (n : N) k : Prop := locked (k_config k, None) n (io_handles (io_state (k_locks k))) k.

Lemma write_locked_spec (sl : StoreLaws) (bl : BytesLaws) now p ctx y r b k res k' :
  (- I64_MAX - 1 ≤ now ≤ I64_MAX)%Z → (slen y < U64_MOD)%N → no_nul p → sound (k_storage k) → rr_backend r = Some b → all_healthy k → route_present k r → lock_room 2 k →
  write_locked now p ctx y 0 r k = Some (Ok res, k') → ww_hit res = true →
  ¬ in_the_way (k_locks k) p ModeWrite ∧
  ∃ wr m, os_write_content b y (rr_backend_path r) ctx 0 (k_storage k) = (Ok wr, k_storage k') ∧
    agree (λ q, q ≠ p) k k' ∧ adds p m k k' ∧ route_row k' r p = Some m ∧ md_entry_type m = DT_REG ∧
    md_content_id m = Some (wr_content_id wr) ∧ md_gen m = ww_gen res ∧
    ww_content_id res = Some (wr_content_id wr) ∧
    k_fdt k' = registered b (wr_content_id wr) p (k_storage k') (k_fdt k).
Proof.
  intros Hnow Hy Hp Hsound Hb Hh Hpr (_ & Hi & _ & Hn & Hs). unfold write_locked, blocking_acquire. unfold mbind at 1, K_bind at 1.
  assert (counters_in_range (k_locks k)) as Hc by (unfold counters_in_range; lia).
  pose proof (acquire_alone_granted p ModeWrite (kc_vfs_lock_timeout_ms (k_config k)) (k_locks k) Hi Hc) as Hg.
  destruct (acquire_alone _ _ _ _) as [h m]. cbn [fst] in Hg. destruct (N.eqb_spec h 0) as [->|Hne].
  { intros [= <- <-]. done. }
  intros E1 _. split; [by apply Hg|]. revert E1. unfold attempt. unfold mbind at 1, K_bind at 1.
  destruct (commit_write_through now p ctx y 0 r (set_locks m k)) as [[x k1]|] eqn:E1; [|done].
  unfold release, modify. unfold mbind at 1, K_bind at 1. destruct x as [res'|e]; [|done]. intros [= <- <-].
  destruct (commit_spec sl bl now p ctx y r b (set_locks m k) res' k1 Hnow Hy Hp Hsound Hb Hh Hpr E1)
    as (wr & meta & Hw & Ha & Hadd & Hr & Ht & Hcid & Hgen & Hrc & Hf).
  exists wr, meta. split_and!; try done. destruct Ha as [C R T St G V].
  split; [exact C|exact R|exact T|exact St|exact G|exact V].
Qed.

Lemma hooks_still c k : ∃ r, dispatch_native_pre_with_replacement c k = Some (r, k).
Proof.
  unfold dispatch_native_pre_with_replacement, config, reads, mbind, K_bind, mret, K_ret, throw.
  repeat case_match; by eexists.
Qed.

Lemma write_hooks_still p ctx x k : ∃ r, apply_mutating_write_hooks p ctx x k = Some (r, k).
Proof.
  unfold apply_mutating_write_hooks, apply_mutating_write_hooks_with_route, config, reads.
  destruct (still_check p None PermWrite ctx k) as [r Hr]. unfold mbind at 1, K_bind at 1. rewrite Hr.
  destruct r; [apply hooks_still|by eexists].
Qed.

(** The answer of the read hooks depends on the configuration and the mounts. *)
Lemma read_hooks_agree k k' p ctx :
  k_config k' = k_config k → k_router k' = k_router k →
  apply_read_hooks p ctx k = Some (Ok (), k) → apply_read_hooks p ctx k' = Some (Ok (), k').
Proof.
  intros C R. assert (∃ x, check_permission p PermRead ctx k = Some (x, k) ∧
    check_permission p PermRead ctx k' = Some (x, k')) as (x & H1 & H2).
  { unfold check_permission, check_permission_with_route. rewrite C, R. repeat case_match; by eexists. }
  set (c := HookRead p (identity_of ctx) None None).
  assert (∃ x, dispatch_native_pre_with_replacement c k = Some (x, k) ∧
    dispatch_native_pre_with_replacement c k' = Some (x, k')) as (y & H3 & H4).
  { unfold dispatch_native_pre_with_replacement, config, reads, mbind, K_bind. rewrite C.
    destruct (hooks_count _ =? 0)%nat; [by eexists|]. destruct (dispatch_pre _ c); by eexists. }
  unfold apply_read_hooks, dispatch_native_pre, mbind, K_bind. rewrite H1, H2. destruct x as [[]|]; [|done].
  fold c. rewrite H3, H4. by destruct y.
Qed.

(** A file that is plain: reached without links, on a backend, and neither a link
    nor a pipe nor a stream; an open descriptor of it is of its host file. *)
Record plain (p z : string) (r : Route) (b : N) k : Prop := {
  pl_valid : validate_path_fast p = Ok ();
  pl_real : ¬ is_virtual k p;
  pl_links : links k (ancestor_cuts p) z = Ok None;
  pl_route : route (k_router k) p z = Some r;
  pl_backend : rr_backend r = Some b;
  pl_type m : route_row k r p = Some m →
    md_entry_type m ≠ DT_LINK ∧ md_entry_type m ≠ DT_PIPE ∧ md_entry_type m ≠ DT_STREAM;
  pl_descriptor h : k_fdt k !! p = Some h →
    os_resolve_physical_path b (rr_backend_path r) (k_storage k) = Some (fh_physical_path h) }.

Lemma not_link_target p m : md_entry_type m ≠ DT_LINK → dt_link_target p m = Ok None.
Proof. intros Ht. unfold dt_link_target. by rewrite decide_True. Qed.

(** The way of a write to the lock: the state it gets there with only looked. *)
Lemma write_reaches_lock (sl : StoreLaws) hops now p ctx x rep r b k :
  all_healthy k → stores_present k → plain p (oc_zone_id ctx) r b k →
  apply_mutating_write_hooks p ctx x k = Some (Ok rep, k) →
  ∃ k', looks k k' ∧
    sys_write_with_link_depth hops now p ctx x 0 k = write_locked now p ctx (default x rep) 0 r k'.
Proof.
  intros Hh Hp [Hv Hreal Hlk Hr Hb Ht _] Hhook.
  destruct (link_search sl (ancestor_cuts p) (oc_zone_id ctx) k Hh Hp) as (k1 & Hl1 & Ho1). rewrite Hlk in Hl1.
  pose proof (agree_present _ _ _ (proj1 Ho1) Hp) as Hp1.
  destruct (get_row_spec sl k1 r p) as (k2 & Hg & Ho2); [by eapply looks_healthy| |].
  { apply (proj1 Hp1 p (oc_zone_id ctx) r). by rewrite (ag_router _ _ _ (proj1 Ho1)). }
  exists k2. split; [by eapply looks_trans|].
  assert (route_row k1 r p = route_row k r p) as Hrow.
  { unfold route_row. rewrite (ag_config _ _ _ (proj1 Ho1)). destruct (resolve_metastore _ _); [|done].
    by apply (ag_rows _ _ _ (proj1 Ho1)). }
  rewrite Hrow in Hg. destruct hops; cbn [sys_write_with_link_depth]; unfold validate, directory_link_target, route_path, reads;
    rewrite Hv; unfold mbind, K_bind, of_result, mret, K_ret; rewrite trie_resolved_eq, bool_decide_false by done;
    rewrite Hhook, Hl1, (ag_router _ _ _ (proj1 Ho1)), Hr, Hg;
    (destruct (route_row k r p) as [m|]; [destruct (Ht m eq_refl) as (? & ? & ?); rewrite not_link_target by done; cbn;
      rewrite !decide_False by congruence|]; done).
Qed.

(** ** The read *)

(** A result with the bytes [y] of the row [m]. *)
Definition reads_back (y : string) (m : FileMetadata) (res : SysReadResult) : Prop :=
  rd_data res = Some y ∧ rd_content_id res = md_content_id m ∧ rd_gen res = md_gen m ∧ rd_entry_type res = DT_REG.

Lemma read_result_spec y m k : ∃ res, read_result y (md_content_id m) (md_gen m) k = Some (Ok res, k) ∧ reads_back y m res.
Proof. by eexists. Qed.

Lemma read_locked_spec p ctx r b m cid y k :
  rr_backend r = Some b → md_content_id m = Some cid → cid ≠ "" →
  os_read_content b cid ctx (k_storage k) = Ok y →
  manager_inv (k_locks k) → counters_in_range (k_locks k) → ¬ in_the_way (k_locks k) p ModeRead →
  ∃ res k', read_locked p ctx r m k = Some (Ok res, k') ∧ reads_back y m res.
Proof.
  intros Hb Hcid Hne Hy Hi Hc Hw. unfold read_locked, blocking_acquire. unfold mbind at 1, K_bind at 1.
  pose proof (proj2 (acquire_alone_granted p ModeRead (kc_vfs_lock_timeout_ms (k_config k)) (k_locks k) Hi Hc) Hw) as Hg.
  destruct (acquire_alone _ _ _ _) as [h lm]. cbn [fst] in Hg. rewrite (proj2 (N.eqb_neq h 0)) by done.
  unfold config, reads. do 2 (unfold mbind at 1, K_bind at 1).
  assert (is_federation_peer_mount r = false) as -> by (unfold is_federation_peer_mount; by rewrite Hb).
  cbn [andb]. rewrite Hcid, decide_False by done. unfold route_read, reads. unfold mbind at 1, K_bind at 1.
  rewrite Hb. cbn [fmap option_fmap option_map k_storage set_locks]. rewrite Hy.
  unfold release, modify. unfold mbind at 1, K_bind at 1.
  cbn [backend_read_or_miss]. unfold of_result. unfold mbind at 1, K_bind at 1, mret at 1, K_ret at 1.
  rewrite <-Hcid. edestruct (read_result_spec y m) as (res & -> & Hres). by eexists _, _.
Qed.

(** An open descriptor of the path, if it answers, answers with [y]. *)
Definition descriptor_reads (p y : string) k : Prop :=
  ∀ h n, k_fdt k !! p = Some h → current_size h (k_storage k) = Some n →
    if (n =? 0)%N then y = "" else fs_pread (fh_file h) n (k_storage k) = Some y ∨ fs_pread (fh_file h) n (k_storage k) = None.

Lemma fdt_pread_spec p y k :
  descriptor_reads p y k →
  ∃ o k', fdt_pread p k = Some (Ok o, k') ∧ (o = Some y ∨ o = None) ∧
    k_storage k' = k_storage k ∧ k_locks k' = k_locks k ∧ k_config k' = k_config k.
Proof.
  intros Hd. unfold fdt_pread. destruct (k_fdt k !! p) as [h|] eqn:Hh; [|eexists _, _; split_and!; [done|by right|done..]].
  destruct (current_size h (k_storage k)) as [n|] eqn:Hn; [|eexists _, _; split_and!; [done|by right|done..]].
  pose proof (Hd h n Hh Hn) as Hx. eexists _, _. split; [done|]. split_and!; [|done..].
  destruct (n =? 0)%N; [subst y; by left|done].
Qed.

Lemma read_window_all y : read_window y 0 None = y.
Proof.
  unfold read_window. rewrite N.min_0_l, N.sub_0_r. cbn [sdrop N.to_nat]. unfold slen. rewrite Nat2N.id.
  rewrite <-(sapp_nil_r y) at 2. apply stake_app.
Qed.

Lemma slice_spec req res y :
  rd_data res = Some y → ∃ res', slice_read_result (Ok res) req = Ok res' ∧
    rd_data res' = Some (read_window y (rq_offset req) (rq_len req)) ∧
    rd_content_id res' = rd_content_id res ∧ rd_gen res' = rd_gen res.
Proof.
  intros Hy. unfold slice_read_result. cbn [mbind result_bind].
  destruct ((rq_offset req =? 0)%N && bool_decide (rq_len req = None)) eqn:Hc; [|rewrite Hy; by eexists].
  apply andb_true_iff in Hc as [Ho%N.eqb_eq Hl%bool_decide_eq_true]. exists res.
  by rewrite Ho, Hl, read_window_all.
Qed.

(** A path that is there, and reached without links of the name space. *)
Record reached (p z : string) (r : Route) (b : N) k : Prop := {
  re_valid : validate_path_fast p = Ok ();
  re_real : ¬ is_virtual k p;
  re_links : links k (ancestor_cuts p) z = Ok None;
  re_route : route (k_router k) p z = Some r;
  re_backend : rr_backend r = Some b }.

(** The way of a read to its bytes. *)
Lemma read_call_spec (sl : StoreLaws) now p ctx r b t o k m cid y :
  all_healthy k → stores_present k → reached p (oc_zone_id ctx) r b k →
  route_row k r p = Some m → md_entry_type m = DT_REG → md_content_id m = Some cid → cid ≠ "" →
  os_read_content b cid ctx (k_storage k) = Ok y → descriptor_reads p y k →
  manager_inv (k_locks k) → counters_in_range (k_locks k) → ¬ in_the_way (k_locks k) p ModeRead →
  apply_read_hooks p ctx k = Some (Ok (), k) →
  ∃ res k2, sys_read_single 1 now p ctx t o k = Some (Ok res, k2) ∧ reads_back y m res.
Proof.
  intros Hh Hp [Hv Hreal Hlk Hr Hb] Hrow Ht Hcid Hne Hread Hd Hi Hc Hway Hhook.
  destruct (link_search sl (ancestor_cuts p) (oc_zone_id ctx) k Hh Hp) as (k2 & Hl2 & Ho2). rewrite Hlk in Hl2.
  destruct (get_row_spec sl k2 r p) as (k3 & Hg & Ho3); [by eapply looks_healthy| |].
  { apply (proj1 (agree_present _ _ _ (proj1 Ho2) Hp) p (oc_zone_id ctx) r). by rewrite (ag_router _ _ _ (proj1 Ho2)). }
  assert (route_row k2 r p = Some m) as Hrow2.
  { rewrite <-Hrow. unfold route_row. rewrite (ag_config _ _ _ (proj1 Ho2)). destruct (resolve_metastore _ _); [|done].
    by apply (ag_rows _ _ _ (proj1 Ho2)). }
  rewrite Hrow2 in Hg. destruct (looks_trans _ _ _ Ho2 Ho3) as (Ha3 & Es3 & El3 & Ef3).
  destruct (fdt_pread_spec p y k3) as (x & k4 & Hpr & Hx & Es4 & El4 & _);
    [unfold descriptor_reads; by rewrite Ef3, Es3|].
  cbn [sys_read_single]. unfold validate. rewrite Hv. unfold mbind at 1, K_bind at 1, of_result at 1, mret at 1, K_ret at 1.
  unfold mbind at 1, K_bind at 1. rewrite trie_resolved_eq. rewrite bool_decide_false by done.
  unfold mbind at 1, K_bind at 1. rewrite Hhook.
  unfold sys_read_after_auth, directory_link_target. unfold mbind at 1, K_bind at 1. rewrite Hl2.
  unfold route_path, reads. unfold mbind at 1, K_bind at 1. rewrite (ag_router _ _ _ (proj1 Ho2)), Hr.
  unfold mbind at 1, K_bind at 1. rewrite Hg, not_link_target by (by rewrite Ht). cbn [of_result].
  unfold mbind at 1, K_bind at 1, mret at 1, K_ret at 1. rewrite Ht.
  rewrite (decide_False (P := DT_REG = DT_PIPE)), (decide_False (P := DT_REG = DT_STREAM)), decide_True by done.
  unfold mbind at 1, K_bind at 1. rewrite Hpr. destruct Hx as [->| ->].
  - edestruct (read_result_spec y m) as (res & -> & Hres). by eexists _, _.
  - eapply read_locked_spec; [done..|by rewrite Es4, Es3| | |]; by rewrite El4, El3.
Qed.

(** The whole call, with the window of the request. *)
Lemma read_one_spec now req ctx y m k res k2 :
  sys_read_single 1 now (rq_path req) ctx (rq_timeout_ms req) (rq_offset req) k = Some (Ok res, k2) → reads_back y m res →
  ∃ out, sys_read_one now req ctx k = Some (Ok out, k2) ∧
    rd_data out = Some (read_window y (rq_offset req) (rq_len req)) ∧
    rd_content_id out = md_content_id m ∧ rd_gen out = md_gen m.
Proof.
  intros Hread (Hd & Hci & Hg & Het). unfold sys_read_one, mbind, K_bind. rewrite Hread, Het, decide_False by (by intros [|]).
  destruct (slice_spec req res _ Hd) as (out & -> & Hd' & Hci' & Hg'). exists out. split; [done|]. split_and!; congruence.
Qed.

(** A plain file stays reached when only its own row changes. *)
Lemma plain_reached p z r b k k1 : plain p z r b k → agree (λ q, q ≠ p) k k1 → reached p z r b k1.
Proof.
  intros [Hv Hreal Hlk Hr Hb _ _] Ha. split; [done| | | |done].
  - unfold is_virtual in *. by rewrite (ag_trie _ _ _ Ha).
  - rewrite (agree_links _ _ _ _ _ Ha), Hlk; [done|]. apply ancestor_cuts_ne.
  - by rewrite (ag_router _ _ _ Ha).
Qed.

(** ** The two calls *)

Lemma looks_agree P k k0 k1 : looks k k0 → agree P k0 k1 → agree P k k1.
Proof.
  intros [[C1 R1 T1 S1 G1 W1] _] [C2 R2 T2 S2 G2 W2]. split; [congruence..| |done|].
  - intros id. by rewrite S2, S1.
  - intros id q Hq. by rewrite W2, W1.
Qed.

Lemma looks_room n k k0 : looks k k0 → lock_room n k → lock_room n k0.
Proof.
  intros ([C _ _ _ _ _] & _ & El & _) (_ & Hi & _ & Hn & Hs). unfold lock_room, locked, context_is. rewrite El.
  by split_and!.
Qed.

(** A descriptor of the path after the write is of the file the write stored. *)
Lemma registered_descriptor (bl : BytesLaws) b y cid ctx w wr w' p (t : gmap string FileHandle) h :
  sound w → os_write_content b y cid ctx 0 w = (Ok wr, w') →
  (∀ h, t !! p = Some h → os_resolve_physical_path b cid w = Some (fh_physical_path h)) →
  registered b (wr_content_id wr) p w' t !! p = Some h →
  os_resolve_physical_path b (wr_content_id wr) w' = Some (fh_physical_path h).
Proof.
  intros Hsound Hw Ht. pose proof (bl_path bl _ _ _ _ _ _ _ Hsound Hw) as Hp. unfold registered.
  destruct (os_resolve_physical_path b (wr_content_id wr) w') as [ph|] eqn:Hr.
  - destruct (fs_open ph w') as [f|].
    + rewrite lookup_insert_eq. by intros [= <-].
    + intros Hh. rewrite Hp. by apply Ht.
  - intros Hh. rewrite Hp. by apply Ht.
Qed.

Lemma valid_no_nul p : validate_path_fast p = Ok () → no_nul p.
Proof. unfold validate_path_fast, no_nul. by repeat case_match. Qed.

(** What the locks are after the write. *)
Lemma write_room now req ctx k res k1 :
  lock_room 2 k → sys_write_one now req ctx k = Some (res, k1) →
  manager_inv (k_locks k1) ∧ counters_in_range (k_locks k1) ∧ io_state (k_locks k1) = io_state (k_locks k).
Proof.
  intros Hk E1. destruct (frees_write (k_config k, None) 1 now (wq_path req) ctx (wq_content req) (wq_offset req)
    1%N (io_handles (io_state (k_locks k))) k res k1) as (_ & Hi & Hh & Hn & Hs); [set_solver|exact Hk|exact E1|].
  rewrite without_empty in *. destruct Hk as (_ & Hi0 & _). split_and!; [done|unfold counters_in_range; by rewrite Hh|].
  by eapply io_inv_unique.
Qed.

(** What a write that reports a hit leaves. *)
Lemma write_hit_spec (sl : StoreLaws) (bl : BytesLaws) now p x ctx rep r b k k1 res :
  (- I64_MAX - 1 ≤ now ≤ I64_MAX)%Z → (slen (default x rep) < U64_MOD)%N →
  all_healthy k → stores_present k → sound (k_storage k) → lock_room 2 k → plain p (oc_zone_id ctx) r b k →
  apply_mutating_write_hooks p ctx x k = Some (Ok rep, k) →
  sys_write_one now (mkWriteRequest p x 0) ctx k = Some (Ok res, k1) → ww_hit res = true →
  ¬ in_the_way (k_locks k) p ModeWrite ∧
  ∃ wr m, os_write_content b (default x rep) (rr_backend_path r) ctx 0 (k_storage k) = (Ok wr, k_storage k1) ∧
    agree (λ q, q ≠ p) k k1 ∧ adds p m k k1 ∧ route_row k1 r p = Some m ∧ md_entry_type m = DT_REG ∧
    md_content_id m = Some (wr_content_id wr) ∧ md_gen m = ww_gen res ∧
    ww_content_id res = Some (wr_content_id wr) ∧
    k_fdt k1 = registered b (wr_content_id wr) p (k_storage k1) (k_fdt k).
Proof.
  intros Hnow Hlen Hh Hp Hsound Hroom Hpl Hhook E1 Hhit.
  destruct (write_reaches_lock sl 1 now p ctx x rep r b k Hh Hp Hpl Hhook) as (k0 & Hl0 & E0).
  unfold sys_write_one in E1. cbn [wq_path wq_content wq_offset] in E1. rewrite E0 in E1.
  pose proof (agree_present _ _ _ (proj1 Hl0) Hp) as Hp0.
  destruct (write_locked_spec sl bl now p ctx (default x rep) r b k0 res k1)
    as (Hway & wr & m & Hw & Ha & Hadd & Hrow & Ht & Hcid & Hgen & Hrc & Hf);
    [done|done|apply valid_no_nul, Hpl|by rewrite (proj1 (proj2 Hl0))|apply Hpl|by eapply looks_healthy| |by eapply looks_room|done..|].
  { apply (proj1 Hp0 p (oc_zone_id ctx) r). rewrite (ag_router _ _ _ (proj1 Hl0)). apply Hpl. }
  pose proof (looks_agree _ _ _ _ Hl0 Ha) as Hak. destruct Hl0 as (Ha0 & Es0 & El0 & Ef0).
  rewrite El0 in Hway. rewrite Es0 in Hw. rewrite Ef0 in Hf. split; [done|]. exists wr, m. split_and!; try done.
  intros id q o [Ho|?]%Hadd; [|by right]. left. by rewrite (ag_rows _ _ _ Ha0) in Ho.
Qed.

(** A write that reports a hit, and a read of the same path after it. *)
Lemma write_then_read (sl : StoreLaws) (bl : BytesLaws) (now now' : Z) (p x : string) (ctx ctx' : OperationContext)
    (rep : option string) (r : Route) (b : N) (req : ReadRequest) (k k1 : Kernel) (res : SysWriteResult) :
  (- I64_MAX - 1 ≤ now ≤ I64_MAX)%Z → (slen (default x rep) < U64_MOD)%N →
  all_healthy k → stores_present k → sound (k_storage k) → lock_room 2 k → plain p (oc_zone_id ctx) r b k →
  apply_mutating_write_hooks p ctx x k = Some (Ok rep, k) →
  oc_zone_id ctx' = oc_zone_id ctx → apply_read_hooks p ctx' k = Some (Ok (), k) → rq_path req = p →
  sys_write_one now (mkWriteRequest p x 0) ctx k = Some (Ok res, k1) → ww_hit res = true →
  ∃ out k2, sys_read_one now' req ctx' k1 = Some (Ok out, k2) ∧
    rd_data out = Some (read_window (default x rep) (rq_offset req) (rq_len req)) ∧
    rd_content_id out = ww_content_id res ∧ rd_gen out = ww_gen res.
Proof.
  intros Hnow Hlen Hh Hp Hsound Hroom Hpl Hhook Hz Hrh Hreq E1 Hhit. pose proof (write_room _ _ _ _ _ _ Hroom E1) as (Hi1 & Hc1 & Hio1).
  destruct (write_hit_spec sl bl now p x ctx rep r b k k1 res)
    as (Hway & wr & m & Hw & Ha & _ & Hrow & Ht & Hcid & Hgen & Hrc & Hf); try done.
  destruct (bl_write bl _ _ _ _ _ _ _ Hsound Hw) as (Hne & _ & Hbytes).
  destruct (read_call_spec sl now' p ctx' r b (rq_timeout_ms req) (rq_offset req) k1 m (wr_content_id wr) (default x rep))
    as (out & k2 & Hread & Hback); try done.
  - intros ??. apply (ag_healthy _ _ _ Ha).
  - by eapply agree_present.
  - rewrite Hz. by eapply plain_reached.
  - intros h n Hhd. rewrite Hf in Hhd. eapply (bl_host bl); [done|exact Hw|].
    eapply (registered_descriptor bl); [done|exact Hw|apply Hpl|exact Hhd].
  - by eapply write_lock_allows_read.
  - by eapply read_hooks_agree; [apply Ha..|].
  - rewrite <-Hreq in Hread. destruct (read_one_spec now' req ctx' _ _ _ _ _ Hread Hback) as (out' & -> & Hd & Hci & Hg).
    eexists _, _. split; [done|]. split_and!; congruence.
Qed.
End roundtrip.
