(* ===== verification/HostFs.v ===== *)
(** * The host's file system

    What the local backends use of [std::fs] and [std::path]: a tree of files,
    directories and symbolic links, and inodes that open descriptors keep.  A path
    is walked component by component, and links are followed as the kernel of the
    host does.  Paths are absolute, names are UTF-8, and an operation fails only for
    a reason the tree gives (no such entry, not a directory, is a directory, not
    empty, already there, too many links). *)

From S2P Require Import Prelude Bytes Codec Table MetaStore KernelTypes.

(** ** Paths *)

(** [s.trim_start_matches(c)] *)
Fixpoint trim_start (c : ascii) (s : string) : string :=
  match s with
  | "" => ""
  | String a s' => if decide (a = c) then trim_start c s' else s
  end.

(** [s.contains(t)] *)
Fixpoint has_substring (t s : string) : bool :=
  starts_with t s || match s with "" => false | String _ s => has_substring t s end.

(** [Path::components], without the root directory. *)
Definition comps (p : string) : list string := filter (λ c, c ≠ "" ∧ c ≠ ".") (ssplit "/" p).

(** A path that ends in a slash names a directory. *)
Definition names_dir (p : string) : bool := ends_with "/" p || ends_with "/." p.

(** [PathBuf::join] of a relative path *)
Definition path_join (base p : string) : string := if ends_with "/" base then base +:+ p else base +:+ "/" +:+ p.

Definition path_of (l : list string) : string :=
  match l with [] => "/" | _ => foldr (λ c s, "/" +:+ c +:+ s) "" l end.

(** [Path::parent] *)
Definition path_parent (p : string) : option (list string) :=
  match reverse (comps p) with [] => None | _ :: l => Some (reverse l) end.

(** [path.file_name().unwrap_or_default()] *)
Definition file_name (p : string) : string :=
  match last (comps p) with
  | Some c => if decide (c = "..") then "" else c
  | None => ""
  end.

(** [Path::starts_with] *)
Definition path_starts_with (p base : string) : bool := bool_decide (comps base `prefix_of` comps p).

(** ** The tree *)

Inductive HostNode :=
  | HFile (inode : N)
  | HDir (inode : N)
  | HLink (target : string).

Record Inode := mkInode { in_is_dir : bool; in_bytes : string; in_mode : N; in_modified_at_ms : option Z }.

(** [hf_now] is what the clock of the host shows, as the time of a change. *)
Record HostFs := mkFs {
  hf_tree : gmap (list string) HostNode;
  hf_inodes : gmap N Inode;
  hf_next : N;
  hf_now : option Z }.

(** The root is a directory. *)
Definition node_at (fs : HostFs) (l : list string) : option HostNode :=
  if decide (l = []) then Some (HDir 0) else hf_tree fs !! l.

Definition io_not_found : IoError := mkIoError KindNotFound "No such file or directory".
Definition io_exists : IoError := mkIoError KindAlreadyExists "File exists".
Definition io_not_a_dir : IoError := mkIoError KindOther "Not a directory".
Definition io_is_a_dir : IoError := mkIoError KindOther "Is a directory".
Definition io_not_empty : IoError := mkIoError KindOther "Directory not empty".
Definition io_loop : IoError := mkIoError KindOther "Too many levels of symbolic links".
Definition io_invalid : IoError := mkIoError KindOther "Invalid argument".
Definition io_busy : IoError := mkIoError KindOther "Device or resource busy".
Definition io_too_large : IoError := mkIoError KindOther "File too large".

Definition link_comps (target : string) : list string :=
  comps target ++ if names_dir target then ["."] else [].

(** Where a walk from the directory [cur] ends: the last component need not be
    there.  A link at the end is followed when [follow] says so. *)
Fixpoint namei (hops : nat) (fs : HostFs) (follow : bool) : list string → list string → result IoError (list string) :=
  fix go (cur l : list string) : result IoError (list string) :=
    match l with
    | [] => Ok cur
    | c :: rest =>
        if decide (c = ".") then go cur rest
        else if decide (c = "..") then go (take (pred (length cur)) cur) rest
        else
          match node_at fs (cur ++ [c]) with
          | Some (HDir _) => go (cur ++ [c]) rest
          | Some (HFile _) => if decide (rest = []) then Ok (cur ++ [c]) else Err io_not_a_dir
          | Some (HLink target) =>
              if decide (rest = [] ∧ follow = false) then Ok (cur ++ [c])
              else match hops with
                   | 0 => Err io_loop
                   | S hops => namei hops fs follow (if starts_with "/" target then [] else cur) (link_comps target ++ rest)
                   end
          | None => if decide (rest = []) then Ok (cur ++ [c]) else Err io_not_found
          end
    end.

Definition MAXSYMLINKS : nat := 40.

Definition walk (fs : HostFs) (follow : bool) (l : list string) : result IoError (list string) :=
  namei MAXSYMLINKS fs follow [] l.

(** ** Operations *)

(** An operation fails with the state it has reached. *)
Definition Io (A : Type) : Type := HostFs → result IoError A * HostFs.

#[global] Instance Io_ret : MRet Io := λ A a fs, (Ok a, fs).
#[global] Instance Io_bind : MBind Io := λ A B f m fs,
  match m fs with (Ok a, fs) => f a fs | (Err e, fs) => (Err e, fs) end.

Definition io_fail {A} (e : IoError) : Io A := λ fs, (Err e, fs).
Definition io_reads {A} (f : HostFs → result IoError A) : Io A := λ fs, (f fs, fs).
Definition io_update (f : HostFs → HostFs) : Io () := λ fs, (Ok (), f fs).
Definition io_attempt {A} (m : Io A) : Io (result IoError A) := λ fs,
  let '(r, fs) := m fs in (Ok r, fs).

Definition is_hdir (n : HostNode) : bool := match n with HDir _ => true | _ => false end.

(** The entry a path names. *)
Definition find_node (follow : bool) (p : string) (fs : HostFs) : result IoError HostNode :=
  l ← walk fs follow (comps p);
  match node_at fs l with
  | None => Err io_not_found
  | Some n => if names_dir p && negb (is_hdir n) then Err io_not_a_dir else Ok n
  end.

Definition is_dir_at (l : list string) (fs : HostFs) : bool :=
  match walk fs true l with
  | Ok l => match node_at fs l with Some (HDir _) => true | _ => false end
  | Err _ => false
  end.

Definition bytes_of (i : N) (fs : HostFs) : string := from_option in_bytes "" (hf_inodes fs !! i).

Definition set_tree (t : gmap (list string) HostNode) (fs : HostFs) : HostFs :=
  mkFs t (hf_inodes fs) (hf_next fs) (hf_now fs).

Definition set_bytes (i : N) (x : string) (fs : HostFs) : HostFs :=
  mkFs (hf_tree fs) (<[i := mkInode false x (from_option in_mode 0%N (hf_inodes fs !! i)) (hf_now fs)]> (hf_inodes fs))
    (hf_next fs) (hf_now fs).

Definition set_mode (i : N) (mode : N) (fs : HostFs) : HostFs :=
  mkFs (hf_tree fs) (alter (λ x, mkInode (in_is_dir x) (in_bytes x) mode (in_modified_at_ms x)) i (hf_inodes fs))
    (hf_next fs) (hf_now fs).

(** A new entry with an inode of its own. *)
Definition new_entry (l : list string) (is_dir : bool) (mode : N) (fs : HostFs) : HostFs :=
  mkFs (<[l := (if is_dir then HDir else HFile) (hf_next fs)]> (hf_tree fs))
    (<[hf_next fs := mkInode is_dir "" mode (hf_now fs)]> (hf_inodes fs))
    (hf_next fs + 1) (hf_now fs).

(** [fs::read] *)
Definition host_read (p : string) (fs : HostFs) : result IoError string :=
  n ← find_node true p fs;
  match n with
  | HFile i => Ok (bytes_of i fs)
  | HDir _ => Err io_is_a_dir
  | HLink _ => Err io_loop
  end.

(** Opening for writing, the file created when it is not there. *)
Definition open_create (p : string) : Io N := λ fs,
  match walk fs true (comps p) with
  | Err e => (Err e, fs)
  | Ok l =>
      match node_at fs l with
      | Some (HFile i) => if names_dir p then (Err io_not_a_dir, fs) else (Ok i, fs)
      | Some (HDir _) => (Err io_is_a_dir, fs)
      | Some (HLink _) => (Err io_loop, fs)
      | None => if names_dir p then (Err io_is_a_dir, fs) else (Ok (hf_next fs), new_entry l false 420 fs)
      end
  end.

(** [fs::write] *)
Definition host_write (p x : string) : Io () :=
  i ← open_create p; io_update (set_bytes i x).

(** The bytes with [x] at [off], zeros in between when [off] lies behind the end. *)
Definition splice (off : N) (x old : string) : string :=
  stake (N.to_nat off) old +:+ zeros (N.to_nat (off - slen old)) +:+ x +:+ sdrop (N.to_nat (off + slen x)) old.

(** [mkdir(2)] *)
Definition create_dir (l : list string) : Io () := λ fs,
  match walk fs false l with
  | Err e => (Err e, fs)
  | Ok l =>
      match node_at fs l with
      | Some _ => (Err io_exists, fs)
      | None => (Ok (), new_entry l true 493 fs)
      end
  end.

(** [mkdir] of a path that may be there. *)
Definition create_dir_or_present (l : list string) : Io () :=
  r ← io_attempt (create_dir l);
  match r with
  | Ok _ => mret ()
  | Err e => io_reads (λ fs, if is_dir_at l fs then Ok () else Err e)
  end.

(** [fs::create_dir_all], on the components from the last to the first *)
Fixpoint create_dir_all_rev (l : list string) : Io () :=
  match l with
  | [] => create_dir_or_present []
  | _ :: parent =>
      r ← io_attempt (create_dir (reverse l));
      match r with
      | Ok _ => mret ()
      | Err e =>
          if decide (io_kind e = KindNotFound) then
            _ ← create_dir_all_rev parent; create_dir_or_present (reverse l)
          else io_reads (λ fs, if is_dir_at (reverse l) fs then Ok () else Err e)
      end
  end.

Definition create_dir_all (l : list string) : Io () := create_dir_all_rev (reverse l).

(** Is there an entry below? *)
Definition has_children (l : list string) (fs : HostFs) : bool :=
  existsb (λ x, bool_decide (l `prefix_of` x.1 ∧ x.1 ≠ l)) (map_to_list (hf_tree fs)).

(** [fs::remove_file] *)
Definition host_remove_file (p : string) : Io () := λ fs,
  match walk fs false (comps p) with
  | Err e => (Err e, fs)
  | Ok l =>
      match node_at fs l with
      | None => (Err io_not_found, fs)
      | Some (HDir _) => (Err io_is_a_dir, fs)
      | Some _ => if names_dir p then (Err io_not_a_dir, fs) else (Ok (), set_tree (delete l (hf_tree fs)) fs)
      end
  end.

(** [fs::remove_dir] *)
Definition remove_dir (l : list string) : Io () := λ fs,
  match walk fs false l with
  | Err e => (Err e, fs)
  | Ok l =>
      match node_at fs l with
      | None => (Err io_not_found, fs)
      | Some (HDir _) =>
          if decide (l = []) then (Err io_busy, fs)
          else if has_children l fs then (Err io_not_empty, fs)
          else (Ok (), set_tree (delete l (hf_tree fs)) fs)
      | Some _ => (Err io_not_a_dir, fs)
      end
  end.

(** [fs::remove_dir_all]: a link is removed, not followed. *)
Definition remove_dir_all (l : list string) : Io () := λ fs,
  match walk fs false l with
  | Err e => (Err e, fs)
  | Ok l =>
      match node_at fs l with
      | None => (Err io_not_found, fs)
      | Some (HDir _) =>
          if decide (l = []) then (Err io_busy, fs)
          else (Ok (), set_tree (filter (λ x, ¬ l `prefix_of` x.1) (hf_tree fs)) fs)
      | Some (HLink _) => (Ok (), set_tree (delete l (hf_tree fs)) fs)
      | Some (HFile _) => (Err io_not_a_dir, fs)
      end
  end.

(** The place of [l] after the subtree at [old] moved to [new]. *)
Definition moved_loc (old new l : list string) : option (list string) :=
  if decide (old `prefix_of` l) then Some (new ++ drop (length old) l) else None.

Definition move_tree (old new : list string) (fs : HostFs) : HostFs :=
  set_tree (move_map (moved_loc old new) (λ _ _ n, n) (hf_tree fs)) fs.

(** [fs::rename] *)
Definition host_rename (p q : string) : Io () := λ fs,
  match walk fs false (comps p), walk fs false (comps q) with
  | Err e, _ | _, Err e => (Err e, fs)
  | Ok old, Ok new =>
      match node_at fs old with
      | None => (Err io_not_found, fs)
      | Some n =>
          if (names_dir p || names_dir q) && negb (is_hdir n) then (Err io_not_a_dir, fs)
          else if decide (old = [] ∨ new = []) then (Err io_busy, fs)
          else if decide (old = new) then (Ok (), fs)
          else if is_hdir n then
            if decide (old `prefix_of` new) then (Err io_invalid, fs)
            else match node_at fs new with
                 | None => (Ok (), move_tree old new fs)
                 | Some (HDir _) => if has_children new fs then (Err io_not_empty, fs) else (Ok (), move_tree old new fs)
                 | Some _ => (Err io_not_a_dir, fs)
                 end
          else match node_at fs new with
               | Some (HDir _) => (Err io_is_a_dir, fs)
               | _ => (Ok (), move_tree old new fs)
               end
      end
  end.

(** [fs::copy]: the destination is emptied before the source is read. *)
Definition host_copy (p q : string) : Io N := λ fs,
  match find_node true p fs with
  | Err e => (Err e, fs)
  | Ok (HFile i) =>
      let mode := from_option in_mode 0%N (hf_inodes fs !! i) in
      (j ← open_create q;
       _ ← io_update (λ fs, set_mode j mode (set_bytes j "" fs));
       x ← io_reads (λ fs, Ok (bytes_of i fs));
       _ ← io_update (set_bytes j x);
       mret (slen x)) fs
  | Ok _ => (Err io_invalid, fs)
  end.

(** [fs::canonicalize] *)
Definition canonicalize (p : string) (fs : HostFs) : result IoError string :=
  l ← walk fs true (comps p);
  match node_at fs l with
  | None => Err io_not_found
  | Some n => if names_dir p && negb (is_hdir n) then Err io_not_a_dir else Ok (path_of l)
  end.

(** The number of bytes a directory shows. *)
Definition DIR_LEN : N := 4096.

Definition metadata_of (i : N) (is_dir : bool) (fs : HostFs) : HostMetadata :=
  mkHost 0 i (if is_dir then DIR_LEN else slen (bytes_of i fs)) is_dir (from_option in_mode 0%N (hf_inodes fs !! i))
    (hf_inodes fs !! i ≫= in_modified_at_ms).

(** [fs::metadata] *)
Definition host_metadata (p : string) (fs : HostFs) : result IoError HostMetadata :=
  n ← find_node true p fs;
  match n with
  | HFile i => Ok (metadata_of i false fs)
  | HDir i => Ok (metadata_of i true fs)
  | HLink _ => Err io_loop
  end.

(** [File::open], by device and inode *)
Definition host_open (p : string) (fs : HostFs) : option (N * N) :=
  match find_node true p fs with
  | Ok (HFile i) | Ok (HDir i) => Some (0%N, i)
  | _ => None
  end.

(** [pread(2)] from the start; it fails on a directory. *)
Definition host_pread (f : N * N) (n : N) (fs : HostFs) : option string :=
  i ← hf_inodes fs !! f.2; if in_is_dir i then None else Some (stake (N.to_nat n) (in_bytes i)).

(** [fs::read_dir]: the names in a directory, each with whether it is one. *)
Definition host_read_dir (p : string) (fs : HostFs) : result IoError (list (string * bool)) :=
  l ← walk fs true (comps p);
  match node_at fs l with
  | None => Err io_not_found
  | Some (HDir _) =>
      Ok (omap (λ x, match last x.1 with
                     | Some c => if decide (x.1 = l ++ [c]) then Some (c, is_hdir x.2) else None
                     | None => None
                     end) (map_to_list (hf_tree fs)))
  | Some _ => Err io_not_a_dir
  end.
