(* ===== verification/HostFsProofs.v ===== *)
(** * Walks and files of the host

    How walks end and what operations on the tree leave of them. *)

From S2P Require Import Prelude Bytes Codec Table MetaStore KernelTypes HostFs.

(** ** Paths *)

Lemma ssplit_head c s : ∃ w ws, ssplit c s = w :: ws.
Proof. induction s as [|a s (w & ws & IH)]; cbn [ssplit]; [by eexists _, _|]. rewrite IH. case_decide; by eexists _, _. Qed.

Lemma ssplit_app c s t : ssplit c (s +:+ String c t) = ssplit c s ++ ssplit c t.
Proof.
  induction s as [|a s IH].
  - rewrite sapp_nil_l. cbn [ssplit]. by rewrite decide_True.
  - rewrite sapp_cons. cbn [ssplit]. rewrite IH. case_decide; [done|].
    destruct (ssplit_head c s) as (w & ws & ->). done.
Qed.

Lemma comps_app s t : comps (s +:+ String "/" t) = comps s ++ comps t.
Proof. unfold comps. by rewrite ssplit_app, filter_app. Qed.

Lemma comps_join base p : comps (path_join base p) = comps base ++ comps p.
Proof.
  unfold path_join. destruct (ends_with "/" base) eqn:He; [|apply comps_app].
  apply ends_with_true in He as [r ->]. rewrite <-sapp_assoc, sapp_cons, sapp_nil_l, !comps_app. cbn. by rewrite app_nil_r.
Qed.

Lemma has_substring_app t a b : has_substring t (a +:+ t +:+ b) = true.
Proof.
  induction a as [|x a IH].
  - rewrite sapp_nil_l. destruct (t +:+ b) as [|y s] eqn:E; cbn; [|rewrite <-E]; by rewrite ?starts_with_app, <-?E, ?starts_with_app.
  - rewrite sapp_cons. cbn. by rewrite IH, orb_true_r.
Qed.

(** The parts of a split are parts of the string. *)
Lemma ssplit_part c s w ws :
  ssplit c s = w :: ws → (∃ b, s = w +:+ b) ∧ ∀ w', w' ∈ ws → ∃ a b, s = a +:+ w' +:+ b.
Proof.
  revert w ws. induction s as [|x s IH]; intros w ws; cbn [ssplit].
  { intros [= <- <-]. split; [by exists ""|]. by intros w' ?%not_elem_of_nil. }
  destruct (ssplit_head c s) as (w0 & ws0 & E). rewrite E. destruct (IH _ _ E) as [[b Hb] Hws]. case_decide.
  - intros [= <- <-]. split; [by exists (String x s)|].
    intros w' [->|Hin]%elem_of_cons; [exists (String x ""), b; by rewrite sapp_cons, sapp_nil_l, <-Hb|].
    destruct (Hws w' Hin) as (a' & b' & ->). by exists (String x a'), b'.
  - intros [= <- <-]. split; [exists b; by rewrite sapp_cons, <-Hb|].
    intros w' Hin. destruct (Hws w' Hin) as (a' & b' & ->). by exists (String x a'), b'.
Qed.

(** A path without two dots in a row has no component that leads up. *)
Lemma comps_no_dots s : has_substring ".." s = false → ".." ∉ comps s.
Proof.
  intros Hs [_ Hin]%list_elem_of_filter. destruct (ssplit_head "/" s) as (w & ws & E).
  destruct (ssplit_part _ _ _ _ E) as [[b Hb] Hws]. rewrite E in Hin. apply elem_of_cons in Hin as [<-|Hin].
  - by rewrite Hb, <-(sapp_nil_l (".." +:+ b)), has_substring_app in Hs.
  - destruct (Hws _ Hin) as (a & b' & E'). by rewrite E', has_substring_app in Hs.
Qed.

Lemma comps_plain s c : c ∈ comps s → c ≠ "" ∧ c ≠ ".".
Proof. intros [? _]%list_elem_of_filter. done. Qed.

(** ** Walks *)

Lemma namei_nil hops fs follow cur : namei hops fs follow cur [] = Ok cur.
Proof. by destruct hops. Qed.

Lemma namei_cons hops fs follow cur c rest :
  namei hops fs follow cur (c :: rest) =
    if decide (c = ".") then namei hops fs follow cur rest
    else if decide (c = "..") then namei hops fs follow (take (pred (length cur)) cur) rest
    else
      match node_at fs (cur ++ [c]) with
      | Some (HDir _) => namei hops fs follow (cur ++ [c]) rest
      | Some (HFile _) => if decide (rest = []) then Ok (cur ++ [c]) else Err io_not_a_dir
      | Some (HLink target) =>
          if decide (rest = [] ∧ follow = false) then Ok (cur ++ [c])
          else match hops with
               | 0 => Err io_loop
               | S hops => namei hops fs follow (if starts_with "/" target then [] else cur) (link_comps target ++ rest)
               end
      | None => if decide (rest = []) then Ok (cur ++ [c]) else Err io_not_found
      end.
Proof. by destruct hops. Qed.

(** A new entry at the end of a walk does not lead it elsewhere. *)
Lemma namei_insert hops fs t n follow cur l x :
  node_at fs x = None → (∀ target, n ≠ HLink target) → hf_tree t = <[x := n]> (hf_tree fs) →
  namei hops fs follow cur l = Ok x → namei hops t follow cur l = Ok x.
Proof.
  intros Hx Hn Ht. assert (∀ y, y ≠ x → node_at t y = node_at fs y) as Hother.
  { intros y Hy. unfold node_at. case_decide; [done|]. by rewrite Ht, lookup_insert_ne by congruence. }
  assert (node_at t x = Some n) as Hat.
  { unfold node_at in *. case_decide; [done|]. by rewrite Ht, lookup_insert_eq. }
  revert cur l. induction hops as [|hops IHh]; intros cur l; revert cur.
  all: induction l as [|c l IH]; intros cur; [done|]; rewrite !namei_cons; do 2 (case_decide; [by apply IH|]).
  all: destruct (decide (cur ++ [c] = x)) as [<-|Hne];
    [rewrite Hx, Hat; case_decide; [subst l|done]; intros _; destruct n; [done|by rewrite namei_nil|by destruct (Hn target)]|].
  all: rewrite Hother by done; destruct (node_at fs (cur ++ [c])) as [[]|]; auto; case_decide; auto.
Qed.

Lemma walk_insert fs t n follow l x :
  node_at fs x = None → (∀ target, n ≠ HLink target) → hf_tree t = <[x := n]> (hf_tree fs) →
  walk fs follow l = Ok x → walk t follow l = Ok x.
Proof. apply namei_insert. Qed.

(** The walk depends on the tree only. *)
Lemma namei_tree hops fs fs' follow cur l : hf_tree fs' = hf_tree fs → namei hops fs' follow cur l = namei hops fs follow cur l.
Proof.
  intros Ht. assert (∀ y, node_at fs' y = node_at fs y) as Hn by (intros y; unfold node_at; by rewrite Ht).
  revert cur l. induction hops as [|hops IHh]; intros cur l; revert cur.
  all: induction l as [|c l IH]; intros cur; [done|]; rewrite !namei_cons, Hn; do 2 (case_decide; [by apply IH|]).
  all: destruct (node_at fs (cur ++ [c])) as [[]|]; auto; case_decide; auto.
Qed.

Lemma walk_tree fs fs' follow l : hf_tree fs' = hf_tree fs → walk fs' follow l = walk fs follow l.
Proof. apply namei_tree. Qed.

(** ** Writing and reading a file *)

(** What a path that can be opened for writing leads to. *)
Lemma open_create_spec p fs i fs' :
  open_create p fs = (Ok i, fs') →
  names_dir p = false ∧ ∃ l, walk fs' true (comps p) = Ok l ∧ node_at fs' l = Some (HFile i).
Proof.
  unfold open_create. destruct (walk fs true (comps p)) as [l|] eqn:Hw; [|done].
  destruct (node_at fs l) as [[j|j|t]|] eqn:Hn; try done; destruct (names_dir p); try done; intros [= <- <-]; (split; [done|]).
  - by exists l.
  - exists l. split; [by eapply (walk_insert fs _ (HFile (hf_next fs)))|].
    unfold node_at in *. case_decide; [done|]. cbn. by rewrite lookup_insert_eq.
Qed.

Lemma find_node_file p fs l i :
  names_dir p = false → walk fs true (comps p) = Ok l → node_at fs l = Some (HFile i) → find_node true p fs = Ok (HFile i).
Proof. intros Hd Hw Hn. unfold find_node. rewrite Hw. cbn. by rewrite Hn, Hd. Qed.

(** After a write the path names a file with the bytes. *)
Lemma host_write_spec p x fs fs' u :
  host_write p x fs = (Ok u, fs') →
  ∃ i m t, find_node true p fs' = Ok (HFile i) ∧ hf_inodes fs' !! i = Some (mkInode false x m t).
Proof.
  unfold host_write, io_update, mbind, Io_bind. destruct (open_create p fs) as [[i|e] fs1] eqn:E1; [|done].
  apply open_create_spec in E1 as (Hd & l & Hw & Hn). intros [= <- <-].
  exists i, (from_option in_mode 0%N (hf_inodes fs1 !! i)), (hf_now fs1). split.
  - eapply find_node_file; [done|rewrite <-Hw; by apply walk_tree|exact Hn].
  - cbn. by rewrite lookup_insert_eq.
Qed.

(** ** Well-formed trees *)

(** What is in a directory hangs in the tree, and files have inodes in use. *)
Record tree_wf (fs : HostFs) : Prop := {
  tw_root : hf_tree fs !! [] = None;
  tw_parent l c n : hf_tree fs !! (l ++ [c]) = Some n → ∃ i, node_at fs l = Some (HDir i);
  tw_inode l i : hf_tree fs !! l = Some (HFile i) → (i < hf_next fs)%N }.

Lemma node_at_tree fs l n : node_at fs l = Some n → l = [] ∨ hf_tree fs !! l = Some n.
Proof. unfold node_at. case_decide; auto. Qed.

Lemma tree_node_at fs l n : l ≠ [] → hf_tree fs !! l = Some n → node_at fs l = Some n.
Proof. intros Hl Hn. unfold node_at. by rewrite decide_False. Qed.

(** The tree is what counts. *)
Lemma tree_wf_same fs fs' : hf_tree fs' = hf_tree fs → hf_next fs' = hf_next fs → tree_wf fs → tree_wf fs'.
Proof.
  intros Ht Hx Hwf. split; rewrite ?Ht; [apply Hwf| |].
  - intros l c n Hn. destruct (tw_parent _ Hwf _ _ _ Hn) as [i Hi]. exists i. unfold node_at in *. by rewrite Ht.
  - intros l i. rewrite Hx. apply Hwf.
Qed.

Lemma new_entry_at l d mode fs y :
  l ≠ [] → node_at (new_entry l d mode fs) y = if decide (y = l) then Some ((if d then HDir else HFile) (hf_next fs)) else node_at fs y.
Proof.
  intros Hl. unfold node_at. case_decide as Hy; [subst; by rewrite decide_False|]. cbn. case_decide as Ey.
  - subst. by rewrite lookup_insert_eq.
  - by rewrite lookup_insert_ne.
Qed.

Lemma new_entry_wf l d mode fs l' c i :
  tree_wf fs → node_at fs l = None → l = l' ++ [c] → node_at fs l' = Some (HDir i) → tree_wf (new_entry l d mode fs).
Proof.
  intros Hwf Hn El Hi. assert (l ≠ []) as Hne by (rewrite El; by destruct l').
  pose proof (λ y, new_entry_at l d mode fs y Hne) as Hat. split.
  - cbn. rewrite lookup_insert_ne by done. apply Hwf.
  - intros y e n. cbn. intros [[Ey _]|[_ Hy]]%lookup_insert_Some.
    + rewrite El in Ey. apply app_inj_tail in Ey as [<- _]. exists i. rewrite Hat, decide_False by congruence. done.
    + apply (tw_parent _ Hwf) in Hy as [j Hj]. exists j. rewrite Hat, decide_False by congruence. done.
  - intros y j. cbn. intros [[_ Ey]|[_ Hy]]%lookup_insert_Some; [destruct d; simplify_eq; lia|].
    apply (tw_inode _ Hwf) in Hy. lia.
Qed.

Lemma node_parent fs l c n : tree_wf fs → node_at fs (l ++ [c]) = Some n → ∃ i, node_at fs l = Some (HDir i).
Proof. intros Hwf [?|Hn]%node_at_tree; [by destruct l|by eapply tw_parent]. Qed.

(** Every place above an entry is a directory. *)
Lemma node_above fs l s n : tree_wf fs → node_at fs (l ++ s) = Some n → s ≠ [] → ∃ i, node_at fs l = Some (HDir i).
Proof.
  intros Hwf. revert n. induction s as [|c s IH] using rev_ind; intros n Hn Hs; [done|].
  rewrite app_assoc in Hn. apply node_parent in Hn as [i Hi]; [|done].
  destruct s as [|c' s']; [rewrite app_nil_r in Hi; by exists i|]. by eapply IH.
Qed.

Lemma node_nil fs : node_at fs [] = Some (HDir 0).
Proof. done. Qed.

(** A walk stays among directories but for its last step. *)
Lemma namei_parent hops fs follow cur l q :
  tree_wf fs → (∃ i, node_at fs cur = Some (HDir i)) → namei hops fs follow cur l = Ok q →
  (∃ i, node_at fs q = Some (HDir i)) ∨ ∃ q' c i, q = q' ++ [c] ∧ node_at fs q' = Some (HDir i).
Proof.
  intros Hwf. revert cur l. induction hops as [|hops IHh]; intros cur l; revert cur.
  all: induction l as [|c l IH]; intros cur Hc; rewrite ?namei_nil, ?namei_cons; [intros [= <-]; by left|].
  all: case_decide; [by apply IH|].
  all: case_decide as Hdd;
    [apply IH; destruct cur as [|x cur] using rev_ind; [done|]; rewrite length_app, Nat.add_1_r;
     cbn [pred]; rewrite take_app_length; destruct Hc as [? Hc]; by eapply node_parent|].
  all: destruct (node_at fs (cur ++ [c])) as [[]|] eqn:Hn; try case_decide; try done; try (intros [= <-]; right; destruct Hc; by eauto).
  all: try (apply IH; by eauto).
  apply IHh. destruct (starts_with "/" target); [by eexists|done].
Qed.

(** ** Walks where there are no links *)

Definition no_link (fs : HostFs) (l : list string) : Prop := ∀ t, node_at fs l ≠ Some (HLink t).

(** Neither dots nor links up to [l]. *)
Definition plain_comps (l : list string) : Prop := Forall (λ c, c ≠ "." ∧ c ≠ "..") l.
Definition clear_to (fs : HostFs) (l : list string) : Prop := ∀ q, q `prefix_of` l → no_link fs q.

Lemma namei_direct hops fs follow cur l q :
  plain_comps l → clear_to fs (cur ++ l) → namei hops fs follow cur l = Ok q → q = cur ++ l.
Proof.
  revert cur. induction l as [|c l IH]; intros cur Hp Hc; rewrite ?namei_nil, ?namei_cons.
  { intros [= <-]. by rewrite app_nil_r. }
  apply Forall_cons in Hp as [[Hd Hdd] Hp]. rewrite !decide_False by done.
  replace (cur ++ c :: l) with ((cur ++ [c]) ++ l) in * by by rewrite <-app_assoc.
  destruct (node_at fs (cur ++ [c])) as [[i|i|t]|] eqn:Hn.
  - case_decide; [subst l; intros [= <-]; by rewrite app_nil_r|done].
  - intros E. by apply IH in E.
  - exfalso. apply (Hc (cur ++ [c]) (prefix_app_r _ _ _ (reflexivity _)) t Hn).
  - case_decide; [subst l; intros [= <-]; by rewrite app_nil_r|done].
Qed.

Lemma namei_reaches hops fs follow cur l :
  plain_comps l → (∀ a b, l = a ++ b → a ≠ [] → b ≠ [] → ∃ i, node_at fs (cur ++ a) = Some (HDir i)) →
  no_link fs (cur ++ l) → namei hops fs follow cur l = Ok (cur ++ l).
Proof.
  revert cur. induction l as [|c l IH]; intros cur Hp Hd Hl; rewrite ?namei_nil, ?namei_cons.
  { by rewrite app_nil_r. }
  apply Forall_cons in Hp as [[Hc Hcc] Hp]. rewrite !decide_False by done.
  destruct (decide (l = [])) as [->|Hne].
  - destruct (node_at fs (cur ++ [c])) as [[]|] eqn:Hn; [done|by rewrite namei_nil|by destruct (Hl target)|done].
  - destruct (Hd [c] l) as [i Hi]; [done..|]. rewrite Hi.
    replace (cur ++ c :: l) with ((cur ++ [c]) ++ l) in * by by rewrite <-app_assoc.
    apply IH; [done| |done]. intros a b -> Ha Hb. rewrite <-app_assoc. by apply (Hd (c :: a) b).
Qed.

Lemma walk_direct fs follow l q : plain_comps l → clear_to fs l → walk fs follow l = Ok q → q = l.
Proof. intros Hp Hc. by apply (namei_direct _ _ _ []). Qed.

(** An entry of a well-formed tree is reached. *)
Lemma walk_reaches fs follow l n :
  tree_wf fs → plain_comps l → no_link fs l → node_at fs l = Some n → walk fs follow l = Ok l.
Proof.
  intros Hwf Hp Hl Hn. apply (namei_reaches _ _ _ []); [done| |done]. intros a b -> _ Hb. by eapply node_above.
Qed.

(** ** Directories that appear *)

(** Only directories are new, and the bytes of the files stay. *)
Record grows (fs fs' : HostFs) : Prop := {
  gr_old l n : hf_tree fs !! l = Some n → hf_tree fs' !! l = Some n;
  gr_new l n : hf_tree fs' !! l = Some n → hf_tree fs !! l = Some n ∨ ∃ i, n = HDir i;
  gr_inodes i : (i < hf_next fs)%N → hf_inodes fs' !! i = hf_inodes fs !! i;
  gr_next : (hf_next fs ≤ hf_next fs')%N;
  gr_wf : tree_wf fs → tree_wf fs' }.

Lemma grows_refl fs : grows fs fs.
Proof. split; auto using N.le_refl. Qed.

Lemma grows_trans fs1 fs2 fs3 : grows fs1 fs2 → grows fs2 fs3 → grows fs1 fs3.
Proof.
  intros [O1 N1 I1 X1 W1] [O2 N2 I2 X2 W2]. split; [auto| | |lia|auto].
  - intros l n [Hn|?]%N2; [by apply N1|by right].
  - intros i Hi. rewrite I2 by lia. by apply I1.
Qed.

Lemma create_dir_grows l fs : grows fs (create_dir l fs).2.
Proof.
  unfold create_dir. destruct (walk fs false l) as [q|] eqn:Hw; [|apply grows_refl].
  destruct (node_at fs q) as [n|] eqn:Hn; [apply grows_refl|]. cbn [snd].
  assert (q ≠ [] ∧ hf_tree fs !! q = None) as [Hq Hq']. { unfold node_at in Hn. by case_decide. }
  split; cbn.
  - intros y n Hy. rewrite lookup_insert_ne; [done|congruence].
  - intros y n [[<- <-]|[_ Hy]]%lookup_insert_Some; [right; by eexists|by left].
  - intros i Hi. rewrite lookup_insert_ne; [done|lia].
  - lia.
  - intros Hwf. assert (∃ q' c i, q = q' ++ [c] ∧ node_at fs q' = Some (HDir i)) as (q' & c & i & Eq & Hi).
    { destruct (namei_parent _ _ _ _ _ _ Hwf (ex_intro _ 0%N (node_nil fs)) Hw) as [[i Hi]|?]; [congruence|done]. }
    by eapply new_entry_wf.
Qed.

Lemma io_attempt_eq {A} (m : Io A) fs : io_attempt m fs = (Ok (m fs).1, (m fs).2).
Proof. unfold io_attempt. by destruct (m fs). Qed.

Lemma create_dir_or_present_grows l fs : grows fs (create_dir_or_present l fs).2.
Proof.
  unfold create_dir_or_present, mbind, Io_bind. rewrite io_attempt_eq. pose proof (create_dir_grows l fs) as Hg.
  by destruct (create_dir l fs) as [[u|e] fs1].
Qed.

Lemma create_dir_all_rev_grows l fs : grows fs (create_dir_all_rev l fs).2.
Proof.
  revert fs. induction l as [|c l IH]; intros fs; cbn [create_dir_all_rev]; [apply create_dir_or_present_grows|].
  unfold mbind at 1, Io_bind at 1. rewrite io_attempt_eq. pose proof (create_dir_grows (reverse (c :: l)) fs) as Hg.
  destruct (create_dir (reverse (c :: l)) fs) as [[u|e] fs1]; [done|]. cbn [fst snd] in *. case_decide; [|done].
  unfold mbind, Io_bind. specialize (IH fs1). destruct (create_dir_all_rev l fs1) as [[u|e'] fs2]; cbn [snd] in IH.
  - eapply grows_trans; [done|]. eapply grows_trans; [done|]. apply create_dir_or_present_grows.
  - by eapply grows_trans.
Qed.

Lemma create_dir_all_grows l fs : grows fs (create_dir_all l fs).2.
Proof. apply create_dir_all_rev_grows. Qed.

(** A directory that is there is left alone. *)
Lemma create_dir_all_present l fs i :
  tree_wf fs → plain_comps l → node_at fs l = Some (HDir i) → create_dir_all l fs = (Ok (), fs).
Proof.
  intros Hwf Hp Hn. assert (∀ follow, walk fs follow l = Ok l) as Hw.
  { intros follow. eapply walk_reaches; [done..| |done]. intros t. by rewrite Hn. }
  assert (create_dir l fs = (Err io_exists, fs)) as Hc by (unfold create_dir; by rewrite Hw, Hn).
  assert (is_dir_at l fs = true) as Hd by (unfold is_dir_at; by rewrite Hw, Hn).
  unfold create_dir_all. destruct (reverse l) as [|c r] eqn:Hr; cbn [create_dir_all_rev].
  - assert (l = []) as -> by (by apply (inj reverse)). unfold create_dir_or_present, mbind, Io_bind.
    rewrite io_attempt_eq, Hc. unfold io_reads. cbn [fst snd]. by rewrite Hd.
  - rewrite <-Hr, reverse_involutive. unfold mbind, Io_bind. rewrite io_attempt_eq, Hc. cbn [fst snd].
    rewrite decide_False by done. unfold io_reads. by rewrite Hd.
Qed.

(** ** Renaming *)

Lemma prefixes_comparable (a b l : list string) : a `prefix_of` l → b `prefix_of` l → a `prefix_of` b ∨ b `prefix_of` a.
Proof. intros Ha Hb. destruct (prefix_weak_total a b l Ha Hb); auto. Qed.

(** A subtree at [old] that moves to [new]. *)
Record movable (fs : HostFs) (old new : list string) : Prop := {
  mv_apart : ¬ old `prefix_of` new ∧ ¬ new `prefix_of` old;
  mv_there : is_Some (hf_tree fs !! old);
  mv_room s : s ≠ [] → hf_tree fs !! (new ++ s) = None }.

Lemma host_moved_apart fs old new : movable fs old new → moves_apart (moved_loc old new) (hf_tree fs).
Proof.
  intros [[H1 H2] _ _]. unfold moved_loc. split.
  - intros k k' t _ _. case_decide as Hk; [|done]. intros [= <-]. case_decide as Hk'; [|done].
    intros [= E]. destruct Hk as [s ->], Hk' as [s' ->]. rewrite !drop_app_length in E. by apply (inj _) in E as ->.
  - intros k t _. case_decide; [|done]. intros [= <-]. rewrite decide_False; [done|]. intros Hp.
    destruct (prefixes_comparable old new (new ++ drop (length old) k)); [done|by eexists|done..].
Qed.

Lemma move_tree_lookup fs old new l :
  movable fs old new →
  hf_tree (move_tree old new fs) !! l =
    if decide (old `prefix_of` l) then None
    else if decide (new `prefix_of` l) then hf_tree fs !! (old ++ drop (length new) l) else hf_tree fs !! l.
Proof.
  intros Hm. pose proof (host_moved_apart _ _ _ Hm) as Ha. destruct Hm as [[H1 H2] [v Hv] Hroom]. cbn.
  assert (∀ k s, moved_loc old new k = Some (new ++ s) → k = old ++ s) as Hk.
  { intros k s. unfold moved_loc. case_decide as Hp; [|done]. destruct Hp as [s' ->]. rewrite drop_app_length.
    by intros [= ->%(inj _)]. }
  assert (∀ k t, moved_loc old new k = Some t → new `prefix_of` t) as Ht.
  { intros k t. unfold moved_loc. case_decide; [|done]. intros [= <-]. by eexists. }
  destruct (decide (old `prefix_of` l)) as [Ho|Ho].
  - rewrite move_map_other.
    + rewrite decide_False; [done|]. unfold moved_loc. by rewrite decide_True.
    + intros k _ [s ->]%Ht. destruct (prefixes_comparable old new (new ++ s)); [done|by eexists|done..].
  - assert (moved_loc old new l = None) as Hl by (unfold moved_loc; by rewrite decide_False).
    destruct (decide (new `prefix_of` l)) as [[s ->]|Hn].
    + rewrite drop_app_length. destruct (hf_tree fs !! (old ++ s)) as [w|] eqn:Hw.
      * apply (move_map_target _ (λ _ _ n, n) _ (old ++ s) (new ++ s) w Ha Hw). unfold moved_loc.
        rewrite decide_True by by eexists. by rewrite drop_app_length.
      * rewrite move_map_other by (intros k [z Hz] ->%Hk; congruence). rewrite decide_True by done.
        destruct s as [|c s]; [rewrite app_nil_r in *; congruence|by apply Hroom].
    + rewrite move_map_other by (intros k _ ?%Ht; done). by rewrite decide_True.
Qed.

Lemma no_children fs l s : has_children l fs = false → s ≠ [] → hf_tree fs !! (l ++ s) = None.
Proof.
  intros Hc Hs. destruct (hf_tree fs !! (l ++ s)) as [n|] eqn:Hn; [|done]. exfalso.
  apply (f_equal negb) in Hc. unfold has_children in Hc. apply negb_true_iff, not_true_iff_false in Hc. apply Hc.
  apply existsb_exists. exists (l ++ s, n). split; [by apply list_elem_of_In, elem_of_map_to_list|].
  apply bool_decide_eq_true. cbn. split; [by eexists|]. intros E. apply Hs. by apply (app_inv_head l); rewrite app_nil_r.
Qed.

(** Below what is not a directory there is nothing. *)
Lemma nothing_below fs l s :
  tree_wf fs → (∀ i, node_at fs l ≠ Some (HDir i)) → s ≠ [] → hf_tree fs !! (l ++ s) = None.
Proof.
  intros Hwf Hl Hs. destruct (hf_tree fs !! (l ++ s)) as [n|] eqn:Hn; [|done]. exfalso.
  destruct (node_above fs l s n Hwf) as [i Hi]; [|done|by apply (Hl i)].
  apply tree_node_at; [|done]. by destruct l, s.
Qed.

(** What a rename that succeeds does, on paths without links. *)
Lemma host_rename_spec p q fs fs' u :
  tree_wf fs → plain_comps (comps p) → plain_comps (comps q) → clear_to fs (comps p) → clear_to fs (comps q) →
  host_rename p q fs = (Ok u, fs') →
  (comps p = comps q ∧ fs' = fs) ∨
  (movable fs (comps p) (comps q) ∧ fs' = move_tree (comps p) (comps q) fs ∧
   (∃ l c i, comps q = l ++ [c] ∧ node_at fs l = Some (HDir i)) ∧
   (∀ i, node_at fs (comps q) = Some (HFile i) → names_dir q = false)).
Proof.
  intros Hwf Hp Hq Cp Cq. unfold host_rename.
  destruct (walk fs false (comps p)) as [P|] eqn:Wp; [|done]. destruct (walk fs false (comps q)) as [Q|] eqn:Wq; [|done].
  pose proof (walk_direct _ _ _ _ Hp Cp Wp) as ->. pose proof (walk_direct _ _ _ _ Hq Cq Wq) as EQ. rewrite EQ in *.
  destruct (node_at fs (comps p)) as [n|] eqn:Hn; [|done].
  destruct ((names_dir p || names_dir q) && negb (is_hdir n)) eqn:Hd; [done|].
  case_decide as Hroot; [done|]. case_decide as Heq; [intros [= <- <-]; by left|].
  assert (is_Some (hf_tree fs !! comps p)) as Hthere by (destruct (node_at_tree _ _ _ Hn) as [?|?]; [tauto|by eexists]).
  assert ((∀ s, s ≠ [] → hf_tree fs !! (comps q ++ s) = None) → ¬ comps q `prefix_of` comps p) as Hback.
  { intros Hroom [s Es]. destruct s as [|c s]; [by rewrite app_nil_r in Es|].
    rewrite Es, Hroom in Hthere by done. by destruct Hthere. }
  assert ((∀ i, node_at fs (comps q) = Some (HFile i) → names_dir q = false) → ¬ comps p `prefix_of` comps q →
    (∀ s, s ≠ [] → hf_tree fs !! (comps q ++ s) = None) → move_tree (comps p) (comps q) fs = fs' →
    (comps p = comps q ∧ fs' = fs) ∨ (movable fs (comps p) (comps q) ∧ fs' = move_tree (comps p) (comps q) fs ∧
      (∃ l c i, comps q = l ++ [c] ∧ node_at fs l = Some (HDir i)) ∧
      (∀ i, node_at fs (comps q) = Some (HFile i) → names_dir q = false))) as Hdone.
  { intros Hf Hpre Hroom <-. right. split_and!; [|done| |done].
    2:{ destruct (namei_parent _ _ _ _ _ _ Hwf (ex_intro _ 0%N (node_nil fs)) Wq) as [[i Hi]|?]; [|done].
        destruct (comps q) as [|c l _] using rev_ind; [tauto|]. apply node_parent in Hi as [j Hj]; [|done]. by exists l, c, j. }
    split; [|done..]. split; [done|by apply Hback]. }
  destruct (is_hdir n) eqn:Hdir.
  - case_decide as Hpre; [done|].
    destruct (node_at fs (comps q)) as [[i|i|t]|] eqn:HQ; [done| |done|].
    + destruct (has_children (comps q) fs) eqn:Hch; [done|]. intros [= _ Efs]. apply Hdone; [done..| |done]. intros s. by apply no_children.
    + intros [= _ Efs]. apply Hdone; [done..| |done]. intros s. apply nothing_below; [done|]. intros i. by rewrite HQ.
  - assert (names_dir q = false) as Hnq by (destruct (names_dir p), (names_dir q); done).
    assert (¬ comps p `prefix_of` comps q) as Hpre.
    { intros [s Es]. destruct s as [|c s _] using rev_ind; [by rewrite app_nil_r in Es|].
      assert (∃ i, node_at fs (comps p) = Some (HDir i)) as [i Hi]; [|rewrite Hn in Hi; by injection Hi as ->].
      destruct (namei_parent _ _ _ _ _ _ Hwf (ex_intro _ 0%N (node_nil fs)) Wq) as [[i Hi]|(q' & d & i & Eq & Hi)].
      - rewrite Es in Hi. eapply node_above; [done..|by destruct s].
      - rewrite Eq, app_assoc in Es. apply app_inj_tail in Es as [-> _].
        destruct s as [|e s]; [rewrite app_nil_r in Hi; by eexists|]. by eapply node_above. }
    destruct (node_at fs (comps q)) as [[i|i|t]|] eqn:HQ; [| |by destruct (Cq (comps q) (reflexivity _) t)|]; [|done|].
    all: intros [= _ Efs]; apply Hdone; [done..| |done]; intros s; apply nothing_below; [done|]; intros j; by rewrite HQ.
Qed.

(** A move keeps a tree well-formed. *)
Lemma move_tree_wf fs old new l c i :
  tree_wf fs → movable fs old new → new = l ++ [c] → node_at fs l = Some (HDir i) → tree_wf (move_tree old new fs).
Proof.
  intros Hwf Hm Enew Hi. pose proof Hm as [[H1 H2] Hv _].
  assert (old ≠ []) as Hold by (intros ->; by apply H1, prefix_nil).
  assert (∀ y n, ¬ old `prefix_of` y → ¬ new `prefix_of` y → node_at fs y = Some n → node_at (move_tree old new fs) y = Some n)
    as Hkeep.
  { intros y n Ho Hn Hy. unfold node_at in *. case_decide; [done|]. by rewrite move_tree_lookup, !decide_False. }
  split.
  - rewrite move_tree_lookup by done. rewrite !decide_False; [apply Hwf|..].
    + intros ->%prefix_nil_inv. by destruct l.
    + by intros ->%prefix_nil_inv.
  - intros y d n. rewrite move_tree_lookup by done. case_decide as Ho; [done|]. case_decide as Hn.
    + destruct Hn as [s Es]. rewrite Es, drop_app_length. destruct s as [|e s _] using rev_ind.
      * rewrite app_nil_r in Es. intros _. rewrite Enew in Es. apply app_inj_tail in Es as [-> _]. exists i. apply Hkeep; [..|done].
        -- intros [s Es]. apply H1. rewrite Enew, Es, <-app_assoc. by eexists.
        -- rewrite Enew. intros [s Es]. apply (f_equal length) in Es. rewrite !length_app in Es. cbn in Es. lia.
      * rewrite app_assoc in Es. apply app_inj_tail in Es as [-> _]. rewrite app_assoc.
        intros [j Hj]%(tw_parent _ Hwf). exists j. apply node_at_tree in Hj as [E|Hj]; [by destruct old|].
        apply tree_node_at; [by rewrite Enew; destruct l|]. rewrite move_tree_lookup by done.
        rewrite decide_False, decide_True; [by rewrite drop_app_length|by eexists|].
        intros Hp. destruct (prefixes_comparable old new (new ++ s)); [done|by eexists|done..].
    + intros [j Hj]%(tw_parent _ Hwf). exists j. apply Hkeep; [..|done].
      * intros Hp. by apply Ho, prefix_app_r.
      * intros Hp. by apply Hn, prefix_app_r.
  - intros y j. rewrite move_tree_lookup by done. repeat case_decide; [done|..]; apply (tw_inode _ Hwf).
Qed.

(** Files at the same places, with the same bytes. *)
Definition same_files (fs fs' : HostFs) : Prop :=
  (∀ l i, hf_tree fs' !! l = Some (HFile i) ↔ hf_tree fs !! l = Some (HFile i)) ∧
  ∀ l i, hf_tree fs !! l = Some (HFile i) → bytes_of i fs' = bytes_of i fs.

Lemma grows_same_files fs fs' : tree_wf fs → grows fs fs' → same_files fs fs'.
Proof.
  intros Hwf [O N I X W]. split.
  - intros l i. split; [|apply O]. by intros [?|[j ?]]%N.
  - intros l i Hi. unfold bytes_of. rewrite I; [done|]. by eapply tw_inode.
Qed.

(** A move and the move back. *)
Lemma move_back_lookup fs old new l :
  movable fs old new →
  hf_tree (move_tree new old (move_tree old new fs)) !! l = if decide (l = new) then None else hf_tree fs !! l.
Proof.
  intros Hm. pose proof Hm as [[H1 H2] Hv Hroom].
  assert (movable (move_tree old new fs) new old) as Hm'.
  { split; [done| |].
    - rewrite move_tree_lookup, decide_False, decide_True by done. by rewrite drop_all, app_nil_r.
    - intros s Hs. rewrite move_tree_lookup by done. rewrite decide_True; [done|by eexists]. }
  rewrite move_tree_lookup by done. destruct (decide (new `prefix_of` l)) as [[s ->]|Hn].
  { destruct s as [|c s]; [by rewrite app_nil_r, decide_True|]. rewrite decide_False; [by rewrite Hroom|].
    intros E. apply (f_equal length) in E. rewrite length_app in E. cbn in E. lia. }
  rewrite (decide_False (P := l = new)) by (intros ->; by apply Hn).
  destruct (decide (old `prefix_of` l)) as [[s ->]|Ho].
  - rewrite drop_app_length, move_tree_lookup by done. rewrite decide_False, decide_True; [|by eexists|].
    + by rewrite drop_app_length.
    + intros Hp. destruct (prefixes_comparable old new (new ++ s)); [done|by eexists|done..].
  - by rewrite move_tree_lookup, !decide_False by done.
Qed.

(** Taking an empty place away keeps a tree well-formed. *)
Lemma tree_wf_without fs fs' new :
  tree_wf fs → (∀ s, s ≠ [] → hf_tree fs !! (new ++ s) = None) → hf_next fs' = hf_next fs →
  (∀ l, hf_tree fs' !! l = if decide (l = new) then None else hf_tree fs !! l) → tree_wf fs'.
Proof.
  intros Hwf Hroom Hx Hl. split.
  - rewrite Hl. case_decide; [done|]. apply Hwf.
  - intros l c n. rewrite Hl. case_decide; [done|]. intros Hn. pose proof (tw_parent _ Hwf _ _ _ Hn) as [i Hi].
    exists i. unfold node_at in *. case_decide; [done|]. rewrite Hl, decide_False; [done|].
    intros ->. by rewrite Hroom in Hn.
  - intros l i. rewrite Hl, Hx. case_decide; [done|]. by apply Hwf.
Qed.
