(* ===== verification/LocalBackends.v ===== *)
(** * Local backends

    src/rust/backends/src/storage: [PathLocalBackend] (path_local.rs) and
    [LocalConnectorBackend] (local_connector.rs), which keep the bytes of a file at
    its path below a root on the host, and the path of the remote backend
    (mount_path.rs).  Syncing to disk is left out; BLAKE3 is a parameter. *)

From S2P Require Import Prelude Bytes Table Codec MetaStore KernelTypes HostFs.

Inductive LocalBackend :=
  | PathLocalBackend (root_path : string)
  | LocalConnectorBackend (root_path : string) (follow_symlinks : bool).

Definition root_path (b : LocalBackend) : string :=
  match b with PathLocalBackend r | LocalConnectorBackend r _ => r end.

(** How the backend calls itself in its errors. *)
Definition type_name (b : LocalBackend) : string :=
  match b with PathLocalBackend _ => "PathLocalBackend" | LocalConnectorBackend _ _ => "LocalConnectorBackend" end.

Definition content_id_name (b : LocalBackend) : string :=
  match b with PathLocalBackend _ => " (blob path)" | LocalConnectorBackend _ _ => " (backend_path)" end.

Definition refused (text path : string) : StorageError := StIOError (mkIoError KindOther (text +:+ path)).

(** What a connector that follows links takes a path for: the path itself when it
    is there, else the path below its parent, else the path as written. *)
Definition follow_links (physical : string) (fs : HostFs) : string :=
  match canonicalize physical fs with
  | Ok p => p
  | Err _ =>
      match path_parent physical with
      | Some parent =>
          match canonicalize (path_of parent) fs with
          | Ok p => path_join p (file_name physical)
          | Err _ => physical
          end
      | None => physical
      end
  end.

Definition resolve_path (b : LocalBackend) (virtual_path : string) (fs : HostFs) : result StorageError string :=
  let clean := trim_start "/" virtual_path in
  if has_substring ".." clean then Err (refused "path traversal detected: " virtual_path)
  else
    let physical := path_join (root_path b) clean in
    match b with
    | PathLocalBackend _ => Ok physical
    | LocalConnectorBackend root follow_symlinks =>
        let resolved := if follow_symlinks then follow_links physical fs else physical in
        if path_starts_with resolved root then Ok resolved
        else Err (refused "path escapes mount root: " virtual_path)
    end.

(** ** Effects *)

Definition St (A : Type) : Type := HostFs → result StorageError A * HostFs.

#[global] Instance St_ret : MRet St := λ A a fs, (Ok a, fs).
#[global] Instance St_bind : MBind St := λ A B f m fs,
  match m fs with (Ok a, fs) => f a fs | (Err e, fs) => (Err e, fs) end.

Definition st_of {A} (f : HostFs → result StorageError A) : St A := λ fs, (f fs, fs).

(** [.map_err(StorageError::IOError)] *)
Definition io {A} (m : Io A) : St A := λ fs,
  match m fs with (Ok a, fs) => (Ok a, fs) | (Err e, fs) => (Err (StIOError e), fs) end.

(** An entry that is not there is [NotFound] of the path asked for. *)
Definition or_not_found {A} (path : string) (r : result IoError A) : result StorageError A :=
  match r with
  | Ok a => Ok a
  | Err e => if decide (io_kind e = KindNotFound) then Err (StNotFound path) else Err (StIOError e)
  end.

Definition io_or_not_found {A} (path : string) (m : Io A) : St A := λ fs,
  let '(r, fs) := m fs in (or_not_found path r, fs).

Definition make_parent (path : string) : St () :=
  match path_parent path with Some l => io (create_dir_all l) | None => mret () end.

Definition FILE_MAX : N := 9223372036854775807.

(** [File::set_len] *)
Definition set_len (i n : N) : Io () :=
  if (FILE_MAX <? n)%N then io_fail io_too_large
  else io_update (λ fs, let old := bytes_of i fs in
                        set_bytes i (stake (N.to_nat n) old +:+ zeros (N.to_nat (n - slen old))) fs).

(** [File::seek] and [File::write_all] *)
Definition write_at (i off : N) (x : string) : Io () :=
  if (FILE_MAX <? off)%N then io_fail io_invalid
  else io_update (λ fs, set_bytes i (splice off x (bytes_of i fs)) fs).

Section backends.
Context (hash_content : string → string).

(** ** [ObjectStore] *)

Definition local_write_content (b : LocalBackend) (content content_id : string) (offset : N) : St WriteResult :=
  if decide (content_id = "") then st_of (λ _, Err (refused (type_name b +:+ " requires content_id") (content_id_name b)))
  else
    file_path ← st_of (resolve_path b content_id);
    _ ← make_parent file_path;
    if (offset =? 0)%N then
      _ ← io (host_write file_path content);
      mret (mkStored content_id (hash_content content) (slen content))
    else
      f ← io (open_create file_path);
      cur_len ← st_of (λ fs, Ok (slen (bytes_of f fs)));
      let new_len := N.max cur_len (wrap64 (offset + slen content)) in
      _ ← (if (cur_len <? new_len)%N then io (set_len f new_len) else mret ());
      _ ← io (write_at f offset content);
      final_bytes ← io (io_reads (host_read file_path));
      mret (mkStored content_id (hash_content final_bytes) (slen final_bytes)).

Definition local_read_content (b : LocalBackend) (content_id : string) (fs : HostFs) : result StorageError string :=
  if decide (content_id = "") then Err (refused (type_name b) " requires content_id")
  else file_path ← resolve_path b content_id fs; or_not_found content_id (host_read file_path fs).

Definition local_get_content_size (b : LocalBackend) (content_id : string) (fs : HostFs) : result StorageError N :=
  match b with
  | PathLocalBackend _ =>
      path ← resolve_path b content_id fs;
      m ← or_not_found content_id (host_metadata path fs);
      Ok (hm_len m)
  | LocalConnectorBackend _ _ => Err (StNotSupported "get_content_size")
  end.

Definition local_mkdir (b : LocalBackend) (path : string) (parents : bool) : St () :=
  dir_path ← st_of (resolve_path b path);
  io (if parents then create_dir_all (comps dir_path) else create_dir (comps dir_path)).

Definition local_rmdir (b : LocalBackend) (path : string) (recursive : bool) : St () :=
  dir_path ← st_of (resolve_path b path);
  io (if recursive then remove_dir_all (comps dir_path) else remove_dir (comps dir_path)).

Definition local_delete_file (b : LocalBackend) (path : string) : St () :=
  file_path ← st_of (resolve_path b path);
  io_or_not_found path (host_remove_file file_path).

Definition local_rename (b : LocalBackend) (old_path new_path : string) : St () :=
  old ← st_of (resolve_path b old_path);
  new ← st_of (resolve_path b new_path);
  _ ← make_parent new;
  io (host_rename old new).

Definition local_copy_file (b : LocalBackend) (src_path dst_path : string) : St WriteResult :=
  src ← st_of (resolve_path b src_path);
  dst ← st_of (resolve_path b dst_path);
  _ ← make_parent dst;
  size ← io (host_copy src dst);
  content ← io (io_reads (host_read dst));
  mret (mkStored dst_path (hash_content content) size).

(** The root for the empty path. *)
Definition target_of (b : LocalBackend) (path : string) (fs : HostFs) : result StorageError string :=
  if decide (path = "") then Ok (root_path b) else resolve_path b path fs.

Definition local_stat (b : LocalBackend) (path : string) (fs : HostFs) : result StorageError BackendStat :=
  target ← target_of b path fs;
  md ← or_not_found path (host_metadata target fs);
  Ok (mkBackendStat (if hm_is_dir md then 0 else hm_len md) (hm_is_dir md)).

Definition local_list_dir (b : LocalBackend) (path : string) (fs : HostFs) : result StorageError (list string) :=
  dir_path ← target_of b path fs;
  rd ← or_not_found path (host_read_dir dir_path fs);
  Ok (merge_sort String.le ((λ x : string * bool, if x.2 then x.1 +:+ "/" else x.1) <$> rd)).

Definition local_resolve_physical_path (b : LocalBackend) (content_id : string) (fs : HostFs) : option string :=
  match resolve_path b content_id fs with Ok p => Some p | Err _ => None end.

(** The trait's own [set_file_mode]: not through a link, and not outside the root. *)
Definition local_set_file_mode (b : LocalBackend) (path : string) (mode : N) : St () := λ fs,
  match local_resolve_physical_path b path fs, local_resolve_physical_path b "" fs with
  | Some physical, Some root =>
      match canonicalize root fs, find_node false physical fs, canonicalize physical fs with
      | Ok root, Ok n, Ok resolved =>
          if match n with HLink _ => true | _ => false end || negb (path_starts_with resolved root)
          then (Err (refused "native permissions require a file within the backend root" ""), fs)
          else match n with
               | HFile i | HDir i => (Ok (), set_mode i mode fs)
               | HLink _ => (Ok (), fs)
               end
      | Err e, _, _ | _, Err e, _ | _, _, Err e => (Err (StIOError e), fs)
      end
  | _, _ => (Err (StNotSupported "set_file_mode"), fs)
  end.
End backends.

(** The local backends of a node, by number. *)
Class LocalMounts := { blake3_hash : string → string; backend_named : N → option LocalBackend }.

Section instance.
Context `{!LocalMounts}.

Definition at_backend {A} (b : N) (f : LocalBackend → HostFs → result StorageError A) (fs : HostFs) : result StorageError A :=
  match backend_named b with Some x => f x fs | None => Err (StNotSupported "") end.

Definition on_backend {A} (b : N) (f : LocalBackend → St A) : St A := λ fs,
  match backend_named b with Some x => f x fs | None => (Err (StNotSupported ""), fs) end.

#[global] Instance local_object_stores : ObjectStores HostFs := {|
  os_write_content b x cid _ off := on_backend b (λ l, local_write_content blake3_hash l x cid off);
  os_read_content b cid _ := at_backend b (λ l, local_read_content l cid);
  os_get_content_size b cid := at_backend b (λ l, local_get_content_size l cid);
  os_mkdir b p parents _ := on_backend b (λ l, local_mkdir l p parents);
  os_rmdir b p recursive := on_backend b (λ l, local_rmdir l p recursive);
  os_delete_file b p := on_backend b (λ l, local_delete_file l p);
  os_rename b p q := on_backend b (λ l, local_rename l p q);
  os_copy_file b p q := on_backend b (λ l, local_copy_file blake3_hash l p q);
  os_list_dir b p := at_backend b (λ l, local_list_dir l p);
  os_stat b p := at_backend b (λ l, local_stat l p);
  os_resolve_physical_path b cid fs := l ← backend_named b; local_resolve_physical_path l cid fs;
  os_set_file_mode b p mode := on_backend b (λ l, local_set_file_mode l p mode);
  fs_metadata := host_metadata;
  fs_open := host_open;
  fs_pread := host_pread |}.
End instance.

(** ** The path of a remote backend *)

(** [s.trim_matches('/')] *)
Definition trim_slashes (s : string) : string := trim_end "/" (trim_start "/" s).

Definition to_mount_path (mount_root backend_path : string) : string :=
  let bp := if decide (backend_path = "" ∨ backend_path = "/") then ""
            else if starts_with "/" backend_path then backend_path
            else "/" +:+ backend_path in
  if decide (mount_root = "" ∨ mount_root = "/") then if decide (bp = "") then "/" else bp
  else
    let root := trim_slashes mount_root in
    let rel := trim_start "/" bp in
    if bool_decide (rel = root) || starts_with (root +:+ "/") rel then "/" +:+ rel
    else "/" +:+ root +:+ bp.
