(* ===== verification/BackendProofs.v ===== *)
(** * The local backends keep their promises

    What a local backend stored it gives back, and a rename that fails or is taken
    back leaves every file: the laws the system calls ask of an object store, for
    backends that do not resolve links themselves; and the chunked reads and writes of
    their files. *)

From S2P Require Import Prelude Bytes Codec Table LockState Rename IoLocks IoLockProofs Router Pipe PipeManager StreamBuf StreamManager MetaStore LocalStore LocalStoreProofs KernelTypes Dispatch Kernel KernelFiles KernelNames KernelList KernelLockProofs KernelReleases KernelWorld KernelRename KernelRoundtrip HostFs HostFsProofs LocalBackends.


(** The place of a path below the root. *)
Definition loc (b : LocalBackend) (p : string) : list string := comps (root_path b) ++ comps (trim_start "/" p).

Definition physical (b : LocalBackend) (p : string) : string := path_join (root_path b) (trim_start "/" p).

(** A backend that takes a path for the one below its root. *)
Definition static (b : LocalBackend) : Prop :=
  match b with PathLocalBackend _ => True | LocalConnectorBackend _ follow_symlinks => follow_symlinks = false end.

Lemma comps_physical b p : comps (physical b p) = loc b p.
Proof. apply comps_join. Qed.

Lemma resolve_static b p fs :
  static b → resolve_path b p fs =
    if has_substring ".." (trim_start "/" p) then Err (refused "path traversal detected: " p) else Ok (physical b p).
Proof.
  unfold resolve_path. destruct (has_substring _ _); [done|]. destruct b as [r|r f]; [done|]. cbn [static root_path]. intros ->.
  unfold path_starts_with. rewrite bool_decide_true; [done|]. rewrite comps_join. by eexists.
Qed.

(** ** A write is read back *)

Section bytes.
Context (hash_content : string → string).

Lemma local_write_spec b x cid fs wr fs' :
  static b → local_write_content hash_content b x cid 0 fs = (Ok wr, fs') →
  cid ≠ "" ∧ wr_content_id wr = cid ∧ wr_size wr = slen x ∧ resolve_path b cid fs' = Ok (physical b cid) ∧
  ∃ i m t, find_node true (physical b cid) fs' = Ok (HFile i) ∧ hf_inodes fs' !! i = Some (mkInode false x m t).
Proof.
  intros Hb. unfold local_write_content. case_decide; [done|]. unfold st_of, mbind, St_bind, mret, St_ret.
  rewrite !resolve_static by done. destruct (has_substring _ _); [done|].
  destruct (make_parent _ fs) as [[u|e] fs1]; [|done]. unfold io. change (0 =? 0)%N with true. cbv beta iota.
  destruct (host_write (physical b cid) x fs1) as [[v|e] fs2] eqn:Hw; [|done]. intros [= <- <-]. split_and!; [done..|].
  by eapply host_write_spec.
Qed.
End bytes.

Section laws.
Context {LM : LocalMounts}.
Hypothesis all_static : ∀ n b, backend_named n = Some b → static b.

Theorem local_bytes_laws : BytesLaws (W := HostFs) (λ _, True).
Proof.
  assert (∀ n x cid ctx (w : HostFs) wr w', os_write_content n x cid ctx 0 w = (Ok wr, w') →
    ∃ b, backend_named n = Some b ∧ static b ∧ local_write_content blake3_hash b x cid 0 w = (Ok wr, w')) as Hw.
  { intros n x cid ctx w wr w'. cbn. unfold on_backend. destruct (backend_named n) as [b|] eqn:Hb; [|done].
    intros E. exists b. split_and!; [done|by eapply all_static|done]. }
  split.
  - intros n x cid ctx w wr w' _ (b & Hb & Hs & E)%Hw.
    apply local_write_spec in E as (Hne & -> & -> & Hr & i & m & t & Hf & Hi); [|done]. split_and!; [done..|].
    intros ctx'. cbn. unfold at_backend. rewrite Hb. unfold local_read_content. rewrite decide_False, Hr by done.
    cbn [mbind result_bind]. unfold host_read. rewrite Hf. cbn. unfold bytes_of. by rewrite Hi.
  - intros n x cid ctx w wr w' _ (b & Hb & Hs & E)%Hw. apply local_write_spec in E as (_ & -> & _ & _ & _); [|done].
    cbn. rewrite Hb. cbn. unfold local_resolve_physical_path. by rewrite !resolve_static.
  - intros n x cid ctx w wr w' h k _ (b & Hb & Hs & E)%Hw.
    apply local_write_spec in E as (_ & -> & _ & Hr & i & m & t & Hf & Hi); [|done].
    cbn. rewrite Hb. cbn. unfold local_resolve_physical_path. rewrite Hr. intros [= Eh].
    unfold current_size. cbn [fs_metadata local_object_stores]. rewrite <-Eh. unfold host_metadata. rewrite Hf. cbn.
    case_decide as Hfile; [|done]. intros [= <-]. unfold bytes_of. rewrite Hi. cbn.
    unfold host_pread. rewrite <-Hfile. cbn. rewrite Hi. cbn. destruct (N.eqb_spec (slen x) 0) as [Hz|Hz].
    + unfold slen in Hz. by destruct x.
    + left. unfold slen. rewrite Nat2N.id. rewrite <-(sapp_nil_r x) at 2. by rewrite stake_app.
Qed.

(** ** Roots without links *)

(** No link leads to the root or lies below it. *)
Definition rooted (fs : HostFs) (b : LocalBackend) : Prop :=
  plain_comps (comps (root_path b)) ∧
  ∀ q, q `prefix_of` comps (root_path b) ∨ comps (root_path b) `prefix_of` q → no_link fs q.

Definition sound_tree (fs : HostFs) : Prop := tree_wf fs ∧ ∀ n b, backend_named n = Some b → rooted fs b.

Lemma loc_plain fs b p : rooted fs b → has_substring ".." (trim_start "/" p) = false → plain_comps (loc b p).
Proof.
  intros [Hr _] Hp. apply Forall_app. split; [done|]. apply Forall_forall. intros c Hc.
  split; [by apply comps_plain in Hc as [_ ?]|]. intros ->. by apply comps_no_dots in Hp.
Qed.

Lemma loc_clear fs b p : rooted fs b → clear_to fs (loc b p).
Proof.
  intros [_ Hl] q Hq. apply Hl. destruct (prefixes_comparable q (comps (root_path b)) (loc b p)); auto. by eexists.
Qed.

(** Which reads succeed. *)
Lemma read_iff fs b cid x :
  static b → tree_wf fs → rooted fs b →
  local_read_content b cid fs = Ok x ↔
  cid ≠ "" ∧ has_substring ".." (trim_start "/" cid) = false ∧ names_dir (physical b cid) = false ∧
  ∃ i, hf_tree fs !! loc b cid = Some (HFile i) ∧ x = bytes_of i fs.
Proof.
  intros Hs Hwf Hr. unfold local_read_content. case_decide; [split; [done|by intros (? & _)]|].
  rewrite resolve_static by done. destruct (has_substring _ _) eqn:Hd; [split; [done|by intros (_ & ? & _)]|].
  cbn [mbind result_bind]. unfold host_read, find_node. rewrite comps_physical.
  pose proof (loc_plain _ _ _ Hr Hd) as Hp. pose proof (loc_clear _ _ cid Hr) as Hc. split.
  - destruct (walk fs true (loc b cid)) as [l|e] eqn:Hw; cbn [mbind result_bind]; [|unfold or_not_found; by case_decide].
    apply walk_direct in Hw as ->; [|done..].
    destruct (node_at fs (loc b cid)) as [n|] eqn:Hn; [|done].
    destruct (names_dir _); [by destruct n|]. cbn [andb mbind result_bind].
    destruct n as [i|i|t]; [|done..]. intros [= <-]. split_and!; [done..|]. exists i. split; [|done].
    by destruct (node_at_tree _ _ _ Hn) as [El|?]; [rewrite El in Hn|].
  - intros (_ & _ & Hnd & i & Hi & ->). assert (node_at fs (loc b cid) = Some (HFile i)) as Hn.
    { unfold node_at. case_decide as El; [|done]. rewrite El, (tw_root _ Hwf) in Hi. done. }
    rewrite (walk_reaches _ _ _ _ Hwf Hp (Hc _ (reflexivity _)) Hn). cbn [mbind result_bind]. by rewrite Hn, Hnd.
Qed.

Lemma same_files_read fs fs' :
  sound_tree fs → sound_tree fs' → same_files fs fs' → same_bytes (W := HostFs) fs fs'.
Proof.
  intros [Hwf Hr] [Hwf' Hr'] [Hf Hb] n cid ctx x. cbn. unfold at_backend. destruct (backend_named n) as [b|] eqn:Hn; [|done].
  rewrite !read_iff by eauto. split; intros (? & ? & ? & i & Hi & ->); (split_and!; [done..|]).
  - apply Hf in Hi. exists i. split; [done|]. by eapply Hb.
  - exists i. split; [by apply Hf|]. symmetry. by eapply Hb.
Qed.

(** No new links. *)
Lemma sound_within fs fs' :
  sound_tree fs → tree_wf fs' → (∀ l t, hf_tree fs' !! l = Some (HLink t) → hf_tree fs !! l = Some (HLink t)) → sound_tree fs'.
Proof.
  intros [_ Hr] Hwf Hl. split; [done|]. intros n b Hb. destruct (Hr n b Hb) as [Hp Hc]. split; [done|].
  intros q Hq t. unfold node_at. case_decide; [done|]. intros Ht%Hl. apply (Hc q Hq t). unfold node_at. by rewrite decide_False.
Qed.

Lemma grows_sound fs fs' : sound_tree fs → grows fs fs' → sound_tree fs'.
Proof.
  intros Hs [O N I X W]. apply (sound_within fs); [done|by apply W, Hs|]. by intros l t [?|[i [=]]]%N.
Qed.

Lemma make_parent_grows p fs : grows fs (make_parent p fs).2.
Proof.
  unfold make_parent. destruct (path_parent p) as [l|]; [|apply grows_refl]. unfold io.
  pose proof (create_dir_all_grows l fs). by destruct (create_dir_all l fs) as [[]].
Qed.

Lemma host_rename_err p q fs e fs' : host_rename p q fs = (Err e, fs') → fs' = fs.
Proof. unfold host_rename. repeat case_match; intros; by simplify_eq. Qed.

Lemma local_rename_err b p q fs e fs' : local_rename b p q fs = (Err e, fs') → grows fs fs'.
Proof.
  unfold local_rename, st_of, mbind, St_bind, io. destruct (resolve_path b p fs); [|intros [= _ <-]; apply grows_refl].
  destruct (resolve_path b q fs) as [new|]; [|intros [= _ <-]; apply grows_refl].
  pose proof (make_parent_grows new fs) as Hg. destruct (make_parent new fs) as [[u|?] fs1]; cbn in Hg; [|by intros [= _ <-]].
  destruct (host_rename _ _ fs1) as [[v|?] fs2] eqn:Hr; [done|]. apply host_rename_err in Hr as ->. by intros [= _ <-].
Qed.

Lemma path_parent_snoc p l c : comps p = l ++ [c] → path_parent p = Some l.
Proof. unfold path_parent. intros ->. by rewrite reverse_snoc, reverse_involutive. Qed.

(** What a rename that succeeds does. *)
Lemma local_rename_ok b p q fs u fs' :
  static b → sound_tree fs → rooted fs b → local_rename b p q fs = (Ok u, fs') →
  has_substring ".." (trim_start "/" p) = false ∧ has_substring ".." (trim_start "/" q) = false ∧
  ∃ fs1, make_parent (physical b q) fs = (Ok (), fs1) ∧
    ((loc b p = loc b q ∧ fs' = fs1) ∨
     (movable fs1 (loc b p) (loc b q) ∧ fs' = move_tree (loc b p) (loc b q) fs1 ∧
      (∃ l c i, loc b q = l ++ [c] ∧ node_at fs1 l = Some (HDir i)) ∧
      (∀ i, node_at fs1 (loc b q) = Some (HFile i) → names_dir (physical b q) = false))).
Proof.
  intros Hs Hfs Hr. unfold local_rename, st_of, mbind, St_bind, io. rewrite !resolve_static by done.
  destruct (has_substring ".." (trim_start "/" p)) eqn:Hp; [done|].
  destruct (has_substring ".." (trim_start "/" q)) eqn:Hq; [done|].
  pose proof (make_parent_grows (physical b q) fs) as Hg.
  destruct (make_parent (physical b q) fs) as [[[]|?] fs1] eqn:Hm; [|done]. cbn [snd] in Hg.
  assert (rooted fs1 b) as Hr1.
  { destruct Hr as [Hpl Hc]. split; [done|]. intros y Hy t. unfold node_at. case_decide; [done|].
    intros [Ht|[? ?]]%(gr_new _ _ Hg); [|done]. apply (Hc y Hy t). by apply tree_node_at. }
  destruct (host_rename _ _ fs1) as [[v|?] fs2] eqn:Hren; [|done]. intros [= <- <-]. split_and!; [done..|]. exists fs1.
  split; [done|]. rewrite <-!comps_physical.
  eapply host_rename_spec; [by apply (gr_wf _ _ Hg), Hfs|..|done]; rewrite comps_physical;
    [by eapply loc_plain|by eapply loc_plain|by apply loc_clear|by apply loc_clear].
Qed.

(** A subtree moved within a root brings no links. *)
Lemma move_sound b p q fs l c i :
  sound_tree fs → rooted fs b → movable fs (loc b p) (loc b q) → loc b q = l ++ [c] → node_at fs l = Some (HDir i) →
  sound_tree (move_tree (loc b p) (loc b q) fs).
Proof.
  intros Hs Hr Hm El Hi. apply (sound_within fs); [done|by eapply move_tree_wf; [apply Hs|..]|].
  intros y t. rewrite move_tree_lookup by done. case_decide; [done|]. case_decide; [|done]. intros Ht. exfalso.
  apply (proj2 Hr (loc b p ++ drop (length (loc b q)) y)) with t; [right; unfold loc; rewrite <-app_assoc; by eexists|].
  apply tree_node_at; [|done]. intros E. rewrite E, (tw_root _ (proj1 Hs)) in Ht. done.
Qed.

Lemma same_files_trans fs1 fs2 fs3 : same_files fs1 fs2 → same_files fs2 fs3 → same_files fs1 fs3.
Proof.
  intros [F1 B1] [F2 B2]. split.
  - intros l i. by rewrite F2, F1.
  - intros l i Hi. rewrite (B2 l i) by by apply F1. by eapply B1.
Qed.

(** Nothing readable at the destination: there is no file. *)
Lemma unreadable_no_file b p q fs fs1 i :
  static b → sound_tree fs → rooted fs b → has_substring ".." (trim_start "/" q) = false → grows fs fs1 →
  (∃ e, local_read_content b q fs = Err e) → movable fs1 (loc b p) (loc b q) →
  (∀ j, node_at fs1 (loc b q) = Some (HFile j) → names_dir (physical b q) = false) →
  hf_tree fs1 !! loc b q ≠ Some (HFile i).
Proof.
  intros Hs Hfs Hr Hq Hg [e He] Hm Hnd Hi.
  assert (hf_tree fs !! loc b q = Some (HFile i)) as Hi0 by (by destruct (gr_new _ _ Hg _ _ Hi) as [?|[? ?]]).
  assert (loc b q ≠ []) as Hne by (intros E; rewrite E, (tw_root _ (proj1 Hfs)) in Hi0; done).
  assert (q ≠ "") as Hq0.
  { intros ->. apply (proj2 (mv_apart _ _ _ Hm)). unfold loc. cbn. rewrite app_nil_r. by eexists. }
  assert (local_read_content b q fs = Ok (bytes_of i fs)) as Hread; [|congruence].
  apply read_iff; [done|apply Hfs|done|]. split_and!; [done..| |by exists i].
  apply (Hnd i). by apply tree_node_at.
Qed.

(** The directory a subtree was moved out of is still there. *)
Lemma parent_stays b p q fs :
  sound_tree fs → rooted fs b → has_substring ".." (trim_start "/" p) = false → movable fs (loc b p) (loc b q) →
  sound_tree (move_tree (loc b p) (loc b q) fs) →
  make_parent (physical b p) (move_tree (loc b p) (loc b q) fs) = (Ok (), move_tree (loc b p) (loc b q) fs).
Proof.
  intros Hfs Hr Hp Hmv Hfs2. pose proof Hmv as [[H1 H2] [v Hv] _].
  assert (∃ l c, loc b p = l ++ [c]) as (l & c & El).
  { destruct (loc b p) as [|c l _] using rev_ind; [by rewrite (tw_root _ (proj1 Hfs)) in Hv|by eauto]. }
  pose proof (comps_physical b p) as Ep. rewrite El in Ep, Hmv, Hfs2, H1, H2, Hv |- *.
  pose proof (tw_parent _ (proj1 Hfs) _ _ _ Hv) as [i Hi].
  unfold make_parent. rewrite (path_parent_snoc _ l c) by done. unfold io.
  rewrite (create_dir_all_present l _ i); [done|apply Hfs2| |].
  - pose proof (loc_plain _ _ _ Hr Hp) as Hpl. rewrite El in Hpl. by apply Forall_app in Hpl as [? _].
  - unfold node_at in *. case_decide; [done|]. rewrite move_tree_lookup, !decide_False; [done|..|done].
    + intros Hq. by apply H2, prefix_app_r.
    + intros [s Es]. apply (f_equal length) in Es. rewrite !length_app in Es. cbn in Es. lia.
Qed.

(** A rename to a free name, taken back. *)
Lemma local_move_back n b p q fs u u' fs' fs'' :
  backend_named n = Some b → sound_tree fs → (∃ e, local_read_content b q fs = Err e) →
  local_rename b p q fs = (Ok u, fs') → local_rename b q p fs' = (Ok u', fs'') →
  sound_tree fs'' ∧ same_files fs fs''.
Proof.
  intros Hn Hfs Hfree E1 E2. pose proof (all_static _ _ Hn) as Hs. assert (rooted fs b) as Hr by by eapply Hfs.
  apply local_rename_ok in E1 as (Hp & Hq & fs1 & Hm1 & E1); [|done..].
  assert (grows fs fs1) as Hg1 by (pose proof (make_parent_grows (physical b q) fs) as Hg; by rewrite Hm1 in Hg).
  pose proof (grows_sound _ _ Hfs Hg1) as Hfs1. assert (same_files fs fs1) as Hsf1 by (apply grows_same_files; [apply Hfs|done]).
  assert (rooted fs1 b) as Hr1 by by eapply Hfs1.
  destruct E1 as [[Eq ->]|(Hmv & -> & (l & c & i & El & Hi) & Hnd)].
  - apply local_rename_ok in E2 as (_ & _ & fs2 & Hm2 & E2); [|done..].
    assert (grows fs1 fs2) as Hg2 by (pose proof (make_parent_grows (physical b p) fs1) as Hg; by rewrite Hm2 in Hg).
    destruct E2 as [[_ ->]|(Hmv & _)]; [|by destruct (proj1 (mv_apart _ _ _ Hmv)); rewrite Eq].
    split; [by eapply grows_sound|]. eapply same_files_trans; [done|]. apply grows_same_files; [apply Hfs1|done].
  - pose proof (move_sound b p q fs1 l c i Hfs1 Hr1 Hmv El Hi) as Hfs2.
    apply local_rename_ok in E2 as (_ & _ & fs2 & Hm2 & E2); [|done|done|by eapply Hfs2].
    rewrite parent_stays in Hm2 by done. injection Hm2 as <-.
    destruct E2 as [[Eq _]|(_ & -> & _)]; [by destruct (proj1 (mv_apart _ _ _ Hmv)); rewrite Eq|].
    pose proof (move_back_lookup fs1 (loc b p) (loc b q)) as Hl.
    assert (∀ j, hf_tree fs1 !! loc b q ≠ Some (HFile j)) as Hno by (intros j; by apply (unreadable_no_file b p q fs)).
    split.
    + apply (sound_within fs1); [done| |].
      * eapply (tree_wf_without fs1 _ (loc b q)); [apply Hfs1|apply Hmv|done|]. intros y. by apply Hl.
      * intros y t. rewrite Hl by done. by case_decide.
    + eapply same_files_trans; [done|]. split; [|done]. intros y j. rewrite Hl by done. case_decide as Ey; [|done].
      subst y. split; [done|]. by intros ?%Hno.
Qed.

Theorem local_rename_laws {S} `{!KernelStore S} {V} (view : S → V) :
  (∀ p s r s', ms_get p s = Some (r, s') → view s' = view s) →
  (∀ p s r s', ms_list p s = Some (r, s') → view s' = view s) →
  (∀ p q pas s e s', ks_rename_path p q pas s = Some (Err e, s') → view s' = view s) →
  RenameLaws view sound_tree.
Proof.
  intros Hget Hlist Hren. split; [done..| |].
  - intros n p q w e w' Hw. cbn. unfold on_backend. destruct (backend_named n) as [b|] eqn:Hn; [|by intros [= _ <-]].
    intros Hg%local_rename_err. apply same_files_read; [done|by eapply grows_sound|]. apply grows_same_files; [apply Hw|done].
  - intros n p q w w1 w2 Hw Hfree. cbn. unfold on_backend. destruct (backend_named n) as [b|] eqn:Hn; [|done].
    intros E1 E2. destruct (Hfree (context_new "" "" false None false)) as [e He]. cbn in He. unfold at_backend in He. rewrite Hn in He.
    destruct (local_move_back n b p q w () () w1 w2) as [Hs Hf]; [done|done|by eexists|done|done|]. by apply same_files_read.
Qed.
End laws.

(** ** Files of a local backend in chunks

    src/rust/backends/src/storage/path_local.rs: [PathAddressingEngine] of
    [PathLocalBackend], with the reader that gives a file in chunks. *)

(** ** The engine *)

(** An open file, where its next read starts, and the size of the buffer. *)
Record ChunkedReader := mkReader { cr_file : N; cr_is_dir : bool; cr_pos : N; cr_chunk : N }.

(** [Iterator::next]: a read of a regular file fills the buffer as far as the bytes
    reach; a directory can be opened, but not read. *)
Definition reader_next (r : ChunkedReader) (fs : HostFs) : option (result StorageError string) * ChunkedReader :=
  if cr_is_dir r then (Some (Err (StIOError io_is_a_dir)), r)
  else
    let buf := stake (N.to_nat (cr_chunk r)) (sdrop (N.to_nat (cr_pos r)) (bytes_of (cr_file r) fs)) in
    if decide (buf = "") then (None, r)
    else (Some (Ok buf), mkReader (cr_file r) false (cr_pos r + slen buf) (cr_chunk r)).

Definition stream_file (b : LocalBackend) (path : string) (chunk_size : N) (fs : HostFs) : result StorageError ChunkedReader :=
  file_path ← resolve_path b path fs;
  n ← or_not_found path (find_node true file_path fs);
  match n with
  | HFile i => Ok (mkReader i false 0 (N.max chunk_size 1))
  | HDir i => Ok (mkReader i true 0 (N.max chunk_size 1))
  | HLink _ => Err (StIOError io_loop)
  end.

Definition stream_content (b : LocalBackend) (content_id backend_path : string) (chunk_size : N) : HostFs → result StorageError ChunkedReader :=
  stream_file b backend_path chunk_size.

(** [write_all] at the end of what was written before. *)
Fixpoint write_chunks (i : N) (chunks : list (result StorageError string)) : St () :=
  match chunks with
  | [] => mret ()
  | Ok bytes :: chunks => _ ← io (io_update (λ fs, set_bytes i (bytes_of i fs +:+ bytes) fs)); write_chunks i chunks
  | Err e :: _ => st_of (λ _, Err e)
  end.

Definition write_file_chunked (b : LocalBackend) (path : string) (chunks : list (result StorageError string)) :
    St (option string) :=
  file_path ← st_of (resolve_path b path);
  _ ← make_parent file_path;
  f ← io (open_create file_path);
  _ ← io (io_update (set_bytes f ""));
  _ ← write_chunks f chunks;
  mret None.

Definition get_size_by_path (b : LocalBackend) (backend_path : string) (fs : HostFs) : result StorageError N :=
  file_path ← resolve_path b backend_path fs;
  m ← or_not_found backend_path (host_metadata file_path fs);
  Ok (hm_len m).

Definition content_exists (b : LocalBackend) (content_id backend_path : string) (fs : HostFs) : result StorageError bool :=
  file_path ← resolve_path b backend_path fs;
  Ok (is_ok (host_metadata file_path fs)).

Definition is_directory (b : LocalBackend) (path : string) (fs : HostFs) : result StorageError bool :=
  if decide (path = "") then Ok true
  else
    dir_path ← resolve_path b path fs;
    Ok (match host_metadata dir_path fs with Ok m => hm_is_dir m | Err _ => false end).

Definition read_path (b : LocalBackend) (content_id backend_path : string) (fs : HostFs) : result StorageError string :=
  local_read_content b backend_path fs.

(** The chunks up to the end of the stream, or to its first error. *)
Fixpoint drain (fuel : nat) (r : ChunkedReader) (fs : HostFs) : option (result StorageError (list string)) :=
  match fuel with
  | 0 => None
  | S fuel =>
      match reader_next r fs with
      | (None, _) => Some (Ok [])
      | (Some (Err e), _) => Some (Err e)
      | (Some (Ok x), r) =>
          match drain fuel r fs with
          | Some (Ok xs) => Some (Ok (x :: xs))
          | other => other
          end
      end
  end.

(** ** What is written in chunks is read in chunks *)

Lemma write_chunks_spec i xs fs fs' u :
  write_chunks i (Ok <$> xs) fs = (Ok u, fs') → is_Some (hf_inodes fs !! i) →
  hf_tree fs' = hf_tree fs ∧ is_Some (hf_inodes fs' !! i) ∧ bytes_of i fs' = bytes_of i fs +:+ foldr String.append "" xs.
Proof.
  revert fs. induction xs as [|x xs IH]; intros fs; cbn.
  - intros [= _ <-]. by rewrite sapp_nil_r.
  - intros E Hi. unfold mbind, St_bind, io, io_update in E. apply IH in E as (-> & Hi' & ->).
    + split_and!; [done..|]. unfold bytes_of at 1. cbn. rewrite lookup_insert_eq. cbn. by rewrite sapp_assoc.
    + cbn. rewrite lookup_insert_eq. by eexists.
Qed.

(** A reader at a place of the bytes. *)
Lemma reader_next_spec i pos n a y fs :
  bytes_of i fs = a +:+ y → slen a = pos → (0 < n)%N →
  (y = "" ∧ reader_next (mkReader i false pos n) fs = (None, mkReader i false pos n)) ∨
  ∃ z y', y = z +:+ y' ∧ z ≠ "" ∧ (slen z ≤ n)%N ∧
    reader_next (mkReader i false pos n) fs = (Some (Ok z), mkReader i false (slen (a +:+ z)) n).
Proof.
  intros Hb Ha Hn. unfold reader_next. cbn [cr_is_dir cr_file cr_pos cr_chunk]. 
  assert (sdrop (N.to_nat pos) (bytes_of i fs) = y) as ->.
  { rewrite Hb, <-Ha. unfold slen. by rewrite Nat2N.id, sdrop_app. }
  subst pos. destruct y as [|c y].
  - left. split; [done|]. rewrite decide_True; [done|]. by destruct (N.to_nat n).
  - right. exists (stake (N.to_nat n) (String c y)), (sdrop (N.to_nat n) (String c y)).
    assert (stake (N.to_nat n) (String c y) ≠ "") as Hz by (by destruct (N.to_nat n) eqn:E; [lia|]).
    split_and!; [by rewrite stake_sdrop|done| |].
    + unfold slen. rewrite slen_stake. lia.
    + rewrite decide_False by done. by rewrite slen_app_N.
Qed.

Lemma reader_drain i n a y fs fuel :
  bytes_of i fs = a +:+ y → (0 < n)%N → String.length y < fuel →
  ∃ ys, drain fuel (mkReader i false (slen a) n) fs = Some (Ok ys) ∧ foldr String.append "" ys = y ∧
    Forall (λ z, z ≠ "" ∧ (slen z ≤ n)%N) ys.
Proof.
  intros Hb Hn. revert a y Hb. induction fuel as [|fuel IH]; intros a y Hb Hf; [lia|]. cbn [drain].
  destruct (reader_next_spec i (slen a) n a y fs Hb eq_refl Hn) as [[-> ->]|(z & y' & -> & Hz & Hl & ->)]; [by exists []|].
  destruct (IH (a +:+ z) y') as (ys & -> & <- & Hys).
  - by rewrite <-sapp_assoc.
  - rewrite slen_app in Hf. destruct z; [done|]. cbn in Hf. lia.
  - exists (z :: ys). split_and!; [done..|]. by constructor.
Qed.

(** A file written in chunks is what its stream gives, in chunks of the size asked
    for, and what a whole read gives; the stream ends. *)
Theorem chunked_write_streams (b : LocalBackend) (path : string) (xs : list string) (o : option string) (n : N) (fs fs' : HostFs) :
  static b → write_file_chunked b path (Ok <$> xs) fs = (Ok o, fs') →
  let x := foldr String.append "" xs in
  (path ≠ "" → read_path b "" path fs' = Ok x) ∧ get_size_by_path b path fs' = Ok (slen x) ∧
  ∃ r, stream_file b path n fs' = Ok r ∧
    ∀ fuel, String.length x < fuel →
    ∃ ys, drain fuel r fs' = Some (Ok ys) ∧ foldr String.append "" ys = x ∧ Forall (λ z, z ≠ "" ∧ (slen z ≤ N.max n 1)%N) ys.
Proof.
  intros Hb E x. unfold write_file_chunked, st_of, io, io_update, mbind, St_bind in E. rewrite resolve_static in E by done.
  destruct (has_substring _ _) eqn:Hd; [done|]. destruct (make_parent _ fs) as [[u|e] fs1]; [|done].
  destruct (open_create _ fs1) as [[i|e] fs2] eqn:Ho; [|done]. apply open_create_spec in Ho as (Hnd & l & Hw & Hn).
  destruct (write_chunks i _ _) as [[v|e] fs3] eqn:Hc; [|done]. injection E as _ <-.
  apply write_chunks_spec in Hc as (Ht & _ & Hx); [|by cbn; rewrite lookup_insert_eq].
  assert (bytes_of i fs3 = x) as Hx'.
  { rewrite Hx. unfold bytes_of at 1. cbn. rewrite lookup_insert_eq. cbn. by rewrite sapp_nil_l. }
  assert (find_node true (physical b path) fs3 = Ok (HFile i)) as Hf.
  { eapply find_node_file; [done|rewrite <-Hw; by apply walk_tree|]. unfold node_at in *. by rewrite Ht. }
  split_and!.
  - intros Hp. unfold read_path, local_read_content. rewrite decide_False, resolve_static, Hd by done. cbn [mbind result_bind].
    unfold host_read. rewrite Hf. cbn. by rewrite Hx'.
  - unfold get_size_by_path. rewrite resolve_static, Hd by done. cbn [mbind result_bind]. unfold host_metadata. rewrite Hf. cbn.
    by rewrite Hx'.
  - eexists. split. { unfold stream_file. rewrite resolve_static, Hd by done. cbn [mbind result_bind]. rewrite Hf. cbn. done. }
    intros fuel Hfuel. apply (reader_drain i (N.max n 1) ""); [by rewrite Hx', sapp_nil_l|lia|done].
Qed.
