(* ===== verification/Confined.v ===== *)
(** * A local backend stays below its root

    The operations of a local backend (path_local.rs, local_connector.rs) change
    nothing outside its root, as long as no symbolic link leads out of it; and how
    the links a connector is to follow lead out of it all the same. *)

From S2P Require Import Prelude Bytes Table Codec MetaStore KernelTypes HostFs HostFsProofs LocalBackends BackendProofs.

(** ** Inside and outside *)

Definition inode_at (fs : HostFs) (l : list string) : option N :=
  match node_at fs l with Some (HFile i | HDir i) => Some i | _ => None end.

Section root.
Context (R : list string).

(** A tree in which [R] is reached through directories, no link is on the way or
    below, and no inode is on both sides. *)
Record apart (fs : HostFs) : Prop := {
  ap_wf : tree_wf fs;
  ap_plain : plain_comps R;
  ap_links q : q `prefix_of` R ∨ R `prefix_of` q → no_link fs q;
  ap_above q c : q ++ [c] `prefix_of` R → ∃ i, node_at fs q = Some (HDir i);
  ap_inodes l l' i : R `prefix_of` l → ¬ R `prefix_of` l' → inode_at fs l = Some i → inode_at fs l' ≠ Some i;
  ap_used l i : inode_at fs l = Some i → (i < hf_next fs)%N }.

(** What is outside stays: the entries, and what their inodes hold. *)
Record within (fs fs' : HostFs) : Prop := {
  wi_apart : apart fs';
  wi_nodes l : ¬ R `prefix_of` l → node_at fs' l = node_at fs l;
  wi_inodes l i : ¬ R `prefix_of` l → inode_at fs l = Some i → hf_inodes fs' !! i = hf_inodes fs !! i }.

Lemma within_refl fs : apart fs → within fs fs.
Proof. by split. Qed.

Lemma within_trans fs1 fs2 fs3 : within fs1 fs2 → within fs2 fs3 → within fs1 fs3.
Proof.
  intros [A1 N1 I1] [A2 N2 I2]. split; [done|..].
  - intros l Hl. by rewrite N2, N1.
  - intros l i Hl Hi. rewrite (I2 l i), (I1 l i); [done..|]. unfold inode_at in *. by rewrite N1.
Qed.

(** A tree that changes only inside, without new links and with inodes from inside. *)
Lemma within_intro fs fs' :
  apart fs → tree_wf fs' → (hf_next fs ≤ hf_next fs')%N →
  (∀ l, ¬ R `prefix_of` l → hf_tree fs' !! l = hf_tree fs !! l) →
  (∀ l t, R `prefix_of` l → hf_tree fs' !! l ≠ Some (HLink t)) →
  (∀ l i, R `prefix_of` l → inode_at fs' l = Some i →
     (∃ l0, R `prefix_of` l0 ∧ inode_at fs l0 = Some i) ∨ (hf_next fs ≤ i < hf_next fs')%N) →
  (∀ i, (i < hf_next fs)%N → hf_inodes fs' !! i = hf_inodes fs !! i ∨ ∃ l0, R `prefix_of` l0 ∧ inode_at fs l0 = Some i) →
  within fs fs'.
Proof.
  intros Ha Hwf Hx Hout Hlink Hin Hino.
  assert (∀ l, ¬ R `prefix_of` l → node_at fs' l = node_at fs l) as Hn.
  { intros l Hl. unfold node_at. case_decide; [done|]. by apply Hout. }
  split; [|done|].
  - split; [done|apply Ha|..].
    + intros q Hq. destruct (decide (R `prefix_of` q)) as [Hr|Hr].
      * intros t Ht. unfold node_at in Ht. case_decide; [done|]. by eapply Hlink.
      * intros t. rewrite Hn by done. apply (ap_links _ Ha q Hq).
    + intros q c Hq. destruct (ap_above _ Ha q c Hq) as [i Hi]. exists i. rewrite Hn; [done|].
      intros [s Es]. destruct Hq as [s' Es']. rewrite Es in Es'. apply (f_equal length) in Es'. rewrite !length_app in Es'. cbn in Es'. lia.
    + intros l l' i Hl Hl' Hi. unfold inode_at. rewrite Hn by done. fold (inode_at fs l').
      destruct (Hin l i Hl Hi) as [(l0 & Hl0 & Hi0)|Hi0]; [by eapply ap_inodes|].
      intros Hi'%(ap_used _ Ha). lia.
    + intros l i Hi. destruct (decide (R `prefix_of` l)) as [Hl|Hl].
      * destruct (Hin l i Hl Hi) as [(l0 & _ & Hi0)|Hi0]; [|lia]. apply (ap_used _ Ha) in Hi0. lia.
      * unfold inode_at in Hi. rewrite Hn in Hi by done. apply (ap_used _ Ha l) in Hi. lia.
  - intros l i Hl Hi. destruct (Hino i) as [?|(l0 & Hl0 & Hi0)]; [by eapply ap_used|done|].
    by destruct (ap_inodes _ Ha l0 l i Hl0 Hl Hi0).
Qed.

(** ** Operations of the host *)

(** From [Q], the operation stays inside, and what it returns has [P]. *)
Definition stays {E A} (Q : HostFs → Prop) (m : HostFs → result E A * HostFs) (P : A → HostFs → Prop) : Prop :=
  ∀ fs, apart fs → Q fs → within fs (m fs).2 ∧ ∀ a, (m fs).1 = Ok a → P a (m fs).2.

(** A path to a place inside. *)
Definition below (p : string) : Prop := R `prefix_of` comps p ∧ plain_comps (comps p).

Definition inner (i : N) (fs : HostFs) : Prop := ∃ l, R `prefix_of` l ∧ inode_at fs l = Some i.

Lemma inside_clear fs l : apart fs → R `prefix_of` l → clear_to fs l.
Proof. intros Ha Hl q Hq. apply (ap_links _ Ha). destruct (prefixes_comparable q R l); auto. Qed.

(** A walk to a place inside ends there, in a directory that is there. *)
Lemma inside_walk fs follow l q :
  apart fs → R `prefix_of` l → plain_comps l → walk fs follow l = Ok q →
  q = l ∧ (node_at fs l = None → ∃ l' c i, l = l' ++ [c] ∧ node_at fs l' = Some (HDir i)).
Proof.
  intros Ha Hl Hp Hw. pose proof (walk_direct _ _ _ _ Hp (inside_clear _ _ Ha Hl) Hw) as ->. split; [done|]. intros Hn.
  destruct (namei_parent _ _ _ _ _ _ (ap_wf _ Ha) (ex_intro _ 0%N (node_nil fs)) Hw) as [[i Hi]|?]; [congruence|done].
Qed.

Lemma new_entry_within l d mode fs l' c i :
  apart fs → R `prefix_of` l → node_at fs l = None → l = l' ++ [c] → node_at fs l' = Some (HDir i) →
  within fs (new_entry l d mode fs) ∧ inner (hf_next fs) (new_entry l d mode fs).
Proof.
  intros Ha Hl Hn El Hi. assert (l ≠ []) as Hne by (rewrite El; by destruct l').
  pose proof (λ y, new_entry_at l d mode fs y Hne) as Hat. split.
  - apply within_intro; [done|..].
    + eapply new_entry_wf; [apply Ha|done..].
    + cbn. lia.
    + intros y Hy. cbn. by rewrite lookup_insert_ne by congruence.
    + intros y t Hy Ht. cbn in Ht. apply lookup_insert_Some in Ht as [[_ Ht]|[_ Ht]]; [by destruct d|].
      apply (ap_links _ Ha y (or_intror Hy) t). apply tree_node_at; [|done]. intros ->. by rewrite (tw_root _ (ap_wf _ Ha)) in Ht.
    + intros y j Hy. unfold inode_at. rewrite Hat. case_decide; [|intros Hj; left; by exists y].
      destruct d; intros [= <-]; right; cbn; lia.
    + intros j Hj. left. cbn. by rewrite lookup_insert_ne by lia.
  - exists l. split; [done|]. unfold inode_at. rewrite Hat, decide_True by done. by destruct d.
Qed.

(** Changes to what an inode inside holds. *)
Lemma inodes_within fs fs' i :
  apart fs → inner i fs → hf_tree fs' = hf_tree fs → hf_next fs' = hf_next fs →
  (∀ j, j ≠ i → hf_inodes fs' !! j = hf_inodes fs !! j) → within fs fs'.
Proof.
  intros Ha Hi Ht Hx Hj. assert (∀ l, node_at fs' l = node_at fs l) as Hn by (intros l; unfold node_at; by rewrite Ht).
  pose proof (ap_wf _ Ha) as Hwf. apply within_intro; [done|..].
  - by eapply tree_wf_same.
  - by rewrite Hx.
  - by rewrite Ht.
  - intros l t Hl. rewrite Ht. intros Hlt. apply (ap_links _ Ha l (or_intror Hl) t). apply tree_node_at; [|done].
    intros ->. by rewrite (tw_root _ Hwf) in Hlt.
  - intros l j Hl. unfold inode_at. rewrite Hn. intros E. left. by exists l.
  - intros j _. destruct (decide (j = i)) as [->|]; [by right|left; auto].
Qed.

Abbreviation any := (λ _ _, True).

Lemma stays_bind {E A B} Q (P : A → HostFs → Prop) (P' : B → HostFs → Prop) (m : HostFs → result E A * HostFs) f :
  stays Q m P → (∀ a, stays (P a) (f a) P') →
  stays Q (λ fs, match m fs with (Ok a, fs) => f a fs | (Err e, fs) => (Err e, fs) end) P'.
Proof.
  intros Hm Hf fs Ha HQ. destruct (Hm fs Ha HQ) as [Hw Hp]. destruct (m fs) as [[a|e] fs1]; cbn in *; [|by split].
  destruct (Hf a fs1 (wi_apart _ _ Hw) (Hp a eq_refl)) as [Hw' Hp']. split; [by eapply within_trans|done].
Qed.

Lemma stays_weaken {E A} Q (P P' : A → HostFs → Prop) (m : HostFs → result E A * HostFs) :
  stays Q m P → (∀ a fs, P a fs → P' a fs) → stays Q m P'.
Proof. intros Hm HP fs Ha HQ. destruct (Hm fs Ha HQ) as [Hw Hp]. split; auto. Qed.

(** An answer that changes nothing. *)
Lemma stays_reads {E A} Q (P : A → HostFs → Prop) (f : HostFs → result E A) :
  (∀ fs a, apart fs → Q fs → f fs = Ok a → P a fs) → stays Q (λ fs, (f fs, fs)) P.
Proof. intros HP fs Ha HQ. split; [by apply within_refl|]. intros a. by apply HP. Qed.

Lemma stays_io {A} Q (P : A → HostFs → Prop) (m : Io A) : stays Q m P → stays Q (io m) P.
Proof. intros Hm fs Ha HQ. destruct (Hm fs Ha HQ) as [Hw Hp]. unfold io.
  destruct (m fs) as [[a|e] fs1]; cbn in *; (split; [done|]); [|done]. intros ? [= <-]. by apply Hp. Qed.

Lemma stays_inode i (f : HostFs → HostFs) :
  (∀ fs, hf_tree (f fs) = hf_tree fs ∧ hf_next (f fs) = hf_next fs ∧ ∀ j, j ≠ i → hf_inodes (f fs) !! j = hf_inodes fs !! j) →
  stays (inner i) (io_update f) (λ _, inner i).
Proof.
  intros Hf fs Ha Hi. destruct (Hf fs) as (Ht & Hx & Hj). split; [by apply (inodes_within fs (f fs) i)|].
  intros _ _. destruct Hi as (l & Hl & Hi). exists l. split; [done|]. cbn. unfold inode_at, node_at in *. by rewrite Ht.
Qed.

Lemma set_bytes_stays i x : stays (inner i) (io_update (set_bytes i x)) (λ _, inner i).
Proof. apply stays_inode. intros fs. split_and!; [done..|]. intros j Hj. cbn. by rewrite lookup_insert_ne. Qed.

Lemma open_create_stays p : below p → stays (λ _, True) (open_create p) inner.
Proof.
  intros [Hin Hp] fs Ha _. unfold open_create. destruct (walk fs true (comps p)) as [q|] eqn:Hw;
    [|split; [by apply within_refl|done]].
  destruct (inside_walk _ _ _ _ Ha Hin Hp Hw) as [-> Hpar].
  destruct (node_at fs (comps p)) as [[i|i|t]|] eqn:Hn; [| | |].
  - destruct (names_dir p); (split; [by apply within_refl|]); [done|]. intros a [= <-]. exists (comps p). split; [done|].
    cbn. unfold inode_at. by rewrite Hn.
  - split; [by apply within_refl|done].
  - split; [by apply within_refl|done].
  - destruct (names_dir p); [split; [by apply within_refl|done]|]. destruct (Hpar eq_refl) as (l' & c & i & El & Hi).
    destruct (new_entry_within (comps p) false 420 fs l' c i Ha Hin Hn El Hi). split; [done|]. by intros a [= <-].
Qed.

Lemma host_write_stays p x : below p → stays (λ _, True) (host_write p x) any.
Proof.
  intros Hp. eapply stays_bind; [by apply open_create_stays|]. intros i.
  by eapply stays_weaken; [apply set_bytes_stays|].
Qed.

Lemma create_dir_stays l : R `prefix_of` l → plain_comps l → stays (λ _, True) (create_dir l) any.
Proof.
  intros Hl Hp fs Ha _. split; [|done]. unfold create_dir. destruct (walk fs false l) as [q|] eqn:Hw; [|by apply within_refl].
  destruct (inside_walk _ _ _ _ Ha Hl Hp Hw) as [-> Hpar]. destruct (node_at fs l) eqn:Hn; [by apply within_refl|].
  destruct (Hpar eq_refl) as (l' & c & i & El & Hi). by eapply new_entry_within.
Qed.

Lemma create_dir_or_present_stays l : R `prefix_of` l → plain_comps l → stays (λ _, True) (create_dir_or_present l) any.
Proof.
  intros Hl Hp. eapply (stays_bind _ any).
  - intros fs Ha _. split; [|done]. rewrite io_attempt_eq. by apply create_dir_stays.
  - intros [u|e]; by apply (stays_reads (λ _, True) any).
Qed.

(** The directories above the root are there. *)
Lemma above_present fs q c : apart fs → q ++ [c] `prefix_of` R → create_dir_all q fs = (Ok (), fs).
Proof.
  intros Ha Hq. destruct (ap_above _ Ha q c Hq) as [i Hi]. apply (create_dir_all_present q fs i); [apply Ha| |done].
  destruct Hq as [s Hs]. pose proof (ap_plain _ Ha) as Hp. rewrite Hs in Hp. apply Forall_app in Hp as [Hp _].
  by apply Forall_app in Hp as [? _].
Qed.

Lemma prefix_snoc_inv (l : list string) c : R `prefix_of` l ++ [c] → R `prefix_of` l ∨ R = l ++ [c].
Proof.
  intros [s Es]. destruct s as [|d s _] using rev_ind; [rewrite app_nil_r in Es; by right|].
  rewrite app_assoc in Es. apply app_inj_tail in Es as [-> _]. left. by eexists.
Qed.

Lemma create_dir_all_rev_stays l :
  R `prefix_of` reverse l → plain_comps (reverse l) → stays (λ _, True) (create_dir_all_rev l) any.
Proof.
  induction l as [|c l IH]; intros Hl Hp; cbn [create_dir_all_rev]; [by apply create_dir_or_present_stays|].
  eapply (stays_bind _ any).
  - intros fs Ha _. split; [|done]. rewrite io_attempt_eq. by apply create_dir_stays.
  - intros [u|e]; [by apply (stays_reads (λ _, True) any)|]. case_decide; [|by apply (stays_reads (λ _, True) any)].
    eapply (stays_bind _ any); [|intros _; by apply create_dir_or_present_stays].
    rewrite reverse_cons in Hl, Hp. destruct (prefix_snoc_inv _ _ Hl) as [Hl'|HR].
    + apply IH; [done|]. by apply Forall_app in Hp as [? _].
    + intros fs Ha _. pose proof (above_present fs (reverse l) c Ha) as E. unfold create_dir_all in E.
      rewrite reverse_involutive in E. rewrite E by (by rewrite HR). split; [by apply within_refl|done].
Qed.

Lemma create_dir_all_stays l : R `prefix_of` l → plain_comps l → stays (λ _, True) (create_dir_all l) any.
Proof. intros Hl Hp. apply create_dir_all_rev_stays; by rewrite reverse_involutive. Qed.

Lemma make_parent_stays p : below p → stays (λ _, True) (make_parent p) any.
Proof.
  intros [Hl Hp]. unfold make_parent, path_parent. destruct (comps p) as [|c l _] using rev_ind.
  { by apply (stays_reads (λ _, True) any). }
  rewrite reverse_snoc, reverse_involutive. apply stays_io. apply Forall_app in Hp as [Hp _].
  destruct (prefix_snoc_inv _ _ Hl) as [Hl'|HR]; [by apply create_dir_all_stays|].
  intros fs Ha _. rewrite (above_present fs l c Ha) by (by rewrite HR). split; [by apply within_refl|done].
Qed.

(** A subtree inside that goes away. *)
Lemma prune_within fs l :
  apart fs → R `prefix_of` l → ∀ t,
  (∀ y, y ≠ [] → t !! y = if decide (l `prefix_of` y) then None else hf_tree fs !! y) → t !! [] = None →
  within fs (set_tree t fs).
Proof.
  intros Ha Hl t Ht Ht0. pose proof (ap_wf _ Ha) as Hwf.
  assert (∀ y n, t !! y = Some n → hf_tree fs !! y = Some n ∧ ¬ l `prefix_of` y) as Hold.
  { intros y n Hy. rewrite Ht in Hy by (intros ->; congruence). by case_decide. }
  assert (∀ y n, node_at (set_tree t fs) y = Some n → node_at fs y = Some n) as Hnode.
  { intros y n. unfold node_at. case_decide; [done|]. by intros [? _]%Hold. }
  apply within_intro; [done|..].
  - split; [done| |].
    + intros y c n [Hy Hp]%Hold. destruct (tw_parent _ Hwf _ _ _ Hy) as [i Hi]. exists i. unfold node_at in *.
      case_decide; [done|]. cbn. rewrite Ht, decide_False; [done| |done]. intros Hly. by apply Hp, prefix_app_r.
    + intros y i [Hy _]%Hold. by apply (tw_inode _ Hwf y).
  - done.
  - intros y Hy. cbn. destruct (decide (y = [])) as [->|Hne]; [by rewrite Ht0, (tw_root _ Hwf)|].
    rewrite Ht, decide_False; [done| |done]. intros Hly. apply Hy. by transitivity l.
  - intros y u Hy [Hu _]%Hold. apply (ap_links _ Ha y (or_intror Hy) u). apply tree_node_at; [|done].
    intros ->. by rewrite (tw_root _ Hwf) in Hu.
  - intros y i Hy Hi. left. exists y. split; [done|]. unfold inode_at in *.
    destruct (node_at (set_tree t fs) y) as [n|] eqn:Hn; [|done]. by rewrite (Hnode _ _ Hn).
  - intros i _. by left.
Qed.

Lemma delete_within fs l :
  apart fs → R `prefix_of` l → l ≠ [] → (∀ s, s ≠ [] → hf_tree fs !! (l ++ s) = None) →
  within fs (set_tree (delete l (hf_tree fs)) fs).
Proof.
  intros Ha Hl Hne Hs. apply (prune_within fs l Ha Hl).
  - intros y _. destruct (decide (l `prefix_of` y)) as [[s ->]|Hy].
    + destruct s; [by rewrite app_nil_r, lookup_delete_eq|]. rewrite lookup_delete_ne; [by apply Hs|].
      intros E. apply (f_equal length) in E. rewrite length_app in E. cbn in E. lia.
    + rewrite lookup_delete_ne; [done|]. by intros ->.
  - rewrite lookup_delete_ne by done. apply (ap_wf _ Ha).
Qed.

Lemma file_within fs l n :
  apart fs → R `prefix_of` l → node_at fs l = Some n → is_hdir n = false → within fs (set_tree (delete l (hf_tree fs)) fs).
Proof.
  intros Ha Hl Hn Hd. apply delete_within; [done..| |].
  - intros ->. injection Hn as <-. done.
  - intros s. apply nothing_below; [apply Ha|]. intros i Hi. rewrite Hi in Hn. by injection Hn as <-.
Qed.

Lemma host_remove_file_stays p : below p → stays (λ _, True) (host_remove_file p) any.
Proof.
  intros [Hin Hp] fs Ha _. split; [|done]. unfold host_remove_file.
  destruct (walk fs false (comps p)) as [q|] eqn:Hw; [|by apply within_refl].
  destruct (inside_walk _ _ _ _ Ha Hin Hp Hw) as [-> _].
  destruct (node_at fs (comps p)) as [[i|i|t]|] eqn:Hn; try (by apply within_refl);
    (destruct (names_dir p); [by apply within_refl|]); by eapply file_within.
Qed.

Lemma remove_dir_stays l : R `prefix_of` l → plain_comps l → stays (λ _, True) (remove_dir l) any.
Proof.
  intros Hin Hp fs Ha _. split; [|done]. unfold remove_dir. destruct (walk fs false l) as [q|] eqn:Hw; [|by apply within_refl].
  destruct (inside_walk _ _ _ _ Ha Hin Hp Hw) as [-> _].
  destruct (node_at fs l) as [[i|i|t]|] eqn:Hn; try (by apply within_refl).
  case_decide; [by apply within_refl|]. destruct (has_children l fs) eqn:Hc; [by apply within_refl|].
  apply delete_within; [done..|]. intros s. by apply no_children.
Qed.

Lemma remove_dir_all_stays l : R `prefix_of` l → plain_comps l → stays (λ _, True) (remove_dir_all l) any.
Proof.
  intros Hin Hp fs Ha _. split; [|done]. unfold remove_dir_all. destruct (walk fs false l) as [q|] eqn:Hw; [|by apply within_refl].
  destruct (inside_walk _ _ _ _ Ha Hin Hp Hw) as [-> _].
  destruct (node_at fs l) as [[i|i|t]|] eqn:Hn; try (by apply within_refl); [|by eapply file_within].
  case_decide as Hne; [by apply within_refl|]. apply (prune_within fs l Ha Hin).
  - intros y _. case_decide as Hy.
    + apply map_lookup_filter_None. right. intros n _ Hnp. by apply Hnp.
    + destruct (hf_tree fs !! y) as [n|] eqn:Hyn; [by apply map_lookup_filter_Some|]. apply map_lookup_filter_None. by left.
  - apply map_lookup_filter_None. left. apply (ap_wf _ Ha).
Qed.

(** A subtree that moves inside. *)
Lemma move_within fs old new l c i :
  apart fs → R `prefix_of` old → R `prefix_of` new → movable fs old new → new = l ++ [c] → node_at fs l = Some (HDir i) →
  within fs (move_tree old new fs).
Proof.
  intros Ha Ho Hn Hm El Hi. pose proof (ap_wf _ Ha) as Hwf. pose proof (move_tree_wf _ _ _ _ _ _ Hwf Hm El Hi) as Hwf'.
  assert (∀ y n, R `prefix_of` y → hf_tree (move_tree old new fs) !! y = Some n →
    ∃ y0, R `prefix_of` y0 ∧ node_at fs y0 = Some n) as Hfrom.
  { intros y n Hy. rewrite move_tree_lookup by done. case_decide; [done|]. case_decide as Hny; intros E.
    - exists (old ++ drop (length new) y). split; [by apply prefix_app_r|]. apply tree_node_at; [|done].
      intros E0. by rewrite E0, (tw_root _ Hwf) in E.
    - exists y. split; [done|]. apply tree_node_at; [|done]. intros ->. by rewrite (tw_root _ Hwf) in E. }
  apply within_intro; [done|done|done|..].
  - intros y Hy. rewrite move_tree_lookup, !decide_False; [done|..|done]; intros Hp; apply Hy; first [by transitivity old|by transitivity new].
  - intros y t Hy (y0 & Hy0 & Ht)%Hfrom; [|done]. by apply (ap_links _ Ha y0 (or_intror Hy0) t).
  - intros y j Hy Hj. left. destruct (decide (y = [])) as [->|Hne]; [by exists []|].
    unfold inode_at in Hj. destruct (node_at (move_tree old new fs) y) as [n|] eqn:Hnode; [|done].
    apply node_at_tree in Hnode as [?|Hnode]; [done|].
    destruct (Hfrom y n Hy Hnode) as (y0 & Hy0 & Hn0). exists y0. split; [done|]. unfold inode_at. by rewrite Hn0.
  - intros j _. by left.
Qed.

Lemma host_rename_stays p q : below p → below q → stays (λ _, True) (host_rename p q) any.
Proof.
  intros [Hp Pp] [Hq Pq] fs Ha _. split; [|done]. destruct (host_rename p q fs) as [[u|e] fs'] eqn:E.
  - apply host_rename_spec in E as [[_ ->]|(Hm & -> & (l & c & i & El & Hi) & _)];
      [by apply within_refl|by eapply move_within|apply Ha|done|done|by apply inside_clear..].
  - apply host_rename_err in E as ->. by apply within_refl.
Qed.

Lemma host_copy_stays p q : below p → below q → stays (λ _, True) (host_copy p q) any.
Proof.
  intros Hp Hq fs Ha _. unfold host_copy. destruct (find_node true p fs) as [[i|i|t]|e]; try (split; [by apply within_refl|done]).
  generalize (from_option in_mode 0%N (hf_inodes fs !! i)). intros mode. revert mode fs Ha. cut (∀ mode, stays (λ _, True) (j ← open_create q;
       _ ← io_update (λ fs, set_mode j mode (set_bytes j "" fs)); x ← io_reads (λ fs, Ok (bytes_of i fs));
       _ ← io_update (set_bytes j x); mret (slen x)) any).
  { intros Hc mode fs Ha. by apply Hc. }
  intros mode. eapply stays_bind; [by apply open_create_stays|]. intros j. eapply stays_bind.
  { apply (stays_inode j). intros fs. split_and!; [done..|]. intros k Hk. cbn. by rewrite lookup_alter_ne, lookup_insert_ne. }
  intros u. eapply (stays_bind _ (λ _, inner j)); [by apply stays_reads|]. intros x.
  eapply stays_bind; [apply set_bytes_stays|]. intros u'. by apply (stays_reads (inner j) any (λ _, Ok (slen x))).
Qed.
End root.

(** ** Operations of a backend *)

Inductive LocalCall :=
  | LWrite (content content_id : string) (offset : N)
  | LWriteChunked (path : string) (chunks : list (result StorageError string))
  | LMkdir (path : string) (parents : bool)
  | LRmdir (path : string) (recursive : bool)
  | LDelete (path : string)
  | LRename (old_path new_path : string)
  | LCopy (src_path dst_path : string)
  | LSetMode (path : string) (mode : N).

Section backend.
Context (hash_content : string → string) (b : LocalBackend).
Abbreviation R := (comps (root_path b)).
Abbreviation any := (λ _ _, True).

Definition local_call (c : LocalCall) (fs : HostFs) : HostFs :=
  match c with
  | LWrite x cid off => (local_write_content hash_content b x cid off fs).2
  | LWriteChunked p chunks => (write_file_chunked b p chunks fs).2
  | LMkdir p parents => (local_mkdir b p parents fs).2
  | LRmdir p recursive => (local_rmdir b p recursive fs).2
  | LDelete p => (local_delete_file b p fs).2
  | LRename p q => (local_rename b p q fs).2
  | LCopy p q => (local_copy_file hash_content b p q fs).2
  | LSetMode p mode => (local_set_file_mode b p mode fs).2
  end.

Definition local_calls (cs : list LocalCall) (fs : HostFs) : HostFs := foldl (λ fs c, local_call c fs) fs cs.

(** The components of a path are names. *)
Lemma ssplit_elem c s w : w ∈ ssplit c s → scontains c w = false.
Proof.
  revert w. induction s as [|a s IH]; intros w; cbn [ssplit]; [by intros ->%list_elem_of_singleton|].
  destruct (ssplit_head c s) as (w0 & ws & E). rewrite E in *. case_decide as Ha.
  - intros [->|Hw]%elem_of_cons; [done|by apply IH].
  - intros [->|Hw]%elem_of_cons; [|apply IH; by right]. cbn [scontains]. rewrite bool_decide_false by done.
    apply IH. by left.
Qed.

Definition names (l : list string) : Prop := Forall (λ c, comps c = [c]) l.

Lemma comps_names p : names (comps p).
Proof.
  apply Forall_forall. intros c [Hc Hin]%list_elem_of_filter. unfold comps. rewrite ssplit_no_sep by by eapply ssplit_elem.
  by rewrite filter_cons_True.
Qed.

Lemma comps_path_of l : names l → comps (path_of l) = l.
Proof.
  intros Hl. destruct l as [|c l]; [done|]. unfold path_of. revert Hl. generalize (c :: l). clear c l.
  induction 1 as [|c l Hc Hl IH]; [done|]. cbn [foldr]. change ("/" +:+ c +:+ ?s) with ("" +:+ String "/" (c +:+ s)).
  rewrite comps_app. destruct l as [|d l]; [cbn [foldr]; by rewrite sapp_nil_r, Hc|].
  cbn [foldr] in *. change ("/" +:+ d +:+ ?s) with ("" +:+ String "/" (d +:+ s)) in *. rewrite comps_app in IH.
  rewrite sapp_nil_l, comps_app, Hc. by rewrite <-IH.
Qed.

(** What a connector takes a path for, when no link is in the way. *)
Lemma canonicalize_direct p q fs : plain_comps (comps p) → clear_to fs (comps p) → canonicalize p fs = Ok q → comps q = comps p.
Proof.
  intros Hp Hc. unfold canonicalize. destruct (walk fs true (comps p)) as [l|] eqn:Hw; cbn [mbind result_bind]; [|done].
  apply walk_direct in Hw as ->; [|done..]. repeat case_match; intros; simplify_eq. apply comps_path_of, comps_names.
Qed.

Lemma follow_direct p fs : plain_comps (comps p) → clear_to fs (comps p) → comps (follow_links p fs) = comps p.
Proof.
  intros Hp Hc. unfold follow_links. destruct (canonicalize p fs) as [q|] eqn:E; [by eapply canonicalize_direct|].
  unfold path_parent, file_name. pose proof (comps_names p) as Hn.
  remember (comps p) as k eqn:Ek. destruct k as [|c l _] using rev_ind; [by symmetry|].
  rewrite reverse_snoc, reverse_involutive, last_snoc. apply Forall_app in Hp as [Hp [[_ Hcc] _]%Forall_cons].
  apply Forall_app in Hn as [Hn [Hcn _]%Forall_cons]. rewrite decide_False by done.
  destruct (canonicalize (path_of l) fs) as [q|] eqn:E'.
  - rewrite comps_join, Hcn. apply canonicalize_direct in E'; rewrite ?(comps_path_of l Hn) in *; [by rewrite E'|done|].
    intros y Hy. apply Hc. by apply prefix_app_r.
  - by symmetry.
Qed.

Lemma resolve_below p q fs : apart R fs → resolve_path b p fs = Ok q → below R q.
Proof.
  intros Ha. assert (rooted fs b) as Hr by (split; apply Ha). unfold resolve_path.
  destruct (has_substring _ _) eqn:Hd; [done|]. pose proof (loc_plain _ _ _ Hr Hd) as Hpl.
  pose proof (loc_clear _ _ p Hr) as Hc.
  assert (R `prefix_of` loc b p) as Hin by (by eexists).
  rewrite <-comps_physical in Hpl, Hc, Hin. fold (physical b p). destruct b as [r|r follow]; [by intros [= <-]|].
  destruct (path_starts_with _ r); [|done]. destruct follow; intros [= <-]; [|done]. unfold below. by rewrite follow_direct.
Qed.

(** Every operation stays below the root. *)
Lemma resolved_stays {A} p (f : string → St A) P :
  (∀ q, below R q → stays R (λ _, True) (f q) P) → stays R (λ _, True) (q ← st_of (resolve_path b p); f q) P.
Proof.
  intros Hf. eapply (stays_bind R _ (λ q _, below R q)).
  - apply stays_reads. intros fs q Ha _. by apply resolve_below.
  - intros q fs Ha Hq. by apply Hf.
Qed.

Lemma stays_then {A B} (m : St A) (f : A → St B) :
  stays R (λ _, True) m any → (∀ a, stays R (λ _, True) (f a) any) → stays R (λ _, True) (m ≫= f) any.
Proof. intros Hm Hf. eapply stays_bind; [done|]. by intros a. Qed.

Lemma write_stays x cid off : stays R (λ _, True) (local_write_content hash_content b x cid off) any.
Proof.
  unfold local_write_content. case_decide; [by apply (stays_reads R (λ _, True) any)|]. apply resolved_stays. intros q Hq.
  apply stays_then; [by apply make_parent_stays|]. intros []. destruct (off =? 0)%N.
  { apply stays_then; [by apply stays_io, host_write_stays|]. intros []. by apply (stays_reads R (λ _, True) any (λ _, Ok _)). }
  eapply stays_bind; [by apply stays_io, open_create_stays|]. intros i.
  eapply (stays_bind R _ (λ _, inner R i)); [by apply stays_reads|]. intros n. cbv zeta.
  eapply (stays_bind R _ (λ _, inner R i)).
  { case_match; [|by apply (stays_reads R (inner R i) (λ _, inner R i) (λ _, Ok ()))]. apply stays_io. unfold set_len.
    case_match; [by apply (stays_reads R (inner R i) (λ _, inner R i))|]. apply stays_inode. intros fs. split_and!; [done..|].
    intros j Hj. cbn. by rewrite lookup_insert_ne. }
  intros u. eapply (stays_bind R _ any).
  { apply stays_io. unfold write_at. case_match; [by apply (stays_reads R (inner R i) any)|].
    eapply stays_weaken; [apply (stays_inode R i)|done]. intros fs. split_and!; [done..|].
    intros j Hj. cbn. by rewrite lookup_insert_ne. }
  intros u'. eapply (stays_bind R _ any); [by apply stays_io, (stays_reads R _ any)|]. intros y.
  by apply (stays_reads R _ any (λ _, Ok _)).
Qed.

Lemma write_chunks_stays i chunks : stays R (inner R i) (write_chunks i chunks) any.
Proof.
  induction chunks as [|[bytes|e] chunks IH]; cbn [write_chunks]; [by apply (stays_reads R _ any (λ _, Ok ()))| |by apply (stays_reads R _ any)].
  eapply (stays_bind R _ (λ _, inner R i)); [|by intros u]. apply stays_io, stays_inode. intros fs. split_and!; [done..|].
  intros j Hj. cbn. by rewrite lookup_insert_ne.
Qed.

Lemma write_chunked_stays p chunks : stays R (λ _, True) (write_file_chunked b p chunks) any.
Proof.
  apply resolved_stays. intros q Hq. apply stays_then; [by apply make_parent_stays|]. intros [].
  eapply stays_bind; [by apply stays_io, open_create_stays|]. intros i.
  eapply stays_bind; [apply stays_io, set_bytes_stays|]. intros u.
  eapply stays_bind; [apply write_chunks_stays|]. intros u'. by apply (stays_reads R _ any (λ _, Ok None)).
Qed.

Lemma set_mode_stays p mode : stays R (λ _, True) (local_set_file_mode b p mode) any.
Proof.
  intros fs Ha _. split; [|done]. unfold local_set_file_mode, local_resolve_physical_path.
  destruct (resolve_path b p fs) as [q|] eqn:Hq; [|by apply within_refl].
  destruct (resolve_path b "" fs) as [r|]; [|by apply within_refl].
  destruct (canonicalize r fs) as [r'|]; [|by apply within_refl].
  destruct (find_node false q fs) as [n|] eqn:Hn; [|by apply within_refl].
  destruct (canonicalize q fs) as [q'|]; [|by apply within_refl].
  case_match; [by apply within_refl|].
  apply resolve_below in Hq as [Hin Hp]; [|done]. unfold find_node in Hn.
  destruct (walk fs false (comps q)) as [l|] eqn:Hw; cbn [mbind result_bind] in Hn; [|done].
  destruct (inside_walk _ _ _ _ _ Ha Hin Hp Hw) as [-> _]. destruct (node_at fs (comps q)) as [n'|] eqn:Hnode; [|done].
  destruct (_ && _); [done|]. injection Hn as ->.
  assert (∀ i, inode_at fs (comps q) = Some i → within R fs (set_mode i mode fs)) as Hset.
  { intros i Hi. apply (inodes_within R fs _ i); [done|by exists (comps q)|done..|]. intros j Hj. cbn. by rewrite lookup_alter_ne. }
  unfold inode_at in Hset. rewrite Hnode in Hset. destruct n; [by apply Hset..|by apply within_refl].
Qed.

Lemma call_within c fs : apart R fs → within R fs (local_call c fs).
Proof.
  intros Ha. destruct c as [x cid off|p chunks|p parents|p recursive|p|p q|p q|p mode]; cbn [local_call].
  - by apply write_stays.
  - by apply write_chunked_stays.
  - assert (stays R (λ _, True) (local_mkdir b p parents) any) as Hs; [|by apply Hs]. apply resolved_stays.
    intros q [Hin Hp]. apply stays_io. destruct parents; [by apply create_dir_all_stays|by apply create_dir_stays].
  - assert (stays R (λ _, True) (local_rmdir b p recursive) any) as Hs; [|by apply Hs]. apply resolved_stays.
    intros q [Hin Hp]. apply stays_io. destruct recursive; [by apply remove_dir_all_stays|by apply remove_dir_stays].
  - assert (stays R (λ _, True) (local_delete_file b p) any) as Hs; [|by apply Hs]. apply resolved_stays.
    intros q Hq fs' Ha' _. split; [|done]. unfold io_or_not_found.
    destruct (host_remove_file_stays R q Hq fs' Ha' I) as [Hw _]. by destruct (host_remove_file q fs').
  - assert (stays R (λ _, True) (local_rename b p q) any) as Hs; [|by apply Hs]. apply resolved_stays.
    intros p' Hp. apply resolved_stays. intros q' Hq. apply stays_then; [by apply make_parent_stays|]. intros [].
    by apply stays_io, host_rename_stays.
  - assert (stays R (λ _, True) (local_copy_file hash_content b p q) any) as Hs; [|by apply Hs]. apply resolved_stays.
    intros p' Hp. apply resolved_stays. intros q' Hq. apply stays_then; [by apply make_parent_stays|]. intros [].
    apply stays_then; [by apply stays_io, host_copy_stays|]. intros n.
    apply stays_then; [by apply stays_io, (stays_reads R _ any)|]. intros y. by apply (stays_reads R _ any (λ _, Ok _)).
  - by apply set_mode_stays.
Qed.

(** C12: A local backend never touches anything outside its root.  Let the root be
    reached through directories of the host, with no symbolic link on the way to it
    or below it and no hard link across it.  Whatever sequence of writes (whole,
    partial or in chunks), directory operations, deletions, renames, copies and mode
    changes the backend is asked to do, with whatever paths, failed ones included:
    every entry of the host's file system outside the root is the same afterwards,
    with the same bytes, mode and time. *)
Theorem local_calls_confined (cs : list LocalCall) (fs : HostFs) (l : list string) :
  apart R fs → ¬ R `prefix_of` l →
  node_at (local_calls cs fs) l = node_at fs l ∧
  ∀ i, inode_at fs l = Some i → hf_inodes (local_calls cs fs) !! i = hf_inodes fs !! i.
Proof.
  intros Ha Hl. assert (within R fs (local_calls cs fs)) as [_ Hn Hi]; [|split; [by apply Hn|intros i; by apply Hi]].
  unfold local_calls. revert fs Ha. induction cs as [|c cs IH]; intros fs Ha; [by apply within_refl|].
  pose proof (call_within c fs Ha) as Hw. cbn [foldl]. eapply within_trans; [done|]. by apply IH, Hw.
Qed.
End backend.

(** ** Where a canonical path leads *)

(** The names a walk passes. *)
Definition real_names (l : list string) : Prop := Forall (λ c, (c ≠ "." ∧ c ≠ "..") ∧ comps c = [c]) l.

Lemma link_comps_names target : Forall (λ c, c = "." ∨ comps c = [c]) (link_comps target).
Proof.
  apply Forall_app. split; [|case_match; by repeat constructor; left].
  apply (Forall_impl _ _ _ (comps_names target)). by right.
Qed.

(** A walk that follows links ends at names, and not at a link. *)
Lemma namei_real hops fs cur l q :
  tree_wf fs → real_names cur → (∃ i, node_at fs cur = Some (HDir i)) → Forall (λ c, c = "." ∨ comps c = [c]) l →
  namei hops fs true cur l = Ok q → real_names q ∧ no_link fs q.
Proof.
  intros Hwf. revert cur l. induction hops as [|hops IHh]; intros cur l; revert cur.
  all: induction l as [|c l IH]; intros cur Hr Hc Hl; rewrite ?namei_nil, ?namei_cons.
  all: try (intros [= <-]; split; [done|]; destruct Hc as [i Hi]; intros t; by rewrite Hi).
  all: apply Forall_cons in Hl as [Hname Hl]; case_decide as Hd; [by apply IH|]; case_decide as Hdd.
  all: try (apply IH; [by apply Forall_take| |done]; destruct cur as [|x cur _] using rev_ind; [done|];
    rewrite length_app, Nat.add_1_r; cbn [pred]; rewrite take_app_length; destruct Hc as [? Hc]; by eapply node_parent).
  all: assert (real_names (cur ++ [c])) as Hr' by (apply Forall_app; split; [done|]; repeat constructor; by destruct Hname).
  all: assert (∀ n, (∀ t, n ≠ Some (HLink t)) → node_at fs (cur ++ [c]) = n → Ok (cur ++ [c]) = Ok q :> result IoError _ →
    real_names q ∧ no_link fs q) as Hend by (intros n Hnl Hn [= <-]; split; [done|]; intros t; rewrite Hn; apply Hnl).
  all: destruct (node_at fs (cur ++ [c])) as [[i|i|target]|] eqn:Hn;
    [case_decide; [by apply (Hend (Some (HFile i)))|done]|apply IH; [done|by eexists|done]|case_decide as Hf; [by destruct Hf|]
    |case_decide; [by apply (Hend None)|done]].
  - done.
  - apply IHh; [case_match; [constructor|done]|case_match; [by eexists|done]|].
    apply Forall_app. split; [apply link_comps_names|done].
Qed.

(** What [fs::canonicalize] returns is reached without links. *)
Lemma canonicalize_real p q fs : tree_wf fs → canonicalize p fs = Ok q → walk fs true (comps q) = Ok (comps q).
Proof.
  intros Hwf. unfold canonicalize. destruct (walk fs true (comps p)) as [l|] eqn:Hw; cbn [mbind result_bind]; [|done].
  apply namei_real in Hw as [Hr Hnl]; [|done|constructor|by eexists|apply (Forall_impl _ _ _ (comps_names p)); by right].
  destruct (node_at fs l) as [n|] eqn:Hn; [|done]. case_match; [done|]. intros [= <-].
  rewrite comps_path_of by (apply (Forall_impl _ _ _ Hr); by intros ? [_ ?]).
  eapply walk_reaches; [done| |done..]. apply (Forall_impl _ _ _ Hr). by intros ? [? _].
Qed.

(** A connector that follows links: where the path of an entry that is there leads.
    Whatever links are on the way, what it accepts is below the root. *)
Theorem connector_existing_inside (root p c q : string) (fs : HostFs) :
  tree_wf fs → canonicalize (path_join root (trim_start "/" p)) fs = Ok c →
  resolve_path (LocalConnectorBackend root true) p fs = Ok q →
  comps root `prefix_of` comps q ∧ walk fs true (comps q) = Ok (comps q).
Proof.
  intros Hwf Hc. unfold resolve_path. destruct (has_substring _ _); [done|]. unfold follow_links. cbn [root_path]. rewrite Hc.
  unfold path_starts_with. case_bool_decide; [|done]. intros [= <-]. split; [done|]. by eapply canonicalize_real.
Qed.

(** ** The path of a remote backend *)

(** A path that a remote backend sends lies below the mount on the server, on a
    boundary of components. *)
Theorem mount_path_inside (mount_root p : string) :
  mount_root ≠ "" → mount_root ≠ "/" →
  let root := "/" +:+ trim_slashes mount_root in
  to_mount_path mount_root p = root ∨ ∃ s, to_mount_path mount_root p = root +:+ "/" +:+ s.
Proof.
  intros H1 H2. cbv zeta. unfold to_mount_path. rewrite (decide_False (P := mount_root = "" ∨ _)) by tauto.
  case_match eqn:Hin.
  - apply orb_true_iff in Hin as [->%bool_decide_eq_true|Hs]; [by left|]. right.
    apply starts_with_true in Hs as [s ->]. exists s. by rewrite !sapp_assoc.
  - case_decide; [left; by rewrite sapp_nil_r|]. right. case_match eqn:Hp.
    + apply starts_with_true in Hp as [s ->]. exists s. by rewrite !sapp_assoc.
    + exists p. by rewrite !sapp_assoc.
Qed.
(** The root has no slash in front. *)
Lemma trim_slashes_head s : trim_slashes s = "" ∨ ∃ a t, trim_slashes s = String a t ∧ a ≠ "/"%char.
Proof.
  unfold trim_slashes. assert (trim_start "/" s = "" ∨ ∃ a t, trim_start "/" s = String a t ∧ a ≠ "/"%char) as [->|(a & t & -> & Ha)].
  { induction s as [|a s IH]; [by left|]. cbn. case_decide; [done|]. right. by eexists _, _. }
  - by left.
  - right. cbn. destruct (trim_end "/" t); [rewrite decide_False by done|]; by eexists _, _.
Qed.

(** The identifier the server gives back for a path is the path without its slash:
    read back, it names the same file. *)
Theorem mount_path_roundtrip (mount_root p : string) :
  trim_slashes mount_root ≠ "" →
  let path := to_mount_path mount_root p in to_mount_path mount_root (trim_start "/" path) = path.
Proof.
  intros Hr. cbv zeta. destruct (trim_slashes_head mount_root) as [?|(a & t & Er & Ha)]; [done|].
  assert (mount_root ≠ "" ∧ mount_root ≠ "/") as [H1 H2] by (split; intros ->; by apply Hr).
  assert (∃ x, to_mount_path mount_root p = "/" +:+ String a x ∧
    (String a x = trim_slashes mount_root ∨ starts_with (trim_slashes mount_root +:+ "/") (String a x) = true)) as (x & -> & Hx).
  { destruct (mount_path_inside mount_root p H1 H2) as [->|[s ->]]; rewrite Er.
    - exists t. by split; [|left].
    - exists (t +:+ "/" +:+ s). split; [done|]. right. apply starts_with_true. exists s.
      by rewrite !sapp_cons, <-!sapp_assoc. }
  change ("/" +:+ String a x) with (String "/" (String a x)). unfold trim_start at 1. rewrite decide_True, decide_False by done.
  unfold to_mount_path. rewrite (decide_False (P := mount_root = "" ∨ _)) by tauto.
  rewrite decide_False by (intros [|]; simplify_eq). assert (starts_with "/" (String a x) = false) as ->.
  { apply not_true_iff_false. intros [r E]%starts_with_true. by injection E as -> _. }
  change ("/" +:+ String a x) with (String "/" (String a x)). cbn [trim_start]. rewrite decide_True, decide_False by done.
  destruct Hx as [<-| ->]; [by rewrite bool_decide_true|by rewrite orb_true_r].
Qed.

(** ** A small host *)

(** A root with a file, and a file outside. *)
Definition small_host : HostFs :=
  mkFs {[["srv"] := HDir 1; ["srv"; "a"] := HFile 2; ["etc"] := HFile 3]}
    {[1%N := mkInode true "" 493 None; 2%N := mkInode false "new" 420 None; 3%N := mkInode false "secret" 384 None]} 4 None.

Lemma small_host_entries l n :
  hf_tree small_host !! l = Some n →
  (l = ["srv"] ∧ n = HDir 1) ∨ (l = ["srv"; "a"] ∧ n = HFile 2) ∨ (l = ["etc"] ∧ n = HFile 3).
Proof.
  cbn [hf_tree small_host]. rewrite !lookup_insert_Some, lookup_singleton_Some.
  intros [[<- <-]|[_ [[<- <-]|[_ [<- <-]]]]]; auto.
Qed.

Lemma small_host_nodes l n : node_at small_host l = Some n → (l = [] ∧ n = HDir 0) ∨ hf_tree small_host !! l = Some n.
Proof. unfold node_at. case_decide; [intros [= <-]|]; auto. Qed.

Lemma small_host_wf : tree_wf small_host.
Proof.
  split; [done|..].
  - intros l c n [[E _]|[[E _]|[E _]]]%small_host_entries; (destruct l as [|? [|? [|]]]; simplify_eq/=); by eexists.
  - by intros l i [[_ [=]]|[[_ [= ->]]|[_ [= ->]]]]%small_host_entries.
Qed.

Lemma small_host_apart : apart ["srv"] small_host.
Proof.
  split; [apply small_host_wf|by repeat constructor|..].
  - by intros q _ t [[_ ?]|[[_ ?]|[[_ ?]|[_ ?]]]%small_host_entries]%small_host_nodes.
  - intros q c [z Hz]. destruct q as [|? [|]]; simplify_eq/=. by eexists.
  - intros l l' i Hl Hl'. unfold inode_at. destruct (node_at small_host l) as [n|] eqn:Hn; [|done].
    destruct (node_at small_host l') as [n'|] eqn:Hn'; [|done].
    apply small_host_nodes in Hn as [[-> ->]|[[-> ->]|[[-> ->]|[-> ->]]]%small_host_entries];
    apply small_host_nodes in Hn' as [[-> ->]|[[-> ->]|[[-> ->]|[-> ->]]]%small_host_entries]; try done.
    all: try (destruct Hl; by simplify_eq/=). all: by intros [= <-].
  - intros l i. unfold inode_at. destruct (node_at small_host l) as [n|] eqn:Hn; [|done].
    by apply small_host_nodes in Hn as [[-> ->]|[[-> ->]|[[-> ->]|[-> ->]]]%small_host_entries]; intros [= <-].
Qed.

Lemma local_calls_confined_witness :
  let cs := [LWrite "x" "../etc" 0; LWrite "y" "b/c" 2; LRename "a" "b/d"; LRmdir "" true] in
  node_at (local_calls id (PathLocalBackend "/srv") cs small_host) ["etc"] = node_at small_host ["etc"] ∧
  ∀ i, inode_at small_host ["etc"] = Some i →
    hf_inodes (local_calls id (PathLocalBackend "/srv") cs small_host) !! i = hf_inodes small_host !! i.
Proof.
  apply (local_calls_confined id (PathLocalBackend "/srv") _ small_host ["etc"]).
  - apply small_host_apart.
  - intros [? ?]; by simplify_eq/=.
Defined.

(** ** Links that lead out *)

(** A root with links to a directory outside, to a file outside that is not there,
    and to itself. *)
Definition linked_host : HostFs :=
  mkFs {[["srv"] := HDir 1; ["srv"; "out"] := HLink "/etc"; ["srv"; "log"] := HLink "/etc/log"; ["srv"; "d"] := HLink ".";
         ["srv"; "pw"] := HLink "/etc/passwd"; ["etc"] := HDir 2; ["etc"; "passwd"] := HFile 3]}
    {[1%N := mkInode true "" 493 None; 2%N := mkInode true "" 493 None; 3%N := mkInode false "secret" 384 None]} 4 None.

Definition connector (follow_symlinks : bool) : LocalBackend := LocalConnectorBackend "/srv" follow_symlinks.

(** The connector that follows links refuses a file outside, by whichever link. *)
Lemma connector_refuses_existing :
  local_read_content (connector true) "out/passwd" linked_host = Err (refused "path escapes mount root: " "out/passwd") ∧
  local_read_content (connector true) "pw" linked_host = Err (refused "path escapes mount root: " "pw").
Proof. split; vm_compute; reflexivity. Qed.

(** It writes outside all the same: into a directory that is not there yet, and
    through a link to a file that is not there yet. *)
Lemma connector_writes_outside :
  host_read "/etc/new/x" (local_write_content id (connector true) "mine" "out/new/x" 0 linked_host).2 = Ok "mine" ∧
  host_read "/etc/log" (local_write_content id (connector true) "mine" "log" 0 linked_host).2 = Ok "mine".
Proof. split; vm_compute; reflexivity. Qed.

(** It reads outside as well, by a path that takes as many links as the host allows
    before the last one. *)
Lemma connector_reads_outside :
  local_read_content (connector true) (String.concat "/" (replicate MAXSYMLINKS "d" ++ ["pw"])) linked_host = Ok "secret".
Proof. vm_compute. reflexivity. Qed.

(** Told not to follow links, it follows them and does not look where they lead. *)
Lemma connector_follows_unasked :
  local_read_content (connector false) "out/passwd" linked_host = Ok "secret" ∧
  host_read "/etc/passwd" (local_write_content id (connector false) "mine" "pw" 0 linked_host).2 = Ok "mine".
Proof. split; vm_compute; reflexivity. Qed.
