(* ===== verification/KernelLocal.v ===== *)
(** * A node on its own disk

    The system calls on the stores a node runs with: rows in the local metadata
    store with its cache, bytes in local backends on the host's file system.  Both
    keep the laws the calls ask for, so what the calls promise holds of the node. *)

From S2P Require Import Prelude Bytes Codec Table LockState IoLocks IoLockProofs Router Rename Pipe PipeManager StreamBuf StreamManager MetaStore LocalStore LocalStoreProofs LocalRefine KernelTypes Dispatch Kernel KernelFiles KernelNames KernelList KernelLockProofs KernelReleases KernelWorld KernelRename KernelProofs KernelRoundtrip HostFs HostFsProofs LocalBackends BackendProofs Confined.

Section store.
Context {codec : RowCodec}.

#[global] Instance local_kernel_store : KernelStore LocalMetaStore := {|
  ks_base := local_meta_store;
  ks_put_batch := local_put_batch;
  ks_delete_batch := local_delete_batch;
  ks_rename_path := local_rename_path |}.

(** The rows of the tables. *)
Definition local_rows (s : LocalMetaStore) : gmap string FileMetadata := omap deserialize_metadata (ls_meta s).

(** The tables and the cache of a store that works. *)
Definition local_healthy (s : LocalMetaStore) : Prop := ∃ a, refines s a.

Context {laws : RowLaws}.

Lemma local_rows_refine s a : refines s a → local_rows s = sp_rows a.
Proof.
  intros [Ht _ _]. apply map_eq. intros p. unfold local_rows. rewrite lookup_omap, (tb_meta _ _ _ _ Ht), lookup_fmap.
  destruct (sp_rows a !! p) as [m|] eqn:Hp; [|done]. cbn. apply row_codec. by apply (tb_rows _ _ _ _ Ht) in Hp as [? _].
Qed.

Lemma local_store_laws : StoreLaws local_rows local_healthy.
Proof.
  split.
  - intros s [a Ha]. rewrite (local_rows_refine s a Ha). apply (tb_rows _ _ _ _ (rf_tables _ _ Ha)).
  - intros p s [a Ha]. destruct (get_refines s a p Ha) as (s' & E & Ha'). exists s'.
    rewrite (local_rows_refine s a Ha), (local_rows_refine s' a Ha'). split_and!; [done|by exists a|done].
  - intros p m s r s' [a Ha] Hm E. destruct (put_refines s a p m Ha Hm) as (s1 & E1 & Ha1).
    unfold ls_answer, mbind, Op_bind in E1. change (ms_put p m s) with (local_put p m s) in E. rewrite E in E1.
    assert (s1 = s' ∧ is_ok r = is_ok (spec_exec (LsPut p m) a).1) as [-> Hok].
    { destruct (spec_exec (LsPut p m) a) as [x a']. cbn [fst] in *. unfold mret, Op_ret in E1. by destruct r, x; simplify_eq. }
    split; [by eexists|]. rewrite (local_rows_refine _ _ Ha), (local_rows_refine _ _ Ha1), Hok.
    unfold spec_exec, spec_commit. by destruct (sp_commits a) as [|[] ?].
Qed.

(** What a get, a listing and a failed rename leave of the tables. *)
Lemma local_get_keeps p s r s' : local_get p s = Some (r, s') → ls_meta s' = ls_meta s.
Proof.
  unfold local_get, state, cache_put, decode_row, fail, mbind, Op_bind, mret, Op_ret.
  repeat case_match; intros; by simplify_eq/=.
Qed.

Lemma decode_row_keeps d s r s' : decode_row d s = Some (r, s') → s' = s.
Proof. unfold decode_row, fail, mret, Op_ret. destruct (deserialize_metadata d); by intros [= _ <-]. Qed.

Lemma local_list_keeps prefix s r s' : local_list prefix s = Some (r, s') → s' = s.
Proof.
  unfold local_list, state. unfold mbind at 1, Op_bind at 1.
  revert r. induction (rows_under prefix (ls_meta s)) as [|x l IH]; intros r; cbn [traverse]; [by intros [= _ <-]|].
  unfold mbind, Op_bind. destruct (decode_row x.2 s) as [[[m|e] s1]|] eqn:E1; [| |done]; apply decode_row_keeps in E1 as ->.
  - destruct (traverse _ l s) as [[[ms|e] s2]|] eqn:E2; [| |done]; intros [= _ <-]; by eapply IH.
  - by intros [= _ <-].
Qed.

Lemma move_rows_keeps is_pas rows meta s r s' : move_rows is_pas rows meta s = Some (r, s') → s' = s.
Proof.
  revert meta. induction rows as [|[[old new] bytes] rows IH]; intros meta; cbn; [by intros [= _ <-]|].
  unfold mbind, Op_bind. destruct (decode_row bytes s) as [[[m|e] s1]|] eqn:E1; [..|done]; apply decode_row_keeps in E1 as ->.
  - apply IH.
  - by intros [= _ <-].
Qed.

Lemma local_rename_keeps p q pas s e s' : local_rename_path p q pas s = Some (Err e, s') → ls_meta s' = ls_meta s.
Proof.
  unfold local_rename_path. case_decide; [done|]. unfold state. unfold mbind at 1, Op_bind at 1.
  unfold mbind at 1, Op_bind at 1.
  destruct (move_rows _ _ _ s) as [[[meta|e'] s1]|] eqn:E1; [..|done]; apply move_rows_keeps in E1 as ->.
  - unfold commit, cache_remove, cache_drop_prefix, mbind, Op_bind.
    destruct (ls_commits s) as [|[] rest]; [done|done|]. by intros [= _ <-].
  - by intros [= _ <-].
Qed.
End store.

(** ** The node *)

Section node.
Context {codec : RowCodec} {laws : RowLaws}.
Context {LM : LocalMounts}.
Hypothesis all_static : ∀ n b, backend_named n = Some b → static b.
Context {L : Type} `{!Locks L}.
Context {E : Type} `{!PipeBackend E}.
Context {B : Type} `{!StreamBackend B}.
Context {TX : Texts}.

Abbreviation Disk := (Kernel HostFs LocalMetaStore L E B).

Lemma disk_rename_laws : RenameLaws (W := HostFs) ls_meta sound_tree.
Proof.
  apply (local_rename_laws all_static).
  - apply local_get_keeps.
  - intros p s r s' Hs. by apply local_list_keeps in Hs as ->.
  - apply local_rename_keeps.
Qed.

(** What a write stored, a read returns, on a node with its rows in the local
    metadata store and its bytes below a root on the host.  Let a path be plain
    (reached without links of the name space, on a mount with a backend, not a link,
    pipe or stream).  If [sys_write] at offset 0 reports a hit, then every later
    [sys_read] of the path by a caller of that zone whom the gate and the hooks let
    pass succeeds, whether it goes through an open descriptor or through the lock and
    the backend, and returns the requested window of exactly the bytes written (those
    the hooks put in their place, when they did), with the content identifier and the
    generation the write reported. *)
Theorem read_after_write (now now' : Z) (p x : string) (ctx ctx' : OperationContext) (rep : option string) (r : Route)
    (b : N) (req : ReadRequest) (k k1 : Disk) (res : SysWriteResult) :
  (- I64_MAX - 1 ≤ now ≤ I64_MAX)%Z → (slen (default x rep) < U64_MOD)%N →
  all_healthy local_healthy k → stores_present k → lock_room 2 k → plain local_rows p (oc_zone_id ctx) r b k →
  apply_mutating_write_hooks p ctx x k = Some (Ok rep, k) →
  oc_zone_id ctx' = oc_zone_id ctx → apply_read_hooks p ctx' k = Some (Ok (), k) → rq_path req = p →
  sys_write_one now (mkWriteRequest p x 0) ctx k = Some (Ok res, k1) → ww_hit res = true →
  ∃ out k2, sys_read_one now' req ctx' k1 = Some (Ok out, k2) ∧
    rd_data out = Some (read_window (default x rep) (rq_offset req) (rq_len req)) ∧
    rd_content_id out = ww_content_id res ∧ rd_gen out = ww_gen res.
Proof.
  intros. eapply (write_then_read local_rows local_healthy (λ _, True) local_store_laws (local_bytes_laws all_static)); by eauto.
Qed.

End node.

(** ** A small disk *)

#[local] Instance small_codec : RowCodec := small_row_codec.
#[local] Instance small_laws : RowLaws := small_row_laws.

Definition srv : LocalMounts := {| blake3_hash x := x; backend_named n := if (n =? 0)%N then Some (PathLocalBackend "/srv") else None |}.
#[local] Existing Instance srv.

Lemma srv_static n b : backend_named n = Some b → static b.
Proof. cbn. case_match; [|done]. by intros [= <-]. Qed.

(** The row of the file below the root. *)
Definition disk_row : gmap string string := {["/a" := serialize_metadata (file_row "/a" "a" "new")]}.

Definition disk (fs : HostFs) (rows : gmap string string) (commits : list bool) :
    Kernel HostFs LocalMetaStore LockState MemoryPipe MemoryStream :=
  mkKernel (bare_config None) one_mount trie_new fs {[0%N := mkLocal rows ∅ ∅ ∅ commits]}
    (lock_manager_new lock_state_new) None ∅ manager_new stream_manager_new ∅ [] [] [].

Lemma disk_sound : sound_tree small_host.
Proof.
  split; [apply small_host_wf|]. intros n b. cbn. case_match; [|done]. intros [= <-].
  split; [apply (ap_plain _ _ small_host_apart)|apply (ap_links _ _ small_host_apart)].
Qed.

Lemma disk_stores_present fs rows commits : stores_present (disk fs rows commits).
Proof.
  assert (∀ mp id, store_at (k_config (disk fs rows commits)) (k_router (disk fs rows commits)) mp = Some id → id = 0%N) as Hst.
  { intros mp id. unfold store_at. cbn [disk k_router k_config bare_config kc_metastore].
    destruct (one_mount !! mp) as [e|] eqn:He; [|by intros [= <-]].
    unfold one_mount in He. apply lookup_singleton_Some in He as [_ <-]. cbn. by intros [= <-]. }
  split.
  - intros p z r Hr id Hid. assert (id = 0%N) as ->; [|by eexists].
    apply (Hst (rr_mount_point r)). unfold store_at. by rewrite (route_metastore _ _ _ _ Hr).
  - intros mp id ->%Hst. by eexists.
Qed.

Lemma disk_plain :
  plain local_rows "/b" "root" (mkRouteResult "/root" "b" "root" false false None (Some 0%N) None) 0 (disk small_host ∅ []).
Proof.
  split; try (vm_compute; reflexivity).
  - intros [i Hi]. vm_compute in Hi. discriminate.
  - intros m Hm. vm_compute in Hm. discriminate.
  - intros h Hh. vm_compute in Hh. discriminate.
Qed.

Lemma read_after_write_witness : ∃ res k1,
  sys_write_one 5 (mkWriteRequest "/b" "hello" 0) root_user (disk small_host ∅ []) = Some (Ok res, k1) ∧
  ∃ out k2, sys_read_one 6 (mkReadRequest "/b" 1 (Some 3%N) 0) root_user k1 = Some (Ok out, k2) ∧
    rd_data out = Some (read_window (default "hello" None) 1 (Some 3%N)) ∧
    rd_content_id out = ww_content_id res ∧ rd_gen out = ww_gen res.
Proof.
  destruct (succeeds_inv (sys_write_one 5 (mkWriteRequest "/b" "hello" 0) root_user (disk small_host ∅ [])) ww_hit)
    as (res & k1 & E1 & Hhit); [vm_compute; reflexivity|]. exists res, k1. split; [exact E1|].
  apply (read_after_write srv_static 5 6 "/b" "hello" root_user root_user None
    (mkRouteResult "/root" "b" "root" false false None (Some 0%N) None) 0 (mkReadRequest "/b" 1 (Some 3%N) 0)
    (disk small_host ∅ []) k1 res); try reflexivity; try exact E1; try exact Hhit.
  - done.
  - intros n s Hs. cbn in Hs. apply lookup_singleton_Some in Hs as [_ <-]. eexists. apply empty_refines.
  - apply disk_stores_present.
  - split; [by split|]. split; [apply new_inv|]. split; [reflexivity|]. split; vm_compute; reflexivity.
  - apply disk_plain.
Defined.


(** A copy of a file onto itself reports success and leaves the file without bytes:
    nothing compares the two paths, and the host empties the destination before it
    reads the source. *)
Lemma copy_onto_itself_empties :
  let k := disk small_host disk_row [] in
  let x := sys_copy 5 "/a" "/a" root_user k in
  host_read "/srv/a" (k_storage k) = Ok "new" ∧ fails x = false ∧ host_read "/srv/a" (k_storage (after k x)) = Ok "".
Proof. split_and!; vm_compute; reflexivity. Qed.
