(* ===== verification/KernelFrame.v ===== *)
(** * Files do not interfere

    On a node with its own disk, the bytes of a file change by nothing that is done
    to other files: reads, writes, copies, new directories and removals at other
    paths, whatever their outcome, leave its row, its bytes and its descriptor as they
    are. *)

From S2P Require Import Prelude Bytes Codec Table LockState IoLocks IoLockProofs Router RouterProofs Rename Pipe PipeManager StreamBuf StreamManager MetaStore LocalStore LocalStoreProofs LocalRefine KernelTypes Dispatch Kernel KernelFiles KernelNames KernelList KernelLockProofs KernelReleases KernelWorld KernelRename KernelProofs KernelRoundtrip HostFs HostFsProofs LocalBackends BackendProofs Confined KernelLocal.

(** ** Files of the host *)

Section host.
Context {LM : LocalMounts}.
Hypothesis all_static : ∀ n b, backend_named n = Some b → static b.

(** No links of either kind, and no file that is too large. *)
Record host_ok (fs : HostFs) : Prop := {
  ho_sound : sound_tree fs;
  ho_names l l' i : hf_tree fs !! l = Some (HFile i) → hf_tree fs !! l' = Some (HFile i) → l = l';
  ho_sizes l i : hf_tree fs !! l = Some (HFile i) → (slen (bytes_of i fs) < U64_MOD)%N }.

Definition file_at (l : list string) (y : string) (fs : HostFs) : Prop :=
  ∃ i, hf_tree fs !! l = Some (HFile i) ∧ bytes_of i fs = y.

(** The file at [l] may have changed, and no other. *)
Definition only (l : list string) (fs fs' : HostFs) : Prop :=
  host_ok fs' ∧ ∀ l' y, l' ≠ l → file_at l' y fs → file_at l' y fs'.

Lemma only_refl l fs : host_ok fs → only l fs fs.
Proof. by split. Qed.

Lemma only_trans l fs1 fs2 fs3 : only l fs1 fs2 → only l fs2 fs3 → only l fs1 fs3.
Proof. intros [_ H1] [H H2]. split; auto. Qed.

Lemma grows_only l fs fs' : host_ok fs → grows fs fs' → only l fs fs'.
Proof.
  intros [Hs Hn Hz] Hg. pose proof Hg as [O N I X Wf]. pose proof (proj1 Hs) as Hwf.
  assert (∀ l i, hf_tree fs' !! l = Some (HFile i) → hf_tree fs !! l = Some (HFile i)) as Hold.
  { intros l0 i [?|[? ?]]%N; done. }
  assert (∀ l i, hf_tree fs !! l = Some (HFile i) → bytes_of i fs' = bytes_of i fs) as Hb.
  { intros l0 i Hi. unfold bytes_of. by rewrite I by by eapply tw_inode. }
  split.
  - split; [by eapply grows_sound|eauto|]. intros l0 i Hi%Hold. rewrite (Hb l0 i Hi). by eapply Hz.
  - intros l' y _ (i & Hi & <-). exists i. split; [by apply O|by eapply Hb].
Qed.

(** The bytes of the file at [l]. *)
Lemma set_bytes_only l i x fs :
  host_ok fs → hf_tree fs !! l = Some (HFile i) → (slen x < U64_MOD)%N → only l fs (set_bytes i x fs).
Proof.
  intros [Hs Hn Hz] Hi Hx. assert (∀ j, j ≠ i → bytes_of j (set_bytes i x fs) = bytes_of j fs) as Hb.
  { intros j Hj. unfold bytes_of. cbn. by rewrite lookup_insert_ne. }
  split.
  - split; [|done|].
    + apply (sound_within fs); [done| |done]. by apply (tree_wf_same fs), Hs.
    + intros l' j Hj. destruct (decide (j = i)) as [->|Hne]; [|rewrite Hb by done; by eapply Hz].
      unfold bytes_of. cbn. by rewrite lookup_insert_eq.
  - intros l' y Hne (j & Hj & <-). exists j. split; [done|]. apply Hb. intros ->. by apply Hne, (Hn _ _ i).
Qed.

Lemma splice_length off x old : slen (splice off x old) = N.max (slen old) (off + slen x).
Proof.
  unfold splice. rewrite !slen_app_N, slen_zeros. unfold slen at 1 4 5. rewrite slen_stake, slen_sdrop. unfold slen. lia.
Qed.

(** A new file. *)
Lemma new_file_only l fs mode :
  host_ok fs → tree_wf (new_entry l false mode fs) → hf_tree fs !! l = None → only l fs (new_entry l false mode fs).
Proof.
  intros [Hs Hn Hz] Hwf' Hl. pose proof (proj1 Hs) as Hwf.
  assert (∀ l' i, hf_tree (new_entry l false mode fs) !! l' = Some (HFile i) →
    (l' = l ∧ i = hf_next fs) ∨ hf_tree fs !! l' = Some (HFile i)) as Hold.
  { intros l' i. cbn. intros [[<- [= <-]]|[_ ?]]%lookup_insert_Some; auto. }
  assert (∀ i, (i < hf_next fs)%N → bytes_of i (new_entry l false mode fs) = bytes_of i fs) as Hb.
  { intros i Hi. unfold bytes_of. cbn. rewrite lookup_insert_ne; [done|lia]. }
  split.
  - split.
    + apply (sound_within fs); [done..|]. intros l' t. cbn. by intros [[_ [=]]|[_ ?]]%lookup_insert_Some.
    + intros l1 l2 i [[-> ->]|H1]%Hold [[-> E]|H2]%Hold; [done| | |by eapply Hn].
      * apply (tw_inode _ Hwf) in H2. lia.
      * apply (tw_inode _ Hwf) in H1. lia.
    + intros l' i [[-> ->]|Hi]%Hold; [unfold bytes_of; cbn; by rewrite lookup_insert_eq|].
      rewrite Hb by by eapply tw_inode. by eapply Hz.
  - intros l' y Hne (i & Hi & <-). exists i. split; [cbn; by rewrite lookup_insert_ne|]. apply Hb. by eapply tw_inode.
Qed.

Lemma set_len_only l i n fs r fs' :
  host_ok fs → hf_tree fs !! l = Some (HFile i) → (slen (bytes_of i fs) ≤ n)%N → set_len i n fs = (r, fs') →
  only l fs fs' ∧ hf_tree fs' = hf_tree fs.
Proof.
  intros Ho Hi Hn. unfold set_len, io_fail, io_update. destruct (N.ltb_spec FILE_MAX n) as [?|Hm]; intros [= <- <-];
    (split; [|done]); [by apply only_refl|]. apply set_bytes_only; [done..|]. unfold FILE_MAX, U64_MOD in *.
  rewrite slen_app_N, slen_zeros. unfold slen in *. rewrite slen_stake. lia.
Qed.

Lemma write_at_only l i off x fs r fs' :
  host_ok fs → hf_tree fs !! l = Some (HFile i) → (slen x < 2 ^ 63)%N → write_at i off x fs = (r, fs') →
  only l fs fs' ∧ hf_tree fs' = hf_tree fs.
Proof.
  intros Ho Hi Hx. unfold write_at, io_fail, io_update. destruct (N.ltb_spec FILE_MAX off) as [?|Hm]; intros [= <- <-];
    (split; [|done]); [by apply only_refl|]. apply set_bytes_only; [done..|]. rewrite splice_length.
  pose proof (ho_sizes _ Ho l i Hi). unfold FILE_MAX, U64_MOD in *. lia.
Qed.

Lemma set_mode_only l i mode fs : host_ok fs → only l fs (set_mode i mode fs).
Proof.
  intros [Hs Hn Hz]. assert (∀ j, bytes_of j (set_mode i mode fs) = bytes_of j fs) as Hb.
  { intros j. unfold bytes_of. cbn. destruct (decide (i = j)) as [<-|Hne]; [|by rewrite lookup_alter_ne].
    rewrite lookup_alter_eq. by destruct (hf_inodes fs !! i). }
  split.
  - split; [|done|].
    + apply (sound_within fs); [done| |done]. by eapply (tree_wf_same fs), Hs.
    + intros l' j Hj. rewrite Hb. by eapply Hz.
  - intros l' y _ (j & Hj & <-). by exists j.
Qed.

(** The bytes of the files that were there do not change when one is opened. *)
Lemma open_create_bytes p i fs : (i < hf_next fs)%N → bytes_of i (open_create p fs).2 = bytes_of i fs.
Proof.
  intros Hi. unfold open_create. repeat case_match; try done. unfold bytes_of. cbn. rewrite lookup_insert_ne; [done|lia].
Qed.

Lemma host_read_size p y fs : tree_wf fs → host_read p fs = Ok y → ∃ l i, hf_tree fs !! l = Some (HFile i) ∧ y = bytes_of i fs.
Proof.
  intros Hwf. unfold host_read, find_node. destruct (walk fs true (comps p)) as [l|]; cbn [mbind result_bind]; [|done].
  destruct (node_at fs l) as [n|] eqn:Hn; [|done]. destruct (_ && _); [done|]. destruct n as [i|i|t]; [|done..].
  intros [= <-]. exists l, i. split; [|done]. unfold node_at in Hn. by case_decide.
Qed.

(** ** A write of the backend *)

Section write.
Context (n : N) (bk : LocalBackend) (cid : string).
Hypothesis named : backend_named n = Some bk.
Hypothesis no_dots : has_substring ".." (trim_start "/" cid) = false.
Abbreviation place := (loc bk cid).

Lemma open_create_only fs r fs' :
  host_ok fs → open_create (physical bk cid) fs = (r, fs') →
  only place fs fs' ∧ ∀ i, r = Ok i → hf_tree fs' !! place = Some (HFile i).
Proof.
  intros Ho. assert (rooted fs bk) as Hr by (by eapply (ho_sound _ Ho)). unfold open_create. rewrite comps_physical.
  pose proof (loc_plain _ _ _ Hr no_dots) as Hp. pose proof (loc_clear _ _ cid Hr) as Hc.
  pose proof (proj1 (ho_sound _ Ho)) as Hwf.
  destruct (walk fs true place) as [l|] eqn:Hw; [|intros [= <- <-]; split; [by apply only_refl|done]].
  pose proof Hw as Hw'. apply walk_direct in Hw' as ->; [|done..].
  destruct (node_at fs place) as [[i|i|t]|] eqn:Hn; [|intros [= <- <-]; split; [by apply only_refl|done]..|].
  - destruct (names_dir _); intros [= <- <-]; (split; [by apply only_refl|]); [done|]. intros j [= <-].
    unfold node_at in Hn. by case_decide.
  - destruct (names_dir _); [intros [= <- <-]; split; [by apply only_refl|done]|]. intros [= <- <-].
    destruct (namei_parent _ _ _ _ _ _ Hwf (ex_intro _ 0%N (node_nil fs)) Hw) as [[j Hj]|(l' & c & j & El & Hj)];
      [congruence|].
    pose proof (new_entry_wf place false 420 fs l' c j Hwf Hn El Hj) as Hwf'.
    assert (hf_tree fs !! place = None) as Hnone by (unfold node_at in Hn; by case_decide).
    split; [|intros i [= <-]; cbn; by rewrite lookup_insert_eq]. by apply new_file_only.
Qed.

Lemma host_copy_only src fs r fs' :
  host_ok fs → host_copy src (physical bk cid) fs = (r, fs') →
  only place fs fs' ∧ ∀ size, r = Ok size → (size < U64_MOD)%N.
Proof.
  intros Ho. unfold host_copy. destruct (find_node true src fs) as [[i|i|t]|e] eqn:Ei;
    try (intros [= <- <-]; split; [by apply only_refl|done]).
  assert (∃ l, hf_tree fs !! l = Some (HFile i)) as [l Hl].
  { unfold find_node in Ei. destruct (walk _ _ _) as [l|]; cbn [mbind result_bind] in Ei; [|done].
    destruct (node_at fs l) as [d|] eqn:Hn; [|done]. destruct (_ && _); [done|]. injection Ei as ->. exists l. unfold node_at in Hn. by case_decide. }
  unfold mbind, Io_bind, mret, Io_ret. pose proof (open_create_bytes (physical bk cid) i fs) as Hbytes.
  destruct (open_create (physical bk cid) fs) as [r2 fs2] eqn:E2. cbn [snd] in Hbytes.
  destruct (open_create_only fs r2 fs2 Ho E2) as [Ho2 Hj]. destruct r2 as [j|e]; [|intros [= <- <-]; by split].
  specialize (Hj j eq_refl). unfold io_update, io_reads. cbv beta iota. set (mode := from_option in_mode 0%N _).
  assert (only place fs (set_mode j mode (set_bytes j "" fs2))) as Ho3.
  { assert (only place fs2 (set_bytes j "" fs2)) as Hs by (by apply set_bytes_only; [apply Ho2|..]).
    eapply only_trans; [done|]. eapply only_trans; [done|]. apply set_mode_only, Hs. }
  assert (slen (bytes_of i (set_mode j mode (set_bytes j "" fs2))) < U64_MOD)%N as Hsize.
  { pose proof (tw_inode _ (proj1 (ho_sound _ Ho)) _ _ Hl) as Hi. destruct (decide (j = i)) as [<-|Hne].
    - unfold bytes_of. cbn. rewrite lookup_alter_eq, lookup_insert_eq. done.
    - replace (bytes_of i _) with (bytes_of i fs); [by eapply ho_sizes|]. rewrite <-(Hbytes Hi). unfold bytes_of. cbn.
      by rewrite lookup_alter_ne, lookup_insert_ne by done. }
  intros [= <- <-]. split; [|by intros size [= <-]]. eapply only_trans; [exact Ho3|]. apply set_bytes_only; [apply Ho3|exact Hj|exact Hsize].
Qed.

(** The write as a whole: at any offset, whatever comes of it. *)
Lemma write_only hash x off fs r fs' :
  host_ok fs → (slen x < U64_MOD)%N → (off ≠ 0 → slen x < 2 ^ 63)%N → cid ≠ "" → local_write_content hash bk x cid off fs = (r, fs') →
  only place fs fs' ∧ ∀ wr, r = Ok wr → wr_content_id wr = cid ∧ (wr_size wr < U64_MOD)%N.
Proof.
  intros Ho Hx Hoff Hne. unfold local_write_content. rewrite decide_False by done.
  unfold st_of, mbind, St_bind, mret, St_ret, io. rewrite resolve_static, no_dots by by eapply all_static.
  pose proof (make_parent_grows (physical bk cid) fs) as Hg.
  destruct (make_parent (physical bk cid) fs) as [[u|e] fs1]; cbn [snd] in Hg;
    pose proof (grows_only place fs fs1 Ho Hg) as Ho1; [|intros [= <- <-]; by split].
  destruct (N.eqb_spec off 0) as [_|Hne0].
  - unfold host_write, mbind, Io_bind. destruct (open_create (physical bk cid) fs1) as [r2 fs2] eqn:E2.
    destruct (open_create_only fs1 r2 fs2 (proj1 Ho1) E2) as [Ho2 Hi].
    pose proof (only_trans _ _ _ _ Ho1 Ho2) as Ho12. destruct r2 as [i|e]; [|intros [= <- <-]; by split].
    intros [= <- <-]. split.
    + eapply only_trans; [done|]. by apply set_bytes_only; [apply Ho2|apply Hi|].
    + by intros wr [= <-].
  - destruct (open_create (physical bk cid) fs1) as [r2 fs2] eqn:E2.
    destruct (open_create_only fs1 r2 fs2 (proj1 Ho1) E2) as [Ho2 Hi].
    pose proof (only_trans _ _ _ _ Ho1 Ho2) as Ho12. destruct r2 as [i|e]; [|intros [= <- <-]; by split].
    specialize (Hi i eq_refl). cbv zeta. set (m := N.max _ _).
    match goal with |- (match ?t with (_, _) => _ end) = _ → _ => destruct t as [r3 fs3] eqn:E3 end.
    assert (only place fs2 fs3 ∧ hf_tree fs3 = hf_tree fs2) as [Ho3 Ht3].
    { destruct (N.ltb_spec (slen (bytes_of i fs2)) m) as [Hm|_]; [|unfold mret, St_ret in E3; simplify_eq; split; [apply only_refl, Ho2|done]].
      destruct (set_len i m fs2) as [r4 fs4] eqn:E4. apply (set_len_only place) in E4; [|apply Ho2|done|lia].
      by destruct r4; simplify_eq. }
    pose proof (only_trans _ _ _ _ Ho12 Ho3) as Ho13. destruct r3 as [u3|e]; [|intros [= <- <-]; by split].
    destruct (write_at i off x fs3) as [r4 fs4] eqn:E4.
    apply (write_at_only place) in E4 as [Ho4 Ht4]; [|apply Ho3|by rewrite Ht3|by apply Hoff].
    pose proof (only_trans _ _ _ _ Ho13 Ho4) as Ho14. destruct r4 as [u4|e]; [|intros [= <- <-]; by split].
    unfold io_reads. destruct (host_read (physical bk cid) fs4) as [y|e] eqn:E5; intros [= <- <-]; (split; [done|]); [|done].
    intros wr [= <-]. split; [done|]. cbn. apply host_read_size in E5 as (l & j & Hj & ->); [|apply Ho4]. by eapply ho_sizes; [apply Ho4|].
Qed.
End write.

Lemma write_frame n bk hash x cid off fs r fs' :
  backend_named n = Some bk → host_ok fs → (slen x < U64_MOD)%N → (off ≠ 0 → slen x < 2 ^ 63)%N →
  local_write_content hash bk x cid off fs = (r, fs') →
  only (loc bk cid) fs fs' ∧ ∀ wr, r = Ok wr → wr_content_id wr = cid ∧ (wr_size wr < U64_MOD)%N.
Proof.
  intros Hb Ho Hx Hoff E. destruct (decide (cid = "")) as [->|Hne].
  { unfold local_write_content in E. rewrite decide_True in E by done. injection E as <- <-. split; [by apply only_refl|done]. }
  destruct (has_substring ".." (trim_start "/" cid)) eqn:Hd; [|by eapply write_only].
  unfold local_write_content in E. rewrite decide_False in E by done. unfold st_of, mbind, St_bind in E.
  rewrite resolve_static, Hd in E by by eapply all_static. injection E as <- <-. split; [by apply only_refl|done].
Qed.

(** ** Directories, removals and copies of the backend *)

(** Entries that go away. *)
Lemma pruned_ok fs fs' :
  host_ok fs → tree_wf fs' → hf_inodes fs' = hf_inodes fs → (∀ l n, hf_tree fs' !! l = Some n → hf_tree fs !! l = Some n) → host_ok fs'.
Proof.
  intros [Hs Hn Hz] Hwf Hi Ht. split; [by apply (sound_within fs); auto|eauto|].
  intros l i Hl%Ht. unfold bytes_of. rewrite Hi. by eapply Hz.
Qed.

Lemma delete_only l fs :
  host_ok fs → (∀ s, s ≠ [] → hf_tree fs !! (l ++ s) = None) → only l fs (set_tree (delete l (hf_tree fs)) fs).
Proof.
  intros Ho Hl. split.
  - apply (pruned_ok fs); [done| |done|cbn; by intros ?? [_ ?]%lookup_delete_Some].
    apply (tree_wf_without fs _ l); [apply (ho_sound _ Ho)|done..|]. intros l'. cbn. case_decide as E.
    + by rewrite E, lookup_delete_eq.
    + by rewrite lookup_delete_ne.
  - intros l' y Hne (i & Hi & Hy). exists i. split; [|done]. cbn. by rewrite lookup_delete_ne.
Qed.

Lemma below_gone l fs :
  host_ok fs → l ≠ [] → host_ok (set_tree (filter (λ x, ¬ l `prefix_of` x.1) (hf_tree fs)) fs).
Proof.
  intros Ho Hl. pose proof (proj1 (ho_sound _ Ho)) as Hwf. apply (pruned_ok fs); [done| |done|cbn; by intros ?? [? _]%map_lookup_filter_Some].
  split; cbn.
  - apply map_lookup_filter_None. left. apply Hwf.
  - intros l' c n [Hn Hp]%map_lookup_filter_Some. destruct (tw_parent _ Hwf _ _ _ Hn) as [i Hi]. exists i. unfold node_at in *.
    case_decide; [done|]. cbn. apply map_lookup_filter_Some. split; [done|]. cbn in *. intros Hl'. apply Hp. by apply prefix_app_r.
  - intros l' i [Hi _]%map_lookup_filter_Some. by eapply tw_inode.
Qed.

Section remove.
Context (n : N) (bk : LocalBackend) (q : string).
Hypothesis named : backend_named n = Some bk.

(** The walk to the place of [q]. *)
Lemma place_walk fs l :
  host_ok fs → has_substring ".." (trim_start "/" q) = false → walk fs false (loc bk q) = Ok l → l = loc bk q.
Proof.
  intros Ho Hd Hw. assert (rooted fs bk) as Hr by (by eapply (ho_sound _ Ho)).
  apply walk_direct in Hw; [done|by eapply loc_plain|by apply loc_clear].
Qed.

Lemma place_no_link fs t : host_ok fs → node_at fs (loc bk q) ≠ Some (HLink t).
Proof. intros Ho. assert (rooted fs bk) as Hr by (by eapply (ho_sound _ Ho)). by apply (loc_clear fs bk q Hr). Qed.

Lemma copy_frame hash src fs r fs' :
  host_ok fs → local_copy_file hash bk src q fs = (r, fs') →
  only (loc bk q) fs fs' ∧ ∀ wr, r = Ok wr → wr_content_id wr = q ∧ (wr_size wr < U64_MOD)%N.
Proof.
  intros Ho. unfold local_copy_file, st_of, mbind, St_bind, mret, St_ret. rewrite !resolve_static by by eapply all_static.
  destruct (has_substring ".." (trim_start "/" src)); [intros [= <- <-]; split; [by apply only_refl|done]|].
  destruct (has_substring ".." (trim_start "/" q)) eqn:Hd; [intros [= <- <-]; split; [by apply only_refl|done]|].
  pose proof (make_parent_grows (physical bk q) fs) as Hg.
  destruct (make_parent (physical bk q) fs) as [[u|e] fs1]; cbn [snd] in Hg;
    pose proof (grows_only (loc bk q) fs fs1 Ho Hg) as Ho1; [|intros [= <- <-]; by split].
  unfold io. destruct (host_copy _ _ fs1) as [r2 fs2] eqn:E2.
  destruct (host_copy_only n bk q named Hd _ _ _ _ (proj1 Ho1) E2) as [Ho2 Hsize].
  pose proof (only_trans _ _ _ _ Ho1 Ho2) as Ho12. destruct r2 as [size|e]; [|intros [= <- <-]; by split].
  unfold io_reads. destruct (host_read _ fs2); intros [= <- <-]; (split; [done|]); [|done]. intros wr [= <-]. split; [done|]. by apply Hsize.
Qed.

Lemma delete_frame fs r fs' : host_ok fs → local_delete_file bk q fs = (r, fs') → only (loc bk q) fs fs'.
Proof.
  intros Ho. unfold local_delete_file, st_of, mbind, St_bind. rewrite resolve_static by by eapply all_static.
  destruct (has_substring _ _) eqn:Hd; [intros [= _ <-]; by apply only_refl|]. unfold io_or_not_found, host_remove_file.
  rewrite comps_physical. destruct (walk fs false (loc bk q)) as [l|] eqn:Hw; [|intros [= _ <-]; by apply only_refl].
  apply place_walk in Hw as ->; [|done..]. destruct (node_at fs (loc bk q)) as [[i|i|t]|] eqn:Hn.
  - destruct (names_dir _); intros [= _ <-]; [by apply only_refl|]. apply delete_only; [done|]. intros s Hs.
    apply nothing_below; [apply (ho_sound _ Ho)| |done]. intros j. congruence.
  - intros [= _ <-]. by apply only_refl.
  - by apply place_no_link in Hn.
  - intros [= _ <-]. by apply only_refl.
Qed.

Lemma rmdir_frame recursive fs r fs' :
  host_ok fs → local_rmdir bk q recursive fs = (r, fs') →
  host_ok fs' ∧ ∀ l y, (recursive = true → ¬ loc bk q `prefix_of` l) → file_at l y fs → file_at l y fs'.
Proof.
  intros Ho. unfold local_rmdir, st_of, mbind, St_bind. rewrite resolve_static by by eapply all_static.
  destruct (has_substring _ _) eqn:Hd; [by intros [= _ <-]|]. unfold io, remove_dir_all, remove_dir. rewrite comps_physical.
  destruct recursive; (destruct (walk fs false (loc bk q)) as [l|] eqn:Hw; [|by intros [= _ <-]]);
    (apply place_walk in Hw as ->; [|done..]); (destruct (node_at fs (loc bk q)) as [[i|i|t]|] eqn:Hn; try by intros [= _ <-]);
    try (by apply place_no_link in Hn); (case_decide as Hl; [by intros [= _ <-]|]).
  - intros [= _ <-]. split; [by apply below_gone|]. intros l y Hp (j & Hj & Hy). exists j. split; [|done].
    cbn. apply map_lookup_filter_Some. split; [done|]. by apply Hp.
  - destruct (has_children (loc bk q) fs) eqn:Hc; [by intros [= _ <-]|]. intros [= _ <-].
    destruct (delete_only (loc bk q) fs Ho) as [Ho' Hk]; [intros; by apply no_children|]. split; [done|].
    intros l y _ Hf. apply Hk; [|done]. intros ->. destruct Hf as (j & Hj & _). unfold node_at in Hn. rewrite decide_False in Hn by done.
    congruence.
Qed.

Lemma mkdir_frame parents fs r fs' l : host_ok fs → local_mkdir bk q parents fs = (r, fs') → only l fs fs'.
Proof.
  intros Ho. unfold local_mkdir, st_of, mbind, St_bind. destruct (resolve_path _ _ _); [|intros [= _ <-]; by apply only_refl].
  unfold io. intros E. apply grows_only; [done|]. destruct parents.
  - pose proof (create_dir_all_grows (comps a) fs) as Hg. by destruct (create_dir_all (comps a) fs) as [[]]; simplify_eq.
  - pose proof (create_dir_grows (comps a) fs) as Hg. by destruct (create_dir (comps a) fs) as [[]]; simplify_eq.
Qed.
End remove.
End host.

(** ** Names without links *)

Section links.
Context {codec : RowCodec}.
Context {L : Type} `{!Locks L}.
Context {E : Type} `{!PipeBackend E}.
Context {B : Type} `{!StreamBackend B}.
Context {TX : Texts}.
Implicit Types (k : Kernel HostFs LocalMetaStore L E B).

(** No row is a link of the name space. *)
Definition no_links k : Prop := ∀ id q m, row_in local_rows k id q = Some m → md_entry_type m ≠ DT_LINK.

(** Rows are kept under their paths. *)
Definition keyed k : Prop := ∀ id q m, row_in local_rows k id q = Some m → md_path m = q.

Lemma ancestor_no_link k a z o :
  no_links k → ancestor_row local_rows k a z = Ok o → match o with Some e => dt_link_target a e | None => Ok None end = Ok None.
Proof.
  intros Hk Ha. destruct o as [e|]; [|done]. apply not_link_target. unfold ancestor_row, route_row in Ha.
  repeat case_match; simplify_eq/=; try (by eapply Hk).
  destruct (resolve_metastore _ _) as [id|]; simplify_eq/=. by eapply Hk.
Qed.

(** No search finds a link, and one that ends well goes on ending well. *)
Lemma links_none k cuts z t : no_links k → links local_rows k cuts z ≠ Ok (Some t).
Proof.
  intros Hk. induction cuts as [|[a below] cuts IH]; cbn [links]; [done|].
  destruct (ancestor_row local_rows k a z) as [o|] eqn:Ha; cbn [mbind result_bind]; [|done].
  by rewrite (ancestor_no_link k a z o Hk Ha).
Qed.

Lemma links_still k k' cuts z :
  k_config k' = k_config k → k_router k' = k_router k → no_links k → no_links k' →
  links local_rows k cuts z = Ok None → links local_rows k' cuts z = Ok None.
Proof.
  intros C R Hk Hk'. induction cuts as [|[a below] cuts IH]; [done|]. cbn [links].
  destruct (ancestor_row local_rows k a z) as [o|] eqn:Ha; cbn [mbind result_bind]; [|done].
  assert (∃ o', ancestor_row local_rows k' a z = Ok o') as [o' Ha'].
  { revert Ha. unfold ancestor_row. rewrite C, R. repeat case_match; by eauto. }
  rewrite Ha'. cbn [mbind result_bind]. rewrite (ancestor_no_link k a z o Hk Ha), (ancestor_no_link k' a z o' Hk' Ha').
  cbn [mbind result_bind]. apply IH.
Qed.
End links.

(** ** A file that is kept *)

Section frame.
Context {codec : RowCodec} {laws : RowLaws}.
Context {LM : LocalMounts}.
Hypothesis all_static : ∀ n b, backend_named n = Some b → static b.
Context {L : Type} `{!Locks L}.
Context {E : Type} `{!PipeBackend E}.
Context {B : Type} `{!StreamBackend B}.
Context {TX : Texts}.

Abbreviation Disk := (Kernel HostFs LocalMetaStore L E B).
Abbreviation K := (@K HostFs LocalMetaStore L E B).
Implicit Types (k : Disk).

(** The configuration and the mounts, which the calls do not change; the file
    at [p] with its row [m] and its bytes [y]; and the other paths. *)
Context (cfg : KernelConfig) (rt : MountTable) (tr : Trie).
Hypothesis no_cache : kc_federation_cache cfg = None.
Context (p : string) (r : Route) (bk : LocalBackend) (m : FileMetadata) (cid y : string).
Context (Q : string → Prop).

(** An identifier under which a write to [q] goes to another file of the host. *)
Definition away (q cid' : string) : Prop :=
  ∀ z r' n b, route rt q z = Some r' → rr_backend r' = Some n → backend_named n = Some b → loc b cid' ≠ loc bk cid.

Hypothesis others : ∀ q, Q q → q ≠ p ∧ ∀ z r', route rt q z = Some r' → away q (rr_backend_path r').

Record Safe k : Prop := {
  sf_config : k_config k = cfg;
  sf_router : k_router k = rt;
  sf_trie : k_trie k = tr;
  sf_healthy : all_healthy local_healthy k;
  sf_present : stores_present k;
  sf_no_links id q m' : row_in local_rows k id q = Some m' → md_entry_type m' ≠ DT_LINK;
  sf_paths id q m' : q ≠ p → row_in local_rows k id q = Some m' → md_path m' = q;
  sf_row : route_row local_rows k r p = Some m;
  sf_away id q m' : Q q → row_in local_rows k id q = Some m' →
    md_entry_type m' ≠ DT_MOUNT ∧ ∀ cid', md_content_id m' = Some cid' → away q cid';
  sf_host : host_ok (k_storage k);
  sf_file : file_at (loc bk cid) y (k_storage k);
  sf_fdt h : k_fdt k !! p = Some h → fh_physical_path h = physical bk cid }.

(** What keeps it, whatever comes of it. *)
Definition stable {A} (c : K A) : Prop := ∀ k x k', Safe k → c k = Some (x, k') → Safe k'.

(** A change of something else. *)
Lemma safe_other k k' :
  Safe k → k_config k' = k_config k → k_router k' = k_router k → k_trie k' = k_trie k → k_stores k' = k_stores k →
  k_storage k' = k_storage k → k_fdt k' = k_fdt k → Safe k'.
Proof.
  intros [C R T Hh Hp Hl Hn Hr Ha Ho Hf Hd] C' R' T' S' W' F'.
  assert (∀ id q, row_in local_rows k' id q = row_in local_rows k id q) as Hrow by (intros; unfold row_in; by rewrite S').
  split; rewrite ?C', ?R', ?T', ?W', ?F'; try done.
  - intros id s. rewrite S'. apply Hh.
  - unfold stores_present, route_present in *. by rewrite C', R', S'.
  - intros id q m'. rewrite Hrow. apply Hl.
  - intros id q m'. rewrite Hrow. apply Hn.
  - unfold route_row in *. rewrite C'. destruct (resolve_metastore _ _); [|done]. cbn in *. by rewrite Hrow.
  - intros id q m'. rewrite Hrow. apply Ha.
Qed.

Lemma stable_ret {A} (a : A) : stable (mret a).
Proof. intros k x k' Hk [= _ <-]. done. Qed.
Lemma stable_throw {A} e : stable (throw e : K A).
Proof. intros k x k' Hk [= _ <-]. done. Qed.
Lemma stable_reads {A} (f : Disk → A) : stable (reads f).
Proof. intros k x k' Hk [= _ <-]. done. Qed.
Lemma stable_config {A} (f : KernelConfig → A) : stable (config f : K A).
Proof. apply stable_reads. Qed.
Lemma stable_of_result {A} (x : result KernelError A) : stable (of_result x : K A).
Proof. destruct x; [apply stable_ret|apply stable_throw]. Qed.

Lemma stable_bind {A C} (c : K A) (f : A → K C) : stable c → (∀ a, stable (f a)) → stable (c ≫= f).
Proof.
  intros Hc Hf k x k' Hk. unfold mbind, K_bind. destruct (c k) as [[[a|e] k1]|] eqn:E1; [| |done].
  - apply Hf. by eapply Hc.
  - intros [= _ <-]. by eapply Hc.
Qed.

Lemma stable_ret_bind {A C} (a : A) (f : A → K C) : stable (f a) → stable (mret a ≫= f).
Proof. intros Hf k x k' Hk E1. by eapply Hf. Qed.

Lemma stable_throw_bind {A C} e (f : A → K C) : stable (throw e ≫= f).
Proof. intros k x k' Hk [= _ <-]. done. Qed.

Lemma stable_attempt {A} (c : K A) : stable c → stable (attempt c).
Proof.
  intros Hc k x k' Hk. unfold attempt. destruct (c k) as [[a k1]|] eqn:E1; [|done]. intros [= _ <-]. by eapply Hc.
Qed.

Lemma stable_still {A} (c : K A) : (∀ k, still c k) → stable c.
Proof. intros Hc k x k' Hk E1. destruct (Hc k) as [x' E2]. rewrite E2 in E1. by injection E1 as _ <-. Qed.

(** Locks, pipes, streams, events and posts. *)
Lemma stable_modify f :
  (∀ k, k_config (f k) = k_config k ∧ k_router (f k) = k_router k ∧ k_trie (f k) = k_trie k ∧
        k_stores (f k) = k_stores k ∧ k_storage (f k) = k_storage k ∧ k_fdt (f k) = k_fdt k) → stable (modify f : K ()).
Proof. intros Hf k x k' Hk [= _ <-]. destruct (Hf k) as (? & ? & ? & ? & ? & ?). by eapply safe_other. Qed.

Lemma stable_acquire q mode : stable (blocking_acquire q mode : K N).
Proof. intros k x k' Hk. unfold blocking_acquire. destruct (acquire_alone _ _ _ _). intros [= _ <-]. by eapply safe_other. Qed.

Lemma stable_pipes {A} (f : PipeManager E → option (result PipeManagerError A * PipeManager E)) : stable (pipes f : K _).
Proof.
  intros k x k' Hk. unfold pipes. destruct (f (k_pipes k)) as [[a pm]|]; cbn; [|done]. intros [= _ <-]. by eapply safe_other.
Qed.

Lemma stable_streams {A} (f : StreamManager B → option (result StreamManagerError A * StreamManager B)) : stable (streams f : K _).
Proof.
  intros k x k' Hk. unfold streams. destruct (f (k_streams k)) as [[a sm]|]; cbn; [|done]. intros [= _ <-]. by eapply safe_other.
Qed.

(** Calls that only look. *)
Lemma safe_looks k k' : Safe k → looks local_rows local_healthy k k' → Safe k'.
Proof.
  intros [C R T Hh Hp Hl Hn Hr Ha Ho Hf Hd] [Hag (W' & _ & F')]. pose proof Hag as [C' R' T' S' G' V'].
  assert (∀ id q, row_in local_rows k' id q = row_in local_rows k id q) as Hrow by (intros; by apply V').
  split; rewrite ?C', ?R', ?T', ?W', ?F'; try done.
  - by eapply agree_present.
  - intros id q m'. rewrite Hrow. apply Hl.
  - intros id q m'. rewrite Hrow. apply Hn.
  - unfold route_row in *. rewrite C'. destruct (resolve_metastore _ _); [|done]. cbn in *. by rewrite Hrow.
  - intros id q m'. rewrite Hrow. apply Ha.
Qed.

Lemma stable_run_get id q : stable (run_store id (ms_get q) : K _).
Proof.
  intros k x k' Hk E1. destruct (k_stores k !! id) as [s|] eqn:Hs; [|unfold run_store in E1; by rewrite Hs in E1].
  destruct (run_get local_rows local_healthy local_store_laws k id q (sf_healthy _ Hk)) as (k1 & E2 & Hl); [by eexists|].
  rewrite E2 in E1. injection E1 as _ <-. by eapply safe_looks.
Qed.

(** A row that may be added. *)
Definition innocent (q : string) (m' : FileMetadata) : Prop :=
  row_ok q m' ∧ md_path m' = q ∧ md_entry_type m' ≠ DT_LINK ∧
  (Q q → md_entry_type m' ≠ DT_MOUNT ∧ ∀ cid', md_content_id m' = Some cid' → away q cid').

(** The store that has the row of the file. *)
Definition own (id : N) : Prop := resolve_metastore r (kc_metastore cfg) = Some id.

(** A store whose rows are kept under their paths. *)
Definition by_path (s : LocalMetaStore) : Prop := ∀ q o, q ≠ p → local_rows s !! q = Some o → md_path o = q.

(** An operation of a store that leaves the row of the file and adds innocent ones. *)
Lemma stable_store {A} id (op : Op LocalMetaStore A) :
  (∀ s x s', local_healthy s → by_path s → op s = Some (x, s') → local_healthy s' ∧
     (own id → local_rows s !! p = Some m → local_rows s' !! p = Some m) ∧
     ∀ q o, local_rows s' !! q = Some o → local_rows s !! q = Some o ∨ innocent q o) →
  stable (run_store id op : K _).
Proof.
  intros Hop k x k' Hk. unfold run_store. destruct (k_stores k !! id) as [s|] eqn:Hs; cbn [mbind option_bind]; [|done].
  destruct (op s) as [[x' s']|] eqn:E1; [|done]. cbv beta iota. intros [= _ <-]. destruct Hk as [C R T Hh Hp Hl Hn Hr Ha Ho Hf Hd].
  assert (by_path s) as Hby. { intros q o Hq Ho'. apply (Hn id q o Hq). unfold row_in. by rewrite Hs. }
  destruct (Hop s x' s') as (Hh' & Hown & Hadd); [by eapply Hh|done..|].
  assert (∀ id' q' o, row_in local_rows (set_store id s' k) id' q' = Some o →
    row_in local_rows k id' q' = Some o ∨ innocent q' o) as Hrow.
  { intros id' q' o. unfold row_in. cbn. destruct (decide (id = id')) as [<-|Hne]; [|rewrite lookup_insert_ne by done; by left].
    rewrite lookup_insert_eq, Hs. apply Hadd. }
  split; try done; cbn.
  - intros id' s0. cbn. intros [[<- <-]|[_ Hs0]]%lookup_insert_Some; [done|by eapply Hh].
  - assert (∀ id', is_Some (k_stores k !! id') → is_Some (<[id := s']> (k_stores k) !! id')) as Hst.
    { intros id' Hi. destruct (decide (id = id')) as [<-|Hne]; [by rewrite lookup_insert_eq|by rewrite lookup_insert_ne]. }
    destruct Hp as [H1 H2]. split.
    + intros q' z r' Hr0 id' Hid. apply Hst. by apply (H1 q' z r' Hr0).
    + intros mp id' Hid. apply Hst. by apply (H2 mp).
  - intros id' q' o [Ho'|(_ & _ & ? & _)]%Hrow; [by eapply Hl|done].
  - intros id' q' o Hq [Ho'|(_ & ? & _)]%Hrow; [by eapply Hn|done].
  - revert Hr. unfold route_row. cbn. rewrite C. destruct (resolve_metastore _ _) as [id'|] eqn:Hid; [|done]. cbn. unfold row_in. cbn.
    destruct (decide (id = id')) as [<-|Hne]; [|by rewrite lookup_insert_ne]. rewrite lookup_insert_eq, Hs. by apply Hown.
  - intros id' q' o HQ [Ho'|(_ & _ & _ & Hi)]%Hrow; [by eapply Ha|by apply Hi].
Qed.

Lemma stable_run_put id q m' : (own id → q ≠ p) → innocent q m' → stable (run_store id (ms_put q m') : K _).
Proof.
  intros Hq Hi. apply stable_store. intros s x s' Hs _ E1.
  destruct (sl_put _ _ local_store_laws q m' s x s' Hs (proj1 Hi) E1) as [Hh' Hr']. rewrite Hr'. split; [done|].
  destruct (is_ok x); [|split; [done|by left]]. split.
  - intros Hid Hm. by rewrite lookup_insert_ne by auto.
  - intros q' o [[<- <-]|[_ ?]]%lookup_insert_Some; auto.
Qed.

(** Operations that take rows away, but for the one of the file. *)
Lemma stable_delete id q : (own id → q ≠ p) → no_nul q → stable (run_store id (ms_delete q) : K _).
Proof.
  intros Hq Hn. apply stable_store. intros s x s' [a Ha] _ E1. destruct (delete_refines s a q Ha Hn) as (s1 & E2 & Ha1).
  unfold ls_answer, mbind, Op_bind in E2. change (ms_delete q s) with (local_delete q s) in E1. rewrite E1 in E2.
  assert (s1 = s') as -> by (unfold mret, Op_ret in E2; by destruct x; simplify_eq). split; [by eexists|].
  rewrite (local_rows_refine s a Ha), (local_rows_refine s' _ Ha1). cbn [spec_exec]. unfold spec_commit.
  destruct (sp_commits a) as [|[] ?]; cbn; (split; [|intros q' o; rewrite ?lookup_delete_Some; naive_solver]);
    intros Hid Hm; rewrite ?lookup_delete_ne by auto; done.
Qed.

Lemma stable_exists id q : stable (run_store id (ms_exists q) : K _).
Proof. apply stable_store. intros s x s' Hs _ [= _ <-]. auto. Qed.

Lemma stable_list id q : stable (run_store id (ms_list q) : K _).
Proof. apply stable_store. intros s x s' Hs _ ->%local_list_keeps. auto. Qed.

Lemma stable_implicit id q : stable (run_store id (is_implicit_directory q) : K _).
Proof.
  apply stable_store. intros s x s' Hs _. unfold is_implicit_directory, mbind, Op_bind.
  destruct (ms_list (dir_of q) s) as [[[l|e] s1]|] eqn:E1; [..|done]; apply local_list_keeps in E1 as ->; intros [= _ <-]; auto.
Qed.

(** What keeps the file and returns something of [P]. *)
Definition gives {A} (c : K A) (P : A → Prop) : Prop :=
  ∀ k x k', Safe k → c k = Some (x, k') → Safe k' ∧ ∀ a, x = Ok a → P a.

Lemma gives_bind {A C} (c : K A) P (f : A → K C) : gives c P → (∀ a, P a → stable (f a)) → stable (c ≫= f).
Proof.
  intros Hc Hf k x k' Hk. unfold mbind, K_bind. destruct (c k) as [[[a|e] k1]|] eqn:E1; [| |done].
  - apply Hf; by eapply Hc.
  - intros [= _ <-]. by eapply Hc.
Qed.

Lemma gives_seq {A C} (c : K A) P (f : A → K C) P' : gives c P → (∀ a, P a → gives (f a) P') → gives (c ≫= f) P'.
Proof.
  intros Hc Hf k x k' Hk. unfold mbind, K_bind. destruct (c k) as [[[a|e] k1]|] eqn:E1; [| |done].
  - apply Hf; by eapply Hc.
  - intros [= <- <-]. split; [by eapply Hc|done].
Qed.

Lemma gives_ret {A} (a : A) (P : A → Prop) : P a → gives (mret a : K A) P.
Proof. intros Ha k x k' Hk [= <- <-]. split; [done|]. by intros ? [= <-]. Qed.
Lemma gives_throw {A} e (P : A → Prop) : gives (throw e : K A) P.
Proof. by intros k x k' Hk [= <- <-]. Qed.
Lemma gives_any {A} (c : K A) : stable c → gives c (λ _, True).
Proof. intros Hc k x k' Hk E1. split; [by eapply Hc|done]. Qed.

Lemma gives_of_result {A} (x : result KernelError A) : gives (of_result x : K A) (λ a, x = Ok a).
Proof. destruct x; [by apply gives_ret|apply gives_throw]. Qed.
Lemma gives_ok_or {A} (o : option A) e : gives (ok_or o e : K A) (λ a, o = Some a).
Proof. destruct o; [by apply gives_ret|apply gives_throw]. Qed.

(** An operation of a backend that leaves the file of the host. *)
Lemma gives_host {A} n (f : LocalBackend → St A) (P : A → Prop) :
  (∀ b fs x fs', backend_named n = Some b → host_ok fs → f b fs = (x, fs') →
     host_ok fs' ∧ (file_at (loc bk cid) y fs → file_at (loc bk cid) y fs') ∧ ∀ a, x = Ok a → P a) →
  gives (storage (on_backend n f) : K _) (λ w, ∀ a, w = Ok a → P a).
Proof.
  intros Hop k x k' Hk. unfold storage. destruct (on_backend n f (k_storage k)) as [res w] eqn:Ew. intros [= <- <-].
  unfold on_backend in Ew. destruct (backend_named n) as [b|] eqn:Hb.
  - destruct (Hop b _ _ _ eq_refl (sf_host _ Hk) Ew) as (Ho' & Hkeep & Hw). split; [|intros a [= <-]; apply Hw].
    destruct Hk as [C R T Hh Hp Hl Hn Hr Ha _ Hf Hd]. split; try done. by apply Hkeep.
  - injection Ew as <- <-. split; [by eapply safe_other|]. by intros a [= <-].
Qed.

Lemma stable_host {A} n (f : LocalBackend → St A) :
  (∀ b fs x fs', backend_named n = Some b → host_ok fs → f b fs = (x, fs') →
     host_ok fs' ∧ (file_at (loc bk cid) y fs → file_at (loc bk cid) y fs')) →
  stable (storage (on_backend n f) : K _).
Proof.
  intros Hop k x k' Hk E1. eapply (gives_host n f (λ _, True)); [|exact Hk|exact E1].
  intros b fs x1 fs' Hb Ho E2. destruct (Hop b fs x1 fs' Hb Ho E2). by split_and!.
Qed.

Lemma only_keeps l fs fs' : l ≠ loc bk cid → only l fs fs' → host_ok fs' ∧ (file_at (loc bk cid) y fs → file_at (loc bk cid) y fs').
Proof. intros Hl [Ho Hk]. split; [done|]. by apply Hk. Qed.

Lemma gives_storage n x cid' ctx off :
  (cid' ≠ "" → ∀ b, backend_named n = Some b → loc b cid' ≠ loc bk cid) → (slen x < U64_MOD)%N → (off ≠ 0 → slen x < 2 ^ 63)%N →
  gives (storage (os_write_content n x cid' ctx off) : K _)
    (λ w, ∀ wr, w = Ok wr → cid' ≠ "" ∧ wr_content_id wr = cid' ∧ (wr_size wr < U64_MOD)%N).
Proof.
  intros Haw Hx Hoff. apply gives_host. intros b fs res fs' Hb Ho Ew. destruct (decide (cid' = "")) as [->|Hne].
  { unfold local_write_content in Ew. rewrite decide_True in Ew by done. by injection Ew as <- <-. }
  destruct (write_frame all_static n b _ x cid' off _ res fs' Hb Ho Hx Hoff Ew) as [Hon Hwr].
  destruct (only_keeps _ _ _ (Haw Hne b Hb) Hon) as [Ho' Hk]. split_and!; [done..|]. intros wr E0. split; [done|by apply Hwr].
Qed.

Lemma another_place : loc bk cid ++ [""] ≠ loc bk cid.
Proof. intros E1. apply (f_equal length) in E1. rewrite length_app in E1. cbn in E1. lia. Qed.

Lemma stable_set_bits n q mode : stable (storage (os_set_file_mode n q mode) : K _).
Proof.
  apply stable_host. intros b fs x fs' _ Ho Ew.
  assert (fs' = fs ∨ ∃ i, fs' = set_mode i mode fs) as [->|[i ->]]; [|done|].
  { unfold local_set_file_mode in Ew. repeat case_match; simplify_eq; eauto. }
  apply (only_keeps (loc bk cid ++ [""])); [apply another_place|by apply set_mode_only].
Qed.

Lemma stable_make_dir n q parents exist_ok : stable (storage (os_mkdir n q parents exist_ok) : K _).
Proof.
  apply stable_host. intros b fs x fs' _ Ho Ew. apply (only_keeps (loc bk cid ++ [""])); [apply another_place|by eapply mkdir_frame].
Qed.

Lemma stable_delete_file n q : (∀ b, backend_named n = Some b → loc b q ≠ loc bk cid) → stable (storage (os_delete_file n q) : K _).
Proof.
  intros Haw. apply stable_host. intros b fs x fs' Hb Ho Ew. apply (only_keeps (loc b q)); [by apply Haw|]. by eapply delete_frame.
Qed.

Lemma stable_remove_dir n q recursive :
  (recursive = true → ∀ b, backend_named n = Some b → ¬ loc b q `prefix_of` loc bk cid) →
  stable (storage (os_rmdir n q recursive) : K _).
Proof.
  intros Haw. apply stable_host. intros b fs x fs' Hb Ho Ew. destruct (rmdir_frame all_static n b q Hb recursive fs x fs' Ho Ew) as [Ho' Hk].
  split; [done|]. apply Hk. intros Hr. by apply Haw.
Qed.

Lemma gives_copy_file n src q :
  (∀ b, backend_named n = Some b → loc b q ≠ loc bk cid) →
  gives (storage (os_copy_file n src q) : K _) (λ w, ∀ wr, w = Ok wr → wr_content_id wr = q ∧ (wr_size wr < U64_MOD)%N).
Proof.
  intros Haw. apply gives_host. intros b fs x fs' Hb Ho Ew. destruct (copy_frame all_static n b q Hb _ src fs x fs' Ho Ew) as [Hon Hwr].
  destruct (only_keeps _ _ _ (Haw b Hb) Hon) as [Ho' Hk]. by split_and!.
Qed.

Lemma stable_register q physical_path : q ≠ p → stable (fdt_register q physical_path : K ()).
Proof.
  intros Hq k x k' [C R T Hh Hp Hl Hn Hr Ha Ho Hf Hd] [= _ <-]. case_match; split; try done.
  intros h. cbn. rewrite lookup_insert_ne by done. apply Hd.
Qed.

Lemma stable_pread q : stable (fdt_pread q : K _).
Proof.
  intros k x k' Hk. unfold fdt_pread. destruct (k_fdt k !! q) as [h|]; [|by intros [= _ <-]].
  destruct (current_size h (k_storage k)); intros [= _ <-]; [done|].
  destruct Hk as [C R T Hh Hp Hl Hn Hr Ha Ho Hf Hd]. split; try done. intros h'. cbn. intros [_ Hh']%lookup_delete_Some. by apply Hd.
Qed.

(** The row of a path, by its route. *)
Lemma gives_get_row q z r' :
  route rt q z = Some r' →
  gives (get_row r' q : K _) (λ o, ∀ m', o = Some m' → md_entry_type m' ≠ DT_LINK ∧ row_ok q m' ∧
    (Q q → md_entry_type m' ≠ DT_MOUNT ∧ ∀ cid', md_content_id m' = Some cid' → away q cid')).
Proof.
  intros Hr' k x k' Hk E1. assert (route_present k r') as Hpr.
  { apply (proj1 (sf_present _ Hk) q z). by rewrite (sf_router _ Hk). }
  destruct (get_row_spec local_rows local_healthy local_store_laws k r' q (sf_healthy _ Hk) Hpr) as (k1 & E2 & Hl).
  rewrite E2 in E1. injection E1 as <- <-. split; [by eapply safe_looks|]. intros o [= <-] m' Hm'.
  pose proof (route_row_ok _ _ local_store_laws k r' q m' (sf_healthy _ Hk) Hm') as Hok.
  unfold route_row in Hm'. destruct (resolve_metastore _ _) as [id|]; [|done]. cbn in Hm'.
  split_and!; [by eapply sf_no_links|done|]. intros HQ. by eapply (sf_away _ Hk id).
Qed.

Lemma gives_link q z : gives (directory_link_target q z : K _) (λ o, o = None).
Proof.
  intros k x k' Hk E1. destruct (link_search local_rows local_healthy local_store_laws (ancestor_cuts q) z k
    (sf_healthy _ Hk) (sf_present _ Hk)) as (k1 & E2 & Hl). unfold directory_link_target in E1. rewrite E2 in E1.
  injection E1 as <- <-. split; [by eapply safe_looks|]. intros [t|] Ht; [|done]. apply links_none in Ht; [done|]. intros ???. apply (sf_no_links _ Hk).
Qed.

(** ** The calls *)

Ltac stab_step :=
  cbv beta iota zeta;
  lazymatch goal with
  | |- stable (_ ≫= _) => apply stable_bind; [|intros ?]
  | |- stable (mret _) => apply stable_ret
  | |- stable (throw _) => apply stable_throw
  | |- stable (reads _) => apply stable_reads
  | |- stable (trie_resolved _) => apply stable_reads
  | |- stable (config _) => apply stable_config
  | |- stable (of_result _) => apply stable_of_result
  | |- stable (attempt _) => apply stable_attempt
  | |- stable (modify _) => apply stable_modify; intros ?; by split_and!
  | |- stable (blocking_acquire _ _) => apply stable_acquire
  | |- stable (pipes _) => apply stable_pipes
  | |- stable (streams _) => apply stable_streams
  | |- stable (fdt_pread _) => apply stable_pread
  | |- stable (run_store _ (ms_get _)) => apply stable_run_get
  | |- stable (run_store _ (ms_exists _)) => apply stable_exists
  | |- stable (run_store _ (ms_list _)) => apply stable_list
  | |- stable (run_store _ (is_implicit_directory _)) => apply stable_implicit
  | |- stable (storage (os_mkdir _ _ _ _)) => apply stable_make_dir
  | |- stable (check_permission_with_route _ _ _ _) => apply stable_still; intros ?; apply still_check
  | |- stable (dispatch_native_pre_with_replacement _) => apply stable_still; intros ?; apply hooks_still
  | |- stable (match _ with _ => _ end) => case_match
  end.
Ltac stab := repeat stab_step.

Lemma stable_mutation t q ctx x : stable (dispatch_mutation t q ctx x : K ()).
Proof. unfold dispatch_mutation, dispatch_observers. stab. Qed.

Lemma stable_post c : stable (dispatch_native_post c : K ()).
Proof. unfold dispatch_native_post. stab. Qed.

Lemma stable_read_hooks q ctx : stable (apply_read_hooks q ctx : K ()).
Proof. unfold apply_read_hooks, check_permission, dispatch_native_pre. stab. Qed.

Lemma stable_write_hooks q o ctx x : stable (apply_mutating_write_hooks_with_route q o ctx x : K _).
Proof. unfold apply_mutating_write_hooks_with_route. stab. Qed.

Lemma stable_read_result x o g : stable (read_result x o g : K _).
Proof. unfold read_result. stab. Qed.

Lemma stable_remote q e : stable (try_remote_fetch q e : K _).
Proof. unfold try_remote_fetch, dispatch_observers. stab; apply stable_read_result. Qed.

Lemma stable_read_locked q ctx r' e : stable (read_locked q ctx r' e : K _).
Proof. unfold read_locked, release, route_read. stab; auto using stable_read_result, stable_remote. Qed.

(** A read of the backend is of a file whose size fits. *)
Lemma read_size n cid' ctx k x : Safe k → os_read_content n cid' ctx (k_storage k) = Ok x → (slen x < U64_MOD)%N.
Proof.
  intros Hk Hx. cbn in Hx. unfold at_backend in Hx. destruct (backend_named n) as [b|]; [|done]. unfold local_read_content in Hx.
  case_decide; [done|]. destruct (resolve_path b cid' (k_storage k)) as [q|]; cbn [mbind result_bind] in Hx; [|done].
  destruct (host_read q (k_storage k)) as [y'|e] eqn:Hr; [|unfold or_not_found in Hx; by case_decide].
  injection Hx as ->. apply host_read_size in Hr as (l & i & Hi & ->); [|apply (sf_host _ Hk)]. by eapply ho_sizes, Hi; apply Hk.
Qed.

Lemma gives_route_read r' cid' ctx :
  gives (route_read r' cid' ctx : K _) (λ c, ∀ x, c = Some (Ok x) → (slen x < U64_MOD)%N).
Proof.
  intros k x k' Hk [= <- <-]. split; [done|]. intros a [= <-] c Hx. destruct (rr_backend r') as [n|]; [|done]. injection Hx as Hx.
  by apply (read_size n cid' ctx k).
Qed.

Lemma stable_kernel_put mp q m' : q ≠ p → innocent q m' → stable (kernel_with_metastore mp (ms_put q m') : K _).
Proof. intros Hq Hi. unfold kernel_with_metastore, with_store. stab; by apply stable_run_put. Qed.

Lemma stable_route_put r' q m' : q ≠ p → innocent q m' → stable (with_metastore_route r' (ms_put q m') : K _).
Proof. intros Hq Hi. unfold with_metastore_route, with_store. stab; by apply stable_run_put. Qed.

Lemma gives_build q zone ty size o g v mime created modified :
  gives (build_metadata q zone ty size o g v mime created modified : K _)
    (λ m', ∃ self, m' = mkMeta q size o g v ty (Some zone) mime created modified self None None None None).
Proof. intros k x k' Hk [= <- <-]. split; [done|]. intros a [= <-]. by eexists. Qed.

(** The row the kernel keeps of a file it found in a backend. *)
Lemma stable_observe now q size cid' zone ctx :
  Q q → no_nul q → away q cid' → (size < U64_MOD)%N → (- I64_MAX - 1 ≤ now ≤ I64_MAX)%Z →
  stable (observe_backend_content now q size (Some cid') zone ctx : K _).
Proof.
  intros HQ Hq Haw Hs Hnow. unfold observe_backend_content. case_match; [stab|]. apply stable_bind.
  - unfold observe_backend_entry. apply stable_bind; [unfold metastore_get, kernel_with_metastore, with_store,
      resolve_mount_point, route_path, store_result; stab|]. intros [[o|]|]; [stab| |];
    (eapply gives_bind; [apply gives_build|]; intros m' (self & ->); apply stable_bind; [|intros ?; stab];
     apply stable_attempt; unfold metastore_put; apply stable_bind; [unfold resolve_mount_point, route_path; stab|intros mp];
     apply stable_bind; [|intros o; unfold store_result; stab];
     apply stable_kernel_put; [by apply others|]; refine (conj (conj _ Hq) (conj _ (conj _ _))); [|done..|];
     [unfold row_in_range; cbn; split_and!; try done; by intros t [= <-]|]; intros _; split; [done|]; by intros ? [= <-]).
  - intros b. unfold when. case_match; [apply stable_mutation|stab].
Qed.

Lemma gives_validate q : gives (validate q : K ()) (λ _, no_nul q).
Proof.
  intros k x k' Hk. unfold validate. destruct (validate_path_fast q) as [[]|e] eqn:Hv; intros [= <- <-]; (split; [done|]); [|done].
  intros _ _. by apply valid_no_nul.
Qed.

Lemma gives_route q z : gives (route_path q z : K _) (λ o, o = route rt q z).
Proof. intros k x k' Hk [= <- <-]. split; [done|]. intros a [= <-]. by rewrite (sf_router _ Hk). Qed.

Lemma stable_read_unlisted now q ctx z r' :
  Q q → no_nul q → route rt q z = Some r' → (- I64_MAX - 1 ≤ now ≤ I64_MAX)%Z → stable (read_unlisted now q ctx r' : K _).
Proof.
  intros HQ Hq Hr' Hnow. unfold read_unlisted. eapply gives_bind; [apply gives_route_read|]. intros c Hc.
  destruct c as [[x|[|e|]]|]; cbn [backend_read_or_miss]; try case_decide; cbn [of_result];
    try (apply stable_ret_bind; stab; fail); [|apply stable_throw_bind].
  apply stable_ret_bind, stable_bind; [|intros ?; apply stable_read_result].
  apply stable_observe; [done..| |by apply Hc|done]. by eapply (proj2 (others q HQ)).
Qed.

Lemma stable_pipe_read q t : stable (pipe_read q t : K _).
Proof. unfold pipe_read. stab. Qed.

Lemma stable_stream_read q ctx r' t o : stable (stream_read q ctx r' t o : K _).
Proof. unfold stream_read. stab. Qed.

Lemma stable_read_after_auth follow now q ctx t o :
  Q q → no_nul q → (- I64_MAX - 1 ≤ now ≤ I64_MAX)%Z → stable (sys_read_after_auth follow now q ctx t o : K _).
Proof.
  intros HQ Hq Hnow. unfold sys_read_after_auth. eapply gives_bind; [apply gives_link|]. intros a ->.
  eapply gives_bind; [apply gives_route|]. intros a ->. destruct (route rt q (oc_zone_id ctx)) as [r'|] eqn:Hr'; [|stab].
  eapply gives_bind; [by eapply gives_get_row|]. intros [m'|] Hm'; [|by eapply stable_read_unlisted].
  rewrite not_link_target by (by apply (Hm' m')). apply stable_ret_bind.
  case_decide; [apply stable_pipe_read|]. case_decide; [apply stable_stream_read|].
  apply stable_bind; [stab|]. intros [x|]; [apply stable_read_result|apply stable_read_locked].
Qed.

Lemma stable_read now req ctx :
  Q (rq_path req) → (- I64_MAX - 1 ≤ now ≤ I64_MAX)%Z → stable (sys_read_one now req ctx : K _).
Proof.
  intros HQ Hnow. unfold sys_read_one. apply stable_bind; [|intros; stab]. cbn [sys_read_single].
  eapply gives_bind; [apply gives_validate|]. intros u Hq. apply stable_bind; [apply stable_reads|]. intros [|]; [stab|].
  apply stable_bind; [apply stable_read_hooks|]. intros u'. by apply stable_read_after_auth.
Qed.

(** The row of a write. *)
Lemma gives_replacement now q zone wr old :
  (- I64_MAX - 1 ≤ now ≤ I64_MAX)%Z → Q q → no_nul q → away q (wr_content_id wr) → (wr_size wr < U64_MOD)%N →
  (∀ o, old = Some o → row_ok q o) → gives (replacement_file_metadata now q zone wr old : K _) (innocent q).
Proof.
  intros Hnow HQ Hq Haw Hs Hold k x k' Hk E1. destruct (replacement_spec now q zone wr old k Hnow Hs Hq Hold) as (m' & E2 & Ht & Hc & Hok).
  assert (md_path m' = q) as Hpath by (unfold replacement_file_metadata, config, reads, mbind, K_bind, mret, K_ret in E2; by injection E2 as <-).
  rewrite E2 in E1. injection E1 as <- <-. split; [done|]. intros a [= <-].
  split_and!; [apply Hok..|done|by rewrite Ht|]. intros _. rewrite Ht, Hc. split; [done|]. by intros c [= <-].
Qed.

Lemma gives_config {A} (f : KernelConfig → A) : gives (config f : K A) (λ a, a = f cfg).
Proof. intros k x k' Hk [= <- <-]. split; [done|]. intros a [= <-]. by rewrite (sf_config _ Hk). Qed.

Lemma stable_notify q ctx res : stable (notify_file_write q ctx res : K _).
Proof. unfold notify_file_write. apply stable_bind; [apply stable_mutation|intros ?; apply stable_post]. Qed.

(** Where a write goes. *)
Lemma gives_target q z r' off :
  Q q → route rt q z = Some r' →
  gives ((if (off =? 0)%N then mret (rr_backend_path r')
    else old ← get_row r' q;
         match old with
         | Some e => mret (default "" (md_content_id e))
         | None => throw (EFileNotFound q)
         end) : K _) (λ c, c ≠ "" → away q c).
Proof.
  intros HQ Hr' k x k' Hk. destruct (off =? 0)%N.
  - intros [= <- <-]. split; [done|]. intros a [= <-] _. by eapply (proj2 (others q HQ)).
  - unfold mbind, K_bind. destruct (get_row r' q k) as [[x1 k1]|] eqn:E1; [|done].
    destruct (gives_get_row q z r' Hr' k x1 k1 Hk E1) as [Hk1 Hrow]. destruct x1 as [[e|]|e]; intros [= <- <-]; (split; [done|]).
    + intros a [= <-] Hne. destruct (md_content_id e) as [c|] eqn:Hc; [|done]. by apply (Hrow _ eq_refl e).
    + done.
    + done.
Qed.

Lemma stable_commit now q ctx x off z r' :
  (- I64_MAX - 1 ≤ now ≤ I64_MAX)%Z → (slen x < 2 ^ 63)%N → Q q → no_nul q → route rt q z = Some r' →
  stable (commit_write_through now q ctx x off r' : K _).
Proof.
  intros Hnow Hx HQ Hq Hr'. unfold commit_write_through. eapply gives_bind; [by eapply gives_target|]. intros c Hc.
  eapply gives_bind; [apply gives_config|]. intros cache ->. rewrite no_cache. cbv zeta.
  destruct (rr_backend r') as [n|] eqn:Hn; [|case_match; [by case_match|stab]].
  assert (is_federation_peer_mount r' = false) as -> by (unfold is_federation_peer_mount; by rewrite Hn).
  eapply gives_bind; [apply (gives_storage n x c ctx off); [|unfold U64_MOD; lia|done]|].
  { intros Hne b Hb. by eapply Hc. }
  intros [wr|e] Hw; [|stab]. destruct (Hw wr eq_refl) as (Hne & Ew & Hs). rewrite <-Ew in Hc, Hne.
  apply stable_bind; [apply stable_reads|]. intros ph. apply stable_bind.
  { destruct ph; [apply stable_register; by apply others|stab]. }
  intros u. eapply gives_bind; [by eapply gives_get_row|]. intros old Hold.
  eapply gives_bind; [apply gives_replacement; try done; [by apply Hc|intros o ->; by apply (Hold o)]|]. intros m' Hm'.
  apply stable_bind; [unfold file_write_result; stab|]. intros res. apply stable_bind; [by apply stable_route_put; [apply others|]|].
  intros o. apply stable_bind; [unfold store_result; stab|]. intros u'. apply stable_bind; [apply stable_notify|]. intros u''. stab.
Qed.

Lemma stable_pipe_write q ctx x : stable (pipe_write q ctx x : K _).
Proof. unfold pipe_write, ipc_post, ipc_write_result. stab; apply stable_post. Qed.

Lemma stable_stream_write now q ctx r' x : stable (stream_write now q ctx r' x : K _).
Proof. unfold stream_write, ipc_post, ipc_write_result. stab; auto using stable_post, stable_write_hooks. Qed.

Lemma stable_write_locked now q ctx x off z r' :
  (- I64_MAX - 1 ≤ now ≤ I64_MAX)%Z → (slen x < 2 ^ 63)%N → Q q → no_nul q → route rt q z = Some r' →
  stable (write_locked now q ctx x off r' : K _).
Proof.
  intros. unfold write_locked. apply stable_bind; [apply stable_acquire|]. intros h. case_match; [stab|].
  apply stable_bind; [by eapply stable_attempt, stable_commit|]. intros res. unfold release. stab.
Qed.

(** The content a hook puts in the place of another is a byte vector like any. *)
Hypothesis small_hooks : ∀ c x, dispatch_pre (kc_hooks cfg) c = Ok (Some x) → (slen x < 2 ^ 63)%N.

Lemma gives_write_hooks q ctx x :
  (slen x < 2 ^ 63)%N → gives (apply_mutating_write_hooks q ctx x : K _) (λ rep, (slen (default x rep) < 2 ^ 63)%N).
Proof.
  intros Hx k x' k' Hk. unfold apply_mutating_write_hooks, apply_mutating_write_hooks_with_route. unfold mbind at 1, K_bind at 1.
  destruct (still_check q None PermWrite ctx k) as [[u|e] ->]; [|by intros [= <- <-]].
  unfold dispatch_native_pre_with_replacement, config, reads, mbind, K_bind, mret, K_ret, throw.
  rewrite (sf_config _ Hk). destruct (hooks_count (kc_hooks cfg) =? 0)%nat; [intros E1; simplify_eq/=; split; [done|by intros a [= <-]]|].
  match goal with |- context [dispatch_pre ?h ?c] => destruct (dispatch_pre h c) as [rep|e] eqn:Hd end; intros E1; simplify_eq/=; (split; [done|]); [|done].
  intros a [= <-]. destruct rep as [x1|]; [|done]. by eapply small_hooks.
Qed.

Lemma stable_write now req ctx :
  Q (wq_path req) → (- I64_MAX - 1 ≤ now ≤ I64_MAX)%Z → (slen (wq_content req) < 2 ^ 63)%N → stable (sys_write_one now req ctx : K _).
Proof.
  intros HQ Hnow Hx. unfold sys_write_one. set (q := wq_path req) in *. cbn [sys_write_with_link_depth].
  eapply gives_bind; [apply gives_validate|]. intros u Hq. apply stable_bind; [apply stable_reads|]. intros [|]; [stab|].
  eapply gives_bind; [by apply gives_write_hooks|]. intros rep Hrep. eapply gives_bind; [apply gives_link|]. intros o ->.
  eapply gives_bind; [apply gives_route|]. intros o ->. destruct (route rt q (oc_zone_id ctx)) as [r'|] eqn:Hr'; [|stab].
  eapply gives_bind; [by eapply gives_get_row|]. intros row Hrow.
  assert (match row with Some e => dt_link_target q e | None => Ok None end = Ok None) as ->.
  { destruct row as [e|]; [|done]. apply not_link_target. by apply (Hrow e). }
  apply stable_ret_bind. cbv zeta. case_decide; [apply stable_pipe_write|]. case_decide; [apply stable_stream_write|].
  by eapply stable_write_locked.
Qed.

(** A change of a mode. *)
Lemma stable_set_mode q ctx mode : stable (sys_set_file_mode q ctx mode : K _).
Proof.
  unfold sys_set_file_mode, release, ok_or, validate, get_row, with_metastore_route, with_store, route_path.
  stab; auto using stable_mutation, stable_set_bits.
Qed.

(** Making a directory, and those above it that have no row. *)
Lemma gives_missing r' a :
  gives (with_metastore_route r' (ms_exists a) : K _)
    (λ x, or_else true x = false → a = p → resolve_metastore r' (kc_metastore cfg) ≠ resolve_metastore r (kc_metastore cfg)).
Proof.
  intros k x k' Hk E1. assert (Safe k') as Hk' by (revert E1; apply (λ H : stable _, H k x k' Hk); unfold with_metastore_route, with_store; stab).
  split; [done|]. intros o -> Ho -> Hst. revert E1. unfold with_metastore_route, with_store, config, reads, mbind, K_bind.
  rewrite (sf_config _ Hk), Hst. pose proof (sf_row _ Hk) as Hrow. unfold route_row in Hrow. rewrite (sf_config _ Hk) in Hrow.
  destruct (resolve_metastore r (kc_metastore cfg)) as [id|]; [|done]. unfold run_store. cbn in Hrow. unfold row_in in Hrow.
  destruct (k_stores k !! id) as [s|]; [|done]. cbn in *. intros [= <- _]. cbn in Ho. apply bool_decide_eq_false in Ho. apply Ho.
  unfold local_rows in Hrow. rewrite lookup_omap in Hrow. by destruct (ls_meta s !! p).
Qed.

Lemma gives_missing_parents fuel r' q :
  no_nul q → gives (missing_parents fuel r' q : K _)
    (Forall (λ a, no_nul a ∧ (a = p → resolve_metastore r' (kc_metastore cfg) ≠ resolve_metastore r (kc_metastore cfg)))).
Proof.
  revert q. induction fuel as [|fuel IH]; intros q Hq k x k' Hk; cbn [missing_parents]; [intros [= <- <-]; split; [done|]; by intros a [= <-]|].
  destruct (rsplit_once "/" q) as [[l u]|] eqn:Hs; [|intros [= <- <-]; split; [done|]; by intros a [= <-]].
  assert (no_nul l) as Hl. { apply rsplit_once_Some in Hs as [-> _]. unfold no_nul in *. rewrite scontains_app in Hq. by apply orb_false_iff in Hq as [? _]. }
  destruct l as [|c l]; [intros [= <- <-]; split; [done|]; by intros a [= <-]|]. set (a := String c l) in *.
  case_decide; [intros [= <- <-]; split; [done|]; by intros ? [= <-]|].
  unfold mbind at 1, K_bind at 1. destruct (with_metastore_route r' (ms_exists a) k) as [[[o|e] k1]|] eqn:E1; [..|done];
    destruct (gives_missing r' a _ _ _ Hk E1) as [Hk1 Ho]; [|by intros [= <- <-]].
  specialize (Ho o eq_refl). destruct (or_else true o); [intros [= <- <-]; split; [done|]; by intros ? [= <-]|].
  unfold mbind, K_bind. destruct (missing_parents fuel r' a k1) as [[[rest|e] k2]|] eqn:E2; [..|done];
    destruct (IH a Hl _ _ _ Hk1 E2) as [Hk2 Hrest]; intros [= <- <-]; (split; [done|]); [|done].
  intros ? [= <-]. apply Forall_cons. split; [split; auto|]. by apply Hrest.
Qed.

(** The row of a directory. *)
Lemma directory_innocent q zone self :
  no_nul q → innocent q (mkMeta q 0 None 0 1 DT_DIR (Some zone) (Some "inode/directory") None None self None None None None).
Proof. intros Hq. split; [split; [unfold row_in_range; cbn; by split_and!|done]|]. done. Qed.

Lemma stable_parents q ctx r' : no_nul q → stable (ensure_parent_directories q ctx r' : K _).
Proof.
  intros Hq. unfold ensure_parent_directories. eapply gives_bind; [by apply gives_missing_parents|]. intros dirs Hdirs.
  apply stable_bind; [|intros; stab]. apply Forall_reverse in Hdirs. induction Hdirs as [|a todo [Ha Hst] _ IH]; cbn [each]; [stab|].
  apply stable_bind; [|intros; apply stable_bind; [done|intros; stab]]. unfold create_parent.
  eapply gives_bind; [apply gives_build|]. intros m' (self & ->). apply stable_bind; [|intros; unfold store_result; stab].
  unfold with_metastore_route. eapply gives_bind; [apply gives_config|]. intros global ->. unfold with_store.
  destruct (resolve_metastore r' (kc_metastore cfg)) as [id|] eqn:Hid; stab. apply stable_run_put; [|by apply directory_innocent].
  unfold own. intros Hown ->. by apply (Hst eq_refl).
Qed.

Lemma stable_mkdir q ctx parents exist_ok : Q q → stable (mkdir q ctx parents exist_ok : K _).
Proof.
  intros HQ. unfold mkdir. eapply gives_bind; [apply gives_validate|]. intros u Hq.
  assert (∀ r', stable (when parents (ensure_parent_directories q ctx r') : K _)) as Hpar by (intros; unfold when; stab; by apply stable_parents).
  assert (∀ r' e, stable (materialize_reference_directory r' parents e : K _)) as Href
    by (intros; unfold materialize_reference_directory; stab).
  apply stable_bind; [unfold check_permission; stab|]. intros _. apply stable_bind; [unfold route_path; stab|]. intros o.
  apply stable_bind; [unfold ok_or; stab|]. intros r'. case_decide; [apply stable_bind; [done|intros; stab]|].
  apply stable_bind; [unfold supplement_mkdir, supplement; stab|]. intros _.
  apply stable_bind; [unfold kernel_with_metastore, with_store; stab|]. intros x1. cbv zeta.
  apply stable_bind; [unfold kernel_with_metastore, with_store; stab|]. intros implicit.
  case_match; [stab|]. case_match; [repeat (apply stable_bind; [done|intros _]); stab|].
  apply stable_bind; [stab|]. intros ph. apply stable_bind; [unfold route_storage; destruct ph; [done|stab]|]. intros _.
  apply stable_bind; [done|]. intros _. eapply gives_bind; [apply gives_build|]. intros m' (self & ->).
  apply stable_bind; [apply stable_route_put; [by apply others|by apply directory_innocent]|]. intros x2.
  apply stable_bind; [unfold store_result; stab|]. intros _. apply stable_bind; [apply stable_mutation|intros; stab].
Qed.

(** Removing a directory. *)

(** A path with nothing of the file below it. *)
Definition not_above (q : string) : Prop :=
  starts_with (dir_of q) p = false ∧
  ∀ z r' n b, route rt q z = Some r' → rr_backend r' = Some n → backend_named n = Some b →
    ¬ loc b (rr_backend_path r') `prefix_of` loc bk cid.

Lemma foldl_delete_other (paths : list string) (rows : gmap string FileMetadata) q :
  q ∉ paths → foldl (λ t p, delete p t) rows paths !! q = rows !! q.
Proof.
  revert rows. induction paths as [|a paths IH]; intros rows Hq; [done|]. apply not_elem_of_cons in Hq as [Hne Hq].
  cbn [foldl]. rewrite IH by done. by rewrite lookup_delete_ne.
Qed.

Lemma stable_remove_children id q recursive :
  (recursive = true → starts_with (dir_of q) p = false) → stable (run_store id (remove_children q recursive) : K _).
Proof.
  intros Hq. apply stable_store. intros s x s' [a Ha] Hby. unfold remove_children.
  change (ms_list (dir_of q) s) with (local_list (dir_of q) s). rewrite (list_refines s a (dir_of q) Ha (or_intror (dir_plain q))).
  cbn [mbind option_bind]. rewrite (local_rows_refine s a Ha). unfold by_path in Hby. rewrite (local_rows_refine s a Ha) in Hby.
  destruct (spec_list (dir_of q) (sp_rows a)) as [|c cs] eqn:Hcs.
  { intros [= _ <-]. rewrite (local_rows_refine s a Ha). split; [by eexists|auto]. }
  destruct recursive; cbn [negb].
  2:{ intros [= _ <-]. rewrite (local_rows_refine s a Ha). split; [by eexists|auto]. }
  rewrite <-Hcs. set (paths := md_path <$> _). assert (p ∉ paths) as Hp.
  { intros (o & Eo & [[key o'] [-> [Hk Ho]%list_elem_of_filter]]%list_elem_of_fmap)%list_elem_of_fmap. cbn in *.
    apply elem_of_entries in Ho. destruct (decide (key = p)) as [->|Hne]; [rewrite Hq in Hk; done|].
    apply (Hby key o' Hne) in Ho. congruence. }
  destruct (delete_batch_refines s a paths Ha) as (s1 & E2 & Ha1). unfold ls_answer, mbind, Op_bind in E2.
  change (ks_delete_batch paths s) with (local_delete_batch paths s).
  destruct (local_delete_batch paths s) as [[n s2]|]; [|done]. intros [= _ <-].
  assert (s1 = s2) as -> by (unfold mret, Op_ret in E2; by destruct n; simplify_eq). split; [by eexists|].
  rewrite (local_rows_refine s2 _ Ha1). cbn [spec_exec]. unfold spec_commit, with_rows.
  destruct (sp_commits a) as [|[] ?]; cbn [snd sp_rows]; rewrite ?foldl_delete_other by done; (split; [done|]);
    intros q' o Ho; left; first [exact Ho|eapply lookup_weaken; [exact Ho|apply foldl_delete_subset]].
Qed.

(** Descriptors that are closed. *)
Lemma stable_close f :
  (∀ t : gmap string FileHandle, f t ⊆ t) → stable (modify (λ k, set_fdt (f (k_fdt k)) k) : K ()).
Proof.
  intros Hf k x k' [C R T Hh Hp Hl Hn Hr Ha Ho Hfl Hd] [= _ <-]. split; try done. intros h Hh'. apply Hd. eapply lookup_weaken; [exact Hh'|apply Hf].
Qed.

Lemma stable_rmdir q ctx recursive : Q q → (recursive = true → not_above q) → stable (rmdir q ctx recursive : K _).
Proof.
  intros HQ Habove. pose proof (others q HQ) as [Hqp _]. unfold rmdir. eapply gives_bind; [apply gives_validate|]. intros u Hq.
  apply stable_bind; [unfold check_permission; stab|]. intros _. eapply gives_bind; [apply gives_route|]. intros o ->.
  destruct (route rt q (oc_zone_id ctx)) as [r'|] eqn:Hr'; cbn [ok_or]; [|apply stable_throw_bind]. apply stable_ret_bind.
  apply stable_bind; [unfold with_metastore_route, with_store; stab|]. intros x1.
  apply stable_bind; [unfold store_result; stab|]. intros row. cbv zeta. case_decide; [stab|].
  apply stable_bind; [stab|]. intros h. destruct (h =? 0)%N; [stab|]. apply stable_bind.
  { unfold with_metastore_route, with_store. stab; apply stable_remove_children; intros Hrec; by apply Habove. }
  intros [[[n|e]|e]|]; [|unfold release; stab..].
  apply stable_bind; [|intros _; apply stable_bind; [apply stable_mutation|intros; stab]].
  unfold remove_directory, release. apply stable_bind.
  { unfold route_storage. destruct (rr_backend r') as [n'|] eqn:Hn; [|stab]. apply stable_bind; [|intros; stab].
    apply stable_remove_dir. intros Hrec b Hb. by eapply (proj2 (Habove Hrec)). }
  intros x2. assert (stable (x ← with_metastore_route r' (ms_delete q); d ← attempt (store_result ("metastore_delete(" +:+ q +:+ "): ") x);
      match d with
      | Err e => _ ← release h; throw e
      | Ok _ => _ ← fdt_remove_tree q; release h
      end : K ())) as Hrest.
  { unfold store_result, release. apply stable_bind; [unfold with_metastore_route, with_store; stab; by apply stable_delete|].
    intros x. stab; apply stable_close; intros t; apply map_filter_subseteq. }
  unfold release in Hrest. destruct x2 as [[?|[]]|]; try exact Hrest. stab.
Qed.

(** Removing a file, a pipe or a stream. *)
Lemma stable_unlink_locked q ctx z r' e : Q q → no_nul q → route rt q z = Some r' → stable (unlink_locked q ctx r' e : K _).
Proof.
  intros HQ Hq Hr'. pose proof (others q HQ) as [Hqp Haw]. unfold unlink_locked, release. apply stable_bind; [stab|]. intros h.
  destruct (h =? 0)%N; [stab|]. apply stable_bind; [unfold with_metastore_route, with_store; stab; by apply stable_delete|]. intros x.
  apply stable_bind; [unfold store_result; stab|]. intros [u|e']; [|stab]. apply stable_bind.
  { unfold route_storage. destruct (rr_backend r') as [n|] eqn:Hn; [|stab]. apply stable_bind; [|intros; stab].
    apply stable_delete_file. intros b Hb. by eapply (Haw z r'). }
  intros _. apply stable_bind; [apply stable_close; intros t; apply delete_subseteq|]. intros _.
  unfold unlink_result. stab; auto using stable_mutation, stable_post.
Qed.

Lemma stable_metastore_delete q : Q q → no_nul q → stable (metastore_delete q : K _).
Proof.
  intros HQ Hq. pose proof (others q HQ) as [Hqp _]. unfold metastore_delete, resolve_mount_point, route_path, kernel_with_metastore, with_store, store_result.
  stab; by apply stable_delete.
Qed.

Lemma stable_unlink_entry q ctx recursive z r' e :
  Q q → no_nul q → (recursive = true → not_above q) → route rt q z = Some r' → md_entry_type e ≠ DT_MOUNT →
  stable (unlink_entry q ctx recursive r' e : K _).
Proof.
  intros HQ Hq Habove Hr' Ht. pose proof (others q HQ) as [Hqp _]. unfold unlink_entry, unlink_result. cbv zeta.
  case_decide; [apply stable_bind; [apply stable_attempt; unfold destroy_pipe; stab; by apply stable_metastore_delete|intros; stab]|].
  case_decide.
  { apply stable_bind; [|intros; stab]. unfold destroy_stream_in_zone, route_path. apply stable_bind; [stab|]. intros o.
    apply stable_bind; [|intros; stab]. destruct o as [r1|].
    - apply stable_bind; [unfold with_metastore_route, with_store; stab; by apply stable_delete|intros; stab].
    - apply stable_bind; [by apply stable_metastore_delete|intros; stab]. }
  case_decide; [apply stable_bind; [by apply stable_rmdir|intros; stab]|]. rewrite decide_False by done.
  case_decide; [stab|]. apply stable_bind; [unfold via_federation_unlink; stab|]. intros [hit|]; [stab|].
  by eapply stable_unlink_locked.
Qed.

Lemma stable_unlink q ctx recursive :
  Q q → (recursive = true → not_above q) → (∀ z r', route rt q z = Some r' → rr_backend_path r' ≠ "") →
  stable (sys_unlink_single q ctx recursive : K _).
Proof.
  intros HQ Habove Hbelow. pose proof (others q HQ) as [Hqp Haw]. unfold sys_unlink_single.
  eapply gives_bind; [apply gives_validate|]. intros u Hq. apply stable_bind; [stab|]. intros [|]; [stab|].
  apply stable_bind; [unfold check_permission; stab|]. intros _. apply stable_bind; [unfold dispatch_native_pre; stab|]. intros _.
  eapply gives_bind; [apply gives_route|]. intros o ->. destruct (route rt q (oc_zone_id ctx)) as [r'|] eqn:Hr'; [|stab].
  cbv zeta. rewrite decide_False by (intros [? _]; by eapply Hbelow).
  eapply gives_bind; [by eapply gives_get_row|]. intros [e|] Hrow; [eapply stable_unlink_entry; try done; by apply (Hrow e)|].
  unfold unlink_unlisted, unlink_result. apply stable_bind; [unfold via_federation_unlink; stab|]. intros hit. case_decide; [stab|].
  destruct (rr_backend r') as [n|] eqn:Hn; [|stab]. apply stable_bind; [stab|].
  intros [|]; [apply stable_bind; [by apply stable_rmdir|intros; stab]|]. apply stable_bind; [|intros; stab].
  apply stable_delete_file. intros b Hb. by eapply (Haw (oc_zone_id ctx) r').
Qed.

(** Copying to another file. *)

Lemma same_mount q1 z1 r1 q2 z2 r2 :
  route rt q1 z1 = Some r1 → route rt q2 z2 = Some r2 → rr_mount_point r1 = rr_mount_point r2 →
  rr_backend r1 = rr_backend r2 ∧ rr_is_cas r1 = rr_is_cas r2.
Proof.
  intros (? & e1 & _ & (H1 & _) & E1)%route_good (? & e2 & _ & (H2 & _) & E2)%route_good Em. rewrite Em, H2 in H1. injection H1 as <-.
  by rewrite E1, E2.
Qed.

Lemma gives_snapshot q ctx r' old :
  gives (snapshot_destination q ctx r' old : K _) (λ o, ∀ x, o = Some x → (slen x < U64_MOD)%N).
Proof.
  intros k x k' Hk. unfold snapshot_destination, ok_or, reads, mbind, K_bind, mret, K_ret, throw.
  destruct old as [e|]; [|intros [= <- <-]; split; [done|]; by intros ? [= <-]].
  destruct (rr_is_cas r'); [intros [= <- <-]; split; [done|]; by intros ? [= <-]|]. cbv zeta.
  destruct (rr_backend r') as [n|]; [|by intros [= <- <-]].
  match goal with |- context [os_read_content ?a ?b ?c ?d] => destruct (os_read_content a b c d) as [x'|] eqn:Hread end;
    intros [= <- <-]; (split; [done|]); [|done]. intros ? [= <-] ? [= <-]. by eapply (read_size _ _ ctx).
Qed.

Section copy.
Context (q src z : string) (rd rs : Route) (sm : FileMetadata) (ctx : OperationContext).
Hypothesis to_other : Q q.
Hypothesis to_route : route rt q z = Some rd.
Hypothesis from_route : route rt src z = Some rs.
Hypothesis path_addressed : rr_is_cas rd = false.

Lemma away_here n b : rr_backend rd = Some n → backend_named n = Some b → loc b (rr_backend_path rd) ≠ loc bk cid.
Proof. intros. by eapply (proj2 (others q to_other) z rd). Qed.

Lemma gives_read_write : gives (copy_via_read_write rs rd sm ctx : K _) (λ w, away q w.1 ∧ (w.2 < U64_MOD)%N).
Proof.
  unfold copy_via_read_write. destruct (md_content_id sm) as [[|c s]|]; [apply gives_throw| |apply gives_throw].
  eapply gives_seq; [apply gives_route_read|]. intros o Ho. eapply gives_seq; [apply gives_of_result|]. intros o1 Ho1.
  eapply gives_seq; [apply gives_ok_or|]. intros x ->. eapply gives_seq; [apply gives_ok_or|]. intros n Hn.
  assert (slen x < U64_MOD)%N as Hx.
  { destruct o as [[x'|e]|]; cbn in Ho1; [|destruct e; cbn in Ho1; try case_decide; done|done]. injection Ho1 as ->. by apply Ho. }
  eapply gives_seq; [apply gives_storage; [|done..]|]. { intros _ b Hb. exact (away_here n b Hn Hb). }
  intros [wr|e] Hw; [|apply gives_throw]. destruct (Hw wr eq_refl) as (_ & Ew & Hs). apply gives_ret. cbn. rewrite Ew.
  split; [|done]. by eapply (proj2 (others q to_other)).
Qed.

Lemma gives_copy : gives (copy_content ctx rs rd sm : K _) (λ w, away q w.1.1 ∧ (w.1.2 < U64_MOD)%N).
Proof.
  assert (gives (x ← copy_via_read_write rs rd sm ctx; mret (x, true) : K _) (λ w, away q w.1.1 ∧ (w.1.2 < U64_MOD)%N)) as Hrw.
  { eapply gives_seq; [apply gives_read_write|]. intros w Hw. by apply gives_ret. }
  unfold copy_content. cbv zeta. case_decide as Hm; [|done]. destruct (same_mount _ _ _ _ _ _ from_route to_route Hm) as [Hb Hc].
  rewrite Hc, path_addressed. unfold route_storage. rewrite Hb. destruct (rr_backend rd) as [n|] eqn:Hn.
  - eapply gives_seq; [eapply gives_seq; [apply gives_copy_file|]|].
    + intros b Hb'. by eapply away_here.
    + intros w Hw. by apply (gives_ret (Some w) (λ o, ∀ w, o = Some w → ∀ wr, w = Ok wr → wr_content_id wr = rr_backend_path rd ∧ (wr_size wr < U64_MOD)%N));
        intros ? [= <-].
    + intros [[wr|e]|] Hw; [|destruct e; [apply gives_throw..|done]|done]. destruct (Hw _ eq_refl wr eq_refl) as [Ew Hs]. apply gives_ret.
      cbn. rewrite Ew. split; [|done]. by eapply (proj2 (others q to_other)).
  - eapply gives_seq; [by apply (gives_ret None (λ o, o = None))|]. by intros o ->.
Qed.

Lemma stable_copy_rollback old oldc wrote :
  (∀ x, oldc = Some x → (slen x < U64_MOD)%N) → stable (copy_rollback ctx rd old oldc wrote : K _).
Proof.
  intros Hx. unfold copy_rollback, route_storage. destruct wrote; cbn [negb]; [|stab].
  destruct oldc as [x|]; [|destruct old; [stab|]]; (destruct (rr_backend rd) as [n|] eqn:Hn; [|stab]).
  - repeat (apply stable_bind; [|intros; stab]). intros k x1 k' Hk E1.
    eapply (gives_storage n x (rr_backend_path rd) ctx 0); [| |done|exact Hk|exact E1]; [|by apply Hx].
    intros _ b Hb. by eapply away_here.
  - apply stable_bind; [|intros; stab]. apply stable_delete_file. intros b Hb. by eapply away_here.
Qed.

Lemma stable_copy_locked now :
  (- I64_MAX - 1 ≤ now ≤ I64_MAX)%Z → no_nul q → stable (copy_locked now q ctx rs rd sm : K _).
Proof.
  intros Hnow Hq. unfold copy_locked. eapply gives_bind; [by eapply gives_get_row|]. intros old Hold.
  apply stable_bind; [destruct old; stab|]. intros _. cbv zeta. eapply gives_bind; [apply gives_snapshot|]. intros oldc Hc.
  apply stable_bind; [unfold untracked_destination; stab|]. intros [|]; [stab|]. eapply gives_bind; [apply gives_copy|].
  intros [[c size] wrote] [Haw Hs]. cbn in Haw, Hs. eapply gives_bind; [apply gives_build|]. intros m' (self & ->).
  apply stable_bind.
  { apply stable_kernel_put; [by apply others|]. split_and!; [|done|done|intros _; split; [done|]; by intros ? [= <-]].
    split; [|done]. unfold row_in_range. cbn. split_and!; [done|..|done| |by intros ? [= <-]].
    - unfold sat_add64, U64_MAX, U64_MOD. lia.
    - unfold sat_add32, U32_MOD. lia.
    - destruct old as [o|]; cbn; [|by intros ? [= <-]]. destruct (md_created_at_ms o) as [t|] eqn:Ht; [|by intros ? [= <-]].
      intros ? [= <-]. destruct (Hold o eq_refl) as (_ & [(_ & _ & _ & _ & Hcr & _) _] & _). by apply Hcr. }
  intros [[u|e]|]; [stab| |stab]. apply stable_bind; [by apply stable_copy_rollback|]. intros [[]|]; stab.
Qed.
End copy.

Lemma stable_copy now src q ctx :
  Q q → (∀ z r', route rt q z = Some r' → rr_is_cas r' = false) → (- I64_MAX - 1 ≤ now ≤ I64_MAX)%Z →
  stable (sys_copy now src q ctx : K _).
Proof.
  intros HQ Hcas Hnow. unfold sys_copy. cbn [sys_copy_with_link_depth]. apply stable_bind; [unfold validate; stab|]. intros _.
  eapply gives_bind; [apply gives_validate|]. intros u Hq. do 2 (apply stable_bind; [unfold check_permission; stab|intros _]).
  do 2 (eapply gives_bind; [apply gives_route|]; intros ? ->). destruct (route rt src (oc_zone_id ctx)) as [rs|] eqn:Hs; [|stab].
  destruct (route rt q (oc_zone_id ctx)) as [rd|] eqn:Hd; [|stab]. eapply gives_bind; [by eapply gives_get_row|]. intros row Hrow.
  eapply gives_bind; [apply gives_ok_or|]. intros sm ->. rewrite not_link_target by by apply (Hrow sm). apply stable_ret_bind.
  case_decide; [stab|]. assert (∀ l1 l2, stable (release_locks l1 l2 : K _)) as Hrel by (intros; unfold release_locks, when, release; stab).
  apply stable_bind; [unfold lock_pair; stab|]. intros locks. case_match; [apply stable_bind; [done|intros; stab]|].
  apply stable_bind; [eapply stable_attempt, stable_copy_locked; try done; by eapply Hcas|]. intros copied.
  apply stable_bind; [done|]. intros _. apply stable_bind; [stab|]. intros [[[c size] v] g].
  apply stable_bind; [apply stable_mutation|intros; stab].
Qed.

(** A read of the file itself. *)
Lemma gives_own_row : gives (get_row r p : K _) (λ o, o = Some m).
Proof.
  intros k x k' Hk E1. assert (gives (get_row r p : K _) (λ _, True)) as Hg.
  { apply gives_any. unfold get_row, with_metastore_route, with_store. stab. }
  destruct (Hg k x k' Hk E1) as [Hk' _]. split; [done|]. intros o ->.
  pose proof (sf_row _ Hk) as Hrow. unfold route_row in Hrow. destruct (resolve_metastore r _) as [id|] eqn:Hid; [|done]. cbn in Hrow.
  pose proof Hrow as Hs. unfold row_in in Hs. destruct (k_stores k !! id) as [s|] eqn:Es; [|done].
  destruct (run_get local_rows local_healthy local_store_laws k id p (sf_healthy _ Hk)) as (k1 & E2 & _); [by eexists|].
  unfold get_row, with_metastore_route, with_store, config, reads, mbind, K_bind in E1. rewrite Hid in E1.
  rewrite E2 in E1. cbn in E1. injection E1 as <- _. by rewrite Hrow.
Qed.

Lemma stable_read_own now req ctx :
  md_entry_type m = DT_REG → rq_path req = p → route rt p (oc_zone_id ctx) = Some r → stable (sys_read_one now req ctx : K _).
Proof.
  intros Ht Hp Hr. unfold sys_read_one. apply stable_bind; [|intros; stab]. cbn [sys_read_single]. rewrite Hp.
  apply stable_bind; [unfold validate; stab|]. intros _. apply stable_bind; [apply stable_reads|]. intros [|]; [stab|].
  apply stable_bind; [apply stable_read_hooks|]. intros _. unfold sys_read_after_auth.
  eapply gives_bind; [apply gives_link|]. intros a ->. eapply gives_bind; [apply gives_route|]. intros a ->. rewrite Hr.
  eapply gives_bind; [apply gives_own_row|]. intros o ->. rewrite not_link_target by by rewrite Ht. apply stable_ret_bind.
  case_decide; [apply stable_pipe_read|]. case_decide; [apply stable_stream_read|].
  apply stable_bind; [stab|]. intros [x|]; [apply stable_read_result|apply stable_read_locked].
Qed.

(** The calls that are followed, and what they may be about: reads of the file, and
    anything on other files but to remove a mount, or a directory with the file in it,
    recursively. *)
Definition on_other (c : Syscall) (ctx : OperationContext) : Prop :=
  match c with
  | CallRead now req =>
      (Q (rq_path req) ∨ (rq_path req = p ∧ route rt p (oc_zone_id ctx) = Some r)) ∧ (- I64_MAX - 1 ≤ now ≤ I64_MAX)%Z
  | CallWrite now req => Q (wq_path req) ∧ (- I64_MAX - 1 ≤ now ≤ I64_MAX)%Z ∧ (slen (wq_content req) < 2 ^ 63)%N
  | CallSetMode _ _ => True
  | CallMkdir q _ _ => Q q
  | CallRmdir q recursive => Q q ∧ (recursive = true → not_above q)
  | CallUnlink q recursive =>
      Q q ∧ (recursive = true → not_above q) ∧ ∀ z r', route rt q z = Some r' → rr_backend_path r' ≠ ""
  | CallCopy now _ q =>
      Q q ∧ (∀ z r', route rt q z = Some r' → rr_is_cas r' = false) ∧ (- I64_MAX - 1 ≤ now ≤ I64_MAX)%Z
  | CallRename _ _ => False
  end.

Lemma stable_call c ctx : md_entry_type m = DT_REG → on_other c ctx → stable (run_call c ctx : K ()).
Proof.
  intros Ht. destruct c; cbn [on_other run_call].
  - intros [[?|[??]] ?]; (apply stable_bind; [|intros; stab]); [by apply stable_read|by apply stable_read_own].
  - intros (? & ? & ?). apply stable_bind; [by apply stable_write|intros; stab].
  - intros _. apply stable_set_mode.
  - intros ?. apply stable_bind; [by apply stable_mkdir|intros; stab].
  - intros [??]. apply stable_bind; [by apply stable_rmdir|intros; stab].
  - intros (? & ? & ?). apply stable_bind; [by apply stable_unlink|intros; stab].
  - done.
  - intros (? & ? & ?). apply stable_bind; [by apply stable_copy|intros; stab].
Qed.
End frame.

(** ** The last write is read *)

Section last.
Context {codec : RowCodec} {laws : RowLaws}.
Context {LM : LocalMounts}.
Hypothesis all_static : ∀ n b, backend_named n = Some b → static b.
Context {L : Type} `{!Locks L}.
Context {E : Type} `{!PipeBackend E}.
Context {B : Type} `{!StreamBackend B}.
Context {TX : Texts}.

Abbreviation Disk := (Kernel HostFs LocalMetaStore L E B).
Abbreviation K := (@K HostFs LocalMetaStore L E B).
Implicit Types (k : Disk).

(** A path that is not [p] and leads to another file of the host, by its route and by
    every row that is kept of it. *)
Definition elsewhere k (p : string) (r : Route) (bk : LocalBackend) (q : string) : Prop :=
  q ≠ p ∧ (∀ z r', route (k_router k) q z = Some r' → away (k_router k) bk (rr_backend_path r) q (rr_backend_path r')) ∧
  ∀ id m, row_in local_rows k id q = Some m → md_entry_type m ≠ DT_MOUNT ∧
    ∀ cid, md_content_id m = Some cid → away (k_router k) bk (rr_backend_path r) q cid.

(** A call that reads the file at [p] or is about other files. *)
Definition harmless k (p : string) (r : Route) (bk : LocalBackend) (c : Syscall * OperationContext) : Prop :=
  on_other (k_router k) p r bk (rr_backend_path r) (elsewhere k p r bk) c.1 c.2.

(** Calls one after the other, whatever each ends with. *)
Definition run_calls (cs : list (Syscall * OperationContext)) : K (list (result KernelError ())) :=
  each (λ c, attempt (run_call c.1 c.2)) cs.

Lemma run_calls_locked k0 cs : ∀ n H k x k',
  Forall (λ c, match c.1 with CallRename _ _ => False | _ => True end) cs →
  locked (k_config k0, None) (2 * N.of_nat (length cs) + n) H k → run_calls cs k = Some (x, k') →
  locked (k_config k0, None) n H k'.
Proof.
  induction cs as [|[c ctx] cs IH]; intros n H k x k' Hcs Hk; unfold run_calls; cbn [each]; [by intros [= _ <-]|].
  apply Forall_cons in Hcs as [Hc Hcs]. unfold mbind, K_bind. unfold attempt at 1. cbn [fst snd].
  destruct (run_call c ctx k) as [[y k1]|] eqn:E1; [|done].
  assert (locked (k_config k0, None) (2 * N.of_nat (length cs) + n) H k1) as Hk1.
  { pose proof (frees_call c ctx k (2 * N.of_nat (length cs) + n)%N H k y k1) as Hf. rewrite without_empty in Hf.
    assert (call_context c k = (k_config k0, None)) as Ec.
    { unfold call_context. destruct Hk as [[-> _] _]. by destruct c. }
    rewrite Ec in Hf. apply Hf; [set_solver| |done]. cbn [length] in Hk.
    replace (2 + (2 * N.of_nat (length cs) + n))%N with (2 * N.of_nat (Datatypes.S (length cs)) + n)%N by lia. done. }
  specialize (IH n H k1). unfold run_calls in IH. destruct (each _ cs k1) as [[[ys|e] k2]|]; [| |done]; intros [= _ <-]; by eapply IH.
Qed.

(** The file that a local write names is there afterwards. *)
Lemma written_file bk cid x i fs :
  tree_wf fs → rooted fs bk → has_substring ".." (trim_start "/" cid) = false →
  find_node true (physical bk cid) fs = Ok (HFile i) → bytes_of i fs = x → file_at (loc bk cid) x fs.
Proof.
  intros Hwf Hr Hd Hf Hx. unfold find_node in Hf. rewrite comps_physical in Hf.
  destruct (walk fs true (loc bk cid)) as [l|] eqn:Hw; cbn [mbind result_bind] in Hf; [|done].
  apply walk_direct in Hw as ->; [|by eapply loc_plain|by apply loc_clear].
  destruct (node_at fs (loc bk cid)) as [n|] eqn:Hn; [|done]. destruct (_ && _); [done|]. injection Hf as ->.
  exists i. split; [|done]. unfold node_at in Hn. by case_decide.
Qed.

(** What the write of [p] leaves. *)
Lemma write_safe now p x ctx rep r n bk k k1 res :
  (- I64_MAX - 1 ≤ now ≤ I64_MAX)%Z → (slen (default x rep) < 2 ^ 63)%N →
  all_healthy local_healthy k → stores_present k → lock_room 2 k → host_ok (k_storage k) → no_links k → keyed k →
  plain local_rows p (oc_zone_id ctx) r n k → backend_named n = Some bk →
  apply_mutating_write_hooks p ctx x k = Some (Ok rep, k) →
  sys_write_one now (mkWriteRequest p x 0) ctx k = Some (Ok res, k1) → ww_hit res = true →
  ¬ in_the_way (k_locks k) p ModeWrite ∧
  ∃ m, md_entry_type m = DT_REG ∧ md_content_id m = Some (rr_backend_path r) ∧
    ww_content_id res = Some (rr_backend_path r) ∧ md_gen m = ww_gen res ∧
    local_read_content bk (rr_backend_path r) (k_storage k1) = Ok (default x rep) ∧
    Safe (k_config k) (k_router k) (k_trie k) p r bk m (rr_backend_path r) (default x rep) (elsewhere k p r bk) k1.
Proof.
  intros Hnow Hx Hh Hp Hroom Ho Hnl Hby Hpl Hbk Hhook E1 Hhit. assert (slen (default x rep) < U64_MOD)%N as Hx' by (unfold U64_MOD; lia).
  destruct (write_hit_spec local_rows local_healthy (λ _, True) local_store_laws (local_bytes_laws all_static)
    now p x ctx rep r n k k1 res) as (Hway & wr & m & Hw & Ha & Hadd & Hrow & Ht & Hcid & Hgen & Hrc & Hf); try done.
  split; [done|]. exists m. pose proof Hw as Hw'. cbn in Hw'. unfold on_backend in Hw'. rewrite Hbk in Hw'.
  destruct (write_frame all_static n bk _ _ _ _ _ _ _ Hbk Ho Hx' (λ _, Hx) Hw') as [[Ho1 _] Hwr].
  destruct (Hwr wr eq_refl) as [Ecid _]. rewrite Ecid in Hcid, Hrc.
  destruct (local_write_spec _ _ _ _ _ _ _ (all_static _ _ Hbk) Hw') as (Hne & _ & _ & Hres & i & mode & t & Hfind & Hi).
  assert (rooted (k_storage k1) bk) as Hr1 by (by eapply (ho_sound _ Ho1)).
  assert (has_substring ".." (trim_start "/" (rr_backend_path r)) = false) as Hd.
  { rewrite resolve_static in Hres by by eapply all_static. by destruct (has_substring _ _). }
  assert (bytes_of i (k_storage k1) = default x rep) as Hbytes by (unfold bytes_of; by rewrite Hi).
  split_and!; try done.
  - unfold local_read_content. rewrite decide_False, Hres by done. cbn [mbind result_bind]. unfold host_read. rewrite Hfind. cbn.
    by rewrite Hbytes.
  - split; try apply Ha; try done.
    + intros id s. apply (ag_healthy _ _ _ _ _ Ha).
    + by eapply agree_present.
    + intros id q m' [Hq|[-> ->]]%Hadd; [by eapply Hnl|by rewrite Ht].
    + intros id q m' Hq [Hq'|[-> _]]%Hadd; [by eapply Hby|done].
    + intros id q m' (Hqp & _ & Hrows) [Hq|[-> _]]%Hadd; [by eapply Hrows|done].
    + eapply written_file; [apply (ho_sound _ Ho1)|done..].
    + intros h Hhd. rewrite Hf in Hhd.
      eapply (registered_descriptor (λ _, True) (local_bytes_laws all_static)) in Hhd; [|done|exact Hw|apply Hpl].
      rewrite Ecid in Hhd. cbn in Hhd. rewrite Hbk in Hhd. cbn in Hhd. unfold local_resolve_physical_path in Hhd.
      rewrite Hres in Hhd. by injection Hhd as <-.
Qed.

(** A descriptor of a file that a read finds answers with the bytes of the read. *)
Lemma descriptor_agrees bk cid y p k :
  static bk → local_read_content bk cid (k_storage k) = Ok y →
  (∀ h, k_fdt k !! p = Some h → fh_physical_path h = physical bk cid) → descriptor_reads p y k.
Proof.
  intros Hs Hread Hfd h n Hh. unfold current_size. cbn [fs_metadata local_object_stores]. rewrite (Hfd h Hh). revert Hread.
  unfold local_read_content. case_decide; [done|]. rewrite resolve_static by done. destruct (has_substring _ _); [done|].
  cbn [mbind result_bind]. unfold host_read, host_metadata.
  destruct (find_node _ _ _) as [[i|i|t]|e]; cbn [mbind result_bind]; unfold or_not_found; try by repeat case_match.
  intros [= Hy]. case_decide as Hf; [|done]. cbn. intros [= <-]. rewrite Hy. destruct (N.eqb_spec (slen y) 0) as [Hz|_].
  - unfold slen in Hz. by destruct y.
  - cbn. unfold host_pread. rewrite <-Hf. cbn. unfold bytes_of in Hy. destruct (hf_inodes _ !! i) as [d|]; [|by right].
    cbn in *. destruct (in_is_dir d); [by right|]. left. rewrite Hy. unfold slen. rewrite Nat2N.id.
    rewrite <-(sapp_nil_r y) at 2. by rewrite stake_app.
Qed.

(** Where the file is kept, reading it gives its bytes. *)
Lemma safe_read cfg rt tr p r bk m cid y Q n ctx k :
  Safe cfg rt tr p r bk m cid y Q k → backend_named n = Some bk →
  cid ≠ "" → has_substring ".." (trim_start "/" cid) = false → names_dir (physical bk cid) = false →
  os_read_content n cid ctx (k_storage k) = Ok y ∧ descriptor_reads p y k.
Proof.
  intros Hk Hbk Hne Hd Hnd. destruct (sf_file _ _ _ _ _ _ _ _ _ _ _ Hk) as (i & Hi & <-).
  pose proof (ho_sound _ (sf_host _ _ _ _ _ _ _ _ _ _ _ Hk)) as [Hwf Hr].
  assert (local_read_content bk cid (k_storage k) = Ok (bytes_of i (k_storage k))) as Hread.
  { apply read_iff; [by eapply all_static|done|by eapply Hr|]. split_and!; try done. by exists i. }
  split; [cbn; unfold at_backend; by rewrite Hbk|]. eapply descriptor_agrees; [by eapply all_static|done|apply Hk].
Qed.

Lemma stable_calls cfg rt tr p r bk m cid y Q cs :
  kc_federation_cache cfg = None →
  (∀ q, Q q → q ≠ p ∧ ∀ z r', route rt q z = Some r' → away rt bk cid q (rr_backend_path r')) →
  (∀ c x, dispatch_pre (kc_hooks cfg) c = Ok (Some x) → (slen x < 2 ^ 63)%N) →
  md_entry_type m = DT_REG → Forall (λ c, on_other rt p r bk cid Q c.1 c.2) cs →
  stable cfg rt tr p r bk m cid y Q (run_calls cs).
Proof.
  intros Hc Ho Hh Ht. unfold run_calls. induction 1 as [|[c ctx] cs Hcs _ IH]; cbn [each]; [apply stable_ret|].
  apply stable_bind; [apply stable_attempt; by apply stable_call|]. intros u. apply stable_bind; [done|]. intros. apply stable_ret.
Qed.

(** What the write and the calls after it leave of the locks. *)
Lemma locks_back now req ctx cs p r bk k0 k res k1 us k2 :
  lock_room (2 + 2 * N.of_nat (length cs) + 1) k → Forall (harmless k0 p r bk) cs →
  sys_write_one now req ctx k = Some (res, k1) → run_calls cs k1 = Some (us, k2) →
  manager_inv (k_locks k2) ∧ counters_in_range (k_locks k2) ∧ io_state (k_locks k2) = io_state (k_locks k).
Proof.
  intros Hk Hcs E1 E2. set (H := io_handles (io_state (k_locks k))).
  assert (locked (k_config k, None) (2 * N.of_nat (length cs) + 1) H k1) as Hk1.
  { pose proof (frees_write (k_config k, None) 1 now (wq_path req) ctx (wq_content req) (wq_offset req)
      (2 * N.of_nat (length cs) + 1)%N H k res k1) as Hf. rewrite without_empty in Hf.
    apply Hf; [set_solver| |exact E1]. eapply locked_mono; [|exact Hk]. lia. }
  eapply run_calls_locked in E2 as (_ & Hi & Hh & Hn & Hs); [| |exact Hk1].
  - destruct Hk as (_ & Hi0 & _). split_and!; [done|unfold counters_in_range; by rewrite Hh|]. by eapply io_inv_unique.
  - eapply Forall_impl; [exact Hcs|]. by intros [[] ?].
Qed.

End last.

(** ** Two files of a small disk *)

#[local] Instance frame_codec : RowCodec := small_row_codec.
#[local] Instance frame_laws : RowLaws := small_row_laws.
#[local] Existing Instance srv.

Lemma comps_trim s : comps (trim_start "/" s) = comps s ∧ comps (trim_start_matches "/" s) = comps s.
Proof.
  induction s as [|a s [IH1 IH2]]; [done|]. cbn [trim_start trim_start_matches]. case_decide as Ha; [|done].
  subst a. rewrite IH1, IH2. pose proof (comps_app "" s) as Hc. by rewrite sapp_nil_l in Hc.
Qed.

(** Whatever the zone of the caller, the path below the mount ends like the path. *)
Lemma one_mount_last name z r :
  name ≠ "root" → comps name = [name] → trim_start_matches "/" ("/" +:+ name) = name → name ≠ "" →
  route one_mount ("/" +:+ name) z = Some r → rr_is_cas r = false ∧ ∃ l, comps (rr_backend_path r) = l ++ [name].
Proof.
  intros Hroot Hname Htrim Hne (z' & e & _ & (He & Ha & _) & Hr)%route_good. unfold one_mount in He.
  apply lookup_singleton_Some in He as [Em <-]. rewrite <-Em in *. set (canonical := canonicalize_mount_path _ z') in *.
  assert (comps canonical = comps z' ++ [name]) as Hc.
  { assert (canonical = ("" +:+ String "/" z') +:+ String "/" name) as ->.
    { unfold canonical, canonicalize_mount_path. by rewrite Htrim, decide_False by done. }
    by rewrite !comps_app, Hname. }
  split; [by rewrite Hr|]. destruct Ha as [Ha|[(? & _)|(_ & rest & Ha)]]; [|done|].
  - rewrite <-Ha in Hc. change (["root"] = comps z' ++ [name]) in Hc. apply (f_equal last) in Hc. rewrite last_snoc in Hc. cbn in Hc. congruence.
  - assert (rr_backend_path r = trim_start_matches "/" ("/" +:+ rest)) as ->.
    { rewrite Hr. cbn. unfold under_mount. rewrite Ha, decide_False, decide_False by done. by rewrite slen_app. }
    rewrite Ha in Hc. rewrite (proj2 (comps_trim _)). change ("/" +:+ rest) with ("" +:+ String "/" rest). rewrite comps_app. cbn.
    change (comps ("/root" +:+ String "/" rest) = comps z' ++ [name]) in Hc. rewrite comps_app in Hc.
    change (comps "/root") with ["root"] in Hc. destruct (comps rest) as [|x l _] using rev_ind; [apply (f_equal last) in Hc; rewrite last_snoc in Hc; cbn in Hc; congruence|].
    rewrite app_assoc in Hc. apply app_inj_tail in Hc as [_ ->]. by exists l.
Qed.

Lemma disk_empty fs commits id q : row_in local_rows (disk fs ∅ commits) id q = None.
Proof.
  unfold row_in. cbn. destruct (decide (id = 0%N)) as [->|Hne]; [|by rewrite lookup_singleton_ne].
  rewrite lookup_singleton_eq. unfold local_rows. cbn. by rewrite lookup_omap, lookup_empty.
Qed.

Definition route_b : Route := mkRouteResult "/root" "b" "root" false false None (Some 0%N) None.

Lemma elsewhere_other name :
  name ≠ "root" → comps name = [name] → trim_start_matches "/" ("/" +:+ name) = name → name ≠ "" → name ≠ "b" →
  elsewhere (disk small_host ∅ []) "/b" route_b (PathLocalBackend "/srv") ("/" +:+ name).
Proof.
  intros H1 H2 H3 H4 Hb. split; [intros [= ?]; done|]. split.
  - intros z r (_ & l & Hl)%one_mount_last z' r' n b _ _ Hbk; [|done..]. cbn in Hbk. case_match; [|done]. injection Hbk as <-.
    unfold loc. rewrite (proj1 (comps_trim _)), Hl. change (comps (root_path _)) with ["srv"].
    change (comps (trim_start "/" _)) with ["b"]. intros [= E]. apply (f_equal last) in E. rewrite last_snoc in E. cbn in E. congruence.
  - intros id m. by rewrite disk_empty.
Qed.

Lemma small_host_ok : host_ok small_host.
Proof.
  split; [apply disk_sound|..].
  - intros l l' i [[-> ?]|[[-> ?]|[-> ?]]]%small_host_entries [[-> ?]|[[-> ?]|[-> ?]]]%small_host_entries; by simplify_eq.
  - by intros l i [[_ [=]]|[[_ [= ->]]|[_ [= ->]]]]%small_host_entries.
Qed.

(** Another file is written, read, copied to and removed, a directory is made and
    removed, and the file is read. *)
Definition meanwhile : list (Syscall * OperationContext) :=
  (λ c, (c, root_user)) <$>
    [CallWrite 6 (mkWriteRequest "/c" "other" 0); CallRead 7 (mkReadRequest "/b" 0 None 0); CallWrite 8 (mkWriteRequest "/c" "!" 9);
     CallCopy 9 "/b" "/c"; CallRead 10 (mkReadRequest "/c" 0 None 0); CallMkdir "/d" true true; CallUnlink "/c" false;
     CallRmdir "/d" false].

Lemma meanwhile_harmless : Forall (harmless (disk small_host ∅ []) "/b" route_b (PathLocalBackend "/srv")) meanwhile.
Proof.
  pose proof (elsewhere_other "c") as Hc. pose proof (elsewhere_other "d") as Hd.
  assert (∀ z r', route one_mount "/c" z = Some r' → rr_backend_path r' ≠ "" ∧ rr_is_cas r' = false) as Hr.
  { intros z r' (? & l & Hl)%(one_mount_last "c"); [|done..]. split; [|done]. intros E. rewrite E in Hl. by destruct l. }
  repeat apply Forall_cons_2; [..|done]; unfold harmless; cbn [fst snd on_other].
  - by split_and!; [apply Hc|..].
  - split_and!; [|done..]. by right.
  - by split_and!; [apply Hc|..].
  - split_and!; [by apply Hc| |done..]. intros z r' Hz. by eapply Hr.
  - split_and!; [|done..]. left. by apply Hc.
  - by apply Hd.
  - split_and!; [by apply Hc|done|]. intros z r' Hz. by eapply Hr.
  - split; [by apply Hd|done].
Qed.

