(* ===== verification/A2a.v ===== *)
(** * Messages between agents

    The messaging crate src/rust/a2a/src: where conversations live (addresses.rs), the
    addresses of agents of other domains (domain_address.rs), the policy of a shared
    space (collaboration_policy.rs) and its replicated store
    (src/rust/raft/src/collaboration_store.rs), the hook that stamps the sender into
    every message (mailbox_stamping_policy.rs, mailbox_stamping_hook.rs), the
    confinement of agents of other organisations (foreign_containment.rs, with the
    composite of src/rust/profiles/cluster/src/authorization.rs), and the session
    protocol (session.rs).  Beside them the permission provider of zone grants,
    src/rust/permission/src/zone_perms.rs, and the format of zone ids,
    src/rust/contracts/src/zone_id.rs.

    JSON, base32, BLAKE3 and the generated rules of zone ids are parameters. *)

From S2P Require Import Prelude Bytes Codec Table LockState Command Rename StateMachine RebacStore IoLocks Router Pipe PipeManager StreamBuf StreamManager MetaStore KernelTypes Dispatch Kernel HostFs.

(** ** Addresses *)

Definition A2A_INBOX_BASE : string := "/agents".
Definition AGENT_STATE_SUFFIX : string := "/state".
Definition CONVERSATIONS_BASE : string := "/conversations".
Definition TRANSCRIPT_LEAF : string := "/transcript".
Definition CONVERSATIONS_SEGMENT : string := "/conversations/".
Definition READERS_SEGMENT : string := "/readers/".
Definition AGENT_CONVERSATIONS_SEGMENT : string := "/conversations".

Definition agent_state_path (agent_name : string) : string := A2A_INBOX_BASE +:+ "/" +:+ agent_name +:+ AGENT_STATE_SUFFIX.

Definition pair_text (a b : string) : string :=
  let '(first, second) := if String.leb a b then (a, b) else (b, a) in
  first +:+ String "000" second.

Definition conversation_id (blake3_hex : string → string) (a b : string) : string :=
  stake 32 (blake3_hex (pair_text a b)).

Definition conversation_transcript_path (cid : string) : string := CONVERSATIONS_BASE +:+ "/" +:+ cid +:+ TRANSCRIPT_LEAF.

Definition conversation_reader_path (cid agent_name : string) : string :=
  CONVERSATIONS_BASE +:+ "/" +:+ cid +:+ READERS_SEGMENT +:+ agent_name.

Definition agent_conversation_link_path (agent_name peer_name : string) : string :=
  A2A_INBOX_BASE +:+ "/" +:+ agent_name +:+ AGENT_CONVERSATIONS_SEGMENT +:+ "/" +:+ peer_name.

Definition is_conversation_index_path (path : string) : bool :=
  match strip_prefix A2A_INBOX_BASE path with
  | None => false
  | Some rest =>
      if negb (bool_decide (rest = "") || starts_with "/" rest) then false
      else
        let index_dir := trim_start "/" AGENT_CONVERSATIONS_SEGMENT in
        match filter (λ s, s ≠ "") (ssplit "/" rest) with
        | [_; dir] => bool_decide (dir = index_dir)
        | [_; dir; peer] => bool_decide (dir = index_dir) && bool_decide (peer ≠ "")
        | _ => false
        end
  end.

Definition is_conversation_transcript_path (path : string) : bool :=
  ends_with TRANSCRIPT_LEAF path && has_substring CONVERSATIONS_SEGMENT path.

Definition is_conversation_reader_path (path : string) : bool :=
  has_substring CONVERSATIONS_SEGMENT path && has_substring READERS_SEGMENT path.

(** ** Permission providers *)

Definition foreign_check (perm_debug : Permission → string) (path : string) (_ : option Route) (permission : Permission)
    (ctx : OperationContext) : result KernelError () :=
  if negb (oc_is_system ctx) && (bool_decide (path = "/collaboration") || starts_with "/collaboration/" path)
  then Err (EPermissionDenied "the collaboration namespace is reserved; native domain authorization is not enabled")
  else match oc_trust_domain ctx with
       | None => Ok ()
       | Some trust_domain =>
           if is_conversation_transcript_path path then Ok ()
           else if is_conversation_reader_path path && bool_decide (permission = PermRead) then Ok ()
           else if is_conversation_index_path path then Ok ()
           else Err (EPermissionDenied ("foreign agent (trust domain '" +:+ trust_domain +:+
                  "') is confined to its A2A conversation transcripts and chat-list entries (read-only on reader registers); '" +:+
                  path +:+ "' is out of scope for " +:+ perm_debug permission))
       end.

(** [ClusterPermissionProvider]: the routes of early checks are resolved for the
    relationships. *)
Definition cluster_check (perm_debug : Permission → string) (router : MountTable)
    (relationships : option (string → option Route → Permission → OperationContext → result KernelError ()))
    (path : string) (r : option Route) (permission : Permission) (ctx : OperationContext) : result KernelError () :=
  _ ← foreign_check perm_debug path r permission ctx;
  match relationships with
  | None => Ok ()
  | Some check =>
      r ← match r with
          | None =>
              if negb (oc_is_admin ctx) && negb (oc_is_system ctx) then
                match route router path (oc_zone_id ctx) with
                | None => Err (EPermissionDenied ("rebac: no mount owns " +:+ path +:+ " in zone " +:+ oc_zone_id ctx))
                | Some r => Ok (Some r)
                end
              else Ok None
          | Some r => Ok (Some r)
          end;
      check path r permission ctx
  end.

Definition permission_char (permission : Permission) : ascii :=
  match permission with PermRead | PermTraverse => "r" | PermWrite => "w" end.

Definition owning_zone (r : option Route) (ctx : OperationContext) : string :=
  match r with
  | Some r => rr_zone_id r
  | None => default ROOT_ZONE_ID (oc_context_zone_id ctx)
  end.

Definition zone_perms_check (perms_debug : list (string * string) → string) (path : string) (r : option Route)
    (permission : Permission) (ctx : OperationContext) : result KernelError () :=
  let perm_char := permission_char permission in
  let path_zone := owning_zone r ctx in
  if existsb (λ grant, bool_decide (grant.1 = path_zone) && scontains perm_char grant.2) (oc_zone_perms ctx) then Ok ()
  else Err (EPermissionDenied ("zone permission denied: no " +:+ String perm_char " grant for '" +:+ path +:+ "' in zone '" +:+
              path_zone +:+ "' (caller grants: " +:+ perms_debug (oc_zone_perms ctx) +:+ ")")).

(** ** JSON

    What the crate uses of serde_json: values, and the derived codecs of its own
    structures. *)

Inductive SessionPayload (V : Type) := Rpc (message : V) | Closed (reason : string).
Arguments Rpc {V}.
Arguments Closed {V}.

Record SessionFrame (V : Type) := mkFrame {
  sf_protocol : string;
  sf_channel_id : string;
  sf_sequence : N;
  sf_payload : SessionPayload V }.
Arguments mkFrame {V}.
Arguments sf_protocol {V}.
Arguments sf_channel_id {V}.
Arguments sf_sequence {V}.
Arguments sf_payload {V}.

Record MailboxEnvelope := mkMailbox { mb_from : string; mb_to : string; mb_body : string }.

Record Envelope := mkEnvelope { en_from : string; en_to : string; en_kind : string; en_body : string }.

Class Json := {
  Value : Type;
  from_slice : string → result string Value;
  to_vec : Value → result string string;
  as_object : Value → option (gmap string Value);
  of_object : gmap string Value → Value;
  as_str : Value → option string;
  of_str : string → Value;
  as_i64 : Value → option Z;
  mailbox_to_vec : MailboxEnvelope → result string string;
  mailbox_from_slice : string → result string MailboxEnvelope;
  envelope_to_vec : Envelope → result string string;
  envelope_from_value : Value → result string Envelope;
  frame_to_string : SessionFrame Value → result string string;
  frame_from_value : Value → result string (SessionFrame Value) }.

Section messages.
Context `{!Json}.

(** [Value::get] of a key *)
Definition value_get (key : string) (v : Value) : option Value := m ← as_object v; m !! key.

(** ** The sender of a message *)

(** [MailboxEnvelope::to_bytes], [MailboxEnvelope::from_bytes] *)
Definition mailbox_to_bytes (e : MailboxEnvelope) : string := match mailbox_to_vec e with Ok b => b | Err _ => "" end.
Definition mailbox_from_bytes (bytes : string) : option MailboxEnvelope :=
  match mailbox_from_slice bytes with Ok e => Some e | Err _ => None end.

Definition maybe_stamp_chat_envelope (path : string) (caller_agent_id : option string) (content : string) : option string :=
  if negb (is_conversation_transcript_path path) then None
  else
    caller ← caller_agent_id;
    if decide (caller = "") then None
    else match from_slice content with
         | Err _ => None
         | Ok value =>
             obj ← as_object value;
             if bool_decide (obj !! "from" ≫= as_str = Some caller) then None
             else match to_vec (of_object (<["from" := of_str caller]> obj)) with
                  | Ok rewritten => Some rewritten
                  | Err _ => None
                  end
         end.

Definition SESSION_KIND : string := "session".

(** Who is stamped: an agent, or a user in control of a session. *)
Definition stamp_caller (identity : HookIdentity) (content : string) : option string :=
  let session_control :=
    bool_decide (hi_agent_id identity = "") &&
    match from_slice content with
    | Ok v => bool_decide (value_get "kind" v ≫= as_str = Some SESSION_KIND)
    | Err _ => false
    end in
  if session_control && bool_decide (hi_user_id identity ≠ "") then Some (hi_user_id identity)
  else if decide (hi_agent_id identity = "") then None
  else Some (hi_agent_id identity).

Definition stamping_on_pre (fail_closed : bool) (ctx : HookContext) : result string HookOutcome :=
  if starts_with "/__sys__/" (hook_path ctx) then Ok HookPass
  else match ctx with
       | HookWrite c =>
           if decide (wh_content c = "") then Ok HookPass
           else
             let caller := stamp_caller (wh_identity c) (wh_content c) in
             if fail_closed && bool_decide (caller = None) && is_conversation_transcript_path (wh_path c)
             then Err ("fail-closed: A2A mailbox write to " +:+ wh_path c +:+
                       " requires an authenticated agent identity (no agent_id on the caller)")
             else match maybe_stamp_chat_envelope (wh_path c) caller (wh_content c) with
                  | Some rewritten => Ok (HookReplace rewritten)
                  | None => Ok HookPass
                  end
       | _ => Ok HookPass
       end.

(** [MailboxStampingHook] *)
Definition stamping_hook (fail_closed : bool) : Hook :=
  mkHook "mailbox_stamping" (stamping_on_pre fail_closed) [TRANSCRIPT_LEAF].
End messages.

(** ** Sessions *)

Definition SESSION_PROTOCOL : string := "acp-mailbox/1".
Definition MAX_SAFE_INTEGER : N := 9007199254740991.
Definition MAX_SESSION_FRAME_BYTES : N := 4194304.

Record SessionEndpoint := mkEndpoint {
  se_protocol : string;
  se_channel_id : string;
  se_agent : string;
  se_controller : string;
  se_transcript : string }.

Definition endpoint_new (blake3_hex : string → string) (agent controller channel_id : string) : SessionEndpoint :=
  mkEndpoint SESSION_PROTOCOL channel_id agent controller
    (conversation_transcript_path (conversation_id blake3_hex agent controller)).

Definition endpoint_validate (blake3_hex : string → string) (e : SessionEndpoint) : result string () :=
  if decide (se_protocol e ≠ SESSION_PROTOCOL) then Err ("unsupported session protocol: " +:+ se_protocol e)
  else if decide (se_agent e = "" ∨ se_controller e = "" ∨ se_agent e = se_controller e)
  then Err "a session requires distinct agent and controller identities"
  else if decide (se_channel_id e = "") then Err "a session channel requires a generation identifier"
  else if decide (se_transcript e ≠ conversation_transcript_path (conversation_id blake3_hex (se_agent e) (se_controller e)))
  then Err "session endpoint does not name its participants' conversation"
  else Ok ().

Inductive SessionSide := SideAgent | SideController.

Record SessionCodec := mkCodec {
  sc_endpoint : SessionEndpoint;
  sc_sender : string;
  sc_recipient : string;
  sc_sent : N;
  sc_received : N }.

Definition codec_new (blake3_hex : string → string) (endpoint : SessionEndpoint) (side : SessionSide) : result string SessionCodec :=
  _ ← endpoint_validate blake3_hex endpoint;
  let '(sender, recipient) := match side with
                              | SideAgent => (se_agent endpoint, se_controller endpoint)
                              | SideController => (se_controller endpoint, se_agent endpoint)
                              end in
  Ok (mkCodec endpoint sender recipient 0 0).

Section sessions.
Context `{!Json}.

Definition validate_payload (payload : SessionPayload Value) : result string () :=
  match payload with
  | Closed _ => Ok ()
  | Rpc message =>
      match as_object message with
      | None => Err "session RPC must be a JSON object"
      | Some object =>
          let has key := bool_decide (is_Some (object !! key)) in
          if decide (object !! "jsonrpc" ≫= as_str ≠ Some "2.0") then Err "session RPC requires jsonrpc 2.0"
          else if match object !! "id" with
                  | Some id =>
                      negb (bool_decide (is_Some (as_str id)) ||
                            match as_i64 id with Some i => (Z.abs_N i <=? MAX_SAFE_INTEGER)%N | None => false end)
                  | None => false
                  end
          then Err "session RPC ID must be a string or safe integer"
          else match object !! "method" with
               | Some method =>
                   if negb (bool_decide (is_Some (as_str method))) || has "result" || has "error"
                   then Err "invalid session RPC request" else Ok ()
               | None =>
                   if negb (has "id") || Bool.eqb (has "result") (has "error")
                   then Err "session RPC response requires an ID and one result or error" else Ok ()
               end
      end
  end.

(** [SessionCodec::encode]; the counter moves only when the bytes are made. *)
Definition session_encode (payload : SessionPayload Value) (c : SessionCodec) : result string (string * SessionCodec) :=
  _ ← validate_payload payload;
  let sequence := (sc_sent c + 1)%N in
  if (U64_MAX <? sequence)%N then Err "session sequence exhausted"
  else if (MAX_SAFE_INTEGER <? sequence)%N then Err "session sequence exhausted"
  else
    body ← frame_to_string (mkFrame SESSION_PROTOCOL (se_channel_id (sc_endpoint c)) sequence payload);
    bytes ← envelope_to_vec (mkEnvelope (sc_sender c) (sc_recipient c) SESSION_KIND body);
    if (MAX_SESSION_FRAME_BYTES <? slen bytes)%N then Err "session frame exceeds the size limit"
    else Ok (bytes, mkCodec (sc_endpoint c) (sc_sender c) (sc_recipient c) sequence (sc_received c)).

Definition sequence_gap (expected received : N) : string :=
  "session sequence gap: expected " +:+ pretty expected +:+ ", received " +:+ pretty received.

(** [SessionCodec::decode]; the counter moves only with a payload. *)
Definition session_decode (bytes : string) (c : SessionCodec) : result string (option (SessionPayload Value) * SessionCodec) :=
  value ← from_slice bytes;
  if decide (value_get "kind" value ≫= as_str ≠ Some SESSION_KIND) then Ok (None, c)
  else if (MAX_SESSION_FRAME_BYTES <? slen bytes)%N then Err "session frame exceeds the size limit"
  else
    envelope ← envelope_from_value value;
    if decide (en_from envelope = sc_sender c ∧ en_to envelope = sc_recipient c) then Ok (None, c)
    else
      value ← from_slice (en_body envelope);
      if decide (value_get "channel_id" value ≫= as_str ≠ Some (se_channel_id (sc_endpoint c))) then Ok (None, c)
      else
        frame ← frame_from_value value;
        if decide (en_from envelope ≠ sc_recipient c ∨ en_to envelope ≠ sc_sender c)
        then Err "session frame participants do not match the attachment"
        else if decide (sf_protocol frame ≠ SESSION_PROTOCOL)
        then Err ("unsupported session protocol: " +:+ sf_protocol frame)
        else if (sf_sequence frame =? 0)%N || (MAX_SAFE_INTEGER <? sf_sequence frame)%N
        then Err "session sequence starts at one"
        else if (sf_sequence frame <=? sc_received c)%N then Ok (None, c)
        else if decide (sf_sequence frame ≠ (sc_received c + 1)%N)
        then Err (sequence_gap (sc_received c + 1) (sf_sequence frame))
        else
          _ ← validate_payload (sf_payload frame);
          Ok (Some (sf_payload frame), mkCodec (sc_endpoint c) (sc_sender c) (sc_recipient c) (sc_sent c) (sf_sequence frame)).
End sessions.

(** ** Zone ids *)

(** The constants generated from contracts/zone-id/spec.json. *)
Record ZoneIdRules := mkZoneIdRules {
  ZONE_ID_MIN_LEN : N;
  ZONE_ID_MAX_LEN : N;
  ZONE_ID_CHARSET : list ascii;
  ZONE_ID_NO_LEADING : string;
  ZONE_ID_NO_TRAILING : string;
  ZONE_ID_RESERVED : list string }.

(** contracts/zone-id/spec.json *)
Definition CONTROL_ZONE_ID : string := "__control__".
Definition zone_id_spec : ZoneIdRules :=
  mkZoneIdRules 3 63 (String.list_ascii_of_string "abcdefghijklmnopqrstuvwxyz0123456789-") "-" "-" [ROOT_ZONE_ID; CONTROL_ZONE_ID].

Inductive ZoneIdError :=
  | ZoneIdLength (got : N)
  | ZoneIdCharacter (got : string) (at_ : N)
  | ZoneIdLeadingHyphen
  | ZoneIdTrailingHyphen
  | ZoneIdReserved.

Inductive ZoneIdUse := TenantCreate | SystemZone | ExistingRef | RemoteLearned.

#[global] Instance ZoneIdUse_eq_dec : EqDecision ZoneIdUse.
Proof. solve_decision. Defined.

(** [str::chars], each as its bytes: a byte that continues nothing starts one. *)
Fixpoint chars (s : string) : list string :=
  match s with
  | "" => []
  | String a s' =>
      match chars s' with
      | String b w :: ws => if utf8_cont b then String a (String b w) :: ws else String a "" :: String b w :: ws
      | ws => String a "" :: ws
      end
  end.

Fixpoint first_outside (charset : list ascii) (at_ : N) (l : list string) : option (string * N) :=
  match l with
  | [] => None
  | c :: l =>
      if bool_decide (c ∈ (λ a, String a "") <$> charset) then first_outside charset (N.succ at_) l else Some (c, at_)
  end.

Definition validate_zone_id_for (rules : ZoneIdRules) (use : ZoneIdUse) (id : string) : result ZoneIdError () :=
  let reserved := bool_decide (id ∈ ZONE_ID_RESERVED rules) in
  if bool_decide (use ≠ TenantCreate) && reserved then Ok ()
  else
    let len := N.of_nat (length (chars id)) in
    if negb ((ZONE_ID_MIN_LEN rules <=? len)%N && (len <=? ZONE_ID_MAX_LEN rules)%N) then Err (ZoneIdLength len)
    else if starts_with (ZONE_ID_NO_LEADING rules) id then Err ZoneIdLeadingHyphen
    else if ends_with (ZONE_ID_NO_TRAILING rules) id then Err ZoneIdTrailingHyphen
    else match first_outside (ZONE_ID_CHARSET rules) 0 (chars id) with
         | Some (got, at_) => Err (ZoneIdCharacter got at_)
         | None => if bool_decide (use = TenantCreate) && reserved then Err ZoneIdReserved else Ok ()
         end.

(** ** Agents of other domains *)

Class Base32 := { b32_encode : string → string; b32_decode : string → option string }.

Definition COLLABORATION_PREFIX : string := "/collaboration/v1/".
Definition MAX_SUBJECT_BYTES : N := 124.
Definition MAX_AGENT_SEGMENT : N := 255.
Definition MAX_PAIR_PATH : N := slen COLLABORATION_PREFIX + 32 + 7 + MAX_AGENT_SEGMENT * 3 + 1 + 9.

Fixpoint sforall (f : ascii → bool) (s : string) : bool :=
  match s with "" => true | String a s => f a && sforall f s end.

Definition validate_space_id (space : string) : result string () :=
  if bool_decide (slen space ≠ 32%N) || negb (sforall (λ b, byte_in 48 57 b || byte_in 97 102 b) space)
  then Err "Space ID must be exactly 32 lowercase hexadecimal characters"
  else Ok ().

(** [chars().any(char::is_control)]: the controls are U+0000 to U+001F and U+007F to
    U+009F, of which the last 32 have the first byte C2. *)
Fixpoint has_control (s : string) : bool :=
  match s with
  | "" => false
  | String a s' =>
      byte_in 0 31 a || byte_in 127 127 a ||
      match s' with String b _ => byte_in 194 194 a && byte_in 128 159 b | "" => false end || has_control s'
  end.

Record AgentAddress := mkAddress { aa_authority : string; aa_subject : string }.

#[global] Instance AgentAddress_eq_dec : EqDecision AgentAddress.
Proof. solve_decision. Defined.

Definition address_new (authority subject : string) : result string AgentAddress :=
  if bool_decide (subject = "") || (MAX_SUBJECT_BYTES <? slen subject)%N || has_control subject
  then Err "Agent subject must contain 1..124 UTF-8 bytes without controls"
  else Ok (mkAddress authority subject).

Record ConversationAddress := mkConversation { ca_space : string; ca_first : AgentAddress; ca_second : AgentAddress }.

Inductive ConversationPath :=
  | CTranscript (c : ConversationAddress)
  | CReader (c : ConversationAddress) (owner : AgentAddress).

Section domains.
Context `{!Base32}.

Definition segment (a : AgentAddress) : string := "a2." +:+ b32_encode (aa_authority a) +:+ "." +:+ b32_encode (aa_subject a).

Definition address_parse (seg : string) : result string AgentAddress :=
  if (MAX_AGENT_SEGMENT <? slen seg)%N then Err "Agent address exceeds the canonical segment bound"
  else match ssplit "." seg with
       | [version; authority; subject] =>
           if decide (version ≠ "a2") then Err "Unsupported or malformed Agent address"
           else match b32_decode authority with
                | None => Err "Invalid issuer fingerprint encoding"
                | Some authority =>
                    if decide (slen authority ≠ 32%N) then Err "Issuer fingerprint must be 32 bytes"
                    else match b32_decode subject with
                         | None => Err "Invalid subject encoding"
                         | Some subject =>
                             match from_utf8 subject with
                             | None => Err "Subject must be UTF-8"
                             | Some subject =>
                                 address ← address_new authority subject;
                                 if decide (segment address ≠ seg) then Err "Agent address is not canonical" else Ok address
                             end
                         end
                end
       | _ => Err "Unsupported or malformed Agent address"
       end.

Definition conversation_new (space : string) (a b : AgentAddress) : result string ConversationAddress :=
  _ ← validate_space_id space;
  if decide (segment a = segment b) then Err "A conversation requires two distinct participants"
  else if String.ltb (segment a) (segment b) then Ok (mkConversation space a b) else Ok (mkConversation space b a).

Definition conversation_contains (c : ConversationAddress) (a : AgentAddress) : bool :=
  bool_decide (a = ca_first c) || bool_decide (a = ca_second c).

Definition conversation_root (c : ConversationAddress) : string :=
  COLLABORATION_PREFIX +:+ ca_space c +:+ "/pairs/" +:+ segment (ca_first c) +:+ "/" +:+ segment (ca_second c).

Definition conversation_transcript (c : ConversationAddress) : string := conversation_root c +:+ "/transcript".

Definition conversation_reader (c : ConversationAddress) (owner : AgentAddress) : result string string :=
  if negb (conversation_contains c owner) then Err "Reader is not a participant in this conversation"
  else Ok (conversation_root c +:+ "/readers/" +:+ segment owner).

Definition not_canonical_order : string := "Conversation participants must be in canonical order".

Definition conversation_path_parse (path : string) : result string ConversationPath :=
  if (MAX_PAIR_PATH <? slen path)%N then Err "Conversation path exceeds the canonical bound"
  else match strip_prefix COLLABORATION_PREFIX path with
       | None => Err "Not a collaboration path"
       | Some relative =>
           '(space, first, second, reader) ←
             match ssplit "/" relative with
             | [space; pairs; first; second; leaf] =>
                 if decide (pairs = "pairs" ∧ leaf = "transcript") then Ok (space, first, second, None)
                 else Err "Not an exact conversation transcript or reader path"
             | [space; pairs; first; second; readers; owner] =>
                 if decide (pairs = "pairs" ∧ readers = "readers") then Ok (space, first, second, Some owner)
                 else Err "Not an exact conversation transcript or reader path"
             | _ => Err "Not an exact conversation transcript or reader path"
             end;
           first ← address_parse first;
           second ← address_parse second;
           conversation ← conversation_new space first second;
           match reader with
           | Some owner =>
               owner ← address_parse owner;
               p ← conversation_reader conversation owner;
               if decide (p ≠ path) then Err not_canonical_order else Ok (CReader conversation owner)
           | None =>
               if decide (conversation_transcript conversation ≠ path) then Err not_canonical_order
               else Ok (CTranscript conversation)
           end
       end.
End domains.

(** ** Shared spaces *)

Record SpaceWire := mkSpace {
  sw_version : N;
  sw_space : string;
  sw_host_authority : string;
  sw_replicated_zone : string;
  sw_members : list string;
  sw_not_before_unix_ms : N;
  sw_expires_unix_ms : N }.

#[global] Instance SpaceWire_eq_dec : EqDecision SpaceWire.
Proof. solve_decision. Defined.

Inductive CollaborationOperation :=
  | ReadTranscript | AppendTranscript | ReadOwnReader | WriteOwnReader | LockOwnReader | UnlockOwnReader.

Inductive PolicyError :=
  | PolicyInvalid (m : string)
  | NotYetValid | Expired | WrongHost | WrongZone | WrongSpace | NotMember | NotParticipant | WrongReader
  | WrongOperation | Revoked | PolicyNotFound | Conflict
  | PolicyUnknown (m : string)
  | PolicyUnavailable (m : string).

(** serde_json of the record, and the text of a zone id error. *)
Class SpaceCodec := {
  space_to_vec : SpaceWire → result string string;
  space_from_slice : string → result string SpaceWire;
  zone_id_text : ZoneIdError → string }.

(** [slice::binary_search]: is it there? *)
Fixpoint binary_search_go (fuel : nat) (l : list string) (x : string) (base size : nat) : bool :=
  match fuel with
  | O => false
  | Datatypes.S fuel =>
      if (size <=? 1)%nat then bool_decide (l !! base = Some x)
      else
        let half := (size / 2)%nat in
        let mid := (base + half)%nat in
        match l !! mid with
        | Some y => binary_search_go fuel l x (if String.ltb x y then base else mid) (size - half)
        | None => false
        end
  end.

Definition binary_search (l : list string) (x : string) : bool :=
  match l with [] => false | _ => binary_search_go (length l) l x 0 (length l) end.

(** [windows(2)] *)
Fixpoint unordered (l : list string) : bool :=
  match l with a :: ((b :: _) as l') => String.leb b a || unordered l' | _ => false end.

Section spaces.
Context `{!Base32, !SpaceCodec} (rules : ZoneIdRules).

Definition lift_invalid {A} (r : result string A) : result PolicyError A :=
  match r with Ok a => Ok a | Err e => Err (PolicyInvalid e) end.

Fixpoint members_parse (l : list string) : result string () :=
  match l with [] => Ok () | m :: l => _ ← address_parse m; members_parse l end.

Definition policy_validate (w : SpaceWire) : result PolicyError () :=
  _ ← lift_invalid (validate_space_id (sw_space w));
  _ ← match validate_zone_id_for rules TenantCreate (sw_replicated_zone w) with
      | Ok _ => Ok () | Err e => Err (PolicyInvalid (zone_id_text e)) end;
  if bool_decide (sw_version w ≠ 1%N) || (sw_expires_unix_ms w <=? sw_not_before_unix_ms w)%N ||
     negb ((2 <=? length (sw_members w))%nat && (length (sw_members w) <=? 64)%nat) || unordered (sw_members w)
  then Err (PolicyInvalid "invalid version, interval or canonical unique member set")
  else lift_invalid (members_parse (sw_members w)).

Definition policy_new (space host_authority replicated_zone : string) (members : list AgentAddress) (not_before expires : N) :
    result PolicyError SpaceWire :=
  let policy := mkSpace 1 space host_authority replicated_zone (sort_strings (segment <$> members)) not_before expires in
  _ ← policy_validate policy; Ok policy.

Definition policy_encode (w : SpaceWire) : result PolicyError string :=
  _ ← policy_validate w; lift_invalid (space_to_vec w).

Definition policy_decode (bytes : string) : result PolicyError SpaceWire :=
  if (32 * 1024 <? slen bytes)%N then Err (PolicyInvalid "space record exceeds 32 KiB")
  else
    policy ← lift_invalid (space_from_slice bytes);
    _ ← policy_validate policy;
    Ok policy.

Definition path_conversation (p : ConversationPath) : ConversationAddress :=
  match p with CTranscript c | CReader c _ => c end.

Definition authorize (w : SpaceWire) (actor : AgentAddress) (path : string) (operation : CollaborationOperation)
    (serving_authority routed_zone : string) (now_unix_ms : N) : result PolicyError ConversationPath :=
  if decide (serving_authority ≠ sw_host_authority w) then Err WrongHost
  else if decide (routed_zone ≠ sw_replicated_zone w) then Err WrongZone
  else if (now_unix_ms <? sw_not_before_unix_ms w)%N then Err NotYetValid
  else if (sw_expires_unix_ms w <=? now_unix_ms)%N then Err Expired
  else
    parsed ← lift_invalid (conversation_path_parse path);
    let c := path_conversation parsed in
    if decide (ca_space c ≠ sw_space w) then Err WrongSpace
    else if negb (forallb (λ a, binary_search (sw_members w) (segment a)) [actor; ca_first c; ca_second c]) then Err NotMember
    else if negb (conversation_contains c actor) then Err NotParticipant
    else match parsed, operation with
         | CTranscript _, (ReadTranscript | AppendTranscript) => Ok parsed
         | CReader _ owner, (ReadOwnReader | WriteOwnReader | LockOwnReader | UnlockOwnReader) =>
             if decide (owner ≠ actor) then Err WrongReader else Ok parsed
         | _, _ => Err WrongOperation
         end.

Definition validated_space_key (space : string) : result PolicyError string :=
  _ ← lift_invalid (validate_space_id space); Ok ("space:" +:+ space).
End spaces.

(** ** The replicated store of the policies *)

(** What becomes of a proposal: it is applied and answered, it never commits, or it
    commits and the answer or the read barrier after it is lost. *)
Inductive Reply := Answered | Dropped (e : string) | Lost (e : string).

Definition CONTROL_NS_COLLABORATION : string := "collaboration".
Definition REVOKED : string := "collaboration-space-revoked-v1".
Definition revoked_key (space : string) : string := "revoked:" +:+ space.

Section policy_store.
Context `{Codec : MetadataCodec}.
Context `{!Base32, !SpaceCodec} (rules : ZoneIdRules).

(** [ControlStateStore::put_if_absent] *)
Definition put_if_absent (reply : Reply) (key value : string) (s : RaftStore) : result string bool * RaftStore :=
  match reply with
  | Dropped e => (Err e, s)
  | Answered | Lost _ =>
      match apply (rs_next s) (PutControlState CONTROL_NS_COLLABORATION key value true) (rs_node s) with
      | Applied res sm _ =>
          (match reply with
           | Lost e => Err e
           | _ => Ok (match res with Error _ => false | _ => true end)
           end, mkRaftStore sm (rs_next s + 1)%N)
      | Panicked _ | Hung => (Err "apply barrier timed out", s)
      end
  end.

(** [ControlStateStore::get_many_linearizable]: the records at one point of the log. *)
Definition get_many_linearizable (fault : option string) (keys : list string) (s : RaftStore) : result string (list (option string)) :=
  match fault with
  | Some e => Err e
  | None => Ok (get_control_state (rs_node s) CONTROL_NS_COLLABORATION <$> keys)
  end.

(** [RaftSpacePolicyStore::current] *)
Definition policy_current (fault : option string) (space : string) (s : RaftStore) : result PolicyError SpaceWire :=
  key ← validated_space_key space;
  match get_many_linearizable fault [key; revoked_key space] s with
  | Err e => Err (PolicyUnavailable e)
  | Ok [_; Some value] =>
      if decide (value = REVOKED) then Err Revoked else Err (PolicyUnavailable "invalid revocation record")
  | Ok [Some record; None] =>
      policy ← policy_decode rules record;
      if decide (sw_space policy ≠ space) then Err (PolicyUnavailable "space key/record mismatch") else Ok policy
  | Ok [None; None] => Err PolicyNotFound
  | Ok _ => Err (PolicyUnavailable "incomplete control snapshot")
  end.

Definition lift_unknown {A} (r : result string A) : result PolicyError () :=
  match r with Ok _ => Ok () | Err e => Err (PolicyUnknown e) end.

(** [RaftSpacePolicyStore::create], up to its proposal, and from there on. *)
Definition create_begin (reply : Reply) (w : SpaceWire) (s : RaftStore) : result PolicyError () * RaftStore :=
  match (key ← validated_space_key (sw_space w); bytes ← policy_encode rules w; Ok (key, bytes)) with
  | Err e => (Err e, s)
  | Ok (key, bytes) => let '(r, s) := put_if_absent reply key bytes s in (lift_unknown r, s)
  end.

Definition create_end (fault : option string) (w : SpaceWire) (s : RaftStore) : result PolicyError () :=
  winner ← policy_current fault (sw_space w) s;
  if decide (winner ≠ w) then Err Conflict else Ok ().

(** [RaftSpacePolicyStore::revoke], likewise. *)
Definition revoke_begin (reply : Reply) (space : string) (s : RaftStore) : result PolicyError () * RaftStore :=
  match validated_space_key space with
  | Err e => (Err e, s)
  | Ok _ => let '(r, s) := put_if_absent reply (revoked_key space) REVOKED s in (lift_unknown r, s)
  end.

Definition revoke_end (fault : option string) (space : string) (s : RaftStore) : result PolicyError () :=
  match policy_current fault space s with
  | Err Revoked => Ok ()
  | _ => Err (PolicyUnknown "revocation was not confirmed")
  end.
End policy_store.
