(* ===== verification/A2aProofs.v ===== *)
(** * Properties of the messaging layer

    With the stamping hook and the cluster's permission provider in the kernel, a write
    that reaches a conversation names its real sender, and an agent of another
    organisation reads and writes nothing but what its confinement leaves it, also
    through links.  A session delivers its messages once and in order.  A space admits
    its members to their own conversations only. *)

From S2P Require Import Prelude Bytes Codec Table LockState Command Rename Records StateMachine RebacStore RebacEnforce IoLocks IoLockProofs Router Pipe PipeManager StreamBuf StreamManager MetaStore LocalStore KernelTypes Dispatch Kernel KernelFiles KernelNames KernelList KernelLockProofs KernelReleases KernelWorld KernelProofs HostFs A2a.

(** ** The hook *)

(** serde_json: an object is printed, and parsed with the strings it had; the empty
    text is no JSON. *)
Class JsonLaws `{!Json} := {
  jl_str s : as_str (of_str s) = Some s;
  jl_reparse m : ∃ bytes v m', to_vec (of_object m) = Ok bytes ∧ from_slice bytes = Ok v ∧ as_object v = Some m' ∧
    ∀ k s, m !! k ≫= as_str = Some s → m' !! k ≫= as_str = Some s;
  jl_empty : ∃ e, from_slice "" = Err e }.

(** Who reads a message as an object finds [sender] in it. *)
Definition attributed `{!Json} (sender bytes : string) : Prop :=
  ∀ v m, from_slice bytes = Ok v → as_object v = Some m → m !! "from" ≫= as_str = Some sender.

(** Who is behind a request: the agent, or the user when there is no agent. *)
Definition principal (ctx : OperationContext) : string :=
  let agent := default "" (oc_agent_id ctx) in if decide (agent = "") then oc_user_id ctx else agent.

Section stamping.
Context `{JL : JsonLaws}.

Lemma empty_attributed s : attributed s "".
Proof. intros v m Hv. destruct jl_empty as [e He]. congruence. Qed.

Lemma stamp_attributed path caller content :
  is_conversation_transcript_path path = true → caller ≠ "" →
  attributed caller (default content (maybe_stamp_chat_envelope path (Some caller) content)).
Proof.
  intros Hp Hc. unfold maybe_stamp_chat_envelope. rewrite Hp. cbn. rewrite decide_False by done.
  destruct (from_slice content) as [value|e] eqn:Hv; [|intros v m Hv'; cbn in Hv'; congruence].
  destruct (as_object value) as [obj|] eqn:Ho; [|intros v m Hv' Ho'; cbn in Hv'; congruence]. cbn.
  case_bool_decide as Hf; [intros v m Hv' Ho'; cbn in Hv'; congruence|].
  destruct (jl_reparse (<["from" := of_str caller]> obj)) as (bytes & v' & m' & Hb & Hv' & Hm' & Hkeep). rewrite Hb.
  cbn. intros v m Hv2 Hm2. rewrite Hv' in Hv2. injection Hv2 as <-. rewrite Hm' in Hm2. injection Hm2 as <-.
  apply Hkeep. rewrite lookup_insert_eq. apply jl_str.
Qed.

(** The outcome of a hook on some content. *)
Definition outcome_content (content : string) (o : HookOutcome) : string :=
  match o with HookPass => content | HookReplace b => b end.

Lemma on_pre_attributed c o :
  is_conversation_transcript_path (wh_path c) = true → starts_with "/__sys__/" (wh_path c) = false →
  stamping_on_pre true (HookWrite c) = Ok o →
  attributed (if decide (hi_agent_id (wh_identity c) = "") then hi_user_id (wh_identity c) else hi_agent_id (wh_identity c))
    (outcome_content (wh_content c) o).
Proof.
  intros Hp Hsys. unfold stamping_on_pre. cbn [hook_path]. rewrite Hsys.
  destruct (decide (wh_content c = "")) as [Hc|Hc]; [intros [= <-]; cbn; rewrite Hc; apply empty_attributed|].
  rewrite Hp, andb_true_r. cbn [andb]. case_bool_decide as Hn; [done|].
  destruct (stamp_caller (wh_identity c) (wh_content c)) as [s|] eqn:Hs; [|done].
  assert (s ≠ "" ∧ s = if decide (hi_agent_id (wh_identity c) = "") then hi_user_id (wh_identity c) else hi_agent_id (wh_identity c)) as [Hne ->].
  { revert Hs. unfold stamp_caller. destruct (decide (hi_agent_id (wh_identity c) = "")) as [Ha|Ha].
    - rewrite bool_decide_eq_true_2 by done. destruct (_ && bool_decide (hi_user_id _ ≠ "")) eqn:Hb; [|done].
      intros [= <-]. apply andb_true_iff in Hb as [_ Hb%bool_decide_eq_true]. done.
    - rewrite bool_decide_eq_false_2 by done. by intros [= <-]. }
  pose proof (stamp_attributed (wh_path c) _ (wh_content c) Hp Hne) as Hst.
  destruct (maybe_stamp_chat_envelope _ _ _) as [b|]; intros [= <-]; exact Hst.
Qed.

(** The hook stands last in the registry, behind whatever is registered before it. *)
Lemma pre_loop_app l l' ctx rep :
  dispatch_pre_loop (l ++ l') ctx rep = (x ← dispatch_pre_loop l ctx rep; dispatch_pre_loop l' ctx x).
Proof.
  revert rep. induction l as [|h l IH]; intros rep; [done|]. cbn [dispatch_pre_loop app].
  destruct (hk_on_pre h (chained rep ctx)) as [o|]; cbn; [apply IH|done].
Qed.

Lemma registry_attributed hs c rep :
  is_conversation_transcript_path (wh_path c) = true → starts_with "/__sys__/" (wh_path c) = false →
  dispatch_pre (hooks_register (stamping_hook true) hs) (HookWrite c) = Ok rep →
  attributed (if decide (hi_agent_id (wh_identity c) = "") then hi_user_id (wh_identity c) else hi_agent_id (wh_identity c))
    (default (wh_content c) rep).
Proof.
  intros Hp Hsys. unfold dispatch_pre. cbn [hr_hooks hooks_register]. rewrite pre_loop_app.
  destruct (dispatch_pre_loop (hr_hooks hs) (HookWrite c) None) as [x|]; [|done]. cbn.
  set (c' := match x with Some b => with_content c b | None => c end).
  assert (chained x (HookWrite c) = HookWrite c') as -> by (subst c'; by destruct x).
  assert (default (wh_content c) x = wh_content c') as Hx by (subst c'; by destruct x).
  assert (wh_path c' = wh_path c ∧ wh_identity c' = wh_identity c) as [Ep Ei] by (subst c'; by destruct x).
  destruct (stamping_on_pre true (HookWrite c')) as [o|] eqn:Ho; [|done]. cbn. intros [= <-].
  apply on_pre_attributed in Ho; [|by rewrite Ep..]. rewrite Ei in Ho.
  destruct o; cbn in *; [by rewrite Hx|done].
Qed.
End stamping.

(** ** Writes and reads of a kernel with the hook and the gate *)

(** What the confinement leaves an agent of another organisation. *)
Definition in_scope (path : string) (permission : Permission) : bool :=
  is_conversation_transcript_path path ||
  (is_conversation_reader_path path && bool_decide (permission = PermRead)) || is_conversation_index_path path.

Definition foreign (ctx : OperationContext) : Prop := is_Some (oc_trust_domain ctx) ∧ oc_is_system ctx = false.

Lemma foreign_check_scope dbg path r p ctx : foreign ctx → foreign_check dbg path r p ctx = Ok () → in_scope path p = true.
Proof.
  intros [[d Hd] Hs]. unfold foreign_check, in_scope. rewrite Hd. case_match; [done|].
  destruct (is_conversation_transcript_path path); [done|]. destruct (is_conversation_reader_path path && _); [done|].
  by destruct (is_conversation_index_path path).
Qed.

Lemma cluster_check_scope dbg router rel path r p ctx :
  foreign ctx → cluster_check dbg router rel path r p ctx = Ok () → in_scope path p = true.
Proof.
  intros Hf. unfold cluster_check. destruct (foreign_check dbg path r p ctx) as [[]|] eqn:E; [|done]. intros _. by eapply foreign_check_scope.
Qed.

(** Hooks that accept or refuse. *)
Definition only_judge (hs : NativeHookRegistry) : Prop := ∀ h c b, h ∈ hr_hooks hs → hk_on_pre h c ≠ Ok (HookReplace b).

Lemma judges_pass l ctx rep x :
  (∀ h c b, h ∈ l → hk_on_pre h c ≠ Ok (HookReplace b)) → dispatch_pre_loop l ctx rep = Ok x → x = rep.
Proof.
  revert rep. induction l as [|h l IH]; intros rep Hl; [by intros [= <-]|]. cbn [dispatch_pre_loop].
  destruct (hk_on_pre h (chained rep ctx)) as [[|b]|] eqn:Eh; cbn; [|by destruct (Hl h (chained rep ctx) b); [left|]|done].
  apply IH. intros h' c b Hh. apply Hl. by right.
Qed.

Lemma registry_passes `{!Json} hs c rep :
  only_judge hs → is_conversation_transcript_path (wh_path c) = false →
  dispatch_pre (hooks_register (stamping_hook true) hs) (HookWrite c) = Ok rep → rep = None.
Proof.
  intros Hj Hp. unfold dispatch_pre. cbn [hr_hooks hooks_register]. rewrite pre_loop_app.
  destruct (dispatch_pre_loop (hr_hooks hs) (HookWrite c) None) as [x|] eqn:Hx; [|done]. cbn. apply judges_pass in Hx; [|done]. subst x.
  cbn [chained]. unfold stamping_on_pre. cbn [hook_path]. destruct (starts_with _ _); [by intros [= <-]|].
  destruct (decide (wh_content c = "")); [by intros [= <-]|]. rewrite Hp, andb_false_r. unfold maybe_stamp_chat_envelope. rewrite Hp.
  by intros [= <-].
Qed.

Lemma registry_passes_system `{!Json} hs c rep :
  only_judge hs → starts_with "/__sys__/" (wh_path c) = true →
  dispatch_pre (hooks_register (stamping_hook true) hs) (HookWrite c) = Ok rep → rep = None.
Proof.
  intros Hj Hp. unfold dispatch_pre. cbn [hr_hooks hooks_register]. rewrite pre_loop_app.
  destruct (dispatch_pre_loop (hr_hooks hs) (HookWrite c) None) as [x|] eqn:Hx; [|done]. cbn. apply judges_pass in Hx; [|done]. subst x.
  cbn [chained]. unfold stamping_on_pre. cbn [hook_path]. rewrite Hp. by intros [= <-].
Qed.

Section kernel.
Context {W : Type} `{!ObjectStores W}.
Context {S : Type} `{!KernelStore S}.
Context {L : Type} `{!Locks L}.
Context {E : Type} `{!PipeBackend E}.
Context {B : Type} `{!StreamBackend B}.
Context {TX : Texts}.
Context `{JL : JsonLaws}.

Abbreviation K := (@K W S L E B).
Abbreviation Kernel := (Kernel W S L E B).
Implicit Types (k : Kernel).

(** The cluster's kernel: the hook, failing closed, behind other hooks that accept or
    refuse, and the cluster's provider. *)
Record cluster_kernel k : Prop := {
  ck_hooks : ∃ hs, kc_hooks (k_config k) = hooks_register (stamping_hook true) hs ∧ only_judge hs;
  ck_provider : ∃ dbg router rel, kc_provider (k_config k) = Some (cluster_check dbg router rel) }.

Lemma cluster_kept k k' : k_config k' = k_config k → cluster_kernel k → cluster_kernel k'.
Proof. intros E1 [H1 H2]. split; by rewrite E1. Qed.

Lemma bind_ok {A C} (m : K A) (f : A → K C) k c k' :
  (m ≫= f) k = Some (Ok c, k') → ∃ a k1, m k = Some (Ok a, k1) ∧ f a k1 = Some (Ok c, k').
Proof. unfold mbind, K_bind. destruct (m k) as [[[a|e] k1]|]; [by eauto|done..]. Qed.

Lemma lockless_keeps_config {A} (m : K A) k x k' : lockless m → m k = Some (x, k') → k_config k' = k_config k.
Proof. intros Hm E1. by apply Hm in E1 as (_ & ? & _). Qed.

(** Paths of the kernel itself are exempt from the gate. *)
Definition system_path (path : string) : bool := starts_with "/__sys__/" path.

Definition allowed (ctx : OperationContext) (path : string) (p : Permission) : Prop :=
  foreign ctx → system_path path = true ∨ in_scope path p = true.

Lemma check_allowed path r p ctx k x k' :
  cluster_kernel k → check_permission_with_route path r p ctx k = Some (Ok x, k') → k' = k ∧ allowed ctx path p.
Proof.
  intros [_ (dbg & router & rel & Hp)]. unfold check_permission_with_route, allowed, system_path. rewrite Hp.
  destruct (starts_with "/__sys__/" path); [intros [= <- <-]; by split; [|left]|].
  destruct (oc_is_system ctx) eqn:Hs; [intros [= <- <-]; split; [done|]; intros [_ ?]; congruence|].
  intros [= Hc <-]. split; [done|]. intros Hf. right. destruct x. by eapply cluster_check_scope.
Qed.

(** The bytes a write hands on, once the hooks have seen it. *)
Definition signed (ctx : OperationContext) (path bytes : string) : Prop :=
  is_conversation_transcript_path path = true → system_path path = false → attributed (principal ctx) bytes.

Lemma hooks_signed path r ctx content k rep k' :
  cluster_kernel k → apply_mutating_write_hooks_with_route path r ctx content k = Some (Ok rep, k') →
  k' = k ∧ allowed ctx path PermWrite ∧ signed ctx path (default content rep) ∧
  (is_conversation_transcript_path path = false → rep = None) ∧ (system_path path = true → rep = None).
Proof.
  intros Hk Hw. unfold apply_mutating_write_hooks_with_route in Hw. apply bind_ok in Hw as ([] & k1 & Hc & Hw).
  apply check_allowed in Hc as [-> Ha]; [|done]. destruct (ck_hooks _ Hk) as (hs & Hhs & Hj).
  unfold mbind, K_bind, config, reads in Hw. unfold dispatch_native_pre_with_replacement, mbind, K_bind, config, reads in Hw.
  rewrite Hhs in Hw. assert (hooks_count (hooks_register (stamping_hook true) hs) ≠ 0) as Hn.
  { unfold hooks_count, hooks_register. cbn [hr_hooks]. rewrite length_app. cbn. lia. }
  rewrite (proj2 (Nat.eqb_neq _ 0)) in Hw by done.
  destruct (dispatch_pre _ _) as [rep'|e] eqn:Hd in Hw; [|done]. injection Hw as <- <-. split_and!; [done..| | |].
  - intros Hp Hsys. assert (has_mutating_match (hooks_register (stamping_hook true) hs) path = true) as Hm.
    { unfold has_mutating_match. cbn [hr_mutating_suffixes hooks_register]. rewrite existsb_app. apply orb_true_iff. right.
      cbn. unfold is_conversation_transcript_path in Hp. apply andb_true_iff in Hp as [-> _]. done. }
    rewrite Hm in Hd. by apply registry_attributed in Hd.
  - intros Hp. by apply registry_passes in Hd.
  - intros Hsys. by apply registry_passes_system in Hd.
Qed.

(** The end of a write: where the bytes go. *)
Definition stream_append (now : Z) (path : string) (ctx : OperationContext) (r : Route) (content : string) : K SysWriteResult :=
  let address := address_of_route path (oc_zone_id ctx) (Some r) in
  x ← streams (sm_write_nowait now (address_key address) content);
  match x with
  | Ok offset => _ ← ipc_post path ctx content offset; ipc_write_result offset
  | Err (StreamBackendError (StreamClosed m)) => throw (EStreamClosed m)
  | Err (StreamBackendError (StreamNotReplicated why)) =>
      throw (EIOError ("DT_STREAM append at " +:+ path +:+ " did not commit: " +:+ why))
  | Err (StreamBackendError (StreamFull _ _)) => mret write_miss
  | Err e => throw (EIOError ("DT_STREAM append at " +:+ path +:+ " failed: " +:+ stream_mgr_debug e))
  end.

(** [bytes] went to a file or a pipe at [path], or were appended to the stream that
    [path] routes to, by a caller allowed to, with the name of the caller. *)
Inductive landed (now : Z) (ctx : OperationContext) (offset : N) (path bytes : string) k (res : SysWriteResult) k' : Prop :=
  | landed_pipe : pipe_write path ctx bytes k = Some (Ok res, k') → landed now ctx offset path bytes k res k'
  | landed_stream r : let stream := sa_stream_path (address_of_route path (oc_zone_id ctx) (Some r)) in
      allowed ctx stream PermWrite → signed ctx stream bytes →
      stream_append now path ctx r bytes k = Some (Ok res, k') → landed now ctx offset path bytes k res k'
  | landed_file r : write_locked now path ctx bytes offset r k = Some (Ok res, k') → landed now ctx offset path bytes k res k'.

Lemma stream_landed now ctx offset path bytes r k res k' :
  cluster_kernel k → allowed ctx path PermWrite → signed ctx path bytes → stream_write now path ctx r bytes k = Some (Ok res, k') →
  ∃ bytes', signed ctx path bytes' ∧ landed now ctx offset path bytes' k res k'.
Proof.
  intros Hk Ha Hs Hw. unfold stream_write in Hw. set (address := address_of_route path (oc_zone_id ctx) (Some r)) in *.
  apply bind_ok in Hw as (rep & k1 & Hrep & Hw). exists (default bytes rep).
  destruct (decide (sa_stream_path address ≠ path ∨ sa_zone address ≠ oc_zone_id ctx)) as [Hd|Hd].
  - apply hooks_signed in Hrep as (-> & Ha' & Hs' & Hnone & Hsys); [|done]. split.
    + destruct (is_conversation_transcript_path (sa_stream_path address)) eqn:Ht; [|by rewrite Hnone].
      destruct (system_path (sa_stream_path address)) eqn:Hsp; [by rewrite Hsys|]. intros _ _. by apply Hs'.
    + by eapply (landed_stream now ctx offset path _ k res k' r).
  - injection Hrep as <- <-. assert (sa_stream_path address = path) as Hpath.
    { destruct (decide (sa_stream_path address = path)) as [->|]; [done|]. destruct Hd. by left. }
    split; [done|]. eapply (landed_stream now ctx offset path _ k res k' r); fold address; by rewrite ?Hpath.
Qed.

(** One hop of a write, with the rest of the way as an argument. *)
Definition write_hop (follow : string → string → K SysWriteResult) (now : Z) (path : string) (ctx : OperationContext)
    (content : string) (offset : N) : K SysWriteResult :=
  _ ← validate path;
  virtual ← trie_resolved path;
  if (virtual : bool) then mret write_miss
  else
    replacement ← apply_mutating_write_hooks path ctx content;
    let content := default content replacement in
    link ← directory_link_target path (oc_zone_id ctx);
    match link with
    | Some target => follow content target
    | None =>
        r ← route_path path (oc_zone_id ctx);
        match r with
        | None => mret write_miss
        | Some r =>
            row ← get_row r path;
            target ← of_result (match row with Some e => dt_link_target path e | None => Ok None end);
            match target with
            | Some target => follow content target
            | None =>
                let entry_type := md_entry_type <$> row in
                if decide (entry_type = Some DT_PIPE) then pipe_write path ctx content
                else if decide (entry_type = Some DT_STREAM) then stream_write now path ctx r content
                else write_locked now path ctx content offset r
            end
        end
    end.

Lemma write_hops hops now path ctx content offset :
  sys_write_with_link_depth hops now path ctx content offset =
  write_hop (λ content target, match hops with
                               | O => throw (elooped path)
                               | Datatypes.S hops => sys_write_with_link_depth hops now target ctx content offset
                               end) now path ctx content offset.
Proof. by destruct hops. Qed.

Lemma validate_same p k x k' : (validate p : K ()) k = Some (x, k') → k' = k.
Proof. unfold validate. destruct (Kernel.validate_path_fast p); by intros [= _ <-]. Qed.

Lemma of_result_same {A} (r : result KernelError A) k x k' : (of_result r : K A) k = Some (Ok x, k') → r = Ok x ∧ k' = k.
Proof. destruct r; cbn; [intros [= -> ->]|]; done. Qed.

(** A hop that succeeds follows a link with signed bytes, or ends here. *)
Lemma write_hop_cases follow now path ctx content offset k res k' :
  cluster_kernel k → write_hop follow now path ctx content offset k = Some (Ok res, k') → ww_hit res = true →
  ∃ bytes k1, k_config k1 = k_config k ∧
    ((∃ target, follow bytes target k1 = Some (Ok res, k')) ∨
     (allowed ctx path PermWrite ∧ signed ctx path bytes ∧ landed now ctx offset path bytes k1 res k')).
Proof.
  intros Hk Hw Hhit. unfold write_hop in Hw. apply bind_ok in Hw as ([] & k1 & ->%validate_same & Hw).
  apply bind_ok in Hw as (virtual & k1 & [= <- <-] & Hw). case_bool_decide; [by injection Hw as <- <-|].
  apply bind_ok in Hw as (rep & k1 & (-> & Ha & Hs & _)%hooks_signed & Hw); [|done].
  apply bind_ok in Hw as (link & k1 & Hl & Hw). pose proof (lockless_keeps_config _ _ _ _ (lockless_directory_link _ _) Hl) as E1.
  destruct link as [target|]; [exists (default content rep), k1; eauto|].
  apply bind_ok in Hw as (r & k2 & [= <- <-] & Hw). destruct (route _ path _) as [r|]; [|by injection Hw as <- <-].
  apply bind_ok in Hw as (row & k2 & Hr & Hw). pose proof (lockless_keeps_config _ _ _ _ (lockless_get_row _ _) Hr) as E2.
  assert (k_config k2 = k_config k) as E3 by congruence.
  apply bind_ok in Hw as (target & k3 & [_ ->]%of_result_same & Hw). destruct target as [target|]; [exists (default content rep), k2; eauto|].
  destruct (decide _) as [_|_]; [exists (default content rep), k2; split; [done|]; right; split_and!; [done..|by apply landed_pipe]|].
  destruct (decide _) as [_|_].
  - eapply (stream_landed now ctx offset) in Hw as (bytes & Hs' & Hl'); [|by eapply cluster_kept|done..]. exists bytes, k2. eauto.
  - exists (default content rep), k2. split; [done|]. right. split_and!; [done..|by eapply landed_file].
Qed.

Lemma write_lands hops now path ctx content offset k res k' :
  cluster_kernel k → sys_write_with_link_depth hops now path ctx content offset k = Some (Ok res, k') → ww_hit res = true →
  ∃ q bytes k1, allowed ctx q PermWrite ∧ signed ctx q bytes ∧ landed now ctx offset q bytes k1 res k'.
Proof.
  revert path content k. induction hops as [|hops IH]; intros path content k Hk Hw Hhit; rewrite write_hops in Hw;
    apply write_hop_cases in Hw as (bytes & k1 & E1 & [[target Hw]|Hw]); try done; [by eauto 10| |by eauto 10].
  eapply IH; [by eapply cluster_kept|done..].
Qed.

Lemma read_after_cases follow now path ctx t o k res k' :
  sys_read_after_auth (Some follow) now path ctx t o k = Some (Ok res, k') →
  (∃ target k1, k_config k1 = k_config k ∧ follow target k1 = Some (Ok res, k')) ∨
  sys_read_after_auth None now path ctx t o k = Some (Ok res, k').
Proof.
  intros Hr. unfold sys_read_after_auth in *. apply bind_ok in Hr as (link & k1 & Hl & Hr).
  pose proof (lockless_keeps_config _ _ _ _ (lockless_directory_link _ _) Hl) as E1.
  unfold mbind at 1, K_bind at 1. rewrite Hl. destruct link as [target|]; [left; eauto|].
  apply bind_ok in Hr as (r & k2 & [= <- <-] & Hr). unfold mbind at 1, K_bind at 1. cbn [route_path reads].
  destruct (route _ path _) as [r|]; [|by right]. apply bind_ok in Hr as (row & k2 & Hrow & Hr).
  pose proof (lockless_keeps_config _ _ _ _ (lockless_get_row _ _) Hrow) as E2. unfold mbind at 1, K_bind at 1. rewrite Hrow.
  destruct row as [entry|]; [|by right]. apply bind_ok in Hr as (target & k3 & Ht & Hr).
  unfold mbind at 1, K_bind at 1. rewrite Ht. apply of_result_same in Ht as [_ ->].
  destruct target as [target|]; [left; exists target, k2; split; [congruence|done]|by right].
Qed.

(** A read that succeeds ends at a path the caller may read, and reads it without
    following a link. *)
Lemma read_lands hops now path ctx t o k res k' :
  cluster_kernel k → sys_read_single hops now path ctx t o k = Some (Ok res, k') →
  ∃ q k1, allowed ctx q PermRead ∧ sys_read_after_auth None now q ctx t o k1 = Some (Ok res, k').
Proof.
  revert path k. induction hops as [|hops IH]; intros path k Hk Hr; cbn [sys_read_single] in Hr;
    apply bind_ok in Hr as ([] & k1 & ->%validate_same & Hr); apply bind_ok in Hr as (virtual & k1 & [= <- <-] & Hr);
    (case_bool_decide; [done|]); apply bind_ok in Hr as ([] & k1 & Hh & Hr);
    pose proof (lockless_keeps_config _ _ _ _ (lockless_read_hooks _ _) Hh) as E1;
    apply bind_ok in Hh as ([] & k2 & [-> Ha]%check_allowed & _); try done; [by exists path, k1|].
  apply read_after_cases in Hr as [(target & k2 & E2 & Hr)|Hr]; [|by exists path, k1].
  eapply IH; [|done]. apply (cluster_kept k); [congruence|done].
Qed.


(** C8: an agent of another organisation is confined.  On a kernel with the cluster's
    provider, a call of such an agent that names a path out of its scope (transcripts
    and chat lists, and reader registers for reading) for a permission it needs there
    changes nothing; what a read returns was read at a path in the scope, and what a
    write stored was stored at one, whatever links led there.  Paths of the kernel
    itself are exempt. *)
Theorem foreign_agents_confined ctx k :
  cluster_kernel k → foreign ctx →
  (∀ x p perm, (p, perm) ∈ call_checks x → system_path p = false → in_scope p perm = false →
     ∃ r, run_call x ctx k = Some (r, k) ∧ (is_ok r = true → ∃ p, (p, PermWrite) ∈ call_checks x ∧ is_virtual k p)) ∧
  (∀ now p t o res k', sys_read_single 1 now p ctx t o k = Some (Ok res, k') →
     ∃ q k1, (system_path q = true ∨ in_scope q PermRead = true) ∧ sys_read_after_auth None now q ctx t o k1 = Some (Ok res, k')) ∧
  (∀ now req res k', sys_write_one now req ctx k = Some (Ok res, k') → ww_hit res = true →
     ∃ q bytes k1, (system_path q = true ∨ in_scope q PermWrite = true) ∧ landed now ctx (wq_offset req) q bytes k1 res k').
Proof.
  intros Hk Hf. split_and!.
  - intros x p perm Hin Hsys Hscope. apply denied_unchanged, Exists_exists. exists (p, perm). split; [done|].
    destruct (ck_provider _ Hk) as (dbg & router & rel & Hp). split_and!; [done|apply Hf|].
    destruct (cluster_check dbg router rel p (route (k_router k) p (oc_zone_id ctx)) perm ctx) as [[]|e] eqn:Hc; [|by eauto].
    apply cluster_check_scope in Hc; [cbn in *; congruence|done].
  - intros now p t o res k' Hr. apply read_lands in Hr as (q & k1 & Ha & Hr); [|done]. exists q, k1. split; [by apply Ha|done].
  - intros now req res k' Hw Hhit. destruct (write_lands _ _ _ _ _ _ _ _ _ Hk Hw Hhit) as (q & bytes & k1 & Ha & _ & Hl).
    exists q, bytes, k1. split; [by apply Ha|done].
Qed.
End kernel.

(** ** Sessions *)

(** A JSON value that survives being printed. *)
Definition reparses `{!Json} (v : Value) : Prop := ∃ s, to_vec v = Ok s ∧ from_slice s = Ok v.

Definition plain_payload `{!Json} (p : SessionPayload Value) : Prop :=
  match p with Rpc message => reparses message | Closed _ => True end.

(** The derived codecs of the session's structures. *)
Class SessionLaws `{!Json} := {
  sl_envelope env bytes : envelope_to_vec env = Ok bytes →
    ∃ v, from_slice bytes = Ok v ∧ value_get "kind" v ≫= as_str = Some (en_kind env) ∧ envelope_from_value v = Ok env;
  sl_from v m env : as_object v = Some m → envelope_from_value v = Ok env → en_from env = default "" (m !! "from" ≫= as_str);
  sl_frame f body : frame_to_string f = Ok body → plain_payload (sf_payload f) →
    ∃ v, from_slice body = Ok v ∧ value_get "channel_id" v ≫= as_str = Some (sf_channel_id f) ∧ frame_from_value v = Ok f;
  sl_channel f body : frame_to_string f = Ok body →
    ∃ v, from_slice body = Ok v ∧ value_get "channel_id" v ≫= as_str = Some (sf_channel_id f) }.

Section sessions.
Context `{SL : SessionLaws}.
Implicit Types (p : SessionPayload Value) (c : SessionCodec).

Definition set_received (n : N) (c : SessionCodec) : SessionCodec :=
  mkCodec (sc_endpoint c) (sc_sender c) (sc_recipient c) (sc_sent c) n.

(** What an encoded message is. *)
Lemma encode_inv p c bytes c' :
  session_encode p c = Ok (bytes, c') →
  ∃ body, let f := mkFrame SESSION_PROTOCOL (se_channel_id (sc_endpoint c)) (sc_sent c + 1) p in
    validate_payload p = Ok () ∧ frame_to_string f = Ok body ∧ (sc_sent c + 1 ≤ MAX_SAFE_INTEGER)%N ∧
    envelope_to_vec (mkEnvelope (sc_sender c) (sc_recipient c) SESSION_KIND body) = Ok bytes ∧
    (slen bytes ≤ MAX_SESSION_FRAME_BYTES)%N ∧
    c' = mkCodec (sc_endpoint c) (sc_sender c) (sc_recipient c) (sc_sent c + 1) (sc_received c).
Proof.
  unfold session_encode. destruct (validate_payload p) as [[]|] eqn:Hv; [|done]. cbn [mbind result_bind].
  destruct (U64_MAX <? _)%N; [done|]. destruct (N.ltb_spec MAX_SAFE_INTEGER (sc_sent c + 1)) as [|Hs]; [done|].
  destruct (frame_to_string _) as [body|] eqn:Hf; [|done]. cbn [mbind result_bind].
  destruct (envelope_to_vec _) as [b|] eqn:Hb; [|done]. cbn [mbind result_bind].
  destruct (N.ltb_spec MAX_SESSION_FRAME_BYTES (slen b)) as [|Hl]; [done|]. intros [= <- <-]. by exists body.
Qed.

(** What the other side makes of it. *)
Lemma decode_encoded p c bytes c' rx :
  session_encode p c = Ok (bytes, c') → plain_payload p → se_channel_id (sc_endpoint rx) = se_channel_id (sc_endpoint c) →
  sc_recipient rx = sc_sender c → sc_sender rx = sc_recipient c → sc_sender rx ≠ sc_recipient rx →
  session_decode bytes rx =
    if (sc_sent c + 1 <=? sc_received rx)%N then Ok (None, rx)
    else if decide ((sc_sent c + 1)%N = (sc_received rx + 1)%N) then Ok (Some p, set_received (sc_sent c + 1) rx)
    else Err (sequence_gap (sc_received rx + 1) (sc_sent c + 1)).
Proof.
  intros He Hplain Hch Hr Hs Hne. destruct (encode_inv p c bytes c' He) as (body & Hv & Hf & Hseq & Hb & Hlen & _).
  destruct (sl_envelope _ _ Hb) as (v & Hbytes & Hkind & Henv). destruct (sl_frame _ _ Hf Hplain) as (w & Hbody & Hchan & Hframe).
  unfold session_decode. rewrite Hbytes. cbn [mbind result_bind]. rewrite decide_False by (rewrite Hkind; intros []; done).
  destruct (N.ltb_spec MAX_SESSION_FRAME_BYTES (slen bytes)) as [|_]; [lia|]. rewrite Henv. cbn [mbind result_bind en_from en_to en_body].
  rewrite decide_False by (intros [E _]; congruence). rewrite Hbody. cbn [mbind result_bind].
  rewrite decide_False by (rewrite Hchan, Hch; intros []; done). rewrite Hframe. cbn [mbind result_bind sf_protocol sf_sequence sf_payload].
  rewrite decide_False by (rewrite Hr, Hs; intros [[]|[]]; done). rewrite decide_False by (intros []; done).
  destruct (N.eqb_spec (sc_sent c + 1) 0) as [|_]; [lia|]. destruct (N.ltb_spec MAX_SAFE_INTEGER (sc_sent c + 1)) as [|_]; [lia|]. cbn [orb].
  destruct (sc_sent c + 1 <=? sc_received rx)%N; [done|].
  destruct (decide ((sc_sent c + 1)%N = (sc_received rx + 1)%N)) as [E|E].
  - rewrite decide_False by (intros []; done). rewrite Hv. done.
  - by rewrite decide_True.
Qed.

(** Own messages, and messages of another generation, are passed over. *)
Lemma decode_passes p c bytes c' rx :
  session_encode p c = Ok (bytes, c') →
  (sc_sender c = sc_sender rx ∧ sc_recipient c = sc_recipient rx) ∨ se_channel_id (sc_endpoint c) ≠ se_channel_id (sc_endpoint rx) →
  session_decode bytes rx = Ok (None, rx).
Proof.
  intros He Hc. destruct (encode_inv p c bytes c' He) as (body & Hv & Hf & Hseq & Hb & Hlen & _).
  destruct (sl_envelope _ _ Hb) as (v & Hbytes & Hkind & Henv). destruct (sl_channel _ _ Hf) as (w & Hbody & Hchan).
  unfold session_decode. rewrite Hbytes. cbn [mbind result_bind]. rewrite decide_False by (rewrite Hkind; intros []; done).
  destruct (N.ltb_spec MAX_SESSION_FRAME_BYTES (slen bytes)) as [|_]; [lia|]. rewrite Henv. cbn [mbind result_bind en_from en_to en_body].
  case_decide as Hown; [done|]. destruct Hc as [Hc|Hc]; [done|]. rewrite Hbody. cbn [mbind result_bind].
  rewrite decide_True; [done|]. rewrite Hchan. by intros [= ?].
Qed.
(** Several messages, sent one after the other and read one after the other. *)
Fixpoint encode_all (ps : list (SessionPayload Value)) (c : SessionCodec) : result string (list string) :=
  match ps with
  | [] => Ok []
  | p :: ps => '(b, c) ← session_encode p c; bs ← encode_all ps c; Ok (b :: bs)
  end.

Fixpoint read_all (l : list string) (c : SessionCodec) : result string (list (SessionPayload Value) * SessionCodec) :=
  match l with
  | [] => Ok ([], c)
  | b :: l => '(x, c) ← session_decode b c; '(ps, c) ← read_all l c; Ok (option_list x ++ ps, c)
  end.

(** What else a transcript holds: other mail, the reader's own messages, and messages
    of other generations, written by a codec. *)
Definition passed_over (rx : SessionCodec) (b : string) : Prop :=
  (∃ v, from_slice b = Ok v ∧ value_get "kind" v ≫= as_str ≠ Some SESSION_KIND) ∨
  ∃ p c c', session_encode p c = Ok (b, c') ∧
    ((sc_sender c = sc_sender rx ∧ sc_recipient c = sc_recipient rx) ∨ se_channel_id (sc_endpoint c) ≠ se_channel_id (sc_endpoint rx)).

(** A transcript into which the first [n] of the messages [bs] were appended in order,
    each any number of times more, between other entries. *)
Inductive arrives (rx : SessionCodec) (bs : list string) : nat → list string → Prop :=
  | arrives_none : arrives rx bs 0 []
  | arrives_next n l b : arrives rx bs n l → bs !! n = Some b → arrives rx bs (Datatypes.S n) (l ++ [b])
  | arrives_again n l i b : arrives rx bs n l → i < n → bs !! i = Some b → arrives rx bs n (l ++ [b])
  | arrives_other n l b : arrives rx bs n l → passed_over rx b → arrives rx bs n (l ++ [b]).

Lemma encode_all_at ps c bs i b :
  encode_all ps c = Ok bs → bs !! i = Some b →
  ∃ p c1 c2, ps !! i = Some p ∧ session_encode p c1 = Ok (b, c2) ∧ sc_sent c1 = (sc_sent c + N.of_nat i)%N ∧
    sc_endpoint c1 = sc_endpoint c ∧ sc_sender c1 = sc_sender c ∧ sc_recipient c1 = sc_recipient c.
Proof.
  revert c bs i. induction ps as [|p ps IH]; intros c bs i; cbn; [by intros [= <-]|].
  destruct (session_encode p c) as [[b0 c0]|] eqn:He; [|done]. cbn. destruct (encode_all ps c0) as [bs0|] eqn:Ha; [|done]. cbn.
  intros [= <-]. destruct i as [|i]; cbn; [intros [= ->]; exists p, c, c0; split_and!; try done; lia|]. intros Hi.
  destruct (IH _ _ _ Ha Hi) as (p1 & c1 & c2 & H1 & H2 & H3 & H4 & H5 & H6). exists p1, c1, c2.
  destruct (encode_inv _ _ _ _ He) as (_ & _ & _ & _ & _ & _ & ->). cbn in *. split_and!; try done. lia.
Qed.

Lemma encode_all_length ps c bs : encode_all ps c = Ok bs → length bs = length ps.
Proof.
  revert c bs. induction ps as [|p ps IH]; intros c bs; cbn; [by intros [= <-]|].
  destruct (session_encode p c) as [[b0 c0]|]; [|done]. cbn. destruct (encode_all ps c0) as [bs0|] eqn:Ha; [|done]. cbn.
  intros [= <-]. cbn. by rewrite (IH _ _ Ha).
Qed.

Lemma read_all_app l l' c ps c1 :
  read_all l c = Ok (ps, c1) → read_all (l ++ l') c = ('(qs, c2) ← read_all l' c1; Ok (ps ++ qs, c2)).
Proof.
  revert c ps. induction l as [|b l IH]; intros c ps; cbn; [intros [= <- <-]; by destruct (read_all l' c) as [[]|]|].
  destruct (session_decode b c) as [[x c0]|]; [|done]. cbn. destruct (read_all l c0) as [[qs c2]|] eqn:Hr; [|done]. cbn.
  intros [= <- <-]. rewrite (IH _ _ Hr). destruct (read_all l' c2) as [[rs c3]|]; cbn; [by rewrite app_assoc|done].
Qed.

(** The two ends of one attachment. *)
Record attached (tx rx : SessionCodec) : Prop := {
  at_channel : se_channel_id (sc_endpoint rx) = se_channel_id (sc_endpoint tx);
  at_from : sc_recipient rx = sc_sender tx;
  at_to : sc_sender rx = sc_recipient tx;
  at_distinct : sc_sender rx ≠ sc_recipient rx;
  at_sent : sc_sent tx = 0%N;
  at_received : sc_received rx = 0%N }.


(** What is delivered was written by the peer, if the transcript names its senders. *)
Theorem session_authentic rx bytes p c' s :
  session_decode bytes rx = Ok (Some p, c') → attributed s bytes → sc_recipient rx ≠ "" → s = sc_recipient rx.
Proof.
  intros Hd Ha Hne. unfold session_decode in Hd. destruct (from_slice bytes) as [v|] eqn:Hv; [|done]. cbn [mbind result_bind] in Hd.
  destruct (decide _) as [|Hk]; [done|]. apply dec_stable in Hk. destruct (as_object v) as [m|] eqn:Hm; [|by unfold value_get in Hk; rewrite Hm in Hk].
  destruct (_ <? _)%N; [done|]. destruct (envelope_from_value v) as [env|] eqn:Henv; [|done]. cbn [mbind result_bind] in Hd.
  destruct (decide _); [done|]. destruct (from_slice (en_body env)) as [w|]; [|done]. cbn [mbind result_bind] in Hd.
  destruct (decide _); [done|]. destruct (frame_from_value w) as [f|]; [|done]. cbn [mbind result_bind] in Hd.
  destruct (decide _) as [|Hp]; [done|]. assert (en_from env = sc_recipient rx) as Hfrom.
  { destruct (decide (en_from env = sc_recipient rx)) as [|Hn]; [done|]. destruct Hp. by left. }
  rewrite (sl_from v m env Hm Henv) in Hfrom. specialize (Ha v m Hv Hm). rewrite Ha in Hfrom. done.
Qed.
End sessions.

(** ** Members of a list *)

Lemma ltb_trans a b c : String.ltb a b = true → String.ltb b c = true → String.ltb a c = true.
Proof.
  rewrite !ltb_leb, !negb_true_iff. intros Hab Hbc. destruct (String.leb c a) eqn:Hca; [|done].
  destruct (String.leb_total a b) as [H|H]; [|congruence]. by rewrite (leb_trans c a b Hca H) in Hbc.
Qed.

(** Strictly increasing, as [unordered] tests neighbours. *)
Lemma ordered_lookup l i j a b : unordered l = false → i < j → l !! i = Some a → l !! j = Some b → String.ltb a b = true.
Proof.
  revert i j a. induction l as [|x l IH]; intros i j a Hu Hij Ha Hb; [done|]. destruct j as [|j]; [lia|]. cbn in Hb.
  destruct l as [|y l]; [by destruct j|]. cbn [unordered] in Hu. apply orb_false_iff in Hu as [Hxy Hu].
  destruct i as [|i]; cbn in Ha; [|by apply (IH i j a Hu ltac:(lia))]. injection Ha as ->.
  assert (String.ltb a y = true) as Hay by (rewrite ltb_leb, Hxy; done). destruct j as [|j]; [cbn in Hb; congruence|].
  apply (ltb_trans _ y); [done|]. by apply (IH 0 (Datatypes.S j) y Hu ltac:(lia)).
Qed.

Lemma binary_search_go_spec fuel l x base size :
  unordered l = false → 1 ≤ size ≤ fuel → base + size ≤ length l →
  (∀ i, l !! i = Some x → base ≤ i < base + size) → binary_search_go fuel l x base size = bool_decide (x ∈ l).
Proof.
  intros Hu. revert base size. induction fuel as [|fuel IH]; intros base size Hs Hl Hin; [lia|]. cbn [binary_search_go].
  destruct (Nat.leb_spec size 1) as [Hs1|Hs1].
  - apply bool_decide_ext. split; [intros H; by eapply list_elem_of_lookup_2|]. intros [i Hi]%list_elem_of_lookup.
    specialize (Hin i Hi). by replace base with i by lia.
  - pose proof (Nat.div_mod_eq size 2) as Hdiv. pose proof (Nat.mod_upper_bound size 2 ltac:(lia)) as Hmod.
    set (half := size / 2) in *. destruct (lookup_lt_is_Some_2 l (base + half)) as [y Hy]; [lia|]. rewrite Hy.
    apply IH; [lia|destruct (String.ltb x y); lia|]. intros i Hi. specialize (Hin i Hi). destruct (String.ltb x y) eqn:Hxy.
    + destruct (decide (i < base + half)); [lia|]. exfalso. destruct (decide (i = base + half)) as [->|Hne].
      * rewrite Hy in Hi. injection Hi as ->. by rewrite ltb_leb, leb_refl in Hxy.
      * pose proof (ordered_lookup l (base + half) i y x Hu ltac:(lia) Hy Hi) as Hyx.
        pose proof (ltb_trans _ _ _ Hxy Hyx) as Hxx. by rewrite ltb_leb, leb_refl in Hxx.
    + destruct (decide (base + half ≤ i)); [lia|]. exfalso.
      pose proof (ordered_lookup l i (base + half) x y Hu ltac:(lia) Hi Hy). congruence.
Qed.

Lemma binary_search_spec l x : unordered l = false → binary_search l x = bool_decide (x ∈ l).
Proof.
  intros Hu. unfold binary_search. destruct l as [|y l]; [done|]. apply binary_search_go_spec; [done|cbn; lia|cbn; lia|].
  intros i Hi. apply lookup_lt_Some in Hi. lia.
Qed.

(** ** Addresses of other domains *)

(** Base32 of RFC 4648: decodes what it encoded, uses its lowercase alphabet, and five
    bytes make eight letters. *)
Class Base32Laws `{!Base32} := {
  bl_decode s : b32_decode (b32_encode s) = Some s;
  bl_alphabet s : sforall (λ a, byte_in 97 122 a || byte_in 50 55 a) (b32_encode s) = true;
  bl_length s : slen (b32_encode s) = ((8 * slen s + 4) / 5)%N }.

Lemma sforall_no c f s : sforall f s = true → f c = false → scontains c s = false.
Proof.
  intros Hs Hc. induction s as [|a s IH]; [done|]. cbn in *. apply andb_true_iff in Hs as [Ha Hs].
  rewrite (IH Hs), orb_false_r. apply bool_decide_eq_false. intros ->. congruence.
Qed.

Section domains.
Context `{BL : Base32Laws}.

Definition address_ok (a : AgentAddress) : Prop :=
  slen (aa_authority a) = 32%N ∧ is_utf8 (aa_subject a) = true ∧ address_new (aa_authority a) (aa_subject a) = Ok a.

Lemma b32_no c s : (byte_in 97 122 c || byte_in 50 55 c) = false → scontains c (b32_encode s) = false.
Proof. intros Hc. eapply sforall_no; [apply bl_alphabet|done]. Qed.

Lemma address_new_inv u s a : address_new u s = Ok a → a = mkAddress u s ∧ (slen s ≤ 124)%N.
Proof.
  unfold address_new. destruct (_ || _ || _) eqn:Hb; [done|]. intros [= <-]. split; [done|].
  apply orb_false_iff in Hb as [[_ Hb]%orb_false_iff _]. by apply N.ltb_ge in Hb.
Qed.

Lemma segment_length a : address_ok a → (slen (segment a) ≤ 255)%N.
Proof.
  intros (Ha & _ & [_ Hs]%address_new_inv). unfold segment. rewrite !slen_app_N, !bl_length, Ha.
  assert ((8 * slen (aa_subject a) + 4) / 5 ≤ (8 * 124 + 4) / 5)%N as Hle by (apply N.Div0.div_le_mono; lia).
  change (slen "a2.") with 3%N. change (slen ".") with 1%N. change ((8 * 32 + 4) / 5)%N with 52%N.
  change ((8 * 124 + 4) / 5)%N with 199%N in Hle. lia.
Qed.

Lemma segment_no_slash a : scontains "/" (segment a) = false.
Proof. unfold segment. rewrite !scontains_app, !b32_no by done. done. Qed.

Lemma segment_split a : ssplit "." (segment a) = ["a2"; b32_encode (aa_authority a); b32_encode (aa_subject a)].
Proof.
  unfold segment. change ("a2." +:+ ?x) with ("a2" +:+ String "." x). rewrite ssplit_cons by done.
  change ("." +:+ ?x) with (String "." x). rewrite ssplit_cons by (by apply b32_no). by rewrite ssplit_no_sep by (by apply b32_no).
Qed.

Lemma segment_parse a : address_ok a → address_parse (segment a) = Ok a.
Proof.
  intros Hok. pose proof (segment_length a Hok) as Hl. destruct Hok as (Ha & Hu & Hn). unfold address_parse.
  destruct (N.ltb_spec MAX_AGENT_SEGMENT (slen (segment a))) as [Hlt|_]; [unfold MAX_AGENT_SEGMENT in Hlt; lia|].
  rewrite segment_split. rewrite decide_False by (intros []; done). rewrite !bl_decode. rewrite decide_False by (intros []; done).
  unfold from_utf8. rewrite Hu, Hn. cbn. by rewrite decide_False by (intros []; done).
Qed.

Lemma parse_address seg a : address_parse seg = Ok a → address_ok a ∧ segment a = seg.
Proof.
  unfold address_parse. destruct (_ <? _)%N; [done|]. destruct (ssplit "." seg) as [|v [|u [|s []]]]; try done.
  destruct (decide (v ≠ "a2")); [done|]. destruct (b32_decode u) as [au|]; [|done]. destruct (decide (slen au ≠ 32%N)) as [|Hau]; [done|].
  destruct (b32_decode s) as [su|]; [|done]. unfold from_utf8. destruct (is_utf8 su) eqn:Hu; [|done].
  destruct (address_new au su) as [a'|] eqn:Hn; [|done]. cbn. destruct (decide _) as [|Hseg]; [done|]. intros [= <-].
  apply dec_stable in Hau, Hseg. split; [|done]. destruct (address_new_inv _ _ _ Hn) as [-> _]. done.
Qed.

Lemma segment_inj a b : address_ok a → address_ok b → segment a = segment b → a = b.
Proof. intros Ha%segment_parse Hb%segment_parse E. rewrite E in Ha. congruence. Qed.

(** ** Conversations *)

Record conversation_ok (c : ConversationAddress) : Prop := {
  co_space : validate_space_id (ca_space c) = Ok ();
  co_first : address_ok (ca_first c);
  co_second : address_ok (ca_second c);
  co_order : String.ltb (segment (ca_first c)) (segment (ca_second c)) = true }.

Lemma ltb_neq a b : String.ltb a b = true → a ≠ b.
Proof. intros Hlt ->. by rewrite ltb_leb, leb_refl in Hlt. Qed.

Lemma conversation_rebuilt c : conversation_ok c → conversation_new (ca_space c) (ca_first c) (ca_second c) = Ok c.
Proof.
  intros [Hs _ _ Ho]. unfold conversation_new. rewrite Hs. cbn. rewrite decide_False by (by apply ltb_neq). rewrite Ho. by destruct c.
Qed.

Lemma conversation_new_ok space a b c :
  address_ok a → address_ok b → conversation_new space a b = Ok c → conversation_ok c ∧ ca_space c = space.
Proof.
  intros Ha Hb. unfold conversation_new. destruct (validate_space_id space) as [[]|] eqn:Hs; [|done]. cbn. case_decide as E; [done|].
  destruct (String.ltb (segment a) (segment b)) eqn:Hab; intros [= <-]; (split; [split; cbn; try done|done]).
  rewrite ltb_leb in *. apply negb_true_iff. apply negb_false_iff in Hab. destruct (String.leb (segment a) (segment b)) eqn:Hab'; [|done].
  destruct E. by apply leb_antisym.
Qed.

Definition reader_path (c : ConversationAddress) (o : AgentAddress) : string := conversation_root c +:+ "/readers/" +:+ segment o.

Definition path_text (p : ConversationPath) : string :=
  match p with CTranscript c => conversation_transcript c | CReader c o => reader_path c o end.

Definition path_ok (p : ConversationPath) : Prop :=
  conversation_ok (path_conversation p) ∧
  match p with CTranscript _ => True | CReader c o => o = ca_first c ∨ o = ca_second c end.

Lemma contains_spec c a : conversation_contains c a = true ↔ a = ca_first c ∨ a = ca_second c.
Proof. unfold conversation_contains. by rewrite orb_true_iff, !bool_decide_eq_true. Qed.

(** Exact parsing: what parses is the text of what it parses to. *)
Lemma parse_path path p : conversation_path_parse path = Ok p → path_ok p ∧ path_text p = path.
Proof.
  unfold conversation_path_parse. destruct (_ <? _)%N; [done|]. destruct (strip_prefix _ path) as [rel|]; [|done].
  assert (∀ space first second reader,
    (first ← address_parse first; second ← address_parse second; conversation ← conversation_new space first second;
     match reader with
     | Some owner => owner ← address_parse owner; q ← conversation_reader conversation owner;
         if decide (q ≠ path) then Err not_canonical_order else Ok (CReader conversation owner)
     | None => if decide (conversation_transcript conversation ≠ path) then Err not_canonical_order else Ok (CTranscript conversation)
     end) = Ok p → path_ok p ∧ path_text p = path) as Hrest.
  { intros space first second reader. destruct (address_parse first) as [a|] eqn:Ha; [|done]. cbn.
    destruct (address_parse second) as [b|] eqn:Hb; [|done]. cbn. destruct (conversation_new space a b) as [c|] eqn:Hc; [|done]. cbn.
    apply parse_address in Ha as [Ha _], Hb as [Hb _]. apply conversation_new_ok in Hc as [Hc _]; [|done..]. destruct reader as [o|].
    - destruct (address_parse o) as [oa|] eqn:Ho; [|done]. cbn. unfold conversation_reader.
      destruct (conversation_contains c oa) eqn:Hin; [|done]. cbn. destruct (decide _) as [|E]; [done|]. intros [= <-].
      apply dec_stable in E. split; [|done]. split; [done|]. by apply contains_spec.
    - destruct (decide _) as [|E]; [done|]. intros [= <-]. apply dec_stable in E. by split. }
  destruct (ssplit "/" rel) as [|s0 [|s1 [|s2 [|s3 [|s4 [|s5 []]]]]]]; try done; cbn [mbind result_bind]; (case_decide; [apply Hrest|done]).
Qed.

Lemma space_plain space : validate_space_id space = Ok () → slen space = 32%N ∧ scontains "/" space = false.
Proof.
  unfold validate_space_id. destruct (_ || _) eqn:Hb; [done|]. intros _. apply orb_false_iff in Hb as [Hl Hs].
  apply bool_decide_eq_false, dec_stable in Hl. apply negb_false_iff in Hs. split; [done|]. by eapply sforall_no.
Qed.

(** The text of a root, cut at its slashes. *)
Lemma root_split c rest :
  conversation_ok c →
  strip_prefix COLLABORATION_PREFIX (conversation_root c +:+ String "/" rest) =
    Some (ca_space c +:+ "/pairs/" +:+ segment (ca_first c) +:+ "/" +:+ segment (ca_second c) +:+ String "/" rest) ∧
  ssplit "/" (ca_space c +:+ "/pairs/" +:+ segment (ca_first c) +:+ "/" +:+ segment (ca_second c) +:+ String "/" rest) =
    ca_space c :: "pairs" :: segment (ca_first c) :: segment (ca_second c) :: ssplit "/" rest.
Proof.
  intros [Hs _ _ _]. apply space_plain in Hs as [_ Hs]. split.
  - unfold conversation_root. rewrite <-!sapp_assoc. apply strip_prefix_app.
  - change ("/pairs/" +:+ ?x) with (String "/" ("pairs" +:+ String "/" x)). rewrite ssplit_cons by done.
    rewrite ssplit_cons by done. change ("/" +:+ ?x) with (String "/" x). rewrite !ssplit_cons by apply segment_no_slash. done.
Qed.

Lemma root_length c : conversation_ok c → (slen (conversation_root c) ≤ 18 + 32 + 7 + 255 + 1 + 255)%N.
Proof.
  intros [Hs H1%segment_length H2%segment_length _]. apply space_plain in Hs as [Hs _]. unfold conversation_root.
  rewrite !slen_app_N, Hs. change (slen COLLABORATION_PREFIX) with 18%N. change (slen "/pairs/") with 7%N. change (slen "/") with 1%N. lia.
Qed.

Lemma text_parses p : path_ok p → conversation_path_parse (path_text p) = Ok p.
Proof.
  intros [Hc Ho]. unfold conversation_path_parse. destruct p as [c|c o]; cbn [path_text path_conversation] in *; pose proof (root_length c Hc) as Hl.
  - unfold conversation_transcript. change "/transcript" with (String "/" "transcript"). destruct (root_split c "transcript" Hc) as [-> Hsp].
    destruct (N.ltb_spec MAX_PAIR_PATH (slen (conversation_root c +:+ String "/" "transcript"))) as [Hlt|_].
    { rewrite slen_app_N in Hlt. change (slen (String "/" "transcript")) with 11%N in Hlt. change MAX_PAIR_PATH with 832%N in Hlt. lia. }
    rewrite Hsp. change (ssplit "/" "transcript") with ["transcript"]. cbv beta iota. rewrite decide_True by done. cbn [mbind result_bind].
    rewrite !segment_parse by apply Hc. cbn [mbind result_bind]. rewrite (conversation_rebuilt c Hc). cbn [mbind result_bind].
    by rewrite decide_False by (intros []; done).
  - unfold reader_path. change ("/readers/" +:+ ?x) with (String "/" ("readers" +:+ String "/" x)).
    destruct (root_split c ("readers" +:+ String "/" (segment o)) Hc) as [-> Hsp].
    assert (address_ok o) as Hok by (destruct Ho as [->| ->]; apply Hc).
    destruct (N.ltb_spec MAX_PAIR_PATH (slen (conversation_root c +:+ String "/" ("readers" +:+ String "/" (segment o))))) as [Hlt|_].
    { rewrite slen_app_N in Hlt. change (String "/" ("readers" +:+ String "/" (segment o))) with ("/readers/" +:+ segment o) in Hlt.
      rewrite slen_app_N in Hlt. change (slen "/readers/") with 9%N in Hlt. pose proof (segment_length o Hok). change MAX_PAIR_PATH with 832%N in Hlt. lia. }
    rewrite Hsp, ssplit_cons by done. rewrite ssplit_no_sep by apply segment_no_slash. cbv beta iota. rewrite decide_True by done. cbn [mbind result_bind].
    rewrite !segment_parse by (done || apply Hc). cbn [mbind result_bind]. rewrite (conversation_rebuilt c Hc). cbn [mbind result_bind].
    unfold conversation_reader. rewrite (proj2 (contains_spec c o)) by done. cbn [negb mbind result_bind].
    by rewrite decide_False by (intros []; done).
Qed.
End domains.

(** ** Shared spaces *)

Section spaces.
Context `{BL : Base32Laws} `{!SpaceCodec} (rules : ZoneIdRules).

Definition transcript_operation (op : CollaborationOperation) : bool :=
  match op with ReadTranscript | AppendTranscript => true | _ => false end.

Lemma policy_ordered w : policy_validate rules w = Ok () → unordered (sw_members w) = false.
Proof.
  unfold policy_validate. destruct (lift_invalid (validate_space_id (sw_space w))) as [[]|]; [|done]. cbn [mbind result_bind]. destruct (validate_zone_id_for _ _ _) as [[]|]; [|done]. cbn [mbind result_bind].
  destruct (unordered (sw_members w)); [|done]. by rewrite orb_true_r.
Qed.

(** C11: a space admits its members to their own conversations, and nobody else to
    anything.  For a validated policy and any caller, an operation on a path is
    authorised exactly when the request is served by the host and in the zone of the
    space, within its interval, and the path is, letter for letter, the transcript of a
    conversation of the space between two members, of whom the caller is one, with an
    operation on transcripts, or the caller's own reader register in such a
    conversation, with an operation on registers. *)
Theorem authorize_exact w actor path op host zone now parsed :
  policy_validate rules w = Ok () →
  authorize w actor path op host zone now = Ok parsed ↔
  host = sw_host_authority w ∧ zone = sw_replicated_zone w ∧ (sw_not_before_unix_ms w ≤ now < sw_expires_unix_ms w)%N ∧
  ∃ c, conversation_ok c ∧ ca_space c = sw_space w ∧ segment (ca_first c) ∈ sw_members w ∧ segment (ca_second c) ∈ sw_members w ∧
    (actor = ca_first c ∨ actor = ca_second c) ∧
    (if transcript_operation op then path = conversation_transcript c ∧ parsed = CTranscript c
     else path = reader_path c actor ∧ parsed = CReader c actor).
Proof.
  intros Hw%policy_ordered. unfold authorize.
  destruct (decide (host ≠ sw_host_authority w)) as [|Hhost%dec_stable]; [naive_solver|].
  destruct (decide (zone ≠ sw_replicated_zone w)) as [|Hzone%dec_stable]; [naive_solver|].
  destruct (N.ltb_spec now (sw_not_before_unix_ms w)) as [|Hnb]; [naive_solver lia|].
  destruct (N.leb_spec (sw_expires_unix_ms w) now) as [|Hex]; [naive_solver lia|].
  split.
  - destruct (conversation_path_parse path) as [p|] eqn:Hp; [|done]. cbn [lift_invalid mbind result_bind]. apply parse_path in Hp as [[Hok Howner] <-].
    destruct (decide _) as [|Hsp%dec_stable]; [done|]. destruct (negb (forallb _ _)) eqn:Hm; [done|].
    destruct (conversation_contains _ actor) eqn:Hin; [|done]. cbn [negb]. apply contains_spec in Hin.
    apply negb_false_iff in Hm. cbn [forallb] in Hm. rewrite !binary_search_spec in Hm by done. rewrite !andb_true_iff, !bool_decide_eq_true in Hm. destruct Hm as (_ & H1 & H2 & _).
    intros Hr. split_and!; [done..|]. exists (path_conversation p). split_and!; try done.
    destruct p as [c|c o], op; cbn in Hr |- *; try done; try (by injection Hr as <-);
      (destruct (decide (o ≠ actor)) as [|E%dec_stable]; [done|]; injection Hr as <-; by subst).
  - intros (_ & _ & _ & c & Hok & Hsp & H1 & H2 & Hin & Hop).
    assert (∃ p, parsed = p ∧ path = path_text p ∧ path_ok p ∧ path_conversation p = c ∧
      p = if transcript_operation op then CTranscript c else CReader c actor) as (p & -> & -> & Hpok & Hpc & Hpe).
    { destruct (transcript_operation op), Hop as [-> ->]; eexists; split_and!; try done; split; done. }
    rewrite (text_parses p Hpok). cbn [lift_invalid mbind result_bind]. rewrite Hpc. rewrite decide_False by (intros []; done).
    cbn [forallb]. rewrite !binary_search_spec by done. rewrite !bool_decide_eq_true_2 by (done || by destruct Hin as [->| ->]). cbn [andb negb].
    rewrite (proj2 (contains_spec c actor)) by done. cbn [negb]. rewrite Hpe.
    destruct op; cbn; try done; by rewrite decide_False by (intros []; done).
Qed.
End spaces.

(** ** Conversation ids *)

Lemma sapp_cut a b c d : scontains "000" a = false → scontains "000" c = false → a +:+ String "000" b = c +:+ String "000" d → a = c ∧ b = d.
Proof.
  revert c. induction a as [|x a IH]; intros [|y c] Ha Hc E; cbn in Ha, Hc.
  - injection E as ->. done.
  - injection E as <- _. by apply orb_false_iff in Hc as [Hc%bool_decide_eq_false _].
  - injection E as -> _. by apply orb_false_iff in Ha as [Ha%bool_decide_eq_false _].
  - apply orb_false_iff in Ha as [_ Ha], Hc as [_ Hc]. rewrite !sapp_cons in E. injection E as -> E. by destruct (IH c Ha Hc E) as [-> ->].
Qed.

(** One id for a pair in either order; and two pairs of names without a NUL have one
    id only if they are the same pair, unless the hash, cut to 32 letters, collides. *)
Theorem conversation_ids blake3_hex a b :
  conversation_id blake3_hex a b = conversation_id blake3_hex b a ∧
  ∀ c d, Forall (λ n, scontains "000" n = false) [a; b; c; d] →
    (∀ s t, stake 32 (blake3_hex s) = stake 32 (blake3_hex t) → s = t) →
    conversation_id blake3_hex a b = conversation_id blake3_hex c d → (a = c ∧ b = d) ∨ (a = d ∧ b = c).
Proof.
  split.
  - unfold conversation_id, pair_text. destruct (String.leb a b) eqn:Hab, (String.leb b a) eqn:Hba; try done.
    + by rewrite (leb_antisym a b).
    + destruct (String.leb_total a b); congruence.
  - intros c d Hn Hinj Hid%Hinj. rewrite !Forall_cons in Hn. destruct Hn as (Ha & Hb & Hc & Hd & _). unfold pair_text in Hid.
    destruct (String.leb a b), (String.leb c d); apply sapp_cut in Hid; try done; naive_solver.
Qed.

(** ** Zone grants in the kernel *)

Section grants.
Context {W : Type} `{!ObjectStores W}.
Context {S : Type} `{!KernelStore S}.
Context {L : Type} `{!Locks L}.
Context {E : Type} `{!PipeBackend E}.
Context {B : Type} `{!StreamBackend B}.
Context {TX : Texts}.

Definition granted (ctx : OperationContext) (zone : string) (p : Permission) : Prop :=
  ∃ chars, (zone, chars) ∈ oc_zone_perms ctx ∧ scontains (permission_char p) chars = true.

Lemma zone_check_iff dbg path r p ctx : zone_perms_check dbg path r p ctx = Ok () ↔ granted ctx (owning_zone r ctx) p.
Proof.
  unfold zone_perms_check, granted. destruct (existsb _ _) eqn:Hb.
  - split; [|done]. intros _. apply existsb_exists in Hb as ([z chars] & Hin%list_elem_of_In & H2). cbn in H2.
    apply andb_true_iff in H2 as [->%bool_decide_eq_true H2]. eauto.
  - split; [done|]. intros (chars & Hin & Hc). rewrite <-not_true_iff_false in Hb. destruct Hb. apply existsb_exists.
    exists (owning_zone r ctx, chars). split; [by apply list_elem_of_In|]. cbn. by rewrite bool_decide_eq_true_2, Hc.
Qed.

(** With zone grants as the provider, a call that needs a permission on a path whose
    zone the caller has no grant for changes nothing. *)
Theorem zone_grants_enforced dbg ctx (k : Kernel W S L E B) x p perm r :
  kc_provider (k_config k) = Some (zone_perms_check dbg) → oc_is_system ctx = false →
  (p, perm) ∈ call_checks x → system_path p = false → route (k_router k) p (oc_zone_id ctx) = Some r →
  ¬ granted ctx (rr_zone_id r) perm →
  ∃ res, run_call x ctx k = Some (res, k) ∧ (is_ok res = true → ∃ p, (p, PermWrite) ∈ call_checks x ∧ is_virtual k p).
Proof.
  intros Hp Hs Hin Hsys Hr Hg. apply denied_unchanged, Exists_exists. exists (p, perm). split; [done|]. split_and!; [done..|].
  cbn [fst snd]. rewrite Hr. destruct (zone_perms_check dbg p (Some r) perm ctx) as [[]|e] eqn:Hc; [|by eauto].
  by apply zone_check_iff in Hc.
Qed.
End grants.

(** ** The store of the policies *)

Section policy_store.
Context `{Codec : MetadataCodec}.
Context `{!Base32, !SpaceCodec} (rules : ZoneIdRules).
Implicit Types (s : RaftStore).

(** What callers of the store see. *)
Inductive StoreEvent :=
  | ECreate (w : SpaceWire) (r : result PolicyError ())
  | ECurrent (space : string) (r : result PolicyError SpaceWire)
  | ERevoke (space : string) (r : result PolicyError ()).

Inductive StoreTask := TCreate (w : SpaceWire) | TRevoke (space : string).

Abbreviation row s key := (get_control_state (rs_node s) CONTROL_NS_COLLABORATION key).

(** Any number of callers, on any nodes, whose proposals and reads interleave; a call
    in [tasks] has had its proposal answered and has not yet read.  What else the
    control zone's log applies is of other namespaces. *)
Inductive store_run : RaftStore → list StoreTask → list StoreEvent → Prop :=
  | run_start s : (∀ key, row s key = None) → store_run s [] []
  | run_create s ts h reply w s' r : store_run s ts h → create_begin rules reply w s = (r, s') →
      store_run s' (match r with Ok _ => TCreate w :: ts | Err _ => ts end) (match r with Ok _ => h | Err _ => h ++ [ECreate w r] end)
  | run_created s ts ts' h fault w : store_run s (ts ++ TCreate w :: ts') h →
      store_run s (ts ++ ts') (h ++ [ECreate w (create_end rules fault w s)])
  | run_revoke s ts h reply space s' r : store_run s ts h → revoke_begin reply space s = (r, s') →
      store_run s' (match r with Ok _ => TRevoke space :: ts | Err _ => ts end) (match r with Ok _ => h | Err _ => h ++ [ERevoke space r] end)
  | run_revoked s ts ts' h fault space : store_run s (ts ++ TRevoke space :: ts') h →
      store_run s (ts ++ ts') (h ++ [ERevoke space (revoke_end rules fault space s)])
  | run_current s ts h fault space : store_run s ts h → store_run s ts (h ++ [ECurrent space (policy_current rules fault space s)])
  | run_other s ts h s' : store_run s ts h → (∀ key, row s' key = row s key) → store_run s' ts h.

(** A caller was told that [w] is the policy of a space; that the space is revoked. *)
Definition admits (space : string) (w : SpaceWire) (e : StoreEvent) : Prop :=
  match e with
  | ECreate w' (Ok _) => w' = w ∧ sw_space w = space
  | ECurrent space' (Ok w') => w' = w ∧ space' = space
  | _ => False
  end.

Definition revokes (space : string) (e : StoreEvent) : Prop := ∃ u, e = ERevoke space (Ok u).

(** A record is written once. *)
Lemma apply_put_absent n key value sm :
  (sm_last_applied sm < n)%N →
  ∃ res sm' fired, apply n (PutControlState CONTROL_NS_COLLABORATION key value true) sm = Applied res sm' fired ∧
    ∀ key', get_control_state sm' CONTROL_NS_COLLABORATION key' =
      if decide (key' = key) then Some (default value (get_control_state sm CONTROL_NS_COLLABORATION key))
      else get_control_state sm CONTROL_NS_COLLABORATION key'.
Proof.
  intros Hn. unfold apply. cbn [lock_command]. rewrite (proj2 (N.leb_gt _ _) Hn).
  assert ((result ← execute_metadata_in_txn (PutControlState CONTROL_NS_COLLABORATION key value true);
           put_meta KEY_LAST_APPLIED (u64_to_be n);; mret result) (sm_db sm) =
    match get_control_state sm CONTROL_NS_COLLABORATION key with
    | Some _ => (put_meta KEY_LAST_APPLIED (u64_to_be n);; mret (control_exists CONTROL_NS_COLLABORATION key)) (sm_db sm)
    | None => (put_ctrl (control_key CONTROL_NS_COLLABORATION key) value;; put_meta KEY_LAST_APPLIED (u64_to_be n);; mret Success) (sm_db sm)
    end) as ->.
  { unfold execute_metadata_in_txn, get_control_state. cbn [record_guard_refusal ordinary_metadata_key dispatch_in_txn].
    unfold unguarded_refusal. cbn [malformed_wal_prefix guarded_record_key].
    rewrite decide_False by done. cbv [mbind txn_bind mret txn_ret get_ctrl].
    destruct (control_state (sm_db sm) !! control_key CONTROL_NS_COLLABORATION key) eqn:Hv; cbn; by rewrite Hv. }
  unfold get_control_state. destruct (control_state (sm_db sm) !! control_key CONTROL_NS_COLLABORATION key) as [v|] eqn:Hv; cbn;
    eexists _, _, _; (split; [reflexivity|]); intros key'; cbn.
  - by case_decide as Hk; [subst; rewrite Hv|].
  - case_decide as Hk; [subst; by rewrite lookup_insert_eq|]. by rewrite lookup_insert_ne by (by intros ?%control_key_same).
Qed.

Lemma put_if_absent_rows reply key value s r s' key' v :
  put_if_absent reply key value s = (r, s') → row s key' = Some v → row s' key' = Some v.
Proof.
  unfold put_if_absent. destruct reply as [|e|e]; [|by intros [= _ <-]|];
    (destruct (N.le_gt_cases (rs_next s) (sm_last_applied (rs_node s))) as [Hn|Hn];
     [unfold apply; cbn [lock_command]; rewrite (proj2 (N.leb_le _ _) Hn); by intros [= _ <-]|];
     destruct (apply_put_absent _ key value _ Hn) as (res & sm & fired & -> & Hrow); intros [= _ <-] Hv; cbn [rs_node];
     rewrite Hrow; case_decide; [subst; by rewrite Hv|done]).
Qed.

Lemma current_ok fault space s w :
  policy_current rules fault space s = Ok w →
  ∃ record, row s ("space:" +:+ space) = Some record ∧ policy_decode rules record = Ok w ∧ sw_space w = space ∧ row s (revoked_key space) = None.
Proof.
  unfold policy_current, validated_space_key. destruct (lift_invalid _); [|done]. cbn [mbind result_bind].
  unfold get_many_linearizable. destruct fault; [done|]. cbn [fmap list_fmap].
  destruct (row s (revoked_key space)) as [v|] eqn:Hr; [destruct (row s ("space:" +:+ space)); case_decide; done|].
  destruct (row s ("space:" +:+ space)) as [record|] eqn:Hs; [|done].
  destruct (policy_decode rules record) as [p|] eqn:Hd; [|done]. cbn. case_decide as Hsp; [done|].
  intros [= <-]. by exists record.
Qed.

Lemma validate_not_revoked w : policy_validate rules w ≠ Err Revoked.
Proof.
  unfold policy_validate. destruct (validate_space_id (sw_space w)); [|done]. cbn [lift_invalid mbind result_bind].
  destruct (validate_zone_id_for _ _ _); [|done]. cbn [mbind result_bind]. destruct (_ || _); [done|]. by destruct (members_parse _).
Qed.

Lemma decode_not_revoked record : policy_decode rules record ≠ Err Revoked.
Proof.
  unfold policy_decode. destruct (_ <? _)%N; [done|]. destruct (space_from_slice record) as [w|]; [|done]. cbn [lift_invalid mbind result_bind].
  pose proof (validate_not_revoked w). destruct (policy_validate rules w); cbn; congruence.
Qed.

Lemma current_revoked fault space s : policy_current rules fault space s = Err Revoked → ∃ v, row s (revoked_key space) = Some v.
Proof.
  unfold policy_current, validated_space_key. destruct (validate_space_id space); [|done]. cbn [lift_invalid mbind result_bind].
  unfold get_many_linearizable. destruct fault; [done|]. cbn [fmap list_fmap].
  destruct (row s (revoked_key space)) as [v|]; [by eauto|]. destruct (row s ("space:" +:+ space)) as [record|]; [|done].
  pose proof (decode_not_revoked record). destruct (policy_decode rules record); cbn; [by case_decide|]. congruence.
Qed.

(** What callers were told is still in the records. *)
Definition told (s : RaftStore) (e : StoreEvent) : Prop :=
  (∀ space w, admits space w e → ∃ record, row s ("space:" +:+ space) = Some record ∧ policy_decode rules record = Ok w) ∧
  (∀ space, revokes space e → ∃ v, row s (revoked_key space) = Some v).

Lemma told_kept s s' e : (∀ key v, row s key = Some v → row s' key = Some v) → told s e → told s' e.
Proof.
  intros Hk [H1 H2]. split; [|naive_solver]. intros space w Ha. destruct (H1 _ _ Ha) as (record & ? & ?). eauto.
Qed.

Lemma told_current fault space s : told s (ECurrent space (policy_current rules fault space s)).
Proof.
  split; [|by intros ? [? ?]]. intros sp w. cbn. destruct (policy_current _ _ _ _) eqn:Hc; [|done]. intros [-> ->].
  apply current_ok in Hc as (record & ? & ? & _). eauto.
Qed.

Lemma told_created fault w s : told s (ECreate w (create_end rules fault w s)).
Proof.
  split; [|by intros ? [? ?]]. intros sp w'. unfold create_end. destruct (policy_current rules fault (sw_space w) s) as [x|] eqn:Hc; [|done]. cbn.
  case_decide as Hx; [done|]. subst x. intros [-> <-]. apply current_ok in Hc as (record & ? & ? & _). eauto.
Qed.

Lemma told_revoked fault space s : told s (ERevoke space (revoke_end rules fault space s)).
Proof.
  split; [done|]. intros sp [u Hu]. injection Hu as <- Hr. unfold revoke_end in Hr.
  destruct (policy_current rules fault space s) as [|e] eqn:Hc; [done|]. destruct e; try done. by eapply current_revoked.
Qed.

Lemma told_failed_create s w e : told s (ECreate w (Err e)).
Proof. split; [done|]. by intros ? [? ?]. Qed.

Lemma told_failed_revoke s space e : told s (ERevoke space (Err e)).
Proof. split; [done|]. by intros ? [? ?]. Qed.

Lemma create_begin_rows reply w s r s' key v : create_begin rules reply w s = (r, s') → row s key = Some v → row s' key = Some v.
Proof.
  unfold create_begin. destruct (_ ≫= _) as [[k bytes]|]; [|by intros [= _ <-]].
  destruct (put_if_absent _ _ _ _) eqn:Hp. intros [= _ <-]. by eapply put_if_absent_rows.
Qed.

Lemma revoke_begin_rows reply space s r s' key v : revoke_begin reply space s = (r, s') → row s key = Some v → row s' key = Some v.
Proof.
  unfold revoke_begin. destruct (validated_space_key _); [|by intros [= _ <-]].
  destruct (put_if_absent _ _ _ _) eqn:Hp. intros [= _ <-]. by eapply put_if_absent_rows.
Qed.

Lemma run_told s ts h : store_run s ts h → Forall (told s) h.
Proof.
  induction 1 as [s Hs|s ts h reply w s' r Hrun IH Hb|s ts ts' h fault w Hrun IH|s ts h reply space s' r Hrun IH Hb|s ts ts' h fault space Hrun IH
                 |s ts h fault space Hrun IH|s ts h s' Hrun IH Hrow].
  - done.
  - assert (Forall (told s') h) as IH' by (eapply Forall_impl; [exact IH|]; intros e; apply told_kept; intros ??; by eapply create_begin_rows).
    destruct r; [done|]. apply Forall_app. split; [done|]. apply Forall_singleton, told_failed_create.
  - apply Forall_app. split; [done|]. apply Forall_singleton, told_created.
  - assert (Forall (told s') h) as IH' by (eapply Forall_impl; [exact IH|]; intros e; apply told_kept; intros ??; by eapply revoke_begin_rows).
    destruct r; [done|]. apply Forall_app. split; [done|]. apply Forall_singleton, told_failed_revoke.
  - apply Forall_app. split; [done|]. apply Forall_singleton, told_revoked.
  - apply Forall_app. split; [done|]. apply Forall_singleton, told_current.
  - eapply Forall_impl; [exact IH|]. intros e. apply told_kept. intros ??. by rewrite Hrow.
Qed.

(** Nobody is admitted after a revocation. *)
Definition final (h : list StoreEvent) : Prop :=
  ∀ i j e1 e2 space w, i < j → h !! i = Some e1 → h !! j = Some e2 → revokes space e1 → ¬ admits space w e2.

Lemma final_snoc s h e :
  final h → Forall (told s) h → (∀ space w, admits space w e → row s (revoked_key space) = None) → final (h ++ [e]).
Proof.
  intros Hf Ht He i j e1 e2 space w Hij H1 [H2|[Hj H2]]%lookup_app_Some Hr Ha.
  - rewrite lookup_app_l in H1 by (apply lookup_lt_Some in H2; lia). by eapply (Hf i j).
  - assert (j = length h) as -> by (apply lookup_lt_Some in H2; cbn in H2; lia). rewrite Nat.sub_diag in H2. injection H2 as <-.
    rewrite lookup_app_l in H1 by done. apply He in Ha. apply (Forall_lookup_1 _ _ _ _ Ht) in H1 as [_ H1].
    destruct (H1 _ Hr) as [v Hv]. congruence.
Qed.

Lemma run_final s ts h : store_run s ts h → final h.
Proof.
  induction 1 as [s Hs|s ts h reply w s' r Hrun IH Hb|s ts ts' h fault w Hrun IH|s ts h reply space s' r Hrun IH Hb|s ts ts' h fault space Hrun IH
                 |s ts h fault space Hrun IH|s ts h s' Hrun IH Hrow]; [..|done].
  - by intros i j e1 e2 space w _ ?.
  - destruct r; [done|]. eapply final_snoc; [done|by eapply run_told|by intros ? ? []].
  - eapply final_snoc; [done|by eapply run_told|]. intros space w'. unfold create_end. cbn.
    destruct (policy_current rules fault (sw_space w) s) as [x|] eqn:Hc; [|done]. cbn. case_decide; [done|]. intros [<- <-].
    apply current_ok in Hc as (? & _ & _ & _ & Hn). done.
  - destruct r; [done|]. eapply final_snoc; [done|by eapply run_told|by intros ? ? []].
  - eapply final_snoc; [done|by eapply run_told|by intros ? ? []].
  - eapply final_snoc; [done|by eapply run_told|]. intros sp w'. cbn. destruct (policy_current _ _ _ _) eqn:Hc; [|done]. intros [_ <-].
    by apply current_ok in Hc as (? & _ & _ & _ & Hn).
Qed.

(** C9: the policy of a space never changes, and its revocation is final.  Let any
    number of callers create, look up and revoke spaces, with proposals that commit,
    that do not, and whose answers are lost, and any interleaving of their proposals
    and reads in the log of the control zone.  All callers that are ever given a policy
    of a space (their creation succeeded, or they looked it up) have the same one; and
    once a revocation succeeded, no later creation or look-up of the space succeeds. *)
Theorem space_policies_final s ts h :
  store_run s ts h →
  (∀ i j e1 e2 space w1 w2, h !! i = Some e1 → h !! j = Some e2 → admits space w1 e1 → admits space w2 e2 → w1 = w2) ∧
  (∀ i j e1 e2 space w, i < j → h !! i = Some e1 → h !! j = Some e2 → revokes space e1 → ¬ admits space w e2).
Proof.
  intros Hrun. split; [|by eapply run_final]. intros i j e1 e2 space w1 w2 H1 H2 A1 A2. pose proof (run_told _ _ _ Hrun) as Ht.
  apply (Forall_lookup_1 _ _ _ _ Ht) in H1 as [H1 _]. apply (Forall_lookup_1 _ _ _ _ Ht) in H2 as [H2 _].
  destruct (H1 _ _ A1) as (r1 & R1 & D1), (H2 _ _ A2) as (r2 & R2 & D2). congruence.
Qed.

(** A creation that nothing interferes with succeeds, and the policy is then current. *)
Theorem create_takes_effect w bytes s :
  policy_encode rules w = Ok bytes → policy_decode rules bytes = Ok w → (sm_last_applied (rs_node s) < rs_next s)%N →
  row s ("space:" +:+ sw_space w) = None → row s (revoked_key (sw_space w)) = None →
  ∃ s', create_begin rules Answered w s = (Ok (), s') ∧ create_end rules None w s' = Ok () ∧
    policy_current rules None (sw_space w) s' = Ok w.
Proof.
  intros Henc Hdec Hn Hs Hr. destruct (validate_space_id (sw_space w)) as [u|] eqn:Hid;
    [|by revert Henc; unfold policy_encode, policy_validate; rewrite Hid].
  unfold create_begin, validated_space_key. rewrite Hid. cbn [lift_invalid mbind result_bind]. rewrite Henc. cbn [mbind result_bind].
  unfold put_if_absent. destruct (apply_put_absent _ ("space:" +:+ sw_space w) bytes _ Hn) as (res & sm & fired & -> & Hrow). cbn [lift_unknown].
  eexists. split; [done|]. assert (policy_current rules None (sw_space w) (mkRaftStore sm (rs_next s + 1)) = Ok w) as Hc.
  { unfold policy_current, validated_space_key. rewrite Hid. cbn [lift_invalid mbind result_bind]. unfold get_many_linearizable. cbn [fmap list_fmap rs_node].
    rewrite !Hrow, decide_True, decide_False by done. rewrite Hr, Hs. cbn [default id]. rewrite Hdec. cbn [mbind result_bind]. by rewrite decide_False by (intros []; done). }
  unfold create_end. rewrite Hc. cbn. by rewrite decide_False by (intros []; done).
Qed.
End policy_store.

(** ** Base32 *)

Module Base32Text.

Definition byte_bits (a : ascii) : list bool :=
  let '(Ascii b0 b1 b2 b3 b4 b5 b6 b7) := a in [b7; b6; b5; b4; b3; b2; b1; b0].

Fixpoint string_bits (s : string) : list bool := match s with "" => [] | String a s => byte_bits a ++ string_bits s end.

Definition letter (a b c d e : bool) : ascii :=
  let n := (16 * N.b2n a + 8 * N.b2n b + 4 * N.b2n c + 2 * N.b2n d + N.b2n e)%N in
  ascii_of_N (if (n <? 26)%N then 97 + n else 24 + n).

Definition letter_bits (a : ascii) : list bool :=
  let m := N_of_ascii a in let n := (if (97 <=? m)%N then m - 97 else m - 24)%N in
  [N.testbit n 4; N.testbit n 3; N.testbit n 2; N.testbit n 1; N.testbit n 0].

Fixpoint letters (l : list bool) : string :=
  match l with
  | [] => ""
  | [a] => String (letter a false false false false) ""
  | [a; b] => String (letter a b false false false) ""
  | [a; b; c] => String (letter a b c false false) ""
  | [a; b; c; d] => String (letter a b c d false) ""
  | a :: b :: c :: d :: e :: l => String (letter a b c d e) (letters l)
  end.

Fixpoint letters_bits (s : string) : list bool := match s with "" => [] | String a s => letter_bits a ++ letters_bits s end.

Fixpoint bytes_of (l : list bool) : string :=
  match l with
  | b7 :: b6 :: b5 :: b4 :: b3 :: b2 :: b1 :: b0 :: l => String (Ascii b0 b1 b2 b3 b4 b5 b6 b7) (bytes_of l)
  | _ => ""
  end.

Lemma letter_bits_letter a b c d e : letter_bits (letter a b c d e) = [a; b; c; d; e].
Proof. by destruct a, b, c, d, e. Qed.

Lemma letter_range a b c d e : byte_in 97 122 (letter a b c d e) || byte_in 50 55 (letter a b c d e) = true.
Proof. by destruct a, b, c, d, e. Qed.

Lemma letters_back l : ∃ k, k < 5 ∧ letters_bits (letters l) = l ++ replicate k false.
Proof.
  revert l. fix IH 1. intros [|a [|b [|c [|d [|e l]]]]]; cbn [letters letters_bits].
  - exists 0. split; [lia|done].
  - exists 4. split; [lia|]. by rewrite letter_bits_letter.
  - exists 3. split; [lia|]. by rewrite letter_bits_letter.
  - exists 2. split; [lia|]. by rewrite letter_bits_letter.
  - exists 1. split; [lia|]. by rewrite letter_bits_letter.
  - destruct (IH l) as (k & Hk & ->). exists k. split; [done|]. by rewrite letter_bits_letter.
Qed.

Lemma letters_in l : sforall (λ a, byte_in 97 122 a || byte_in 50 55 a) (letters l) = true.
Proof. revert l. fix IH 1. intros [|a [|b [|c [|d [|e l]]]]]; cbn [letters sforall]; rewrite ?letter_range; try done. by rewrite IH. Qed.

Lemma slen_next a s : slen (String a s) = (1 + slen s)%N.
Proof. unfold slen. cbn. lia. Qed.

Lemma letters_length l : slen (letters l) = ((N.of_nat (length l) + 4) / 5)%N.
Proof.
  revert l. fix IH 1. intros [|a [|b [|c [|d [|e l]]]]]; [done..|]. cbn [letters]. rewrite slen_next, IH. cbn [length].
  replace (N.of_nat (Datatypes.S (Datatypes.S (Datatypes.S (Datatypes.S (Datatypes.S (length l)))))) + 4)%N
    with (1 * 5 + (N.of_nat (length l) + 4))%N by lia. rewrite N.div_add_l by done. lia.
Qed.

Lemma bytes_back s k : k < 5 → bytes_of (string_bits s ++ replicate k false) = s.
Proof.
  intros Hk. induction s as [|[] s IH]; [|cbn; by f_equal]. do 5 (destruct k as [|k]; [done|]). lia.
Qed.

Lemma string_bits_length s : N.of_nat (length (string_bits s)) = (8 * slen s)%N.
Proof. induction s as [|[] s IH]; [done|]. rewrite slen_next. cbn. lia. Qed.

#[global] Instance base32 : Base32 := {| b32_encode s := letters (string_bits s); b32_decode s := Some (bytes_of (letters_bits s)) |}.

#[global] Instance base32_laws : Base32Laws.
Proof.
  split; intros s; cbn.
  - f_equal. destruct (letters_back (string_bits s)) as (k & Hk & ->). by apply bytes_back.
  - apply letters_in.
  - by rewrite letters_length, string_bits_length.
Qed.
End Base32Text.

(** ** A JSON codec

    Values are trees: 0 is an object of pairs 1, 2 an array.  The text of any countable
    value is its code, five bits to a letter. *)

Module JsonText.
Import Base32Text.

Fixpoint pos_bits (p : positive) : list bool := match p with xH => [true] | xO p => false :: pos_bits p | xI p => true :: pos_bits p end.

Fixpoint pos_of (l : list bool) : option positive :=
  match l with
  | [] => None
  | b :: l => match pos_of l with Some p => Some (if b then xI p else xO p) | None => if (b : bool) then Some xH else None end
  end.

Lemma pos_of_bits p k : pos_of (pos_bits p ++ replicate k false) = Some p.
Proof.
  induction p as [p IH|p IH|]; cbn; [by rewrite IH..|]. by replace (pos_of (replicate k false)) with (@None positive) by (induction k as [|k IH]; cbn; [done|by rewrite <-IH]).
Qed.

Definition text {A} `{Countable A} (a : A) : string := letters (pos_bits (encode a)).
Definition of_text {A} `{Countable A} (s : string) : option A := pos_of (letters_bits s) ≫= countable.decode.

Lemma of_text_text {A} `{Countable A} (a : A) : of_text (text a) = Some a.
Proof.
  unfold of_text, text. destruct (letters_back (pos_bits (encode a))) as (k & _ & ->). rewrite pos_of_bits. cbn. apply countable.decode_encode.
Qed.

Abbreviation Tree := (gen_tree string).

Definition pair_of (x : Tree) : option (string * Tree) :=
  match x with GenNode 1 [GenLeaf k; v] => Some (k, v) | _ => None end.

Definition object_of (v : Tree) : option (gmap string Tree) :=
  match v with GenNode 0 l => Some (list_to_map (omap pair_of l)) | _ => None end.

Definition to_object (m : gmap string Tree) : Tree := GenNode 0 ((λ kv, GenNode 1 [GenLeaf kv.1; kv.2]) <$> map_to_list m).

Definition string_of (v : Tree) : option string := match v with GenLeaf s => Some s | _ => None end.

Definition parse (s : string) : result string Tree :=
  match of_text (A := Tree) s with Some v => Ok v | None => Err "expected value" end.

Definition text_field (key : string) (m : gmap string Tree) : result string string :=
  match m !! key with Some v => match string_of v with Some s => Ok s | None => Err "invalid type" end | None => Err "missing field" end.

Definition text_default (key : string) (m : gmap string Tree) : result string string :=
  match m !! key with Some v => match string_of v with Some s => Ok s | None => Err "invalid type" end | None => Ok "" end.

Definition read_envelope (v : Tree) : result string Envelope :=
  match object_of v with
  | None => Err "invalid type"
  | Some m =>
      from ← text_default "from" m; to ← text_field "to" m; kind ← text_field "kind" m; body ← text_field "body" m;
      Ok (mkEnvelope from to kind body)
  end.

(** A structure is read from an object, or from an array of its fields. *)
Definition read_mailbox (v : Tree) : result string MailboxEnvelope :=
  match v with
  | GenNode 2 [GenLeaf from; GenLeaf to; GenLeaf body] => Ok (mkMailbox from to body)
  | _ =>
      match object_of v with
      | None => Err "invalid type"
      | Some m => from ← text_default "from" m; to ← text_default "to" m; body ← text_default "body" m; Ok (mkMailbox from to body)
      end
  end.

Definition mailbox_value (e : MailboxEnvelope) : Tree :=
  to_object ((if decide (mb_from e = "") then id else insert "from" (GenLeaf (mb_from e)))
    {["to" := GenLeaf (mb_to e); "body" := GenLeaf (mb_body e)]}).

Definition envelope_value (e : Envelope) : Tree :=
  to_object {["from" := GenLeaf (en_from e); "to" := GenLeaf (en_to e); "kind" := GenLeaf (en_kind e); "body" := GenLeaf (en_body e)]}.

Definition frame_value (f : SessionFrame Tree) : Tree :=
  to_object {["protocol" := GenLeaf (sf_protocol f); "channel_id" := GenLeaf (sf_channel_id f);
              "sequence" := GenLeaf (text (sf_sequence f));
              "payload" := match sf_payload f with
                           | Rpc message => GenNode 0 [GenNode 1 [GenLeaf "rpc"; message]]
                           | Closed reason => GenNode 0 [GenNode 1 [GenLeaf "closed"; GenLeaf reason]]
                           end]}.

Definition read_payload (v : Tree) : result string (SessionPayload Tree) :=
  match v with
  | GenNode 0 [GenNode 1 [GenLeaf "rpc"; message]] => Ok (Rpc message)
  | GenNode 0 [GenNode 1 [GenLeaf "closed"; GenLeaf reason]] => Ok (Closed reason)
  | _ => Err "invalid type"
  end.

Definition read_frame (v : Tree) : result string (SessionFrame Tree) :=
  match object_of v with
  | None => Err "invalid type"
  | Some m =>
      protocol ← text_field "protocol" m; channel ← text_field "channel_id" m; sequence ← text_field "sequence" m;
      match of_text (A := N) sequence, m !! "payload" with
      | Some n, Some p => payload ← read_payload p; Ok (mkFrame protocol channel n payload)
      | _, _ => Err "missing field"
      end
  end.

#[global] Instance json : Json := {|
  Value := Tree; from_slice := parse; to_vec v := Ok (text v); as_object := object_of; of_object := to_object;
  as_str := string_of; of_str := GenLeaf; as_i64 _ := None;
  mailbox_to_vec e := Ok (text (mailbox_value e)); mailbox_from_slice s := v ← parse s; read_mailbox v;
  envelope_to_vec e := Ok (text (envelope_value e)); envelope_from_value := read_envelope;
  frame_to_string f := Ok (text (frame_value f)); frame_from_value := read_frame |}.

Lemma parse_text v : parse (text v) = Ok v.
Proof. unfold parse. by rewrite of_text_text. Qed.

Lemma object_back m : object_of (to_object m) = Some m.
Proof.
  cbn. f_equal. rewrite <-(list_to_map_to_list m) at 2. f_equal. induction (map_to_list m) as [|[k v] l IH]; [done|]. cbn. by f_equal.
Qed.

#[global] Instance json_laws : JsonLaws.
Proof.
  split; [done| |by eexists]. intros m. exists (text (to_object m)), (to_object m), m. split_and!; [done|apply parse_text|apply object_back|done].
Qed.

Lemma envelope_back e : read_envelope (envelope_value e) = Ok e.
Proof. unfold read_envelope, envelope_value. rewrite object_back. by destruct e. Qed.

Lemma frame_back f : read_frame (frame_value f) = Ok f.
Proof.
  unfold read_frame, frame_value. rewrite object_back. pose proof (of_text_text (sf_sequence f)) as Hn. revert Hn.
  generalize (text (sf_sequence f)). intros sequence Hn. unfold text_field. simplify_map_eq. cbn [string_of mbind result_bind].
  by destruct f as [p c n [m|r]].
Qed.

Lemma get_back key m : value_get key (to_object m) = m !! key.
Proof. unfold value_get. change (@as_object json (to_object m)) with (object_of (to_object m)). by rewrite object_back. Qed.

Lemma frame_channel f : value_get "channel_id" (frame_value f) ≫= as_str = Some (sf_channel_id f).
Proof. unfold frame_value. rewrite get_back. by simplify_map_eq. Qed.

Lemma read_from v m e : object_of v = Some m → read_envelope v = Ok e → en_from e = default "" (m !! "from" ≫= string_of).
Proof.
  intros Ho. unfold read_envelope. rewrite Ho. destruct (text_default "from" m) as [from|] eqn:Hf; [|done]. cbn [mbind result_bind].
  destruct (text_field "to" m); [|done]. cbn [mbind result_bind]. destruct (text_field "kind" m); [|done]. cbn [mbind result_bind].
  destruct (text_field "body" m); [|done]. cbn [mbind result_bind]. intros [= <-]. cbn [en_from]. unfold text_default in Hf.
  destruct (m !! "from") as [x|]; cbn; [destruct (string_of x); naive_solver|naive_solver].
Qed.

Lemma envelope_kind e : value_get "kind" (envelope_value e) ≫= as_str = Some (en_kind e).
Proof. unfold envelope_value. rewrite get_back. by simplify_map_eq. Qed.

Lemma ok_same {E A} (a b : A) : Ok a = (Ok b : result E A) → b = a.
Proof. by intros [= ->]. Qed.

#[global] Instance session_laws : SessionLaws.
Proof.
  split.
  - intros e bytes Hb. exists (envelope_value e). rewrite (ok_same _ _ Hb).
    split_and!; [exact (parse_text (envelope_value e))|exact (envelope_kind e)|exact (envelope_back e)].
  - intros v m e Ho He. exact (read_from v m e Ho He).
  - intros f body Hb _. exists (frame_value f). rewrite (ok_same _ _ Hb).
    split_and!; [exact (parse_text (frame_value f))|exact (frame_channel f)|exact (frame_back f)].
  - intros f body Hb. exists (frame_value f). rewrite (ok_same _ _ Hb). split; [exact (parse_text (frame_value f))|exact (frame_channel f)].
Qed.
End JsonText.

(** ** A cluster node *)

Import Base32Text JsonText.

Definition cluster_config : KernelConfig :=
  mkConfig (Some (cluster_check (λ _, "") one_mount None)) (hooks_register (stamping_hook true) hooks_new) (Some 0%N) None None 0 0 0 0 0 U64_MAX
    (λ _ _, Err "no peer") (λ _ _, None) (λ _ _, None) (λ _ _, false) [].

Definition cluster_node (rows : gmap string FileMetadata) (w : Memory) : Node :=
  mkKernel cluster_config one_mount trie_new w {[0%N := mkSpec rows ∅ []]}
    (lock_manager_new lock_state_new) None ∅ manager_new stream_manager_new ∅ [] [] [].

Lemma cluster_node_ok rows w : cluster_kernel (cluster_node rows w).
Proof. split; [|by exists (λ _, ""), one_mount, None]. exists hooks_new. split; [done|]. by intros h c b ?%elem_of_nil. Qed.

(** An agent of the cluster, one of another organisation, and a user without an agent. *)
Definition mallory : OperationContext := context_new "alice" "root" false (Some "mallory") false.
Definition stranger : OperationContext :=
  mkContext "eve" "root" false (Some "eve") (Some "other.org") false [] [] "user" None "" None [] false.
Definition nobody : OperationContext := context_new "alice" "root" false None false.

Definition transcript : string := "/conversations/c0/transcript".

(** A message that claims to be from bob. *)
Definition forged : string := mailbox_to_bytes (mkMailbox "bob" "carol" "pay").

Definition after_write (ctx : OperationContext) (path bytes : string) : Node :=
  after (cluster_node ∅ ∅) (sys_write_one 5 (mkWriteRequest path bytes 0) ctx (cluster_node ∅ ∅)).

(** The message a reader of a transcript finds there. *)
Definition message_at (path : string) (k : Node) : option MailboxEnvelope :=
  match read_back path k with Some (Ok (Some bytes)) => mailbox_from_bytes bytes | _ => None end.


Lemma forged_sender_replaced : message_at transcript (after_write mallory transcript forged) = Some (mkMailbox "mallory" "carol" "pay").
Proof. vm_compute. reflexivity. Qed.

Lemma foreign_agents_confined_witness :
  (∃ r, run_call (CallWrite 5 (mkWriteRequest "/conversations/c0/readers/bob" "9" 0)) stranger (cluster_node ∅ ∅) =
     Some (r, cluster_node ∅ ∅) ∧
     (is_ok r = true → ∃ p, (p, PermWrite) ∈ call_checks (CallWrite 5 (mkWriteRequest "/conversations/c0/readers/bob" "9" 0)) ∧
        is_virtual (cluster_node ∅ ∅) p)) ∧
  ∃ res k', sys_write_one 5 (mkWriteRequest transcript forged 0) stranger (cluster_node ∅ ∅) = Some (Ok res, k') ∧
    ∃ q bytes k1, (system_path q = true ∨ in_scope q PermWrite = true) ∧ landed 5 stranger 0 q bytes k1 res k'.
Proof.
  assert (foreign stranger) as Hf by (split; [by eexists|done]).
  pose proof (foreign_agents_confined stranger (cluster_node ∅ ∅) (cluster_node_ok ∅ ∅) Hf) as (Hcall & _ & Hwrite). split.
  - exact (Hcall (CallWrite 5 (mkWriteRequest "/conversations/c0/readers/bob" "9" 0)) "/conversations/c0/readers/bob" PermWrite
             (list_elem_of_here _ _) eq_refl eq_refl).
  - destruct (succeeds_inv (sys_write_one 5 (mkWriteRequest transcript forged 0) stranger (cluster_node ∅ ∅)) ww_hit) as (res & k' & Hw & Hhit);
      [vm_compute; reflexivity|].
    exists res, k'. split; [exact Hw|]. exact (Hwrite 5%Z _ res k' Hw Hhit).
Defined.

(** A session of two messages, with the first delivered twice and a message of the
    reader's own between them. *)
Definition demo_hash (s : string) : string := "0123456789abcdef0123456789abcdef" +:+ s.
Definition demo_end (side : SessionSide) : SessionCodec :=
  match codec_new demo_hash (endpoint_new demo_hash "worker" "boss" "g1") side with
  | Ok c => c
  | Err _ => mkCodec (endpoint_new demo_hash "worker" "boss" "g1") "" "" 0 0
  end.
Definition ping : SessionPayload Value := Rpc (to_object {["jsonrpc" := GenLeaf "2.0"; "method" := GenLeaf "ping"]}).
Definition two_messages : list (SessionPayload Value) := [ping; Closed "bye"].
Definition sent (i : nat) : string := match encode_all two_messages (demo_end SideController) with Ok bs => bs !!! i | Err _ => "" end.
Definition own_text : string := match session_encode ping (demo_end SideAgent) with Ok (b, _) => b | Err _ => "" end.

Lemma encoded_passed `{!Json} p c b c' : session_encode p c = Ok (b, c') → passed_over c b.
Proof. intros He. right. exists p, c, c'. split; [exact He|]. by left. Qed.

Lemma own_passed : passed_over (demo_end SideAgent) own_text.
Proof.
  apply (encoded_passed ping (demo_end SideAgent) own_text (mkCodec (endpoint_new demo_hash "worker" "boss" "g1") "worker" "boss" 1 0)).
  vm_compute. reflexivity.
Qed.

Lemma arrives_twice `{!Json} rx b0 b1 own : passed_over rx own → arrives rx [b0; b1] 2 [b0; own; b0; b1].
Proof.
  intros Ho. apply (arrives_next rx [b0; b1] 1 [b0; own; b0] b1); [|done].
  apply (arrives_again rx [b0; b1] 1 [b0; own] 0 b0); [|lia|done]. apply (arrives_other rx [b0; b1] 1 [b0] own); [|done].
  apply (arrives_next rx [b0; b1] 0 [] b0); [constructor|done].
Qed.


(** ** A space of two domains *)

Abbreviation space_tuple := (N * string * string * string * list string * N * N)%type.

#[global] Instance space_codec : SpaceCodec := {|
  space_to_vec w := Ok (text (sw_version w, sw_space w, sw_host_authority w, sw_replicated_zone w, sw_members w,
                                      sw_not_before_unix_ms w, sw_expires_unix_ms w));
  space_from_slice s :=
    match of_text (A := space_tuple) s with
    | Some (v, sp, host, zone, members, nb, ex) => Ok (mkSpace v sp host zone members nb ex)
    | None => Err "expected value"
    end;
  zone_id_text _ := "" |}.

Definition org_a : AgentAddress := mkAddress "AAAAAAAAAAAAAAAAAAAAAAAAAAAAAAAA" "worker".
Definition org_b : AgentAddress := mkAddress "BBBBBBBBBBBBBBBBBBBBBBBBBBBBBBBB" "worker".
Definition space_id : string := "0123456789abcdef0123456789abcdef".

Definition shared_space : SpaceWire :=
  mkSpace 1 space_id (aa_authority org_a) "collab-one" (sort_strings [segment org_b; segment org_a]) 100 200.

Definition shared_transcript : string := conversation_transcript (mkConversation space_id org_a org_b).

Lemma authorize_exact_witness :
  authorize shared_space org_b shared_transcript AppendTranscript (aa_authority org_a) "collab-one" 150 =
    Ok (CTranscript (mkConversation space_id org_a org_b)).
Proof.
  refine (proj2 (authorize_exact zone_id_spec shared_space org_b shared_transcript AppendTranscript (aa_authority org_a) "collab-one" 150 _ _) _).
  - vm_compute. reflexivity.
  - split; [done|]. split; [done|]. split; [done|]. exists (mkConversation space_id org_a org_b).
    destruct (conversation_new_ok space_id org_a org_b (mkConversation space_id org_a org_b)) as [Hok _];
      [by vm_compute|by vm_compute|vm_compute; reflexivity|].
    split; [exact Hok|]. split; [done|]. split; [apply (bool_decide_unpack _); by vm_compute|]. split; [apply (bool_decide_unpack _); by vm_compute|].
    split; [by right|]. by cbn.
Defined.

#[local] Instance opaque_metadata : MetadataCodec := {| decode _ := Err "invalid wire type"; encode_to_vec _ := "" |}.

Definition empty_store : RaftStore := mkRaftStore (mkSM db_empty lock_state_new 0 []) 1.
Definition created_store : RaftStore := (create_begin zone_id_spec Answered shared_space empty_store).2.
Definition raced_store : RaftStore := (create_begin zone_id_spec Answered shared_space created_store).2.
Definition revoked_store : RaftStore := (revoke_begin Answered space_id raced_store).2.

Definition space_history : list StoreEvent :=
  [ECreate shared_space (Ok ()); ECurrent space_id (Ok shared_space); ERevoke space_id (Ok ()); ECurrent space_id (Err Revoked)].

(** Two callers create the space at once, one sees it, it is revoked. *)
Lemma space_policies_final_witness :
  store_run zone_id_spec revoked_store [TCreate shared_space] space_history ∧
  (∀ i j e1 e2 space w1 w2, space_history !! i = Some e1 → space_history !! j = Some e2 → admits space w1 e1 → admits space w2 e2 → w1 = w2) ∧
  (∀ i j e1 e2 space w, i < j → space_history !! i = Some e1 → space_history !! j = Some e2 → revokes space e1 → ¬ admits space w e2).
Proof.
  assert (store_run zone_id_spec revoked_store [TCreate shared_space] space_history) as Hrun.
  { assert (create_begin zone_id_spec Answered shared_space empty_store = (Ok (), created_store)) as E1 by (vm_compute; reflexivity).
    assert (create_begin zone_id_spec Answered shared_space created_store = (Ok (), raced_store)) as E2 by (vm_compute; reflexivity).
    assert (revoke_begin Answered space_id raced_store = (Ok (), revoked_store)) as E3 by (vm_compute; reflexivity).
    assert (create_end zone_id_spec None shared_space raced_store = Ok ()) as E4 by (vm_compute; reflexivity).
    assert (policy_current zone_id_spec None space_id raced_store = Ok shared_space) as E5 by (vm_compute; reflexivity).
    assert (revoke_end zone_id_spec None space_id revoked_store = Ok ()) as E6 by (vm_compute; reflexivity).
    assert (policy_current zone_id_spec None space_id revoked_store = Err Revoked) as E7 by (vm_compute; reflexivity).
    pose proof (run_start zone_id_spec empty_store (λ _, eq_refl)) as H0.
    pose proof (run_create zone_id_spec _ _ _ Answered shared_space _ _ H0 E1) as H1.
    pose proof (run_create zone_id_spec _ _ _ Answered shared_space _ _ H1 E2) as H2.
    pose proof (run_created zone_id_spec raced_store [] [TCreate shared_space] [] None shared_space H2) as H3. rewrite E4 in H3.
    pose proof (run_current zone_id_spec raced_store _ _ None space_id H3) as H4. rewrite E5 in H4.
    pose proof (run_revoke zone_id_spec _ _ _ Answered space_id _ _ H4 E3) as H5.
    pose proof (run_revoked zone_id_spec revoked_store [] [TCreate shared_space] _ None space_id H5) as H6. rewrite E6 in H6.
    pose proof (run_current zone_id_spec revoked_store _ _ None space_id H6) as H7. rewrite E7 in H7. exact H7. }
  split; [exact Hrun|]. exact (space_policies_final zone_id_spec revoked_store _ _ Hrun).
Defined.

(** ** What the gates let through *)

(** The hook looks at an empty write before it asks who is writing: without an agent a
    message is refused and an empty one is accepted, and no reader of a session gets
    past it. *)
Lemma empty_writes_pass_fail_closed :
  fails (sys_write_one 5 (mkWriteRequest transcript "hi" 0) nobody (cluster_node ∅ ∅)) = true ∧
  succeeds ww_hit (sys_write_one 5 (mkWriteRequest transcript "" 0) nobody (cluster_node ∅ ∅)) = true ∧
  ∀ c, is_ok (session_decode "" c) = false.
Proof. split_and!; [vm_compute; reflexivity..|]. intros c. destruct jl_empty as [e He]. unfold session_decode. by rewrite He. Qed.

(** A JSON array is no object, so no sender is stamped, and the derived parser of the
    envelope reads an array as the fields in order. *)
Lemma array_sender_kept :
  message_at transcript (after_write mallory transcript (text (GenNode 2 [GenLeaf "bob"; GenLeaf "carol"; GenLeaf "pay"] : Tree))) =
    Some (mkMailbox "bob" "carol" "pay").
Proof. vm_compute. reflexivity. Qed.

(** The reader register of an agent called [transcript] is a transcript. *)
Lemma transcript_register_writable cid : in_scope (conversation_reader_path cid "transcript") PermWrite = true.
Proof.
  unfold in_scope, is_conversation_transcript_path, conversation_reader_path, CONVERSATIONS_BASE, READERS_SEGMENT, TRANSCRIPT_LEAF.
  rewrite !orb_true_iff. left; left. apply andb_true_iff. split.
  - apply ends_with_true. exists (CONVERSATIONS_BASE +:+ "/" +:+ cid +:+ "/readers"). rewrite <-!sapp_assoc. done.
  - done.
Qed.

(** The order of the segments does not count: a file below a directory [readers] is
    read by an agent of another organisation when [conversations] is anywhere. *)
Lemma registers_by_any_order :
  in_scope "/hr/readers/conversations/salaries" PermRead = true ∧ in_scope "/conversations/c0/private/keys/transcript" PermWrite = true.
Proof. done. Qed.

Definition dir_row (p : string) : FileMetadata := mkMeta p 0 None 1 1 DT_DIR (Some "root") None None None None None None None None.

Definition full_node : Node :=
  cluster_node {["/agents/bob/conversations" := dir_row "/agents/bob/conversations";
                 "/agents/bob/conversations/carol" := file_row "/agents/bob/conversations/carol" "e" "";
                 transcript := file_row transcript "t" "hello"]}
    {[(0%N, "e") := ""; (0%N, "t") := "hello"]}.

(** An agent of another organisation removes the whole chat list of an agent, and the
    transcript of a conversation it has no part in. *)
Lemma strangers_remove :
  (let x := run_call (CallRmdir "/agents/bob/conversations" true) stranger full_node in
   succeeds (λ _, true) x = true ∧ has_row "/agents/bob/conversations/carol" full_node = true ∧
   has_row "/agents/bob/conversations/carol" (after full_node x) = false) ∧
  (let x := run_call (CallUnlink transcript false) stranger full_node in
   succeeds (λ _, true) x = true ∧ has_row transcript full_node = true ∧ has_row transcript (after full_node x) = false).
Proof. split; vm_compute; split_and!; reflexivity. Qed.

(** Paths of the kernel are exempt from the gate. *)
Lemma strangers_write_system :
  succeeds ww_hit (sys_write_one 5 (mkWriteRequest "/__sys__/motd" "hello" 0) stranger full_node) = true ∧
  fails (sys_write_one 5 (mkWriteRequest "/sys/motd" "hello" 0) stranger full_node) = true.
Proof. split; vm_compute; reflexivity. Qed.
